(* ===== verification/_CoqProject ===== *)
-Q . S2P
Prelude.v
PartitionKey.v
PartitionJson.v
BackfillGroup.v
PartitionTheorems.v
Worklist.v
AssetGraph.v
AssetGraphProps.v
PetgraphRef.v
GraphTheorems.v
Composition.v
ExecutionPlan.v
PlanLevels.v
PlanBuild.v
PlanSubgraph.v
RunQueue.v
RunQueueTheorems.v
ConditionNode.v
Selection.v
SelectionTheorems.v
CondState.v
Cron.v
CondEval.v
CondDomains.v
CondExample.v
CondTree.v
CondFull.v
CondOccurs.v
CondTemporal.v
CondCache.v
CacheTheorems.v
TimeGrid.v
TimeGridTheorems.v
Universe.v
Window.v
Pass.v
PassTheorems.v
PassPlan.v
Staleness.v
Pools.v
PoolClaims.v
PoolTheorems.v
Backfills.v
BackfillSettle.v
BackfillRaces.v
BackfillExec.v
BackfillTheorems.v
OperatorRun.v
OperatorInv.v
OperatorTheorems.v
Retry.v
RetryLadder.v
RetryTheorems.v
JsonText.v
JsonParse.v
JsonTokens.v
JsonTree.v
JsonGrammar.v
JsonEditor.v
ConfigSchema.v
ConfigSecrets.v
ConfigTheorems.v
CacheStore.v
CacheFetch.v
CacheRefresh.v
CacheTracking.v
CacheRefreshTheorems.v
CacheFailed.v
GitRefs.v
GitRefsTheorems.v
GitResolver.v
GitResolverTheorems.v
Quantity.v
Admission.v
AdmissionTheorems.v
WorkspaceKey.v
Registry.v
LocationStatus.v
LocationWorld.v
LocationTheorems.v
