(* ===== verification/Prelude.v ===== *)
(** * Rivers: a verified model of the orchestrator's core

    Rivers orchestrates data assets: users declare assets and their dependencies, the core
    crate (rust/rivers-core) resolves them into a graph, plans executions, queues runs
    under concurrency limits, and a daemon evaluates automation conditions at every tick
    and dispatches what fires. On Kubernetes an operator (rust/rivers-operator) drives each
    run through an executor pod, which runs every step in Jobs of its own. This library
    models the core crate, of the operator the controllers of runs and of code locations, the
    resolution of git refs and image digests and the admission webhooks, the parts of the Python extension (python/src) that execute
    backfills and retry steps, and the text of the web UI's config editor, as executable
    functions, and proves what makes them correct. Sources are named below relative to
    rust/rivers-core/src, those of other crates in full.

    ** Parts and files

    Partition keys and backfills.
    - [PartitionKey], [PartitionJson] (storage/partition_key.rs): the key type, expansion
      of batched keys, equality and hashing, display text and JSON form.
    - [BackfillGroup] (execution/backfill.rs): grouping a backfill into runs, bundling
      the keys of a run. Theorems here and in [PartitionTheorems]: bundling and text
      round trips, the expansion against its preview and count, grouping as a partition
      of the keys.

    Graphs and plans.
    - [AssetGraph] (assets/graph.rs, repo/mod.rs): resolution of declared inputs, cycle
      detection, reachability, closures, lineage, topological sorting. petgraph is the
      class [Petgraph] with the laws of its algorithms, met by [PetgraphRef].
      [Worklist] and [AssetGraphProps] hold the worklist and path lemmas;
      [GraphTheorems] the claims.
    - [Composition] (composition.rs): the stack of graph-asset compositions.
    - [ExecutionPlan] (execution/plan.rs): plans of a graph, of a selection and of an
      action, and their levels. [PlanLevels], [PlanBuild] and [PlanSubgraph] show that plans have exactly the declared dependencies and that
      levels respect them and are as early as possible.

    Run queue.
    - [RunQueue] (concurrency/, storage statements of the tick): the tag counter and one
      tick of the coordinator; a statement of storage may fail at any point.
      [RunQueueTheorems]: a tick is the greedy admission in queue order, and no limit is
      exceeded whatever fails.

    Automation conditions.
    - [ConditionNode] (condition/node.rs): condition trees, their rewriting and labels.
    - [Selection] (condition/partition.rs): selections of partition keys, mappings
      between assets; [SelectionTheorems] their algebra.
    - [CondState] (condition/state.rs), [Cron] (condition/eval/cron.rs), [CondEval] and
      [CondDomains] (condition/eval/mod.rs, domain.rs, support.rs): the evaluator, generic
      in its domain (booleans or selections), with the pivots into upstream assets.
      [CondTree], [CondFull], [CondOccurs], [CondTemporal]:
      no panic, stable node indices, short-circuits that cannot be observed, and what
      Since and NewlyTrue mean over a run of ticks. [CondExample] is a concrete instance.
    - [CondCache] (condition/cache/): the incremental view of storage; [CacheTheorems]
      shows its invariants, its rollback and what a refresh does to failure floors.
    - [CacheStore], [CacheFetch], [CacheRefresh] (condition/cache/refresh.rs and mod.rs, the
      statements they issue in per_code_location.rs and backend.rs): the whole refresh and the
      initial load, against a store that may move between any two statements, each of which
      may fail. [CacheTracking], [CacheRefreshTheorems]: live runs
      are tracked, finished ones are not, a refresh returns whatever the graph, and one that
      fails leaves the cache alone. [CacheFailed]: which partitions storage reports as failed.
    - [TimeGrid] (timegrid.rs, util.rs), [Universe] (condition/pass/universe.rs), [Window]
      (condition/pass/window.rs): time-window grids, the evolving sets of partition keys
      and the latest window. [TimeGridTheorems]: exact enumeration and its 64-bit bounds;
      [Universe] also shows universes exact, and [Window] the derivation from the grid equal
      to the scan.
    - [Pass] (condition/pass/mod.rs): one tick, from evaluation through the dispatch plan
      to the commit, the intent persisted in between and its recovery. [PassTheorems] and
      [PassPlan]: the plan dispatches exactly what fired; an asset that
      was not dispatched keeps its trigger; the intent is what the commit writes, and
      recovery restores it once.
    - [Staleness] (staleness.rs): whether each asset is up to date. The
      computation always returns; on a recorded acyclic graph its verdicts are those of an
      inductive definition of being up to date.
    - [Pools] (storage/pool.rs, surrealdb_backend/pools.rs, storage/retry.rs and the pool
      statements of backend.rs and per_code_location.rs): slots of concurrency pools, the
      claim transaction, leases and the retry loop. [PoolClaims] interleaves claims under
      snapshot isolation with all other statements and the clock: assets with exclusive
      actions stay exclusive and limits are kept, but for slots whose lease was renewed after it
      had expired, which the code allows. [PoolTheorems]: what an attempt returns,
      when claiming settles, and that the two pool pages agree.

    Backfills.
    - [Backfills] (storage/backfill.rs; the backfill and run statements of
      surrealdb_backend/backend.rs, run_queue.rs, rows.rs): the records and transactions of
      backfills, their runs and outcomes, from creation to settlement and cancellation.
      [BackfillSettle]: a backfill settles with the status its outcomes give.
    - [BackfillRaces]: submission, cancel, coordinator (which reads the queue and writes later),
      monitor and executors interleaved, as a step relation.
    - [BackfillExec] (python/src/repository/backfill.rs, handle.rs, validation.rs): the
      executors in the process and through the queue, and the cascade of a cancel.
      Here and in [BackfillTheorems]: an execution that is not canceled and gets something
      launched settles every key as the events alone determine it, a cancel after the submission
      leaves nothing of the batch in the queue, and the races in which that is not enough.

    Runs on Kubernetes.
    - [OperatorRun] (rust/rivers-operator/src/run/, the run resource of rust/rivers-crd): the
      controller of a run, handler by handler; every call to the API server or to storage
      may fail, before or after taking effect. [OperatorInv], [OperatorTheorems]: no pass panics
      on any version of a run; as long as passes act on the current version, phases
      follow the state machine and terminal ones are final, a restart or a cancel cut short
      is made up, and the finalizer goes last; and a pass on an older version can start a run over.
    - [Retry] (execution/retry.rs, execution/compute.rs, rust/rivers-k8s/src/compute.rs): the
      decision to retry, the delay in IEEE doubles, escalation of compute, the metadata of
      retry events.
    - [RetryLadder] (python/src/executor/kubernetes.rs, rust/rivers-k8s/src/classify.rs): the
      monitor of a step, which polls events and Job of an attempt, retries, and resumes from
      the recorded events. [RetryTheorems]: the delay never panics and is bounded, and a
      monitor that is restarted ends as one that never died, but for one moment, if storage
      keeps the retry events and answers.

    Code locations.
    - [GitRefs] (rust/rivers-operator/src/codelocation/git/: mod.rs and the read loops of
      http.rs and ssh.rs): reading a ref advertisement as it arrives and answering a selector
      from it; the rules of git urls, ssh targets and quoting for the remote shell.
      [GitRefsTheorems]: the answer does not depend on the reads or the transport, and is that
      of the whole advertisement.
    - [GitResolver] (git/mod.rs): resolves of many code locations over one cache, as a step
      relation. [GitResolverTheorems]: one fetch at a time for a key with nobody stranded,
      honest answers, and the backoff of failing refs.
    - [Admission] (rust/rivers-operator/src/webhook/admission.rs): both webhooks and the rules
      of sources, urls and paths. [AdmissionTheorems]: what a stored run or code location can
      be. [Quantity] (rust/rivers-crd/src/quantity.rs): regular expressions, and that the test
      of a quantity is its schema pattern. [WorkspaceKey] (rust/rivers-crd/src/crd/run.rs): one
      directory has one tree, with a plain name.
    - [Registry] (codelocation/registry.rs): manifest requests, and the cache of digests all
      code locations share, as a step relation between its locks, with a log of requests and
      responses. An answer was served for its url, an unchanged one for its etag, and one from
      the cache is recent.
    - [LocationStatus] (codelocation/reconcile/): a pass over a code location in both modes,
      as leader and as follower, from what the registry, the resolver and the API server
      answer to the objects it applies and the status it publishes. [LocationWorld]: passes,
      edits and lost writes in any order; runs get only what every pod was seen to run.
      [LocationTheorems]: a pass that finds nothing new writes nothing, whichever replica makes
      it, and no pass lets go of a tree in use by a run that names its code location exactly.

    Config editor of the web UI.
    - [JsonText], [JsonParse] (rust/rivers-ui/src/json_text.rs): tokens, literals, the parser
      that keeps a spanned tree past the first error, the context of a caret, paths and offset
      conversions. [JsonTokens], [JsonTree], [JsonGrammar], [JsonEditor]: tokens cover the
      text, parsing always returns a well-nested tree and accepts exactly blank text and a grammar
      of JSON, no slice ever cuts a character, and offsets convert back and forth.
    - [ConfigSchema] (config_schema.rs, components/config_editor.rs): JSON values, the
      references of a schema, the secrets whose defaults are dropped, classes placed in the
      launch document, its template, a run laid over it and the payload. [ConfigSecrets]: the
      search for secrets is exact, and no default is left beside one. [ConfigTheorems]: references
      keep their meaning in the document and no mask of a secret is offered there, but for fields
      named default; an untouched launch sends nothing, and the template adds nothing to a rerun.

    The pass calls the evaluator with contexts built from the cache ([condition_context]),
    the evaluator calls selections and cron, the pass refreshes universes from grids, and
    the graph's topological order is the order of the pass's conditions. Admission applies the
    url rules the resolver applies, and the resolver's requests are read by the matcher; a pass
    over a code location takes the answers of the resolver and of the registry client, and the
    status it writes is what the webhook stamps runs with.

    ** How the code is modelled

    A [HashMap] is a [gmap], a [HashSet] a [gset]; partition keys in them are canonical
    ([norm]). Where an iteration order could matter it is a parameter ([HashIter]) or a
    list. State is passed explicitly; a panic is [None] (in the evaluator, a parameter
    that no result depends on, if the schedules of the conditions parse); errors are sums. Machine integers keep their width where
    it matters: [u32] node counters wrap, [usize] counts saturate or overflow as the code
    says, grid arithmetic is checked [i64] but for one sum that wraps, intervals are IEEE doubles ([spec_float]).
    Third-party crates (petgraph, croner, jiff, serde_json, the text of an [f64]) are
    classes or parameters (serde_json, kube_quantity and [f64::powi] of the retries); each
    has a concrete instance with which the examples and witnesses compute. What surrounds a
    state machine (other parties, faults, the clock) is part of its step relation.

    ** Fuel

    Loops that are not structural take fuel computed from their input: graph traversals
    the number of nodes, the level search the number of steps and edges, the time-based
    subset the queue and the conditions left, the odometer the number of index vectors,
    an interval walk the number of ticks in the range, a cron walk one iteration per
    second of the range. The theorems about them are of what they return, so the fuel is
    shown to be enough; for cron grids under the spacing of occurrences ([CronSpaced]).
    Looking for the neighbours of an instant on a cron grid takes two occurrences, which
    are at least one second apart. Kahn's order takes the number of nodes, the claim's retry
    loop the number of retries, the ladder of a step one turn per retry and two more, polling
    an attempt four cycles after its pod has ended, the tokenizer the bytes of the text, the
    editor's parser twice the tokens and two, the matcher of refs the bytes pending and one
    (a packet line is at least four bytes long), the search for a secret one jump per
    reference of the schema and one, the walk downstream of a cache refresh
    the keys it starts from and those the lists of dependents name. [cron_tick_between] has the 2000 iterations of the code.

    ** Not modelled

    Storage (SurrealDB queries, except the statements of the coordinator, the pools, the
    backfills, the cache and the runs named above, and the store of the recovery); the Python
    bindings, the executors beyond those above, and the daemon loop; of the config editor the checks against a schema, missing fields and
    completions; the rest of the web UI; of
    the operator connecting to git hosts and their keys, the credentials in Secrets, and the
    specifications of pods, Jobs, Deployments and claims; gRPC and the other CRDs. These are
    mostly calls into services, toolkits and generated code. Logging and timing are left out
    throughout, and the memos that only avoid recomputation. *)

From stdpp Require Export base tactics option list list_numbers gmap strings
  sorting fin_maps fin_sets fin_map_dom relations.
From Stdlib Require Export Ascii Lia.

#[export] Set Warnings "-register-all,-clear-no-such-hyp".

Declare Scope rivers_scope.
Delimit Scope rivers_scope with rivers.
#[global] Open Scope rivers_scope.

(** The lemmas that discharge well-formedness side conditions. *)
Create HintDb rivers.

(** [usize] on the 64-bit targets the project ships for. *)
Definition usize_max : N := (2 ^ 64 - 1)%N.

(** [+= 1] on a [u32]; the release profile does not check overflow. *)
Definition u32_incr (n : N) : N := ((n + 1) mod 2 ^ 32)%N.

(** [i64] addition and subtraction, unchecked likewise. *)
Definition i64_wrap (z : Z) : Z := ((z + 2 ^ 63) mod 2 ^ 64 - 2 ^ 63)%Z.

Lemma i64_wrap_id z : (- 2 ^ 63 <= z < 2 ^ 63)%Z → i64_wrap z = z.
Proof. intros H. unfold i64_wrap. rewrite Z.mod_small by lia. lia. Qed.

Lemma incr_mod n : u32_incr (n mod 2 ^ 32) = ((n + 1) mod 2 ^ 32)%N.
Proof. unfold u32_incr. by rewrite N.Div0.add_mod_idemp_l. Qed.

(** ** Stable sorting

    [slice::sort_by] of the Rust standard library is a stable sort: its result
    is determined by the comparison, so insertion sort, which is stable, computes
    the same list. *)
Section stable_sort.
Context {A : Type} (leb : A → A → bool).

Fixpoint insert_by (x : A) (l : list A) : list A :=
  match l with
  | [] => [x]
  | y :: l' => if leb x y then x :: y :: l' else y :: insert_by x l'
  end.

Definition sort_by (l : list A) : list A := foldr insert_by [] l.

Lemma insert_by_perm x l : insert_by x l ≡ₚ x :: l.
Proof.
  induction l as [|y l IH]; simpl; [done|].
  destruct (leb x y); [done|]. rewrite IH. constructor.
Qed.

Lemma sort_by_perm l : sort_by l ≡ₚ l.
Proof. induction l as [|x l IH]; simpl; [done|]. by rewrite insert_by_perm, IH. Qed.

Lemma elem_of_sort_by x l : x ∈ sort_by l ↔ x ∈ l.
Proof. by rewrite sort_by_perm. Qed.

Lemma length_sort_by l : length (sort_by l) = length l.
Proof. by rewrite sort_by_perm. Qed.

Section order.
Context (leb_trans : ∀ x y z, leb x y → leb y z → leb x z).
Context (leb_total : ∀ x y, leb x y ∨ leb y x).

Lemma insert_by_sorted x l :
  StronglySorted leb l → StronglySorted leb (insert_by x l).
Proof.
  induction 1 as [|y l Hs IH Hy]; simpl; [by repeat constructor|].
  destruct (leb x y) eqn:E.
  - constructor; [by constructor|]. constructor; [by rewrite E|].
    eapply Forall_impl; [exact Hy|]. intros z Hz. eapply leb_trans; [|exact Hz].
    by rewrite E.
  - constructor; [done|]. rewrite insert_by_perm. constructor; [|done].
    destruct (leb_total x y); [by rewrite E in *|done].
Qed.

Lemma sort_by_sorted l : StronglySorted leb (sort_by l).
Proof. induction l; simpl; [constructor|]. by apply insert_by_sorted. Qed.
End order.

(** A list already in order is left as it is. *)
Lemma sort_by_id l : StronglySorted leb l → sort_by l = l.
Proof.
  induction 1 as [|x l Hs IH Hx]; simpl; [done|]. rewrite IH.
  destruct l as [|y l]; simpl; [done|].
  inversion Hx as [|?? Hy]; subst. destruct (leb x y); done.
Qed.

(** Stability: the elements of one comparison class keep their order. *)
Lemma insert_by_stable (P : A → bool) x l :
  (∀ a b, P a → P b → leb a b) →
  filter P (insert_by x l) = filter P (x :: l).
Proof.
  intros HP. induction l as [|y l IH]; simpl; [done|].
  destruct (leb x y) eqn:E; [done|].
  rewrite !filter_cons in *. rewrite IH.
  destruct (decide (P x)) as [Hx|]; destruct (decide (P y)) as [Hy|]; try done.
  specialize (HP x y Hx Hy). by rewrite E in HP.
Qed.

Lemma sort_by_stable (P : A → bool) l :
  (∀ a b, P a → P b → leb a b) → filter P (sort_by l) = filter P l.
Proof.
  intros HP. induction l as [|x l IH]; simpl; [done|].
  rewrite insert_by_stable by done. by rewrite !filter_cons, IH.
Qed.
End stable_sort.

(** ** Bounded prefixes

    [Iterator::take] with a [usize] bound. The bound is kept in binary, so that
    [usize::MAX] costs nothing to evaluate. *)
Fixpoint takeN {A} (n : N) (l : list A) : list A :=
  match l with
  | [] => []
  | x :: l' => if (n =? 0)%N then [] else x :: takeN (n - 1) l'
  end.

Definition lenN {A} (l : list A) : N := N.of_nat (length l).

Lemma takeN_take {A} n (l : list A) : takeN n l = take (N.to_nat n) l.
Proof.
  revert n. induction l as [|x l IH]; intros n; simpl; [by rewrite take_nil|].
  destruct (N.eqb_spec n 0) as [->|Hn]; [done|].
  rewrite IH. replace (N.to_nat n) with (S (N.to_nat (n - 1))) by lia. done.
Qed.

Lemma takeN_0 {A} (l : list A) : takeN 0 l = [].
Proof. by destruct l. Qed.

Lemma takeN_ge {A} n (l : list A) : (lenN l <= n)%N → takeN n l = l.
Proof. unfold lenN. intros. rewrite takeN_take. apply take_ge. lia. Qed.

Lemma lenN_takeN {A} n (l : list A) : lenN (takeN n l) = N.min n (lenN l).
Proof. unfold lenN. rewrite takeN_take, length_take. lia. Qed.

Lemma takeN_app_le {A} n (l k : list A) :
  (n <= lenN l)%N → takeN n (l ++ k) = takeN n l.
Proof. unfold lenN. intros. rewrite !takeN_take. apply take_app_le. lia. Qed.

Lemma takeN_app_ge {A} n (l k : list A) :
  (lenN l <= n)%N → takeN n (l ++ k) = l ++ takeN (n - lenN l) k.
Proof.
  unfold lenN. intros. rewrite !takeN_take.
  rewrite take_app_ge by lia. f_equal. f_equal. lia.
Qed.

Lemma takeN_takeN {A} n m (l : list A) :
  takeN n (takeN m l) = takeN (N.min n m) l.
Proof. rewrite !takeN_take, take_take. f_equal. lia. Qed.

(** A prefix of a [flat_map] needs only a prefix of its input, when the body
    either always or never produces something. *)
Lemma takeN_bind_le {A B} m k (f : A → list B) (l : list A) :
  (m <= k)%N → (∀ x, x ∈ l → f x ≠ []) →
  takeN m (takeN k l ≫= f) = takeN m (l ≫= f).
Proof.
  revert m k. induction l as [|x l IH]; intros m k Hmk Hf; simpl; [done|].
  destruct (N.eqb_spec k 0) as [->|Hk].
  { replace m with 0%N by lia. by rewrite !takeN_0. }
  rewrite !bind_cons.
  assert (1 <= lenN (f x))%N as Hx.
  { specialize (Hf x ltac:(left)). unfold lenN. destruct (f x); [done|simpl; lia]. }
  destruct (decide (m <= lenN (f x))%N) as [Hle|Hgt].
  - by rewrite !takeN_app_le.
  - rewrite !takeN_app_ge by lia. f_equal. apply IH; [lia|].
    intros y Hy. apply Hf. by right.
Qed.

Lemma takeN_bind {A B} n (f : A → list B) (l : list A) :
  (∀ x, x ∈ l → f x ≠ []) → takeN n (takeN n l ≫= f) = takeN n (l ≫= f).
Proof. by apply takeN_bind_le. Qed.

(** ** Strings: [str::contains(char)], [split(char)], [split_once(char)], [join] *)
Fixpoint has_char (c : ascii) (s : string) : bool :=
  match s with
  | EmptyString => false
  | String a s' => Ascii.eqb a c || has_char c s'
  end.

Fixpoint split_char (c : ascii) (s : string) : list string :=
  match s with
  | EmptyString => [EmptyString]
  | String a s' =>
      if Ascii.eqb a c then EmptyString :: split_char c s'
      else match split_char c s' with
           | [] => [String a EmptyString]
           | p :: ps => String a p :: ps
           end
  end.

Fixpoint split_once (c : ascii) (s : string) : option (string * string) :=
  match s with
  | EmptyString => None
  | String a s' =>
      if Ascii.eqb a c then Some (EmptyString, s')
      else match split_once c s' with
           | Some (x, y) => Some (String a x, y)
           | None => None
           end
  end.

Definition char_str (c : ascii) : string := String c EmptyString.

Lemma has_char_app c s t : has_char c (s +:+ t) = has_char c s || has_char c t.
Proof. induction s as [|a s IH]; simpl; [done|]. by rewrite IH, orb_assoc. Qed.

Lemma split_char_ne c s : split_char c s ≠ [].
Proof.
  destruct s as [|a s]; simpl; [done|]. destruct (Ascii.eqb a c); [done|].
  by destruct (split_char c s).
Qed.

Lemma split_char_none c s : has_char c s = false → split_char c s = [s].
Proof.
  induction s as [|a s IH]; simpl; [done|]. intros [-> H]%orb_false_iff.
  by rewrite (IH H).
Qed.

Lemma split_char_app c s t :
  has_char c s = false →
  split_char c (s +:+ String c t) = s :: split_char c t.
Proof.
  induction s as [|a s IH]; simpl; [by rewrite Ascii.eqb_refl|].
  intros [-> H]%orb_false_iff. by rewrite (IH H).
Qed.

Lemma split_once_app c s t :
  has_char c s = false → split_once c (s +:+ String c t) = Some (s, t).
Proof.
  induction s as [|a s IH]; simpl; [by rewrite Ascii.eqb_refl|].
  intros [-> H]%orb_false_iff. by rewrite (IH H).
Qed.

(** Splitting on the separator undoes [join], for pieces free of it. *)
Lemma split_char_concat c l :
  l ≠ [] → Forall (λ s, has_char c s = false) l →
  split_char c (String.concat (char_str c) l) = l.
Proof.
  intros Hne Hl. induction Hl as [|s l Hs Hl IH]; [done|].
  destruct l as [|t l]; [by apply split_char_none|].
  change (String.concat (char_str c) (s :: t :: l))
    with (s +:+ String c (String.concat (char_str c) (t :: l))).
  rewrite split_char_app by done. f_equal. by apply IH.
Qed.

Lemma has_char_concat c sep l :
  has_char c (String.concat sep l) = true →
  has_char c sep = true ∨ Exists (λ s, has_char c s = true) l.
Proof.
  induction l as [|s l IH]; [done|]. destruct l as [|t l].
  - simpl. intros. right. by left.
  - change (String.concat sep (s :: t :: l))
      with (s +:+ sep +:+ String.concat sep (t :: l)).
    rewrite !has_char_app, !orb_true_iff. intros [?|[?|H%IH]].
    + right. by left.
    + by left.
    + destruct H as [|]; [by left|right; by right].
Qed.

(** ** The lexicographic order of strings as a [sort_by] comparison *)
Lemma string_leb_trans x y z : String.leb x y → String.leb y z → String.leb x z.
Proof. apply (transitivity (R := String.le)). Qed.

Lemma string_leb_total x y : String.leb x y ∨ String.leb y x.
Proof. apply (total String.le). Qed.

Lemma string_leb_antisym x y : String.leb x y → String.leb y x → x = y.
Proof. apply (anti_symm String.le). Qed.

Lemma string_leb_refl x : String.leb x x.
Proof. apply (reflexivity (R := String.le)). Qed.

(** ** Boolean quantifiers over lists *)
Lemma forallb_Forall {A} (f : A → bool) l :
  forallb f l = true ↔ Forall (λ x, f x = true) l.
Proof.
  induction l as [|x l IH]; simpl; [by split|].
  by rewrite andb_true_iff, Forall_cons, IH.
Qed.

Lemma existsb_Exists {A} (f : A → bool) l :
  existsb f l = true ↔ Exists (λ x, f x = true) l.
Proof.
  induction l as [|x l IH]; simpl; [split; [done|by inversion 1]|].
  by rewrite orb_true_iff, Exists_cons, IH.
Qed.

(** ** [BTreeMap<String, V>] as the sorted list of its entries *)
Fixpoint bt_insert {V} (k : string) (v : V) (m : list (string * V)) : list (string * V) :=
  match m with
  | [] => [(k, v)]
  | (k', v') :: m' =>
      if String.eqb k k' then (k, v) :: m'
      else if String.leb k k' then (k, v) :: (k', v') :: m'
      else (k', v') :: bt_insert k v m'
  end.

(** [iter.collect::<BTreeMap<_, _>>()]: a later entry replaces an earlier one. *)
Definition bt_collect {V} (l : list (string * V)) : list (string * V) :=
  foldl (λ m e, bt_insert e.1 e.2 m) [] l.

Definition key_leb {V} (a b : string * V) : bool := String.leb a.1 b.1.

Lemma bt_insert_fresh {V} k (v : V) m :
  k ∉ m.*1 → bt_insert k v m = insert_by key_leb (k, v) m.
Proof.
  induction m as [|[k' v'] m IH]; simpl; [done|]. rewrite not_elem_of_cons.
  intros [Hne Hm]. destruct (String.eqb_spec k k'); [done|]. unfold key_leb at 1. simpl.
  destruct (String.leb k k'); [done|]. by rewrite IH.
Qed.

Lemma foldl_bt_insert {V} (l m : list (string * V)) :
  NoDup (l.*1 ++ m.*1) →
  foldl (λ m e, bt_insert e.1 e.2 m) m l = foldl (λ m e, insert_by key_leb e m) m l.
Proof.
  revert m. induction l as [|[k v] l IH]; intros m; simpl; [done|].
  rewrite NoDup_cons, not_elem_of_app. intros [[Hl Hm] Hnd].
  rewrite bt_insert_fresh by done. apply IH.
  rewrite insert_by_perm. simpl. rewrite <-Permutation_middle.
  apply NoDup_cons. split; [|done]. by rewrite not_elem_of_app.
Qed.

Lemma key_sorted_unique {V} (l1 l2 : list (string * V)) :
  NoDup l1.*1 → l1 ≡ₚ l2 → StronglySorted key_leb l1 → StronglySorted key_leb l2 → l1 = l2.
Proof.
  intros Hnd Hp H1 H2. eapply StronglySorted_unique_strong; [|exact H1|exact H2|exact Hp].
  intros [k1 v1] [k2 v2] Hx Hy Ha Hb. rewrite <-Hp in Hy.
  assert (k1 = k2) as -> by by apply string_leb_antisym.
  apply list_elem_of_lookup in Hx as [i Hi], Hy as [j Hj].
  assert (i = j) as ->.
  { eapply NoDup_lookup; [exact Hnd| |]; rewrite list_lookup_fmap.
    - by rewrite Hi. - by rewrite Hj. }
  congruence.
Qed.

Lemma sort_by_key_sorted {V} (l : list (string * V)) :
  StronglySorted key_leb (sort_by key_leb l).
Proof.
  apply sort_by_sorted; intros; [by eapply string_leb_trans|apply string_leb_total].
Qed.

Lemma foldl_insert_by {V} (l m : list (string * V)) :
  StronglySorted key_leb m →
  foldl (λ m e, insert_by key_leb e m) m l ≡ₚ l ++ m ∧
  StronglySorted key_leb (foldl (λ m e, insert_by key_leb e m) m l).
Proof.
  revert m. induction l as [|e l IH]; intros m Hm; simpl; [done|].
  destruct (IH (insert_by key_leb e m)) as [Hp Hs].
  { apply insert_by_sorted; [|by intros; apply string_leb_total|done].
    intros. by eapply string_leb_trans. }
  split; [|done]. rewrite Hp, insert_by_perm. by rewrite Permutation_middle.
Qed.

(** With distinct keys, collecting into a [BTreeMap] is sorting by key. *)
Lemma bt_collect_sort {V} (l : list (string * V)) :
  NoDup l.*1 → bt_collect l = sort_by key_leb l.
Proof.
  intros Hnd. unfold bt_collect. rewrite foldl_bt_insert by by rewrite app_nil_r.
  destruct (foldl_insert_by l []) as [Hp Hs]; [constructor|]. rewrite app_nil_r in Hp.
  apply key_sorted_unique; [by rewrite Hp|by rewrite Hp, sort_by_perm|done|].
  apply sort_by_key_sorted.
Qed.

(** ** Lexicographic orders: [Ord] of [Vec<T>] and of pairs *)
Record TotalLeb {A} (leb : A → A → bool) : Prop := {
  tl_trans : ∀ x y z, leb x y → leb y z → leb x z;
  tl_total : ∀ x y, leb x y ∨ leb y x;
  tl_antisym : ∀ x y, leb x y → leb y x → x = y;
}.

Lemma tl_refl {A} (leb : A → A → bool) : TotalLeb leb → ∀ x, leb x x.
Proof. intros H x. by destruct (tl_total _ H x x). Qed.

Lemma string_total_leb : TotalLeb String.leb.
Proof.
  split; [apply string_leb_trans|apply string_leb_total|apply string_leb_antisym].
Qed.

Fixpoint list_leb {A} (leb : A → A → bool) (l1 l2 : list A) : bool :=
  match l1, l2 with
  | [], _ => true
  | _ :: _, [] => false
  | x :: l1', y :: l2' => leb x y && (negb (leb y x) || list_leb leb l1' l2')
  end.

Definition pair_leb {A B} (la : A → A → bool) (lb : B → B → bool) (p q : A * B) : bool :=
  la p.1 q.1 && (negb (la q.1 p.1) || lb p.2 q.2).

Lemma list_total_leb {A} (leb : A → A → bool) : TotalLeb leb → TotalLeb (list_leb leb).
Proof.
  intros [Ht Hto Ha]. split.
  - induction x as [|x l1 IH]; intros [|y l2] [|z l3]; simpl; try done.
    rewrite !andb_True, !orb_True, !negb_True.
    intros [Hxy H1] [Hyz H2]. split; [by eapply Ht|].
    destruct (decide (leb z x)) as [Hzx|]; [|by left]. right.
    destruct H1 as [[]|H1]; [by eapply Ht|]. destruct H2 as [[]|H2]; [by eapply Ht|].
    by eapply IH.
  - induction x as [|x l1 IH]; intros [|y l2]; simpl; auto.
    rewrite !andb_True, !orb_True, !negb_True.
    destruct (decide (leb x y)), (decide (leb y x)), (IH l2), (Hto x y); naive_solver.
  - induction x as [|x l1 IH]; intros [|y l2]; simpl; try done.
    rewrite !andb_True, !orb_True, !negb_True.
    intros [Hxy H1] [Hyx H2]. assert (x = y) as -> by auto. f_equal.
    apply IH; [by destruct H1|by destruct H2].
Qed.

Lemma pair_total_leb {A B} (la : A → A → bool) (lb : B → B → bool) :
  TotalLeb la → TotalLeb lb → TotalLeb (pair_leb la lb).
Proof.
  intros [Ht Hto Ha] [Ht' Hto' Ha']. unfold pair_leb. split.
  - intros [a1 b1] [a2 b2] [a3 b3]; simpl. rewrite !andb_True, !orb_True, !negb_True.
    intros [Hxy H1] [Hyz H2]. split; [by eapply Ht|].
    destruct (decide (la a3 a1)); [|by left]. right.
    destruct H1 as [[]|H1]; [by eapply Ht|]. destruct H2 as [[]|H2]; [by eapply Ht|].
    by eapply Ht'.
  - intros [a1 b1] [a2 b2]; simpl. rewrite !andb_True, !orb_True, !negb_True.
    destruct (decide (la a1 a2)), (decide (la a2 a1)), (Hto a1 a2), (Hto' b1 b2); naive_solver.
  - intros [a1 b1] [a2 b2]; simpl. rewrite !andb_True, !orb_True, !negb_True.
    intros [Hxy H1] [Hyx H2]. assert (a1 = a2) as -> by auto. f_equal.
    apply Ha'; [by destruct H1|by destruct H2].
Qed.

(** Sorting by an injective total key does not depend on the input order. *)
Lemma sort_by_unique {A} (leb : A → A → bool) (l1 l2 : list A) :
  (∀ x y z, leb x y → leb y z → leb x z) → (∀ x y, leb x y ∨ leb y x) →
  (∀ x y, x ∈ l1 → y ∈ l1 → leb x y → leb y x → x = y) →
  l1 ≡ₚ l2 → sort_by leb l1 = sort_by leb l2.
Proof.
  intros Ht Hto Ha Hp. apply (StronglySorted_unique_strong leb).
  - intros x y Hx Hy. apply elem_of_sort_by in Hx, Hy. rewrite <-Hp in Hy. by apply Ha.
  - by apply sort_by_sorted.
  - by apply sort_by_sorted.
  - by rewrite !sort_by_perm.
Qed.

Lemma StronglySorted_fmap_inv {A B} (f : A → B) (R : relation B) l :
  StronglySorted R (f <$> l) → StronglySorted (λ x y, R (f x) (f y)) l.
Proof.
  induction l as [|x l IH]; [constructor|].
  rewrite fmap_cons. intros H. apply StronglySorted_inv in H as [H1 H2]. constructor; [by apply IH|].
  rewrite Forall_fmap in H2. exact H2.
Qed.

(** A fold keeps what every step keeps. *)
Lemma foldl_keeps {A B} (P : A → Prop) (f : A → B → A) l a :
  (∀ a b, P a → P (f a b)) → P a → P (foldl f a l).
Proof. intros Hf. revert a. induction l; simpl; auto. Qed.

Lemma filter_id {A} (P : A → Prop) `{∀ x, Decision (P x)} (l : list A) :
  (∀ x, x ∈ l → P x) → filter P l = l.
Proof.
  induction l as [|x l IH]; intros HP; [done|]. rewrite filter_cons_True by (apply HP; left).
  f_equal. apply IH. intros y Hy. apply HP. by right.
Qed.

(** Skipping elements is folding over the others. *)
Lemma foldl_filter_if {A B} (P : A → Prop) `{∀ x, Decision (P x)} (f : B → A → B) l b :
  foldl (λ b x, if bool_decide (P x) then b else f b x) b l = foldl f b (filter (λ x, ¬ P x) l).
Proof.
  revert b. induction l as [|x l IH]; intros b; [done|]. cbn [foldl]. rewrite IH, filter_cons.
  case_bool_decide; case_decide; done.
Qed.

(** ** Hash-set iteration

    Iterating a [HashSet] visits each element once, in an order that is not
    specified. A definition whose result depends on that order takes it as a
    parameter. *)
Class HashIter (A : Type) `{Countable A} := {
  hash_iter : gset A → list A;
  hash_iter_perm : ∀ X, hash_iter X ≡ₚ elements X;
}.

#[export] Program Instance elements_iter `{Countable A} : HashIter A | 10 :=
  {| hash_iter := elements |}.
Next Obligation. done. Qed.

Lemma elem_of_hash_iter `{HashIter A} (x : A) X : x ∈ hash_iter X ↔ x ∈ X.
Proof. by rewrite hash_iter_perm, elem_of_elements. Qed.

Lemma sum_list_fmap_cons {A} (f : A → nat) x l :
  sum_list (f <$> x :: l) = f x + sum_list (f <$> l).
Proof. done. Qed.

Lemma sum_list_add {A} (f h : A → nat) l :
  sum_list ((λ a, f a + h a) <$> l) = sum_list (f <$> l) + sum_list (h <$> l).
Proof. induction l; [done|]. rewrite !sum_list_fmap_cons. lia. Qed.

Lemma sum_indicator_le {A} `{EqDecision A} (x : A) l :
  NoDup l → sum_list ((λ a, if decide (x = a) then 1 else 0) <$> l) ≤ 1.
Proof.
  induction 1 as [|a l Ha _ IH]; [simpl; lia|].
  rewrite sum_list_fmap_cons. case_decide as E; [|done]. subst a.
  enough (sum_list ((λ a, if decide (x = a) then 1 else 0) <$> l) = 0) as ->; [done|].
  clear IH. induction l as [|b l IH]; [done|]. rewrite sum_list_fmap_cons.
  rewrite decide_False by set_solver. apply IH. set_solver.
Qed.

(** The classes of a list under a key, over distinct key values, fit in the list. *)
Lemma sum_classes_le {A B} `{EqDecision A} (key : B → A) (es : list B) (l : list A) :
  NoDup l →
  sum_list ((λ a, length (filter (λ e, key e = a) es)) <$> l) ≤ length es.
Proof.
  intros Hnd. induction es as [|e es IH].
  { clear. induction l as [|i l IHl]; [done|exact IHl]. }
  transitivity (sum_list ((λ a, (if decide (key e = a) then 1 else 0) +
    length (filter (λ e, key e = a) es)) <$> l)).
  { clear. induction l as [|a l IHl]; [done|]. rewrite !sum_list_fmap_cons.
    apply Nat.add_le_mono; [|done]. rewrite filter_cons. case_decide; simpl; lia. }
  rewrite sum_list_add. simpl. pose proof (sum_indicator_le (key e) l Hnd). lia.
Qed.

(** ** Order of occurrence *)
(** [x] comes before [y] in [l]. *)
Definition before {A} (l : list A) (x y : A) : Prop :=
  ∃ i j, l !! i = Some x ∧ l !! j = Some y ∧ i < j.

Lemma before_cons {A} (z : A) l x y : before l x y → before (z :: l) x y.
Proof. intros (i & j & Hi & Hj & Hl). exists (S i), (S j). split_and!; [done..|lia]. Qed.

Lemma before_head {A} (x y : A) l : y ∈ l → before (x :: l) x y.
Proof. intros [j Hj]%list_elem_of_lookup. exists 0, (S j). split_and!; [done..|lia]. Qed.

Lemma before_split {A} (l : list A) x y :
  before l x y ↔ ∃ l1 l2 l3, l = l1 ++ x :: l2 ++ y :: l3.
Proof.
  split.
  - intros (i & j & Hi & Hj & Hlt). exists (take i l), (take (j - S i) (drop (S i) l)), (drop (S j) l).
    rewrite <-(take_drop_middle l i x Hi) at 1. do 2 f_equal.
    rewrite <-(take_drop_middle (drop (S i) l) (j - S i) y) at 1.
    + rewrite drop_drop. do 3 f_equal. lia.
    + rewrite lookup_drop. rewrite <-Hj. f_equal. lia.
  - intros (l1 & l2 & l3 & ->). exists (length l1), (length l1 + S (length l2)).
    split_and!; [by rewrite list_lookup_middle| |lia].
    rewrite lookup_app_r by lia. replace (_ - _) with (S (length l2)) by lia. simpl.
    by rewrite list_lookup_middle.
Qed.

Lemma before_filter {A} (P : A → Prop) `{∀ x, Decision (P x)} l x y :
  before l x y → P x → P y → before (filter P l) x y.
Proof.
  rewrite !before_split. intros (l1 & l2 & l3 & ->) Hx Hy.
  exists (filter P l1), (filter P l2), (filter P l3).
  by rewrite filter_app, filter_cons_True, filter_app, filter_cons_True.
Qed.

Lemma before_rev {A} (l : list A) x y : before l x y → before (rev l) y x.
Proof.
  rewrite !before_split. intros (l1 & l2 & l3 & ->). exists (rev l3), (rev l2), (rev l1).
  rewrite !rev_app_distr. simpl. rewrite !rev_app_distr. simpl. by rewrite <-!app_assoc.
Qed.

Lemma before_fmap {A B} (f : A → B) l x y : before l x y → before (f <$> l) (f x) (f y).
Proof.
  intros (i & j & Hi & Hj & Hl). exists i, j.
  by rewrite !list_lookup_fmap, Hi, Hj.
Qed.

Lemma before_app_l {A} (l k : list A) x y : before l x y → before (l ++ k) x y.
Proof.
  intros (i & j & Hi & Hj & Hl). exists i, j. by erewrite !lookup_app_l_Some.
Qed.

Lemma before_app_lr {A} (l k : list A) x y : x ∈ l → y ∈ k → before (l ++ k) x y.
Proof.
  intros [i Hi]%list_elem_of_lookup [j Hj]%list_elem_of_lookup.
  exists i, (length l + j). split_and!; [by erewrite lookup_app_l_Some| |].
  - rewrite lookup_app_r by lia. by replace (_ - _) with j by lia.
  - apply lookup_lt_Some in Hi. lia.
Qed.

(** Without duplicates the order of occurrence is asymmetric. *)
Lemma before_asym {A} (l : list A) x y : NoDup l → before l x y → ¬ before l y x.
Proof.
  intros Hnd (i & j & Hi & Hj & Hl) (j' & i' & Hj' & Hi' & Hl').
  rewrite (NoDup_lookup l i i' x), (NoDup_lookup l j j' y) in * by done. lia.
Qed.

Lemma before_trans {A} (l : list A) x y z :
  NoDup l → before l x y → before l y z → before l x z.
Proof.
  intros Hnd (i & j & Hi & Hj & Hl) (j' & k & Hj' & Hk & Hl').
  assert (j = j') as <- by by eapply NoDup_lookup. exists i, k. split_and!; [done..|lia].
Qed.

(** ** A text for numbers, for concrete instances of printers *)
Fixpoint pos_text (p : positive) : string :=
  match p with
  | xH => "1"
  | xO p => String "0"%char (pos_text p)
  | xI p => String "1"%char (pos_text p)
  end.

Fixpoint pos_of_text (s : string) : option positive :=
  match s with
  | EmptyString => None
  | String c EmptyString => if Ascii.eqb c "1"%char then Some xH else None
  | String c s => (if Ascii.eqb c "0"%char then xO else xI) <$> pos_of_text s
  end.

Lemma pos_text_roundtrip p : pos_of_text (pos_text p) = Some p.
Proof.
  enough (pos_of_text (pos_text p) = Some p ∧ pos_text p ≠ EmptyString) as [? _] by done.
  induction p as [p [IH Hn]|p [IH Hn]|]; cbn; [| |done]; (split; [|done]); destruct (pos_text p); [done| |done|]; by rewrite IH.
Qed.
