(* ===== verification/PartitionKey.v ===== *)
(** * Partition keys (rust/rivers-core/src/storage/partition_key.rs)

    The [PartitionKey] enum, its expansion into single-valued members
    ([members], [members_preview], [member_count]), its order-insensitive
    equality with the matching hash, and the display syntax used for point
    lookups ([to_display], [display_candidates]). *)

From S2P Require Import Prelude.

Abbreviation Dims := (list (string * list string)).

Inductive PartitionKey : Type :=
| Single (keys : list string)
| Multi (dims : Dims)
| SetOf (keys : list PartitionKey).

(** The nested occurrence in [SetOf] needs its own induction principle. *)
Lemma PartitionKey_nested_ind (P : PartitionKey → Prop) :
  (∀ keys, P (Single keys)) → (∀ dims, P (Multi dims)) →
  (∀ keys, Forall P keys → P (SetOf keys)) → ∀ k, P k.
Proof.
  intros HS HM HSet. fix IH 1. intros [keys|dims|keys]; [apply HS|apply HM|].
  apply HSet. induction keys as [|k keys IHk]; constructor; [apply IH|apply IHk].
Qed.

(** ** Decidable equality and countability of the representation *)
Fixpoint pk_encode (k : PartitionKey) : gen_tree (list string + Dims) :=
  match k with
  | Single keys => GenLeaf (inl keys)
  | Multi dims => GenLeaf (inr dims)
  | SetOf keys => GenNode 0 (pk_encode <$> keys)
  end.

Fixpoint pk_decode (t : gen_tree (list string + Dims)) : PartitionKey :=
  match t with
  | GenLeaf (inl keys) => Single keys
  | GenLeaf (inr dims) => Multi dims
  | GenNode _ ts => SetOf (pk_decode <$> ts)
  end.

Lemma pk_decode_encode k : pk_decode (pk_encode k) = k.
Proof.
  induction k as [keys|dims|keys IH] using PartitionKey_nested_ind; simpl; [done..|].
  f_equal. induction IH as [|k keys Hk _ IH]; simpl; [done|]. by f_equal.
Qed.

#[export] Instance PartitionKey_eq_dec : EqDecision PartitionKey.
Proof.
  refine (λ k1 k2, cast_if (decide (pk_encode k1 = pk_encode k2))).
  - abstract (by rewrite <-(pk_decode_encode k1), <-(pk_decode_encode k2), e).
  - abstract (by intros ->).
Defined.

#[export] Instance PartitionKey_countable : Countable PartitionKey :=
  inj_countable' pk_encode pk_decode pk_decode_encode.

(** ** Ordering dimensions by name: [sort_by(|a, b| a.0.cmp(&b.0))] *)
Definition sort_dims (dims : Dims) : Dims := sort_by key_leb dims.

(** ** Members *)

(** [combo.push((name, vec![v]))] for each value of one dimension. *)
Definition extend_combo (name : string) (vals : list string) (combo : Dims) : list Dims :=
  (λ v, combo ++ [(name, [v])]) <$> vals.

(** The inner loop of the [Set] arm: push members until [limit] is reached;
    the flag says that the function returned. *)
Fixpoint push_until (limit : N) (out ms : list PartitionKey) : list PartitionKey * bool :=
  match ms with
  | [] => (out, false)
  | m :: ms' =>
      let out' := out ++ [m] in
      if (limit <=? lenN out')%N then (out', true) else push_until limit out' ms'
  end.

Fixpoint members_preview (limit : N) (k : PartitionKey) {struct k} : list PartitionKey :=
  if (limit =? 0)%N then [] else
  match k with
  | Single keys => (λ s, Single [s]) <$> takeN limit keys
  | Multi dims =>
      Multi <$>
      foldl (λ combos '(name, vals), takeN limit (combos ≫= extend_combo name vals))
            [[]] (sort_dims dims)
  | SetOf keys =>
      (fix go (ks : list PartitionKey) (out : list PartitionKey) :=
         match ks with
         | [] => out
         | k :: ks' =>
             match push_until limit out (members_preview (limit - lenN out) k) with
             | (out', true) => out'
             | (out', false) => go ks' out'
             end
         end) keys []
  end.

Definition members (k : PartitionKey) : list PartitionKey := members_preview usize_max k.

(** [usize] arithmetic of [member_count]: the product saturates, the sum of the
    [Set] arm wraps (release profile). *)
Definition saturating_mul (a b : N) : N := N.min usize_max (a * b).
Definition wrapping_add (a b : N) : N := ((a + b) mod 2 ^ 64)%N.

Fixpoint member_count (k : PartitionKey) : N :=
  match k with
  | Single keys => lenN keys
  | Multi dims => foldl (λ a n, saturating_mul a n) 1%N ((λ d, lenN d.2) <$> dims)
  | SetOf keys => foldl wrapping_add 0%N (member_count <$> keys)
  end.

(** ** Equality and hashing *)

Definition dims_eqb (a b : Dims) : bool :=
  (length a =? length b) && bool_decide (sort_dims a = sort_dims b).

(** [impl PartialEq]: dimension order is irrelevant. *)
Fixpoint pk_eqb (a b : PartitionKey) {struct a} : bool :=
  match a, b with
  | Single x, Single y => bool_decide (x = y)
  | Multi x, Multi y => dims_eqb x y
  | SetOf x, SetOf y =>
      (fix go (x y : list PartitionKey) : bool :=
         match x, y with
         | [], [] => true
         | k1 :: x', k2 :: y' => pk_eqb k1 k2 && go x' y'
         | _, _ => false
         end) x y
  | _, _ => false
  end.

(** [impl Hash]: the sequence of writes made to the hasher. *)
Inductive HashWrite :=
| HDiscriminant (d : nat)
| HLen (n : nat)
| HStr (s : string).

Definition hash_strs (l : list string) : list HashWrite := HLen (length l) :: (HStr <$> l).
Definition hash_dim (d : string * list string) : list HashWrite := HStr d.1 :: hash_strs d.2.

Fixpoint pk_hash (k : PartitionKey) : list HashWrite :=
  match k with
  | Single keys => HDiscriminant 0 :: hash_strs keys
  | Multi dims => HDiscriminant 1 :: HLen (length dims) :: (sort_dims dims ≫= hash_dim)
  | SetOf keys => HDiscriminant 2 :: HLen (length keys) :: mjoin (pk_hash <$> keys)
  end.

(** The canonical representative of an equality class. *)
Fixpoint norm (k : PartitionKey) : PartitionKey :=
  match k with
  | Single keys => Single keys
  | Multi dims => Multi (sort_dims dims)
  | SetOf keys => SetOf (norm <$> keys)
  end.

(** ** The expansion is a prefix of an unbounded reference expansion *)

Definition cartesian_from (start : list Dims) (dims : Dims) : list Dims :=
  foldl (λ combos '(name, vals), combos ≫= extend_combo name vals) start dims.

Fixpoint members_all (k : PartitionKey) : list PartitionKey :=
  match k with
  | Single keys => (λ s, Single [s]) <$> keys
  | Multi dims => Multi <$> cartesian_from [[]] (sort_dims dims)
  | SetOf keys => mjoin (members_all <$> keys)
  end.

Lemma takeN_fmap {A B} (f : A → B) n l : takeN n (f <$> l) = f <$> takeN n l.
Proof. by rewrite !takeN_take, fmap_take. Qed.

Lemma bind_extend_nil name (l : list Dims) : l ≫= extend_combo name [] = [].
Proof. by induction l. Qed.

Lemma takeN_extend n name vals (l : list Dims) :
  takeN n (takeN n l ≫= extend_combo name vals) = takeN n (l ≫= extend_combo name vals).
Proof.
  destruct vals as [|v vals]; [by rewrite !bind_extend_nil|].
  apply takeN_bind. intros x _. done.
Qed.

Lemma foldl_take_cartesian limit dims start :
  foldl (λ combos '(name, vals), takeN limit (combos ≫= extend_combo name vals))
        (takeN limit start) dims = takeN limit (cartesian_from start dims).
Proof.
  unfold cartesian_from. revert start.
  induction dims as [|[name vals] dims IH]; intros start; simpl; [done|].
  by rewrite takeN_extend, IH.
Qed.

Lemma push_until_spec limit out ms :
  (lenN out < limit)%N →
  push_until limit out ms =
    if (limit <=? lenN (out ++ ms))%N then (takeN limit (out ++ ms), true)
    else (out ++ ms, false).
Proof.
  revert out. induction ms as [|m ms IH]; intros out Hlt; simpl.
  { rewrite app_nil_r. by destruct (N.leb_spec limit (lenN out)); [lia|]. }
  replace (out ++ m :: ms) with ((out ++ [m]) ++ ms) by by rewrite <-app_assoc.
  destruct (N.leb_spec limit (lenN (out ++ [m]))) as [Hle|Hgt].
  - assert (limit = lenN (out ++ [m])) as ->.
    { unfold lenN in *. rewrite length_app in *. simpl in *. lia. }
    rewrite takeN_app_le, takeN_ge by lia.
    destruct (N.leb_spec (lenN (out ++ [m])) (lenN ((out ++ [m]) ++ ms))) as [|Hc]; [done|].
    exfalso. unfold lenN in Hc. rewrite length_app in Hc. lia.
  - by apply IH.
Qed.

Lemma members_preview_all limit k : members_preview limit k = takeN limit (members_all k).
Proof.
  revert limit.
  induction k as [keys|dims|keys IH] using PartitionKey_nested_ind; intros limit; simpl;
    (destruct (N.eqb_spec limit 0) as [->|Hl]; [by rewrite takeN_0|]).
  - by rewrite takeN_fmap.
  - rewrite takeN_fmap. f_equal.
    rewrite <-(foldl_take_cartesian limit _ [[]]). f_equal. simpl.
    by destruct (N.eqb_spec limit 0); [lia|].
  - enough (∀ out, (lenN out < limit)%N →
      (fix go (ks out : list PartitionKey) := match ks with
         | [] => out
         | k :: ks' => match push_until limit out (members_preview (limit - lenN out) k) with
             | (out', true) => out' | (out', false) => go ks' out' end end) keys out
      = takeN limit (out ++ mjoin (members_all <$> keys))) as Hgo.
    { apply Hgo. unfold lenN. simpl. lia. }
    induction IH as [|k ks Hk _ IHks]; intros out Hout.
    { simpl. rewrite app_nil_r, takeN_ge; [done|lia]. }
    rewrite Hk, push_until_spec by done. cbn [fmap list_fmap mjoin list_join].
    rewrite <-takeN_app_ge by lia. rewrite app_assoc.
    destruct (N.leb_spec limit (lenN (takeN limit (out ++ members_all k)))) as [Hle|Hgt].
    + rewrite lenN_takeN in Hle. rewrite takeN_takeN, N.min_id.
      by rewrite (takeN_app_le _ (out ++ members_all k)) by lia.
    + rewrite lenN_takeN in Hgt. rewrite takeN_ge by lia. apply IHks. lia.
Qed.

(** [members_preview limit] is the first [limit] members in [members] order. *)
Lemma members_preview_prefix limit k :
  (limit <= usize_max)%N → members_preview limit k = takeN limit (members k).
Proof.
  intros. unfold members. rewrite !members_preview_all, takeN_takeN. f_equal. lia.
Qed.

(** ** Counting members *)

Definition prodN (l : list N) : N := foldr N.mul 1%N l.

Lemma foldl_saturating_mul ns a :
  foldl saturating_mul (N.min usize_max a) ns = N.min usize_max (a * prodN ns).
Proof.
  revert a. induction ns as [|n ns IH]; intros a; simpl; [by rewrite N.mul_1_r|].
  rewrite N.mul_assoc, <-IH. f_equal. unfold saturating_mul.
  assert (0 < usize_max)%N as HM by done. clear IH. revert HM. generalize usize_max.
  intros M HM. destruct (N.min_spec M a) as [[? ->]|[? ->]]; [|done].
  destruct (N.eq_dec n 0%N) as [->|]; [by rewrite !N.mul_0_r|].
  rewrite !N.min_l; [done| |]; nia.
Qed.

Lemma lenN_bind_extend name vals (l : list Dims) :
  lenN (l ≫= extend_combo name vals) = (lenN l * lenN vals)%N.
Proof.
  unfold lenN. induction l as [|c l IH]; [done|].
  rewrite bind_cons, length_app. unfold extend_combo at 1. rewrite length_fmap.
  cbn [length]. lia.
Qed.

Lemma lenN_cartesian dims start :
  lenN (cartesian_from start dims) = (lenN start * prodN ((λ d, lenN d.2) <$> dims))%N.
Proof.
  unfold cartesian_from. revert start.
  induction dims as [|[name vals] dims IH]; intros start; simpl; [by rewrite N.mul_1_r|].
  by rewrite IH, lenN_bind_extend, N.mul_assoc.
Qed.

Lemma prodN_perm l1 l2 : l1 ≡ₚ l2 → prodN l1 = prodN l2.
Proof. induction 1; simpl; [done|congruence|lia|congruence]. Qed.

Lemma foldl_wrapping_add ns a :
  (foldl N.add a ns <= usize_max)%N → foldl wrapping_add a ns = foldl N.add a ns.
Proof.
  revert a. induction ns as [|n ns IH]; intros a H; simpl in *; [done|].
  assert (∀ l b, b <= foldl N.add b l)%N as Hmono.
  { induction l as [|x l IHl]; intros b; simpl; [lia|].
    etransitivity; [|apply IHl]. lia. }
  unfold wrapping_add at 2. rewrite N.mod_small; [by apply IH|].
  specialize (Hmono ns (a + n)%N). unfold usize_max in H. lia.
Qed.

Lemma foldl_add_shift ns a : foldl N.add a ns = (a + foldl N.add 0 ns)%N.
Proof.
  revert a. induction ns as [|n ns IH]; intros a; simpl; [lia|].
  rewrite (IH (a + n)%N), (IH (0 + n)%N). lia.
Qed.

Lemma lenN_app {A} (l k : list A) : lenN (l ++ k) = (lenN l + lenN k)%N.
Proof. unfold lenN. rewrite length_app. lia. Qed.

Lemma N_add_le a b m : (a + b <= m)%N → (a <= m)%N ∧ (b <= m)%N.
Proof. lia. Qed.

Lemma member_count_all k :
  (lenN (members_all k) <= usize_max)%N → member_count k = lenN (members_all k).
Proof.
  induction k as [keys|dims|keys IH] using PartitionKey_nested_ind; simpl; intros Hmax.
  - unfold lenN. by rewrite length_fmap.
  - unfold lenN in *. rewrite length_fmap in *.
    change (N.of_nat (length ?l)) with (lenN l) in *.
    rewrite lenN_cartesian in *.
    change (λ a n, saturating_mul a n) with saturating_mul.
    change 1%N with (N.min usize_max 1) at 1. rewrite foldl_saturating_mul.
    rewrite (prodN_perm ((λ d, lenN d.2) <$> dims) ((λ d, lenN d.2) <$> sort_dims dims)).
    + change (lenN [[]]) with 1%N in *. by rewrite N.min_r.
    + unfold sort_dims. by rewrite sort_by_perm.
  - enough (member_count <$> keys = (λ k, lenN (members_all k)) <$> keys ∧
            foldl N.add 0%N ((λ k, lenN (members_all k)) <$> keys)
            = lenN (mjoin (members_all <$> keys))) as [-> Hs].
    { by rewrite foldl_wrapping_add, Hs by by rewrite Hs. }
    induction IH as [|k ks Hk _ IHks]; [done|].
    cbn [fmap list_fmap mjoin list_join] in *. rewrite lenN_app in *.
    apply N_add_le in Hmax as [Hk1 Hk2]. destruct (IHks Hk2) as [E1 E2].
    split; [f_equal; [by apply Hk|done]|].
    cbn [foldl]. rewrite foldl_add_shift, E2. by rewrite N.add_0_l.
Qed.

(** ** Equality is equality of canonical representatives *)

Lemma dims_eqb_spec a b : dims_eqb a b = true ↔ sort_dims a = sort_dims b.
Proof.
  unfold dims_eqb. rewrite andb_true_iff, Nat.eqb_eq, bool_decide_eq_true.
  split; [by intros [_ ?]|]. intros E. split; [|done].
  unfold sort_dims in E.
  by rewrite <-(length_sort_by key_leb a), <-(length_sort_by key_leb b), E.
Qed.

Lemma pk_eqb_norm a b : pk_eqb a b = true ↔ norm a = norm b.
Proof.
  revert b. induction a as [x|x|x IH] using PartitionKey_nested_ind; intros [y|y|y];
    simpl; try (split; congruence).
  - rewrite bool_decide_eq_true. split; congruence.
  - rewrite dims_eqb_spec. split; congruence.
  - revert y. induction IH as [|k1 x Hk _ IHx]; intros [|k2 y]; simpl;
      try (split; congruence).
    rewrite andb_true_iff, Hk, IHx. split.
    + intros [E1 E2]. injection E2 as E2. unfold fmap in E2. by rewrite E1, E2.
    + intros E. injection E as E1 E2. split; [done|by f_equal].
Qed.

Lemma sort_dims_idemp dims : sort_dims (sort_dims dims) = sort_dims dims.
Proof.
  unfold sort_dims. apply sort_by_id, sort_by_sorted.
  - intros x y z. apply string_leb_trans.
  - intros x y. apply string_leb_total.
Qed.

Lemma norm_idemp k : norm (norm k) = norm k.
Proof.
  induction k as [keys|dims|keys IH] using PartitionKey_nested_ind; simpl; [done| |].
  - by rewrite sort_dims_idemp.
  - f_equal. induction IH as [|k ks Hk _ IHks]; simpl; [done|]. by f_equal.
Qed.

Lemma pk_hash_norm k : pk_hash (norm k) = pk_hash k.
Proof.
  induction k as [keys|dims|keys IH] using PartitionKey_nested_ind; simpl; [done| |].
  - unfold sort_dims at 1. rewrite length_sort_by. by rewrite sort_dims_idemp.
  - rewrite length_fmap. do 2 f_equal.
    induction IH as [|k ks Hk _ IHks]; [done|].
    cbn [fmap list_fmap mjoin list_join]. by f_equal.
Qed.

(** ** Display syntax *)

Definition display_dim (d : string * list string) : string :=
  d.1 +:+ char_str "=" +:+ String.concat "," d.2.

Fixpoint to_display (k : PartitionKey) : string :=
  match k with
  | Single keys => String.concat "," keys
  | Multi dims => String.concat "|" (display_dim <$> sort_dims dims)
  | SetOf keys => String.concat ", " (to_display <$> keys)
  end.

Definition reserved_display_char (key : string) : option ascii :=
  if has_char "|" key then Some "|"%char
  else if has_char "," key then Some ","%char else None.

(** The loop over [display.split('|')]; [None] is [ok = false]. *)
Fixpoint parse_display_dims (parts : list string) : option Dims :=
  match parts with
  | [] => Some []
  | part :: parts' =>
      match split_once "=" part with
      | Some (name, vals) =>
          if (name =? EmptyString)%string then None
          else dims ← parse_display_dims parts'; Some ((name, split_char "," vals) :: dims)
      | None => None
      end
  end.

Definition display_candidates (display : string) : list PartitionKey :=
  Single [display] ::
  (if has_char "=" display then
     match parse_display_dims (split_char "|" display) with
     | Some dims => if bool_decide (dims = []) then [] else [Multi dims]
     | None => []
     end
   else []).

Definition name_ok (name : string) : bool :=
  negb (name =? EmptyString)%string && negb (has_char "=" name) && negb (has_char "|" name).

Definition value_ok (v : string) : bool :=
  match reserved_display_char v with None => true | Some _ => false end.

(** The keys point lookups are made with: one value, or a non-empty list of
    dimensions whose names are non-empty and free of the two separators the
    parser splits on first, and whose values are free of the reserved ones. *)
Definition displayable (k : PartitionKey) : bool :=
  match k with
  | Single [_] => true
  | Multi dims =>
      negb (bool_decide (dims = [])) &&
      forallb (λ d, name_ok d.1 && negb (bool_decide (d.2 = [])) && forallb value_ok d.2) dims
  | _ => false
  end.

Definition dim_ok (d : string * list string) : Prop :=
  d.1 ≠ EmptyString ∧ has_char "=" d.1 = false ∧ has_char "|" d.1 = false ∧
  d.2 ≠ [] ∧ Forall (λ v, has_char "|" v = false ∧ has_char "," v = false) d.2.

Lemma displayable_multi dims :
  displayable (Multi dims) = true → dims ≠ [] ∧ Forall dim_ok dims.
Proof.
  simpl. rewrite andb_true_iff, negb_true_iff, bool_decide_eq_false.
  rewrite forallb_Forall. intros [? H]. split; [done|].
  eapply Forall_impl; [exact H|]. intros d. unfold name_ok, dim_ok.
  rewrite !andb_true_iff, !negb_true_iff, bool_decide_eq_false, forallb_Forall.
  intros [[[[Hn ?] ?] ?] Hv]. rewrite String.eqb_neq in Hn. repeat split; try done.
  eapply Forall_impl; [exact Hv|]. intros v. unfold value_ok, reserved_display_char.
  by destruct (has_char "|" v), (has_char "," v).
Qed.

Lemma display_dim_no_bar d : dim_ok d → has_char "|" (display_dim d) = false.
Proof.
  intros (_ & _ & Hn & _ & Hv). unfold display_dim. rewrite !has_char_app, Hn. simpl.
  destruct (has_char "|" (String.concat "," d.2)) eqn:E; [|done].
  apply has_char_concat in E as [E|E]; [done|].
  apply Exists_exists in E as (v & Hin & E). rewrite Forall_forall in Hv.
  destruct (Hv v Hin). congruence.
Qed.

Lemma display_dim_eq name vals :
  display_dim (name, vals) = name +:+ String "=" (String.concat "," vals).
Proof. done. Qed.

Lemma parse_display_dims_ok dims :
  Forall dim_ok dims → parse_display_dims (display_dim <$> dims) = Some dims.
Proof.
  induction 1 as [|[name vals] dims (Hne & Heq & _ & Hvne & Hv) _ IH]; [done|].
  cbn [fmap list_fmap parse_display_dims fst snd] in *.
  rewrite display_dim_eq, split_once_app by done.
  destruct (String.eqb_spec name EmptyString) as [|_]; [done|].
  rewrite IH. simpl. rewrite (split_char_concat ","); [done..|].
  eapply Forall_impl; [exact Hv|]. by intros ? [_ ?].
Qed.

Lemma display_multi_has_eq dims :
  dims ≠ [] → has_char "=" (String.concat "|" (display_dim <$> dims)) = true.
Proof.
  destruct dims as [|d dims]; [done|]. intros _.
  assert (has_char "=" (display_dim d) = true) as Hd.
  { unfold display_dim. rewrite !has_char_app. simpl. by rewrite orb_true_r. }
  destruct dims as [|d' dims]; simpl; [done|]. by rewrite has_char_app, Hd.
Qed.

Lemma display_candidates_multi dims :
  displayable (Multi dims) = true →
  display_candidates (to_display (Multi dims)) =
    [Single [to_display (Multi dims)]; Multi (sort_dims dims)].
Proof.
  intros [Hne Hok]%displayable_multi. unfold display_candidates. cbn [to_display].
  assert (sort_dims dims ≠ []) as Hne'.
  { intros E. apply Hne, length_zero_iff_nil.
    unfold sort_dims in E. by rewrite <-(length_sort_by key_leb dims), E. }
  assert (Forall dim_ok (sort_dims dims)) as Hok'.
  { unfold sort_dims. by rewrite sort_by_perm. }
  rewrite display_multi_has_eq by done.
  rewrite (split_char_concat "|"); [|by destruct (sort_dims dims)|].
  2: { apply Forall_fmap. eapply Forall_impl; [exact Hok'|]. apply display_dim_no_bar. }
  rewrite parse_display_dims_ok by done. by rewrite bool_decide_eq_false_2.
Qed.
