(* ===== verification/PartitionJson.v ===== *)
(** * JSON form of partition keys (storage/partition_key.rs, [to_json] / [from_json])

    [serde_json] is a third-party crate: its printer and parser are parameters,
    and the one fact used of them is that parsing a printed value gives it back,
    for values without numbers whose objects have distinct, sorted keys (what
    [serde_json]'s map type holds) and that nest no deeper than the recursion limit of
    its parser. *)

From S2P Require Import Prelude PartitionKey.

(** [serde_json::Value]; an object is its entries. *)
Inductive Json : Type :=
| JNull
| JBool (b : bool)
| JNumber (n : Z)
| JString (s : string)
| JArray (vs : list Json)
| JObject (kvs : list (string * Json)).

(** Objects as [serde_json::Map] holds them: distinct keys in key order. *)
Definition keys_ok (keys : list string) : bool :=
  bool_decide (NoDup keys) && bool_decide (sort_by String.leb keys = keys).

Fixpoint json_wf (v : Json) : bool :=
  match v with
  | JNumber _ => false
  | JArray vs => forallb json_wf vs
  | JObject kvs => keys_ok (kvs.*1) && forallb (λ kv, json_wf kv.2) kvs
  | _ => true
  end.

(** The errors of [from_json], one per [anyhow!] site. *)
Inductive FromJsonError :=
| InvalidJson
| InvalidSingle
| InvalidMulti
| InvalidSet
| MissingVariant
| OutOfFuel.

(** [Value::get(&str)] *)
Definition json_get (key : string) (v : Json) : option Json :=
  match v with
  | JObject kvs => snd <$> find (λ kv, String.eqb kv.1 key) kvs
  | _ => None
  end.

(** [serde_json::from_value::<Vec<String>>] *)
Definition json_string (v : Json) : option string :=
  match v with JString s => Some s | _ => None end.

Definition json_strings (v : Json) : option (list string) :=
  match v with JArray vs => mapM json_string vs | _ => None end.

(** [serde_json::from_value::<BTreeMap<String, Vec<String>>>] *)
Definition json_dims (v : Json) : option Dims :=
  match v with
  | JObject kvs =>
      entries ← mapM (λ kv, vals ← json_strings kv.2; Some (kv.1, vals)) kvs;
      Some (bt_collect entries)
  | _ => None
  end.

Definition of_strings (l : list string) : Json := JArray (JString <$> l).
Definition of_dims (dims : Dims) : Json :=
  JObject ((λ d, (d.1, of_strings d.2)) <$> bt_collect dims).

#[global] Arguments json_strings : simpl never.
#[global] Arguments json_dims : simpl never.

Section json.
Context (print : Json → string) (parse : string → option Json).

Fixpoint to_json (k : PartitionKey) : string :=
  match k with
  | Single keys => print (JObject [("single", of_strings keys)])
  | Multi dims => print (JObject [("multi", of_dims dims)])
  | SetOf keys => print (JObject [("set", JArray (omap parse (to_json <$> keys)))])
  end.

Definition opt_err {A} (e : FromJsonError) (o : option A) : A + FromJsonError :=
  match o with Some a => inl a | None => inr e end.

(** [arr.iter().map(f).collect::<Result<Vec<_>>>()]: the first error wins. *)
Fixpoint collect_results {A B} (f : A → B + FromJsonError) (l : list A)
    : list B + FromJsonError :=
  match l with
  | [] => inl []
  | a :: l' =>
      match f a with
      | inr e => inr e
      | inl b => match collect_results f l' with inl bs => inl (b :: bs) | inr e => inr e end
      end
  end.

(** The recursion goes through the text of each member, so it is bounded by
    [fuel], the nesting depth of sets. *)
Fixpoint from_json (fuel : nat) (s : string) : PartitionKey + FromJsonError :=
  match fuel with
  | O => inr OutOfFuel
  | S fuel =>
      match parse s with
      | None => inr InvalidJson
      | Some v =>
          match json_get "single" v with
          | Some keys =>
              match json_strings keys with
              | Some keys => inl (Single keys)
              | None => inr InvalidSingle
              end
          | None =>
              match json_get "multi" v with
              | Some multi =>
                  match json_dims multi with
                  | Some dims => inl (Multi dims)
                  | None => inr InvalidMulti
                  end
              | None =>
                  match json_get "set" v with
                  | Some (JArray arr) =>
                      match collect_results (λ m, from_json fuel (print m)) arr with
                      | inl keys => inl (SetOf keys)
                      | inr e => inr e
                      end
                  | Some _ => inr InvalidSet
                  | None => inr MissingVariant
                  end
              end
          end
      end
  end.

Fixpoint set_depth (k : PartitionKey) : nat :=
  match k with
  | SetOf keys => S (max_list (set_depth <$> keys))
  | _ => 1
  end.

(** Dimension names are pairwise distinct, in every member. *)
Fixpoint distinct_names (k : PartitionKey) : bool :=
  match k with
  | Single _ => true
  | Multi dims => bool_decide (NoDup dims.*1)
  | SetOf keys => forallb distinct_names keys
  end.

Lemma json_strings_of l : json_strings (of_strings l) = Some l.
Proof. unfold json_strings, of_strings. by apply mapM_fmap_Some. Qed.

Lemma bt_collect_dims dims : NoDup dims.*1 → bt_collect (bt_collect dims) = sort_dims dims.
Proof.
  intros Hnd. rewrite (bt_collect_sort dims) by done.
  rewrite bt_collect_sort by by rewrite sort_by_perm. apply sort_dims_idemp.
Qed.

Lemma json_dims_of dims : NoDup dims.*1 → json_dims (of_dims dims) = Some (sort_dims dims).
Proof.
  intros Hnd. unfold json_dims, of_dims. rewrite <-(bt_collect_dims dims) by done.
  rewrite mapM_fmap_Some; [done|]. intros [n v]. cbn [fst snd]. by rewrite json_strings_of.
Qed.

(** How deep arrays and objects nest. *)
Fixpoint json_depth (v : Json) : nat :=
  match v with
  | JArray vs => S (max_list (json_depth <$> vs))
  | JObject kvs => S (max_list ((λ kv, json_depth kv.2) <$> kvs))
  | _ => 0
  end.

Lemma max_list_le (l : list nat) n : (∀ x, x ∈ l → x ≤ n) → max_list l ≤ n.
Proof. induction l as [|x l IH]; cbn; intros H; [lia|]. pose proof (H x ltac:(left)). specialize (IH ltac:(intros y Hy; apply H; by right)). lia. Qed.

(** [serde_json] reads what it prints up to its recursion limit of 128: 127 levels. *)
Section roundtrip.
Context (parse_print : ∀ v, json_wf v = true → json_depth v ≤ 127 → parse (print v) = Some v).

Lemma of_strings_wf l : json_wf (of_strings l) = true.
Proof.
  change (forallb json_wf (JString <$> l) = true).
  apply forallb_Forall, Forall_fmap, Forall_true. done.
Qed.

Lemma of_strings_depth l : json_depth (of_strings l) ≤ 1.
Proof.
  unfold of_strings. cbn [json_depth]. apply le_n_S, max_list_le. intros x (v & -> & (s & -> & _)%list_elem_of_fmap)%list_elem_of_fmap. done.
Qed.

Lemma of_dims_wf dims : NoDup dims.*1 → json_wf (of_dims dims) = true.
Proof.
  intros Hnd. unfold of_dims. rewrite bt_collect_sort by done. cbn [json_wf].
  rewrite <-list_fmap_compose. change (fst ∘ _) with (fst (A:=string) (B:=list string)).
  apply andb_true_iff. split.
  - unfold keys_ok. rewrite andb_true_iff, !bool_decide_eq_true.
    split; [by rewrite sort_by_perm|]. apply sort_by_id.
    eapply (StronglySorted_fmap fst key_leb); [done|]. apply sort_by_key_sorted.
  - apply forallb_Forall. apply Forall_fmap, Forall_true. intros d. apply of_strings_wf.
Qed.

Lemma of_dims_depth dims : json_depth (of_dims dims) ≤ 2.
Proof.
  unfold of_dims. cbn [json_depth]. apply le_n_S, max_list_le. intros x (v & -> & (d & -> & _)%list_elem_of_fmap)%list_elem_of_fmap. apply of_strings_depth.
Qed.

(** The value a key is written as. *)
Definition printable (k : PartitionKey) : Prop :=
  ∃ v, json_wf v = true ∧ json_depth v ≤ 2 * set_depth k + 1 ∧ to_json k = print v.

Lemma single_ok keys : json_wf (JObject [("single", of_strings keys)]) = true ∧ json_depth (JObject [("single", of_strings keys)]) ≤ 3.
Proof.
  split; [change (json_wf (of_strings keys) && true = true); by rewrite of_strings_wf|].
  pose proof (of_strings_depth keys). change (S (Nat.max (json_depth (of_strings keys)) 0) ≤ 3). lia.
Qed.

Lemma multi_ok dims : NoDup dims.*1 → json_wf (JObject [("multi", of_dims dims)]) = true ∧ json_depth (JObject [("multi", of_dims dims)]) ≤ 3.
Proof.
  intros Hnd. split; [change (json_wf (of_dims dims) && true = true); by rewrite of_dims_wf|].
  pose proof (of_dims_depth dims). change (S (Nat.max (json_depth (of_dims dims)) 0) ≤ 3). lia.
Qed.

Lemma set_values_ok n keys :
  n ≤ 62 → Forall (λ k, printable k ∧ set_depth k ≤ n) keys →
  Forall (λ v, json_wf v = true ∧ json_depth v ≤ 2 * n + 1) (omap parse (to_json <$> keys)).
Proof.
  intros Hn. induction 1 as [|k ks [(v & Hv & Hd & Ek) Hk] _ IHks]; [by constructor|].
  cbn [fmap list_fmap omap list_omap]. rewrite Ek, parse_print by (done || lia). constructor; [split; [done|lia]|exact IHks].
Qed.

Lemma set_ok n keys :
  n ≤ 62 → Forall (λ k, printable k ∧ set_depth k ≤ n) keys → let v := JObject [("set", JArray (omap parse (to_json <$> keys)))] in
  json_wf v = true ∧ json_depth v ≤ 2 * S n + 1.
Proof.
  intros Hn Hk. pose proof (set_values_ok n keys Hn Hk) as H. cbv zeta. rewrite Forall_forall in H. split.
  - change (forallb json_wf (omap parse (to_json <$> keys)) && true = true). rewrite andb_true_r. apply forallb_Forall, Forall_forall.
    intros v Hv. by rewrite (proj1 (H v Hv)).
  - assert (Hm : max_list (json_depth <$> omap parse (to_json <$> keys)) ≤ 2 * n + 1)
      by (apply max_list_le; intros x (v & -> & Hv)%list_elem_of_fmap; apply (H v Hv)).
    revert Hm. generalize (omap parse (to_json <$> keys)). intros vs Hm. change (S (Nat.max (S (max_list (json_depth <$> vs))) 0) ≤ 2 * S n + 1). lia.
Qed.

Lemma set_depth_member k keys :
  k ∈ keys → set_depth k ≤ max_list (set_depth <$> keys).
Proof. intros Hk. apply max_list_elem_of_le, list_elem_of_fmap. eauto. Qed.

Lemma set_members keys n : set_depth (SetOf keys) ≤ S n → ∀ k, k ∈ keys → set_depth k ≤ n.
Proof. intros H k Hk. pose proof (set_depth_member k keys Hk) as Hm. cbn [set_depth] in H. lia. Qed.

Lemma to_json_printable k : distinct_names k = true → set_depth k ≤ 63 → printable k.
Proof.
  induction k as [keys|dims|keys IH] using PartitionKey_nested_ind; intros Hn Hd; unfold printable.
  - eexists. split; [apply single_ok|]. split; [apply single_ok|reflexivity].
  - simpl in Hn. rewrite bool_decide_eq_true in Hn. eexists. split; [by apply multi_ok|]. split; [by apply multi_ok|reflexivity].
  - simpl in Hn. apply forallb_Forall in Hn. rewrite Forall_forall in IH, Hn.
    set (n := max_list (set_depth <$> keys)). assert (Hle : n ≤ 62) by (change (S n ≤ 63) in Hd; lia).
    assert (Hk : Forall (λ k, printable k ∧ set_depth k ≤ n) keys).
    { apply Forall_forall. intros k Hk. pose proof (set_depth_member k keys Hk) as Hm. fold n in Hm.
      split; [|done]. apply IH; [done|by apply Hn|lia]. }
    destruct (set_ok n keys Hle Hk) as [H1 H2]. eexists. split; [exact H1|]. split; [exact H2|reflexivity].
Qed.

Lemma collect_from_json fuel n keys :
  n ≤ 62 → Forall (λ k, (printable k ∧ set_depth k ≤ n) ∧ from_json fuel (to_json k) = inl (norm k)) keys →
  collect_results (λ m, from_json fuel (print m)) (omap parse (to_json <$> keys))
  = inl (norm <$> keys).
Proof.
  intros Hn. induction 1 as [|k ks [[(v & Hv & Hd & Ek) Hs] Hk] _ IHks]; [done|].
  cbn [fmap list_fmap omap list_omap]. rewrite Ek, parse_print by (done || lia).
  cbn [collect_results]. by rewrite <-Ek, Hk, IHks.
Qed.

Lemma from_json_to_json fuel k :
  set_depth k ≤ fuel → set_depth k ≤ 63 → distinct_names k = true →
  from_json fuel (to_json k) = inl (norm k).
Proof.
  revert fuel. induction k as [keys|dims|keys IH] using PartitionKey_nested_ind;
    intros [|fuel] Hd H63 Hn; try (simpl in Hd; lia); cbn [from_json to_json].
  - destruct (single_ok keys). rewrite parse_print by (done || lia). simpl. by rewrite json_strings_of.
  - simpl in Hn. rewrite bool_decide_eq_true in Hn. destruct (multi_ok dims Hn).
    rewrite parse_print by (done || lia). simpl. by rewrite json_dims_of.
  - simpl in Hn. apply forallb_Forall in Hn. rewrite Forall_forall in IH, Hn.
    assert (Hk : Forall (λ k, printable k ∧ set_depth k ≤ 62) keys).
    { apply Forall_forall. intros k Hk. pose proof (set_members keys 62 H63 k Hk). split; [|done].
      apply to_json_printable; [by apply Hn|lia]. }
    destruct (set_ok 62 keys (le_n _) Hk) as [H1 H2]. rewrite parse_print by (done || lia).
    assert (collect_results (λ m, from_json fuel (print m))
              (omap parse (to_json <$> keys)) = inl (norm <$> keys)) as E;
      [|revert E; generalize (omap parse (to_json <$> keys)); intros arr E;
        simpl; by rewrite E].
    apply (collect_from_json fuel 62); [done|]. apply Forall_forall. intros k Hin. rewrite Forall_forall in Hk. split; [by apply Hk|].
    apply IH; [done|by apply (set_members keys)| |by apply Hn]. pose proof (set_members keys 62 H63 k Hin). lia.
Qed.
End roundtrip.
End json.
