(* ===== verification/BackfillGroup.v ===== *)
(** * Backfill grouping (rust/rivers-core/src/execution/backfill.rs)

    [group_into_runs] splits the partition keys of a backfill into one group per
    run, following the backfill's strategy; [bundle_keys] collapses the keys of a
    run into one batched key. *)

From S2P Require Import Prelude PartitionKey PartitionJson.

(** storage/backfill.rs *)
Inductive BackfillStrategy :=
| MultiRun
| SingleRun
| PerDimension (multi_run single_run : list string).

Definition dims_leb : Dims → Dims → bool :=
  list_leb (pair_leb String.leb (list_leb String.leb)).

Lemma dims_total_leb : TotalLeb dims_leb.
Proof.
  apply list_total_leb, pair_total_leb; [|apply list_total_leb]; apply string_total_leb.
Qed.

(** [multi_run.contains(name)] *)
Definition contains (names : list string) (name : string) : bool :=
  existsb (String.eqb name) names.

Definition extract_multi_run_dims (pk : PartitionKey) (multi_run : list string) : Dims :=
  match pk with
  | Multi dims => sort_dims (filter (λ d, contains multi_run d.1) dims)
  | _ => []
  end.

(** [groups.entry(group_key).or_default().push(pk.clone())] *)
Definition push_group (multi_run : list string)
    (groups : gmap Dims (list PartitionKey)) (pk : PartitionKey) : gmap Dims (list PartitionKey) :=
  let group_key := extract_multi_run_dims pk multi_run in
  <[group_key := default [] (groups !! group_key) ++ [pk]]> groups.

(** [ordered.sort_by(|a, b| a.0.cmp(&b.0))]; the keys of a map are distinct, so
    the iteration order of the hash map does not show in the result. *)
Definition entry_leb (a b : Dims * list PartitionKey) : bool := dims_leb a.1 b.1.

Definition group_into_runs (strategy : BackfillStrategy) (partition_keys : list PartitionKey)
    : list (list PartitionKey) :=
  match strategy with
  | MultiRun => (λ pk, [pk]) <$> partition_keys
  | SingleRun => if bool_decide (partition_keys = []) then [] else [partition_keys]
  | PerDimension multi_run _ =>
      let groups := foldl (push_group multi_run) ∅ partition_keys in
      snd <$> sort_by entry_leb (map_to_list groups)
  end.

(** ** Bundling *)

(** [for v in vals { if !entry.contains(v) { entry.push(v.clone()) } }] *)
Definition push_new (entry vals : list string) : list string :=
  foldl (λ e v, if contains e v then e else e ++ [v]) entry vals.

Record UnionState := {
  us_order : list string;
  us_values : gmap string (list string);
}.

Definition union_dim (st : UnionState) (d : string * list string) : UnionState :=
  match us_values st !! d.1 with
  | Some entry =>
      {| us_order := us_order st; us_values := <[d.1 := push_new entry d.2]> (us_values st) |}
  | None =>
      {| us_order := us_order st ++ [d.1];
         us_values := <[d.1 := push_new [] d.2]> (us_values st) |}
  end.

Definition union_key (st : UnionState) (key : PartitionKey) : UnionState :=
  match key with
  | Multi dims => foldl union_dim st dims
  | _ => st
  end.

(** [values.remove(&name).unwrap_or_default()], sorted, in first-seen order. *)
Fixpoint take_dims (order : list string) (values : gmap string (list string)) : Dims :=
  match order with
  | [] => []
  | name :: order' =>
      (name, sort_by String.leb (default [] (values !! name)))
        :: take_dims order' (delete name values)
  end.

(** [Vec::dedup]: consecutive repetitions are dropped. *)
Fixpoint dedup (l : list string) : list string :=
  match l with
  | [] => []
  | x :: l' =>
      match l' with
      | [] => [x]
      | y :: _ => if String.eqb x y then dedup l' else x :: dedup l'
      end
  end.

Definition single_values (k : PartitionKey) : list string :=
  match k with Single keys => keys | _ => [] end.

Definition candidate (keys : list PartitionKey) : PartitionKey :=
  match keys with
  | Multi _ :: _ =>
      let st := foldl union_key {| us_order := []; us_values := ∅ |} keys in
      Multi (take_dims (us_order st) (us_values st))
  | _ => Single (dedup (sort_by String.leb (keys ≫= single_values)))
  end.

(** Order-independent set equality; [HashSet::contains] is [PartialEq]. *)
Definition same_set (a b : list PartitionKey) : bool :=
  (length a =? length b) && forallb (λ k, existsb (pk_eqb k) b) a.

Section bundle.
Context (print : Json → string) (parse : string → option Json).

Definition json_leb (a b : PartitionKey) : bool :=
  String.leb (to_json print parse a) (to_json print parse b).

Definition bundle_keys (keys : list PartitionKey) : PartitionKey :=
  let cand := candidate keys in
  if same_set (members cand) keys then cand else SetOf (sort_by json_leb keys).
End bundle.

(** ** Grouping: functional characterisation *)

Definition in_group (multi_run : list string) (g : Dims) (k : PartitionKey) : bool :=
  bool_decide (extract_multi_run_dims k multi_run = g).

Lemma push_group_lookup mr keys m g :
  default [] (foldl (push_group mr) m keys !! g) = default [] (m !! g) ++ filter (in_group mr g) keys
  ∧ (is_Some (foldl (push_group mr) m keys !! g) ↔
     is_Some (m !! g) ∨ ∃ k, k ∈ keys ∧ extract_multi_run_dims k mr = g).
Proof.
  revert m. induction keys as [|k keys IH]; intros m; simpl.
  { rewrite app_nil_r. split; [done|]. split; [by left|]. intros [?|(k & Hk & _)]; [done|].
    by apply elem_of_nil in Hk. }
  destruct (IH (push_group mr m k)) as [E1 E2]. rewrite E1, E2. clear E1 E2 IH.
  unfold push_group. rewrite filter_cons.
  destruct (decide (extract_multi_run_dims k mr = g)) as [<-|Hne].
  - rewrite lookup_insert_eq. simpl. rewrite decide_True by (by apply bool_decide_pack).
    rewrite <-app_assoc. split; [done|]. split; [|by eauto].
    intros _. right. exists k. split; [by left|done].
  - rewrite lookup_insert_ne by done. rewrite decide_False by (by intros ?%bool_decide_unpack).
    split; [done|]. setoid_rewrite elem_of_cons. naive_solver.
Qed.

(** The distinct projections of the keys on the [multi_run] dimensions. *)
Definition group_keys (multi_run : list string) (keys : list PartitionKey) : list Dims :=
  sort_by dims_leb
    (elements (list_to_set ((λ k, extract_multi_run_dims k multi_run) <$> keys) : gset Dims)).

Lemma sort_by_fmap {A B} (la : A → A → bool) (lb : B → B → bool) (f : A → B) l :
  (∀ x y, lb (f x) (f y) = la x y) → sort_by lb (f <$> l) = f <$> sort_by la l.
Proof.
  intros H. induction l as [|x l IH]; simpl; [done|].
  change (list_fmap _ _ f l) with (f <$> l). rewrite IH. generalize (sort_by la l). intros k.
  induction k as [|y k IHk]; simpl; [done|]. rewrite H. destruct (la x y); [done|].
  simpl. by f_equal.
Qed.

Lemma per_dimension_groups mr sr keys :
  group_into_runs (PerDimension mr sr) keys =
    (λ g, filter (in_group mr g) keys) <$> group_keys mr keys.
Proof.
  unfold group_into_runs, group_keys.
  set (m := foldl (push_group mr) ∅ keys).
  set (gs := elements _).
  assert (map_to_list m ≡ₚ (λ g, (g, filter (in_group mr g) keys)) <$> gs) as Hp.
  { apply NoDup_Permutation.
    - apply NoDup_map_to_list.
    - apply NoDup_fmap; [intros ?? [=]; done|apply NoDup_elements].
    - intros [g v]. rewrite elem_of_map_to_list, list_elem_of_fmap.
      destruct (push_group_lookup mr keys ∅ g) as [E1 E2]. fold m in E1, E2.
      rewrite lookup_empty in E1, E2. simpl in E1. unfold gs.
      setoid_rewrite elem_of_elements. setoid_rewrite elem_of_list_to_set.
      setoid_rewrite list_elem_of_fmap. split.
      + intros Hm. exists g. rewrite Hm in E1. simpl in E1. subst v. split; [done|].
        destruct (proj1 E2) as [[? [=]]|(k & Hk & <-)]; [by rewrite Hm|]. eauto.
      + intros (g' & [= -> ->] & k & -> & Hk).
        destruct (proj2 E2) as [v Hv]; [right; eauto|]. rewrite Hv in E1.
        simpl in E1. by rewrite Hv, E1. }
  destruct dims_total_leb as [Ht Hto Ha].
  erewrite (sort_by_unique entry_leb); [| | | |exact Hp].
  - rewrite (sort_by_fmap dims_leb entry_leb) by done. by rewrite <-list_fmap_compose.
  - intros x y z. apply Ht.
  - intros x y. apply Hto.
  - intros [g1 v1] [g2 v2] Hx%elem_of_map_to_list Hy%elem_of_map_to_list Hab Hba.
    assert (g1 = g2) as -> by by apply Ha. congruence.
Qed.

(** Every key lands in exactly one run, and no run is empty. *)
Lemma mjoin_filter_classes {A B} `{Countable B} (f : A → B) (l : list A) (gs : list B) :
  NoDup gs → (∀ x, x ∈ l → f x ∈ gs) →
  mjoin ((λ g, filter (λ x, f x = g) l) <$> gs) ≡ₚ l.
Proof.
  revert gs. induction l as [|x l IH]; intros gs Hnd Hin.
  { clear. induction gs; simpl; done. }
  assert (mjoin ((λ g, filter (λ x, f x = g) l) <$> gs) ≡ₚ l) as IH'.
  { apply IH; [done|]. intros; apply Hin; by right. }
  etransitivity; [|apply perm_skip, IH'].
  specialize (Hin x ltac:(left)). clear IH IH'.
  apply elem_of_Permutation in Hin as [gs' Hp].
  assert (NoDup (f x :: gs')) as [Hx _]%NoDup_cons by by rewrite <-Hp.
  rewrite Hp. cbn [fmap list_fmap mjoin list_join].
  rewrite filter_cons_True by done. simpl. apply perm_skip, Permutation_app_head.
  assert (∀ k k' : list A, k = k' → k ≡ₚ k') as Heq by by intros ?? ->.
  apply Heq. f_equal. apply list_fmap_ext. intros i g Hg.
  apply list_elem_of_lookup_2 in Hg. rewrite filter_cons_False; [done|]. by intros <-.
Qed.

Lemma elem_of_group_keys mr keys g :
  g ∈ group_keys mr keys ↔ ∃ k, k ∈ keys ∧ extract_multi_run_dims k mr = g.
Proof.
  unfold group_keys. rewrite elem_of_sort_by, elem_of_elements, elem_of_list_to_set.
  rewrite list_elem_of_fmap. naive_solver.
Qed.

Lemma NoDup_group_keys mr keys : NoDup (group_keys mr keys).
Proof. unfold group_keys. rewrite sort_by_perm. apply NoDup_elements. Qed.

Lemma filter_in_group mr g (keys : list PartitionKey) :
  filter (in_group mr g) keys = filter (λ k, extract_multi_run_dims k mr = g) keys.
Proof. apply list_filter_iff. intros k. unfold in_group. apply bool_decide_spec. Qed.

Lemma group_into_runs_perm s keys : mjoin (group_into_runs s keys) ≡ₚ keys.
Proof.
  destruct s as [| |mr sr].
  - simpl. induction keys; simpl; [done|]. by apply perm_skip.
  - simpl. case_bool_decide; [by subst|]. simpl. by rewrite app_nil_r.
  - rewrite per_dimension_groups.
    rewrite (list_fmap_ext _ (λ g, filter (λ k, extract_multi_run_dims k mr = g) keys))
      by (intros; apply filter_in_group).
    apply mjoin_filter_classes; [apply NoDup_group_keys|].
    intros k Hk. apply elem_of_group_keys. eauto.
Qed.

Lemma group_into_runs_nonempty s keys : Forall (λ g, g ≠ []) (group_into_runs s keys).
Proof.
  destruct s as [| |mr sr].
  - simpl. apply Forall_fmap, Forall_true. done.
  - simpl. case_bool_decide; by repeat constructor.
  - rewrite per_dimension_groups. apply Forall_fmap, Forall_forall. intros g Hg.
    apply elem_of_group_keys in Hg as (k & Hk & Hg). simpl. intros E.
    assert (k ∈ filter (in_group mr g) keys) as Hin.
    { apply list_elem_of_filter. split; [by apply bool_decide_pack|done]. }
    rewrite E in Hin. by apply elem_of_nil in Hin.
Qed.

(** ** Bundling is exact *)

(** A key naming exactly one partition. *)
Definition concrete (k : PartitionKey) : bool :=
  match k with
  | Single [_] => true
  | Multi dims => forallb (λ d, length d.2 =? 1) dims
  | _ => false
  end.

Lemma cartesian_singletons (dims acc : Dims) :
  Forall (λ d, ∃ v, d.2 = [v]) dims → cartesian_from [acc] dims = [acc ++ dims].
Proof.
  unfold cartesian_from. intros H. revert acc.
  induction H as [|[n vs] dims [v Hv] _ IH]; intros acc; simpl; [by rewrite app_nil_r|].
  simpl in Hv. subst vs. simpl. rewrite IH. by rewrite <-app_assoc.
Qed.

Lemma concrete_members k : concrete k = true → members_all k = [norm k].
Proof.
  destruct k as [[|s [|]]|dims|]; simpl; try done.
  rewrite forallb_Forall. intros H. unfold fmap. simpl.
  rewrite cartesian_singletons; [done|].
  unfold sort_dims. rewrite sort_by_perm. eapply Forall_impl; [exact H|].
  intros [n [|v [|]]]; simpl; try done. eauto.
Qed.

Lemma concrete_members_set keys :
  Forall (λ k, concrete k = true) keys → members_all (SetOf keys) = norm <$> keys.
Proof.
  intros H. change (mjoin (members_all <$> keys) = norm <$> keys).
  induction H as [|k ks Hk _ IH]; [done|].
  change (members_all k ++ mjoin (members_all <$> ks) = norm k :: (norm <$> ks)).
  by rewrite concrete_members, IH.
Qed.

Lemma norm_members_combo dims c :
  c ∈ cartesian_from [[]] (sort_dims dims) → norm (Multi c) = Multi c.
Proof.
  intros Hc. simpl. f_equal. apply sort_by_id.
  assert (c.*1 = (sort_dims dims).*1) as Hn.
  { revert Hc. change ((sort_dims dims).*1) with ([] ++ (sort_dims dims).*1).
    assert (∀ c, c ∈ [[]] → (c : Dims).*1 = []) as Hs.
    { intros ? ->%list_elem_of_singleton. done. }
    revert Hs. generalize ([] : list string). generalize ([[]] : list Dims).
    generalize (sort_dims dims). clear. unfold cartesian_from.
    induction l as [|[n vs] l IH]; intros start ns Hs; simpl.
    - rewrite app_nil_r. apply Hs.
    - intros Hc. rewrite (cons_middle n). rewrite app_assoc. eapply IH; [|exact Hc].
      intros c' (c0 & Hc' & Hc0)%list_elem_of_bind. unfold extend_combo in Hc'.
      apply list_elem_of_fmap in Hc' as (v & -> & _). rewrite fmap_app. simpl.
      by rewrite (Hs c0 Hc0). }
  apply (StronglySorted_fmap_inv fst String.leb). rewrite Hn.
  eapply (StronglySorted_fmap fst key_leb); [done|]. apply sort_by_key_sorted.
Qed.

Lemma NoDup_cartesian dims start :
  Forall (λ d, NoDup d.2) dims → NoDup start → NoDup (cartesian_from start dims).
Proof.
  unfold cartesian_from. intros H. revert start.
  induction H as [|[n vs] dims Hvs _ IH]; intros start Hs; simpl; [done|]. apply IH.
  apply NoDup_bind; [| |done]; unfold extend_combo.
  - intros c1 c2 y _ _ (v1 & -> & _)%list_elem_of_fmap (v2 & E & _)%list_elem_of_fmap.
    by apply app_inj_2 in E as [-> _].
  - intros c _. apply NoDup_fmap; [|done]. intros v1 v2 E. simplify_eq. congruence.
Qed.

Lemma NoDup_members_multi dims :
  Forall (λ d, NoDup d.2) dims → NoDup (norm <$> members_all (Multi dims)).
Proof.
  intros H. change (NoDup (norm <$> (Multi <$> cartesian_from [[]] (sort_dims dims)))).
  assert (norm <$> (Multi <$> cartesian_from [[]] (sort_dims dims)) =
          Multi <$> cartesian_from [[]] (sort_dims dims)) as ->.
  { rewrite <-list_fmap_compose. apply list_fmap_ext. intros i c Hc.
    by eapply norm_members_combo, list_elem_of_lookup_2. }
  apply NoDup_fmap; [congruence|]. apply NoDup_cartesian; [|apply NoDup_singleton].
  unfold sort_dims. by rewrite sort_by_perm.
Qed.

Lemma contains_spec l x : contains l x = true ↔ x ∈ l.
Proof.
  unfold contains. rewrite existsb_Exists, Exists_exists. setoid_rewrite String.eqb_eq.
  naive_solver.
Qed.

Lemma NoDup_push_new vals entry : NoDup entry → NoDup (push_new entry vals).
Proof.
  unfold push_new. revert entry. induction vals as [|v vals IH]; intros e He; simpl; [done|].
  apply IH. destruct (contains e v) eqn:E; [done|].
  rewrite <-not_true_iff_false, contains_spec in E.
  apply NoDup_app. split_and!; [done| |apply NoDup_singleton]. set_solver.
Qed.

Definition values_NoDup (st : UnionState) : Prop :=
  map_Forall (λ _ vs, NoDup vs) (us_values st).

Lemma union_dim_NoDup st d : values_NoDup st → values_NoDup (union_dim st d).
Proof.
  unfold values_NoDup, union_dim. intros H.
  destruct (us_values st !! d.1) eqn:E; simpl;
    (apply map_Forall_insert_2; [apply NoDup_push_new|done]); [by eapply H|constructor].
Qed.

Lemma union_keys_NoDup keys st :
  values_NoDup st → values_NoDup (foldl union_key st keys).
Proof.
  revert st. induction keys as [|k keys IH]; intros st H; simpl; [done|]. apply IH.
  destruct k as [|dims|]; simpl; [done| |done].
  revert st H. induction dims as [|d dims IHd]; intros st H; simpl; [done|].
  by apply IHd, union_dim_NoDup.
Qed.

Lemma take_dims_NoDup order values :
  map_Forall (λ _ vs, NoDup vs) values → Forall (λ d, NoDup d.2) (take_dims order values).
Proof.
  revert values. induction order as [|n order IH]; intros values H; simpl; constructor.
  - simpl. rewrite sort_by_perm. destruct (values !! n) eqn:E; simpl; [by eapply H|constructor].
  - apply IH. by apply map_Forall_delete.
Qed.

Lemma dedup_cons2 x y l :
  dedup (x :: y :: l) = if String.eqb x y then dedup (y :: l) else x :: dedup (y :: l).
Proof. done. Qed.

Lemma elem_of_dedup x l : x ∈ dedup l → x ∈ l.
Proof.
  induction l as [|y l IH]; [done|]. destruct l as [|z l]; [done|].
  rewrite dedup_cons2. destruct (String.eqb_spec y z) as [->|].
  - intros. right. by apply IH.
  - rewrite !elem_of_cons in *. naive_solver.
Qed.

Lemma NoDup_dedup l : StronglySorted String.leb l → NoDup (dedup l).
Proof.
  induction 1 as [|x l Hs IH Hx]; [constructor|]. destruct l as [|y l]; [apply NoDup_singleton|].
  rewrite dedup_cons2. destruct (String.eqb_spec x y) as [->|Hne]; [done|].
  constructor; [|done]. intros Hin%elem_of_dedup. apply Hne.
  apply StronglySorted_inv in Hs as [_ Hy]. apply Forall_cons in Hx as [Hxy _].
  apply elem_of_cons in Hin as [->|Hin]; [done|].
  rewrite Forall_forall in Hy. by apply string_leb_antisym; [|apply Hy].
Qed.

Lemma candidate_NoDup keys : NoDup (norm <$> members_all (candidate keys)).
Proof.
  assert (∀ l, NoDup (norm <$> members_all (Single (dedup (sort_by String.leb l))))) as Hs.
  { intros l. change (NoDup (norm <$> ((λ s, Single [s]) <$> dedup (sort_by String.leb l)))).
    rewrite <-list_fmap_compose. apply NoDup_fmap; [intros ?? [=]; done|].
    apply NoDup_dedup, sort_by_sorted; [apply string_leb_trans|apply string_leb_total]. }
  destruct keys as [|[| |] keys]; unfold candidate; [apply Hs|apply Hs| |apply Hs].
  apply NoDup_members_multi, take_dims_NoDup, union_keys_NoDup.
  unfold values_NoDup. apply map_Forall_empty.
Qed.

Lemma same_set_norm_perm a b :
  NoDup (norm <$> a) → same_set a b = true → norm <$> a ≡ₚ norm <$> b.
Proof.
  intros Hnd. unfold same_set. rewrite andb_true_iff, Nat.eqb_eq, forallb_Forall.
  intros [Hlen Hall]. apply NoDup_Permutation_bis.
  - by apply NoDup_ListNoDup.
  - rewrite !length_fmap. lia.
  - intros x Hx%list_elem_of_In. apply list_elem_of_In.
    apply list_elem_of_fmap in Hx as (k & -> & Hk). rewrite Forall_forall in Hall.
    specialize (Hall k Hk). apply existsb_Exists, Exists_exists in Hall as (k' & Hk' & E).
    apply pk_eqb_norm in E. rewrite E. by apply list_elem_of_fmap_2.
Qed.

Lemma NoDup_takeN {A} n (l : list A) : NoDup l → NoDup (takeN n l).
Proof.
  rewrite takeN_take. intros H. rewrite <-(take_drop (N.to_nat n) l) in H.
  by apply NoDup_app in H as [? _].
Qed.

Lemma bind_single_values vals : ((λ v, Single [v]) <$> vals) ≫= single_values = vals.
Proof. induction vals; simpl; [done|]. by f_equal. Qed.

Lemma dedup_NoDup l : NoDup l → dedup l = l.
Proof.
  induction 1 as [|x l Hx Hl IH]; [done|]. destruct l as [|y l]; [done|].
  rewrite dedup_cons2. destruct (String.eqb_spec x y) as [->|]; [|by rewrite IH].
  exfalso. apply Hx. left.
Qed.

Section bundle_exact.
Context (print : Json → string) (parse : string → option Json).

(** Bundling a run's keys into one batched key loses and adds nothing:
    expanding [bundle_keys keys] gives back exactly the group, as a multiset of
    keys up to [PartitionKey] equality. *)
Theorem bundle_keys_exact (keys : list PartitionKey) :
  Forall (λ k, concrete k = true) keys → (lenN keys <= usize_max)%N →
  norm <$> members (bundle_keys print parse keys) ≡ₚ norm <$> keys.
Proof.
  intros Hc Hlen. unfold bundle_keys. destruct (same_set _ _) eqn:E.
  - apply same_set_norm_perm; [|done]. unfold members.
    rewrite members_preview_all, <-takeN_fmap. apply NoDup_takeN, candidate_NoDup.
  - unfold members. rewrite members_preview_all, concrete_members_set by by rewrite sort_by_perm.
    rewrite takeN_ge by (unfold lenN in *; by rewrite length_fmap, length_sort_by).
    rewrite <-list_fmap_compose, sort_by_perm.
    by rewrite (list_fmap_ext (norm ∘ norm) norm) by (intros; apply norm_idemp).
Qed.

(** A group of distinct single-dimension keys always collapses to the
    compact [Single] form, holding their values in order. *)
Theorem bundle_keys_single (vals : list string) :
  NoDup vals → (lenN vals <= usize_max)%N →
  bundle_keys print parse ((λ v, Single [v]) <$> vals) = Single (sort_by String.leb vals).
Proof.
  intros Hnd Hlen. unfold bundle_keys.
  assert (candidate ((λ v, Single [v]) <$> vals) = Single (sort_by String.leb vals)) as ->.
  { transitivity (Single (dedup (sort_by String.leb vals))).
    - rewrite <-(bind_single_values vals) at 2. by destruct vals.
    - by rewrite dedup_NoDup by by rewrite sort_by_perm. }
  replace (same_set _ _) with true; [done|]. symmetry. unfold same_set, members.
  rewrite members_preview_all, takeN_ge by
    (unfold lenN in *; simpl; by rewrite length_fmap, length_sort_by).
  apply andb_true_iff. split.
  - apply Nat.eqb_eq. simpl. by rewrite !length_fmap, length_sort_by.
  - apply forallb_Forall, Forall_forall. intros k. simpl.
    intros (v & -> & Hv)%list_elem_of_fmap. apply existsb_Exists, Exists_exists.
    exists (Single [v]). split; [|by apply pk_eqb_norm].
    rewrite elem_of_sort_by in Hv. apply list_elem_of_fmap. eauto.
Qed.
End bundle_exact.

(** Grouping a backfill's keys into runs is a partition: every key is in
    exactly one run, whatever the strategy, and no run is empty. *)
Theorem group_into_runs_partition (s : BackfillStrategy) (keys : list PartitionKey) :
  mjoin (group_into_runs s keys) ≡ₚ keys ∧ Forall (λ g, g ≠ []) (group_into_runs s keys).
Proof. split; [apply group_into_runs_perm|apply group_into_runs_nonempty]. Qed.

(** Under [PerDimension] the runs are exactly the classes of keys that agree
    on the [multi_run] dimensions, each in input order, and the runs come in the
    lexicographic order of those dimensions' values: the result does not depend
    on the iteration order of the hash map it is built with. *)
Theorem per_dimension_spec (mr sr : list string) (keys : list PartitionKey) :
  group_into_runs (PerDimension mr sr) keys =
    (λ g, filter (λ k, extract_multi_run_dims k mr = g) keys) <$> group_keys mr keys
  ∧ StronglySorted dims_leb (group_keys mr keys) ∧ NoDup (group_keys mr keys)
  ∧ ∀ g, g ∈ group_keys mr keys ↔ ∃ k, k ∈ keys ∧ extract_multi_run_dims k mr = g.
Proof.
  split_and!; [| |apply NoDup_group_keys|apply elem_of_group_keys].
  - rewrite per_dimension_groups. apply list_fmap_ext. intros. apply filter_in_group.
  - destruct dims_total_leb as [Ht Hto _]. by apply sort_by_sorted.
Qed.
