(* ===== verification/PartitionTheorems.v ===== *)
(** * Correctness of partition keys and backfill grouping

    The theorems on [storage/partition_key.rs], and the witnesses of those on
    [execution/backfill.rs] with a concrete JSON codec in the place of
    [serde_json]. *)

From S2P Require Import Prelude PartitionKey PartitionJson BackfillGroup.

(** The expansion of a batched key is exact: [members] lists the value
    tuples of the key in order, [members_preview limit] is its first [limit]
    entries without building the rest, and [member_count] is its length, as long
    as that fits a [usize]; beyond that the count of one key saturates. *)
Theorem members_expansion (limit : N) (k : PartitionKey) :
  (limit ≤ usize_max)%N →
  members k = takeN usize_max (members_all k) ∧
  members_preview limit k = takeN limit (members k) ∧
  ((lenN (members_all k) ≤ usize_max)%N →
     members k = members_all k ∧ member_count k = lenN (members k)) ∧
  (∀ dims, k = Multi dims →
     member_count k = N.min usize_max (prodN ((λ d, lenN d.2) <$> dims))).
Proof.
  intros Hl. split_and!.
  - apply members_preview_all.
  - by apply members_preview_prefix.
  - intros Hfit. assert (members k = members_all k) as E.
    { unfold members. by rewrite members_preview_all, takeN_ge. }
    split; [done|]. rewrite E. by apply member_count_all.
  - intros dims ->. simpl. change (λ a n, saturating_mul a n) with saturating_mul.
    change 1%N with (N.min usize_max 1) at 1. by rewrite foldl_saturating_mul, N.mul_1_l.
Qed.

(** [PartialEq] of partition keys is an equivalence that identifies exactly
    the keys with the same canonical form (dimensions in name order), and it agrees
    with [Hash]: equal keys make the same writes to the hasher. *)
Theorem key_eq_hash (a b c : PartitionKey) :
  pk_eqb a a = true ∧ pk_eqb a b = pk_eqb b a ∧
  (pk_eqb a b = true → pk_eqb b c = true → pk_eqb a c = true) ∧
  (pk_eqb a b = true ↔ norm a = norm b) ∧ pk_eqb a (norm a) = true ∧
  (pk_eqb a b = true → pk_hash a = pk_hash b).
Proof.
  split_and!.
  - by apply pk_eqb_norm.
  - apply eq_true_iff_eq. by rewrite !pk_eqb_norm.
  - rewrite !pk_eqb_norm. congruence.
  - apply pk_eqb_norm.
  - apply pk_eqb_norm. by rewrite norm_idemp.
  - intros E%pk_eqb_norm. by rewrite <-(pk_hash_norm a), E, pk_hash_norm.
Qed.

(** A point lookup by display text finds its key: among the keys
    [display_candidates] reads from [to_display k] there is one equal to [k], for
    every single value and every multi-dimensional key whose names and values
    avoid the separators. *)
Theorem display_roundtrip (k : PartitionKey) :
  displayable k = true →
  ∃ c, c ∈ display_candidates (to_display k) ∧ pk_eqb c k = true.
Proof.
  destruct k as [[|v [|]]|dims|]; try done.
  - intros _. exists (Single [v]). split; [left|by apply pk_eqb_norm].
  - intros Hd. exists (Multi (sort_dims dims)). rewrite display_candidates_multi by done.
    split; [right; left|]. apply pk_eqb_norm. simpl. by rewrite sort_dims_idemp.
Qed.

(** C25: a partition key read back from its JSON text is the key that was written, up to
    [PartialEq], for keys whose dimension names are distinct and whose sets nest at most 63 deep,
    which keeps their JSON within the 127 levels the parser reads; one level of recursion per
    nesting of sets is enough. *)
Theorem json_roundtrip (print : Json → string) (parse : string → option Json) (k : PartitionKey) :
  (∀ v, json_wf v = true → json_depth v ≤ 127 → parse (print v) = Some v) →
  distinct_names k = true → set_depth k ≤ 63 →
  ∃ k', from_json print parse (set_depth k) (to_json print parse k) = inl k' ∧ pk_eqb k' k = true.
Proof.
  intros Hpp Hd H63. exists (norm k). split; [by apply from_json_to_json|].
  apply pk_eqb_norm. by rewrite norm_idemp.
Qed.

(** ** A concrete codec *)
Section codec.
Fixpoint json_tree (v : Json) : gen_tree (bool + Z + string) :=
  match v with
  | JNull => GenNode 0 []
  | JBool b => GenNode 1 [GenLeaf (inl (inl b))]
  | JNumber n => GenNode 2 [GenLeaf (inl (inr n))]
  | JString s => GenNode 3 [GenLeaf (inr s)]
  | JArray vs => GenNode 4 (json_tree <$> vs)
  | JObject kvs => GenNode 5 ((λ kv, GenNode 6 [GenLeaf (inr kv.1); json_tree kv.2]) <$> kvs)
  end.

Fixpoint tree_json (t : gen_tree (bool + Z + string)) : Json :=
  match t with
  | GenNode 1 [GenLeaf (inl (inl b))] => JBool b
  | GenNode 2 [GenLeaf (inl (inr n))] => JNumber n
  | GenNode 3 [GenLeaf (inr s)] => JString s
  | GenNode 4 ts => JArray (tree_json <$> ts)
  | GenNode 5 ts =>
      JObject ((λ t, match t with
                     | GenNode 6 [GenLeaf (inr k); v] => (k, tree_json v)
                     | _ => (EmptyString, JNull)
                     end) <$> ts)
  | _ => JNull
  end.

Lemma tree_json_tree v : tree_json (json_tree v) = v.
Proof.
  revert v. fix IH 1. intros [| | | |vs|kvs]; simpl; try done.
  - f_equal. induction vs as [|v vs IHvs]; [done|]. simpl. f_equal; [apply IH|exact IHvs].
  - f_equal. induction kvs as [|[k v] kvs IHkvs]; [done|]. simpl. f_equal; [|exact IHkvs].
    f_equal. apply IH.
Qed.

Fixpoint bits_string (p : positive) : string :=
  match p with
  | xH => EmptyString
  | xO p => String "0" (bits_string p)
  | xI p => String "1" (bits_string p)
  end.

Fixpoint string_bits (s : string) : positive :=
  match s with
  | EmptyString => xH
  | String c s => if Ascii.eqb c "0" then xO (string_bits s) else xI (string_bits s)
  end.

Lemma string_bits_string p : string_bits (bits_string p) = p.
Proof. induction p; simpl; by f_equal. Qed.

Definition bit_print (v : Json) : string := bits_string (encode (json_tree v)).
Definition bit_parse (s : string) : option Json := tree_json <$> decode (string_bits s).

Lemma bit_parse_print v : json_wf v = true → json_depth v ≤ 127 → bit_parse (bit_print v) = Some v.
Proof.
  intros _ _. unfold bit_parse, bit_print. rewrite string_bits_string, decode_encode. simpl.
  by rewrite tree_json_tree.
Qed.
End codec.

Section witnesses.
Definition two_dims : PartitionKey :=
  Multi [("region", ["eu"; "us"]); ("date", ["2024-01-01"; "2024-01-02"])].

Lemma members_expansion_witness :
  members_preview 3 two_dims = takeN 3 (members two_dims) ∧ member_count two_dims = 4%N.
Proof.
  destruct (members_expansion 3 two_dims ltac:(vm_compute; discriminate)) as (_ & Hp & _ & Hc).
  split; [exact Hp|]. rewrite (Hc _ eq_refl). reflexivity.
Defined.

Lemma key_eq_hash_witness :
  pk_hash two_dims =
  pk_hash (Multi [("date", ["2024-01-01"; "2024-01-02"]); ("region", ["eu"; "us"])]).
Proof.
  apply (key_eq_hash two_dims
    (Multi [("date", ["2024-01-01"; "2024-01-02"]); ("region", ["eu"; "us"])]) two_dims).
  reflexivity.
Defined.

Lemma display_roundtrip_witness :
  ∃ c, c ∈ display_candidates (to_display two_dims) ∧ pk_eqb c two_dims = true.
Proof. apply (display_roundtrip two_dims). reflexivity. Defined.

Lemma json_roundtrip_witness :
  ∃ k', from_json bit_print bit_parse 2 (to_json bit_print bit_parse (SetOf [two_dims])) = inl k' ∧
    pk_eqb k' (SetOf [two_dims]) = true.
Proof.
  apply (json_roundtrip bit_print bit_parse (SetOf [two_dims]) bit_parse_print); [reflexivity|vm_compute; lia].
Defined.

Lemma bundle_keys_exact_witness :
  norm <$> members (bundle_keys bit_print bit_parse [Single ["b"]; Single ["a"]]) ≡ₚ
  norm <$> [Single ["b"]; Single ["a"]].
Proof.
  apply (bundle_keys_exact bit_print bit_parse [Single ["b"]; Single ["a"]]).
  - repeat constructor.
  - vm_compute. discriminate.
Defined.

Lemma bundle_keys_single_witness :
  bundle_keys bit_print bit_parse ((λ v, Single [v]) <$> ["b"; "a"]) = Single ["a"; "b"].
Proof.
  rewrite (bundle_keys_single bit_print bit_parse ["b"; "a"]).
  - reflexivity.
  - apply (bool_decide_unpack _). vm_compute. exact I.
  - vm_compute. discriminate.
Defined.
End witnesses.
