(* ===== verification/Worklist.v ===== *)
(** * Worklist traversals

    The graph walks of the code are two loops: one marks a node when it is
    popped, the other when it is pushed. Both are proved here once, over an
    arbitrary successor function: with enough fuel each returns, and the result
    is the set of keys of the reachable nodes. *)

From S2P Require Import Prelude.

Section worklist.
Context {V K : Type} `{Countable K, EqDecision V}.
Context (key : V → K) (succ : V → list V).

Definition step (v w : V) : Prop := w ∈ succ v.

(** Mark on pop. *)
Fixpoint pop_loop (fuel : nat) (result : gset K) (stack : list V) : option (gset K) :=
  match stack with
  | [] => Some result
  | v :: stack =>
      match fuel with
      | O => None
      | S fuel =>
          if bool_decide (key v ∈ result) then pop_loop fuel result stack
          else pop_loop fuel ({[key v]} ∪ result) (succ v ++ stack)
      end
  end.

(** Mark on push. *)
Definition visit (st : gset K * list V) (w : V) : gset K * list V :=
  let '(result, stack) := st in
  if bool_decide (key w ∈ result) then (result, stack)
  else ({[key w]} ∪ result, w :: stack).

Fixpoint push_loop (fuel : nat) (result : gset K) (stack : list V) : option (gset K) :=
  match stack with
  | [] => Some result
  | v :: stack =>
      match fuel with
      | O => None
      | S fuel =>
          let '(result, stack) := foldl visit (result, stack) (succ v) in
          push_loop fuel result stack
      end
  end.

(** A finite universe of nodes, closed under [succ], told apart by their keys. *)
Context (vs : list V) (vs_nodup : NoDup vs).
Context (vs_inj : ∀ v w, v ∈ vs → w ∈ vs → key v = key w → v = w).
Context (vs_closed : ∀ v w, v ∈ vs → w ∈ succ v → w ∈ vs).

(** [weigh f result]: the weight of the nodes that are not marked yet. *)
Definition weigh (f : V → nat) (result : gset K) (l : list V) : nat :=
  sum_list ((λ v, if bool_decide (key v ∈ result) then 0 else f v) <$> l).

Lemma weigh_mark_fresh f result k l :
  (∀ v, v ∈ l → key v ≠ k) → weigh f ({[k]} ∪ result) l = weigh f result l.
Proof.
  intros Hl. unfold weigh. f_equal. apply list_fmap_ext. intros i v Hv.
  apply list_elem_of_lookup_2 in Hv. rewrite (bool_decide_ext _ (key v ∈ result)); [done|].
  specialize (Hl v Hv). set_solver.
Qed.

Lemma weigh_app f result l1 l2 :
  weigh f result (l1 ++ l2) = weigh f result l1 + weigh f result l2.
Proof. unfold weigh. by rewrite fmap_app, sum_list_with_app. Qed.

Lemma weigh_cons f result v l :
  weigh f result (v :: l) = (if bool_decide (key v ∈ result) then 0 else f v) + weigh f result l.
Proof. done. Qed.

Lemma weigh_mark f result v :
  v ∈ vs → key v ∉ result →
  weigh f ({[key v]} ∪ result) vs + f v = weigh f result vs.
Proof.
  intros Hv Hk. apply list_elem_of_split in Hv as (l1 & l2 & E).
  assert (∀ w, w ∈ l1 ++ l2 → key w ≠ key v) as Hne.
  { intros w Hw Hkw. assert (w = v) as ->.
    { apply vs_inj; [| |done]; rewrite E; set_solver. }
    rewrite E, <-Permutation_middle in vs_nodup.
    by apply NoDup_cons in vs_nodup as [? _]. }
  rewrite E, !(weigh_app _ _ l1).
  rewrite !weigh_cons.
  rewrite (weigh_mark_fresh f result (key v) l1) by (intros; apply Hne; set_solver).
  rewrite (weigh_mark_fresh f result (key v) l2) by (intros; apply Hne; set_solver).
  rewrite (bool_decide_eq_true_2 (key v ∈ {[key v]} ∪ result)) by set_solver.
  rewrite (bool_decide_eq_false_2 (key v ∈ result)) by done. lia.
Qed.

Lemma weigh_empty f : weigh f ∅ vs = sum_list (f <$> vs).
Proof. done. Qed.

Section pop.
Context (init : list V).

Definition reach (v : V) : Prop := ∃ s, s ∈ init ∧ rtc step s v.

Lemma reach_step v w : reach v → w ∈ succ v → reach w.
Proof. intros (s & ? & ?) ?. exists s. split; [done|]. by eapply rtc_r. Qed.

Lemma closed_reach (R : gset K) v :
  (∀ v w, v ∈ vs → key v ∈ R → w ∈ succ v → key w ∈ R) → reach v →
  (∀ s, s ∈ init → s ∈ vs ∧ key s ∈ R) → key v ∈ R.
Proof.
  intros Hcl (s & Hs & Hr) Hin. enough (v ∈ vs ∧ key v ∈ R) by tauto.
  revert v Hr. apply rtc_ind_r; [by apply Hin|].
  intros y z _ Hyz [Hy Hky]. split; [by eapply vs_closed|by eapply Hcl].
Qed.

Lemma pop_loop_inv fuel result stack :
  (∀ k, k ∈ result → ∃ v, reach v ∧ key v = k) →
  (∀ s, s ∈ stack → reach s ∧ s ∈ vs) →
  (∀ v w, v ∈ vs → key v ∈ result → w ∈ succ v → key w ∈ result ∨ w ∈ stack) →
  (∀ s, s ∈ init → s ∈ vs ∧ (key s ∈ result ∨ s ∈ stack)) →
  length stack + weigh (λ v, length (succ v)) result vs ≤ fuel →
  ∃ R, pop_loop fuel result stack = Some R ∧
       ∀ k, k ∈ R ↔ ∃ v, reach v ∧ key v = k.
Proof.
  revert result stack. induction fuel as [|fuel IH]; intros result [|v stack] Hs Hst Hcl Hin Hf;
    simpl in *; try lia.
  1,2: (exists result; split; [done|]; intros k; split; [apply Hs|];
    intros (v & Hr & <-); apply closed_reach; [|done|];
    [intros a b Ha Hka Hb; by destruct (Hcl a b Ha Hka Hb) as [?|?%elem_of_nil]
    |intros s Hsi; by destruct (Hin s Hsi) as [? [?|?%elem_of_nil]]]).
  destruct (Hst v) as [Hrv Hv]; [left|].
  case_bool_decide as Hk.
  - apply IH; [done|set_solver| | |lia].
    + intros a b Ha Hka Hb. destruct (Hcl a b Ha Hka Hb) as [?|[->|?]%elem_of_cons]; auto.
    + intros s Hsi. destruct (Hin s Hsi) as [? [?|[->|?]%elem_of_cons]]; auto.
  - apply IH.
    + intros k [->%elem_of_singleton|?]%elem_of_union; eauto.
    + intros s [Hsv|?]%elem_of_app; [|apply Hst; by right].
      split; [by eapply reach_step|by eapply vs_closed].
    + intros a b Ha Hka Hb. apply elem_of_union in Hka as [Hka%elem_of_singleton|Hka].
      * assert (a = v) as -> by by apply vs_inj. right. apply elem_of_app. by left.
      * destruct (Hcl a b Ha Hka Hb) as [?|[->|?]%elem_of_cons]; set_solver.
    + intros s Hsi. destruct (Hin s Hsi) as [? [?|[->|?]%elem_of_cons]]; set_solver.
    + rewrite length_app. pose proof (weigh_mark (λ v, length (succ v)) result v Hv Hk). lia.
Qed.

Lemma pop_loop_spec fuel :
  (∀ s, s ∈ init → s ∈ vs) →
  length init + sum_list ((λ v, length (succ v)) <$> vs) ≤ fuel →
  ∃ R, pop_loop fuel ∅ init = Some R ∧ ∀ k, k ∈ R ↔ ∃ v, reach v ∧ key v = k.
Proof.
  intros Hin Hf. apply pop_loop_inv; [set_solver| |set_solver| |by rewrite weigh_empty].
  - intros s Hs. split; [|auto]. by exists s.
  - auto.
Qed.
End pop.

Section push.
Context (start : V) (start_in : start ∈ vs).

Lemma visit_spec l result stack :
  (∀ w, w ∈ l → w ∈ vs) →
  let '(result', stack') := foldl visit (result, stack) l in
  (∀ k, k ∈ result' ↔ k ∈ result ∨ ∃ w, w ∈ l ∧ key w = k) ∧
  (∀ w, w ∈ stack → w ∈ stack') ∧
  (∀ w, w ∈ stack' → w ∈ stack ∨ w ∈ l) ∧
  (∀ w, w ∈ vs → key w ∈ result' → key w ∈ result ∨ w ∈ stack') ∧
  length stack' + weigh (λ _, 1) result' vs = length stack + weigh (λ _, 1) result vs.
Proof.
  revert result stack. induction l as [|v l IH]; intros result stack Hl; cbn [foldl].
  { split_and!; [|auto..|done]. intros k. split; [by left|].
    by intros [?|(? & ?%elem_of_nil & _)]. }
  specialize (IH (visit (result, stack) v).1 (visit (result, stack) v).2).
  destruct (visit (result, stack) v) as [r1 s1] eqn:Ev. simpl in IH.
  destruct (foldl visit (r1, s1) l) as [r2 s2].
  destruct IH as (I1 & I2 & I3 & I4 & I5); [intros; apply Hl; by right|].
  unfold visit in Ev. case_bool_decide as Hk; injection Ev as <- <-.
  - split_and!; [|auto|set_solver|auto|done]. intros k. rewrite I1. set_solver.
  - assert (v ∈ vs) as Hv by (apply Hl; left).
    split_and!.
    + intros k. rewrite I1. set_solver.
    + intros w ?. apply I2. by right.
    + intros w ?%I3. set_solver.
    + intros w Hw Hkw. destruct (I4 w Hw Hkw) as [[E%elem_of_singleton|?]%elem_of_union|?];
        [|auto|auto]. right. apply I2. apply elem_of_cons. left. by apply vs_inj.
    + rewrite I5. pose proof (weigh_mark (λ _, 1) result v Hv Hk) as Hw. simpl in *. lia.
Qed.

Lemma push_closed_reach (R : gset K) v :
  (∀ v w, v ∈ vs → v = start ∨ key v ∈ R → w ∈ succ v → key w ∈ R) →
  tc step start v → key v ∈ R.
Proof.
  intros Hcl Hr. enough (v ∈ vs ∧ key v ∈ R) by tauto.
  revert v Hr. apply tc_ind_r.
  - intros y Hy. split; [by eapply vs_closed|]. by eapply (Hcl start); [|left|].
  - intros y z _ Hyz [Hy Hky]. split; [by eapply vs_closed|]. by eapply Hcl; [|right|].
Qed.

Lemma push_loop_inv fuel result stack :
  (∀ k, k ∈ result → ∃ v, tc step start v ∧ key v = k) →
  (∀ s, s ∈ stack → rtc step start s ∧ s ∈ vs) →
  (∀ v w, v ∈ vs → v = start ∨ key v ∈ result → w ∈ succ v → key w ∈ result ∨ v ∈ stack) →
  length stack + weigh (λ _, 1) result vs ≤ fuel →
  ∃ R, push_loop fuel result stack = Some R ∧
       ∀ k, k ∈ R ↔ ∃ v, tc step start v ∧ key v = k.
Proof.
  revert result stack. induction fuel as [|fuel IH]; intros result [|v stack] Hs Hst Hcl Hf;
    simpl in *; try lia.
  1,2: (exists result; split; [done|]; intros k; split; [apply Hs|];
    intros (v & Hr & <-); eapply (push_closed_reach result); [|done];
    intros a b Ha Hka Hb; by destruct (Hcl a b Ha Hka Hb) as [?|?%elem_of_nil]).
  destruct (Hst v) as [Hrv Hv]; [left|].
  pose proof (visit_spec (succ v) result stack) as Hvis.
  destruct (foldl visit (result, stack) (succ v)) as [r' s'].
  destruct Hvis as (I1 & I2 & I3 & I4 & I5); [by eauto|]. apply IH.
  - intros k [?|(w & Hw & <-)]%I1; [auto|]. exists w. split; [|done].
    by eapply tc_rtc_l; [|apply tc_once].
  - intros s [?|Hsv]%I3; [apply Hst; by right|].
    split; [by eapply rtc_r|by eapply vs_closed].
  - intros a b Ha Hka Hb. rewrite (I1 (key b)).
    assert (a = start ∨ key a ∈ result ∨ a ∈ s') as Hka'.
    { destruct Hka as [?|Hka]; [auto|]. right. by apply I4. }
    destruct (decide (a ∈ s')) as [|Hns]; [by right|].
    assert (key b ∈ result ∨ a ∈ v :: stack) as Hor by (apply Hcl; tauto).
    rewrite elem_of_cons in Hor. destruct Hor as [?|[->|?]]; [by left; left|eauto|].
    right. by apply I2.
  - lia.
Qed.

Lemma push_loop_spec fuel :
  S (length vs) ≤ fuel →
  ∃ R, push_loop fuel ∅ [start] = Some R ∧ ∀ k, k ∈ R ↔ ∃ v, tc step start v ∧ key v = k.
Proof.
  intros Hf. apply push_loop_inv; [set_solver| | |].
  - intros s ->%list_elem_of_singleton. split; [apply rtc_refl|done].
  - intros v w _ [->|?%elem_of_empty] _; [|done]. right. left.
  - rewrite weigh_empty. simpl.
    enough (sum_list ((λ _, 1) <$> vs) = length vs) by lia.
    clear. induction vs; simpl; [done|]. by f_equal.
Qed.
End push.
End worklist.
