(* ===== verification/AssetGraph.v ===== *)
(** * The asset dependency graph (rust/rivers-core/src/assets/graph.rs, repo/mod.rs)

    [petgraph] is a third-party crate. Its [Graph] is data: the node weights in
    index order and the edges in the order they were added. Its traversals and
    algorithms are the operations of the class [Petgraph], and what the code
    relies on of them is [PetgraphLaws]; [PetgraphRef] shows that the laws can be
    met. Edges point from an asset to the assets it depends on. *)

From S2P Require Import Prelude.
From stdpp Require Import pretty.

Inductive NodeRef :=
| ByName (name : string)
| Resolved (idx : nat).

Inductive NodeKind := KAsset | KTask | KGraphAsset.

Definition node_kind_as_str (k : NodeKind) : string :=
  match k with KAsset => "asset" | KTask => "task" | KGraphAsset => "graph_asset" end.

Definition node_kind_from_str (s : string) : NodeKind + string :=
  if String.eqb s "asset" then inl KAsset
  else if String.eqb s "task" then inl KTask
  else if String.eqb s "graph_asset" then inl KGraphAsset
  else inr ("unknown NodeKind: '" +:+ s +:+ "'").

Record Graph (N : Type) := mkGraph {
  g_nodes : list N;
  g_edges : list (nat * nat);
}.
Arguments mkGraph {_}.
Arguments g_nodes {_}.
Arguments g_edges {_}.

Inductive DagNode := mkDagNode {
  dn_name : string;
  dn_kind : NodeKind;
  dn_inputs : list NodeRef;
  dn_outputs : list string;
  dn_sub_graph : option (Graph DagNode);
}.

Abbreviation AssetGraph := (Graph DagNode).

Definition new_dag_node (name : string) : DagNode :=
  mkDagNode name KAsset [] [] None.

(** The name of node [i]; [graph[idx]] panics out of range, which no caller does. *)
Definition node_name (g : AssetGraph) (i : nat) : string :=
  from_option dn_name EmptyString (g_nodes g !! i).

Definition names (g : AssetGraph) : list string := dn_name <$> g_nodes g.

Definition node_count (g : AssetGraph) : nat := length (g_nodes g).

Definition node_indices (g : AssetGraph) : list nat := seq 0 (node_count g).

(** [i] depends on [j]. *)
Definition edge (g : AssetGraph) (i j : nat) : Prop := (i, j) ∈ g_edges g.

Definition edges_ok (g : AssetGraph) : Prop :=
  ∀ i j, edge g i j → i < node_count g ∧ j < node_count g.

Definition acyclic (g : AssetGraph) : Prop := ∀ i, ¬ tc (edge g) i i.

Inductive Direction := Outgoing | Incoming.

Definition dir_edge (g : AssetGraph) (d : Direction) (i j : nat) : Prop :=
  match d with Outgoing => edge g i j | Incoming => edge g j i end.

(** The neighbours of [i] in direction [d], one per edge. *)
Definition adjacent (g : AssetGraph) (i : nat) (d : Direction) : list nat :=
  match d with
  | Outgoing => snd <$> filter (λ e, e.1 = i) (g_edges g)
  | Incoming => fst <$> filter (λ e, e.2 = i) (g_edges g)
  end.

Class Petgraph := {
  neighbors_directed : AssetGraph → nat → Direction → list nat;
  toposort : AssetGraph → option (list nat);
  is_cyclic_directed : AssetGraph → bool;
  tarjan_scc : AssetGraph → list (list nat);
  has_path_connecting : AssetGraph → nat → nat → bool;
}.

(** What petgraph documents of those functions, on a graph whose edges connect
    its nodes. *)
Class PetgraphLaws `{Petgraph} : Prop := {
  neighbors_spec g i d :
    neighbors_directed g i d ≡ₚ adjacent g i d;
  toposort_perm g order :
    edges_ok g → toposort g = Some order → order ≡ₚ node_indices g;
  toposort_before g order i j :
    edges_ok g → toposort g = Some order → edge g i j → before order i j;
  toposort_acyclic g :
    edges_ok g → acyclic g → is_Some (toposort g);
  is_cyclic_spec g :
    edges_ok g → is_cyclic_directed g = true ↔ ¬ acyclic g;
  tarjan_spec g i j scc :
    edges_ok g → scc ∈ tarjan_scc g → i ∈ scc →
    j ∈ scc ↔ rtc (edge g) i j ∧ rtc (edge g) j i;
  has_path_spec g i j :
    edges_ok g → i < node_count g →
    has_path_connecting g i j = true ↔ rtc (edge g) i j;
}.

Lemma elem_of_adjacent g i d j : j ∈ adjacent g i d ↔ dir_edge g d i j.
Proof.
  destruct d; simpl; rewrite list_elem_of_fmap; setoid_rewrite list_elem_of_filter;
    unfold edge; split.
  - by intros ([??] & -> & <- & ?).
  - intros. by exists (i, j).
  - by intros ([??] & -> & <- & ?).
  - intros. by exists (j, i).
Qed.

Section graph.
Context `{Petgraph}.

(** ** Topology for the UI *)
Record TopologyNode := {
  tn_name : string;
  tn_kind : NodeKind;
  tn_group : option string;
  tn_parent_graph : option string;
}.

Record GraphTopology := {
  gt_nodes : list TopologyNode;
  gt_edges : list (string * string);
}.

Definition edge_leb : string * string → string * string → bool :=
  pair_leb String.leb String.leb.

Definition to_topology (g : AssetGraph) : GraphTopology :=
  {| gt_nodes :=
       (λ n, {| tn_name := dn_name n; tn_kind := dn_kind n;
                tn_group := None; tn_parent_graph := None |}) <$> g_nodes g;
     gt_edges :=
       sort_by edge_leb ((λ e, (node_name g e.1, node_name g e.2)) <$> g_edges g) |}.

(** ** Cycle detection *)
Definition format_cycle (g : AssetGraph) (scc : list nat) : string :=
  let ns := node_name g <$> scc in
  let ns := match ns with [] => ns | first :: _ => ns ++ [first] end in
  String.concat " -> " ns.

Definition newline : string := char_str (Ascii.ascii_of_nat 10).

Definition detect_cycles (g : AssetGraph) : unit + string :=
  if negb (is_cyclic_directed g) then inl tt else
  let cycles := format_cycle g <$> filter (λ scc, 1 < length scc) (tarjan_scc g) in
  match cycles with
  | [c] => inr ("Cycle detected in asset graph: " +:+ c)
  | _ =>
      let listed := String.concat newline
        (imap (λ i c, "  " +:+ pretty (S i) +:+ ". " +:+ c) cycles) in
      inr (pretty (length cycles) +:+ " cycles detected in asset graph:" +:+ newline +:+ listed)
  end.

(** ** Lookups and reachability *)
Definition find_node_by_name (g : AssetGraph) (name : string) : option nat :=
  find (λ i, String.eqb (node_name g i) name) (node_indices g).

(** [collect::<HashMap<_, _>>()]: a later node of the same name wins. *)
Definition name_to_index (g : AssetGraph) : gmap string nat :=
  foldl (λ m i, <[node_name g i := i]> m) ∅ (node_indices g).

Definition is_upstream_of (g : AssetGraph) (downstream upstream : nat) : bool :=
  has_path_connecting g downstream upstream.

Definition not_found (name : string) : string := "Node '" +:+ name +:+ "' not found in graph".

Definition is_reachable (g : AssetGraph) (from_name to_name : string) : bool + string :=
  match find_node_by_name g from_name with
  | None => inr (not_found from_name)
  | Some from_idx =>
      match find_node_by_name g to_name with
      | None => inr (not_found to_name)
      | Some to_idx => inl (has_path_connecting g from_idx to_idx)
      end
  end.

Definition materialization_requires (g : AssetGraph) (target candidate : string)
    : bool + string := is_reachable g target candidate.

(** The body of [traverse]'s loop: [if result.insert(name) { stack.push(neighbor) }]
    over the neighbours; the stack's top is its head. *)
Definition visit_neighbor (g : AssetGraph) (st : gset string * list nat) (j : nat)
    : gset string * list nat :=
  let '(result, stack) := st in
  if bool_decide (node_name g j ∈ result) then (result, stack)
  else ({[node_name g j]} ∪ result, j :: stack).

Fixpoint traverse_loop (fuel : nat) (g : AssetGraph) (d : Direction)
    (result : gset string) (stack : list nat) : option (gset string) :=
  match stack with
  | [] => Some result
  | idx :: stack =>
      match fuel with
      | O => None
      | S fuel =>
          let '(result, stack) :=
            foldl (visit_neighbor g) (result, stack) (neighbors_directed g idx d) in
          traverse_loop fuel g d result stack
      end
  end.

(** One pop for the start and one per name inserted. *)
Definition traverse (g : AssetGraph) (name : string) (d : Direction) : option (gset string) :=
  match find_node_by_name g name with
  | None => Some ∅
  | Some start => traverse_loop (S (node_count g)) g d ∅ [start]
  end.

Definition ancestors (g : AssetGraph) (name : string) : option (gset string) :=
  traverse g name Outgoing.

Definition descendants (g : AssetGraph) (name : string) : option (gset string) :=
  traverse g name Incoming.

Fixpoint closure_loop (fuel : nat) (g : AssetGraph)
    (result : gset string) (stack : list nat) : option (gset string) :=
  match stack with
  | [] => Some result
  | idx :: stack =>
      match fuel with
      | O => None
      | S fuel =>
          let name := node_name g idx in
          if bool_decide (name ∈ result) then closure_loop fuel g result stack
          else closure_loop fuel g ({[name]} ∪ result)
                 (rev (neighbors_directed g idx Outgoing) ++ stack)
      end
  end.

(** One pop per initial target and per edge. *)
Definition upstream_closure `{!HashIter string} (g : AssetGraph) (targets : gset string)
    : option (gset string) :=
  let lookup := name_to_index g in
  let stack := rev (omap (λ name, lookup !! name) (hash_iter targets)) in
  closure_loop (length stack + length (g_edges g)) g ∅ stack.

(** The pairs of a selected asset and a direct dependency that is not selected. *)
Definition missing_deps `{!HashIter string} (g : AssetGraph) (selection : gset string)
    : list (string * string) :=
  let lookup := name_to_index g in
  hash_iter selection ≫= λ name,
    match lookup !! name with
    | Some idx =>
        omap (λ dep_idx,
          let dep_name := node_name g dep_idx in
          if bool_decide (dep_name ∈ selection) then None else Some (name, dep_name))
          (neighbors_directed g idx Outgoing)
    | None => []
    end.

Definition validate_subgraph_completeness `{!HashIter string}
    (g : AssetGraph) (selection : gset string) : unit + list (string * string) :=
  match missing_deps g selection with [] => inl tt | missing => inr missing end.
End graph.

(** ** The code repository and graph resolution *)
Record CodeRepository := {
  cr_assets : list (string * list NodeRef);  (* a [BTreeMap]: see [bt_collect] *)
  cr_graph : option AssetGraph;
}.

Definition new_repository (assets : list (string * list NodeRef)) : CodeRepository :=
  {| cr_assets := assets; cr_graph := None |}.

(** [BTreeMap::extend] *)
Definition add_assets (assets : list (string * list NodeRef)) (r : CodeRepository)
    : CodeRepository :=
  {| cr_assets := foldl (λ m e, bt_insert e.1 e.2 m) (cr_assets r) assets;
     cr_graph := cr_graph r |}.

Inductive ResolveError :=
| UnresolvedInput (asset dep : string)
| SelfDependency (asset : string)
| CycleFound (message : string)
| UnreachablePanic.

Fixpoint resolve_inputs (lookup : gmap string nat) (idx : nat) (name : string)
    (inputs : list NodeRef) (resolved : list NodeRef) (edges : list (nat * nat))
    : (list NodeRef * list (nat * nat)) + ResolveError :=
  match inputs with
  | [] => inl (resolved, edges)
  | input :: inputs =>
      match input with
      | Resolved _ => inr UnreachablePanic
      | ByName dep_name =>
          match lookup !! dep_name with
          | None => inr (UnresolvedInput name dep_name)
          | Some dep_idx =>
              if dep_idx =? idx then inr (SelfDependency name)
              else resolve_inputs lookup idx name inputs
                     (resolved ++ [Resolved dep_idx]) (edges ++ [(idx, dep_idx)])
          end
      end
  end.

Definition with_inputs (n : DagNode) (inputs : list NodeRef) : DagNode :=
  mkDagNode (dn_name n) (dn_kind n) inputs (dn_outputs n) (dn_sub_graph n).

(** The loop over [node_indices]; [todo] are the nodes from [idx] on. *)
Fixpoint resolve_nodes (lookup : gmap string nat) (idx : nat) (todo : list DagNode)
    (done_nodes : list DagNode) (edges : list (nat * nat)) : AssetGraph + ResolveError :=
  match todo with
  | [] => inl (mkGraph done_nodes edges)
  | n :: todo =>
      match resolve_inputs lookup idx (dn_name n) (dn_inputs n) [] edges with
      | inr e => inr e
      | inl (resolved, edges) =>
          resolve_nodes lookup (S idx) todo (done_nodes ++ [with_inputs n resolved]) edges
      end
  end.

Section resolve.
Context `{Petgraph}.

Definition initial_nodes (assets : list (string * list NodeRef)) : list DagNode :=
  (λ a, with_inputs (new_dag_node a.1) a.2) <$> assets.

Definition resolve_asset_graph (r : CodeRepository) : CodeRepository + ResolveError :=
  let nodes := initial_nodes (cr_assets r) in
  let lookup := name_to_index (mkGraph nodes []) in
  match resolve_nodes lookup 0 nodes [] [] with
  | inr e => inr e
  | inl graph =>
      match detect_cycles graph with
      | inr msg => inr (CycleFound msg)
      | inl _ => inl {| cr_assets := cr_assets r; cr_graph := Some graph |}
      end
  end.

(** [sort_topologically]: dependencies first, then what the graph does not name. *)
Fixpoint take_in_order {T} (g : AssetGraph) (order : list nat) (items : gmap string T)
    : list T * gmap string T :=
  match order with
  | [] => ([], items)
  | idx :: order =>
      let name := node_name g idx in
      match items !! name with
      | Some item =>
          let '(out, rest) := take_in_order g order (delete name items) in
          (item :: out, rest)
      | None => take_in_order g order items
      end
  end.

Definition sort_topologically `{!HashIter string} {T} (r : CodeRepository)
    (items : gmap string T) : list T :=
  let '(out, rest) :=
    match cr_graph r with
    | Some g =>
        match toposort g with
        | Some topo => take_in_order g (rev topo) items
        | None => ([], items)
        end
    | None => ([], items)
    end in
  out ++ omap (λ k, rest !! k) (hash_iter (dom rest)).
End resolve.

(** ** Lineage over the serialized topology *)
(** [adj.entry(from).or_default().push(to)] *)
Definition push_adj (adj : gmap string (list string)) (from to : string)
    : gmap string (list string) :=
  <[from := default [] (adj !! from) ++ [to]]> adj.

Fixpoint walk_loop (fuel : nat) (adj : gmap string (list string))
    (result : gset string) (stack : list string) : option (gset string) :=
  match stack with
  | [] => Some result
  | n :: stack =>
      match fuel with
      | O => None
      | S fuel =>
          if bool_decide (n ∈ result) then walk_loop fuel adj result stack
          else walk_loop fuel adj ({[n]} ∪ result) (rev (default [] (adj !! n)) ++ stack)
      end
  end.

(** Each adjacency list is pushed at most twice: as the initial stack and when
    its node is first popped. *)
Definition walk (n_edges : nat) (adj : gmap string (list string)) (node_name : string)
    : option (gset string) :=
  walk_loop (2 * n_edges) adj ∅ (rev (default [] (adj !! node_name))).

Definition lineage (t : GraphTopology) (node_name : string)
    : option (gset string) * option (gset string) :=
  let '(deps_of, dependents_of) :=
    foldl (λ '(d, u) '(from, to), (push_adj d from to, push_adj u to from))
          (∅, ∅) (gt_edges t) in
  let n := length (gt_edges t) in
  (walk n deps_of node_name, walk n dependents_of node_name).
