(* ===== verification/AssetGraphProps.v ===== *)
(** * Properties of the asset graph

    Reachability queries, closures, completeness checks and lineage compute the
    (transitive) dependency relation between asset names; graph resolution
    produces exactly the declared dependencies and accepts exactly the acyclic
    declarations. *)

From S2P Require Import Prelude Worklist AssetGraph.

(** A graph as resolution builds it: one node per name, edges between nodes. *)
Record graph_wf (g : AssetGraph) : Prop := {
  wf_names : NoDup (names g);
  wf_edges : edges_ok g;
}.

(** [a] depends directly on [b], by name. *)
Definition depends (g : AssetGraph) (a b : string) : Prop :=
  ∃ i j, edge g i j ∧ names g !! i = Some a ∧ names g !! j = Some b.

Lemma node_name_lookup g i a : names g !! i = Some a → node_name g i = a.
Proof.
  unfold names, node_name. rewrite list_lookup_fmap.
  destruct (g_nodes g !! i); simpl; congruence.
Qed.

Lemma names_lookup g i : i < node_count g → names g !! i = Some (node_name g i).
Proof.
  intros [n Hn]%lookup_lt_is_Some. unfold names, node_name. by rewrite list_lookup_fmap, Hn.
Qed.

Lemma names_lookup_lt g i a : names g !! i = Some a → i < node_count g.
Proof. intros Hi%lookup_lt_Some. unfold names in Hi. by rewrite length_fmap in Hi. Qed.

Lemma elem_of_node_indices g i : i ∈ node_indices g ↔ i < node_count g.
Proof. unfold node_indices. rewrite elem_of_seq. lia. Qed.

Lemma NoDup_node_indices g : NoDup (node_indices g).
Proof. apply NoDup_seq. Qed.

Section wf.
Context (g : AssetGraph) (Hwf : graph_wf g).

Lemma names_inj i j a : names g !! i = Some a → names g !! j = Some a → i = j.
Proof. apply (NoDup_lookup _ _ _ _ (wf_names _ Hwf)). Qed.

Lemma node_name_inj i j :
  i ∈ node_indices g → j ∈ node_indices g → node_name g i = node_name g j → i = j.
Proof.
  rewrite !elem_of_node_indices. intros Hi%names_lookup Hj%names_lookup E.
  rewrite E in Hi. by eapply names_inj.
Qed.

Lemma edge_lookup i j :
  edge g i j → names g !! i = Some (node_name g i) ∧ names g !! j = Some (node_name g j).
Proof. intros [??]%(wf_edges _ Hwf). auto using names_lookup. Qed.

Lemma edge_depends i j : edge g i j → depends g (node_name g i) (node_name g j).
Proof. intros He. destruct (edge_lookup _ _ He). by exists i, j. Qed.

(** Paths between nodes are dependency chains between names, and back. *)
Lemma tc_edge_depends i j :
  tc (edge g) i j → tc (depends g) (node_name g i) (node_name g j).
Proof. apply tc_congruence. apply edge_depends. Qed.

Lemma rtc_edge_depends i j :
  rtc (edge g) i j → rtc (depends g) (node_name g i) (node_name g j).
Proof. apply rtc_congruence. apply edge_depends. Qed.

Lemma rtc_depends_edge a b i :
  rtc (depends g) a b → names g !! i = Some a →
  ∃ j, names g !! j = Some b ∧ rtc (edge g) i j.
Proof.
  intros Hr. revert i. induction Hr as [a|a c b (i' & j & He & Ha & Hc) _ IH]; intros i Hi.
  { exists i. split; [done|apply rtc_refl]. }
  assert (i = i') as <- by by eapply names_inj.
  destruct (IH j Hc) as (k & Hk & Hr). exists k. split; [done|]. by eapply rtc_l.
Qed.

Lemma tc_depends_edge a b :
  tc (depends g) a b →
  ∃ i j, names g !! i = Some a ∧ names g !! j = Some b ∧ tc (edge g) i j.
Proof.
  intros Ht. assert (∃ c, depends g a c ∧ rtc (depends g) c b) as (c & (i & j & He & Ha & Hc) & Hr).
  { inversion Ht; subst; eauto using rtc_refl, tc_rtc. }
  destruct (rtc_depends_edge _ _ j Hr Hc) as (k & Hk & Hr').
  exists i, k. split_and!; [done..|]. by eapply tc_rtc_r; [apply tc_once|].
Qed.

Lemma tc_depends_iff a b :
  tc (depends g) a b ↔ ∃ i j, names g !! i = Some a ∧ names g !! j = Some b ∧ tc (edge g) i j.
Proof.
  split; [apply tc_depends_edge|]. intros (i & j & Hi & Hj & Ht).
  apply node_name_lookup in Hi as <-, Hj as <-. by apply tc_edge_depends.
Qed.

Lemma find_node_by_name_spec n i :
  find_node_by_name g n = Some i ↔ names g !! i = Some n.
Proof.
  unfold find_node_by_name. split.
  - intros Hf. apply List.find_some in Hf as [Hi E%String.eqb_eq].
    apply list_elem_of_In, elem_of_node_indices, names_lookup in Hi. by rewrite Hi, E.
  - intros Hi. pose proof (names_lookup_lt _ _ _ Hi) as Hlt.
    destruct (List.find _ _) as [j|] eqn:E.
    + apply List.find_some in E as [Hj E%String.eqb_eq]. f_equal.
      apply list_elem_of_In, elem_of_node_indices, names_lookup in Hj.
      rewrite E in Hj. by eapply names_inj.
    + eapply (List.find_none _ _) with (x := i) in E.
      * apply node_name_lookup in Hi. by rewrite Hi, String.eqb_refl in E.
      * by apply list_elem_of_In, elem_of_node_indices.
Qed.

Lemma name_to_index_spec n i :
  name_to_index g !! n = Some i ↔ names g !! i = Some n.
Proof.
  unfold name_to_index.
  assert (∀ l (m : gmap string nat),
    (∀ j, j ∈ l → j < node_count g) →
    foldl (λ m i, <[node_name g i := i]> m) m l !! n = Some i ↔
    (i ∈ l ∧ names g !! i = Some n) ∨
    ((∀ j, j ∈ l → names g !! j ≠ Some n) ∧ m !! n = Some i)) as Hgen.
  { induction l as [|j l IH]; intros m Hl; simpl; [set_solver|].
    rewrite IH by set_solver. rewrite lookup_insert.
    assert (names g !! j = Some (node_name g j)) as Hj by (apply names_lookup, Hl; left).
    destruct (decide (node_name g j = n)) as [En|En].
    - rewrite En in Hj. split.
      + intros [[? ?]|[? [= ->]]]; left; split; try done; [by right|left].
      + intros [[[->|Hi]%elem_of_cons Hn]|[Hno _]].
        * destruct (decide (j ∈ l)); [by left|]. right. split; [|done].
          intros k Hk Hkn. assert (k = j) as -> by by eapply names_inj. done.
        * left. done.
        * exfalso. by apply (Hno j); [left|].
    - split.
      + intros [[? ?]|[Hno ?]]; [left; split; [by right|done]|right].
        split; [|done]. intros k [->|?]%elem_of_cons; [|by auto]. rewrite Hj. congruence.
      + intros [[[->|Hi]%elem_of_cons Hn]|[Hno ?]]; [congruence|by left|right].
        split; [|done]. intros k Hk. apply Hno. by right. }
  rewrite Hgen by (intros; by apply elem_of_node_indices). rewrite lookup_empty.
  split; [naive_solver|]. intros Hi. left. split; [|done].
  by apply elem_of_node_indices, (names_lookup_lt _ _ n).
Qed.
End wf.

Section walks.
Context `{Petgraph, !PetgraphLaws}.

Lemma traverse_loop_push fuel g d result stack :
  traverse_loop fuel g d result stack =
  push_loop (node_name g) (λ i, neighbors_directed g i d) fuel result stack.
Proof.
  revert result stack. induction fuel as [|fuel IH]; intros result [|i stack]; simpl; try done.
  change (foldl (visit_neighbor g) (result, stack) (neighbors_directed g i d))
    with (foldl (visit (node_name g)) (result, stack) (neighbors_directed g i d)).
  destruct (foldl _ _ _) as [r s]. apply IH.
Qed.

Lemma closure_loop_pop fuel g result stack :
  closure_loop fuel g result stack =
  pop_loop (node_name g) (λ i, rev (neighbors_directed g i Outgoing)) fuel result stack.
Proof.
  revert result stack. induction fuel as [|fuel IH]; intros result [|i stack]; simpl; try done.
  case_bool_decide; apply IH.
Qed.

Lemma walk_loop_pop fuel adj result stack :
  walk_loop fuel adj result stack =
  pop_loop id (λ n, rev (default [] (adj !! n))) fuel result stack.
Proof.
  revert result stack. induction fuel as [|fuel IH]; intros result [|i stack]; simpl; try done.
  change (id i) with i. case_bool_decide; apply IH.
Qed.

Lemma elem_of_neighbors g i d j : j ∈ neighbors_directed g i d ↔ dir_edge g d i j.
Proof. by rewrite neighbors_spec, elem_of_adjacent. Qed.

Lemma dir_edge_ok g d i j :
  edges_ok g → dir_edge g d i j → i ∈ node_indices g ∧ j ∈ node_indices g.
Proof. intros Hok. rewrite !elem_of_node_indices. destruct d; intros []%Hok; auto. Qed.

(** Dependency of names, seen in direction [d]. *)
Definition dir_depends (g : AssetGraph) (d : Direction) (a b : string) : Prop :=
  match d with Outgoing => tc (depends g) a b | Incoming => tc (depends g) b a end.

Lemma tc_step_dir g d i j :
  tc (step (λ i, neighbors_directed g i d)) i j ↔ tc (dir_edge g d) i j.
Proof.
  split; apply (tc_congruence id); intros a b; unfold step; rewrite elem_of_neighbors; done.
Qed.

Lemma tc_dir_edge g d i j :
  tc (dir_edge g d) i j ↔
  match d with Outgoing => tc (edge g) i j | Incoming => tc (edge g) j i end.
Proof.
  destruct d; simpl; [done|]. split; intros Ht.
  - induction Ht as [a b|a b c Hab _ IH]; [by apply tc_once|]. by eapply tc_r.
  - revert i Ht. apply tc_ind_r.
    + intros y Hy. by apply tc_once.
    + intros y z _ Hyz IH. by eapply tc_l.
Qed.

Lemma traverse_spec g name d :
  graph_wf g → ∃ R, traverse g name d = Some R ∧ ∀ x, x ∈ R ↔ dir_depends g d name x.
Proof.
  intros Hwf. unfold traverse. destruct (find_node_by_name g name) as [start|] eqn:E.
  - apply (find_node_by_name_spec g Hwf) in E.
    destruct (push_loop_spec (node_name g) (λ i, neighbors_directed g i d) (node_indices g)
      (NoDup_node_indices g) (node_name_inj g Hwf)) with (start := start)
      (fuel := S (node_count g)) as (R & HR & Hspec).
    + intros v w _ Hw%elem_of_neighbors. by apply (dir_edge_ok g d v w); [apply Hwf|].
    + by eapply elem_of_node_indices, names_lookup_lt.
    + unfold node_indices. by rewrite length_seq.
    + exists R. rewrite traverse_loop_push. split; [done|]. intros x. rewrite Hspec.
      setoid_rewrite tc_step_dir. setoid_rewrite tc_dir_edge. unfold dir_depends.
      destruct d; rewrite (tc_depends_iff g Hwf); split.
      * intros (v & Ht & <-). exists start, v. split_and!; [done| |done].
        apply names_lookup. enough (v ∈ node_indices g) by by apply elem_of_node_indices.
        revert v Ht. apply tc_ind_r; intros; by eapply (dir_edge_ok g Outgoing); [apply Hwf|].
      * intros (i & j & Hi & Hj & Ht). exists j. split; [|by apply node_name_lookup].
        by rewrite (names_inj g Hwf start i name) by done.
      * intros (v & Ht & <-). exists v, start. split_and!; [|done|done].
        apply names_lookup. enough (v ∈ node_indices g) by by apply elem_of_node_indices.
        inversion Ht as [?? He|??? He]; subst;
          by eapply (dir_edge_ok g Outgoing) in He as [? _]; [|apply Hwf].
      * intros (i & j & Hi & Hj & Ht). exists i. split; [|by apply node_name_lookup].
        by rewrite (names_inj g Hwf start j name) by done.
  - exists ∅. split; [done|]. intros x. split; [set_solver|].
    enough (∀ i, names g !! i ≠ Some name) as Hno.
    { destruct d; simpl; rewrite (tc_depends_iff g Hwf); intros (i & j & Hi & Hj & _);
        exfalso; by eapply Hno. }
    intros i Hi. apply (find_node_by_name_spec g Hwf) in Hi. congruence.
Qed.

Lemma sum_neighbors_le g :
  sum_list ((λ i, length (rev (neighbors_directed g i Outgoing))) <$> node_indices g)
  ≤ length (g_edges g).
Proof.
  etransitivity; [|apply (sum_classes_le fst _ _ (NoDup_node_indices g))].
  apply Nat.eq_le_incl. f_equal. apply list_fmap_ext. intros i x _.
  rewrite length_rev, neighbors_spec. apply length_fmap.
Qed.

Lemma rtc_step_edge g i j :
  rtc (step (λ i, rev (neighbors_directed g i Outgoing))) i j ↔ rtc (edge g) i j.
Proof.
  split; apply (rtc_congruence id); intros a b; unfold step;
    rewrite <-Permutation_rev, elem_of_neighbors; done.
Qed.

Lemma upstream_closure_spec `{!HashIter string} g targets :
  graph_wf g → ∃ R, upstream_closure g targets = Some R ∧
    ∀ x, x ∈ R ↔ ∃ t, t ∈ targets ∧ t ∈ names g ∧ rtc (depends g) t x.
Proof.
  intros Hwf. unfold upstream_closure.
  set (stack := rev (omap _ _)).
  assert (∀ i, i ∈ stack ↔ ∃ t, t ∈ targets ∧ names g !! i = Some t) as Hstack.
  { intros i. unfold stack. rewrite <-Permutation_rev, list_elem_of_omap.
    setoid_rewrite elem_of_hash_iter. by setoid_rewrite (name_to_index_spec g Hwf). }
  destruct (pop_loop_spec (node_name g) (λ i, rev (neighbors_directed g i Outgoing))
    (node_indices g) (NoDup_node_indices g) (node_name_inj g Hwf)) with (init := stack)
    (fuel := length stack + length (g_edges g)) as (R & HR & Hspec).
  - intros v w _. rewrite <-Permutation_rev, elem_of_neighbors. intros Hw.
    by apply (dir_edge_ok g Outgoing v w); [apply Hwf|].
  - intros i (t & _ & Hi)%Hstack. by eapply elem_of_node_indices, names_lookup_lt.
  - pose proof (sum_neighbors_le g) as Hle. lia.
  - exists R. rewrite closure_loop_pop. split; [done|]. intros x. rewrite Hspec.
    unfold reach. setoid_rewrite rtc_step_edge. setoid_rewrite Hstack. split.
    + intros (v & (i & (t & Ht & Hi) & Hr) & <-). exists t. split_and!; [done| |].
      * by eapply list_elem_of_lookup_2.
      * apply node_name_lookup in Hi as <-. by apply rtc_edge_depends.
    + intros (t & Ht & [i Hi]%list_elem_of_lookup & Hr).
      destruct (rtc_depends_edge g Hwf _ _ i Hr Hi) as (j & Hj & Hij).
      exists j. split; [|by apply node_name_lookup]. eauto.
Qed.

Lemma elem_of_missing `{!HashIter string} g selection a b :
  graph_wf g →
  (a, b) ∈ missing_deps g selection ↔ a ∈ selection ∧ depends g a b ∧ b ∉ selection.
Proof.
  intros Hwf. unfold missing_deps. rewrite list_elem_of_bind.
  setoid_rewrite elem_of_hash_iter. split.
  - intros (n & Hin & Hn). destruct (name_to_index g !! n) as [i|] eqn:E; [|by apply elem_of_nil in Hin].
    apply (name_to_index_spec g Hwf) in E.
    apply list_elem_of_omap in Hin as (j & Hj%elem_of_neighbors & Hs).
    simpl in Hs. case_bool_decide as Hsel; [done|]. injection Hs as <- <-.
    split_and!; [done| |done]. apply node_name_lookup in E as <-.
    by apply (edge_depends g Hwf).
  - intros (Ha & (i & j & He & Hi & Hj) & Hb). exists a. split; [|done].
    apply (name_to_index_spec g Hwf) in Hi. rewrite Hi. apply list_elem_of_omap.
    exists j. split; [by apply elem_of_neighbors|]. simpl.
    apply node_name_lookup in Hj. rewrite Hj. by rewrite bool_decide_eq_false_2.
Qed.
End walks.

(** ** Lineage of the serialized topology *)
Section lineage.
Lemma push_adj_lookup (es : list (string * string)) adj a :
  default [] (foldl (λ d e, push_adj d e.1 e.2) adj es !! a) =
  default [] (adj !! a) ++ (snd <$> filter (λ e, e.1 = a) es).
Proof.
  revert adj. induction es as [|[x y] es IH]; intros adj; cbn [foldl].
  { by rewrite app_nil_r. }
  rewrite IH. unfold push_adj. rewrite lookup_insert, filter_cons. simpl.
  case_decide; simpl; [subst; by rewrite <-app_assoc|done].
Qed.

Lemma lineage_folds t name :
  lineage t name =
    (walk (length (gt_edges t)) (foldl (λ d e, push_adj d e.1 e.2) ∅ (gt_edges t)) name,
     walk (length (gt_edges t)) (foldl (λ d e, push_adj d e.2 e.1) ∅ (gt_edges t)) name).
Proof.
  unfold lineage.
  assert (∀ es d u, foldl (λ '(d, u) '(from, to), (push_adj d from to, push_adj u to from)) (d, u) es
    = (foldl (λ d e, push_adj d e.1 e.2) d es, foldl (λ d e, push_adj d e.2 e.1) u es)) as ->; [|done].
  induction es as [|[x y] es IH]; intros d u; cbn [foldl]; [done|]. apply IH.
Qed.

Definition adj_of (es : list (string * string)) (a : string) : list string :=
  snd <$> filter (λ e, e.1 = a) es.

Lemma elem_of_adj_of es a b : b ∈ adj_of es a ↔ (a, b) ∈ es.
Proof.
  unfold adj_of. rewrite list_elem_of_fmap. setoid_rewrite list_elem_of_filter.
  split; [by intros ([??] & -> & <- & ?)|]. intros. by exists (a, b).
Qed.

Lemma sum_adj_le es (l : list string) :
  NoDup l → sum_list ((λ a, length (adj_of es a)) <$> l) ≤ length es.
Proof.
  intros Hnd. etransitivity; [|apply (sum_classes_le fst _ _ Hnd)].
  apply Nat.eq_le_incl. f_equal. apply list_fmap_ext. intros. apply length_fmap.
Qed.

Lemma length_adj_of es a : length (adj_of es a) ≤ length es.
Proof.
  pose proof (sum_adj_le es [a] (NoDup_singleton a)) as Hs. simpl in Hs. lia.
Qed.

(** The walk collects what is reachable in one step or more. *)
Lemma walk_spec es adj name :
  (∀ a, default [] (adj !! a) = adj_of es a) →
  ∃ R, walk (length es) adj name = Some R ∧
       ∀ x, x ∈ R ↔ tc (λ a b, (a, b) ∈ es) name x.
Proof.
  intros Hadj. unfold walk.
  set (vs := remove_dups (name :: (fst <$> es) ++ (snd <$> es))).
  assert (∀ a b, (a, b) ∈ es → b ∈ vs) as Hvs.
  { intros a b Hab. apply elem_of_remove_dups. right. apply elem_of_app. right.
    apply list_elem_of_fmap. by exists (a, b). }
  assert (∀ a b, step (λ n, rev (default [] (adj !! n))) a b ↔ (a, b) ∈ es) as Hstep.
  { intros a b. unfold step. by rewrite <-Permutation_rev, Hadj, elem_of_adj_of. }
  destruct (pop_loop_spec id (λ n, rev (default [] (adj !! n))) vs (NoDup_remove_dups _))
    with (init := rev (default [] (adj !! name))) (fuel := 2 * length es)
    as (R & HR & Hspec); [by auto| | | |].
  - intros v w _ Hw. by apply Hstep, Hvs in Hw.
  - intros s Hs. by apply Hstep, Hvs in Hs.
  - rewrite length_rev, Hadj. pose proof (length_adj_of es name) as H1.
    enough (sum_list ((λ v, length (rev (default [] (adj !! v)))) <$> vs) ≤ length es) by lia.
    etransitivity; [|apply (sum_adj_le es vs), NoDup_remove_dups].
    apply Nat.eq_le_incl. f_equal. apply list_fmap_ext. intros i a _.
    by rewrite length_rev, Hadj.
  - exists R. rewrite walk_loop_pop. split; [done|]. intros x. rewrite Hspec. unfold reach.
    setoid_rewrite Hstep. split.
    + intros (v & (s & Hs & Hr) & <-). eapply tc_rtc_r; [by apply tc_once|].
      revert Hr. apply (rtc_congruence id). intros a b. apply Hstep.
    + intros Ht. exists x. split; [|done].
      inversion Ht as [?? He|? y ? He Ht']; subst.
      * exists x. split; [done|apply rtc_refl].
      * exists y. split; [done|]. apply tc_rtc in Ht'. revert Ht'.
        apply (rtc_congruence id). intros a b. apply Hstep.
Qed.

Lemma lineage_spec t name :
  ∃ A D, lineage t name = (Some A, Some D) ∧
    (∀ x, x ∈ A ↔ tc (λ a b, (a, b) ∈ gt_edges t) name x) ∧
    (∀ x, x ∈ D ↔ tc (λ a b, (b, a) ∈ gt_edges t) name x).
Proof.
  rewrite lineage_folds.
  destruct (walk_spec (gt_edges t) (foldl (λ d e, push_adj d e.1 e.2) ∅ (gt_edges t)) name)
    as (A & HA & HAs).
  { intros a. rewrite push_adj_lookup. by rewrite lookup_empty. }
  set (es' := (λ e, (e.2, e.1)) <$> gt_edges t).
  assert (foldl (λ d e, push_adj d e.2 e.1) ∅ (gt_edges t) =
          foldl (λ d e, push_adj d e.1 e.2) ∅ es') as ->.
  { clear A HA HAs. unfold es'. generalize (∅ : gmap string (list string)).
    induction (gt_edges t) as [|[x y] es IH]; intros m; [done|]. apply IH. }
  destruct (walk_spec es' (foldl (λ d e, push_adj d e.1 e.2) ∅ es') name) as (D & HD & HDs).
  { intros a. rewrite push_adj_lookup. by rewrite lookup_empty. }
  unfold es' in HD at 1. rewrite length_fmap in HD.
  exists A, D. rewrite HA, HD. split_and!; [done..|]. intros x. rewrite HDs.
  assert (∀ a b, (a, b) ∈ es' ↔ (b, a) ∈ gt_edges t) as Hes.
  { intros a b. unfold es'. rewrite list_elem_of_fmap. split.
    - by intros ([u v] & [= -> ->] & ?).
    - intros. by exists (b, a). }
  split; apply (tc_congruence id); intros a b; apply Hes.
Qed.

Lemma topology_edges g a b :
  graph_wf g → (a, b) ∈ gt_edges (to_topology g) ↔ depends g a b.
Proof.
  intros Hwf. simpl. rewrite elem_of_sort_by, list_elem_of_fmap. split.
  - intros ([i j] & [= -> ->] & He). by apply (edge_depends g Hwf).
  - intros (i & j & He & Hi & Hj). exists (i, j). split; [|done]. simpl.
    by rewrite (node_name_lookup _ _ _ Hi), (node_name_lookup _ _ _ Hj).
Qed.
End lineage.

(** ** Resolution *)
Section resolution.
Definition input_target (lookup : gmap string nat) (input : NodeRef) : option nat :=
  match input with ByName d => lookup !! d | Resolved _ => None end.

(** Why the inputs of asset [name], at index [idx], are rejected. *)
Definition input_error (lookup : gmap string nat) (idx : nat) (name : string)
    (inputs : list NodeRef) (e : ResolveError) : Prop :=
  match e with
  | UnresolvedInput a d => a = name ∧ ByName d ∈ inputs ∧ lookup !! d = None
  | SelfDependency a => a = name ∧ ∃ d, ByName d ∈ inputs ∧ lookup !! d = Some idx
  | CycleFound _ => False
  | UnreachablePanic => ∃ k, Resolved k ∈ inputs
  end.

Lemma resolve_inputs_spec lookup idx name inputs resolved edges :
  match resolve_inputs lookup idx name inputs resolved edges with
  | inl (r, es) => (∃ ds, mapM (input_target lookup) inputs = Some ds ∧ (idx ∉ ds) ∧
      r = resolved ++ (Resolved <$> ds) ∧ es = edges ++ (pair idx <$> ds))
  | inr e => input_error lookup idx name inputs e
  end.
Proof.
  revert resolved edges. induction inputs as [|[d|k] inputs IH]; intros resolved edges; simpl.
  - exists []. rewrite !app_nil_r. split_and!; [done|set_solver|done..].
  - destruct (lookup !! d) as [j|] eqn:E; [|simpl; split_and!; [done|left|done]].
    destruct (Nat.eqb_spec j idx) as [->|Hne].
    { simpl. split; [done|]. exists d. split; [left|done]. }
    specialize (IH (resolved ++ [Resolved j]) (edges ++ [(idx, j)])).
    destruct (resolve_inputs _ _ _ _ _ _) as [[r es]|e].
    + destruct IH as (ds & -> & Hds & -> & ->). exists (j :: ds).
      rewrite <-!app_assoc. split_and!; [done|set_solver|done..].
    + destruct e; simpl in *; [set_solver|set_solver|done|].
      destruct IH as [k ?]. exists k. by right.
  - exists k. left.
Qed.

Lemma mapM_target_elem lookup inputs ds j :
  mapM (input_target lookup) inputs = Some ds →
  j ∈ ds ↔ ∃ d, ByName d ∈ inputs ∧ lookup !! d = Some j.
Proof.
  intros Hm%mapM_Some_1. induction Hm as [|inp i inputs ds Hi _ IH].
  - split; [by intros ?%elem_of_nil|]. by intros (d & ?%elem_of_nil & _).
  - setoid_rewrite elem_of_cons. rewrite IH. split.
    + intros [->|(d & ? & ?)]; [|by eauto]. destruct inp as [d|]; simpl in Hi; [|done]. eauto.
    + intros (d & [E|?] & Hd); [|by eauto]. subst inp. simpl in Hi. left. congruence.
Qed.

Lemma resolve_nodes_spec lookup todo idx dn edges :
  idx = length dn →
  match resolve_nodes lookup idx todo dn edges with
  | inl g =>
      dn_name <$> g_nodes g = (dn_name <$> dn) ++ (dn_name <$> todo) ∧
      Forall (λ n, Forall (is_Some ∘ input_target lookup) (dn_inputs n)) todo ∧
      (∀ i j, (i, j) ∈ g_edges g ↔ (i, j) ∈ edges ∨
         ∃ k n d, todo !! k = Some n ∧ i = idx + k ∧ ByName d ∈ dn_inputs n ∧
                  lookup !! d = Some j) ∧
      (∀ k n d, todo !! k = Some n → ByName d ∈ dn_inputs n → lookup !! d ≠ Some (idx + k))
  | inr e => ∃ k n, todo !! k = Some n ∧ input_error lookup (idx + k) (dn_name n) (dn_inputs n) e
  end.
Proof.
  revert idx dn edges. induction todo as [|n todo IH]; intros idx dn edges Hidx; simpl.
  { rewrite app_nil_r. split_and!; [done|constructor| |intros ???; by rewrite lookup_nil].
    intros i j. split; [by left|]. intros [?|(k & n & d & Hk & _)]; [done|].
    by rewrite lookup_nil in Hk. }
  pose proof (resolve_inputs_spec lookup idx (dn_name n) (dn_inputs n) [] edges) as Hin.
  destruct (resolve_inputs _ _ _ _ _ _) as [[r es]|e].
  2: { exists 0, n. by rewrite Nat.add_0_r. }
  destruct Hin as (ds & Hm & Hds & -> & ->).
  specialize (IH (S idx) (dn ++ [with_inputs n ([] ++ (Resolved <$> ds))]) (edges ++ (pair idx <$> ds))).
  destruct (resolve_nodes _ _ _ _ _) as [g|e].
  - destruct IH as (Hn & Hres & He & Hself); [rewrite length_app; simpl; lia|]. split_and!.
    + rewrite Hn, fmap_app, <-app_assoc. done.
    + constructor; [|done]. apply mapM_is_Some. by rewrite Hm.
    + intros i j. rewrite He, elem_of_app, list_elem_of_fmap. split.
      * intros [[?|(j' & [= -> ->] & (d & ? & ?)%(mapM_target_elem _ _ _ _ Hm))]|(k & m & d & Hk & -> & ?)].
        -- by left.
        -- right. exists 0, n, d. split_and!; [done|lia|done..].
        -- right. exists (S k), m, d. split_and!; [done|lia|naive_solver..].
      * intros [?|([|k] & m & d & Hk & -> & Hd & Hl)]; [by left; left| |].
        -- simpl in Hk. injection Hk as <-. left. right. exists j. rewrite Nat.add_0_r.
           split; [done|]. apply (mapM_target_elem _ _ _ _ Hm). eauto.
        -- right. exists k, m, d. split_and!; [done|lia|done..].
    + intros [|k] m d Hk Hd Hl; simpl in Hk.
      * injection Hk as <-. apply Hds, (mapM_target_elem _ _ _ _ Hm).
        rewrite Nat.add_0_r in Hl. eauto.
      * eapply Hself; [done..|]. by rewrite Nat.add_succ_r in Hl.
  - destruct IH as (k & m & Hk & Herr); [rewrite length_app; simpl; lia|].
    exists (S k), m. split; [done|]. by rewrite Nat.add_succ_r.
Qed.
End resolution.

Section resolve.
Context `{Petgraph, !PetgraphLaws}.

(** Asset [a] is declared with input [b]. *)
Definition declares (assets : list (string * list NodeRef)) (a b : string) : Prop :=
  ∃ inputs, (a, inputs) ∈ assets ∧ ByName b ∈ inputs.

(** Annotations only produce names; see [resolve_asset_graph]. *)
Definition only_names (assets : list (string * list NodeRef)) : Prop :=
  ∀ a inputs k, (a, inputs) ∈ assets → Resolved k ∉ inputs.

Lemma detect_cycles_acyclic g :
  edges_ok g → (∃ u, detect_cycles g = inl u) ↔ acyclic g.
Proof.
  intros Hok. unfold detect_cycles. pose proof (is_cyclic_spec g Hok) as Hc.
  destruct (is_cyclic_directed g); simpl.
  - split; [|intros Ha; by destruct (proj1 Hc eq_refl)].
    intros [u Hu]. by destruct (format_cycle g <$> _) as [|? [|]].
  - split; [|by eauto]. intros _ i Hi. assert (¬ acyclic g) as Hn by (intros Ha; by apply (Ha i)).
    by apply Hc in Hn.
Qed.

Lemma initial_lookup assets i a inputs :
  assets !! i = Some (a, inputs) ↔
  initial_nodes assets !! i = Some (with_inputs (new_dag_node a) inputs).
Proof.
  unfold initial_nodes. rewrite list_lookup_fmap.
  unfold with_inputs. destruct (assets !! i) as [[??]|]; simpl; split; congruence.
Qed.

Lemma initial_names assets : dn_name <$> initial_nodes assets = assets.*1.
Proof. unfold initial_nodes. by rewrite <-list_fmap_compose. Qed.

Lemma initial_index assets d i :
  NoDup assets.*1 →
  name_to_index (mkGraph (initial_nodes assets) []) !! d = Some i ↔ assets.*1 !! i = Some d.
Proof.
  intros Hnd. rewrite (name_to_index_spec (mkGraph (initial_nodes assets) [])).
  - unfold names. simpl. by rewrite initial_names.
  - split; [unfold names; simpl; by rewrite initial_names|]. intros ?? ?%elem_of_nil. done.
Qed.

(** What resolution builds before the cycle check. *)
Lemma resolve_nodes_assets assets :
  NoDup assets.*1 →
  match resolve_nodes (name_to_index (mkGraph (initial_nodes assets) [])) 0
          (initial_nodes assets) [] [] with
  | inl g => names g = assets.*1 ∧ graph_wf g ∧ only_names assets ∧
      (∀ a b, declares assets a b → b ∈ assets.*1 ∧ a ≠ b) ∧
      (∀ a b, depends g a b ↔ declares assets a b)
  | inr e => ∃ a inputs, (a, inputs) ∈ assets ∧
      match e with
      | UnresolvedInput a' d => a' = a ∧ ByName d ∈ inputs ∧ d ∉ assets.*1
      | SelfDependency a' => a' = a ∧ ByName a ∈ inputs
      | CycleFound _ => False
      | UnreachablePanic => ∃ k, Resolved k ∈ inputs
      end
  end.
Proof.
  intros Hnd. set (lookup := name_to_index _).
  assert (∀ d i, lookup !! d = Some i ↔ assets.*1 !! i = Some d) as Hl
    by (intros; by apply initial_index).
  pose proof (resolve_nodes_spec lookup (initial_nodes assets) 0 [] [] eq_refl) as Hs.
  destruct (resolve_nodes _ _ _ _ _) as [g|e].
  - destruct Hs as (Hn & Hres & He & Hself). simpl in Hn. rewrite initial_names in Hn.
    assert (∀ i j, edge g i j ↔ ∃ a inputs d, assets !! i = Some (a, inputs) ∧
              ByName d ∈ inputs ∧ assets.*1 !! j = Some d) as Hedge.
    { intros i j. unfold edge. rewrite He. split.
      - intros [?%elem_of_nil|(k & n & d & Hk & -> & Hd & Hj%Hl)]; [done|].
        unfold initial_nodes in Hk. rewrite list_lookup_fmap in Hk.
        destruct (assets !! k) as [[a inputs]|] eqn:Ek; simpl in Hk; [|done].
        injection Hk as <-. by exists a, inputs, d.
      - intros (a & inputs & d & Hi & Hd & Hj). right.
        apply initial_lookup in Hi. exists i, (with_inputs (new_dag_node a) inputs), d.
        split_and!; [done..|]. by apply Hl. }
    assert (∀ a inputs, (a, inputs) ∈ assets → Forall (is_Some ∘ input_target lookup) inputs) as Hin.
    { intros a inputs [i Hi%initial_lookup]%list_elem_of_lookup.
      rewrite Forall_lookup in Hres. exact (Hres _ _ Hi). }
    split_and!.
    + done.
    + split; [unfold names; by rewrite Hn|]. intros i j (a & inputs & d & Hi & _ & Hj)%Hedge.
      unfold node_count. rewrite <-(length_fmap dn_name), Hn, length_fmap.
      apply lookup_lt_Some in Hi, Hj. by rewrite length_fmap in Hj.
    + intros a inputs k Ha Hk. apply Hin in Ha. rewrite Forall_forall in Ha.
      by destruct (Ha _ Hk).
    + intros a b (inputs & Ha & Hb). pose proof (Hin _ _ Ha) as Hsome.
      rewrite Forall_forall in Hsome. destruct (Hsome _ Hb) as [j Hj]. simpl in Hj.
      split; [by eapply list_elem_of_lookup_2, Hl|]. intros ->.
      apply list_elem_of_lookup in Ha as [i Hi].
      apply (Hself i (with_inputs (new_dag_node b) inputs) b); [by apply initial_lookup|done|].
      apply Hl. simpl. by rewrite list_lookup_fmap, Hi.
    + intros a b. unfold depends, names. rewrite Hn. split.
      * intros (i & j & (a' & inputs & d & Hi & Hd & Hj)%Hedge & Ha & Hb).
        rewrite list_lookup_fmap, Hi in Ha. injection Ha as <-.
        assert (d = b) as -> by congruence. exists inputs. split; [|done].
        by eapply list_elem_of_lookup_2.
      * intros (inputs & Ha & Hb). pose proof (Hin _ _ Ha) as Hsome.
        rewrite Forall_forall in Hsome. destruct (Hsome _ Hb) as [j Hj%Hl].
        apply list_elem_of_lookup in Ha as [i Hi]. exists i, j. split_and!; [|by rewrite list_lookup_fmap, Hi|done].
        apply Hedge. by exists a, inputs, b.
  - destruct Hs as (k & n & Hk & Herr). unfold initial_nodes in Hk.
    rewrite list_lookup_fmap in Hk. destruct (assets !! k) as [[a inputs]|] eqn:Ek; simpl in Hk; [|done].
    injection Hk as <-. exists a, inputs. split; [by eapply list_elem_of_lookup_2|].
    simpl in Herr. destruct e as [a' d|a'|msg|]; simpl in Herr; [| |done|done].
    + destruct Herr as (-> & Hd & Hno). split_and!; [done..|].
      intros [i Hi%Hl]%list_elem_of_lookup. congruence.
    + destruct Herr as (-> & d & Hd & Hi%Hl). split; [done|].
      rewrite list_lookup_fmap, Ek in Hi. simpl in Hi. by injection Hi as ->.
Qed.
End resolve.
