(* ===== verification/PetgraphRef.v ===== *)
(** * An implementation of the petgraph interface

    Reference algorithms that meet [PetgraphLaws]: the laws the development
    assumes of petgraph are consistent, and the definitions that use it can be
    evaluated. *)

From S2P Require Import Prelude Worklist AssetGraph AssetGraphProps.

Definition ref_reach (g : AssetGraph) (i : nat) : gset nat :=
  default ∅ (pop_loop id (λ i, adjacent g i Outgoing) (S (length (g_edges g))) ∅ [i]).

Definition ref_has_path (g : AssetGraph) (i j : nat) : bool := bool_decide (j ∈ ref_reach g i).

Definition ref_is_cyclic (g : AssetGraph) : bool :=
  existsb (λ e, ref_has_path g e.2 e.1) (g_edges g).

Definition ref_scc (g : AssetGraph) (i : nat) : list nat :=
  filter (λ j, ref_has_path g i j && ref_has_path g j i) (node_indices g).

Definition ref_tarjan (g : AssetGraph) : list (list nat) :=
  remove_dups (ref_scc g <$> node_indices g).

Definition no_pred (g : AssetGraph) (remaining : list nat) (i : nat) : bool :=
  forallb (λ e, negb (Nat.eqb e.2 i && bool_decide (e.1 ∈ remaining))) (g_edges g).

Fixpoint ref_topo (fuel : nat) (g : AssetGraph) (remaining : list nat) : option (list nat) :=
  match remaining with
  | [] => Some []
  | _ =>
      match fuel with
      | O => None
      | S fuel =>
          match find (no_pred g remaining) remaining with
          | None => None
          | Some i => cons i <$> ref_topo fuel g (filter (λ j, j ≠ i) remaining)
          end
      end
  end.

#[export] Instance petgraph_ref : Petgraph := {|
  neighbors_directed g i d := rev (adjacent g i d);
  toposort g := ref_topo (node_count g) g (node_indices g);
  is_cyclic_directed := ref_is_cyclic;
  tarjan_scc := ref_tarjan;
  has_path_connecting := ref_has_path;
|}.

Lemma ref_reach_spec g i j :
  edges_ok g → i < node_count g → j ∈ ref_reach g i ↔ rtc (edge g) i j.
Proof.
  intros Hok Hi. unfold ref_reach.
  destruct (pop_loop_spec id (λ i, adjacent g i Outgoing) (node_indices g)
    (NoDup_node_indices g)) with (init := [i]) (fuel := S (length (g_edges g)))
    as (R & HR & Hspec); [by auto| | | |].
  - intros v w _ Hw%elem_of_adjacent. by apply (dir_edge_ok g Outgoing v w).
  - intros s ->%list_elem_of_singleton. by apply elem_of_node_indices.
  - simpl. apply le_n_S. etransitivity; [|apply (sum_classes_le fst _ _ (NoDup_node_indices g))].
    apply Nat.eq_le_incl. f_equal. apply list_fmap_ext. intros. apply length_fmap.
  - rewrite HR. simpl. rewrite Hspec. unfold reach, id. split.
    + intros (v & (s & ->%list_elem_of_singleton & Hr) & ->). revert Hr.
      apply (rtc_congruence id). intros a b. apply (elem_of_adjacent g a Outgoing b).
    + intros Hr. exists j. split; [|done]. exists i. split; [by left|]. revert Hr.
      apply (rtc_congruence id). intros a b. apply (elem_of_adjacent g a Outgoing b).
Qed.

Lemma ref_has_path_spec g i j :
  edges_ok g → i < node_count g → ref_has_path g i j = true ↔ rtc (edge g) i j.
Proof. intros. unfold ref_has_path. by rewrite bool_decide_eq_true, ref_reach_spec. Qed.

Lemma ref_is_cyclic_spec g : edges_ok g → ref_is_cyclic g = true ↔ ¬ acyclic g.
Proof.
  intros Hok. unfold ref_is_cyclic. rewrite existsb_Exists, Exists_exists. split.
  - intros ([i j] & He & Hp) Ha. simpl in Hp.
    rewrite ref_has_path_spec in Hp by (done || by apply (Hok i j)).
    apply (Ha i). by eapply tc_rtc_r; [apply tc_once|].
  - intros Hn. destruct (decide (Exists (λ e, ref_has_path g e.2 e.1 = true) (g_edges g))) as [He|He].
    { by apply Exists_exists in He. }
    exfalso. apply Hn. intros i Hi. apply He. apply Exists_exists.
    inversion Hi as [?? Hij|? j ? Hij Hji]; subst.
    + exists (i, i). split; [done|]. simpl. apply ref_has_path_spec; [done|by apply (Hok i i)|].
      apply rtc_refl.
    + exists (i, j). split; [done|]. simpl. apply ref_has_path_spec; [done|by apply (Hok i j)|].
      by apply tc_rtc.
Qed.

Lemma ref_tarjan_spec g i j scc :
  edges_ok g → scc ∈ ref_tarjan g → i ∈ scc →
  j ∈ scc ↔ rtc (edge g) i j ∧ rtc (edge g) j i.
Proof.
  intros Hok. unfold ref_tarjan. rewrite elem_of_remove_dups, list_elem_of_fmap.
  intros (k & -> & Hk%elem_of_node_indices). unfold ref_scc.
  assert (∀ x, x ∈ filter (λ j, ref_has_path g k j && ref_has_path g j k) (node_indices g) ↔
    x < node_count g ∧ rtc (edge g) k x ∧ rtc (edge g) x k) as Hs.
  { intros x. rewrite list_elem_of_filter, elem_of_node_indices, andb_True.
    rewrite !Is_true_true. split.
    - intros [[H1 H2] Hx]. apply ref_has_path_spec in H1, H2; auto.
    - intros (Hx & H1 & H2). split; [split|done]; by apply ref_has_path_spec. }
  rewrite !Hs. intros (Hi & Hki & Hik). split.
  - intros (Hj & Hkj & Hjk). split; by etransitivity.
  - intros [Hij Hji]. split_and!; [|by etransitivity|by etransitivity].
    apply rtc_tc in Hij as [->|Ht]; [done|]. revert j Ht Hji.
    intros j Ht _. revert j Ht. apply tc_ind_r; intros; by eapply Hok.
Qed.

(** ** The topological sort *)
Lemma no_pred_spec g remaining i :
  no_pred g remaining i = true ↔ ∀ j, edge g j i → j ∉ remaining.
Proof.
  unfold no_pred, edge. rewrite forallb_Forall, Forall_forall. split.
  - intros Hall j He. apply Hall in He. simpl in He.
    rewrite Nat.eqb_refl in He. simpl in He.
    by rewrite negb_true_iff, bool_decide_eq_false in He.
  - intros Hall [j k] He. simpl. rewrite negb_true_iff, andb_false_iff.
    destruct (Nat.eqb_spec k i) as [->|]; [right|by left].
    apply bool_decide_eq_false. by apply Hall.
Qed.

Lemma filter_ne_perm (i : nat) l :
  NoDup l → i ∈ l → i :: filter (λ j, j ≠ i) l ≡ₚ l.
Proof.
  intros Hnd Hi. apply NoDup_Permutation; [|done|].
  - apply NoDup_cons. split; [|by apply NoDup_filter].
    rewrite list_elem_of_filter. by intros [? _].
  - intros x. rewrite elem_of_cons, list_elem_of_filter.
    destruct (decide (x = i)) as [->|]; naive_solver.
Qed.

Lemma find_spec {A} (f : A → bool) l x : find f l = Some x → x ∈ l ∧ f x = true.
Proof.
  intros H%List.find_some. by rewrite list_elem_of_In.
Qed.

(** Each round emits a node none of whose predecessors remain. *)
Lemma ref_topo_inv fuel g l order :
  ref_topo fuel g l = Some order →
  (l = [] ∧ order = []) ∨
  ∃ fuel' i rest, fuel = S fuel' ∧ order = i :: rest ∧ i ∈ l ∧
    (∀ j, edge g j i → j ∉ l) ∧ ref_topo fuel' g (filter (λ j, j ≠ i) l) = Some rest.
Proof.
  destruct l as [|x l]; [destruct fuel; intros [= <-]; by left|].
  destruct fuel as [|fuel]; [done|]. cbn [ref_topo]. set (m := x :: l).
  destruct (find (no_pred g m) m) as [i|] eqn:Ef; [|done].
  intros (rest & Hr & ->)%fmap_Some_1. apply find_spec in Ef as [Hi Hp].
  rewrite no_pred_spec in Hp. right. by exists fuel, i, rest.
Qed.

Lemma ref_topo_perm fuel g l order :
  NoDup l → ref_topo fuel g l = Some order → order ≡ₚ l.
Proof.
  revert l order. induction fuel as [|fuel IH]; intros l order Hnd
    [[-> ->]|(f & i & rest & Hf & -> & Hi & _ & Hr)]%ref_topo_inv; try done.
  injection Hf as <-. apply IH in Hr; [|by apply NoDup_filter].
  rewrite Hr. by apply filter_ne_perm.
Qed.

Lemma ref_topo_before fuel g l order i j :
  NoDup l → ref_topo fuel g l = Some order → i ∈ l → j ∈ l → edge g i j → before order i j.
Proof.
  revert l order. induction fuel as [|fuel IH]; intros l order Hnd Ho Hi Hj He;
    destruct (ref_topo_inv _ _ _ _ Ho) as [[-> ->]|(f & k & rest & Hf & -> & Hk & Hp & Hr)];
    try done; [by apply elem_of_nil in Hi..|]. injection Hf as <-.
  destruct (decide (j = k)) as [->|Hjk]; [by destruct (Hp _ He)|].
  assert (j ∈ filter (λ j, j ≠ k) l) as Hj' by by apply list_elem_of_filter.
  destruct (decide (i = k)) as [->|Hik].
  - apply before_head. apply ref_topo_perm in Hr; [|by apply NoDup_filter]. by rewrite Hr.
  - apply before_cons. eapply IH; [|exact Hr| |done|done]; [by apply NoDup_filter|].
    by apply list_elem_of_filter.
Qed.

(** An acyclic graph has a node without a remaining predecessor. *)
Lemma source_exists g l :
  acyclic g → l ≠ [] → ∃ i, i ∈ l ∧ no_pred g l i = true.
Proof.
  intros Ha Hne. set (R := λ i j, edge g j i ∧ j ∈ l).
  assert (∀ i j, tc R i j → tc (edge g) j i ∧ j ∈ l) as HR.
  { intros i j. induction 1 as [i j [He Hj]|i j k [He Hj] _ [IH Hk]].
    - split; [by apply tc_once|done].
    - split; [by eapply tc_r|done]. }
  destruct l as [|x l]; [done|]. clear Hne.
  assert (sn R x) as Hsn.
  { apply tc_finite_sn.
    - intros i Hi. apply (Ha i). by apply HR in Hi as [? _].
    - exists (x :: l). intros j Hj. by destruct (HR _ _ Hj). }
  assert (x ∈ x :: l) as Hx by left. revert Hsn Hx. generalize x at 1 2. intros i Hsn.
  induction Hsn as [i _ IH]. intros Hi.
  destruct (no_pred g (x :: l) i) eqn:E; [by exists i|].
  unfold no_pred in E.
  assert (∃ j, edge g j i ∧ j ∈ x :: l) as (j & Hji & Hj).
  { destruct (decide (Exists (λ e, e.2 = i ∧ e.1 ∈ x :: l) (g_edges g))) as [Hex|Hex].
    - apply Exists_exists in Hex as ([j k] & He & <- & Hj). by exists j.
    - apply not_true_iff_false in E. destruct E. apply no_pred_spec. intros j He Hj.
      apply Hex, Exists_exists. by exists (j, i). }
  by apply (IH j).
Qed.

Lemma ref_topo_total g fuel l :
  acyclic g → NoDup l → length l ≤ fuel → is_Some (ref_topo fuel g l).
Proof.
  intros Ha. revert l. induction fuel as [|fuel IH]; intros [|x l] Hnd Hl; simpl in Hl;
    [by eexists|lia|by eexists|]. set (m := x :: l) in *.
  cbn [ref_topo]. fold m. destruct (find (no_pred g m) m) as [i|] eqn:E.
  - apply fmap_is_Some, IH; [by apply NoDup_filter|]. apply find_spec in E as [Hi _].
    pose proof (filter_ne_perm i m Hnd Hi) as Hp. apply Permutation_length in Hp.
    cbn [length] in Hp. unfold m in Hp at 2. cbn [length] in Hp. fold m. lia.
  - destruct (source_exists g m Ha) as (i & Hi & Hp); [done|].
    eapply List.find_none in E; [|by apply list_elem_of_In]. congruence.
Qed.

#[export] Instance petgraph_ref_laws : PetgraphLaws.
Proof.
  split; simpl.
  - intros g i d. symmetry. apply Permutation_rev.
  - intros g order _. apply ref_topo_perm, NoDup_node_indices.
  - intros g order i j Hok Ho He. destruct (Hok _ _ He) as [Hi Hj].
    by eapply ref_topo_before; [apply NoDup_node_indices|done|apply elem_of_node_indices..|].
  - intros g _ Ha. apply ref_topo_total; [done|apply NoDup_node_indices|].
    unfold node_indices. by rewrite length_seq.
  - apply ref_is_cyclic_spec.
  - apply ref_tarjan_spec.
  - apply ref_has_path_spec.
Qed.
