(* ===== verification/GraphTheorems.v ===== *)
(** * Correctness of the asset graph

    The theorems about [assets/graph.rs] and [repo/mod.rs], stated over asset
    names: what [AssetGraphProps] proves of the walks over node indices, seen by
    the callers, and each at a concrete repository with [PetgraphRef]. *)

From S2P Require Import Prelude Worklist AssetGraph AssetGraphProps PetgraphRef.

(** A dependency cycle among the declared assets. *)
Definition declared_cycle (assets : list (string * list NodeRef)) : Prop :=
  ∃ a, tc (declares assets) a a.

Lemma tc_flip_iff {A} (R : relation A) x y : tc (λ a b, R b a) x y ↔ tc R y x.
Proof.
  split.
  - induction 1 as [|???? _ IH]; [by apply tc_once|by eapply tc_r].
  - induction 1 as [|???? _ IH]; [by apply tc_once|by eapply tc_r].
Qed.

Lemma fmap_filter_dom_delete {T} (n : string) (items : gmap string T) (l : list string) :
  n ∉ l →
  (λ k, delete n items !! k) <$> filter (λ k, k ∈ dom (delete n items)) l =
  (λ k, items !! k) <$> filter (λ k, k ∈ dom items) l.
Proof.
  induction l as [|k l IH]; intros Hn; [done|]. apply not_elem_of_cons in Hn as [Hne Hn].
  rewrite !filter_cons, dom_delete_L.
  destruct (decide (k ∈ dom items)); [rewrite decide_True by set_solver|rewrite decide_False by set_solver].
  - rewrite !fmap_cons, lookup_delete_ne by done. f_equal.
    rewrite <-dom_delete_L. by apply IH.
  - rewrite <-dom_delete_L. by apply IH.
Qed.

Section theorems.
Context `{Petgraph, !PetgraphLaws}.

Lemma acyclic_depends g : graph_wf g → acyclic g ↔ ∀ a, ¬ tc (depends g) a a.
Proof.
  intros Hwf. split.
  - intros Ha a Ht. apply tc_depends_iff in Ht as (i & j & Hi & Hj & Ht); [|done].
    assert (i = j) as <- by by eapply names_inj. by apply (Ha i).
  - intros Ha i Ht. by eapply Ha, tc_edge_depends.
Qed.

(** A graph that is not acyclic has a cycle: the search of [PetgraphRef] finds it. *)
Lemma cyclic_depends g : graph_wf g → ¬ acyclic g → ∃ a, tc (depends g) a a.
Proof.
  intros Hwf [(i & j) [He Hp]]%(ref_is_cyclic_spec g (wf_edges g Hwf))%existsb_Exists%Exists_exists.
  simpl in Hp. apply ref_has_path_spec in Hp; [|by apply wf_edges|by apply (wf_edges g Hwf i j)].
  exists (node_name g i). apply tc_edge_depends; [done|].
  by eapply tc_rtc_r; [apply tc_once|].
Qed.

Lemma declared_cycle_depends assets g :
  (∀ a b, depends g a b ↔ declares assets a b) →
  declared_cycle assets ↔ ∃ a, tc (depends g) a a.
Proof.
  intros Hd. unfold declared_cycle. split; intros [a Ht]; exists a; revert Ht;
    apply (tc_congruence id); intros; by apply Hd.
Qed.

Lemma validate_missing `{!HashIter string} g sel missing a b :
  graph_wf g → validate_subgraph_completeness g sel = inr missing →
  (a, b) ∈ missing ↔ a ∈ sel ∧ depends g a b ∧ b ∉ sel.
Proof.
  intros Hwf Hv. rewrite <-(elem_of_missing g sel a b Hwf). revert Hv.
  unfold validate_subgraph_completeness.
  by destruct (missing_deps g sel); [|intros [= <-]].
Qed.

Lemma validate_complete `{!HashIter string} g sel :
  graph_wf g → validate_subgraph_completeness g sel = inl tt ↔
  ∀ a b, a ∈ sel → depends g a b → b ∈ sel.
Proof.
  intros Hwf. pose proof (λ a b, elem_of_missing g sel a b Hwf) as Hm. revert Hm.
  unfold validate_subgraph_completeness.
  destruct (missing_deps g sel) as [|[a b] l]; intros Hm; split; try done.
  - intros _ a b Ha Hd. destruct (decide (b ∈ sel)) as [|Hb]; [done|].
    destruct (not_elem_of_nil (a, b)). by apply Hm.
  - intros Hc. destruct (Hm a b) as [Hm' _]. destruct Hm' as (Ha & Hd & Hb); [left|].
    destruct Hb. by apply (Hc a b).
Qed.

Lemma find_node_None g name : find_node_by_name g name = None → name ∉ names g.
Proof.
  intros Hf [i Hi]%list_elem_of_lookup. unfold find_node_by_name in Hf.
  eapply List.find_none in Hf; [|apply list_elem_of_In, elem_of_node_indices;
    by eapply names_lookup_lt].
  by rewrite (node_name_lookup _ _ _ Hi), String.eqb_refl in Hf.
Qed.

(** C16: [resolve_asset_graph] accepts a repository exactly when every input
    names a declared asset, none is its own input and the declarations have no
    cycle; the graph it stores then has the assets in order and exactly the
    declared dependencies. Each error names a real defect: an input that is not
    an asset, an asset that depends on itself, or a cycle. *)
Theorem resolve_asset_graph_correct r :
  NoDup (cr_assets r).*1 →
  match resolve_asset_graph r with
  | inl r' => cr_assets r' = cr_assets r ∧
      (∃ g, cr_graph r' = Some g ∧ names g = (cr_assets r).*1 ∧ graph_wf g ∧ acyclic g ∧
         ∀ a b, depends g a b ↔ declares (cr_assets r) a b) ∧
      (∀ a b, declares (cr_assets r) a b → b ∈ (cr_assets r).*1 ∧ a ≠ b) ∧
      ¬ declared_cycle (cr_assets r)
  | inr (UnresolvedInput a d) => declares (cr_assets r) a d ∧ d ∉ (cr_assets r).*1
  | inr (SelfDependency a) => declares (cr_assets r) a a
  | inr (CycleFound _) => declared_cycle (cr_assets r)
  | inr UnreachablePanic => ¬ only_names (cr_assets r)
  end.
Proof.
  intros Hnd. unfold resolve_asset_graph. cbv zeta.
  pose proof (resolve_nodes_assets (cr_assets r) Hnd) as Hs.
  destruct (resolve_nodes _ _ _ _ _) as [g|e].
  - destruct Hs as (Hn & Hwf & _ & Hdecl & Hdep).
    pose proof (detect_cycles_acyclic g (wf_edges g Hwf)) as Hc.
    pose proof (declared_cycle_depends _ _ Hdep) as Hcyc.
    rewrite acyclic_depends in Hc by done.
    destruct (detect_cycles g) as [u|msg] eqn:E; simpl.
    + assert (∀ a, ¬ tc (depends g) a a) as Ha by (apply Hc; eauto). split_and!; [done| |done|].
      * exists g. split_and!; [done..| |done]. by apply acyclic_depends.
      * intros [a Ht]%Hcyc. by apply (Ha a).
    + apply Hcyc, (cyclic_depends g Hwf). intros Ha. destruct Hc as [_ Hc].
      by destruct Hc as [u Hu]; [apply acyclic_depends|].
  - destruct Hs as (a & inputs & Ha & He). destruct e as [a' d|a'|msg|]; simpl.
    + destruct He as (-> & Hd & Hno). split; [by exists inputs|done].
    + destruct He as [-> Hin]. by exists inputs.
    + done.
    + destruct He as [k Hk]. intros Ho. by apply (Ho _ _ _ Ha Hk).
Qed.

(** [ancestors] collects exactly the transitive dependencies of an asset and
    [descendants] exactly its transitive dependents; the walks terminate within
    one pop per node. *)
Theorem ancestors_descendants g name :
  graph_wf g → ∃ A D, ancestors g name = Some A ∧ descendants g name = Some D ∧
    (∀ x, x ∈ A ↔ tc (depends g) name x) ∧ (∀ x, x ∈ D ↔ tc (depends g) x name).
Proof.
  intros Hwf. destruct (traverse_spec g name Outgoing Hwf) as (A & HA & HAs).
  destruct (traverse_spec g name Incoming Hwf) as (D & HD & HDs). by exists A, D.
Qed.

(** The upstream closure of a selection is the least set that contains the
    selected assets and all that they depend on, and it is the smallest
    extension that [validate_subgraph_completeness] accepts: a set is accepted
    exactly when each direct dependency of a member is a member, and otherwise
    the missing pairs are listed. *)
Theorem upstream_closure_completes `{!HashIter string} g targets :
  graph_wf g → (∀ t, t ∈ targets → t ∈ names g) →
  ∃ R, upstream_closure g targets = Some R ∧ targets ⊆ R ∧
    validate_subgraph_completeness g R = inl tt ∧
    (∀ sel, targets ⊆ sel → validate_subgraph_completeness g sel = inl tt → R ⊆ sel) ∧
    (∀ sel missing, validate_subgraph_completeness g sel = inr missing →
       ∀ a b, (a, b) ∈ missing ↔ a ∈ sel ∧ depends g a b ∧ b ∉ sel).
Proof.
  intros Hwf Ht. destruct (upstream_closure_spec g targets Hwf) as (R & HR & Hspec).
  exists R. split_and!; [done| | | |].
  - intros t Hin. apply Hspec. exists t. split_and!; [done|by apply Ht|apply rtc_refl].
  - apply validate_complete; [done|]. intros a b (t & Hin & Hn & Hr)%Hspec Hab.
    apply Hspec. exists t. split_and!; [done..|]. by eapply rtc_r.
  - intros sel Hsub Hval x (t & Hin & _ & Hr)%Hspec. rewrite validate_complete in Hval by done.
    apply Hsub in Hin. revert Hin. induction Hr as [|? ? ? Hab _ IH]; [done|]. eauto.
  - intros sel missing Hval a b. by apply validate_missing.
Qed.

(** The lineage computed from the serialized topology agrees with
    [ancestors] and [descendants] on the graph it was taken from. *)
Theorem lineage_of_topology g name :
  graph_wf g → lineage (to_topology g) name = (ancestors g name, descendants g name).
Proof.
  intros Hwf. destruct (lineage_spec (to_topology g) name) as (A & D & -> & HA & HD).
  destruct (traverse_spec g name Outgoing Hwf) as (A' & HA' & HAs).
  destruct (traverse_spec g name Incoming Hwf) as (D' & HD' & HDs).
  unfold ancestors, descendants. rewrite HA', HD'. do 2 f_equal; f_equal; apply set_eq; intros x.
  - rewrite HA, HAs. split; apply (tc_congruence id); intros; by apply topology_edges.
  - rewrite HD, HDs. simpl. rewrite <-tc_flip_iff. split; apply (tc_congruence id);
      intros ??; by apply topology_edges.
Qed.

(** [is_reachable] (and [materialization_requires], its name for callers)
    answers whether the second asset is among what the first needs, itself
    included, and reports the first name that is not in the graph. *)
Theorem materialization_requires_spec g target candidate :
  graph_wf g →
  match materialization_requires g target candidate with
  | inl b => target ∈ names g ∧ candidate ∈ names g ∧
      (b = true ↔ rtc (depends g) target candidate)
  | inr e => ((target ∉ names g) ∧ e = not_found target) ∨
      (target ∈ names g ∧ (candidate ∉ names g) ∧ e = not_found candidate)
  end.
Proof.
  intros Hwf. unfold materialization_requires, is_reachable.
  destruct (find_node_by_name g target) as [i|] eqn:Ei.
  2: { left. split; [|done]. by apply find_node_None. }
  apply (find_node_by_name_spec g Hwf) in Ei.
  pose proof (list_elem_of_lookup_2 _ _ _ Ei) as Hit.
  destruct (find_node_by_name g candidate) as [j|] eqn:Ej.
  2: { right. split_and!; [done| |done]. by apply find_node_None. }
  apply (find_node_by_name_spec g Hwf) in Ej.
  split_and!; [done|by eapply list_elem_of_lookup_2|].
  rewrite has_path_spec by (by apply wf_edges || by eapply names_lookup_lt).
  split.
  - intros Hr%(rtc_edge_depends g Hwf).
    by rewrite (node_name_lookup _ _ _ Ei), (node_name_lookup _ _ _ Ej) in Hr.
  - intros Hr. destruct (rtc_depends_edge g Hwf _ _ i Hr Ei) as (k & Hk & Hik).
    by rewrite (names_inj g Hwf j k candidate).
Qed.

Lemma take_in_order_spec {T} g order (items : gmap string T) :
  NoDup (node_name g <$> order) →
  let ks := filter (λ k, k ∈ dom items) (node_name g <$> order) in
  let '(out, rest) := take_in_order g order items in
  Some <$> out = (λ k, items !! k) <$> ks ∧
  rest = filter (λ kv, kv.1 ∉ node_name g <$> order) items.
Proof.
  revert items. induction order as [|i order IH]; intros items Hnd; cbv zeta.
  { split; [done|]. symmetry. apply map_filter_id. intros. simpl. apply not_elem_of_nil. }
  rewrite fmap_cons, NoDup_cons in Hnd. destruct Hnd as [Hi Hnd].
  rewrite fmap_cons. cbn [take_in_order]. set (n := node_name g i) in *.
  destruct (items !! n) as [v|] eqn:E.
  - specialize (IH (delete n items) Hnd). cbv zeta in IH.
    destruct (take_in_order g order (delete n items)) as [out rest]. destruct IH as [Ho ->].
    rewrite filter_cons_True by by apply elem_of_dom. split.
    + rewrite !fmap_cons, Ho, E. f_equal. apply fmap_filter_dom_delete; done.
    + apply map_eq. intros k. apply option_eq. intros w.
      rewrite !map_lookup_filter_Some, lookup_delete_Some. simpl. set_solver.
  - specialize (IH items Hnd). cbv zeta in IH.
    destruct (take_in_order g order items) as [out rest]. destruct IH as [Ho ->].
    rewrite filter_cons_False by by rewrite elem_of_dom, E; intros [? [=]]. split; [done|].
    apply map_eq. intros k. apply option_eq. intros w.
    rewrite !map_lookup_filter_Some. simpl. set_solver.
Qed.

Lemma names_of_order g order :
  order ≡ₚ node_indices g → node_name g <$> order ≡ₚ names g.
Proof.
  intros ->. assert (node_name g <$> node_indices g = names g) as ->; [|done].
  apply list_eq. intros i.
  rewrite list_lookup_fmap. unfold node_indices.
  destruct (decide (i < node_count g)) as [Hi|Hi].
  - rewrite lookup_seq_lt by done. simpl. by rewrite names_lookup.
  - rewrite lookup_seq_ge by lia. simpl. symmetry. apply lookup_ge_None_2.
    unfold names. rewrite length_fmap. unfold node_count in Hi. lia.
Qed.

(** In the reversed topological order dependencies come first. *)
Lemma toposort_deps_first g topo a b :
  graph_wf g → toposort g = Some topo → depends g a b →
  before (node_name g <$> rev topo) b a.
Proof.
  intros Hwf Ht (i & j & He & Hi & Hj).
  apply node_name_lookup in Hi as <-, Hj as <-.
  apply before_fmap, before_rev. by eapply toposort_before; [apply wf_edges| |].
Qed.

Lemma topo_names g topo :
  graph_wf g → toposort g = Some topo →
  node_name g <$> rev topo ≡ₚ names g ∧ NoDup (node_name g <$> rev topo).
Proof.
  intros Hwf Ht. assert (node_name g <$> rev topo ≡ₚ names g) as Hp.
  { apply names_of_order. rewrite <-Permutation_rev. by eapply toposort_perm; [apply wf_edges|]. }
  split; [done|]. rewrite Hp. by apply wf_names.
Qed.

(** The values of the items left over, in the order their keys are visited. *)
Lemma omap_rest {T} (items : gmap string T) (nm l : list string) :
  (∀ k, k ∈ l → k ∈ dom items ∧ k ∉ nm) →
  Some <$> omap (λ k, filter (λ kv, kv.1 ∉ nm) items !! k) l = (λ k, items !! k) <$> l.
Proof.
  induction l as [|k l IH]; intros Hl; [done|].
  destruct (Hl k) as [[v Hv]%elem_of_dom Hn]; [left|].
  assert (filter (λ kv, kv.1 ∉ nm) items !! k = Some v) as E by by apply map_lookup_filter_Some.
  cbn [omap list_omap]. rewrite fmap_cons, E, Hv, fmap_cons. f_equal.
  apply IH. intros. apply Hl. by right.
Qed.

Lemma dom_rest {T} (items : gmap string T) (nm : list string) k :
  k ∈ dom (filter (λ kv, kv.1 ∉ nm) items) ↔ k ∈ dom items ∧ k ∉ nm.
Proof.
  rewrite !elem_of_dom. unfold is_Some. setoid_rewrite map_lookup_filter_Some. simpl.
  naive_solver.
Qed.

(** On a resolved repository [sort_topologically] returns every item once,
    in an order of their names in which each asset's dependencies, direct or
    not, come before it and the items that are not in the graph come last. *)
Theorem sort_topologically_order `{!HashIter string} {T} r g (items : gmap string T) :
  cr_graph r = Some g → graph_wf g → acyclic g →
  ∃ order, order ≡ₚ elements (dom items) ∧
    Some <$> sort_topologically r items = (λ k, items !! k) <$> order ∧
    (∀ a b, a ∈ dom items → b ∈ dom items → tc (depends g) a b → before order b a) ∧
    (∀ a b, a ∈ dom items → a ∈ names g → b ∈ dom items → b ∉ names g → before order a b).
Proof.
  intros Hr Hwf Ha. unfold sort_topologically. rewrite Hr.
  destruct (toposort_acyclic g (wf_edges g Hwf) Ha) as [topo Ht]. rewrite Ht.
  destruct (topo_names g topo Hwf Ht) as [Hnames Hnd].
  pose proof (take_in_order_spec g (rev topo) items Hnd) as Hs. cbv zeta in Hs.
  destruct (take_in_order g (rev topo) items) as [out rest]. destruct Hs as [Ho ->].
  set (nm := node_name g <$> rev topo) in *.
  assert (∀ k, k ∈ dom (filter (λ kv, kv.1 ∉ nm) items) ↔ k ∈ dom items ∧ k ∉ names g)
    as Hrest by (intros k; by rewrite dom_rest, Hnames).
  set (rest := filter (λ kv : string * T, kv.1 ∉ nm) items) in *.
  exists (filter (λ k, k ∈ dom items) nm ++ hash_iter (dom rest)). split_and!.
  - apply NoDup_Permutation; [|apply NoDup_elements|].
    + apply NoDup_app. split_and!; [by apply NoDup_filter| |].
      * intros k [_ Hk]%list_elem_of_filter. rewrite elem_of_hash_iter, Hrest, <-Hnames. by intros [].
      * rewrite hash_iter_perm. apply NoDup_elements.
    + intros k. rewrite elem_of_app, list_elem_of_filter, elem_of_hash_iter, Hrest, Hnames,
        elem_of_elements. destruct (decide (k ∈ names g)); naive_solver.
  - rewrite !fmap_app. f_equal; [done|]. apply omap_rest. intros k.
    unfold rest. by rewrite elem_of_hash_iter, dom_rest.
  - intros a b Hda Hdb Hab. apply before_app_l, before_filter; [|done..].
    clear Hda Hdb. induction Hab as [a b Hd|a b c Hd _ IH]; [by apply toposort_deps_first|].
    eapply before_trans; [done|exact IH|]. by apply toposort_deps_first.
  - intros a b Hda Hna Hdb Hnb. apply before_app_lr.
    + apply list_elem_of_filter. by rewrite Hnames.
    + by rewrite elem_of_hash_iter, Hrest.
Qed.
End theorems.

(** ** The theorems at a concrete repository *)
Section witnesses.
(** [report] reads [clean] and [stats], which both read [raw]. *)
Definition diamond : CodeRepository :=
  new_repository (bt_collect
    [("report", [ByName "clean"; ByName "stats"]); ("raw", []);
     ("clean", [ByName "raw"]); ("stats", [ByName "raw"])]).

Definition diamond_resolved : CodeRepository :=
  Eval vm_compute in
    match resolve_asset_graph diamond with inl r => r | inr _ => diamond end.

Definition diamond_graph : AssetGraph :=
  Eval vm_compute in default (mkGraph [] []) (cr_graph diamond_resolved).

Definition graph_wfb (g : AssetGraph) : bool :=
  bool_decide (NoDup (names g)) &&
  forallb (λ e, Nat.ltb e.1 (node_count g) && Nat.ltb e.2 (node_count g)) (g_edges g).

Lemma graph_wfb_spec g : graph_wfb g = true → graph_wf g.
Proof.
  unfold graph_wfb. rewrite andb_true_iff, bool_decide_eq_true, forallb_Forall, Forall_forall.
  intros [Hnd He]. split; [done|]. intros i j Hij. specialize (He _ Hij). simpl in He.
  apply andb_true_iff in He as [Hi Hj]. by apply Nat.ltb_lt in Hi, Hj.
Qed.

Lemma diamond_wf : graph_wf diamond_graph.
Proof. apply graph_wfb_spec. vm_compute. reflexivity. Qed.

Lemma diamond_acyclic : acyclic diamond_graph.
Proof.
  destruct (ref_is_cyclic diamond_graph) eqn:E; [by vm_compute in E|].
  intros i Hi. apply not_true_iff_false in E. apply E, ref_is_cyclic_spec; [apply diamond_wf|].
  intros Ha. by apply (Ha i).
Qed.

Lemma resolve_asset_graph_correct_witness :
  resolve_asset_graph diamond = inl diamond_resolved ∧ ¬ declared_cycle (cr_assets diamond).
Proof.
  assert (resolve_asset_graph diamond = inl diamond_resolved) as E by (vm_compute; reflexivity).
  assert (NoDup (cr_assets diamond).*1) as Hnd
    by (apply (bool_decide_unpack _); vm_compute; exact I).
  pose proof (resolve_asset_graph_correct diamond Hnd) as Hr. rewrite E in Hr.
  split; [exact E|]. apply Hr.
Defined.

Lemma ancestors_descendants_witness :
  ∃ A D, ancestors diamond_graph "clean" = Some A ∧ descendants diamond_graph "clean" = Some D ∧
    (∀ x, x ∈ A ↔ tc (depends diamond_graph) "clean" x) ∧
    (∀ x, x ∈ D ↔ tc (depends diamond_graph) x "clean").
Proof. apply (ancestors_descendants diamond_graph "clean" diamond_wf). Defined.

Lemma upstream_closure_completes_witness :
  ∃ R, upstream_closure diamond_graph {[ "clean" ]} = Some R ∧ {[ "clean" ]} ⊆ R ∧
    validate_subgraph_completeness diamond_graph R = inl tt.
Proof.
  destruct (upstream_closure_completes diamond_graph {[ "clean" ]} diamond_wf)
    as (R & H1 & H2 & H3 & _).
  - intros t ->%elem_of_singleton. apply (bool_decide_unpack _). vm_compute. exact I.
  - exists R. split_and!; assumption.
Defined.

Lemma lineage_of_topology_witness :
  lineage (to_topology diamond_graph) "raw" =
  (ancestors diamond_graph "raw", descendants diamond_graph "raw").
Proof. apply (lineage_of_topology diamond_graph "raw" diamond_wf). Defined.

Lemma materialization_requires_spec_witness :
  materialization_requires diamond_graph "report" "raw" = inl true ∧
  rtc (depends diamond_graph) "report" "raw".
Proof.
  pose proof (materialization_requires_spec diamond_graph "report" "raw" diamond_wf) as Hm.
  assert (materialization_requires diamond_graph "report" "raw" = inl true) as E
    by (vm_compute; reflexivity).
  rewrite E in Hm. split; [exact E|]. apply Hm. reflexivity.
Defined.

Lemma sort_topologically_order_witness :
  ∃ order, order ≡ₚ elements (dom ({["raw" := 1; "report" := 2; "other" := 3]} : gmap string nat)) ∧
    before order "raw" "report" ∧ before order "raw" "other".
Proof.
  destruct (sort_topologically_order diamond_resolved diamond_graph
    ({["raw" := 1; "report" := 2; "other" := 3]} : gmap string nat) eq_refl diamond_wf
    diamond_acyclic) as (order & Hp & _ & Hd & Hn).
  exists order. split_and!; [exact Hp| |].
  - apply Hd; [apply (bool_decide_unpack _); vm_compute; exact I..|].
    apply tc_depends_iff; [apply diamond_wf|]. exists 2, 1. split_and!; [reflexivity..|].
    eapply tc_l; [|apply tc_once]; unfold edge; [apply (list_elem_of_lookup_2 _ 1)|
      apply (list_elem_of_lookup_2 _ 0)]; reflexivity.
  - apply Hn; apply (bool_decide_unpack _); vm_compute; exact I.
Defined.
End witnesses.
