(* ===== verification/Composition.v ===== *)
(** * Graph-asset composition (rust/rivers-core/src/composition.rs)

    The thread-local [COMPOSITION_STACK] is the state of the operations; its top
    is the head of the list. An operation that panics returns [None]. *)

From S2P Require Import Prelude.

Definition DEFAULT_OUTPUT_NAME : string := "result".

Inductive InvokedNodeType := InvokedTask | InvokedAsset.

Record InputBinding := mkBinding {
  ib_upstream_node_name : string;
  ib_output_name : string;
  ib_param_name : option string;
}.

Inductive InvocationKind :=
| InvNormal
| InvMap (source_node source_output : string) (max_concurrency : option N)
| InvCollect (mapped_node : string)
| InvCollectStream (mapped_node : string) (ordered : bool).

Record InvokedNode := mkInvoked {
  in_name : string;
  in_node_type : InvokedNodeType;
  in_input_bindings : list InputBinding;
  in_invocation_kind : InvocationKind;
}.

Record CompositionContext := mkContext {
  cc_name : string;
  cc_invocations : gmap string InvokedNode;
  cc_invocation_order : list string;
}.

Definition new_context (name : string) : CompositionContext := mkContext name ∅ [].

(** [invocations.insert(name, node); invocation_order.push(name)] *)
Definition register (node : InvokedNode) (c : CompositionContext) : CompositionContext :=
  mkContext (cc_name c) (<[in_name node := node]> (cc_invocations c))
    (cc_invocation_order c ++ [in_name node]).

Definition observe_invocation (c : CompositionContext) (name : string)
    (node_type : InvokedNodeType) (input_bindings : list InputBinding)
    : string * CompositionContext :=
  let registered_name :=
    match node_type with
    | InvokedTask => cc_name c +:+ "/" +:+ name
    | InvokedAsset => name
    end in
  (registered_name, register (mkInvoked registered_name node_type input_bindings InvNormal) c).

Definition observe_map_invocation (c : CompositionContext)
    (task_name source_node source_output : string) (max_concurrency : option N)
    : string * CompositionContext :=
  let registered_name := cc_name c +:+ "/" +:+ task_name in
  (registered_name,
   register (mkInvoked registered_name InvokedTask
               [mkBinding source_node source_output None]
               (InvMap source_node source_output max_concurrency)) c).

Definition observe_collect_invocation (c : CompositionContext)
    (mapped_node : string) (streaming ordered : bool) : string * CompositionContext :=
  let collect_name := mapped_node +:+ "__collect" in
  let kind := if streaming then InvCollectStream mapped_node ordered
              else InvCollect mapped_node in
  (collect_name,
   register (mkInvoked collect_name InvokedTask
               [mkBinding mapped_node DEFAULT_OUTPUT_NAME None] kind) c).

(** ** The thread-local stack *)
Definition Comp (A : Type) : Type := list CompositionContext → option (A * list CompositionContext).

Definition is_in_composition : Comp bool :=
  λ stack, Some (match stack with [] => false | _ => true end, stack).

Definition enter_composition (name : string) : Comp unit :=
  λ stack, Some (tt, new_context name :: stack).

Definition exit_composition : Comp CompositionContext :=
  λ stack, match stack with [] => None | c :: stack => Some (c, stack) end.

(** [stack.last_mut().expect(..)] followed by an operation on the context. *)
Definition on_top {A} (f : CompositionContext → A * CompositionContext) : Comp A :=
  λ stack, match stack with
           | [] => None
           | c :: stack => let '(a, c) := f c in Some (a, c :: stack)
           end.

(** The calls the Python layer makes while a graph body runs. *)
Inductive Call :=
| Invoke (name : string) (node_type : InvokedNodeType) (bindings : list InputBinding)
| MapOver (task_name source_node source_output : string) (max_concurrency : option N)
| CollectOf (mapped_node : string) (streaming ordered : bool)
| Nested (name : string) (body : list Call).

Definition call_context (k : Call) (c : CompositionContext) : string * CompositionContext :=
  match k with
  | Invoke n t bs => observe_invocation c n t bs
  | MapOver t s o m => observe_map_invocation c t s o m
  | CollectOf m s o => observe_collect_invocation c m s o
  | Nested _ _ => (EmptyString, c)
  end.

(** A nested graph body enters, runs and exits its own context; the context it
    returns is the caller's. *)
Fixpoint run_call (k : Call) : Comp unit :=
  λ stack,
    match k with
    | Nested name body =>
        match enter_composition name stack with
        | None => None
        | Some (_, stack) =>
            match (fix run_body (b : list Call) : Comp unit := λ stack,
                     match b with
                     | [] => Some (tt, stack)
                     | k :: b => match run_call k stack with
                                 | None => None
                                 | Some (_, stack) => run_body b stack
                                 end
                     end) body stack with
            | None => None
            | Some (_, stack) =>
                match exit_composition stack with
                | None => None
                | Some (_, stack) => Some (tt, stack)
                end
            end
        end
    | _ => match on_top (call_context k) stack with
           | None => None
           | Some (_, stack) => Some (tt, stack)
           end
    end.

Fixpoint run_body (b : list Call) : Comp unit :=
  λ stack,
    match b with
    | [] => Some (tt, stack)
    | k :: b => match run_call k stack with
                | None => None
                | Some (_, stack) => run_body b stack
                end
    end.

Definition compose (name : string) (body : list Call) : Comp CompositionContext :=
  λ stack,
    match enter_composition name stack with
    | None => None
    | Some (_, stack) =>
        match run_body body stack with
        | None => None
        | Some (_, stack) => exit_composition stack
        end
    end.

(** ** What a composition records *)
Definition is_nested (k : Call) : bool := match k with Nested _ _ => true | _ => false end.

(** The node a call registers in graph [g]. *)
Definition call_node (g : string) (k : Call) : option InvokedNode :=
  match k with
  | Invoke n InvokedTask bs => Some (mkInvoked (g +:+ "/" +:+ n) InvokedTask bs InvNormal)
  | Invoke n InvokedAsset bs => Some (mkInvoked n InvokedAsset bs InvNormal)
  | MapOver t s o m =>
      Some (mkInvoked (g +:+ "/" +:+ t) InvokedTask [mkBinding s o None] (InvMap s o m))
  | CollectOf m s o =>
      Some (mkInvoked (m +:+ "__collect") InvokedTask [mkBinding m DEFAULT_OUTPUT_NAME None]
              (if s then InvCollectStream m o else InvCollect m))
  | Nested _ _ => None
  end.

Definition recorded (name : string) (body : list Call) : CompositionContext :=
  let nodes := omap (call_node name) body in
  mkContext name (foldl (λ m n, <[in_name n := n]> m) ∅ nodes) (in_name <$> nodes).

Section recorded.
Fixpoint Call_nested_ind (P : Call → Prop)
    (HI : ∀ n t bs, P (Invoke n t bs)) (HM : ∀ t s o m, P (MapOver t s o m))
    (HC : ∀ m s o, P (CollectOf m s o))
    (HN : ∀ n b, Forall P b → P (Nested n b)) (k : Call) : P k :=
  match k with
  | Invoke n t bs => HI n t bs
  | MapOver t s o m => HM t s o m
  | CollectOf m s o => HC m s o
  | Nested n b =>
      HN n b ((fix go (b : list Call) : Forall P b := match b with
                           | [] => Forall_nil_2 P
                           | k :: b => Forall_cons_2 P k b (Call_nested_ind P HI HM HC HN k) (go b)
                           end) b)
  end.

Definition record_call (c : CompositionContext) (k : Call) : CompositionContext :=
  match call_node (cc_name c) k with Some n => register n c | None => c end.

Lemma record_call_name c k : cc_name (record_call c k) = cc_name c.
Proof. unfold record_call. by destruct (call_node _ _). Qed.

Lemma run_nested name body stack :
  run_call (Nested name body) stack =
  match run_body body (new_context name :: stack) with
  | None => None
  | Some (_, stack) => match exit_composition stack with
                       | None => None | Some (_, stack) => Some (tt, stack) end
  end.
Proof. done. Qed.

Lemma run_body_spec body :
  Forall (λ k, ∀ c stack, run_call k (c :: stack) = Some (tt, record_call c k :: stack)) body →
  ∀ c stack, run_body body (c :: stack) = Some (tt, foldl record_call c body :: stack).
Proof.
  induction 1 as [|k body Hk _ IH]; intros c stack; simpl; [done|]. by rewrite Hk.
Qed.

(** A call never touches anything but the top context, and never panics there. *)
Lemma run_call_spec k c stack : run_call k (c :: stack) = Some (tt, record_call c k :: stack).
Proof.
  revert c stack. induction k as [n [] bs| | |n body IH] using Call_nested_ind;
    intros c stack; try done.
  rewrite run_nested, (run_body_spec body IH). done.
Qed.

Lemma foldl_record body c :
  foldl record_call c body =
  mkContext (cc_name c)
    (foldl (λ m n, <[in_name n := n]> m) (cc_invocations c) (omap (call_node (cc_name c)) body))
    (cc_invocation_order c ++ (in_name <$> omap (call_node (cc_name c)) body)).
Proof.
  revert c. induction body as [|k body IH]; intros c.
  { simpl. rewrite app_nil_r. by destruct c. }
  cbn [foldl omap list_omap]. rewrite IH, record_call_name. unfold record_call.
  destruct (call_node (cc_name c) k); simpl; [|done]. by rewrite <-app_assoc.
Qed.
End recorded.

(** Running a graph body between [enter_composition] and [exit_composition]
    never panics, leaves the enclosing contexts as they were, and returns a context
    that holds exactly the body's own calls, in call order and with a later call of
    the same name replacing an earlier one; the calls of graphs nested in it are
    recorded only in their own contexts. *)
Theorem compose_records name body stack :
  compose name body stack = Some (recorded name body, stack).
Proof.
  unfold compose, enter_composition.
  rewrite run_body_spec by (apply Forall_forall; intros; apply run_call_spec).
  by rewrite foldl_record.
Qed.

Lemma recorded_lookup_acc nodes (m : gmap string InvokedNode) n x :
  foldl (λ m n, <[in_name n := n]> m) m nodes !! n = Some x ↔
  (∃ l1 l2, nodes = l1 ++ x :: l2 ∧ in_name x = n ∧ n ∉ in_name <$> l2) ∨
  (m !! n = Some x ∧ n ∉ in_name <$> nodes).
Proof.
  revert m. induction nodes as [|y nodes IH] using rev_ind; intros m.
  { simpl. split; [intros; right; split; [done|apply not_elem_of_nil]|].
    intros [(l1 & l2 & Hl & _)|[? _]]; [by destruct l1|done]. }
  rewrite foldl_app. simpl. rewrite lookup_insert_Some, IH, fmap_app, not_elem_of_app. split.
  - intros [[<- <-]|[Hne [(l1 & l2 & -> & Hn & Hni)|[Hm Hni]]]].
    + left. exists nodes, []. split_and!; [done..|apply not_elem_of_nil].
    + left. exists l1, (l2 ++ [y]). rewrite <-app_assoc, fmap_app, not_elem_of_app.
      split_and!; [done..|]. apply not_elem_of_cons. split; [congruence|apply not_elem_of_nil].
    + right. split_and!; [done..|]. apply not_elem_of_cons. split; [congruence|apply not_elem_of_nil].
  - intros [(l1 & l2 & Hl & Hn & Hni)|(Hm & Hni & [Hne _]%not_elem_of_cons)]; [|right; auto].
    destruct l2 as [|z l2 _] using rev_ind.
    + apply app_inj_tail in Hl as [-> ->]. by left.
    + rewrite app_comm_cons, app_assoc in Hl. apply app_inj_tail in Hl as [-> ->].
      rewrite fmap_app, not_elem_of_app in Hni. destruct Hni as [Hni [Hne _]%not_elem_of_cons].
      right. split; [done|]. left. by exists l1, l2.
Qed.

(** Outside a composition the observing calls and [exit_composition] panic, and
    inside one the recorded map holds, under each name of the invocation order, the
    last node the body registered under that name, and nothing else. *)
Theorem composition_invariant name body n x :
  (∀ k, is_nested k = false → run_call k [] = None) ∧ exit_composition [] = None ∧
  (cc_invocations (recorded name body) !! n = Some x ↔
     ∃ l1 l2, omap (call_node name) body = l1 ++ x :: l2 ∧ in_name x = n ∧ n ∉ in_name <$> l2).
Proof.
  split_and!; [by intros []|done|]. simpl. rewrite recorded_lookup_acc, lookup_empty.
  split; [by intros [|[??]]|by left].
Qed.
