(* ===== verification/ExecutionPlan.v ===== *)
(** * Execution plans (rust/rivers-core/src/execution/plan.rs)

    The construction of a plan from a graph, from a selection of a graph and for
    an action, and the grouping of its steps into levels that run in parallel. A
    [panic!] or a failed [expect] is [None]. *)

From S2P Require Import Prelude Composition AssetGraph.

Inductive StepKind :=
| SNormal
| SMapped (fan_out_source : string) (max_concurrency : option N)
| SCollect (mapped_step : string)
| SCollectStream (mapped_step : string) (ordered : bool).

Definition step_kind_from (k : InvocationKind) : StepKind :=
  match k with
  | InvNormal => SNormal
  | InvMap source_node _ max_concurrency => SMapped source_node max_concurrency
  | InvCollect mapped_node => SCollect mapped_node
  | InvCollectStream mapped_node ordered => SCollectStream mapped_node ordered
  end.

Record ExecutionStep := mkStep {
  st_name : string;
  st_kind : StepKind;
  st_outputs : list string;
  st_plan_dependencies : list string;
  st_graph_dependencies : list string;
}.

#[export] Instance StepKind_eq_dec : EqDecision StepKind.
Proof. solve_decision. Defined.

#[export] Instance ExecutionStep_eq_dec : EqDecision ExecutionStep.
Proof. solve_decision. Defined.

Definition event_names (s : ExecutionStep) : list string :=
  match st_outputs s with [] => [st_name s] | outputs => outputs end.

Inductive ActionOrdering := Unordered | UpstreamFirst | DownstreamFirst.

Record ExecutionPlan := mkPlan {
  ep_steps : list ExecutionStep;
  ep_action : option string;
}.

Definition verb (p : ExecutionPlan) : option string := ep_action p.
Definition is_action (p : ExecutionPlan) : bool := bool_decide (is_Some (ep_action p)).
Definition is_materialize (p : ExecutionPlan) : bool := bool_decide (ep_action p = None).

(** ** [slice::sort_by]

    The sort is stable when the comparison is a total order (up to ties). For any
    other comparison the standard library documents an unspecified order of the
    same elements, or a panic. *)
Definition cmp_leb {A} (cmp : A → A → comparison) (x y : A) : bool :=
  match cmp x y with Gt => false | _ => true end.

Definition total_cmp {A} (cmp : A → A → comparison) (l : list A) : Prop :=
  (∀ x y, x ∈ l → y ∈ l → cmp y x = CompOpp (cmp x y)) ∧
  (∀ x y z, x ∈ l → y ∈ l → z ∈ l → cmp_leb cmp x y → cmp_leb cmp y z → cmp_leb cmp x z).

Class SliceSort := {
  slice_sort_by : ∀ {A}, (A → A → comparison) → list A → option (list A);
  slice_sort_by_perm : ∀ {A} cmp (l l' : list A), slice_sort_by cmp l = Some l' → l' ≡ₚ l;
  slice_sort_by_total : ∀ {A} cmp (l : list A),
    total_cmp cmp l → slice_sort_by cmp l = Some (sort_by (cmp_leb cmp) l);
}.

(** Insertion sort is one such function. *)
#[export] Program Instance insertion_sort : SliceSort | 10 :=
  {| slice_sort_by A cmp l := Some (sort_by (cmp_leb cmp) l) |}.
Next Obligation. intros A cmp l l' [= <-]. apply sort_by_perm. Qed.
Next Obligation. done. Qed.

Section plan.
Context `{Petgraph}.

Definition neighbor_names (g : AssetGraph) (idx : nat) : list string :=
  node_name g <$> neighbors_directed g idx Outgoing.

Definition from_graph (g : AssetGraph) : option ExecutionPlan :=
  match toposort g with
  | None => None
  | Some order =>
      Some (mkPlan
        ((λ idx, let deps := neighbor_names g idx in
                 mkStep (node_name g idx) SNormal [] deps deps) <$> rev order)
        None)
  end.

(** [targets.iter().filter(|t| seen.insert(t))] *)
Fixpoint first_occurrences (seen : gset string) (l : list string) : list string :=
  match l with
  | [] => []
  | t :: l => if bool_decide (t ∈ seen) then first_occurrences seen l
              else t :: first_occurrences ({[t]} ∪ seen) l
  end.

Definition related_targets (targets : list string) (closure : option (gset string))
    : list string :=
  filter (λ t, t ∈ default ∅ closure) targets.

Definition for_action (g : AssetGraph) (action : string) (targets : list string)
    (ordering : ActionOrdering) : ExecutionPlan :=
  let targets := first_occurrences ∅ targets in
  mkPlan
    ((λ target,
        let plan_dependencies :=
          match ordering with
          | Unordered => []
          | UpstreamFirst => related_targets targets (ancestors g target)
          | DownstreamFirst => related_targets targets (descendants g target)
          end in
        mkStep target SNormal [] plan_dependencies []) <$> targets)
    (Some action).

(** *** [from_subgraph] *)
Record Build := mkBuild {
  b_group_step_idx : gmap string nat;
  b_output_to_step : gmap string string;
  b_steps : list ExecutionStep;
}.

Definition push_plan_dep (step : ExecutionStep) (dep : string) : ExecutionStep :=
  if negb (String.eqb dep (st_name step)) && bool_decide (dep ∉ st_outputs step)
     && bool_decide (dep ∉ st_plan_dependencies step)
  then mkStep (st_name step) (st_kind step) (st_outputs step)
         (st_plan_dependencies step ++ [dep]) (st_graph_dependencies step)
  else step.

Definition push_graph_dep (step : ExecutionStep) (dep : string) : ExecutionStep :=
  if bool_decide (dep ∉ st_outputs step) && negb (String.eqb dep (st_name step))
     && bool_decide (dep ∉ st_graph_dependencies step)
  then mkStep (st_name step) (st_kind step) (st_outputs step)
         (st_plan_dependencies step) (st_graph_dependencies step ++ [dep])
  else step.

(** Another output of a group joins the group's step. *)
Definition join_group (node_name : string) (plan_dependencies neighbors : list string)
    (step : ExecutionStep) : ExecutionStep :=
  let step := mkStep (st_name step) (st_kind step) (st_outputs step ++ [node_name])
                (st_plan_dependencies step) (st_graph_dependencies step) in
  let step := foldl push_plan_dep step plan_dependencies in
  foldl push_graph_dep step neighbors.

Definition plan_deps_of `{!HashIter string} (asset_names : gset string)
    (output_to_step : gmap string string) (neighbors : list string) : list string :=
  hash_iter (list_to_set
    ((λ n, default n (output_to_step !! n)) <$> filter (λ n, n ∈ asset_names) neighbors)).

(** The body of the loop over the reversed topological order. [steps[existing_idx]]
    is always in range, so [alter] is the indexed update. *)
Definition build_node `{!HashIter string} (g : AssetGraph) (asset_names : gset string)
    (groups : gmap string string) (b : Build) (idx : nat) : Build :=
  let node_name := node_name g idx in
  if bool_decide (node_name ∉ asset_names) then b else
  let neighbors := neighbor_names g idx in
  let plan_dependencies := plan_deps_of asset_names (b_output_to_step b) neighbors in
  match groups !! node_name with
  | Some group_key =>
      match b_group_step_idx b !! group_key with
      | Some existing_idx =>
          let step_name := from_option st_name EmptyString (b_steps b !! existing_idx) in
          mkBuild (b_group_step_idx b)
            (<[node_name := step_name]> (b_output_to_step b))
            (alter (join_group node_name plan_dependencies neighbors) existing_idx (b_steps b))
      | None =>
          mkBuild (<[group_key := length (b_steps b)]> (b_group_step_idx b))
            (<[node_name := node_name]> (b_output_to_step b))
            (b_steps b ++ [mkStep node_name SNormal [node_name] plan_dependencies neighbors])
      end
  | None =>
      mkBuild (b_group_step_idx b) (b_output_to_step b)
        (b_steps b ++ [mkStep node_name SNormal [] plan_dependencies neighbors])
  end.

Definition build_steps `{!HashIter string} (g : AssetGraph) (asset_names : gset string)
    (groups : gmap string string) (order : list nat) : Build :=
  foldl (build_node g asset_names groups) (mkBuild ∅ ∅ []) (rev order).

(** The level of each step and output, in the order the steps were built. *)
Definition record_level (levels : gmap string nat) (step : ExecutionStep) : gmap string nat :=
  let level := max_list ((λ dep, default 0 (levels !! dep) + 1) <$> st_plan_dependencies step) in
  foldl (λ m output, <[output := level]> m) (<[st_name step := level]> levels) (st_outputs step).

Definition step_levels (steps : list ExecutionStep) : gmap string nat :=
  foldl record_level ∅ steps.

Definition slash : ascii := "/"%char.

Definition then_with (c d : comparison) : comparison :=
  match c with Eq => d | _ => c end.

Definition step_cmp (levels : gmap string nat) (composition_order : gmap string N)
    (a b : ExecutionStep) : comparison :=
  let level_a := default 0 (levels !! st_name a) in
  let level_b := default 0 (levels !! st_name b) in
  then_with (Nat.compare level_a level_b)
    (let prefix_a := head (split_char slash (st_name a)) in
     let prefix_b := head (split_char slash (st_name b)) in
     let same_graph := has_char slash (st_name a) && has_char slash (st_name b)
                       && bool_decide (prefix_a = prefix_b) in
     if same_graph then
       N.compare (default usize_max (composition_order !! st_name a))
                 (default usize_max (composition_order !! st_name b))
     else Eq).

Definition from_subgraph `{!HashIter string, !SliceSort} (g : AssetGraph)
    (asset_names : gset string) (groups : gmap string string)
    (composition_order : gmap string N) : option ExecutionPlan :=
  match toposort g with
  | None => None
  | Some order =>
      let steps := b_steps (build_steps g asset_names groups order) in
      if bool_decide (composition_order = ∅) then Some (mkPlan steps None)
      else (λ steps, mkPlan steps None) <$>
             slice_sort_by (step_cmp (step_levels steps) composition_order) steps
  end.
End plan.

Definition apply_fan_out_kinds (kinds : gmap string StepKind) (p : ExecutionPlan)
    : ExecutionPlan :=
  mkPlan ((λ s, match kinds !! st_name s with
                | Some kind => mkStep (st_name s) kind (st_outputs s)
                                 (st_plan_dependencies s) (st_graph_dependencies s)
                | None => s
                end) <$> ep_steps p) (ep_action p).

Definition all_asset_names (p : ExecutionPlan) : list string :=
  ep_steps p ≫= event_names.

(** ** Levels *)
Section levels.
Context (steps : list ExecutionStep).

Definition index_step (m : gmap string nat) (e : nat * ExecutionStep) : gmap string nat :=
  foldl (λ m output, <[output := e.1]> m) (<[st_name e.2 := e.1]> m) (st_outputs e.2).

Definition by_name : gmap string nat :=
  foldl index_step ∅ (imap pair steps).

Record Dfs := mkDfs {
  level_of : list (option nat);
  on_stack : list bool;
  dfs_stack : list (nat * bool);
}.

Definition plan_deps (idx : nat) : list string :=
  from_option st_plan_dependencies [] (steps !! idx).

Definition settled_level (level_of : list (option nat)) (idx : nat) : nat :=
  max_list ((λ dep, default 0 (d ← by_name !! dep; mjoin (level_of !! d)) + 1)
            <$> plan_deps idx).

(** The dependencies pushed when [idx] is first reached, in order; the last one
    pushed is popped first. *)
Definition deps_to_visit (level_of : list (option nat)) (on_stack : list bool) (idx : nat)
    : list nat :=
  omap (λ dep, d ← by_name !! dep;
               if bool_decide (mjoin (level_of !! d) = None) &&
                  negb (default false (on_stack !! d)) then Some d else None)
    (plan_deps idx).

Definition dfs_step (idx : nat) (settle : bool) (st : Dfs) : Dfs :=
  if settle then
    mkDfs (<[idx := Some (settled_level (level_of st) idx)]> (level_of st))
          (<[idx := false]> (on_stack st)) (dfs_stack st)
  else if bool_decide (is_Some (mjoin (level_of st !! idx))) || default false (on_stack st !! idx)
  then st
  else
    let on_stack := <[idx := true]> (on_stack st) in
    mkDfs (level_of st) on_stack
      (rev ((λ d, (d, false)) <$> deps_to_visit (level_of st) on_stack idx)
       ++ (idx, true) :: dfs_stack st).

Fixpoint dfs_loop (fuel : nat) (st : Dfs) : option Dfs :=
  match dfs_stack st with
  | [] => Some st
  | (idx, settle) :: stack =>
      match fuel with
      | O => None
      | S fuel => dfs_loop fuel (dfs_step idx settle (mkDfs (level_of st) (on_stack st) stack))
      end
  end.

(** One pop for the root, and for each step reached one to settle it and one per
    dependency. *)
Definition dfs_fuel : nat :=
  S (length steps + sum_list ((λ s, length (st_plan_dependencies s)) <$> steps)).

Definition visit_root (acc : option Dfs) (root : nat) : option Dfs :=
  st ← acc;
  if bool_decide (is_Some (mjoin (level_of st !! root))) then Some st
  else dfs_loop dfs_fuel (mkDfs (level_of st) (on_stack st) [(root, false)]).

Definition levels_of : option (list (option nat)) :=
  level_of <$> foldl visit_root
    (Some (mkDfs (replicate (length steps) None) (replicate (length steps) false) []))
    (seq 0 (length steps)).

(** [while levels.len() <= level { levels.push(Vec::new()) }; levels[level].push(idx)] *)
Definition push_level (levels : list (list nat)) (e : nat * option nat) : list (list nat) :=
  let level := default 0 e.2 in
  let levels := levels ++ replicate (S level - length levels) [] in
  alter (λ l, l ++ [e.1]) level levels.
End levels.

Definition group_steps_by_level (p : ExecutionPlan) : option (list (list nat)) :=
  (λ levels, foldl push_level [] (imap pair levels)) <$> levels_of (ep_steps p).
