(* ===== verification/PlanLevels.v ===== *)
(** * The levels of an execution plan

    [group_steps_by_level] runs an iterative post-order search. Its work is
    bounded for every plan; on a plan without dependency cycles the level of each
    step is one more than the highest level among its dependencies. *)

From S2P Require Import Prelude Composition AssetGraph ExecutionPlan.

(** A sum loses at least [w] when one summand drops from [w] to zero and no other grows. *)
Lemma sum_list_drop (f f' : nat → nat) (l : list nat) i :
  NoDup l → i ∈ l → f' i = 0 → (∀ j, f' j ≤ f j) →
  sum_list (f' <$> l) + f i ≤ sum_list (f <$> l).
Proof.
  intros Hnd Hi H0 Hle. induction Hnd as [|x l Hx Hnd IH]; [by apply elem_of_nil in Hi|].
  rewrite !sum_list_fmap_cons.
  assert (sum_list (f' <$> l) ≤ sum_list (f <$> l)) as Hl.
  { clear -Hle. induction l as [|y l IH]; [done|]. rewrite !sum_list_fmap_cons.
    specialize (Hle y). lia. }
  apply elem_of_cons in Hi as [->|Hi]; [lia|]. specialize (IH Hi). specialize (Hle x). lia.
Qed.

Lemma fmap_rev {A B} (f : A → B) l : f <$> rev l = rev (f <$> l).
Proof. induction l as [|x l IH]; [done|]. cbn [rev]. by rewrite fmap_app, IH. Qed.

Lemma seq_cons_0 m : seq 0 (S m) = 0 :: (S <$> seq 0 m).
Proof. cbn [seq]. by rewrite fmap_S_seq. Qed.

Section levels.
Context (steps : list ExecutionStep).

Abbreviation n := (length steps).

Definition lvl (st : Dfs) (i : nat) : option nat := mjoin (level_of st !! i).
Definition ons (st : Dfs) (i : nat) : bool := default false (on_stack st !! i).

(** Step [i] waits for step [d]. *)
Definition dep_edge (i d : nat) : Prop :=
  ∃ dep, dep ∈ plan_deps steps i ∧ by_name steps !! dep = Some d.

Definition plan_acyclic : Prop := ∀ i, ¬ tc dep_edge i i.

Lemma index_step_lt (m : gmap string nat) e k d :
  index_step m e !! k = Some d → m !! k = Some d ∨ d = e.1.
Proof.
  unfold index_step.
  assert (∀ outs (m' : gmap string nat),
    foldl (λ m output, <[output := e.1]> m) m' outs !! k = Some d → m' !! k = Some d ∨ d = e.1)
    as Hf.
  { intros outs. induction outs as [|o outs IH]; intros m'; simpl; [by left|].
    intros [Ho|]%IH; [|by right]. apply lookup_insert_Some in Ho as [[_ <-]|[_ ?]]; auto. }
  intros [Hm|]%Hf; [|by right]. apply lookup_insert_Some in Hm as [[_ <-]|[_ ?]]; auto.
Qed.

Lemma by_name_lt k d : by_name steps !! k = Some d → d < n.
Proof.
  unfold by_name.
  assert (∀ l (m : gmap string nat), foldl index_step m l !! k = Some d →
    m !! k = Some d ∨ d ∈ l.*1) as Hf.
  { intros l. induction l as [|e l IH]; intros m; simpl; [by left|].
    intros [Hm|]%IH; [|right; by right]. apply index_step_lt in Hm as [?| ->]; [by left|].
    right. left. }
  intros [Hm|Hd]%Hf; [by rewrite lookup_empty in Hm|].
  apply list_elem_of_fmap in Hd as ([j s] & -> & He). apply elem_of_lookup_imap in He.
  destruct He as (i & s' & [= -> ->] & Hi). by eapply lookup_lt_Some.
Qed.

Lemma dep_edge_lt i d : dep_edge i d → d < n.
Proof. intros (dep & _ & Hd). by eapply by_name_lt. Qed.

(** ** Shape of the state *)
Record Shape (st : Dfs) : Prop := {
  sh_level : length (level_of st) = n;
  sh_on : length (on_stack st) = n;
  sh_stack : Forall (λ e, e.1 < n) (dfs_stack st);
}.

Lemma elem_of_deps_to_visit lo os i d :
  d ∈ deps_to_visit steps lo os i ↔
  dep_edge i d ∧ mjoin (lo !! d) = None ∧ default false (os !! d) = false.
Proof.
  unfold deps_to_visit. rewrite list_elem_of_omap. split.
  - intros (dep & Hdep & Hd). destruct (by_name steps !! dep) as [d'|] eqn:E; [|done].
    simpl in Hd. case_bool_decide as Hn; simpl in Hd; [|done].
    destruct (default false (os !! d')) eqn:Eo; simpl in Hd; [done|].
    injection Hd as ->. split; [by exists dep|done].
  - intros ((dep & Hdep & Hb) & Hn & Ho). exists dep. split; [done|]. rewrite Hb. simpl.
    by rewrite bool_decide_eq_true_2, Ho.
Qed.

Lemma dfs_step_shape i b st :
  Shape st → i < n → Shape (dfs_step steps i b st).
Proof.
  intros [H1 H2 H3] Hi. unfold dfs_step. destruct b.
  { split; simpl; [by rewrite length_insert..|done]. }
  destruct (_ || _); [done|]. split; simpl; [done|by rewrite length_insert|].
  apply Forall_app. split; [|by constructor]. apply Forall_rev, Forall_fmap, Forall_forall.
  intros d (Hd & _)%elem_of_deps_to_visit. simpl. by eapply dep_edge_lt.
Qed.

(** ** The work left: a pop per entry, and the entries of the steps not yet reached *)
Definition fresh (st : Dfs) (i : nat) : bool :=
  bool_decide (lvl st i = None) && negb (ons st i).

Definition weight (st : Dfs) (i : nat) : nat :=
  if fresh st i then S (length (plan_deps steps i)) else 0.

Definition work (st : Dfs) : nat :=
  length (dfs_stack st) + sum_list (weight st <$> seq 0 n).

Lemma length_deps_to_visit lo os i :
  length (deps_to_visit steps lo os i) ≤ length (plan_deps steps i).
Proof.
  unfold deps_to_visit. induction (plan_deps steps i) as [|d l IH]; [done|].
  cbn [omap list_omap]. destruct (_ ≫= _); simpl; lia.
Qed.

Lemma weight_same_le st st' :
  (∀ i, fresh st' i = true → fresh st i = true) → ∀ i, weight st' i ≤ weight st i.
Proof.
  intros Hf i. unfold weight. specialize (Hf i). destruct (fresh st' i); [|lia].
  by rewrite Hf.
Qed.

Lemma sum_weight_le st st' :
  (∀ i, fresh st' i = true → fresh st i = true) →
  sum_list (weight st' <$> seq 0 n) ≤ sum_list (weight st <$> seq 0 n).
Proof.
  intros Hf. induction (seq 0 n) as [|x l IH]; [done|]. rewrite !sum_list_fmap_cons.
  apply Nat.add_le_mono; [by apply weight_same_le|done].
Qed.

Lemma mjoin_insert_ne (lo : list (option nat)) i j v :
  i ≠ j → mjoin (<[i := v]> lo !! j) = mjoin (lo !! j).
Proof. intros. by rewrite list_lookup_insert_ne. Qed.

Lemma dfs_step_work i b lo os stack :
  let st := mkDfs lo os stack in
  Shape st → i < n → S (work (dfs_step steps i b st)) ≤ work (mkDfs lo os ((i, b) :: stack)).
Proof.
  intros st [H1 H2 H3] Hi. unfold work at 2. cbn [dfs_stack length].
  change (weight (mkDfs lo os ((i, b) :: stack))) with (weight st).
  unfold dfs_step. destruct b.
  - unfold work. cbn [dfs_stack]. apply le_n_S, Nat.add_le_mono_l, sum_weight_le.
    intros j. unfold fresh, lvl, ons. cbn [level_of on_stack st].
    destruct (decide (i = j)) as [<-|Hne].
    + by rewrite list_lookup_insert_eq by (simpl in H1; lia).
    + by rewrite !list_lookup_insert_ne.
  - destruct (_ || _) eqn:E; [done|]. apply orb_false_iff in E as [E1 E2].
    apply bool_decide_eq_false in E1. cbn [level_of on_stack st] in *.
    set (st' := mkDfs _ _ _). unfold work. unfold st' at 1. cbn [dfs_stack].
    rewrite length_app, length_rev, length_fmap. cbn [length].
    pose proof (length_deps_to_visit lo (<[i:=true]> os) i) as Hd.
    assert (sum_list (weight st' <$> seq 0 n) + weight st i ≤ sum_list (weight st <$> seq 0 n)) as Hsum.
    { apply sum_list_drop; [apply NoDup_seq|apply elem_of_seq; lia| |].
      - unfold weight, fresh, ons, st'. cbn [on_stack].
        rewrite list_lookup_insert_eq by (simpl in H2; lia). by rewrite andb_false_r.
      - apply weight_same_le. intros j. unfold fresh, lvl, ons, st'. cbn [level_of on_stack st].
        destruct (decide (i = j)) as [<-|Hne]; [|by rewrite list_lookup_insert_ne].
        rewrite list_lookup_insert_eq by (simpl in H2; lia). by rewrite andb_false_r. }
    assert (weight st i = S (length (plan_deps steps i))) as Hw.
    { unfold weight, fresh, lvl, ons. cbn [level_of on_stack st]. rewrite E2.
      rewrite bool_decide_eq_true_2; [done|]. by apply eq_None_not_Some. }
    change (dfs_stack st) with stack. rewrite Hw in Hsum. revert Hsum.
    generalize (sum_list (weight st' <$> seq 0 n)) (sum_list (weight st <$> seq 0 n)). lia.
Qed.

Lemma dfs_loop_total fuel st :
  Shape st → work st ≤ fuel → ∃ st', dfs_loop steps fuel st = Some st'.
Proof.
  revert st. induction fuel as [|fuel IH]; intros [lo os stack] Hs Hw.
  - destruct stack as [|[i b] stack]; [by eexists|]. unfold work in Hw. simpl in Hw. lia.
  - destruct stack as [|[i b] stack]; [by eexists|]. simpl.
    destruct Hs as [H1 H2 H3]. cbn [dfs_stack] in H3. apply Forall_cons in H3 as [Hi H3].
    assert (Shape (mkDfs lo os stack)) as Hs by by split.
    apply IH; [by apply dfs_step_shape|].
    pose proof (dfs_step_work i b lo os stack Hs Hi) as Hd. lia.
Qed.

Lemma visit_root_Some st root :
  visit_root steps (Some st) root =
  if bool_decide (is_Some (mjoin (level_of st !! root))) then Some st
  else dfs_loop steps (dfs_fuel steps) (mkDfs (level_of st) (on_stack st) [(root, false)]).
Proof. done. Qed.

Lemma work_initial lo os k : work (mkDfs lo os [(k, false)]) ≤ dfs_fuel steps.
Proof.
  unfold work, dfs_fuel. cbn [dfs_stack length]. apply le_n_S. set (st := mkDfs _ _ _).
  transitivity (sum_list ((λ i, S (length (plan_deps steps i))) <$> seq 0 n)).
  { induction (seq 0 n) as [|x l IH]; [done|]. rewrite !sum_list_fmap_cons.
    apply Nat.add_le_mono; [|done]. unfold weight. destruct (fresh st x); lia. }
  apply Nat.eq_le_incl. unfold plan_deps. clear st lo os k.
  induction steps as [|s l IH]; [done|]. rewrite sum_list_fmap_cons. cbn [length].
  rewrite seq_cons_0. rewrite sum_list_fmap_cons, <-list_fmap_compose.
  change (sum_list ((_ ∘ S) <$> seq 0 (length l)))
    with (sum_list ((λ i, S (length (from_option st_plan_dependencies [] (l !! i))))
                      <$> seq 0 (length l))).
  rewrite IH. simpl. lia.
Qed.

Lemma dfs_loop_shape fuel st st' :
  Shape st → dfs_loop steps fuel st = Some st' → Shape st' ∧ dfs_stack st' = [].
Proof.
  revert st. induction fuel as [|fuel IH]; intros [lo os [|[i b] stack]] Hs; simpl.
  1,3: by intros [= <-]. { done. }
  destruct Hs as [H1 H2 H3]. cbn [dfs_stack] in H3. apply Forall_cons in H3 as [Hi H3].
  apply IH, dfs_step_shape; [by split|done].
Qed.

(** ** Acyclic plans *)
Section acyclic.
Context (Hac : plan_acyclic).

(** Read from the top: what is above an entry waiting to settle are steps it
    depends on, and each of its dependencies is settled or above it. *)
Fixpoint stack_ok (S : nat → Prop) (above : list nat) (stack : list (nat * bool)) : Prop :=
  match stack with
  | [] => True
  | (p, b) :: rest =>
      (b = true → (∀ e, e ∈ above → tc dep_edge p e) ∧
                  (∀ d, dep_edge p d → S d ∨ d ∈ above)) ∧
      stack_ok S (p :: above) rest
  end.

Lemma stack_ok_mono (S S' : nat → Prop) ab ab' stack :
  (∀ p, (∀ e, e ∈ ab → tc dep_edge p e) → ∀ e, e ∈ ab' → tc dep_edge p e) →
  (∀ d, d ∈ ab → S' d ∨ d ∈ ab') → (∀ d, S d → S' d) →
  stack_ok S ab stack → stack_ok S' ab' stack.
Proof.
  intros Htc Hab HS. revert ab ab' Htc Hab.
  induction stack as [|[p b] stack IH]; intros ab ab' Htc Hab; simpl; [done|].
  intros [Hp Hst]. split.
  - intros Hb. destruct (Hp Hb) as [H1 H2]. split; [by apply Htc|].
    intros d [Hd|Hd]%H2; [left; auto|auto].
  - eapply IH, Hst; set_solver.
Qed.

Lemma stack_ok_push S ab ds stack :
  stack_ok S ab (((λ d, (d, false)) <$> ds) ++ stack) ↔ stack_ok S (rev ds ++ ab) stack.
Proof.
  revert ab. induction ds as [|d ds IH]; intros ab; simpl; [done|].
  rewrite IH, <-app_assoc. naive_solver.
Qed.

Lemma stack_ok_above S ab stack p e :
  stack_ok S ab stack → (p, true) ∈ stack → e ∈ ab → tc dep_edge p e.
Proof.
  revert ab. induction stack as [|[q b] stack IH]; intros ab; simpl;
    [by intros _ ?%elem_of_nil|].
  intros [Hq Hst] [[= <- <-]|Hp]%elem_of_cons He; [by apply Hq|].
  eapply IH; [exact Hst|done|]. by right.
Qed.

Definition settled (st : Dfs) (i : nat) : Prop := is_Some (lvl st i).

Record Inv (st : Dfs) : Prop := {
  inv_on : ∀ i, ons st i = true → (i, true) ∈ dfs_stack st;
  inv_level : ∀ i v, lvl st i = Some v →
    v = settled_level steps (level_of st) i ∧ ∀ d, dep_edge i d → settled st d;
  inv_stack : stack_ok (settled st) [] (dfs_stack st);
}.

Lemma settled_level_ext lo lo' i :
  (∀ d, dep_edge i d → mjoin (lo !! d) = mjoin (lo' !! d)) →
  settled_level steps lo i = settled_level steps lo' i.
Proof.
  intros Hd. unfold settled_level. f_equal. apply list_fmap_ext. intros k dep Hk.
  destruct (by_name steps !! dep) as [d|] eqn:E; [|done]. simpl. rewrite Hd; [done|].
  exists dep. split; [by eapply list_elem_of_lookup_2|done].
Qed.

Lemma inv_settle i lo os stack :
  Shape (mkDfs lo os stack) → i < n → Inv (mkDfs lo os ((i, true) :: stack)) →
  Inv (dfs_step steps i true (mkDfs lo os stack)) ∧
  (∀ j, settled (mkDfs lo os stack) j → settled (dfs_step steps i true (mkDfs lo os stack)) j) ∧
  settled (dfs_step steps i true (mkDfs lo os stack)) i.
Proof.
  intros [H1 H2 _] Hi [Hon Hlev [Hp Hst]]. cbn [level_of on_stack dfs_stack] in *.
  destruct (Hp eq_refl) as [_ Hdeps]. set (v := settled_level steps lo i).
  set (st' := dfs_step _ _ _ _).
  assert (∀ j, lvl st' j = if decide (j = i) then Some v else mjoin (lo !! j)) as Hl.
  { intros j. unfold lvl, st', dfs_step. cbn [level_of]. case_decide as E.
    - subst j. rewrite list_lookup_insert_eq by lia. done.
    - by rewrite mjoin_insert_ne. }
  assert (∀ j, settled (mkDfs lo os stack) j → settled st' j) as Hmono.
  { intros j [w Hj]. unfold settled. rewrite Hl. case_decide; [by eexists|by exists w]. }
  assert (∀ d, dep_edge i d → settled (mkDfs lo os stack) d) as Hds.
  { intros d Hd. by destruct (Hdeps d Hd) as [?|?%elem_of_nil]. }
  assert (∀ d, mjoin (lo !! d) = lvl st' d ∨ (d = i ∧ mjoin (lo !! d) = None)) as Hsame.
  { intros d. rewrite Hl. case_decide as E; [subst d|by left].
    destruct (mjoin (lo !! i)) as [w|] eqn:Ei; [|by right].
    left. by destruct (Hlev i w Ei) as [-> _]. }
  split_and!; [|done|unfold settled; rewrite Hl, decide_True by done; by eexists].
  split.
  - intros j Hj. unfold ons, st', dfs_step in Hj. cbn [on_stack] in Hj.
    destruct (decide (i = j)) as [<-|Hne].
    { rewrite list_lookup_insert_eq in Hj by lia. done. }
    rewrite list_lookup_insert_ne in Hj by done. apply Hon in Hj.
    apply elem_of_cons in Hj as [[= ->]|Hj]; [done|exact Hj].
  - assert (∀ j, (∀ d, dep_edge j d → settled (mkDfs lo os stack) d) →
      settled_level steps lo j = settled_level steps (level_of st') j) as Hext.
    { intros j Hj. apply settled_level_ext. intros d Hd.
      destruct (Hsame d) as [->|[-> Hn]]; [done|]. apply Hj in Hd as [w Hw].
      unfold lvl in Hw. cbn [level_of] in Hw. congruence. }
    intros j w Hj. rewrite Hl in Hj. case_decide as E.
    + injection Hj as <-. subst j. split; [by apply Hext|].
      intros d Hd. exact (Hmono _ (Hds _ Hd)).
    + destruct (Hlev j w Hj) as [-> Hsd]. split; [by apply Hext|].
      intros d Hd. exact (Hmono _ (Hsd _ Hd)).
  - eapply stack_ok_mono; [| | |exact Hst].
    + intros p _ e ?%elem_of_nil. done.
    + intros d ->%list_elem_of_singleton. left. unfold settled.
      rewrite Hl, decide_True by done. by eexists.
    + exact Hmono.
Qed.

Lemma inv_visit i lo os stack :
  Shape (mkDfs lo os stack) → i < n → Inv (mkDfs lo os ((i, false) :: stack)) →
  let st' := dfs_step steps i false (mkDfs lo os stack) in
  Inv st' ∧ level_of st' = lo ∧ (settled st' i ∨ (i, true) ∈ dfs_stack st').
Proof.
  intros [H1 H2 _] Hi [Hon Hlev [_ Hst]]. cbv zeta. cbn [level_of on_stack dfs_stack] in *.
  assert (∀ j, ons (mkDfs lo os stack) j = true → (j, true) ∈ stack) as Hon'.
  { intros j Hj%Hon. apply elem_of_cons in Hj as [[=]|?]; done. }
  unfold dfs_step. cbn [level_of on_stack dfs_stack].
  destruct (bool_decide_reflect (is_Some (mjoin (lo !! i)))) as [Hs|Hns]; simpl.
  { split_and!; [|done|by left]. split; [done|done|].
    eapply stack_ok_mono; [| | |exact Hst]; [set_solver| |done].
    intros d ->%list_elem_of_singleton. by left. }
  destruct (default false (os !! i)) eqn:Eo.
  { exfalso. apply (Hac i). eapply stack_ok_above; [exact Hst|by apply Hon'|left]. }
  split_and!; [|done|right; apply elem_of_app; right; left]. split.
  - intros j Hj. unfold ons in Hj. cbn [on_stack dfs_stack] in *. apply elem_of_app. right.
    destruct (decide (i = j)) as [<-|Hne]; [left|right].
    apply Hon'. unfold ons. cbn [on_stack]. by rewrite list_lookup_insert_ne in Hj.
  - exact Hlev.
  - cbn [dfs_stack]. rewrite <-fmap_rev, stack_ok_push, rev_involutive, app_nil_r.
    set (ds := deps_to_visit _ _ _ _). split.
    + intros _. split; [by intros e (He & _)%elem_of_deps_to_visit; apply tc_once|].
      intros d Hd. unfold settled, lvl. cbn [level_of].
      destruct (mjoin (lo !! d)) eqn:El; [left; by eexists|]. right.
      apply elem_of_deps_to_visit. split_and!; [done..|].
      destruct (decide (i = d)) as [<-|Hne]; [by destruct (Hac i); apply tc_once|].
      rewrite list_lookup_insert_ne by done. apply not_true_iff_false. intros Ht.
      apply (Hac d). eapply tc_r; [|exact Hd].
      eapply stack_ok_above; [exact Hst|by apply Hon'|left].
    + eapply stack_ok_mono; [| | |exact Hst].
      * intros p Hp e [->|(He & _)%elem_of_deps_to_visit]%elem_of_cons; [apply Hp; left|].
        eapply tc_r; [|exact He]. apply Hp. left.
      * intros d ->%list_elem_of_singleton. right. left.
      * done.
Qed.

Lemma dfs_loop_inv fuel st st' :
  Shape st → Inv st → dfs_loop steps fuel st = Some st' →
  Inv st' ∧ (∀ j, settled st j ∨ j ∈ (dfs_stack st).*1 → settled st' j).
Proof.
  revert st. induction fuel as [|fuel IH]; intros [lo os [|[i b] stack]] Hs Hinv; simpl.
  1,3: intros [= <-]; split; [done|]; by intros j [?|?%elem_of_nil]. { done. }
  destruct Hs as [H1 H2 H3]. cbn [dfs_stack] in H3. apply Forall_cons in H3 as [Hi H3].
  assert (Shape (mkDfs lo os stack)) as Hs by by split.
  intros Hl. pose proof (dfs_step_shape i b _ Hs Hi) as Hs'.
  assert (∀ j, settled (mkDfs lo os stack) j ∨ j ∈ i :: stack.*1 →
    settled (dfs_step steps i b (mkDfs lo os stack)) j ∨
    j ∈ (dfs_stack (dfs_step steps i b (mkDfs lo os stack))).*1) as Hmove.
  { destruct b.
    - destruct (inv_settle i lo os stack Hs Hi Hinv) as (_ & Hm & Hsi).
      intros j [?|[->|?]%elem_of_cons]; [left; auto|by left|by right].
    - destruct (inv_visit i lo os stack Hs Hi Hinv) as (_ & Hlo & Hor).
      intros j [Hj|[->|Hj]%elem_of_cons].
      + left. unfold settled, lvl. by rewrite Hlo.
      + destruct Hor as [?|Hor]; [by left|]. right. by apply (list_elem_of_fmap_2 fst) in Hor.
      + unfold dfs_step. destruct (_ || _); [by right|]. right. cbn [dfs_stack].
        rewrite fmap_app, fmap_cons. set_solver. }
  destruct (IH _ Hs') as [Hinv' Hfin]; [|exact Hl|].
  - destruct b; [by apply inv_settle|by apply inv_visit].
  - split; [done|]. intros j Hj. apply Hfin, Hmove, Hj.
Qed.

Lemma roots_inv k :
  k ≤ n →
  ∃ st, foldl (visit_root steps)
          (Some (mkDfs (replicate n None) (replicate n false) [])) (seq 0 k) = Some st ∧
    Shape st ∧ Inv st ∧ dfs_stack st = [] ∧ ∀ j, j < k → settled st j.
Proof.
  induction k as [|k IH]; intros Hk.
  - eexists. split; [done|]. split_and!; [split|split|done|lia]; simpl.
    + by rewrite length_replicate.
    + by rewrite length_replicate.
    + done.
    + unfold ons. simpl. intros i. destruct (replicate n false !! i) as [b|] eqn:E; [|done].
      apply lookup_replicate in E as [-> _]. done.
    + unfold lvl. simpl. intros i v. destruct (replicate n None !! i) as [b|] eqn:E; [|done].
      apply lookup_replicate in E as [-> _]. done.
    + done.
  - destruct IH as (st & Hf & Hs & Hinv & Hst & Hset); [lia|].
    rewrite seq_S, foldl_app, Hf. cbn [foldl]. rewrite Nat.add_0_l, visit_root_Some.
    case_bool_decide as Hb.
    + exists st. split_and!; [done..|]. intros j Hj.
      destruct (decide (j = k)) as [->|]; [done|]. apply Hset. lia.
    + set (st0 := mkDfs (level_of st) (on_stack st) [(k, false)]).
      assert (Shape st0) as Hs0.
      { destruct Hs as [H1 H2 H3]. split; [done..|]. repeat constructor. simpl. lia. }
      assert (Inv st0) as Hinv0.
      { destruct Hinv as [Hon Hlev _]. split; [|done|done]. intros i Hi.
        apply Hon in Hi. rewrite Hst in Hi. by apply elem_of_nil in Hi. }
      destruct (dfs_loop_total (dfs_fuel steps) st0 Hs0) as [st' Hl].
      { apply work_initial. }
      destruct (dfs_loop_shape _ _ _ Hs0 Hl) as [Hs' Hst'].
      destruct (dfs_loop_inv _ _ _ Hs0 Hinv0 Hl) as [Hinv' Hfin].
      exists st'. split_and!; [exact Hl|exact Hs'|exact Hinv'|exact Hst'|].
      intros j Hj. apply Hfin.
      destruct (decide (j = k)) as [->|]; [right; left|left]. apply Hset. lia.
Qed.

(** Each level is one more than the highest level below it. *)
Lemma levels_of_acyclic :
  ∃ lo, levels_of steps = Some lo ∧ length lo = n ∧
    ∀ i, i < n → lo !! i = Some (Some (settled_level steps lo i)).
Proof.
  destruct (roots_inv n) as (st & Hf & [H1 _ _] & [_ Hlev _] & _ & Hset); [done|].
  exists (level_of st). unfold levels_of. rewrite Hf. split_and!; [done..|].
  intros i Hi. destruct (Hset i Hi) as [v Hv]. pose proof (Hlev i v Hv) as [-> _].
  unfold lvl in Hv. destruct (level_of st !! i) as [w|]; [|done]. simpl in Hv. by rewrite Hv.
Qed.
End acyclic.
End levels.

(** ** Collecting the levels *)
Section collect.
Definition collect_levels (lo : list (option nat)) : list (list nat) :=
  foldl push_level [] (imap pair lo).

Lemma collect_levels_snoc lo v :
  collect_levels (lo ++ [v]) = push_level (collect_levels lo) (length lo, v).
Proof.
  unfold collect_levels. rewrite imap_app, foldl_app. simpl. by rewrite Nat.add_0_r.
Qed.

(** Step [i] is in level [l]. *)
Definition at_level (L : list (list nat)) (l i : nat) : Prop := i ∈ default [] (L !! l).

Lemma lookup_pad (L : list (list nat)) k m :
  default [] ((L ++ replicate k []) !! m) = default [] (L !! m).
Proof.
  destruct (decide (m < length L)) as [Hm|Hm]; [by rewrite lookup_app_l|].
  rewrite lookup_app_r, (lookup_ge_None_2 L) by lia.
  destruct (replicate k [] !! (m - length L)) as [x|] eqn:E; [|done].
  apply lookup_replicate in E as [-> _]. done.
Qed.

Lemma at_level_push L e l i :
  at_level (push_level L e) l i ↔ at_level L l i ∨ (i = e.1 ∧ l = default 0 e.2).
Proof.
  unfold at_level, push_level. set (m := default 0 e.2). set (L' := L ++ _).
  assert (m < length L') as Hm.
  { unfold L'. rewrite length_app, length_replicate. lia. }
  rewrite <-(lookup_pad L (S m - length L) l). fold L'.
  destruct (decide (l = m)) as [->|Hne].
  - rewrite list_lookup_alter_eq. destruct (lookup_lt_is_Some_2 L' m Hm) as [x ->]. simpl.
    rewrite elem_of_app, list_elem_of_singleton. naive_solver.
  - rewrite list_lookup_alter_ne by done. naive_solver.
Qed.

Lemma at_level_collect lo l i :
  at_level (collect_levels lo) l i ↔ ∃ v, lo !! i = Some v ∧ default 0 v = l.
Proof.
  induction lo as [|v lo IH] using rev_ind.
  { split; [by intros ?%elem_of_nil|]. intros (v & Hv & _). by rewrite lookup_nil in Hv. }
  rewrite collect_levels_snoc, at_level_push, IH. simpl. split.
  - intros [(w & Hw & <-)|[-> ->]].
    + exists w. split; [|done]. by apply lookup_app_l_Some.
    + exists v. split; [|done]. by rewrite list_lookup_middle.
  - intros (w & Hw & <-). apply lookup_app_Some in Hw as [Hw|[Hl Hw]]; [by left; exists w|].
    apply list_lookup_singleton_Some in Hw as [Hi <-]. right. split; [lia|done].
Qed.

Lemma concat_alter (L : list (list nat)) m i :
  m < length L → mjoin (alter (λ l, l ++ [i]) m L) ≡ₚ i :: mjoin L.
Proof.
  revert m. induction L as [|x L IH]; intros [|m] Hm; simpl in Hm; try lia.
  - change (mjoin (alter (λ l, l ++ [i]) 0 (x :: L))) with ((x ++ [i]) ++ mjoin L).
    change (mjoin (x :: L)) with (x ++ mjoin L). rewrite <-app_assoc. simpl.
    by rewrite <-Permutation_middle.
  - change (mjoin (alter (λ l, l ++ [i]) (S m) (x :: L)))
      with (x ++ mjoin (alter (λ l, l ++ [i]) m L)).
    change (mjoin (x :: L)) with (x ++ mjoin L). rewrite IH by lia.
    by rewrite Permutation_middle.
Qed.

Lemma concat_pad (L : list (list nat)) k : mjoin (L ++ replicate k []) = mjoin L.
Proof.
  rewrite join_app. assert (mjoin (replicate k ([] : list nat)) = []) as ->.
  { induction k; [done|exact IHk]. } apply app_nil_r.
Qed.

Lemma collect_levels_perm lo : mjoin (collect_levels lo) ≡ₚ seq 0 (length lo).
Proof.
  induction lo as [|v lo IH] using rev_ind; [done|].
  rewrite collect_levels_snoc, length_app, Nat.add_1_r, seq_S. unfold push_level.
  rewrite concat_alter, concat_pad, IH by (rewrite length_app, length_replicate; simpl; lia).
  simpl. by rewrite Permutation_cons_append.
Qed.
End collect.

Section theorems.
Context (p : ExecutionPlan).

Abbreviation steps := (ep_steps p).

Lemma roots_total k :
  k ≤ length steps →
  ∃ st, foldl (visit_root steps)
          (Some (mkDfs (replicate (length steps) None) (replicate (length steps) false) []))
          (seq 0 k) = Some st ∧ Shape steps st.
Proof.
  induction k as [|k IH]; intros Hk.
  - eexists. split; [done|]. by split; simpl; rewrite ?length_replicate.
  - destruct IH as (st & Hf & Hs); [lia|]. rewrite seq_S, foldl_app, Hf. cbn [foldl].
    rewrite Nat.add_0_l, visit_root_Some. case_bool_decide; [by exists st|].
    set (st0 := mkDfs (level_of st) (on_stack st) [(k, false)]).
    assert (Shape steps st0) as Hs0.
    { destruct Hs as [H1 H2 H3]. split; [done..|]. repeat constructor. simpl. lia. }
    destruct (dfs_loop_total steps (dfs_fuel steps) st0 Hs0 (work_initial _ _ _ _)) as [st' Hl].
    exists st'. split; [exact Hl|]. by destruct (dfs_loop_shape _ _ _ _ Hs0 Hl).
Qed.

(** [group_steps_by_level] returns for every plan, malformed ones with unknown
    names, self references and cycles included, and puts each step in exactly one
    level. *)
Theorem group_steps_by_level_total :
  ∃ L, group_steps_by_level p = Some L ∧ mjoin L ≡ₚ seq 0 (length steps).
Proof.
  destruct (roots_total (length steps)) as (st & Hf & [H1 _ _]); [done|].
  unfold group_steps_by_level, levels_of. rewrite Hf. eexists. split; [done|].
  rewrite <-H1. apply (collect_levels_perm (level_of st)).
Qed.

Lemma settled_level_dep lo i d v :
  dep_edge steps i d → lo !! d = Some (Some v) → v < settled_level steps lo i.
Proof.
  intros (dep & Hdep & Hb) Hd. unfold settled_level.
  assert (v + 1 ≤ max_list ((λ dep, default 0 (d ← by_name steps !! dep; mjoin (lo !! d)) + 1)
    <$> plan_deps steps i)); [|lia].
  apply max_list_elem_of_le, list_elem_of_fmap. exists dep. split; [|done].
  rewrite Hb. simpl. by rewrite Hd.
Qed.

Lemma max_list_attained (l : list nat) m : max_list l = S m → S m ∈ l.
Proof.
  revert m. induction l as [|x l IH]; simpl; [done|]. intros m Hm.
  destruct (Nat.max_spec x (max_list l)) as [[_ E]|[_ E]]; rewrite E in Hm.
  - right. by apply IH.
  - subst x. left.
Qed.

Lemma settled_level_attained lo i m :
  settled_level steps lo i = S m →
  ∃ dep, dep ∈ plan_deps steps i ∧
    m = default 0 (d ← by_name steps !! dep; mjoin (lo !! d)).
Proof.
  intros Hm%max_list_attained. apply list_elem_of_fmap in Hm as (dep & He & Hdep).
  exists dep. split; [done|]. lia.
Qed.

Lemma levels_of_group :
  plan_acyclic steps →
  ∃ lo, group_steps_by_level p = Some (collect_levels lo) ∧ length lo = length steps ∧
    ∀ i, i < length steps → lo !! i = Some (Some (settled_level steps lo i)).
Proof.
  intros Hac. destruct (levels_of_acyclic steps Hac) as (lo & Hl & Hlen & Heq).
  exists lo. unfold group_steps_by_level. rewrite Hl. done.
Qed.

Lemma levels_acyclic :
  plan_acyclic steps →
  ∃ L, group_steps_by_level p = Some L ∧ mjoin L ≡ₚ seq 0 (length steps) ∧
    (∀ i, i < length steps ↔ ∃ l, at_level L l i) ∧
    (∀ l l' i d, at_level L l i → dep_edge steps i d → at_level L l' d → l' < l) ∧
    (∀ m i, at_level L (S m) i →
      (∃ d, dep_edge steps i d ∧ at_level L m d) ∨
      (m = 0 ∧ ∃ dep, dep ∈ plan_deps steps i ∧ by_name steps !! dep = None)).
Proof.
  intros Hac. destruct (levels_of_group Hac) as (lo & -> & Hlen & Heq).
  exists (collect_levels lo). split; [done|].
  split; [rewrite <-Hlen; apply collect_levels_perm|].
  assert (∀ l i, at_level (collect_levels lo) l i ↔
    i < length steps ∧ l = settled_level steps lo i) as Hat.
  { intros l i. rewrite at_level_collect. split.
    - intros (v & Hv & <-). pose proof (lookup_lt_Some _ _ _ Hv) as Hi. rewrite Hlen in Hi.
      split; [done|]. rewrite Heq in Hv by done. by injection Hv as <-.
    - intros [Hi ->]. eexists. split; [by apply Heq|done]. }
  setoid_rewrite Hat. split_and!.
  - intros i. naive_solver.
  - intros l l' i d [Hi ->] Hd [Hdl ->]. by eapply settled_level_dep, Heq.
  - intros m i [Hi Hm]. symmetry in Hm. apply settled_level_attained in Hm as (dep & Hdep & ->).
    destruct (by_name steps !! dep) as [d|] eqn:E; simpl.
    + left. exists d. pose proof (by_name_lt _ _ _ E) as Hd.
      split_and!; [by exists dep|done|]. by rewrite Heq.
    + right. split; [done|]. by exists dep.
Qed.

(** On a plan whose steps have no dependency cycle, each step is in a later
    level than every step it depends on, and no later than needed: a step past
    level 0 has a dependency in the level just before (or, in level 1, one that
    names no step). *)
Theorem group_steps_by_level_correct :
  plan_acyclic steps →
  ∃ L, group_steps_by_level p = Some L ∧
    (∀ i, i < length steps ↔ ∃ l, at_level L l i) ∧
    (∀ l l' i d, at_level L l i → dep_edge steps i d → at_level L l' d → l' < l) ∧
    (∀ m i, at_level L (S m) i →
      (∃ d, dep_edge steps i d ∧ at_level L m d) ∨
      (m = 0 ∧ ∃ dep, dep ∈ plan_deps steps i ∧ by_name steps !! dep = None)).
Proof.
  intros Hac. destruct (levels_acyclic Hac) as (L & H1 & _ & H2). by exists L.
Qed.
End theorems.
