(* ===== verification/PlanBuild.v ===== *)
(** Correctness of plan construction, and the loop of [from_subgraph]. *)

From S2P Require Import Prelude Worklist AssetGraph AssetGraphProps PetgraphRef GraphTheorems Composition ExecutionPlan PlanLevels.

(** * Correctness of plan construction

    [from_graph], [for_action] and [from_subgraph] build plans whose steps and
    dependencies are those of the graph; with [PlanLevels] this bounds when each step
    runs. *)

(** ** The names a plan can refer to a step by *)
Definition step_keys (s : ExecutionStep) : list string := st_name s :: st_outputs s.

Definition keys_unique (steps : list ExecutionStep) : Prop :=
  ∀ i j s s' k, steps !! i = Some s → steps !! j = Some s' →
    k ∈ step_keys s → k ∈ step_keys s' → i = j.

Lemma index_step_lookup (m : gmap string nat) i s k d :
  index_step m (i, s) !! k = Some d ↔
  (k ∈ step_keys s ∧ d = i) ∨ ((k ∉ step_keys s) ∧ m !! k = Some d).
Proof.
  unfold index_step, step_keys. simpl. setoid_rewrite elem_of_cons.
  assert (∀ outs (m' : gmap string nat),
    foldl (λ m output, <[output := i]> m) m' outs !! k = Some d ↔
    (k ∈ outs ∧ d = i) ∨ ((k ∉ outs) ∧ m' !! k = Some d)) as Hf.
  { induction outs as [|o outs IH]; intros m'; simpl; [set_solver|].
    rewrite IH, lookup_insert_Some.
    destruct (decide (k = o)), (decide (k ∈ outs)); set_solver. }
  rewrite Hf, lookup_insert_Some.
  destruct (decide (k = st_name s)), (decide (k ∈ st_outputs s)); set_solver.
Qed.

Lemma by_name_snoc l s : by_name (l ++ [s]) = index_step (by_name l) (length l, s).
Proof. unfold by_name. rewrite imap_app, foldl_app. simpl. by rewrite Nat.add_0_r. Qed.

Lemma by_name_spec steps k d :
  keys_unique steps →
  by_name steps !! k = Some d ↔ ∃ s, steps !! d = Some s ∧ k ∈ step_keys s.
Proof.
  induction steps as [|s l IH] using rev_ind; intros Hu.
  { split; [done|]. intros (s & Hs & _). by rewrite lookup_nil in Hs. }
  rewrite by_name_snoc, index_step_lookup, IH.
  2: { intros i j s1 s2 k' Hi Hj. apply (Hu i j); by apply lookup_app_l_Some. }
  split.
  - intros [[Hk ->]|[_ (s' & Hs' & Hk)]].
    + exists s. by rewrite list_lookup_middle.
    + exists s'. split; [by apply lookup_app_l_Some|done].
  - intros (s' & Hs' & Hk). destruct (decide (k ∈ step_keys s)) as [Hks|Hks].
    + left. split; [done|]. apply (Hu d (length l) s' s k); [done| |done..].
      by rewrite list_lookup_middle.
    + right. split; [done|]. exists s'. split; [|done].
      apply lookup_app_Some in Hs' as [|[_ Hs']]; [done|].
      apply list_lookup_singleton_Some in Hs' as [_ <-]. done.
Qed.

(** Steps without outputs are known by their names alone. *)
Lemma keys_unique_names steps :
  NoDup (st_name <$> steps) → Forall (λ s, st_outputs s = []) steps → keys_unique steps.
Proof.
  intros Hnd Ho i j s s' k Hi Hj. rewrite Forall_lookup in Ho.
  unfold step_keys. rewrite (Ho _ _ Hi), (Ho _ _ Hj).
  intros ->%list_elem_of_singleton Hk%list_elem_of_singleton.
  eapply NoDup_lookup; [exact Hnd|rewrite list_lookup_fmap, Hi; done|].
  by rewrite list_lookup_fmap, Hj, Hk.
Qed.

(** A plan whose dependencies follow an acyclic relation on names is acyclic. *)
Lemma plan_acyclic_by steps (R : string → string → Prop) :
  (∀ i d, dep_edge steps i d → ∃ s s', steps !! i = Some s ∧ steps !! d = Some s' ∧
     tc R (st_name s) (st_name s')) →
  (∀ a, ¬ tc R a a) → plan_acyclic steps.
Proof.
  intros Hd HR i Ht.
  assert (∀ i j, tc (dep_edge steps) i j → ∃ s s', steps !! i = Some s ∧ steps !! j = Some s' ∧
    tc R (st_name s) (st_name s')) as Htc.
  { clear i Ht. intros i j. induction 1 as [i j H|i j k H _ IH]; [by apply Hd|].
    apply Hd in H as (s & s' & Hs & Hs' & H1). destruct IH as (t & t' & Hk & Ht' & H2).
    exists s, t'. split_and!; [done..|]. assert (s' = t) as -> by congruence.
    by eapply tc_transitive. }
  apply Htc in Ht as (s & s' & Hs & Hs' & Ht). assert (s = s') as <- by congruence.
  by apply (HR (st_name s)).
Qed.

Section action.
Context `{Petgraph, !PetgraphLaws}.

Lemma elem_of_first_occurrences seen l t :
  t ∈ first_occurrences seen l ↔ t ∈ l ∧ t ∉ seen.
Proof.
  revert seen. induction l as [|x l IH]; intros seen; simpl; [set_solver|].
  case_bool_decide; rewrite ?elem_of_cons, IH; [set_solver|].
  destruct (decide (t = x)); set_solver.
Qed.

Lemma NoDup_first_occurrences seen l : NoDup (first_occurrences seen l).
Proof.
  revert seen. induction l as [|x l IH]; intros seen; simpl; [constructor|].
  case_bool_decide; [done|]. constructor; [|done].
  rewrite elem_of_first_occurrences. set_solver.
Qed.

(** What [ordering] makes target [a] wait for. *)
Definition waits_for (g : AssetGraph) (ordering : ActionOrdering) (a b : string) : Prop :=
  match ordering with
  | Unordered => False
  | UpstreamFirst => tc (depends g) a b
  | DownstreamFirst => tc (depends g) b a
  end.

Lemma elem_of_related g name d targets t :
  graph_wf g →
  t ∈ related_targets targets (traverse g name d) ↔ t ∈ targets ∧ dir_depends g d name t.
Proof.
  intros Hwf. unfold related_targets. rewrite list_elem_of_filter.
  destruct (traverse_spec g name d Hwf) as (R & -> & HR). simpl. rewrite HR. naive_solver.
Qed.

Lemma for_action_names g action targets ordering :
  st_name <$> ep_steps (for_action g action targets ordering) = first_occurrences ∅ targets.
Proof.
  unfold for_action. cbn [ep_steps]. rewrite <-list_fmap_compose.
  rewrite <-(list_fmap_id (first_occurrences ∅ targets)) at 2. by apply list_fmap_ext.
Qed.

Lemma for_action_deps g action targets ordering i s b :
  graph_wf g → ep_steps (for_action g action targets ordering) !! i = Some s →
  st_outputs s = [] ∧
  (b ∈ st_plan_dependencies s ↔ b ∈ targets ∧ waits_for g ordering (st_name s) b).
Proof.
  intros Hwf Hi. unfold for_action in Hi. cbn [ep_steps] in Hi.
  rewrite list_lookup_fmap in Hi. apply fmap_Some_1 in Hi as (t & Ht & ->). simpl.
  split; [done|]. destruct ordering; simpl.
  - split; [by intros ?%elem_of_nil|by intros []].
  - unfold ancestors. rewrite elem_of_related, elem_of_first_occurrences by done. set_solver.
  - unfold descendants. rewrite elem_of_related, elem_of_first_occurrences by done. set_solver.
Qed.

Lemma for_action_unique g action targets ordering :
  graph_wf g → keys_unique (ep_steps (for_action g action targets ordering)).
Proof.
  intros Hwf. apply keys_unique_names.
  - rewrite for_action_names. apply NoDup_first_occurrences.
  - apply Forall_lookup. intros i s Hi.
    by destruct (for_action_deps _ _ _ _ _ _ EmptyString Hwf Hi).
Qed.

Lemma for_action_dep_edge g action targets ordering i d :
  graph_wf g → let steps := ep_steps (for_action g action targets ordering) in
  dep_edge steps i d ↔ ∃ s s', steps !! i = Some s ∧ steps !! d = Some s' ∧
    waits_for g ordering (st_name s) (st_name s').
Proof.
  intros Hwf steps. pose proof (for_action_unique g action targets ordering Hwf) as Hu.
  unfold dep_edge, plan_deps. split.
  - intros (dep & Hdep & Hb). destruct (steps !! i) as [s|] eqn:Hi; [|by apply elem_of_nil in Hdep].
    simpl in Hdep. apply (for_action_deps g action targets ordering i s dep Hwf Hi) in Hdep as [_ Hw].
    apply by_name_spec in Hb as (s' & Hs' & Hk); [|done]. exists s, s'. split_and!; [done..|].
    unfold step_keys in Hk. destruct (for_action_deps g action targets ordering d s' dep Hwf Hs') as [Ho _].
    rewrite Ho in Hk. by apply list_elem_of_singleton in Hk as <-.
  - intros (s & s' & Hs & Hs' & Hw). exists (st_name s'). rewrite Hs. simpl. split.
    + apply (for_action_deps g action targets ordering i s _ Hwf Hs). split; [|done].
      apply (list_elem_of_lookup_2 steps), (list_elem_of_fmap_2 st_name) in Hs'.
      unfold steps in Hs'. rewrite for_action_names in Hs'.
      by apply elem_of_first_occurrences in Hs' as [? _].
    + apply by_name_spec; [done|]. exists s'. split; [done|left].
Qed.

Lemma for_action_acyclic g action targets ordering :
  graph_wf g → acyclic g → plan_acyclic (ep_steps (for_action g action targets ordering)).
Proof.
  intros Hwf Ha. apply (plan_acyclic_by _ (waits_for g ordering)).
  - intros i d (s & s' & ? & ? & ?)%for_action_dep_edge; [|done]. exists s, s'.
    split_and!; [done..|]. by apply tc_once.
  - intros a Ht. pose proof (proj1 (acyclic_depends g Hwf) Ha a) as Hna.
    assert (∀ x y, tc (waits_for g ordering) x y → waits_for g ordering x y) as Htr.
    { intros x y. induction 1 as [|x y z Hxy _ IH]; [done|].
      destruct ordering; simpl in *; [done|by eapply tc_transitive..]. }
    apply Htr in Ht. by destruct ordering.
Qed.

(** An action plan has one step per distinct target and nothing else, and in
    the levels it is run by, a target waits for exactly the related targets its
    ordering names: with [UpstreamFirst] every target runs in a later level than
    the targets it depends on, directly or not; with [DownstreamFirst] in an
    earlier one; with [Unordered] all run in level 0. *)
Theorem for_action_order g action targets ordering :
  graph_wf g → acyclic g →
  let p := for_action g action targets ordering in
  verb p = Some action ∧ NoDup (st_name <$> ep_steps p) ∧
  (∀ t, t ∈ st_name <$> ep_steps p ↔ t ∈ targets) ∧
  ∃ L, group_steps_by_level p = Some L ∧ mjoin L ≡ₚ seq 0 (length (ep_steps p)) ∧
    ∀ i j s t l l', ep_steps p !! i = Some s → ep_steps p !! j = Some t →
      at_level L l i → at_level L l' j →
      match ordering with
      | Unordered => l = 0
      | UpstreamFirst => tc (depends g) (st_name s) (st_name t) → l' < l
      | DownstreamFirst => tc (depends g) (st_name s) (st_name t) → l < l'
      end.
Proof.
  intros Hwf Ha p. pose proof (for_action_acyclic g action targets ordering Hwf Ha) as Hac.
  unfold p in *. rewrite for_action_names. split_and!; [done|apply NoDup_first_occurrences| |].
  { intros t. rewrite elem_of_first_occurrences. set_solver. }
  destruct (levels_acyclic _ Hac) as (L & HL & Hperm & _ & Hlt & Htight).
  exists L. split_and!; [done..|]. intros i j s t l l' Hi Hj Hl Hl'. destruct ordering.
  - destruct l as [|m]; [done|]. exfalso. apply Htight in Hl as [(d & Hd & _)|(_ & dep & Hdep & _)].
    + by apply for_action_dep_edge in Hd as (? & ? & _ & _ & []).
    + unfold plan_deps in Hdep. rewrite Hi in Hdep. simpl in Hdep.
      by apply (for_action_deps _ _ _ _ _ _ _ Hwf Hi) in Hdep as [_ []].
  - intros Hd. eapply Hlt; [exact Hl| |exact Hl']. apply for_action_dep_edge; [done|].
    by exists s, t.
  - intros Hd. eapply Hlt; [exact Hl'| |exact Hl]. apply for_action_dep_edge; [done|].
    by exists t, s.
Qed.
End action.

(** * The plan of a selection: the loop of [from_subgraph]

    The invariant of the loop over the reversed topological order. It relates the steps
    built so far, the groups and the rewrite map to the assets processed. *)

Lemma bind_app_list {A B} (f : A → list B) l k : (l ++ k) ≫= f = (l ≫= f) ++ (k ≫= f).
Proof. apply bind_app. Qed.

Lemma bind_singleton_list {A B} (f : A → list B) x : [x] ≫= f = f x.
Proof. simpl. apply app_nil_r. Qed.

(** In a duplicate-free [flat_map] an element tells its source position. *)
Lemma NoDup_bind_pos {A B} (f : A → list B) l i j s s' x :
  NoDup (l ≫= f) → l !! i = Some s → l !! j = Some s' → x ∈ f s → x ∈ f s' → i = j.
Proof.
  revert i j. induction l as [|y l IH]; intros i j; [done|].
  rewrite bind_cons, NoDup_app. intros (_ & Hd & Hnd) Hi Hj Hx Hx'.
  assert (∀ k t, l !! k = Some t → x ∈ f t → x ∈ l ≫= f) as Hin.
  { intros k t Hk Ht. apply list_elem_of_bind. exists t. split; [done|].
    by eapply list_elem_of_lookup_2. }
  destruct i as [|i], j as [|j]; simpl in Hi, Hj; simplify_eq; [done| | |].
  - by destruct (Hd x Hx (Hin _ _ Hj Hx')).
  - by destruct (Hd x Hx' (Hin _ _ Hi Hx)).
  - f_equal. by eapply IH.
Qed.

Lemma bind_alter_perm {A B} (f : A → list B) (h : A → A) l j s x :
  l !! j = Some s → f (h s) = f s ++ [x] → alter h j l ≫= f ≡ₚ x :: (l ≫= f).
Proof.
  intros Hj Hf. revert j Hj. induction l as [|y l IH]; intros [|j] Hj; simpl in Hj; try done.
  - injection Hj as ->. change (alter h 0 (s :: l)) with (h s :: l).
    rewrite !bind_cons, Hf, <-app_assoc. simpl. by rewrite Permutation_middle.
  - change (alter h (S j) (y :: l)) with (y :: alter h j l).
    rewrite !bind_cons, (IH j Hj). by rewrite Permutation_middle.
Qed.

Section build.
Context `{Petgraph, !PetgraphLaws, !HashIter string}.
Context (g : AssetGraph) (Hwf : graph_wf g).
Context (asset_names : gset string) (groups : gmap string string).

(** [d] is the name of the step that produces asset [b]. *)
Definition owner (steps : list ExecutionStep) (b d : string) : Prop :=
  ∃ s, s ∈ steps ∧ b ∈ event_names s ∧ st_name s = d.

Record BuildInv (processed : list string) (b : Build) : Prop := {
  bi_names : b_steps b ≫= event_names ≡ₚ filter (λ n, n ∈ asset_names) processed;
  bi_name : ∀ s, s ∈ b_steps b → st_name s ∈ event_names s;
  bi_owner : ∀ n, n ∈ processed → n ∈ asset_names →
    owner (b_steps b) n (default n (b_output_to_step b !! n));
  bi_dom : ∀ n, n ∈ dom (b_output_to_step b) → n ∈ processed ∧ n ∈ asset_names;
  bi_group : ∀ key j, b_group_step_idx b !! key = Some j →
    ∃ s, b_steps b !! j = Some s ∧ st_outputs s ≠ [] ∧
         ∀ o, o ∈ st_outputs s → groups !! o = Some key;
  bi_grouped : ∀ s n, s ∈ b_steps b → n ∈ event_names s →
    match groups !! n with
    | Some key => ∃ j, b_group_step_idx b !! key = Some j ∧ b_steps b !! j = Some s
    | None => event_names s = [n]
    end;
  bi_plan : ∀ s d, s ∈ b_steps b → d ∈ st_plan_dependencies s ↔
    ∃ a c, a ∈ event_names s ∧ depends g a c ∧ c ∈ asset_names ∧
           owner (b_steps b) c d ∧ d ≠ st_name s;
  bi_graph : ∀ s d, s ∈ b_steps b → d ∈ st_graph_dependencies s ↔
    (∃ a, a ∈ event_names s ∧ depends g a d) ∧ d ∉ event_names s;
}.

Lemma elem_of_neighbor_names i b :
  i < node_count g → b ∈ neighbor_names g i ↔ depends g (node_name g i) b.
Proof.
  intros Hi. unfold neighbor_names. rewrite list_elem_of_fmap. split.
  - intros (j & -> & Hj%elem_of_neighbors). by apply (edge_depends g Hwf).
  - intros (i' & j & He & Hi' & Hj). exists j. rewrite (node_name_lookup _ _ _ Hj).
    split; [done|]. apply elem_of_neighbors. simpl.
    by rewrite (names_inj g Hwf i i' _ (names_lookup g i Hi) Hi').
Qed.

Lemma event_names_ne s : event_names s ≠ [].
Proof. unfold event_names. by destruct (st_outputs s). Qed.

Lemma event_names_outputs s : st_outputs s ≠ [] → event_names s = st_outputs s.
Proof. unfold event_names. by destruct (st_outputs s). Qed.

(** ** Joining a group *)
Lemma push_plan_fold s ds :
  let s' := foldl push_plan_dep s ds in
  st_name s' = st_name s ∧ st_outputs s' = st_outputs s ∧
  st_graph_dependencies s' = st_graph_dependencies s ∧ st_kind s' = st_kind s ∧
  ∀ d, d ∈ st_plan_dependencies s' ↔
    d ∈ st_plan_dependencies s ∨ (d ∈ ds ∧ d ≠ st_name s ∧ d ∉ st_outputs s).
Proof.
  revert s. induction ds as [|x ds IH]; intros s; simpl; [set_solver|].
  destruct (IH (push_plan_dep s x)) as (-> & -> & -> & -> & Hd). cbv zeta. clear IH.
  setoid_rewrite Hd. unfold push_plan_dep.
  destruct (String.eqb_spec x (st_name s)); simpl; [set_solver|].
  case_bool_decide; simpl; [|set_solver]. case_bool_decide; simpl; set_solver.
Qed.

Lemma push_graph_fold s ds :
  let s' := foldl push_graph_dep s ds in
  st_name s' = st_name s ∧ st_outputs s' = st_outputs s ∧
  st_plan_dependencies s' = st_plan_dependencies s ∧ st_kind s' = st_kind s ∧
  ∀ d, d ∈ st_graph_dependencies s' ↔
    d ∈ st_graph_dependencies s ∨ (d ∈ ds ∧ d ≠ st_name s ∧ d ∉ st_outputs s).
Proof.
  revert s. induction ds as [|x ds IH]; intros s; simpl; [set_solver|].
  destruct (IH (push_graph_dep s x)) as (-> & -> & -> & -> & Hd). cbv zeta. clear IH.
  setoid_rewrite Hd. unfold push_graph_dep.
  case_bool_decide; simpl; [|set_solver].
  destruct (String.eqb_spec x (st_name s)); simpl; [set_solver|].
  case_bool_decide; simpl; set_solver.
Qed.

Lemma join_group_spec c pd nb s :
  let s' := join_group c pd nb s in
  st_name s' = st_name s ∧ st_outputs s' = st_outputs s ++ [c] ∧
  (∀ d, d ∈ st_plan_dependencies s' ↔
     d ∈ st_plan_dependencies s ∨ (d ∈ pd ∧ d ≠ st_name s ∧ d ∉ st_outputs s ++ [c])) ∧
  (∀ d, d ∈ st_graph_dependencies s' ↔
     d ∈ st_graph_dependencies s ∨ (d ∈ nb ∧ d ≠ st_name s ∧ d ∉ st_outputs s ++ [c])).
Proof.
  unfold join_group. set (s0 := mkStep _ _ _ _ _).
  destruct (push_plan_fold s0 pd) as (H1 & H2 & H3 & _ & H4).
  destruct (push_graph_fold (foldl push_plan_dep s0 pd) nb) as (G1 & G2 & G3 & _ & G4).
  cbv zeta in *. split_and!; [by rewrite G1, H1|by rewrite G2, H2| |].
  - intros d. by rewrite G3, H4.
  - intros d. by rewrite G4, H1, H2, H3.
Qed.

Lemma elem_of_plan_deps o2s nb d :
  d ∈ plan_deps_of asset_names o2s nb ↔
  ∃ n, n ∈ nb ∧ n ∈ asset_names ∧ d = default n (o2s !! n).
Proof.
  unfold plan_deps_of. rewrite elem_of_hash_iter, elem_of_list_to_set, list_elem_of_fmap.
  setoid_rewrite list_elem_of_filter. naive_solver.
Qed.

(** ** One iteration *)
Section step.
Context (processed : list string) (b : Build) (Hinv : BuildInv processed b).
Context (idx : nat) (Hidx : idx < node_count g).

Abbreviation c := (node_name g idx).
Abbreviation nb := (neighbor_names g idx).
Abbreviation pd := (plan_deps_of asset_names (b_output_to_step b) nb).

Context (Hnd : NoDup processed) (Hc : c ∉ processed).
Context (Hclosed : ∀ a d, a ∈ processed → depends g a d → d ∈ processed).
Context (Hdeps : ∀ d, depends g c d → d ∈ processed).

Lemma produced_iff n :
  n ∈ b_steps b ≫= event_names ↔ n ∈ processed ∧ n ∈ asset_names.
Proof. rewrite (bi_names _ _ Hinv), list_elem_of_filter. naive_solver. Qed.

Lemma event_processed s n :
  s ∈ b_steps b → n ∈ event_names s → n ∈ processed ∧ n ∈ asset_names.
Proof. intros Hs Hn. apply produced_iff, list_elem_of_bind. eauto. Qed.

Lemma event_ne_c s n : s ∈ b_steps b → n ∈ event_names s → n ≠ c.
Proof. intros Hs Hn ->. by apply (event_processed s) in Hn as [? _]. Qed.

Lemma owner_produced n d :
  owner (b_steps b) n d → n ∈ processed ∧ n ∈ asset_names ∧ d ∈ processed.
Proof.
  intros (s & Hs & Hn & <-). destruct (event_processed s n Hs Hn).
  split_and!; [done..|]. by apply (event_processed s _ Hs), (bi_name _ _ Hinv).
Qed.

Lemma NoDup_events : NoDup (b_steps b ≫= event_names).
Proof. rewrite (bi_names _ _ Hinv). by apply NoDup_filter. Qed.

Lemma event_unique s s' n :
  s ∈ b_steps b → s' ∈ b_steps b → n ∈ event_names s → n ∈ event_names s' → s = s'.
Proof.
  intros [i Hi]%list_elem_of_lookup [j Hj]%list_elem_of_lookup Hn Hn'.
  pose proof (NoDup_bind_pos _ _ _ _ _ _ _ NoDup_events Hi Hj Hn Hn'). congruence.
Qed.

Lemma owner_functional n d d' :
  owner (b_steps b) n d → owner (b_steps b) n d' → d = d'.
Proof.
  intros (s & Hs & Hn & <-) (s' & Hs' & Hn' & <-). by rewrite (event_unique s s' n).
Qed.

(** The rewritten dependencies are the owners of the selected dependencies. *)
Lemma plan_deps_owner d :
  d ∈ pd ↔ ∃ n, depends g c n ∧ n ∈ asset_names ∧ owner (b_steps b) n d.
Proof.
  rewrite elem_of_plan_deps. setoid_rewrite elem_of_neighbor_names; [|done]. split.
  - intros (n & Hn & Ha & ->). exists n. split_and!; [done..|].
    apply (bi_owner _ _ Hinv); [by apply Hdeps|done].
  - intros (n & Hn & Ha & Ho). exists n. split_and!; [done..|].
    eapply owner_functional; [done|]. apply (bi_owner _ _ Hinv); [by apply Hdeps|done].
Qed.

Lemma no_self : ¬ depends g c c.
Proof. intros Hd. by apply Hc, Hdeps. Qed.

Lemma inv_skip : c ∉ asset_names → BuildInv (processed ++ [c]) b.
Proof.
  intros Hn. destruct Hinv as [H1 H2 H3 H4 H5 H6 H7 H8]. split; [|done| | |done..].
  - rewrite filter_app, filter_cons_False by done. by rewrite app_nil_r.
  - intros n [?| ->%list_elem_of_singleton]%elem_of_app; [by apply H3|done].
  - intros n [??]%H4. split; [|done]. apply elem_of_app. by left.
Qed.

Lemma filter_snoc :
  c ∈ asset_names → filter (λ n, n ∈ asset_names) (processed ++ [c]) =
  filter (λ n, n ∈ asset_names) processed ++ [c].
Proof. intros. by rewrite filter_app, filter_cons_True. Qed.

Section append.
Context (Ha : c ∈ asset_names) (outs : list string) (Houts : outs = [] ∨ outs = [c]).

Definition new_step : ExecutionStep := mkStep c SNormal outs pd nb.

Lemma new_step_events : event_names new_step = [c].
Proof. by destruct Houts as [E|E]; unfold event_names, new_step; simpl; rewrite E. Qed.

Lemma owner_append n d :
  owner (b_steps b ++ [new_step]) n d ↔ owner (b_steps b) n d ∨ (n = c ∧ d = c).
Proof.
  unfold owner. setoid_rewrite elem_of_app. setoid_rewrite list_elem_of_singleton. split.
  - intros (s & [Hs|Hs] & Hn & Hd); [left; by exists s|subst s].
    rewrite new_step_events in Hn. apply list_elem_of_singleton in Hn. by right.
  - intros [(s & ? & ? & ?)|[-> ->]]; [exists s; auto|].
    exists new_step. rewrite new_step_events. split_and!; [by right|left|done].
Qed.

Lemma plan_append s d :
  s ∈ b_steps b ++ [new_step] → d ∈ st_plan_dependencies s ↔
  ∃ a n, a ∈ event_names s ∧ depends g a n ∧ n ∈ asset_names ∧
         owner (b_steps b ++ [new_step]) n d ∧ d ≠ st_name s.
Proof.
  setoid_rewrite owner_append. intros [Hs|Hs]%elem_of_app.
  - rewrite (bi_plan _ _ Hinv s d Hs). split; [naive_solver|].
    intros (a & n & Hn & Hd & Hsel & [Ho|[-> ->]] & Hne); [by exists a, n|].
    destruct Hc. eapply Hclosed; [|exact Hd]. by apply (event_processed s).
  - apply list_elem_of_singleton in Hs as ->. rewrite new_step_events.
    cbn [new_step st_plan_dependencies st_name]. rewrite plan_deps_owner. split.
    + intros (n & Hn & Hsel & Ho). exists c, n. split_and!; [left|done..|by left|].
      apply owner_produced in Ho as (_ & _ & Hd). by intros ->.
    + intros (a & n & ->%list_elem_of_singleton & Hn & Hsel & [Ho|[-> ->]] & Hne);
        [by exists n|done].
Qed.

Lemma graph_append s d :
  s ∈ b_steps b ++ [new_step] → d ∈ st_graph_dependencies s ↔
  (∃ a, a ∈ event_names s ∧ depends g a d) ∧ d ∉ event_names s.
Proof.
  intros [Hs| ->%list_elem_of_singleton]%elem_of_app; [by apply (bi_graph _ _ Hinv)|].
  rewrite new_step_events. cbn [new_step st_graph_dependencies].
  rewrite elem_of_neighbor_names by done. split.
  - intros Hd. split; [exists c; split; [left|done]|].
    intros ->%list_elem_of_singleton. by apply no_self.
  - intros [(a & ->%list_elem_of_singleton & Hd) _]. done.
Qed.

Lemma inv_append gsi o2s :
  default c (o2s !! c) = c → (∀ n, n ≠ c → o2s !! n = b_output_to_step b !! n) →
  (∀ key j, b_group_step_idx b !! key = Some j → gsi !! key = Some j) →
  (∀ key j, gsi !! key = Some j → b_group_step_idx b !! key = Some j ∨
     (groups !! c = Some key ∧ j = length (b_steps b) ∧ outs = [c])) →
  match groups !! c with
  | Some key => gsi !! key = Some (length (b_steps b)) | None => True end →
  BuildInv (processed ++ [c]) (mkBuild gsi o2s (b_steps b ++ [new_step])).
Proof.
  intros Ho2s Hsame Hgsi Hgsi' Hkey. destruct Hinv as [H1 H2 H3 H4 H5 H6 _ _].
  split; cbn [b_steps b_output_to_step b_group_step_idx].
  - by rewrite bind_app_list, bind_singleton_list, new_step_events, H1, filter_snoc.
  - intros s [?| ->%list_elem_of_singleton]%elem_of_app; [auto|].
    rewrite new_step_events. left.
  - intros n Hn Hsel. apply owner_append. destruct (decide (n = c)) as [->|Hne].
    + right. by rewrite Ho2s.
    + left. rewrite Hsame by done. apply H3; [|done].
      apply elem_of_app in Hn as [?|?%list_elem_of_singleton]; done.
  - intros n Hn. rewrite elem_of_app, list_elem_of_singleton.
    destruct (decide (n = c)) as [->|Hne]; [auto|].
    rewrite elem_of_dom, Hsame, <-elem_of_dom in Hn by done. apply H4 in Hn. naive_solver.
  - intros key j [Hj|(Hk & -> & Ho)]%Hgsi'.
    + destruct (H5 key j Hj) as (s & Hs & ? & ?). exists s.
      split_and!; [by apply lookup_app_l_Some|done..].
    + exists new_step. rewrite list_lookup_middle by done. cbn [new_step st_outputs].
      rewrite Ho. split_and!; [done..|]. by intros o ->%list_elem_of_singleton.
  - intros s n [Hs| ->%list_elem_of_singleton]%elem_of_app Hn.
    + specialize (H6 s n Hs Hn). destruct (groups !! n) as [key|]; [|done].
      destruct H6 as (j & Hj & Hsj). exists j. split; [auto|by apply lookup_app_l_Some].
    + rewrite new_step_events in *. apply list_elem_of_singleton in Hn as ->.
      destruct (groups !! c) as [key|]; [|done]. exists (length (b_steps b)).
      split; [done|by apply list_lookup_middle].
  - apply plan_append.
  - apply graph_append.
Qed.
End append.

Section join.
Context (Ha : c ∈ asset_names) (key : string) (Hkey : groups !! c = Some key).
Context (j : nat) (Hj : b_group_step_idx b !! key = Some j).
Context (s0 : ExecutionStep) (Hs0 : b_steps b !! j = Some s0).
Context (Hne : st_outputs s0 ≠ []) (Hall : ∀ o, o ∈ st_outputs s0 → groups !! o = Some key).

Definition joined : ExecutionStep := join_group c pd nb s0.
Definition joined_steps : list ExecutionStep := alter (join_group c pd nb) j (b_steps b).

Lemma joined_events : event_names joined = event_names s0 ++ [c].
Proof.
  destruct (join_group_spec c pd nb s0) as (_ & Ho & _). rewrite !event_names_outputs.
  - exact Ho.
  - done.
  - unfold joined. rewrite Ho. by destruct (st_outputs s0).
Qed.

Lemma s0_in : s0 ∈ b_steps b.
Proof. by eapply list_elem_of_lookup_2. Qed.

Lemma elem_of_joined s :
  s ∈ joined_steps ↔ s = joined ∨ (s ∈ b_steps b ∧ s ≠ s0).
Proof.
  unfold joined_steps. split.
  - intros [k Hk]%list_elem_of_lookup. destruct (decide (k = j)) as [->|Hkj].
    + rewrite list_lookup_alter_eq, Hs0 in Hk. injection Hk as <-. by left.
    + rewrite list_lookup_alter_ne in Hk by done. right.
      split; [by eapply list_elem_of_lookup_2|]. intros ->. apply Hkj.
      assert (st_name s0 ∈ event_names s0) as Hn by apply (bi_name _ _ Hinv), s0_in.
      by eapply (NoDup_bind_pos event_names); [apply NoDup_events| | | |].
  - intros [->|[[k Hk]%list_elem_of_lookup Hns]].
    + apply list_elem_of_lookup_2 with j. by rewrite list_lookup_alter_eq, Hs0.
    + apply list_elem_of_lookup_2 with k. rewrite list_lookup_alter_ne; [done|].
      intros ->. congruence.
Qed.

Lemma owner_join n d :
  owner joined_steps n d ↔ owner (b_steps b) n d ∨ (n = c ∧ d = st_name s0).
Proof.
  destruct (join_group_spec c pd nb s0) as (Hname & _). fold joined in Hname.
  unfold owner. setoid_rewrite elem_of_joined. split.
  - intros (s & [->|[Hs Hns]] & Hn & Hd); [|left; by exists s].
    rewrite joined_events in Hn. rewrite Hname in Hd.
    apply elem_of_app in Hn as [Hn|Hn%list_elem_of_singleton]; [left|by right].
    exists s0. split_and!; [apply s0_in|done..].
  - intros [(s & Hs & Hn & Hd)|[-> ->]].
    + destruct (decide (s = s0)) as [->|]; [|exists s; auto].
      exists joined. rewrite joined_events, Hname. split_and!; [by left| |done].
      apply elem_of_app. by left.
    + exists joined. rewrite joined_events, Hname. split_and!; [by left| |done].
      apply elem_of_app. right. left.
Qed.

Lemma plan_join s d :
  s ∈ joined_steps → d ∈ st_plan_dependencies s ↔
  ∃ a n, a ∈ event_names s ∧ depends g a n ∧ n ∈ asset_names ∧
         owner joined_steps n d ∧ d ≠ st_name s.
Proof.
  setoid_rewrite owner_join.
  assert (∀ s a n, s ∈ b_steps b → a ∈ event_names s → depends g a n → n ≠ c) as Hnc.
  { intros s' a n Hs' Hn Hd ->. apply Hc. eapply Hclosed; [|exact Hd].
    by apply (event_processed s'). }
  intros [->|[Hs _]]%elem_of_joined.
  - destruct (join_group_spec c pd nb s0) as (Hname & Hout & Hp & _).
    fold joined in Hname, Hout, Hp. rewrite Hp, Hname, joined_events, plan_deps_owner.
    rewrite (bi_plan _ _ Hinv s0 d s0_in). setoid_rewrite elem_of_app. split.
    + intros [(a & n & ? & ? & ? & ? & ?)|((n & ? & ? & ?) & ? & _)].
      * exists a, n. split_and!; auto.
      * exists c, n. split_and!; auto. right. left.
    + intros (a & n & [Hn|Hn%list_elem_of_singleton] & Hd & Hsel & [Ho|[-> ->]] & Hdn); [| | |done].
      * left. by exists a, n.
      * by destruct (Hnc s0 a c s0_in Hn Hd).
      * right. subst a. split_and!; [by exists n|done|]. intros [Hin|Hin%list_elem_of_singleton].
        -- rewrite <-event_names_outputs in Hin by done. destruct Ho as (s' & Hs' & _ & <-).
           apply Hdn. f_equal. eapply event_unique; [done|apply s0_in| |exact Hin].
           by apply (bi_name _ _ Hinv).
        -- subst d. by apply owner_produced in Ho as (_ & _ & ?).
  - rewrite (bi_plan _ _ Hinv s d Hs). split; [naive_solver|].
    intros (a & n & Hn & Hd & Hsel & [Ho|[-> ->]] & Hdn); [by exists a, n|].
    by destruct (Hnc s a c Hs Hn Hd).
Qed.

Lemma graph_join s d :
  s ∈ joined_steps → d ∈ st_graph_dependencies s ↔
  (∃ a, a ∈ event_names s ∧ depends g a d) ∧ d ∉ event_names s.
Proof.
  intros [->|[Hs _]]%elem_of_joined; [|by apply (bi_graph _ _ Hinv)].
  destruct (join_group_spec c pd nb s0) as (_ & _ & _ & Hg). fold joined in Hg.
  rewrite Hg, joined_events, (bi_graph _ _ Hinv s0 d s0_in), elem_of_neighbor_names by done.
  rewrite <-(event_names_outputs s0 Hne). setoid_rewrite elem_of_app.
  setoid_rewrite list_elem_of_singleton. split.
  - intros [[(a & Hn & Hd) Hni]|(Hd & Hdn & Hni)]; [|naive_solver].
    split; [naive_solver|]. intros [?| ->]; [done|]. apply Hc.
    eapply Hclosed; [|exact Hd]. by apply (event_processed s0 a s0_in).
  - intros [(a & [Hn| ->] & Hd) Hni]; [left; naive_solver|]. right.
    split_and!; [done| |done]. intros ->. apply Hni. left.
    apply (bi_name _ _ Hinv), s0_in.
Qed.

Lemma inv_join :
  BuildInv (processed ++ [c])
    (mkBuild (b_group_step_idx b) (<[c := st_name s0]> (b_output_to_step b)) joined_steps).
Proof.
  destruct (join_group_spec c pd nb s0) as (Hname & Hout & _). fold joined in Hname, Hout.
  destruct Hinv as [H1 H2 H3 H4 H5 H6 _ _].
  split; cbn [b_steps b_output_to_step b_group_step_idx].
  - unfold joined_steps. rewrite (bind_alter_perm _ _ _ _ s0 c Hs0 joined_events), H1.
    by rewrite filter_snoc, Permutation_cons_append.
  - intros s [->|[Hs _]]%elem_of_joined; [|by apply H2].
    rewrite joined_events, Hname. apply elem_of_app. left. apply H2, s0_in.
  - intros n Hn Hsel. apply owner_join. destruct (decide (n = c)) as [->|Hnc].
    + right. by rewrite lookup_insert_eq.
    + left. rewrite lookup_insert_ne by done. apply H3; [|done].
      apply elem_of_app in Hn as [?|?%list_elem_of_singleton]; done.
  - intros n Hn. rewrite elem_of_app, list_elem_of_singleton.
    rewrite dom_insert, elem_of_union, elem_of_singleton in Hn.
    destruct Hn as [->|Hn]; [auto|]. apply H4 in Hn. naive_solver.
  - intros k i Hk. destruct (H5 k i Hk) as (s & Hs & Hso & Hsk). unfold joined_steps.
    destruct (decide (i = j)) as [->|Hij].
    + exists joined. rewrite list_lookup_alter_eq, Hs0, Hout. split_and!; [done|by destruct (st_outputs s0)|].
      assert (s = s0) as -> by congruence.
      assert (k = key) as ->.
      { destruct (st_outputs s0) as [|o os]; [done|].
        pose proof (Hsk o ltac:(left)). pose proof (Hall o ltac:(left)). congruence. }
      intros o [?| ->%list_elem_of_singleton]%elem_of_app; auto.
    + exists s. by rewrite list_lookup_alter_ne.
  - assert (∀ i s, b_steps b !! i = Some s → s ≠ s0 → joined_steps !! i = Some s) as Hkeep.
    { intros i s Hi Hs. unfold joined_steps. rewrite list_lookup_alter_ne; [done|].
      intros ->. congruence. }
    intros s n [->|[Hs Hs0']]%elem_of_joined Hn.
    + assert (groups !! n = Some key) as ->.
      { rewrite joined_events, (event_names_outputs s0 Hne) in Hn.
        apply elem_of_app in Hn as [?| ->%list_elem_of_singleton]; auto. }
      exists j. split; [done|]. unfold joined_steps. by rewrite list_lookup_alter_eq, Hs0.
    + specialize (H6 s n Hs Hn). destruct (groups !! n) as [k|]; [|done].
      destruct H6 as (i & Hi & Hsi). exists i. split; [done|]. by apply Hkeep.
  - apply plan_join.
  - apply graph_join.
Qed.
End join.

Lemma build_node_inv :
  BuildInv (processed ++ [c]) (build_node g asset_names groups b idx).
Proof.
  unfold build_node. case_bool_decide as Ha; [by apply inv_skip|].
  cbv zeta.
  destruct (groups !! c) as [key|] eqn:Hkey.
  - destruct (b_group_step_idx b !! key) as [j|] eqn:Hj.
    + destruct (bi_group _ _ Hinv key j Hj) as (s0 & Hs0 & Hne & Hall). rewrite Hs0.
      by apply (inv_join Ha key Hkey j Hj s0).
    + apply (inv_append Ha [c]); [by right|by rewrite lookup_insert_eq| | | |].
      * intros. by rewrite lookup_insert_ne.
      * intros k i Hi. rewrite lookup_insert_ne; [done|]. intros <-. congruence.
      * intros k i [[<- <-]|[_ ?]]%lookup_insert_Some; [by right|by left].
      * rewrite Hkey. by rewrite lookup_insert_eq.
  - apply (inv_append Ha []); [by left| |done|done| |by rewrite Hkey].
    + destruct (b_output_to_step b !! c) eqn:E; [|done].
      destruct Hc. apply (bi_dom _ _ Hinv). rewrite elem_of_dom, E. by eexists.
    + intros. by left.
Qed.
End step.
End build.
