(* ===== verification/PlanSubgraph.v ===== *)
(** * Plans of a graph and of a selection

    The theorems on [from_graph] and [from_subgraph], from the loop invariant of
    [PlanBuild] and the levels of [PlanLevels]. *)

From S2P Require Import Prelude Worklist Composition AssetGraph AssetGraphProps PetgraphRef GraphTheorems ExecutionPlan PlanLevels PlanBuild.

(** In a deps-first order, the dependencies of a prefix are in the prefix. *)
Lemma prefix_closed {A} (R : A → A → Prop) (l pre post : list A) a b :
  NoDup l → l = pre ++ post → (∀ a b, R a b → before l b a) → a ∈ pre → R a b → b ∈ pre.
Proof.
  intros Hnd -> Hb [k Hk]%list_elem_of_lookup HR.
  destruct (Hb a b HR) as (i & j & Hi & Hj & Hij).
  assert (j = k) as ->.
  { eapply NoDup_lookup; [exact Hnd|exact Hj|]. by apply lookup_app_l_Some. }
  apply lookup_lt_Some in Hk. rewrite lookup_app_l in Hi by lia.
  by eapply list_elem_of_lookup_2.
Qed.

Section subgraph.
Context `{Petgraph, !PetgraphLaws, !HashIter string}.

Lemma build_steps_inv g asset_names groups topo :
  graph_wf g → toposort g = Some topo →
  BuildInv g asset_names groups (node_name g <$> rev topo)
    (build_steps g asset_names groups topo).
Proof.
  intros Hwf Ht. destruct (topo_names g topo Hwf Ht) as [Hn Hnd].
  assert (∀ a b, depends g a b → before (node_name g <$> rev topo) b a) as Hbef.
  { intros. by apply toposort_deps_first. }
  unfold build_steps.
  enough (∀ pre post, rev topo = pre ++ post →
    BuildInv g asset_names groups (node_name g <$> pre)
      (foldl (build_node g asset_names groups) (mkBuild ∅ ∅ []) pre)) as Hpre.
  { apply (Hpre (rev topo) []). by rewrite app_nil_r. }
  induction pre as [|i pre IH] using rev_ind; intros post Hp.
  { split; simpl; try done; set_solver. }
  rewrite <-app_assoc in Hp. simpl in Hp. specialize (IH (i :: post) Hp).
  rewrite foldl_app, fmap_app. simpl.
  assert (i < node_count g) as Hi.
  { apply elem_of_node_indices. rewrite <-(toposort_perm g topo (wf_edges g Hwf) Ht), Permutation_rev, Hp.
    set_solver. }
  assert (NoDup ((node_name g <$> pre) ++ node_name g i :: (node_name g <$> post))) as Hnd'.
  { by rewrite Hp, fmap_app, fmap_cons in Hnd. }
  rewrite Hp, fmap_app, fmap_cons in Hbef. rewrite Hp, fmap_app, fmap_cons in Hnd.
  apply NoDup_app in Hnd' as (Hnd1 & Hdis & Hnd2).
  apply build_node_inv; [exact Hwf|exact IH|exact Hi|exact Hnd1| | |].
  - intros Hin. apply (Hdis _ Hin). left.
  - intros a d Ha Hd.
    exact (prefix_closed (depends g) _ _ _ a d Hnd eq_refl Hbef Ha Hd).
  - intros d Hd. apply NoDup_cons in Hnd2 as [Hni _].
    assert (d ∈ (node_name g <$> pre) ++ [node_name g i]) as [?|Hd']%elem_of_app; [|done|].
    + eapply (prefix_closed (depends g) _ _ (node_name g <$> post)); [exact Hnd| |exact Hbef| |exact Hd].
      * by rewrite <-app_assoc.
      * apply elem_of_app. right. left.
    + apply list_elem_of_singleton in Hd' as ->. exfalso.
      eapply before_asym; [exact Hnd| |]; by apply Hbef.
Qed.

(** The properties of a plan that do not depend on the order of its steps. *)
Record PlanOf (g : AssetGraph) (asset_names : gset string) (groups : gmap string string)
    (p : ExecutionPlan) : Prop := {
  po_nodup : NoDup (all_asset_names p);
  po_names : ∀ n, n ∈ all_asset_names p ↔ n ∈ asset_names ∧ n ∈ names g;
  po_name : ∀ s, s ∈ ep_steps p → st_name s ∈ event_names s;
  po_group : ∀ n m, n ∈ all_asset_names p → m ∈ all_asset_names p →
    (∃ s, s ∈ ep_steps p ∧ n ∈ event_names s ∧ m ∈ event_names s) ↔
    n = m ∨ ∃ key, groups !! n = Some key ∧ groups !! m = Some key;
  po_plan : ∀ s d, s ∈ ep_steps p → d ∈ st_plan_dependencies s ↔
    ∃ a c, a ∈ event_names s ∧ depends g a c ∧ c ∈ asset_names ∧
           owner (ep_steps p) c d ∧ d ≠ st_name s;
  po_graph : ∀ s d, s ∈ ep_steps p → d ∈ st_graph_dependencies s ↔
    (∃ a, a ∈ event_names s ∧ depends g a d) ∧ d ∉ event_names s;
}.

Lemma plan_of_build g asset_names groups topo p :
  graph_wf g → toposort g = Some topo →
  ep_steps p ≡ₚ b_steps (build_steps g asset_names groups topo) →
  PlanOf g asset_names groups p.
Proof.
  intros Hwf Ht Hp. destruct (topo_names g topo Hwf Ht) as [Hn Hnd].
  destruct (build_steps_inv g asset_names groups topo Hwf Ht) as [H1 H2 _ _ H5 H6 H7 H8].
  set (steps := b_steps _) in *.
  assert (all_asset_names p ≡ₚ steps ≫= event_names) as Hall by (unfold all_asset_names; by rewrite Hp).
  assert (∀ n d, owner (ep_steps p) n d ↔ owner steps n d) as Ho.
  { intros. unfold owner. by setoid_rewrite Hp. }
  split.
  - rewrite Hall, H1. by apply NoDup_filter.
  - intros n. by rewrite Hall, H1, list_elem_of_filter, Hn.
  - intros s. rewrite Hp. apply H2.
  - intros n m. rewrite Hall. intros (s & Hsn & Hs)%list_elem_of_bind (t & Htm & Ht')%list_elem_of_bind.
    split.
    + intros (u & Hu & Hun & Hum). rewrite Hp in Hu.
      pose proof (H6 u n Hu Hun) as Gn. pose proof (H6 u m Hu Hum) as Gm.
      destruct (groups !! n) as [kn|].
      2: { left. rewrite Gn in Hum. by apply list_elem_of_singleton in Hum. }
      destruct (groups !! m) as [km|].
      2: { left. rewrite Gm in Hun. by apply list_elem_of_singleton in Hun. }
      right. destruct Gn as (i & Hi & Hui), Gm as (j & Hj & Huj). exists kn. split; [done|].
      assert (i = j) as ->.
      { eapply (NoDup_bind_pos event_names); [|exact Hui|exact Huj|exact Hun|exact Hun].
        fold steps. rewrite H1. by apply NoDup_filter. }
      destruct (H5 kn j Hi) as (u1 & Hu1 & Hne & Hk1), (H5 km j Hj) as (u2 & Hu2 & _ & Hk2).
      assert (u1 = u ∧ u2 = u) as [-> ->] by (split; congruence).
      rewrite event_names_outputs in Hum by done. by rewrite <-(Hk1 _ Hum), <-(Hk2 _ Hum).
    + intros [<-|(key & Kn & Km)]; [exists s; by rewrite Hp|].
      pose proof (H6 s n Hs Hsn) as Gn. rewrite Kn in Gn. destruct Gn as (i & Hi & Hui).
      pose proof (H6 t m Ht' Htm) as Gm. rewrite Km in Gm. destruct Gm as (j & Hj & Huj).
      assert (s = t) as -> by congruence. exists t. by rewrite Hp.
  - intros s d. rewrite Hp. setoid_rewrite Ho. apply H7.
  - intros s d. rewrite Hp. apply H8.
Qed.

(** [from_graph] plans every asset of the graph once, each after all the
    assets it depends on, with exactly its direct dependencies. *)
Theorem from_graph_correct g :
  graph_wf g → acyclic g →
  ∃ p, from_graph g = Some p ∧ is_materialize p = true ∧
    (st_name <$> ep_steps p) ≡ₚ names g ∧
    (∀ a b, depends g a b → before (st_name <$> ep_steps p) b a) ∧
    (∀ s d, s ∈ ep_steps p → event_names s = [st_name s] ∧
       (d ∈ st_plan_dependencies s ↔ depends g (st_name s) d) ∧
       (d ∈ st_graph_dependencies s ↔ depends g (st_name s) d)).
Proof.
  intros Hwf Ha. destruct (toposort_acyclic g (wf_edges g Hwf) Ha) as [topo Ht].
  unfold from_graph. rewrite Ht. eexists. split; [done|]. cbn [ep_steps].
  rewrite <-list_fmap_compose. change (st_name ∘ _) with (node_name g).
  split_and!; [done| | |].
  - by destruct (topo_names g topo Hwf Ht).
  - intros. by apply toposort_deps_first.
  - intros s d (i & -> & Hi)%list_elem_of_fmap. cbn [st_plan_dependencies st_graph_dependencies st_name].
    assert (i < node_count g).
    { apply elem_of_node_indices. by rewrite <-(toposort_perm g topo (wf_edges g Hwf) Ht), Permutation_rev. }
    by rewrite elem_of_neighbor_names.
Qed.

Context `{!SliceSort}.

Lemma from_subgraph_inv g asset_names groups co topo p :
  toposort g = Some topo → from_subgraph g asset_names groups co = Some p →
  ep_steps p ≡ₚ b_steps (build_steps g asset_names groups topo).
Proof.
  intros Ht. unfold from_subgraph. rewrite Ht. case_bool_decide; [by intros [= <-]|].
  intros (steps & Hs & ->)%fmap_Some_1. by apply slice_sort_by_perm in Hs.
Qed.

(** C22: for an acyclic graph [from_subgraph] plans each selected asset exactly
    once; two assets share a step exactly when they are outputs of one group; a
    step waits for exactly the other steps that produce a selected dependency of
    one of its outputs; its recorded provenance is exactly the direct
    dependencies of its outputs that it does not produce itself. It can fail only
    inside the sort by composition order, and only when the comparison is not a
    total order on the steps. *)
Theorem from_subgraph_correct g asset_names groups co :
  graph_wf g → acyclic g →
  match from_subgraph g asset_names groups co with
  | Some p => is_materialize p = true ∧ PlanOf g asset_names groups p
  | None => co ≠ ∅ ∧ ∃ topo, toposort g = Some topo ∧
      let steps := b_steps (build_steps g asset_names groups topo) in
      ¬ total_cmp (step_cmp (step_levels steps) co) steps
  end.
Proof.
  intros Hwf Ha. destruct (toposort_acyclic g (wf_edges g Hwf) Ha) as [topo Ht].
  destruct (from_subgraph g asset_names groups co) as [p|] eqn:E.
  - split; [|by eapply plan_of_build, from_subgraph_inv].
    revert E. unfold from_subgraph. rewrite Ht. case_bool_decide; [by intros [= <-]|].
    by intros (steps & _ & ->)%fmap_Some_1.
  - revert E. unfold from_subgraph. rewrite Ht. case_bool_decide as Hco; [done|].
    intros E%fmap_None. split; [done|]. exists topo. split; [done|].
    intros Htot%slice_sort_by_total. cbv zeta in E. congruence.
Qed.

(** ** When the selected steps run *)
Section plan_of.
Context (g : AssetGraph) (asset_names : gset string) (groups : gmap string string).
Context (p : ExecutionPlan) (Hpo : PlanOf g asset_names groups p).

Lemma keys_events s k : s ∈ ep_steps p → k ∈ step_keys s → k ∈ event_names s.
Proof.
  intros Hs [->|Hk]%elem_of_cons; [by apply (po_name _ _ _ _ Hpo)|].
  unfold event_names. by destruct (st_outputs s); [apply elem_of_nil in Hk|].
Qed.

Lemma event_keys s k : k ∈ event_names s → k ∈ step_keys s.
Proof. unfold event_names, step_keys. destruct (st_outputs s); set_solver. Qed.

Lemma plan_of_unique : keys_unique (ep_steps p).
Proof.
  intros i j s s' k Hi Hj Hk Hk'.
  eapply (NoDup_bind_pos event_names); [apply (po_nodup _ _ _ _ Hpo)|exact Hi|exact Hj| |];
    (eapply keys_events; [by eapply list_elem_of_lookup_2|done]).
Qed.

Lemma plan_of_dep_edge i d s s' a c :
  ep_steps p !! i = Some s → ep_steps p !! d = Some s' → i ≠ d →
  a ∈ event_names s → c ∈ event_names s' → depends g a c → dep_edge (ep_steps p) i d.
Proof.
  intros Hi Hd Hne Ha Hc Hac.
  pose proof (list_elem_of_lookup_2 _ _ _ Hi) as Hsi.
  pose proof (list_elem_of_lookup_2 _ _ _ Hd) as Hsd.
  assert (st_name s' ∈ event_names s') as Hn by by apply (po_name _ _ _ _ Hpo).
  exists (st_name s'). split.
  - unfold plan_deps. rewrite Hi. simpl. apply (po_plan _ _ _ _ Hpo); [done|].
    exists a, c. split_and!; [done..| |by exists s'|].
    + apply (po_names _ _ _ _ Hpo), list_elem_of_bind. eauto.
    + intros E. apply Hne. eapply plan_of_unique; [exact Hi|exact Hd| |left].
      rewrite E. left.
  - apply by_name_spec; [apply plan_of_unique|]. exists s'. split; [done|left].
Qed.

(** A dependency between steps comes from one between assets they produce. *)
Lemma plan_of_dep_edge_inv i d :
  dep_edge (ep_steps p) i d →
  ∃ s s' a c, ep_steps p !! i = Some s ∧ ep_steps p !! d = Some s' ∧
    a ∈ event_names s ∧ c ∈ event_names s' ∧ depends g a c.
Proof.
  intros (dep & Hdep & Hb). unfold plan_deps in Hdep.
  destruct (ep_steps p !! i) as [s|] eqn:Hi; simpl in Hdep; [|by apply elem_of_nil in Hdep].
  apply (po_plan _ _ _ _ Hpo) in Hdep as (a & c & Ha & Hac & _ & (s1 & Hs1 & Hc & <-) & _);
    [|by eapply list_elem_of_lookup_2].
  apply by_name_spec in Hb as (s' & Hs' & Hk); [|apply plan_of_unique].
  apply list_elem_of_lookup in Hs1 as [j Hj].
  assert (j = d) as -> by (eapply plan_of_unique; [exact Hj|exact Hs'|left|done]).
  assert (s1 = s') as -> by congruence. by exists s, s', a, c.
Qed.

Lemma ungrouped_acyclic :
  graph_wf g → acyclic g → groups = ∅ → plan_acyclic (ep_steps p).
Proof.
  intros Hwf Ha Hg. apply (plan_acyclic_by _ (depends g)); [|by apply acyclic_depends].
  intros i d (s & s' & a & c & Hi & Hd & Ha' & Hc & Hac)%plan_of_dep_edge_inv.
  exists s, s'. split_and!; [done..|]. apply tc_once.
  assert (∀ s n, s ∈ ep_steps p → n ∈ event_names s → n = st_name s) as Hsingle.
  { intros t n Ht Hn. pose proof (po_name _ _ _ _ Hpo t Ht) as Hn'.
    assert (n ∈ all_asset_names p ∧ st_name t ∈ all_asset_names p) as [Hin1 Hin2].
    { split; apply list_elem_of_bind; eauto. }
    destruct (proj1 (po_group _ _ _ _ Hpo n (st_name t) Hin1 Hin2)) as [->|(key & Hk & _)]; [eauto|done|].
    rewrite Hg in Hk. by rewrite lookup_empty in Hk. }
  rewrite <-(Hsingle s a), <-(Hsingle s' c); [done|by eapply list_elem_of_lookup_2|done|
    by eapply list_elem_of_lookup_2|done].
Qed.
End plan_of.

(** In the levels of a plan built by [from_subgraph] every selected asset
    runs in a later level than each selected asset it depends on that another
    step produces. No groups is enough; with groups the steps must not wait for
    each other in a cycle. *)
Theorem from_subgraph_levels g asset_names groups co p :
  graph_wf g → acyclic g → from_subgraph g asset_names groups co = Some p →
  groups = ∅ ∨ plan_acyclic (ep_steps p) →
  ∃ L, group_steps_by_level p = Some L ∧
    (∀ n, n ∈ asset_names → n ∈ names g →
       ∃ l i s, at_level L l i ∧ ep_steps p !! i = Some s ∧ n ∈ event_names s) ∧
    (∀ a c l l' i j s s', depends g a c →
       ep_steps p !! i = Some s → a ∈ event_names s → at_level L l i →
       ep_steps p !! j = Some s' → c ∈ event_names s' → at_level L l' j →
       i ≠ j → l' < l).
Proof.
  intros Hwf Ha Hp Hor. destruct (toposort_acyclic g (wf_edges g Hwf) Ha) as [topo Ht].
  assert (PlanOf g asset_names groups p) as Hpo by by eapply plan_of_build, from_subgraph_inv.
  assert (plan_acyclic (ep_steps p)) as Hac
    by (destruct Hor; [by eapply ungrouped_acyclic|done]).
  destruct (levels_acyclic p Hac) as (L & HL & _ & Hcov & Hlt & _). exists L. split_and!; [done| |].
  - intros n Hn Hg. assert (n ∈ all_asset_names p) as
      (s & Hsn & [i Hi]%list_elem_of_lookup)%list_elem_of_bind by by apply (po_names _ _ _ _ Hpo).
    destruct (proj1 (Hcov i) (lookup_lt_Some _ _ _ Hi)) as [l Hl]. by exists l, i, s.
  - intros a c l l' i j s s' Hd Hi Has Hl Hj Hcs Hl' Hne.
    eapply Hlt; [exact Hl| |exact Hl']. by eapply (plan_of_dep_edge g).
Qed.
End subgraph.

(** ** The comparison of the composition-order sort *)
Section composition_order.
(** Three independent nodes: two tasks of the graph asset [g] and an asset [x]. *)
Definition mixed_graph : AssetGraph :=
  mkGraph (new_dag_node <$> ["g/a"; "x"; "g/c"]) [].

Definition mixed_order : gmap string N := {["g/a" := 1%N; "g/c" := 0%N]}.

Definition mixed_steps : list ExecutionStep :=
  b_steps (build_steps mixed_graph {["g/a"; "x"; "g/c"]} ∅
             (default [] (toposort mixed_graph))).

(** The comparison [from_subgraph] sorts by is not a total order once a
    selection mixes tasks of a graph asset with other assets of the same level:
    both tasks compare equal to the asset, but not to each other. [slice::sort_by]
    then leaves the order unspecified and may panic. *)
Theorem composition_cmp_not_total :
  ¬ total_cmp (step_cmp (step_levels mixed_steps) mixed_order) mixed_steps.
Proof.
  intros [_ Ht].
  assert (∀ i, i < 3 → ∃ s, mixed_steps !! i = Some s) as Hsome.
  { intros i Hi. apply lookup_lt_is_Some_2. replace (length mixed_steps) with 3; [done|].
    vm_compute. reflexivity. }
  pose proof (λ s i, list_elem_of_lookup_2 mixed_steps i s) as Hin.
  destruct (mixed_steps !! 0) as [s0|] eqn:E0; [|by vm_compute in E0].
  destruct (mixed_steps !! 1) as [s1|] eqn:E1; [|by vm_compute in E1].
  destruct (mixed_steps !! 2) as [s2|] eqn:E2; [|by vm_compute in E2].
  pose proof (Ht s2 s1 s0 (Hin _ _ E2) (Hin _ _ E1) (Hin _ _ E0)) as H1.
  pose proof (Ht s0 s1 s2 (Hin _ _ E0) (Hin _ _ E1) (Hin _ _ E2)) as H2.
  vm_compute in E0, E1, E2. injection E0 as <-. injection E1 as <-. injection E2 as <-.
  vm_compute in H1, H2. tauto.
Qed.
End composition_order.

(** ** The theorems at concrete graphs *)
Section witnesses.
Lemma from_graph_correct_witness :
  ∃ p, from_graph diamond_graph = Some p ∧
    (st_name <$> ep_steps p) ≡ₚ names diamond_graph.
Proof.
  destruct (from_graph_correct diamond_graph diamond_wf diamond_acyclic)
    as (p & Hp & _ & Hn & _). exists p. split; assumption.
Defined.

(** [clean] and [stats] as two outputs of one multi-asset. *)
Definition both : gmap string string := {["clean" := "both"; "stats" := "both"]}.

Lemma from_subgraph_correct_witness :
  ∃ p, from_subgraph diamond_graph {["clean"; "stats"; "report"]} both ∅ = Some p ∧
    PlanOf diamond_graph {["clean"; "stats"; "report"]} both p.
Proof.
  pose proof (from_subgraph_correct diamond_graph {["clean"; "stats"; "report"]} both ∅
    diamond_wf diamond_acyclic) as Hs.
  destruct (from_subgraph diamond_graph {["clean"; "stats"; "report"]} both ∅) as [p|].
  - exists p. split; [reflexivity|]. apply Hs.
  - exfalso. destruct Hs as [Hne _]. apply Hne. reflexivity.
Defined.

Lemma from_subgraph_levels_witness :
  ∃ p L, from_subgraph diamond_graph {["raw"; "clean"; "report"]} ∅ ∅ = Some p ∧
    group_steps_by_level p = Some L.
Proof.
  destruct (from_subgraph diamond_graph {["raw"; "clean"; "report"]} ∅ ∅) as [p|] eqn:E.
  - destruct (from_subgraph_levels diamond_graph {["raw"; "clean"; "report"]} ∅ ∅ p
      diamond_wf diamond_acyclic E (or_introl eq_refl)) as (L & HL & _).
    exists p, L. split; [reflexivity|exact HL].
  - exfalso. vm_compute in E. discriminate E.
Defined.

Lemma for_action_order_witness :
  ∃ L, group_steps_by_level
         (for_action diamond_graph "delete" ["raw"; "report"; "raw"] DownstreamFirst) = Some L ∧
    NoDup (st_name <$> ep_steps
      (for_action diamond_graph "delete" ["raw"; "report"; "raw"] DownstreamFirst)).
Proof.
  destruct (for_action_order diamond_graph "delete" ["raw"; "report"; "raw"] DownstreamFirst
    diamond_wf diamond_acyclic) as (_ & Hnd & _ & L & HL & _).
  exists L. split; assumption.
Defined.

Definition chain_plan : ExecutionPlan :=
  mkPlan [mkStep "b" SNormal [] ["a"] []; mkStep "a" SNormal [] [] []] None.

Lemma chain_acyclic : plan_acyclic (ep_steps chain_plan).
Proof.
  apply (plan_acyclic_by _ (λ a b, a = "b" ∧ b = "a")).
  - intros i d (dep & Hdep & Hb). unfold plan_deps in Hdep.
    destruct i as [|[|i]]; simpl in Hdep.
    + apply list_elem_of_singleton in Hdep as ->. vm_compute in Hb. injection Hb as <-.
      eexists _, _. split_and!; [reflexivity..|]. by apply tc_once.
    + by apply elem_of_nil in Hdep.
    + by apply elem_of_nil in Hdep.
  - intros a Ht.
    assert (∀ x y, tc (λ a b : string, a = "b" ∧ b = "a") x y → x = "b" ∧ y = "a") as Htc.
    { intros x y. induction 1 as [|x y z [-> ->] _ [? _]]; done. }
    by apply Htc in Ht as [-> ?].
Qed.

Lemma group_steps_by_level_correct_witness :
  ∃ L, group_steps_by_level chain_plan = Some L ∧ L = [[1]; [0]].
Proof.
  destruct (group_steps_by_level_correct chain_plan chain_acyclic) as (L & HL & _).
  exists L. split; [exact HL|]. vm_compute in HL. injection HL as <-. reflexivity.
Defined.
End witnesses.
