(* ===== verification/RunQueue.v ===== *)
(** * The run queue (rust/rivers-core/src/concurrency, storage/run.rs)

    [TagCounter] is the tag concurrency counter, [Coordinator] one dequeue cycle
    against the [runs], [concurrency_slots] and event tables. The database is the
    explicit state [Store]; the effect of each SurrealQL statement is written out.
    Whether a statement fails is decided by an oracle ([Faults]), so that the
    error paths of the tick are part of the model. *)

From S2P Require Import Prelude PartitionKey.
From stdpp Require Import pretty.

(** ** Limits and reasons *)
Record TagConcurrencyLimit := mkLimit {
  tl_key : string;
  tl_value : option string;
  tl_per_unique_value : bool;
  tl_limit : N;  (* u32 *)
}.

Record RunQueueConfig := mkConfig {
  rq_max_concurrent_runs : Z;  (* i32 *)
  rq_tag_concurrency_limits : list TagConcurrencyLimit;
  rq_dequeue_interval_ms : N;
  rq_start_timeout_s : N;
}.

Definition default_run_queue_config : RunQueueConfig := mkConfig 10 [] 250 180.

Record PoolBlockDetail := mkPoolDetail {
  pb_pool_key : string;
  pb_claimed : N;
  pb_limit : N;
}.

Inductive BlockReason :=
| GlobalRunLimit (current limit : N)
| TagLimit (key : string) (value : option string) (current limit : N)
| PoolFull (pool_key : string) (claimed limit : N)
| PoolsFull (pools : list PoolBlockDetail).

Definition block_reason_display (r : BlockReason) : string :=
  match r with
  | GlobalRunLimit current limit =>
      "global run limit (" +:+ pretty current +:+ "/" +:+ pretty limit +:+ ")"
  | TagLimit key (Some v) current limit =>
      "tag limit: " +:+ key +:+ "=" +:+ v +:+ " (" +:+ pretty current +:+ "/" +:+ pretty limit +:+ ")"
  | TagLimit key None current limit =>
      "tag limit: " +:+ key +:+ " (" +:+ pretty current +:+ "/" +:+ pretty limit +:+ ")"
  | PoolFull pool_key claimed limit =>
      "pool '" +:+ pool_key +:+ "' full (" +:+ pretty claimed +:+ "/" +:+ pretty limit +:+ " slots)"
  | PoolsFull pools =>
      "pools full: " +:+ String.concat ", "
        ((λ p, "'" +:+ pb_pool_key p +:+ "' (" +:+ pretty (pb_claimed p) +:+ "/"
               +:+ pretty (pb_limit p) +:+ ")") <$> pools)
  end.

(** ** The counter *)
Class Tagged (A : Type) := tags : A → list (string * string).

Module TagCounter.
Definition u32_max : N := (2 ^ 32 - 1)%N.

(** [*map.entry(k).or_default() += 1] *)
Definition bump {K} `{Countable K} (k : K) (m : gmap K N) : gmap K N :=
  <[k := u32_incr (default 0%N (m !! k))]> m.

Record TagConcurrencyCounter := mkCounter {
  key_counts : gmap string N;
  key_value_counts : gmap (string * string) N;
  unique_value_counts : gmap string (gmap string N);
  limits : list TagConcurrencyLimit;
}.

Definition count_tag (c : TagConcurrencyCounter) (t : string * string)
    : TagConcurrencyCounter :=
  let '(k, v) := t in
  mkCounter (bump k (key_counts c)) (bump (k, v) (key_value_counts c))
    (<[k := bump v (default ∅ (unique_value_counts c !! k))]> (unique_value_counts c))
    (limits c).

Definition limit_keys (limits : list TagConcurrencyLimit) : gset string :=
  list_to_set (tl_key <$> limits).

Definition from_runs `{Tagged A} (runs : list A) (limits : list TagConcurrencyLimit)
    : TagConcurrencyCounter :=
  foldl (λ c run,
    foldl (λ c t, if bool_decide (t.1 ∈ limit_keys limits) then count_tag c t else c)
      c (tags run)) (mkCounter ∅ ∅ ∅ limits) runs.

(** The first reason found, over a list. *)
Fixpoint first_reason {B} (f : B → option BlockReason) (l : list B) : option BlockReason :=
  match l with
  | [] => None
  | x :: l => match f x with Some r => Some r | None => first_reason f l end
  end.

Definition limit_blocks (c : TagConcurrencyCounter) (run_tags : list (string * string))
    (limit : TagConcurrencyLimit) : option BlockReason :=
  if tl_per_unique_value limit then
    let counts := unique_value_counts c !! tl_key limit in
    first_reason (λ '(k, v),
      if negb (String.eqb k (tl_key limit)) then None else
      let current := default 0%N (m ← counts; m !! v) in
      if (tl_limit limit <=? current)%N
      then Some (TagLimit (tl_key limit) (Some v) current (tl_limit limit)) else None) run_tags
  else
    match tl_value limit with
    | Some required_value =>
        if existsb (λ '(k, v), String.eqb k (tl_key limit) && String.eqb v required_value) run_tags
        then
          let current := default 0%N (key_value_counts c !! (tl_key limit, required_value)) in
          if (tl_limit limit <=? current)%N
          then Some (TagLimit (tl_key limit) (Some required_value) current (tl_limit limit))
          else None
        else None
    | None =>
        if existsb (λ '(k, _), String.eqb k (tl_key limit)) run_tags then
          let current := default 0%N (key_counts c !! tl_key limit) in
          if (tl_limit limit <=? current)%N
          then Some (TagLimit (tl_key limit) None current (tl_limit limit)) else None
        else None
    end.

Definition is_blocked `{Tagged A} (c : TagConcurrencyCounter) (run : A) : option BlockReason :=
  first_reason (limit_blocks c (tags run)) (limits c).

Definition record_launch `{Tagged A} (c : TagConcurrencyCounter) (run : A)
    : TagConcurrencyCounter := foldl count_tag c (tags run).
End TagCounter.

(** ** Runs *)
Inductive RunStatus := Queued | NotStarted | Started | Success | Failure | Canceled.

#[export] Instance RunStatus_eq_dec : EqDecision RunStatus.
Proof. solve_decision. Defined.

Record CoordinatorRunInfo := mkRunInfo {
  ri_run_id : string;
  ri_code_location_id : string;
  ri_tags : list (string * string);
  ri_node_names : list string;
  ri_job_name : option string;
  ri_priority : Z;    (* i32 *)
  ri_partition_key : option PartitionKey;
  ri_start_time : Z;  (* i64 *)
  ri_action : option string;
  ri_config : option string;
}.

#[export] Instance run_info_tagged : Tagged CoordinatorRunInfo := ri_tags.

#[export] Instance CoordinatorRunInfo_eq_dec : EqDecision CoordinatorRunInfo.
Proof. solve_decision. Defined.

(** A row of [runs]: the projection the coordinator reads and the columns it writes. *)
Record RunRow := mkRow {
  rr_info : CoordinatorRunInfo;
  rr_status : RunStatus;
  rr_block_reason : option string;
}.

Record EventRecord := mkEvent {
  ev_code_location_id : string;
  ev_run_id : string;
  ev_event_type : string;
  ev_timestamp : Z;
  ev_metadata : list (string * string);
}.

(** A row of [concurrency_slots], as far as a tick reads it. *)
Record SlotRow := mkSlot {
  sl_pool_key : string;
  sl_run_id : string;
  sl_lease_expires_at : Z;
}.

Module Coordinator.
Import TagCounter.

Record Store := mkStore {
  s_runs : gmap string RunRow;   (* keyed by [run_id], which is unique *)
  s_slots : list SlotRow;
  s_events : list EventRecord;
}.

(** [true]: the statement fails. *)
Record Faults := mkFaults {
  f_query : bool;
  f_reason_all : bool;
  f_reason : string → bool;
  f_status : string → bool;
  f_event : string → bool;
}.

Definition set_status (st : RunStatus) (r : RunRow) : RunRow :=
  mkRow (rr_info r) st (rr_block_reason r).

Definition set_reason (reason : option string) (r : RunRow) : RunRow :=
  mkRow (rr_info r) (rr_status r) reason.

Definition with_runs (f : gmap string RunRow → gmap string RunRow) (s : Store) : Store :=
  mkStore (f (s_runs s)) (s_slots s) (s_events s).

(** [UPDATE runs SET status = $status WHERE run_id = $run_id] *)
Definition update_run_status (run_id : string) (st : RunStatus) : Store → Store :=
  with_runs (alter (set_status st) run_id).

(** [UPDATE runs SET block_reason = $reason WHERE run_id = $run_id] *)
Definition update_run_block_reason (run_id : string) (reason : option string) : Store → Store :=
  with_runs (alter (set_reason reason) run_id).

(** [UPDATE runs SET block_reason = $reason WHERE status = $status AND code_location_id = $cl] *)
Definition set_block_reason_by_status (cl : string) (st : RunStatus) (reason : option string)
    : Store → Store :=
  with_runs (fmap (λ r, if bool_decide (rr_status r = st ∧ ri_code_location_id (rr_info r) = cl)
                        then set_reason reason r else r)).

Definition store_event (e : EventRecord) (s : Store) : Store :=
  mkStore (s_runs s) (s_slots s) (s_events s ++ [e]).

Section tick.
Context `{!HashIter string}.

(** [sort_unstable_by]: equal elements may come out in any order. *)
Context (sort_unstable : (CoordinatorRunInfo → CoordinatorRunInfo → bool) →
           list CoordinatorRunInfo → list CoordinatorRunInfo).

(** The rows of a status, in the order the database returns them. *)
Definition select_runs (p : RunRow → bool) (s : Store) : list CoordinatorRunInfo :=
  omap (λ id, r ← s_runs s !! id; if p r then Some (rr_info r) else None)
    (hash_iter (dom (s_runs s))).

Definition in_location (cl : string) (sts : list RunStatus) (r : RunRow) : bool :=
  bool_decide (rr_status r ∈ sts) && String.eqb (ri_code_location_id (rr_info r)) cl.

Definition coordinator_tick_query (cl : string) (now_ns : Z) (s : Store)
    : nat * list CoordinatorRunInfo * list CoordinatorRunInfo * Store :=
  let expired := length (filter (λ sl, (sl_lease_expires_at sl ≤ now_ns)%Z) (s_slots s)) in
  let s := mkStore (s_runs s)
             (filter (λ sl, ¬ (sl_lease_expires_at sl ≤ now_ns)%Z) (s_slots s)) (s_events s) in
  (expired, select_runs (in_location cl [NotStarted; Started]) s,
   select_runs (in_location cl [Queued]) s, s).

(** priority descending, then start time ascending *)
Definition queue_leb (a b : CoordinatorRunInfo) : bool :=
  match Z.compare (ri_priority b) (ri_priority a) with
  | Lt => true
  | Gt => false
  | Eq => (ri_start_time a <=? ri_start_time b)%Z
  end.

(** The dequeue loop. Blocked runs get their reason written as they are met. *)
Fixpoint dequeue (faults : Faults) (slots_available : N) (counter : TagConcurrencyCounter)
    (to_launch : list CoordinatorRunInfo) (queued : list CoordinatorRunInfo) (s : Store)
    : list CoordinatorRunInfo * Store :=
  match queued with
  | [] => (to_launch, s)
  | run :: queued =>
      if (slots_available <=? lenN to_launch)%N then (to_launch, s)
      else match is_blocked counter run with
           | Some reason =>
               let s := if f_reason faults (ri_run_id run) then s
                        else update_run_block_reason (ri_run_id run)
                               (Some (block_reason_display reason)) s in
               dequeue faults slots_available counter to_launch queued s
           | None =>
               dequeue faults slots_available (record_launch counter run)
                 (to_launch ++ [run]) queued s
           end
  end.

(** The launch loop; [inr] is the error the [?] of a failed status update returns. *)
Fixpoint launch (faults : Faults) (now : Z) (runs : list CoordinatorRunInfo) (s : Store)
    : (unit + string) * Store :=
  match runs with
  | [] => (inl tt, s)
  | run :: runs =>
      if f_status faults (ri_run_id run) then (inr (ri_run_id run), s)
      else
        let s := update_run_status (ri_run_id run) NotStarted s in
        let s := if f_event faults (ri_run_id run) then s
                 else store_event
                        (mkEvent (ri_code_location_id run) (ri_run_id run) "RunDequeued" now
                           [("priority", pretty (ri_priority run))]) s in
        launch faults now runs s
  end.

Definition slots_available (max : Z) (in_progress_count : N) : N :=
  if (max <? 0)%Z then usize_max else (Z.to_N max - in_progress_count)%N.

Definition tick (config : RunQueueConfig) (cl : string) (faults : Faults)
    (now_ns now : Z) (s : Store) : (list CoordinatorRunInfo + string) * Store :=
  if f_query faults then (inr "query", s) else
  let '(_, in_progress_runs, queued, s) := coordinator_tick_query cl now_ns s in
  let in_progress_count := lenN in_progress_runs in
  let max := rq_max_concurrent_runs config in
  if (0 <=? max)%Z && (Z.to_N max <=? in_progress_count)%N then
    let reason := "global run limit (" +:+ pretty in_progress_count +:+ "/" +:+ pretty max +:+ ")" in
    (inl [], if f_reason_all faults then s
             else set_block_reason_by_status cl Queued (Some reason) s)
  else
    let counter := from_runs in_progress_runs (rq_tag_concurrency_limits config) in
    let queued := sort_unstable queue_leb queued in
    let '(to_launch, s) :=
      dequeue faults (slots_available max in_progress_count) counter [] queued s in
    match launch faults now to_launch s with
    | (inl _, s) => (inl to_launch, s)
    | (inr e, s) => (inr e, s)
    end.
End tick.
End Coordinator.
