(* ===== verification/RunQueueTheorems.v ===== *)
(** * The run queue admits greedily and never over a limit

    [greedy] is the abstract admission: visit the queue in order, launch what the
    limits allow given what is in progress and already launched, stop when the
    slots are used. The coordinator's tick, with its counting maps and machine
    integers, computes exactly that; the limits hold for [greedy]. *)

From S2P Require Import Prelude PartitionKey RunQueue.
From stdpp Require Import pretty.

Import TagCounter Coordinator.

(** ** Tag occurrences *)
Abbreviation Tag := (string * string)%type.

(** What a limit counts: the tags of a key, or of a key and value. *)
Definition in_bucket (key : string) (value : option string) (t : Tag) : bool :=
  String.eqb t.1 key && match value with Some v => String.eqb t.2 v | None => true end.

Definition usage (key : string) (value : option string) (T : list Tag) : N :=
  lenN (filter (in_bucket key value) T).

Lemma usage_app key value T1 T2 :
  usage key value (T1 ++ T2) = (usage key value T1 + usage key value T2)%N.
Proof. unfold usage, lenN. rewrite filter_app, length_app. lia. Qed.

Lemma usage_le key value T : (usage key value T ≤ lenN T)%N.
Proof. unfold usage, lenN. pose proof (length_filter (in_bucket key value) T). lia. Qed.

Lemma usage_one key value k v :
  usage key value [(k, v)] = if in_bucket key value (k, v) then 1%N else 0%N.
Proof.
  unfold usage. rewrite filter_cons. by destruct (in_bucket key value (k, v)).
Qed.

(** A run tagged at most once per key adds at most one to any bucket. *)
Lemma usage_nodup key value T : NoDup T.*1 → (usage key value T ≤ 1)%N.
Proof.
  intros Hnd. unfold usage, lenN.
  assert (length (filter (in_bucket key value) T) ≤ 1); [|lia].
  induction T as [|[k v] T IH]; [simpl; lia|]. apply NoDup_cons in Hnd as [Hk Hnd].
  rewrite filter_cons. case_decide as E; [|by apply IH]. simpl. apply le_n_S.
  destruct (filter (in_bucket key value) T) as [|[k' v'] F] eqn:EF; [simpl; lia|]. exfalso.
  assert ((k', v') ∈ filter (in_bucket key value) T) as [Hb Ht]%list_elem_of_filter
    by (rewrite EF; left).
  unfold in_bucket in E, Hb. apply andb_True in E as [E _], Hb as [Hb _].
  simpl in E, Hb. apply Is_true_true, String.eqb_eq in E, Hb. subst. apply Hk.
  by apply (list_elem_of_fmap_2 fst) in Ht.
Qed.

(** ** The counting maps *)
Record CounterOk (L : list TagConcurrencyLimit) (c : TagConcurrencyCounter) (T : list Tag) : Prop := {
  co_limits : limits c = L;
  co_key : ∀ k, k ∈ limit_keys L →
    default 0%N (key_counts c !! k) = (usage k None T mod 2 ^ 32)%N;
  co_key_value : ∀ k v, k ∈ limit_keys L →
    default 0%N (key_value_counts c !! (k, v)) = (usage k (Some v) T mod 2 ^ 32)%N;
  co_unique : ∀ k v, k ∈ limit_keys L →
    default 0%N (m ← unique_value_counts c !! k; m !! v) = (usage k (Some v) T mod 2 ^ 32)%N;
}.

Lemma counter_empty L : CounterOk L (mkCounter ∅ ∅ ∅ L) [].
Proof. by split; intros; rewrite ?lookup_empty. Qed.

Lemma count_tag_ok L c T t : CounterOk L c T → CounterOk L (count_tag c t) (T ++ [t]).
Proof.
  destruct t as [k v]. intros [H1 H2 H3 H4]. split; simpl; [done|..].
  - intros k' Hk'. rewrite usage_app, usage_one. unfold bump.
    unfold in_bucket. simpl. rewrite andb_true_r.
    destruct (String.eqb_spec k k') as [<-|Hne].
    + by rewrite lookup_insert_eq, H2, incr_mod.
    + by rewrite lookup_insert_ne, N.add_0_r, H2.
  - intros k' v' Hk'. rewrite usage_app, usage_one. unfold bump, in_bucket. simpl.
    destruct (String.eqb_spec k k') as [<-|Hne], (String.eqb_spec v v') as [<-|Hne']; simpl.
    + by rewrite lookup_insert_eq, H3, incr_mod.
    + by rewrite lookup_insert_ne, N.add_0_r, H3 by congruence.
    + by rewrite lookup_insert_ne, N.add_0_r, H3 by congruence.
    + by rewrite lookup_insert_ne, N.add_0_r, H3 by congruence.
  - intros k' v' Hk'. rewrite usage_app, usage_one. unfold bump, in_bucket. simpl.
    specialize (H4 k' v' Hk').
    destruct (String.eqb_spec k k') as [<-|Hne]; simpl.
    2: by rewrite lookup_insert_ne, N.add_0_r.
    rewrite lookup_insert_eq. simpl.
    assert (∀ w, default 0%N (default ∅ (unique_value_counts c !! k) !! w) =
      default 0%N (m ← unique_value_counts c !! k; m !! w)) as Hd.
    { intros w. destruct (unique_value_counts c !! k); [done|]. simpl. by rewrite lookup_empty. }
    destruct (String.eqb_spec v v') as [<-|Hne'].
    + by rewrite lookup_insert_eq, Hd, <-incr_mod, <-H4.
    + by rewrite lookup_insert_ne, Hd, N.add_0_r.
Qed.

Lemma skip_tag_ok L c T t : t.1 ∉ limit_keys L → CounterOk L c T → CounterOk L c (T ++ [t]).
Proof.
  destruct t as [k v]. simpl. intros Hk [H1 H2 H3 H4].
  assert (∀ k' o, k' ∈ limit_keys L → usage k' o (T ++ [(k, v)]) = usage k' o T) as Hu.
  { intros k' o Hk'. rewrite usage_app, usage_one. unfold in_bucket. simpl.
    destruct (String.eqb_spec k k') as [->|]; [done|]. simpl. lia. }
  split; intros; rewrite ?Hu by done; auto.
Qed.

Lemma record_launch_ok L c T (run : CoordinatorRunInfo) :
  CounterOk L c T → CounterOk L (record_launch c run) (T ++ tags run).
Proof.
  unfold record_launch. generalize (tags run) as ts. intros ts.
  revert c T. induction ts as [|t ts IH]; intros c T Hc; simpl; [by rewrite app_nil_r|].
  replace (T ++ t :: ts) with ((T ++ [t]) ++ ts) by by rewrite <-app_assoc.
  by apply IH, count_tag_ok.
Qed.

Definition all_tags (runs : list CoordinatorRunInfo) : list Tag := runs ≫= tags.

Lemma all_tags_cons run runs : all_tags (run :: runs) = tags run ++ all_tags runs.
Proof. done. Qed.

Lemma all_tags_snoc runs run : all_tags (runs ++ [run]) = all_tags runs ++ tags run.
Proof. unfold all_tags. rewrite bind_app. simpl. by rewrite app_nil_r. Qed.

Lemma from_runs_ok L (runs : list CoordinatorRunInfo) :
  CounterOk L (from_runs runs L) (all_tags runs).
Proof.
  unfold from_runs, all_tags.
  assert (∀ ts c T, CounterOk L c T → CounterOk L
    (foldl (λ c t, if bool_decide (t.1 ∈ limit_keys L) then count_tag c t else c) c ts) (T ++ ts))
    as Hts.
  { induction ts as [|t ts IH]; intros c T Hc; simpl; [by rewrite app_nil_r|].
    replace (T ++ t :: ts) with ((T ++ [t]) ++ ts) by by rewrite <-app_assoc.
    apply IH. case_bool_decide; [by apply count_tag_ok|by apply skip_tag_ok]. }
  enough (∀ c T, CounterOk L c T → CounterOk L
    (foldl (λ c run, foldl (λ c t, if bool_decide (t.1 ∈ limit_keys L) then count_tag c t else c)
       c (tags run)) c runs) (T ++ (runs ≫= tags))) as Hr.
  { apply (Hr _ []), counter_empty. }
  induction runs as [|run runs IH]; intros c T Hc; [simpl; by rewrite app_nil_r|].
  rewrite bind_cons, app_assoc. cbn [foldl]. by apply IH, Hts.
Qed.

(** ** Admission by a limit *)
Definition has_tag (key : string) (value : option string) (ts : list Tag) : bool :=
  existsb (in_bucket key value) ts.

Definition limit_admits (T : list Tag) (ts : list Tag) (l : TagConcurrencyLimit) : bool :=
  if tl_per_unique_value l then
    forallb (λ t, negb (String.eqb t.1 (tl_key l)) ||
                  (usage (tl_key l) (Some t.2) T <? tl_limit l)%N) ts
  else
    negb (has_tag (tl_key l) (tl_value l) ts) ||
    (usage (tl_key l) (tl_value l) T <? tl_limit l)%N.

Definition admits (L : list TagConcurrencyLimit) (T : list Tag) (run : CoordinatorRunInfo) : bool :=
  forallb (limit_admits T (tags run)) L.

Lemma first_reason_None {B} (f : B → option BlockReason) l :
  first_reason f l = None ↔ Forall (λ x, f x = None) l.
Proof.
  induction l as [|x l IH]; simpl; [by split|]. rewrite Forall_cons.
  destruct (f x); [split; [done|by intros []]|]. rewrite IH. naive_solver.
Qed.

Lemma first_reason_Some {B} (f : B → option BlockReason) l r :
  first_reason f l = Some r → ∃ x, x ∈ l ∧ f x = Some r.
Proof.
  induction l as [|x l IH]; simpl; [done|]. destruct (f x) eqn:E.
  - intros [= ->]. exists x. split; [left|done].
  - intros (y & ? & ?)%IH. exists y. split; [by right|done].
Qed.

Section admission.
Context (L : list TagConcurrencyLimit) (c : TagConcurrencyCounter) (T : list Tag).
Context (Hc : CounterOk L c T) (Hfit : (lenN T < 2 ^ 32)%N).

Lemma usage_fits k o : (usage k o T mod 2 ^ 32)%N = usage k o T.
Proof. apply N.mod_small. pose proof (usage_le k o T). lia. Qed.

Lemma limit_in_keys l : l ∈ L → tl_key l ∈ limit_keys L.
Proof. intros. apply elem_of_list_to_set, list_elem_of_fmap. eauto. Qed.

Lemma has_tag_key key ts :
  existsb (λ '(k, _), String.eqb k key) ts = has_tag key None ts.
Proof.
  unfold has_tag. induction ts as [|[k v] ts IH]; [done|]. simpl. rewrite IH.
  unfold in_bucket. simpl. by rewrite andb_true_r.
Qed.

Lemma has_tag_key_value key v ts :
  existsb (λ '(k, w), String.eqb k key && String.eqb w v) ts = has_tag key (Some v) ts.
Proof. unfold has_tag. by induction ts as [|[k w] ts IH]; simpl; [|rewrite IH]. Qed.

(** What a limit says about a run, in terms of the tags it counts. *)
Lemma limit_blocks_spec ts l :
  l ∈ L →
  match limit_blocks c ts l with
  | None => limit_admits T ts l = true
  | Some r => limit_admits T ts l = false ∧
      ∃ value, r = TagLimit (tl_key l) value (usage (tl_key l) value T) (tl_limit l) ∧
        (tl_limit l ≤ usage (tl_key l) value T)%N
  end.
Proof.
  intros Hl%limit_in_keys. destruct Hc as [_ H2 H3 H4]. unfold limit_blocks, limit_admits.
  destruct (tl_per_unique_value l).
  - induction ts as [|[k v] ts IH]; [done|]. simpl.
    destruct (String.eqb_spec k (tl_key l)) as [->|Hne]; simpl; [|exact IH].
    rewrite H4, usage_fits by done.
    destruct (N.leb_spec (tl_limit l) (usage (tl_key l) (Some v) T)) as [Hle|Hlt].
    + assert ((usage (tl_key l) (Some v) T <? tl_limit l)%N = false) as -> by by apply N.ltb_ge.
      split; [done|]. by exists (Some v).
    + assert ((usage (tl_key l) (Some v) T <? tl_limit l)%N = true) as -> by by apply N.ltb_lt.
      exact IH.
  - destruct (tl_value l) as [v|].
    + rewrite has_tag_key_value, H3, usage_fits by done.
      destruct (has_tag (tl_key l) (Some v) ts); simpl; [|done].
      destruct (N.leb_spec (tl_limit l) (usage (tl_key l) (Some v) T)) as [Hle|Hlt].
      * split; [by apply N.ltb_ge|]. by exists (Some v).
      * by apply N.ltb_lt.
    + rewrite has_tag_key, H2, usage_fits by done.
      destruct (has_tag (tl_key l) None ts); simpl; [|done].
      destruct (N.leb_spec (tl_limit l) (usage (tl_key l) None T)) as [Hle|Hlt].
      * split; [by apply N.ltb_ge|]. by exists None.
      * by apply N.ltb_lt.
Qed.

Lemma is_blocked_spec (run : CoordinatorRunInfo) :
  match is_blocked c run with
  | None => admits L T run = true
  | Some r => admits L T run = false ∧
      ∃ l value, l ∈ L ∧ r = TagLimit (tl_key l) value (usage (tl_key l) value T) (tl_limit l) ∧
        (tl_limit l ≤ usage (tl_key l) value T)%N
  end.
Proof.
  unfold is_blocked. rewrite (co_limits _ _ _ Hc). unfold admits.
  destruct (first_reason (limit_blocks c (tags run)) L) as [r|] eqn:E.
  - apply first_reason_Some in E as (l & Hl & Hr).
    pose proof (limit_blocks_spec (tags run) l Hl) as Hs. rewrite Hr in Hs.
    destruct Hs as (Hf & value & -> & Hle). split; [|by exists l, value].
    apply not_true_iff_false. rewrite forallb_Forall, Forall_forall. intros Hall.
    rewrite Hall in Hf; done.
  - apply first_reason_None in E. apply forallb_Forall, Forall_forall. intros l Hl.
    rewrite Forall_forall in E. pose proof (limit_blocks_spec (tags run) l Hl) as Hs.
    by rewrite (E l Hl) in Hs.
Qed.
End admission.

(** ** Greedy admission *)
Section greedy.
Context (L : list TagConcurrencyLimit).

Fixpoint greedy (slots : N) (T : list Tag) (queue : list CoordinatorRunInfo)
    : list CoordinatorRunInfo :=
  match queue with
  | [] => []
  | run :: queue =>
      if (slots =? 0)%N then []
      else if admits L T run then run :: greedy (slots - 1) (T ++ tags run) queue
      else greedy slots T queue
  end.

Lemma greedy_0 T q : greedy 0 T q = [].
Proof. by destruct q. Qed.

Lemma greedy_length slots T q : (lenN (greedy slots T q) ≤ slots)%N.
Proof.
  revert slots T. induction q as [|r q IH]; intros slots T; simpl; [unfold lenN; simpl; lia|].
  destruct (N.eqb_spec slots 0) as [->|Hs]; [done|].
  destruct (admits L T r); [|done].
  specialize (IH (slots - 1)%N (T ++ tags r)). unfold lenN in *. simpl. lia.
Qed.

Lemma greedy_sublist slots T q : greedy slots T q `sublist_of` q.
Proof.
  revert slots T. induction q as [|r q IH]; intros slots T; simpl; [done|].
  destruct (slots =? 0)%N; [apply sublist_nil_l|].
  destruct (admits L T r); [by apply sublist_skip|by apply sublist_cons].
Qed.

(** A limit governs the bucket of its key (and value, or of each value). *)
Definition governs (l : TagConcurrencyLimit) (value : option string) : Prop :=
  if tl_per_unique_value l then is_Some value else value = tl_value l.

Lemma usage_0 key value ts : has_tag key value ts = false → usage key value ts = 0%N.
Proof.
  unfold usage, has_tag. induction ts as [|t ts IH]; [done|]. simpl.
  intros [Ht Hts]%orb_false_iff. rewrite filter_cons. case_decide as E; [|by apply IH].
  by rewrite Ht in E.
Qed.

Lemma has_tag_elem key v ts : has_tag key (Some v) ts = true → (key, v) ∈ ts.
Proof.
  unfold has_tag. intros ([k w] & Ht & Hb)%existsb_Exists%Exists_exists.
  unfold in_bucket in Hb. simpl in Hb. apply andb_true_iff in Hb as [Hk Hv].
  by apply String.eqb_eq in Hk as ->, Hv as ->.
Qed.

Lemma admits_room T run l value :
  l ∈ L → governs l value → admits L T run = true →
  has_tag (tl_key l) value (tags run) = true → (usage (tl_key l) value T < tl_limit l)%N.
Proof.
  intros Hl Hg Ha Ht. unfold admits in Ha. apply forallb_Forall in Ha.
  rewrite Forall_forall in Ha. specialize (Ha l Hl). unfold limit_admits in Ha.
  unfold governs in Hg. destruct (tl_per_unique_value l).
  - destruct Hg as [v ->]. apply forallb_Forall in Ha. rewrite Forall_forall in Ha.
    specialize (Ha _ (has_tag_elem _ _ _ Ht)). simpl in Ha. rewrite String.eqb_refl in Ha.
    by apply N.ltb_lt.
  - subst value. rewrite Ht in Ha. by apply N.ltb_lt.
Qed.

Lemma admits_usage T run l value :
  l ∈ L → governs l value → NoDup (tags run).*1 → admits L T run = true →
  (usage (tl_key l) value (T ++ tags run) ≤ N.max (tl_limit l) (usage (tl_key l) value T))%N.
Proof.
  intros Hl Hg Hnd Ha. rewrite usage_app.
  destruct (has_tag (tl_key l) value (tags run)) eqn:Ht.
  - pose proof (admits_room T run l value Hl Hg Ha Ht).
    pose proof (usage_nodup (tl_key l) value (tags run) Hnd). lia.
  - rewrite (usage_0 _ _ _ Ht). lia.
Qed.

Lemma greedy_usage slots T q l value :
  l ∈ L → governs l value → Forall (λ r, NoDup (tags r).*1) q →
  (usage (tl_key l) value (T ++ all_tags (greedy slots T q)) ≤
   N.max (tl_limit l) (usage (tl_key l) value T))%N.
Proof.
  intros Hl Hg. revert slots T. induction q as [|r q IH]; intros slots T Hq; simpl.
  { rewrite app_nil_r. lia. }
  apply Forall_cons in Hq as [Hr Hq]. destruct (slots =? 0)%N; [simpl; rewrite app_nil_r; lia|].
  destruct (admits L T r) eqn:Ha; [|by apply IH].
  rewrite all_tags_cons, app_assoc.
  pose proof (IH (slots - 1)%N (T ++ tags r) Hq).
  pose proof (admits_usage T r l value Hl Hg Hr Ha). lia.
Qed.

(** A run is launched exactly when a slot is free at its turn and the limits
    admit it next to what is in progress and launched ahead of it. *)
Lemma greedy_app slots T q1 q2 :
  greedy slots T (q1 ++ q2) =
  greedy slots T q1 ++
  greedy (slots - lenN (greedy slots T q1)) (T ++ all_tags (greedy slots T q1)) q2.
Proof.
  revert slots T. induction q1 as [|r q1 IH]; intros slots T.
  { simpl. by rewrite N.sub_0_r, app_nil_r. }
  simpl. destruct (N.eqb_spec slots 0) as [->|Hs]; [by rewrite greedy_0|].
  destruct (admits L T r); [|by apply IH]. rewrite IH, all_tags_cons, app_assoc. simpl.
  do 3 f_equal. unfold lenN. simpl. lia.
Qed.
End greedy.

(** ** The dequeue loop computes the greedy admission *)
Section dequeue.
Context (faults : Faults) (L : list TagConcurrencyLimit).

Lemma dequeue_greedy slots c T launched q s :
  CounterOk L c T → (lenN (T ++ all_tags q) < 2 ^ 32)%N →
  (dequeue faults slots c launched q s).1 = launched ++ greedy L (slots - lenN launched) T q.
Proof.
  revert c T launched s. induction q as [|r q IH]; intros c T launched s Hc Hfit; simpl.
  { by rewrite app_nil_r. }
  assert (lenN (T ++ all_tags (r :: q)) = lenN T + lenN (tags r) + lenN (all_tags q))%N as Hlen.
  { unfold lenN. rewrite all_tags_cons, !length_app. lia. }
  assert (∀ T', lenN (T' ++ all_tags q) = lenN T' + lenN (all_tags q))%N as Hlen'.
  { intros. unfold lenN. rewrite length_app. lia. }
  destruct (N.leb_spec slots (lenN launched)) as [Hle|Hgt].
  { replace (slots - lenN launched)%N with 0%N by lia. simpl. by rewrite app_nil_r. }
  destruct (N.eqb_spec (slots - lenN launched) 0) as [|_]; [lia|].
  pose proof (is_blocked_spec L c T Hc ltac:(lia) r) as Hb.
  destruct (is_blocked c r) as [reason|].
  - destruct Hb as [-> _]. apply IH; [done|]. rewrite Hlen'. lia.
  - rewrite Hb. rewrite (IH _ (T ++ tags r)).
    + rewrite <-app_assoc. simpl. do 3 f_equal. unfold lenN. rewrite length_app. simpl. lia.
    + by apply record_launch_ok.
    + rewrite Hlen'. unfold lenN in *. rewrite length_app. lia.
Qed.
End dequeue.

(** ** Effect on the tables *)
Section store.
Context `{!HashIter string}.

(** What a run row says apart from its block reason. *)
Definition view (s : Store) (id : string) : option (CoordinatorRunInfo * RunStatus) :=
  (λ r, (rr_info r, rr_status r)) <$> s_runs s !! id.

Definition store_wf (s : Store) : Prop :=
  ∀ id r, s_runs s !! id = Some r → ri_run_id (rr_info r) = id.

Lemma store_wf_view s id i st : store_wf s → view s id = Some (i, st) → ri_run_id i = id.
Proof.
  intros Hwf. unfold view. intros (r & Hr & [= -> ->])%fmap_Some_1. by apply Hwf.
Qed.

Lemma elem_of_select cl sts s run :
  store_wf s →
  run ∈ select_runs (in_location cl sts) s ↔
  ∃ st, view s (ri_run_id run) = Some (run, st) ∧ st ∈ sts ∧ ri_code_location_id run = cl.
Proof.
  intros Hwf. unfold select_runs. rewrite list_elem_of_omap. unfold view, in_location. split.
  - intros (id & _ & Hid). destruct (s_runs s !! id) as [r|] eqn:Hr; simpl in Hid; [|done].
    case_bool_decide as Hst; simpl in Hid; [|done].
    destruct (String.eqb_spec (ri_code_location_id (rr_info r)) cl) as [Hcl|]; [|done].
    injection Hid as <-. rewrite (Hwf id r Hr), Hr. by exists (rr_status r).
  - intros (st & (r & Hr & [= -> ->])%fmap_Some_1 & Hst & Hcl). exists (ri_run_id (rr_info r)).
    split; [apply elem_of_hash_iter, elem_of_dom; by eexists|]. rewrite Hr. simpl.
    by rewrite bool_decide_eq_true_2, Hcl, String.eqb_refl by done.
Qed.

Lemma NoDup_omap_inj {A B} (f : A → option B) l :
  NoDup l → (∀ x y b, x ∈ l → y ∈ l → f x = Some b → f y = Some b → x = y) → NoDup (omap f l).
Proof.
  induction 1 as [|x l Hx Hnd IH]; intros Hinj; [constructor|]. cbn [omap list_omap].
  assert (NoDup (omap f l)) as Hl.
  { apply IH. intros y z b Hy Hz. apply Hinj; by right. }
  destruct (f x) as [b|] eqn:E; [|done]. constructor; [|done].
  intros (y & Hy & Ey)%list_elem_of_omap. apply Hx.
  rewrite (Hinj x y b); [done|left|by right|done..].
Qed.

Lemma NoDup_select cl sts s : store_wf s → NoDup (select_runs (in_location cl sts) s).
Proof.
  intros Hwf. unfold select_runs. apply NoDup_omap_inj.
  - rewrite hash_iter_perm. apply NoDup_elements.
  - assert (∀ id b, (r ← s_runs s !! id; if in_location cl sts r then Some (rr_info r) else None)
      = Some b → ri_run_id b = id) as Hid.
    { intros id b. destruct (s_runs s !! id) as [r|] eqn:Hr; simpl; [|done].
      destruct (in_location cl sts r); [|done]. intros [= <-]. by apply Hwf. }
    intros x y b _ _ Hx Hy. by rewrite <-(Hid x b Hx), <-(Hid y b Hy).
Qed.

Lemma view_alter f id s j :
  view (with_runs (alter f id) s) j =
  if decide (j = id) then (λ r, (rr_info (f r), rr_status (f r))) <$> s_runs s !! j
  else view s j.
Proof.
  unfold view, with_runs. simpl. case_decide as E.
  - subst j. rewrite lookup_alter_eq. by destruct (s_runs s !! id).
  - by rewrite lookup_alter_ne.
Qed.

Lemma view_reason id r s j : view (update_run_block_reason id r s) j = view s j.
Proof. unfold update_run_block_reason. rewrite view_alter. by case_decide. Qed.

Lemma view_reason_all cl st r s j : view (set_block_reason_by_status cl st r s) j = view s j.
Proof.
  unfold view, set_block_reason_by_status, with_runs. simpl. rewrite lookup_fmap.
  destruct (s_runs s !! j); simpl; [|done]. by case_bool_decide.
Qed.

Lemma view_event e s j : view (store_event e s) j = view s j.
Proof. done. Qed.

Lemma store_wf_same s s' : (∀ j, view s' j = view s j) → store_wf s → store_wf s'.
Proof.
  intros Hv Hwf id r Hr. eapply store_wf_view; [exact Hwf|]. rewrite <-Hv. unfold view.
  by rewrite Hr.
Qed.

Lemma select_same cl sts s s' :
  store_wf s → (∀ j, view s' j = view s j) →
  select_runs (in_location cl sts) s' ≡ₚ select_runs (in_location cl sts) s.
Proof.
  intros Hwf Hv. assert (store_wf s') as Hwf' by by eapply store_wf_same.
  apply NoDup_Permutation; [by apply NoDup_select..|]. intros run.
  rewrite !elem_of_select by done. by setoid_rewrite Hv.
Qed.

Lemma dequeue_view faults slots c launched q s j :
  view (dequeue faults slots c launched q s).2 j = view s j.
Proof.
  revert c launched s. induction q as [|r q IH]; intros c launched s; simpl; [done|].
  destruct (slots <=? lenN launched)%N; [done|]. destruct (is_blocked c r); [|by rewrite IH].
  rewrite IH. destruct (f_reason faults (ri_run_id r)); [done|]. apply view_reason.
Qed.

Definition started (done_ids : list string) (id : string)
    (v : option (CoordinatorRunInfo * RunStatus)) : option (CoordinatorRunInfo * RunStatus) :=
  if decide (id ∈ done_ids) then (λ p, (p.1, NotStarted)) <$> v else v.

(** The launch loop moves a prefix of its runs to [NotStarted] and touches no other row. *)
Lemma launch_view faults now runs s :
  let '(res, s') := launch faults now runs s in
  ∃ dn rest, runs = dn ++ rest ∧
    match res with inl _ => rest = [] | inr _ => rest ≠ [] end ∧
    ∀ j, view s' j = started (ri_run_id <$> dn) j (view s j).
Proof.
  revert s. induction runs as [|r runs IH]; intros s; simpl.
  { exists [], []. split_and!; [done..|]. intros j. unfold started. by rewrite decide_False by set_solver. }
  destruct (f_status faults (ri_run_id r)).
  { exists [], (r :: runs). split_and!; [done..|]. intros j. unfold started.
    by rewrite decide_False by set_solver. }
  set (s1 := if f_event faults (ri_run_id r) then _ else _).
  assert (∀ j, view s1 j = started [ri_run_id r] j (view s j)) as Hs1.
  { intros j. transitivity (view (update_run_status (ri_run_id r) NotStarted s) j).
    { unfold s1. by destruct (f_event faults (ri_run_id r)). }
    unfold update_run_status. rewrite view_alter. unfold started.
    destruct (decide (j = ri_run_id r)) as [->|Hne].
    - rewrite decide_True by left. unfold view. by destruct (s_runs s !! ri_run_id r).
    - rewrite decide_False; [done|]. by intros ?%list_elem_of_singleton. }
  specialize (IH s1). destruct (launch faults now runs s1) as [res s'].
  destruct IH as (dn & rest & -> & Hres & Hv). exists (r :: dn), rest. split_and!; [done..|].
  intros j. rewrite Hv, Hs1. unfold started. rewrite fmap_cons.
  destruct (decide (j ∈ ri_run_id r :: (ri_run_id <$> dn))) as [Hc|Hc].
  - apply elem_of_cons in Hc.
    destruct (decide (j ∈ ri_run_id <$> dn)), (decide (j ∈ [ri_run_id r])); try done.
    + by destruct (view s j).
    + set_solver.
  - rewrite !decide_False; [done|..]; set_solver.
Qed.

(** Rows that were queued and are now started are the only ones added to the
    runs in progress. *)
Lemma select_started cl s s' (dn : list CoordinatorRunInfo) :
  store_wf s → NoDup dn →
  (∀ run, run ∈ dn → run ∈ select_runs (in_location cl [Queued]) s) →
  (∀ j, view s' j = started (ri_run_id <$> dn) j (view s j)) →
  select_runs (in_location cl [NotStarted; Started]) s' ≡ₚ
  select_runs (in_location cl [NotStarted; Started]) s ++ dn.
Proof.
  intros Hwf Hnd Hq Hv.
  assert (store_wf s') as Hwf'.
  { intros id r Hr. assert (view s' id = Some (rr_info r, rr_status r)) as Hvr
      by (unfold view; by rewrite Hr).
    rewrite Hv in Hvr. unfold started in Hvr. case_decide; [|by eapply store_wf_view].
    apply fmap_Some_1 in Hvr as ([i st] & Hvs & [= -> _]). by eapply store_wf_view. }
  assert (∀ run, run ∈ dn → view s (ri_run_id run) = Some (run, Queued) ∧
    ri_code_location_id run = cl) as Hdn.
  { intros run (st & Hst & Hin & Hcl)%Hq%elem_of_select; [|done].
    by apply list_elem_of_singleton in Hin as ->. }
  assert (∀ run, ri_run_id run ∈ ri_run_id <$> dn → view s (ri_run_id run) = Some (run, NotStarted) ∨
    view s (ri_run_id run) = Some (run, Started) → False) as Hdis.
  { intros run (run' & Hid & Hin)%list_elem_of_fmap. apply Hdn in Hin as [Hin _].
    rewrite Hid, Hin. by intros [|]. }
  apply NoDup_Permutation; [by apply NoDup_select| |].
  { apply NoDup_app. split_and!; [by apply NoDup_select| |done].
    intros run (st & Hst & Hin & _)%elem_of_select Hd; [|done].
    apply (Hdis run); [by apply list_elem_of_fmap_2|]. set_solver. }
  intros run. rewrite elem_of_app, !elem_of_select by done. rewrite Hv. unfold started.
  case_decide as Hin.
  - apply list_elem_of_fmap in Hin as (run' & Hid & Hin'). pose proof (Hdn _ Hin') as [Hv' Hcl'].
    rewrite Hid, Hv'. simpl. split.
    + intros (st & [= <- <-] & _). by right.
    + intros [(st & [= <- <-] & ?%elem_of_cons & _)|Hr]; [set_solver|].
      exists NotStarted. pose proof (Hdn _ Hr) as [Hvr Hclr].
      rewrite Hid, Hv' in Hvr. injection Hvr as ->. split_and!; [done|left|done].
  - split; [by left|]. intros [?|Hr]; [done|]. destruct Hin. by apply list_elem_of_fmap_2.
Qed.
End store.

Lemma queue_leb_trans x y z : queue_leb x y → queue_leb y z → queue_leb x z.
Proof.
  unfold queue_leb.
  destruct (Z.compare_spec (ri_priority y) (ri_priority x)),
    (Z.compare_spec (ri_priority z) (ri_priority y)),
    (Z.compare_spec (ri_priority z) (ri_priority x)); try done; try lia.
  rewrite !Is_true_true, !Z.leb_le. lia.
Qed.

Lemma queue_leb_total x y : queue_leb x y ∨ queue_leb y x.
Proof.
  unfold queue_leb.
  destruct (Z.compare_spec (ri_priority y) (ri_priority x)),
    (Z.compare_spec (ri_priority x) (ri_priority y)); try lia; auto.
  rewrite !Is_true_true, !Z.leb_le. lia.
Qed.

(** What [slice::sort_unstable_by] documents: a permutation, sorted when the
    comparison is a total order up to ties. *)
Class SortUnstable
    (sort : (CoordinatorRunInfo → CoordinatorRunInfo → bool) →
            list CoordinatorRunInfo → list CoordinatorRunInfo) : Prop := {
  su_perm : ∀ leb l, sort leb l ≡ₚ l;
  su_sorted : ∀ (leb : CoordinatorRunInfo → CoordinatorRunInfo → bool) l, (∀ x y z, leb x y → leb y z → leb x z) → (∀ x y, leb x y ∨ leb y x) →
    StronglySorted leb (sort leb l);
}.

#[export] Instance sort_by_unstable : SortUnstable (@sort_by CoordinatorRunInfo).
Proof. split; intros; [apply sort_by_perm|by apply sort_by_sorted]. Qed.

Section tick.
Context `{!HashIter string}.
Context (sort_unstable : (CoordinatorRunInfo → CoordinatorRunInfo → bool) →
           list CoordinatorRunInfo → list CoordinatorRunInfo) `{!SortUnstable sort_unstable}.
Context (config : RunQueueConfig) (cl : string).

Abbreviation L := (rq_tag_concurrency_limits config).
Abbreviation maxr := (rq_max_concurrent_runs config).

Definition in_progress (s : Store) : list CoordinatorRunInfo :=
  select_runs (in_location cl [NotStarted; Started]) s.
Definition queued (s : Store) : list CoordinatorRunInfo :=
  select_runs (in_location cl [Queued]) s.
Definition queue (s : Store) : list CoordinatorRunInfo := sort_unstable queue_leb (queued s).

(** The tag counters do not wrap. *)
Definition tags_fit (s : Store) : Prop :=
  (lenN (all_tags (in_progress s) ++ all_tags (queued s)) < 2 ^ 32)%N.

(** The runs a tick admits. *)
Definition admitted (s : Store) : list CoordinatorRunInfo :=
  greedy L (slots_available maxr (lenN (in_progress s))) (all_tags (in_progress s)) (queue s).

Lemma admitted_full s :
  (0 <=? maxr)%Z && (Z.to_N maxr <=? lenN (in_progress s))%N = true → admitted s = [].
Proof.
  intros [Hm%Z.leb_le Hle%N.leb_le]%andb_true_iff. unfold admitted, slots_available.
  destruct (Z.ltb_spec maxr 0); [lia|].
  replace (Z.to_N maxr - _)%N with 0%N by lia. apply greedy_0.
Qed.

Lemma lenN_all_tags_perm l l' : l ≡ₚ l' → lenN (all_tags l) = lenN (all_tags l').
Proof. intros Hp. unfold lenN, all_tags. by rewrite Hp. Qed.

Lemma tick_effect faults now_ns now s :
  tags_fit s → f_query faults = false →
  let '(res, s') := tick sort_unstable config cl faults now_ns now s in
  ∃ dn rest, admitted s = dn ++ rest ∧
    match res with inl launched => launched = admitted s ∧ rest = [] | inr _ => rest ≠ [] end ∧
    ∀ j, view s' j = started (ri_run_id <$> dn) j (view s j).
Proof.
  intros Hfit Hq. unfold tick. rewrite Hq. unfold coordinator_tick_query.
  set (s0 := mkStore (s_runs s) _ (s_events s)).
  change (select_runs (in_location cl [NotStarted; Started]) s0) with (in_progress s).
  change (select_runs (in_location cl [Queued]) s0) with (queued s).
  assert (∀ j, view s0 j = view s j) as Hv0 by done.
  destruct (_ && _) eqn:Efull.
  { exists [], []. rewrite (admitted_full s Efull). split_and!; [done..|]. intros j.
    unfold started. rewrite decide_False by set_solver.
    destruct (f_reason_all faults); [done|]. by rewrite view_reason_all. }
  fold (queue s).
  pose proof (dequeue_greedy faults L (slots_available maxr (lenN (in_progress s)))
    (from_runs (in_progress s) L) (all_tags (in_progress s)) [] (queue s) s0
    (from_runs_ok L (in_progress s))) as Hg.
  pose proof (dequeue_view faults (slots_available maxr (lenN (in_progress s)))
    (from_runs (in_progress s) L) [] (queue s) s0) as Hv.
  destruct (dequeue _ _ _ _ _ _) as [to_launch s1]. simpl in Hg, Hv.
  rewrite N.sub_0_r in Hg. fold (admitted s) in Hg. rewrite Hg.
  2: { unfold tags_fit, lenN in *. rewrite length_app in *.
       pose proof (lenN_all_tags_perm (queue s) (queued s) (su_perm _ _)) as Hl.
       unfold lenN in Hl. lia. }
  pose proof (launch_view faults now (admitted s) s1) as Hl.
  destruct (launch faults now (admitted s) s1) as [res s2].
  destruct Hl as (dn & rest & Hdn & Hres & Hv2).
  assert (∀ j, view s2 j = started (ri_run_id <$> dn) j (view s j)) as Hvs
    by (intros j; by rewrite Hv2, Hv, Hv0).
  by destruct res as [u|e]; exists dn, rest.
Qed.

Lemma admitted_queued s run : run ∈ admitted s → run ∈ queued s.
Proof.
  intros Hr. assert (run ∈ queue s) as Hq by by eapply elem_of_sublist; [|apply greedy_sublist].
  unfold queue in Hq. by rewrite su_perm in Hq.
Qed.

Lemma NoDup_admitted s : store_wf s → NoDup (admitted s).
Proof.
  intros Hwf. eapply sublist_NoDup; [|apply greedy_sublist]. unfold queue. rewrite su_perm.
  by apply NoDup_select.
Qed.

Lemma tick_in_progress faults now_ns now s :
  store_wf s → tags_fit s →
  let s' := (tick sort_unstable config cl faults now_ns now s).2 in
  ∃ dn rest, admitted s = dn ++ rest ∧ in_progress s' ≡ₚ in_progress s ++ dn.
Proof.
  intros Hwf Hfit. destruct (f_query faults) eqn:Hq.
  { exists [], (admitted s). unfold tick. rewrite Hq. split; [done|]. by rewrite app_nil_r. }
  pose proof (tick_effect faults now_ns now s Hfit Hq) as He.
  destruct (tick _ _ _ _ _ _ _) as [res s']. simpl.
  destruct He as (dn & rest & Hdn & _ & Hv). exists dn, rest. split; [done|].
  apply select_started; [done| | |done].
  - pose proof (NoDup_admitted s Hwf) as Hnd. rewrite Hdn in Hnd. by apply NoDup_app in Hnd as [? _].
  - intros run Hr. apply admitted_queued. rewrite Hdn. apply elem_of_app. by left.
Qed.

(** C4: a successful tick launches exactly the greedy admission: it visits the
    queued runs of its code location by descending priority and then ascending
    start time, and launches each one for which a slot is free and every tag
    limit has room next to the runs in progress and those launched ahead of it.
    The launched runs become [NotStarted]; no other run changes status. *)
Theorem tick_greedy faults now_ns now s launched s' :
  store_wf s → tags_fit s →
  tick sort_unstable config cl faults now_ns now s = (inl launched, s') →
  queue s ≡ₚ queued s ∧ StronglySorted queue_leb (queue s) ∧
  launched = greedy L (slots_available maxr (lenN (in_progress s)))
               (all_tags (in_progress s)) (queue s) ∧
  (∀ q1 run q2, queue s = q1 ++ run :: q2 →
     run ∈ launched ↔
     let ahead := greedy L (slots_available maxr (lenN (in_progress s)))
                    (all_tags (in_progress s)) q1 in
     (lenN ahead < slots_available maxr (lenN (in_progress s)))%N ∧
     admits L (all_tags (in_progress s) ++ all_tags ahead) run = true) ∧
  (∀ id, view s' id = started (ri_run_id <$> launched) id (view s id)).
Proof.
  intros Hwf Hfit Ht. assert (f_query faults = false) as Hq.
  { destruct (f_query faults) eqn:E; [|done]. unfold tick in Ht. by rewrite E in Ht. }
  pose proof (tick_effect faults now_ns now s Hfit Hq) as He. rewrite Ht in He.
  destruct He as (dn & rest & Hdn & [-> ->] & Hv). rewrite app_nil_r in Hdn. subst dn.
  split_and!; [apply su_perm|apply su_sorted; [apply queue_leb_trans|apply queue_leb_total]|done| |done].
  intros q1 run q2 Hqs. cbv zeta.
  assert (NoDup (q1 ++ run :: q2)) as Hnd.
  { rewrite <-Hqs. unfold queue. rewrite su_perm. by apply NoDup_select. }
  apply NoDup_app in Hnd as (_ & Hdis & [Hni _]%NoDup_cons).
  unfold admitted. rewrite Hqs, greedy_app, elem_of_app.
  set (slots := slots_available _ _). set (ahead := greedy L slots _ q1).
  assert (run ∉ ahead) as Hna.
  { intros Hin. eapply elem_of_sublist in Hin; [|apply greedy_sublist].
    apply (Hdis run Hin). left. }
  cbn [greedy]. destruct (N.eqb_spec (slots - lenN ahead) 0) as [Hz|Hz].
  { split; [by intros [?|?%elem_of_nil]|]. intros [Hlt _]. lia. }
  destruct (admits L (all_tags (in_progress s) ++ all_tags ahead) run) eqn:Ea.
  - split; [intros _; split; [lia|done]|]. intros _. right. left.
  - split; [|by intros [_ ?]]. intros [?|Hin]; [done|].
    eapply elem_of_sublist in Hin; [|apply greedy_sublist]. done.
Qed.

(** C5: whatever statements of a tick fail, it never takes the location over its
    limits: the runs in progress afterwards are at most [max_concurrent_runs]
    (unless there were already more), and for each tag limit the runs in progress
    that it counts are at most the limit (unless there were already more), for
    runs that carry a key at most once. *)
Theorem tick_respects_limits faults now_ns now s :
  store_wf s → tags_fit s → Forall (λ r, NoDup (tags r).*1) (queued s) →
  let s' := (tick sort_unstable config cl faults now_ns now s).2 in
  ((0 ≤ maxr)%Z → (lenN (in_progress s') ≤ N.max (Z.to_N maxr) (lenN (in_progress s)))%N) ∧
  (∀ l value, l ∈ L → governs l value →
     (usage (tl_key l) value (all_tags (in_progress s')) ≤
      N.max (tl_limit l) (usage (tl_key l) value (all_tags (in_progress s))))%N).
Proof.
  intros Hwf Hfit Htags s'.
  destruct (tick_in_progress faults now_ns now s Hwf Hfit) as (dn & rest & Hdn & Hp).
  fold s' in Hp. split.
  - intros Hm.
    pose proof (greedy_length L (slots_available maxr (lenN (in_progress s)))
      (all_tags (in_progress s)) (queue s)) as Hlen. fold (admitted s) in Hlen. rewrite Hdn in Hlen.
    unfold slots_available in Hlen. destruct (Z.ltb_spec maxr 0); [lia|].
    unfold lenN in *. rewrite Hp, !length_app in *. lia.
  - intros l value Hl Hg.
    assert (usage (tl_key l) value (all_tags (in_progress s')) =
      usage (tl_key l) value (all_tags (in_progress s) ++ all_tags dn)) as ->.
    { unfold usage, lenN, all_tags. rewrite Hp. by rewrite bind_app. }
    pose proof (greedy_usage L (slots_available maxr (lenN (in_progress s)))
      (all_tags (in_progress s)) (queue s) l value Hl Hg) as Hu.
    fold (admitted s) in Hu. rewrite Hdn in Hu. unfold all_tags in Hu at 2.
    rewrite bind_app, !usage_app in Hu. rewrite usage_app. unfold all_tags at 2.
    enough (Forall (λ r, NoDup (tags r).*1) (queue s)) as Hf by (specialize (Hu Hf); lia).
    unfold queue. by rewrite su_perm.
Qed.

(** ** Block reasons *)
Lemma dequeue_other faults slots c launched q s id :
  id ∉ ri_run_id <$> q →
  s_runs (dequeue faults slots c launched q s).2 !! id = s_runs s !! id.
Proof.
  revert c launched s. induction q as [|r q IH]; intros c launched s Hid; simpl; [done|].
  rewrite fmap_cons, not_elem_of_cons in Hid. destruct Hid as [Hne Hid].
  destruct (slots <=? lenN launched)%N; [done|].
  destruct (is_blocked c r); [|by apply IH]. rewrite IH by done.
  destruct (f_reason faults (ri_run_id r)); [done|]. simpl. by rewrite lookup_alter_ne.
Qed.

Lemma dequeue_from faults slots c launched q s run :
  run ∈ (dequeue faults slots c launched q s).1 → run ∈ launched ∨ run ∈ q.
Proof.
  revert c launched s. induction q as [|r q IH]; intros c launched s; simpl; [by left|].
  destruct (slots <=? lenN launched)%N; [by left|].
  destruct (is_blocked c r); intros [Hin|Hin]%IH; [by left|right; by right| |right; by right].
  apply elem_of_app in Hin as [?|Hin%list_elem_of_singleton]; [by left|right; subst; left].
Qed.

Lemma dequeue_launched faults slots c launched q s run :
  NoDup (ri_run_id <$> q) → run ∈ (dequeue faults slots c launched q s).1 → run ∉ launched →
  s_runs (dequeue faults slots c launched q s).2 !! ri_run_id run = s_runs s !! ri_run_id run.
Proof.
  revert c launched s. induction q as [|r q IH]; intros c launched s Hnd Hin Hni; [done|].
  cbn [dequeue] in *.
  rewrite fmap_cons, NoDup_cons in Hnd. destruct Hnd as [Hr Hnd].
  destruct (slots <=? lenN launched)%N; [done|]. destruct (is_blocked c r) as [reason|].
  - rewrite IH by done. destruct (f_reason faults (ri_run_id r)); [done|]. simpl.
    apply lookup_alter_ne. intros E. apply Hr. rewrite E. apply list_elem_of_fmap_2.
    by eapply dequeue_from in Hin as [?|?].
  - destruct (decide (run = r)) as [->|Hne]; [by rewrite dequeue_other|].
    rewrite IH; [done..|]. rewrite not_elem_of_app. split; [done|].
    by intros ?%list_elem_of_singleton.
Qed.

Lemma NoDup_queue_ids s : store_wf s → NoDup (ri_run_id <$> queue s).
Proof.
  intros Hwf. unfold queue. rewrite su_perm. apply NoDup_fmap_2_strong; [|by apply NoDup_select].
  intros x y (st & Hx & _)%elem_of_select (st' & Hy & _)%elem_of_select E; [|done..].
  rewrite E, Hy in Hx. congruence.
Qed.

Lemma launch_reason faults now runs s id :
  rr_block_reason <$> s_runs (launch faults now runs s).2 !! id = rr_block_reason <$> s_runs s !! id.
Proof.
  revert s. induction runs as [|r runs IH]; intros s; simpl; [done|].
  destruct (f_status faults (ri_run_id r)); [done|]. rewrite IH.
  assert (rr_block_reason <$> s_runs (update_run_status (ri_run_id r) NotStarted s) !! id =
    rr_block_reason <$> s_runs s !! id) as Hu.
  { simpl. destruct (decide (id = ri_run_id r)) as [->|Hne].
    - rewrite lookup_alter_eq. by destruct (s_runs s !! ri_run_id r).
    - by rewrite lookup_alter_ne. }
  by destruct (f_event faults (ri_run_id r)).
Qed.

(** A tick does not touch the block reason of a run it launches: a reason
    recorded while the run was blocked stays on the row of the started run. *)
Theorem launched_keeps_block_reason faults now_ns now s launched s' run :
  store_wf s →
  tick sort_unstable config cl faults now_ns now s = (inl launched, s') → run ∈ launched →
  rr_block_reason <$> s_runs s' !! ri_run_id run = rr_block_reason <$> s_runs s !! ri_run_id run.
Proof.
  intros Hwf. unfold tick. destruct (f_query faults); [done|]. unfold coordinator_tick_query.
  set (s0 := mkStore (s_runs s) _ (s_events s)).
  change (select_runs (in_location cl [Queued]) s0) with (queued s).
  destruct (_ && _); [intros [= <- <-]; by intros ?%elem_of_nil|]. fold (queue s).
  set (c := from_runs _ _). set (slots := slots_available _ _).
  pose proof (λ Hin, dequeue_launched faults slots c [] (queue s) s0 run (NoDup_queue_ids s Hwf) Hin
    (not_elem_of_nil run)) as Hd.
  destruct (dequeue _ _ _ _ _ _) as [to_launch s1]. simpl in Hd.
  pose proof (launch_reason faults now to_launch s1 (ri_run_id run)) as Hl.
  destruct (launch faults now to_launch s1) as [[u|e] s2]; [|done].
  intros [= <- <-] Hin. simpl in Hl. rewrite Hl, Hd by done. done.
Qed.
End tick.

(** ** The theorems at a concrete queue *)
Section witnesses.
Definition run_of (id : string) (ts : list Tag) (priority start : Z) : CoordinatorRunInfo :=
  mkRunInfo id "default" ts [] None priority None start None None.

(** One run in progress, three queued; at most one [team=a] run, two runs in all. *)
Definition sample_store : Store :=
  mkStore
    (list_to_map ((λ r, (ri_run_id (rr_info r), r)) <$>
      [mkRow (run_of "r0" [] 0 1) Started None;
       mkRow (run_of "r1" [("team", "a")] 0 2) Queued (Some "global run limit (2/2)");
       mkRow (run_of "r2" [("team", "a")] 5 3) Queued None;
       mkRow (run_of "r3" [] 0 4) Queued None])) [] [].

Definition sample_config : RunQueueConfig :=
  mkConfig 3 [mkLimit "team" (Some "a") false 1] 250 180.

Definition no_faults : Faults :=
  mkFaults false false (λ _, false) (λ _, false) (λ _, false).

Lemma sample_wf : store_wf sample_store.
Proof.
  assert (map_Forall (λ id r, ri_run_id (rr_info r) = id) (s_runs sample_store)) as H.
  { apply (bool_decide_unpack _). vm_compute. exact I. }
  exact H.
Qed.

Definition sample_tick : (list CoordinatorRunInfo + string) * Store :=
  tick sort_by sample_config "default" no_faults 0 10 sample_store.

Definition sample_launched : list CoordinatorRunInfo :=
  match sample_tick.1 with inl l => l | inr _ => [] end.

Lemma sample_fit : tags_fit "default" sample_store.
Proof. vm_compute. reflexivity. Qed.

Lemma sample_tick_eq : sample_tick = (inl sample_launched, sample_tick.2).
Proof. vm_compute. reflexivity. Qed.

Lemma tick_greedy_witness :
  ri_run_id <$> sample_launched = ["r2"; "r3"] ∧
  view sample_tick.2 "r1" = Some (run_of "r1" [("team", "a")] 0 2, Queued).
Proof.
  pose proof (tick_greedy sort_by sample_config "default" no_faults 0 10 sample_store
    sample_launched sample_tick.2 sample_wf sample_fit sample_tick_eq) as Ht.
  do 4 apply proj2 in Ht.
  split; [vm_compute; reflexivity|]. rewrite Ht. vm_compute. reflexivity.
Defined.

Lemma tick_respects_limits_witness :
  (usage "team" (Some "a") (all_tags (in_progress "default" sample_tick.2)) ≤ 1)%N.
Proof.
  assert (Forall (λ r, NoDup (tags r).*1) (queued "default" sample_store)) as Htags
    by (apply (bool_decide_unpack _); vm_compute; exact I).
  pose proof (tick_respects_limits sort_by sample_config "default" no_faults 0 10 sample_store
    sample_wf sample_fit Htags) as Ht.
  cbv zeta in Ht. apply proj2 in Ht.
  specialize (Ht (mkLimit "team" (Some "a") false 1) (Some "a") ltac:(left) eq_refl).
  etransitivity; [exact Ht|]. vm_compute. discriminate.
Defined.

(** With no run in progress [r1] is launched, and keeps its old reason. *)
Definition idle_store : Store :=
  mkStore {["r1" := mkRow (run_of "r1" [] 0 2) Queued (Some "global run limit (2/2)")]} [] [].

Lemma launched_keeps_block_reason_witness :
  rr_block_reason <$> s_runs (tick sort_by sample_config "default" no_faults 0 10 idle_store).2 !! "r1"
  = Some (Some "global run limit (2/2)").
Proof.
  pose proof (launched_keeps_block_reason sort_by sample_config "default" no_faults 0 10 idle_store
    [run_of "r1" [] 0 2] (tick sort_by sample_config "default" no_faults 0 10 idle_store).2
    (run_of "r1" [] 0 2)) as Hk.
  change "r1" with (ri_run_id (run_of "r1" [] 0 2)). rewrite Hk.
  - reflexivity.
  - intros id r Hr. unfold idle_store in Hr. cbn [s_runs] in Hr.
    apply lookup_singleton_Some in Hr as [<- <-]. reflexivity.
  - vm_compute. reflexivity.
  - left.
Defined.
End witnesses.
