(* ===== verification/ConditionNode.v ===== *)
(** * Condition trees (rust/rivers-core/src/condition/node.rs)

    The tree type, its traversals, the operators and presets that build trees, and
    the labels shown for them. An [f64] is a [spec_float]; its printed form and the
    fingerprint of a tree (SipHash of its JSON) come from third-party crates and are
    the operations of the class [NodeText]. *)

From S2P Require Import Prelude.
From Stdlib Require Import SpecFloat.

Inductive ConditionNode :=
| Missing
| InProgress
| ExecutionFailed
| NewlyUpdated
| NewlyRequested
| CodeVersionChanged
| CronTickPassed (cron_schedule : string) (timezone : option string)
| InLatestTimeWindow (lookback_delta : option spec_float)
| InitialEvaluation
| DataVersionChanged
| BackfillInProgress
| LastExecutedWithTags (tag_keys : list string) (tag_values : list (string * string))
| LastRunIncludesTarget
| WillBeRequested
| AnyDepsMatch (condition : ConditionNode) (label : option string)
| AllDepsMatch (condition : ConditionNode) (label : option string)
| And (children : list ConditionNode)
| Or (children : list ConditionNode)
| Not (child : ConditionNode)
| NewlyTrue (child : ConditionNode)
| Since (trigger reset : ConditionNode)
| SinceLastHandled (child : ConditionNode)
| HasRunWithTags (tag_keys : list string) (tag_values : list (string * string))
| AllRunsHaveTags (tag_keys : list string) (tag_values : list (string * string))
| AssetMatches (keys : list string) (condition : ConditionNode).

Definition children (n : ConditionNode) : list ConditionNode :=
  match n with
  | And cs | Or cs => cs
  | Not c | NewlyTrue c | SinceLastHandled c => [c]
  | Since trigger reset => [trigger; reset]
  | AnyDepsMatch c _ | AllDepsMatch c _ | AssetMatches _ c => [c]
  | Missing | InProgress | ExecutionFailed | NewlyUpdated | NewlyRequested
  | CodeVersionChanged | CronTickPassed _ _ | InLatestTimeWindow _ | InitialEvaluation
  | DataVersionChanged | BackfillInProgress | LastExecutedWithTags _ _
  | LastRunIncludesTarget | WillBeRequested | HasRunWithTags _ _ | AllRunsHaveTags _ _ => []
  end.

(** Induction with a hypothesis for every child. *)
Lemma ConditionNode_children_ind (P : ConditionNode → Prop) :
  (∀ n, Forall P (children n) → P n) → ∀ n, P n.
Proof.
  intros H. fix IH 1. intros n. apply H.
  destruct n as [| | | | | | | | | | | | | |c l|c l|cs|cs|c|c|t r|c| | |ks c]; cbn [children];
    try apply Forall_nil_2;
    try (apply Forall_cons_2; [apply IH|apply Forall_nil_2]).
  - induction cs as [|c cs IHcs]; [apply Forall_nil_2|apply Forall_cons_2; [apply IH|exact IHcs]].
  - induction cs as [|c cs IHcs]; [apply Forall_nil_2|apply Forall_cons_2; [apply IH|exact IHcs]].
  - apply Forall_cons_2; [apply IH|apply Forall_cons_2; [apply IH|apply Forall_nil_2]].
Qed.

(** ** Traversals *)
Fixpoint any_node (pred : ConditionNode → bool) (n : ConditionNode) : bool :=
  pred n ||
  match n with
  | And cs | Or cs => existsb (any_node pred) cs
  | Not c | NewlyTrue c | SinceLastHandled c => any_node pred c
  | Since trigger reset => any_node pred trigger || any_node pred reset
  | AnyDepsMatch c _ | AllDepsMatch c _ | AssetMatches _ c => any_node pred c
  | _ => false
  end.

Definition is_cron (n : ConditionNode) : bool :=
  match n with CronTickPassed _ _ => true | _ => false end.
Definition is_stateful (n : ConditionNode) : bool :=
  match n with Since _ _ | NewlyTrue _ => true | _ => false end.
Definition is_dep_aggregate (n : ConditionNode) : bool :=
  match n with AnyDepsMatch _ _ | AllDepsMatch _ _ | AssetMatches _ _ => true | _ => false end.
Definition is_tick_tags (n : ConditionNode) : bool :=
  match n with HasRunWithTags _ _ | AllRunsHaveTags _ _ => true | _ => false end.

Definition has_time_based_conditions : ConditionNode → bool := any_node is_cron.
Definition has_stateful_nodes : ConditionNode → bool := any_node is_stateful.
Definition has_dep_aggregate : ConditionNode → bool := any_node is_dep_aggregate.
Definition uses_tick_tags : ConditionNode → bool := any_node is_tick_tags.

Fixpoint has_root_scope_latest_time_window (n : ConditionNode) : bool :=
  match n with
  | InLatestTimeWindow _ => true
  | AnyDepsMatch _ _ | AllDepsMatch _ _ | AssetMatches _ _ => false
  | And cs | Or cs => existsb has_root_scope_latest_time_window cs
  | Not c | NewlyTrue c | SinceLastHandled c => has_root_scope_latest_time_window c
  | Since trigger reset =>
      has_root_scope_latest_time_window trigger || has_root_scope_latest_time_window reset
  | _ => false
  end.

Definition map_children (f : ConditionNode → ConditionNode) (n : ConditionNode)
    : ConditionNode :=
  match n with
  | And cs => And (f <$> cs)
  | Or cs => Or (f <$> cs)
  | Not c => Not (f c)
  | NewlyTrue c => NewlyTrue (f c)
  | SinceLastHandled c => SinceLastHandled (f c)
  | Since trigger reset => Since (f trigger) (f reset)
  | AnyDepsMatch c label => AnyDepsMatch (f c) label
  | AllDepsMatch c label => AllDepsMatch (f c) label
  | AssetMatches keys c => AssetMatches keys (f c)
  | other => other
  end.

Fixpoint replace_inner (matches : ConditionNode → bool) (replacement n : ConditionNode)
    {struct n} : ConditionNode :=
  if matches n then replacement
  else match n with
       | And cs => And (replace_inner matches replacement <$> cs)
       | Or cs => Or (replace_inner matches replacement <$> cs)
       | Not c => Not (replace_inner matches replacement c)
       | NewlyTrue c => NewlyTrue (replace_inner matches replacement c)
       | SinceLastHandled c => SinceLastHandled (replace_inner matches replacement c)
       | Since trigger reset =>
           Since (replace_inner matches replacement trigger)
                 (replace_inner matches replacement reset)
       | AnyDepsMatch c label => AnyDepsMatch (replace_inner matches replacement c) label
       | AllDepsMatch c label => AllDepsMatch (replace_inner matches replacement c) label
       | AssetMatches keys c => AssetMatches keys (replace_inner matches replacement c)
       | other => other
       end.

Definition replace_matching (pred : ConditionNode → bool) (replacement n : ConditionNode)
    : ConditionNode := replace_inner pred replacement n.

(** [#[derive(PartialEq)]]: floats compare as IEEE numbers. *)
Definition option_eqb {A} (eqb : A → A → bool) (x y : option A) : bool :=
  match x, y with Some a, Some b => eqb a b | None, None => true | _, _ => false end.

Fixpoint list_eqb {A} (eqb : A → A → bool) (l k : list A) : bool :=
  match l, k with
  | [], [] => true
  | x :: l, y :: k => eqb x y && list_eqb eqb l k
  | _, _ => false
  end.

Definition pair_eqb (p q : string * string) : bool :=
  String.eqb p.1 q.1 && String.eqb p.2 q.2.

Fixpoint node_eqb (a b : ConditionNode) {struct a} : bool :=
  match a, b with
  | Missing, Missing | InProgress, InProgress | ExecutionFailed, ExecutionFailed
  | NewlyUpdated, NewlyUpdated | NewlyRequested, NewlyRequested
  | CodeVersionChanged, CodeVersionChanged | InitialEvaluation, InitialEvaluation
  | DataVersionChanged, DataVersionChanged | BackfillInProgress, BackfillInProgress
  | LastRunIncludesTarget, LastRunIncludesTarget | WillBeRequested, WillBeRequested => true
  | CronTickPassed s tz, CronTickPassed s' tz' =>
      String.eqb s s' && option_eqb String.eqb tz tz'
  | InLatestTimeWindow d, InLatestTimeWindow d' => option_eqb SFeqb d d'
  | LastExecutedWithTags ks vs, LastExecutedWithTags ks' vs'
  | HasRunWithTags ks vs, HasRunWithTags ks' vs'
  | AllRunsHaveTags ks vs, AllRunsHaveTags ks' vs' =>
      list_eqb String.eqb ks ks' && list_eqb pair_eqb vs vs'
  | AnyDepsMatch c l, AnyDepsMatch c' l' | AllDepsMatch c l, AllDepsMatch c' l' =>
      node_eqb c c' && option_eqb String.eqb l l'
  | And cs, And cs' | Or cs, Or cs' => list_eqb node_eqb cs cs'
  | Not c, Not c' | NewlyTrue c, NewlyTrue c' | SinceLastHandled c, SinceLastHandled c' =>
      node_eqb c c'
  | Since t r, Since t' r' => node_eqb t t' && node_eqb r r'
  | AssetMatches ks c, AssetMatches ks' c' => list_eqb String.eqb ks ks' && node_eqb c c'
  | _, _ => false
  end.

Definition replace_by_node (old replacement n : ConditionNode) : ConditionNode :=
  replace_inner (λ m, node_eqb m old) replacement n.

Definition without_matching (pred : ConditionNode → bool) (n : ConditionNode) : ConditionNode :=
  match n with
  | And cs => And (filter (λ c, pred c = false) cs)
  | other => other
  end.

(** ** Operators and presets *)
Definition node_not (n : ConditionNode) : ConditionNode := Not n.

Definition and_parts (n : ConditionNode) : list ConditionNode :=
  match n with And c => c | other => [other] end.
Definition or_parts (n : ConditionNode) : list ConditionNode :=
  match n with Or c => c | other => [other] end.

Definition bitand (a b : ConditionNode) : ConditionNode := And (and_parts a ++ and_parts b).
Definition bitor (a b : ConditionNode) : ConditionNode := Or (or_parts a ++ or_parts b).

Definition since (self reset : ConditionNode) : ConditionNode := Since self reset.
Definition newly_true (self : ConditionNode) : ConditionNode := NewlyTrue self.
Definition since_last_handled (self : ConditionNode) : ConditionNode := SinceLastHandled self.
Definition any_deps_match (c : ConditionNode) : ConditionNode := AnyDepsMatch c None.
Definition all_deps_match (c : ConditionNode) : ConditionNode := AllDepsMatch c None.
Definition asset_matches (keys : list string) (c : ConditionNode) : ConditionNode :=
  AssetMatches keys c.

Definition any_deps_updated : ConditionNode :=
  AnyDepsMatch (bitor (bitand NewlyUpdated (Not LastRunIncludesTarget)) WillBeRequested)
    (Some "any_deps_updated").

Definition any_deps_missing : ConditionNode :=
  AnyDepsMatch (bitand Missing (Not WillBeRequested)) (Some "any_deps_missing").

Definition any_deps_in_progress : ConditionNode :=
  AnyDepsMatch InProgress (Some "any_deps_in_progress").

Definition in_flight : ConditionNode := bitor InProgress BackfillInProgress.

Definition all_deps_updated_since_cron (cron_schedule : string) (timezone : option string)
    : ConditionNode :=
  AllDepsMatch
    (bitor (since NewlyUpdated (CronTickPassed cron_schedule timezone)) WillBeRequested)
    (Some "all_deps_updated_since_cron").

Definition eager : ConditionNode :=
  bitand (bitand (bitand (bitand
    (since_last_handled (bitor (newly_true Missing) any_deps_updated))
    (Not any_deps_missing)) (Not any_deps_in_progress)) (Not in_flight)) (Not ExecutionFailed).

Definition on_cron (cron_schedule : string) (timezone : option string) : ConditionNode :=
  let cron_tick := CronTickPassed cron_schedule timezone in
  bitand (bitand
    (since cron_tick (bitand (bitor NewlyRequested NewlyUpdated) (Not cron_tick)))
    (all_deps_updated_since_cron cron_schedule timezone)) (Not in_flight).

Definition on_missing : ConditionNode :=
  bitand (bitand (since_last_handled (newly_true Missing)) (Not any_deps_missing))
    (Not ExecutionFailed).

(** ** Labels *)
Class NodeText := {
  show_f64 : spec_float → string;
  fingerprint_hex : ConditionNode → string;
}.

Definition quoted (s : string) : string := "'" +:+ s +:+ "'".

Definition format_tag_label (name : string) (tag_keys : list string)
    (tag_values : list (string * string)) : string :=
  name +:+ "(" +:+
  String.concat ", " (tag_keys ++ ((λ kv, kv.1 +:+ "=" +:+ kv.2) <$> tag_values)) +:+ ")".

Definition keys_label (keys : list string) : string :=
  match keys with
  | [k] => quoted k
  | _ => "[" +:+ String.concat ", " (quoted <$> keys) +:+ "]"
  end.

Section labels.
Context `{NodeText}.

Definition node_label (n : ConditionNode) : string :=
  match n with
  | Missing => "missing"
  | InProgress => "in_progress"
  | ExecutionFailed => "execution_failed"
  | NewlyUpdated => "newly_updated"
  | NewlyRequested => "newly_requested"
  | CodeVersionChanged => "code_version_changed"
  | CronTickPassed s (Some tz) => "cron_tick_passed(" +:+ quoted s +:+ ", tz=" +:+ quoted tz +:+ ")"
  | CronTickPassed s None => "cron_tick_passed(" +:+ quoted s +:+ ")"
  | InLatestTimeWindow (Some d) => "in_latest_time_window(lookback=" +:+ show_f64 d +:+ ")"
  | InLatestTimeWindow None => "in_latest_time_window"
  | InitialEvaluation => "initial_evaluation"
  | DataVersionChanged => "data_version_changed"
  | BackfillInProgress => "backfill_in_progress"
  | LastExecutedWithTags ks vs => format_tag_label "last_executed_with_tags" ks vs
  | LastRunIncludesTarget => "last_run_includes_target"
  | WillBeRequested => "will_be_requested"
  | HasRunWithTags ks vs => format_tag_label "has_run_with_tags" ks vs
  | AllRunsHaveTags ks vs => format_tag_label "all_runs_have_tags" ks vs
  | AnyDepsMatch c (Some l) => l
  | AnyDepsMatch c None => "any_deps_match(" +:+ fingerprint_hex c +:+ ")"
  | AllDepsMatch c (Some l) => l
  | AllDepsMatch c None => "all_deps_match(" +:+ fingerprint_hex c +:+ ")"
  | AssetMatches ks c => "asset_matches(" +:+ keys_label ks +:+ ", " +:+ fingerprint_hex c +:+ ")"
  | And _ => "All of"
  | Or _ => "Any of"
  | Not _ => "Not"
  | NewlyTrue _ => "newly_true"
  | Since _ _ => "since"
  | SinceLastHandled _ => "since_last_handled"
  end.

Fixpoint describe (n : ConditionNode) : string :=
  match n with
  | And cs => "(" +:+ String.concat " & " (describe <$> cs) +:+ ")"
  | Or cs => "(" +:+ String.concat " | " (describe <$> cs) +:+ ")"
  | Not c => "~" +:+ describe c
  | NewlyTrue c => describe c +:+ ".newly_true()"
  | Since t r => describe t +:+ ".since(" +:+ describe r +:+ ")"
  | SinceLastHandled c => describe c +:+ ".since_last_handled()"
  | AnyDepsMatch c (Some l) => l
  | AnyDepsMatch c None => "any_deps_match(" +:+ describe c +:+ ")"
  | AllDepsMatch c (Some l) => l
  | AllDepsMatch c None => "all_deps_match(" +:+ describe c +:+ ")"
  | AssetMatches ks c => "asset_matches(" +:+ keys_label ks +:+ ", " +:+ describe c +:+ ")"
  | other => node_label other
  end.

Definition display_label (n : ConditionNode) : string :=
  match n with
  | AnyDepsMatch _ _ | AllDepsMatch _ _ | AssetMatches _ _ => describe n
  | _ => node_label n
  end.

Definition replace_by_label (old_label : string) (replacement n : ConditionNode)
    : ConditionNode := replace_inner (λ m, String.eqb (node_label m) old_label) replacement n.
End labels.

Definition node_type_str (n : ConditionNode) : string :=
  match n with
  | And _ => "And"
  | Or _ => "Or"
  | Not _ => "Not"
  | NewlyTrue _ => "NewlyTrue"
  | Since _ _ => "Since"
  | SinceLastHandled _ => "SinceLastHandled"
  | AnyDepsMatch _ _ => "AnyDepsMatch"
  | AllDepsMatch _ _ => "AllDepsMatch"
  | AssetMatches _ _ => "AssetMatches"
  | _ => "Leaf"
  end.

(** ** The traversals follow [children] *)
Lemma existsb_false {A} (f : A → bool) l : existsb f l = false ↔ Forall (λ x, f x = false) l.
Proof.
  induction l as [|x l IH]; simpl; [by split|]. by rewrite orb_false_iff, Forall_cons, IH.
Qed.

Lemma any_node_children pred n :
  any_node pred n = pred n || existsb (any_node pred) (children n).
Proof. destruct n; simpl; by rewrite ?orb_false_r. Qed.

Lemma any_node_false pred n :
  any_node pred n = false ↔ pred n = false ∧ Forall (λ c, any_node pred c = false) (children n).
Proof. by rewrite any_node_children, orb_false_iff, existsb_false. Qed.

Lemma replace_inner_children matches replacement n :
  replace_inner matches replacement n =
  if matches n then replacement else map_children (replace_inner matches replacement) n.
Proof. by destruct n. Qed.

Lemma map_children_id (f : ConditionNode → ConditionNode) n :
  Forall (λ c, f c = c) (children n) → map_children f n = n.
Proof.
  assert (∀ cs, Forall (λ c, f c = c) cs → f <$> cs = cs) as Hcs.
  { induction 1 as [|c cs Hc _ IH]; [done|]. by rewrite fmap_cons, Hc, IH. }
  destruct n; cbn [children map_children]; intros Hc;
    try (by rewrite Hcs);
    repeat match goal with H : Forall _ (_ :: _) |- _ => apply Forall_cons in H as [-> H] end; done.
Qed.
