(* ===== verification/Selection.v ===== *)
(** * Partition selections and mappings (rust/rivers-core/src/condition/partition.rs)

    The selection a condition evaluates to, its set algebra, the mappings that carry a
    selection from an upstream asset to a downstream one, and the resolver that picks
    the mapping of an edge.

    A [HashSet<PartitionKey>] is a [gset] of canonical keys: two keys that compare
    equal have the same [norm], so a key is stored as its [norm], and a key built here
    is normalised before it is inserted. A [HashMap] that is iterated in a way that
    the result can depend on is the list of its entries in iteration order.
    [TimeGrid::shift_key] reads the clock and the jiff and croner crates: the grid type
    and this operation are the class [GridOps]. *)

From S2P Require Import Prelude PartitionKey.

Abbreviation KeySet := (gset PartitionKey).

Class GridOps := {
  TimeGrid : Type;
  (** [grid.shift_key(key, offset).ok()] *)
  shift_key : TimeGrid → string → Z → option string
}.

Inductive PartitionSelection :=
| All
| Empty
| Keys (keys : KeySet).

#[export] Instance PartitionSelection_eq_dec : EqDecision PartitionSelection.
Proof. solve_decision. Defined.

Definition is_empty_set (X : KeySet) : bool := bool_decide (X = ∅).

Definition from_keys (keys : KeySet) : PartitionSelection :=
  if is_empty_set keys then Empty else Keys keys.

Definition sel_union (self other : PartitionSelection) : PartitionSelection :=
  match self, other with
  | All, _ | _, All => All
  | Empty, x | x, Empty => x
  | Keys a, Keys b => from_keys (a ∪ b)
  end.

Definition sel_intersect (self other : PartitionSelection) : PartitionSelection :=
  match self, other with
  | Empty, _ | _, Empty => Empty
  | All, x | x, All => x
  | Keys a, Keys b => from_keys (a ∩ b)
  end.

Definition restrict_to (self : PartitionSelection) (all_keys : KeySet) : PartitionSelection :=
  match self with
  | All | Empty => self
  | Keys keys => from_keys (filter (λ k, k ∈ all_keys) keys)
  end.

Definition complement (self : PartitionSelection) (all_keys : KeySet) : PartitionSelection :=
  match self with
  | All => Empty
  | Empty => if is_empty_set all_keys then Empty else Keys all_keys
  | Keys keys => from_keys (all_keys ∖ keys)
  end.

Definition sel_difference (self other : PartitionSelection) (all_keys : KeySet)
    : PartitionSelection :=
  match self, other with
  | Empty, _ => Empty
  | _, All => Empty
  | x, Empty => x
  | All, Keys _ => complement other all_keys
  | Keys a, Keys b => from_keys (a ∖ b)
  end.

Definition sel_is_empty (self : PartitionSelection) : bool :=
  match self with
  | Empty => true
  | Keys keys => is_empty_set keys
  | All => false
  end.

Definition sel_is_all (self : PartitionSelection) : bool :=
  match self with All => true | _ => false end.

Definition sel_from_bool (val : bool) : PartitionSelection := if val then All else Empty.

Definition key_count (self : PartitionSelection) (total : nat) : nat :=
  match self with
  | All => total
  | Empty => 0
  | Keys keys => size keys
  end.

Definition to_bool (self : PartitionSelection) : bool := negb (sel_is_empty self).

Definition fires_over (self : PartitionSelection) (all_keys : KeySet) : bool :=
  match self with
  | All => negb (is_empty_set all_keys)
  | other => negb (sel_is_empty other)
  end.

(** ** Mappings *)
Section mapping.
Context {G : GridOps}.

Inductive PartitionMappingKind :=
| Identity
| AllPartitions
| Static (mapping : gmap string string)
| TimeWindow (offset : Z) (grid : option TimeGrid)
| SpecificPartitions (keys : list string)
| MultiMap (dimension_mappings : list (string * (string * PartitionMappingKind)))
| MultiToSingle (dimension_name : string) (inner : PartitionMappingKind)
| ForKeys
| Subset.

(** [i64] negation: it wraps at [i64::MIN]. *)
Definition i64_neg (z : Z) : Z :=
  if (z =? - 2 ^ 63)%Z then z else (- z)%Z.

(** The [filter_map] of [shift_selection]. *)
Definition shift_one (grid : TimeGrid) (offset : Z) (k : PartitionKey) : option PartitionKey :=
  match k with
  | Single [key] => (λ s, Single [s]) <$> shift_key grid key offset
  | _ => None
  end.

Definition shift_selection (sel : PartitionSelection) (offset : Z) (grid : option TimeGrid)
    : PartitionSelection :=
  match grid with
  | None => sel
  | Some grid =>
      if (offset =? 0)%Z then sel
      else match sel with
           | All | Empty => sel
           | Keys keys => from_keys (list_to_set (omap (shift_one grid offset) (elements keys)))
           end
  end.

(** A dimension constraint per combination; [None]: the dimension fanned out. *)
Abbreviation Combo := (list (string * option (list string))).

(** [if let PartitionKey::Single { keys: kv } = k { values.push(kv) } else { return None }] *)
Definition single_value (k : PartitionKey) : option (list string) :=
  match k with Single kv => Some kv | _ => None end.

(** Extend every combination with the values of one dimension: a single value is
    pushed in place, several multiply the combinations. *)
Definition push_values (downstream_dim : string) (values : list (list string))
    (combos : list Combo) : list Combo :=
  match values with
  | [v] => (λ combo, combo ++ [(downstream_dim, Some v)]) <$> combos
  | _ => combos ≫= λ combo, (λ v, combo ++ [(downstream_dim, Some v)]) <$> values
  end.

Definition push_wildcard (downstream_dim : string) (combos : list Combo) : list Combo :=
  (λ combo, combo ++ [(downstream_dim, None)]) <$> combos.

(** One iteration of the loop over [dimension_mappings]; [mapped] is what the
    per-dimension mapping makes of the upstream value. *)
Definition extend_combos (downstream_dim : string) (mapped : PartitionSelection)
    (combos : list Combo) : option (list Combo) :=
  match mapped with
  | Keys ks =>
      match mapM single_value (elements ks) with
      | None | Some [] => None
      | Some values => Some (push_values downstream_dim values combos)
      end
  | All => Some (push_wildcard downstream_dim combos)
  | Empty => None
  end.

(** [dims.iter().collect::<HashMap>().get(d)]: the last entry of a name wins. *)
Definition dim_last (dims : Dims) (d : string) : option (list string) :=
  (λ p, p.2.2) <$> list_find (λ e, e.1 = d) (reverse dims).

Definition dim_first (dims : Dims) (d : string) : option (list string) :=
  (λ p, p.2.2) <$> list_find (λ e, e.1 = d) dims.

(** [map_key_downstream], over the mapped selection of each dimension. *)
Section combos.
Variable per_dim : PartitionMappingKind → PartitionSelection → PartitionSelection.

Fixpoint map_dims (dims : Dims)
    (dimension_mappings : list (string * (string * PartitionMappingKind)))
    (combos : list Combo) : option (list Combo) :=
  match dimension_mappings with
  | [] => Some combos
  | (upstream_dim, (downstream_dim, per_dim_mapping)) :: rest =>
      match dim_last dims upstream_dim with
      | None => None
      | Some val =>
          match extend_combos downstream_dim
                  (per_dim per_dim_mapping (Keys {[ Single val ]})) combos with
          | None => None
          | Some combos => map_dims dims rest combos
          end
      end
  end.

Definition map_key_downstream
    (dimension_mappings : list (string * (string * PartitionMappingKind)))
    (pk : PartitionKey) : option (list Combo) :=
  match pk with
  | Multi dims => map_dims dims dimension_mappings [[]]
  | _ => None
  end.
End combos.

(** A combination with no wildcard, as the dimensions of a key. *)
Definition combo_dims (combo : Combo) : option Dims :=
  mapM (λ e, pair e.1 <$> e.2) combo.

Definition combo_key (combo : Combo) : option PartitionKey :=
  (λ dims, norm (Multi dims)) <$> combo_dims combo.

Definition is_wildcard (combo : Combo) : bool :=
  negb (forallb (λ e, bool_decide (is_Some e.2)) combo).

Definition combo_matches (dims : Dims) (combo : Combo) : bool :=
  forallb (λ e, match e.2 with
                | None => true
                | Some v => existsb (λ kd, bool_decide (kd.1 = e.1 ∧ kd.2 = v)) dims
                end) combo.

Definition multi_matches (wildcards : list Combo) (key : PartitionKey) : bool :=
  match key with
  | Multi dims => existsb (combo_matches dims) wildcards
  | _ => false
  end.

(** The [Keys] case of the [Multi] arm, given [map_key_downstream]. *)
Definition multi_downstream (mkd : PartitionKey → option (list Combo)) (keys : KeySet)
    (downstream_universe : option KeySet) : PartitionSelection :=
  let combos := elements keys ≫= λ pk, default [] (mkd pk) in
  let mapped : KeySet := list_to_set (omap combo_key combos) in
  let wildcards := filter (λ c, is_wildcard c = true) combos in
  match wildcards with
  | [] => from_keys mapped
  | _ => match downstream_universe with
         | None => All
         | Some universe =>
             from_keys (mapped ∪ filter (λ key, multi_matches wildcards key = true) universe)
         end
  end.

Definition is_unmapped (mapping : gmap string string) (uk : PartitionKey) : bool :=
  match uk with
  | Single [part] => bool_decide (mapping !! part = None)
  | _ => false
  end.

(** The [Static] arm's [Keys] case: the downstream keys whose upstream value is
    selected, and the unmapped keys passed through. *)
Definition static_downstream (mapping : gmap string string) (keys : KeySet)
    : PartitionSelection :=
  from_keys
    (list_to_set ((λ e, Single [e.1]) <$>
       filter (λ e, Single [e.2] ∈ keys) (map_to_list mapping))
     ∪ filter (λ uk, is_unmapped mapping uk = true) keys).

Definition dim_val (dimension_name : string) (k : PartitionKey) : option PartitionKey :=
  match k with
  | Multi dims => Single <$> dim_first dims dimension_name
  | _ => None
  end.

Definition is_single (k : PartitionKey) : bool :=
  match k with Single _ => true | _ => false end.

Definition sel_keys (s : PartitionSelection) : list PartitionKey :=
  match s with Keys ks => elements ks | _ => [] end.

Definition wanted_matches (dimension_name : string) (wanted : list (list string))
    (key : PartitionKey) : bool :=
  match key with
  | Multi dims => existsb (λ e, bool_decide (e.1 = dimension_name ∧ e.2 ∈ wanted)) dims
  | _ => false
  end.

(** The [Keys] case of the [MultiToSingle] arm, given the inner mapping of one key. *)
Definition multi_to_single_downstream (dimension_name : string)
    (inner : PartitionKey → PartitionSelection) (keys : KeySet)
    (downstream_universe : option KeySet) : PartitionSelection :=
  let sels := inner <$> omap (dim_val dimension_name) (elements keys) in
  if existsb sel_is_all sels then All else
  let mapped : KeySet := list_to_set (sels ≫= sel_keys) in
  let wsels := inner <$> filter (λ k, is_single k = true) (elements keys) in
  if existsb sel_is_all wsels then All else
  let wanted := omap single_value (wsels ≫= sel_keys) in
  match wanted with
  | [] => from_keys mapped
  | _ => match downstream_universe with
         | None => All
         | Some universe =>
             from_keys (mapped ∪
               filter (λ key, wanted_matches dimension_name wanted key = true) universe)
         end
  end.

Fixpoint map_to_downstream_in (self : PartitionMappingKind) (upstream_keys : PartitionSelection)
    (downstream_universe : option KeySet) {struct self} : PartitionSelection :=
  match self with
  | Identity | Subset => upstream_keys
  | AllPartitions | SpecificPartitions _ | ForKeys =>
      if sel_is_empty upstream_keys then Empty else All
  | Static mapping =>
      match upstream_keys with
      | Empty => Empty
      | All => All
      | Keys keys => static_downstream mapping keys
      end
  | TimeWindow offset grid => shift_selection upstream_keys (i64_neg offset) grid
  | MultiMap dimension_mappings =>
      match upstream_keys with
      | Empty => Empty
      | All => All
      | Keys keys =>
          multi_downstream
            (map_key_downstream (λ m sel, map_to_downstream_in m sel None) dimension_mappings)
            keys downstream_universe
      end
  | MultiToSingle dimension_name inner =>
      match upstream_keys with
      | Empty => Empty
      | All => All
      | Keys keys =>
          multi_to_single_downstream dimension_name
            (λ k, map_to_downstream_in inner (Keys {[ k ]}) None) keys downstream_universe
      end
  end.

Definition map_to_downstream (self : PartitionMappingKind) (upstream_keys : PartitionSelection)
    : PartitionSelection := map_to_downstream_in self upstream_keys None.

(** ** The resolver of an edge's mapping *)
Record PartitionResolver := {
  mappings : gmap (string * string) PartitionMappingKind;
  upstream_partition_keys : gmap string KeySet
}.

Definition resolver_empty : PartitionResolver :=
  {| mappings := ∅; upstream_partition_keys := ∅ |}.

Definition map_downstream (self : PartitionResolver) (upstream_asset downstream_asset : string)
    (upstream_keys : PartitionSelection) (downstream_universe : option KeySet)
    : PartitionSelection :=
  match mappings self !! (downstream_asset, upstream_asset) with
  | Some mapping => map_to_downstream_in mapping upstream_keys downstream_universe
  | None => upstream_keys
  end.

Definition mapping_kind (self : PartitionResolver) (upstream_asset downstream_asset : string)
    : option PartitionMappingKind := mappings self !! (downstream_asset, upstream_asset).
End mapping.

(** Per-partition evaluation state carried from tick to tick. *)
Record PartitionState := {
  previous_selections : gmap N PartitionSelection;
  timestamps : gmap PartitionKey Z;
  handled : KeySet;
  dep_previous_selections : gmap string (gmap N PartitionSelection)
}.

Definition PartitionState_default : PartitionState :=
  {| previous_selections := ∅; timestamps := ∅; handled := ∅; dep_previous_selections := ∅ |}.
