(* ===== verification/SelectionTheorems.v ===== *)
(** * Partition selections: what the algebra and the mappings compute

    A selection over a universe [U] stands for a set of keys ([sel_has]); the
    operations are the set operations on it, a selection never becomes [Keys ∅], and a
    mapping acts key by key. *)

From S2P Require Import Prelude PartitionKey Selection.

(** [k] is selected, for a key of the universe [U]. *)
Definition sel_has (U : KeySet) (s : PartitionSelection) (k : PartitionKey) : bool :=
  match s with
  | All => bool_decide (k ∈ U)
  | Empty => false
  | Keys X => bool_decide (k ∈ X)
  end.

(** [Keys {}] is never built: an empty set is [Empty]. *)
Definition sel_wf (s : PartitionSelection) : Prop :=
  match s with Keys X => X ≠ ∅ | _ => True end.

(** The listed keys belong to the universe. *)
Definition sel_within (U : KeySet) (s : PartitionSelection) : Prop :=
  match s with Keys X => X ⊆ U | _ => True end.

Lemma sel_has_from_keys U X k : sel_has U (from_keys X) k = bool_decide (k ∈ X).
Proof.
  unfold from_keys, is_empty_set. case_bool_decide as E; simpl; [|done].
  symmetry. apply bool_decide_eq_false. set_solver.
Qed.

Lemma sel_wf_from_keys X : sel_wf (from_keys X).
Proof. unfold from_keys, is_empty_set. by case_bool_decide. Qed.

Lemma sel_within_from_keys U X : X ⊆ U → sel_within U (from_keys X).
Proof. unfold from_keys, is_empty_set. by case_bool_decide. Qed.

Lemma from_keys_nonempty X : X ≠ ∅ → from_keys X = Keys X.
Proof. intros. unfold from_keys, is_empty_set. by case_bool_decide. Qed.

Lemma from_keys_empty : from_keys ∅ = Empty.
Proof. done. Qed.

#[export] Hint Resolve sel_wf_from_keys sel_within_from_keys : rivers.

Ltac sel_cases :=
  rewrite ?sel_has_from_keys; simpl;
  repeat case_bool_decide; simpl; first [done | set_solver].

Section algebra.
Context (U : KeySet).

Lemma sel_has_union a b k :
  k ∈ U → sel_has U (sel_union a b) k = sel_has U a k || sel_has U b k.
Proof. intros Hk. destruct a, b; simpl; sel_cases. Qed.

Lemma sel_has_intersect a b k :
  k ∈ U → sel_has U (sel_intersect a b) k = sel_has U a k && sel_has U b k.
Proof. intros Hk. destruct a, b; simpl; sel_cases. Qed.

Lemma sel_has_complement a k :
  k ∈ U → sel_has U (complement a U) k = negb (sel_has U a k).
Proof.
  intros Hk. destruct a; simpl; [sel_cases| |sel_cases].
  unfold is_empty_set. case_bool_decide; sel_cases.
Qed.

Lemma sel_has_difference a b k :
  k ∈ U → sel_has U (sel_difference a b U) k = sel_has U a k && negb (sel_has U b k).
Proof. intros Hk. destruct a, b; simpl; sel_cases. Qed.

Lemma sel_has_restrict a k :
  k ∈ U → sel_has U (restrict_to a U) k = sel_has U a k.
Proof. intros Hk. destruct a; simpl; sel_cases. Qed.

Lemma sel_within_restrict a : sel_within U (restrict_to a U).
Proof. destruct a; simpl; auto with rivers. apply sel_within_from_keys. set_solver. Qed.

Lemma sel_wf_union a b : sel_wf a → sel_wf b → sel_wf (sel_union a b).
Proof. destruct a, b; simpl; auto with rivers. Qed.
Lemma sel_wf_intersect a b : sel_wf a → sel_wf b → sel_wf (sel_intersect a b).
Proof. destruct a, b; simpl; auto with rivers. Qed.
Lemma sel_wf_complement a : sel_wf (complement a U).
Proof.
  destruct a; simpl; auto with rivers. unfold is_empty_set. by case_bool_decide.
Qed.
Lemma sel_wf_difference a b : sel_wf a → sel_wf b → sel_wf (sel_difference a b U).
Proof. destruct a, b; simpl; auto with rivers. Qed.
Lemma sel_wf_restrict a : sel_wf a → sel_wf (restrict_to a U).
Proof. destruct a; simpl; auto with rivers. Qed.

Lemma sel_is_empty_wf a : sel_wf a → sel_is_empty a = true → a = Empty.
Proof.
  destruct a as [| |X]; simpl; [done|done|]. intros Hne ?%bool_decide_eq_true. done.
Qed.

Lemma fires_over_has a : sel_wf a → sel_within U a →
  fires_over a U = true ↔ ∃ k, k ∈ U ∧ sel_has U a k = true.
Proof.
  destruct a as [| |X]; simpl; intros Hwf HU; unfold is_empty_set.
  - rewrite negb_true_iff, bool_decide_eq_false. split.
    + intros [k Hk]%set_choose_L. exists k. by rewrite bool_decide_eq_true.
    + intros (k & Hk & _) ->. set_solver.
  - naive_solver.
  - rewrite negb_true_iff, bool_decide_eq_false. split; [|done].
    intros [k Hk]%set_choose_L. exists k. rewrite bool_decide_eq_true. set_solver.
Qed.
End algebra.

#[export] Hint Resolve sel_wf_union sel_wf_intersect sel_wf_complement sel_wf_difference
  sel_wf_restrict : rivers.

(** ** Union is associative and commutative *)
Lemma sel_union_comm a b : sel_union a b = sel_union b a.
Proof. destruct a, b; simpl; try done. f_equal. set_solver. Qed.

Lemma sel_union_empty_l a : sel_union Empty a = a.
Proof. by destruct a. Qed.

Lemma sel_union_all_l a : sel_union All a = All.
Proof. done. Qed.

Lemma sel_union_all_r a : sel_union a All = All.
Proof. by destruct a. Qed.

Lemma sel_union_empty_r a : sel_union a Empty = a.
Proof. by destruct a. Qed.

Lemma from_keys_union A B : from_keys (A ∪ B) = sel_union (from_keys A) (from_keys B).
Proof.
  destruct (decide (A = ∅)) as [->|HA], (decide (B = ∅)) as [->|HB];
    rewrite ?(left_id_L ∅ (∪)), ?(right_id_L ∅ (∪)), ?from_keys_empty, ?sel_union_empty_r;
    try done; [by destruct (from_keys B)|].
  by rewrite (from_keys_nonempty A), (from_keys_nonempty B).
Qed.

Lemma sel_union_assoc a b c :
  sel_union a (sel_union b c) = sel_union (sel_union a b) c.
Proof.
  destruct a as [| |A], b as [| |B], c as [| |C]; simpl; try done;
    try by destruct (from_keys _).
  destruct (decide (A ∪ B = ∅)) as [E|E], (decide (B ∪ C = ∅)) as [E'|E'].
  - rewrite E, E', !from_keys_empty. simpl. f_equal. set_solver.
  - assert (A = ∅ ∧ B = ∅) as [-> ->] by set_solver.
      rewrite !(left_id_L ∅ (∪)) in *. rewrite from_keys_empty, (from_keys_nonempty C) by done.
      simpl. rewrite (left_id_L ∅ (∪)). by apply from_keys_nonempty.
  - assert (C = ∅ ∧ B = ∅) as [-> ->] by set_solver.
      rewrite !(right_id_L ∅ (∪)) in *. rewrite from_keys_empty, (from_keys_nonempty A) by done.
      simpl. rewrite (right_id_L ∅ (∪)). symmetry. by apply from_keys_nonempty.
  - rewrite (from_keys_nonempty (A ∪ B)), (from_keys_nonempty (B ∪ C)) by done. simpl.
    f_equal. set_solver.
Qed.

(** [(a ∪ b) ∪ (c ∪ d)], regrouped. *)
Lemma sel_union_swap a b c d :
  sel_union (sel_union a b) (sel_union c d) = sel_union (sel_union a c) (sel_union b d).
Proof.
  rewrite <-!sel_union_assoc. f_equal. rewrite !sel_union_assoc. f_equal.
  apply sel_union_comm.
Qed.

(** ** Mappings act key by key *)

(** A function on key sets that takes unions to unions. *)
Definition additive (F : KeySet → PartitionSelection) : Prop :=
  ∀ X Y, F (X ∪ Y) = sel_union (F X) (F Y).

Lemma additive_from_keys g :
  (∀ X Y, g (X ∪ Y) = g X ∪ g Y) → additive (λ X, from_keys (g X)).
Proof. intros Hg X Y. by rewrite Hg, from_keys_union. Qed.

Lemma additive_union F F' : additive F → additive F' → additive (λ X, sel_union (F X) (F' X)).
Proof. intros HF HF' X Y. rewrite (HF X Y), (HF' X Y). apply sel_union_swap. Qed.

Lemma additive_ext F F' : (∀ X, F X = F' X) → additive F' → additive F.
Proof. intros E HF X Y. by rewrite !E, HF. Qed.

(** A list computed from the elements of a set, up to membership. *)
Lemma elem_of_elements_bind {B} (f : PartitionKey → list B) (X Y : KeySet) c :
  c ∈ (elements (X ∪ Y) ≫= f) ↔ c ∈ (elements X ≫= f) ++ (elements Y ≫= f).
Proof.
  rewrite elem_of_app, !list_elem_of_bind. setoid_rewrite elem_of_elements. set_solver.
Qed.

(** The part of a selection contributed by a list of patterns to be expanded against
    the universe: all of it without a universe. *)
Definition expand {C} (matches : list C → PartitionKey → bool) (W : list C)
    (universe : option KeySet) : PartitionSelection :=
  match W with
  | [] => Empty
  | _ => match universe with
         | None => All
         | Some U => from_keys (filter (λ key, matches W key = true) U)
         end
  end.

Section expand.
Context {C : Type} (matches : list C → PartitionKey → bool) (one : C → PartitionKey → bool).
Context (matches_spec : ∀ W key, matches W key = true ↔ ∃ c, c ∈ W ∧ one c key = true).

Lemma filter_matches_app (U : KeySet) V W W' :
  (∀ c, c ∈ W ↔ c ∈ V ++ W') →
  filter (λ key, matches W key = true) U
  = filter (λ key, matches V key = true) U ∪ filter (λ key, matches W' key = true) U.
Proof.
  intros E. apply set_eq. intros k. rewrite elem_of_union, !elem_of_filter, !matches_spec.
  setoid_rewrite E. setoid_rewrite elem_of_app. naive_solver.
Qed.

Lemma expand_app W V V' u :
  (∀ c, c ∈ W ↔ c ∈ V ++ V') →
  expand matches W u = sel_union (expand matches V u) (expand matches V' u).
Proof.
  intros E. destruct V as [|v V]; [destruct V' as [|v' V']|].
  - destruct W as [|w W]; [done|]. specialize (E w). set_solver.
  - simpl in E. assert (W ≠ []) as HW by (intros ->; specialize (E v'); set_solver).
    destruct W as [|w W]; [done|]. destruct u as [U|]; simpl; [|done].
    rewrite (filter_matches_app U [] (w :: W) (v' :: V')) by done.
    rewrite from_keys_union. replace (filter _ U) with (∅ : KeySet) at 1; [done|].
    symmetry. apply set_eq. intros k. rewrite elem_of_filter, matches_spec. set_solver.
  - assert (W ≠ []) as HW by (intros ->; specialize (E v); set_solver).
    destruct W as [|w W]; [done|]. destruct u as [U|].
    + destruct V' as [|v' V']; simpl.
      * rewrite sel_union_empty_r, (filter_matches_app U (v :: V) (w :: W) []) by done.
        f_equal. apply set_eq. intros k.
        rewrite elem_of_union, !elem_of_filter, !matches_spec. set_solver.
      * by rewrite (filter_matches_app U (v :: V) (w :: W) (v' :: V')), from_keys_union.
    + by destruct V'.
Qed.
End expand.

(** Lists computed from a key set by [omap], [fmap] and [bind] are compatible with
    unions, up to membership. *)
Definition list_additive {B} (f : KeySet → list B) : Prop :=
  ∀ X Y c, c ∈ f (X ∪ Y) ↔ c ∈ f X ++ f Y.

Lemma list_additive_bind {B C} (f : KeySet → list B) (h : B → list C) :
  list_additive f → list_additive (λ X, f X ≫= h).
Proof.
  intros Hf X Y c. rewrite elem_of_app, !list_elem_of_bind. setoid_rewrite (Hf X Y).
  setoid_rewrite elem_of_app. naive_solver.
Qed.

Lemma list_additive_omap {B C} (f : KeySet → list B) (h : B → option C) :
  list_additive f → list_additive (λ X, omap h (f X)).
Proof.
  intros Hf X Y c. rewrite elem_of_app, !list_elem_of_omap. setoid_rewrite (Hf X Y).
  setoid_rewrite elem_of_app. naive_solver.
Qed.

Lemma list_additive_fmap {B C} (f : KeySet → list B) (h : B → C) :
  list_additive f → list_additive (λ X, h <$> f X).
Proof.
  intros Hf X Y c. rewrite elem_of_app, !list_elem_of_fmap. setoid_rewrite (Hf X Y).
  setoid_rewrite elem_of_app. naive_solver.
Qed.

Lemma list_additive_filter {B} (f : KeySet → list B) (P : B → bool) :
  list_additive f → list_additive (λ X, filter (λ x, P x = true) (f X)).
Proof.
  intros Hf X Y c. rewrite elem_of_app, !list_elem_of_filter. rewrite (Hf X Y), elem_of_app.
  naive_solver.
Qed.

Lemma list_additive_elements : list_additive (λ X, elements X).
Proof. intros X Y c. rewrite elem_of_app, !elem_of_elements. set_solver. Qed.

#[local] Hint Resolve list_additive_bind list_additive_omap list_additive_fmap
  list_additive_filter list_additive_elements : core.

Lemma additive_list_to_set (f : KeySet → list PartitionKey) :
  list_additive f → additive (λ X, from_keys (list_to_set (f X))).
Proof.
  intros Hf. apply additive_from_keys. intros X Y. apply set_eq. intros k.
  rewrite elem_of_union, !elem_of_list_to_set, (Hf X Y), elem_of_app. done.
Qed.

Lemma additive_existsb {B} (f : KeySet → list B) (P : B → bool) :
  list_additive f → additive (λ X, sel_from_bool (existsb P (f X))).
Proof.
  intros Hf X Y. assert (existsb P (f (X ∪ Y)) = existsb P (f X) || existsb P (f Y)) as ->.
  - apply eq_true_iff_eq. rewrite orb_true_iff, !existsb_exists.
    setoid_rewrite <-list_elem_of_In. setoid_rewrite (Hf X Y). setoid_rewrite elem_of_app.
    naive_solver.
  - by destruct (existsb P (f X)), (existsb P (f Y)).
Qed.

Section mapping.
Context {G : GridOps}.

Lemma multi_matches_spec W key :
  multi_matches W key = true
  ↔ ∃ c, c ∈ W ∧ match key with Multi dims => combo_matches dims c | _ => false end = true.
Proof.
  destruct key; simpl; [naive_solver| |naive_solver].
  rewrite existsb_exists. by setoid_rewrite <-list_elem_of_In.
Qed.

Lemma wanted_matches_spec d W key :
  wanted_matches d W key = true
  ↔ ∃ v, v ∈ W ∧ match key with
                 | Multi dims => existsb (λ e, bool_decide (e.1 = d ∧ e.2 = v)) dims
                 | _ => false
                 end = true.
Proof.
  destruct key as [|dims|]; simpl; [naive_solver| |naive_solver].
  rewrite existsb_exists. setoid_rewrite existsb_exists. setoid_rewrite bool_decide_eq_true.
  naive_solver.
Qed.

Lemma multi_downstream_eq mkd X u :
  let combos := elements X ≫= λ pk, default [] (mkd pk) in
  multi_downstream mkd X u
  = sel_union (from_keys (list_to_set (omap combo_key combos)))
              (expand multi_matches (filter (λ c, is_wildcard c = true) combos) u).
Proof.
  intros combos. unfold multi_downstream. fold combos.
  destruct (filter (λ c, is_wildcard c = true) combos) as [|w W]; simpl.
  - by rewrite sel_union_empty_r.
  - destruct u; [by rewrite from_keys_union|by destruct (from_keys _)].
Qed.

Lemma multi_downstream_additive mkd u : additive (λ X, multi_downstream mkd X u).
Proof.
  eapply additive_ext; [intros X; apply multi_downstream_eq|]. apply additive_union.
  - apply additive_list_to_set. auto.
  - intros X Y. eapply expand_app; [apply multi_matches_spec|].
    exact (list_additive_filter _ _ (list_additive_bind _ _ list_additive_elements) X Y).
Qed.

Lemma multi_to_single_eq d inner X u :
  let sels := inner <$> omap (dim_val d) (elements X) in
  let wsels := inner <$> filter (λ k, is_single k = true) (elements X) in
  multi_to_single_downstream d inner X u
  = sel_union (sel_union (sel_from_bool (existsb sel_is_all sels))
                         (sel_from_bool (existsb sel_is_all wsels)))
      (sel_union (from_keys (list_to_set (sels ≫= sel_keys)))
         (expand (wanted_matches d) (omap single_value (wsels ≫= sel_keys)) u)).
Proof.
  intros sels wsels. unfold multi_to_single_downstream. fold sels wsels.
  destruct (existsb sel_is_all sels); [done|].
  destruct (existsb sel_is_all wsels); [done|]. cbn [sel_from_bool].
  rewrite !sel_union_empty_l.
  destruct (omap single_value (wsels ≫= sel_keys)) as [|w W]; simpl.
  - by rewrite sel_union_empty_r.
  - destruct u; [by rewrite from_keys_union|by rewrite sel_union_all_r].
Qed.

Lemma multi_to_single_additive d inner u :
  additive (λ X, multi_to_single_downstream d inner X u).
Proof.
  eapply additive_ext; [intros X; apply multi_to_single_eq|]. apply additive_union.
  - apply additive_union; apply additive_existsb; auto.
  - apply additive_union.
    + apply additive_list_to_set. auto 6.
    + intros X Y. eapply expand_app; [apply wanted_matches_spec|].
      apply (list_additive_omap (λ X, (inner <$> filter (λ k, is_single k = true)
                                         (elements X)) ≫= sel_keys)). auto 6.
Qed.

Lemma static_additive m : additive (static_downstream m).
Proof.
  apply additive_from_keys. intros X Y. apply set_eq. intros k.
  rewrite !elem_of_union, !elem_of_filter, !elem_of_list_to_set, !list_elem_of_fmap.
  setoid_rewrite list_elem_of_filter. setoid_rewrite elem_of_union. naive_solver.
Qed.

Lemma shift_additive g o : additive (λ X, shift_selection (Keys X) o (Some g)) ∨ o = 0%Z.
Proof.
  unfold shift_selection. destruct (Z.eqb_spec o 0); [by right|left].
  apply additive_list_to_set. auto.
Qed.

Lemma keys_union X Y : X ≠ ∅ → sel_union (Keys X) (Keys Y) = Keys (X ∪ Y).
Proof. intros. simpl. apply from_keys_nonempty. set_solver. Qed.

Lemma map_all m u : map_to_downstream_in m All u = All.
Proof. destruct m as [| | |o [g|]| | | | |]; simpl; try done. by destruct (o =? 0)%Z, (i64_neg o =? 0)%Z. Qed.

Lemma map_empty m u : map_to_downstream_in m Empty u = Empty.
Proof. destruct m as [| | |o [g|]| | | | |]; simpl; try done. by destruct (i64_neg o =? 0)%Z. Qed.

Lemma map_wf m s u : sel_wf s → sel_wf (map_to_downstream_in m s u).
Proof.
  intros Hs. destruct s as [| |X]; [by rewrite map_all|by rewrite map_empty|].
  destruct m as [| | |o [g|]| |dm|d inner| |]; simpl; try done; auto with rivers;
    try (by destruct (is_empty_set X)).
  - apply sel_wf_from_keys.
  - destruct (i64_neg o =? 0)%Z; auto with rivers.
  - rewrite multi_downstream_eq. apply sel_wf_union; [auto with rivers|].
    unfold expand. destruct (filter _ _), u; simpl; auto with rivers.
  - rewrite multi_to_single_eq. apply sel_wf_union; [by repeat destruct (existsb _ _)|].
    apply sel_wf_union; [auto with rivers|].
    unfold expand. destruct (omap _ _), u; simpl; auto with rivers.
Qed.

Lemma map_union m a b u :
  sel_wf a → sel_wf b →
  map_to_downstream_in m (sel_union a b) u
  = sel_union (map_to_downstream_in m a u) (map_to_downstream_in m b u).
Proof.
  intros Ha Hb.
  destruct a as [| |X]; [by rewrite sel_union_all_l, map_all
                        |by rewrite map_empty, !sel_union_empty_l|].
  destruct b as [| |Y]; [by rewrite sel_union_all_r, map_all, sel_union_all_r
                        |by rewrite map_empty, !sel_union_empty_r|].
  rewrite keys_union by done.
  destruct m as [| | |o [g|]| |dm|d inner| |]; cbn [map_to_downstream_in sel_is_empty];
    rewrite ?keys_union by done; try done;
    try (unfold is_empty_set; repeat case_bool_decide; set_solver).
  - apply static_additive.
  - destruct (shift_additive g (i64_neg o)) as [H|E]; [apply H|].
    rewrite E. simpl. by rewrite from_keys_nonempty by set_solver.
  - simpl. by rewrite from_keys_nonempty by set_solver.
  - apply multi_downstream_additive.
  - apply multi_to_single_additive.
Qed.
End mapping.

(** The selection of a set is the union of the selections of its keys. *)
Lemma map_elements `{G : GridOps} m X u :
  X ≠ ∅ →
  map_to_downstream_in m (Keys X) u
  = foldr sel_union Empty ((λ k, map_to_downstream_in m (Keys {[ k ]}) u) <$> elements X).
Proof.
  intros HX.
  assert (∀ l,
    sel_wf (foldr sel_union Empty ((λ k : PartitionKey, Keys {[ k ]}) <$> l)) ∧
    map_to_downstream_in m (foldr sel_union Empty ((λ k, Keys {[ k ]}) <$> l)) u
    = foldr sel_union Empty ((λ k, map_to_downstream_in m (Keys {[ k ]}) u) <$> l)) as HL.
  { induction l as [|k l [IH1 IH2]]; [split; [done|apply map_empty]|].
    assert (sel_wf (Keys {[ k ]})) by (simpl; set_solver).
    rewrite !fmap_cons. cbn [foldr]. split; [by apply sel_wf_union|].
    by rewrite map_union, IH2 by done. }
  destruct (HL (elements X)) as [_ <-]. f_equal.
  assert (∀ l, foldr sel_union Empty ((λ k : PartitionKey, Keys {[ k ]}) <$> l)
               = from_keys (list_to_set l)) as ->.
  { induction l as [|k l IH]; [done|]. rewrite fmap_cons, list_to_set_cons. cbn [foldr].
    by rewrite from_keys_union, IH. }
  by rewrite list_to_set_elements_L, from_keys_nonempty.
Qed.

(** C26: over any universe [U], an empty one too, the operations on selections are the set
    operations on the keys of [U] they stand for (union, intersection, complement, difference,
    restriction), none of them builds [Keys {}], restriction leaves no key outside the
    universe, and a selection within the universe fires exactly when it selects some
    key of it, so none fires over an empty one. *)
Theorem selection_algebra U a b :
  sel_wf a → sel_wf b →
  (∀ k, k ∈ U →
    (sel_has U (sel_union a b) k = sel_has U a k || sel_has U b k) ∧
    (sel_has U (sel_intersect a b) k = sel_has U a k && sel_has U b k) ∧
    (sel_has U (complement a U) k = negb (sel_has U a k)) ∧
    (sel_has U (sel_difference a b U) k = sel_has U a k && negb (sel_has U b k)) ∧
    (sel_has U (restrict_to a U) k = sel_has U a k)) ∧
  sel_within U (restrict_to a U) ∧
  Forall sel_wf [sel_union a b; sel_intersect a b; complement a U; sel_difference a b U;
                 restrict_to a U] ∧
  (sel_within U a → fires_over a U = true ↔ ∃ k', k' ∈ U ∧ sel_has U a k' = true).
Proof.
  intros Ha Hb. split.
  { intros k Hk. by rewrite sel_has_union, sel_has_intersect, sel_has_complement, sel_has_difference, sel_has_restrict by done. }
  split; [apply sel_within_restrict|]. split.
  - repeat constructor; auto with rivers.
  - intros. by apply fires_over_has.
Qed.

Definition example_universe : KeySet := {[ Single ["a"]; Single ["b"]; Single ["c"] ]}.
Definition example_sel : PartitionSelection := Keys {[ Single ["a"]; Single ["b"] ]}.

Lemma example_sel_wf : sel_wf example_sel.
Proof. apply (bool_decide_unpack _). by vm_compute. Qed.

Lemma selection_algebra_witness :
  sel_has example_universe (complement example_sel example_universe) (Single ["c"]) = true ∧ fires_over All ∅ = false.
Proof.
  split.
  - destruct (selection_algebra example_universe example_sel example_sel example_sel_wf example_sel_wf) as [H _].
    rewrite (proj1 (proj2 (proj2 (H (Single ["c"]) ltac:(apply (bool_decide_unpack _); by vm_compute))))). reflexivity.
  - destruct (selection_algebra ∅ All All I I) as (_ & _ & _ & H). apply not_true_is_false. intros (k & Hk & _)%(H I).
    by apply not_elem_of_empty in Hk.
Defined.

(** A partition mapping acts key by key: it commutes with unions of selections,
    the selection of a key set is the union of what its keys map to, the whole universe
    and the empty selection are kept, and no mapping builds [Keys {}]. *)
Theorem mapping_pointwise `{G : GridOps} m a b X u :
  sel_wf a → sel_wf b → X ≠ ∅ →
  map_to_downstream_in m (sel_union a b) u
  = sel_union (map_to_downstream_in m a u) (map_to_downstream_in m b u) ∧
  map_to_downstream_in m (Keys X) u
  = foldr sel_union Empty ((λ k, map_to_downstream_in m (Keys {[ k ]}) u) <$> elements X) ∧
  map_to_downstream_in m All u = All ∧ map_to_downstream_in m Empty u = Empty ∧
  sel_wf (map_to_downstream_in m a u).
Proof.
  intros Ha Hb HX. split; [by apply map_union|]. split; [by apply map_elements|].
  split; [apply map_all|split; [apply map_empty|by apply map_wf]].
Qed.

(** A grid whose windows are numbered in unary. *)
#[local] Instance unary_grid : GridOps :=
  {| TimeGrid := unit; shift_key _ key offset := Some (key +:+ "'")%string |}.

Definition example_mapping : PartitionMappingKind :=
  MultiMap [("day", ("date", TimeWindow (-1) (Some tt))); ("region", ("zone", AllPartitions))].
Definition example_up : KeySet :=
  {[ Multi [("day", ["1"]); ("region", ["eu"])]; Multi [("day", ["2"]); ("region", ["us"])] ]}.
Definition example_down : KeySet :=
  {[ Multi [("date", ["1'"]); ("zone", ["x"])]; Multi [("date", ["2'"]); ("zone", ["y"])];
     Multi [("date", ["3'"]); ("zone", ["y"])] ]}.

Lemma mapping_pointwise_witness :
  foldr sel_union Empty
    ((λ k, map_to_downstream_in example_mapping (Keys {[ k ]}) (Some example_down))
       <$> elements example_up)
  = Keys {[ Multi [("date", ["1'"]); ("zone", ["x"])]; Multi [("date", ["2'"]); ("zone", ["y"])] ]}.
Proof.
  rewrite <-(proj1 (proj2 (mapping_pointwise example_mapping All All example_up
    (Some example_down) I I ltac:(apply (bool_decide_unpack _); by vm_compute)))).
  apply (bool_decide_unpack _). by vm_compute.
Defined.
