(* ===== verification/CondState.v ===== *)
(** * Condition evaluation state and contexts (rust/rivers-core/src/condition/state.rs)

    The state an asset's condition carries from tick to tick, the read-only context of
    one evaluation, the result of one, and the two updates that end a tick:
    [update_condition_state] for the evaluated asset and [update_dep_baselines] for the
    upstream assets its fire consumed. Timestamps ([i64]) are only compared. *)

From S2P Require Import Prelude PartitionKey ConditionNode Selection.
From Stdlib Require Import SpecFloat.

(** ** Storage and cache records the context borrows *)

(** storage/asset.rs [AssetRecord] *)
Record AssetRecord := {
  code_location_id : string;
  asset_key : string;
  ar_tags : list string;
  ar_kinds : list string;
  asset_group : option string;
  code_version : option string;
  last_event_id : option string;
  last_run_id : option string;
  last_timestamp : option Z;
  last_data_version : option string;
  last_materialization_code_version : option string;
  last_input_data_versions : list (string * string);
  pool : list (string * N)
}.

(** cache/types.rs *)
Abbreviation RunTags := (list (string * string)).
Abbreviation SlotMap V := (gmap string (gmap (option PartitionKey) V)).

Record PartitionStatusEntry := {
  pse_in_progress : KeySet;
  pse_failed : KeySet;
  pse_failed_timestamps : gmap PartitionKey Z;
  pse_timestamps : gmap PartitionKey Z
}.

Definition PartitionStatusEntry_default : PartitionStatusEntry :=
  {| pse_in_progress := ∅; pse_failed := ∅; pse_failed_timestamps := ∅; pse_timestamps := ∅ |}.

Record BackfillState := {
  backfill_assets : gmap string (list string);
  backfill_partition_keys : gmap string (list PartitionKey)
}.

(** ** Per-asset state *)
Record DepBaseline := {
  db_last_materialized_timestamp : option Z;
  db_last_data_version : option string
}.

Record AssetConditionState := {
  previous_results : gmap N bool;
  dep_previous_results : gmap string (gmap N bool);
  dep_baselines : gmap string DepBaseline;
  last_handled_timestamp : option Z;
  last_materialized_timestamp : option Z;
  prev_data_version : option string;      (* [last_data_version] *)
  last_tick_timestamp : option Z;
  condition_fingerprint : string;
  acs_is_initial : bool;
  partition_state : option PartitionState
}.

Definition AssetConditionState_default : AssetConditionState :=
  {| previous_results := ∅; dep_previous_results := ∅; dep_baselines := ∅;
     last_handled_timestamp := None; last_materialized_timestamp := None;
     prev_data_version := None; last_tick_timestamp := None;
     condition_fingerprint := EmptyString; acs_is_initial := false;
     partition_state := None |}.

Definition reset_for_new_tree (new_fingerprint : string) (s : AssetConditionState)
    : AssetConditionState :=
  {| previous_results := ∅; dep_previous_results := ∅; dep_baselines := dep_baselines s;
     last_handled_timestamp := None;
     last_materialized_timestamp := last_materialized_timestamp s;
     prev_data_version := prev_data_version s; last_tick_timestamp := None;
     condition_fingerprint := new_fingerprint; acs_is_initial := true;
     partition_state := None |}.

Definition scalar_clone (s : AssetConditionState) : AssetConditionState :=
  {| previous_results := previous_results s; dep_previous_results := dep_previous_results s;
     dep_baselines := dep_baselines s; last_handled_timestamp := last_handled_timestamp s;
     last_materialized_timestamp := last_materialized_timestamp s;
     prev_data_version := prev_data_version s; last_tick_timestamp := last_tick_timestamp s;
     condition_fingerprint := condition_fingerprint s; acs_is_initial := acs_is_initial s;
     partition_state := None |}.

(** ** The context of one evaluation *)
Record CacheSnapshot := {
  records : gmap string AssetRecord;
  upstream_deps : gmap string (list string);
  in_progress_assets : gset string;
  failed_assets : gset string;
  failed_asset_timestamps : gmap string Z;
  backfill : BackfillState
}.

Record RunTagSnapshot := {
  last_run_tags : SlotMap RunTags;
  tick_materialization_tags : SlotMap (list RunTags);
  last_run_asset_names : SlotMap (list string)
}.

Section context.
Context {G : GridOps}.

(** partition.rs [PartitionEvalContext]; [time_windows] is [TimeWindowResolver::keys_for]
    of the resolver when there is one. *)
Record PartitionEvalContext := {
  all_keys : KeySet;
  p_in_progress : KeySet;
  p_failed : KeySet;
  p_timestamps : gmap PartitionKey Z;
  resolver : PartitionResolver;
  time_windows : option (string → KeySet → option spec_float → option KeySet);
  all_partition_statuses : gmap string PartitionStatusEntry;
  dep_root_floor : option (gmap PartitionKey (option Z))
}.

Record EvalContext := {
  target_key : string;
  root_key : string;
  target_record : AssetRecord;
  cache : CacheSnapshot;
  ctx_tags : RunTagSnapshot;
  prev_state : AssetConditionState;
  all_asset_states : gmap string AssetConditionState;
  requested_this_tick : gmap string PartitionSelection;
  now : Z;
  ctx_is_initial : bool;
  partitions : option PartitionEvalContext;
  root_partition_floor : option (option Z)
}.
End context.

(** ** Results *)
Record EvalResult := {
  fired : bool;
  sub_results : gmap N bool;
  selection : option PartitionSelection;
  sub_selections : option (gmap N PartitionSelection);
  dep_sub_results : gmap string (gmap N bool);
  dep_sub_selections : option (gmap string (gmap N PartitionSelection))
}.

Inductive NodeStatus := NTrue | NFalse | Skipped.

Definition status_from_bool (val : bool) : NodeStatus := if val then NTrue else NFalse.

Inductive EvalNodeResult := MkNode {
  node_idx : N;
  enr_label : string;
  enr_node_type : string;
  status : NodeStatus;
  enr_children : list EvalNodeResult;
  enr_num_partitions : option nat
}.

Definition EvalNodeResult_new `{T : NodeText} (node : ConditionNode) (idx : N)
    (status : NodeStatus) (children : list EvalNodeResult) (num_partitions : option nat)
    : EvalNodeResult :=
  MkNode idx (display_label node) (node_type_str node) status children num_partitions.

(** ** The updates at the end of a tick *)
Record StateUpdateContext := {
  target_record_timestamp : option Z;
  target_data_version : option string;
  suc_now : Z;
  suc_is_initial : bool;
  partition_timestamps : option (gmap PartitionKey Z)
}.

Definition from_eval_context `{G : GridOps} (ctx : EvalContext) : StateUpdateContext :=
  {| target_record_timestamp := last_timestamp (target_record ctx);
     target_data_version := last_data_version (target_record ctx);
     suc_now := now ctx; suc_is_initial := ctx_is_initial ctx;
     partition_timestamps := p_timestamps <$> partitions ctx |}.

(** [retain] the keys still present, then write every fresh timestamp. *)
Definition sync_timestamps (old fresh : gmap PartitionKey Z) : gmap PartitionKey Z :=
  foldl (λ m e, <[e.1 := e.2]> m) (filter (λ e, is_Some (fresh !! e.1)) old)
        (map_to_list fresh).

Definition update_partition_state (ps : PartitionState)
    (sub : gmap N PartitionSelection)
    (dep_sub : option (gmap string (gmap N PartitionSelection)))
    (fresh : gmap PartitionKey Z) : PartitionState :=
  {| previous_selections :=
       if bool_decide (previous_selections ps = sub) then previous_selections ps else sub;
     dep_previous_selections :=
       match dep_sub with
       | Some d => if bool_decide (dep_previous_selections ps = d)
                   then dep_previous_selections ps else d
       | None => dep_previous_selections ps
       end;
     timestamps := sync_timestamps (timestamps ps) fresh;
     handled := ∅ |}.

Definition update_condition_state (ctx : StateUpdateContext) (result : EvalResult)
    (state : AssetConditionState) : AssetConditionState :=
  {| acs_is_initial := false;
     last_materialized_timestamp := target_record_timestamp ctx;
     prev_data_version := target_data_version ctx;
     last_tick_timestamp := Some (suc_now ctx);
     previous_results := sub_results result;
     dep_previous_results := dep_sub_results result;
     dep_baselines := dep_baselines state;
     last_handled_timestamp := last_handled_timestamp state;
     condition_fingerprint := condition_fingerprint state;
     partition_state :=
       match sub_selections result with
       | Some sub =>
           match partition_timestamps ctx with
           | Some fresh =>
               Some (update_partition_state
                       (default PartitionState_default (partition_state state))
                       sub (dep_sub_selections result) fresh)
           | None => partition_state state
           end
       | None => None
       end |}.

Definition record_baseline (records : gmap string AssetRecord) (dep : string) : DepBaseline :=
  {| db_last_materialized_timestamp := records !! dep ≫= last_timestamp;
     db_last_data_version := records !! dep ≫= last_data_version |}.

Definition with_dep_baselines (b : gmap string DepBaseline) (s : AssetConditionState)
    : AssetConditionState :=
  {| previous_results := previous_results s; dep_previous_results := dep_previous_results s;
     dep_baselines := b; last_handled_timestamp := last_handled_timestamp s;
     last_materialized_timestamp := last_materialized_timestamp s;
     prev_data_version := prev_data_version s; last_tick_timestamp := last_tick_timestamp s;
     condition_fingerprint := condition_fingerprint s; acs_is_initial := acs_is_initial s;
     partition_state := partition_state s |}.

(** The second loop's body: the dep's own global entry. *)
Definition touch_dep (records : gmap string AssetRecord)
    (partition_statuses : gmap string PartitionStatusEntry) (dep : string)
    (s : AssetConditionState) : AssetConditionState :=
  {| previous_results := previous_results s; dep_previous_results := dep_previous_results s;
     dep_baselines := dep_baselines s; last_handled_timestamp := last_handled_timestamp s;
     last_materialized_timestamp := records !! dep ≫= last_timestamp;
     prev_data_version := records !! dep ≫= last_data_version;
     last_tick_timestamp := last_tick_timestamp s;
     condition_fingerprint := condition_fingerprint s; acs_is_initial := acs_is_initial s;
     partition_state :=
       match partition_statuses !! dep with
       | Some entry =>
           let ps := default PartitionState_default (partition_state s) in
           Some {| previous_selections := previous_selections ps;
                   timestamps := pse_timestamps entry;
                   handled := handled ps;
                   dep_previous_selections := dep_previous_selections ps |}
       | None => partition_state s
       end |}.

Section baselines.
Context (upstream_deps : gmap string (list string)) (conditioned_assets : gset string).
Context (partition_statuses : gmap string PartitionStatusEntry).
Context (records : gmap string AssetRecord).

Definition eligible_deps (root : string) : list string :=
  filter (λ dep, dep ∉ conditioned_assets) (default [] (upstream_deps !! root)).

(** One iteration of the loop over [fired_or_initial]. *)
Definition baseline_root (acc : gmap string AssetConditionState * gset string) (root : string)
    : gmap string AssetConditionState * gset string :=
  let '(eval_state, touched) := acc in
  let eligible := eligible_deps root in
  (alter (λ s, with_dep_baselines
            (foldl (λ b dep, <[dep := record_baseline records dep]> b) (dep_baselines s) eligible)
            s) root eval_state,
   touched ∪ list_to_set eligible).

Definition baseline_dep (eval_state : gmap string AssetConditionState) (dep : string)
    : gmap string AssetConditionState :=
  <[dep := touch_dep records partition_statuses dep
             (default AssetConditionState_default (eval_state !! dep))]> eval_state.

Definition update_dep_baselines (eval_state : gmap string AssetConditionState)
    (fired_or_initial : list string) : gmap string AssetConditionState :=
  let '(eval_state, touched) := foldl baseline_root (eval_state, ∅) fired_or_initial in
  foldl baseline_dep eval_state (elements touched).
End baselines.
