(* ===== verification/Cron.v ===== *)
(** * Cron ticks (rust/rivers-core/src/condition/eval/cron.rs)

    Whether a schedule has an occurrence in [(prev, now]]. Parsing and the search for
    the next wall-clock occurrence (croner), the time zone database and the conversions
    between wall clocks and instants (jiff) are the class [CronOps]; an instant is its
    number of nanoseconds since the epoch. The per-thread caches only avoid repeated parsing.
    The [expect] on a schedule that does not parse is a value of that class too; an evaluation
    that cannot reach it does not depend on that value. *)

From S2P Require Import Prelude.

(** jiff's [AmbiguousOffset] of a wall time: the instants its offsets give. *)
Inductive AmbiguousOffset :=
| Unambiguous (instant : option Z)
| Gap (after : option Z)
| Fold (before after : option Z).

Class CronOps := {
  Cron : Type;
  Tz : Type;
  Wall : Type;
  (** [timegrid::parse_cron(..).ok()] *)
  parse_cron : string → option Cron;
  (** what stands for the panic of [expect] on a schedule that does not parse *)
  cron_panic : bool;
  tz_get : string → option Tz;
  (** [Timestamp::from_second(secs).is_ok()] *)
  in_timestamp_range : Z → bool;
  (** [ts.to_zoned(tz).datetime()], [None] for UTC *)
  to_wall : option Tz → Z → Wall;
  (** [TimeZone::UTC.to_timestamp(wall).ok()] *)
  wall_as_utc : Wall → option Z;
  to_ambiguous_offset : Tz → Wall → AmbiguousOffset;
  (** [tz.following(t).next()] *)
  next_transition : Tz → Z → option Z;
  (** [cron.find_next_occurrence(&wall, false).ok()] *)
  find_next_occurrence : Cron → Wall → option Wall
}.

(** The same crates with another stand-in for the panic. *)
Definition with_cron_panic (b : bool) (C : CronOps) : CronOps :=
  {| Cron := Cron; Tz := Tz; Wall := Wall; parse_cron := parse_cron; cron_panic := b; tz_get := tz_get; in_timestamp_range := in_timestamp_range;
     to_wall := to_wall; wall_as_utc := wall_as_utc; to_ambiguous_offset := to_ambiguous_offset; next_transition := next_transition;
     find_next_occurrence := find_next_occurrence |}.

(** [i64] division truncates towards zero. *)
Definition nanos_to_secs (nanos : Z) : Z := Z.quot nanos 1000000000.

(** [Timestamp::from_second], in range *)
Definition from_second (secs : Z) : Z := secs * 1000000000.

Section cron.
Context {C : CronOps}.

Definition resolve_wall_instant (tz : Tz) (wall : Wall) (on_ambiguous : Z → Z → Z) : option Z :=
  match to_ambiguous_offset tz wall with
  | Unambiguous instant => instant
  | Gap after => after ≫= next_transition tz
  | Fold before after => b ← before; a ← after; Some (on_ambiguous b a)
  end.

Definition first_real_instant (tz : Tz) (wall : Wall) : option Z :=
  resolve_wall_instant tz wall (λ earliest _, earliest).

(** The loop of [cron_tick_between] from [cursor]. *)
Fixpoint walk_occurrences (fuel : nat) (cron : Cron) (tz : Tz) (prev now : Z) (cursor : Wall)
    : bool :=
  match fuel with
  | O => false
  | S fuel =>
      match find_next_occurrence cron cursor with
      | None => false
      | Some next_wall =>
          match first_real_instant tz next_wall with
          | Some real =>
              if (real <=? prev)%Z then walk_occurrences fuel cron tz prev now next_wall
              else (real <=? now)%Z
          | None => walk_occurrences fuel cron tz prev now next_wall
          end
      end
  end.

(** The occurrences [cron_tick_between] looks at. *)
Definition MAX_OCCURRENCES : nat := 2000.

(** The body of [cron_tick_between] for a parsed schedule. *)
Definition occurs_between (fuel : nat) (cron : Cron) (prev_secs now_secs : Z) (timezone : option string) : bool :=
  let prev := from_second prev_secs in
  let now := from_second now_secs in
  if negb (in_timestamp_range prev_secs && in_timestamp_range now_secs) then false
  else match timezone ≫= tz_get with
       | None =>
           match find_next_occurrence cron (to_wall None prev) ≫= wall_as_utc with
           | Some next => (next <=? now)%Z
           | None => false
           end
       | Some tz => walk_occurrences fuel cron tz prev now (to_wall (Some tz) prev)
       end.

Definition cron_tick_between (cron_schedule : string) (prev_nanos now_nanos : Z)
    (timezone : option string) : bool :=
  let prev_secs := nanos_to_secs prev_nanos in
  let now_secs := nanos_to_secs now_nanos in
  match parse_cron cron_schedule with
  | None => cron_panic
  | Some cron => occurs_between MAX_OCCURRENCES cron prev_secs now_secs timezone
  end.

Definition next_cron_occurrence_utc (cron : Cron) (after : Z) (timezone : option string)
    : option Z :=
  match timezone ≫= tz_get with
  | None => find_next_occurrence cron (to_wall None after) ≫= wall_as_utc
  | Some tz =>
      wall_next ← find_next_occurrence cron (to_wall (Some tz) after);
      match resolve_wall_instant tz wall_next
              (λ earliest latest, if (after <? earliest)%Z then earliest else latest) with
      | Some t => Some t
      | None => (λ t, Z.max t (after + 60 * 1000000000)) <$> wall_as_utc wall_next
      end
  end.
End cron.

Lemma with_cron_panic_id (C : CronOps) : with_cron_panic cron_panic C = C.
Proof. by destruct C. Qed.

Lemma walk_occurrences_panic `{C : CronOps} b fuel cron tz prev now cursor :
  @walk_occurrences (with_cron_panic b C) fuel cron tz prev now cursor = walk_occurrences fuel cron tz prev now cursor.
Proof. revert cursor. induction fuel as [|fuel IH]; intros cursor; [done|]. cbn. by repeat (case_match; try done). Qed.

Lemma occurs_between_panic `{C : CronOps} b fuel cron prev now timezone :
  @occurs_between (with_cron_panic b C) fuel cron prev now timezone = occurs_between fuel cron prev now timezone.
Proof.
  unfold occurs_between. cbn [with_cron_panic in_timestamp_range]. destruct (negb _); [done|].
  destruct timezone as [name|]; cbn [mbind option_bind with_cron_panic tz_get]; [|done].
  destruct (tz_get name) as [tz|]; [|done]. exact (walk_occurrences_panic b fuel cron tz _ _ _).
Qed.

(** A schedule that parses does not panic. *)
Lemma cron_tick_between_panic `{C : CronOps} b s prev now timezone :
  is_Some (parse_cron s) → @cron_tick_between (with_cron_panic b C) s prev now timezone = cron_tick_between s prev now timezone.
Proof.
  intros [cron E]. unfold cron_tick_between. generalize MAX_OCCURRENCES. intros fuel. cbv zeta. cbn [with_cron_panic parse_cron]. rewrite E.
  exact (occurs_between_panic b fuel cron _ _ _).
Qed.
