(* ===== verification/CondEval.v ===== *)
(** * The condition evaluator (rust/rivers-core/src/condition/eval/)

    [eval] walks a condition tree once, generic over the domain it computes in: plain
    booleans for an unpartitioned asset, partition selections for a partitioned one.
    The mutable arguments of the source (node counter, latches of this tick, per-dep
    latch scope) are the record [EvalState], passed through; [DepScope::cur_prev] is saved and
    restored around a pivot as in the source. [EvalDomain] is the trait of the same
    name; its [pivot_into_dep] is given the evaluator of the sub-condition, which in the
    source it calls by name, so that [eval] is structural on the tree. *)

From S2P Require Import Prelude PartitionKey ConditionNode Selection CondState Cron.
From Stdlib Require Import SpecFloat.

(** ** Latch scopes *)
Record DepScope (V : Type) := {
  ds_prev : gmap string (gmap N V);
  ds_acc : gmap string (gmap N V);
  ds_cur_prev : option (gmap N V);
  ds_bridged : gmap string (gset N)
}.
Arguments ds_prev {V}. Arguments ds_acc {V}. Arguments ds_cur_prev {V}.
Arguments ds_bridged {V}.

Record EvalState (V : Type) := {
  counter : N;
  sub : gmap N V;
  dep_scope : DepScope V
}.
Arguments counter {V}. Arguments sub {V}. Arguments dep_scope {V}.

Definition set_counter {V} (c : N) (st : EvalState V) : EvalState V :=
  {| counter := c; sub := sub st; dep_scope := dep_scope st |}.
Definition insert_sub {V} (idx : N) (v : V) (st : EvalState V) : EvalState V :=
  {| counter := counter st; sub := <[idx := v]> (sub st); dep_scope := dep_scope st |}.
Definition set_scope {V} (ds : DepScope V) (st : EvalState V) : EvalState V :=
  {| counter := counter st; sub := sub st; dep_scope := ds |}.
Definition set_cur_prev {V} (p : option (gmap N V)) (ds : DepScope V) : DepScope V :=
  {| ds_prev := ds_prev ds; ds_acc := ds_acc ds; ds_cur_prev := p; ds_bridged := ds_bridged ds |}.

Definition collect_dep_latch {V} (dep_key : string) (local : gmap N V) (scope : DepScope V)
    : DepScope V :=
  if bool_decide (local = ∅) then scope
  else {| ds_prev := ds_prev scope;
          ds_acc := <[dep_key := local ∪ default ∅ (ds_acc scope !! dep_key)]> (ds_acc scope);
          ds_cur_prev := ds_cur_prev scope;
          ds_bridged := alter (λ marks, marks ∖ dom local) dep_key (ds_bridged scope) |}.

(** One iteration of the loop of [collect_bridged_latch]. *)
Definition bridge_entry (acc : gmap N PartitionSelection * gset N) (e : N * PartitionSelection)
    : gmap N PartitionSelection * gset N :=
  let '(slot, marks) := acc in
  let '(idx, sel) := e in
  match slot !! idx with
  | None => (<[idx := sel]> slot, {[ idx ]} ∪ marks)
  | Some old => if bool_decide (idx ∈ marks) then (<[idx := sel_union old sel]> slot, marks)
                else (slot, marks)
  end.

Definition collect_bridged_latch (dep_key : string) (local : gmap N PartitionSelection)
    (scope : DepScope PartitionSelection) : DepScope PartitionSelection :=
  if bool_decide (local = ∅) then scope
  else
    let '(slot, marks) :=
      foldl bridge_entry (default ∅ (ds_acc scope !! dep_key),
                          default ∅ (ds_bridged scope !! dep_key)) (map_to_list local) in
    {| ds_prev := ds_prev scope;
       ds_acc := <[dep_key := slot]> (ds_acc scope);
       ds_cur_prev := ds_cur_prev scope;
       ds_bridged := <[dep_key := marks]> (ds_bridged scope) |}.

(** ** Node indices *)
Fixpoint count_nodes (node : ConditionNode) (counter : N) : N :=
  let counter := u32_incr counter in
  match node with
  | And cs | Or cs => foldl (λ c child, count_nodes child c) counter cs
  | Not c | NewlyTrue c | SinceLastHandled c => count_nodes c counter
  | Since trigger reset => count_nodes reset (count_nodes trigger counter)
  | AnyDepsMatch c _ | AllDepsMatch c _ | AssetMatches _ c => count_nodes c counter
  | _ => counter
  end.

Definition finalize_dep_counter (base : N) (condition : ConditionNode) : N :=
  count_nodes condition base.

(** [map] with the counter threaded through. *)
Section map_acc.
Context {A B : Type} (f : A → N → B * N).
Fixpoint map_acc (l : list A) (c : N) : list B * N :=
  match l with
  | [] => ([], c)
  | x :: l => let '(y, c) := f x c in let '(ys, c) := map_acc l c in (y :: ys, c)
  end.
End map_acc.

Fixpoint build_skipped_subtree `{T : NodeText} (node : ConditionNode) (counter : N)
    : EvalNodeResult * N :=
  let my_idx := counter in
  let counter := u32_incr counter in
  let '(children, counter) :=
    match node with
    | And cs | Or cs => map_acc build_skipped_subtree cs counter
    | Not c | NewlyTrue c | SinceLastHandled c =>
        let '(t, k) := build_skipped_subtree c counter in ([t], k)
    | Since trigger reset =>
        let '(t, k) := build_skipped_subtree trigger counter in
        let '(r, k) := build_skipped_subtree reset k in ([t; r], k)
    | AnyDepsMatch c _ | AllDepsMatch c _ | AssetMatches _ c =>
        let '(_, k) := build_skipped_subtree c counter in ([], k)
    | _ => ([], counter)
    end in
  (EvalNodeResult_new node my_idx Skipped children None, counter).

(** ** Values and domains *)
Class DomainVal (V : Type) := {
  is_true : V → bool;
  is_all : V → bool;
  num_partitions : V → nat → option nat
}.

#[export] Instance bool_domain_val : DomainVal bool :=
  {| is_true b := b; is_all b := b; num_partitions _ _ := None |}.

#[export] Instance selection_domain_val : DomainVal PartitionSelection :=
  {| is_true := to_bool; is_all := sel_is_all;
     num_partitions s total := Some (key_count s total) |}.

Section eval.
Context {G : GridOps} {T : NodeText} {C : CronOps}.

(** The evaluator of one condition: [eval::<D>(condition, ..)]. *)
Definition Evaluator (V : Type) : Type :=
  EvalContext → EvalState V → bool → (V * option EvalNodeResult) * EvalState V.

Record EvalDomain := {
  Sel : Type;
  #[global] Sel_val :: DomainVal Sel;
  d_all : Sel;
  d_empty : Sel;
  d_from_bool : bool → Sel;
  d_and : Sel → Sel → Sel;
  d_or : Sel → Sel → Sel;
  d_not : Sel → EvalContext → Sel;
  d_difference : Sel → Sel → EvalContext → Sel;
  d_restrict : Sel → EvalContext → Sel;
  d_missing : EvalContext → Sel;
  d_in_progress : EvalContext → Sel;
  d_failed : EvalContext → Sel;
  d_newly_updated : EvalContext → Sel;
  d_newly_requested : EvalContext → Sel;
  d_in_latest_window : EvalContext → option spec_float → Sel;
  d_backfill_in_progress : EvalContext → Sel;
  d_last_executed_with_tags : EvalContext → list string → list (string * string) → Sel;
  d_update_tags : EvalContext → list string → list (string * string) → bool → Sel;
  d_last_run_includes_target : EvalContext → Sel;
  d_will_be_requested : EvalContext → Sel;
  d_prev_latch : DepScope Sel → EvalContext → N → Sel;
  d_since_last_handled : Sel → EvalContext → Sel;
  (** [pivot_into_dep dep_key condition ctx counter dep_scope], given the evaluator of
      [condition] *)
  d_pivot_into_dep : string → ConditionNode → Evaluator Sel → EvalContext →
    N → DepScope Sel → Sel * (N * DepScope Sel);
  d_root_dep_prev : EvalContext → gmap string (gmap N Sel);
  d_assemble : Sel → EvalContext → gmap N Sel → gmap string (gmap N Sel) → EvalResult
}.

(** ** Folds *)
Inductive Quantifier := QAny | QAll.

Definition q_init (D : EvalDomain) (q : Quantifier) : Sel D :=
  match q with QAny => d_empty D | QAll => d_all D end.
Definition q_combine (D : EvalDomain) (q : Quantifier) : Sel D → Sel D → Sel D :=
  match q with QAny => d_or D | QAll => d_and D end.
Definition q_saturated {V} `{DomainVal V} (q : Quantifier) (value : V) : bool :=
  match q with QAny => is_all value | QAll => negb (is_true value) end.

(** The loop of [fold_deps]; [pivot] is [D::pivot_into_dep] on a dep. *)
Section fold_deps.
Context (D : EvalDomain) (quant : Quantifier) (eval_all : bool) (base : N).
Context (pivot : string → N → DepScope (Sel D) → Sel D * (N * DepScope (Sel D))).

Fixpoint fold_deps_loop (deps : list string) (result : Sel D) (scope : DepScope (Sel D))
    : Sel D * DepScope (Sel D) :=
  match deps with
  | [] => (result, scope)
  | dep :: deps =>
      let '(dep_val, (_, scope)) := pivot dep base scope in
      let result := q_combine D quant result dep_val in
      if q_saturated quant result && negb eval_all then (result, scope)
      else fold_deps_loop deps result scope
  end.
End fold_deps.

Definition fold_deps (D : EvalDomain) (deps : list string) (condition : ConditionNode)
    (ev : Evaluator (Sel D)) (ctx : EvalContext) (st : EvalState (Sel D)) (quant : Quantifier)
    : Sel D * EvalState (Sel D) :=
  let base := counter st in
  let '(result, scope) :=
    fold_deps_loop D quant (has_stateful_nodes condition) base
      (λ dep, d_pivot_into_dep D dep condition ev ctx) deps (q_init D quant) (dep_scope st) in
  (result, {| counter := finalize_dep_counter base condition; sub := sub st;
              dep_scope := scope |}).

(** [fold_combinator]; [ev] is [eval::<D>]. *)
Section fold_combinator.
Context (D : EvalDomain) (ev : ConditionNode → Evaluator (Sel D)).
Context (ctx : EvalContext) (build_tree : bool) (quant : Quantifier).

Fixpoint fold_combinator_loop (children : list ConditionNode) (result : Sel D)
    (st : EvalState (Sel D)) : (Sel D * list EvalNodeResult) * EvalState (Sel D) :=
  match children with
  | [] => ((result, []), st)
  | child :: children =>
      let sat := q_saturated quant result in
      if sat && negb (has_stateful_nodes child) then
        let '(parts, c) :=
          if build_tree
          then let '(t, c) := build_skipped_subtree child (counter st) in ([t], c)
          else ([], count_nodes child (counter st)) in
        let '((r, rest), st) := fold_combinator_loop children result (set_counter c st) in
        ((r, parts ++ rest), st)
      else
        let '((child_sel, child_tree), st) := ev child ctx st build_tree in
        let result := if sat then result else q_combine D quant result child_sel in
        let '((r, rest), st) := fold_combinator_loop children result st in
        ((r, option_list child_tree ++ rest), st)
  end.

Definition fold_combinator (children : list ConditionNode) (st : EvalState (Sel D)) :=
  fold_combinator_loop children (q_init D quant) st.
End fold_combinator.

(** ** Context helpers (support.rs) *)

(** [Option::max]: [None] is below every [Some]. *)
Definition opt_max (a b : option Z) : option Z :=
  match a, b with
  | Some x, Some y => Some (Z.max x y)
  | Some x, None => Some x
  | None, y => y
  end.

Definition data_version_baseline (ctx : EvalContext) : option string * option Z :=
  match (if String.eqb (target_key ctx) (root_key ctx) then None
         else s ← all_asset_states ctx !! root_key ctx; dep_baselines s !! target_key ctx) with
  | Some b => (db_last_data_version b, db_last_materialized_timestamp b)
  | None => (prev_data_version (prev_state ctx), last_materialized_timestamp (prev_state ctx))
  end.

Definition root_last_tick (ctx : EvalContext) : option Z :=
  match all_asset_states ctx !! root_key ctx ≫= last_tick_timestamp with
  | Some t => Some t
  | None => if String.eqb (target_key ctx) (root_key ctx)
            then last_tick_timestamp (prev_state ctx) else None
  end.

Definition root_handled_state (ctx : EvalContext) : option Z * option Z :=
  match all_asset_states ctx !! root_key ctx with
  | Some s => (last_handled_timestamp s, last_tick_timestamp s)
  | None => if String.eqb (target_key ctx) (root_key ctx)
            then (last_handled_timestamp (prev_state ctx), last_tick_timestamp (prev_state ctx))
            else (None, None)
  end.

Definition requested_last_tick (ctx : EvalContext) : bool :=
  bool_decide (is_Some (last_handled_timestamp (prev_state ctx))) &&
  bool_decide (last_handled_timestamp (prev_state ctx) = last_tick_timestamp (prev_state ctx)).

Definition select_in_universe (keys : KeySet) (pctx : PartitionEvalContext)
    : PartitionSelection := from_keys (filter (λ k, k ∈ all_keys pctx) keys).

Definition prev_partition_latch (scope : DepScope PartitionSelection) (ctx : EvalContext)
    (my_idx : N) : PartitionSelection :=
  default Empty
    match ds_cur_prev scope with
    | Some m => m !! my_idx
    | None => ps ← partition_state (prev_state ctx); previous_selections ps !! my_idx
    end.

(** The loop over the active backfills of the asset: [None] is the early [All]. *)
Fixpoint backfill_targets (pks : gmap string (list PartitionKey)) (universe : KeySet)
    (ids : list string) (targeted : KeySet) : option KeySet :=
  match ids with
  | [] => Some targeted
  | bf_id :: ids =>
      match pks !! bf_id with
      | Some ((_ :: _) as bf) =>
          backfill_targets pks universe ids (targeted ∪ (universe ∩ list_to_set bf))
      | _ => None
      end
  end.

Definition eval_backfill_in_progress_partitioned (ctx : EvalContext)
    (pctx : PartitionEvalContext) : PartitionSelection :=
  match backfill_assets (backfill (cache ctx)) !! target_key ctx with
  | None => Empty
  | Some ids =>
      match backfill_targets (backfill_partition_keys (backfill (cache ctx)))
              (all_keys pctx) ids ∅ with
      | None => All
      | Some targeted => from_keys targeted
      end
  end.

Definition partition_filter_select {V} (slots : option (gmap (option PartitionKey) V))
    (pctx : PartitionEvalContext) (pred : V → bool) : PartitionSelection :=
  match slots with
  | None => Empty
  | Some data =>
      from_keys (list_to_set (omap (λ e, match e.1 with
                                         | Some pk => if bool_decide (pk ∈ all_keys pctx)
                                                         && pred e.2
                                                      then Some pk else None
                                         | None => None
                                         end) (map_to_list data)))
  end.

Definition run_tags_match (tag_keys : list string) (tag_values : list (string * string))
    (run_tags : RunTags) : bool :=
  forallb (λ k, existsb (λ t, String.eqb t.1 k) run_tags) tag_keys &&
  forallb (λ t, bool_decide (t ∈ run_tags)) tag_values.

Definition tag_sets_match (tag_keys : list string) (tag_values : list (string * string))
    (require_all : bool) (tag_sets : list RunTags) : bool :=
  match tag_sets with
  | [] => false
  | _ => if require_all then forallb (run_tags_match tag_keys tag_values) tag_sets
         else existsb (run_tags_match tag_keys tag_values) tag_sets
  end.

(** The [None] slot of an asset: unpartitioned assets and unkeyed runs. *)
Definition scalar_slot {V} (m : SlotMap V) (asset : string) : option V :=
  slots ← m !! asset; slots !! None.

Definition eval_new_update_tags (ctx : EvalContext) (tag_keys : list string)
    (tag_values : list (string * string)) (require_all : bool) : bool :=
  match scalar_slot (tick_materialization_tags (ctx_tags ctx)) (target_key ctx) with
  | Some tag_sets => tag_sets_match tag_keys tag_values require_all tag_sets
  | None => false
  end.

Definition eval_new_update_tags_partitioned (ctx : EvalContext) (pctx : PartitionEvalContext)
    (tag_keys : list string) (tag_values : list (string * string)) (require_all : bool)
    : PartitionSelection :=
  partition_filter_select (tick_materialization_tags (ctx_tags ctx) !! target_key ctx) pctx
    (tag_sets_match tag_keys tag_values require_all).

Definition contains_newly_updated : ConditionNode → bool :=
  any_node (λ n, match n with NewlyUpdated => true | _ => false end).

Definition dep_newer_than_floor (dep_ts : Z) (floor : option Z) : bool :=
  match floor with None => true | Some f => (f <? dep_ts)%Z end.

Definition effective_attempt_ts (root_status : PartitionStatusEntry) (k : PartitionKey)
    : option Z :=
  opt_max (pse_timestamps root_status !! k) (pse_failed_timestamps root_status !! k).

Definition opt_min_with (floor : option Z) (t : Z) : option Z :=
  Some (match floor with None => t | Some fl => Z.min fl t end).

Fixpoint root_floor_loop (root_status : PartitionStatusEntry) (keys : list PartitionKey)
    (floor : option Z) : option Z :=
  match keys with
  | [] => floor
  | k :: keys =>
      match effective_attempt_ts root_status k with
      | None => None
      | Some effective => root_floor_loop root_status keys (opt_min_with floor effective)
      end
  end.

Definition root_floor_over (keys : KeySet) (root_status : PartitionStatusEntry) : option Z :=
  root_floor_loop root_status (elements keys) None.

Definition root_floor_over_attempted (keys : KeySet) (root_status : PartitionStatusEntry)
    : option Z :=
  foldl opt_min_with None (omap (effective_attempt_ts root_status) (elements keys)).

(** ** The evaluator *)
Definition code_version_changed (ctx : EvalContext) : bool :=
  bool_decide (is_Some (code_version (target_record ctx))) &&
  bool_decide (code_version (target_record ctx)
               ≠ last_materialization_code_version (target_record ctx)).

Definition data_version_changed (ctx : EvalContext) : bool :=
  let '(prev_dv, prev_ts) := data_version_baseline ctx in
  match last_data_version (target_record ctx), prev_dv with
  | Some current, Some prev => negb (String.eqb current prev)
  | Some _, None =>
      negb (ctx_is_initial ctx) &&
      bool_decide (prev_ts ≠ last_timestamp (target_record ctx))
  | None, _ => false
  end.

Definition cron_tick_passed (ctx : EvalContext) (cron_schedule : string)
    (timezone : option string) : bool :=
  let prev_ts := default (now ctx) (root_last_tick ctx) in
  cron_tick_between cron_schedule prev_ts (now ctx) timezone.

(** The value of a node without children. *)
Definition eval_leaf (D : EvalDomain) (node : ConditionNode) (ctx : EvalContext) : Sel D :=
  match node with
  | Missing => d_missing D ctx
  | InProgress => d_in_progress D ctx
  | ExecutionFailed => d_failed D ctx
  | NewlyUpdated => d_newly_updated D ctx
  | NewlyRequested => d_newly_requested D ctx
  | InLatestTimeWindow lookback_delta => d_in_latest_window D ctx lookback_delta
  | BackfillInProgress => d_backfill_in_progress D ctx
  | LastExecutedWithTags tag_keys tag_values =>
      d_last_executed_with_tags D ctx tag_keys tag_values
  | LastRunIncludesTarget => d_last_run_includes_target D ctx
  | WillBeRequested => d_will_be_requested D ctx
  | HasRunWithTags tag_keys tag_values => d_update_tags D ctx tag_keys tag_values false
  | AllRunsHaveTags tag_keys tag_values => d_update_tags D ctx tag_keys tag_values true
  | CodeVersionChanged => d_from_bool D (code_version_changed ctx)
  | DataVersionChanged => d_from_bool D (data_version_changed ctx)
  | InitialEvaluation => d_from_bool D (ctx_is_initial ctx)
  | CronTickPassed cron_schedule timezone =>
      d_from_bool D (cron_tick_passed ctx cron_schedule timezone)
  | _ => d_empty D
  end.

(** The closure [finish]: the tree node of a value, when trees are built. *)
Definition finish (D : EvalDomain) (node : ConditionNode) (ctx : EvalContext) (my_idx : N)
    (build_tree : bool) (sel : Sel D) (children : list EvalNodeResult)
    : Sel D * option EvalNodeResult :=
  (sel,
   if build_tree then
     let total := match partitions ctx with Some p => size (all_keys p) | None => 0 end in
     Some (EvalNodeResult_new node my_idx (status_from_bool (is_true sel)) children
             (num_partitions sel total))
   else None).

Definition upstream_of (ctx : EvalContext) : list string :=
  default [] (upstream_deps (cache ctx) !! target_key ctx).

Fixpoint eval (D : EvalDomain) (node : ConditionNode) (ctx : EvalContext)
    (st : EvalState (Sel D)) (build_tree : bool) {struct node}
    : (Sel D * option EvalNodeResult) * EvalState (Sel D) :=
  let my_idx := counter st in
  let st := set_counter (u32_incr my_idx) st in
  let finish := finish D node ctx my_idx build_tree in
  match node with
  | AnyDepsMatch condition _ =>
      let '(result, st) :=
        fold_deps D (upstream_of ctx) condition (eval D condition) ctx st QAny in
      (finish result [], st)
  | AllDepsMatch condition _ =>
      let '(result, st) :=
        fold_deps D (upstream_of ctx) condition (eval D condition) ctx st QAll in
      (finish result [], st)
  | AssetMatches keys condition =>
      let '(result, st) := fold_deps D keys condition (eval D condition) ctx st QAny in
      (finish result [], st)
  | And children =>
      let '((result, parts), st) :=
        fold_combinator D (eval D) ctx build_tree QAll children st in
      (finish result parts, st)
  | Or children =>
      let '((result, parts), st) :=
        fold_combinator D (eval D) ctx build_tree QAny children st in
      (finish result parts, st)
  | Not child =>
      let '((child_sel, child_tree), st) := eval D child ctx st build_tree in
      (finish (d_not D child_sel ctx) (option_list child_tree), st)
  | NewlyTrue child =>
      let '((current, child_tree), st) := eval D child ctx st build_tree in
      let previous := d_prev_latch D (dep_scope st) ctx my_idx in
      let result := d_difference D current previous ctx in
      (finish result (option_list child_tree), insert_sub my_idx current st)
  | Since trigger reset =>
      let '((trigger_sel, trigger_tree), st) := eval D trigger ctx st build_tree in
      let '((reset_sel, reset_tree), st) := eval D reset ctx st build_tree in
      let prev := d_prev_latch D (dep_scope st) ctx my_idx in
      let result :=
        d_restrict D (d_difference D (d_or D prev trigger_sel) reset_sel ctx) ctx in
      (finish result (option_list trigger_tree ++ option_list reset_tree),
       insert_sub my_idx result st)
  | SinceLastHandled child =>
      let '((current, child_tree), st) := eval D child ctx st build_tree in
      (finish (d_since_last_handled D current ctx) (option_list child_tree), st)
  | leaf => (finish (eval_leaf D leaf ctx) [], st)
  end.

Definition initial_state (D : EvalDomain) (ctx : EvalContext) : EvalState (Sel D) :=
  {| counter := 0; sub := ∅;
     dep_scope := {| ds_prev := d_root_dep_prev D ctx; ds_acc := ∅; ds_cur_prev := None;
                     ds_bridged := ∅ |} |}.

Definition run (D : EvalDomain) (node : ConditionNode) (ctx : EvalContext) (build_tree : bool)
    : EvalResult * option EvalNodeResult :=
  let '((top, tree), st) := eval D node ctx (initial_state D ctx) build_tree in
  (d_assemble D top ctx (sub st) (ds_acc (dep_scope st)), tree).
End eval.
