(* ===== verification/CondDomains.v ===== *)
(** * The two evaluation domains and the entry points
    (rust/rivers-core/src/condition/eval/domain.rs and eval/mod.rs)

    [BoolDomain] evaluates for unpartitioned assets, [PartitionDomain] for partitioned
    ones; a pivot into an upstream asset re-evaluates the sub-condition with that asset
    as the target, a partitioned pivot into an unpartitioned asset going through the
    boolean evaluator. [require_pctx] panics without a partition context; the model is
    parametrised by the context a panic would have to produce ([panic]), and
    CondTree.v shows that no result depends on it. *)

From S2P Require Import Prelude PartitionKey ConditionNode Selection CondState Cron CondEval.
From Stdlib Require Import SpecFloat.

Section domains.
Context {G : GridOps} {T : NodeText} {C : CronOps}.

Definition dep_eval_context (ctx : EvalContext) (dep_key : string) (dep_record : AssetRecord)
    (partitions : option PartitionEvalContext) (root_partition_floor : option (option Z))
    : EvalContext :=
  {| target_key := dep_key; root_key := root_key ctx; target_record := dep_record;
     cache := cache ctx; ctx_tags := ctx_tags ctx;
     prev_state := default AssetConditionState_default (all_asset_states ctx !! dep_key);
     all_asset_states := all_asset_states ctx;
     requested_this_tick := requested_this_tick ctx; now := now ctx;
     ctx_is_initial := ctx_is_initial ctx; partitions := partitions;
     root_partition_floor := root_partition_floor |}.

(** ** Booleans *)
Definition bool_newly_updated (ctx : EvalContext) : bool :=
  if String.eqb (target_key ctx) (root_key ctx) then
    match last_timestamp (target_record ctx), last_materialized_timestamp (prev_state ctx) with
    | Some current, Some prev => (prev <? current)%Z
    | Some _, None => negb (ctx_is_initial ctx)
    | None, _ => false
    end
  else
    match last_timestamp (target_record ctx) with
    | None => false
    | Some dep_ts =>
        let floor :=
          match root_partition_floor ctx with
          | Some floor => floor
          | None =>
              let root_mat := records (cache ctx) !! root_key ctx ≫= last_timestamp in
              let root_failed := failed_asset_timestamps (cache ctx) !! root_key ctx in
              opt_max root_mat root_failed
          end in
        dep_newer_than_floor dep_ts floor
    end.

Definition bool_last_executed_with_tags (ctx : EvalContext) (tag_keys : list string)
    (tag_values : list (string * string)) : bool :=
  match scalar_slot (last_run_tags (ctx_tags ctx)) (target_key ctx) with
  | Some run_tags => run_tags_match tag_keys tag_values run_tags
  | None => false
  end.

Definition bool_last_run_includes_target (ctx : EvalContext) : bool :=
  if String.eqb (target_key ctx) (root_key ctx) then false
  else match scalar_slot (last_run_asset_names (ctx_tags ctx)) (target_key ctx) with
       | Some names => existsb (String.eqb (root_key ctx)) names
       | None => false
       end.

Definition bool_prev_latch (scope : DepScope bool) (ctx : EvalContext) (idx : N) : bool :=
  default false (default (previous_results (prev_state ctx)) (ds_cur_prev scope) !! idx).

Definition bool_since_last_handled (current : bool) (ctx : EvalContext) : bool :=
  if negb current then false
  else let '(last_handled, last_tick) := root_handled_state ctx in
       match last_handled with
       | None => true
       | Some handled =>
           match last_tick with None => true | Some lt => (handled <? lt)%Z end
       end.

Definition eval_on_dep (dep_key : string) (ev : Evaluator bool) (ctx : EvalContext)
    (counter0 : N) (scope : DepScope bool) : bool * (N * DepScope bool) :=
  match records (cache ctx) !! dep_key with
  | None => (false, (counter0, scope))
  | Some dep_record =>
      let dep_ctx := dep_eval_context ctx dep_key dep_record None (root_partition_floor ctx) in
      let saved := ds_cur_prev scope in
      let latch := default ∅ (ds_prev scope !! dep_key) in
      let '((val, _), st) :=
        ev dep_ctx {| counter := counter0; sub := ∅;
                      dep_scope := set_cur_prev (Some latch) scope |} false in
      (val, (counter st,
             collect_dep_latch dep_key (sub st) (set_cur_prev saved (dep_scope st))))
  end.

Definition BoolDomain : EvalDomain := {|
  Sel := bool;
  d_all := true;
  d_empty := false;
  d_from_bool b := b;
  d_and := andb;
  d_or := orb;
  d_not a _ := negb a;
  d_difference a b _ := a && negb b;
  d_restrict a _ := a;
  d_missing ctx := bool_decide (last_run_id (target_record ctx) = None);
  d_in_progress ctx := bool_decide (target_key ctx ∈ in_progress_assets (cache ctx));
  d_failed ctx := bool_decide (target_key ctx ∈ failed_assets (cache ctx));
  d_newly_updated := bool_newly_updated;
  d_newly_requested := requested_last_tick;
  d_in_latest_window _ _ := true;
  d_backfill_in_progress ctx :=
    bool_decide (is_Some (backfill_assets (backfill (cache ctx)) !! target_key ctx));
  d_last_executed_with_tags := bool_last_executed_with_tags;
  d_update_tags := eval_new_update_tags;
  d_last_run_includes_target := bool_last_run_includes_target;
  d_will_be_requested ctx := bool_decide (is_Some (requested_this_tick ctx !! target_key ctx));
  d_prev_latch := bool_prev_latch;
  d_since_last_handled := bool_since_last_handled;
  d_pivot_into_dep dep_key _ ev ctx counter0 scope := eval_on_dep dep_key ev ctx counter0 scope;
  d_root_dep_prev ctx := dep_previous_results (prev_state ctx);
  d_assemble top _ sub dep :=
    {| fired := top; sub_results := sub; selection := None; sub_selections := None;
       dep_sub_results := dep; dep_sub_selections := None |}
|}.

(** ** Selections *)
Section partition.
Context (panic : PartitionEvalContext).

Definition require_pctx (ctx : EvalContext) : PartitionEvalContext :=
  default panic (partitions ctx).

Definition part_missing (ctx : EvalContext) : PartitionSelection :=
  let pctx := require_pctx ctx in
  from_keys (filter (λ k, p_timestamps pctx !! k = None) (all_keys pctx)).

(** The [filter] of [PartitionDomain::newly_updated] on one timestamp. *)
Definition key_newly_updated (ctx : EvalContext) (pctx : PartitionEvalContext)
    (pk : PartitionKey) (ts : Z) : bool :=
  match dep_root_floor pctx with
  | Some floor => match floor !! pk with
                  | Some inner => dep_newer_than_floor ts inner
                  | None => false
                  end
  | None => match (ps ← partition_state (prev_state ctx); timestamps ps !! pk) with
            | Some prev => (prev <? ts)%Z
            | None => negb (ctx_is_initial ctx)
            end
  end.

Definition part_newly_updated (ctx : EvalContext) : PartitionSelection :=
  let pctx := require_pctx ctx in
  from_keys (dom (filter (λ e, e.1 ∈ all_keys pctx ∧ key_newly_updated ctx pctx e.1 e.2 = true)
                    (p_timestamps pctx))).

Definition part_newly_requested (ctx : EvalContext) : PartitionSelection :=
  let pctx := require_pctx ctx in
  if negb (requested_last_tick ctx) then Empty
  else match partition_state (prev_state ctx) with
       | Some ps => select_in_universe (handled ps) pctx
       | None => Empty
       end.

Definition part_in_latest_window (ctx : EvalContext) (lookback : option spec_float)
    : PartitionSelection :=
  let pctx := require_pctx ctx in
  match (tw ← time_windows pctx; tw (target_key ctx) (all_keys pctx) lookback) with
  | Some keys => from_keys keys
  | None => Empty
  end.

Definition part_last_run_includes_target (ctx : EvalContext) : PartitionSelection :=
  if String.eqb (target_key ctx) (root_key ctx) then Empty
  else partition_filter_select (last_run_asset_names (ctx_tags ctx) !! target_key ctx)
         (require_pctx ctx) (existsb (String.eqb (root_key ctx))).

Definition part_since_last_handled (current : PartitionSelection) (ctx : EvalContext)
    : PartitionSelection :=
  if sel_is_empty current then Empty
  else
    let pctx := require_pctx ctx in
    let '(last_handled, last_tick) := root_handled_state ctx in
    let was_just_handled :=
      match last_handled, last_tick with
      | Some h, Some lt => (lt <=? h)%Z
      | _, _ => false
      end in
    if negb was_just_handled then current
    else if negb (String.eqb (target_key ctx) (root_key ctx)) then Empty
    else match partition_state (prev_state ctx) with
         | None => current
         | Some ps => sel_difference current (from_keys (handled ps)) (all_keys pctx)
         end.

Definition bridge_floor (ctx : EvalContext) (pctx : PartitionEvalContext) : option Z :=
  match root_partition_floor ctx with
  | Some floor => floor
  | None =>
      status ← all_partition_statuses pctx !! root_key ctx;
      root_floor_over_attempted (all_keys pctx) status
  end.

(** The staleness floor of one upstream key, over the downstream keys it maps to. *)
Definition upstream_key_floor (ctx : EvalContext) (pctx : PartitionEvalContext)
    (dep_key : string) (is_identity : bool) (root_status : PartitionStatusEntry)
    (uk : PartitionKey) : option (option Z) :=
  if is_identity then
    if bool_decide (uk ∈ all_keys pctx) then Some (effective_attempt_ts root_status uk) else None
  else
    match map_downstream (resolver pctx) dep_key (target_key ctx) (Keys {[ uk ]})
            (Some (all_keys pctx)) with
    | Empty => None
    | All => Some (root_floor_over_attempted (all_keys pctx) root_status)
    | Keys ks =>
        let in_universe := filter (λ k, k ∈ all_keys pctx) ks in
        if is_empty_set in_universe then None
        else Some (root_floor_over in_universe root_status)
    end.

Definition is_identity_mapping (m : option PartitionMappingKind) : bool :=
  match m with None | Some Identity => true | _ => false end.

Definition dep_root_floors (ctx : EvalContext) (pctx : PartitionEvalContext) (dep_key : string)
    (condition : ConditionNode) (upstream_status : PartitionStatusEntry) (is_identity : bool)
    : option (gmap PartitionKey (option Z)) :=
  match all_partition_statuses pctx !! root_key ctx with
  | Some root_status =>
      if contains_newly_updated condition then
        Some (map_imap (λ uk _, upstream_key_floor ctx pctx dep_key is_identity root_status uk)
                (pse_timestamps upstream_status))
      else None
  | None => None
  end.

Definition bridge_sels (m : gmap N bool) : gmap N PartitionSelection := sel_from_bool <$> m.

Definition bridge_prev (m : gmap string (gmap N PartitionSelection))
    : gmap string (gmap N bool) := (λ e : gmap N PartitionSelection, to_bool <$> e) <$> m.

(** The pivot into an unpartitioned dep: the boolean evaluator, its latches bridged
    back into selections. *)
Definition bridge_into_dep (dep_key : string) (condition : ConditionNode)
    (dep_record : AssetRecord) (ctx : EvalContext) (pctx : PartitionEvalContext)
    (counter0 : N) (scope : DepScope PartitionSelection)
    : PartitionSelection * (N * DepScope PartitionSelection) :=
  let root_floor := bridge_floor ctx pctx in
  let dep_ctx := dep_eval_context ctx dep_key dep_record None (Some root_floor) in
  let nested_prev := bridge_prev (ds_prev scope) in
  let bool_scope :=
    {| ds_prev := nested_prev; ds_acc := ∅;
       ds_cur_prev := Some (default ∅ (nested_prev !! dep_key)); ds_bridged := ∅ |} in
  let '((val, _), st) :=
    eval BoolDomain condition dep_ctx
      {| counter := counter0; sub := ∅; dep_scope := bool_scope |} false in
  let scope := collect_bridged_latch dep_key (bridge_sels (sub st)) scope in
  let scope :=
    foldl (λ scope e, collect_bridged_latch e.1 (bridge_sels e.2) scope) scope
          (map_to_list (ds_acc (dep_scope st))) in
  (sel_from_bool val, (counter st, scope)).

Definition upstream_context (ctx : EvalContext) (pctx : PartitionEvalContext)
    (dep_key : string) (condition : ConditionNode) (upstream_all_keys : KeySet)
    : PartitionEvalContext :=
  let upstream_status :=
    default PartitionStatusEntry_default (all_partition_statuses pctx !! dep_key) in
  let is_identity := is_identity_mapping (mapping_kind (resolver pctx) dep_key (target_key ctx)) in
  {| all_keys := upstream_all_keys;
     p_in_progress := pse_in_progress upstream_status;
     p_failed := pse_failed upstream_status;
     p_timestamps := pse_timestamps upstream_status;
     resolver := resolver_empty;
     time_windows := time_windows pctx;
     all_partition_statuses := all_partition_statuses pctx;
     dep_root_floor := dep_root_floors ctx pctx dep_key condition upstream_status is_identity |}.

Definition eval_partitioned_on_dep (dep_key : string) (condition : ConditionNode)
    (ev : Evaluator PartitionSelection) (ctx : EvalContext) (pctx : PartitionEvalContext)
    (counter0 : N) (scope : DepScope PartitionSelection)
    : PartitionSelection * (N * DepScope PartitionSelection) :=
  match records (cache ctx) !! dep_key with
  | None => (Empty, (counter0, scope))
  | Some dep_record =>
      match upstream_partition_keys (resolver pctx) !! dep_key with
      | None => bridge_into_dep dep_key condition dep_record ctx pctx counter0 scope
      | Some upstream_all_keys =>
          let upstream_pctx := upstream_context ctx pctx dep_key condition upstream_all_keys in
          let nested_bridge_floor :=
            if has_dep_aggregate condition then Some (bridge_floor ctx pctx) else None in
          let dep_ctx :=
            dep_eval_context ctx dep_key dep_record (Some upstream_pctx) nested_bridge_floor in
          let saved := ds_cur_prev scope in
          let latch := default ∅ (ds_prev scope !! dep_key) in
          let '((upstream_result, _), st) :=
            ev dep_ctx {| counter := counter0; sub := ∅;
                          dep_scope := set_cur_prev (Some latch) scope |} false in
          let scope :=
            collect_dep_latch dep_key (sub st) (set_cur_prev saved (dep_scope st)) in
          let is_identity :=
            is_identity_mapping (mapping_kind (resolver pctx) dep_key (target_key ctx)) in
          (if is_identity then upstream_result
           else map_downstream (resolver pctx) dep_key (target_key ctx) upstream_result
                  (Some (all_keys pctx)),
           (counter st, scope))
      end
  end.

Definition root_dep_selections (ctx : EvalContext) : gmap string (gmap N PartitionSelection) :=
  match partition_state (prev_state ctx) with
  | Some ps => dep_previous_selections ps
  | None => ∅
  end.

Definition PartitionDomain : EvalDomain := {|
  Sel := PartitionSelection;
  d_all := All;
  d_empty := Empty;
  d_from_bool := sel_from_bool;
  d_and := sel_intersect;
  d_or := sel_union;
  d_not a ctx := complement a (all_keys (require_pctx ctx));
  d_difference a b ctx := sel_difference a b (all_keys (require_pctx ctx));
  d_restrict a ctx := restrict_to a (all_keys (require_pctx ctx));
  d_missing := part_missing;
  d_in_progress ctx := select_in_universe (p_in_progress (require_pctx ctx)) (require_pctx ctx);
  d_failed ctx := select_in_universe (p_failed (require_pctx ctx)) (require_pctx ctx);
  d_newly_updated := part_newly_updated;
  d_newly_requested := part_newly_requested;
  d_in_latest_window := part_in_latest_window;
  d_backfill_in_progress ctx := eval_backfill_in_progress_partitioned ctx (require_pctx ctx);
  d_last_executed_with_tags ctx tag_keys tag_values :=
    partition_filter_select (last_run_tags (ctx_tags ctx) !! target_key ctx) (require_pctx ctx)
      (run_tags_match tag_keys tag_values);
  d_update_tags ctx tag_keys tag_values require_all :=
    eval_new_update_tags_partitioned ctx (require_pctx ctx) tag_keys tag_values require_all;
  d_last_run_includes_target := part_last_run_includes_target;
  d_will_be_requested ctx := default Empty (requested_this_tick ctx !! target_key ctx);
  d_prev_latch := prev_partition_latch;
  d_since_last_handled := part_since_last_handled;
  d_pivot_into_dep dep_key condition ev ctx counter0 scope :=
    eval_partitioned_on_dep dep_key condition ev ctx (require_pctx ctx) counter0 scope;
  d_root_dep_prev := root_dep_selections;
  d_assemble top ctx sub dep :=
    {| fired := fires_over top (all_keys (require_pctx ctx)); sub_results := ∅;
       selection := Some top; sub_selections := Some sub; dep_sub_results := ∅;
       dep_sub_selections := Some dep |}
|}.

(** ** Entry points *)
Definition evaluate (node : ConditionNode) (ctx : EvalContext) : EvalResult :=
  match partitions ctx with
  | Some _ => (run PartitionDomain node ctx false).1
  | None => (run BoolDomain node ctx false).1
  end.

(** [None]: the [expect] on the tree would panic. *)
Definition evaluate_with_tree (node : ConditionNode) (ctx : EvalContext)
    : option (EvalResult * EvalNodeResult) :=
  let '(result, tree) :=
    match partitions ctx with
    | Some _ => run PartitionDomain node ctx true
    | None => run BoolDomain node ctx true
    end in
  pair result <$> tree.
End partition.
End domains.
