(* ===== verification/CondExample.v ===== *)
(** * A concrete instance of the condition engine's parameters

    The parameters that stand for third-party crates, instantiated by simple functions,
    and a small graph ([b] reads [a]) with its evaluation contexts. Used by the
    witnesses. *)

From S2P Require Import Prelude PartitionKey ConditionNode Selection CondState Cron CondEval CondDomains.
From Stdlib Require Import SpecFloat.

(** Keys are written in unary: a shift by [n] appends [n] marks. *)
#[export] Instance ex_grid : GridOps :=
  {| TimeGrid := unit;
     shift_key _ key offset := Some (key +:+ String.concat EmptyString (replicate (Z.to_nat offset) "'"))%string |}.

#[export] Instance ex_text : NodeText :=
  {| show_f64 _ := "x"; fingerprint_hex _ := "0" |}.

(** A schedule is a period in seconds, written in unary, none of them empty; wall clocks are UTC. *)
#[export] Instance ex_cron : CronOps :=
  {| Cron := Z; Tz := unit; Wall := Z;
     parse_cron s := if String.eqb s EmptyString then None else Some (Z.of_nat (String.length s) * 1000000000)%Z;
     cron_panic := false;
     tz_get s := if String.eqb s "UTC" then Some tt else None;
     in_timestamp_range s := (Z.abs s <? 253402207200)%Z;
     to_wall _ t := t;
     wall_as_utc w := Some w;
     to_ambiguous_offset _ w := Unambiguous (Some w);
     next_transition _ _ := None;
     find_next_occurrence p w := if (p =? 0)%Z then None else Some ((w / p + 1) * p)%Z |}.

Definition ex_record (key : string) (run : option string) (ts : option Z) : AssetRecord :=
  {| code_location_id := "default"; asset_key := key; ar_tags := []; ar_kinds := [];
     asset_group := None; code_version := None; last_event_id := None; last_run_id := run;
     last_timestamp := ts; last_data_version := None;
     last_materialization_code_version := None; last_input_data_versions := []; pool := [] |}.

Definition ex_cache (a_ts b_ts : option Z) : CacheSnapshot :=
  {| records := <["a" := ex_record "a" ((λ _, "r") <$> a_ts) a_ts]>
                {[ "b" := ex_record "b" ((λ _, "r") <$> b_ts) b_ts ]};
     upstream_deps := {[ "b" := ["a"] ]};
     in_progress_assets := ∅; failed_assets := ∅; failed_asset_timestamps := ∅;
     backfill := {| backfill_assets := ∅; backfill_partition_keys := ∅ |} |}.

Definition ex_tags : RunTagSnapshot :=
  {| last_run_tags := ∅; tick_materialization_tags := ∅; last_run_asset_names := ∅ |}.

Definition ex_ctx (a_ts b_ts : option Z) (st : AssetConditionState) (t : Z)
    (p : option PartitionEvalContext) : EvalContext :=
  {| target_key := "b"; root_key := "b"; target_record := ex_record "b" ((λ _, "r") <$> b_ts) b_ts;
     cache := ex_cache a_ts b_ts; ctx_tags := ex_tags; prev_state := st;
     all_asset_states := {[ "b" := st ]}; requested_this_tick := ∅; now := t;
     ctx_is_initial := false; partitions := p; root_partition_floor := None |}.

Definition ex_keys : KeySet := {[ Single ["k1"]; Single ["k2"] ]}.

(** Both assets partitioned by the same keys; [k1] of [b] is built. *)
Definition ex_pctx : PartitionEvalContext :=
  {| all_keys := ex_keys; p_in_progress := ∅; p_failed := ∅;
     p_timestamps := {[ Single ["k1"] := 5%Z ]};
     resolver := {| mappings := ∅; upstream_partition_keys := {[ "a" := ex_keys ]} |};
     time_windows := None;
     all_partition_statuses :=
       <["a" := {| pse_in_progress := ∅; pse_failed := ∅; pse_failed_timestamps := ∅;
                   pse_timestamps := <[Single ["k1"] := 7%Z]> {[ Single ["k2"] := 3%Z ]} |}]>
       {[ "b" := {| pse_in_progress := ∅; pse_failed := ∅; pse_failed_timestamps := ∅;
                    pse_timestamps := {[ Single ["k1"] := 5%Z ]} |} ]};
     dep_root_floor := None |}.

(** [eager()] on [b]: its upstream was built after it, and it fires; once it has been
    rebuilt it does not. *)
Example ex_eager_fires :
  fired (evaluate ex_pctx eager
           (ex_ctx (Some 7%Z) (Some 5%Z) AssetConditionState_default 10 None)) = true.
Proof. vm_compute. reflexivity. Qed.

Example ex_eager_rests :
  fired (evaluate ex_pctx eager
           (ex_ctx (Some 7%Z) (Some 9%Z) AssetConditionState_default 10 None)) = false.
Proof. vm_compute. reflexivity. Qed.

(** Partitioned: [k1] is stale, [k2] was never built. *)
Example ex_eager_partitions :
  selection (evaluate ex_pctx eager
    (ex_ctx (Some 7%Z) (Some 5%Z) AssetConditionState_default 10 (Some ex_pctx)))
  = Some (Keys ex_keys).
Proof. apply (bool_decide_unpack _). vm_compute. exact I. Qed.
