(* ===== verification/CondTree.v ===== *)
(** The evaluator does not panic, and its node indices and trees do not depend on how it
    is run. *)

From S2P Require Import Prelude PartitionKey ConditionNode Selection CondState Cron CondEval CondDomains CondExample.

(** * The evaluator does not panic

    [PartitionDomain] unwraps the partition context of the evaluation, and a cron leaf its parsed
    schedule. Both are modelled with a stand-in for the panic. The result of an evaluation does
    not depend on the first: [evaluate] enters the domain with a partition context, and a pivot
    into a partitioned dep installs the dep's. It does not depend on the second when the
    schedules of the condition parse. *)

(** The cron schedules of a condition. *)
Fixpoint schedules (n : ConditionNode) : list string :=
  match n with
  | CronTickPassed s _ => [s]
  | And cs | Or cs => flat_map schedules cs
  | Not c | NewlyTrue c | SinceLastHandled c | AnyDepsMatch c _ | AllDepsMatch c _ | AssetMatches _ c => schedules c
  | Since t r => schedules t ++ schedules r
  | _ => []
  end.

Definition schedules_ok `{C : CronOps} (n : ConditionNode) : Prop := Forall (λ s, is_Some (parse_cron s)) (schedules n).

Lemma schedules_children `{C : CronOps} n : schedules_ok n → Forall schedules_ok (children n).
Proof.
  unfold schedules_ok. destruct n as [| | | | | | | | | | | | | |n l|n l|cs|cs|n|n|t r|n| | |ks n]; cbn [schedules children]; intros H; repeat constructor; try done.
  1-2: apply Forall_forall; intros c Hc; apply Forall_forall; intros s Hs; rewrite Forall_forall in H; apply H; apply list_elem_of_In, in_flat_map;
    exists c; by rewrite <- !list_elem_of_In.
  all: by apply Forall_app in H as [? ?].
Qed.

Section extensional.
Context {G : GridOps} {T : NodeText} (D : EvalDomain).

Lemma fold_combinator_ext ev1 ev2 ctx bt q cs r st :
  Forall (λ c, ∀ st, ev1 c ctx st bt = ev2 c ctx st bt) cs →
  fold_combinator_loop D ev1 ctx bt q cs r st = fold_combinator_loop D ev2 ctx bt q cs r st.
Proof.
  intros Hcs. revert r st. induction Hcs as [|c cs Hc _ IH]; intros r st; [done|]. cbn [fold_combinator_loop]. rewrite Hc.
  destruct (ev2 c ctx st bt) as [[v t] st']. cbv zeta. destruct (_ && _); [|by rewrite IH].
  destruct bt; [destruct (build_skipped_subtree c _)|]; by rewrite IH.
Qed.

Lemma fold_deps_loop_ext q all base pivot1 pivot2 deps r ds :
  (∀ dep k ds, pivot1 dep k ds = pivot2 dep k ds) → fold_deps_loop D q all base pivot1 deps r ds = fold_deps_loop D q all base pivot2 deps r ds.
Proof.
  intros H. revert r ds. induction deps as [|dep deps IH]; intros r ds; [done|]. cbn [fold_deps_loop]. rewrite H.
  destruct (pivot2 dep base ds) as [v [k ds']]. by rewrite IH.
Qed.
End extensional.

Section panic.
Context {G : GridOps} {T : NodeText} {C : CronOps} (b1 b2 : bool) (p1 p2 : PartitionEvalContext).
Abbreviation C1 := (with_cron_panic b1 C).
Abbreviation C2 := (with_cron_panic b2 C).
Abbreviation D1 := (PartitionDomain (C := C1) p1).
Abbreviation D2 := (PartitionDomain (C := C2) p2).

Lemma cron_agree ctx s tz : is_Some (parse_cron s) → cron_tick_passed (C := C1) ctx s tz = cron_tick_passed (C := C2) ctx s tz.
Proof. intros H. unfold cron_tick_passed. by rewrite !cron_tick_between_panic. Qed.

(** ** The boolean evaluator *)
Definition bool_agree (c : ConditionNode) : Prop := ∀ ctx st bt, eval (C := C1) BoolDomain c ctx st bt = eval (C := C2) BoolDomain c ctx st bt.

Lemma bool_fold_deps_agree deps c ctx st q : bool_agree c →
  fold_deps BoolDomain deps c (eval (C := C1) BoolDomain c) ctx st q = fold_deps BoolDomain deps c (eval (C := C2) BoolDomain c) ctx st q.
Proof.
  intros Hc. unfold fold_deps. cbv zeta.
  rewrite (fold_deps_loop_ext BoolDomain q _ _ _ (λ dep, d_pivot_into_dep BoolDomain dep c (eval (C := C2) BoolDomain c) ctx)); [done|].
  intros dep k ds. cbn [BoolDomain d_pivot_into_dep]. unfold eval_on_dep. destruct (records (cache ctx) !! dep); [|done]. cbv zeta. by rewrite Hc.
Qed.

Lemma bool_leaf_agree n ctx : schedules_ok n → eval_leaf (C := C1) BoolDomain n ctx = eval_leaf (C := C2) BoolDomain n ctx.
Proof. intros Hs. destruct n; try done. cbn [eval_leaf BoolDomain d_from_bool]. apply cron_agree. by apply Forall_cons in Hs as [? _]. Qed.

Lemma bool_eval_agree n : schedules_ok n → bool_agree n.
Proof.
  induction n as [n IH] using ConditionNode_children_ind. intros Hs ctx st bt.
  assert (Hch : Forall bool_agree (children n)).
  { apply schedules_children in Hs. rewrite Forall_forall in *. auto. }
  clear IH. destruct n as [| | | | | | | | | | | | | |n l|n l|cs|cs|n|n|t r|n| | |ks n]; cbn [children] in Hch; cbn [eval]; cbv zeta;
    try (by rewrite (bool_leaf_agree _ ctx Hs)).
  3, 4: unfold fold_combinator; rewrite (fold_combinator_ext BoolDomain _ (eval (C := C2) BoolDomain)); [done|];
    eapply Forall_impl; [exact Hch|]; intros c Hc ?; apply Hc.
  5: { rewrite !Forall_cons in Hch. destruct Hch as (Ht & Hr & _). rewrite Ht. destruct (eval BoolDomain t ctx _ bt) as [[??]?]. by rewrite Hr. }
  1, 2, 6: apply Forall_cons in Hch as [Hc _]; by rewrite bool_fold_deps_agree.
  all: apply Forall_cons in Hch as [Hc _]; by rewrite Hc.
Qed.

(** ** The partition evaluator *)
Definition agree (c : ConditionNode) : Prop :=
  ∀ ctx st bt, is_Some (partitions ctx) → eval (C := C1) D1 c ctx st bt = eval (C := C2) D2 c ctx st bt.

Lemma require_eq ctx : is_Some (partitions ctx) → require_pctx p1 ctx = require_pctx p2 ctx.
Proof. intros [p E]. unfold require_pctx. by rewrite E. Qed.

Lemma leaf_agree n ctx : schedules_ok n → is_Some (partitions ctx) → eval_leaf (C := C1) D1 n ctx = eval_leaf (C := C2) D2 n ctx.
Proof.
  intros Hs E%require_eq. destruct n; try done; cbn [eval_leaf PartitionDomain d_missing d_in_progress d_failed d_newly_updated d_newly_requested
    d_in_latest_window d_backfill_in_progress d_last_executed_with_tags d_update_tags d_last_run_includes_target d_from_bool];
    unfold part_missing, part_newly_updated, part_newly_requested, part_in_latest_window, part_last_run_includes_target; try (by rewrite E).
  rewrite cron_agree; [done|by apply Forall_cons in Hs as [? _]].
Qed.

Lemma pivot_agree dep c ctx k ds : schedules_ok c → agree c → is_Some (partitions ctx) →
  d_pivot_into_dep D1 dep c (eval (C := C1) D1 c) ctx k ds = d_pivot_into_dep D2 dep c (eval (C := C2) D2 c) ctx k ds.
Proof.
  intros Hs Hc E%require_eq. cbn [PartitionDomain d_pivot_into_dep]. rewrite E.
  unfold eval_partitioned_on_dep. destruct (records (cache ctx) !! dep); [|done].
  destruct (upstream_partition_keys _ !! dep); [cbv zeta; by rewrite Hc|]. unfold bridge_into_dep. cbv zeta. by rewrite (bool_eval_agree c Hs).
Qed.

Lemma fold_deps_agree deps c ctx st q : schedules_ok c → agree c → is_Some (partitions ctx) →
  fold_deps D1 deps c (eval (C := C1) D1 c) ctx st q = fold_deps D2 deps c (eval (C := C2) D2 c) ctx st q.
Proof.
  intros Hs Hc Hp. unfold fold_deps. cbv zeta.
  rewrite (fold_deps_loop_ext D1 q _ _ _ (λ dep, d_pivot_into_dep D2 dep c (eval (C := C2) D2 c) ctx)); [reflexivity|].
  intros dep k ds. by apply pivot_agree.
Qed.

Lemma fold_combinator_agree cs ctx bt q r st : Forall agree cs → is_Some (partitions ctx) →
  fold_combinator_loop D1 (eval (C := C1) D1) ctx bt q cs r st = fold_combinator_loop D2 (eval (C := C2) D2) ctx bt q cs r st.
Proof.
  intros Hcs Hp. rewrite (fold_combinator_ext D1 _ (eval (C := C2) D2)); [reflexivity|].
  eapply Forall_impl; [exact Hcs|]. intros c Hc st'. by apply Hc.
Qed.

Lemma eval_agree n : schedules_ok n → agree n.
Proof.
  induction n as [n IH] using ConditionNode_children_ind. intros Hs ctx st bt Hp. pose proof (schedules_children n Hs) as Hsc.
  assert (Hch : Forall agree (children n)) by (rewrite Forall_forall in *; auto). clear IH.
  pose proof (require_eq ctx Hp) as E.
  destruct n as [| | | | | | | | | | | | | |n l|n l|cs|cs|n|n|t r|n| | |ks n];
    cbn [children] in Hch, Hsc; cbn [eval]; cbv zeta;
    try (by rewrite (leaf_agree _ ctx Hs Hp)).
  3, 4: unfold fold_combinator; rewrite fold_combinator_agree by done; done.
  5: { rewrite !Forall_cons in Hch. destruct Hch as (IHt & IHr & _). rewrite IHt by done.
       destruct (eval D2 t ctx _ bt) as [[??]?]. rewrite IHr by done.
       destruct (eval D2 r ctx _ bt) as [[??]?]. cbn [PartitionDomain d_restrict d_difference].
       by rewrite E. }
  1, 2, 6: apply Forall_cons in Hch as [IH _]; rewrite fold_deps_agree by done; done.
  all: apply Forall_cons in Hch as [IH _]; rewrite IH by done;
    destruct (eval D2 n ctx _ bt) as [[??]?];
    cbn [PartitionDomain d_not d_difference d_since_last_handled];
    unfold part_since_last_handled; by rewrite E.
Qed.
End panic.

(** The evaluator never unwraps a missing partition context, and no schedule that does not parse
    when those of the condition do: whatever values the failing unwraps are given, [evaluate]
    and [evaluate_with_tree] return the same. *)
Theorem evaluate_no_panic `{G : GridOps, T : NodeText, C : CronOps} b1 b2 p1 p2 n ctx :
  schedules_ok n →
  evaluate (C := with_cron_panic b1 C) p1 n ctx = evaluate (C := with_cron_panic b2 C) p2 n ctx ∧
  evaluate_with_tree (C := with_cron_panic b1 C) p1 n ctx = evaluate_with_tree (C := with_cron_panic b2 C) p2 n ctx.
Proof.
  intros Hs. unfold evaluate, evaluate_with_tree. destruct (partitions ctx) as [p|] eqn:E.
  - assert (is_Some (partitions ctx)) as Hp by (by rewrite E). unfold run.
    change (initial_state (PartitionDomain (C := with_cron_panic b1 C) p1) ctx) with (initial_state (PartitionDomain (C := with_cron_panic b2 C) p2) ctx).
    rewrite !(eval_agree b1 b2 p1 p2 n) by done.
    destruct (eval (PartitionDomain p2) n ctx _ false) as [[??]?].
    destruct (eval (PartitionDomain p2) n ctx _ true) as [[??]?].
    cbn [PartitionDomain d_assemble]. by rewrite (require_eq p1 p2 ctx Hp).
  - unfold run. by rewrite !(bool_eval_agree b1 b2 n).
Qed.

(** * Node indices and evaluation trees

    Latches are keyed by the node counter, so the counter must not depend on the domain,
    on short-circuiting or on whether a tree is built; and building the tree must not
    change what is evaluated. *)

(** The tree with the outcome of the evaluation erased. *)
Fixpoint erase_tree (t : EvalNodeResult) : EvalNodeResult :=
  MkNode (node_idx t) (enr_label t) (enr_node_type t) Skipped
    (erase_tree <$> enr_children t) None.

Section tree.
Context {G : GridOps} {T : NodeText} {C : CronOps}.

Lemma map_acc_snd {A B} (f : A → N → B * N) (g : A → N → N) l c :
  Forall (λ x, ∀ c, (f x c).2 = g x c) l →
  (map_acc f l c).2 = foldl (λ c x, g x c) c l.
Proof.
  intros Hl. revert c. induction Hl as [|x l Hx _ IH]; intros c; simpl; [done|].
  specialize (Hx c). destruct (f x c) as [y c'] eqn:E. simpl in Hx. subst c'.
  specialize (IH (g x c)). by destruct (map_acc f l (g x c)).
Qed.

Lemma build_skipped_counter n c : (build_skipped_subtree n c).2 = count_nodes n c.
Proof.
  revert c. induction n as [n IH] using ConditionNode_children_ind. intros c.
  destruct n as [| | | | | | | | | | | | | |n l|n l|cs|cs|n|n|t r|n| | |ks n]; try done;
    cbn [children] in IH; cbn [build_skipped_subtree count_nodes]; cbv zeta.
  3, 4: rewrite <-(map_acc_snd build_skipped_subtree) by done;
        by destruct (map_acc _ _ _).
  5: { rewrite !Forall_cons in IH. destruct IH as (IHt & IHr & _).
       rewrite <-IHt. destruct (build_skipped_subtree t _) as [tt k]. rewrite <-IHr.
       by destruct (build_skipped_subtree r _). }
  all: apply Forall_cons in IH as [IH _]; rewrite <-IH;
       by destruct (build_skipped_subtree n _).
Qed.

Section domain.
Context (D : EvalDomain).

Lemma fold_deps_counter deps c ev ctx st q :
  counter (fold_deps D deps c ev ctx st q).2 = count_nodes c (counter st).
Proof. unfold fold_deps. by destruct (fold_deps_loop _ _ _ _ _ _ _ _). Qed.

Lemma fold_combinator_counter ev ctx bt q cs r st :
  Forall (λ c, ∀ ctx st bt, counter (ev c ctx st bt).2 = count_nodes c (counter st)) cs →
  counter (fold_combinator_loop D ev ctx bt q cs r st).2
  = foldl (λ k c, count_nodes c k) (counter st) cs.
Proof.
  intros Hcs. revert r st. induction Hcs as [|c cs Hc _ IH]; intros r st; [done|].
  cbn [fold_combinator_loop foldl]. destruct (_ && _).
  - assert (∀ p k, k = count_nodes c (counter st) →
      counter (let '((r', rest), st') :=
                 fold_combinator_loop D ev ctx bt q cs r (set_counter k st) in
               ((r', p ++ rest), st')).2
      = foldl (λ k c, count_nodes c k) (count_nodes c (counter st)) cs) as H.
    { intros p k ->. etrans; [|apply (IH r (set_counter _ st))].
      by destruct (fold_combinator_loop _ _ _ _ _ _ _ _) as [[??]?]. }
    destruct bt; [|by apply H].
    pose proof (build_skipped_counter c (counter st)) as E.
    destruct (build_skipped_subtree c (counter st)) as [t k]. by apply H.
  - specialize (Hc ctx st bt). destruct (ev c ctx st bt) as [[s t] st']. simpl in Hc.
    rewrite <-Hc, <-(IH (if q_saturated q r then r else q_combine D q r s) st').
    by destruct (fold_combinator_loop _ _ _ _ _ _ _ _) as [[??]?].
Qed.

(** The counter advances by the nodes of the tree, whatever is evaluated. *)
Lemma eval_counter n ctx st bt :
  counter (eval D n ctx st bt).2 = count_nodes n (counter st).
Proof.
  revert ctx st bt. induction n as [n IH] using ConditionNode_children_ind. intros ctx st bt.
  destruct n as [| | | | | | | | | | | | | |n l|n l|cs|cs|n|n|t r|n| | |ks n]; try done;
    cbn [children] in IH; cbn [eval count_nodes]; cbv zeta.
  3, 4: unfold fold_combinator;
    match goal with |- context [fold_combinator_loop D ?ev ?ctx ?bt ?q ?cs ?r ?st] =>
      etrans; [|exact (fold_combinator_counter ev ctx bt q cs r st IH)];
      by destruct (fold_combinator_loop D ev ctx bt q cs r st) as [[??]?] end.
  1, 2, 7: match goal with |- context [fold_deps D ?deps ?c ?ev ?ctx ?st ?q] =>
      etrans; [|exact (fold_deps_counter deps c ev ctx st q)];
      by destruct (fold_deps D deps c ev ctx st q) end.
  3: { rewrite !Forall_cons in IH. destruct IH as (IHt & IHr & _).
       match goal with |- context [eval D t ctx ?st bt] =>
         specialize (IHt ctx st bt); destruct (eval D t ctx st bt) as [[??] st1] end.
       specialize (IHr ctx st1 bt). destruct (eval D r ctx st1 bt) as [[??] st2].
       cbn [snd] in *. cbn [counter insert_sub]. by rewrite IHr, IHt. }
  all: apply Forall_cons in IH as [IH _];
    match goal with |- context [eval D ?n ?ctx ?st ?bt] =>
      specialize (IH ctx st bt); destruct (eval D n ctx st bt) as [[??] st1] end;
    exact IH.
Qed.

(** ** Building the tree *)

(** What building the tree may change: the tree only. *)
Definition same_but_tree (r r' : (Sel D * option EvalNodeResult) * EvalState (Sel D))
    (n : ConditionNode) (c : N) : Prop :=
  r.1.1 = r'.1.1 ∧ r.2 = r'.2 ∧ r'.1.2 = None ∧
  ∃ t, r.1.2 = Some t ∧ erase_tree t = erase_tree (build_skipped_subtree n c).1.

Lemma erase_skipped_leaf n c bt (ctx : EvalContext) (s : Sel D) st :
  children n = [] →
  bt = true →
  same_but_tree (finish D n ctx c true s [], st) (finish D n ctx c false s [], st) n c.
Proof.
  intros Hn ->. split; [done|split; [done|split; [done|]]]. eexists. split; [done|].
  destruct n as [| | | | | | | | | | | | | | | |[]|[]| | | | | | |]; done.
Qed.

Lemma map_acc_fst {A B} (f : A → N → B * N) x l c :
  (map_acc f (x :: l) c).1 = (f x c).1 :: (map_acc f l (f x c).2).1.
Proof. simpl. destruct (f x c) as [y k]. simpl. by destruct (map_acc f l k). Qed.

Lemma fold_combinator_tree ev ctx q cs r st :
  Forall (λ c, ∀ ctx st, same_but_tree (ev c ctx st true) (ev c ctx st false) c (counter st) ∧
                         counter (ev c ctx st true).2 = count_nodes c (counter st)) cs →
  let x := fold_combinator_loop D ev ctx true q cs r st in
  let x' := fold_combinator_loop D ev ctx false q cs r st in
  x.1.1 = x'.1.1 ∧ x.2 = x'.2 ∧
  erase_tree <$> x.1.2 = erase_tree <$> (map_acc build_skipped_subtree cs (counter st)).1.
Proof.
  intros Hcs. revert r st. induction Hcs as [|c cs Hc _ IH]; intros r st; [done|].
  rewrite map_acc_fst, fmap_cons, build_skipped_counter. cbn [fold_combinator_loop].
  destruct (_ && _); cbv zeta.
  - pose proof (build_skipped_counter c (counter st)) as E.
    destruct (build_skipped_subtree c (counter st)) as [t k]. cbn [fst snd] in *. subst k.
    destruct (IH r (set_counter (count_nodes c (counter st)) st)) as (I1 & I2 & I3).
    destruct (fold_combinator_loop D ev ctx true _ _ _ _) as [[??]?],
      (fold_combinator_loop D ev ctx false _ _ _ _) as [[??]?]. cbn [fst snd] in *.
    split; [done|split; [done|]]. rewrite fmap_app. cbn [counter set_counter] in I3.
    by rewrite I3.
  - destruct (Hc ctx st) as [(E1 & E2 & E3 & t & E4 & E5) Ec].
    destruct (ev c ctx st true) as [[s o] st1], (ev c ctx st false) as [[s' o'] st2].
    cbn [fst snd] in *. subst.
    destruct (IH (if q_saturated q r then r else q_combine D q r s') st2) as (I1 & I2 & I3).
    destruct (fold_combinator_loop D ev ctx true _ _ _ _) as [[??]?],
      (fold_combinator_loop D ev ctx false _ _ _ _) as [[??]?]. cbn [fst snd] in *.
    split; [done|split; [done|]]. rewrite fmap_app, I3, Ec, <-E5.
    done.
Qed.

Lemma eval_tree n ctx st :
  same_but_tree (eval D n ctx st true) (eval D n ctx st false) n (counter st).
Proof.
  revert ctx st. induction n as [n IH] using ConditionNode_children_ind. intros ctx st.
  destruct n as [| | | | | | | | | | | | | |n l|n l|cs|cs|n|n|t r|n| | |ks n];
    try (by apply (erase_skipped_leaf _ _ true));
    cbn [children] in IH; cbn [eval]; cbv zeta.
  3, 4: match goal with |- context [fold_combinator D ?ev ?ctx true ?q ?cs ?st] =>
      destruct (fold_combinator_tree ev ctx q cs (q_init D q) st) as (E1 & E2 & E3);
      [eapply Forall_impl; [exact IH|]; intros c Hc ctx' st'; split; [apply Hc|apply eval_counter]|];
      unfold fold_combinator;
      destruct (fold_combinator_loop D ev ctx true _ _ _ _) as [[s parts] st1],
        (fold_combinator_loop D ev ctx false _ _ _ _) as [[s' parts'] st2] end;
    cbn [fst snd counter set_counter] in *; subst;
    split; [done|split; [done|split; [done|]]]; eexists; split; [done|];
    cbn [build_skipped_subtree]; destruct (map_acc _ _ _); simpl in *; by rewrite E3.
  1, 2, 7: match goal with |- context [fold_deps D ?deps ?c ?ev ?ctx ?st ?q] =>
      destruct (fold_deps D deps c ev ctx st q) end;
    split; [done|split; [done|split; [done|]]]; eexists; split; [done|];
    cbn [build_skipped_subtree]; by destruct (build_skipped_subtree n _).
  3: { rewrite !Forall_cons in IH. destruct IH as (IHt & IHr & _).
       match goal with |- context [eval D t ctx ?st true] =>
         pose proof (eval_counter t ctx st true) as Et;
         destruct (IHt ctx st) as (E1 & E2 & E3 & tt & E4 & E5);
         destruct (eval D t ctx st true) as [[? ?] st1], (eval D t ctx st false) as [[? ?] st1'] end.
       cbn [fst snd] in *. subst.
       destruct (IHr ctx st1') as (F1 & F2 & F3 & tr & F4 & F5).
       destruct (eval D r ctx st1' true) as [[??] ?], (eval D r ctx st1' false) as [[??] ?].
       cbn [fst snd] in *. subst.
       split; [done|split; [done|split; [done|]]]. eexists. split; [done|].
       cbn [build_skipped_subtree counter set_counter] in *. cbv zeta in *.
       rewrite Et in F5. pose proof (build_skipped_counter t (u32_incr (counter st))) as Es.
       destruct (build_skipped_subtree t _). cbn [fst snd] in *. subst.
       destruct (build_skipped_subtree r _). simpl in *. by rewrite E5, F5. }
  all: apply Forall_cons in IH as [IH _];
    match goal with |- context [eval D ?n ?ctx ?st true] =>
      destruct (IH ctx st) as (E1 & E2 & E3 & tt & E4 & E5);
      destruct (eval D n ctx st true) as [[? ?] st1], (eval D n ctx st false) as [[? ?] st1'] end;
    cbn [fst snd counter set_counter] in *; subst;
    split; [done|split; [done|split; [done|]]]; eexists; split; [done|];
    cbn [build_skipped_subtree]; destruct (build_skipped_subtree n _); simpl in *; by rewrite E5.
Qed.
End domain.
End tree.

(** The number of nodes of a tree. *)
Fixpoint node_size (n : ConditionNode) : N :=
  (1 + match n with
       | And cs | Or cs => foldr (λ c k, node_size c + k) 0 cs
       | Not c | NewlyTrue c | SinceLastHandled c => node_size c
       | Since trigger reset => node_size trigger + node_size reset
       | AnyDepsMatch c _ | AllDepsMatch c _ | AssetMatches _ c => node_size c
       | _ => 0
       end)%N.

Lemma count_nodes_size n c : count_nodes n (c mod 2 ^ 32) = ((c + node_size n) mod 2 ^ 32)%N.
Proof.
  revert c. induction n as [n IH] using ConditionNode_children_ind. intros c.
  assert (∀ cs k, Forall (λ n, ∀ c, count_nodes n (c mod 2 ^ 32)
      = ((c + node_size n) mod 2 ^ 32)%N) cs →
    foldl (λ k n, count_nodes n k) (k mod 2 ^ 32)%N cs
    = ((k + foldr (λ c k, node_size c + k) 0 cs) mod 2 ^ 32)%N) as Hl.
  { intros cs k Hcs. revert k. induction Hcs as [|x cs Hx _ IHcs]; intros k;
      cbn [foldl foldr]; [by rewrite N.add_0_r|]. rewrite Hx, IHcs. f_equal. lia. }
  destruct n as [| | | | | | | | | | | | | |n l|n l|cs|cs|n|n|t r|n| | |ks n];
    cbn [children] in IH; cbn [count_nodes node_size]; rewrite incr_mod;
    try (by rewrite ?N.add_0_r).
  3, 4: rewrite Hl by done; f_equal; lia.
  5: { rewrite !Forall_cons in IH. destruct IH as (IHt & IHr & _).
       rewrite IHt, IHr. f_equal. lia. }
  all: apply Forall_cons in IH as [IH _]; rewrite IH; f_equal; lia.
Qed.

(** Node indices, by which latches are persisted, depend on the tree alone: after
    any evaluation the counter has advanced by the number of nodes of the tree (modulo
    2^32), in both domains, with or without a tree, and a short-circuited subtree
    advances it by the same amount. *)
Theorem node_indices_stable `{G : GridOps, T : NodeText, C : CronOps} D n ctx st bt c :
  counter st = (c mod 2 ^ 32)%N →
  counter (eval D n ctx st bt).2 = ((c + node_size n) mod 2 ^ 32)%N ∧
  count_nodes n (counter st) = ((c + node_size n) mod 2 ^ 32)%N ∧
  (build_skipped_subtree n (counter st)).2 = ((c + node_size n) mod 2 ^ 32)%N.
Proof.
  intros E. rewrite eval_counter, build_skipped_counter, E, count_nodes_size. done.
Qed.

Lemma node_indices_stable_witness :
  let ctx := ex_ctx (Some 7%Z) (Some 5%Z) AssetConditionState_default 10 None in
  counter (eval BoolDomain eager ctx (initial_state BoolDomain ctx) true).2 = node_size eager.
Proof.
  intros ctx.
  exact (proj1 (node_indices_stable BoolDomain eager ctx (initial_state BoolDomain ctx) true
                  0 eq_refl)).
Defined.

Lemma run_tree `{G : GridOps, T : NodeText, C : CronOps} D n ctx :
  ∃ t, run D n ctx true = ((run D n ctx false).1, Some t) ∧
       erase_tree t = erase_tree (build_skipped_subtree n 0).1.
Proof.
  unfold run. destruct (eval_tree D n ctx (initial_state D ctx)) as (E1 & E2 & E3 & t & E4 & E5).
  destruct (eval D n ctx _ true) as [[s o] st1], (eval D n ctx _ false) as [[s' o'] st2].
  cbn [fst snd] in *. subst. by exists t.
Qed.

(** [evaluate_with_tree] never panics, its result is the one [evaluate] computes
    without building a tree, and its tree has one entry per condition node at the same
    index and with the same label as if nothing had been evaluated, whichever children
    were short-circuited. *)
Theorem evaluate_with_tree_agrees `{G : GridOps, T : NodeText, C : CronOps} panic n ctx :
  ∃ t, evaluate_with_tree panic n ctx = Some (evaluate panic n ctx, t) ∧
       erase_tree t = erase_tree (build_skipped_subtree n 0).1.
Proof.
  unfold evaluate_with_tree, evaluate.
  destruct (partitions ctx);
    [destruct (run_tree (PartitionDomain panic) n ctx) as (t & -> & E)
    |destruct (run_tree BoolDomain n ctx) as (t & -> & E)]; by exists t.
Qed.
