(* ===== verification/CondFull.v ===== *)
(** * Short-circuiting is unobservable

    [eval_full] evaluates every child and every dep, with no short-circuiting and no
    tree. For a domain with the laws of [LawfulDomain] the evaluator computes the same
    value, the same latches and the same per-dep latches: what [fold_combinator] and
    [fold_deps] skip could not have changed anything. Both domains are lawful; for
    selections the values involved must not be [Keys {}], which evaluation preserves. *)

From S2P Require Import Prelude PartitionKey ConditionNode Selection SelectionTheorems CondState Cron CondEval CondDomains CondExample CondTree.

Section full.
Context {G : GridOps} {T : NodeText} {C : CronOps}.

(** An evaluator that builds no tree. *)
Definition FullEvaluator (V : Type) : Type := EvalContext → EvalState V → V * EvalState V.

Definition as_evaluator {V} (ev : FullEvaluator V) : Evaluator V :=
  λ ctx st _, let '(v, st) := ev ctx st in ((v, None), st).

Section folds.
Context (D : EvalDomain).

Fixpoint full_deps (quant : Quantifier) (base : N)
    (pivot : string → N → DepScope (Sel D) → Sel D * (N * DepScope (Sel D)))
    (deps : list string) (result : Sel D) (scope : DepScope (Sel D)) : Sel D * DepScope (Sel D) :=
  match deps with
  | [] => (result, scope)
  | dep :: deps =>
      let '(v, (_, scope)) := pivot dep base scope in
      full_deps quant base pivot deps (q_combine D quant result v) scope
  end.

Section children.
Context (ev : ConditionNode → FullEvaluator (Sel D)) (quant : Quantifier) (ctx : EvalContext).
Fixpoint full_children (cs : list ConditionNode) (result : Sel D) (st : EvalState (Sel D))
    : Sel D * EvalState (Sel D) :=
  match cs with
  | [] => (result, st)
  | c :: cs => let '(v, st) := ev c ctx st in full_children cs (q_combine D quant result v) st
  end.
End children.

Definition full_aggregate (quant : Quantifier) (deps : list string) (condition : ConditionNode)
    (ev : FullEvaluator (Sel D)) (ctx : EvalContext) (st : EvalState (Sel D))
    : Sel D * EvalState (Sel D) :=
  let '(v, scope) :=
    full_deps quant (counter st)
      (λ dep, d_pivot_into_dep D dep condition (as_evaluator ev) ctx)
      deps (q_init D quant) (dep_scope st) in
  (v, {| counter := count_nodes condition (counter st); sub := sub st; dep_scope := scope |}).

Fixpoint eval_full (node : ConditionNode) (ctx : EvalContext) (st : EvalState (Sel D))
    {struct node} : Sel D * EvalState (Sel D) :=
  let my_idx := counter st in
  let st := set_counter (u32_incr my_idx) st in
  match node with
  | AnyDepsMatch c _ => full_aggregate QAny (upstream_of ctx) c (eval_full c) ctx st
  | AllDepsMatch c _ => full_aggregate QAll (upstream_of ctx) c (eval_full c) ctx st
  | AssetMatches keys c => full_aggregate QAny keys c (eval_full c) ctx st
  | And cs => full_children eval_full QAll ctx cs (d_all D) st
  | Or cs => full_children eval_full QAny ctx cs (d_empty D) st
  | Not c => let '(v, st) := eval_full c ctx st in (d_not D v ctx, st)
  | NewlyTrue c =>
      let '(v, st) := eval_full c ctx st in
      (d_difference D v (d_prev_latch D (dep_scope st) ctx my_idx) ctx, insert_sub my_idx v st)
  | Since t r =>
      let '(vt, st) := eval_full t ctx st in
      let '(vr, st) := eval_full r ctx st in
      let prev := d_prev_latch D (dep_scope st) ctx my_idx in
      let v := d_restrict D (d_difference D (d_or D prev vt) vr ctx) ctx in
      (v, insert_sub my_idx v st)
  | SinceLastHandled c =>
      let '(v, st) := eval_full c ctx st in (d_since_last_handled D v ctx, st)
  | leaf => (eval_leaf D leaf ctx, st)
  end.
End folds.

(** ** Laws *)

(** The latches an evaluation may read are well formed. *)
Definition latches_ok {V} (ok : V → Prop) (m : gmap N V) : Prop := map_Forall (λ _, ok) m.

Record scope_ok {V} (ok : V → Prop) (ds : DepScope V) : Prop := {
  so_prev : map_Forall (λ _, latches_ok ok) (ds_prev ds);
  so_cur : ∀ m, ds_cur_prev ds = Some m → latches_ok ok m
}.

(** What an evaluator guarantees: it keeps the scope well formed and yields a
    well-formed value. *)
Definition keeps_ok {V} (ok : V → Prop) (cok : EvalContext → Prop) (ev : Evaluator V) : Prop :=
  ∀ ctx st bt, cok ctx → scope_ok ok (dep_scope st) →
    ok (ev ctx st bt).1.1 ∧
    ds_prev (dep_scope (ev ctx st bt).2) = ds_prev (dep_scope st) ∧
    ds_cur_prev (dep_scope (ev ctx st bt).2) = ds_cur_prev (dep_scope st).

(** It records no latch. *)
Definition leaves_no_latch {V} (ok : V → Prop) (cok : EvalContext → Prop) (ev : Evaluator V)
    : Prop :=
  ∀ ctx st bt, cok ctx → scope_ok ok (dep_scope st) →
    sub (ev ctx st bt).2 = sub st ∧ dep_scope (ev ctx st bt).2 = dep_scope st.

Class LawfulDomain (D : EvalDomain) := {
  val_ok : Sel D → Prop;
  ctx_ok : EvalContext → Prop;
  (** a saturated value absorbs what is combined into it *)
  law_absorb q r v : val_ok r → q_saturated q r = true → q_combine D q r v = r;
  law_init q : val_ok (q_init D q);
  law_combine q r v : val_ok r → val_ok v → val_ok (q_combine D q r v);
  law_not v ctx : val_ok v → val_ok (d_not D v ctx);
  law_difference v w ctx : val_ok v → val_ok w → val_ok (d_difference D v w ctx);
  law_restrict v ctx : val_ok v → val_ok (d_restrict D v ctx);
  law_handled v ctx : val_ok v → val_ok (d_since_last_handled D v ctx);
  law_leaf n ctx : ctx_ok ctx → val_ok (eval_leaf D n ctx);
  law_latch ds ctx i : ctx_ok ctx → scope_ok val_ok ds → val_ok (d_prev_latch D ds ctx i);
  (** pivoting: what the sub-evaluator guarantees, the pivot guarantees *)
  law_pivot_ok dep c ev ctx k ds :
    ctx_ok ctx → scope_ok val_ok ds → keeps_ok val_ok ctx_ok ev →
    val_ok (d_pivot_into_dep D dep c ev ctx k ds).1 ∧
    ds_prev (d_pivot_into_dep D dep c ev ctx k ds).2.2 = ds_prev ds ∧
    ds_cur_prev (d_pivot_into_dep D dep c ev ctx k ds).2.2 = ds_cur_prev ds;
  law_pivot_frame dep c ev ctx k ds :
    ctx_ok ctx → scope_ok val_ok ds →
    has_stateful_nodes c = false → leaves_no_latch val_ok ctx_ok ev →
    (d_pivot_into_dep D dep c ev ctx k ds).2.2 = ds;
  law_pivot_ext dep c ev ev' ctx k ds :
    ctx_ok ctx → scope_ok val_ok ds →
    (∀ ctx st, ctx_ok ctx → scope_ok val_ok (dep_scope st) →
       (ev ctx st false).1.1 = (ev' ctx st false).1.1 ∧
       (ev ctx st false).2 = (ev' ctx st false).2) →
    d_pivot_into_dep D dep c ev ctx k ds = d_pivot_into_dep D dep c ev' ctx k ds
}.

(** ** The equivalence *)
Section equiv.
Context (D : EvalDomain) {L : LawfulDomain D}.

Lemma scope_ok_frame (ds ds' : DepScope (Sel D)) :
  ds_prev ds' = ds_prev ds → ds_cur_prev ds' = ds_cur_prev ds →
  scope_ok val_ok ds → scope_ok val_ok ds'.
Proof. intros E1 E2 [H1 H2]. split; [by rewrite E1|by rewrite E2]. Qed.

(** The statement proved for every tree. *)
Record eval_spec (n : ConditionNode) : Prop := {
  es_eq ctx st bt : ctx_ok ctx → scope_ok val_ok (dep_scope st) →
    (eval D n ctx st bt).1.1 = (eval_full D n ctx st).1 ∧
    (eval D n ctx st bt).2 = (eval_full D n ctx st).2;
  es_ok : keeps_ok val_ok ctx_ok (eval D n);
  es_frame : has_stateful_nodes n = false → leaves_no_latch val_ok ctx_ok (eval D n)
}.

Lemma fold_deps_frame c ev ctx q all base deps r ds :
  ctx_ok ctx → scope_ok val_ok ds →
  has_stateful_nodes c = false → leaves_no_latch val_ok ctx_ok ev →
  (fold_deps_loop D q all base (λ dep, d_pivot_into_dep D dep c ev ctx) deps r ds).2 = ds.
Proof.
  intros Hctx Hds Hc Hev. revert r. induction deps as [|dep deps IH]; intros r; [done|].
  cbn [fold_deps_loop].
  pose proof (law_pivot_frame dep c ev ctx base ds Hctx Hds Hc Hev) as E.
  destruct (d_pivot_into_dep _ _ _ _ _ _ _) as [v [k ds']]. cbn [fst snd] in *. subst ds'.
  by destruct (_ && _).
Qed.

Lemma fold_deps_ok c ev ctx q all base deps r ds :
  ctx_ok ctx → keeps_ok val_ok ctx_ok ev → val_ok r → scope_ok val_ok ds →
  let x := fold_deps_loop D q all base (λ dep, d_pivot_into_dep D dep c ev ctx) deps r ds in
  val_ok x.1 ∧ ds_prev x.2 = ds_prev ds ∧ ds_cur_prev x.2 = ds_cur_prev ds.
Proof.
  intros Hctx Hev. revert r ds. induction deps as [|dep deps IH]; intros r ds Hr Hds; [done|].
  cbn [fold_deps_loop]. destruct (law_pivot_ok dep c ev ctx base ds Hctx Hds Hev) as (E1 & E2 & E3).
  destruct (d_pivot_into_dep _ _ _ _ _ _ _) as [v [k ds']]. cbn [fst snd] in *.
  assert (val_ok (q_combine D q r v)) by (by apply law_combine).
  destruct (_ && _); [done|].
  destruct (IH (q_combine D q r v) ds') as (? & ? & ?); [done|by eapply scope_ok_frame|].
  split; [done|split; congruence].
Qed.

(** Once saturated, the remaining deps of a stateless condition change nothing. *)
Lemma full_deps_absorbed q base pivot deps r ds :
  val_ok r → q_saturated q r = true →
  (∀ dep, (pivot dep base ds).2.2 = ds) →
  full_deps D q base pivot deps r ds = (r, ds).
Proof.
  intros Hr Hsat Hp. induction deps as [|dep deps IH]; [done|]. cbn [full_deps].
  pose proof (Hp dep) as E. destruct (pivot dep base ds) as [v [k ds']].
  cbn [fst snd] in E. subst ds'. by rewrite law_absorb.
Qed.

Lemma fold_deps_full c ev ev' ctx q base deps r ds :
  ctx_ok ctx → keeps_ok val_ok ctx_ok ev → val_ok r → scope_ok val_ok ds →
  (has_stateful_nodes c = false → leaves_no_latch val_ok ctx_ok ev') →
  (∀ ctx st, ctx_ok ctx → scope_ok val_ok (dep_scope st) →
     (ev ctx st false).1.1 = (ev' ctx st false).1.1 ∧ (ev ctx st false).2 = (ev' ctx st false).2) →
  fold_deps_loop D q (has_stateful_nodes c) base (λ dep, d_pivot_into_dep D dep c ev ctx) deps r ds
  = full_deps D q base (λ dep, d_pivot_into_dep D dep c ev' ctx) deps r ds.
Proof.
  intros Hctx Hev Hr Hds Hframe Hext. revert r ds Hr Hds.
  induction deps as [|dep deps IH]; intros r ds Hr Hds; [done|].
  cbn [fold_deps_loop full_deps].
  destruct (law_pivot_ok dep c ev ctx base ds Hctx Hds Hev) as (E1 & E2 & E3).
  rewrite <-(law_pivot_ext dep c ev ev' ctx base ds) by done.
  destruct (d_pivot_into_dep _ _ _ _ _ _ _) as [v [k ds']]. cbn [fst snd] in *.
  assert (val_ok (q_combine D q r v)) by (by apply law_combine).
  destruct (_ && _) eqn:E; [|apply IH; [done|by eapply scope_ok_frame]].
  apply andb_true_iff in E as [Hsat Hc%negb_true_iff]. symmetry.
  apply full_deps_absorbed; [done..|]. intros dep'.
  apply law_pivot_frame; [done|by eapply scope_ok_frame|done|by apply Hframe].
Qed.

(** ** Combinators *)
Lemma count_nodes_stateless_eq n ctx st :
  ctx_ok ctx → scope_ok val_ok (dep_scope st) → eval_spec n → has_stateful_nodes n = false →
  (eval_full D n ctx st).2 = set_counter (count_nodes n (counter st)) st.
Proof.
  intros Hctx Hst Hn Hs. destruct (es_eq n Hn ctx st false Hctx Hst) as [_ <-].
  destruct (es_frame n Hn Hs ctx st false Hctx Hst) as [E1 E2].
  pose proof (eval_counter D n ctx st false) as E3.
  destruct (eval D n ctx st false) as [? [c s d]]. cbn [snd counter sub dep_scope] in *.
  by subst.
Qed.

Lemma fold_combinator_full ctx bt q cs r st :
  ctx_ok ctx → Forall eval_spec cs → val_ok r → scope_ok val_ok (dep_scope st) →
  let x := fold_combinator_loop D (eval D) ctx bt q cs r st in
  x.1.1 = (full_children D (eval_full D) q ctx cs r st).1 ∧
  x.2 = (full_children D (eval_full D) q ctx cs r st).2 ∧
  val_ok x.1.1 ∧
  ds_prev (dep_scope x.2) = ds_prev (dep_scope st) ∧
  ds_cur_prev (dep_scope x.2) = ds_cur_prev (dep_scope st).
Proof.
  intros Hctx Hcs. revert r st. induction Hcs as [|c cs Hc Hcs IH]; intros r st Hr Hst; [done|].
  cbn [fold_combinator_loop full_children]. destruct (_ && _) eqn:E; cbv zeta.
  - apply andb_true_iff in E as [Hsat Hs%negb_true_iff].
    pose proof (count_nodes_stateless_eq c ctx st Hctx Hst Hc Hs) as Ec.
    destruct (eval_full D c ctx st) as [v st1]. cbn [snd] in Ec. subst st1.
    rewrite law_absorb by done.
    destruct (IH r (set_counter (count_nodes c (counter st)) st) Hr Hst) as (I1 & I2 & I3 & I4).
    pose proof (build_skipped_counter c (counter st)) as Ek.
    destruct bt.
    + destruct (build_skipped_subtree c (counter st)) as [t k]. cbn [snd] in Ek. subst k.
      by destruct (fold_combinator_loop _ _ _ _ _ _ _ _) as [[??]?].
    + by destruct (fold_combinator_loop _ _ _ _ _ _ _ _) as [[??]?].
  - destruct (es_eq c Hc ctx st bt Hctx Hst) as [E1 E2].
    destruct (es_ok c Hc ctx st bt Hctx Hst) as (E3 & E4 & E5).
    destruct (eval D c ctx st bt) as [[v t] st1], (eval_full D c ctx st) as [v' st1'].
    cbn [fst snd] in *. subst v' st1'.
    replace (if q_saturated q r then r else q_combine D q r v) with (q_combine D q r v)
      by (destruct (q_saturated q r) eqn:Hsat; [by apply law_absorb|done]).
    destruct (IH (q_combine D q r v) st1) as (I1 & I2 & I3 & I4 & I5);
      [by apply law_combine|by eapply scope_ok_frame|].
    destruct (fold_combinator_loop _ _ _ _ _ _ _ _) as [[??]?]. cbn [fst snd] in *.
    rewrite E4 in I4. rewrite E5 in I5. done.
Qed.

Lemma fold_combinator_frame ctx bt q cs r st :
  ctx_ok ctx → Forall eval_spec cs → scope_ok val_ok (dep_scope st) →
  existsb has_stateful_nodes cs = false →
  let x := fold_combinator_loop D (eval D) ctx bt q cs r st in
  sub x.2 = sub st ∧ dep_scope x.2 = dep_scope st.
Proof.
  intros Hctx Hcs. revert r st. induction Hcs as [|c cs Hc Hcs IH]; intros r st Hst; [done|].
  cbn [existsb]. intros [Hs Hrest]%orb_false_iff. cbn [fold_combinator_loop].
  rewrite Hs. destruct (_ && _); cbv zeta.
  - assert (∀ p k, let x := let '((r', rest), st') :=
        fold_combinator_loop D (eval D) ctx bt q cs r (set_counter k st) in
        ((r', p ++ rest), st') in sub x.2 = sub st ∧ dep_scope x.2 = dep_scope st) as H.
    { intros p k. specialize (IH r (set_counter k st) Hst Hrest).
      by destruct (fold_combinator_loop _ _ _ _ _ _ _ _) as [[??]?]. }
    destruct bt; [|apply H]. destruct (build_skipped_subtree c (counter st)). apply H.
  - destruct (es_frame c Hc Hs ctx st bt Hctx Hst) as [E1 E2].
    destruct (eval D c ctx st bt) as [[v t] st1]. cbn [snd] in *.
    specialize (IH (if q_saturated q r then r else q_combine D q r v) st1).
    rewrite E1, E2 in IH. specialize (IH Hst Hrest).
    by destruct (fold_combinator_loop _ _ _ _ _ _ _ _) as [[??]?].
Qed.

Lemma fold_deps_spec c deps q ctx st :
  eval_spec c → ctx_ok ctx → scope_ok val_ok (dep_scope st) →
  let x := fold_deps D deps c (eval D c) ctx st q in
  x = full_aggregate D q deps c (eval_full D c) ctx st ∧ val_ok x.1 ∧
  ds_prev (dep_scope x.2) = ds_prev (dep_scope st) ∧
  ds_cur_prev (dep_scope x.2) = ds_cur_prev (dep_scope st) ∧
  (has_stateful_nodes c = false → sub x.2 = sub st ∧ dep_scope x.2 = dep_scope st).
Proof.
  intros Hc Hctx Hst. unfold fold_deps, full_aggregate, finalize_dep_counter. cbv zeta.
  assert (∀ ctx st, ctx_ok ctx → scope_ok val_ok (dep_scope st) →
    (eval D c ctx st false).1.1 = (as_evaluator (eval_full D c) ctx st false).1.1 ∧
    (eval D c ctx st false).2 = (as_evaluator (eval_full D c) ctx st false).2) as Hext.
  { intros ctx' st' Hctx' Hst'. destruct (es_eq c Hc ctx' st' false Hctx' Hst') as [-> ->].
    unfold as_evaluator. by destruct (eval_full D c ctx' st'). }
  assert (has_stateful_nodes c = false →
    leaves_no_latch val_ok ctx_ok (as_evaluator (eval_full D c))) as Hfr.
  { intros Hs ctx' st' bt Hctx' Hst'. unfold as_evaluator.
    pose proof (count_nodes_stateless_eq c ctx' st' Hctx' Hst' Hc Hs) as E.
    destruct (eval_full D c ctx' st'). cbn [snd] in *. by subst. }
  pose proof (fold_deps_ok c (eval D c) ctx q (has_stateful_nodes c) (counter st) deps
    (q_init D q) (dep_scope st) Hctx (es_ok c Hc) (law_init q) Hst) as (H1 & H2 & H3).
  pose proof (fold_deps_frame c (eval D c) ctx q (has_stateful_nodes c) (counter st) deps
    (q_init D q) (dep_scope st) Hctx Hst) as H4.
  rewrite <-(fold_deps_full c (eval D c)) by (done || apply (es_ok c Hc) || apply law_init).
  destruct (fold_deps_loop _ _ _ _ _ _ _ _) as [v ds]. cbn [fst snd] in *.
  split; [done|]. split; [done|]. split; [done|]. split; [done|].
  intros Hs. split; [done|]. apply H4; [done|by apply es_frame].
Qed.

Lemma aggregate_spec n c deps q :
  eval_spec c → has_stateful_nodes n = has_stateful_nodes c →
  (∀ ctx st bt, eval D n ctx st bt =
     let '(result, st') := fold_deps D (deps ctx) c (eval D c) ctx
                             (set_counter (u32_incr (counter st)) st) q in
     (finish D n ctx (counter st) bt result [], st')) →
  (∀ ctx st, eval_full D n ctx st =
     full_aggregate D q (deps ctx) c (eval_full D c) ctx
       (set_counter (u32_incr (counter st)) st)) →
  eval_spec n.
Proof.
  intros Hc Hs He Hf.
  split; [intros ctx st bt Hctx Hst; rewrite Hf|intros ctx st bt Hctx Hst
         |rewrite Hs; intros Hn ctx st bt Hctx Hst]; rewrite He;
  destruct (fold_deps_spec c (deps ctx) q ctx (set_counter (u32_incr (counter st)) st)
              Hc Hctx Hst) as (E1 & E2 & E3 & E4 & E5);
  rewrite <-?E1; destruct (fold_deps _ _ _ _ _ _ _); [done|done|by apply E5].
Qed.

Lemma combinator_spec n cs q :
  Forall eval_spec cs → has_stateful_nodes n = existsb has_stateful_nodes cs →
  (∀ ctx st bt, eval D n ctx st bt =
     let '((result, parts), st') := fold_combinator_loop D (eval D) ctx bt q cs (q_init D q)
                                      (set_counter (u32_incr (counter st)) st) in
     (finish D n ctx (counter st) bt result parts, st')) →
  (∀ ctx st, eval_full D n ctx st =
     full_children D (eval_full D) q ctx cs (q_init D q)
       (set_counter (u32_incr (counter st)) st)) →
  eval_spec n.
Proof.
  intros Hcs Hs He Hf.
  split; [intros ctx st bt Hctx Hst; rewrite Hf|intros ctx st bt Hctx Hst
         |rewrite Hs; intros Hn ctx st bt Hctx Hst]; rewrite He.
  1, 2: destruct (fold_combinator_full ctx bt q cs (q_init D q)
          (set_counter (u32_incr (counter st)) st) Hctx Hcs (law_init q) Hst)
          as (E1 & E2 & E3 & E4 & E5);
        by destruct (fold_combinator_loop _ _ _ _ _ _ _ _) as [[??]?].
  pose proof (fold_combinator_frame ctx bt q cs (q_init D q)
    (set_counter (u32_incr (counter st)) st) Hctx Hcs Hst Hn) as E.
  by destruct (fold_combinator_loop _ _ _ _ _ _ _ _) as [[??]?].
Qed.

(** A node with one child, whose value a function of the child's value gives, and which
    records no latch of its own. *)
Lemma unary_spec n c (f : EvalContext → Sel D → Sel D) :
  eval_spec c → has_stateful_nodes n = has_stateful_nodes c →
  (∀ ctx v, val_ok v → val_ok (f ctx v)) →
  (∀ ctx st bt, eval D n ctx st bt =
     let '((v, t), st') := eval D c ctx (set_counter (u32_incr (counter st)) st) bt in
     (finish D n ctx (counter st) bt (f ctx v) (option_list t), st')) →
  (∀ ctx st, eval_full D n ctx st =
     let '(v, st') := eval_full D c ctx (set_counter (u32_incr (counter st)) st) in
     (f ctx v, st')) →
  eval_spec n.
Proof.
  intros Hc Hs Hok He Hf.
  split; [intros ctx st bt Hctx Hst; rewrite Hf|intros ctx st bt Hctx Hst
         |rewrite Hs; intros Hn ctx st bt Hctx Hst]; rewrite He.
  - destruct (es_eq c Hc ctx (set_counter (u32_incr (counter st)) st) bt Hctx Hst) as [E1 E2].
    destruct (eval D c _ _ _) as [[??]?], (eval_full D c _ _). cbn [fst snd] in *. by subst.
  - destruct (es_ok c Hc ctx (set_counter (u32_incr (counter st)) st) bt Hctx Hst) as (?&?&?).
    destruct (eval D c _ _ _) as [[??]?]. cbn [fst snd] in *. split; [by apply Hok|done].
  - destruct (es_frame c Hc Hn ctx (set_counter (u32_incr (counter st)) st) bt Hctx Hst).
    by destruct (eval D c _ _ _) as [[??]?].
Qed.

Lemma leaf_spec n :
  has_stateful_nodes n = false →
  (∀ ctx st bt, eval D n ctx st bt =
     (finish D n ctx (counter st) bt (eval_leaf D n ctx) [],
      set_counter (u32_incr (counter st)) st)) →
  (∀ ctx st, eval_full D n ctx st =
     (eval_leaf D n ctx, set_counter (u32_incr (counter st)) st)) →
  eval_spec n.
Proof.
  intros _ He Hf. split; [intros ctx st bt Hctx Hst; by rewrite Hf, He
    |intros ctx st bt Hctx Hst; rewrite He|intros _ ctx st bt _ _; by rewrite He].
  split; [by apply law_leaf|done].
Qed.

Lemma newly_true_spec c : eval_spec c → eval_spec (NewlyTrue c).
Proof.
  intros Hc. split; [intros ctx st bt Hctx Hst|intros ctx st bt Hctx Hst|done];
    cbn [eval eval_full]; cbv zeta;
    destruct (es_eq c Hc ctx (set_counter (u32_incr (counter st)) st) bt Hctx Hst) as [E1 E2];
    destruct (es_ok c Hc ctx (set_counter (u32_incr (counter st)) st) bt Hctx Hst) as (?&?&?);
    destruct (eval D c _ _ _) as [[??]?], (eval_full D c _ _); cbn [fst snd] in *; subst.
  - done.
  - split; [|done]. apply law_difference; [done|].
    apply law_latch; [done|by eapply scope_ok_frame].
Qed.

Lemma since_spec t r : eval_spec t → eval_spec r → eval_spec (Since t r).
Proof.
  intros Ht Hr. split; [intros ctx st bt Hctx Hst|intros ctx st bt Hctx Hst|done];
    cbn [eval eval_full]; cbv zeta;
    destruct (es_eq t Ht ctx (set_counter (u32_incr (counter st)) st) bt Hctx Hst) as [E1 E2];
    destruct (es_ok t Ht ctx (set_counter (u32_incr (counter st)) st) bt Hctx Hst) as (?&P1&P2);
    destruct (eval D t _ _ _) as [[v1 ?] st1], (eval_full D t _ _) as [v1' st1'];
    cbn [fst snd] in *; subst v1' st1';
    (assert (scope_ok val_ok (dep_scope st1)) as Hst1 by (by eapply scope_ok_frame));
    destruct (es_eq r Hr ctx st1 bt Hctx Hst1) as [E3 E4];
    destruct (es_ok r Hr ctx st1 bt Hctx Hst1) as (?&Q1&Q2);
    destruct (eval D r _ _ _) as [[v2 ?] st2], (eval_full D r _ _) as [v2' st2'];
    cbn [fst snd] in *; subst v2' st2'.
  - done.
  - split; [|split; [exact (eq_trans Q1 P1)|exact (eq_trans Q2 P2)]].
    apply law_restrict, law_difference; [|done]. apply (law_combine QAny); [|done].
    apply law_latch; [done|by eapply scope_ok_frame].
Qed.

Lemma eval_spec_all n : eval_spec n.
Proof.
  induction n as [n IH] using ConditionNode_children_ind.
  destruct n as [| | | | | | | | | | | | | |n l|n l|cs|cs|n|n|t r|n| | |ks n];
    try (by apply leaf_spec); cbn [children] in IH.
  3: by apply (combinator_spec _ cs QAll).
  3: by apply (combinator_spec _ cs QAny).
  5: { rewrite !Forall_cons in IH. destruct IH as (IHt & IHr & _). by apply since_spec. }
  all: apply Forall_cons in IH as [IH _].
  - by apply (aggregate_spec _ n upstream_of QAny).
  - by apply (aggregate_spec _ n upstream_of QAll).
  - apply (unary_spec _ n (λ ctx v, d_not D v ctx)); try done. intros. by apply law_not.
  - by apply newly_true_spec.
  - apply (unary_spec _ n (λ ctx v, d_since_last_handled D v ctx)); try done.
    intros. by apply law_handled.
  - by apply (aggregate_spec _ n (λ _, ks) QAny).
Qed.
End equiv.
End full.

(** ** Both domains are lawful *)
Section instances.
Context {G : GridOps} {T : NodeText} {C : CronOps}.

Lemma set_cur_prev_restore {V} p (ds : DepScope V) :
  set_cur_prev (ds_cur_prev ds) (set_cur_prev p ds) = ds.
Proof. by destruct ds. Qed.

Lemma collect_dep_latch_empty {V} dep (ds : DepScope V) : collect_dep_latch dep ∅ ds = ds.
Proof. unfold collect_dep_latch. by case_bool_decide. Qed.

Lemma pivot_restore {V} dep (st : EvalState V) ds p :
  sub st = ∅ → dep_scope st = set_cur_prev p ds →
  collect_dep_latch dep (sub st) (set_cur_prev (ds_cur_prev ds) (dep_scope st)) = ds.
Proof. intros -> ->. by rewrite collect_dep_latch_empty, set_cur_prev_restore. Qed.

Lemma collect_dep_latch_frame {V} dep local (ds : DepScope V) :
  ds_prev (collect_dep_latch dep local ds) = ds_prev ds ∧
  ds_cur_prev (collect_dep_latch dep local ds) = ds_cur_prev ds.
Proof. unfold collect_dep_latch. by case_bool_decide. Qed.

Lemma collect_bridged_latch_frame dep local ds :
  ds_prev (collect_bridged_latch dep local ds) = ds_prev ds ∧
  ds_cur_prev (collect_bridged_latch dep local ds) = ds_cur_prev ds.
Proof.
  unfold collect_bridged_latch. case_bool_decide; [done|]. by destruct (foldl _ _ _).
Qed.

Lemma scope_ok_pivot {V} (ok : V → Prop) ds dep :
  scope_ok ok ds → scope_ok ok (set_cur_prev (Some (default ∅ (ds_prev ds !! dep))) ds).
Proof.
  intros [H1 H2]. split; [done|]. intros m [= <-].
  destruct (ds_prev ds !! dep) as [m|] eqn:E; simpl; [by eapply H1|]. apply map_Forall_empty.
Qed.

#[export] Program Instance BoolDomain_lawful : LawfulDomain BoolDomain := {|
  val_ok _ := True;
  ctx_ok _ := True
|}.
Next Obligation. intros [] [] []; simpl; intros; done. Qed.
Next Obligation. done. Qed.
Next Obligation. done. Qed.
Next Obligation. done. Qed.
Next Obligation. done. Qed.
Next Obligation. done. Qed.
Next Obligation. done. Qed.
Next Obligation. done. Qed.
Next Obligation. done. Qed.
Next Obligation.
  intros dep c ev ctx k ds _ Hds Hev. split; [done|]. simpl. unfold eval_on_dep.
  destruct (records (cache ctx) !! dep) as [r|]; [|done]. cbv zeta.
  match goal with |- context [ev ?c ?s false] => destruct (Hev c s false) as (_ & E1 & E2) end;
    [done|by apply scope_ok_pivot|].
  destruct (ev _ _ _) as [[??] st]. cbn [fst snd dep_scope] in *.
  destruct (collect_dep_latch_frame dep (sub st) (set_cur_prev (ds_cur_prev ds) (dep_scope st)))
    as [P1 P2]. split; [exact (eq_trans P1 E1)|exact P2].
Qed.
Next Obligation.
  intros dep c ev ctx k ds _ Hds Hc Hev. simpl. unfold eval_on_dep.
  destruct (records (cache ctx) !! dep) as [r|]; [|done]. cbv zeta.
  match goal with |- context [ev ?c ?s false] => destruct (Hev c s false) as [E1 E2] end;
    [done|by apply scope_ok_pivot|].
  destruct (ev _ _ _) as [[??] st]. cbn [fst snd sub dep_scope] in *.
  exact (pivot_restore dep st ds _ E1 E2).
Qed.
Next Obligation.
  intros dep c ev ev' ctx k ds _ Hds Hext. simpl. unfold eval_on_dep.
  destruct (records (cache ctx) !! dep) as [r|]; [|done]. cbv zeta.
  match goal with |- context [ev ?c ?s false] => destruct (Hext c s) as [E1 E2] end;
    [done|by apply scope_ok_pivot|].
  destruct (ev _ _ _) as [[??] ?], (ev' _ _ _) as [[??] ?]. cbn [fst snd] in *. by subst.
Qed.

(** The latches persisted for an asset hold no [Keys {}]. *)
Definition state_ok (s : AssetConditionState) : Prop :=
  ∀ ps, partition_state s = Some ps → latches_ok sel_wf (previous_selections ps).

Record part_ctx_ok (ctx : EvalContext) : Prop := {
  pco_prev : state_ok (prev_state ctx);
  pco_states : map_Forall (λ _, state_ok) (all_asset_states ctx);
  pco_requested : map_Forall (λ _, sel_wf) (requested_this_tick ctx)
}.

Lemma dep_ctx_ok ctx dep r p f : part_ctx_ok ctx → part_ctx_ok (dep_eval_context ctx dep r p f).
Proof.
  intros [H1 H2 H3]. split; [|done..]. simpl.
  destruct (all_asset_states ctx !! dep) as [s|] eqn:E; simpl; [by eapply H2|done].
Qed.

Lemma sel_wf_from_bool b : sel_wf (sel_from_bool b).
Proof. by destruct b. Qed.

Lemma part_leaf_ok panic n ctx :
  part_ctx_ok ctx → sel_wf (eval_leaf (PartitionDomain panic) n ctx).
Proof.
  intros Hctx. destruct n; cbn [eval_leaf PartitionDomain d_missing d_in_progress d_failed
    d_newly_updated d_newly_requested d_in_latest_window d_backfill_in_progress
    d_last_executed_with_tags d_update_tags d_last_run_includes_target d_will_be_requested
    d_from_bool d_empty]; try apply sel_wf_from_keys; try apply sel_wf_from_bool; try done.
  - unfold part_newly_requested. destruct (negb _); [done|].
    destruct (partition_state _); [apply sel_wf_from_keys|done].
  - unfold part_in_latest_window. destruct (_ ≫= _); [apply sel_wf_from_keys|done].
  - unfold eval_backfill_in_progress_partitioned. destruct (_ !! _); [|done].
    destruct (backfill_targets _ _ _ _); [apply sel_wf_from_keys|done].
  - unfold partition_filter_select. destruct (_ !! _); [apply sel_wf_from_keys|done].
  - unfold part_last_run_includes_target, partition_filter_select.
    destruct (String.eqb _ _); [done|]. destruct (_ !! _); [apply sel_wf_from_keys|done].
  - destruct (requested_this_tick ctx !! target_key ctx) as [s|] eqn:E; [|done].
    exact (pco_requested ctx Hctx _ _ E).
  - unfold eval_new_update_tags_partitioned, partition_filter_select.
    destruct (_ !! _); [apply sel_wf_from_keys|done].
  - unfold eval_new_update_tags_partitioned, partition_filter_select.
    destruct (_ !! _); [apply sel_wf_from_keys|done].
Qed.

Lemma part_latch_ok ds ctx i :
  part_ctx_ok ctx → scope_ok sel_wf ds → sel_wf (prev_partition_latch ds ctx i).
Proof.
  intros Hctx [_ Hcur]. unfold prev_partition_latch.
  destruct (ds_cur_prev ds) as [m|].
  - destruct (m !! i) as [s|] eqn:E; [|done]. exact (Hcur m eq_refl _ _ E).
  - destruct (partition_state (prev_state ctx)) as [ps|] eqn:E; [|done]. simpl.
    destruct (previous_selections ps !! i) as [s|] eqn:E'; [|done].
    exact (pco_prev ctx Hctx ps E _ _ E').
Qed.

Lemma part_handled_ok panic v ctx : sel_wf v → sel_wf (part_since_last_handled panic v ctx).
Proof.
  intros Hv. unfold part_since_last_handled. destruct (sel_is_empty v); [done|]. cbv zeta.
  destruct (root_handled_state ctx) as [h l]. destruct (negb _); [done|].
  destruct (negb _); [done|]. destruct (partition_state _); [|done]. auto with rivers.
Qed.

Lemma map_downstream_wf r up down s u : sel_wf s → sel_wf (map_downstream r up down s u).
Proof. unfold map_downstream. intros. destruct (_ !! _); [by apply map_wf|done]. Qed.

Lemma foldl_bridged_frame l ds :
  let x := foldl (λ scope e, collect_bridged_latch e.1 (bridge_sels e.2) scope) ds l in
  ds_prev x = ds_prev ds ∧ ds_cur_prev x = ds_cur_prev ds.
Proof.
  revert ds. induction l as [|e l IH]; intros ds; [done|]. cbn [foldl].
  destruct (IH (collect_bridged_latch e.1 (bridge_sels e.2) ds)) as [-> ->].
  apply collect_bridged_latch_frame.
Qed.

Lemma bridge_frame dep c r ctx p k ds :
  let x := bridge_into_dep dep c r ctx p k ds in
  sel_wf x.1 ∧ ds_prev x.2.2 = ds_prev ds ∧ ds_cur_prev x.2.2 = ds_cur_prev ds.
Proof.
  unfold bridge_into_dep. cbv zeta. destruct (eval BoolDomain _ _ _ _) as [[v t] st].
  cbn [fst snd]. split; [apply sel_wf_from_bool|].
  destruct (foldl_bridged_frame (map_to_list (ds_acc (dep_scope st)))
    (collect_bridged_latch dep (bridge_sels (sub st)) ds)) as [-> ->].
  apply collect_bridged_latch_frame.
Qed.

(** A bridge under a stateless condition records nothing. *)
Lemma bridge_stateless dep c r ctx p k ds :
  has_stateful_nodes c = false → (bridge_into_dep dep c r ctx p k ds).2.2 = ds.
Proof.
  intros Hc. unfold bridge_into_dep. cbv zeta.
  match goal with |- context [eval BoolDomain c ?ctx ?st false] =>
    destruct (es_frame _ c (eval_spec_all BoolDomain c) Hc ctx st false) as [E1 E2] end;
    [done|by split|].
  destruct (eval BoolDomain _ _ _ _) as [[v t] st]. cbn [fst snd sub dep_scope] in *.
  rewrite E1, E2. cbn [ds_acc]. unfold bridge_sels. rewrite map_to_list_empty, fmap_empty.
  cbn [foldl]. unfold collect_bridged_latch. by case_bool_decide.
Qed.

Section partition.
Context (panic : PartitionEvalContext).

Lemma part_pivot_ok dep c (ev : Evaluator PartitionSelection) ctx k ds :
  part_ctx_ok ctx → scope_ok sel_wf ds → keeps_ok sel_wf part_ctx_ok ev →
  let x := eval_partitioned_on_dep dep c ev ctx (require_pctx panic ctx) k ds in
  sel_wf x.1 ∧ ds_prev x.2.2 = ds_prev ds ∧ ds_cur_prev x.2.2 = ds_cur_prev ds.
Proof.
  intros Hctx Hds Hev. unfold eval_partitioned_on_dep.
  destruct (records (cache ctx) !! dep) as [r|]; [|done].
  destruct (upstream_partition_keys _ !! dep) as [up|]; [|apply bridge_frame]. cbv zeta.
  match goal with |- context [ev ?c ?s false] => destruct (Hev c s false) as (E0 & E1 & E2) end;
    [by apply dep_ctx_ok|by apply scope_ok_pivot|].
  destruct (ev _ _ _) as [[v ?] st]. cbn [fst snd dep_scope] in *.
  destruct (collect_dep_latch_frame dep (sub st) (set_cur_prev (ds_cur_prev ds) (dep_scope st)))
    as [P1 P2]. split; [|split; [exact (eq_trans P1 E1)|exact P2]].
  destruct (is_identity_mapping _); [done|by apply map_downstream_wf].
Qed.

Lemma part_pivot_frame dep c (ev : Evaluator PartitionSelection) ctx k ds :
  part_ctx_ok ctx → scope_ok sel_wf ds → has_stateful_nodes c = false →
  leaves_no_latch sel_wf part_ctx_ok ev →
  (eval_partitioned_on_dep dep c ev ctx (require_pctx panic ctx) k ds).2.2 = ds.
Proof.
  intros Hctx Hds Hc Hev. unfold eval_partitioned_on_dep.
  destruct (records (cache ctx) !! dep) as [r|]; [|done].
  destruct (upstream_partition_keys _ !! dep) as [up|]; [|by apply bridge_stateless]. cbv zeta.
  match goal with |- context [ev ?c ?s false] => destruct (Hev c s false) as [E1 E2] end;
    [by apply dep_ctx_ok|by apply scope_ok_pivot|].
  destruct (ev _ _ _) as [[??] st]. cbn [fst snd sub dep_scope] in *.
  exact (pivot_restore dep st ds _ E1 E2).
Qed.

Lemma part_pivot_ext dep c (ev ev' : Evaluator PartitionSelection) ctx k ds :
  part_ctx_ok ctx → scope_ok sel_wf ds →
  (∀ ctx st, part_ctx_ok ctx → scope_ok sel_wf (dep_scope st) →
     (ev ctx st false).1.1 = (ev' ctx st false).1.1 ∧ (ev ctx st false).2 = (ev' ctx st false).2) →
  eval_partitioned_on_dep dep c ev ctx (require_pctx panic ctx) k ds
  = eval_partitioned_on_dep dep c ev' ctx (require_pctx panic ctx) k ds.
Proof.
  intros Hctx Hds Hext. unfold eval_partitioned_on_dep.
  destruct (records (cache ctx) !! dep) as [r|]; [|done].
  destruct (upstream_partition_keys _ !! dep) as [up|]; [|done]. cbv zeta.
  match goal with |- context [ev ?c ?s false] => destruct (Hext c s) as [E1 E2] end;
    [by apply dep_ctx_ok|by apply scope_ok_pivot|].
  destruct (ev _ _ _) as [[??] ?], (ev' _ _ _) as [[??] ?]. cbn [fst snd] in *. by subst.
Qed.

Lemma part_absorb q r v :
  sel_wf r → q_saturated q r = true → q_combine (PartitionDomain panic) q r v = r.
Proof.
  destruct q; cbn [q_saturated q_combine PartitionDomain d_or d_and is_all is_true
    selection_domain_val].
  - by destruct r.
  - intros Hr. unfold to_bool. rewrite negb_involutive. intros ->%sel_is_empty_wf; done.
Qed.

#[export] Program Instance PartitionDomain_lawful : LawfulDomain (PartitionDomain panic) := {|
  val_ok := sel_wf : Sel (PartitionDomain panic) → Prop;
  ctx_ok := part_ctx_ok;
  law_absorb := part_absorb;
  law_leaf := part_leaf_ok panic;
  law_latch := part_latch_ok;
  law_handled := part_handled_ok panic;
  law_pivot_ok := part_pivot_ok;
  law_pivot_frame := part_pivot_frame;
  law_pivot_ext := part_pivot_ext
|}.
Next Obligation. by intros []. Qed.
Next Obligation. intros [] r v; [apply sel_wf_union|apply sel_wf_intersect]. Qed.
Next Obligation. intros v ctx _. apply sel_wf_complement. Qed.
Next Obligation. intros v w ctx. apply sel_wf_difference. Qed.
Next Obligation. intros v ctx. apply sel_wf_restrict. Qed.
End partition.
End instances.

#[export] Existing Instances BoolDomain_lawful PartitionDomain_lawful.

(** C18: Short-circuiting is unobservable. In both domains, evaluating a tree with the
    short-circuits of [And], [Or] and the dep-aggregates gives the same value, the same
    node latches, the same per-dep latches and the same counter as evaluating every
    child and every dep. For partitioned assets the persisted selections must hold no
    [Keys {}]. *)
Theorem short_circuit_unobservable `{G : GridOps, T : NodeText, C : CronOps} panic n ctx bt :
  (∀ st, (eval BoolDomain n ctx st bt).1.1 = (eval_full BoolDomain n ctx st).1 ∧
         (eval BoolDomain n ctx st bt).2 = (eval_full BoolDomain n ctx st).2) ∧
  (∀ st, part_ctx_ok ctx → scope_ok sel_wf (dep_scope st) →
     let r := eval (PartitionDomain panic) n ctx st bt in
     r.1.1 = (eval_full (PartitionDomain panic) n ctx st).1 ∧
     r.2 = (eval_full (PartitionDomain panic) n ctx st).2 ∧ sel_wf r.1.1).
Proof.
  split.
  - intros st. apply (es_eq _ _ (eval_spec_all BoolDomain n)); [done|by split].
  - intros st Hctx Hst.
    pose proof (eval_spec_all (PartitionDomain panic) (L := PartitionDomain_lawful panic) n) as H.
    destruct (es_eq _ _ H ctx st bt Hctx Hst) as [? ?].
    split; [done|split; [done|]]. exact (proj1 (es_ok _ _ H ctx st bt Hctx Hst)).
Qed.

Lemma ex_part_ctx_ok :
  part_ctx_ok (ex_ctx (Some 7%Z) (Some 5%Z) AssetConditionState_default 10 (Some ex_pctx)).
Proof.
  split; [done| |apply map_Forall_empty]. apply map_Forall_singleton. done.
Qed.

Lemma ex_scope_ok :
  scope_ok sel_wf (dep_scope (initial_state (PartitionDomain ex_pctx)
    (ex_ctx (Some 7%Z) (Some 5%Z) AssetConditionState_default 10 (Some ex_pctx)))).
Proof. split; [apply map_Forall_empty|done]. Qed.

Lemma short_circuit_unobservable_witness :
  let ctx := ex_ctx (Some 7%Z) (Some 5%Z) AssetConditionState_default 10 (Some ex_pctx) in
  (eval (PartitionDomain ex_pctx) eager ctx (initial_state (PartitionDomain ex_pctx) ctx) true).1.1
  = (eval_full (PartitionDomain ex_pctx) eager ctx (initial_state (PartitionDomain ex_pctx) ctx)).1.
Proof.
  exact (proj1 (proj2 (short_circuit_unobservable ex_pctx eager _ true) _
                  ex_part_ctx_ok ex_scope_ok)).
Defined.
