(* ===== verification/CondOccurs.v ===== *)
(** What the nodes of a tree compute and record, and that what they record is well formed. *)

From S2P Require Import Prelude PartitionKey ConditionNode Selection SelectionTheorems CondState Cron CondEval CondDomains CondExample CondTree CondFull.

(** * What each node of a tree computes and records

    The value of a node depends on its index and on the previous latches only, not on
    what was evaluated before it ([eval_full_indep]), and every [NewlyTrue] and [Since]
    of the tree outside dep-aggregates leaves its latch under its own index
    ([latch_recorded]), wherever it sits and whatever was short-circuited. *)

(** [occurs n c m j]: the tree [n], whose root has index [c], has the node [m] at index
    [j], outside dep-aggregates. *)
Inductive occurs : ConditionNode → N → ConditionNode → N → Prop :=
| occurs_here n c : occurs n c n c
| occurs_not n c m j : occurs n (c + 1) m j → occurs (Not n) c m j
| occurs_newly_true n c m j : occurs n (c + 1) m j → occurs (NewlyTrue n) c m j
| occurs_handled n c m j : occurs n (c + 1) m j → occurs (SinceLastHandled n) c m j
| occurs_trigger t r c m j : occurs t (c + 1) m j → occurs (Since t r) c m j
| occurs_reset t r c m j : occurs r (c + 1 + node_size t) m j → occurs (Since t r) c m j
| occurs_and cs c m j : occurs_in cs (c + 1) m j → occurs (And cs) c m j
| occurs_or cs c m j : occurs_in cs (c + 1) m j → occurs (Or cs) c m j
with occurs_in : list ConditionNode → N → ConditionNode → N → Prop :=
| occurs_head n cs c m j : occurs n c m j → occurs_in (n :: cs) c m j
| occurs_tail n cs c m j : occurs_in cs (c + node_size n) m j → occurs_in (n :: cs) c m j.

Scheme occurs_mut := Induction for occurs Sort Prop
  with occurs_in_mut := Induction for occurs_in Sort Prop.

Definition sizes (cs : list ConditionNode) : N := foldr (λ c k, node_size c + k)%N 0%N cs.

Lemma node_size_pos n : (0 < node_size n)%N.
Proof. destruct n; cbn [node_size]; lia. Qed.

Lemma u32_incr_small c : (c + 1 < 2 ^ 32)%N → u32_incr c = (c + 1)%N.
Proof. intros. unfold u32_incr. by rewrite N.mod_small. Qed.

Lemma count_nodes_small n c : (c + node_size n < 2 ^ 32)%N → count_nodes n c = (c + node_size n)%N.
Proof.
  intros H. rewrite <-(N.mod_small c (2 ^ 32)) at 1 by lia.
  by rewrite count_nodes_size, N.mod_small.
Qed.

Section occurs.
Context {G : GridOps} {T : NodeText} {C : CronOps}.

(** Two states an evaluation cannot tell apart. *)
Definition same_view {V} (st st' : EvalState V) : Prop :=
  counter st = counter st' ∧
  ds_prev (dep_scope st) = ds_prev (dep_scope st') ∧
  ds_cur_prev (dep_scope st) = ds_cur_prev (dep_scope st').

Definition keeps_scope {V} (ev : Evaluator V) : Prop :=
  ∀ ctx st bt, ds_prev (dep_scope (ev ctx st bt).2) = ds_prev (dep_scope st) ∧
               ds_cur_prev (dep_scope (ev ctx st bt).2) = ds_cur_prev (dep_scope st).

Definition indep {V} (ev : Evaluator V) : Prop :=
  ∀ ctx st st' bt, same_view st st' → (ev ctx st bt).1.1 = (ev ctx st' bt).1.1.

Class ScopedPivot (D : EvalDomain) := {
  pivot_scope dep c ev ctx k ds : keeps_scope ev →
    ds_prev (d_pivot_into_dep D dep c ev ctx k ds).2.2 = ds_prev ds ∧
    ds_cur_prev (d_pivot_into_dep D dep c ev ctx k ds).2.2 = ds_cur_prev ds;
  pivot_indep dep c ev ctx k ds ds' : indep ev → ds_prev ds = ds_prev ds' →
    (d_pivot_into_dep D dep c ev ctx k ds).1 = (d_pivot_into_dep D dep c ev ctx k ds').1;
  latch_indep ds ds' ctx i : ds_cur_prev ds = ds_cur_prev ds' →
    d_prev_latch D ds ctx i = d_prev_latch D ds' ctx i
}.

Section domain.
Context (D : EvalDomain) {S : ScopedPivot D}.

Definition full_ok (n : ConditionNode) : Prop :=
  (∀ ctx st, counter (eval_full D n ctx st).2 = count_nodes n (counter st)) ∧
  keeps_scope (as_evaluator (eval_full D n)) ∧ indep (as_evaluator (eval_full D n)).

Lemma as_evaluator_fst {V} (ev : FullEvaluator V) ctx st bt :
  (as_evaluator ev ctx st bt).1.1 = (ev ctx st).1.
Proof. unfold as_evaluator. by destruct (ev ctx st). Qed.

Lemma as_evaluator_snd {V} (ev : FullEvaluator V) ctx st bt :
  (as_evaluator ev ctx st bt).2 = (ev ctx st).2.
Proof. unfold as_evaluator. by destruct (ev ctx st). Qed.

Lemma full_counter n ctx st : full_ok n → counter (eval_full D n ctx st).2 = count_nodes n (counter st).
Proof. intros H. apply H. Qed.

Lemma full_scope n ctx st : full_ok n →
  ds_prev (dep_scope (eval_full D n ctx st).2) = ds_prev (dep_scope st) ∧
  ds_cur_prev (dep_scope (eval_full D n ctx st).2) = ds_cur_prev (dep_scope st).
Proof.
  intros (_ & H & _). specialize (H ctx st false). by rewrite as_evaluator_snd in H.
Qed.

Lemma full_indep n ctx st st' : full_ok n → same_view st st' →
  (eval_full D n ctx st).1 = (eval_full D n ctx st').1.
Proof.
  intros (_ & _ & H) E. specialize (H ctx st st' false E). by rewrite !as_evaluator_fst in H.
Qed.

(** The state after a node, as a later node sees it. *)
Lemma full_view n ctx st : full_ok n →
  same_view (eval_full D n ctx st).2 (set_counter (count_nodes n (counter st)) st).
Proof. intros H. split; [by apply full_counter|]. exact (full_scope n ctx st H). Qed.

Lemma same_view_trans {V} (x y z : EvalState V) : same_view x y → same_view y z → same_view x z.
Proof. intros (?&?&?) (?&?&?). split; [congruence|split; congruence]. Qed.

Lemma same_view_sym {V} (x y : EvalState V) : same_view x y → same_view y x.
Proof. intros (?&?&?). by split. Qed.

Lemma same_view_incr {V} (x y : EvalState V) :
  same_view x y → same_view (set_counter (u32_incr (counter x)) x)
                            (set_counter (u32_incr (counter y)) y).
Proof. intros (E&?&?). by rewrite E. Qed.

Lemma full_view2 n ctx x y : full_ok n → same_view x y →
  same_view (eval_full D n ctx x).2 (eval_full D n ctx y).2.
Proof.
  intros Hn E. eapply same_view_trans; [by apply full_view|].
  eapply same_view_trans; [|by apply same_view_sym, full_view].
  destruct E as (E & ? & ?). by rewrite E.
Qed.

Lemma full_children_ok q ctx cs r st st' : Forall full_ok cs → same_view st st' →
  let x := full_children D (eval_full D) q ctx cs r st in
  counter x.2 = foldl (λ k n, count_nodes n k) (counter st) cs ∧
  ds_prev (dep_scope x.2) = ds_prev (dep_scope st) ∧
  ds_cur_prev (dep_scope x.2) = ds_cur_prev (dep_scope st) ∧
  x.1 = (full_children D (eval_full D) q ctx cs r st').1.
Proof.
  intros Hcs. revert r st st'. induction Hcs as [|n cs Hn _ IH]; intros r st st' E; [done|].
  cbn [full_children foldl].
  pose proof (full_counter n ctx st Hn) as E1. pose proof (full_scope n ctx st Hn) as [E2 E3].
  pose proof (full_indep n ctx st st' Hn E) as E4. pose proof (full_view2 n ctx st st' Hn E) as E5.
  destruct (eval_full D n ctx st) as [v st1], (eval_full D n ctx st') as [v' st1'].
  cbn [fst snd] in *. subst v'. rewrite <-E1, <-E2, <-E3. by apply IH.
Qed.

Lemma full_deps_scope c ev ctx q base deps r ds ds' :
  keeps_scope ev → indep ev → ds_prev ds = ds_prev ds' →
  let x := full_deps D q base (λ dep, d_pivot_into_dep D dep c ev ctx) deps r ds in
  ds_prev x.2 = ds_prev ds ∧ ds_cur_prev x.2 = ds_cur_prev ds ∧
  x.1 = (full_deps D q base (λ dep, d_pivot_into_dep D dep c ev ctx) deps r ds').1.
Proof.
  intros Hk Hi. revert r ds ds'. induction deps as [|dep deps IH]; intros r ds ds' E; [done|].
  cbn [full_deps]. destruct (pivot_scope dep c ev ctx base ds Hk) as [E1 E2].
  destruct (pivot_scope dep c ev ctx base ds' Hk) as [E1' _].
  pose proof (pivot_indep dep c ev ctx base ds ds' Hi E) as E3.
  destruct (d_pivot_into_dep D dep c ev ctx base ds) as [v [k ds1]],
    (d_pivot_into_dep D dep c ev ctx base ds') as [v' [k' ds1']].
  cbn [fst snd] in *. subst v'. rewrite <-E1, <-E2. apply IH. congruence.
Qed.

Lemma aggregate_ok n c deps q : full_ok c →
  (∀ k, count_nodes n k = count_nodes c (u32_incr k)) →
  (∀ ctx st, eval_full D n ctx st =
     full_aggregate D q (deps ctx) c (eval_full D c) ctx (set_counter (u32_incr (counter st)) st)) →
  full_ok n.
Proof.
  intros (_ & Hk & Hi) Hn He.
  split; [|split]; [intros ctx st|intros ctx st bt; rewrite as_evaluator_snd
    |intros ctx st st' bt (E1 & E2 & E3); rewrite !as_evaluator_fst];
    rewrite !He; unfold full_aggregate; cbn [counter set_counter dep_scope sub].
  - destruct (full_deps _ _ _ _ _ _ _). by rewrite Hn.
  - pose proof (full_deps_scope c (as_evaluator (eval_full D c)) ctx q
      (u32_incr (counter st)) (deps ctx) (q_init D q) _ (dep_scope st) Hk Hi eq_refl) as (?&?&_).
    by destruct (full_deps _ _ _ _ _ _ _).
  - pose proof (full_deps_scope c (as_evaluator (eval_full D c)) ctx q
      (u32_incr (counter st)) (deps ctx) (q_init D q) _ _ Hk Hi E2) as (_&_&E).
    rewrite E1 in *.
    destruct (full_deps _ _ _ _ _ _ (dep_scope st)), (full_deps _ _ _ _ _ _ (dep_scope st')).
    exact E.
Qed.

Lemma combinator_ok n cs q : Forall full_ok cs →
  (∀ k, count_nodes n k = foldl (λ k n, count_nodes n k) (u32_incr k) cs) →
  (∀ ctx st, eval_full D n ctx st =
     full_children D (eval_full D) q ctx cs (q_init D q)
       (set_counter (u32_incr (counter st)) st)) →
  full_ok n.
Proof.
  intros Hcs Hn He.
  split; [|split]; [intros ctx st|intros ctx st bt; rewrite as_evaluator_snd
    |intros ctx st st' bt E; rewrite !as_evaluator_fst]; rewrite !He.
  - destruct (full_children_ok q ctx cs (q_init D q) _ _ Hcs
      (same_view_incr st st (conj eq_refl (conj eq_refl eq_refl)))) as (E & _).
    rewrite Hn. exact E.
  - destruct (full_children_ok q ctx cs (q_init D q) _ _ Hcs
      (same_view_incr st st (conj eq_refl (conj eq_refl eq_refl)))) as (_ & E1 & E2 & _).
    by split.
  - destruct (full_children_ok q ctx cs (q_init D q) _ _ Hcs (same_view_incr _ _ E))
      as (_ & _ & _ & E'). exact E'.
Qed.

(** A node over one child; [post] is what it adds to the state. *)
Lemma unary_ok n c (f : EvalContext → EvalState (Sel D) → N → Sel D → Sel D)
    (post : N → Sel D → EvalState (Sel D) → EvalState (Sel D)) : full_ok c →
  (∀ k, count_nodes n k = count_nodes c (u32_incr k)) →
  (∀ i v st, counter (post i v st) = counter st ∧ dep_scope (post i v st) = dep_scope st) →
  (∀ ctx st st' i v, same_view st st' → f ctx st i v = f ctx st' i v) →
  (∀ ctx st, eval_full D n ctx st =
     let '(v, st') := eval_full D c ctx (set_counter (u32_incr (counter st)) st) in
     (f ctx st' (counter st) v, post (counter st) v st')) →
  full_ok n.
Proof.
  intros Hc Hn Hp Hf He.
  split; [|split]; [intros ctx st|intros ctx st bt; rewrite as_evaluator_snd
    |intros ctx st st' bt E; rewrite !as_evaluator_fst]; rewrite !He.
  - rewrite Hn. pose proof (full_counter c ctx (set_counter (u32_incr (counter st)) st) Hc) as E.
    destruct (eval_full D c ctx _). cbn [fst snd] in *. by rewrite (proj1 (Hp _ _ _)).
  - pose proof (full_scope c ctx (set_counter (u32_incr (counter st)) st) Hc) as E.
    destruct (eval_full D c ctx _). cbn [fst snd] in *. by rewrite (proj2 (Hp _ _ _)).
  - pose proof (same_view_incr _ _ E) as E1. destruct E as [E _].
    pose proof (full_indep c ctx _ _ Hc E1) as E2. pose proof (full_view2 c ctx _ _ Hc E1) as E3.
    destruct (eval_full D c ctx (set_counter (u32_incr (counter st)) st)),
      (eval_full D c ctx (set_counter (u32_incr (counter st')) st')).
    cbn [fst snd] in *. subst. rewrite E. by apply Hf.
Qed.

Lemma since_ok t r : full_ok t → full_ok r → full_ok (Since t r).
Proof.
  intros Ht Hr.
  assert (∀ ctx st st', same_view st st' →
    (eval_full D (Since t r) ctx st).1 = (eval_full D (Since t r) ctx st').1 ∧
    counter (eval_full D (Since t r) ctx st).2 = count_nodes (Since t r) (counter st) ∧
    ds_prev (dep_scope (eval_full D (Since t r) ctx st).2) = ds_prev (dep_scope st) ∧
    ds_cur_prev (dep_scope (eval_full D (Since t r) ctx st).2) = ds_cur_prev (dep_scope st)) as H.
  { intros ctx st st' E. cbn [eval_full count_nodes]. cbv zeta.
    pose proof (same_view_incr _ _ E) as E1.
    pose proof (full_indep t ctx _ _ Ht E1) as A1. pose proof (full_view2 t ctx _ _ Ht E1) as A2.
    pose proof (full_scope t ctx (set_counter (u32_incr (counter st)) st) Ht) as [A3 A4].
    pose proof (full_counter t ctx (set_counter (u32_incr (counter st)) st) Ht) as A5.
    destruct (eval_full D t ctx (set_counter (u32_incr (counter st)) st)) as [vt s1],
      (eval_full D t ctx (set_counter (u32_incr (counter st')) st')) as [vt' s1'].
    cbn [fst snd] in *.
    pose proof (full_indep r ctx _ _ Hr A2) as B1. pose proof (full_view2 r ctx _ _ Hr A2) as B2.
    pose proof (full_scope r ctx s1 Hr) as [B3 B4]. pose proof (full_counter r ctx s1 Hr) as B5.
    destruct (eval_full D r ctx s1) as [vr s2], (eval_full D r ctx s1') as [vr' s2'].
    cbn [fst snd insert_sub counter dep_scope] in *. subst.
    rewrite (latch_indep (dep_scope s2) (dep_scope s2')) by apply B2.
    split; [by rewrite (proj1 E)|]. split; [by rewrite B5, A5|].
    split; [exact (eq_trans B3 A3)|exact (eq_trans B4 A4)]. }
  split; [|split].
  - intros ctx st. by apply (H ctx st st).
  - intros ctx st bt. rewrite as_evaluator_snd. split; by apply (H ctx st st).
  - intros ctx st st' bt E. rewrite !as_evaluator_fst. by apply H.
Qed.

Lemma leaf_ok n :
  (∀ k, count_nodes n k = u32_incr k) →
  (∀ ctx st, eval_full D n ctx st =
     (eval_leaf D n ctx, set_counter (u32_incr (counter st)) st)) →
  full_ok n.
Proof.
  intros Hn He. split; [|split]; [intros ctx st|intros ctx st bt; rewrite as_evaluator_snd
    |intros ctx st st' bt E; rewrite !as_evaluator_fst]; rewrite !He; [by rewrite Hn|done|done].
Qed.

Lemma full_ok_all n : full_ok n.
Proof.
  induction n as [n IH] using ConditionNode_children_ind.
  destruct n as [| | | | | | | | | | | | | |n l|n l|cs|cs|n|n|t r|n| | |ks n];
    try (by apply leaf_ok); cbn [children] in IH.
  3: by apply (combinator_ok _ cs QAll).
  3: by apply (combinator_ok _ cs QAny).
  5: { rewrite !Forall_cons in IH. destruct IH as (IHt & IHr & _). by apply since_ok. }
  all: apply Forall_cons in IH as [IH _].
  - by apply (aggregate_ok _ n upstream_of QAny).
  - by apply (aggregate_ok _ n upstream_of QAll).
  - by apply (unary_ok _ n (λ ctx _ _ v, d_not D v ctx) (λ _ _ st, st)).
  - apply (unary_ok _ n (λ ctx st i v, d_difference D v (d_prev_latch D (dep_scope st) ctx i) ctx)
             insert_sub); try done.
    intros ctx st st' i v (_ & _ & E). by rewrite (latch_indep (dep_scope st) (dep_scope st')).
  - by apply (unary_ok _ n (λ ctx _ _ v, d_since_last_handled D v ctx) (λ _ _ st, st)).
  - by apply (aggregate_ok _ n (λ _, ks) QAny).
Qed.

(** ** Latches are recorded under the index of their node *)
Lemma full_counter_small n ctx st :
  (counter st + node_size n < 2 ^ 32)%N →
  counter (eval_full D n ctx st).2 = (counter st + node_size n)%N.
Proof. intros H. rewrite full_counter by apply full_ok_all. by apply count_nodes_small. Qed.

(** An evaluation writes latches only within the indices of its tree. *)
Definition sub_frame (st st' : EvalState (Sel D)) (size : N) : Prop :=
  ∀ i, (i < counter st ∨ counter st + size <= i)%N → sub st' !! i = sub st !! i.

Definition full_frame (n : ConditionNode) : Prop :=
  ∀ ctx st, (counter st + node_size n < 2 ^ 32)%N →
    sub_frame st (eval_full D n ctx st).2 (node_size n).

Lemma full_children_frame q ctx cs r st :
  Forall full_frame cs → (counter st + sizes cs < 2 ^ 32)%N →
  sub_frame st (full_children D (eval_full D) q ctx cs r st).2 (sizes cs).
Proof.
  intros Hcs. revert r st. induction Hcs as [|n cs Hn _ IH]; intros r st Hlt i Hi; [done|].
  cbn [full_children sizes foldr] in *. fold (sizes cs) in *.
  pose proof (Hn ctx st ltac:(lia) i) as E1. pose proof (full_counter_small n ctx st ltac:(lia)) as E2.
  destruct (eval_full D n ctx st) as [v st1]. cbn [snd] in *.
  rewrite IH by lia. apply E1. lia.
Qed.

Lemma full_aggregate_sub q deps c ev ctx st :
  sub (full_aggregate D q deps c ev ctx st).2 = sub st.
Proof. unfold full_aggregate. by destruct (full_deps _ _ _ _ _ _ _). Qed.

Lemma full_frame_all n : full_frame n.
Proof.
  induction n as [n IH] using ConditionNode_children_ind. intros ctx st Hlt i Hi.
  pose proof (u32_incr_small (counter st)) as Hinc. pose proof (node_size_pos n).
  destruct n as [| | | | | | | | | | | | | |n l|n l|cs|cs|n|n|t r|n| | |ks n]; try done;
    cbn [children] in IH; cbn [eval_full node_size] in *; cbv zeta;
    try (by rewrite full_aggregate_sub).
  1, 2: fold (sizes cs) in *;
    match goal with |- context [full_children D _ ?q ?ctx ?cs ?r ?st] =>
      rewrite (full_children_frame q ctx cs r st IH); [done|..];
      cbn [counter set_counter]; rewrite Hinc by lia; lia end.
  3: { rewrite !Forall_cons in IH. destruct IH as (IHt & IHr & _).
       pose proof (node_size_pos t). pose proof (node_size_pos r).
       match goal with |- context [eval_full D t ctx ?st] =>
         pose proof (IHt ctx st) as E1; pose proof (full_counter_small t ctx st) as E2;
         destruct (eval_full D t ctx st) as [vt st1] end.
       cbn [snd counter set_counter sub] in *. rewrite Hinc in * by lia.
       specialize (IHr ctx st1). rewrite E2 in IHr by lia.
       destruct (eval_full D r ctx st1) as [vr st2]. cbn [snd insert_sub sub] in *.
       rewrite lookup_insert_ne by lia. rewrite IHr by lia. apply E1; cbn [counter set_counter]; rewrite ?Hinc by lia; lia. }
  all: apply Forall_cons in IH as [IH _]; pose proof (node_size_pos n);
    match goal with |- context [eval_full D ?n ?ctx ?st] =>
      pose proof (IH ctx st) as E1; destruct (eval_full D n ctx st) as [v st1] end;
    cbn [snd counter set_counter sub insert_sub] in *; rewrite Hinc in * by lia;
    rewrite ?lookup_insert_ne by lia; apply E1; cbn [counter set_counter];
    rewrite ?Hinc by lia; lia.
Qed.

(** The value of the tree [n] at index [j], under the latches of [ds]. *)
Definition node_value (n : ConditionNode) (ctx : EvalContext) (ds : DepScope (Sel D)) (j : N)
    : Sel D := (eval_full D n ctx {| counter := j; sub := ∅; dep_scope := ds |}).1.

(** What a stateful node at index [j] leaves for the next tick. *)
Definition latch_value (m : ConditionNode) (ctx : EvalContext) (ds : DepScope (Sel D)) (j : N)
    : option (Sel D) :=
  match m with
  | NewlyTrue c => Some (node_value c ctx ds (j + 1))
  | Since t r =>
      Some (d_restrict D (d_difference D
              (d_or D (d_prev_latch D ds ctx j) (node_value t ctx ds (j + 1)))
              (node_value r ctx ds (j + 1 + node_size t)) ctx) ctx)
  | _ => None
  end.

Lemma node_value_state n ctx st :
  (eval_full D n ctx st).1 = node_value n ctx (dep_scope st) (counter st).
Proof. by apply full_indep; [apply full_ok_all|]. Qed.

Definition scope_view (ds ds' : DepScope (Sel D)) : Prop :=
  ds_prev ds = ds_prev ds' ∧ ds_cur_prev ds = ds_cur_prev ds'.

Lemma node_value_view n ctx ds ds' j :
  scope_view ds ds' → node_value n ctx ds j = node_value n ctx ds' j.
Proof. intros [??]. by apply full_indep; [apply full_ok_all|]. Qed.

Lemma latch_value_view m ctx ds ds' j :
  scope_view ds ds' → latch_value m ctx ds j = latch_value m ctx ds' j.
Proof.
  intros Hv. destruct m; try done; cbn [latch_value]; rewrite !(node_value_view _ _ ds ds') by done;
    [done|]. by rewrite (latch_indep ds ds') by apply Hv.
Qed.

Lemma occurs_bounds n c m j :
  occurs n c m j → (c <= j ∧ j + node_size m <= c + node_size n)%N.
Proof.
  revert n c m j. apply (occurs_mut
    (λ n c m j _, c <= j ∧ j + node_size m <= c + node_size n)%N
    (λ cs c m j _, c <= j ∧ j + node_size m <= c + sizes cs)%N);
    intros; cbn [node_size sizes foldr];
    try match goal with |- context [foldr _ _ ?cs] => fold (sizes cs) end; lia.
Qed.

Lemma full_scope_view n ctx st : scope_view (dep_scope (eval_full D n ctx st).2) (dep_scope st).
Proof. exact (full_scope n ctx st (full_ok_all n)). Qed.

(** The node itself. *)
Lemma latch_here m ctx st v :
  (counter st + node_size m < 2 ^ 32)%N →
  latch_value m ctx (dep_scope st) (counter st) = Some v →
  sub (eval_full D m ctx st).2 !! counter st = Some v.
Proof.
  intros Hlt Hv. pose proof (u32_incr_small (counter st)) as Hinc.
  destruct m as [| | | | | | | | | | | | | |n l|n l|cs|cs|n|n|t r|n| | |ks n]; try done;
    cbn [latch_value node_size eval_full] in *; injection Hv as <-; cbv zeta.
  - pose proof (node_size_pos n). rewrite Hinc by lia.
    pose proof (node_value_state n ctx (set_counter (counter st + 1) st)) as E.
    destruct (eval_full D n ctx _) as [v st1]. cbn [fst snd insert_sub sub] in *.
    rewrite lookup_insert_eq. by rewrite E.
  - pose proof (node_size_pos t). pose proof (node_size_pos r). rewrite Hinc by lia.
    pose proof (node_value_state t ctx (set_counter (counter st + 1) st)) as E1.
    pose proof (full_scope_view t ctx (set_counter (counter st + 1) st)) as E2.
    pose proof (full_counter_small t ctx (set_counter (counter st + 1) st)) as E3.
    destruct (eval_full D t ctx _) as [vt st1].
    pose proof (node_value_state r ctx st1) as F1. pose proof (full_scope_view r ctx st1) as F2.
    destruct (eval_full D r ctx st1) as [vr st2].
    cbn [fst snd insert_sub sub counter set_counter dep_scope] in *.
    rewrite E3 in F1 by lia. rewrite lookup_insert_eq, E1, F1.
    rewrite (node_value_view r ctx (dep_scope st1) (dep_scope st)) by done.
    rewrite (latch_indep (dep_scope st2) (dep_scope st)); [done|].
    exact (eq_trans (proj2 F2) (proj2 E2)).
Qed.

(** Into the node's own index: its counter does not wrap. *)
#[local] Ltac enter_node n :=
  cbn [eval_full node_size] in *; cbv zeta; rewrite u32_incr_small by (pose proof (node_size_pos n); lia).

#[local] Ltac enter_list cs :=
  cbn [eval_full node_size] in *; cbv zeta; fold (sizes cs) in *; rewrite u32_incr_small by lia.

Lemma latch_recorded n c m j :
  occurs n c m j → ∀ ctx st v, counter st = c → (c + node_size n < 2 ^ 32)%N →
  latch_value m ctx (dep_scope st) j = Some v →
  sub (eval_full D n ctx st).2 !! j = Some v.
Proof.
  revert n c m j. apply (occurs_mut
    (λ n c m j _, ∀ ctx st v, counter st = c → (c + node_size n < 2 ^ 32)%N →
       latch_value m ctx (dep_scope st) j = Some v → sub (eval_full D n ctx st).2 !! j = Some v)
    (λ cs c m j _, ∀ q r ctx st v, counter st = c → (c + sizes cs < 2 ^ 32)%N →
       latch_value m ctx (dep_scope st) j = Some v →
       sub (full_children D (eval_full D) q ctx cs r st).2 !! j = Some v)).
  - intros n c ctx st v <-. apply latch_here.
  - intros n c m j Ho IH ctx st v <- Hlt Hv. enter_node n.
    specialize (IH ctx (set_counter (counter st + 1) st) v eq_refl ltac:(lia) Hv). by destruct (eval_full D n ctx _).
  - intros n c m j Ho IH ctx st v <- Hlt Hv. enter_node n.
    specialize (IH ctx (set_counter (counter st + 1) st) v eq_refl ltac:(lia) Hv).
    apply occurs_bounds in Ho. destruct (eval_full D n ctx _) as [? st1].
    cbn [snd insert_sub sub] in *. by rewrite lookup_insert_ne by lia.
  - intros n c m j Ho IH ctx st v <- Hlt Hv. enter_node n.
    specialize (IH ctx (set_counter (counter st + 1) st) v eq_refl ltac:(lia) Hv). by destruct (eval_full D n ctx _).
  - intros t r c m j Ho IH ctx st v <- Hlt Hv. enter_node t.
    specialize (IH ctx (set_counter (counter st + 1) st) v eq_refl ltac:(lia) Hv).
    pose proof (full_counter_small t ctx (set_counter (counter st + 1) st)) as E.
    apply occurs_bounds in Ho. pose proof (node_size_pos m).
    destruct (eval_full D t ctx _) as [vt st1]. cbn [counter set_counter snd] in *.
    pose proof (full_frame_all r ctx st1 ltac:(rewrite E; lia) j) as E'.
    destruct (eval_full D r ctx st1) as [vr st2]. cbn [snd insert_sub sub] in *.
    rewrite lookup_insert_ne by lia. rewrite E' by (rewrite E; lia). done.
  - intros t r c m j Ho IH ctx st v <- Hlt Hv. enter_node t.
    pose proof (full_counter_small t ctx (set_counter (counter st + 1) st)) as E.
    pose proof (full_scope_view t ctx (set_counter (counter st + 1) st)) as E2.
    apply occurs_bounds in Ho.
    destruct (eval_full D t ctx _) as [vt st1]. cbn [counter set_counter snd dep_scope] in *.
    specialize (IH ctx st1 v ltac:(rewrite E; lia) ltac:(lia)
      ltac:(by rewrite (latch_value_view m ctx (dep_scope st1) (dep_scope st)))).
    destruct (eval_full D r ctx st1) as [vr st2]. cbn [snd insert_sub sub] in *.
    by rewrite lookup_insert_ne by lia.
  - intros cs c m j Ho IH ctx st v <- Hlt Hv. enter_list cs.
    apply IH; [done|lia|done].
  - intros cs c m j Ho IH ctx st v <- Hlt Hv. enter_list cs.
    apply IH; [done|lia|done].
  - intros n cs c m j Ho IH q r ctx st v <- Hlt Hv. cbn [full_children sizes foldr] in *.
    fold (sizes cs) in *. specialize (IH ctx st v eq_refl ltac:(lia) Hv).
    pose proof (full_counter_small n ctx st ltac:(lia)) as E. apply occurs_bounds in Ho.
    pose proof (node_size_pos m).
    destruct (eval_full D n ctx st) as [w st1]. cbn [snd] in *.
    rewrite full_children_frame by (try apply Forall_forall; intros; try apply full_frame_all; lia).
    done.
  - intros n cs c m j Ho IH q r ctx st v <- Hlt Hv. cbn [full_children sizes foldr] in *.
    fold (sizes cs) in *.
    pose proof (full_counter_small n ctx st ltac:(lia)) as E.
    pose proof (full_scope_view n ctx st) as E2.
    destruct (eval_full D n ctx st) as [w st1]. cbn [snd] in *.
    apply IH; [done|lia|]. by rewrite (latch_value_view m ctx (dep_scope st1) (dep_scope st)).
Qed.
End domain.
End occurs.

(** ** Both domains pivot within the scope *)
Section instances.
Context {G : GridOps} {T : NodeText} {C : CronOps}.

Lemma bool_pivot_indep dep (ev : Evaluator bool) ctx k (ds ds' : DepScope bool) :
  indep ev → ds_prev ds = ds_prev ds' →
  (eval_on_dep dep ev ctx k ds).1 = (eval_on_dep dep ev ctx k ds').1.
Proof.
  intros Hev E. unfold eval_on_dep.
  destruct (records (cache ctx) !! dep) as [r|]; [|done]. cbv zeta. rewrite E.
  match goal with |- (let '_ := ev ?c ?s false in _).1 = (let '_ := ev _ ?s' false in _).1 =>
    pose proof (Hev c s s' false (conj eq_refl (conj E eq_refl))) as E';
    by destruct (ev c s false) as [[??]?], (ev c s' false) as [[??]?] end.
Qed.

Lemma bool_latch_indep (ds ds' : DepScope bool) ctx i :
  ds_cur_prev ds = ds_cur_prev ds' → bool_prev_latch ds ctx i = bool_prev_latch ds' ctx i.
Proof. intros E. unfold bool_prev_latch. by rewrite E. Qed.

Lemma part_pivot_indep dep c (ev : Evaluator PartitionSelection) ctx p k ds ds' :
  indep ev → ds_prev ds = ds_prev ds' →
  (eval_partitioned_on_dep dep c ev ctx p k ds).1
  = (eval_partitioned_on_dep dep c ev ctx p k ds').1.
Proof.
  intros Hev E. unfold eval_partitioned_on_dep.
  destruct (records (cache ctx) !! dep) as [r|]; [|done].
  destruct (upstream_partition_keys _ !! dep) as [up|].
  - cbv zeta. rewrite E.
    match goal with |- (let '_ := ev ?c ?s false in _).1 = (let '_ := ev _ ?s' false in _).1 =>
      pose proof (Hev c s s' false (conj eq_refl (conj E eq_refl))) as E';
      destruct (ev c s false) as [[??]?], (ev c s' false) as [[??]?] end.
    cbn [fst snd] in *. by subst.
  - unfold bridge_into_dep. cbv zeta. rewrite E.
    by destruct (eval BoolDomain _ _ _ _) as [[??]?].
Qed.

Lemma part_latch_indep ds ds' ctx i :
  ds_cur_prev ds = ds_cur_prev ds' → prev_partition_latch ds ctx i = prev_partition_latch ds' ctx i.
Proof. intros E. unfold prev_partition_latch. by rewrite E. Qed.

#[export] Program Instance BoolDomain_scoped : ScopedPivot BoolDomain.
Next Obligation.
  intros dep c ev ctx k ds Hev. simpl. unfold eval_on_dep.
  destruct (records (cache ctx) !! dep) as [r|]; [|done]. cbv zeta.
  match goal with |- context [ev ?c ?s false] => destruct (Hev c s false) as [E1 E2] end.
  destruct (ev _ _ _) as [[??] st]. cbn [fst snd dep_scope] in *.
  destruct (collect_dep_latch_frame dep (sub st) (set_cur_prev (ds_cur_prev ds) (dep_scope st)))
    as [P1 P2]. split; [exact (eq_trans P1 E1)|exact P2].
Qed.
Next Obligation. intros dep c ev ctx k ds ds' Hev E. by apply bool_pivot_indep. Qed.
Next Obligation. intros ds ds' ctx i. apply bool_latch_indep. Qed.

#[export] Program Instance PartitionDomain_scoped panic : ScopedPivot (PartitionDomain panic).
Next Obligation.
  intros panic dep c ev ctx k ds Hev. simpl. unfold eval_partitioned_on_dep.
  destruct (records (cache ctx) !! dep) as [r|]; [|done].
  destruct (upstream_partition_keys _ !! dep) as [up|]; [|apply bridge_frame]. cbv zeta.
  match goal with |- context [ev ?c ?s false] => destruct (Hev c s false) as [E1 E2] end.
  destruct (ev _ _ _) as [[??] st]. cbn [fst snd dep_scope] in *.
  destruct (collect_dep_latch_frame dep (sub st) (set_cur_prev (ds_cur_prev ds) (dep_scope st)))
    as [P1 P2]. split; [exact (eq_trans P1 E1)|exact P2].
Qed.
Next Obligation. intros panic dep c ev ctx k ds ds' Hev E. by apply part_pivot_indep. Qed.
Next Obligation. intros panic ds ds' ctx i. apply part_latch_indep. Qed.
End instances.

#[export] Existing Instances BoolDomain_scoped PartitionDomain_scoped.

(** * Evaluation never records [Keys {}]

    The selections an evaluation of a partitioned asset persists are well formed when
    the ones it reads are, so the hypothesis of the other theorems on the persisted
    state is an invariant of the tick. *)

Section invariant.
Context {G : GridOps} {T : NodeText} {C : CronOps} (panic : PartitionEvalContext).

Abbreviation PD := (PartitionDomain panic).
Abbreviation selections_ok := (latches_ok sel_wf).

Definition acc_ok (ds : DepScope PartitionSelection) : Prop :=
  map_Forall (λ _, selections_ok) (ds_acc ds).

Record st_ok (st : EvalState PartitionSelection) : Prop := {
  sk_scope : scope_ok sel_wf (dep_scope st);
  sk_sub : selections_ok (sub st);
  sk_acc : acc_ok (dep_scope st)
}.

Definition keeps_st (ev : EvalContext → EvalState PartitionSelection →
    PartitionSelection * EvalState PartitionSelection) : Prop :=
  ∀ ctx st, part_ctx_ok ctx → st_ok st → sel_wf (ev ctx st).1 ∧ st_ok (ev ctx st).2.

Lemma full_wf n ctx st :
  part_ctx_ok ctx → scope_ok sel_wf (dep_scope st) →
  sel_wf (eval_full PD n ctx st).1 ∧ scope_ok sel_wf (dep_scope (eval_full PD n ctx st).2).
Proof.
  intros Hctx Hst.
  pose proof (eval_spec_all PD (L := PartitionDomain_lawful panic) n) as H.
  destruct (es_eq _ _ H ctx st false Hctx Hst) as [E1 E2].
  destruct (es_ok _ _ H ctx st false Hctx Hst) as (F1 & F2 & F3).
  rewrite E1 in F1. rewrite E2 in F2, F3. split; [exact F1|].
  exact (scope_ok_frame PD (L := PartitionDomain_lawful panic) _ _ F2 F3 Hst).
Qed.

Lemma selections_ok_insert i v m : sel_wf v → selections_ok m → selections_ok (<[i := v]> m).
Proof. intros. by apply map_Forall_insert_2. Qed.

Lemma acc_ok_lookup ds dep : acc_ok ds → selections_ok (default ∅ (ds_acc ds !! dep)).
Proof.
  intros H. destruct (ds_acc ds !! dep) as [m|] eqn:E; simpl; [by eapply H|apply map_Forall_empty].
Qed.

Lemma collect_dep_latch_ok dep local ds :
  selections_ok local → acc_ok ds → acc_ok (collect_dep_latch dep local ds).
Proof.
  intros Hl Ha. unfold collect_dep_latch. case_bool_decide; [done|].
  apply map_Forall_insert_2; [|done]. apply map_Forall_union_2; [done|by apply acc_ok_lookup].
Qed.

Lemma bridge_entry_ok l acc :
  Forall (λ e, sel_wf e.2) l → selections_ok acc.1 → selections_ok (foldl bridge_entry acc l).1.
Proof.
  intros Hl. revert acc. induction Hl as [|[i v] l Hv _ IH]; intros [slot marks] Ha; [done|].
  cbn [foldl]. apply IH. unfold bridge_entry. cbn [fst snd] in *.
  destruct (slot !! i) as [old|] eqn:E; [|by apply selections_ok_insert].
  case_bool_decide; [|done]. cbn [fst]. apply selections_ok_insert; [|done].
  apply sel_wf_union; [exact (Ha _ _ E)|done].
Qed.

Lemma collect_bridged_ok dep m ds : acc_ok ds → acc_ok (collect_bridged_latch dep (bridge_sels m) ds).
Proof.
  intros Ha. unfold collect_bridged_latch. case_bool_decide; [done|].
  pose proof (bridge_entry_ok (map_to_list (bridge_sels m))
    (default ∅ (ds_acc ds !! dep), default ∅ (ds_bridged ds !! dep))) as E.
  destruct (foldl bridge_entry _ _) as [slot marks]. apply map_Forall_insert_2; [|done].
  apply E; [|by apply acc_ok_lookup]. apply Forall_forall. intros [i v] Hin.
  apply elem_of_map_to_list in Hin. unfold bridge_sels in Hin.
  rewrite lookup_fmap, fmap_Some in Hin. destruct Hin as (b & _ & ->). apply sel_wf_from_bool.
Qed.

Lemma foldl_bridged_ok (l : list (string * gmap N bool)) ds :
  acc_ok ds →
  acc_ok (foldl (λ scope e, collect_bridged_latch e.1 (bridge_sels e.2) scope) ds l).
Proof.
  revert ds. induction l as [|e l IH]; intros ds Hd; [done|]. cbn [foldl].
  apply IH. by apply collect_bridged_ok.
Qed.

Lemma bridge_ok dep c r ctx p k ds : acc_ok ds → acc_ok (bridge_into_dep dep c r ctx p k ds).2.2.
Proof.
  intros Ha. unfold bridge_into_dep. cbv zeta. destruct (eval BoolDomain _ _ _ _) as [[v t] st].
  cbn [fst snd]. apply foldl_bridged_ok. by apply collect_bridged_ok.
Qed.

Lemma pivot_acc_ok dep c ev ctx k ds :
  part_ctx_ok ctx → scope_ok sel_wf ds → acc_ok ds → keeps_st ev →
  acc_ok (eval_partitioned_on_dep dep c (as_evaluator ev) ctx (require_pctx panic ctx) k ds).2.2.
Proof.
  intros Hctx Hds Ha Hev. unfold eval_partitioned_on_dep.
  destruct (records (cache ctx) !! dep) as [r|]; [|done].
  destruct (upstream_partition_keys _ !! dep) as [up|]; [|by apply bridge_ok]. cbv zeta.
  unfold as_evaluator.
  match goal with |- context [ev ?c ?s] => destruct (Hev c s) as [_ [? E1 E2]] end;
    [by apply dep_ctx_ok|split; [by apply scope_ok_pivot|apply map_Forall_empty|done]|].
  destruct (ev _ _) as [v st]. cbn [fst snd] in *. by apply collect_dep_latch_ok.
Qed.

Lemma full_deps_st c deps q ctx base r ds :
  part_ctx_ok ctx → scope_ok sel_wf ds → acc_ok ds → keeps_st (eval_full PD c) →
  acc_ok (full_deps PD q base
    (λ dep, d_pivot_into_dep PD dep c (as_evaluator (eval_full PD c)) ctx) deps r ds).2.
Proof.
  intros Hctx. revert r ds. induction deps as [|dep deps IH]; intros r ds Hds Ha Hev; [done|].
  cbn [full_deps].
  pose proof (pivot_acc_ok dep c (eval_full PD c) ctx base ds Hctx Hds Ha Hev) as E1.
  assert (keeps_ok sel_wf part_ctx_ok (as_evaluator (eval_full PD c))) as Hk.
  { intros ctx' st' bt Hctx' Hst'. pose proof (eval_spec_all PD (L := PartitionDomain_lawful panic) c) as H.
    destruct (es_eq _ _ H ctx' st' bt Hctx' Hst') as [F1 F2].
    destruct (es_ok _ _ H ctx' st' bt Hctx' Hst') as (F3 & F4 & F5).
    rewrite F1 in F3. rewrite F2 in F4, F5. unfold as_evaluator.
    destruct (eval_full PD c ctx' st'). by split. }
  destruct (part_pivot_ok panic dep c _ ctx base ds Hctx Hds Hk) as (_ & E2 & E3).
  cbn [PartitionDomain d_pivot_into_dep] in *.
  destruct (eval_partitioned_on_dep _ _ _ _ _ _ _) as [v [k' ds']]. cbn [fst snd] in *.
  apply IH; [|done|done].
  exact (scope_ok_frame PD (L := PartitionDomain_lawful panic) _ _ E2 E3 Hds).
Qed.

Lemma full_children_st q ctx cs r st :
  part_ctx_ok ctx → Forall (λ n, keeps_st (eval_full PD n)) cs → st_ok st →
  st_ok (full_children PD (eval_full PD) q ctx cs r st).2.
Proof.
  intros Hctx Hcs. revert r st. induction Hcs as [|n cs Hn _ IH]; intros r st Hst; [done|].
  cbn [full_children]. destruct (Hn ctx st Hctx Hst) as [_ E].
  destruct (eval_full PD n ctx st) as [v st1]. by apply IH.
Qed.

Lemma st_ok_counter c st : st_ok st → st_ok (set_counter c st).
Proof. by intros []. Qed.

Lemma st_ok_insert i v st : sel_wf v → st_ok st → st_ok (insert_sub i v st).
Proof. intros Hv [H1 H2 H3]. split; [done| |done]. by apply selections_ok_insert. Qed.

Lemma full_aggregate_st c deps q ctx st :
  part_ctx_ok ctx → st_ok st → keeps_st (eval_full PD c) →
  scope_ok sel_wf (dep_scope (full_aggregate PD q deps c (eval_full PD c) ctx st).2) →
  st_ok (full_aggregate PD q deps c (eval_full PD c) ctx st).2.
Proof.
  intros Hctx [H1 H2 H3] Hc. unfold full_aggregate.
  pose proof (full_deps_st c deps q ctx (counter st) (q_init PD q) (dep_scope st) Hctx H1 H3 Hc).
  destruct (full_deps _ _ _ _ _ _ _) as [v ds]. cbn [snd]. intros. by split.
Qed.

Lemma full_keeps_st n : keeps_st (eval_full PD n).
Proof.
  induction n as [n IH] using ConditionNode_children_ind. intros ctx st Hctx Hst.
  destruct (full_wf n ctx st Hctx (sk_scope _ Hst)) as [Hv Hs]. split; [exact Hv|].
  pose proof (st_ok_counter (u32_incr (counter st)) st Hst) as Hst'.
  destruct n as [| | | | | | | | | | | | | |n l|n l|cs|cs|n|n|t r|n| | |ks n]; try done;
    cbn [children] in IH.
  3, 4: by apply full_children_st.
  5: { rewrite !Forall_cons in IH. destruct IH as (IHt & IHr & _).
       cbn [eval_full] in *. cbv zeta in *. destruct (IHt ctx _ Hctx Hst') as [Ht Hst1].
       destruct (eval_full PD t ctx _) as [vt st1]. destruct (IHr ctx st1 Hctx Hst1) as [Hr Hst2].
       destruct (eval_full PD r ctx st1) as [vr st2]. cbn [fst snd] in *.
       by apply st_ok_insert. }
  1, 2, 6: apply Forall_cons in IH as [IH _]; by apply full_aggregate_st.
  all: apply Forall_cons in IH as [IH _]; cbn [eval_full] in *; cbv zeta in *;
    destruct (IH ctx _ Hctx Hst') as [Hn Hst1]; destruct (eval_full PD n ctx _) as [v st1];
    cbn [fst snd] in *; try done; by apply st_ok_insert.
Qed.
End invariant.
