(* ===== verification/CondTemporal.v ===== *)
(** * Conditions over time

    A run of ticks of one asset: each tick evaluates the condition against the state
    the previous tick left ([evaluate]) and then updates the state
    ([update_condition_state]), as [ConditionPass] does for an asset whose tick commits.
    Over such a run a [Since] node holds exactly when its trigger held at some tick and
    its reset at none from then on, and a [NewlyTrue] node at the ticks where its child
    turns true, wherever the node sits outside dep-aggregates. *)

From S2P Require Import Prelude PartitionKey ConditionNode Selection SelectionTheorems CondState Cron CondEval CondDomains CondExample CondTree CondFull CondOccurs.

Section temporal.
Context {G : GridOps} {T : NodeText} {C : CronOps} (panic : PartitionEvalContext).

(** The context of a tick, at the state [s] of the asset. *)
Definition at_state (s : AssetConditionState) (ctx : EvalContext) : EvalContext :=
  {| target_key := target_key ctx; root_key := root_key ctx; target_record := target_record ctx;
     cache := cache ctx; ctx_tags := ctx_tags ctx; prev_state := s;
     all_asset_states := <[root_key ctx := s]> (all_asset_states ctx);
     requested_this_tick := requested_this_tick ctx; now := now ctx;
     ctx_is_initial := ctx_is_initial ctx; partitions := partitions ctx;
     root_partition_floor := root_partition_floor ctx |}.

Definition next_state (n : ConditionNode) (c : EvalContext) : AssetConditionState :=
  update_condition_state (from_eval_context c) (evaluate panic n c) (prev_state c).

(** The contexts of a run of ticks from the state [s]. *)
Fixpoint run_ticks (n : ConditionNode) (s : AssetConditionState) (ctxs : list EvalContext)
    : list EvalContext :=
  match ctxs with
  | [] => []
  | ctx :: ctxs =>
      let c := at_state s ctx in
      c :: run_ticks n (next_state n c) ctxs
  end.

Lemma run_ticks_next n s ctxs k c c' :
  run_ticks n s ctxs !! k = Some c → run_ticks n s ctxs !! S k = Some c' →
  prev_state c' = next_state n c.
Proof.
  revert s k. induction ctxs as [|ctx ctxs IH]; intros s k; [done|]. cbn [run_ticks]. cbv zeta.
  destruct k as [|k]; [|apply IH].
  cbn. intros [= <-]. destruct ctxs; cbn; [done|]. by intros [= <-].
Qed.

Lemma run_ticks_first n s ctxs c : run_ticks n s ctxs !! 0 = Some c → prev_state c = s.
Proof. destruct ctxs; cbn; [done|]. by intros [= <-]. Qed.

(** ** The latches a tick hands to the next *)
Definition root_scope (D : EvalDomain) (c : EvalContext) : DepScope (Sel D) :=
  dep_scope (initial_state D c).

Definition recorded (D : EvalDomain) (n : ConditionNode) (c : EvalContext) : gmap N (Sel D) :=
  sub (eval D n c (initial_state D c) false).2.

Lemma next_results n c :
  partitions c = None → previous_results (next_state n c) = recorded BoolDomain n c.
Proof.
  intros E. unfold next_state, evaluate, recorded. rewrite E. unfold run.
  by destruct (eval BoolDomain _ _ _ _) as [[??]?].
Qed.

Lemma next_selections n c p :
  partitions c = Some p →
  ∃ ps, partition_state (next_state n c) = Some ps ∧
        previous_selections ps = recorded (PartitionDomain panic) n c ∧
        dep_previous_selections ps
        = ds_acc (dep_scope (eval (PartitionDomain panic) n c
                               (initial_state (PartitionDomain panic) c) false).2).
Proof.
  intros E. unfold next_state, evaluate, recorded, from_eval_context. rewrite E. unfold run.
  destruct (eval (PartitionDomain panic) _ _ _ _) as [[??] st]. eexists. split; [done|].
  cbn. by repeat case_bool_decide.
Qed.

(** ** [Since] and [NewlyTrue] as sequences *)
Lemma since_sequence (L tr rs : nat → bool) K :
  (∀ k, k < K → L k = ((match k with O => false | S k' => L k' end) || tr k) && negb (rs k)) →
  ∀ k, k < K →
    L k = true ↔ ∃ i, i ≤ k ∧ tr i = true ∧ ∀ i', i ≤ i' ≤ k → rs i' = false.
Proof.
  intros HL k. induction k as [|k IH]; intros Hk; rewrite HL by done;
    rewrite andb_true_iff, orb_true_iff, negb_true_iff.
  - split.
    + intros [[?|Ht] Hr]; [done|]. exists 0. split; [lia|split; [done|]].
      intros i' Hi. by replace i' with 0 by lia.
    + intros (i & Hi & Ht & Hr). replace i with 0 in * by lia. split; [by right|apply Hr; lia].
  - rewrite (IH ltac:(lia)). split.
    + intros [[(i & Hi & Ht & Hr)|Ht] Hrk].
      * exists i. split; [lia|split; [done|]]. intros i' Hi'.
        destruct (decide (i' = S k)) as [->|]; [done|]. apply Hr. lia.
      * exists (S k). split; [lia|split; [done|]]. intros i' Hi'. by replace i' with (S k) by lia.
    + intros (i & Hi & Ht & Hr). split; [|apply Hr; lia].
      destruct (decide (i = S k)) as [->|]; [by right|]. left. exists i.
      split; [lia|split; [done|]]. intros. apply Hr. lia.
Qed.

(** ** One domain, seen at one key *)
Section view.
Context (D : EvalDomain) {P : ScopedPivot D} (view : Sel D → bool).
Context (good : EvalContext → Prop).
Context (view_or : ∀ a b, view (d_or D a b) = view a || view b).
Context (view_difference : ∀ a b c, good c →
  view (d_difference D a b c) = view a && negb (view b)).
Context (view_restrict : ∀ a c, good c → view (d_restrict D a c) = view a).
Context (n : ConditionNode) (small : (node_size n < 2 ^ 32)%N).
Context (recorded_full : ∀ c, good c →
  recorded D n c = sub (eval_full D n c (initial_state D c)).2).
Context (latch_next : ∀ c c' i, good c → prev_state c' = next_state n c →
  view (d_prev_latch D (root_scope D c') c' i)
  = match recorded D n c !! i with Some v => view v | None => false end).

(** The value of the node [m] at index [j] in the tick of [c]. *)
Definition value_at (m : ConditionNode) (j : N) (c : EvalContext) : bool :=
  view (node_value D m c (root_scope D c) j).

Definition observed (f : EvalContext → bool) (cs : list EvalContext) (k : nat) : bool :=
  match cs !! k with Some c => f c | None => false end.

Lemma recorded_latch m j c v : good c → occurs n 0 m j →
  latch_value D m c (root_scope D c) j = Some v → recorded D n c !! j = Some v.
Proof.
  intros Hc Ho Hv. rewrite recorded_full by done.
  apply (latch_recorded D n 0 m j Ho c (initial_state D c) v); [done|lia|done].
Qed.

Definition initially_unlatched (s : AssetConditionState) (j : N) : Prop :=
  ∀ c, prev_state c = s → good c → view (d_prev_latch D (root_scope D c) c j) = false.

Lemma value_since t r j c : (j + node_size (Since t r) < 2 ^ 32)%N →
  latch_value D (Since t r) c (root_scope D c) j
  = Some (node_value D (Since t r) c (root_scope D c) j).
Proof.
  intros Hlt. symmetry. cbn [latch_value]. f_equal. unfold node_value at 1. cbn [eval_full].
  cbv zeta. cbn [counter]. cbn [node_size] in Hlt.
  pose proof (node_size_pos t). pose proof (node_size_pos r). rewrite u32_incr_small by lia.
  match goal with |- context [eval_full D t c ?st] =>
    pose proof (node_value_state D t c st) as E1; pose proof (full_scope_view D t c st) as E2;
    pose proof (full_counter_small D t c st) as E3; destruct (eval_full D t c st) as [vt st1] end.
  pose proof (node_value_state D r c st1) as F1. pose proof (full_scope_view D r c st1) as F2.
  destruct (eval_full D r c st1) as [vr st2].
  cbn [fst snd counter set_counter dep_scope] in *. rewrite E3 in F1 by lia. rewrite E1, F1.
  rewrite (node_value_view D r c (dep_scope st1) (root_scope D c)) by done.
  rewrite (latch_indep (dep_scope st2) (root_scope D c)); [done|].
  exact (eq_trans (proj2 F2) (proj2 E2)).
Qed.

Lemma value_since_step t r j c : good c → (j + node_size (Since t r) < 2 ^ 32)%N →
  value_at (Since t r) j c
  = (view (d_prev_latch D (root_scope D c) c j) || value_at t (j + 1) c)
    && negb (value_at r (j + 1 + node_size t) c).
Proof.
  intros Hc Hlt. unfold value_at. pose proof (value_since t r j c Hlt) as E.
  cbn [latch_value] in E. injection E as <-.
  by rewrite view_restrict, view_difference, view_or.
Qed.

Section run.
Context (s : AssetConditionState) (ctxs : list EvalContext).
Abbreviation cs := (run_ticks n s ctxs).
Context (all_good : ∀ k c, cs !! k = Some c → good c).

Lemma since_view t r j : occurs n 0 (Since t r) j → initially_unlatched s j →
  ∀ k, k < length cs →
  observed (value_at (Since t r) j) cs k = true ↔
  ∃ i, i ≤ k ∧ observed (value_at t (j + 1)) cs i = true ∧
       ∀ i', i ≤ i' ≤ k → observed (value_at r (j + 1 + node_size t)) cs i' = false.
Proof.
  intros Ho Hinit. pose proof (occurs_bounds _ _ _ _ Ho) as [_ Hb].
  apply since_sequence. intros k [c Hc]%lookup_lt_is_Some. unfold observed at 1.
  rewrite Hc. rewrite value_since_step by (by eauto || lia).
  unfold observed. rewrite Hc. f_equal. f_equal.
  destruct k as [|k]; [apply Hinit; [by eapply run_ticks_first|by eauto]|].
  destruct (cs !! k) as [c0|] eqn:E0.
  - rewrite (latch_next c0) by (eauto using run_ticks_next).
    rewrite (recorded_latch (Since t r) j c0 (node_value D (Since t r) c0 (root_scope D c0) j));
      [done|by eauto|done|apply value_since; lia].
  - apply lookup_ge_None in E0. apply lookup_lt_Some in Hc. lia.
Qed.

Lemma newly_true_view m j : occurs n 0 (NewlyTrue m) j → initially_unlatched s j →
  ∀ k, k < length cs →
  observed (value_at (NewlyTrue m) j) cs k
  = observed (value_at m (j + 1)) cs k &&
    negb (match k with O => false | S k' => observed (value_at m (j + 1)) cs k' end).
Proof.
  intros Ho Hinit k [c Hc]%lookup_lt_is_Some. pose proof (occurs_bounds _ _ _ _ Ho) as [_ Hb].
  cbn [node_size] in Hb. pose proof (node_size_pos m). unfold observed at 1 2. rewrite Hc.
  assert (value_at (NewlyTrue m) j c
    = value_at m (j + 1) c && negb (view (d_prev_latch D (root_scope D c) c j))) as ->.
  { unfold value_at at 1, node_value. cbn [eval_full]. cbv zeta. cbn [counter].
    rewrite u32_incr_small by lia.
    match goal with |- context [eval_full D m c ?st] =>
      pose proof (node_value_state D m c st) as E1; pose proof (full_scope_view D m c st) as E2;
      destruct (eval_full D m c st) as [v st1] end.
    cbn [fst snd set_counter dep_scope counter] in *. subst v.
    rewrite view_difference by eauto. rewrite (latch_indep (dep_scope st1) (root_scope D c)); [done|].
    exact (proj2 E2). }
  f_equal. f_equal.
  destruct k as [|k]; [apply Hinit; [by eapply run_ticks_first|by eauto]|].
  unfold observed. destruct (cs !! k) as [c0|] eqn:E0.
  - rewrite (latch_next c0) by (eauto using run_ticks_next).
    rewrite (recorded_latch (NewlyTrue m) j c0 (node_value D m c0 (root_scope D c0) (j + 1)));
      [done|by eauto|done|done].
  - apply lookup_ge_None in E0. apply lookup_lt_Some in Hc. lia.
Qed.
End run.
End view.

(** ** Unpartitioned assets *)
Definition unpartitioned (ctx : EvalContext) : Prop := partitions ctx = None.

Lemma run_ticks_inputs n s ctxs k c :
  run_ticks n s ctxs !! k = Some c → ∃ ctx s', ctxs !! k = Some ctx ∧ c = at_state s' ctx.
Proof.
  revert s k. induction ctxs as [|ctx ctxs IH]; intros s k; [done|]. cbn [run_ticks]. cbv zeta.
  destruct k as [|k]; [|apply IH]. cbn. intros [= <-]. eauto.
Qed.

Lemma length_run_ticks n s ctxs : length (run_ticks n s ctxs) = length ctxs.
Proof. revert s. induction ctxs as [|ctx ctxs IH]; intros s; simpl; [done|]. by rewrite IH. Qed.

Lemma bool_recorded_full n c :
  recorded BoolDomain n c = sub (eval_full BoolDomain n c (initial_state BoolDomain c)).2.
Proof.
  unfold recorded. f_equal.
  apply (es_eq _ _ (eval_spec_all BoolDomain n)); [done|by split].
Qed.

Lemma bool_latch_next n c c' i :
  unpartitioned c → prev_state c' = next_state n c →
  d_prev_latch BoolDomain (root_scope BoolDomain c') c' i
  = match recorded BoolDomain n c !! i with Some v => v | None => false end.
Proof.
  intros Hc E. simpl. unfold bool_prev_latch. cbn. rewrite E, next_results by done.
  by destruct (recorded BoolDomain n c !! i).
Qed.

(** The value of [m] at index [j], tick by tick. *)
Definition holds_at (n : ConditionNode) (s : AssetConditionState) (ctxs : list EvalContext)
    (m : ConditionNode) (j : N) : nat → bool :=
  observed (value_at BoolDomain (λ b, b) m j) (run_ticks n s ctxs).

Lemma fired_value n c :
  unpartitioned c → fired (evaluate panic n c) = value_at BoolDomain (λ b, b) n 0 c.
Proof.
  intros E. unfold evaluate. rewrite E. unfold run, value_at.
  pose proof (eval_spec_all BoolDomain n) as H.
  destruct (es_eq _ _ H c (initial_state BoolDomain c) false I ltac:(by split)) as [E1 _].
  destruct (eval BoolDomain n c _ false) as [[v o] st]. cbn [fst snd] in *.
  cbn [BoolDomain d_assemble fired]. rewrite E1.
  exact (node_value_state BoolDomain n c (initial_state BoolDomain c)).
Qed.

Lemma holds_fired n s ctxs k c :
  Forall unpartitioned ctxs → run_ticks n s ctxs !! k = Some c →
  fired (evaluate panic n c) = holds_at n s ctxs n 0 k.
Proof.
  intros Hall Hc. unfold holds_at, observed. rewrite Hc. apply fired_value.
  destruct (run_ticks_inputs _ _ _ _ _ Hc) as (ctx & s' & Hk & ->).
  exact (Forall_lookup_1 _ _ _ _ Hall Hk).
Qed.

Lemma run_unpartitioned n s ctxs k c :
  Forall unpartitioned ctxs → run_ticks n s ctxs !! k = Some c → unpartitioned c.
Proof.
  intros Hall Hc. destruct (run_ticks_inputs _ _ _ _ _ Hc) as (ctx & s' & Hk & ->).
  exact (Forall_lookup_1 _ _ _ _ Hall Hk).
Qed.

Lemma bool_unlatched s j : previous_results s !! j = None →
  initially_unlatched BoolDomain (λ b, b) unpartitioned s j.
Proof. intros E c Hc _. simpl. unfold bool_prev_latch. cbn. by rewrite Hc, E. Qed.
End temporal.

(** C19: temporal meaning of [Since] for an unpartitioned asset. At every tick of a run whose
    ticks all commit what they computed, a [Since] node anywhere outside dep-aggregates, with
    nothing latched for it when the run starts, holds exactly when its trigger held at some tick
    of the run so far and its reset at no tick from then on (the reset wins a tie), and the
    asset fires exactly when the root node holds. Neither short-circuiting nor the node's depth
    matters. *)
Theorem since_temporal `{G : GridOps, T : NodeText, C : CronOps} panic n t r j s ctxs k :
  (node_size n < 2 ^ 32)%N → occurs n 0 (Since t r) j →
  Forall unpartitioned ctxs → previous_results s !! j = None → k < length ctxs →
  let holds := holds_at panic n s ctxs in
  (holds (Since t r) j k = true ↔
   ∃ i, i ≤ k ∧ holds t (j + 1)%N i = true ∧
        ∀ i', i ≤ i' ≤ k → holds r (j + 1 + node_size t)%N i' = false) ∧
  (∀ c, run_ticks panic n s ctxs !! k = Some c → fired (evaluate panic n c) = holds n 0%N k).
Proof.
  intros Hn Ho Hall Hinit Hk. cbv zeta. split; [|intros c; by apply holds_fired].
  apply (since_view panic BoolDomain (λ b, b) unpartitioned) with (n := n); try done.
  - intros c _. apply bool_recorded_full.
  - intros c c' i Hc E. by apply (bool_latch_next panic n c c' i).
  - intros k' c. by apply run_unpartitioned.
  - by apply bool_unlatched.
  - by rewrite length_run_ticks.
Qed.

(** [NewlyTrue] is an edge detector: at every tick of a run of an unpartitioned asset
    it holds exactly when its child holds and did not hold at the previous tick. *)
Theorem newly_true_temporal `{G : GridOps, T : NodeText, C : CronOps} panic n m j s ctxs k :
  (node_size n < 2 ^ 32)%N → occurs n 0 (NewlyTrue m) j →
  Forall unpartitioned ctxs → previous_results s !! j = None → k < length ctxs →
  let holds := holds_at panic n s ctxs in
  holds (NewlyTrue m) j k
  = holds m (j + 1)%N k && negb (match k with O => false | S k' => holds m (j + 1)%N k' end).
Proof.
  intros Hn Ho Hall Hinit Hk. cbv zeta.
  apply (newly_true_view panic BoolDomain (λ b, b) unpartitioned) with (n := n); try done.
  - intros c _. apply bool_recorded_full.
  - intros c c' i Hc E. by apply (bool_latch_next panic n c c' i).
  - intros k' c. by apply run_unpartitioned.
  - by apply bool_unlatched.
  - by rewrite length_run_ticks.
Qed.

(** Two ticks of [b]: it is updated at the first and idle at the second. *)
Definition ex_since : ConditionNode :=
  And [Since NewlyUpdated InProgress; NewlyTrue NewlyUpdated; Not ExecutionFailed].
Definition ex_ticks : list EvalContext :=
  [ex_ctx (Some 7%Z) (Some 5%Z) AssetConditionState_default 10 None;
   ex_ctx (Some 7%Z) (Some 5%Z) AssetConditionState_default 20 None].

Lemma ex_since_occurs : occurs ex_since 0 (Since NewlyUpdated InProgress) 1.
Proof. apply occurs_and, occurs_head, occurs_here. Qed.

Lemma ex_newly_occurs : occurs ex_since 0 (NewlyTrue NewlyUpdated) 4.
Proof. apply occurs_and, occurs_tail, occurs_head, occurs_here. Qed.

Lemma ex_ticks_unpartitioned : Forall unpartitioned ex_ticks.
Proof. by repeat constructor. Qed.

Lemma since_temporal_witness :
  holds_at ex_pctx ex_since AssetConditionState_default ex_ticks
    (Since NewlyUpdated InProgress) 1 1 = true.
Proof.
  apply (proj1 (since_temporal ex_pctx ex_since NewlyUpdated InProgress 1
    AssetConditionState_default ex_ticks 1 eq_refl ex_since_occurs ex_ticks_unpartitioned
    eq_refl ltac:(simpl; lia))).
  exists 0. split; [lia|]. split; [vm_compute; reflexivity|].
  intros i' Hi. destruct i' as [|[|i']]; [vm_compute; reflexivity..|lia].
Defined.

Lemma newly_true_temporal_witness :
  holds_at ex_pctx ex_since AssetConditionState_default ex_ticks (NewlyTrue NewlyUpdated) 4 1
  = false.
Proof.
  rewrite (newly_true_temporal ex_pctx ex_since NewlyUpdated 4
    AssetConditionState_default ex_ticks 1 eq_refl ex_newly_occurs ex_ticks_unpartitioned
    eq_refl ltac:(simpl; lia)).
  vm_compute. reflexivity.
Defined.

(** ** Partitioned assets, key by key *)
Section partitioned.
Context {G : GridOps} {T : NodeText} {C : CronOps} (panic : PartitionEvalContext).
Abbreviation PD := (PartitionDomain panic).

(** Every selection persisted for the asset is well formed. *)
Definition persisted_ok (s : AssetConditionState) : Prop :=
  ∀ ps, partition_state s = Some ps →
    latches_ok sel_wf (previous_selections ps) ∧
    map_Forall (λ _, latches_ok sel_wf) (dep_previous_selections ps).

Record input_ok (ctx : EvalContext) : Prop := {
  io_states : map_Forall (λ _, state_ok) (all_asset_states ctx);
  io_requested : map_Forall (λ _, sel_wf) (requested_this_tick ctx)
}.

Lemma at_state_ok s ctx : input_ok ctx → persisted_ok s →
  part_ctx_ok (at_state s ctx) ∧ st_ok (initial_state PD (at_state s ctx)).
Proof.
  intros [H1 H2] Hs. split.
  - assert (state_ok s) as Hok by (intros ps E; exact (proj1 (Hs ps E))).
    split; [exact Hok| |done]. by apply map_Forall_insert_2.
  - split; [|apply map_Forall_empty|apply map_Forall_empty].
    split; [|done]. cbn. unfold root_dep_selections. cbn.
    destruct (partition_state s) as [ps|] eqn:E; [|apply map_Forall_empty]. by apply Hs.
Qed.

Lemma next_persisted n c :
  part_ctx_ok c → st_ok (initial_state PD c) → is_Some (partitions c) →
  persisted_ok (next_state panic n c).
Proof.
  intros Hctx Hst [p Hp] ps' Eps. destruct (next_selections panic n c p Hp) as (ps & E & E1 & E2).
  rewrite E in Eps. injection Eps as <-. rewrite E1, E2. unfold recorded.
  pose proof (eval_spec_all PD n) as H.
  destruct (es_eq _ _ H c (initial_state PD c) false Hctx (sk_scope _ Hst)) as [_ ->].
  by destruct (full_keeps_st panic n c (initial_state PD c) Hctx Hst) as [_ [_ ? ?]].
Qed.

(** A tick at which the key [κ] belongs to the universe. *)
Record key_tick (κ : PartitionKey) (c : EvalContext) : Prop := {
  kt_universe : ∃ p, partitions c = Some p ∧ κ ∈ all_keys p;
  kt_ctx : part_ctx_ok c;
  kt_st : st_ok (initial_state PD c)
}.

Definition live_key (κ : PartitionKey) (ctx : EvalContext) : Prop :=
  ∃ p, partitions ctx = Some p ∧ κ ∈ all_keys p.

Lemma run_key_ticks n κ s ctxs k c :
  Forall (λ ctx, live_key κ ctx ∧ input_ok ctx) ctxs → persisted_ok s →
  run_ticks panic n s ctxs !! k = Some c → key_tick κ c.
Proof.
  intros Hall. revert s k. induction Hall as [|ctx ctxs [Hk Hi] _ IH]; intros s k Hs; [done|].
  cbn [run_ticks]. cbv zeta. destruct (at_state_ok s ctx Hi Hs) as [H1 H2].
  destruct k as [|k]; [cbn; intros [= <-]; by split|]. cbn. apply IH.
  destruct Hk as (p & Hp & _). by apply next_persisted.
Qed.

(** Whether a selection holds at [κ], a key of the universe. *)
Definition sel_view (κ : PartitionKey) (s : PartitionSelection) : bool :=
  match s with All => true | Empty => false | Keys X => bool_decide (κ ∈ X) end.

Lemma sel_view_has U κ s : κ ∈ U → sel_view κ s = sel_has U s κ.
Proof. destruct s; simpl; [|done..]. intros. by rewrite bool_decide_true. Qed.

Lemma sel_view_or κ a b : sel_view κ (sel_union a b) = sel_view κ a || sel_view κ b.
Proof. rewrite !(sel_view_has {[ κ ]}), sel_has_union by set_solver. done. Qed.

Lemma key_tick_universe κ c : key_tick κ c → κ ∈ all_keys (require_pctx panic c).
Proof. intros [(p & Hp & Hk) _ _]. unfold require_pctx. by rewrite Hp. Qed.

Lemma sel_view_difference κ a b c : key_tick κ c →
  sel_view κ (d_difference PD a b c) = sel_view κ a && negb (sel_view κ b).
Proof.
  intros Hc%key_tick_universe. rewrite !(sel_view_has (all_keys (require_pctx panic c))) by done.
  by apply sel_has_difference.
Qed.

Lemma sel_view_restrict κ a c : key_tick κ c →
  sel_view κ (d_restrict PD a c) = sel_view κ a.
Proof.
  intros Hc%key_tick_universe. rewrite !(sel_view_has (all_keys (require_pctx panic c))) by done.
  by apply sel_has_restrict.
Qed.

Lemma part_recorded_full κ n c : key_tick κ c →
  recorded PD n c = sub (eval_full PD n c (initial_state PD c)).2.
Proof.
  intros [_ Hctx Hst]. unfold recorded. f_equal. pose proof (eval_spec_all PD n) as H.
  by destruct (es_eq _ _ H c (initial_state PD c) false Hctx (sk_scope _ Hst)).
Qed.

Lemma sel_view_default κ (m : gmap N PartitionSelection) i :
  sel_view κ (default Empty (m !! i))
  = match m !! i with Some v => sel_view κ v | None => false end.
Proof. by destruct (m !! i). Qed.

Lemma part_latch_next κ n c c' i : key_tick κ c → prev_state c' = next_state panic n c →
  sel_view κ (d_prev_latch PD (root_scope PD c') c' i)
  = match recorded PD n c !! i with Some v => sel_view κ v | None => false end.
Proof.
  intros [(p & Hp & _) _ _] E. destruct (next_selections panic n c p Hp) as (ps & E1 & E2 & _).
  cbn. unfold prev_partition_latch. cbn. rewrite E, E1. cbn. rewrite E2.
  exact (sel_view_default κ (recorded PD n c) i).
Qed.

(** Whether the node [m] at index [j] selects [κ], tick by tick. *)
Definition selects_at (κ : PartitionKey) (n : ConditionNode) (s : AssetConditionState)
    (ctxs : list EvalContext) (m : ConditionNode) (j : N) : nat → bool :=
  observed (value_at PD (sel_view κ) m j) (run_ticks panic n s ctxs).

Definition key_unlatched (κ : PartitionKey) (s : AssetConditionState) (j : N) : Prop :=
  ∀ ps v, partition_state s = Some ps → previous_selections ps !! j = Some v →
    sel_view κ v = false.

Lemma part_unlatched κ s j : key_unlatched κ s j →
  initially_unlatched PD (sel_view κ) (key_tick κ) s j.
Proof.
  intros Hs c Hc _. cbn. unfold prev_partition_latch. cbn. rewrite Hc.
  destruct (partition_state s) as [ps|] eqn:E; [|done]. cbn.
  destruct (previous_selections ps !! j) as [v|] eqn:E'; [|done]. by apply (Hs ps).
Qed.

Lemma selects_selection κ n c : key_tick κ c →
  sel_view κ <$> selection (evaluate panic n c) = Some (value_at PD (sel_view κ) n 0 c).
Proof.
  intros [(p & Hp & _) Hctx Hst]. unfold evaluate. rewrite Hp. unfold run, value_at.
  pose proof (eval_spec_all PD n) as H.
  destruct (es_eq _ _ H c (initial_state PD c) false Hctx (sk_scope _ Hst)) as [E1 _].
  destruct (eval PD n c _ false) as [[v o] st]. cbn [fst snd] in *.
  change (Some (sel_view κ v) = Some (sel_view κ (node_value PD n c (root_scope PD c) 0))).
  do 2 f_equal. rewrite E1. exact (node_value_state PD n c (initial_state PD c)).
Qed.
End partitioned.

(** Temporal meaning of [Since] for one key of a partitioned asset. While the key
    stays in the universe, a [Since] node selects it exactly when its trigger selected it
    at some tick so far and its reset at no tick from then on; the selection computed for
    the asset holds the key exactly when the root node does. *)
Theorem since_temporal_key `{G : GridOps, T : NodeText, C : CronOps} panic κ n t r j s ctxs k :
  (node_size n < 2 ^ 32)%N → occurs n 0 (Since t r) j →
  Forall (λ ctx, live_key κ ctx ∧ input_ok ctx) ctxs → persisted_ok s →
  key_unlatched κ s j → k < length ctxs →
  let selects := selects_at panic κ n s ctxs in
  (selects (Since t r) j k = true ↔
   ∃ i, i ≤ k ∧ selects t (j + 1)%N i = true ∧
        ∀ i', i ≤ i' ≤ k → selects r (j + 1 + node_size t)%N i' = false) ∧
  (∀ c, run_ticks panic n s ctxs !! k = Some c →
     sel_view κ <$> selection (evaluate panic n c) = Some (selects n 0%N k)).
Proof.
  intros Hn Ho Hall Hs Hinit Hk. cbv zeta. split.
  - apply (since_view panic (PartitionDomain panic) (sel_view κ) (key_tick panic κ))
      with (n := n); try done.
    + apply sel_view_or.
    + apply sel_view_difference.
    + apply sel_view_restrict.
    + intros c. apply (part_recorded_full panic κ).
    + intros c c' i. apply part_latch_next.
    + intros k' c. by apply run_key_ticks.
    + by apply part_unlatched.
    + by rewrite length_run_ticks.
  - intros c Hc. unfold selects_at, observed. rewrite Hc. apply selects_selection.
    by eapply run_key_ticks.
Qed.

(** A tick keeps the persisted selections well formed: evaluated against well-formed
    state, a condition yields a selection other than [Keys {}] and leaves latches, per
    node and per dep, that are. *)
Theorem tick_keeps_persisted `{G : GridOps, T : NodeText, C : CronOps} panic n s ctx p :
  input_ok ctx → persisted_ok s → partitions ctx = Some p →
  let c := at_state s ctx in
  persisted_ok (next_state panic n c) ∧
  ∃ sel, selection (evaluate panic n c) = Some sel ∧ sel_wf sel ∧
         fired (evaluate panic n c) = fires_over sel (all_keys p).
Proof.
  intros Hi Hs Hp c. destruct (at_state_ok panic s ctx Hi Hs) as [H1 H2].
  split; [by apply next_persisted|].
  unfold evaluate. change (partitions c) with (partitions ctx). rewrite Hp. unfold run.
  pose proof (eval_spec_all (PartitionDomain panic) n) as H.
  destruct (es_ok _ _ H c (initial_state _ c) false H1 (sk_scope _ H2)) as (E & _).
  destruct (eval (PartitionDomain panic) n c _ false) as [[v o] st]. exists v.
  split; [done|split; [exact E|]]. cbn. unfold require_pctx.
  change (partitions c) with (partitions ctx). by rewrite Hp.
Qed.

Definition ex_part_node : ConditionNode := And [Since Missing InProgress; Not ExecutionFailed].
Definition ex_part_ticks : list EvalContext :=
  [ex_ctx (Some 7%Z) (Some 5%Z) AssetConditionState_default 10 (Some ex_pctx);
   ex_ctx (Some 7%Z) (Some 5%Z) AssetConditionState_default 20 (Some ex_pctx)].

Lemma ex_input_ok t :
  input_ok (ex_ctx (Some 7%Z) (Some 5%Z) AssetConditionState_default t (Some ex_pctx)).
Proof. split; [by apply map_Forall_singleton|apply map_Forall_empty]. Qed.

Lemma ex_part_ticks_ok :
  Forall (λ ctx, live_key (Single ["k2"]) ctx ∧ input_ok ctx) ex_part_ticks.
Proof.
  assert (Single ["k2"] ∈ ex_keys) by (apply (bool_decide_unpack _); by vm_compute).
  repeat constructor; try (by exists ex_pctx); try apply ex_input_ok.
Qed.

Lemma ex_part_occurs : occurs ex_part_node 0 (Since Missing InProgress) 1.
Proof. apply occurs_and, occurs_head, occurs_here. Qed.

Lemma since_temporal_key_witness :
  selects_at ex_pctx (Single ["k2"]) ex_part_node AssetConditionState_default ex_part_ticks
    (Since Missing InProgress) 1 1 = true.
Proof.
  apply (proj1 (since_temporal_key ex_pctx (Single ["k2"]) ex_part_node Missing InProgress 1
    AssetConditionState_default ex_part_ticks 1 eq_refl ex_part_occurs ex_part_ticks_ok
    ltac:(done) ltac:(done) ltac:(simpl; lia))).
  exists 0. split; [lia|]. split; [vm_compute; reflexivity|].
  intros i' Hi. destruct i' as [|[|i']]; [vm_compute; reflexivity..|lia].
Defined.

Lemma tick_keeps_persisted_witness :
  persisted_ok (next_state ex_pctx ex_part_node (at_state AssetConditionState_default
    (ex_ctx (Some 7%Z) (Some 5%Z) AssetConditionState_default 10 (Some ex_pctx)))).
Proof.
  exact (proj1 (tick_keeps_persisted ex_pctx ex_part_node AssetConditionState_default
    _ ex_pctx (ex_input_ok 10) ltac:(done) eq_refl)).
Defined.
