(* ===== verification/CondCache.v ===== *)
(** * The condition cache (rust/rivers-core/src/condition/cache/)

    The incremental view of storage that condition evaluation reads, and every operation
    that changes it from values at hand: the bookkeeping of dispatched runs, the graph
    adjacency, the latest-run maps, the effects of a completed run gathered into a
    [RefreshDelta], and the application of a delta. [apply_refresh_delta] is a function of
    the delta; [CacheFetch] models the queries that produce it. A [HashMap] iterated for independent per-key writes is iterated in the
    order of [map_to_list]. *)

From S2P Require Import Prelude PartitionKey ConditionNode Selection CondState RunQueue.

(** storage/run.rs [RunRecord], without [launched_by], which nothing here reads. *)
Record RunRecord := {
  rr_run_id : string;
  rr_code_location_id : string;
  rr_job_name : option string;
  rr_status : RunStatus;
  rr_start_time : Z;
  rr_end_time : option Z;
  rr_tags : RunTags;
  rr_node_names : list string;
  rr_priority : Z;
  rr_partition_key : option PartitionKey;
  rr_block_reason : option string;
  rr_action : option string;
  rr_config : option string
}.

Definition run_is_action (run : RunRecord) : bool := bool_decide (is_Some (rr_action run)).

(** [run.end_time.unwrap_or(run.start_time)] *)
Definition run_ts (run : RunRecord) : Z := default (rr_start_time run) (rr_end_time run).

Definition run_status_is_terminal (status : RunStatus) : bool :=
  match status with Success | Failure | Canceled => true | _ => false end.

(** ** Data (types.rs) *)
Record LiveActionRun := {
  lar_node_names : list string;
  lar_partition_key : option PartitionKey
}.

Record PendingRun := {
  pending_asset_keys : list string;
  first_seen_ts : Z
}.

Record PartitionStatusPatch := {
  fresh_timestamps : list (PartitionKey * Z);
  patch_in_progress : KeySet;
  patch_failed : gmap PartitionKey Z;
  patch_deleted : KeySet;
  patch_last_runs : gmap PartitionKey (option string)
}.

Inductive InProgressChange :=
| Push (asset_key run_id : string) (partition_key : option PartitionKey)
| ClearRun (asset_key run_id : string)
| AssetClear (asset_key : string).

Record FailedRun := {
  fr_ts : Z;
  fr_run_id : string;
  fr_materialized : bool
}.

(** [(asset, partition, run_id, run_ts, tags, names, is_verb_run)] *)
Record LastRunUpdate := {
  lru_asset : string;
  lru_slot : option PartitionKey;
  lru_run_id : string;
  lru_ts : Z;
  lru_tags : RunTags;
  lru_names : list string;
  lru_is_verb : bool
}.

Record RunTagUpdate := {
  rtu_asset : string;
  rtu_slot : option PartitionKey;
  rtu_run_id : string;
  rtu_tags : RunTags
}.

Definition run_partition_slots (is_partitioned : bool) (run : RunRecord)
    : list (option PartitionKey) :=
  if negb is_partitioned then [None]
  else match rr_partition_key run with
       | Some pk => (λ k, Some (norm k)) <$> members pk
       | None => [None]
       end.

(** Without [partition_reloads], read only by the fetch. *)
Record RefreshDelta := {
  changed : bool;
  clear_tick_accumulators : bool;
  record_updates : list AssetRecord;
  in_progress_changes : list InProgressChange;
  failed_adds : gmap string FailedRun;
  failed_removes : gmap string Z;
  deletion_supersessions : list (string * Z);
  materialized_overrides : gmap string (gset string);
  last_run_updates : list LastRunUpdate;
  tick_tag_updates : list RunTagUpdate;
  delta_partition_status : gmap string PartitionStatusPatch;
  action_partition_checks : gmap string KeySet;
  delta_backfill : option BackfillState;
  new_last_seen_run_ts : option Z;
  new_last_observation_ts : option Z;
  track_action_runs : list (string * LiveActionRun);
  untrack_action_runs : list string;
  confirmed_pending : list string;
  evicted_pending : list (string * list string);
  applied_runs : list (string * Z);
  backfill_ended_assets : list string
}.

(** The latest-run maps, written and evicted together. *)
Record LastRuns := {
  lr_tags : SlotMap RunTags;
  lr_names : SlotMap (list string);
  lr_entry_ts : gmap (string * option PartitionKey) Z
}.

(** In-progress runs per asset: run id to its partition key. *)
Abbreviation InProgressMap := (gmap string (gmap string (option PartitionKey))).

(** The failure floors: [failed_assets] and [failed_asset_timestamps]. *)
Abbreviation Floors := (gset string * gmap string Z)%type.

Record AssetConditionCache := {
  cc_records : gmap string AssetRecord;
  cc_edges : list (string * string);
  cc_upstream_deps : gmap string (list string);
  cc_downstream_deps : gmap string (list string);
  cc_in_progress : InProgressMap;
  cc_live_action_runs : gmap string LiveActionRun;
  cc_floors : Floors;
  cc_asset_deletion_ts : gmap string Z;
  cc_last_seen_run_ts : Z;
  cc_last_observation_ts : Z;
  cc_initialized : bool;
  cc_partition_status : gmap string PartitionStatusEntry;
  cc_backfill : BackfillState;
  cc_last_runs : LastRuns;
  cc_tick_tags : SlotMap (list RunTags);
  cc_partitioned : gset string;
  cc_needs_tick_tags : bool;
  cc_code_location_id : string;
  cc_pending_runs : gmap string PendingRun;
  cc_pending_grace_nanos : Z;
  cc_applied_run_ids : gmap string Z
}.

(** ** In-flight runs *)
Definition track_in_progress_run (asset_key run_id : string) (pk : option PartitionKey)
    (m : InProgressMap) : InProgressMap :=
  <[asset_key := <[run_id := pk]> (default ∅ (m !! asset_key))]> m.

Definition untrack_in_progress_run (asset_key run_id : string) (m : InProgressMap)
    : InProgressMap :=
  match m !! asset_key with
  | Some runs =>
      let runs := delete run_id runs in
      if bool_decide (runs = ∅) then delete asset_key m else <[asset_key := runs]> m
  | None => m
  end.

Definition clear_predispatch_mark (asset_key : string) (m : InProgressMap) : InProgressMap :=
  match m !! asset_key with
  | Some runs => if bool_decide (runs = ∅) then delete asset_key m else m
  | None => m
  end.

(** [entry(run_id).or_insert_with(..).asset_keys.push(asset_key)] *)
Definition push_pending (asset_key run_id : string) (now : Z) (m : gmap string PendingRun)
    : gmap string PendingRun :=
  let p := default {| pending_asset_keys := []; first_seen_ts := now |} (m !! run_id) in
  <[run_id := {| pending_asset_keys := pending_asset_keys p ++ [asset_key];
                 first_seen_ts := first_seen_ts p |}]> m.

Definition drop_pending (asset_key run_id : string) (m : gmap string PendingRun)
    : gmap string PendingRun :=
  match m !! run_id with
  | Some p =>
      let keys := filter (λ k, k ≠ asset_key) (pending_asset_keys p) in
      match keys with
      | [] => delete run_id m
      | _ => <[run_id := {| pending_asset_keys := keys; first_seen_ts := first_seen_ts p |}]> m
      end
  | None => m
  end.

Definition with_runs_in_flight (c : AssetConditionCache) (ip : InProgressMap)
    (pend : gmap string PendingRun) : AssetConditionCache :=
  {| cc_records := cc_records c; cc_edges := cc_edges c; cc_upstream_deps := cc_upstream_deps c;
     cc_downstream_deps := cc_downstream_deps c; cc_in_progress := ip;
     cc_live_action_runs := cc_live_action_runs c; cc_floors := cc_floors c;
     cc_asset_deletion_ts := cc_asset_deletion_ts c;
     cc_last_seen_run_ts := cc_last_seen_run_ts c;
     cc_last_observation_ts := cc_last_observation_ts c; cc_initialized := cc_initialized c;
     cc_partition_status := cc_partition_status c; cc_backfill := cc_backfill c;
     cc_last_runs := cc_last_runs c; cc_tick_tags := cc_tick_tags c;
     cc_partitioned := cc_partitioned c; cc_needs_tick_tags := cc_needs_tick_tags c;
     cc_code_location_id := cc_code_location_id c; cc_pending_runs := pend;
     cc_pending_grace_nanos := cc_pending_grace_nanos c;
     cc_applied_run_ids := cc_applied_run_ids c |}.

Definition register_dispatched_run (asset_key run_id : string) (now : Z)
    (partition_key : option PartitionKey) (c : AssetConditionCache) : AssetConditionCache :=
  with_runs_in_flight c
    (track_in_progress_run asset_key run_id partition_key (cc_in_progress c))
    (push_pending asset_key run_id now (cc_pending_runs c)).

Definition clear_dispatched_run (asset_key run_id : string) (c : AssetConditionCache)
    : AssetConditionCache :=
  with_runs_in_flight c (untrack_in_progress_run asset_key run_id (cc_in_progress c))
    (drop_pending asset_key run_id (cc_pending_runs c)).

Definition in_progress_partition_keys (c : AssetConditionCache) (asset : string) : KeySet :=
  match cc_in_progress c !! asset with
  | Some runs =>
      list_to_set (norm <$> (omap snd (map_to_list runs) ≫= members))
  | None => ∅
  end.

(** ** Adjacency and the time-based subset *)
Definition push_entry {V} (k : string) (v : V) (m : gmap string (list V)) : gmap string (list V) :=
  <[k := default [] (m !! k) ++ [v]]> m.

(** [build_adjacency]: the upstream and the downstream map. *)
Definition build_adjacency (edges : list (string * string))
    : gmap string (list string) * gmap string (list string) :=
  foldl (λ '(up, down) '(from, to), (push_entry from to up, push_entry to from down))
        (∅, ∅) edges.

(** The inner loop over the dependents [downs] of a dequeued asset. *)
Fixpoint enqueue_new (condition_keys : gset string) (downs : list string)
    (eval_set : gset string) (queue : list string) : gset string * list string :=
  match downs with
  | [] => (eval_set, queue)
  | d :: downs =>
      if bool_decide (d ∈ condition_keys) && negb (bool_decide (d ∈ eval_set))
      then enqueue_new condition_keys downs ({[ d ]} ∪ eval_set) (queue ++ [d])
      else enqueue_new condition_keys downs eval_set queue
  end.

Fixpoint eval_set_loop (fuel : nat) (downstream : gmap string (list string))
    (condition_keys : gset string) (queue : list string) (eval_set : gset string)
    : option (gset string) :=
  match queue with
  | [] => Some eval_set
  | key :: queue =>
      match fuel with
      | O => None
      | S fuel =>
          let '(eval_set, queue) :=
            enqueue_new condition_keys (default [] (downstream !! key)) eval_set queue in
          eval_set_loop fuel downstream condition_keys queue eval_set
      end
  end.

(** The keys queued before the loop: [eval_set] is a set, the queue keeps duplicates. *)
Definition time_based_keys (conditions : list (string * ConditionNode)) : list string :=
  (filter (λ kc, has_time_based_conditions kc.2 = true) conditions).*1.

(** Fuel: one iteration per initial entry and per key that can still be queued. *)
Definition compute_time_based_eval_set (c : AssetConditionCache)
    (conditions : list (string * ConditionNode)) : option (gset string) :=
  let start := time_based_keys conditions in
  let condition_keys : gset string := list_to_set conditions.*1 in
  eval_set_loop (length start + size condition_keys) (cc_downstream_deps c) condition_keys
    start (list_to_set start).

(** ** The latest-run maps *)
Definition slot_insert {V} (asset : string) (slot : option PartitionKey) (v : V) (m : SlotMap V)
    : SlotMap V := <[asset := <[slot := v]> (default ∅ (m !! asset))]> m.

Definition slot_remove {V} (asset : string) (slot : option PartitionKey) (m : SlotMap V)
    : SlotMap V := alter (delete slot) asset m.

Definition update_last_run_maps (asset : string) (slot : option PartitionKey) (ts : Z)
    (tags : RunTags) (names : list string) (m : LastRuns) : LastRuns :=
  let stale := match lr_entry_ts m !! (asset, slot) with
               | Some old => (ts <? old)%Z
               | None => false
               end in
  if stale then m
  else
    {| lr_entry_ts := <[(asset, slot) := ts]> (lr_entry_ts m);
       lr_tags := match tags with
                  | [] => slot_remove asset slot (lr_tags m)
                  | _ => slot_insert asset slot tags (lr_tags m)
                  end;
       lr_names := slot_insert asset slot names (lr_names m) |}.

(** When [run_id] is the run that last materialized [name]: its timestamp. *)
Definition materialized_at (records : gmap string AssetRecord) (run_id name : string)
    : option Z :=
  match records !! name with
  | Some r => if bool_decide (last_run_id r = Some run_id) then last_timestamp r else None
  | None => None
  end.

(** [other] was built in the run after [mine]. *)
Definition built_after (mine other : option Z) : bool :=
  match other, mine with Some ts, Some a => (a <? ts)%Z | _, _ => false end.

Definition verb_run_names (records : gmap string AssetRecord) (asset run_id : string)
    (names : list string) : list string :=
  let asset_ts := materialized_at records run_id asset in
  filter (λ name, name = asset ∨ built_after asset_ts (materialized_at records run_id name) = true)
    names.

Definition update_tick_materialization_tags (asset : string) (slot : option PartitionKey)
    (tags : RunTags) (m : SlotMap (list RunTags)) : SlotMap (list RunTags) :=
  let slots := default ∅ (m !! asset) in
  <[asset := <[slot := default [] (slots !! slot) ++ [tags]]> slots]> m.

(** ** The effects of a completed run, gathered into a delta *)

(** [entry(k).and_modify(|old| max(old, t)).or_insert(t)] *)
Definition bump_max (k : string) (t : Z) (m : gmap string Z) : gmap string Z :=
  <[k := match m !! k with Some old => Z.max old t | None => t end]> m.

(** The [failed_adds] entry: the newest failure's run. *)
Definition add_failure (asset run_id : string) (ts : Z) (m : gmap string FailedRun)
    : gmap string FailedRun :=
  <[asset := match m !! asset with
             | Some e => if (fr_ts e <? ts)%Z
                         then {| fr_ts := ts; fr_run_id := run_id;
                                 fr_materialized := fr_materialized e |}
                         else e
             | None => {| fr_ts := ts; fr_run_id := run_id; fr_materialized := false |}
             end]> m.

Definition add_override (asset run_id : string) (m : gmap string (gset string))
    : gmap string (gset string) := <[asset := {[ run_id ]} ∪ default ∅ (m !! asset)]> m.

(** A delta with the fields a completed run contributes to replaced. *)
Definition with_run_effects (d : RefreshDelta) (applied : list (string * Z))
    (fa : gmap string FailedRun) (frm : gmap string Z) (mo : gmap string (gset string))
    (lru : list LastRunUpdate) (ttu : list RunTagUpdate) (apc : gmap string KeySet)
    : RefreshDelta :=
  {| changed := changed d; clear_tick_accumulators := clear_tick_accumulators d;
     record_updates := record_updates d; in_progress_changes := in_progress_changes d;
     failed_adds := fa; failed_removes := frm;
     deletion_supersessions := deletion_supersessions d; materialized_overrides := mo;
     last_run_updates := lru; tick_tag_updates := ttu;
     delta_partition_status := delta_partition_status d; action_partition_checks := apc;
     delta_backfill := delta_backfill d; new_last_seen_run_ts := new_last_seen_run_ts d;
     new_last_observation_ts := new_last_observation_ts d;
     track_action_runs := track_action_runs d; untrack_action_runs := untrack_action_runs d;
     confirmed_pending := confirmed_pending d; evicted_pending := evicted_pending d;
     applied_runs := applied; backfill_ended_assets := backfill_ended_assets d |}.

Section run_effects.
Context (c : AssetConditionCache).

Definition is_partitioned (asset : string) : bool := bool_decide (asset ∈ cc_partitioned c).

(** [queue_last_run_updates]: the entries pushed for one asset of the run. *)
Definition last_run_entries (run : RunRecord) (asset : string) : list LastRunUpdate :=
  (λ slot, {| lru_asset := asset; lru_slot := slot; lru_run_id := rr_run_id run;
              lru_ts := run_ts run; lru_tags := rr_tags run; lru_names := rr_node_names run;
              lru_is_verb := run_is_action run |})
  <$> run_partition_slots (is_partitioned asset) run.

Definition tick_tag_entries (run : RunRecord) (asset : string) : list RunTagUpdate :=
  if cc_needs_tick_tags c then
    (λ slot, {| rtu_asset := asset; rtu_slot := slot; rtu_run_id := rr_run_id run;
                rtu_tags := rr_tags run |})
    <$> run_partition_slots (is_partitioned asset) run
  else [].

Definition queue_action_partition_checks (run : RunRecord) (m : gmap string KeySet)
    : gmap string KeySet :=
  match rr_partition_key run with
  | None => m
  | Some pk =>
      foldl (λ m asset, if is_partitioned asset
                        then <[asset := default ∅ (m !! asset) ∪ list_to_set (norm <$> members pk)]> m
                        else m) m (rr_node_names run)
  end.

(** The loop over the assets of a materialize run. *)
Definition run_asset_effects (run : RunRecord) (is_failure : bool)
    (acc : gmap string FailedRun * gmap string Z * gmap string (gset string)) (asset : string)
    : gmap string FailedRun * gmap string Z * gmap string (gset string) :=
  let '(fa, frm, mo) := acc in
  let scalar := bool_decide (rr_partition_key run = None) || negb (is_partitioned asset) in
  ((if scalar && is_failure then add_failure asset (rr_run_id run) (run_ts run) fa else fa),
   (if scalar && negb is_failure then bump_max asset (run_ts run) frm else frm),
   (if is_failure then mo else add_override asset (rr_run_id run) mo)).

Definition apply_run_effects_to_delta (run : RunRecord) (d : RefreshDelta)
    : bool * RefreshDelta :=
  let applied := applied_runs d ++ [(rr_run_id run, rr_start_time run)] in
  let lru := last_run_updates d ++ (rr_node_names run ≫= last_run_entries run) in
  let ttu := tick_tag_updates d ++ (rr_node_names run ≫= tick_tag_entries run) in
  if run_is_action run then
    if negb (run_status_is_terminal (rr_status run)) then (false, d)
    else (true, with_run_effects d applied (failed_adds d) (failed_removes d)
                  (materialized_overrides d) lru ttu
                  (queue_action_partition_checks run (action_partition_checks d)))
  else
    match rr_status run with
    | Success | Failure =>
        let is_failure := match rr_status run with Failure => true | _ => false end in
        let '(fa, frm, mo) :=
          foldl (run_asset_effects run is_failure)
                (failed_adds d, failed_removes d, materialized_overrides d)
                (rr_node_names run) in
        (true, with_run_effects d applied fa frm mo lru ttu (action_partition_checks d))
    | _ => (false, d)
    end.
End run_effects.

(** ** Applying a delta *)
Definition run_materialized_asset (records : gmap string AssetRecord) (asset run_id : string)
    (overrides : gmap string (gset string)) : bool :=
  bool_decide (records !! asset ≫= last_run_id = Some run_id) ||
  match overrides !! asset with Some runs => bool_decide (run_id ∈ runs) | None => false end.

Definition run_materialized_slot (records : gmap string AssetRecord) (asset : string)
    (slot : option PartitionKey) (run_id : string) (overrides : gmap string (gset string))
    (patches : gmap string PartitionStatusPatch) : bool :=
  match (pk ← slot; patch ← patches !! asset; patch_last_runs patch !! pk) with
  | Some row_run =>
      bool_decide (row_run = Some run_id) ||
      match overrides !! asset with Some runs => bool_decide (run_id ∈ runs) | None => false end
  | None => run_materialized_asset records asset run_id overrides
  end.

Definition apply_in_progress_change (m : InProgressMap) (change : InProgressChange)
    : InProgressMap :=
  match change with
  | Push asset_key run_id pk => track_in_progress_run asset_key run_id pk m
  | ClearRun asset_key run_id => untrack_in_progress_run asset_key run_id m
  | AssetClear asset_key => delete asset_key m
  end.

Definition clear_floor (asset : string) (f : Floors) : Floors :=
  (f.1 ∖ {[ asset ]}, delete asset f.2).

Definition apply_failed_add (records : gmap string AssetRecord)
    (overrides : gmap string (gset string)) (f : Floors) (e : string * FailedRun) : Floors :=
  let '(asset, fr) := e in
  if fr_materialized fr || run_materialized_asset records asset (fr_run_id fr) overrides then
    match f.2 !! asset with
    | Some floor => if (floor <=? fr_ts fr)%Z then clear_floor asset f else f
    | None => clear_floor asset f
    end
  else ({[ asset ]} ∪ f.1, bump_max asset (fr_ts fr) f.2).

Definition apply_failed_remove (f : Floors) (e : string * Z) : Floors :=
  let '(asset, success_ts) := e in
  match f.2 !! asset with
  | Some fail_ts => if (success_ts <? fail_ts)%Z then f else clear_floor asset f
  | None => clear_floor asset f
  end.

Definition apply_last_run (records : gmap string AssetRecord)
    (overrides : gmap string (gset string)) (patches : gmap string PartitionStatusPatch)
    (m : LastRuns) (u : LastRunUpdate) : LastRuns :=
  if run_materialized_slot records (lru_asset u) (lru_slot u) (lru_run_id u) overrides patches then
    let names := if lru_is_verb u
                 then verb_run_names records (lru_asset u) (lru_run_id u) (lru_names u)
                 else lru_names u in
    update_last_run_maps (lru_asset u) (lru_slot u) (lru_ts u) (lru_tags u) names m
  else m.

Definition evict_slot (asset : string) (m : LastRuns) (slot : option PartitionKey) : LastRuns :=
  {| lr_entry_ts := delete (asset, slot) (lr_entry_ts m);
     lr_tags := slot_remove asset slot (lr_tags m);
     lr_names := slot_remove asset slot (lr_names m) |}.

Definition stale_slots (m : LastRuns) (asset : string) (del_ts : Z) : list (option PartitionKey) :=
  (λ e, e.1.2) <$> filter (λ e, e.1.1 = asset ∧ (e.2 <= del_ts)%Z) (map_to_list (lr_entry_ts m)).

Definition apply_deletion (acc : LastRuns * gmap string Z) (e : string * Z)
    : LastRuns * gmap string Z :=
  let '(m, dels) := acc in
  let '(asset, del_ts) := e in
  (foldl (evict_slot asset) m (stale_slots m asset del_ts), bump_max asset del_ts dels).

Definition apply_tick_tag (records : gmap string AssetRecord)
    (overrides : gmap string (gset string)) (patches : gmap string PartitionStatusPatch)
    (m : SlotMap (list RunTags)) (u : RunTagUpdate) : SlotMap (list RunTags) :=
  if run_materialized_slot records (rtu_asset u) (rtu_slot u) (rtu_run_id u) overrides patches
  then update_tick_materialization_tags (rtu_asset u) (rtu_slot u) (rtu_tags u) m
  else m.

(** [!entry.timestamps.get(pk).is_none_or(|mat| fail_ts > mat)] *)
Definition is_superseded (ts : gmap PartitionKey Z) (pk : PartitionKey) (fail_ts : Z) : bool :=
  match ts !! pk with Some mat => (fail_ts <=? mat)%Z | None => false end.

(** The merge of one asset's partition-status patch. *)
Definition apply_patch (entry : PartitionStatusEntry) (patch : PartitionStatusPatch)
    : PartitionStatusEntry :=
  let ts := foldl (λ m e, <[e.1 := e.2]> m) (pse_timestamps entry) (fresh_timestamps patch) in
  let ts := filter (λ e, e.1 ∉ patch_deleted patch) ts in
  let failed_ts :=
    filter (λ e, (e.1 ∉ patch_deleted patch) ∧
                 is_superseded ts e.1 e.2 = false)
           (patch_failed patch) in
  {| pse_timestamps := ts; pse_in_progress := patch_in_progress patch;
     pse_failed_timestamps := failed_ts; pse_failed := dom failed_ts |}.

Definition apply_partition_patches (m : gmap string PartitionStatusEntry)
    (patches : gmap string PartitionStatusPatch) : gmap string PartitionStatusEntry :=
  foldl (λ m e, <[e.1 := apply_patch (default PartitionStatusEntry_default (m !! e.1)) e.2]> m)
        m (map_to_list patches).

Definition evict_phantom (acc : InProgressMap * gmap string PendingRun)
    (e : string * list string) : InProgressMap * gmap string PendingRun :=
  let '(ip, pend) := acc in
  (foldl (λ ip asset, untrack_in_progress_run asset e.1 ip) ip e.2, delete e.1 pend).

Definition apply_refresh_delta (d : RefreshDelta) (c : AssetConditionCache)
    : bool * AssetConditionCache :=
  let live := foldl (λ m e, <[e.1 := e.2]> m) (cc_live_action_runs c) (track_action_runs d) in
  let live := foldl (λ m run_id, delete run_id m) live (untrack_action_runs d) in
  let tick_tags := if clear_tick_accumulators d then ∅ else cc_tick_tags c in
  let records := foldl (λ m r, <[asset_key r := r]> m) (cc_records c) (record_updates d) in
  let ip := foldl apply_in_progress_change (cc_in_progress c) (in_progress_changes d) in
  let overrides := materialized_overrides d in
  let floors :=
    foldl (apply_failed_add records overrides) (cc_floors c) (map_to_list (failed_adds d)) in
  let floors := foldl apply_failed_remove floors (map_to_list (failed_removes d)) in
  let patches := delta_partition_status d in
  let last_runs :=
    foldl (apply_last_run records overrides patches) (cc_last_runs c) (last_run_updates d) in
  let '(last_runs, deletions) :=
    foldl apply_deletion (last_runs, cc_asset_deletion_ts c) (deletion_supersessions d) in
  let tick_tags :=
    foldl (apply_tick_tag records overrides patches) tick_tags (tick_tag_updates d) in
  let ip := foldl (λ m asset, clear_predispatch_mark asset m) ip (backfill_ended_assets d) in
  let cursor := default (cc_last_seen_run_ts c) (new_last_seen_run_ts d) in
  let applied := foldl (λ m e, <[e.1 := e.2]> m) (cc_applied_run_ids c) (applied_runs d) in
  let pending := foldl (λ m run_id, delete run_id m) (cc_pending_runs c) (confirmed_pending d) in
  let '(ip, pending) := foldl evict_phantom (ip, pending) (evicted_pending d) in
  (changed d,
   {| cc_records := records; cc_edges := cc_edges c; cc_upstream_deps := cc_upstream_deps c;
      cc_downstream_deps := cc_downstream_deps c; cc_in_progress := ip;
      cc_live_action_runs := live; cc_floors := floors; cc_asset_deletion_ts := deletions;
      cc_last_seen_run_ts := cursor;
      cc_last_observation_ts := default (cc_last_observation_ts c) (new_last_observation_ts d);
      cc_initialized := cc_initialized c;
      cc_partition_status := apply_partition_patches (cc_partition_status c) patches;
      cc_backfill := default (cc_backfill c) (delta_backfill d);
      cc_last_runs := last_runs; cc_tick_tags := tick_tags;
      cc_partitioned := cc_partitioned c; cc_needs_tick_tags := cc_needs_tick_tags c;
      cc_code_location_id := cc_code_location_id c; cc_pending_runs := pending;
      cc_pending_grace_nanos := cc_pending_grace_nanos c;
      cc_applied_run_ids := filter (λ e, (cursor < e.2)%Z) applied |}).
