(* ===== verification/CacheTheorems.v ===== *)
(** The condition cache keeps its invariants, and what a refresh does to failure floors. *)

From S2P Require Import Prelude PartitionKey RunQueue ConditionNode Selection CondState CondCache.

(** * The condition cache keeps its invariants

    Whatever a refresh fetched, applying it keeps the redundant views of the cache
    consistent; the bookkeeping of dispatched runs is undone by its rollback; the time-
    based evaluation subset is the set of conditioned assets reachable from the time-
    based ones. *)
(** ** The invariant *)
Definition floors_ok (f : Floors) : Prop := f.1 = dom f.2.

(** The failed partitions are the keys of the failure timestamps, and a partition built
    after its failure is not failed. *)
Definition entry_ok (e : PartitionStatusEntry) : Prop :=
  pse_failed e = dom (pse_failed_timestamps e) ∧
  ∀ pk fail mat, pse_failed_timestamps e !! pk = Some fail →
    pse_timestamps e !! pk = Some mat → (mat < fail)%Z.

Definition slot_of {V} (m : SlotMap V) (asset : string) (slot : option PartitionKey) : option V :=
  slots ← m !! asset; slots !! slot.

(** Every slot of the latest-run maps is dated, and a slot without tags is absent. *)
Record last_runs_ok (m : LastRuns) : Prop := {
  lro_names asset slot : is_Some (slot_of (lr_names m) asset slot) ↔
                         is_Some (lr_entry_ts m !! (asset, slot));
  lro_tags asset slot tags : slot_of (lr_tags m) asset slot = Some tags →
    tags ≠ [] ∧ is_Some (lr_entry_ts m !! (asset, slot))
}.

Record cache_ok (c : AssetConditionCache) : Prop := {
  co_floors : floors_ok (cc_floors c);
  co_partitions : map_Forall (λ _, entry_ok) (cc_partition_status c);
  co_last_runs : last_runs_ok (cc_last_runs c);
  co_applied : map_Forall (λ _ st, (cc_last_seen_run_ts c < st)%Z) (cc_applied_run_ids c)
}.

Lemma clear_floor_ok asset f : floors_ok f → floors_ok (clear_floor asset f).
Proof. unfold floors_ok, clear_floor. simpl. intros ->. by rewrite dom_delete_L. Qed.

Lemma apply_failed_add_ok records overrides f e :
  floors_ok f → floors_ok (apply_failed_add records overrides f e).
Proof.
  intros Hf. destruct e as [asset fr]. unfold apply_failed_add.
  pose proof (clear_floor_ok asset f Hf). destruct (_ || _).
  - destruct (f.2 !! asset); [|done]. by destruct (_ <=? _)%Z.
  - unfold floors_ok, bump_max in *. simpl. by rewrite dom_insert_L, Hf.
Qed.

Lemma apply_failed_remove_ok f e : floors_ok f → floors_ok (apply_failed_remove f e).
Proof.
  intros Hf. destruct e as [asset ts]. unfold apply_failed_remove.
  pose proof (clear_floor_ok asset f Hf). destruct (f.2 !! asset); [|done]. by destruct (_ <? _)%Z.
Qed.

Lemma apply_patch_ok entry patch : entry_ok (apply_patch entry patch).
Proof.
  split; [done|]. intros pk fail mat. unfold apply_patch. cbn [pse_failed_timestamps pse_timestamps].
  rewrite map_lookup_filter_Some. intros (_ & _ & Hs) Ht. unfold is_superseded in Hs.
  cbn [fst snd] in Hs. rewrite Ht in Hs. lia.
Qed.

Lemma apply_partition_patches_ok m patches :
  map_Forall (λ _, entry_ok) m → map_Forall (λ _, entry_ok) (apply_partition_patches m patches).
Proof.
  apply foldl_keeps. intros m' e Hm. apply map_Forall_insert_2; [|done]. apply apply_patch_ok.
Qed.

(** Slot maps *)
Lemma slot_of_insert {V} (m : SlotMap V) a s v a' s' :
  slot_of (slot_insert a s v m) a' s'
  = if bool_decide (a = a' ∧ s = s') then Some v else slot_of m a' s'.
Proof.
  unfold slot_of, slot_insert. destruct (decide (a = a')) as [->|Ha].
  - rewrite lookup_insert_eq. simpl. destruct (decide (s = s')) as [->|Hs].
    + by rewrite lookup_insert_eq, bool_decide_true.
    + rewrite lookup_insert_ne, bool_decide_false by naive_solver. by destruct (m !! a').
  - rewrite lookup_insert_ne, bool_decide_false by naive_solver. done.
Qed.

Lemma slot_of_remove {V} (m : SlotMap V) a s a' s' :
  slot_of (slot_remove a s m) a' s'
  = if bool_decide (a = a' ∧ s = s') then None else slot_of m a' s'.
Proof.
  unfold slot_of, slot_remove. destruct (decide (a = a')) as [->|Ha].
  - rewrite lookup_alter_eq. destruct (m !! a') as [slots|]; simpl; [|by case_bool_decide].
    destruct (decide (s = s')) as [->|Hs].
    + by rewrite lookup_delete_eq, bool_decide_true.
    + by rewrite lookup_delete_ne, bool_decide_false by naive_solver.
  - by rewrite lookup_alter_ne, bool_decide_false by naive_solver.
Qed.

Lemma update_last_run_maps_ok asset slot ts tags names m :
  last_runs_ok m → last_runs_ok (update_last_run_maps asset slot ts tags names m).
Proof.
  intros [H1 H2]. unfold update_last_run_maps. cbv zeta.
  destruct (match lr_entry_ts m !! (asset, slot) with Some _ => _ | None => _ end); [done|].
  split; cbn [lr_names lr_entry_ts lr_tags]; intros a s.
  - rewrite slot_of_insert. destruct (decide ((asset, slot) = (a, s))) as [[= -> ->]|Hne].
    + rewrite bool_decide_true, lookup_insert_eq by done. by split; eauto.
    + rewrite bool_decide_false, lookup_insert_ne by naive_solver. apply H1.
  - intros tags' Ht. destruct (decide ((asset, slot) = (a, s))) as [[= -> ->]|Hne].
    + rewrite lookup_insert_eq. split; [|by eauto]. destruct tags as [|t tags].
      * rewrite slot_of_remove, bool_decide_true in Ht by done. done.
      * rewrite slot_of_insert, bool_decide_true in Ht by done. by injection Ht as <-.
    + rewrite lookup_insert_ne by done. apply H2. destruct tags.
      * by rewrite slot_of_remove, bool_decide_false in Ht by naive_solver.
      * by rewrite slot_of_insert, bool_decide_false in Ht by naive_solver.
Qed.

Lemma evict_slot_ok asset m slot : last_runs_ok m → last_runs_ok (evict_slot asset m slot).
Proof.
  intros [H1 H2]. split; cbn [evict_slot lr_names lr_entry_ts lr_tags]; intros a s.
  - rewrite slot_of_remove. destruct (decide ((asset, slot) = (a, s))) as [[= -> ->]|Hne].
    + by rewrite bool_decide_true, lookup_delete_eq by done.
    + rewrite bool_decide_false, lookup_delete_ne by naive_solver. apply H1.
  - intros tags. rewrite slot_of_remove.
    destruct (decide ((asset, slot) = (a, s))) as [[= -> ->]|Hne].
    + by rewrite bool_decide_true by done.
    + rewrite bool_decide_false, lookup_delete_ne by naive_solver. apply H2.
Qed.

Lemma apply_last_run_ok records overrides patches m u :
  last_runs_ok m → last_runs_ok (apply_last_run records overrides patches m u).
Proof.
  intros Hm. unfold apply_last_run. destruct (run_materialized_slot _ _ _ _ _ _); [|done].
  by apply update_last_run_maps_ok.
Qed.

Lemma apply_deletion_ok acc e : last_runs_ok acc.1 → last_runs_ok (apply_deletion acc e).1.
Proof.
  destruct acc as [m dels], e as [asset del]. simpl. apply foldl_keeps.
  intros. by apply evict_slot_ok.
Qed.

(** Whatever a refresh fetched, applying its delta keeps the cache consistent: the
    failed assets are exactly those with a failure floor, the failed partitions exactly
    those with a failure newer than their last materialization, every latest-run slot is
    dated and none holds an empty tag list, and no run below the cursor is remembered as
    applied. *)
Theorem apply_refresh_delta_ok d c : cache_ok c → cache_ok (apply_refresh_delta d c).2.
Proof.
  intros [H1 H2 H3 H4]. unfold apply_refresh_delta. cbv zeta.
  pose proof (foldl_keeps (λ acc, last_runs_ok acc.1) apply_deletion (deletion_supersessions d)
    (foldl (apply_last_run (foldl (λ m r, <[asset_key r := r]> m) (cc_records c) (record_updates d))
       (materialized_overrides d) (delta_partition_status d)) (cc_last_runs c) (last_run_updates d),
     cc_asset_deletion_ts c) apply_deletion_ok) as Hl.
  destruct (foldl apply_deletion _ _) as [lr dels]. destruct (foldl evict_phantom _ _) as [ip pend].
  split; cbn [snd cc_floors cc_partition_status cc_last_runs cc_applied_run_ids cc_last_seen_run_ts].
  - apply foldl_keeps; [apply apply_failed_remove_ok|]. apply foldl_keeps; [|done].
    intros. by apply apply_failed_add_ok.
  - by apply apply_partition_patches_ok.
  - apply Hl. apply foldl_keeps; [|done]. intros. by apply apply_last_run_ok.
  - intros r st. rewrite map_lookup_filter_Some. by intros [_ ?].
Qed.

(** ** Bookkeeping of dispatched runs *)

Lemma untrack_track a r pk (m : InProgressMap) :
  m !! a ≫= lookup r = None →
  untrack_in_progress_run a r (track_in_progress_run a r pk m) = clear_predispatch_mark a m.
Proof.
  intros Hr. unfold untrack_in_progress_run, track_in_progress_run, clear_predispatch_mark.
  rewrite lookup_insert_eq, delete_insert_eq.
  destruct (m !! a) as [runs|] eqn:Ha; simpl in *.
  - rewrite (delete_id runs r) by done. case_bool_decide; [by rewrite delete_insert_eq|].
    rewrite insert_insert_eq. by apply insert_id.
  - rewrite delete_empty, bool_decide_true, delete_insert_id by done. done.
Qed.

Lemma drop_push a r t (m : gmap string PendingRun) :
  (∀ p, m !! r = Some p → (a ∉ pending_asset_keys p) ∧ pending_asset_keys p ≠ []) →
  drop_pending a r (push_pending a r t m) = m.
Proof.
  intros Hp. unfold drop_pending, push_pending. rewrite lookup_insert_eq.
  cbn [pending_asset_keys first_seen_ts]. rewrite filter_app.
  rewrite filter_cons_False, filter_nil, app_nil_r by naive_solver.
  destruct (m !! r) as [p|] eqn:Hr; simpl.
  - destruct (Hp p eq_refl) as [Hnin Hne]. rewrite filter_id by (intros ? ? ->; done).
    destruct (pending_asset_keys p) as [|k ks] eqn:Hk; [done|]. rewrite <-Hk, insert_insert_eq.
    destruct p. by apply insert_id.
  - by apply delete_insert_id.
Qed.

(** A run can be rolled back from a cache that does not know it for this asset. *)
Record fresh_for (a r : string) (c : AssetConditionCache) : Prop := {
  ff_in_progress : cc_in_progress c !! a ≫= lookup r = None;
  ff_pending p : cc_pending_runs c !! r = Some p →
    (a ∉ pending_asset_keys p) ∧ pending_asset_keys p ≠ []
}.

(** Rolling back a dispatch undoes its registration: clearing a run just registered
    for an asset gives back the cache as it was before, less the asset's placeholder when
    that is all the asset had. *)
Theorem dispatch_rollback a r now pk c :
  fresh_for a r c →
  clear_dispatched_run a r (register_dispatched_run a r now pk c)
  = with_runs_in_flight c (clear_predispatch_mark a (cc_in_progress c)) (cc_pending_runs c).
Proof.
  intros [H1 H2]. unfold clear_dispatched_run, register_dispatched_run.
  cbn [with_runs_in_flight cc_in_progress cc_pending_runs]. by rewrite untrack_track, drop_push.
Qed.

(** ** The time-based evaluation subset *)
Definition cond_step (down : gmap string (list string)) (keys : gset string) (a b : string) : Prop :=
  b ∈ default [] (down !! a) ∧ b ∈ keys.

Lemma enqueue_new_spec keys downs S queue S' queue' :
  enqueue_new keys downs S queue = (S', queue') →
  ∃ new, queue' = queue ++ new ∧ S' = S ∪ list_to_set new ∧
    (∀ d, d ∈ new → d ∈ downs ∧ d ∈ keys) ∧ (∀ d, d ∈ downs → d ∈ keys → d ∈ S') ∧
    length new + size (keys ∖ S') = size (keys ∖ S).
Proof.
  revert S queue. induction downs as [|d downs IH]; intros S queue; simpl.
  - intros [= <- <-]. exists []. rewrite app_nil_r. split_and!; [done|set_solver|set_solver|set_solver|done].
  - destruct (bool_decide_reflect (d ∈ keys)) as [Hk|Hk];
      destruct (bool_decide_reflect (d ∈ S)) as [HS|HS]; simpl; intros He;
      destruct (IH _ _ He) as (new & -> & -> & H1 & H2 & H3).
    1, 3, 4: exists new; split_and!; [done|done|set_solver| |done];
      intros x [->|?]%elem_of_cons ?; set_solver.
    exists (d :: new). split_and!; [by rewrite <-app_assoc|set_solver|set_solver| |].
    + intros x [->|?]%elem_of_cons ?; set_solver.
    + simpl. replace (S ∪ ({[d]} ∪ list_to_set new)) with ({[d]} ∪ S ∪ list_to_set new : gset string)
        by set_solver.
      replace (keys ∖ S) with ({[d]} ∪ (keys ∖ ({[d]} ∪ S))).
      * pose proof (size_union (C:=gset string) {[d]} (keys ∖ ({[d]} ∪ S))) as Hu.
        rewrite size_singleton in Hu. rewrite Hu by set_solver. lia.
      * apply set_eq. intros x. destruct (decide (x = d)); set_solver.
Qed.

Section eval_set.
Context (down : gmap string (list string)) (keys : gset string) (start : list string).

Definition time_reach (k : string) : Prop := ∃ k0, k0 ∈ start ∧ rtc (cond_step down keys) k0 k.

(** Every reached key was queued; those already dequeued have their dependents in. *)
Record loop_ok (queue : list string) (S : gset string) : Prop := {
  lo_start k : k ∈ start → k ∈ S;
  lo_reach k : k ∈ S → time_reach k;
  lo_queue k : k ∈ queue → k ∈ S;
  lo_closed k d : k ∈ S → (k ∉ queue) → cond_step down keys k d → d ∈ S
}.

Lemma loop_ok_step k queue S S' queue' :
  enqueue_new keys (default [] (down !! k)) S queue = (S', queue') →
  loop_ok (k :: queue) S → loop_ok queue' S'.
Proof.
  intros (new & -> & -> & H1 & H2 & _)%enqueue_new_spec [Hs Hr Hq Hc]. split.
  - set_solver.
  - intros x [?|Hx]%elem_of_union; [by apply Hr|]. apply elem_of_list_to_set in Hx.
    destruct (Hr k) as (k0 & ? & ?); [set_solver|]. exists k0. split; [done|].
    eapply rtc_r; [done|]. by apply H1.
  - set_solver.
  - intros x d [Hx|Hx]%elem_of_union Hnq Hd; [|set_solver]. destruct (decide (x = k)) as [->|Hne].
    + apply H2; apply Hd.
    + apply elem_of_union_l. eapply (Hc x); [done|set_solver|done].
Qed.

Lemma eval_set_loop_spec fuel queue S :
  loop_ok queue S → length queue + size (keys ∖ S) ≤ fuel →
  ∃ X, eval_set_loop fuel down keys queue S = Some X ∧ loop_ok [] X.
Proof.
  revert queue S. induction fuel as [|fuel IH]; intros [|k queue] S Hok Hf;
    [by exists S|simpl in Hf; lia|by exists S|]. simpl.
  destruct (enqueue_new _ _ _ _) as [S' queue'] eqn:He. apply IH; [by eapply loop_ok_step|].
  apply enqueue_new_spec in He as (new & -> & _ & _ & _ & Hn). rewrite length_app. simpl in Hf. lia.
Qed.

Lemma loop_ok_done X : loop_ok [] X → ∀ k, k ∈ X ↔ time_reach k.
Proof.
  intros [Hs Hr _ Hc] k. split; [apply Hr|]. intros (k0 & Hk0 & Hk).
  revert k Hk. apply rtc_ind_r; [by apply Hs|]. intros x y _ Hxy IH.
  eapply Hc; [exact IH|by apply not_elem_of_nil|done].
Qed.
End eval_set.

Lemma list_to_set_mem (l : list string) k : k ∈ (list_to_set l : gset string) ↔ k ∈ l.
Proof. set_solver. Qed.

(** The subset evaluated on a tick without changes is exactly the conditioned assets
    reachable, through conditioned dependents, from an asset whose condition reads the
    clock; the worklist always finishes. *)
Theorem time_based_eval_set_exact c conditions :
  ∃ X, compute_time_based_eval_set c conditions = Some X ∧
  ∀ k, k ∈ X ↔ time_reach (cc_downstream_deps c) (list_to_set conditions.*1)
                 (time_based_keys conditions) k.
Proof.
  unfold compute_time_based_eval_set.
  destruct (eval_set_loop_spec (cc_downstream_deps c) (list_to_set conditions.*1)
    (time_based_keys conditions) (length (time_based_keys conditions) +
     size (list_to_set conditions.*1 : gset string)) (time_based_keys conditions)
    (list_to_set (time_based_keys conditions))) as (X & HX & Hok).
  - split; setoid_rewrite list_to_set_mem; [done| |done|done].
    intros k Hk. by exists k.
  - apply Nat.add_le_mono_l. apply subseteq_size. set_solver.
  - exists X. split; [done|]. by apply loop_ok_done.
Qed.

(** ** Examples *)
Definition ex_condition_cache (ip : InProgressMap) : AssetConditionCache :=
  {| cc_records := ∅; cc_edges := [("b", "a")]; cc_upstream_deps := {[ "b" := ["a"] ]};
     cc_downstream_deps := {[ "a" := ["b"] ]}; cc_in_progress := ip; cc_live_action_runs := ∅;
     cc_floors := ({[ "a" ]}, {[ "a" := 3%Z ]}); cc_asset_deletion_ts := ∅;
     cc_last_seen_run_ts := 4; cc_last_observation_ts := 4; cc_initialized := true;
     cc_partition_status := ∅; cc_backfill := {| backfill_assets := ∅; backfill_partition_keys := ∅ |};
     cc_last_runs := {| lr_tags := ∅; lr_names := ∅; lr_entry_ts := ∅ |};
     cc_tick_tags := ∅; cc_partitioned := ∅; cc_needs_tick_tags := false;
     cc_code_location_id := "default"; cc_pending_runs := ∅; cc_pending_grace_nanos := 1000;
     cc_applied_run_ids := {[ "r0" := 9%Z ]} |}.

(** A partition [k1] of [b] failed at 8, after being built at 5. *)
Definition ex_delta : RefreshDelta :=
  {| changed := true; clear_tick_accumulators := true; record_updates := [];
     in_progress_changes := [Push "b" "r1" None]; failed_adds := ∅; failed_removes := ∅;
     deletion_supersessions := []; materialized_overrides := ∅; last_run_updates := [];
     tick_tag_updates := [];
     delta_partition_status :=
       {[ "b" := {| fresh_timestamps := [(Single ["k1"], 5%Z)]; patch_in_progress := ∅;
                    patch_failed := {[ Single ["k1"] := 8%Z ]}; patch_deleted := ∅;
                    patch_last_runs := ∅ |} ]};
     action_partition_checks := ∅; delta_backfill := None; new_last_seen_run_ts := Some 6%Z;
     new_last_observation_ts := None; track_action_runs := []; untrack_action_runs := [];
     confirmed_pending := []; evicted_pending := []; applied_runs := [("r1", 7%Z)];
     backfill_ended_assets := [] |}.

Lemma ex_condition_cache_ok : cache_ok (ex_condition_cache ∅).
Proof.
  split.
  - reflexivity.
  - apply map_Forall_empty.
  - split; unfold slot_of; cbn [ex_condition_cache cc_last_runs lr_names lr_tags lr_entry_ts];
      intros a s; rewrite ?(lookup_empty a), ?(lookup_empty (a, s)).
    + by split; intros [].
    + by intros.
  - by apply map_Forall_singleton.
Qed.

Lemma apply_refresh_delta_ok_witness :
  cache_ok (apply_refresh_delta ex_delta (ex_condition_cache ∅)).2 ∧
  pse_failed <$> cc_partition_status (apply_refresh_delta ex_delta (ex_condition_cache ∅)).2 !! "b"
  = Some {[ Single ["k1"] ]}.
Proof.
  split; [apply (apply_refresh_delta_ok ex_delta (ex_condition_cache ∅) ex_condition_cache_ok)|].
  apply (bool_decide_unpack _). vm_compute. exact I.
Defined.

(** The placeholder of a planned asset goes with its failed dispatch. *)
Lemma ex_fresh : fresh_for "b" "r1" (ex_condition_cache {[ "b" := ∅ ]}).
Proof. split; [reflexivity|]. intros p. cbn. by rewrite lookup_empty. Qed.

Lemma dispatch_rollback_witness :
  cc_in_progress (clear_dispatched_run "b" "r1"
    (register_dispatched_run "b" "r1" 10 None (ex_condition_cache {[ "b" := ∅ ]}))) = ∅.
Proof.
  rewrite (dispatch_rollback "b" "r1" 10 None (ex_condition_cache {[ "b" := ∅ ]}) ex_fresh).
  reflexivity.
Defined.

(** * Failure floors after a refresh

    The runs a refresh sees pass through [apply_run_effects_to_delta] one by one, and
    the delta they leave is applied once. The theorem of this file says what that
    composition does to an asset's failure floor, in terms of the runs alone. *)
(** The newest of a cursor and a time, and of a list of times. *)
Definition newer (m : option Z) (t : Z) : Z := match m with Some old => Z.max old t | None => t end.
Definition newest (m : option Z) (l : list Z) : option Z := foldl (λ m t, Some (newer m t)) m l.

Lemma newer_idem m t : newer (Some (newer m t)) t = newer m t.
Proof. destruct m; simpl; lia. Qed.

Lemma newest_app m l1 l2 : newest m (l1 ++ l2) = newest (newest m l1) l2.
Proof. apply foldl_app. Qed.

Lemma newest_from m l :
  newest m l = match newest None l with Some t => Some (newer m t) | None => m end.
Proof.
  induction l as [|t l IH] using rev_ind; [done|]. rewrite !newest_app, IH. simpl.
  destruct (newest None l), m; simpl; f_equal; lia.
Qed.

Section floors.
Context (c : AssetConditionCache) (asset : string).

(** A materialize run whose outcome counts for the asset as a whole. *)
Definition counts_for (run : RunRecord) : bool :=
  bool_decide (asset ∈ rr_node_names run) && negb (run_is_action run) &&
  (bool_decide (rr_partition_key run = None) || negb (is_partitioned c asset)).

Definition times (s : RunStatus) (runs : list RunRecord) : list Z :=
  run_ts <$> filter (λ r, counts_for r = true ∧ rr_status r = s) runs.

(** What the runs of a refresh leave in the delta, from the delta before them. *)
Definition gather (d : RefreshDelta) (runs : list RunRecord) : RefreshDelta :=
  foldl (λ d run, (apply_run_effects_to_delta c run d).2) d runs.

(** The effects of one run on the asset's entries. *)
Lemma run_asset_effects_lookup run b names fa frm mo fa' frm' mo' :
  foldl (run_asset_effects c run b) (fa, frm, mo) names = (fa', frm', mo') →
  let hit := bool_decide (asset ∈ names) &&
             (bool_decide (rr_partition_key run = None) || negb (is_partitioned c asset)) in
  (fr_ts <$> fa' !! asset
   = if hit && b then Some (newer (fr_ts <$> fa !! asset) (run_ts run)) else fr_ts <$> fa !! asset) ∧
  (frm' !! asset = if hit && negb b then Some (newer (frm !! asset) (run_ts run)) else frm !! asset).
Proof.
  cbv zeta. revert fa frm mo. induction names as [|n names IH]; intros fa frm mo; cbn [foldl].
  { intros [= <- <- <-]. by rewrite bool_decide_false by apply not_elem_of_nil. }
  unfold run_asset_effects at 2. intros H. apply IH in H as [H1 H2]. rewrite H1, H2.
  destruct (decide (n = asset)) as [->|Hne].
  - rewrite (bool_decide_true (asset ∈ asset :: names)) by left. simpl.
    destruct (_ || _), b, (bool_decide (asset ∈ names)); simpl; unfold add_failure, bump_max;
      rewrite ?lookup_insert_eq; simpl; split; try done.
    all: try destruct (fa !! asset) as [e|]; try destruct (frm !! asset); simpl; try done.
    all: try (destruct (Z.ltb_spec (fr_ts e) (run_ts run)); simpl; f_equal; lia).
    all: f_equal; lia.
  - rewrite (bool_decide_ext (asset ∈ n :: names) (asset ∈ names)) by (rewrite elem_of_cons; naive_solver).
    destruct (_ || negb (is_partitioned c n)), b; simpl; unfold add_failure, bump_max;
      rewrite ?lookup_insert_ne by done; done.
Qed.

Lemma apply_run_effects_times run d :
  let d' := (apply_run_effects_to_delta c run d).2 in
  (fr_ts <$> failed_adds d' !! asset = newest (fr_ts <$> failed_adds d !! asset) (times Failure [run])) ∧
  (failed_removes d' !! asset = newest (failed_removes d !! asset) (times Success [run])).
Proof.
  cbv zeta. unfold apply_run_effects_to_delta, times, counts_for.
  rewrite !filter_cons, !filter_nil. destruct (run_is_action run).
  - rewrite !andb_false_r. destruct (negb _); repeat case_decide; naive_solver.
  - rewrite !andb_true_r. destruct (rr_status run) eqn:Hs; try (repeat case_decide; naive_solver).
    all: destruct (foldl _ _ _) as [[fa frm] mo] eqn:Hf;
      apply run_asset_effects_lookup in Hf as [H1 H2];
      cbn [snd with_run_effects failed_adds failed_removes]; rewrite H1, H2;
      destruct (bool_decide (asset ∈ _) && _); repeat case_decide; naive_solver.
Qed.

Lemma times_app s l1 l2 : times s (l1 ++ l2) = times s l1 ++ times s l2.
Proof. unfold times. by rewrite filter_app, fmap_app. Qed.

Lemma gather_times runs d :
  (fr_ts <$> failed_adds (gather d runs) !! asset
   = newest (fr_ts <$> failed_adds d !! asset) (times Failure runs)) ∧
  (failed_removes (gather d runs) !! asset
   = newest (failed_removes d !! asset) (times Success runs)).
Proof.
  revert d. induction runs as [|run runs IH]; intros d; [done|].
  destruct (apply_run_effects_times run d) as [H1 H2]. unfold gather. cbn [foldl].
  destruct (IH (apply_run_effects_to_delta c run d).2) as [H3 H4].
  unfold gather in H3, H4. rewrite H3, H4, H1, H2, <-!newest_app, <-!times_app. done.
Qed.

(** Where the entries come from: a recorded failure is a failing run's, an override a
    succeeding run's. *)
Record entries_from (bad good : string → Prop) (fa : gmap string FailedRun)
    (mo : gmap string (gset string)) : Prop := {
  ef_fail e : fa !! asset = Some e → fr_materialized e = false ∧ bad (fr_run_id e);
  ef_over ids r : mo !! asset = Some ids → r ∈ ids → good r
}.

Lemma run_asset_effects_from bad good run (b : bool) names fa frm mo fa' frm' mo' :
  (if b then bad (rr_run_id run) else good (rr_run_id run)) →
  entries_from bad good fa mo →
  foldl (run_asset_effects c run b) (fa, frm, mo) names = (fa', frm', mo') →
  entries_from bad good fa' mo'.
Proof.
  intros Hb. revert fa frm mo. induction names as [|n names IH]; intros fa frm mo Hok; cbn [foldl].
  { by intros [= <- _ <-]. }
  apply IH. clear IH. destruct Hok as [H1 H2]. destruct (decide (n = asset)) as [->|Hne].
  - split.
    + intros e. destruct b; rewrite ?andb_true_r, ?andb_false_r; [|by apply H1].
      destruct (_ || _); [|by apply H1]. unfold add_failure. rewrite lookup_insert_eq.
      intros [= <-]. destruct (fa !! asset) as [e|]; [|by simpl].
      destruct (H1 e eq_refl) as [??]. by destruct (_ <? _)%Z.
    + intros ids r. destruct b; [by apply H2|]. unfold add_override. rewrite lookup_insert_eq.
      intros [= <-] [->%elem_of_singleton|Hr]%elem_of_union; [done|].
      destruct (mo !! asset) eqn:Hm; simpl in Hr; [by eapply H2|set_solver].
  - split.
    + intros e. destruct (_ && b); [|by apply H1]. unfold add_failure.
      rewrite lookup_insert_ne by done. by apply H1.
    + intros ids r. destruct b; [by apply H2|]. unfold add_override.
      rewrite lookup_insert_ne by done. by apply H2.
Qed.

Lemma gather_from bad good runs d :
  (∀ r, r ∈ runs → (rr_status r = Failure → bad (rr_run_id r)) ∧
                   (rr_status r = Success → good (rr_run_id r))) →
  entries_from bad good (failed_adds d) (materialized_overrides d) →
  entries_from bad good (failed_adds (gather d runs)) (materialized_overrides (gather d runs)).
Proof.
  revert d. induction runs as [|run runs IH]; intros d Hr Hd; [done|].
  unfold gather. cbn [foldl]. apply IH; [intros; apply Hr; by right|].
  destruct (Hr run) as [Hb Hg]; [by left|]. unfold apply_run_effects_to_delta.
  destruct (run_is_action run); [by destruct (negb _)|].
  destruct (rr_status run); try done;
    destruct (foldl _ _ _) as [[fa frm] mo] eqn:Hf; simpl;
    (eapply run_asset_effects_from; [|exact Hd|exact Hf]); simpl; by auto.
Qed.

Lemma gather_records runs d : record_updates (gather d runs) = record_updates d.
Proof.
  unfold gather. apply (foldl_keeps (λ d', record_updates d' = record_updates d)); [|done].
  intros d' run <-. unfold apply_run_effects_to_delta.
  destruct (run_is_action run); [by destruct (negb _)|].
  by destruct (rr_status run); try done; destruct (foldl _ _ _) as [[??]?].
Qed.

(** A fold of keyed writes acts on [asset] once, when the map has it. *)
Lemma foldl_keyed {V} (step : Floors → string * V → Floors) (g : option Z → V → option Z)
    (m : gmap string V) f :
  (∀ f k v, k ≠ asset → (step f (k, v)).2 !! asset = f.2 !! asset) →
  (∀ f v, m !! asset = Some v → (step f (asset, v)).2 !! asset = g (f.2 !! asset) v) →
  (foldl step f (map_to_list m)).2 !! asset
  = match m !! asset with Some v => g (f.2 !! asset) v | None => f.2 !! asset end.
Proof.
  intros Hother Hself. rewrite <-(list_to_map_to_list m).
  assert (Hl : ∀ v, (asset, v) ∈ map_to_list m → m !! asset = Some v)
    by (intros v; by rewrite elem_of_map_to_list).
  pose proof (NoDup_fst_map_to_list m) as Hnd. rewrite list_to_map_to_list at 1.
  revert f Hl Hnd. generalize (map_to_list m). intros l.
  induction l as [|[k v] l IH]; intros f Hl Hnd; [done|]. simpl in *.
  apply NoDup_cons in Hnd as [Hk Hnd]. rewrite IH; [|intros; apply Hl; by right|done].
  destruct (decide (k = asset)) as [->|Hne].
  - rewrite lookup_insert_eq, not_elem_of_list_to_map_1 by done. apply Hself, Hl. by left.
  - by rewrite lookup_insert_ne, Hother by done.
Qed.

(** The floor the runs leave: the newest failure, unless a success is at least as new. *)
Definition floor_after (old : option Z) (fails succs : list Z) : option Z :=
  match newest old fails with
  | Some f => match newest None succs with
              | Some s => if (s <? f)%Z then Some f else None
              | None => Some f
              end
  | None => None
  end.

Lemma apply_failed_add_other records overrides f k v :
  k ≠ asset → (apply_failed_add records overrides f (k, v)).2 !! asset = f.2 !! asset.
Proof.
  intros Hne. unfold apply_failed_add, clear_floor, bump_max.
  destruct (_ || _); [destruct (f.2 !! k); [destruct (_ <=? _)%Z|]|]; simpl;
    by rewrite ?lookup_insert_ne, ?lookup_delete_ne by done.
Qed.

Lemma apply_failed_remove_other f k v :
  k ≠ asset → (apply_failed_remove f (k, v)).2 !! asset = f.2 !! asset.
Proof.
  intros Hne. unfold apply_failed_remove, clear_floor.
  destruct (f.2 !! k); [destruct (_ <? _)%Z|]; simpl; by rewrite ?lookup_delete_ne by done.
Qed.

(** Nothing of the refresh yet about the asset, and the runs are told apart by their ids:
    no failing run is the one that last materialized the asset, nor a succeeding one. *)
Record refresh_of (runs : list RunRecord) (d : RefreshDelta) : Prop := {
  ro_adds : failed_adds d !! asset = None;
  ro_removes : failed_removes d !! asset = None;
  ro_overrides : materialized_overrides d !! asset = None;
  ro_last r : r ∈ runs → rr_status r = Failure →
    foldl (λ m r, <[asset_key r := r]> m) (cc_records c) (record_updates d) !! asset
      ≫= last_run_id ≠ Some (rr_run_id r);
  ro_ids r r' : r ∈ runs → r' ∈ runs → rr_status r = Failure → rr_status r' = Success →
    rr_run_id r ≠ rr_run_id r'
}.

Lemma gathered_not_materialized runs d e :
  refresh_of runs d → failed_adds (gather d runs) !! asset = Some e →
  fr_materialized e = false ∧
  run_materialized_asset
    (foldl (λ m r, <[asset_key r := r]> m) (cc_records c) (record_updates (gather d runs)))
    asset (fr_run_id e) (materialized_overrides (gather d runs)) = false.
Proof.
  intros [Ha Hr Ho Hlast Hids] He. rewrite gather_records.
  destruct (gather_from (λ id, ∃ r, r ∈ runs ∧ rr_status r = Failure ∧ rr_run_id r = id)
    (λ id, ∃ r, r ∈ runs ∧ rr_status r = Success ∧ rr_run_id r = id) runs d) as [H1 H2].
  - intros r Hin. split; intros; by exists r.
  - split; congruence.
  - destruct (H1 e He) as [Hm (r & Hin & Hs & Hid)]. split; [done|].
    unfold run_materialized_asset. rewrite bool_decide_false by (rewrite <-Hid; by apply Hlast).
    simpl. destruct (materialized_overrides (gather d runs) !! asset) as [ids|] eqn:Hm'; [|done].
    apply bool_decide_false. intros Hin'.
    destruct (H2 _ _ eq_refl Hin') as (r' & Hr' & Hs' & Hid'). apply (Hids r r'); congruence.
Qed.

(** After a refresh, the failure floor of an asset is decided by its runs alone: it is
    the newest of the floor before and the failures seen, and it is gone when a success
    seen is at least as new. *)
Theorem failure_floor_exact runs d :
  refresh_of runs d →
  (cc_floors (apply_refresh_delta (gather d runs) c).2).2 !! asset
  = floor_after ((cc_floors c).2 !! asset) (times Failure runs) (times Success runs).
Proof.
  intros Hro. pose proof (gather_times runs d) as [Hf Hs].
  pose proof (gathered_not_materialized runs d) as Hnm.
  rewrite (ro_adds _ _ Hro) in Hf. change (fr_ts <$> None) with (@None Z) in Hf.
  rewrite (ro_removes _ _ Hro) in Hs.
  unfold apply_refresh_delta. cbv zeta.
  destruct (foldl apply_deletion _ _) as [lr dels]. destruct (foldl evict_phantom _ _) as [ip pend].
  cbn [snd cc_floors].
  rewrite (foldl_keyed _ (λ o s, match o with Some f => if (s <? f)%Z then Some f else None
                                             | None => None end));
    [|intros; by apply apply_failed_remove_other|].
  2: { intros f s _. unfold apply_failed_remove, clear_floor.
       destruct (f.2 !! asset) eqn:E; [destruct (_ <? _)%Z|]; simpl; by rewrite ?lookup_delete_eq. }
  rewrite (foldl_keyed _ (λ o e, Some (newer o (fr_ts e))));
    [|intros; by apply apply_failed_add_other|].
  2: { intros f e He. destruct (Hnm e Hro He) as [H1 H2]. unfold apply_failed_add.
       rewrite H1, H2. cbn [orb snd]. unfold bump_max. by rewrite lookup_insert_eq. }
  rewrite Hs. unfold floor_after. rewrite (newest_from _ (times Failure runs)), <-Hf.
  destruct (failed_adds (gather d runs) !! asset) as [e|]; simpl;
    destruct (newest None (times Success runs)), ((cc_floors c).2 !! asset); done.
Qed.
End floors.

(** ** Examples *)

(** A failure at 7 after one at 5: the asset is failed since 7; a success at 8 clears it. *)
Definition ex_run (id : string) (s : RunStatus) (t : Z) : RunRecord :=
  {| rr_run_id := id; rr_code_location_id := "default"; rr_job_name := None; rr_status := s;
     rr_start_time := t; rr_end_time := Some t; rr_tags := []; rr_node_names := ["a"];
     rr_priority := 0; rr_partition_key := None; rr_block_reason := None; rr_action := None;
     rr_config := None |}.

Definition ex_runs : list RunRecord :=
  [ex_run "r2" Failure 7; ex_run "r1" Failure 5; ex_run "r3" Success 6].

Lemma ex_refresh_of : refresh_of (ex_condition_cache ∅) "a" ex_runs ex_delta.
Proof.
  split; [done|done|done| |]; unfold ex_runs; set_unfold; intros; naive_solver.
Qed.

Lemma failure_floor_exact_witness :
  (cc_floors (apply_refresh_delta (gather (ex_condition_cache ∅) ex_delta ex_runs)
                (ex_condition_cache ∅)).2).2 !! "a" = Some 7%Z.
Proof. rewrite (failure_floor_exact (ex_condition_cache ∅) "a" ex_runs ex_delta ex_refresh_of). reflexivity. Defined.
