(* ===== verification/TimeGrid.v ===== *)
(** * Time-window grids (rust/rivers-core/src/timegrid.rs, parse_key_datetime of util.rs)

    The grid of a time-window partition definition: shifting a key, enumerating the
    window starts of a range, the windows around an instant.

    A [civil::DateTime] is its number of nanoseconds on the wall clock from
    1970-01-01T00:00:00, within the range of jiff; a [SignedDuration] is its number of
    nanoseconds. Parsing and printing datetimes (jiff) and the occurrences of a cron
    schedule (croner) are the classes [JiffText] and [CronGrid]. [end_bound] reads the
    wall clock, which is the argument [clock]. An interval is an [f64]; its product with
    1e9 is rounded by the IEEE semantics of [SpecFloat], and the cast saturates. *)

From S2P Require Import Prelude PartitionKey Selection.
From Stdlib Require Import SpecFloat.

(** ** Machine arithmetic *)
Abbreviation DateTime := Z (only parsing).

Definition i64_min : Z := -2 ^ 63.
Definition i64_max : Z := 2 ^ 63 - 1.

Definition checked_i64 (z : Z) : option Z :=
  if ((i64_min <=? z) && (z <=? i64_max))%Z then Some z else None.

(** -9999-01-01T00:00:00 and 9999-12-31T23:59:59.999999999 *)
Definition dt_min : DateTime := -377705116800 * 10 ^ 9.
Definition dt_max : DateTime := 253402300800 * 10 ^ 9 - 1.

Definition in_civil_range (t : Z) : bool := ((dt_min <=? t) && (t <=? dt_max))%Z.

(** [dt.checked_add(SignedDuration::from_nanos(d)).ok()] *)
Definition checked_add (dt : DateTime) (d : Z) : option DateTime :=
  if in_civil_range (dt + d) then Some (dt + d)%Z else None.

Definition nanos_between (start dt : DateTime) : option Z := checked_i64 (dt - start).

(** [x as i64]: truncation, saturation, 0 for NaN *)
Definition f64_as_i64 (x : spec_float) : Z :=
  let clamp z := Z.max i64_min (Z.min i64_max z) in
  match x with
  | S754_zero _ | S754_nan => 0
  | S754_infinity s => if s then i64_min else i64_max
  | S754_finite s m e =>
      let a := if (0 <=? e)%Z then (Z.pos m * 2 ^ e)%Z else (Z.pos m / 2 ^ (- e))%Z in
      clamp (if s then - a else a)%Z
  end.

Definition f64_billion : spec_float := S754_finite false 8388608000000000 (-23).

(** [(secs * 1_000_000_000.0) as i64] *)
Definition nanos_of_secs (secs : spec_float) : Z := f64_as_i64 (SFmul 53 1024 secs f64_billion).

(** ** jiff and croner *)
Class JiffText := {
  BrokenDownTime : Type;
  (** [BrokenDownTime::parse(fmt, key).ok()] *)
  bdt_parse : string → string → option BrokenDownTime;
  (** [tm.timestamp()], as a UTC wall clock *)
  bdt_timestamp : BrokenDownTime → option DateTime;
  bdt_to_datetime : BrokenDownTime → option DateTime;
  bdt_month : BrokenDownTime → option Z;
  bdt_day : BrokenDownTime → option Z;
  bdt_set_month : Z → BrokenDownTime → option BrokenDownTime;
  bdt_set_day : Z → BrokenDownTime → option BrokenDownTime;
  (** [dt.strftime(fmt).to_string()] *)
  strftime : string → DateTime → string
}.

Inductive Direction := Forward | Backward.

Class CronGrid := {
  GridCron : Type;
  (** [parse_cron(expr).ok()] *)
  try_parse_cron : string → option GridCron;
  (** the [n]-th item of [cron.iter_from(dt, direction)] *)
  iter_from : GridCron → DateTime → Direction → nat → option DateTime
}.

(** [if field.is_none() { set_field(Some(1))? }] *)
Definition unless_set {T} (field : T → option Z) (set_field : T → option T) (tm : T) : option T :=
  match field tm with Some _ => Some tm | None => set_field tm end.

Definition parse_key_datetime `{JiffText} (key fmt : string) : option DateTime :=
  tm ← bdt_parse fmt key;
  match bdt_timestamp tm with
  | Some dt => Some dt
  | None =>
      match bdt_to_datetime tm with
      | Some dt => Some dt
      | None =>
          tm ← unless_set bdt_month (bdt_set_month 1) tm;
          tm ← unless_set bdt_day (bdt_set_day 1) tm;
          bdt_to_datetime tm
      end
  end.

(** ** The grid *)
Record TimeGridDef := {
  cron_schedule : option string;
  interval_seconds : option spec_float;
  grid_start : DateTime;
  grid_end : option DateTime;
  grid_fmt : string
}.

Inductive GridError :=
| InvalidKey | OutOfRange | NonPositiveInterval | OffsetOverflow | InvalidCron | NoSchedule.

(** [tick.with().subsec_nanosecond(0).build().unwrap_or(tick)] *)
Definition cron_tick_civil (tick : DateTime) : DateTime := tick - tick mod 10 ^ 9.

(** [while inside t { push(t); t = t + step }], stopping where [t + step] is out of range. *)
Fixpoint tick_walk (fuel : nat) (step : Z) (inside : DateTime → bool) (t : DateTime) : list DateTime :=
  match fuel with
  | O => []
  | S fuel =>
      if inside t
      then t :: match checked_add t step with
                | Some next => tick_walk fuel step inside next
                | None => []
                end
      else []
  end.

(** Enough iterations from [t] to beyond [to]. *)
Definition walk_fuel (step t to : Z) : nat := Z.to_nat ((to - t) / step + 2).

(** The cron loops, from item [i] of the iterator. *)
Fixpoint cron_take (fuel : nat) (it : nat → option DateTime) (i : nat) (from : DateTime)
    (past : DateTime → bool) : list DateTime :=
  match fuel with
  | O => []
  | S fuel =>
      match it i with
      | None => []
      | Some tick =>
          let t := cron_tick_civil tick in
          if (t <? from)%Z then cron_take fuel it (S i) from past
          else if past t then []
          else t :: cron_take fuel it (S i) from past
      end
  end.

Fixpoint cron_nth (fuel : nat) (it : nat → option DateTime) (i : nat) (dt : DateTime)
    (remaining : Z) : option DateTime :=
  match fuel with
  | O => None
  | S fuel =>
      tick ← it i;
      if (tick =? dt)%Z then cron_nth fuel it (S i) dt remaining
      else if (remaining - 1 =? 0)%Z then Some tick
      else cron_nth fuel it (S i) dt (remaining - 1)
  end.

(** [.map(cron_tick_civil).find(pred)] *)
Fixpoint cron_find (fuel : nat) (it : nat → option DateTime) (i : nat) (pred : DateTime → bool)
    : option DateTime :=
  match fuel with
  | O => None
  | S fuel =>
      tick ← it i;
      if pred (cron_tick_civil tick) then Some (cron_tick_civil tick)
      else cron_find fuel it (S i) pred
  end.

(** Occurrences are at least one second apart: one iteration per second of the range,
    and the ones around its ends. *)
Definition cron_fuel (anchor to : DateTime) : nat := Z.to_nat ((to - anchor) / 10 ^ 9 + 4).

(** [from.checked_sub(SignedDuration::from_secs(1)).unwrap_or(from)] *)
Definition cron_anchor (from : DateTime) : DateTime := default from (checked_add from (- 10 ^ 9)).

Section grid.
Context {J : JiffText} {K : CronGrid} (clock : DateTime) (g : TimeGridDef).

Definition end_bound : DateTime := default clock (grid_end g).

Definition key_at (t : DateTime) : string := strftime (grid_fmt g) t.

Definition shift_datetime (dt : DateTime) (offset : Z) : DateTime + GridError :=
  match interval_seconds g with
  | Some secs =>
      let interval_ns := nanos_of_secs secs in
      if (interval_ns <=? 0)%Z then inr NonPositiveInterval
      else match checked_i64 (interval_ns * offset) with
           | None => inr OffsetOverflow
           | Some total =>
               match checked_add dt total with Some t => inl t | None => inr OutOfRange end
           end
  | None =>
      match cron_schedule g with
      | Some expr =>
          match try_parse_cron expr with
          | None => inr InvalidCron
          | Some cron =>
              let direction := if (0 <? offset)%Z then Forward else Backward in
              match cron_nth (S (Z.to_nat (Z.abs offset))) (iter_from cron dt direction) 0 dt
                      (Z.abs offset) with
              | Some t => inl t
              | None => inr OutOfRange
              end
          end
      | None => inr NoSchedule
      end
  end.

Definition grid_shift_key (key : string) (offset : Z) : string + GridError :=
  match parse_key_datetime key (grid_fmt g) with
  | None => inr InvalidKey
  | Some dt =>
      if (offset =? 0)%Z then inl key
      else match shift_datetime dt offset with
           | inr e => inr e
           | inl shifted =>
               if (shifted <? grid_start g)%Z || (end_bound <=? shifted)%Z then inr OutOfRange
               else inl (key_at shifted)
           end
  end.

(** The first tick of the interval walk of [keys_in_range]. *)
Definition snap_up (interval_ns : Z) (from : DateTime) : option DateTime :=
  if (from <=? grid_start g)%Z then Some (grid_start g)
  else
    let offset_ns := default 0%Z (nanos_between (grid_start g) from) in
    let rem := (offset_ns mod interval_ns)%Z in
    if (rem =? 0)%Z then Some from
    else checked_add (grid_start g) (i64_wrap (offset_ns - rem + interval_ns)).

Definition times_in_range (from to : DateTime) : list DateTime + GridError :=
  if (to <? from)%Z then inl []
  else
    match interval_seconds g with
    | Some secs =>
        let interval_ns := nanos_of_secs secs in
        if (interval_ns <=? 0)%Z then inr NonPositiveInterval
        else match snap_up interval_ns from with
             | Some t => inl (tick_walk (walk_fuel interval_ns t to) interval_ns (λ t, (t <=? to)%Z) t)
             | None => inl []
             end
    | None =>
        match cron_schedule g with
        | Some expr =>
            match try_parse_cron expr with
            | None => inr InvalidCron
            | Some cron =>
                let anchor := cron_anchor from in
                inl (cron_take (cron_fuel anchor to) (iter_from cron anchor Forward) 0 from
                       (λ t, (to <? t)%Z))
            end
        | None => inr NoSchedule
        end
    end.

Definition keys_of (r : list DateTime + GridError) : list string + GridError :=
  match r with inl ts => inl (key_at <$> ts) | inr e => inr e end.

Definition keys_in_range (from to : DateTime) : list string + GridError :=
  keys_of (times_in_range from to).

(** [start + idx * interval], where both steps are representable. *)
Definition grid_tick (interval_ns idx : Z) : option DateTime :=
  ns ← checked_i64 (idx * interval_ns); checked_add (grid_start g) ns.

Definition first_idx (interval_ns offset_ns : Z) : Z :=
  offset_ns / interval_ns + (if (offset_ns mod interval_ns =? 0)%Z then 0 else 1).

Definition window_times (from to : DateTime) : list DateTime + GridError :=
  let from := Z.max from (grid_start g) in
  let to := Z.min to end_bound in
  if (to <=? from)%Z then inl []
  else
    match interval_seconds g with
    | Some secs =>
        let interval_ns := nanos_of_secs secs in
        if (interval_ns <=? 0)%Z then inr NonPositiveInterval
        else
          match nanos_between (grid_start g) from with
          | None => inl []
          | Some offset_ns =>
              match grid_tick interval_ns (first_idx interval_ns offset_ns) with
              | Some t => inl (tick_walk (walk_fuel interval_ns t to) interval_ns (λ t, (t <? to)%Z) t)
              | None => inl []
              end
          end
    | None =>
        match cron_schedule g with
        | Some expr =>
            match try_parse_cron expr with
            | None => inr InvalidCron
            | Some cron =>
                let anchor := cron_anchor from in
                inl (cron_take (cron_fuel anchor to) (iter_from cron anchor Forward) 0 from
                       (λ t, (to <=? t)%Z))
            end
        | None => inr NoSchedule
        end
    end.

Definition window_starts_in (from to : DateTime) : list string + GridError :=
  keys_of (window_times from to).

Definition opt_filter {A} (p : A → bool) (o : option A) : option A :=
  x ← o; if p x then Some x else None.

Definition nearest_times (dt : DateTime) : option DateTime * option DateTime :=
  let end_dt := end_bound in
  match interval_seconds g with
  | Some secs =>
      let interval_ns := nanos_of_secs secs in
      if (interval_ns <=? 0)%Z then (None, None)
      else
        let tick := grid_tick interval_ns in
        let prev :=
          last ← checked_add end_dt (-1);
          cap ← opt_filter (λ cap, (grid_start g <=? cap)%Z) (Some (Z.min dt last));
          ns ← nanos_between (grid_start g) cap;
          tick (ns / interval_ns)%Z in
        let next :=
          if (dt <? grid_start g)%Z then Some (grid_start g)
          else ns ← nanos_between (grid_start g) dt;
               idx ← checked_i64 (ns / interval_ns + 1);
               tick idx in
        (prev, opt_filter (λ t, (t <? end_dt)%Z) next)
  | None =>
      match cron_schedule g with
      | Some expr =>
          match try_parse_cron expr with
          | None => (None, None)
          | Some cron =>
              (opt_filter (λ t, (grid_start g <=? t)%Z)
                 (cron_find 2 (iter_from cron (Z.min dt end_dt) Backward) 0
                    (λ t, (t <=? dt)%Z && (t <? end_dt)%Z)),
               opt_filter (λ t, (t <? end_dt)%Z)
                 (cron_find 2 (iter_from cron (Z.max dt (grid_start g)) Forward) 0
                    (λ t, (dt <? t)%Z)))
          end
      | None => (None, None)
      end
  end.

Definition nearest_keys (dt : DateTime) : option string * option string :=
  let '(prev, next) := nearest_times dt in (key_at <$> prev, key_at <$> next).
End grid.

(** The grid of a time-window mapping, as partition.rs uses it. *)
Definition time_grid_ops {J : JiffText} {K : CronGrid} (clock : DateTime) : GridOps :=
  {| TimeGrid := TimeGridDef;
     shift_key g key offset :=
       match grid_shift_key clock g key offset with inl k => Some k | inr _ => None end |}.
