(* ===== verification/TimeGridTheorems.v ===== *)
(** * Time-window grids enumerate exactly their ticks

    For an interval grid, the range enumerations, the neighbours of an instant and the
    shift of a key are what the grid [start + k * interval] says, with the bounds within
    which the 64-bit nanosecond arithmetic cannot lose a tick; for any grid, enumerating
    a range in consecutive pieces gives the enumeration of the whole. *)

From S2P Require Import Prelude PartitionKey Selection TimeGrid.
From Stdlib Require Import SpecFloat.
#[local] Open Scope Z_scope.

(** Increasing lists of the same elements are equal. *)
Lemma sorted_lt_NoDup (l : list Z) : StronglySorted Z.lt l → NoDup l.
Proof.
  induction 1 as [|x l _ IH Hx]; constructor; [|done]. intros Hin.
  rewrite Forall_forall in Hx. specialize (Hx x Hin). lia.
Qed.

Lemma sorted_lt_eq (l1 l2 : list Z) :
  StronglySorted Z.lt l1 → StronglySorted Z.lt l2 → (∀ x, x ∈ l1 ↔ x ∈ l2) → l1 = l2.
Proof.
  intros H1 H2 Heq. assert (AntiSymm eq Z.lt) by (intros ???; lia).
  apply (StronglySorted_unique Z.lt); [done|done|].
  apply NoDup_Permutation; [by apply sorted_lt_NoDup..|done].
Qed.

Lemma checked_i64_Some z z' : checked_i64 z = Some z' ↔ z' = z ∧ i64_min ≤ z ≤ i64_max.
Proof.
  unfold checked_i64. destruct (Z.leb_spec i64_min z), (Z.leb_spec z i64_max); simpl;
    split; intros; simplify_eq; try lia; f_equal; lia.
Qed.

Lemma checked_i64_None z : checked_i64 z = None ↔ z < i64_min ∨ i64_max < z.
Proof.
  unfold checked_i64. destruct (Z.leb_spec i64_min z), (Z.leb_spec z i64_max); simpl;
    split; intros; simplify_eq; try lia; done.
Qed.

Lemma checked_add_Some t d t' : checked_add t d = Some t' ↔ t' = t + d ∧ dt_min ≤ t + d ≤ dt_max.
Proof.
  unfold checked_add, in_civil_range. destruct (Z.leb_spec dt_min (t + d)), (Z.leb_spec (t + d) dt_max);
    simpl; split; intros; simplify_eq; try lia; f_equal; lia.
Qed.

Lemma checked_add_None t d : checked_add t d = None ↔ t + d < dt_min ∨ dt_max < t + d.
Proof.
  unfold checked_add, in_civil_range. destruct (Z.leb_spec dt_min (t + d)), (Z.leb_spec (t + d) dt_max);
    simpl; split; intros; simplify_eq; try lia; done.
Qed.

(** ** The interval walk *)
Lemma tick_walk_spec fuel step inside to t :
  0 < step → dt_min ≤ t → to ≤ dt_max + 1 → (∀ x, inside x = (x <? to)) →
  (to - t) / step + 1 ≤ Z.of_nat fuel →
  StronglySorted Z.lt (tick_walk fuel step inside t) ∧
  ∀ x, x ∈ tick_walk fuel step inside t ↔ ∃ k, 0 ≤ k ∧ x = t + k * step ∧ x < to.
Proof.
  intros Hstep Hmin Hmax Hin. revert t Hmin. induction fuel as [|fuel IH]; intros t Hmin Hf; simpl.
  { split; [constructor|]. intros x. split; [by intros ?%not_elem_of_nil|].
    intros (k & Hk & -> & Hlt). assert (0 ≤ (to - t) / step); [|lia].
    apply Z.div_pos; nia. }
  rewrite Hin. destruct (Z.ltb_spec t to) as [Hlt|Hge].
  2: { split; [constructor|]. intros x. split; [by intros ?%not_elem_of_nil|].
       intros (k & Hk & -> & ?). nia. }
  destruct (checked_add t step) as [next|] eqn:Hn.
  - apply checked_add_Some in Hn as [-> Hr].
    assert (Hd : (to - (t + step)) / step = (to - t) / step - 1).
    { replace (to - (t + step)) with (to - t + (-1) * step) by lia. rewrite Z.div_add by lia. lia. }
    destruct (IH (t + step)) as [Hs Hx]; [lia|lia|]. split.
    + constructor; [done|]. apply Forall_forall. intros x (k & Hk & -> & _)%Hx. nia.
    + intros x. rewrite elem_of_cons, Hx. split.
      * intros [->|(k & Hk & -> & ?)]; [exists 0; lia|]. exists (k + 1). nia.
      * intros (k & Hk & -> & ?). destruct (decide (k = 0)) as [->|]; [left; lia|].
        right. exists (k - 1). nia.
  - apply checked_add_None in Hn. split; [by repeat constructor|]. intros x.
    rewrite list_elem_of_singleton. split; [intros ->; exists 0; lia|].
    intros (k & Hk & -> & ?). destruct (decide (k = 0)) as [->|]; [lia|]. nia.
Qed.

Lemma walk_fuel_enough step t to bound :
  0 < step → to - 1 ≤ bound → (to - t) / step + 1 ≤ Z.of_nat (walk_fuel step t bound).
Proof.
  intros Hs Hb. unfold walk_fuel.
  assert ((to - t) / step ≤ (bound - t) / step + 1); [|lia].
  replace ((bound - t) / step + 1) with ((bound - t + 1 * step) / step) by (rewrite Z.div_add; lia).
  apply Z.div_le_mono; lia.
Qed.

(** ** Interval grids *)
Record interval_grid (g : TimeGridDef) (i : Z) : Prop := {
  ig_secs : ∃ secs, interval_seconds g = Some secs ∧ nanos_of_secs secs = i;
  ig_pos : 0 < i;
  ig_start : dt_min ≤ grid_start g ≤ dt_max
}.

Definition on_grid (g : TimeGridDef) (i x : Z) : Prop := ∃ k, 0 ≤ k ∧ x = grid_start g + k * i.

Section interval.
Context {J : JiffText} {K : CronGrid} (clock : Z) (g : TimeGridDef) (i : Z).
Hypothesis Hg : interval_grid g i.

(** The ticks from a tick on. *)
Lemma on_grid_from t x :
  on_grid g i t → (∃ k, 0 ≤ k ∧ x = t + k * i) ↔ on_grid g i x ∧ t ≤ x.
Proof.
  intros (k0 & H0 & ->). pose proof (ig_pos _ _ Hg). split.
  - intros (k & Hk & ->). split; [exists (k0 + k); lia|nia].
  - intros [(k & Hk & ->) Hle]. exists (k - k0). nia.
Qed.

(** [t] is the first tick at or after [from]. *)
Definition is_first (from t : Z) : Prop :=
  on_grid g i t ∧ from ≤ t ∧ ∀ x, on_grid g i x → from ≤ x → t ≤ x.

Lemma is_first_least from t x : is_first from t → on_grid g i x → from ≤ x ↔ t ≤ x.
Proof.
  intros (_ & Hle & Hleast) Hx. split; [by apply Hleast|lia].
Qed.

Lemma tick_walk_from from t inside to bound :
  is_first from t → to ≤ dt_max + 1 → to - 1 ≤ bound → (∀ x, inside x = (x <? to)) →
  let l := tick_walk (walk_fuel i t bound) i inside t in
  StronglySorted Z.lt l ∧ ∀ x, x ∈ l ↔ on_grid g i x ∧ from ≤ x < to.
Proof.
  intros Hf Hto Hb Hin. cbv zeta. pose proof (ig_pos _ _ Hg). pose proof (ig_start _ _ Hg).
  pose proof Hf as ((k0 & Hk0 & Ht) & Hle & Hlt). assert (0 ≤ k0 * i) by nia.
  assert (dt_min ≤ t) by lia.
  destruct (tick_walk_spec (walk_fuel i t bound) i inside to t) as [Hs Hx];
    [done|done|done|done|by apply walk_fuel_enough|].
  split; [done|]. intros x. rewrite Hx. split.
  - intros (k & Hk & -> & ?). destruct (proj1 (on_grid_from t (t + k * i) (proj1 Hf))); [by exists k|].
    split; [done|]. rewrite (is_first_least from t) by done. lia.
  - intros [Hg' [Hx1 Hx2]]. rewrite (is_first_least from t) in Hx1 by done.
    destruct (proj2 (on_grid_from t x (proj1 Hf))) as (k & ? & ->); [done|]. by exists k.
Qed.

(** ** [window_starts_in] *)

(** The ticks are within the 64-bit nanoseconds of the grid's start. *)
Definition reachable (to : Z) : Prop := to ≤ dt_max ∧ to - grid_start g ≤ i64_max.

Lemma first_idx_first offset :
  0 ≤ offset → is_first (grid_start g + offset) (grid_start g + first_idx i offset * i).
Proof.
  intros Ho. pose proof (ig_pos _ _ Hg). unfold first_idx.
  pose proof (Z.div_mod offset i). pose proof (Z.mod_pos_bound offset i).
  assert (0 ≤ offset / i) by (apply Z.div_pos; lia).
  destruct (Z.eqb_spec (offset mod i) 0).
  - split; [exists (offset / i); lia|]. split; [nia|]. intros x (k & ? & ->). nia.
  - split; [exists (offset / i + 1); lia|]. split; [nia|]. intros x (k & ? & ->) Hx.
    assert (offset / i < k) by nia. nia.
Qed.

Lemma no_ticks from to t :
  is_first from t → to ≤ t → ∀ x, x ∈ ([] : list Z) ↔ on_grid g i x ∧ from ≤ x < to.
Proof.
  intros Hf Ht x. split; [by intros ?%not_elem_of_nil|]. intros (Hx & H1 & H2).
  rewrite (is_first_least from t) in H1 by done. lia.
Qed.

Lemma window_times_exact from to :
  reachable (Z.min to (end_bound clock g)) →
  ∃ ts, window_times clock g from to = inl ts ∧ StronglySorted Z.lt ts ∧
  ∀ x, x ∈ ts ↔ on_grid g i x ∧ from ≤ x < Z.min to (end_bound clock g).
Proof.
  intros [Hmax Hi]. pose proof (ig_pos _ _ Hg). pose proof (ig_start _ _ Hg).
  destruct (ig_secs _ _ Hg) as (secs & Hsecs & Hns). unfold window_times. rewrite Hsecs, Hns.
  set (from' := Z.max from (grid_start g)). set (to' := Z.min to (end_bound clock g)) in *.
  assert (Hfrom : ∀ x, on_grid g i x → from ≤ x ↔ from' ≤ x) by (intros x (k & ? & ->); nia).
  assert (Hconv : ∀ ts : list Z, (∀ x, x ∈ ts ↔ on_grid g i x ∧ from' ≤ x < to') →
                  ∀ x, x ∈ ts ↔ on_grid g i x ∧ from ≤ x < to').
  { intros ts Hts x. rewrite Hts. split; intros (Hx & ? & ?); (split; [done|]);
      (split; [|done]); by apply Hfrom. }
  destruct (Z.leb_spec to' from') as [Hle|Hlt].
  { exists []. split; [done|]. split; [constructor|]. apply Hconv. intros x.
    split; [by intros ?%not_elem_of_nil|]. intros (? & ? & ?). lia. }
  rewrite (proj2 (Z.leb_gt i 0)) by lia. unfold nanos_between.
  pose proof (first_idx_first (from' - grid_start g)) as Hf.
  replace (grid_start g + (from' - grid_start g)) with from' in Hf by lia.
  set (offset := from' - grid_start g) in *. specialize (Hf ltac:(lia)).
  rewrite (proj2 (checked_i64_Some offset offset)) by (unfold i64_min, i64_max in *; lia).
  unfold grid_tick. destruct (checked_i64 (first_idx i offset * i)) as [ns|] eqn:Hns'; simpl.
  - apply checked_i64_Some in Hns' as [-> ?].
    destruct (checked_add (grid_start g) _) as [t|] eqn:Ht.
    + apply checked_add_Some in Ht as [-> ?]. eexists. split; [done|].
      destruct (tick_walk_from from' _ (λ t, (t <? to')) to' to' Hf) as [Hs Hx]; [lia|lia|done|].
      split; [done|]. by apply Hconv.
    + apply checked_add_None in Ht. exists []. split; [done|]. split; [constructor|].
      apply Hconv. eapply no_ticks; [exact Hf|]. destruct Hf as [_ [? _]]. lia.
  - apply checked_i64_None in Hns'. exists []. split; [done|]. split; [constructor|].
    apply Hconv. eapply no_ticks; [exact Hf|]. destruct Hf as [_ [? _]].
    unfold i64_min, i64_max in *. lia.
Qed.

Lemma sorted_lt_app (l1 l2 : list Z) :
  StronglySorted Z.lt l1 → StronglySorted Z.lt l2 → (∀ x y, x ∈ l1 → y ∈ l2 → x < y) →
  StronglySorted Z.lt (l1 ++ l2).
Proof.
  intros Hs1 Hs2 Hlt. induction Hs1 as [|x l1 Hs1 IH Hx]; [done|]. simpl. constructor.
  - apply IH. intros. apply Hlt; [by right|done].
  - apply Forall_app. split; [done|]. apply Forall_forall. intros y Hy. apply Hlt; [by left|done].
Qed.

Lemma window_times_compose a b c :
  a ≤ b → b ≤ c → reachable (Z.min c (end_bound clock g)) →
  ∃ l1 l2, window_times clock g a b = inl l1 ∧ window_times clock g b c = inl l2 ∧
           window_times clock g a c = inl (l1 ++ l2).
Proof.
  intros Hab Hbc Hr.
  destruct (window_times_exact a b) as (l1 & E1 & S1 & X1); [unfold reachable in *; lia|].
  destruct (window_times_exact b c Hr) as (l2 & E2 & S2 & X2).
  destruct (window_times_exact a c Hr) as (l & E & S & X).
  exists l1, l2. split; [done|]. split; [done|]. rewrite E. f_equal. apply sorted_lt_eq; [done| |].
  - apply sorted_lt_app; [done..|]. intros x y [_ Hx]%X1 [_ Hy]%X2. lia.
  - intros x. rewrite elem_of_app, X, X1, X2. split.
    + intros [Hx ?]. destruct (Z.lt_ge_cases x b); [left|right]; (split; [done|lia]).
    + intros [[Hx ?]|[Hx ?]]; (split; [done|lia]).
Qed.

(** ** [keys_in_range] *)
Lemma snap_up_first from :
  from - grid_start g + i ≤ i64_max →
  match snap_up g i from with
  | Some t => is_first from t
  | None => ∀ x, on_grid g i x → from ≤ x → dt_max < x
  end.
Proof.
  intros Hr. unfold snap_up. pose proof (ig_pos _ _ Hg).
  destruct (Z.leb_spec from (grid_start g)).
  { split; [exists 0; lia|]. split; [done|]. intros x (k & ? & ->) _. nia. }
  unfold nanos_between. set (offset := from - grid_start g).
  rewrite (proj2 (checked_i64_Some offset offset)) by (unfold i64_min, i64_max in *; lia).
  simpl. assert (Hf := first_idx_first offset ltac:(lia)). unfold first_idx in Hf.
  replace (grid_start g + offset) with from in Hf by lia.
  pose proof (Z.div_mod offset i).
  destruct (Z.eqb_spec (offset mod i) 0) as [He|He].
  - by replace (grid_start g + (offset / i + 0) * i) with from in Hf by lia.
  - replace (grid_start g + (offset / i + 1) * i)
      with (grid_start g + (offset - offset mod i + i)) in Hf by lia.
    pose proof (ig_start _ _ Hg). pose proof (Z.mod_pos_bound offset i ltac:(lia)).
    rewrite i64_wrap_id by (unfold i64_max in *; lia).
    destruct (checked_add _ _) as [t|] eqn:Ht.
    + by apply checked_add_Some in Ht as [-> _].
    + apply checked_add_None in Ht. destruct Hf as (_ & ? & Hl). intros x Hx Hfx.
      specialize (Hl x Hx Hfx). lia.
Qed.

Lemma times_in_range_exact from to :
  reachable to → to - grid_start g + i ≤ i64_max →
  ∃ ts, times_in_range g from to = inl ts ∧ StronglySorted Z.lt ts ∧
  ∀ x, x ∈ ts ↔ on_grid g i x ∧ from ≤ x ≤ to.
Proof.
  intros [Hmax Hi] Hstep. destruct (ig_secs _ _ Hg) as (secs & Hsecs & Hns).
  pose proof (ig_pos _ _ Hg). unfold times_in_range.
  destruct (Z.ltb_spec to from) as [Hlt|Hge].
  { exists []. split; [done|]. split; [constructor|]. intros x.
    split; [by intros ?%not_elem_of_nil|]. intros (? & ? & ?). lia. }
  rewrite Hsecs, Hns, (proj2 (Z.leb_gt i 0)) by lia.
  pose proof (snap_up_first from ltac:(lia)) as Hsn. destruct (snap_up g i from) as [t|].
  - eexists. split; [done|].
    destruct (tick_walk_from from t (λ t, t <=? to) (to + 1) to Hsn) as [Hs Hx]; [lia|lia|lia|].
    split; [done|]. intros x. rewrite Hx. split; intros (? & ? & ?); (split; [done|lia]).
  - exists []. split; [done|]. split; [constructor|]. intros x.
    split; [by intros ?%not_elem_of_nil|]. intros (Hx & H1 & H2). specialize (Hsn x Hx H1). lia.
Qed.

(** ** [nearest_keys] *)
Definition greatest (P : Z → Prop) (o : option Z) : Prop :=
  match o with Some t => P t ∧ ∀ x, P x → x ≤ t | None => ∀ x, ¬ P x end.

Definition least (P : Z → Prop) (o : option Z) : Prop :=
  match o with Some t => P t ∧ ∀ x, P x → t ≤ x | None => ∀ x, ¬ P x end.

Lemma floor_tick cap :
  grid_start g ≤ cap → reachable cap →
  ∃ t, grid_tick g i ((cap - grid_start g) / i) = Some t ∧ on_grid g i t ∧ t ≤ cap ∧
  ∀ x, on_grid g i x → x ≤ cap → x ≤ t.
Proof.
  intros Hs [Hmax Hi]. pose proof (ig_pos _ _ Hg). pose proof (ig_start _ _ Hg).
  set (o := cap - grid_start g) in *. pose proof (Z.div_mod o i ltac:(lia)).
  pose proof (Z.mod_pos_bound o i ltac:(lia)). assert (0 ≤ o / i) by (apply Z.div_pos; lia).
  assert (0 ≤ o / i * i ≤ o) by lia.
  exists (grid_start g + o / i * i). split_and!.
  - unfold grid_tick. rewrite (proj2 (checked_i64_Some (o / i * i) (o / i * i)))
      by (unfold i64_min, i64_max in *; lia). simpl. apply checked_add_Some. lia.
  - by exists (o / i).
  - lia.
  - intros x (k & Hk & ->) Hx. assert (k ≤ o / i) by (apply Z.div_le_lower_bound; lia). nia.
Qed.

(** The tick after [dt], when the arithmetic reaches it, and otherwise none before [e]. *)
Lemma next_tick dt e :
  grid_start g ≤ dt → reachable dt → reachable e →
  least (λ x, on_grid g i x ∧ dt < x < e)
    (opt_filter (λ t, t <? e)
       (ns ← nanos_between (grid_start g) dt; idx ← checked_i64 (ns / i + 1); grid_tick g i idx)).
Proof.
  intros Hge [Hdt1 Hdt2] [He1 He2]. pose proof (ig_pos _ _ Hg). pose proof (ig_start _ _ Hg).
  unfold nanos_between. set (o := dt - grid_start g) in *.
  pose proof (Z.div_mod o i ltac:(lia)). pose proof (Z.mod_pos_bound o i ltac:(lia)).
  assert (0 ≤ o / i) by (apply Z.div_pos; lia).
  assert (Hno : ∀ x, on_grid g i x ∧ dt < x < e → grid_start g + (o / i + 1) * i ≤ x).
  { intros x ((k & ? & ->) & ?). assert (o / i < k) by nia. nia. }
  assert (Hnone : e ≤ grid_start g + (o / i + 1) * i → ∀ x, ¬ (on_grid g i x ∧ dt < x < e)).
  { intros Hbig x Hx. pose proof (Hno x Hx). lia. }
  rewrite (proj2 (checked_i64_Some o o)) by (unfold i64_min, i64_max in *; lia). simpl.
  destruct (checked_i64 (o / i + 1)) as [idx|] eqn:Hidx; simpl.
  2: { apply checked_i64_None in Hidx. apply Hnone. unfold i64_min, i64_max in *. nia. }
  apply checked_i64_Some in Hidx as [-> _]. unfold grid_tick.
  destruct (checked_i64 ((o / i + 1) * i)) as [ns|] eqn:Hn; simpl.
  2: { apply checked_i64_None in Hn. apply Hnone. unfold i64_min, i64_max in *. nia. }
  apply checked_i64_Some in Hn as [-> _].
  destruct (checked_add (grid_start g) _) as [t|] eqn:Ht; simpl.
  2: { apply checked_add_None in Ht. apply Hnone. lia. }
  apply checked_add_Some in Ht as [-> _].
  destruct (Z.ltb_spec (grid_start g + (o / i + 1) * i) e) as [|Hbig]; [|exact (Hnone Hbig)].
  split; [split; [by exists (o / i + 1); lia|nia]|done].
Qed.

Lemma nearest_times_exact dt :
  reachable dt → reachable (end_bound clock g) → dt_min < end_bound clock g →
  greatest (λ x, on_grid g i x ∧ x ≤ dt ∧ x < end_bound clock g) (nearest_times clock g dt).1 ∧
  least (λ x, on_grid g i x ∧ dt < x < end_bound clock g) (nearest_times clock g dt).2.
Proof.
  intros Hdt Hend Hmin. destruct (ig_secs _ _ Hg) as (secs & Hsecs & Hns).
  pose proof (ig_pos _ _ Hg). pose proof (ig_start _ _ Hg).
  unfold nearest_times. rewrite Hsecs, Hns, (proj2 (Z.leb_gt i 0)) by lia.
  cbn [fst snd]. set (e := end_bound clock g) in *. split.
  - destruct Hend. rewrite (proj2 (checked_add_Some e (-1) (e + -1))) by lia. simpl.
    destruct (Z.leb_spec (grid_start g) (Z.min dt (e + -1))) as [Hle|Hgt]; simpl.
    + destruct Hdt. unfold nanos_between.
      rewrite (proj2 (checked_i64_Some _ _)) by (split; [done|]; unfold i64_min, i64_max in *; lia).
      simpl. destruct (floor_tick (Z.min dt (e + -1))) as (t & -> & Ht & Hle' & Hg');
        [done|unfold reachable; lia|]. split; [split; [done|lia]|].
      intros x (Hx & ? & ?). apply Hg'; [done|lia].
    + intros x ((k & ? & ->) & ? & ?). nia.
  - destruct (Z.ltb_spec dt (grid_start g)) as [Hlt|Hge]; [|by apply next_tick]. simpl.
    destruct (Z.ltb_spec (grid_start g) e); simpl.
    + split; [split; [exists 0; lia|lia]|]. intros x ((k & ? & ->) & ?). nia.
    + intros x ((k & ? & ->) & ?). nia.
Qed.

(** ** [shift_key] *)

(** The format tells the ticks of the grid apart. *)
Definition fmt_precise : Prop :=
  ∀ x, on_grid g i x → x ≤ dt_max → parse_key_datetime (key_at g x) (grid_fmt g) = Some x.

Lemma shift_key_tick t n k :
  fmt_precise → on_grid g i t → t ≤ dt_max → n ≠ 0 →
  grid_shift_key clock g (key_at g t) n = inl k ↔
  k = key_at g (t + i * n) ∧ i64_min ≤ i * n ≤ i64_max ∧ t + i * n ≤ dt_max ∧
  grid_start g ≤ t + i * n < end_bound clock g.
Proof.
  intros Hfmt Ht Hmax Hn. destruct (ig_secs _ _ Hg) as (secs & Hsecs & Hns).
  pose proof (ig_pos _ _ Hg). pose proof (ig_start _ _ Hg). unfold grid_shift_key, shift_datetime.
  rewrite Hfmt, (proj2 (Z.eqb_neq n 0)), Hsecs, Hns, (proj2 (Z.leb_gt i 0)) by (done || lia).
  destruct (checked_i64 (i * n)) as [total|] eqn:Hi.
  2: { apply checked_i64_None in Hi. split; [done|lia]. }
  apply checked_i64_Some in Hi as [-> ?]. destruct (checked_add t (i * n)) as [s|] eqn:Hs.
  2: { apply checked_add_None in Hs. split; [done|lia]. }
  apply checked_add_Some in Hs as [-> ?].
  destruct (Z.ltb_spec (t + i * n) (grid_start g)), (Z.leb_spec (end_bound clock g) (t + i * n)); simpl;
    split; intros; destruct_and?; simplify_eq; try lia; done.
Qed.

(** Shifting the key of a window by [n] windows lands on the window [n] later (earlier
    when negative), within the grid's range, and shifting back gives the key again. *)
Theorem shift_key_roundtrip t n k :
  fmt_precise → on_grid g i t → reachable t → t < end_bound clock g →
  grid_shift_key clock g (key_at g t) n = inl k →
  k = key_at g (t + n * i) ∧ on_grid g i (t + n * i) ∧
  grid_start g ≤ t + n * i ∧ (t + n * i < end_bound clock g) ∧
  grid_shift_key clock g k (- n) = inl (key_at g t).
Proof.
  intros Hfmt Hgrid [Hmax Hi] Hend Hk. pose proof (ig_pos _ _ Hg).
  pose proof Hgrid as (j & Hj & Ht). destruct (decide (n = 0)) as [->|Hn].
  { unfold grid_shift_key in *. rewrite (Hfmt t) in Hk by done. simpl in Hk.
    injection Hk as <-. rewrite (Hfmt t) by done.
    replace (t + 0 * i) with t by lia. split_and!; [done|done|nia|done|done]. }
  apply shift_key_tick in Hk as (-> & Hb & Hmax' & Hs & He); [|done..].
  assert (Hg' : on_grid g i (t + i * n)) by (exists (j + n); nia).
  rewrite (Z.mul_comm i n) in *. split_and!; [done|done|done|done|].
  apply shift_key_tick; [done|done|done|lia|].
  replace (t + n * i + i * - n) with t by lia. unfold i64_min, i64_max in *.
  split_and!; [done|nia|nia|done|nia|done].
Qed.

(** ** The claims about enumeration *)

(** C23: while the instants stay within the 64-bit nanoseconds of the grid's start, and the end
    of the range a whole interval before their end, an interval grid enumerates exactly the keys
    of its ticks, in order: [window_starts_in] those of the
    half-open range, [keys_in_range] those of the closed one, and [nearest_keys] gives the
    last tick at or before an instant and the first after it, within the grid's end. *)
Theorem interval_grid_exact from to dt :
  reachable to → to - grid_start g + i ≤ i64_max → reachable dt → reachable (end_bound clock g) → dt_min < end_bound clock g →
  ∃ ws ts p n,
    window_starts_in clock g from to = inl (key_at g <$> ws) ∧
    keys_in_range g from to = inl (key_at g <$> ts) ∧
    nearest_keys clock g dt = (key_at g <$> p, key_at g <$> n) ∧
    StronglySorted Z.lt ws ∧ StronglySorted Z.lt ts ∧
    (∀ x, x ∈ ws ↔ on_grid g i x ∧ from ≤ x < Z.min to (end_bound clock g)) ∧
    (∀ x, x ∈ ts ↔ on_grid g i x ∧ from ≤ x ≤ to) ∧
    greatest (λ x, on_grid g i x ∧ x ≤ dt ∧ x < end_bound clock g) p ∧
    least (λ x, on_grid g i x ∧ dt < x < end_bound clock g) n.
Proof.
  intros Hto Hstep Hdt Hend Hmin.
  destruct (window_times_exact from to) as (ws & Ew & Sw & Xw); [unfold reachable in *; lia|].
  destruct (times_in_range_exact from to Hto Hstep) as (ts & Et & St & Xt).
  destruct (nearest_times_exact dt Hdt Hend Hmin) as [Hp Hn].
  exists ws, ts, (nearest_times clock g dt).1, (nearest_times clock g dt).2.
  unfold window_starts_in, keys_in_range, nearest_keys. rewrite Ew, Et.
  by destruct (nearest_times clock g dt).
Qed.

(** Enumerating a range in two consecutive pieces gives exactly the enumeration of the
    whole: no window is missed or repeated at the seam. *)
Theorem window_starts_compose a b c :
  a ≤ b → b ≤ c → reachable (Z.min c (end_bound clock g)) →
  ∃ l1 l2, window_starts_in clock g a b = inl l1 ∧ window_starts_in clock g b c = inl l2 ∧
           window_starts_in clock g a c = inl (l1 ++ l2).
Proof.
  intros Hab Hbc Hr. destruct (window_times_compose a b c Hab Hbc Hr) as (l1 & l2 & H1 & H2 & H3).
  exists (key_at g <$> l1), (key_at g <$> l2). unfold window_starts_in.
  by rewrite H1, H2, H3, <-fmap_app.
Qed.
End interval.

(** ** An example grid *)

(** A datetime is printed as its number of whole seconds, in unary. *)
Definition unary (n : nat) : string := Nat.iter n (String "|") EmptyString.

Lemma length_unary n : String.length (unary n) = n.
Proof. induction n; simpl; congruence. Qed.

#[export] Instance ex_jiff : JiffText :=
  {| BrokenDownTime := Z; bdt_parse _ key := Some (Z.of_nat (String.length key) * 10 ^ 9);
     bdt_timestamp t := None; bdt_to_datetime t := Some t; bdt_month _ := None; bdt_day _ := None;
     bdt_set_month _ t := Some t; bdt_set_day _ t := Some t;
     strftime _ t := unary (Z.to_nat (t / 10 ^ 9)) |}.

(** A schedule is a period of seconds, in unary. *)
#[export] Instance ex_cron_grid : CronGrid :=
  {| GridCron := positive;
     try_parse_cron s := if String.eqb s "" then None else Some (Pos.of_nat (String.length s));
     iter_from c t d n :=
       let p := Z.pos c * 10 ^ 9 in
       match d with
       | Forward => Some (- ((- t) / p) * p + Z.of_nat n * p)
       | Backward => Some (t / p * p - Z.of_nat n * p)
       end |}.

(** Every two seconds from 1970 on, up to 20 seconds. *)
Definition ex_time_grid : TimeGridDef :=
  {| cron_schedule := None; interval_seconds := Some (S754_finite false 1 1);
     grid_start := 0; grid_end := Some (20 * 10 ^ 9); grid_fmt := "%s" |}.

Lemma ex_interval_grid : interval_grid ex_time_grid (2 * 10 ^ 9).
Proof.
  split; [eexists; split; [reflexivity|vm_compute; reflexivity]|lia|split; vm_compute; congruence].
Qed.

Lemma ex_reachable t : t ≤ 20 * 10 ^ 9 → reachable ex_time_grid t.
Proof. unfold reachable, dt_max, i64_max. simpl. lia. Qed.

Lemma ex_fmt_precise : fmt_precise ex_time_grid (2 * 10 ^ 9).
Proof.
  intros x (k & Hk & ->) _.
  assert (Hd : (grid_start ex_time_grid + k * (2 * 10 ^ 9)) / 10 ^ 9 = k * 2).
  { replace (_ + _) with (k * 2 * 10 ^ 9) by (unfold grid_start, ex_time_grid; lia). by apply Z.div_mul. }
  unfold parse_key_datetime, key_at.
  cbn [bdt_parse strftime ex_jiff mbind option_bind bdt_timestamp bdt_to_datetime].
  rewrite Hd, length_unary, Z2Nat.id by lia. f_equal. unfold grid_start, ex_time_grid. lia.
Qed.

Lemma interval_grid_exact_witness :
  window_starts_in 0 ex_time_grid (3 * 10 ^ 9) (9 * 10 ^ 9) = inl ["||||"; "||||||"; "||||||||"] ∧
  ∃ ws, window_starts_in 0 ex_time_grid (3 * 10 ^ 9) (9 * 10 ^ 9)
        = inl (key_at ex_time_grid <$> ws) ∧ (8 * 10 ^ 9 ∈ ws).
Proof.
  split; [vm_compute; reflexivity|].
  destruct (interval_grid_exact 0 ex_time_grid (2 * 10 ^ 9) ex_interval_grid (3 * 10 ^ 9)
    (9 * 10 ^ 9) (9 * 10 ^ 9)) as (ws & ts & p & n & Hw & _ & _ & _ & _ & Hx & _).
  - apply ex_reachable. lia.
  - vm_compute. congruence.
  - apply ex_reachable. lia.
  - apply ex_reachable. vm_compute. congruence.
  - vm_compute. congruence.
  - exists ws. split; [done|]. apply Hx. split; [exists 4; split; [lia|vm_compute; reflexivity]|].
    split; vm_compute; congruence.
Defined.

Lemma window_starts_compose_witness :
  ∃ l1 l2, window_starts_in 0 ex_time_grid 0 (4 * 10 ^ 9) = inl l1 ∧
           window_starts_in 0 ex_time_grid (4 * 10 ^ 9) (9 * 10 ^ 9) = inl l2 ∧
           window_starts_in 0 ex_time_grid 0 (9 * 10 ^ 9) = inl (l1 ++ l2).
Proof.
  apply (window_starts_compose 0 ex_time_grid (2 * 10 ^ 9) ex_interval_grid); [lia|lia|].
  apply ex_reachable. vm_compute. congruence.
Defined.

Lemma shift_key_roundtrip_witness :
  grid_shift_key 0 ex_time_grid "||||" 3 = inl "||||||||||" ∧
  grid_shift_key 0 ex_time_grid "||||||||||" (-3) = inl "||||".
Proof.
  split; [vm_compute; reflexivity|].
  refine (proj2 (proj2 (proj2 (proj2 (shift_key_roundtrip 0 ex_time_grid (2 * 10 ^ 9)
    ex_interval_grid (4 * 10 ^ 9) 3 "||||||||||" ex_fmt_precise _ _ _ _))))).
  - exists 2. split; [lia|vm_compute; reflexivity].
  - apply ex_reachable. lia.
  - vm_compute. congruence.
  - vm_compute. reflexivity.
Defined.

(** ** Far from the start *)

(** The same grid started in 1675, more than 2^63 nanoseconds before 1970. *)
Definition ex_far_grid : TimeGridDef :=
  {| cron_schedule := None; interval_seconds := Some (S754_finite false 1 1);
     grid_start := -9300000000 * 10 ^ 9; grid_end := Some (20 * 10 ^ 9); grid_fmt := "%s" |}.

(** Beyond 2^63 nanoseconds (292 years) from the grid's start the enumerations leave the
    grid: [keys_in_range] walks from its raw endpoint, so its keys are not ticks, and
    [window_starts_in] finds no window where there are some. *)
Theorem far_range_off_grid :
  interval_grid ex_far_grid (2 * 10 ^ 9) ∧
  times_in_range ex_far_grid (3 * 10 ^ 9) (6 * 10 ^ 9) = inl [3 * 10 ^ 9; 5 * 10 ^ 9] ∧
  ¬ on_grid ex_far_grid (2 * 10 ^ 9) (3 * 10 ^ 9) ∧
  window_times 0 ex_far_grid (3 * 10 ^ 9) (6 * 10 ^ 9) = inl [] ∧
  on_grid ex_far_grid (2 * 10 ^ 9) (4 * 10 ^ 9).
Proof.
  split; [split; [eexists; split; [reflexivity|vm_compute; reflexivity]|lia|split; vm_compute; congruence]|].
  split; [vm_compute; reflexivity|]. split; [intros (k & ? & Hk); simpl in Hk; lia|].
  split; [vm_compute; reflexivity|]. exists 4650000002. split; [lia|vm_compute; reflexivity].
Qed.

(** Within one interval of that bound the sum that snaps the endpoint up overflows: unchecked it
    wraps, and [keys_in_range] walks from a tick 292 years before the range. *)
Theorem near_bound_wraps :
  let g := {| cron_schedule := None; interval_seconds := Some (S754_finite false 86400 0);
              grid_start := -9000000000 * 10 ^ 9; grid_end := Some dt_max; grid_fmt := "%s" |} in
  let from := grid_start g + i64_max - 1000 in
  interval_grid g (86400 * 10 ^ 9) ∧
  match snap_up g (86400 * 10 ^ 9) from with Some t => t < grid_start g | None => False end.
Proof.
  split; [split; [eexists; split; [reflexivity|vm_compute; reflexivity]|lia|split; vm_compute; congruence]|]. vm_compute. reflexivity.
Qed.

(** ** Cron grids *)

(** What croner's iterator promises going forward: it starts at or after its anchor, its
    occurrences are at least a second apart, and once finished it stays so. *)
Class CronSpaced `{K : CronGrid} : Prop := {
  cs_first cron anchor t : iter_from cron anchor Forward 0 = Some t → anchor ≤ t;
  cs_next cron anchor n t t' :
    iter_from cron anchor Forward n = Some t → iter_from cron anchor Forward (S n) = Some t' →
    t + 10 ^ 9 ≤ t';
  cs_fused cron anchor n :
    iter_from cron anchor Forward n = None → iter_from cron anchor Forward (S n) = None
}.

Section cron.
Context {K : CronGrid} {L : CronSpaced} (cron : GridCron) (anchor : Z).
Let it := iter_from cron anchor Forward.

Lemma it_prev n t : it (S n) = Some t → ∃ t', it n = Some t' ∧ t' + 10 ^ 9 ≤ t.
Proof.
  intros Ht. destruct (it n) as [t'|] eqn:E.
  - exists t'. split; [done|]. by eapply cs_next.
  - apply cs_fused in E. unfold it in Ht. congruence.
Qed.

Lemma it_after n m t t' : (n ≤ m)%nat → it n = Some t → it m = Some t' →
  t + (Z.of_nat m - Z.of_nat n) * 10 ^ 9 ≤ t'.
Proof.
  intros Hnm Ht. revert t'. induction Hnm as [|m Hnm IH]; intros t' Ht'.
  - replace t' with t by congruence. lia.
  - apply it_prev in Ht' as (t'' & H1 & H2). specialize (IH t'' H1). lia.
Qed.

Lemma it_defined n m t : (n ≤ m)%nat → it m = Some t → is_Some (it n).
Proof.
  intros Hnm. revert t. induction Hnm as [|m Hnm IH]; intros t Ht; [by eexists|].
  apply it_prev in Ht as (t' & H1 & _). by eapply IH.
Qed.

Lemma it_lower n t : it n = Some t → anchor + Z.of_nat n * 10 ^ 9 ≤ t.
Proof.
  intros Ht. destruct (it_defined 0 n t) as [t0 H0]; [lia|done|].
  pose proof (it_after 0 n t0 t ltac:(lia) H0 Ht). apply cs_first in H0. lia.
Qed.

Lemma civil_bounds t : t - 10 ^ 9 < cron_tick_civil t ≤ t.
Proof. unfold cron_tick_civil. pose proof (Z.mod_pos_bound t (10 ^ 9) ltac:(lia)). lia. Qed.

(** Truncated occurrences [n <= m] are in order. *)
Lemma civil_after n m t t' : (n < m)%nat → it n = Some t → it m = Some t' →
  cron_tick_civil t < cron_tick_civil t'.
Proof.
  intros Hnm H1 H2. pose proof (it_after n m t t' ltac:(lia) H1 H2).
  pose proof (civil_bounds t). pose proof (civil_bounds t').
  assert (t / 10 ^ 9 * 10 ^ 9 + 10 ^ 9 ≤ t' / 10 ^ 9 * 10 ^ 9).
  { assert ((t + 1 * 10 ^ 9) / 10 ^ 9 ≤ t' / 10 ^ 9) by (apply Z.div_le_mono; lia).
    rewrite Z.div_add in * by lia. lia. }
  unfold cron_tick_civil. pose proof (Z.div_mod t (10 ^ 9) ltac:(lia)).
  pose proof (Z.div_mod t' (10 ^ 9) ltac:(lia)). lia.
Qed.

Lemma cron_take_spec fuel i from bound past :
  (∀ x, past x = (bound <=? x)) → bound - anchor ≤ (Z.of_nat (i + fuel) - 1) * 10 ^ 9 →
  StronglySorted Z.lt (cron_take fuel it i from past) ∧
  ∀ x, x ∈ cron_take fuel it i from past ↔
    ∃ n t, (i ≤ n)%nat ∧ it n = Some t ∧ x = cron_tick_civil t ∧ from ≤ x < bound.
Proof.
  intros Hp. revert i. induction fuel as [|fuel IH]; intros i Hf; simpl.
  { split; [constructor|]. intros x. split; [by intros ?%not_elem_of_nil|].
    intros (n & t & Hn & Ht & -> & _ & Hx). pose proof (it_lower n t Ht). pose proof (civil_bounds t). lia. }
  destruct (it i) as [tick|] eqn:Hi.
  2: { split; [constructor|]. intros x. split; [by intros ?%not_elem_of_nil|].
       intros (n & t & Hn & Ht & _). destruct (it_defined i n t Hn Ht). congruence. }
  destruct (IH (S i)) as [Hs Hx]; [lia|].
  assert (Hstep : ∀ x, (∃ n t, (i ≤ n)%nat ∧ it n = Some t ∧ x = cron_tick_civil t ∧ from ≤ x < bound) ↔
    (x = cron_tick_civil tick ∧ from ≤ x < bound) ∨
    ∃ n t, (S i ≤ n)%nat ∧ it n = Some t ∧ x = cron_tick_civil t ∧ from ≤ x < bound).
  { intros x. split.
    - intros (n & t & Hn & Ht & Hxt). destruct (decide (n = i)) as [->|].
      + left. by simplify_eq.
      + right. exists n, t. split; [lia|done].
    - intros [Hxt|(n & t & ? & Hxt)]; [by exists i, tick|]. exists n, t. split; [lia|done]. }
  setoid_rewrite Hstep. clear Hstep. rewrite Hp.
  destruct (Z.ltb_spec (cron_tick_civil tick) from) as [Hlt|Hge]; [|destruct (Z.leb_spec bound (cron_tick_civil tick)) as [Hb|Hb]].
  - split; [done|]. intros x. rewrite Hx. split; [by right|]. intros [[-> ?]|?]; [lia|done].
  - split; [constructor|]. intros x. split; [by intros ?%not_elem_of_nil|].
    intros [[-> ?]|(n & t & Hn & Ht & -> & ?)]; [lia|].
    pose proof (civil_after i n tick t ltac:(lia) Hi Ht). lia.
  - split.
    + constructor; [done|]. apply Forall_forall. intros x (n & t & Hn & Ht & -> & _)%Hx.
      by eapply (civil_after i n).
    + intros x. rewrite elem_of_cons, Hx. naive_solver lia.
Qed.
End cron.

(** A cron grid enumerates exactly the occurrences, cut to whole seconds, that fall in the
    range; its loop never runs out of fuel. *)
Theorem cron_window_times_exact {K : CronGrid} {L : CronSpaced} clock g expr cron from to :
  interval_seconds g = None → cron_schedule g = Some expr → try_parse_cron expr = Some cron →
  let from' := Z.max from (grid_start g) in
  let to' := Z.min to (end_bound clock g) in
  ∃ ts, window_times clock g from to = inl ts ∧ StronglySorted Z.lt ts ∧
  ∀ x, x ∈ ts ↔ from' < to' ∧ ∃ n t, iter_from cron (cron_anchor from') Forward n = Some t ∧
    x = cron_tick_civil t ∧ from' ≤ x < to'.
Proof.
  intros Hi He Hc. cbv zeta. unfold window_times. rewrite Hi, He, Hc.
  set (from' := Z.max from (grid_start g)). set (to' := Z.min to (end_bound clock g)).
  destruct (Z.leb_spec to' from') as [Hle|Hlt].
  { exists []. split; [done|]. split; [constructor|]. intros x.
    split; [by intros ?%not_elem_of_nil|lia]. }
  eexists. split; [done|].
  destruct (cron_take_spec cron (cron_anchor from') (cron_fuel (cron_anchor from') to') 0 from' to'
    (λ t, to' <=? t)) as [Hs Hx]; [done| |].
  - unfold cron_fuel. pose proof (Z.div_mod (to' - cron_anchor from') (10 ^ 9) ltac:(lia)).
    pose proof (Z.mod_pos_bound (to' - cron_anchor from') (10 ^ 9) ltac:(lia)). lia.
  - split; [done|]. intros x. rewrite Hx. split.
    + intros (n & t & _ & ?). split; [done|]. by exists n, t.
    + intros (_ & n & t & ?). exists n, t. split; [lia|done].
Qed.

#[export] Instance ex_cron_spaced : CronSpaced (K := ex_cron_grid).
Proof.
  split; cbn [iter_from ex_cron_grid].
  - intros c t t' [= <-]. pose proof (Z.div_mod (- t) (Z.pos c * 10 ^ 9) ltac:(lia)).
    pose proof (Z.mod_pos_bound (- t) (Z.pos c * 10 ^ 9) ltac:(lia)). lia.
  - intros c t n t1 t2 [= <-] [= <-]. nia.
  - done.
Qed.

(** Every third second, from the fourth on. *)
Example ex_cron_windows :
  window_times 0 {| cron_schedule := Some "***"; interval_seconds := None; grid_start := 4 * 10 ^ 9;
                    grid_end := Some (12 * 10 ^ 9); grid_fmt := "%s" |} 0 (30 * 10 ^ 9)
  = inl [6 * 10 ^ 9; 9 * 10 ^ 9].
Proof. vm_compute. reflexivity. Qed.
