(* ===== verification/Universe.v ===== *)
(** Partition universes (rust/rivers-core/src/condition/pass/universe.rs) and that they stay
    exact. *)

From S2P Require Import Prelude PartitionKey Selection TimeGrid TimeGridTheorems.

(** * Partition universes (rust/rivers-core/src/condition/pass/universe.rs)

    How the set of partition keys of an asset evolves: fixed, growing with the clock,
    mirroring a dynamic namespace, or the product of dimensions of these kinds. An
    [OrderSet] is the list of its elements in insertion order. *)
Abbreviation DynamicKeys := (gmap string (gset string)).

Inductive DimensionKind :=
| DFrozen
| DTimeWindow (grid : TimeGridDef) (enumerated_to : DateTime)
| DDynamic (namespace : string).

Record DimensionUniverse := {
  du_keys : list string;
  du_kind : DimensionKind
}.

Inductive PartitionUniverse :=
| UFrozen
| UTimeWindow (grid : TimeGridDef) (enumerated_to : DateTime)
| UDynamic (namespace : string)
| UMulti (dims : list (string * DimensionUniverse)).

(** A key of one value. *)
Definition single (k : string) : PartitionKey := norm (Single [k]).

(** ** Axes *)
Section axis.
Context {J : JiffText} {K : CronGrid} (clock : DateTime) {X : Type}.

(** The new keys are offered to [insert], which tells whether the set grew. *)
Definition advance_time_window_axis (insert : string → X → bool * X) (grid : TimeGridDef)
    (enumerated_to now : DateTime) (keys : X) : bool * DateTime * X :=
  let bound := match grid_end grid with Some e => Z.min e now | None => now end in
  if (bound <=? enumerated_to)%Z then (false, enumerated_to, keys)
  else
    match window_starts_in clock grid enumerated_to bound with
    | inl new_keys =>
        let '(changed, keys) :=
          foldl (λ '(changed, keys) k, let '(grew, keys) := insert k keys in (changed || grew, keys))
                (false, keys) new_keys in
        (changed, bound, keys)
    | inr _ => (false, enumerated_to, keys)
    end.
End axis.

Definition dynamic_axis_changed (fresh : gset string) (current_len : nat)
    (contains : string → bool) : bool :=
  negb (size fresh =? current_len)%nat || negb (forallb contains (elements fresh)).

(** [HashSet::insert] and [OrderSet::insert] *)
Definition hash_insert (k : string) (keys : KeySet) : bool * KeySet :=
  (negb (bool_decide (single k ∈ keys)), {[ single k ]} ∪ keys).

Definition order_insert (k : string) (keys : list string) : bool * list string :=
  if bool_decide (k ∈ keys) then (false, keys) else (true, keys ++ [k]).

(** ** The product of dimensions *)

(** One increment of the odometer, last dimension fastest; [None] past the last index. *)
Fixpoint next_index (sizes idx : list nat) : option (list nat) :=
  match sizes, idx with
  | n :: sizes, i :: idx =>
      match next_index sizes idx with
      | Some idx => Some (i :: idx)
      | None => if (S i <? n)%nat then Some (S i :: replicate (length idx) 0%nat) else None
      end
  | _, _ => None
  end.

(** [dims.iter().zip(&idx).map(..)]; [du.keys[i]] is in bounds. *)
Definition combo (dims : list (string * DimensionUniverse)) (idx : list nat) : PartitionKey :=
  norm (Multi (zip_with (λ d i, (d.1, [nth i (du_keys d.2) EmptyString])) dims idx)).

Fixpoint odometer (fuel : nat) (dims : list (string * DimensionUniverse)) (idx : list nat)
    (out : KeySet) : KeySet :=
  match fuel with
  | O => out
  | S fuel =>
      let out := {[ combo dims idx ]} ∪ out in
      match next_index ((λ d, length (du_keys d.2)) <$> dims) idx with
      | Some idx => odometer fuel dims idx out
      | None => out
      end
  end.

(** Fuel: the number of index vectors. *)
Definition cartesian_universe (dims : list (string * DimensionUniverse)) : KeySet :=
  let sizes := (λ d, length (du_keys d.2)) <$> dims in
  if bool_decide (dims = []) || existsb (λ n, n =? 0)%nat sizes then ∅
  else odometer (foldr Nat.mul 1%nat sizes) dims (replicate (length dims) 0%nat) ∅.

(** ** Advancing a universe *)
Section refresh.
Context {J : JiffText} {K : CronGrid} (clock now : DateTime) (dynamic_keys : DynamicKeys).

Definition refresh_dimension (du : DimensionUniverse) : bool * DimensionUniverse :=
  match du_kind du with
  | DFrozen => (false, du)
  | DTimeWindow grid enumerated_to =>
      let '(changed, enumerated_to, keys) :=
        advance_time_window_axis clock order_insert grid enumerated_to now (du_keys du) in
      (changed, {| du_keys := keys; du_kind := DTimeWindow grid enumerated_to |})
  | DDynamic namespace =>
      match dynamic_keys !! namespace with
      | Some keys =>
          if dynamic_axis_changed keys (length (du_keys du)) (λ k, bool_decide (k ∈ du_keys du))
          then (true, {| du_keys := sort_by String.leb (elements keys); du_kind := du_kind du |})
          else (false, du)
      | None => (false, du)
      end
  end.

Definition refresh_dimensions (dims : list (string * DimensionUniverse))
    : bool * list (string * DimensionUniverse) :=
  foldl (λ '(changed, out) '(name, du),
           let '(c, du) := refresh_dimension du in (changed || c, out ++ [(name, du)]))
        (false, []) dims.

Definition refresh_universe (universe : PartitionUniverse) (all_keys : KeySet)
    : bool * PartitionUniverse * KeySet :=
  match universe with
  | UFrozen => (false, universe, all_keys)
  | UTimeWindow grid enumerated_to =>
      let '(changed, enumerated_to, all_keys) :=
        advance_time_window_axis clock hash_insert grid enumerated_to now all_keys in
      (changed, UTimeWindow grid enumerated_to, all_keys)
  | UDynamic namespace =>
      match dynamic_keys !! namespace with
      | None => (false, universe, all_keys)
      | Some keys =>
          if dynamic_axis_changed keys (size all_keys) (λ k, bool_decide (single k ∈ all_keys))
          then (true, universe, list_to_set (single <$> elements keys))
          else (false, universe, all_keys)
      end
  | UMulti dims =>
      let '(changed, dims) := refresh_dimensions dims in
      (changed, UMulti dims, if changed then cartesian_universe dims else all_keys)
  end.
End refresh.

Definition universe_namespaces (universe : PartitionUniverse) (out : gset string) : gset string :=
  match universe with
  | UDynamic namespace => {[ namespace ]} ∪ out
  | UMulti dims =>
      foldl (λ out d, match du_kind d.2 with DDynamic ns => {[ ns ]} ∪ out | _ => out end) out dims
  | _ => out
  end.

(** * Partition universes stay exact

    The odometer enumerates the product of its dimensions; a refresh keeps every
    universe equal to what its definition says at the new time, and never changes a key
    set without reporting it. *)
#[local] Open Scope Z_scope.

(** ** The odometer *)

(** The index vectors from [idx] on, in the order of the odometer. *)
Fixpoint from_index (sizes idx : list nat) : list (list nat) :=
  match sizes, idx with
  | n :: sizes, i :: idx =>
      (cons i <$> from_index sizes idx) ++
      (seq (S i) (n - S i) ≫= λ j, cons j <$> from_index sizes (replicate (length idx) 0%nat))
  | _, _ => [[]]
  end.

Lemma from_index_bump sizes idx :
  Forall2 lt idx sizes →
  from_index sizes idx = idx :: match next_index sizes idx with
                                | Some idx' => from_index sizes idx'
                                | None => []
                                end.
Proof.
  intros H. induction H as [|i n idx sizes Hi Hrest IH]; [done|]. simpl. rewrite IH.
  destruct (next_index sizes idx) as [idx'|] eqn:Hb; simpl; [f_equal; f_equal|].
  - assert (Hl : ∀ sizes idx idx', next_index sizes idx = Some idx' → length idx' = length idx).
    { clear. induction sizes as [|n sizes IH]; intros [|i idx] idx'; simpl; try done.
      destruct (next_index sizes idx) eqn:E; [intros [= <-]; simpl; f_equal; eauto|].
      destruct (_ <? _)%nat; intros [= <-]. simpl. by rewrite length_replicate. }
    by rewrite (Hl _ _ _ Hb).
  - f_equal. destruct (Nat.ltb_spec (S i) n) as [Hlt|Hge].
    + replace (n - S i)%nat with (S (n - S (S i))) by lia. simpl. by rewrite length_replicate.
    + replace (n - S i)%nat with 0%nat by lia. done.
Qed.

Lemma bump_valid sizes idx idx' :
  Forall2 lt idx sizes → next_index sizes idx = Some idx' → Forall2 lt idx' sizes.
Proof.
  intros H. revert idx'. induction H as [|i n idx sizes Hi Hrest IH]; intros idx'; simpl; [done|].
  destruct (next_index sizes idx) as [idx''|]; [intros [= <-]; constructor; eauto|].
  destruct (Nat.ltb_spec (S i) n); intros [= <-]. constructor; [done|].
  clear -Hrest. induction Hrest; simpl; constructor; [lia|done].
Qed.

Lemma odometer_spec fuel dims idx out :
  let sizes := (λ d, length (du_keys d.2)) <$> dims in
  Forall2 lt idx sizes → (length (from_index sizes idx) ≤ fuel)%nat →
  odometer fuel dims idx out = list_to_set (combo dims <$> from_index sizes idx) ∪ out.
Proof.
  cbv zeta. revert idx out. induction fuel as [|fuel IH]; intros idx out Hv Hf.
  { rewrite from_index_bump in Hf by done. simpl in Hf. lia. }
  simpl. rewrite from_index_bump in Hf |- * by done. simpl in Hf |- *.
  destruct (next_index _ idx) as [idx'|] eqn:Hb; [|simpl; set_solver].
  rewrite IH; [set_solver|by eapply bump_valid|lia].
Qed.

Lemma length_bind_const {A B} (f : A → list B) (m : nat) l :
  (∀ x, length (f x) = m) → length (l ≫= f) = (length l * m)%nat.
Proof. intros Hf. induction l as [|x l IH]; [done|]. rewrite bind_cons, length_app, Hf, IH. done. Qed.

Lemma from_zero_cons n sizes :
  (0 < n)%nat →
  from_index (n :: sizes) (replicate (length (n :: sizes)) 0%nat)
  = seq 0 n ≫= λ j, cons j <$> from_index sizes (replicate (length sizes) 0%nat).
Proof.
  intros Hn. destruct n as [|n]; [lia|]. cbn [length replicate from_index].
  rewrite length_replicate. replace (S n - 1)%nat with n by lia. done.
Qed.

Lemma length_from_zero sizes :
  Forall (λ n, 0 < n)%nat sizes →
  length (from_index sizes (replicate (length sizes) 0%nat)) = foldr Nat.mul 1%nat sizes.
Proof.
  induction 1 as [|n sizes Hn _ IH]; [done|]. rewrite from_zero_cons by done.
  rewrite (length_bind_const _ (foldr Nat.mul 1%nat sizes)) by (intros; by rewrite length_fmap).
  by rewrite length_seq.
Qed.

Lemma elem_of_from_zero sizes idx :
  Forall (λ n, 0 < n)%nat sizes →
  idx ∈ from_index sizes (replicate (length sizes) 0%nat) ↔ Forall2 lt idx sizes.
Proof.
  intros H. revert idx. induction H as [|n sizes Hn _ IH]; intros idx.
  { simpl. rewrite list_elem_of_singleton. split; [intros ->; constructor|].
    by inversion 1. }
  rewrite from_zero_cons, list_elem_of_bind by done. split.
  - intros (j & (idx' & -> & Hi%IH)%list_elem_of_fmap & Hj%elem_of_seq). constructor; [lia|done].
  - inversion 1 as [|j ? idx' ? Hj Hi]; subst. exists j. rewrite list_elem_of_fmap, elem_of_seq.
    split; [|lia]. exists idx'. by rewrite IH.
Qed.

Lemma zeros_valid sizes :
  Forall (λ n, 0 < n)%nat sizes → Forall2 lt (replicate (length sizes) 0%nat) sizes.
Proof. induction 1; simpl; by constructor. Qed.

(** ** The product *)
Definition product_key (dims : list (string * DimensionUniverse)) (vs : list string) : PartitionKey :=
  norm (Multi (zip_with (λ d v, (d.1, [v])) dims vs)).

Lemma combo_product dims idx :
  Forall2 lt idx ((λ d, length (du_keys d.2)) <$> dims) →
  ∃ vs, Forall2 (λ v d, v ∈ du_keys d.2) vs dims ∧ combo dims idx = product_key dims vs.
Proof.
  intros H. exists (zip_with (λ d i, nth i (du_keys d.2) EmptyString) dims idx). split.
  - revert idx H. induction dims as [|d dims IH]; intros idx H; inversion H; subst; simpl; constructor.
    + apply list_elem_of_In, nth_In. done.
    + by apply IH.
  - unfold combo, product_key. f_equal. f_equal. revert idx H.
    induction dims as [|d dims IH]; intros idx H; inversion H; subst; simpl; [done|]. f_equal. by apply IH.
Qed.

Lemma product_combo dims vs :
  Forall2 (λ v d, v ∈ du_keys d.2) vs dims →
  ∃ idx, Forall2 lt idx ((λ d, length (du_keys d.2)) <$> dims) ∧ product_key dims vs = combo dims idx.
Proof.
  intros H. assert (∃ idx, Forall2 lt idx ((λ d, length (du_keys d.2)) <$> dims) ∧
    zip_with (λ d v, (d.1, [v])) dims vs
    = zip_with (λ d i, (d.1, [nth i (du_keys d.2) EmptyString])) dims idx) as (idx & ? & Heq).
  2: { exists idx. split; [done|]. unfold product_key, combo. by rewrite Heq. }
  induction H as [|v d vs dims Hv _ (idx & Hi & Heq)]; [exists []; by split; [constructor|]|].
  apply list_elem_of_In, (In_nth _ _ EmptyString) in Hv as (i & Hlt & Hn).
  exists (i :: idx). split; [by constructor|]. simpl. by rewrite Hn, Heq.
Qed.

(** The odometer over the dimensions' keys stops, and leaves exactly the keys of the
    product: one value per dimension, in the dimensions' order. *)
Theorem cartesian_universe_exact dims k :
  k ∈ cartesian_universe dims ↔
  dims ≠ [] ∧ ∃ vs, Forall2 (λ v d, v ∈ du_keys d.2) vs dims ∧ k = product_key dims vs.
Proof.
  unfold cartesian_universe. set (sizes := (λ d, length (du_keys d.2)) <$> dims).
  destruct (bool_decide_reflect (dims = [])) as [->|Hne]; simpl; [set_solver|].
  destruct (existsb (λ n, n =? 0)%nat sizes) eqn:He.
  - split; [set_solver|]. intros (_ & vs & Hvs & _). apply existsb_exists in He as (n & Hn & H0).
    apply list_elem_of_In, list_elem_of_fmap in Hn as (d & -> & Hd).
    apply Nat.eqb_eq, length_zero_iff_nil in H0.
    apply list_elem_of_lookup in Hd as (j & Hj).
    destruct (Forall2_lookup_r _ _ _ _ _ Hvs Hj) as (v & _ & Hv). rewrite H0 in Hv. by apply not_elem_of_nil in Hv.
  - assert (Hpos : Forall (λ n, 0 < n)%nat sizes).
    { apply Forall_forall. intros n Hn. destruct (decide (n = 0%nat)) as [->|]; [|lia].
      rewrite <-not_true_iff_false in He. exfalso. apply He, existsb_exists. exists 0%nat.
      by rewrite <-list_elem_of_In. }
    assert (Hl : length dims = length sizes) by (by unfold sizes; rewrite length_fmap).
    rewrite Hl, odometer_spec by (by apply zeros_valid || by rewrite length_from_zero).
    rewrite union_empty_r_L, elem_of_list_to_set, list_elem_of_fmap.
    fold sizes. setoid_rewrite (λ idx, elem_of_from_zero sizes idx Hpos). split.
    + intros (idx & -> & Hi). split; [done|]. by apply combo_product.
    + intros (_ & vs & Hvs & ->). destruct (product_combo dims vs Hvs) as (idx & ? & ->). by exists idx.
Qed.

(** ** What a universe should hold *)

(** The windows of an interval grid that start before [et], within the grid's end. *)
Definition started (g : TimeGridDef) (i et x : Z) : Prop :=
  on_grid g i x ∧ x < et ∧ ∀ e, grid_end g = Some e → x < e.

Definition window_bound (g : TimeGridDef) (now : Z) : Z :=
  match grid_end g with Some e => Z.min e now | None => now end.

(** The keys of the values of a namespace. *)
Definition singles (ks : gset string) : KeySet := list_to_set (single <$> elements ks).

Lemma elem_of_singles ks k : single k ∈ singles ks ↔ k ∈ ks.
Proof.
  unfold singles. rewrite elem_of_list_to_set, list_elem_of_fmap. setoid_rewrite elem_of_elements.
  split; [by intros (k' & [= ->] & ?)|]. intros ?. by exists k.
Qed.

Lemma size_singles ks : size (singles ks) = size ks.
Proof.
  unfold singles. rewrite size_list_to_set, length_fmap; [done|].
  apply NoDup_fmap_2; [by intros ?? [= ->]|apply NoDup_elements].
Qed.

Section refresh.
Context {J : JiffText} {K : CronGrid} (clock now : Z) (dynamic_keys : DynamicKeys).

Record axis_ok (g : TimeGridDef) (et : Z) (has : string → Prop) : Prop := {
  ao_keys : ∃ i, interval_grid g i ∧ ∀ k, has k ↔ ∃ x, started g i et x ∧ k = key_at g x
}.

Definition dim_ok (du : DimensionUniverse) : Prop :=
  NoDup (du_keys du) ∧
  match du_kind du with DTimeWindow g et => axis_ok g et (λ k, k ∈ du_keys du) | _ => True end.

(** Every key of the universe is one the definition gives, and conversely. *)
Definition universe_ok (u : PartitionUniverse) (keys : KeySet) : Prop :=
  match u with
  | UFrozen => True
  | UTimeWindow g et =>
      axis_ok g et (λ k, single k ∈ keys) ∧ ∀ pk, pk ∈ keys → ∃ k, pk = single k
  | UDynamic _ => ∃ cur, keys = singles cur
  | UMulti dims => Forall (λ d, dim_ok d.2) dims ∧ keys = cartesian_universe dims
  end.

Definition dim_current (du : DimensionUniverse) : Prop :=
  match du_kind du with
  | DFrozen => True
  | DTimeWindow g et => window_bound g now ≤ et
  | DDynamic ns => ∀ ks, dynamic_keys !! ns = Some ks → ∀ k, k ∈ du_keys du ↔ k ∈ ks
  end.

(** The universe reflects the present time and the present namespaces. *)
Definition universe_current (u : PartitionUniverse) (keys : KeySet) : Prop :=
  match u with
  | UFrozen => True
  | UTimeWindow g et => window_bound g now ≤ et
  | UDynamic ns => ∀ ks, dynamic_keys !! ns = Some ks → keys = singles ks
  | UMulti dims => Forall (λ d, dim_current d.2) dims
  end.

Definition dim_grids (du : DimensionUniverse) : list TimeGridDef :=
  match du_kind du with DTimeWindow g _ => [g] | _ => [] end.

Definition universe_grids (u : PartitionUniverse) : list TimeGridDef :=
  match u with
  | UTimeWindow g _ => [g]
  | UMulti dims => dims ≫= λ d, dim_grids d.2
  | _ => []
  end.

Hypothesis Hclock : now ≤ clock.

(** The windows an advance adds. *)
Lemma advance_windows g i et :
  interval_grid g i → reachable g now → et < window_bound g now →
  ∃ ws, window_starts_in clock g et (window_bound g now) = inl (key_at g <$> ws) ∧
  ∀ x, started g i (window_bound g now) x ↔ started g i et x ∨ x ∈ ws.
Proof.
  intros Hg Hr Het.
  assert (He : Z.min (window_bound g now) (end_bound clock g) = window_bound g now).
  { unfold window_bound, end_bound. destruct (grid_end g); simpl; lia. }
  destruct (window_times_exact clock g i Hg et (window_bound g now)) as (ws & Hw & _ & Hx).
  { rewrite He. unfold reachable, window_bound in *. destruct (grid_end g); lia. }
  exists ws. unfold window_starts_in. rewrite Hw. split; [done|]. intros x. rewrite Hx, He.
  unfold started, window_bound in *. split.
  - intros (H1 & H2 & H3). destruct (Z.lt_ge_cases x et); [left|right]; (split; [done|]); [by split|lia].
  - intros [(H1 & H2 & H3)|(H1 & H2)]; split_and!; try done; [lia|lia|].
    intros e Hge. rewrite Hge in H2. lia.
Qed.

(** An insertion adds the key, keeps the set's own invariant, and reports any change. *)
Record insert_ok {X} (insert : string → X → bool * X) (has : X → string → Prop) (Inv : X → Prop)
    : Prop := {
  io_inv k s : Inv s → Inv (insert k s).2;
  io_has k s k' : has (insert k s).2 k' ↔ k' = k ∨ has s k';
  io_same k s : (insert k s).1 = false → (insert k s).2 = s
}.

Lemma grow_spec {X} (insert : string → X → bool * X) has Inv l c s :
  insert_ok insert has Inv → Inv s →
  let r := foldl (λ '(changed, keys) k,
             let '(grew, keys) := insert k keys in (changed || grew, keys)) (c, s) l in
  Inv r.2 ∧ (∀ k, has r.2 k ↔ k ∈ l ∨ has s k) ∧ (r.1 = false → c = false ∧ r.2 = s).
Proof.
  intros Hi. cbv zeta. revert c s. induction l as [|k l IH]; intros c s Hs; cbn [foldl].
  { split_and!; [done| |done]. intros k. rewrite elem_of_nil. tauto. }
  pose proof (io_inv _ _ _ Hi k s Hs) as H1. pose proof (io_has _ _ _ Hi k s) as H2.
  pose proof (io_same _ _ _ Hi k s) as H3. destruct (insert k s) as [grew s1]. simpl in H1, H2, H3.
  destruct (IH (c || grew) s1 H1) as (H4 & H5 & H6). split; [done|]. split.
  - intros k'. rewrite H5, H2, elem_of_cons. tauto.
  - intros Hr. destruct (H6 Hr) as [[-> ->]%orb_false_iff ->]. split; [done|]. by apply H3.
Qed.

Lemma advance_spec {X} (insert : string → X → bool * X) (has : X → string → Prop) (Inv : X → Prop)
    g et keys c et' keys' :
  insert_ok insert has Inv → reachable g now → Inv keys → axis_ok g et (has keys) →
  advance_time_window_axis clock insert g et now keys = (c, et', keys') →
  Inv keys' ∧ axis_ok g et' (has keys') ∧ window_bound g now ≤ et' ∧ (c = false → keys' = keys).
Proof.
  intros Hins Hr HI [(i & Hg & Hk)]. unfold advance_time_window_axis. fold (window_bound g now).
  destruct (Z.leb_spec (window_bound g now) et) as [Hle|Hlt].
  { intros [= <- <- <-]. split_and!; [done| |done|done]. constructor. by exists i. }
  destruct (advance_windows g i et Hg Hr Hlt) as (ws & -> & Hws).
  destruct (grow_spec insert has Inv (key_at g <$> ws) false keys Hins HI) as (H1 & H2 & H3).
  destruct (foldl _ _ _) as [c0 s0]. intros [= <- <- <-]. simpl in *.
  split_and!; [done| |lia|by intros [_ ?]%H3]. constructor. exists i. split; [done|]. intros k.
  rewrite H2, Hk, list_elem_of_fmap. setoid_rewrite Hws. naive_solver.
Qed.

Lemma hash_insert_ok :
  insert_ok hash_insert (λ s k, single k ∈ s) (λ s, ∀ pk, pk ∈ s → ∃ k, pk = single k).
Proof.
  split; simpl.
  - intros k s Hs pk [->%elem_of_singleton|?]%elem_of_union; [by exists k|by apply Hs].
  - intros k s k'. rewrite elem_of_union, elem_of_singleton. unfold single. simpl. naive_solver.
  - intros k s H%negb_false_iff%bool_decide_eq_true_1. set_solver.
Qed.

Lemma order_insert_ok : insert_ok order_insert (λ s k, k ∈ s) NoDup.
Proof.
  unfold order_insert. split.
  - intros k s Hs. case_bool_decide; [done|]. apply NoDup_app. split_and!; [done| |apply NoDup_singleton].
    intros x ? ->%list_elem_of_singleton. done.
  - intros k s k'. case_bool_decide; simpl; [naive_solver|].
    rewrite elem_of_app, list_elem_of_singleton. naive_solver.
  - intros k s. by case_bool_decide.
Qed.

(** Equal sizes and containment make equal sets. *)
Lemma dynamic_unchanged (fresh : gset string) (has : string → bool) n (cur : gset string) :
  (∀ k, has k = true ↔ k ∈ cur) → size cur = n → dynamic_axis_changed fresh n has = false →
  cur = fresh.
Proof.
  intros Hhas Hn [H1 H2]%orb_false_iff. apply negb_false_iff in H1, H2.
  apply Nat.eqb_eq in H1. symmetry. apply set_subseteq_size_eq; [|lia].
  intros k Hk. apply Hhas. rewrite forallb_forall in H2. apply H2, list_elem_of_In.
  by apply elem_of_elements.
Qed.

Lemma refresh_dimension_ok du c du' :
  Forall (λ g, reachable g now) (dim_grids du) → dim_ok du →
  refresh_dimension clock now dynamic_keys du = (c, du') →
  dim_ok du' ∧ dim_current du' ∧ (c = false → du_keys du' = du_keys du).
Proof.
  unfold dim_ok, dim_grids, dim_current, refresh_dimension. intros Hr [Hnd Hk].
  destruct (du_kind du) as [|g et|ns] eqn:Hkind.
  - intros [= <- <-]. by rewrite Hkind.
  - destruct (advance_time_window_axis _ _ _ _ _ _) as [[c0 et0] keys0] eqn:Ha. intros [= <- <-].
    eapply (advance_spec order_insert (λ s k, k ∈ s) NoDup) in Ha as (H1 & H2 & H3 & H4);
      [done|apply order_insert_ok|by inversion Hr|done|done].
  - destruct (dynamic_keys !! ns) as [ks|] eqn:Hns; [|intros [= <- <-]; rewrite Hkind; naive_solver].
    destruct (dynamic_axis_changed _ _ _) eqn:Hd; intros [= <- <-]; cbn [du_keys du_kind]; rewrite ?Hkind.
    + split_and!; [|done| |done].
      * rewrite sort_by_perm. apply NoDup_elements.
      * intros ks' Hks k. simplify_eq. by rewrite elem_of_sort_by, elem_of_elements.
    + split_and!; [done|done| |done]. intros ks' Hks k. simplify_eq.
      apply (dynamic_unchanged _ _ _ (list_to_set (du_keys du))) in Hd as <-.
      * by rewrite elem_of_list_to_set.
      * intros. rewrite bool_decide_eq_true. by rewrite elem_of_list_to_set.
      * by apply size_list_to_set.
Qed.

Lemma refresh_dimensions_ok dims c dims' :
  Forall (λ g, reachable g now) (dims ≫= λ d, dim_grids d.2) → Forall (λ d, dim_ok d.2) dims →
  refresh_dimensions clock now dynamic_keys dims = (c, dims') →
  Forall (λ d, dim_ok d.2) dims' ∧ Forall (λ d, dim_current d.2) dims' ∧
  (c = false → Forall2 (λ d' d, d'.1 = d.1 ∧ du_keys d'.2 = du_keys d.2) dims' dims).
Proof.
  unfold refresh_dimensions. intros Hr Hok.
  assert (Hgen : ∀ c0 out, let r := foldl (λ '(changed, out) '(name, du),
      let '(c, du) := refresh_dimension clock now dynamic_keys du in
      (changed || c, out ++ [(name, du)])) (c0, out) dims in
    ∃ new, r.2 = out ++ new ∧ Forall (λ d, dim_ok d.2) new ∧ Forall (λ d, dim_current d.2) new ∧
      (r.1 = false → c0 = false ∧ Forall2 (λ d' d, d'.1 = d.1 ∧ du_keys d'.2 = du_keys d.2) new dims)).
  { induction Hok as [|[name du] dims Hd _ IH]; intros c0 out; cbn [foldl].
    - exists []. rewrite app_nil_r. split_and!; try done; constructor.
    - apply Forall_app in Hr as [Hr1 Hr2].
      destruct (refresh_dimension _ _ _ du) as [c1 du1] eqn:Hrd.
      apply refresh_dimension_ok in Hrd as (H1 & H2 & H3); [|done|done].
      destruct (IH Hr2 (c0 || c1) (out ++ [(name, du1)])) as (new & -> & H4 & H5 & H6).
      exists ((name, du1) :: new). rewrite <-app_assoc.
      split_and!; [done|by constructor|by constructor|].
      intros Hf. destruct (H6 Hf) as [[-> ->]%orb_false_iff ?]. split; [done|].
      constructor; [split; [done|by apply H3]|done]. }
  intros Hf. destruct (Hgen false []) as (new & H1 & H2 & H3 & H4). cbv zeta in *.
  rewrite Hf in H1, H4. simpl in *. subst dims'. split_and!; [done|done|]. intros. by apply H4.
Qed.

(** The product depends on the names and keys of the dimensions alone. *)
Lemma cartesian_ext dims dims' :
  Forall2 (λ d' d, d'.1 = d.1 ∧ du_keys d'.2 = du_keys d.2) dims' dims →
  cartesian_universe dims' = cartesian_universe dims.
Proof.
  intros H. apply set_eq. intros k. rewrite !cartesian_universe_exact.
  assert (Hp : ∀ vs, product_key dims' vs = product_key dims vs).
  { intros vs. unfold product_key. do 2 f_equal. revert vs.
    induction H as [|d' d dims' dims [Hn _] _ IH]; intros [|v vs]; simpl; try done. by rewrite Hn, IH. }
  setoid_rewrite Hp.
  assert (Hv : ∀ vs, Forall2 (λ v d, v ∈ du_keys d.2) vs dims' ↔
                     Forall2 (λ v d, v ∈ du_keys d.2) vs dims).
  { clear Hp. induction H as [|d' d dims' dims [_ Hk] _ IH]; intros vs; [done|].
    split; inversion 1; subst; constructor; try apply IH; congruence. }
  setoid_rewrite Hv. assert (dims' = [] ↔ dims = []) as ->; [|done].
  by destruct H.
Qed.

(** A refresh brings a universe to the present and keeps it exact: a time-window
    universe holds the windows of its grid started by now (and before the grid's end), a
    dynamic one the keys of its namespace, a multi-dimensional one the product of its
    dimensions; and a key set never changes without the refresh reporting a change. *)
Theorem refresh_universe_ok u keys c u' keys' :
  Forall (λ g, reachable g now) (universe_grids u) → universe_ok u keys →
  refresh_universe clock now dynamic_keys u keys = (c, u', keys') →
  universe_ok u' keys' ∧ universe_current u' keys' ∧ (c = false → keys' = keys).
Proof.
  intros Hr Hok. destruct u as [|g et|ns|dims]; cbn [refresh_universe].
  - by intros [= <- <- <-].
  - destruct (advance_time_window_axis _ _ _ _ _ _) as [[c0 et0] keys0] eqn:Ha. intros [= <- <- <-].
    destruct Hok as [Hok Hs].
    eapply (advance_spec hash_insert (λ s k, single k ∈ s)
      (λ s, ∀ pk, pk ∈ s → ∃ k, pk = single k)) in Ha as (H1 & H2 & H3 & H4);
      [done|apply hash_insert_ok|by inversion Hr|done|done].
  - simpl in Hok. destruct Hok as [cur ->].
    destruct (dynamic_keys !! ns) as [ks|] eqn:Hns; [|intros [= <- <- <-]; simpl; naive_solver].
    destruct (dynamic_axis_changed _ _ _) eqn:Hd; intros [= <- <- <-]; simpl.
    + split; [by exists ks|]. split; [|done]. intros ks' Hks. by simplify_eq.
    + split; [by exists cur|]. split; [|done]. intros ks' Hks. simplify_eq.
      apply (dynamic_unchanged _ _ _ cur) in Hd as <-; [done| |by rewrite size_singles].
      intros k. by rewrite bool_decide_eq_true, elem_of_singles.
  - destruct Hok as [Hok ->]. destruct (refresh_dimensions _ _ _ dims) as [c0 dims0] eqn:Hd.
    intros [= <- <- <-]. apply refresh_dimensions_ok in Hd as (H1 & H2 & H3); [|done|done].
    destruct c0; simpl; [done|]. split; [|done]. split; [done|]. symmetry. by apply cartesian_ext, H3.
Qed.
End refresh.

(** ** Examples *)
Definition ex_dims : list (string * DimensionUniverse) :=
  [("day", {| du_keys := ["|"; "||"]; du_kind := DFrozen |});
   ("region", {| du_keys := ["eu"]; du_kind := DDynamic "regions" |})].

(** A grid advanced from two to seven seconds gains the windows at 2, 4 and 6. *)
Definition ex_windows : KeySet := {[ single EmptyString ]}.

Lemma ex_universe_ok : universe_ok (UTimeWindow ex_time_grid (2 * 10 ^ 9)) ex_windows.
Proof.
  split.
  - constructor. exists (2 * 10 ^ 9). split; [exact ex_interval_grid|]. intros k. unfold ex_windows.
    rewrite elem_of_singleton. split.
    + intros [= ->]. exists 0. split; [|reflexivity]. split; [by exists 0|].
      split; [lia|]. by intros e [= <-].
    + intros (x & ((j & ? & ->) & Hlt & _) & ->). simpl in *. by assert (j = 0) as -> by lia.
  - intros pk ->%elem_of_singleton. by eexists.
Qed.

Definition ex_refreshed : bool * PartitionUniverse * KeySet :=
  refresh_universe (7 * 10 ^ 9) (7 * 10 ^ 9) ∅ (UTimeWindow ex_time_grid (2 * 10 ^ 9)) ex_windows.

Example ex_refreshed_keys :
  bool_decide (ex_refreshed.2 = list_to_set (single <$> [""; "||"; "||||"; "||||||"])) = true.
Proof. vm_compute. reflexivity. Qed.

Lemma refresh_universe_ok_witness : universe_ok ex_refreshed.1.2 ex_refreshed.2.
Proof.
  refine (proj1 (refresh_universe_ok (7 * 10 ^ 9) (7 * 10 ^ 9) ∅ (Z.le_refl _) _ ex_windows
    ex_refreshed.1.1 _ ex_refreshed.2 _ ex_universe_ok _)).
  - constructor; [apply ex_reachable; lia|constructor].
  - fold ex_refreshed. by destruct ex_refreshed as [[]].
Defined.

Example ex_product :
  bool_decide (cartesian_universe ex_dims
    = {[ norm (Multi [("day", ["|"]); ("region", ["eu"])]);
         norm (Multi [("day", ["||"]); ("region", ["eu"])]) ]}) = true.
Proof. vm_compute. reflexivity. Qed.
