(* ===== verification/Window.v ===== *)
(** * The latest time window (rust/rivers-core/src/condition/pass/window.rs)

    Which keys of an asset fall in its latest time window: a scan of every key, and the
    derivation from the grid that avoids it, which falls back to the scan. The resolver's
    memo only keeps results within one tick, where an asset's universe does not change;
    it is left out. *)

From S2P Require Import Prelude PartitionKey Selection TimeGrid TimeGridTheorems Universe.
From Stdlib Require Import SpecFloat.
#[local] Open Scope Z_scope.

Record TimeWindowSource := {
  tws_fmt : string;
  tws_grid : option TimeGridDef
}.

Section window.
Context {J : JiffText} {K : CronGrid} `{HI : !HashIter PartitionKey}.

(** [filter_map] of the scan: the keys that parse to a time that has come. *)
Definition parsed_key (fmt : string) (now_local : DateTime) (pk : PartitionKey)
    : option (PartitionKey * DateTime) :=
  match pk with
  | Single (k :: _) =>
      match parse_key_datetime k fmt with
      | Some dt => if dt <=? now_local then Some (pk, dt) else None
      | None => None
      end
  | _ => None
  end.

Definition later_first (a b : PartitionKey * DateTime) : bool := b.2 <=? a.2.

(** [cutoff.is_none_or(|c| dt >= c)] *)
Definition since_cutoff (cutoff : option DateTime) (dt : DateTime) : bool :=
  match cutoff with Some c => c <=? dt | None => true end.

Definition compute_latest_time_window_keys (all_keys : KeySet) (fmt : string)
    (now_local : DateTime) (lookback_delta : option spec_float) : KeySet :=
  match sort_by later_first (omap (parsed_key fmt now_local) (hash_iter all_keys)) with
  | [] => ∅
  | first :: rest =>
      match lookback_delta with
      | Some delta_secs =>
          let cutoff := checked_add first.2 (- nanos_of_secs delta_secs) in
          list_to_set (fst <$> filter (λ e, since_cutoff cutoff e.2 = true) (first :: rest))
      | None => {[ first.1 ]}
      end
  end.

Definition insert_if_known (all_keys : KeySet) (key : string) (out : KeySet) : KeySet :=
  if bool_decide (single key ∈ all_keys) then {[ single key ]} ∪ out else out.

(** The loop over the keys of the range; a key that does not parse gives up. *)
Fixpoint insert_window (fmt : string) (all_keys : KeySet) (cutoff : DateTime)
    (keys : list string) (out : KeySet) : option KeySet :=
  match keys with
  | [] => Some out
  | key :: keys =>
      match parse_key_datetime key fmt with
      | Some dt =>
          insert_window fmt all_keys cutoff keys
            (if cutoff <=? dt then insert_if_known all_keys key out else out)
      | None => None
      end
  end.

Definition derive_window_keys_from_grid (clock : DateTime) (grid : TimeGridDef) (all_keys : KeySet)
    (now_local : DateTime) (lookback_delta : option spec_float) : option KeySet :=
  match (nearest_keys clock grid now_local).1 with
  | None => None
  | Some latest =>
      match parse_key_datetime latest (grid_fmt grid) with
      | None => None
      | Some latest_dt =>
          match lookback_delta with
          | None => Some (insert_if_known all_keys latest ∅)
          | Some delta_secs =>
              match checked_add latest_dt (- nanos_of_secs delta_secs) with
              | None => None
              | Some cutoff =>
                  match keys_in_range grid cutoff latest_dt with
                  | inl keys =>
                      insert_if_known all_keys latest
                        <$> insert_window (grid_fmt grid) all_keys cutoff keys ∅
                  | inr _ => None
                  end
              end
          end
      end
  end.

Definition keys_for (clock : DateTime) (sources : gmap string TimeWindowSource)
    (now_local : DateTime) (asset : string) (all_keys : KeySet)
    (lookback_delta : option spec_float) : option KeySet :=
  match sources !! asset with
  | None => None
  | Some source =>
      let derived :=
        match tws_grid source with
        | Some grid => derive_window_keys_from_grid clock grid all_keys now_local lookback_delta
        | None => None
        end in
      Some (default (compute_latest_time_window_keys all_keys (tws_fmt source) now_local
                       lookback_delta) derived)
  end.
End window.

(** ** The derivation and the scan agree *)
Lemma later_first_le a b : later_first a b ↔ b.2 ≤ a.2.
Proof. unfold later_first. destruct (Z.leb_spec b.2 a.2); simpl; [done|]. split; [done|lia]. Qed.

Section agree.
Context {J : JiffText} {K : CronGrid} `{HI : !HashIter PartitionKey}.
Context (clock now : Z) (g : TimeGridDef) (i : Z) (all_keys : KeySet).

(** The ticks the grid has by [now], within its end. *)
Let due (x : Z) : Prop := on_grid g i x ∧ x ≤ now ∧ x < end_bound clock g.

(** The universe is made of the grid's ticks and knows every one that is due. *)
Record grid_universe : Prop := {
  gu_grid : interval_grid g i;
  gu_fmt : fmt_precise g i;
  gu_now : reachable g now;
  gu_step : now - grid_start g + i ≤ i64_max;
  gu_end : reachable g (end_bound clock g);
  gu_end_min : dt_min < end_bound clock g;
  gu_ticks pk : pk ∈ all_keys → ∃ x, on_grid g i x ∧ x < end_bound clock g ∧ pk = single (key_at g x);
  gu_due x : due x → single (key_at g x) ∈ all_keys
}.

Hypothesis Hu : grid_universe.

Lemma parse_due x : due x → parse_key_datetime (key_at g x) (grid_fmt g) = Some x.
Proof. intros (Hx & ? & ?). apply (gu_fmt Hu); [done|]. destruct (gu_now Hu). lia. Qed.

Lemma elem_of_parsed e :
  e ∈ omap (parsed_key (grid_fmt g) now) (hash_iter all_keys) ↔
  ∃ x, due x ∧ e = (single (key_at g x), x).
Proof.
  rewrite list_elem_of_omap. setoid_rewrite elem_of_hash_iter. split.
  - intros (pk & Hpk & He). destruct (gu_ticks Hu pk Hpk) as (x & Hx & Hend & ->).
    unfold parsed_key, single in He. simpl in He.
    rewrite (gu_fmt Hu x Hx) in He by (destruct (gu_end Hu); lia).
    destruct (Z.leb_spec x now); [|done]. injection He as <-. exists x. by split.
  - intros (x & Hx & ->). exists (single (key_at g x)). split; [by apply (gu_due Hu)|].
    unfold parsed_key, single. simpl. rewrite parse_due by done. destruct Hx as (? & ? & ?).
    by rewrite (proj2 (Z.leb_le x now)).
Qed.

Lemma key_at_inj x y : due x → due y → single (key_at g x) = single (key_at g y) → x = y.
Proof.
  intros Hx Hy [= Heq]. apply parse_due in Hx. apply parse_due in Hy. rewrite Heq in Hx. congruence.
Qed.

(** The scan: with no tick due, nothing; otherwise the latest one, or those of the lookback. *)
Lemma scan_none lookback :
  (∀ x, ¬ due x) → compute_latest_time_window_keys all_keys (grid_fmt g) now lookback = ∅.
Proof.
  intros Hno. unfold compute_latest_time_window_keys.
  destruct (sort_by _ _) as [|e l] eqn:Hs; [done|]. exfalso.
  assert (He : e ∈ sort_by later_first (omap (parsed_key (grid_fmt g) now) (hash_iter all_keys)))
    by (rewrite Hs; left).
  apply elem_of_sort_by, elem_of_parsed in He as (x & Hx & _). by eapply Hno.
Qed.

Lemma scan_latest x lookback :
  due x → (∀ y, due y → y ≤ x) →
  compute_latest_time_window_keys all_keys (grid_fmt g) now lookback
  = match lookback with
    | None => {[ single (key_at g x) ]}
    | Some d => list_to_set (fst <$> filter
        (λ e, since_cutoff (checked_add x (- nanos_of_secs d)) e.2 = true)
        (omap (parsed_key (grid_fmt g) now) (hash_iter all_keys)))
    end.
Proof.
  intros Hx Hmax. unfold compute_latest_time_window_keys.
  set (l := omap _ _). pose proof (sort_by_perm later_first l) as Hp.
  assert (Hsort : StronglySorted (λ a b, later_first a b) (sort_by later_first l)).
  { apply sort_by_sorted; intros ??*; rewrite !later_first_le; lia. }
  destruct (sort_by later_first l) as [|e rest] eqn:Hs.
  { exfalso. assert (Hin : (single (key_at g x), x) ∈ l) by (apply elem_of_parsed; by exists x).
    rewrite <-Hp in Hin. by apply not_elem_of_nil in Hin. }
  assert (He : e = (single (key_at g x), x)).
  { assert (Hin : e ∈ l) by (rewrite <-Hp; left). apply elem_of_parsed in Hin as (y & Hy & ->).
    assert (Hin : (single (key_at g x), x) ∈ l) by (apply elem_of_parsed; by exists x).
    rewrite <-Hp in Hin. apply elem_of_cons in Hin as [Heq|Hin]; [done|].
    inversion Hsort as [|?? _ Hall]; subst. rewrite Forall_forall in Hall. specialize (Hall _ Hin).
    apply later_first_le in Hall. simpl in Hall. pose proof (Hmax y Hy).
    assert (x = y) as -> by lia. done. }
  subst e. destruct lookback as [d|]; [|done]. cbn [snd].
  apply set_eq. intros k. rewrite !elem_of_list_to_set, !list_elem_of_fmap.
  setoid_rewrite list_elem_of_filter. by setoid_rewrite Hp.
Qed.

Lemma insert_known x out :
  due x → insert_if_known all_keys (key_at g x) out = {[ single (key_at g x) ]} ∪ out.
Proof. intros Hx. unfold insert_if_known. by rewrite bool_decide_true by by apply (gu_due Hu). Qed.

Lemma insert_window_due cutoff ts out :
  (∀ t, t ∈ ts → due t ∧ cutoff ≤ t) →
  insert_window (grid_fmt g) all_keys cutoff (key_at g <$> ts) out
  = Some (list_to_set ((λ t, single (key_at g t)) <$> ts) ∪ out).
Proof.
  revert out. induction ts as [|t ts IH]; intros out Hts; simpl; [f_equal; set_solver|].
  destruct (Hts t) as [Ht Hc]; [left|]. rewrite parse_due by done.
  rewrite (proj2 (Z.leb_le cutoff t)), insert_known, IH by (done || set_solver). f_equal. set_solver.
Qed.

Lemma derive_agrees lookback keys :
  match lookback with Some d => 0 ≤ nanos_of_secs d | None => True end →
  derive_window_keys_from_grid clock g all_keys now lookback = Some keys →
  compute_latest_time_window_keys all_keys (grid_fmt g) now lookback = keys.
Proof.
  intros Hlb. unfold derive_window_keys_from_grid.
  destruct (nearest_times_exact clock g i (gu_grid Hu) now (gu_now Hu) (gu_end Hu) (gu_end_min Hu))
    as [Hp _].
  unfold nearest_keys. destruct (nearest_times clock g now) as [p n]. cbn [fst snd] in *.
  destruct p as [x|]; simpl; [|done]. destruct Hp as [Hx Hmax]. fold (due x) in Hx.
  rewrite parse_due by done. rewrite (scan_latest x lookback Hx Hmax). destruct lookback as [d|].
  2: { intros [= <-]. rewrite insert_known by done. by rewrite union_empty_r_L. }
  destruct (checked_add x _) as [cutoff|] eqn:Hc; [|done]. apply checked_add_Some in Hc as [-> _].
  destruct (times_in_range_exact g i (gu_grid Hu) (x + - nanos_of_secs d) x) as (ts & Hts & _ & Hel).
  { destruct (gu_now Hu), Hx as (_ & ? & _). unfold reachable. lia. }
  { destruct Hx as (_ & ? & _). pose proof (gu_step Hu). lia. }
  unfold keys_in_range. rewrite Hts. simpl.
  rewrite insert_window_due
    by (intros t (Ht & ?)%Hel; destruct Hx as (? & ? & ?); split; [split; [exact Ht|lia]|lia]).
  simpl. intros [= <-]. rewrite insert_known, union_empty_r_L by done.
  apply set_eq. intros k.
  rewrite elem_of_union, elem_of_singleton, !elem_of_list_to_set, !list_elem_of_fmap.
  setoid_rewrite list_elem_of_filter. setoid_rewrite elem_of_parsed. setoid_rewrite Hel. split.
  - intros (e & -> & Hcut & y & Hy & ->). simpl in *. apply Z.leb_le in Hcut. right. exists y.
    split; [done|]. split; [apply Hy|]. split; [done|by apply Hmax].
  - intros [->|(t & -> & Ht & ?)].
    + exists (single (key_at g x), x). split; [done|]. split; [apply Z.leb_le; simpl; lia|by exists x].
    + exists (single (key_at g t), t). split; [done|]. split; [apply Z.leb_le; simpl; lia|].
      exists t. split; [|done]. destruct Hx as (? & ? & ?). split; [done|lia].
Qed.

(** On a universe that holds the grid's ticks up to now, resolving the latest time window
    from the grid, without looking at the other keys, gives what the scan of every key
    gives, with and without a lookback. *)
Theorem window_fast_path sources asset lookback :
  match lookback with Some d => 0 ≤ nanos_of_secs d | None => True end →
  keys_for clock (<[asset := {| tws_fmt := grid_fmt g; tws_grid := Some g |}]> sources) now asset
    all_keys lookback
  = keys_for clock (<[asset := {| tws_fmt := grid_fmt g; tws_grid := None |}]> sources) now asset
      all_keys lookback.
Proof.
  intros Hlb. unfold keys_for. rewrite !lookup_insert_eq. cbn [tws_grid tws_fmt default].
  destruct (derive_window_keys_from_grid _ _ _ _ _) as [keys|] eqn:Hd; [|done].
  f_equal. symmetry. by apply derive_agrees.
Qed.
End agree.

(** ** Example *)

(** Seven seconds in, the windows at 0, 2, 4 and 6 are known. *)
Definition ex_known : KeySet := list_to_set (single <$> [""; "||"; "||||"; "||||||"]).

Lemma ex_grid_universe : grid_universe 0 (7 * 10 ^ 9) ex_time_grid (2 * 10 ^ 9) ex_known.
Proof.
  assert (Hk : ∀ j, 0 ≤ j → key_at ex_time_grid (grid_start ex_time_grid + j * (2 * 10 ^ 9))
                    = unary (Z.to_nat (j * 2))).
  { intros j Hj. unfold key_at. cbn [strftime ex_jiff grid_start ex_time_grid]. do 2 f_equal.
    replace (0 + j * (2 * 10 ^ 9)) with (j * 2 * 10 ^ 9) by lia. by apply Z.div_mul. }
  split; [exact ex_interval_grid|exact ex_fmt_precise|apply ex_reachable; lia|vm_compute; congruence|
    apply ex_reachable; vm_compute; congruence|vm_compute; congruence| |].
  - intros pk Hpk. unfold ex_known in Hpk. rewrite elem_of_list_to_set, list_elem_of_fmap in Hpk.
    destruct Hpk as (k & -> & Hin).
    assert (∃ j, 0 ≤ j ≤ 3 ∧ k = unary (Z.to_nat (j * 2))) as (j & Hj & ->).
    { repeat (apply elem_of_cons in Hin as [->|Hin]); [exists 0|exists 1|exists 2|exists 3|];
        [split; [lia|reflexivity]..|by apply not_elem_of_nil in Hin]. }
    exists (grid_start ex_time_grid + j * (2 * 10 ^ 9)). split; [exists j; lia|].
    split; [change (0 + j * (2 * 10 ^ 9) < 20 * 10 ^ 9); lia|].
    by rewrite Hk by lia.
  - intros x ((j & Hj & ->) & Hle & _). rewrite Hk by done.
    change (0 + j * (2 * 10 ^ 9) ≤ 7 * 10 ^ 9) in Hle. unfold ex_known.
    rewrite elem_of_list_to_set. apply list_elem_of_fmap_2.
    assert (j = 0 ∨ j = 1 ∨ j = 2 ∨ j = 3) as [->|[->|[->| ->]]] by lia; simpl; set_solver.
Qed.

Lemma window_fast_path_witness :
  keys_for 0 {[ "a" := {| tws_fmt := "%s"; tws_grid := Some ex_time_grid |} ]} (7 * 10 ^ 9) "a"
    ex_known (Some (S754_finite false 3 0))
  = keys_for 0 {[ "a" := {| tws_fmt := "%s"; tws_grid := None |} ]} (7 * 10 ^ 9) "a"
      ex_known (Some (S754_finite false 3 0)).
Proof.
  apply (window_fast_path 0 (7 * 10 ^ 9) ex_time_grid (2 * 10 ^ 9) ex_known ex_grid_universe ∅ "a"
    (Some (S754_finite false 3 0))).
  vm_compute. congruence.
Defined.

Example ex_window_keys :
  bool_decide (keys_for 0 {[ "a" := {| tws_fmt := "%s"; tws_grid := Some ex_time_grid |} ]}
    (7 * 10 ^ 9) "a" ex_known (Some (S754_finite false 3 0))
  = Some (list_to_set (single <$> ["||||"; "||||||"]))) = true.
Proof. vm_compute. reflexivity. Qed.
