(* ===== verification/Pass.v ===== *)
(** * The condition evaluation pass (rust/rivers-core/src/condition/pass/mod.rs)

    One tick of the automation engine: evaluate every condition against the cache, split
    what fired into dispatch shapes, and, once the dispatches are known, advance the
    per-asset state; the intent persisted in between and its recovery after a crash.

    An indexing or [unwrap] that can panic makes the operation return [None]. The storage
    statements of the recovery act on [DispatchStore]; the wall clock ([clock]) and the
    local time of an instant ([local_datetime], jiff) are arguments. [tracing] and the
    measured durations are left out. *)

From S2P Require Import Prelude PartitionKey BackfillGroup ConditionNode Selection CondState Cron CondEval CondDomains CondCache TimeGrid Universe Window.

(** ** State *)
Record ConditionEvalState := {
  schema_version : N;
  es_assets : gmap string AssetConditionState;
  es_is_initial : bool;
  es_failed_assets : gmap string Z
}.

Record PendingDispatchEntry := {
  pe_asset_key : string;
  pe_run_ids : list string;
  pe_backfill_ids : list string;
  pe_committed : AssetConditionState;
  pe_dispatched_keys : list PartitionKey
}.

Record PendingDispatch := {
  tick_timestamp : Z;
  pd_entries : list PendingDispatchEntry
}.

Record MaterializationPlan := {
  unpartitioned : list string;
  single_partition_groups : gmap PartitionKey (list string);
  multi_partition_backfills : list (string * list PartitionKey)
}.

Record ToMaterialize := {
  tm_asset_key : string;
  tm_selection : option PartitionSelection
}.

Record EvalResultRow := {
  info_idx : nat;
  result : EvalResult;
  tree : EvalNodeResult
}.

Record PassOutput := {
  results : list EvalResultRow;
  plan : MaterializationPlan
}.

Definition plan_is_empty (p : MaterializationPlan) : bool :=
  bool_decide (unpartitioned p = []) && bool_decide (single_partition_groups p = ∅) &&
  bool_decide (multi_partition_backfills p = []).

Definition dispatched_asset_keys (p : MaterializationPlan) : list string :=
  unpartitioned p ++ (map_to_list (single_partition_groups p) ≫= snd) ++
  (multi_partition_backfills p).*1.

Section pass.
Context {G : GridOps} {T : NodeText} {C : CronOps} {J : JiffText} {K : CronGrid}.
Context `{HI : !HashIter PartitionKey}.

Record PartitionInfo := {
  pi_all_keys : KeySet;
  pi_mappings : gmap (string * string) PartitionMappingKind;
  pi_time_window_fmt : option string;
  pi_universe : PartitionUniverse
}.

Record AssetConditionInfo := {
  ci_asset_key : string;
  ci_condition : ConditionNode;
  ci_partition_info : option PartitionInfo;
  ci_backfill_strategy : option BackfillStrategy
}.

Record ConditionPass := {
  ps_cache : AssetConditionCache;
  ps_eval_state : ConditionEvalState;
  ps_conditions : list AssetConditionInfo;
  ps_by_key : gmap string nat;
  ps_active : gset string;
  ps_has_time_based : bool;
  ps_time_based_eval_set : option (gset string);
  ps_upstream_partition_keys : gmap string KeySet;
  ps_upstream_universes : gmap string PartitionUniverse;
  ps_time_window_sources : gmap string TimeWindowSource;
  ps_needs_retry : bool
}.

(** ** Construction *)

(** [set_partitioned_assets], [set_needs_tick_tags] and the rehydrated floors *)
Definition with_setup (c : AssetConditionCache) (partitioned : gset string) (needs : bool)
    (floors : Floors) : AssetConditionCache :=
  {| cc_records := cc_records c; cc_edges := cc_edges c; cc_upstream_deps := cc_upstream_deps c;
     cc_downstream_deps := cc_downstream_deps c; cc_in_progress := cc_in_progress c;
     cc_live_action_runs := cc_live_action_runs c; cc_floors := floors;
     cc_asset_deletion_ts := cc_asset_deletion_ts c;
     cc_last_seen_run_ts := cc_last_seen_run_ts c;
     cc_last_observation_ts := cc_last_observation_ts c; cc_initialized := cc_initialized c;
     cc_partition_status := cc_partition_status c; cc_backfill := cc_backfill c;
     cc_last_runs := cc_last_runs c; cc_tick_tags := cc_tick_tags c;
     cc_partitioned := partitioned; cc_needs_tick_tags := needs;
     cc_code_location_id := cc_code_location_id c; cc_pending_runs := cc_pending_runs c;
     cc_pending_grace_nanos := cc_pending_grace_nanos c;
     cc_applied_run_ids := cc_applied_run_ids c |}.

(** The conditioned partitioned assets and every mapping upstream of them. *)
Definition partitioned_assets (conditions : list AssetConditionInfo) : gset string :=
  list_to_set (conditions ≫= λ c,
    match ci_partition_info c with
    | Some pi => ci_asset_key c :: ((λ e, e.1.2) <$> map_to_list (pi_mappings pi))
    | None => []
    end).

(** [failed_assets.insert], [failed_asset_timestamps.entry(..).or_insert(ts)] *)
Definition rehydrate_floors (failed : gmap string Z) (f : Floors) : Floors :=
  foldl (λ f e, ({[ e.1 ]} ∪ f.1, match f.2 !! e.1 with Some _ => f.2 | None => <[e.1 := e.2]> f.2 end))
        f (map_to_list failed).

Definition universe_grid (u : PartitionUniverse) : option TimeGridDef :=
  match u with UTimeWindow grid _ => Some grid | _ => None end.

Definition condition_sources (conditions : list AssetConditionInfo) : gmap string TimeWindowSource :=
  foldl (λ m info,
           match ci_partition_info info with
           | Some pi =>
               match pi_time_window_fmt pi with
               | Some fmt => <[ci_asset_key info := {| tws_fmt := fmt;
                                                       tws_grid := universe_grid (pi_universe pi) |}]> m
               | None => m
               end
           | None => m
           end) ∅ conditions.

Definition upstream_sources (universes : gmap string PartitionUniverse)
    (m : gmap string TimeWindowSource) : gmap string TimeWindowSource :=
  foldl (λ m e, match e.2 with
                | UTimeWindow grid _ =>
                    match m !! e.1 with
                    | Some _ => m
                    | None => <[e.1 := {| tws_fmt := grid_fmt grid; tws_grid := Some grid |}]> m
                    end
                | _ => m
                end) m (map_to_list universes).

(** [eval_state.assets.entry(key).or_default()] for every condition *)
Definition seed_assets (conditions : list AssetConditionInfo)
    (assets : gmap string AssetConditionState) : gmap string AssetConditionState :=
  foldl (λ m info, match m !! ci_asset_key info with
                   | Some _ => m
                   | None => <[ci_asset_key info := AssetConditionState_default]> m
                   end) assets conditions.

Definition with_assets (es : ConditionEvalState) (assets : gmap string AssetConditionState)
    : ConditionEvalState :=
  {| schema_version := schema_version es; es_assets := assets; es_is_initial := es_is_initial es;
     es_failed_assets := es_failed_assets es |}.

Definition pass_new (cache : AssetConditionCache) (eval_state : ConditionEvalState)
    (conditions : list AssetConditionInfo)
    (upstream : gmap string (KeySet * PartitionUniverse)) : ConditionPass :=
  {| ps_cache := with_setup cache (partitioned_assets conditions)
       (existsb (λ c, uses_tick_tags (ci_condition c)) conditions)
       (rehydrate_floors (es_failed_assets eval_state) (cc_floors cache));
     ps_eval_state := with_assets eval_state (seed_assets conditions (es_assets eval_state));
     ps_conditions := conditions;
     ps_by_key := foldl (λ m '(i, c), <[ci_asset_key c := i]> m) ∅ (imap pair conditions);
     ps_active := list_to_set (ci_asset_key <$> conditions);
     ps_has_time_based := existsb (λ c, has_time_based_conditions (ci_condition c)) conditions;
     ps_time_based_eval_set := None;
     ps_upstream_partition_keys := fst <$> upstream;
     ps_upstream_universes := snd <$> upstream;
     ps_time_window_sources := upstream_sources (snd <$> upstream) (condition_sources conditions);
     ps_needs_retry := false |}.

(** ** Universes *)
Section universes.
Context (clock now : DateTime) (dynamic_keys : DynamicKeys).

Definition with_universe (info : AssetConditionInfo) (pi : PartitionInfo) (u : PartitionUniverse)
    (keys : KeySet) : AssetConditionInfo :=
  {| ci_asset_key := ci_asset_key info; ci_condition := ci_condition info;
     ci_partition_info := Some {| pi_all_keys := keys; pi_mappings := pi_mappings pi;
                                  pi_time_window_fmt := pi_time_window_fmt pi; pi_universe := u |};
     ci_backfill_strategy := ci_backfill_strategy info |}.

(** One iteration over [conditions]: also the asset's entry among the upstream keys. *)
Definition refresh_condition
    (acc : bool * list AssetConditionInfo * gmap string KeySet) (info : AssetConditionInfo)
    : bool * list AssetConditionInfo * gmap string KeySet :=
  let '(changed, out, upstream) := acc in
  match ci_partition_info info with
  | None => (changed, out ++ [info], upstream)
  | Some pi =>
      let '(c, u, keys) := refresh_universe clock now dynamic_keys (pi_universe pi) (pi_all_keys pi) in
      (changed || c, out ++ [with_universe info pi u keys],
       if c then alter (λ _, keys) (ci_asset_key info) upstream else upstream)
  end.

Definition refresh_upstream
    (acc : bool * gmap string PartitionUniverse * gmap string KeySet) (e : string * PartitionUniverse)
    : bool * gmap string PartitionUniverse * gmap string KeySet :=
  let '(changed, universes, upstream) := acc in
  match upstream !! e.1 with
  | None => acc
  | Some keys =>
      let '(c, u, keys) := refresh_universe clock now dynamic_keys e.2 keys in
      (changed || c, <[e.1 := u]> universes, <[e.1 := keys]> upstream)
  end.

Definition refresh_partition_universes (p : ConditionPass) : bool * ConditionPass :=
  let '(changed, conditions, upstream) :=
    foldl refresh_condition (false, [], ps_upstream_partition_keys p) (ps_conditions p) in
  let '(changed, universes, upstream) :=
    foldl refresh_upstream (changed, ps_upstream_universes p, upstream)
          (map_to_list (ps_upstream_universes p)) in
  (changed,
   {| ps_cache := ps_cache p; ps_eval_state := ps_eval_state p; ps_conditions := conditions;
      ps_by_key := ps_by_key p; ps_active := ps_active p; ps_has_time_based := ps_has_time_based p;
      ps_time_based_eval_set := ps_time_based_eval_set p; ps_upstream_partition_keys := upstream;
      ps_upstream_universes := universes; ps_time_window_sources := ps_time_window_sources p;
      ps_needs_retry := ps_needs_retry p |}).
End universes.

Definition dynamic_universe_namespaces (p : ConditionPass) : gset string :=
  let out := foldl (λ out info, match ci_partition_info info with
                                | Some pi => universe_namespaces (pi_universe pi) out
                                | None => out
                                end) ∅ (ps_conditions p) in
  foldl (λ out e, universe_namespaces e.2 out) out (map_to_list (ps_upstream_universes p)).

(** ** The pass between ticks *)
Definition with_tick (p : ConditionPass) (ip : InProgressMap) (es : ConditionEvalState) (retry : bool)
    : ConditionPass :=
  {| ps_cache := with_runs_in_flight (ps_cache p) ip (cc_pending_runs (ps_cache p));
     ps_eval_state := es; ps_conditions := ps_conditions p; ps_by_key := ps_by_key p;
     ps_active := ps_active p; ps_has_time_based := ps_has_time_based p;
     ps_time_based_eval_set := ps_time_based_eval_set p;
     ps_upstream_partition_keys := ps_upstream_partition_keys p;
     ps_upstream_universes := ps_upstream_universes p;
     ps_time_window_sources := ps_time_window_sources p; ps_needs_retry := retry |}.

Definition ensure_time_based_eval_set (p : ConditionPass) : ConditionPass :=
  if negb (ps_has_time_based p) || negb (cc_initialized (ps_cache p)) ||
     bool_decide (is_Some (ps_time_based_eval_set p))
  then p
  else
    {| ps_cache := ps_cache p; ps_eval_state := ps_eval_state p; ps_conditions := ps_conditions p;
       ps_by_key := ps_by_key p; ps_active := ps_active p; ps_has_time_based := ps_has_time_based p;
       ps_time_based_eval_set :=
         compute_time_based_eval_set (ps_cache p)
           ((λ c, (ci_asset_key c, ci_condition c)) <$> ps_conditions p);
       ps_upstream_partition_keys := ps_upstream_partition_keys p;
       ps_upstream_universes := ps_upstream_universes p;
       ps_time_window_sources := ps_time_window_sources p; ps_needs_retry := ps_needs_retry p |}.

Definition should_skip (p : ConditionPass) (has_changes : bool) : bool :=
  negb (ps_needs_retry p) && negb has_changes && cc_initialized (ps_cache p) &&
  negb (es_is_initial (ps_eval_state p)) && negb (ps_has_time_based p).

(** ** Evaluation *)
Section evaluation.
Context (panic : PartitionEvalContext) (local_datetime : Z → DateTime) (clock : DateTime).
Context (p : ConditionPass) (now : Z).

(** The failed assets, with those that have a failed partition. *)
Definition failed_keys : gset string :=
  (cc_floors (ps_cache p)).1 ∪
  dom (filter (λ e, pse_failed e.2 ≠ ∅) (cc_partition_status (ps_cache p))).

Definition partition_context (info : AssetConditionInfo) : option PartitionEvalContext :=
  let cache := ps_cache p in
  match ci_partition_info info, cc_partition_status cache !! ci_asset_key info with
  | Some pi, Some status =>
      let pending := in_progress_partition_keys cache (ci_asset_key info) in
      Some {| all_keys := pi_all_keys pi;
              p_in_progress := if bool_decide (pending = ∅) then pse_in_progress status
                               else pse_in_progress status ∪ pending;
              p_failed := pse_failed status;
              p_timestamps := pse_timestamps status;
              resolver := {| mappings := pi_mappings pi;
                             upstream_partition_keys := ps_upstream_partition_keys p |};
              time_windows :=
                Some (keys_for clock (ps_time_window_sources p) (local_datetime now));
              all_partition_statuses := cc_partition_status cache;
              dep_root_floor := None |}
  | _, _ => None
  end.

Definition condition_context (info : AssetConditionInfo) (record : AssetRecord)
    (prev : AssetConditionState) (requested : gmap string PartitionSelection) : EvalContext :=
  let c := ps_cache p in
  {| target_key := ci_asset_key info; root_key := ci_asset_key info; target_record := record;
     cache := {| records := cc_records c; upstream_deps := cc_upstream_deps c;
                 in_progress_assets := dom (cc_in_progress c); failed_assets := failed_keys;
                 failed_asset_timestamps := (cc_floors c).2; backfill := cc_backfill c |};
     ctx_tags := {| last_run_tags := lr_tags (cc_last_runs c);
                    tick_materialization_tags := cc_tick_tags c;
                    last_run_asset_names := lr_names (cc_last_runs c) |};
     prev_state := prev; all_asset_states := es_assets (ps_eval_state p);
     requested_this_tick := requested; CondState.now := now;
     ctx_is_initial := es_is_initial (ps_eval_state p) || acs_is_initial prev;
     partitions := partition_context info; root_partition_floor := None |}.

(** Whether the subset of a tick without changes leaves the asset out. *)
Definition left_out (selective : bool) (key : string) : bool :=
  selective && match ps_time_based_eval_set p with
               | Some eval_set => negb (bool_decide (key ∈ eval_set))
               | None => false
               end.

(** The loop from condition [idx] on; the fired selections are seen by later conditions. *)
Fixpoint evaluate_from (selective : bool) (idx : nat) (infos : list AssetConditionInfo)
    (requested : gmap string PartitionSelection) : option (list EvalResultRow) :=
  match infos with
  | [] => Some []
  | info :: infos =>
      if left_out selective (ci_asset_key info) then evaluate_from selective (S idx) infos requested
      else
        match cc_records (ps_cache p) !! ci_asset_key info with
        | None => evaluate_from selective (S idx) infos requested
        | Some record =>
            match es_assets (ps_eval_state p) !! ci_asset_key info with
            | None => None
            | Some prev =>
                match evaluate_with_tree panic (ci_condition info)
                        (condition_context info record prev requested) with
                | None => None
                | Some (r, t) =>
                    let requested :=
                      if fired r then <[ci_asset_key info := default All (selection r)]> requested
                      else requested in
                    cons {| info_idx := idx; result := r; tree := t |}
                      <$> evaluate_from selective (S idx) infos requested
                end
            end
        end
  end.

Definition pass_evaluate (selective : bool) : option (list EvalResultRow) :=
  evaluate_from selective 0 (ps_conditions p) ∅.
End evaluation.

(** ** Planning *)
Definition partition_info_for (p : ConditionPass) (key : string) : option PartitionInfo :=
  idx ← ps_by_key p !! key; info ← ps_conditions p !! idx; ci_partition_info info.

(** [in_progress_assets.entry(key).or_default()] *)
Definition mark_in_progress (key : string) (ip : InProgressMap) : InProgressMap :=
  match ip !! key with Some _ => ip | None => <[key := ∅]> ip end.

(** How one asset is to be dispatched. *)
Inductive Shape :=
| Whole
| Partitions (keys : list PartitionKey)
| Nothing.

Definition classify_one (p : ConditionPass) (tm : ToMaterialize) : Shape :=
  let info := partition_info_for p (tm_asset_key tm) in
  let by_partition keys := match keys with [] => Nothing | _ => Partitions keys end in
  match tm_selection tm with
  | Some (Keys keys) =>
      if is_empty_set keys then Whole
      else by_partition (match info with
                         | Some pi => filter (λ k, k ∈ pi_all_keys pi) (hash_iter keys)
                         | None => hash_iter keys
                         end)
  | Some All | None =>
      match info with
      | Some pi => by_partition (hash_iter (pi_all_keys pi))
      | None => Whole
      end
  | Some Empty => Whole
  end.

(** The loop over [to_materialize]: what is whole, what is partitioned, what is marked. *)
Definition classify_step (p : ConditionPass)
    (acc : list string * list (string * list PartitionKey) * InProgressMap) (tm : ToMaterialize)
    : list string * list (string * list PartitionKey) * InProgressMap :=
  let '(whole, parts, ip) := acc in
  let key := tm_asset_key tm in
  match classify_one p tm with
  | Whole => (whole ++ [key], parts, mark_in_progress key ip)
  | Partitions keys => (whole, parts ++ [(key, keys)], mark_in_progress key ip)
  | Nothing => acc
  end.

Definition display_leb (a b : PartitionKey) : bool := String.leb (to_display a) (to_display b).

(** The loop over the partitioned assets. *)
Definition group_step (acc : gmap PartitionKey (list string) * list (string * list PartitionKey))
    (e : string * list PartitionKey)
    : gmap PartitionKey (list string) * list (string * list PartitionKey) :=
  let '(singles, multis) := acc in
  match sort_by display_leb e.2 with
  | [pk] => (<[pk := default [] (singles !! pk) ++ [e.1]]> singles, multis)
  | keys => (singles, multis ++ [(e.1, keys)])
  end.

Definition classify_materializations (p : ConditionPass) (tms : list ToMaterialize)
    : MaterializationPlan * InProgressMap :=
  let '(whole, parts, ip) :=
    foldl (classify_step p) ([], [], cc_in_progress (ps_cache p)) tms in
  let '(singles, multis) := foldl group_step (∅, []) parts in
  ({| unpartitioned := whole; single_partition_groups := singles;
      multi_partition_backfills := multis |}, ip).

(** [self.conditions[row.info_idx]] *)
Definition row_info (p : ConditionPass) (row : EvalResultRow) : option AssetConditionInfo :=
  ps_conditions p !! info_idx row.

Definition to_materialize (p : ConditionPass) (rows : list EvalResultRow) : option (list ToMaterialize) :=
  mapM (λ row, info ← row_info p row;
               Some {| tm_asset_key := ci_asset_key info; tm_selection := selection (result row) |})
       (filter (λ row, fired (result row) = true) rows).

Definition plan_tick (panic : PartitionEvalContext) (local_datetime : Z → DateTime) (clock : DateTime)
    (now : Z) (selective : bool) (p : ConditionPass) : option (PassOutput * ConditionPass) :=
  rows ← pass_evaluate panic local_datetime clock p now selective;
  tms ← to_materialize p rows;
  let '(pl, ip) := classify_materializations p tms in
  let es := ps_eval_state p in
  Some ({| results := rows; plan := pl |},
        with_tick p ip
          {| schema_version := schema_version es; es_assets := es_assets es; es_is_initial := false;
             es_failed_assets := es_failed_assets es |} (ps_needs_retry p)).

(** ** Committing *)
Section commit.
Context (p : ConditionPass) (now : Z).

(** The fired assets that keep their state: failed dispatches and those not in the plan. *)
Definition skip_set (rows : list EvalResultRow) (planned dispatch_failed : gset string)
    : option (gset string) :=
  foldl (λ skip row,
           skip ← skip;
           if fired (result row) then
             info ← row_info p row;
             Some (if bool_decide (ci_asset_key info ∈ planned) then skip
                   else {[ ci_asset_key info ]} ∪ skip)
           else Some skip)
        (Some dispatch_failed) rows.

Definition update_context (info : AssetConditionInfo) (record : AssetRecord) (was_initial : bool)
    : StateUpdateContext :=
  {| target_record_timestamp := last_timestamp record;
     target_data_version := last_data_version record;
     suc_now := now; suc_is_initial := was_initial;
     partition_timestamps :=
       match ci_partition_info info with
       | Some _ => pse_timestamps <$> cc_partition_status (ps_cache p) !! ci_asset_key info
       | None => None
       end |}.

(** The loop over the rows: the states, and the roots whose baselines advance. *)
Definition commit_row (skip : gset string)
    (acc : option (gmap string AssetConditionState * list string)) (row : EvalResultRow)
    : option (gmap string AssetConditionState * list string) :=
  '(assets, roots) ← acc;
  info ← row_info p row;
  let key := ci_asset_key info in
  if bool_decide (key ∈ skip) then Some (assets, roots)
  else
    match cc_records (ps_cache p) !! key with
    | None => Some (assets, roots)
    | Some record =>
        prev ← assets !! key;
        let was_initial := acs_is_initial prev in
        let ctx := update_context info record was_initial in
        Some (<[key := update_condition_state ctx (result row) prev]> assets,
              if fired (result row) || was_initial then roots ++ [key] else roots)
    end.

Definition mark_partitions_handled (asset_key : string) (keys : list PartitionKey)
    (assets : gmap string AssetConditionState) : gmap string AssetConditionState :=
  alter (λ s,
    let ps := default PartitionState_default (partition_state s) in
    {| previous_results := previous_results s; dep_previous_results := dep_previous_results s;
       dep_baselines := dep_baselines s; last_handled_timestamp := last_handled_timestamp s;
       last_materialized_timestamp := last_materialized_timestamp s;
       prev_data_version := prev_data_version s; last_tick_timestamp := last_tick_timestamp s;
       condition_fingerprint := condition_fingerprint s; acs_is_initial := acs_is_initial s;
       partition_state :=
         Some {| previous_selections := previous_selections ps; timestamps := timestamps ps;
                 handled := handled ps ∪ list_to_set keys;
                 dep_previous_selections := dep_previous_selections ps |} |}) asset_key assets.

Definition set_last_handled (ts : option Z) (s : AssetConditionState) : AssetConditionState :=
  {| previous_results := previous_results s; dep_previous_results := dep_previous_results s;
     dep_baselines := dep_baselines s; last_handled_timestamp := ts;
     last_materialized_timestamp := last_materialized_timestamp s;
     prev_data_version := prev_data_version s; last_tick_timestamp := last_tick_timestamp s;
     condition_fingerprint := condition_fingerprint s; acs_is_initial := acs_is_initial s;
     partition_state := partition_state s |}.

(** The [(asset, keys)] pairs whose handled marks advance, single groups first. *)
Definition handled_marks (pl : MaterializationPlan) : list (string * list PartitionKey) :=
  (map_to_list (single_partition_groups pl) ≫= λ '(pk, assets), (λ a, (a, [pk])) <$> assets) ++
  multi_partition_backfills pl.

Definition mark_handled (skip : gset string) (pl : MaterializationPlan)
    (assets : gmap string AssetConditionState) : gmap string AssetConditionState :=
  foldl (λ assets e, if bool_decide (e.1 ∈ skip) then assets
                     else mark_partitions_handled e.1 e.2 assets) assets (handled_marks pl).

Definition stamp_dispatched_handled (skip : gset string) (pl : MaterializationPlan)
    (assets : gmap string AssetConditionState) : gmap string AssetConditionState :=
  foldl (λ assets key, if bool_decide (key ∈ skip) then assets
                       else alter (set_last_handled (Some now)) key assets)
        assets (elements (list_to_set (dispatched_asset_keys pl) : gset string)).

Definition commit_tick (output : PassOutput) (dispatch_failed : gset string)
    : option (bool * ConditionPass) :=
  let planned : gset string := list_to_set (dispatched_asset_keys (plan output)) in
  skip ← skip_set (results output) planned dispatch_failed;
  '(assets, roots) ←
    foldl (commit_row skip) (Some (es_assets (ps_eval_state p), [])) (results output);
  let c := ps_cache p in
  let assets :=
    match roots with
    | [] => assets
    | _ => update_dep_baselines (cc_upstream_deps c) (ps_active p) (cc_partition_status c)
             (cc_records c) assets roots
    end in
  let assets := mark_handled skip (plan output) assets in
  let assets := stamp_dispatched_handled skip (plan output) assets in
  let es := ps_eval_state p in
  let floors := (cc_floors c).2 in
  Some (negb (bool_decide (roots = [])) || negb (bool_decide (es_failed_assets es = floors)),
        with_tick p (cc_in_progress c)
          {| schema_version := schema_version es; es_assets := assets;
             es_is_initial := es_is_initial es; es_failed_assets := floors |}
          (negb (bool_decide (skip = ∅)))).

(** ** The persisted intent *)

(** The baselines of the root's unconditioned upstreams, written over [b]. *)
Definition intent_baselines (key : string) (b : gmap string DepBaseline) : gmap string DepBaseline :=
  match cc_upstream_deps (ps_cache p) !! key with
  | Some deps =>
      foldl (λ b dep, if bool_decide (dep ∈ ps_active p) then b
                      else <[dep := record_baseline (cc_records (ps_cache p)) dep]> b) b deps
  | None => b
  end.

Definition intent_keys (pl : MaterializationPlan) (key : string) : list PartitionKey :=
  (filter (λ e : PartitionKey * list string, key ∈ e.2) (map_to_list (single_partition_groups pl))).*1 ++
  (multi_partition_backfills pl ≫= λ '(asset, keys), if bool_decide (asset = key) then keys else []).

Definition intent_state (info : AssetConditionInfo) (record : AssetRecord) (row : EvalResultRow)
    (prev : AssetConditionState) : AssetConditionState :=
  let s := update_condition_state
             {| target_record_timestamp := last_timestamp record;
                target_data_version := last_data_version record;
                suc_now := now; suc_is_initial := acs_is_initial prev;
                partition_timestamps := None |} (result row) (scalar_clone prev) in
  set_last_handled (Some now)
    (with_dep_baselines (intent_baselines (ci_asset_key info) (dep_baselines s)) s).

Definition intent_row (pl : MaterializationPlan) (row : EvalResultRow)
    : option (list (string * AssetConditionState * list PartitionKey)) :=
  if negb (fired (result row)) then Some []
  else
    info ← row_info p row;
    let key := ci_asset_key info in
    if negb (bool_decide (key ∈ dispatched_asset_keys pl)) then Some []
    else
      match cc_records (ps_cache p) !! key, es_assets (ps_eval_state p) !! key with
      | Some record, Some prev => Some [(key, intent_state info record row prev, intent_keys pl key)]
      | _, _ => Some []
      end.

Definition pending_dispatch_states (output : PassOutput)
    : option (list (string * AssetConditionState * list PartitionKey)) :=
  mjoin <$> mapM (intent_row (plan output)) (results output).
End commit.

(** [ConditionPass::run] *)
Definition pass_run (panic : PartitionEvalContext) (local_datetime : Z → DateTime) (clock : DateTime)
    (now : Z) (selective : bool) (p : ConditionPass) : option (PassOutput * ConditionPass) :=
  '(output, p) ← plan_tick panic local_datetime clock now selective p;
  '(_, p) ← commit_tick p now output ∅;
  Some (output, p).
End pass.

(** ** Recovery of an interrupted tick *)
Record BackfillRow := {
  br_backfill_id : string;
  br_create_time : Z;
  br_asset_selection : list string
}.

(** What storage holds for the engine: the intent, the persisted state, the runs. *)
Record DispatchStore := {
  ds_pending : option PendingDispatch;
  ds_eval_state : ConditionEvalState;
  ds_runs : gset string;
  ds_backfills : list BackfillRow
}.

Definition pending_default : PendingDispatch := {| tick_timestamp := 0; pd_entries := [] |}.

(** The entry's dispatch went out. *)
Definition entry_dispatched (store : DispatchStore) (tick_ts : Z) (e : PendingDispatchEntry) : bool :=
  match pe_run_ids e, pe_backfill_ids e with
  | _ :: _, _ => existsb (λ id, bool_decide (id ∈ ds_runs store)) (pe_run_ids e)
  | [], _ :: _ =>
      existsb (λ bid, existsb (λ b, String.eqb (br_backfill_id b) bid) (ds_backfills store))
              (pe_backfill_ids e)
  | [], [] =>
      existsb (λ b, (tick_ts <=? br_create_time b)%Z &&
                    bool_decide (pe_asset_key e ∈ br_asset_selection b)) (ds_backfills store)
  end.

(** A per-asset state at least as new as the intent. *)
Definition entry_stale (tick_ts : Z) (assets : gmap string AssetConditionState)
    (e : PendingDispatchEntry) : bool :=
  match assets !! pe_asset_key e ≫= last_tick_timestamp with
  | Some lt => (tick_ts <=? lt)%Z
  | None => false
  end.

Definition with_partition_state (ps : option PartitionState) (s : AssetConditionState)
    : AssetConditionState :=
  {| previous_results := previous_results s; dep_previous_results := dep_previous_results s;
     dep_baselines := dep_baselines s; last_handled_timestamp := last_handled_timestamp s;
     last_materialized_timestamp := last_materialized_timestamp s;
     prev_data_version := prev_data_version s; last_tick_timestamp := last_tick_timestamp s;
     condition_fingerprint := condition_fingerprint s; acs_is_initial := acs_is_initial s;
     partition_state := ps |}.

(** The committed scalar state, over the asset's own partition state with the dispatched
    keys marked handled. *)
Definition splice (e : PendingDispatchEntry) (slot : AssetConditionState) : AssetConditionState :=
  let ps := match pe_dispatched_keys e with
            | [] => partition_state slot
            | keys =>
                let ps := default PartitionState_default (partition_state slot) in
                Some {| previous_selections := previous_selections ps; timestamps := timestamps ps;
                        handled := handled ps ∪ list_to_set keys;
                        dep_previous_selections := dep_previous_selections ps |}
            end in
  with_partition_state ps (pe_committed e).

Definition recover_entry (store : DispatchStore) (tick_ts : Z)
    (acc : gmap string AssetConditionState * nat) (e : PendingDispatchEntry)
    : gmap string AssetConditionState * nat :=
  let '(assets, recovered) := acc in
  if entry_stale tick_ts assets e || negb (entry_dispatched store tick_ts e) then acc
  else (<[pe_asset_key e := splice e (default AssetConditionState_default (assets !! pe_asset_key e))]> assets,
        S recovered).

(** The states of the store after each of its writes, and the recovered state. *)
Definition recover_pending_dispatch (es : ConditionEvalState) (store : DispatchStore)
    : ConditionEvalState * list DispatchStore :=
  match ds_pending store with
  | None => (es, [])
  | Some pending =>
      match pd_entries pending with
      | [] => (es, [])
      | entries =>
          let '(assets, recovered) :=
            foldl (recover_entry store (tick_timestamp pending)) (es_assets es, 0) entries in
          let es := {| schema_version := schema_version es; es_assets := assets;
                       es_is_initial := false; es_failed_assets := es_failed_assets es |} in
          let persisted := {| ds_pending := ds_pending store; ds_eval_state := es;
                              ds_runs := ds_runs store; ds_backfills := ds_backfills store |} in
          let s1 := if 0 <? recovered then persisted else store in
          (es, (if 0 <? recovered then [persisted] else []) ++
               [{| ds_pending := Some pending_default; ds_eval_state := ds_eval_state s1;
                   ds_runs := ds_runs s1; ds_backfills := ds_backfills s1 |}])
      end
  end.
