(* ===== verification/PassTheorems.v ===== *)
(** * One tick of the pass: what it changes and what it keeps

    Planning and committing never panic on a well-formed pass; a fired asset that was not
    dispatched keeps its state and fires again; the intent persisted before dispatch is
    what committing writes; recovery splices it back, once. *)

From S2P Require Import Prelude PartitionKey BackfillGroup ConditionNode Selection CondState Cron CondEval CondDomains CondExample CondTree CondCache CacheTheorems TimeGrid TimeGridTheorems Universe Window Pass.

(** ** Baselines *)

(** Writing a value that depends on the key alone. *)
Lemma foldl_write_lookup {V} (f : string → V) l (b : gmap string V) d :
  foldl (λ b dep, <[dep := f dep]> b) b l !! d = if bool_decide (d ∈ l) then Some (f d) else b !! d.
Proof.
  revert b. induction l as [|x l IH]; intros b; cbn [foldl].
  - by rewrite bool_decide_false by apply not_elem_of_nil.
  - rewrite IH. destruct (decide (d ∈ l)) as [Hd|Hd].
    + by rewrite !bool_decide_true by (done || by right).
    + rewrite bool_decide_false by done. destruct (decide (d = x)) as [->|Hne].
      * by rewrite lookup_insert_eq, bool_decide_true by left.
      * rewrite lookup_insert_ne, bool_decide_false by (done || set_solver). done.
Qed.

Section baselines.
Context (ups : gmap string (list string)) (active : gset string).
Context (status : gmap string PartitionStatusEntry) (records : gmap string AssetRecord).

Definition write_baselines (a : string) (b : gmap string DepBaseline) : gmap string DepBaseline :=
  foldl (λ b dep, <[dep := record_baseline records dep]> b) b (eligible_deps ups active a).

Lemma write_baselines_idem a b : write_baselines a (write_baselines a b) = write_baselines a b.
Proof.
  apply map_eq. intros d. unfold write_baselines. rewrite !foldl_write_lookup. by case_bool_decide.
Qed.

Lemma baseline_roots_lookup roots es t a :
  (foldl (baseline_root ups active records) (es, t) roots).1 !! a
  = if bool_decide (a ∈ roots)
    then (λ s, with_dep_baselines (write_baselines a (dep_baselines s)) s) <$> es !! a
    else es !! a.
Proof.
  revert es t. induction roots as [|r roots IH]; intros es t; cbn [foldl].
  { by rewrite bool_decide_false by apply not_elem_of_nil. }
  cbn [baseline_root]. rewrite IH. destruct (decide (r = a)) as [->|Hne].
  - rewrite lookup_alter_eq, (bool_decide_true (a ∈ a :: roots)) by left.
    case_bool_decide; destruct (es !! a) as [s|]; simpl; try done. f_equal.
    unfold with_dep_baselines. simpl. fold (write_baselines a (dep_baselines s)).
    by rewrite write_baselines_idem.
  - rewrite lookup_alter_ne by done.
    by rewrite (bool_decide_ext (a ∈ r :: roots) (a ∈ roots)) by (rewrite elem_of_cons; naive_solver).
Qed.

Lemma baseline_roots_touched roots es t d :
  d ∈ (foldl (baseline_root ups active records) (es, t) roots).2 → d ∈ t ∨ d ∉ active.
Proof.
  revert es t. induction roots as [|r roots IH]; intros es t; cbn [foldl]; [by left|].
  intros [Hd|?]%IH; [|by right]. apply elem_of_union in Hd as [?|Hd]; [by left|right].
  apply elem_of_list_to_set in Hd. unfold eligible_deps in Hd. by apply list_elem_of_filter in Hd as [??].
Qed.

(** A conditioned asset's state changes in its baselines alone, when it is a root. *)
Lemma update_dep_baselines_active es roots a :
  a ∈ active →
  update_dep_baselines ups active status records es roots !! a
  = if bool_decide (a ∈ roots)
    then (λ s, with_dep_baselines (write_baselines a (dep_baselines s)) s) <$> es !! a
    else es !! a.
Proof.
  intros Ha. unfold update_dep_baselines.
  pose proof (baseline_roots_lookup roots es ∅ a) as Hl.
  pose proof (baseline_roots_touched roots es ∅) as Ht.
  destruct (foldl _ _ _) as [es' touched]. simpl in *. rewrite <-Hl. clear Hl.
  assert (Hn : a ∉ elements touched).
  { rewrite elem_of_elements. intros [?|?]%Ht; [set_solver|done]. }
  revert es' Hn. induction (elements touched) as [|d l IH]; intros es' Hn; [done|].
  cbn [foldl]. rewrite IH by set_solver. unfold baseline_dep. by rewrite lookup_insert_ne by set_solver.
Qed.
End baselines.

Section pass.
Context {G : GridOps} {T : NodeText} {C : CronOps} {J : JiffText} {K : CronGrid}.
Context `{HI : !HashIter PartitionKey}.

(** ** Well-formed passes *)
Record pass_ok (p : ConditionPass) : Prop := {
  po_nodup : NoDup (ci_asset_key <$> ps_conditions p);
  po_active : ps_active p = list_to_set (ci_asset_key <$> ps_conditions p);
  po_state info : info ∈ ps_conditions p → is_Some (es_assets (ps_eval_state p) !! ci_asset_key info);
  po_by_key idx info : ps_conditions p !! idx = Some info → ps_by_key p !! ci_asset_key info = Some idx
}.

Definition row_key (p : ConditionPass) (row : EvalResultRow) : option string :=
  ci_asset_key <$> row_info p row.

(** The rows of an evaluation: one per evaluated condition, in order. *)
Record rows_ok (p : ConditionPass) (rows : list EvalResultRow) : Prop := {
  ro_valid row : row ∈ rows → is_Some (row_info p row);
  ro_nodup : NoDup (row_key p <$> rows)
}.

Lemma row_key_inj p row row' k :
  pass_ok p → row_key p row = Some k → row_key p row' = Some k → info_idx row = info_idx row'.
Proof.
  intros [Hnd _ _ _] H1 H2. unfold row_key, row_info in *. apply (NoDup_lookup _ _ _ k Hnd);
    by rewrite list_lookup_fmap.
Qed.

(** ** Evaluation *)
Section evaluation.
Context (panic : PartitionEvalContext) (local_datetime : Z → DateTime) (clock : DateTime).
Context (p : ConditionPass) (now : Z).

Lemma evaluate_with_tree_Some n ctx : is_Some (evaluate_with_tree panic n ctx).
Proof.
  unfold evaluate_with_tree. destruct (partitions ctx);
    [destruct (run_tree (PartitionDomain panic) n ctx) as (t & -> & _)
    |destruct (run_tree BoolDomain n ctx) as (t & -> & _)]; by eexists.
Qed.

Lemma evaluate_from_rows selective idx infos requested :
  (∀ info, info ∈ infos → is_Some (es_assets (ps_eval_state p) !! ci_asset_key info)) →
  ∃ rows, evaluate_from panic local_datetime clock p now selective idx infos requested = Some rows ∧
  StronglySorted lt (info_idx <$> rows) ∧
  Forall (λ row, idx ≤ info_idx row < idx + length infos) rows.
Proof.
  revert idx requested. induction infos as [|info infos IH]; intros idx requested Hst; simpl.
  { exists []. split; [done|]. split; constructor. }
  assert (Hskip : ∀ rq, ∃ rows, evaluate_from panic local_datetime clock p now selective (S idx) infos rq = Some rows ∧
    StronglySorted lt (info_idx <$> rows) ∧
    Forall (λ row, S idx ≤ info_idx row < idx + S (length infos)) rows).
  { intros rq. destruct (IH (S idx) rq) as (rows & H1 & H2 & H3); [intros; apply Hst; by right|].
    exists rows. split; [done|]. split; [done|]. eapply Forall_impl; [exact H3|]. simpl. lia. }
  assert (Hweak : ∀ rows, Forall (λ row, S idx ≤ info_idx row < idx + S (length infos)) rows →
                  Forall (λ row, idx ≤ info_idx row < idx + S (length infos)) rows).
  { intros rows Hr. eapply Forall_impl; [exact Hr|]. simpl. lia. }
  destruct (left_out _ _ _); [destruct (Hskip requested) as (rows & ? & ? & ?); exists rows; eauto|].
  destruct (cc_records _ !! _) as [record|];
    [|destruct (Hskip requested) as (rows & ? & ? & ?); exists rows; eauto].
  destruct (Hst info) as [prev ->]; [left|].
  destruct (evaluate_with_tree_Some (ci_condition info)
    (condition_context local_datetime clock p now info record prev requested)) as [[r t] ->].
  destruct (Hskip (if fired r then <[ci_asset_key info := default All (selection r)]> requested
                   else requested)) as (rows & -> & Hs & Hf).
  eexists. split; [done|]. split.
  - rewrite fmap_cons. constructor; [done|]. apply Forall_fmap. eapply Forall_impl; [exact Hf|]. simpl. lia.
  - constructor; [simpl; lia|by apply Hweak].
Qed.

Lemma pass_evaluate_ok selective :
  pass_ok p → ∃ rows, pass_evaluate panic local_datetime clock p now selective = Some rows ∧ rows_ok p rows.
Proof.
  intros Hp. destruct (evaluate_from_rows selective 0 (ps_conditions p) ∅ (po_state p Hp))
    as (rows & Hr & Hs & Hf).
  exists rows. split; [done|]. rewrite Forall_forall in Hf.
  assert (Hv : ∀ row, row ∈ rows → is_Some (row_info p row)).
  { intros row Hrow. apply lookup_lt_is_Some. apply Hf in Hrow. lia. }
  split; [done|].
  assert (Hnd : NoDup (info_idx <$> rows)).
  { clear -Hs. induction Hs as [|x l _ IH Hx]; constructor; [|done]. intros Hin.
    rewrite Forall_forall in Hx. specialize (Hx x Hin). lia. }
  clear Hs Hf Hr. induction rows as [|row rows IH]; [constructor|].
  rewrite fmap_cons in *. apply NoDup_cons in Hnd as [Hn Hnd]. constructor.
  - intros (row' & Heq & Hin)%list_elem_of_fmap. destruct (Hv row) as [info Hi]; [left|].
    apply Hn, list_elem_of_fmap. exists row'. split; [|done].
    apply (row_key_inj p row row' (ci_asset_key info) Hp); [|rewrite <-Heq]; by unfold row_key; rewrite Hi.
  - apply IH; [|done]. intros. apply Hv. by right.
Qed.

Lemma to_materialize_Some rows : rows_ok p rows → is_Some (to_materialize p rows).
Proof.
  intros [Hv _]. unfold to_materialize. apply mapM_is_Some. apply Forall_forall.
  intros row [_ Hrow]%list_elem_of_filter. destruct (Hv row Hrow) as [info Hi]. unfold compose. rewrite Hi. by eexists.
Qed.
End evaluation.

Lemma plan_tick_ok panic local_datetime clock now selective p :
  pass_ok p → ∃ out p1, plan_tick panic local_datetime clock now selective p = Some (out, p1) ∧
  rows_ok p1 (results out) ∧ pass_ok p1 ∧ ps_conditions p1 = ps_conditions p ∧
  es_assets (ps_eval_state p1) = es_assets (ps_eval_state p).
Proof.
  intros Hp. unfold plan_tick.
  destruct (pass_evaluate_ok panic local_datetime clock p now selective Hp) as (rows & -> & Hr). simpl.
  destruct (to_materialize_Some p rows Hr) as [tms ->]. simpl.
  destruct (classify_materializations p tms) as [pl ip]. do 2 eexists. split; [done|].
  destruct Hp, Hr. split_and!; by try split.
Qed.

(** The schedules of the conditions parse, as is checked when a condition is built. *)
Definition scheduled (p : ConditionPass) : Prop := Forall (λ info, schedules_ok (ci_condition info)) (ps_conditions p).

(** A context without keys. *)
Definition no_context_value : PartitionEvalContext :=
  {| all_keys := ∅; p_in_progress := ∅; p_failed := ∅; p_timestamps := ∅; resolver := resolver_empty; time_windows := None;
     all_partition_statuses := ∅; dep_root_floor := None |}.

(** A tick reaches neither the unwrap of a partition context nor that of a schedule. *)
Lemma evaluate_from_no_panic b1 b2 p1 p2 local_datetime clock p now selective idx infos requested :
  Forall (λ info, schedules_ok (ci_condition info)) infos →
  evaluate_from (C := with_cron_panic b1 C) p1 local_datetime clock p now selective idx infos requested =
  evaluate_from (C := with_cron_panic b2 C) p2 local_datetime clock p now selective idx infos requested.
Proof.
  intros Hs. revert idx requested. induction Hs as [|info infos Hi _ IH]; intros idx requested; [done|]. cbn [evaluate_from].
  destruct (left_out _ _ _); [apply IH|]. destruct (cc_records _ !! _) as [record|]; [|apply IH]. destruct (es_assets _ !! _) as [prev|]; [|done].
  rewrite (proj2 (evaluate_no_panic b1 b2 p1 p2 (ci_condition info) _ Hi)). destruct (evaluate_with_tree _ _ _) as [[res t]|]; [|done]. by rewrite IH.
Qed.

Lemma plan_tick_no_panic b1 b2 p1 p2 local_datetime clock now selective p : scheduled p →
  plan_tick (C := with_cron_panic b1 C) p1 local_datetime clock now selective p = plan_tick (C := with_cron_panic b2 C) p2 local_datetime clock now selective p.
Proof. intros Hs. unfold plan_tick, pass_evaluate. by rewrite (evaluate_from_no_panic b1 b2 p1 p2). Qed.

(** ** Committing *)
Section commit.
Context (p : ConditionPass) (now : Z).

Lemma skip_set_spec rows planned failed :
  (∀ row, row ∈ rows → is_Some (row_info p row)) →
  ∃ skip, skip_set p rows planned failed = Some skip ∧
  ∀ a, a ∈ skip ↔ a ∈ failed ∨
    ((a ∉ planned) ∧ ∃ row, row ∈ rows ∧ row_key p row = Some a ∧ fired (result row) = true).
Proof.
  unfold skip_set. revert failed. induction rows as [|row rows IH]; intros failed Hv; cbn [foldl].
  { exists failed. split; [done|]. intros a. split; [by left|]. intros [?|(_ & ? & []%not_elem_of_nil & _)]. done. }
  destruct (Hv row) as [info Hi]; [left|]. rewrite Hi. cbn [mbind option_bind].
  assert (Hk : row_key p row = Some (ci_asset_key info)) by (unfold row_key; by rewrite Hi).
  assert (Hv' : ∀ row, row ∈ rows → is_Some (row_info p row)) by (intros; apply Hv; by right).
  destruct (fired (result row)) eqn:Hf; [case_bool_decide as Hpl|].
  - destruct (IH failed Hv') as (skip & -> & Hs). exists skip. split; [done|]. intros a. rewrite Hs.
    split; [intros [?|(? & row' & ? & ?)]; [by left|right; split; [done|]; exists row'; split; [by right|done]]|].
    intros [?|(Hn & row' & [->|?]%elem_of_cons & Ha & ?)]; [by left|congruence|right; split; [done|]; by exists row'].
  - destruct (IH ({[ci_asset_key info]} ∪ failed) Hv') as (skip & -> & Hs). exists skip. split; [done|].
    intros a. rewrite Hs, elem_of_union, elem_of_singleton. split.
    + intros [[->|?]|(? & row' & ? & ?)]; [right; split; [done|]; exists row; split; [left|done]|by left|].
      right. split; [done|]. exists row'. split; [by right|done].
    + intros [?|(Hn & row' & [->|?]%elem_of_cons & Ha & ?)]; [by left; right|left; left; congruence|].
      right. split; [done|]. by exists row'.
  - destruct (IH failed Hv') as (skip & -> & Hs). exists skip. split; [done|]. intros a. rewrite Hs.
    split; [intros [?|(? & row' & ? & ?)]; [by left|right; split; [done|]; exists row'; split; [by right|done]]|].
    intros [?|(Hn & row' & [->|?]%elem_of_cons & Ha & ?)]; [by left|congruence|right; split; [done|]; by exists row'].
Qed.

(** What the loop over the rows does to one asset. *)
Definition commit_state (info : AssetConditionInfo) (record : AssetRecord) (row : EvalResultRow)
    (prev : AssetConditionState) : AssetConditionState :=
  update_condition_state (update_context p now info record (acs_is_initial prev)) (result row) prev.

Lemma commit_rows_None skip rows : foldl (commit_row p now skip) None rows = None.
Proof. by induction rows. Qed.

(** One row: it does nothing, or writes its asset's state. *)
Lemma commit_row_cases skip assets roots row info :
  row_info p row = Some info → is_Some (assets !! ci_asset_key info) →
  let key := ci_asset_key info in
  (commit_row p now skip (Some (assets, roots)) row = Some (assets, roots) ∧
   (key ∈ skip ∨ cc_records (ps_cache p) !! key = None)) ∨
  ∃ record prev roots',
    (key ∉ skip) ∧ cc_records (ps_cache p) !! key = Some record ∧ assets !! key = Some prev ∧
    commit_row p now skip (Some (assets, roots)) row
    = Some (<[key := commit_state info record row prev]> assets, roots ++ roots') ∧
    (∀ a, a ∈ roots' → a = key) ∧ (fired (result row) = true → key ∈ roots').
Proof.
  intros Hi [prev Hp] key. unfold commit_row. cbn [mbind option_bind]. rewrite Hi. cbn [mbind option_bind].
  fold key. case_bool_decide as Hs; [left; by split; [|left]|].
  destruct (cc_records (ps_cache p) !! key) as [record|] eqn:Hr; [|left; by split; [|right]].
  right. fold key in Hp. rewrite Hp. cbn [mbind option_bind].
  exists record, prev, (if fired (result row) || acs_is_initial prev then [key] else []).
  split_and!; [done..| | |].
  - destruct (_ || _); by rewrite ?app_nil_r.
  - destruct (_ || _); set_solver.
  - intros ->. simpl. set_solver.
Qed.

(** The loop: every row that is not skipped and has a record writes its asset's state, and
    nothing else changes. *)
Record rows_committed (skip : gset string) (rows : list EvalResultRow)
    (assets : gmap string AssetConditionState) (roots : list string)
    (assets' : gmap string AssetConditionState) (roots' : list string) : Prop := {
  rc_other a :
    (∀ row, row ∈ rows → row_key p row = Some a → a ∈ skip ∨ cc_records (ps_cache p) !! a = None) →
    assets' !! a = assets !! a ∧ (a ∈ roots' → a ∈ roots);
  rc_hit row info record prev :
    row ∈ rows → row_info p row = Some info → (ci_asset_key info ∉ skip) →
    cc_records (ps_cache p) !! ci_asset_key info = Some record →
    assets !! ci_asset_key info = Some prev →
    assets' !! ci_asset_key info = Some (commit_state info record row prev) ∧
    (fired (result row) = true → ci_asset_key info ∈ roots');
  rc_some a : is_Some (assets !! a) → is_Some (assets' !! a);
  rc_roots a : a ∈ roots → a ∈ roots'
}.

Lemma commit_rows_spec skip rows assets roots :
  rows_ok p rows →
  (∀ row info, row ∈ rows → row_info p row = Some info → is_Some (assets !! ci_asset_key info)) →
  ∃ assets' roots', foldl (commit_row p now skip) (Some (assets, roots)) rows = Some (assets', roots') ∧
                    rows_committed skip rows assets roots assets' roots'.
Proof.
  revert assets roots. induction rows as [|row rows IH]; intros assets roots [Hv Hnd] Hst.
  { exists assets, roots. split; [done|]. split; [done| |done|done]. by intros ???? ?%not_elem_of_nil. }
  destruct (Hv row) as [info Hi]; [left|]. rewrite fmap_cons in Hnd. apply NoDup_cons in Hnd as [Hn Hnd].
  assert (Hrow : row_key p row = Some (ci_asset_key info)) by (unfold row_key; by rewrite Hi).
  assert (Hother : ∀ row', row' ∈ rows → row_key p row' ≠ Some (ci_asset_key info)).
  { intros row' Hin Heq. apply Hn, list_elem_of_fmap. exists row'. split; [congruence|done]. }
  assert (Hok : rows_ok p rows) by (split; [intros; apply Hv; by right|done]).
  cbn [foldl].
  destruct (commit_row_cases skip assets roots row info Hi) as [[-> Hno]|Hyes]; [by eapply Hst; [left|]| |].
  - destruct (IH assets roots Hok) as (assets' & roots' & -> & [R1 R2 R3 R4]); [intros; eapply Hst; [by right|done]|].
    exists assets', roots'. split; [done|]. split; [| |done|done].
    + intros a Ha. apply R1. intros. apply (Ha row0); [by right|done].
    + intros row' info' rec prev [->|Hin]%elem_of_cons Hi' Hs Hr; [|by eapply R2].
      simplify_eq. destruct Hno as [?|?]; [done|congruence].
  - destruct Hyes as (record & prev & new & Hs & Hr & Hp & -> & Hnew & Hfire).
    destruct (IH (<[ci_asset_key info := commit_state info record row prev]> assets) (roots ++ new) Hok)
      as (assets' & roots' & -> & [R1 R2 R3 R4]).
    { intros row' info' Hin Hi'. apply lookup_insert_is_Some'. right. eapply Hst; [by right|done]. }
    destruct (R1 (ci_asset_key info)) as [E1 E2]; [intros row' Hin Hk; by destruct (Hother row' Hin)|].
    exists assets', roots'. split; [done|]. split.
    + intros a Ha. destruct (R1 a) as [E3 E4]; [intros row' ??; apply (Ha row'); [by right|done]|].
      destruct (decide (a = ci_asset_key info)) as [->|Hne].
      { destruct (Ha row) as [?|?]; [left|done|done|congruence]. }
      rewrite E3, lookup_insert_ne by done. split; [done|].
      intros [?|?%Hnew]%E4%elem_of_app; done.
    + intros row' info' rec prev' [->|Hin]%elem_of_cons Hi' Hs' Hr' Hp'.
      * simplify_eq. rewrite E1, lookup_insert_eq. split; [done|]. intros ?%Hfire. apply R4. set_solver.
      * assert (ci_asset_key info' ≠ ci_asset_key info).
        { intros Heq. apply (Hother row' Hin). unfold row_key. rewrite Hi'. simpl. congruence. }
        apply (R2 row' info' rec prev' Hin Hi' Hs' Hr'). by rewrite lookup_insert_ne.
    + intros a Ha. apply R3. apply lookup_insert_is_Some'. by right.
    + intros a Ha. apply R4. set_solver.
Qed.

(** ** Handled marks *)
Lemma scalar_mark_handled e keys (assets : gmap string AssetConditionState) a :
  scalar_clone <$> mark_partitions_handled e keys assets !! a = scalar_clone <$> assets !! a.
Proof.
  unfold mark_partitions_handled. destruct (decide (e = a)) as [->|Hne].
  - rewrite lookup_alter_eq. by destruct (assets !! a).
  - by rewrite lookup_alter_ne.
Qed.

(** The handled keys of an asset. *)
Definition handled_of (s : AssetConditionState) : KeySet :=
  match partition_state s with Some ps => handled ps | None => ∅ end.

(** The keys marked for [a]. *)
Definition keys_for_asset (a : string) (marks : list (string * list PartitionKey)) : list PartitionKey :=
  marks ≫= λ e, if bool_decide (e.1 = a) then e.2 else [].

Lemma mark_handled_lookup skip pl assets a :
  (a ∈ skip → mark_handled skip pl assets !! a = assets !! a) ∧
  scalar_clone <$> mark_handled skip pl assets !! a = scalar_clone <$> assets !! a ∧
  ((a ∉ skip) → handled_of <$> mark_handled skip pl assets !! a
     = (λ s, handled_of s ∪ list_to_set (keys_for_asset a (handled_marks pl))) <$> assets !! a).
Proof.
  unfold mark_handled, keys_for_asset. revert assets.
  induction (handled_marks pl) as [|e marks IH]; intros assets; cbn [foldl].
  { split_and!; [done|done|]. intros _. destruct (assets !! a); simpl; [f_equal; set_solver|done]. }
  rewrite bind_cons. case_bool_decide as He; destruct (decide (e.1 = a)) as [<-|Hne].
  - destruct (IH assets) as (H1 & H2 & H3). by split_and!.
  - destruct (IH assets) as (H1 & H2 & H3). rewrite (bool_decide_false (e.1 = a)) by done. by split_and!.
  - destruct (IH (mark_partitions_handled e.1 e.2 assets)) as (H1 & H2 & H3).
    split_and!; [done|by rewrite H2, scalar_mark_handled|]. intros Hs. rewrite H3, bool_decide_true by done.
    unfold mark_partitions_handled. rewrite lookup_alter_eq. destruct (assets !! e.1) as [s|]; simpl; [|done].
    f_equal. rewrite list_to_set_app_L. unfold handled_of. cbn [partition_state handled].
    destruct (partition_state s); simpl; set_solver.
  - destruct (IH (mark_partitions_handled e.1 e.2 assets)) as (H1 & H2 & H3).
    assert (Heq : mark_partitions_handled e.1 e.2 assets !! a = assets !! a)
      by (unfold mark_partitions_handled; by rewrite lookup_alter_ne).
    rewrite (bool_decide_false (e.1 = a)) by done. rewrite Heq in *. by split_and!.
Qed.

Lemma stamp_lookup skip pl assets a :
  stamp_dispatched_handled now skip pl assets !! a
  = if bool_decide (a ∈ skip) || negb (bool_decide (a ∈ dispatched_asset_keys pl)) then assets !! a
    else set_last_handled (Some now) <$> assets !! a.
Proof.
  unfold stamp_dispatched_handled.
  assert (Hm : a ∈ dispatched_asset_keys pl ↔ a ∈ elements (list_to_set (dispatched_asset_keys pl) : gset string))
    by (by rewrite elem_of_elements, elem_of_list_to_set).
  rewrite (bool_decide_ext _ _ Hm). clear Hm.
  assert (Hnd : NoDup (elements (list_to_set (dispatched_asset_keys pl) : gset string))) by apply NoDup_elements.
  revert assets. induction (elements _) as [|k l IH]; intros assets; cbn [foldl].
  { rewrite (bool_decide_false (a ∈ [])) by apply not_elem_of_nil. by rewrite orb_true_r. }
  apply NoDup_cons in Hnd as [Hk Hnd]. rewrite IH by done. destruct (decide (k = a)) as [->|Hne].
  - rewrite (bool_decide_true (a ∈ a :: l)), (bool_decide_false (a ∈ l)) by (done || left).
    rewrite orb_true_r, orb_false_r. case_bool_decide; [done|]. by rewrite lookup_alter_eq.
  - rewrite (bool_decide_ext (a ∈ k :: l) (a ∈ l)) by (rewrite elem_of_cons; naive_solver).
    destruct (bool_decide (k ∈ skip)), (_ || _); by rewrite ?lookup_alter_ne by done.
Qed.

(** ** The whole commit *)
Lemma rows_have_state (rows : list EvalResultRow) :
  pass_ok p → ∀ row info, row ∈ rows → row_info p row = Some info →
  is_Some (es_assets (ps_eval_state p) !! ci_asset_key info).
Proof. intros Hp row info _ Hi. apply (po_state p Hp). by eapply list_elem_of_lookup_2. Qed.

Lemma conditioned_active row a : pass_ok p → row_key p row = Some a → a ∈ ps_active p.
Proof.
  intros Hp Hk. rewrite (po_active p Hp), elem_of_list_to_set. unfold row_key in Hk.
  destruct (row_info p row) as [info|] eqn:Hi; [|done]. injection Hk as <-.
  apply list_elem_of_fmap_2. by eapply list_elem_of_lookup_2.
Qed.

(** The states a commit leaves, as the loops compose them. *)
Definition committed_assets (skip : gset string) (out : PassOutput)
    (assets : gmap string AssetConditionState) (roots : list string) : gmap string AssetConditionState :=
  let c := ps_cache p in
  stamp_dispatched_handled now skip (plan out) (mark_handled skip (plan out)
    (match roots with
     | [] => assets
     | _ => update_dep_baselines (cc_upstream_deps c) (ps_active p) (cc_partition_status c)
              (cc_records c) assets roots
     end)).

Record committed (out : PassOutput) (failed skip : gset string)
    (assets : gmap string AssetConditionState) (roots : list string) (p2 : ConditionPass) : Prop := {
  cm_skip a : a ∈ skip ↔ a ∈ failed ∨ ((a ∉ dispatched_asset_keys (plan out)) ∧
    ∃ row, row ∈ results out ∧ row_key p row = Some a ∧ fired (result row) = true);
  cm_rows : rows_committed skip (results out) (es_assets (ps_eval_state p)) [] assets roots;
  cm_state : es_assets (ps_eval_state p2) = committed_assets skip out assets roots;
  cm_retry : ps_needs_retry p2 = negb (bool_decide (skip = ∅));
  cm_conditions : ps_conditions p2 = ps_conditions p;
  cm_active : ps_active p2 = ps_active p;
  cm_by_key : ps_by_key p2 = ps_by_key p
}.

Lemma commit_tick_spec out failed :
  pass_ok p → rows_ok p (results out) →
  ∃ b p2 skip assets roots, commit_tick p now out failed = Some (b, p2) ∧
                            committed out failed skip assets roots p2.
Proof.
  intros Hp Hr. unfold commit_tick.
  destruct (skip_set_spec (results out) (list_to_set (dispatched_asset_keys (plan out))) failed
    (ro_valid p _ Hr)) as (skip & -> & Hs). cbn [mbind option_bind].
  destruct (commit_rows_spec skip (results out) (es_assets (ps_eval_state p)) [] Hr
    (rows_have_state _ Hp)) as (assets & roots & -> & Hrows). cbn [mbind option_bind].
  do 2 eexists. exists skip, assets, roots. split; [done|]. split; try done.
  intros a. rewrite Hs. by rewrite not_elem_of_list_to_set.
Qed.

Lemma commit_tick_committed out failed b p2 :
  pass_ok p → rows_ok p (results out) → commit_tick p now out failed = Some (b, p2) →
  ∃ skip assets roots, committed out failed skip assets roots p2.
Proof.
  intros Hp Hr Hc. destruct (commit_tick_spec out failed Hp Hr) as (b' & p2' & skip & assets & roots & Hc' & Hm).
  rewrite Hc in Hc'. injection Hc' as <- <-. by exists skip, assets, roots.
Qed.

(** The conditioned assets' states after the baselines. *)
Definition with_baselines (assets : gmap string AssetConditionState) (roots : list string) :=
  match roots with
  | [] => assets
  | _ => update_dep_baselines (cc_upstream_deps (ps_cache p)) (ps_active p)
           (cc_partition_status (ps_cache p)) (cc_records (ps_cache p)) assets roots
  end.

Lemma with_baselines_lookup assets roots a :
  a ∈ ps_active p →
  with_baselines assets roots !! a
  = if bool_decide (a ∈ roots)
    then (λ s, with_dep_baselines (write_baselines (cc_upstream_deps (ps_cache p)) (ps_active p)
            (cc_records (ps_cache p)) a (dep_baselines s)) s) <$> assets !! a
    else assets !! a.
Proof.
  intros Ha. unfold with_baselines. destruct roots as [|r roots]; [done|].
  by apply update_dep_baselines_active.
Qed.

Lemma committed_keeps out failed skip assets roots p2 a :
  pass_ok p → committed out failed skip assets roots p2 → a ∈ skip → a ∈ ps_active p →
  es_assets (ps_eval_state p2) !! a = es_assets (ps_eval_state p) !! a.
Proof.
  intros Hp Hc Hs Ha. rewrite (cm_state _ _ _ _ _ _ Hc). unfold committed_assets.
  fold (with_baselines assets roots). rewrite stamp_lookup, bool_decide_true by done. cbn [orb].
  rewrite (proj1 (mark_handled_lookup skip (plan out) _ a) Hs), with_baselines_lookup by done.
  destruct (rc_other _ _ _ _ _ _ (cm_rows _ _ _ _ _ _ Hc) a) as [E1 E2]; [by left|].
  rewrite bool_decide_false by (intros []%E2%not_elem_of_nil). done.
Qed.

Lemma committed_some out failed skip assets roots p2 a :
  committed out failed skip assets roots p2 → a ∈ ps_active p →
  is_Some (es_assets (ps_eval_state p) !! a) → is_Some (es_assets (ps_eval_state p2) !! a).
Proof.
  intros Hc Ha Hs. apply (rc_some _ _ _ _ _ _ (cm_rows _ _ _ _ _ _ Hc)) in Hs.
  rewrite (cm_state _ _ _ _ _ _ Hc). unfold committed_assets. fold (with_baselines assets roots).
  assert (H1 : is_Some (with_baselines assets roots !! a)).
  { rewrite with_baselines_lookup by done. case_bool_decide; [by apply fmap_is_Some|done]. }
  assert (H2 : is_Some (mark_handled skip (plan out) (with_baselines assets roots) !! a)).
  { apply (fmap_is_Some scalar_clone).
    rewrite (proj1 (proj2 (mark_handled_lookup skip (plan out) _ a))). by apply fmap_is_Some. }
  rewrite stamp_lookup. destruct (_ || _); [done|by apply fmap_is_Some].
Qed.

Lemma committed_pass_ok out failed skip assets roots p2 :
  pass_ok p → committed out failed skip assets roots p2 → pass_ok p2.
Proof.
  intros Hp Hc. pose proof Hc as [_ _ _ _ E1 E2 E3]. split.
  - rewrite E1. apply (po_nodup p Hp).
  - rewrite E1, E2. apply (po_active p Hp).
  - rewrite E1. intros info Hin. eapply committed_some; [done| |by apply (po_state p Hp)].
    rewrite (po_active p Hp), elem_of_list_to_set. by apply list_elem_of_fmap_2.
  - rewrite E1, E3. apply (po_by_key p Hp).
Qed.
End commit.

(** C27: on a well-formed pass whose conditions' schedules parse a tick never panics, whatever
    fires and whichever dispatches fail: every lookup by row index and by asset succeeds, the
    evaluation does not depend on what stands for the panics of its unwraps, of a partition
    context and of a parsed schedule, and the pass stays well formed, with the conditions it had. *)
Theorem tick_total local_datetime clock now selective p :
  pass_ok p → scheduled p →
  ∃ out p1, (∀ unparsed no_context, plan_tick (C := with_cron_panic unparsed C) no_context local_datetime clock now selective p = Some (out, p1)) ∧
  pass_ok p1 ∧ ps_conditions p1 = ps_conditions p ∧
  ∀ failed, ∃ b p2, commit_tick p1 now out failed = Some (b, p2) ∧ pass_ok p2 ∧ ps_conditions p2 = ps_conditions p.
Proof.
  intros Hp Hs. destruct (plan_tick_ok no_context_value local_datetime clock now selective p Hp)
    as (out & p1 & Hplan & Hr & Hp1 & Hc1 & _).
  exists out, p1. split; [intros b panic; by rewrite (plan_tick_no_panic b cron_panic panic no_context_value), with_cron_panic_id|]. split_and!; [done|done|]. intros failed.
  destruct (commit_tick_spec p1 now out failed Hp1 Hr) as (b & p2 & skip & assets & roots & Hc & Hm).
  exists b, p2. split; [done|]. split; [by eapply committed_pass_ok|]. by rewrite (cm_conditions _ _ _ _ _ _ _ _ Hm).
Qed.

(** C20: a fired asset whose dispatch failed, or whose selection left nothing to dispatch,
    keeps its condition state exactly, so that its trigger is not consumed, and the pass
    does not skip the next tick. *)
Theorem undispatched_keeps_state p now out failed b p2 row a :
  pass_ok p → rows_ok p (results out) → commit_tick p now out failed = Some (b, p2) →
  row ∈ results out → row_key p row = Some a → fired (result row) = true →
  a ∈ failed ∨ (a ∉ dispatched_asset_keys (plan out)) →
  es_assets (ps_eval_state p2) !! a = es_assets (ps_eval_state p) !! a ∧
  ∀ has_changes, should_skip p2 has_changes = false.
Proof.
  intros Hp Hr Hc Hin Hk Hf Ha.
  destruct (commit_tick_committed p now out failed b p2 Hp Hr Hc) as (skip & assets & roots & Hm).
  assert (Hs : a ∈ skip).
  { apply (cm_skip _ _ _ _ _ _ _ _ Hm). destruct Ha as [?|?]; [by left|right]. split; [done|]. by exists row. }
  split; [eapply committed_keeps; [done|done|done|by eapply conditioned_active]|].
  intros hc. unfold should_skip. rewrite (cm_retry _ _ _ _ _ _ _ _ Hm), bool_decide_false by set_solver. done.
Qed.
End pass.

(** ** A new pass is well formed *)
Section new.
Context {G : GridOps} {T : NodeText} {C : CronOps} {J : JiffText} {K : CronGrid}.

Lemma seed_assets_spec conditions assets :
  (∀ a, is_Some (assets !! a) → seed_assets conditions assets !! a = assets !! a) ∧
  (∀ info, info ∈ conditions → is_Some (seed_assets conditions assets !! ci_asset_key info)).
Proof.
  unfold seed_assets. revert assets. induction conditions as [|c cs IH]; intros assets; cbn [foldl].
  { split; [done|]. by intros ? ?%not_elem_of_nil. }
  destruct (assets !! ci_asset_key c) as [s|] eqn:Hc.
  - destruct (IH assets) as [H1 H2]. split; [done|]. intros info [->|?]%elem_of_cons; [|by apply H2].
    rewrite H1, Hc by by eexists. by eexists.
  - destruct (IH (<[ci_asset_key c := AssetConditionState_default]> assets)) as [H1 H2]. split.
    + intros a Ha. rewrite H1; [|apply lookup_insert_is_Some'; by right].
      rewrite lookup_insert_ne; [done|]. intros <-. rewrite Hc in Ha. by destruct Ha.
    + intros info [->|?]%elem_of_cons; [|by apply H2].
      rewrite H1; rewrite lookup_insert_eq; by eexists.
Qed.

Lemma by_key_lookup conditions k0 (m : gmap string nat) idx info :
  NoDup (ci_asset_key <$> conditions) → conditions !! idx = Some info →
  foldl (λ m '(i, c), <[ci_asset_key c := i]> m) m (imap (λ i c, (k0 + i, c)) conditions)
    !! ci_asset_key info = Some (k0 + idx).
Proof.
  revert k0 m idx. induction conditions as [|c cs IH]; intros k0 m idx Hnd Hidx; [done|].
  rewrite fmap_cons in Hnd. apply NoDup_cons in Hnd as [Hn Hnd]. rewrite imap_cons. cbn [foldl].
  assert (Heq : imap ((λ i c, (k0 + i, c)) ∘ S) cs = imap (λ i c, (S k0 + i, c)) cs)
    by (apply imap_ext; intros; simpl; f_equal; lia).
  rewrite Heq. destruct idx as [|idx]; simpl in Hidx.
  - injection Hidx as ->. clear IH Heq. rewrite Nat.add_0_r.
    assert (Hother : ∀ l (m : gmap string nat), (ci_asset_key info ∉ (ci_asset_key <$> l.*2)) →
      foldl (λ m '(i, c), <[ci_asset_key c := i]> m) m l !! ci_asset_key info = m !! ci_asset_key info).
    { induction l as [|[i c] l IHl]; intros m' Hni; [done|]. cbn [foldl].
      rewrite IHl by set_solver. rewrite lookup_insert_ne by set_solver. done. }
    rewrite Hother, lookup_insert_eq; [done|].
    intros (c & Hc & Hin)%list_elem_of_fmap. apply list_elem_of_fmap in Hin as ([i c'] & -> & Hin).
    apply elem_of_lookup_imap in Hin as (j & x & [= -> ->] & Hj). apply Hn. rewrite Hc.
    apply list_elem_of_fmap_2. by eapply list_elem_of_lookup_2.
  - rewrite (IH (S k0) _ idx) by done. f_equal. lia.
Qed.

Lemma pass_new_ok cache es conditions upstream :
  NoDup (ci_asset_key <$> conditions) → pass_ok (pass_new cache es conditions upstream).
Proof.
  intros Hnd. split; cbn [pass_new ps_conditions ps_active ps_eval_state ps_by_key with_assets es_assets];
    [done|done|apply seed_assets_spec|].
  intros idx info Hidx. by apply (by_key_lookup conditions 0 ∅).
Qed.
End new.

(** ** Examples *)
Definition ex_info : AssetConditionInfo :=
  {| ci_asset_key := "b"; ci_condition := Missing; ci_partition_info := None;
     ci_backfill_strategy := None |}.

Definition ex_records_cache : AssetConditionCache :=
  (apply_refresh_delta
     {| changed := true; clear_tick_accumulators := true; record_updates := [ex_record "b" None None];
        in_progress_changes := []; failed_adds := ∅; failed_removes := ∅;
        deletion_supersessions := []; materialized_overrides := ∅; last_run_updates := [];
        tick_tag_updates := []; delta_partition_status := ∅; action_partition_checks := ∅;
        delta_backfill := None; new_last_seen_run_ts := None; new_last_observation_ts := None;
        track_action_runs := []; untrack_action_runs := []; confirmed_pending := [];
        evicted_pending := []; applied_runs := []; backfill_ended_assets := [] |}
     (ex_condition_cache ∅)).2.

Definition ex_pass : ConditionPass :=
  pass_new ex_records_cache
    {| schema_version := 1; es_assets := ∅; es_is_initial := true; es_failed_assets := ∅ |}
    [ex_info] ∅.

Lemma ex_pass_ok : pass_ok ex_pass.
Proof. apply pass_new_ok. apply NoDup_singleton. Qed.

(** A pass whose condition also has a schedule. *)
Definition ex_hourly : ConditionPass :=
  pass_new ex_records_cache {| schema_version := 1; es_assets := ∅; es_is_initial := true; es_failed_assets := ∅ |}
    [{| ci_asset_key := ci_asset_key ex_info; ci_condition := Or [Missing; CronTickPassed "0 * * * *" (Some "UTC")]; ci_partition_info := None; ci_backfill_strategy := None |}] ∅.

Lemma ex_hourly_ok : pass_ok ex_hourly.
Proof. apply pass_new_ok. apply NoDup_singleton. Qed.

Lemma ex_hourly_scheduled : scheduled ex_hourly.
Proof. apply Forall_singleton. repeat constructor. by eexists. Qed.

Lemma tick_total_witness :
  ∃ out p1, (∀ unparsed no_context, plan_tick (C := with_cron_panic unparsed ex_cron) no_context id 0 10 false ex_hourly = Some (out, p1)) ∧ pass_ok p1.
Proof.
  destruct (tick_total id 0 10 false ex_hourly ex_hourly_ok ex_hourly_scheduled) as (out & p1 & H & Hok & _).
  exists out, p1. split; [exact H|exact Hok].
Defined.

(** The tick fires [b], which has never been materialized. *)
Example ex_tick_fires :
  (λ r, dispatched_asset_keys (plan r.1)) <$> plan_tick ex_pctx id 0 10 false ex_pass = Some ["b"].
Proof. vm_compute. reflexivity. Qed.

Definition ex_fired_row : EvalResultRow :=
  {| info_idx := 0;
     result := {| fired := true; sub_results := {[ 0%N := true ]}; selection := None;
                  sub_selections := None; dep_sub_results := ∅; dep_sub_selections := None |};
     tree := MkNode 0 "missing" "Leaf" NTrue [] None |}.

Definition ex_output (whole : list string) : PassOutput :=
  {| results := [ex_fired_row];
     plan := {| unpartitioned := whole; single_partition_groups := ∅; multi_partition_backfills := [] |} |}.

Lemma ex_rows_ok whole : rows_ok ex_pass (results (ex_output whole)).
Proof.
  split; [|apply NoDup_singleton]. intros row ->%list_elem_of_singleton. by exists ex_info.
Qed.

Lemma undispatched_keeps_state_witness :
  ∃ b p2, commit_tick ex_pass 10 (ex_output ["b"]) {[ "b" ]} = Some (b, p2) ∧
          es_assets (ps_eval_state p2) !! "b" = es_assets (ps_eval_state ex_pass) !! "b".
Proof.
  destruct (commit_tick_spec ex_pass 10 (ex_output ["b"]) {[ "b" ]} ex_pass_ok (ex_rows_ok ["b"]))
    as (b & p2 & skip & assets & roots & Hc & _).
  exists b, p2. split; [done|].
  apply (undispatched_keeps_state ex_pass 10 (ex_output ["b"]) {[ "b" ]} b p2 ex_fired_row "b");
    [exact ex_pass_ok|exact (ex_rows_ok ["b"])|done|left|reflexivity|reflexivity|left; set_solver].
Defined.
