(* ===== verification/PassPlan.v ===== *)
(** The plan of a pass and its intent: the runs and backfills a tick plans, and the intent it
    persists before it commits, from which a crashed tick is recovered. *)

From S2P Require Import Prelude PartitionKey BackfillGroup ConditionNode Selection CondState Cron CondEval CondDomains CondExample CondTree CondCache CacheTheorems TimeGrid TimeGridTheorems Universe Window Pass PassTheorems.

(** * The persisted intent and its recovery

    The scalar states persisted before a tick's runs go out are the ones committing the
    tick writes, and recovering them after a crash gives the committed state, once. *)
Section intent.
Context {G : GridOps} {T : NodeText} {C : CronOps} {J : JiffText} {K : CronGrid}.
Context `{HI : !HashIter PartitionKey}.

Lemma intent_baselines_write p a b :
  intent_baselines p a b
  = write_baselines (cc_upstream_deps (ps_cache p)) (ps_active p) (cc_records (ps_cache p)) a b.
Proof.
  unfold intent_baselines, write_baselines, eligible_deps.
  destruct (cc_upstream_deps (ps_cache p) !! a) as [deps|]; simpl; [|done].
  by rewrite foldl_filter_if.
Qed.

(** The keys the plan dispatches for an asset, as the intent and as the commit list them. *)
Lemma intent_keys_marks pl a :
  (list_to_set (intent_keys pl a) : KeySet) = list_to_set (keys_for_asset a (handled_marks pl)).
Proof.
  apply set_eq. intros pk. rewrite !elem_of_list_to_set. unfold intent_keys, keys_for_asset, handled_marks.
  rewrite bind_app, !elem_of_app, list_elem_of_fmap, !list_elem_of_bind.
  split.
  - intros [([pk' as'] & -> & Hin)|([a' ks] & Hpk & Hin)].
    + apply list_elem_of_filter in Hin as [Ha Hin]. left. exists (a, [pk']). simpl.
      rewrite bool_decide_true by done. split; [left|].
      apply list_elem_of_bind. exists (pk', as'). split; [|done]. by apply (list_elem_of_fmap_2 (λ a, (a, [pk']))).
    + right. exists (a', ks). split; [|done]. done.
  - intros [([a' ks] & Hpk & Hin)|([a' ks] & Hpk & Hin)].
    + apply list_elem_of_bind in Hin as ([pk' as'] & Hin & Hm). apply list_elem_of_fmap in Hin as (a'' & [= -> ->] & Ha).
      simpl in Hpk. case_bool_decide as Heq; [|by apply not_elem_of_nil in Hpk]. subst.
      apply list_elem_of_singleton in Hpk as ->. left. exists (pk', as'). split; [done|].
      by apply list_elem_of_filter.
    + right. by exists (a', ks).
Qed.

Lemma intent_row_elem p now pl row a st keys l :
  intent_row p now pl row = Some l → (a, st, keys) ∈ l →
  ∃ info record prev, fired (result row) = true ∧ row_info p row = Some info ∧ ci_asset_key info = a ∧
    a ∈ dispatched_asset_keys pl ∧ cc_records (ps_cache p) !! a = Some record ∧
    es_assets (ps_eval_state p) !! a = Some prev ∧
    st = intent_state p now info record row prev ∧ keys = intent_keys pl a.
Proof.
  unfold intent_row. destruct (fired (result row)); simpl; [|by intros [= <-] ?%not_elem_of_nil].
  destruct (row_info p row) as [info|]; simpl; [|done].
  destruct (bool_decide_reflect (ci_asset_key info ∈ dispatched_asset_keys pl)) as [Hd|Hd]; simpl;
    [|by intros [= <-] ?%not_elem_of_nil].
  destruct (cc_records (ps_cache p) !! ci_asset_key info) as [record|] eqn:Hr;
    [|by intros [= <-] ?%not_elem_of_nil].
  destruct (es_assets (ps_eval_state p) !! ci_asset_key info) as [prev|] eqn:Hp;
    intros [= <-]; [|by intros ?%not_elem_of_nil].
  intros [= -> -> ->]%list_elem_of_singleton. by exists info, record, prev.
Qed.

Lemma pending_elem p now out entries e :
  pending_dispatch_states p now out = Some entries → e ∈ entries →
  ∃ row l, row ∈ results out ∧ intent_row p now (plan out) row = Some l ∧ e ∈ l.
Proof.
  unfold pending_dispatch_states. destruct (mapM _ _) as [ls|] eqn:Hm; simpl; [|done].
  intros [= <-] He. apply list_elem_of_join in He as (l & He & Hl).
  apply mapM_Some in Hm. apply list_elem_of_lookup in Hl as [j Hj].
  destruct (Forall2_lookup_r _ _ _ _ _ Hm Hj) as (row & Hrow & Hf).
  exists row, l. split; [by eapply list_elem_of_lookup_2|done].
Qed.

(** Committing and forgetting partitions is committing the scalar state. *)
Lemma scalar_commit p now info record row prev :
  scalar_clone (commit_state p now info record row prev)
  = update_condition_state
      {| target_record_timestamp := last_timestamp record;
         target_data_version := last_data_version record; suc_now := now;
         suc_is_initial := acs_is_initial prev; partition_timestamps := None |}
      (result row) (scalar_clone prev).
Proof.
  unfold commit_state, update_condition_state, scalar_clone, update_context. simpl. f_equal.
  by destruct (sub_selections (result row)).
Qed.

Lemma intent_committed p now out failed b p2 entries a st keys :
  pass_ok p → rows_ok p (results out) → commit_tick p now out failed = Some (b, p2) →
  pending_dispatch_states p now out = Some entries → (a, st, keys) ∈ entries → (a ∉ failed) →
  ∃ s, es_assets (ps_eval_state p2) !! a = Some s ∧ scalar_clone s = st ∧
       last_tick_timestamp s = Some now ∧ last_handled_timestamp s = Some now ∧
       list_to_set keys ⊆ handled_of s.
Proof.
  intros Hp Hr Hc Hpend Hin Hnf.
  destruct (pending_elem _ _ _ _ _ Hpend Hin) as (row & l & Hrow & Hl & He).
  destruct (intent_row_elem _ _ _ _ _ _ _ _ Hl He)
    as (info & record & prev & Hf & Hi & <- & Hd & Hrec & Hprev & -> & ->).
  destruct (commit_tick_committed p now out failed b p2 Hp Hr Hc) as (skip & assets & roots & Hm).
  set (a := ci_asset_key info) in *.
  assert (Hk : row_key p row = Some a) by (unfold row_key; by rewrite Hi).
  assert (Hs : a ∉ skip) by (rewrite (cm_skip _ _ _ _ _ _ _ _ Hm); naive_solver).
  assert (Ha : a ∈ ps_active p) by by eapply conditioned_active.
  destruct (rc_hit _ _ _ _ _ _ _ _ (cm_rows _ _ _ _ _ _ _ _ Hm) row info record prev Hrow Hi Hs Hrec Hprev)
    as [Hst Hroot].
  specialize (Hroot Hf). fold a in Hst, Hroot.
  pose proof (with_baselines_lookup p assets roots a Ha) as Hwb.
  rewrite bool_decide_true, Hst in Hwb by done. cbn [fmap option_fmap option_map] in Hwb.
  destruct (mark_handled_lookup skip (plan out) (with_baselines p assets roots) a) as (_ & Hsc & Hh).
  rewrite Hwb in Hsc, Hh. specialize (Hh Hs).
  destruct (mark_handled skip (plan out) (with_baselines p assets roots) !! a) as [s0|] eqn:Hs0; [|done].
  apply (inj Some) in Hsc. apply (inj Some) in Hh.
  exists (set_last_handled (Some now) s0). split.
  { rewrite (cm_state _ _ _ _ _ _ _ _ Hm). unfold committed_assets.
    fold (with_baselines p assets roots).
    by rewrite stamp_lookup, bool_decide_false, bool_decide_true, Hs0 by done. }
  assert (Hint : scalar_clone (set_last_handled (Some now) s0) = intent_state p now info record row prev).
  { change (scalar_clone (set_last_handled (Some now) s0)) with (set_last_handled (Some now) (scalar_clone s0)).
    rewrite Hsc. unfold intent_state. fold a. rewrite <-(scalar_commit p now info), intent_baselines_write. done. }
  split; [done|]. split_and!; [|done|].
  - change (last_tick_timestamp (scalar_clone (set_last_handled (Some now) s0)) = Some now).
    by rewrite Hint.
  - change (handled_of (set_last_handled (Some now) s0)) with (handled_of s0).
    rewrite Hh, intent_keys_marks. set_solver.
Qed.

(** The intent persisted before dispatch is what the commit writes: for every asset of
    the intent whose dispatch did not fail, the committed state is, partitions apart, the
    persisted one, it is stamped with this tick, and the keys of the intent are among its
    handled keys. *)
Theorem intent_is_commit p now out failed b p2 entries a st keys :
  pass_ok p → rows_ok p (results out) → commit_tick p now out failed = Some (b, p2) →
  pending_dispatch_states p now out = Some entries → (a, st, keys) ∈ entries → (a ∉ failed) →
  ∃ s, es_assets (ps_eval_state p2) !! a = Some s ∧ scalar_clone s = st ∧
       last_tick_timestamp s = Some now ∧ last_handled_timestamp s = Some now ∧
       list_to_set keys ⊆ handled_of s.
Proof. apply intent_committed. Qed.


(** ** Recovery *)

(** An entry needs no recovery: the state is as new, or nothing was dispatched. *)
Definition settled (store : DispatchStore) (tick_ts : Z) (assets : gmap string AssetConditionState)
    (e : PendingDispatchEntry) : bool :=
  entry_stale tick_ts assets e || negb (entry_dispatched store tick_ts e).

Lemma recover_entry_settled store ts acc e :
  settled store ts acc.1 e = true → recover_entry store ts acc e = acc.
Proof. destruct acc as [assets n]. unfold recover_entry, settled. simpl. by intros ->. Qed.

(** Every entry was committed by the tick of the intent. *)
Definition committed_at (pending : PendingDispatch) : Prop :=
  ∀ e, e ∈ pd_entries pending → ∃ t, last_tick_timestamp (pe_committed e) = Some t ∧ (tick_timestamp pending <= t)%Z.

Lemma recover_entry_keeps store ts acc e e' t :
  last_tick_timestamp (pe_committed e) = Some t → (ts <= t)%Z →
  settled store ts acc.1 e' = true → settled store ts (recover_entry store ts acc e).1 e' = true.
Proof.
  intros Ht Hle. destruct acc as [assets n]. unfold recover_entry. simpl.
  destruct (_ || _); [done|]. unfold settled. simpl. intros Hs.
  destruct (decide (pe_asset_key e = pe_asset_key e')) as [Heq|Hne].
  - unfold entry_stale. rewrite Heq, lookup_insert_eq. simpl. rewrite Ht.
    by rewrite (proj2 (Z.leb_le ts t)) by done.
  - unfold entry_stale in *. by rewrite lookup_insert_ne.
Qed.

Lemma recover_entry_settles store ts acc e t :
  last_tick_timestamp (pe_committed e) = Some t → (ts <= t)%Z →
  settled store ts (recover_entry store ts acc e).1 e = true.
Proof.
  intros Ht Hle. destruct acc as [assets n]. unfold recover_entry.
  destruct (_ || _) eqn:Hs; [done|]. simpl. unfold settled, entry_stale. rewrite lookup_insert_eq. simpl.
  rewrite Ht. by rewrite (proj2 (Z.leb_le ts t)) by done.
Qed.

Lemma recover_fold_settled store ts entries acc :
  (∀ e, e ∈ entries → ∃ t, last_tick_timestamp (pe_committed e) = Some t ∧ (ts <= t)%Z) →
  (∀ e, e ∈ entries ∨ settled store ts acc.1 e = true →
        settled store ts (foldl (recover_entry store ts) acc entries).1 e = true).
Proof.
  revert acc. induction entries as [|e entries IH]; intros acc Hc e' He'; cbn [foldl].
  { destruct He' as [[]%not_elem_of_nil|?]. done. }
  destruct (Hc e) as (t & Ht & Hle); [left|]. apply IH; [intros; apply Hc; by right|].
  destruct He' as [[->|?]%elem_of_cons|?]; [right|by left|right].
  - by eapply recover_entry_settles.
  - by eapply recover_entry_keeps.
Qed.

Lemma recover_fold_id store ts entries acc :
  (∀ e, e ∈ entries → settled store ts acc.1 e = true) →
  foldl (recover_entry store ts) acc entries = acc.
Proof.
  induction entries as [|e entries IH]; intros Hs; [done|]. cbn [foldl].
  rewrite recover_entry_settled by (apply Hs; left). apply IH. intros. apply Hs. by right.
Qed.

(** Only the recorded runs and backfills count. *)
Lemma settled_ext store store' ts assets e :
  ds_runs store' = ds_runs store → ds_backfills store' = ds_backfills store →
  settled store' ts assets e = settled store ts assets e.
Proof. intros Hr Hb. unfold settled, entry_dispatched. by rewrite Hr, Hb. Qed.

(** Recovery is idempotent: a daemon that dies after any of its writes and recovers
    again from the state it had recovered ends with the same condition states. *)
Theorem recovery_idempotent es store es1 stores s pending :
  ds_pending store = Some pending → committed_at pending →
  recover_pending_dispatch es store = (es1, stores) → s ∈ stores →
  es_assets (recover_pending_dispatch es1 s).1 = es_assets es1.
Proof.
  intros Hpend Hc. unfold recover_pending_dispatch at 1. rewrite Hpend.
  destruct (pd_entries pending) as [|e0 es0] eqn:He; [by intros [= <- <-] ?%not_elem_of_nil|].
  pose proof (recover_fold_settled store (tick_timestamp pending) (e0 :: es0) (es_assets es, 0)) as Hs.
  rewrite <-He in Hs. specialize (Hs Hc). rewrite He in Hs.
  destruct (foldl (recover_entry store (tick_timestamp pending)) _ _) as [assets n]. simpl in Hs.
  intros [= <- <-]. rewrite elem_of_app, list_elem_of_singleton. intros [Hin|Hin].
  2: { subst s. done. }
  destruct (0 <? n); [|by apply not_elem_of_nil in Hin]. apply list_elem_of_singleton in Hin as ->.
  unfold recover_pending_dispatch. cbn [ds_pending]. rewrite ?Hpend, He.
  rewrite recover_fold_id; [done|]. intros e Hin. cbn [fst es_assets].
  rewrite (settled_ext store) by done. apply Hs. by left.
Qed.

(** ** Recovery after a crash between dispatch and commit *)
Lemma recover_entry_other store ts acc e k :
  pe_asset_key e ≠ k → (recover_entry store ts acc e).1 !! k = acc.1 !! k.
Proof.
  intros Hne. destruct acc as [assets n]. unfold recover_entry. destruct (_ || _); [done|].
  simpl. by rewrite lookup_insert_ne.
Qed.

Lemma recover_fold_other store ts entries acc k :
  (k ∉ pe_asset_key <$> entries) → (foldl (recover_entry store ts) acc entries).1 !! k = acc.1 !! k.
Proof.
  revert acc. induction entries as [|e entries IH]; intros acc Hk; [done|]. cbn [foldl].
  rewrite fmap_cons in Hk. apply not_elem_of_cons in Hk as [??].
  rewrite IH by done. by apply recover_entry_other.
Qed.

Lemma recover_fold_lookup store ts entries acc e :
  NoDup (pe_asset_key <$> entries) → e ∈ entries →
  entry_stale ts acc.1 e = false → entry_dispatched store ts e = true →
  (foldl (recover_entry store ts) acc entries).1 !! pe_asset_key e
  = Some (splice e (default AssetConditionState_default (acc.1 !! pe_asset_key e))).
Proof.
  revert acc. induction entries as [|e' entries IH]; intros acc Hnd Hin Hst Hd; [by apply not_elem_of_nil in Hin|].
  rewrite fmap_cons in Hnd. apply NoDup_cons in Hnd as [Hn Hnd]. cbn [foldl].
  apply elem_of_cons in Hin as [->|Hin].
  - rewrite recover_fold_other by done. destruct acc as [assets n]. unfold recover_entry. simpl in *.
    rewrite Hst, Hd. simpl. by rewrite lookup_insert_eq.
  - assert (pe_asset_key e' ≠ pe_asset_key e).
    { intros Heq. apply Hn. rewrite Heq. by apply list_elem_of_fmap_2. }
    rewrite IH by (done || unfold entry_stale in *; by rewrite recover_entry_other by done).
    by rewrite recover_entry_other by done.
Qed.

(** The persisted intent of a tick: an entry per asset of [pending_dispatch_states]. *)
Record intent_of (p : ConditionPass) (now : Z) (out : PassOutput) (pending : PendingDispatch) : Prop := {
  io_tick : tick_timestamp pending = now;
  io_nodup : NoDup (pe_asset_key <$> pd_entries pending);
  io_states : ∃ entries, pending_dispatch_states p now out = Some entries ∧
    ∀ e, e ∈ pd_entries pending → (pe_asset_key e, pe_committed e, pe_dispatched_keys e) ∈ entries
}.

(** C21: a crash after dispatch loses nothing: when the daemon dies before persisting the
    tick, recovering from the older state gives every asset whose run or backfill exists
    the scalar state the commit would have written, with its dispatched keys handled. *)
Theorem recovery_restores p now out failed b p2 pending es store e :
  pass_ok p → rows_ok p (results out) → commit_tick p now out failed = Some (b, p2) →
  intent_of p now out pending → ds_pending store = Some pending →
  e ∈ pd_entries pending → (pe_asset_key e ∉ failed) →
  entry_stale now (es_assets es) e = false → entry_dispatched store now e = true →
  ∃ s s', es_assets (recover_pending_dispatch es store).1 !! pe_asset_key e = Some s ∧
          es_assets (ps_eval_state p2) !! pe_asset_key e = Some s' ∧
          scalar_clone s = scalar_clone s' ∧ list_to_set (pe_dispatched_keys e) ⊆ handled_of s.
Proof.
  intros Hp Hr Hc [Ht Hnd (entries & Hpd & Hin)] Hst He Hnf Hstale Hd.
  destruct (intent_committed p now out failed b p2 entries _ _ _ Hp Hr Hc Hpd (Hin e He) Hnf)
    as (s' & Hs' & Hsc & _).
  unfold recover_pending_dispatch. rewrite Hst.
  destruct (pd_entries pending) as [|e0 es0] eqn:Hes; [by apply not_elem_of_nil in He|].
  pose proof (recover_fold_lookup store now (e0 :: es0) (es_assets es, 0) e Hnd He Hstale Hd) as Hl.
  rewrite Ht. destruct (foldl _ _ _) as [assets n]. simpl in Hl. cbn [fst es_assets].
  eexists _, s'. split; [exact Hl|]. split; [done|]. split.
  { transitivity (scalar_clone (pe_committed e)); [done|]. by rewrite <-Hsc. }
  unfold handled_of, splice. cbn [with_partition_state partition_state].
  destruct (pe_dispatched_keys e) as [|k ks]; [done|]. cbn [handled]. set_solver.
Qed.
End intent.

(** ** Examples *)
Definition ex_prev : AssetConditionState := AssetConditionState_default.

Definition ex_intent : AssetConditionState :=
  intent_state ex_pass 10 ex_info (ex_record "b" None None) ex_fired_row ex_prev.

Lemma ex_pending : pending_dispatch_states ex_pass 10 (ex_output ["b"]) = Some [("b", ex_intent, [])].
Proof. reflexivity. Qed.

Lemma intent_is_commit_witness :
  ∃ b p2 s, commit_tick ex_pass 10 (ex_output ["b"]) ∅ = Some (b, p2) ∧
            es_assets (ps_eval_state p2) !! "b" = Some s ∧ last_handled_timestamp s = Some 10%Z.
Proof.
  destruct (commit_tick_spec ex_pass 10 (ex_output ["b"]) ∅ ex_pass_ok (ex_rows_ok ["b"]))
    as (b & p2 & skip & assets & roots & Hc & _).
  destruct (intent_is_commit ex_pass 10 (ex_output ["b"]) ∅ b p2 _ "b" ex_intent [] ex_pass_ok
    (ex_rows_ok ["b"]) Hc ex_pending) as (s & Hs & _ & _ & Hh & _); [left|set_solver|].
  by exists b, p2, s.
Defined.

Definition ex_entry : PendingDispatchEntry :=
  {| pe_asset_key := "b"; pe_run_ids := ["r9"]; pe_backfill_ids := []; pe_committed := ex_intent;
     pe_dispatched_keys := [] |}.

Definition ex_pending_dispatch : PendingDispatch := {| tick_timestamp := 10; pd_entries := [ex_entry] |}.

(** The run went out; the state persisted is the one before the tick. *)
Definition ex_store : DispatchStore :=
  {| ds_pending := Some ex_pending_dispatch; ds_eval_state := ps_eval_state ex_pass;
     ds_runs := {[ "r9" ]}; ds_backfills := [] |}.

Lemma ex_committed_at : committed_at ex_pending_dispatch.
Proof. intros e ->%list_elem_of_singleton. exists 10%Z. split; [reflexivity|cbn; lia]. Qed.

Lemma ex_intent_of : intent_of ex_pass 10 (ex_output ["b"]) ex_pending_dispatch.
Proof.
  split; [done|apply NoDup_singleton|]. eexists. split; [exact ex_pending|].
  intros e ->%list_elem_of_singleton. left.
Qed.

Lemma recovery_idempotent_witness :
  ∃ s, s ∈ (recover_pending_dispatch (ps_eval_state ex_pass) ex_store).2 ∧
  es_assets (recover_pending_dispatch (recover_pending_dispatch (ps_eval_state ex_pass) ex_store).1 s).1
  = es_assets (recover_pending_dispatch (ps_eval_state ex_pass) ex_store).1.
Proof.
  eexists. split; [left|].
  apply (recovery_idempotent (ps_eval_state ex_pass) ex_store _
    (recover_pending_dispatch (ps_eval_state ex_pass) ex_store).2 _ ex_pending_dispatch);
    [reflexivity|exact ex_committed_at|apply surjective_pairing|left].
Defined.

Lemma recovery_restores_witness :
  ∃ b p2 s s', commit_tick ex_pass 10 (ex_output ["b"]) ∅ = Some (b, p2) ∧
    es_assets (recover_pending_dispatch (ps_eval_state ex_pass) ex_store).1 !! "b" = Some s ∧
    es_assets (ps_eval_state p2) !! "b" = Some s' ∧ scalar_clone s = scalar_clone s'.
Proof.
  destruct (commit_tick_spec ex_pass 10 (ex_output ["b"]) ∅ ex_pass_ok (ex_rows_ok ["b"]))
    as (b & p2 & skip & assets & roots & Hc & _).
  destruct (recovery_restores ex_pass 10 (ex_output ["b"]) ∅ b p2 ex_pending_dispatch
    (ps_eval_state ex_pass) ex_store ex_entry ex_pass_ok (ex_rows_ok ["b"]) Hc ex_intent_of)
    as (s & s' & H1 & H2 & H3 & _); [reflexivity|left|set_solver|reflexivity|reflexivity|].
  by exists b, p2, s, s'.
Defined.

(** * The dispatch plan of a tick

    Every asset that fired lands in exactly one dispatch shape, with exactly the keys
    its selection names within its universe, and is marked in flight exactly when
    planned. *)
Section plan.
Context {G : GridOps} {T : NodeText} {C : CronOps} {J : JiffText} {K : CronGrid}.
Context `{HI : !HashIter PartitionKey} (p : ConditionPass).

(** The keys an asset that fired should be materialized for; [None] for the asset as a
    whole. *)
Definition wanted (tm : ToMaterialize) : option KeySet :=
  let universe := pi_all_keys <$> partition_info_for p (tm_asset_key tm) in
  match tm_selection tm with
  | Some (Keys keys) =>
      if is_empty_set keys then None
      else Some (match universe with Some all => keys ∩ all | None => keys end)
  | Some All | None => universe
  | Some Empty => None
  end.

Lemma hash_iter_set (X : KeySet) : list_to_set (hash_iter X) = X ∧ NoDup (hash_iter X).
Proof.
  split; [apply set_eq; intros k; by rewrite elem_of_list_to_set, elem_of_hash_iter|].
  rewrite hash_iter_perm. apply NoDup_elements.
Qed.

(** A shape carries the wanted keys. *)
Definition shape_ok (s : Shape) (w : option KeySet) : Prop :=
  match s with
  | Whole => w = None
  | Partitions keys => w = Some (list_to_set keys) ∧ NoDup keys ∧ keys ≠ []
  | Nothing => w = Some ∅
  end.

Lemma by_partition_ok keys (X : KeySet) :
  list_to_set keys = X → NoDup keys →
  shape_ok (match keys with [] => Nothing | _ => Partitions keys end) (Some X).
Proof. intros <- Hnd. by destruct keys. Qed.

Lemma classify_one_ok tm : shape_ok (classify_one p tm) (wanted tm).
Proof.
  unfold classify_one, wanted. cbv zeta. set (info := partition_info_for p (tm_asset_key tm)).
  destruct (tm_selection tm) as [[| |keys]|].
  - destruct info as [pi|]; [|done]. by apply by_partition_ok; apply hash_iter_set.
  - done.
  - destruct (is_empty_set keys); [done|]. destruct info as [pi|]; simpl.
    + apply by_partition_ok; [|apply NoDup_filter, hash_iter_set].
      apply set_eq. intros k. rewrite elem_of_list_to_set, list_elem_of_filter, elem_of_hash_iter. set_solver.
    + by apply by_partition_ok; apply hash_iter_set.
  - destruct info as [pi|]; [|done]. by apply by_partition_ok; apply hash_iter_set.
Qed.

(** ** The first loop *)
Definition whole_key (tm : ToMaterialize) : option string :=
  match classify_one p tm with Whole => Some (tm_asset_key tm) | _ => None end.

Definition part_entry (tm : ToMaterialize) : option (string * list PartitionKey) :=
  match classify_one p tm with Partitions keys => Some (tm_asset_key tm, keys) | _ => None end.

Lemma classify_fold tms whole parts ip :
  ∃ ip', foldl (classify_step p) (whole, parts, ip) tms
         = (whole ++ omap whole_key tms, parts ++ omap part_entry tms, ip') ∧
  ∀ a, is_Some (ip' !! a) ↔ is_Some (ip !! a) ∨ a ∈ omap whole_key tms ∨ a ∈ (omap part_entry tms).*1.
Proof.
  revert whole parts ip. induction tms as [|tm tms IH]; intros whole parts ip; cbn [foldl].
  { exists ip. rewrite !app_nil_r. split; [done|]. intros a. simpl. rewrite !elem_of_nil. tauto. }
  assert (Hm : ∀ k a, is_Some (mark_in_progress k ip !! a) ↔ is_Some (ip !! a) ∨ a = k).
  { intros k a. unfold mark_in_progress. destruct (ip !! k) eqn:E.
    - split; [by left|]. intros [?| ->]; [done|by rewrite E].
    - rewrite lookup_insert_is_Some'. naive_solver. }
  unfold classify_step at 2, whole_key, part_entry. cbn [omap list_omap].
  destruct (classify_one p tm) as [|keys|].
  - destruct (IH (whole ++ [tm_asset_key tm]) parts (mark_in_progress (tm_asset_key tm) ip)) as (ip' & -> & Hi).
    exists ip'. rewrite <-app_assoc. split; [done|]. intros a. rewrite Hi, Hm, elem_of_cons. tauto.
  - destruct (IH whole (parts ++ [(tm_asset_key tm, keys)]) (mark_in_progress (tm_asset_key tm) ip)) as (ip' & -> & Hi).
    exists ip'. rewrite <-app_assoc. split; [done|]. intros a. rewrite Hi, Hm, fmap_cons, elem_of_cons. simpl. tauto.
  - destruct (IH whole parts ip) as (ip' & -> & Hi). by exists ip'.
Qed.

(** ** The grouping *)
Definition in_group (groups : gmap PartitionKey (list string)) (pk : PartitionKey) (a : string) : Prop :=
  ∃ assets, groups !! pk = Some assets ∧ a ∈ assets.

Lemma multi_step b keys (parts multis : list (string * list PartitionKey)) a ks :
  length keys ≠ 1 →
  ((a, ks) ∈ multis ++ [(b, sort_by display_leb keys)] ∨
   ∃ k, (a, k) ∈ parts ∧ ks = sort_by display_leb k ∧ length k ≠ 1) ↔
  ((a, ks) ∈ multis ∨ ∃ k, (a, k) ∈ (b, keys) :: parts ∧ ks = sort_by display_leb k ∧ length k ≠ 1).
Proof.
  intros Hl. rewrite elem_of_app, list_elem_of_singleton. split.
  - intros [[?|[= -> ->]]|(k & ? & ? & ?)]; [by left|right; exists keys; split_and!; [left|done|done]|].
    right. exists k. split; [by right|done].
  - intros [?|(k & [[= -> ->]|?]%elem_of_cons & -> & ?)]; [by left; left|by left; right|].
    right. by exists k.
Qed.

Lemma group_fold parts singles multis :
  let r := foldl group_step (singles, multis) parts in
  (∀ pk a, in_group r.1 pk a ↔ in_group singles pk a ∨ (a, [pk]) ∈ parts) ∧
  (∀ a ks, (a, ks) ∈ r.2 ↔ (a, ks) ∈ multis ∨
     ∃ keys, (a, keys) ∈ parts ∧ ks = sort_by display_leb keys ∧ length keys ≠ 1).
Proof.
  cbv zeta. revert singles multis. induction parts as [|[b keys] parts IH]; intros singles multis; cbn [foldl].
  { split; intros; setoid_rewrite elem_of_nil; naive_solver. }
  unfold group_step at 2 4. cbn [fst snd]. pose proof (length_sort_by display_leb keys) as Hlen.
  destruct (sort_by display_leb keys) as [|pk1 [|pk2 rest]] eqn:Hs.
  - destruct (IH singles (multis ++ [(b, [])])) as [H1 H2]. split.
    + intros pk a. rewrite H1, elem_of_cons. split; [by intros [?|?]; auto|].
      intros [?|[[= -> <-]|?]]; [by left|simpl in Hlen; lia|by right].
    + intros a ks. rewrite H2, <-Hs. apply multi_step. simpl in Hlen. lia.
  - assert (keys = [pk1]) as ->.
    { pose proof (sort_by_perm display_leb keys) as Hp. rewrite Hs in Hp.
      by apply Permutation_singleton_l in Hp. }
    destruct (IH (<[pk1 := default [] (singles !! pk1) ++ [b]]> singles) multis) as [H1 H2]. split.
    + intros pk a. rewrite H1, elem_of_cons. unfold in_group. destruct (decide (pk1 = pk)) as [->|Hne].
      * rewrite lookup_insert_eq. split.
        -- intros [(? & [= <-] & [Ha| ->%list_elem_of_singleton]%elem_of_app)|?]; [|naive_solver..].
           destruct (singles !! pk); [|by apply not_elem_of_nil in Ha]. naive_solver.
        -- intros [(as' & -> & ?)|[[= ->]|?]]; [left|left|by right]; eexists; (split; [done|]); set_solver.
      * rewrite lookup_insert_ne by done. naive_solver.
    + intros a ks. rewrite H2. split.
      * intros [?|(k & ? & ?)]; [by left|right]. exists k. split; [by right|done].
      * intros [?|(k & [[= -> ->]|?]%elem_of_cons & ? & ?)]; [by left|done|right]. by exists k.
  - destruct (IH singles (multis ++ [(b, pk1 :: pk2 :: rest)])) as [H1 H2]. split.
    + intros pk a. rewrite H1, elem_of_cons. split; [by intros [?|?]; auto|].
      intros [?|[[= -> <-]|?]]; [by left| |by right]. simpl in Hlen. lia.
    + intros a ks. rewrite H2, <-Hs. apply multi_step. simpl in Hlen. lia.
Qed.

(** ** The plan *)
Lemma elem_of_whole (tms : list ToMaterialize) a :
  a ∈ omap whole_key tms ↔ ∃ tm, tm ∈ tms ∧ tm_asset_key tm = a ∧ wanted tm = None.
Proof.
  rewrite list_elem_of_omap. unfold whole_key. split; intros (tm & Htm & Ha).
  - exists tm. pose proof (classify_one_ok tm) as Hok. destruct (classify_one p tm); naive_solver.
  - exists tm. pose proof (classify_one_ok tm) as Hok. destruct (classify_one p tm); simpl in Hok; naive_solver.
Qed.

Lemma elem_of_parts (tms : list ToMaterialize) a keys :
  (a, keys) ∈ omap part_entry tms →
  NoDup keys ∧ keys ≠ [] ∧ ∃ tm, tm ∈ tms ∧ tm_asset_key tm = a ∧ wanted tm = Some (list_to_set keys).
Proof.
  rewrite list_elem_of_omap. unfold part_entry. intros (tm & Htm & Ha).
  pose proof (classify_one_ok tm) as Hok. destruct (classify_one p tm) as [|ks|]; try done.
  injection Ha as <- ->. destruct Hok as (? & ? & ?). split_and!; [done|done|]. by exists tm.
Qed.

Lemma parts_of_wanted (tms : list ToMaterialize) tm (X : KeySet) :
  tm ∈ tms → wanted tm = Some X → X ≠ ∅ →
  ∃ keys, (tm_asset_key tm, keys) ∈ omap part_entry tms ∧ NoDup keys ∧ list_to_set keys = X.
Proof.
  intros Htm Hw HX. pose proof (classify_one_ok tm) as Hok. rewrite Hw in Hok.
  destruct (classify_one p tm) as [|keys|] eqn:Hc; simpl in Hok; [done| |congruence].
  destruct Hok as ([= ->] & ? & ?). exists keys. split; [|done].
  apply list_elem_of_omap. exists tm. unfold part_entry. by rewrite Hc.
Qed.

Lemma singleton_keys keys (pk : PartitionKey) :
  NoDup keys → (list_to_set keys : KeySet) = {[ pk ]} ↔ keys = [pk].
Proof.
  intros Hnd. split; [|intros ->; set_solver]. intros Heq.
  assert (Hl : length keys = 1%nat) by (rewrite <-(size_list_to_set (C:=KeySet)), Heq by done; apply size_singleton).
  destruct keys as [|k [|]]; try done. f_equal. set_solver.
Qed.

Lemma elem_of_dispatched pl a :
  a ∈ dispatched_asset_keys pl ↔
  a ∈ unpartitioned pl ∨ (∃ pk, in_group (single_partition_groups pl) pk a) ∨
  ∃ ks, (a, ks) ∈ multi_partition_backfills pl.
Proof.
  unfold dispatched_asset_keys, in_group. rewrite !elem_of_app, list_elem_of_bind, list_elem_of_fmap.
  split; (intros [?|[Hs|Hm]]; [by left|right; left|right; right]).
  - destruct Hs as ([pk as'] & Ha & Hin%elem_of_map_to_list). by exists pk, as'.
  - destruct Hm as ([a' ks] & -> & ?). by exists ks.
  - destruct Hs as (pk & as' & Hpk & Ha). exists (pk, as'). by rewrite elem_of_map_to_list.
  - destruct Hm as (ks & ?). by exists (a, ks).
Qed.

(** The plan of a tick dispatches what fired, and nothing else: an asset as a whole
    exactly when nothing partitions its selection, a key in a single-partition group
    exactly when it is the only key wanted, and a backfill, in display order, of exactly
    the wanted keys when there are several; a selection with no key left in the universe
    is not dispatched. The assets marked in flight are those in flight before and the
    planned ones. *)
Theorem plan_exact (tms : list ToMaterialize) :
  let pl := (classify_materializations p tms).1 in
  let ip := (classify_materializations p tms).2 in
  (∀ a, a ∈ unpartitioned pl ↔ ∃ tm, tm ∈ tms ∧ tm_asset_key tm = a ∧ wanted tm = None) ∧
  (∀ pk a, in_group (single_partition_groups pl) pk a ↔
     ∃ tm, tm ∈ tms ∧ tm_asset_key tm = a ∧ wanted tm = Some {[ pk ]}) ∧
  (∀ a ks, (a, ks) ∈ multi_partition_backfills pl → NoDup ks ∧ 2 ≤ length ks ∧
     StronglySorted (λ x y, display_leb x y) ks ∧
     ∃ tm, tm ∈ tms ∧ tm_asset_key tm = a ∧ wanted tm = Some (list_to_set ks)) ∧
  (∀ tm X, tm ∈ tms → wanted tm = Some X → 2 ≤ size X →
     ∃ ks, (tm_asset_key tm, ks) ∈ multi_partition_backfills pl ∧ list_to_set ks = X) ∧
  (∀ a, is_Some (ip !! a) ↔
     is_Some (cc_in_progress (ps_cache p) !! a) ∨ a ∈ dispatched_asset_keys pl).
Proof.
  cbv zeta. unfold classify_materializations.
  destruct (classify_fold tms [] [] (cc_in_progress (ps_cache p))) as (ip & -> & Hip). cbn [app].
  destruct (group_fold (omap part_entry tms) ∅ []) as [Hs Hm].
  destruct (foldl group_step _ _) as [singles multis].
  cbn [fst snd unpartitioned single_partition_groups multi_partition_backfills] in *.
  split_and!.
  - apply elem_of_whole.
  - intros pk a. rewrite Hs. split.
    + intros [(? & ?%lookup_empty_Some & _)|Hin]; [done|].
      apply elem_of_parts in Hin as (_ & _ & tm & ? & ? & Hw). exists tm. rewrite Hw. split_and!; [done|done|].
      f_equal. set_solver.
    + intros (tm & Htm & <- & Hw). right.
      destruct (parts_of_wanted tms tm _ Htm Hw) as (keys & Hin & Hnd & Heq); [set_solver|].
      apply singleton_keys in Heq as ->; done.
  - intros a ks [?%not_elem_of_nil|(keys & Hin & -> & Hl)]%Hm; [done|].
    apply elem_of_parts in Hin as (Hnd & Hne & tm & ? & ? & Hw).
    rewrite length_sort_by. split_and!; [by rewrite sort_by_perm|destruct keys as [|? []]; simpl in *; [done|lia|lia]| |].
    + apply sort_by_sorted; unfold display_leb; intros; [by eapply string_leb_trans|apply string_leb_total].
    + exists tm. rewrite Hw. split_and!; [done|done|]. f_equal. apply set_eq. intros k.
      by rewrite !elem_of_list_to_set, elem_of_sort_by.
  - intros tm X Htm Hw HX. destruct (parts_of_wanted tms tm X Htm Hw) as (keys & Hin & Hnd & <-).
    { intros ->. rewrite size_empty in HX. lia. }
    exists (sort_by display_leb keys). split.
    + apply Hm. right. exists keys. split_and!; [done|done|].
      rewrite size_list_to_set in HX by done. lia.
    + apply set_eq. intros k. by rewrite !elem_of_list_to_set, elem_of_sort_by.
  - intros a. rewrite Hip, elem_of_dispatched.
    cbn [unpartitioned single_partition_groups multi_partition_backfills].
    setoid_rewrite Hs. setoid_rewrite Hm. rewrite list_elem_of_fmap.
    split; (intros [?|[?|Ha]]; [by left|by right; left|right; right]).
    + destruct Ha as ([a' keys] & -> & Hin). destruct (decide (length keys = 1)) as [Hl|Hl].
      * destruct keys as [|pk []]; try done. left. exists pk. by right.
      * right. exists (sort_by display_leb keys). right. by exists keys.
    + destruct Ha as [(pk & [(? & ?%lookup_empty_Some & _)|Hin])|(ks & [?%not_elem_of_nil|(keys & Hin & _)])];
        [done| |done|]; by eexists (_, _).
Qed.
End plan.
