(* ===== verification/Staleness.v ===== *)
(** Staleness (staleness.rs): whether each asset is up to date, and that the verdicts are those
    of the inductive definition. *)

From S2P Require Import Prelude PartitionKey Selection CondState CondCache.

(** * Staleness of assets (rust/rivers-core/src/staleness.rs)

    Whether each asset is up to date with its code and its upstreams, computed in
    dependency order. The order is Kahn's algorithm over in-degree counts; a count that
    would go below zero ([usize]) makes the computation return [None]. *)
(** storage/asset.rs *)
Inductive StaleStatus := UpToDate | Stale | StatusMissing.

#[export] Instance StaleStatus_eq_dec : EqDecision StaleStatus.
Proof. solve_decision. Defined.

Inductive StaleCauseCategory :=
| Code
| Data (dependency : string).

Record StaleCause := {
  sc_asset_key : string;
  category : StaleCauseCategory;
  reason : string
}.

Abbreviation Verdict := (StaleStatus * list StaleCause)%type.

(** ** Kahn's algorithm *)
Abbreviation Degrees := (gmap string nat).

Definition in_degrees (record_keys : list string) (edges : list (string * string)) : Degrees :=
  let zeros := foldl (λ m k, match m !! k with Some _ => m | None => <[k := 0]> m end) ∅ record_keys in
  foldl (λ m e, <[e.1 := S (default 0 (m !! e.1))]> m) zeros edges.

(** The loop over the dependents of a dequeued node: the counts and the sorted queue. *)
Fixpoint release (downs : list string) (deg : Degrees) (queue : list string)
    : option (Degrees * list string) :=
  match downs with
  | [] => Some (deg, queue)
  | d :: downs =>
      match deg !! d with
      | None => release downs deg queue
      | Some 0 => None
      | Some (S n) =>
          release downs (<[d := n]> deg)
            (if n =? 0 then sort_by String.leb (queue ++ [d]) else queue)
      end
  end.

(** [while let Some(node) = queue.pop()]: the last of the queue. *)
Fixpoint kahn (fuel : nat) (down : gmap string (list string)) (deg : Degrees) (queue order : list string)
    : option (list string) :=
  match last queue with
  | None => Some order
  | Some node =>
      match fuel with
      | O => None
      | S fuel =>
          match release (default [] (down !! node)) deg (removelast queue) with
          | Some (deg, queue) => kahn fuel down deg queue (order ++ [node])
          | None => None
          end
      end
  end.

Definition kahn_order (record_keys : list string) (edges : list (string * string))
    : option (list string) :=
  let deg := in_degrees record_keys edges in
  kahn (size deg) (build_adjacency edges).2 deg
    (sort_by String.leb ((filter (λ e : string * nat, e.2 = 0) (map_to_list deg)).*1)) [].

(** ** The verdict on one asset *)
Definition code_causes (r : AssetRecord) : list StaleCause :=
  if bool_decide (is_Some (code_version r)) &&
     negb (bool_decide (code_version r = last_materialization_code_version r))
  then [{| sc_asset_key := asset_key r; category := Code; reason := "code version changed" |}]
  else [].

(** [iter().map(..).collect::<HashMap<_, _>>()]: the last pair of a key counts. *)
Definition input_versions (r : AssetRecord) : gmap string string :=
  foldl (λ m e, <[e.1 := e.2]> m) ∅ (last_input_data_versions r).

Definition data_cause (r : AssetRecord) (dep text : string) : StaleCause :=
  {| sc_asset_key := asset_key r; category := Data dep; reason := text |}.

(** [upstream 'dep' <what>] *)
Definition upstream_text (dep what : string) : string :=
  ("upstream '" +:+ dep +:+ "' " +:+ what)%string.

Definition dep_causes (record_map : gmap string AssetRecord) (results : gmap string Verdict)
    (r : AssetRecord) (dep : string) : list StaleCause :=
  match results !! dep with
  | Some (Stale, _) | Some (StatusMissing, _) =>
      [data_cause r dep (upstream_text dep "is stale")]
  | _ =>
      match record_map !! dep with
      | None => []
      | Some dr =>
          match last_data_version dr, input_versions r !! dep with
          | Some current, Some consumed =>
              if String.eqb current consumed then []
              else [data_cause r dep (upstream_text dep "has new data version")]
          | Some _, None => [data_cause r dep (upstream_text dep "has data not yet consumed")]
          | None, _ => []
          end
      end
  end.

Definition status_of (causes : list StaleCause) : StaleStatus :=
  match causes with [] => UpToDate | _ => Stale end.

(** The verdict, given the verdicts on the upstreams. *)
Definition verdict (record_map : gmap string AssetRecord) (deps : list string)
    (results : gmap string Verdict) (r : AssetRecord) : Verdict :=
  match last_data_version r with
  | None => (StatusMissing, [])
  | Some _ =>
      let causes := code_causes r ++ (deps ≫= dep_causes record_map results r) in
      (status_of causes, causes)
  end.

Definition staleness_step (record_map : gmap string AssetRecord) (up : gmap string (list string))
    (results : gmap string Verdict) (key : string) : gmap string Verdict :=
  match record_map !! key with
  | None => results
  | Some r => <[key := verdict record_map (default [] (up !! key)) results r]> results
  end.

(** The last loop: the records the order did not reach, by their code alone. *)
Definition unreached_step (results : gmap string Verdict) (r : AssetRecord) : gmap string Verdict :=
  match results !! asset_key r with
  | Some _ => results
  | None => <[asset_key r := match last_data_version r with
                             | None => (StatusMissing, [])
                             | Some _ => (status_of (code_causes r), code_causes r)
                             end]> results
  end.

Definition record_map (records : list AssetRecord) : gmap string AssetRecord :=
  foldl (λ m r, <[asset_key r := r]> m) ∅ records.

Definition compute_staleness (records : list AssetRecord) (edges : list (string * string))
    : option (gmap string Verdict) :=
  match kahn_order (asset_key <$> records) edges with
  | None => None
  | Some order =>
      let results := foldl (staleness_step (record_map records) (build_adjacency edges).1) ∅ order in
      Some (foldl unreached_step results records)
  end.

(** * Staleness: the order, the verdicts and their specification

    Kahn's order reaches every recorded asset of an acyclic graph, upstreams first, and
    never counts below zero; the verdicts then are those of an inductive definition of
    what it is for an asset to be up to date. *)
(** ** Counting *)
Definition occ (x : string) (l : list string) : nat := length (filter (λ y, y = x) l).

Lemma occ_cons x y l : occ x (y :: l) = (if decide (y = x) then 1 else 0) + occ x l.
Proof. unfold occ. rewrite filter_cons. by destruct (decide (y = x)). Qed.

Lemma occ_0 x l : occ x l = 0 ↔ x ∉ l.
Proof.
  induction l as [|y l IH]; [set_solver|]. rewrite occ_cons. destruct (decide (y = x)) as [->|Hne]; [set_solver by lia|].
  rewrite not_elem_of_cons. naive_solver.
Qed.

Section graph.
Context (keys : list string) (edges : list (string * string)).

Definition deps_of (n : string) : list string := (filter (λ e : string * string, e.1 = n) edges).*2.
Definition dependents_of (n : string) : list string := (filter (λ e : string * string, e.2 = n) edges).*1.

Lemma push_entry_lookup {V} k (v : V) m n :
  default [] (push_entry k v m !! n) = default [] (m !! n) ++ (if decide (k = n) then [v] else []).
Proof.
  unfold push_entry. destruct (decide (k = n)) as [->|Hne].
  - by rewrite lookup_insert_eq.
  - by rewrite lookup_insert_ne, app_nil_r.
Qed.

Lemma adjacency_lookup n :
  default [] ((build_adjacency edges).1 !! n) = deps_of n ∧
  default [] ((build_adjacency edges).2 !! n) = dependents_of n.
Proof.
  unfold build_adjacency, deps_of, dependents_of.
  assert (Hgen : ∀ E up down,
    let r := foldl (λ '(up, down) '(from, to), (push_entry from to up, push_entry to from down)) (up, down) E in
    default [] (r.1 !! n) = default [] (up !! n) ++ (filter (λ e : string * string, e.1 = n) E).*2 ∧
    default [] (r.2 !! n) = default [] (down !! n) ++ (filter (λ e : string * string, e.2 = n) E).*1).
  { induction E as [|[a b] E IH]; intros up down; cbn [foldl]; [by rewrite !app_nil_r|].
    destruct (IH (push_entry a b up) (push_entry b a down)) as [-> ->].
    rewrite !push_entry_lookup, !filter_cons, <-!app_assoc. cbn [fst snd].
    by destruct (decide (a = n)), (decide (b = n)). }
  destruct (Hgen edges ∅ ∅) as [H1 H2]. by rewrite H1, H2, !lookup_empty.
Qed.

(** The nodes counted: the recorded ones and those with an upstream. *)
Definition is_node (n : string) : Prop := n ∈ keys ∨ n ∈ edges.*1.

#[local] Instance is_node_dec n : Decision (is_node n).
Proof. apply _. Defined.

(** The edges of [n] to upstreams not yet ordered. *)
Definition pending (order : list string) (n : string) : nat :=
  length (filter (λ e : string * string, e.1 = n ∧ e.2 ∉ order) edges).

Lemma zero_degrees_lookup l (m : Degrees) n :
  (∀ k v, m !! k = Some v → v = 0) →
  foldl (λ m k, match m !! k with Some _ => m | None => <[k := 0]> m end) m l !! n
  = if decide (n ∈ l) then Some 0 else m !! n.
Proof.
  revert m. induction l as [|k l IH]; intros m Hm; cbn [foldl]; [by rewrite decide_False by apply not_elem_of_nil|].
  destruct (m !! k) as [v|] eqn:Hk.
  - rewrite IH by done. destruct (decide (n ∈ l)), (decide (n ∈ k :: l)) as [Hin|]; try done; [set_solver|].
    apply elem_of_cons in Hin as [->|?]; [|done]. rewrite Hk. by rewrite (Hm _ _ Hk).
  - rewrite IH.
    2: { intros k' v. destruct (decide (k = k')) as [->|]; [rewrite lookup_insert_eq; congruence|].
         rewrite lookup_insert_ne by done. apply Hm. }
    destruct (decide (n = k)) as [->|Hne].
    + rewrite lookup_insert_eq, (decide_True _ _ (list_elem_of_here _ _)). by destruct (decide _).
    + rewrite lookup_insert_ne by done. destruct (decide (n ∈ l)), (decide (n ∈ k :: l)); try done; set_solver.
Qed.

Lemma count_degrees_lookup E (m : Degrees) n :
  foldl (λ m (e : string * string), <[e.1 := S (default 0 (m !! e.1))]> m) m E !! n
  = match occ n E.*1 with 0 => m !! n | S c => Some (S c + default 0 (m !! n)) end.
Proof.
  revert m. induction E as [|[a b] E IH]; intros m; cbn [foldl fmap list_fmap fst]; [done|].
  rewrite IH, occ_cons. destruct (decide (a = n)) as [->|Hne].
  - rewrite lookup_insert_eq. cbn [default]. destruct (occ n E.*1); cbn; f_equal; lia.
  - by rewrite lookup_insert_ne by done.
Qed.

Lemma pending_nil n : pending [] n = occ n edges.*1.
Proof.
  unfold pending, occ. induction edges as [|[a b] E IH]; [done|].
  cbn [fmap list_fmap]. rewrite !filter_cons. cbn [fst snd].
  destruct (decide (a = n)) as [->|Hne].
  - rewrite decide_True by (split; [done|apply not_elem_of_nil]). cbn. by rewrite IH.
  - by rewrite decide_False by tauto.
Qed.

Lemma in_degrees_lookup n :
  in_degrees keys edges !! n = if decide (is_node n) then Some (pending [] n) else None.
Proof.
  unfold in_degrees. rewrite count_degrees_lookup, zero_degrees_lookup by set_solver.
  rewrite pending_nil, lookup_empty. unfold is_node.
  pose proof (occ_0 n edges.*1) as H0.
  destruct (occ n edges.*1) as [|c], (decide (n ∈ keys)), (decide (n ∈ keys ∨ n ∈ edges.*1)); try tauto.
  - cbn. f_equal. lia.
  - cbn. f_equal. lia.
  - exfalso. destruct (decide (n ∈ edges.*1)); [tauto|]. naive_solver lia.
Qed.

Lemma pending_snoc order node n :
  node ∉ order → pending order n = occ n (dependents_of node) + pending (order ++ [node]) n.
Proof.
  intros Hn. unfold pending, occ, dependents_of. induction edges as [|[a b] E IH]; [done|].
  rewrite !filter_cons. cbn [fst snd].
  destruct (decide (b = node)) as [->|Hb]; cbn [fmap list_fmap fst]; [rewrite filter_cons|].
  - destruct (decide (a = n)) as [->|Ha].
    + rewrite decide_True by done. rewrite (decide_False (P := n = n ∧ _)) by set_solver. cbn. lia.
    + rewrite !decide_False by tauto. exact IH.
  - destruct (decide (a = n ∧ b ∉ order)) as [[-> Ho]|Ho].
    + rewrite decide_True by (split; [done|set_solver]). cbn. lia.
    + rewrite decide_False by set_solver. exact IH.
Qed.

Lemma pending_0 order n : pending order n = 0 ↔ ∀ u, u ∈ deps_of n → u ∈ order.
Proof.
  unfold pending, deps_of. rewrite length_zero_iff_nil. split.
  - intros Hnil u (e & -> & [He1 He2]%list_elem_of_filter)%list_elem_of_fmap.
    destruct (decide (e.2 ∈ order)); [done|exfalso]. apply (not_elem_of_nil e). rewrite <-Hnil.
    by apply list_elem_of_filter.
  - intros H. destruct (filter (λ e : string * string, e.1 = n ∧ e.2 ∉ order) edges) as [|e l] eqn:Hl; [done|exfalso].
    assert (He : e ∈ filter (λ e : string * string, e.1 = n ∧ e.2 ∉ order) edges) by (rewrite Hl; apply list_elem_of_here).
    apply list_elem_of_filter in He as [[He1 He2] He]. apply He2, H.
    apply list_elem_of_fmap. exists e. split; [done|]. by apply list_elem_of_filter.
Qed.

(** ** The loop over the dependents *)
Lemma release_spec downs (deg : Degrees) queue :
  (∀ d c, deg !! d = Some c → occ d downs ≤ c) →
  NoDup queue →
  (∀ n, n ∈ queue → deg !! n = Some 0) →
  ∃ deg' queue', release downs deg queue = Some (deg', queue') ∧
    (∀ n, deg' !! n = (λ c, c - occ n downs) <$> deg !! n) ∧
    NoDup queue' ∧
    (∀ n, n ∈ queue' ↔ n ∈ queue ∨ (n ∈ downs ∧ deg !! n = Some (occ n downs))).
Proof.
  revert deg queue. induction downs as [|d downs IH]; intros deg queue Hle Hnd Hq; cbn [release].
  - eexists _, _. split; [done|]. split; [|set_solver].
    intros n. destruct (deg !! n); cbn; [|done]. f_equal. unfold occ. cbn. lia.
  - assert (Hoc : ∀ n, n ≠ d → occ n (d :: downs) = occ n downs)
      by (intros n Hn; rewrite occ_cons; by rewrite decide_False by done).
    assert (Hod : occ d (d :: downs) = S (occ d downs)) by (by rewrite occ_cons, decide_True by done).
    destruct (deg !! d) as [[|c]|] eqn:Hd.
    + specialize (Hle _ _ Hd). lia.
    + destruct (IH (<[d := c]> deg) (if c =? 0 then sort_by String.leb (queue ++ [d]) else queue))
        as (deg' & queue' & -> & Hdeg & Hnd' & Hq').
      * intros n v. destruct (decide (n = d)) as [->|Hne].
        -- rewrite lookup_insert_eq. intros [= ->]. specialize (Hle _ _ Hd). lia.
        -- rewrite lookup_insert_ne by done. rewrite <-Hoc by done. apply Hle.
      * destruct (c =? 0); [|done]. rewrite sort_by_perm. apply NoDup_app. split; [done|]. split; [|apply NoDup_singleton].
        intros x Hx ->%list_elem_of_singleton. specialize (Hq _ Hx). congruence.
      * intros n Hn. destruct (decide (n = d)) as [->|Hne].
        -- rewrite lookup_insert_eq. destruct (Nat.eqb_spec c 0) as [->|]; [done|]. specialize (Hq _ Hn). congruence.
        -- rewrite lookup_insert_ne by done. apply Hq. destruct (c =? 0); [|done].
           rewrite elem_of_sort_by in Hn. set_solver.
      * exists deg', queue'. split; [done|]. split; [|split; [done|]].
        -- intros n. rewrite Hdeg. destruct (decide (n = d)) as [->|Hne].
           ++ rewrite lookup_insert_eq, Hd, Hod. cbn. f_equal.
           ++ by rewrite lookup_insert_ne, Hoc by done.
        -- intros n. rewrite Hq'. destruct (decide (n = d)) as [->|Hne].
           ++ rewrite lookup_insert_eq, Hd, Hod. pose proof (occ_0 d downs) as H0.
              assert (d ∉ queue) by (intros Hx; specialize (Hq _ Hx); congruence).
              destruct (Nat.eqb_spec c 0) as [->|Hc].
              ** rewrite elem_of_sort_by. specialize (Hle _ _ Hd).
                 assert (occ d downs = 0) as -> by lia. set_solver.
              ** split; [intros [?|[_ [= ->]]]; [done|right; split; [apply list_elem_of_here|done]]|].
                 intros [?|[_ [= ->]]]; [done|right]. split; [|done].
                 destruct (decide (d ∈ downs)); [done|tauto].
           ++ rewrite lookup_insert_ne, Hoc by done. destruct (c =? 0); [rewrite elem_of_sort_by|]; set_solver.
    + destruct (IH deg queue) as (deg' & queue' & -> & Hdeg & Hnd' & Hq'); [|done..|].
      * intros n v Hv. rewrite <-Hoc by congruence. by apply Hle.
      * exists deg', queue'. split; [done|]. split; [|split; [done|]].
        -- intros n. rewrite Hdeg. destruct (decide (n = d)) as [->|Hne]; [by rewrite Hd|by rewrite Hoc].
        -- intros n. rewrite Hq'. destruct (decide (n = d)) as [->|Hne]; [rewrite Hd; naive_solver|].
           rewrite Hoc by done. set_solver.
Qed.

(** ** The order *)
Record kahn_inv (deg : Degrees) (queue order : list string) : Prop := {
  ki_deg : ∀ n, deg !! n = if decide (is_node n) then Some (pending order n) else None;
  ki_queue_nodup : NoDup queue;
  ki_queue : ∀ n, n ∈ queue ↔ is_node n ∧ (n ∉ order) ∧ pending order n = 0;
  ki_nodup : NoDup order;
  ki_nodes : ∀ n, n ∈ order → is_node n;
  ki_deps : ∀ l1 x l2, order = l1 ++ x :: l2 → ∀ u, u ∈ deps_of x → u ∈ l1
}.

Lemma last_removelast {A} (l : list A) x : last l = Some x → l = removelast l ++ [x].
Proof.
  intros H. apply last_Some in H as [l' ->]. by rewrite removelast_last.
Qed.

Lemma dependents_of_elem node n : n ∈ dependents_of node ↔ node ∈ deps_of n.
Proof.
  unfold dependents_of, deps_of. rewrite !list_elem_of_fmap.
  split; intros ([a b] & ? & [? ?]%list_elem_of_filter); cbn in *; subst;
    (eexists (_, _); split; [|apply list_elem_of_filter; split; [|done]]; done).
Qed.

Lemma kahn_inv_step deg queue order node :
  kahn_inv deg queue order → last queue = Some node →
  ∃ deg' queue', release (default [] ((build_adjacency edges).2 !! node)) deg (removelast queue) = Some (deg', queue') ∧
    kahn_inv deg' queue' (order ++ [node]) ∧ (node ∉ order) ∧ is_node node.
Proof.
  intros [Hdeg Hqnd Hq Hnd Hnodes Hdeps] Hlast.
  pose proof (last_removelast _ _ Hlast) as Hsplit. set (q := removelast queue) in *.
  assert (Hnode : node ∈ queue) by (rewrite Hsplit; set_solver).
  apply Hq in Hnode as (Hisn & Hno & Hp0).
  rewrite Hsplit in Hqnd. apply NoDup_app in Hqnd as (Hqnd & Hqd & _).
  assert (Hpend : ∀ n, pending order n = occ n (dependents_of node) + pending (order ++ [node]) n)
    by (intros n; by apply pending_snoc).
  rewrite (proj2 (adjacency_lookup node)).
  destruct (release_spec (dependents_of node) deg q) as (deg' & queue' & Hr & Hdeg' & Hnd' & Hq'); [|done|..].
  { intros d c. rewrite Hdeg, Hpend. case_decide; [|done]. intros [= <-]. lia. }
  { intros n Hn. rewrite Hdeg. assert (n ∈ queue) as (? & ? & ->)%Hq by (rewrite Hsplit; set_solver).
    by rewrite decide_True. }
  exists deg', queue'. split; [done|]. split; [|done]. split; [|done|..].
  - intros n. rewrite Hdeg', Hdeg, Hpend. destruct (decide (is_node n)); cbn; [|done]. f_equal. lia.
  - intros n. rewrite Hq', Hdeg. pose proof (Hpend n) as Hpn. pose proof (occ_0 n (dependents_of node)) as H0.
    assert (Hqn : n ∈ q ↔ n ∈ queue ∧ n ≠ node).
    { rewrite Hsplit. rewrite elem_of_app, list_elem_of_singleton. specialize (Hqd n).
      rewrite list_elem_of_singleton in Hqd. tauto. }
    assert (Hself : node ∉ dependents_of node).
    { intros Hin. apply dependents_of_elem in Hin. by apply Hno, (proj1 (pending_0 order node)). }
    rewrite Hqn, Hq, elem_of_app, list_elem_of_singleton. destruct (decide (is_node n)) as [Hi|Hi].
    2: { split; [intros [?|[_ ?]]; [tauto|done]|tauto]. }
    split.
    + intros [((_ & ? & ?) & ?)|[Hin [= Heq]]]; [split_and!; [done|tauto|lia]|].
      split_and!; [done| |lia]. intros [Ho| ->]; [|done].
      apply dependents_of_elem in Hin. apply Hno.
      apply list_elem_of_split in Ho as (l1 & l2 & ->). rewrite elem_of_app. left. by eapply Hdeps.
    + intros (_ & Hno' & Hz). destruct (decide (n ∈ dependents_of node)); [right; split; [done|f_equal; lia]|].
      left. rewrite (proj2 H0) in Hpn by done. split_and!; [done|tauto|lia|tauto].
  - apply NoDup_app. split; [done|]. split; [set_solver|apply NoDup_singleton].
  - intros n. rewrite elem_of_app, list_elem_of_singleton. intros [?| ->]; auto.
  - intros l1 x l2 Heq u Hu. destruct l2 as [|y l2 _] using rev_ind.
    + apply app_inj_tail in Heq as [-> ->]. by apply (proj1 (pending_0 l1 x)).
    + rewrite app_comm_cons, app_assoc in Heq. apply app_inj_tail in Heq as [-> _]. by eapply Hdeps.
Qed.

Lemma node_list_bounded l :
  NoDup l → (∀ n, n ∈ l → is_node n) → length l ≤ size (in_degrees keys edges).
Proof.
  intros Hnd Hl. rewrite <-size_dom, <-(size_list_to_set (C := gset string) l) by done.
  apply subseteq_size. intros n Hn%elem_of_list_to_set. apply elem_of_dom.
  rewrite in_degrees_lookup, decide_True by auto. by eexists.
Qed.

Lemma kahn_spec fuel deg queue order :
  kahn_inv deg queue order →
  size (in_degrees keys edges) ≤ fuel + length order →
  ∃ order' deg', kahn fuel (build_adjacency edges).2 deg queue order = Some order' ∧ kahn_inv deg' [] order'.
Proof.
  revert deg queue order. induction fuel as [|fuel IH]; intros deg queue order Hi Hf; cbn [kahn];
    destruct (last queue) as [node|] eqn:Hl.
  2,4: apply last_None in Hl as ->; eauto.
  - exfalso. destruct (kahn_inv_step _ _ _ _ Hi Hl) as (? & ? & _ & Hi' & _).
    pose proof (node_list_bounded _ (ki_nodup _ _ _ Hi') (ki_nodes _ _ _ Hi')) as Hb.
    rewrite length_app in Hb. cbn in Hb. lia.
  - destruct (kahn_inv_step _ _ _ _ Hi Hl) as (deg' & queue' & -> & Hi' & _).
    apply IH; [done|]. rewrite length_app. cbn. lia.
Qed.

Lemma kahn_inv_init :
  kahn_inv (in_degrees keys edges)
    (sort_by String.leb ((filter (λ e : string * nat, e.2 = 0) (map_to_list (in_degrees keys edges))).*1)) [].
Proof.
  split; [apply in_degrees_lookup| | |constructor|set_solver|by intros [] ? ? ?].
  - rewrite sort_by_perm. apply (sublist_NoDup _ (map_to_list (in_degrees keys edges)).*1);
      [apply NoDup_fst_map_to_list|apply fmap_sublist, sublist_filter].
  - intros n. rewrite elem_of_sort_by, list_elem_of_fmap. pose proof (in_degrees_lookup n) as Hn. split.
    + intros ([k v] & -> & [Hv Hin%elem_of_map_to_list]%list_elem_of_filter). cbn in *. rewrite Hin in Hn.
      case_decide; [|done]. split_and!; [done|set_solver|congruence].
    + intros (Hi & _ & Hp). rewrite decide_True in Hn by done. exists (n, 0). split; [done|].
      apply list_elem_of_filter. split; [done|]. apply elem_of_map_to_list. congruence.
Qed.

(** Every node a deque could ever reach is ordered, upstreams first. *)
Lemma kahn_order_spec :
  ∃ order deg, kahn_order keys edges = Some order ∧ kahn_inv deg [] order.
Proof. apply kahn_spec; [apply kahn_inv_init|cbn; lia]. Qed.

Lemma kahn_inv_complete (rank : string → nat) deg order :
  kahn_inv deg [] order →
  (∀ n u, u ∈ deps_of n → is_node u ∧ rank u < rank n) →
  ∀ n, is_node n → n ∈ order.
Proof.
  intros Hi Hr n. remember (rank n) as k eqn:Hk. revert n Hk.
  induction (Nat.lt_wf_0 k) as [k _ IH]. intros n -> Hn.
  destruct (decide (n ∈ order)) as [|Ho]; [done|exfalso].
  assert (Hp : pending order n = 0).
  { apply pending_0. intros u Hu. destruct (Hr _ _ Hu) as [Hu1 Hu2]. by apply (IH (rank u) Hu2 u). }
  apply (not_elem_of_nil n). by apply (ki_queue _ _ _ Hi).
Qed.
End graph.

(** ** The verdicts *)
Section verdicts.
Context (records : list AssetRecord) (edges : list (string * string)).
#[local] Abbreviation rm := (record_map records).
#[local] Abbreviation keys := (asset_key <$> records).
#[local] Abbreviation up := (build_adjacency edges).1.

Lemma record_map_lookup k :
  (∀ r, rm !! k = Some r → asset_key r = k ∧ r ∈ records) ∧ (k ∈ keys → is_Some (rm !! k)).
Proof.
  unfold record_map.
  assert (Hgen : ∀ l (m : gmap string AssetRecord),
    (∀ r, foldl (λ m r, <[asset_key r := r]> m) m l !! k = Some r → (asset_key r = k ∧ r ∈ l) ∨ m !! k = Some r) ∧
    (k ∈ asset_key <$> l ∨ is_Some (m !! k) → is_Some (foldl (λ m r, <[asset_key r := r]> m) m l !! k))).
  { induction l as [|x l IH]; intros m; cbn [foldl fmap list_fmap]; [set_solver|].
    destruct (IH (<[asset_key x := x]> m)) as [IH1 IH2]. destruct (decide (asset_key x = k)) as [<-|Hne].
    - rewrite lookup_insert_eq in *. split; [|eauto]. intros r Hr%IH1. left.
      destruct Hr as [[? ?]|[= <-]]; (split; [done|set_solver]).
    - rewrite lookup_insert_ne in * by done. split; [intros r Hr%IH1|intros H; apply IH2]; set_solver. }
  destruct (Hgen records ∅) as [H1 H2]. split; [|set_solver].
  intros r Hr. apply H1 in Hr as [?|Hr]; [done|]. by rewrite lookup_empty in Hr.
Qed.

Lemma staleness_steps_other l m k : k ∉ l → foldl (staleness_step rm up) m l !! k = m !! k.
Proof.
  revert m. induction l as [|x l IH]; intros m Hk; cbn [foldl]; [done|].
  apply not_elem_of_cons in Hk as [Hne Hk]. rewrite IH by done. unfold staleness_step.
  destruct (rm !! x); [|done]. by rewrite lookup_insert_ne.
Qed.

Lemma verdict_ext deps (res1 res2 : gmap string Verdict) r :
  (∀ u, u ∈ deps → res1 !! u = res2 !! u) → verdict rm deps res1 r = verdict rm deps res2 r.
Proof.
  intros H. unfold verdict. destruct (last_data_version r); [|done].
  assert (Hb : deps ≫= dep_causes rm res1 r = deps ≫= dep_causes rm res2 r); [|by rewrite Hb].
  induction deps as [|u deps IH]; [done|]. cbn [mbind list_bind]. rewrite IH by set_solver.
  f_equal. unfold dep_causes. by rewrite H by set_solver.
Qed.

(** The verdicts of an order with the upstreams first satisfy their defining equation. *)
Lemma staleness_steps_fix order k :
  NoDup order →
  (∀ l1 x l2, order = l1 ++ x :: l2 → ∀ u, u ∈ deps_of edges x → u ∈ l1) →
  k ∈ order →
  let res := foldl (staleness_step rm up) ∅ order in
  res !! k = verdict rm (deps_of edges k) res <$> rm !! k.
Proof.
  intros Hnd Hdeps (l1 & l2 & Heq)%list_elem_of_split res.
  assert (Hpre : ∀ u, u ∈ l1 → res !! u = foldl (staleness_step rm up) ∅ l1 !! u).
  { intros u Hu. unfold res. rewrite Heq, foldl_app, staleness_steps_other; [done|].
    rewrite Heq in Hnd. apply NoDup_app in Hnd as (_ & Hd & _). by apply Hd. }
  assert (Hk : k ∉ l2).
  { rewrite Heq in Hnd. apply NoDup_app in Hnd as (_ & _ & Hd). by inversion Hd. }
  assert (Hk1 : k ∉ l1).
  { rewrite Heq in Hnd. apply NoDup_app in Hnd as (_ & Hd & _). intros ?%Hd. set_solver. }
  unfold res at 1. rewrite Heq, foldl_app. cbn [foldl]. rewrite staleness_steps_other by done.
  unfold staleness_step at 1. destruct (rm !! k) as [r|] eqn:Hr; cbn [fmap option_fmap option_map].
  - rewrite lookup_insert_eq, (proj1 (adjacency_lookup edges k)). f_equal. apply verdict_ext.
    intros u Hu. rewrite Hpre; [done|]. by eapply Hdeps.
  - by rewrite staleness_steps_other, lookup_empty.
Qed.

Lemma unreached_steps_id l res :
  (∀ r, r ∈ l → is_Some (res !! asset_key r)) → foldl unreached_step res l = res.
Proof.
  induction l as [|r l IH] in res |- *; intros H; cbn [foldl]; [done|].
  unfold unreached_step at 2. destruct (H r) as [v ->]; [set_solver|]. apply IH. set_solver.
Qed.

(** ** The specification *)
Definition code_current (r : AssetRecord) : Prop :=
  code_version r = None ∨ code_version r = last_materialization_code_version r.

(** [r] was made from the current data of [u]. *)
Definition consumed_current (r : AssetRecord) (u : string) : Prop :=
  ∃ ru v, rm !! u = Some ru ∧ last_data_version ru = Some v ∧ input_versions r !! u = Some v.

Inductive up_to_date : string → Prop :=
| up_to_date_intro k r :
    rm !! k = Some r → is_Some (last_data_version r) → code_current r →
    (∀ u, u ∈ deps_of edges k → up_to_date u) →
    (∀ u, u ∈ deps_of edges k → consumed_current r u) →
    up_to_date k.

Lemma code_causes_nil r : code_causes r = [] ↔ code_current r.
Proof.
  unfold code_causes, code_current. destruct (code_version r) as [c|] eqn:Hc; cbn; [|naive_solver].
  case_bool_decide as H; cbn; naive_solver.
Qed.

(** What a cause reports, of the asset [k] with the record [r]. *)
Definition cause_holds (k : string) (r : AssetRecord) (c : StaleCause) : Prop :=
  sc_asset_key c = k ∧
  match category c with
  | Code => ¬ code_current r
  | Data u => u ∈ deps_of edges k ∧ ¬ (up_to_date u ∧ consumed_current r u)
  end.

(** What the computed verdict on [k] says. *)
Definition verdict_ok (k : string) (r : AssetRecord) (v : Verdict) : Prop :=
  (v.1 = StatusMissing ↔ last_data_version r = None) ∧
  (v.1 = UpToDate ↔ up_to_date k) ∧
  (∀ c, c ∈ v.2 → cause_holds k r c).

Lemma dep_causes_spec (res : gmap string Verdict) k r u ru v :
  asset_key r = k → u ∈ deps_of edges k →
  rm !! u = Some ru → res !! u = Some v → verdict_ok u ru v →
  (dep_causes rm res r u = [] ↔ up_to_date u ∧ consumed_current r u) ∧
  (∀ c, c ∈ dep_causes rm res r u → cause_holds k r c).
Proof.
  intros Hk Hu Hru Hv (Hmiss & Hup & _).
  assert (Hcause : ∀ text, ¬ (up_to_date u ∧ consumed_current r u) → 
            ∀ c, c ∈ [data_cause r u text] → cause_holds k r c).
  { intros text Hn c ->%list_elem_of_singleton. by split. }
  assert (Hcc : consumed_current r u ↔ ∃ w, last_data_version ru = Some w ∧ input_versions r !! u = Some w).
  { unfold consumed_current. rewrite Hru. naive_solver. }
  unfold dep_causes. rewrite Hv, Hru. destruct v as [[] cs]; cbn [fst snd] in *.
  - assert (Hyes : up_to_date u) by tauto.
    destruct (last_data_version ru) as [w|]; [|discriminate (proj2 Hmiss eq_refl)].
    destruct (input_versions r !! u) as [w'|] eqn:Hin.
    + destruct (String.eqb_spec w w') as [->|Hne].
      * split; [|set_solver]. rewrite Hcc. split; [eauto|done].
      * assert (¬ (up_to_date u ∧ consumed_current r u)) by (rewrite Hcc; naive_solver). split; [done|by apply Hcause].
    + assert (¬ (up_to_date u ∧ consumed_current r u)) by (rewrite Hcc; naive_solver). split; [done|by apply Hcause].
  - assert (¬ (up_to_date u ∧ consumed_current r u)) by (intros [Hx%Hup _]; discriminate Hx). split; [done|by apply Hcause].
  - assert (¬ (up_to_date u ∧ consumed_current r u)) by (intros [Hx%Hup _]; discriminate Hx). split; [done|by apply Hcause].
Qed.

Lemma bind_nil_iff {A B} (f : A → list B) l : l ≫= f = [] ↔ ∀ x, x ∈ l → f x = [].
Proof.
  induction l as [|a l IH]; cbn [mbind list_bind]; [set_solver|].
  rewrite app_nil, IH. set_solver.
Qed.

Lemma verdict_correct (res : gmap string Verdict) k r :
  rm !! k = Some r →
  (∀ u, u ∈ deps_of edges k → ∃ ru v, rm !! u = Some ru ∧ res !! u = Some v ∧ verdict_ok u ru v) →
  verdict_ok k r (verdict rm (deps_of edges k) res r).
Proof.
  intros Hr Hdeps. pose proof (proj1 (proj1 (record_map_lookup k) r Hr)) as Hk.
  assert (Hup : up_to_date k ↔ is_Some (last_data_version r) ∧ code_current r ∧
            ∀ u, u ∈ deps_of edges k → up_to_date u ∧ consumed_current r u).
  { split; [|intros (? & ? & Hall); econstructor; naive_solver].
    inversion 1; simplify_eq. split_and!; [done..|naive_solver]. }
  assert (Hdep : ∀ u, u ∈ deps_of edges k →
    (dep_causes rm res r u = [] ↔ up_to_date u ∧ consumed_current r u) ∧
    (∀ c, c ∈ dep_causes rm res r u → cause_holds k r c)).
  { intros u Hu. destruct (Hdeps u Hu) as (ru & v & ? & ? & ?). by eapply dep_causes_spec. }
  unfold verdict. destruct (last_data_version r) as [w|] eqn:Hw.
  2: { split_and!; cbn [fst snd]; [by rewrite Hw| |set_solver]. rewrite Hup. split; [done|].
       intros [[? ?] _]. congruence. }
  set (causes := code_causes r ++ _).
  assert (Hnil : causes = [] ↔ up_to_date k).
  { unfold causes. rewrite Hup, app_nil, code_causes_nil, bind_nil_iff. split; [|naive_solver].
    intros [? Hall]. split_and!; [by eexists|done|]. intros u Hu. apply (Hdep u Hu); auto. }
  assert (Hst : status_of causes ≠ StatusMissing) by (by destruct causes).
  split_and!; cbn [fst snd].
  - rewrite Hw. naive_solver.
  - rewrite <-Hnil. by destruct causes.
  - intros c [Hc|Hc]%elem_of_app.
    + unfold code_causes in Hc. pose proof (code_causes_nil r) as Hcn. unfold code_causes in Hcn.
      destruct (_ && _); [|set_solver]. apply list_elem_of_singleton in Hc as ->. split; [done|naive_solver].
    + apply list_elem_of_bind in Hc as (u & Hc & Hu). by apply (Hdep u Hu).
Qed.
End verdicts.

(** Every edge joins two recorded assets, and an upstream has a smaller rank. *)
Definition recorded_dag (records : list AssetRecord) (edges : list (string * string)) (rank : string → nat) : Prop :=
  ∀ e, e ∈ edges → e.1 ∈ asset_key <$> records ∧ e.2 ∈ asset_key <$> records ∧ rank e.2 < rank e.1.

Lemma deps_of_edge edges n u : u ∈ deps_of edges n ↔ (n, u) ∈ edges.
Proof.
  unfold deps_of. rewrite list_elem_of_fmap. split.
  - intros ([a b] & -> & [Ha He]%list_elem_of_filter). cbn in *. by subst.
  - intros He. exists (n, u). split; [done|]. by apply list_elem_of_filter.
Qed.

(** A verdict on [k] that comes from some record of [k]. *)
Definition from_record (records : list AssetRecord) (res : gmap string Verdict) : Prop :=
  ∀ k v, res !! k = Some v →
    ∃ r, r ∈ records ∧ asset_key r = k ∧ (v.1 = StatusMissing ↔ last_data_version r = None).

Lemma from_record_insert records res k v r :
  from_record records res → r ∈ records → asset_key r = k →
  (v.1 = StatusMissing ↔ last_data_version r = None) → from_record records (<[k := v]> res).
Proof.
  intros H Hr Hk Hv k' v'. destruct (decide (k = k')) as [<-|Hne].
  - rewrite lookup_insert_eq. intros [= <-]. eauto.
  - rewrite lookup_insert_ne by done. apply H.
Qed.

Lemma status_of_not_missing causes : status_of causes ≠ StatusMissing.
Proof. by destruct causes. Qed.

Lemma verdict_missing rmap deps res r :
  (verdict rmap deps res r).1 = StatusMissing ↔ last_data_version r = None.
Proof.
  unfold verdict. destruct (last_data_version r); cbn; [|done].
  split; [intros []%status_of_not_missing|done].
Qed.

Lemma staleness_steps_from_record records edges order :
  from_record records (foldl (staleness_step (record_map records) (build_adjacency edges).1) ∅ order).
Proof.
  apply (foldl_keeps (from_record records)); [|intros k v Hv; by rewrite lookup_empty in Hv].
  intros res k H. unfold staleness_step. destruct (record_map records !! k) as [r|] eqn:Hr; [|done].
  apply record_map_lookup in Hr as [? ?].
  by eapply from_record_insert; [| | |apply verdict_missing].
Qed.

Lemma unreached_steps_from_record records l res :
  (∀ r, r ∈ l → r ∈ records) → from_record records res →
  from_record records (foldl unreached_step res l) ∧
  ∀ k, k ∈ asset_key <$> l ∨ is_Some (res !! k) → is_Some (foldl unreached_step res l !! k).
Proof.
  induction l as [|r l IH] in res |- *; intros Hl Hres; cbn [foldl fmap list_fmap]; [set_solver|].
  assert (Hstep : from_record records (unreached_step res r) ∧
                  ∀ k, k = asset_key r ∨ is_Some (res !! k) → is_Some (unreached_step res r !! k)).
  { unfold unreached_step. destruct (res !! asset_key r) as [v|] eqn:Hv.
    - split; [done|]. intros k [->|?]; [by rewrite Hv|done].
    - split.
      + eapply from_record_insert; [done|by apply Hl, list_elem_of_here|done|].
        destruct (last_data_version r); cbn; [|done]. split; [intros []%status_of_not_missing|done].
      + intros k [->|?]; [by rewrite lookup_insert_eq|]. rewrite lookup_insert_is_Some. 
        destruct (decide (asset_key r = k)); tauto. }
  destruct Hstep as [Hs1 Hs2]. destruct (IH (unreached_step res r)) as [H1 H2]; [set_solver|done|].
  split; [done|]. intros k Hk. apply H2. rewrite elem_of_cons in Hk. naive_solver.
Qed.

(** [compute_staleness] never takes a count below zero and always returns: for any records
    and edges, cyclic ones and unrecorded endpoints included, the assets with a verdict are
    exactly the recorded ones, and [Missing] is the verdict of a record never materialised. *)
Theorem staleness_total records edges :
  ∃ res, compute_staleness records edges = Some res ∧
    (∀ k, k ∈ asset_key <$> records → is_Some (res !! k)) ∧ from_record records res.
Proof.
  destruct (kahn_order_spec (asset_key <$> records) edges) as (order & deg & Ho & _).
  unfold compute_staleness. rewrite Ho.
  edestruct (unreached_steps_from_record records records) as [H1 H2];
    [done|apply staleness_steps_from_record|].
  eexists. split; [done|]. split; [|exact H1]. intros k Hk. apply H2. by left.
Qed.

(** C24: for a recorded acyclic graph, [compute_staleness] returns a verdict for each recorded
    asset and no other: [Missing] when it was never materialised, [UpToDate] exactly when
    it is up to date by the inductive definition (its code current, its upstreams up to
    date and their current data consumed), [Stale] otherwise, and each cause it lists holds. *)
Theorem staleness_correct records edges rank :
  recorded_dag records edges rank →
  ∃ res, compute_staleness records edges = Some res ∧
    dom res = list_to_set (asset_key <$> records) ∧
    ∀ k r, record_map records !! k = Some r →
      ∃ v, res !! k = Some v ∧ verdict_ok records edges k r v.
Proof.
  intros Hdag. destruct (kahn_order_spec (asset_key <$> records) edges) as (order & deg & Ho & Hi).
  assert (Hd : ∀ n u, u ∈ deps_of edges n → is_node (asset_key <$> records) edges u ∧ rank u < rank n).
  { intros n u Hu%deps_of_edge. destruct (Hdag _ Hu) as (? & ? & ?). split; [by left|done]. }
  assert (Hall : ∀ n, n ∈ asset_key <$> records → n ∈ order).
  { intros n Hn. eapply (kahn_inv_complete _ _ rank); [done|done|by left]. }
  unfold compute_staleness. rewrite Ho.
  set (res := foldl (staleness_step _ _) ∅ order).
  assert (Hfix : ∀ k, k ∈ asset_key <$> records →
    res !! k = verdict (record_map records) (deps_of edges k) res <$> record_map records !! k).
  { intros k Hk. apply staleness_steps_fix; [by eapply ki_nodup|by eapply ki_deps|by apply Hall]. }
  rewrite unreached_steps_id.
  2: { intros r Hr. assert (Hk : asset_key r ∈ asset_key <$> records) by (by apply list_elem_of_fmap_2).
       rewrite Hfix by done. apply fmap_is_Some. by apply record_map_lookup. }
  exists res. split; [done|]. split.
  - apply set_eq. intros k. rewrite elem_of_dom, elem_of_list_to_set. split.
    + intros [v Hv]. destruct (staleness_steps_from_record records edges order k v Hv) as (r & ? & <- & _).
      by apply list_elem_of_fmap_2.
    + intros Hk. rewrite Hfix by done. apply fmap_is_Some. by apply record_map_lookup.
  - intros k. remember (rank k) as n eqn:Hn. revert k Hn.
    induction (Nat.lt_wf_0 n) as [n _ IH]. intros k -> r Hr.
    assert (Hk : k ∈ asset_key <$> records).
    { destruct (proj1 (record_map_lookup records k) r Hr) as [<- Hin]. by apply list_elem_of_fmap_2. }
    rewrite Hfix, Hr by done. cbn. eexists. split; [done|]. apply verdict_correct; [done|].
    intros u Hu. destruct (Hd _ _ Hu) as [_ Hlt]. apply deps_of_edge in Hu.
    destruct (Hdag _ Hu) as (_ & Hu' & _). destruct (proj2 (record_map_lookup records u) Hu') as [ru Hru].
    destruct (IH _ Hlt u eq_refl ru Hru) as (v & Hv & ?). eauto.
Qed.

(** ** Examples *)
Definition st_record (key : string) (version : option string) (inputs : list (string * string)) : AssetRecord :=
  {| code_location_id := "cl"; asset_key := key; ar_tags := []; ar_kinds := []; asset_group := None;
     code_version := None; last_event_id := None; last_run_id := None; last_timestamp := None;
     last_data_version := version; last_materialization_code_version := None;
     last_input_data_versions := inputs; pool := [] |}.

Definition st_records : list AssetRecord :=
  [st_record "a" (Some "2") []; st_record "b" (Some "1") [("a", "1")]; st_record "c" (Some "1") [("b", "1")]].

Definition st_edges : list (string * string) := [("b", "a"); ("c", "b")].

Definition st_rank (k : string) : nat := if String.eqb k "a" then 0 else if String.eqb k "b" then 1 else 2.

(** A new version of [a] makes [b] stale, and [c] through [b]. *)
Example staleness_propagates :
  option_map (λ res, (λ k, fst <$> res !! k) <$> ["a"; "b"; "c"]) (compute_staleness st_records st_edges)
  = Some [Some UpToDate; Some Stale; Some Stale].
Proof. by vm_compute. Qed.

Lemma st_recorded_dag : recorded_dag st_records st_edges st_rank.
Proof.
  intros e He. unfold st_edges in He.
  apply elem_of_cons in He as [->|He]; [|apply list_elem_of_singleton in He as ->]; cbn [fst snd];
    (split_and!; [apply (bool_decide_unpack _); by vm_compute..|vm_compute; lia]).
Qed.

Lemma staleness_correct_witness :
  recorded_dag st_records st_edges st_rank ∧
  ∃ res, compute_staleness st_records st_edges = Some res ∧
    dom res = list_to_set (asset_key <$> st_records) ∧
    ∀ k r, record_map st_records !! k = Some r →
      ∃ v, res !! k = Some v ∧ verdict_ok st_records st_edges k r v.
Proof.
  split; [exact st_recorded_dag|]. apply (staleness_correct st_records st_edges st_rank). exact st_recorded_dag.
Defined.

(** The loop for "assets not reached by the topo sort (orphaned from edges)" also takes
    assets that have edges: an edge to an upstream without a record keeps the count of its
    dependent above zero, so the dependent is judged by its code alone, and a missing
    upstream that makes it stale without that edge no longer does. *)
Theorem unrecorded_upstream_hides_staleness :
  let records := [st_record "a" None []; st_record "b" (Some "1") []] in
  (compute_staleness records [("b", "a")] ≫= (.!! "b"))
    = Some (Stale, [data_cause (st_record "b" (Some "1") []) "a" (upstream_text "a" "is stale")]) ∧
  (compute_staleness records [("b", "x"); ("b", "a")] ≫= (.!! "b")) = Some (UpToDate, []).
Proof. by vm_compute. Qed.
