(* ===== verification/Pools.v ===== *)
(** * Concurrency pools (storage/pool.rs, surrealdb_backend/pools.rs and the pool statements)

    A step claims slots in one or more pools before it runs and holds them under a lease.
    The state is the three tables of the database, keyed by their unique indices; the
    effect of each SurrealQL statement is written out. [claim_ok] and [claim_write] are the
    two halves of the claim transaction: what it reads and what it writes. *)

From S2P Require Import Prelude.
From stdpp Require Import pretty.
From Stdlib Require Import SpecFloat.

(** ** Rows *)
Abbreviation PoolId := (string * string)%type.   (* code_location_id, pool_key *)
Abbreviation StepId := (string * string)%type.   (* run_id, step_key *)

Record PoolLimit := {
  pl_code_location_id : string;
  pl_pool_key : string;
  pl_slot_limit : Z;            (* i32 *)
  pl_lease_duration_secs : N    (* u32 *)
}.

(** A row of [concurrency_pools]. *)
Record PoolRow := {
  slot_limit : Z;
  lease_duration_secs : N;
  claim_version : N
}.

(** A row of [concurrency_slots]. *)
Record ConcurrencySlot := {
  slots_consumed : N;
  claimed_at : Z;
  lease_expires_at : Z;
  last_heartbeat : Z;
  partitions : option (gset string);
  exclusive : bool
}.

(** A row of [pending_steps]. *)
Record PendingStep := {
  pd_pool : PoolId;
  pd_priority : Z;
  enqueued_at : Z;
  pd_block_reason : string
}.

Record PoolStore := {
  concurrency_pools : gmap PoolId PoolRow;
  concurrency_slots : gmap (PoolId * StepId) ConcurrencySlot;
  pending_steps : gmap StepId PendingStep
}.

Definition with_slots (f : gmap (PoolId * StepId) ConcurrencySlot → gmap (PoolId * StepId) ConcurrencySlot) (s : PoolStore) : PoolStore :=
  {| concurrency_pools := concurrency_pools s; concurrency_slots := f (concurrency_slots s);
     pending_steps := pending_steps s |}.

Definition with_pools (f : gmap PoolId PoolRow → gmap PoolId PoolRow) (s : PoolStore) : PoolStore :=
  {| concurrency_pools := f (concurrency_pools s); concurrency_slots := concurrency_slots s;
     pending_steps := pending_steps s |}.

Definition with_pending (f : gmap StepId PendingStep → gmap StepId PendingStep) (s : PoolStore) : PoolStore :=
  {| concurrency_pools := concurrency_pools s; concurrency_slots := concurrency_slots s;
     pending_steps := f (pending_steps s) |}.

(** ** Scopes *)
Record AssetScope := {
  scope_partitions : option (list string);
  scope_exclusive : bool
}.

Definition ASSET_POOL_PREFIX : string := "__asset__:".

Definition is_asset_pool (pool_key : string) : bool := String.prefix ASSET_POOL_PREFIX pool_key.

Record ClaimBlockDetail := {
  bd_pool_key : string;
  bd_claimed : N;
  bd_limit : Z
}.

Inductive ClaimBlockReason :=
| ClaimPoolFull (pool_key : string) (claimed : N) (limit : Z)
| ClaimPoolsFull (pools : list ClaimBlockDetail).

Definition only_asset_pools (r : ClaimBlockReason) : bool :=
  match r with
  | ClaimPoolFull pool_key _ _ => is_asset_pool pool_key
  | ClaimPoolsFull pools => forallb (λ p, is_asset_pool (bd_pool_key p)) pools
  end.

Definition claim_reason_display (r : ClaimBlockReason) : string :=
  match r with
  | ClaimPoolFull pool_key claimed limit =>
      "pool '" +:+ pool_key +:+ "' full (" +:+ pretty claimed +:+ "/" +:+ pretty limit +:+ ")"
  | ClaimPoolsFull pools =>
      "pools full: " +:+ String.concat ", "
        ((λ p, "'" +:+ bd_pool_key p +:+ "' (" +:+ pretty (bd_claimed p) +:+ "/"
               +:+ pretty (bd_limit p) +:+ ")") <$> pools)
  end.

Inductive ConcurrencyClaimStatus :=
| Claimed
| Pending (position : N) (reason : ClaimBlockReason).

Inductive ClaimError :=
| NotConfigured (pool_key : string)
| OutOfRange                         (* a count the driver cannot return as [u32] *)
| PoolContended
| PoolsEmpty.

(** ** Reading the tables *)
Definition live (now : Z) (r : ConcurrencySlot) : bool := (now <? lease_expires_at r)%Z.

Definition other_step (me : option StepId) (k : PoolId * StepId) : bool :=
  match me with None => true | Some st => negb (bool_decide (k.2 = st)) end.

(** [math::sum(slots_consumed)] over the live slots of a pool, the claiming step's own left out. *)
Definition used_slots (p : PoolId) (now : Z) (me : option StepId) (s : PoolStore) : N :=
  map_fold (λ k r acc, if bool_decide (k.1 = p) && live now r && other_step me k
                       then slots_consumed r + acc else acc)%N 0%N (concurrency_slots s).

Definition pool_limit (p : PoolId) (r : PoolRow) : PoolLimit :=
  {| pl_code_location_id := p.1; pl_pool_key := p.2; pl_slot_limit := slot_limit r;
     pl_lease_duration_secs := lease_duration_secs r |}.

Definition u32_bound : N := (2 ^ 32)%N.

Definition query_pool_usage (p : PoolId) (now : Z) (me : option StepId) (s : PoolStore)
    : ClaimError + (PoolLimit * N) :=
  match concurrency_pools s !! p with
  | None => inl (NotConfigured p.2)
  | Some row =>
      let used := used_slots p now me s in
      if (used <? u32_bound)%N then inr (pool_limit p row, used) else inl OutOfRange
  end.

(** The [WHERE] of [asset_conflict_predicate] on one row. *)
Definition asset_conflict_predicate (scope : option AssetScope) (r : ConcurrencySlot) : bool :=
  let mine_exclusive := match scope with Some s => scope_exclusive s | None => true end in
  let mine := match scope with Some s => scope_partitions s | None => None end in
  (mine_exclusive || exclusive r) &&
  match mine with
  | None => true
  | Some parts =>
      match partitions r with
      | None => true
      | Some ps => existsb (λ x, bool_decide (x ∈ ps)) parts
      end
  end.

Definition asset_conflict (p : PoolId) (me : StepId) (now : Z) (scope : option AssetScope) (s : PoolStore) : bool :=
  existsb (λ kr : (PoolId * StepId) * ConcurrencySlot,
    bool_decide (kr.1.1 = p) && live now kr.2 && other_step (Some me) kr.1 && asset_conflict_predicate scope kr.2)
    (map_to_list (concurrency_slots s)).

(** ** The claim transaction *)
Record Claim := {
  cl_location : string;
  cl_step : StepId;
  cl_pools : list (string * N);
  cl_asset_pools : list nat;
  cl_scope : option AssetScope;
  cl_now : Z;
  cl_lease_exp : Z
}.

Definition pool_admits (c : Claim) (s : PoolStore) (i : nat) (e : string * N) : bool :=
  let p := (cl_location c, e.1) in
  if bool_decide (i ∈ cl_asset_pools c)
  then negb (asset_conflict p (cl_step c) (cl_now c) (cl_scope c) s)
  else let lim := match concurrency_pools s !! p with Some row => slot_limit row | None => 0%Z end in
       (Z.of_N (used_slots p (cl_now c) (Some (cl_step c)) s + e.2) <=? lim)%Z.

(** The conditions of the [IF]. *)
Definition claim_ok (c : Claim) (s : PoolStore) : bool :=
  forallb id (imap (pool_admits c s) (cl_pools c)).

Definition bump_version (r : PoolRow) : PoolRow :=
  {| slot_limit := slot_limit r; lease_duration_secs := lease_duration_secs r;
     claim_version := claim_version r + 1 |}.

(** The fields an [UPSERT] sets, the others kept ([old]) or at their defaults. *)
Definition slot_row (c : Claim) (i : nat) (slots : N) (old : option ConcurrencySlot) : ConcurrencySlot :=
  let asset := bool_decide (i ∈ cl_asset_pools c) in
  {| slots_consumed := slots; claimed_at := cl_now c; lease_expires_at := cl_lease_exp c;
     last_heartbeat := cl_now c;
     partitions := if asset then match cl_scope c with
                                 | Some sc => list_to_set <$> scope_partitions sc
                                 | None => None
                                 end
                   else old ≫= partitions;
     exclusive := if asset then match cl_scope c with Some sc => scope_exclusive sc | None => true end
                  else match old with Some r => exclusive r | None => false end |}.

Definition upsert_slot (c : Claim) (m : gmap (PoolId * StepId) ConcurrencySlot) (ie : nat * (string * N))
    : gmap (PoolId * StepId) ConcurrencySlot :=
  let k := ((cl_location c, ie.2.1), cl_step c) in
  <[k := slot_row c ie.1 ie.2.2 (m !! k)]> m.

Definition claim_write (c : Claim) (s : PoolStore) : PoolStore :=
  {| concurrency_pools :=
       foldl (λ m (e : string * N), alter bump_version (cl_location c, e.1) m) (concurrency_pools s) (cl_pools c);
     concurrency_slots := foldl (upsert_slot c) (concurrency_slots s) (imap pair (cl_pools c));
     pending_steps := delete (cl_step c) (pending_steps s) |}.

Definition claim_transaction (c : Claim) (s : PoolStore) : PoolStore :=
  if claim_ok c s then claim_write c s else s.

(** The [SELECT] behind the [COMMIT]. *)
Definition claim_check (c : Claim) (s : PoolStore) : nat :=
  length (filter (λ kr : (PoolId * StepId) * ConcurrencySlot, kr.1.2 = cl_step c ∧ claimed_at kr.2 = cl_now c)
    (map_to_list (concurrency_slots s))).

(** The statements of the query, in order, and where the driver finds the last one's result. *)
Inductive ClaimStmt :=
| BeginTransaction
| LetLimit (i : nat)
| LetUsed (i : nat)
| LetConflict (i : nat)
| IfAdmitted
| CommitTransaction
| SelectClaimed.

Definition build_claim_transaction (num_pools : nat) (assets : list nat) : list ClaimStmt :=
  [BeginTransaction]
  ++ (filter (λ i, i ∉ assets) (seq 0 num_pools) ≫= λ i, [LetLimit i; LetUsed i])
  ++ (LetConflict <$> assets)
  ++ [IfAdmitted; CommitTransaction; SelectClaimed].

Definition claim_check_statement_index (num_pools num_asset_pools : nat) : nat :=
  2 * (num_pools - num_asset_pools) + num_asset_pools + 3.

(** ** One attempt *)
Definition asset_pool_precheck (p : PoolId) (me : StepId) (now : Z) (scope : option AssetScope) (s : PoolStore)
    : ClaimError + bool :=
  match concurrency_pools s !! p with
  | None => inl (NotConfigured p.2)
  | Some _ => inr (asset_conflict p me now scope s)
  end.

Record Precheck := {
  blocked : list ClaimBlockDetail;
  limited_pools : list (string * N);
  asset_pools : list nat
}.

Definition u32_wrap (n : N) : N := (n mod u32_bound)%N.

(** [slot_limit as u32], [-1] and below excluded before. *)
Definition i32_as_u32 (z : Z) : N := Z.to_N (z mod 2 ^ 32).

Definition precheck_pool (cl : string) (me : StepId) (now : Z) (scope : option AssetScope) (s : PoolStore)
    (acc : Precheck) (e : string * N) : ClaimError + Precheck :=
  let p := (cl, e.1) in
  if is_asset_pool e.1 then
    match asset_pool_precheck p me now scope s with
    | inl err => inl err
    | inr conflict =>
        inr {| blocked := blocked acc ++
                 (if conflict then [{| bd_pool_key := e.1; bd_claimed := 1; bd_limit := 1 |}] else []);
               limited_pools := limited_pools acc ++ [e];
               asset_pools := asset_pools acc ++ [length (limited_pools acc)] |}
    end
  else
    match query_pool_usage p now (Some me) s with
    | inl err => inl err
    | inr (pl, used) =>
        if (pl_slot_limit pl <? 0)%Z then inr acc
        else inr {| blocked := blocked acc ++
                      (if (i32_as_u32 (pl_slot_limit pl) <? u32_wrap (used + e.2))%N
                       then [{| bd_pool_key := e.1; bd_claimed := used; bd_limit := pl_slot_limit pl |}] else []);
                    limited_pools := limited_pools acc ++ [e];
                    asset_pools := asset_pools acc |}
    end.

Fixpoint precheck (cl : string) (me : StepId) (now : Z) (scope : option AssetScope) (s : PoolStore)
    (acc : Precheck) (pools : list (string * N)) : ClaimError + Precheck :=
  match pools with
  | [] => inr acc
  | e :: pools =>
      match precheck_pool cl me now scope s acc e with
      | inl err => inl err
      | inr acc => precheck cl me now scope s acc pools
      end
  end.

Definition no_precheck : Precheck := {| blocked := []; limited_pools := []; asset_pools := [] |}.

Definition claim_reason (b : ClaimBlockDetail) (rest : list ClaimBlockDetail) : ClaimBlockReason :=
  match rest with
  | [] => ClaimPoolFull (bd_pool_key b) (bd_claimed b) (bd_limit b)
  | _ => ClaimPoolsFull (b :: rest)
  end.

(** The step joins [pending_steps] under the first pool that blocks it. *)
Definition enqueue_pending (cl : string) (me : StepId) (priority now : Z) (b : ClaimBlockDetail) (r : ClaimBlockReason)
    : PoolStore → PoolStore :=
  with_pending (<[me := {| pd_pool := (cl, bd_pool_key b); pd_priority := priority; enqueued_at := now;
                           pd_block_reason := claim_reason_display r |}]>).

Definition pending_count (p : PoolId) (s : PoolStore) : N :=
  N.of_nat (length (filter (λ kr : StepId * PendingStep, pd_pool kr.2 = p) (map_to_list (pending_steps s)))).

Definition lease_exp (now : Z) (secs : N) : Z := i64_wrap (now + Z.of_N secs * 1000000000).

Definition make_claim (cl : string) (me : StepId) (scope : option AssetScope) (now : Z) (secs : N) (pre : Precheck) : Claim :=
  {| cl_location := cl; cl_step := me; cl_pools := limited_pools pre; cl_asset_pools := asset_pools pre;
     cl_scope := scope; cl_now := now; cl_lease_exp := lease_exp now secs |}.

(** The pre-check and the writes are separate queries: [mid] is what others commit in between. *)
Definition try_claim_concurrency_slots_once (cl : string) (pools : list (string * N)) (me : StepId) (priority : Z)
    (secs : N) (scope : option AssetScope) (now : Z) (mid : PoolStore → PoolStore) (s : PoolStore)
    : (ClaimError + ConcurrencyClaimStatus) * PoolStore :=
  match precheck cl me now scope s no_precheck pools with
  | inl err => (inl err, s)
  | inr pre =>
      match limited_pools pre, blocked pre with
      | [], _ => (inr Claimed, s)
      | _, b :: rest =>
          let reason := claim_reason b rest in
          let s := enqueue_pending cl me priority now b reason (mid s) in
          (inr (Pending (pending_count (cl, bd_pool_key b) s) reason), s)
      | _, [] =>
          let c := make_claim cl me scope now secs pre in
          let s := claim_transaction c (mid s) in
          (if 0 <? claim_check c s then inr Claimed else inl PoolContended, s)
      end
  end.

(** ** The other statements *)
Definition set_pool_limit (p : PoolId) (limit : Z) (secs : N) : PoolStore → PoolStore :=
  with_pools (λ m, <[p := {| slot_limit := limit; lease_duration_secs := secs;
                             claim_version := match m !! p with Some r => claim_version r | None => 0 end |}]> m).

Definition free_concurrency_slots (me : StepId) (s : PoolStore) : PoolStore :=
  with_pending (delete me)
    (with_slots (filter (λ kr : (PoolId * StepId) * ConcurrencySlot, kr.1.2 ≠ me)) s).

Definition free_concurrency_slots_for_run (run_id : string) (s : PoolStore) : PoolStore :=
  with_pending (filter (λ kr : StepId * PendingStep, kr.1.1 ≠ run_id))
    (with_slots (filter (λ kr : (PoolId * StepId) * ConcurrencySlot, kr.1.2.1 ≠ run_id)) s).

Definition renew_row (now exp : Z) (r : ConcurrencySlot) : ConcurrencySlot :=
  {| slots_consumed := slots_consumed r; claimed_at := claimed_at r; lease_expires_at := exp;
     last_heartbeat := now; partitions := partitions r; exclusive := exclusive r |}.

Definition renew_slot_lease (me : StepId) (secs : N) (now : Z) (s : PoolStore) : N * PoolStore :=
  let s := with_slots (map_imap (λ k r, Some (if bool_decide (k.2 = me) then renew_row now (lease_exp now secs) r else r))) s in
  (N.of_nat (length (filter (λ kr : (PoolId * StepId) * ConcurrencySlot, kr.1.2 = me) (map_to_list (concurrency_slots s)))), s).

Definition free_expired_leases (now : Z) (s : PoolStore) : N * PoolStore :=
  (N.of_nat (length (filter (λ kr : (PoolId * StepId) * ConcurrencySlot, live now kr.2 = false) (map_to_list (concurrency_slots s)))),
   with_slots (filter (λ kr : (PoolId * StepId) * ConcurrencySlot, live now kr.2 = true)) s).

(** ** Retrying (storage/retry.rs)

    The waits between attempts are left out; [elapsed] is what the clock shows after an
    attempt, in nanoseconds. *)
Record StorageRetryConfig := {
  max_retries : N;               (* u32 *)
  initial_backoff : Z;
  max_backoff : Z;
  backoff_multiplier : spec_float;
  max_elapsed : option Z
}.

Definition CONTENDED_INITIAL_BACKOFF : Z := 250000.

Definition CONTENDED_MAX_ELAPSED : Z := 5000000000.

Definition CONTENDED_MAX_BACKOFF : Z := 20000000.

(** The milliseconds of both. *)
Definition CONTENDED_MAX_RETRIES : N :=
  (2 * Z.to_N (CONTENDED_MAX_ELAPSED / 1000000) / Z.to_N (CONTENDED_MAX_BACKOFF / 1000000) + 16)%N.

Definition contended (cfg : StorageRetryConfig) : StorageRetryConfig :=
  {| max_retries := N.max (max_retries cfg) CONTENDED_MAX_RETRIES;
     initial_backoff := CONTENDED_INITIAL_BACKOFF;
     max_backoff := Z.min CONTENDED_MAX_BACKOFF (max_backoff cfg);
     backoff_multiplier := backoff_multiplier cfg;
     max_elapsed := Some CONTENDED_MAX_ELAPSED |}.

Section retry.
Context {S E T : Type} (cfg : StorageRetryConfig) (should_retry : E → bool) (elapsed : N → Z).
Context (f : N → S → (E + T) * S).

Fixpoint retry_loop (fuel : nat) (attempts : N) (s : S) : option ((E + T) * S) :=
  match f attempts s with
  | (inr v, s) => Some (inr v, s)
  | (inl e, s) =>
      if negb (should_retry e) then Some (inl e, s)
      else
        let out_of_time := match max_elapsed cfg with
                           | Some cap => (cap <=? elapsed attempts)%Z
                           | None => false
                           end in
        if (max_retries cfg <? attempts + 1)%N || out_of_time then Some (inl e, s)
        else match fuel with
             | 0 => None
             | Datatypes.S fuel => retry_loop fuel (attempts + 1) s
             end
  end.

Definition with_retry_if (s : S) : option ((E + T) * S) :=
  retry_loop (N.to_nat (max_retries cfg)) 0 s.
End retry.

Definition claim_retryable (e : ClaimError) : bool :=
  match e with PoolContended => true | _ => false end.

(** What happens around attempt [i]: its clock, what others commit before it and within it. *)
Record Attempt := {
  at_now : Z;
  at_before : PoolStore → PoolStore;
  at_mid : PoolStore → PoolStore
}.

Definition claim_concurrency_slots (cfg : StorageRetryConfig) (elapsed : N → Z) (sched : N → Attempt) (cl : string)
    (pools : list (string * N)) (me : StepId) (priority : Z) (secs : N) (scope : option AssetScope) (s : PoolStore)
    : option ((ClaimError + ConcurrencyClaimStatus) * PoolStore) :=
  match pools with
  | [] => Some (inl PoolsEmpty, s)
  | _ =>
      with_retry_if (contended cfg) claim_retryable elapsed
        (λ i s, try_claim_concurrency_slots_once cl pools me priority secs scope (at_now (sched i))
                  (at_mid (sched i)) (at_before (sched i) s)) s
  end.

(** ** Pool information *)
Record PoolInfo := {
  pi_pool_key : string;
  pi_slot_limit : Z;
  pi_lease_duration_secs : N;
  pi_claimed_count : N;
  pi_pending_count : N
}.

Definition pool_info (pl : PoolLimit) (claimed pending : N) : PoolInfo :=
  {| pi_pool_key := pl_pool_key pl; pi_slot_limit := pl_slot_limit pl;
     pi_lease_duration_secs := pl_lease_duration_secs pl; pi_claimed_count := claimed; pi_pending_count := pending |}.

Definition get_pool_limits (cl : string) (s : PoolStore) : list PoolLimit :=
  sort_by (λ a b, String.leb (pl_pool_key a) (pl_pool_key b))
    ((λ pr : PoolId * PoolRow, pool_limit pr.1 pr.2)
       <$> filter (λ pr : PoolId * PoolRow, pr.1.1 = cl) (map_to_list (concurrency_pools s))).

Definition get_pool_info (p : PoolId) (now : Z) (s : PoolStore) : ClaimError + PoolInfo :=
  match query_pool_usage p now None s with
  | inl err => inl err
  | inr (pl, used) => inr (pool_info pl used (pending_count p s))
  end.

Record SlotHolder := {
  sh_step : StepId;
  sh_slots_consumed : N;
  sh_claimed_at : Z;
  sh_lease_expires_at : Z
}.

Definition get_pool_slot_holders (p : PoolId) (now : Z) (s : PoolStore) : list SlotHolder :=
  sort_by (λ a b, (sh_claimed_at a <=? sh_claimed_at b)%Z)
    ((λ kr : (PoolId * StepId) * ConcurrencySlot,
        {| sh_step := kr.1.2; sh_slots_consumed := slots_consumed kr.2; sh_claimed_at := claimed_at kr.2;
           sh_lease_expires_at := lease_expires_at kr.2 |})
       <$> filter (λ kr : (PoolId * StepId) * ConcurrencySlot, kr.1.1 = p ∧ live now kr.2 = true) (map_to_list (concurrency_slots s))).

(** [GROUP BY pool_key] with a sum per group. *)
Definition add_group (k : string) (n : N) (m : gmap string N) : gmap string N :=
  <[k := (n + default 0 (m !! k))%N]> m.

Definition claimed_rows (cl : string) (now : Z) (s : PoolStore) : gmap string N :=
  foldr (λ (kr : (PoolId * StepId) * ConcurrencySlot) m,
           if bool_decide (kr.1.1.1 = cl) && live now kr.2 then add_group kr.1.1.2 (slots_consumed kr.2) m else m)
    ∅ (map_to_list (concurrency_slots s)).

Definition pending_rows (cl : string) (s : PoolStore) : gmap string N :=
  foldr (λ (kr : StepId * PendingStep) m,
           if bool_decide ((pd_pool kr.2).1 = cl) then add_group (pd_pool kr.2).2 1 m else m)
    ∅ (map_to_list (pending_steps s)).

Definition get_all_pool_infos (cl : string) (now : Z) (s : PoolStore) : ClaimError + list PoolInfo :=
  let claimed_map := claimed_rows cl now s in
  let pending_map := pending_rows cl s in
  if forallb (λ kn : string * N, (kn.2 <? u32_bound)%N) (map_to_list claimed_map)
  then inr ((λ pl, pool_info pl (default 0%N (claimed_map !! pl_pool_key pl))
                                (default 0%N (pending_map !! pl_pool_key pl))) <$> get_pool_limits cl s)
  else inl OutOfRange.
