(* ===== verification/PoolClaims.v ===== *)
(** * Concurrent claims on the pools

    Claims run as transactions under snapshot isolation: each reads the tables as of its
    start and commits only if no row it writes changed since. What two claims read of each
    other are slot rows neither of them writes; what keeps them apart is the
    [claim_version] both write. The system interleaves claims with every other statement on
    the tables and with the clock. A renewal does not look at the expiry, so a lease that has
    run out can come back to life; the system remembers which slots did. *)

From S2P Require Import Prelude Pools.

(** ** Sums over a table *)
Section msum.
Context `{Countable K} {V : Type}.

Definition msum (w : K → V → N) (m : gmap K V) : N := map_fold (λ k v acc, (w k v + acc)%N) 0%N m.

Lemma msum_insert w m k v : m !! k = None → msum w (<[k := v]> m) = (w k v + msum w m)%N.
Proof. intros Hk. unfold msum. rewrite map_fold_insert_L; [done|intros; lia|done]. Qed.

Lemma msum_delete w m k v : m !! k = Some v → msum w m = (w k v + msum w (delete k m))%N.
Proof.
  intros Hk. rewrite <-(insert_delete_id m k v) at 1 by done. apply msum_insert, lookup_delete_eq.
Qed.

Lemma msum_le w1 w2 m1 m2 :
  (∀ k v, m1 !! k = Some v → (w1 k v ≤ match m2 !! k with Some v' => w2 k v' | None => 0 end)%N) →
  (msum w1 m1 ≤ msum w2 m2)%N.
Proof.
  revert m2. induction m1 as [|k v m1 Hk IH] using map_ind; intros m2 Hle.
  - unfold msum at 1. rewrite map_fold_empty. lia.
  - rewrite msum_insert by done.
    assert (Hrest : ∀ k' v', m1 !! k' = Some v' →
              (w1 k' v' ≤ match m2 !! k' with Some v'' => w2 k' v'' | None => 0 end)%N ∧ k' ≠ k).
    { intros k' v' Hk'. assert (k' ≠ k) by congruence. split; [|done]. apply Hle. by rewrite lookup_insert_ne. }
    specialize (Hle k v). rewrite lookup_insert_eq in Hle. specialize (Hle eq_refl).
    destruct (m2 !! k) as [v2|] eqn:Hk2.
    + rewrite (msum_delete w2 m2 k v2) by done. enough (msum w1 m1 ≤ msum w2 (delete k m2))%N by lia.
      apply IH. intros k' v' Hk'. destruct (Hrest _ _ Hk') as [? ?]. by rewrite lookup_delete_ne.
    + enough (msum w1 m1 ≤ msum w2 m2)%N by lia. apply IH. intros k' v' Hk'. by apply Hrest.
Qed.
End msum.

Definition slot_weight (p : PoolId) (now : Z) (me : option StepId) (k : PoolId * StepId) (r : ConcurrencySlot) : N :=
  if bool_decide (k.1 = p) && live now r && other_step me k then slots_consumed r else 0%N.

Lemma used_slots_msum p now me s : used_slots p now me s = msum (slot_weight p now me) (concurrency_slots s).
Proof.
  unfold used_slots, msum, slot_weight. rewrite !map_fold_foldr. apply foldr_ext; [|done..].
  intros [k r] acc. cbn. by destruct (_ && _).
Qed.

(** ** The system *)
Definition claim_wf (c : Claim) : Prop :=
  ∀ i e, cl_pools c !! i = Some e → (i ∈ cl_asset_pools c ↔ is_asset_pool e.1 = true).

(** The rows the claim writes that other claims write too are those of its snapshot. *)
Definition fence (c : Claim) (snap s : PoolStore) : Prop :=
  ∀ e, e ∈ cl_pools c → concurrency_pools s !! (cl_location c, e.1) = concurrency_pools snap !! (cl_location c, e.1).

(** The slots renewed after their lease had expired, and not claimed since, are [revived]:
    what happened, which no statement reads. *)
Record PoolSys := {
  clock : Z;
  db : PoolStore;
  inflight : list (Claim * PoolStore);
  revived : gset (PoolId * StepId)
}.

Definition expired_slots (me : StepId) (now : Z) (s : PoolStore) : gset (PoolId * StepId) :=
  dom (filter (λ kr : (PoolId * StepId) * ConcurrencySlot, kr.1.2 = me ∧ live now kr.2 = false) (concurrency_slots s)).

Definition claim_key (c : Claim) (key : string) : PoolId * StepId := ((cl_location c, key), cl_step c).

Definition claim_keys (c : Claim) : gset (PoolId * StepId) := list_to_set ((λ e : string * N, claim_key c e.1) <$> cl_pools c).

Inductive pool_step (s : PoolSys) : PoolSys → Prop :=
| step_clock t :
    (clock s ≤ t)%Z →
    pool_step s {| clock := t; db := db s; inflight := inflight s; revived := revived s |}
| step_begin c :
    claim_wf c → (cl_now c ≤ clock s)%Z →
    (∀ e, e ∈ cl_pools c → is_Some (concurrency_pools (db s) !! (cl_location c, e.1))) →
    pool_step s {| clock := clock s; db := db s; inflight := inflight s ++ [(c, db s)]; revived := revived s |}
| step_commit c snap l1 l2 :
    inflight s = l1 ++ (c, snap) :: l2 → fence c snap (db s) → claim_ok c snap = true →
    pool_step s {| clock := clock s; db := claim_write c (db s); inflight := l1 ++ l2; revived := revived s ∖ claim_keys c |}
| step_abandon x l1 l2 :
    inflight s = l1 ++ x :: l2 →
    pool_step s {| clock := clock s; db := db s; inflight := l1 ++ l2; revived := revived s |}
| step_set_limit p limit secs :
    pool_step s {| clock := clock s; db := set_pool_limit p limit secs (db s); inflight := inflight s; revived := revived s |}
| step_free me :
    pool_step s {| clock := clock s; db := free_concurrency_slots me (db s); inflight := inflight s; revived := revived s |}
| step_free_run run_id :
    pool_step s {| clock := clock s; db := free_concurrency_slots_for_run run_id (db s); inflight := inflight s; revived := revived s |}
| step_free_expired now :
    (now ≤ clock s)%Z →
    pool_step s {| clock := clock s; db := (free_expired_leases now (db s)).2; inflight := inflight s; revived := revived s |}
| step_enqueue cl me priority now b r :
    pool_step s {| clock := clock s; db := enqueue_pending cl me priority now b r (db s); inflight := inflight s; revived := revived s |}
| step_renew me secs now :
    pool_step s {| clock := clock s; db := (renew_slot_lease me secs now (db s)).2; inflight := inflight s;
                   revived := revived s ∪ expired_slots me (clock s) (db s) |}.

Definition pool_init (s : PoolSys) : Prop := concurrency_slots (db s) = ∅ ∧ inflight s = [] ∧ revived s = ∅.

Definition pool_reachable (s : PoolSys) : Prop := ∃ s0, pool_init s0 ∧ rtc pool_step s0 s.

(** The tables without the slots in [R]. *)
Definition leave_out (R : gset (PoolId * StepId)) (s : PoolStore) : PoolStore :=
  with_slots (filter (λ kr : (PoolId * StepId) * ConcurrencySlot, kr.1 ∉ R)) s.

(** ** What a change of the tables keeps *)
Definition same_hold (r1 r2 : ConcurrencySlot) : Prop :=
  slots_consumed r1 = slots_consumed r2 ∧ partitions r1 = partitions r2 ∧ exclusive r1 = exclusive r2.

(** The live slots of [p] in [s2] that are not revived are live in [s1]. *)
Definition held_before (p : PoolId) (t1 : Z) (s1 : PoolStore) (t2 : Z) (s2 : PoolStore) (R : gset (PoolId * StepId)) : Prop :=
  ∀ st r2, concurrency_slots s2 !! (p, st) = Some r2 → live t2 r2 = true → (p, st) ∉ R →
    ∃ r1, concurrency_slots s1 !! (p, st) = Some r1 ∧ live t1 r1 = true ∧ same_hold r1 r2.

Definition version (p : PoolId) (s : PoolStore) : option N := claim_version <$> concurrency_pools s !! p.

Lemma held_before_trans p t1 s1 t2 s2 R2 t3 s3 R3 :
  (∀ st, (p, st) ∈ R2 → (p, st) ∈ R3) →
  held_before p t1 s1 t2 s2 R2 → held_before p t2 s2 t3 s3 R3 → held_before p t1 s1 t3 s3 R3.
Proof.
  intros HR H12 H23 st r3 Hr3 Hl3 Hn. destruct (H23 _ _ Hr3 Hl3 Hn) as (r2 & Hr2 & Hl2 & E2).
  destruct (H12 _ _ Hr2 Hl2 (λ H, Hn (HR _ H))) as (r1 & Hr1 & Hl1 & E1). exists r1. split_and!; [done|done|].
  unfold same_hold in *. intuition congruence.
Qed.

Lemma live_mono t1 t2 r : (t1 ≤ t2)%Z → live t2 r = true → live t1 r = true.
Proof. unfold live. rewrite !Z.ltb_lt. lia. Qed.

Lemma held_before_incl p t1 s1 t2 s2 R :
  (t1 ≤ t2)%Z →
  (∀ k r, concurrency_slots s2 !! k = Some r → concurrency_slots s1 !! k = Some r) →
  held_before p t1 s1 t2 s2 R.
Proof. intros Ht Hs st r Hr Hl _. exists r. split_and!; [auto|by eapply live_mono|done]. Qed.

(** A change that takes no slot: every statement but a claim. *)
Definition no_claim (t1 : Z) (s1 : PoolStore) (t2 : Z) (s2 : PoolStore) (R : gset (PoolId * StepId)) : Prop :=
  (∀ p, held_before p t1 s1 t2 s2 R) ∧ (∀ p v, version p s1 = Some v → version p s2 = Some v).

Lemma set_pool_limit_no_claim t p limit secs s R : no_claim t s t (set_pool_limit p limit secs s) R.
Proof.
  split; [intros q; by apply held_before_incl|]. intros q v. unfold version. cbn.
  destruct (decide (p = q)) as [->|Hne]; [rewrite lookup_insert_eq|by rewrite lookup_insert_ne].
  destruct (concurrency_pools s !! q); cbn; congruence.
Qed.

Lemma filter_no_claim t (P : (PoolId * StepId) * ConcurrencySlot → Prop) `{∀ x, Decision (P x)} f s R :
  no_claim t s t (with_pending f (with_slots (filter P) s)) R.
Proof.
  split; [|done]. intros p. apply held_before_incl; [done|]. cbn. intros k r. by rewrite map_lookup_filter_Some; intros [? _].
Qed.

Lemma expired_slots_spec me now s k :
  k ∈ expired_slots me now s ↔ ∃ r, concurrency_slots s !! k = Some r ∧ k.2 = me ∧ live now r = false.
Proof.
  unfold expired_slots. rewrite elem_of_dom. split.
  - intros [r Hr]. apply map_lookup_filter_Some in Hr as [Hr [Hk Hl]]. eauto.
  - intros (r & Hr & Hk & Hl). exists r. by apply map_lookup_filter_Some.
Qed.

Lemma renew_no_claim t me secs now s R : no_claim t s t (renew_slot_lease me secs now s).2 (R ∪ expired_slots me t s).
Proof.
  split; [|done]. intros p st r2. cbn. rewrite map_lookup_imap.
  destruct (concurrency_slots s !! (p, st)) as [r|] eqn:Hr; cbn; [|done].
  intros [= <-] Hl Hn. exists r. case_bool_decide as Hme; [|done]. subst st. split_and!; [done| |done].
  destruct (live t r) eqn:E; [done|]. exfalso. apply Hn, elem_of_union_r, expired_slots_spec. eauto.
Qed.

(** ** What a claim reads and writes *)
Lemma elem_of_imap_pair {A} (l : list A) i x : (i, x) ∈ imap pair l ↔ l !! i = Some x.
Proof.
  rewrite list_elem_of_lookup. setoid_rewrite list_lookup_imap. split.
  - intros [j Hj]. destruct (l !! j) eqn:Hl; naive_solver.
  - intros Hi. exists i. by rewrite Hi.
Qed.

Lemma claim_ok_admits c s i e : claim_ok c s = true → cl_pools c !! i = Some e → pool_admits c s i e = true.
Proof.
  unfold claim_ok. rewrite forallb_forall. intros Hall Hi. apply (Hall (pool_admits c s i e)).
  apply list_elem_of_In, list_elem_of_lookup. exists i. by rewrite list_lookup_imap, Hi.
Qed.

Lemma asset_conflict_free p me now scope s st r :
  asset_conflict p me now scope s = false →
  concurrency_slots s !! (p, st) = Some r → live now r = true → st ≠ me →
  asset_conflict_predicate scope r = false.
Proof.
  intros Hno Hr Hl Hst. destruct (asset_conflict_predicate scope r) eqn:Hp; [|done]. exfalso.
  enough (asset_conflict p me now scope s = true) by congruence.
  apply existsb_exists. exists ((p, st), r). split; [by apply list_elem_of_In, elem_of_map_to_list|].
  cbn. rewrite Hl, Hp, bool_decide_eq_true_2, bool_decide_eq_false_2 by done. done.
Qed.

Lemma upserts_lookup c l m k :
  (∃ ie old, ie ∈ l ∧ k = claim_key c ie.2.1 ∧ foldl (upsert_slot c) m l !! k = Some (slot_row c ie.1 ie.2.2 old)) ∨
  ((∀ ie, ie ∈ l → k ≠ claim_key c ie.2.1) ∧ foldl (upsert_slot c) m l !! k = m !! k).
Proof.
  induction l as [|ie l IH] using rev_ind; [right; set_solver|]. rewrite foldl_snoc. cbn [upsert_slot].
  destruct (decide (k = claim_key c ie.2.1)) as [->|Hne].
  - left. eexists ie, _. split_and!; [set_solver|done|]. unfold upsert_slot. by rewrite lookup_insert_eq.
  - unfold upsert_slot. rewrite lookup_insert_ne by (intros He; by apply Hne).
    destruct IH as [(ie' & old & Hin & Hk & IH)|[Hnot IH]]; [left|right].
    + exists ie', old. split_and!; [set_solver|done|done].
    + split; [|done]. intros ie' [Hin| ->%list_elem_of_singleton]%elem_of_app; auto.
Qed.

Lemma claim_write_slots c s k :
  (∃ i e old, cl_pools c !! i = Some e ∧ k = claim_key c e.1 ∧
     concurrency_slots (claim_write c s) !! k = Some (slot_row c i e.2 old)) ∨
  ((∀ e, e ∈ cl_pools c → k ≠ claim_key c e.1) ∧
     concurrency_slots (claim_write c s) !! k = concurrency_slots s !! k).
Proof.
  destruct (upserts_lookup c (imap pair (cl_pools c)) (concurrency_slots s) k) as [([i e] & old & Hin & Hk & H)|[Hnot H]].
  - left. exists i, e, old. by apply elem_of_imap_pair in Hin.
  - right. split; [|done]. intros e [i Hi]%list_elem_of_lookup. apply (Hnot (i, e)). by apply elem_of_imap_pair.
Qed.

Lemma bumps_lookup (cl : string) (l : list (string * N)) (m : gmap PoolId PoolRow) (p : PoolId) :
  let m' := foldl (λ m (e : string * N), alter bump_version (cl, e.1) m) m l in
  (∀ r, m !! p = Some r → ∃ r', m' !! p = Some r' ∧ slot_limit r' = slot_limit r ∧
     (claim_version r ≤ claim_version r')%N ∧
     ((∃ e, e ∈ l ∧ p = (cl, e.1)) → (claim_version r < claim_version r')%N)).
Proof.
  induction l as [|e l IH] using rev_ind; intros m' r Hr; unfold m'.
  - exists r. split_and!; [done|done|done|]. intros (e & He & _). by apply not_elem_of_nil in He.
  - rewrite foldl_snoc. destruct (IH r Hr) as (r' & Hr' & Hlim & Hle & Hlt).
    destruct (decide (p = (cl, e.1))) as [->|Hne].
    + exists (bump_version r'). rewrite lookup_alter_eq, Hr'. split_and!; [done|done|cbn; lia|cbn; lia].
    + exists r'. rewrite lookup_alter_ne by congruence. split_and!; [done|done|done|].
      intros (e' & [Hin|Heq%list_elem_of_singleton]%elem_of_app & Hp); [apply Hlt; eauto|congruence].
Qed.

Lemma claim_write_version c s p v :
  version p s = Some v → ∃ v', version p (claim_write c s) = Some v' ∧ (v ≤ v')%N ∧
    ((∃ e, e ∈ cl_pools c ∧ p = (cl_location c, e.1)) → (v < v')%N).
Proof.
  unfold version. intros (r & Hr & ->)%fmap_Some.
  destruct (bumps_lookup (cl_location c) (cl_pools c) (concurrency_pools s) p r Hr) as (r' & Hr' & _ & ? & ?).
  exists (claim_version r'). cbn. by rewrite Hr'.
Qed.

(** A claim takes no slot in a pool it does not name. *)
Lemma claim_write_other c s t p R :
  (∀ e, e ∈ cl_pools c → p ≠ (cl_location c, e.1)) → held_before p t s t (claim_write c s) R.
Proof.
  intros Hp st r Hr Hl _. exists r. split_and!; [|done|done].
  destruct (claim_write_slots c s (p, st)) as [(i & e & old & Hi & Hk & _)|[_ <-]]; [|done].
  exfalso. apply (Hp e); [by eapply list_elem_of_lookup_2|]. by injection Hk.
Qed.

(** ** The invariant *)
(** Of an open claim and its snapshot: a pool whose version is still the snapshot's has no
    live slot the snapshot does not show live, but revived ones. *)
Definition open_ok (t : Z) (s : PoolStore) (R : gset (PoolId * StepId)) (x : Claim * PoolStore) : Prop :=
  claim_wf x.1 ∧
  ∀ e, e ∈ cl_pools x.1 → let p := (cl_location x.1, e.1) in
    ∃ v0 v, version p x.2 = Some v0 ∧ version p s = Some v ∧ (v0 ≤ v)%N ∧
      (v = v0 → held_before p (cl_now x.1) x.2 t s R).

(** Whether two slots of an asset's pool exclude each other. *)
Definition row_conflict (r1 r2 : ConcurrencySlot) : Prop :=
  (exclusive r1 = true ∨ exclusive r2 = true) ∧
  match partitions r1, partitions r2 with
  | Some ps1, Some ps2 => ¬ ps1 ## ps2
  | _, _ => True
  end.

(** No two live slots of an asset's pool exclude each other, those in [R] aside. *)
Definition excluded_but (R : gset (PoolId * StepId)) (t : Z) (s : PoolStore) : Prop :=
  ∀ p st1 st2 r1 r2, is_asset_pool p.2 = true → st1 ≠ st2 → (p, st1) ∉ R → (p, st2) ∉ R →
    concurrency_slots s !! (p, st1) = Some r1 → concurrency_slots s !! (p, st2) = Some r2 →
    live t r1 = true → live t r2 = true → ¬ row_conflict r1 r2.

Definition excluded (t : Z) (s : PoolStore) : Prop := excluded_but ∅ t s.

Definition pool_inv (s : PoolSys) : Prop :=
  excluded_but (revived s) (clock s) (db s) ∧ ∀ x, x ∈ inflight s → open_ok (clock s) (db s) (revived s) x.

Lemma no_claim_inv s t s2 R :
  pool_inv s → revived s ⊆ R → no_claim (clock s) (db s) t s2 R →
  pool_inv {| clock := t; db := s2; inflight := inflight s; revived := R |}.
Proof.
  intros [Hex Hopen] HR [Hheld Hver]. split; cbn.
  - intros p st1 st2 r1 r2 Hp Hne N1 N2 H1 H2 L1 L2 Hc.
    destruct (Hheld p _ _ H1 L1 N1) as (r1' & H1' & L1' & _ & E1 & X1).
    destruct (Hheld p _ _ H2 L2 N2) as (r2' & H2' & L2' & _ & E2 & X2).
    apply (Hex p st1 st2 r1' r2' Hp Hne (λ H, N1 (HR _ H)) (λ H, N2 (HR _ H)) H1' H2' L1' L2'). unfold row_conflict in *. by rewrite E1, E2, X1, X2.
  - intros x Hx. destruct (Hopen x Hx) as [Hwf Ho]. split; [done|]. intros e He.
    destruct (Ho e He) as (v0 & v & H0 & Hv & Hle & Hh). exists v0, v. split_and!; [done|by apply Hver|done|].
    intros Heq. eapply held_before_trans; [|by apply Hh|apply Hheld]. intros st. apply HR.
Qed.

Lemma row_conflict_sym r1 r2 : row_conflict r1 r2 → row_conflict r2 r1.
Proof.
  intros [He Hp]. split; [tauto|]. destruct (partitions r1), (partitions r2); done.
Qed.

(** The predicate of the statement is the conflict of the rows. *)
Lemma asset_conflict_predicate_row c i slots old r :
  i ∈ cl_asset_pools c → asset_conflict_predicate (cl_scope c) r = false →
  ¬ row_conflict (slot_row c i slots old) r.
Proof.
  intros Hi Hp [He Ho]. revert Hp He Ho. unfold asset_conflict_predicate, slot_row. cbn.
  rewrite bool_decide_eq_true_2 by done. destruct (cl_scope c) as [[[parts|] ex]|]; cbn.
  - destruct (partitions r) as [ps|]; [|destruct ex, (exclusive r); naive_solver].
    intros Hp He Ho. apply Ho. intros x Hx%elem_of_list_to_set Hps.
    apply andb_false_iff in Hp as [Hp|Hp]; [destruct ex, (exclusive r); naive_solver|].
    enough (existsb (λ x, bool_decide (x ∈ ps)) parts = true) by congruence.
    apply existsb_exists. exists x. split; [by apply list_elem_of_In|by apply bool_decide_eq_true_2].
  - destruct ex, (exclusive r); naive_solver.
  - done.
Qed.

Section commit.
Context (s : PoolSys) (c : Claim) (snap : PoolStore) (l1 l2 : list (Claim * PoolStore)).
Context (Hinv : pool_inv s) (Hfl : inflight s = l1 ++ (c, snap) :: l2).
Context (Hfence : fence c snap (db s)) (Hok : claim_ok c snap = true).

Lemma commit_wf : claim_wf c.
Proof. destruct (proj2 Hinv (c, snap)) as [Hwf _]; [rewrite Hfl; set_solver|done]. Qed.

(** The fence holds, so the snapshot is current on the pools of the claim. *)
Lemma commit_held e :
  e ∈ cl_pools c → held_before (cl_location c, e.1) (cl_now c) snap (clock s) (db s) (revived s).
Proof.
  intros He. destruct (proj2 Hinv (c, snap)) as [_ Ho]; [rewrite Hfl; set_solver|].
  destruct (Ho e He) as (v0 & v & H0 & Hv & _ & Hh). apply Hh. cbn in *.
  unfold version in *. rewrite (Hfence e He) in Hv. congruence.
Qed.

Lemma commit_new_row i e old st r :
  cl_pools c !! i = Some e → is_asset_pool e.1 = true → st ≠ cl_step c → ((cl_location c, e.1), st) ∉ revived s →
  concurrency_slots (db s) !! ((cl_location c, e.1), st) = Some r → live (clock s) r = true →
  ¬ row_conflict (slot_row c i e.2 old) r.
Proof.
  intros Hi Ha Hst Hn Hr Hl. pose proof (proj2 (commit_wf i e Hi) Ha) as Hia.
  destruct (commit_held e (list_elem_of_lookup_2 _ _ _ Hi) st r Hr Hl Hn) as (r' & Hr' & Hl' & _ & Ep & Ex).
  pose proof (claim_ok_admits c snap i e Hok Hi) as Had. unfold pool_admits in Had.
  rewrite bool_decide_eq_true_2 in Had by done. apply negb_true_iff in Had.
  pose proof (asset_conflict_free _ _ _ _ _ _ _ Had Hr' Hl' Hst) as Hfree.
  pose proof (asset_conflict_predicate_row c i e.2 old r' Hia Hfree) as Hno.
  unfold row_conflict in *. by rewrite <-Ep, <-Ex.
Qed.

Lemma claim_keys_spec k : k ∈ claim_keys c ↔ ∃ e, e ∈ cl_pools c ∧ k = claim_key c e.1.
Proof.
  unfold claim_keys. rewrite elem_of_list_to_set, list_elem_of_fmap. split; intros (e & ? & ?); eauto.
Qed.

(** A slot of another step is revived after the commit when it was before. *)
Lemma commit_revived p st : st ≠ cl_step c → (p, st) ∉ revived s ∖ claim_keys c → (p, st) ∉ revived s.
Proof.
  intros Hst Hn Hr. apply Hn. apply elem_of_difference. split; [done|]. intros (e & _ & E)%claim_keys_spec. by injection E.
Qed.

Lemma commit_excluded : excluded_but (revived s ∖ claim_keys c) (clock s) (claim_write c (db s)).
Proof.
  intros p st1 st2 r1 r2 Hp Hne N1 N2 H1 H2 L1 L2.
  destruct (claim_write_slots c (db s) (p, st1)) as [(i1 & e1 & o1 & Hi1 & Hk1 & E1)|[K1 E1]],
    (claim_write_slots c (db s) (p, st2)) as [(i2 & e2 & o2 & Hi2 & Hk2 & E2)|[K2 E2]];
    rewrite E1 in H1; rewrite E2 in H2; unfold claim_key in *; simplify_eq.
  - apply (commit_new_row i1 e1 o1 st2); auto using commit_revived.
  - intros Hc%row_conflict_sym. revert Hc. apply (commit_new_row i2 e2 o2 st1); auto using commit_revived.
  - apply (proj1 Hinv p st1 st2); try done; intros Hr; [apply N1|apply N2]; apply elem_of_difference; (split; [done|]);
      intros (e & He & ?)%claim_keys_spec; (by apply (K1 e He)) || (by apply (K2 e He)).
Qed.

Lemma commit_open x : x ∈ l1 ++ l2 → open_ok (clock s) (claim_write c (db s)) (revived s ∖ claim_keys c) x.
Proof.
  intros Hx. destruct (proj2 Hinv x) as [Hwf Ho]; [rewrite Hfl; set_solver|]. split; [done|].
  intros e He. destruct (Ho e He) as (v0 & v & H0 & Hv & Hle & Hh).
  destruct (claim_write_version c (db s) _ v Hv) as (v' & Hv' & Hle' & Hlt).
  exists v0, v'. split_and!; [done|done|lia|]. intros ->.
  assert (Hnot : ¬ ∃ e', e' ∈ cl_pools c ∧ (cl_location x.1, e.1) = (cl_location c, e'.1))
    by (intros Hin%Hlt; lia).
  eapply held_before_trans; [|apply Hh; lia|apply claim_write_other; intros e' He' Heq; eauto].
  intros st Hst. apply elem_of_difference. split; [done|]. intros (e' & He' & Hk)%claim_keys_spec. apply Hnot. exists e'. split; [done|]. by injection Hk as -> ->.
Qed.

(** The slots the others hold, after the commit at the present clock, are among those the
    claim counted, revived ones aside. *)
Lemma commit_others_counted e :
  e ∈ cl_pools c → let p := (cl_location c, e.1) in
  (msum (slot_weight p (clock s) None) 
     (delete (claim_key c e.1) (concurrency_slots (leave_out (revived s ∖ claim_keys c) (claim_write c (db s)))))
   ≤ used_slots p (cl_now c) (Some (cl_step c)) snap)%N.
Proof.
  intros He p. rewrite used_slots_msum. apply msum_le. intros [q st] r Hr.
  apply lookup_delete_Some in Hr as [Hk Hr]. apply map_lookup_filter_Some in Hr as [Hr Hn]. cbn in Hn.
  destruct (claim_write_slots c (db s) (q, st)) as [(i & e' & old & Hi & Hk' & _)|[_ Heq]].
  - unfold slot_weight at 1. rewrite Hk'. cbn. case_bool_decide as Hq; [|cbn; lia].
    exfalso. apply Hk. rewrite Hk'. unfold claim_key, p in *. congruence.
  - rewrite Heq in Hr. unfold slot_weight at 1. cbn. case_bool_decide as Hq; [|cbn; lia]. subst q.
    destruct (live (clock s) r) eqn:Hl; cbn; [|lia].
    assert (Hst : st ≠ cl_step c) by (intros ->; by apply Hk).
    destruct (commit_held e He st r Hr Hl (commit_revived p st Hst Hn)) as (r' & Hr' & Hl' & Hs & _).
    fold p in Hr'. rewrite Hr'. unfold slot_weight. cbn. rewrite Hl', bool_decide_eq_true_2 by done.
    rewrite bool_decide_eq_false_2 by done. cbn. lia.
Qed.

(** After the commit the counted pools of the claim are within their limits. *)
Lemma commit_within_limit i e row :
  cl_pools c !! i = Some e → is_asset_pool e.1 = false →
  concurrency_pools (claim_write c (db s)) !! (cl_location c, e.1) = Some row →
  (Z.of_N (used_slots (cl_location c, e.1) (clock s) None (leave_out (revived s ∖ claim_keys c) (claim_write c (db s)))) ≤ slot_limit row)%Z.
Proof.
  intros Hi Ha Hrow. pose proof (list_elem_of_lookup_2 _ _ _ Hi) as He.
  destruct (claim_write_slots c (db s) (claim_key c e.1)) as [(j & e' & old & Hj & Hk & Hnew)|[Hnot _]];
    [|by destruct (Hnot e He)].
  injection Hk as Hkey. pose proof (claim_ok_admits c snap j e' Hok Hj) as Had. unfold pool_admits in Had.
  rewrite bool_decide_eq_false_2 in Had by (rewrite (commit_wf j e' Hj); congruence). rewrite <-Hkey in Had.
  destruct (proj2 Hinv (c, snap)) as [_ Ho]; [rewrite Hfl; set_solver|].
  destruct (Ho e He) as (v0 & v & H0 & _). unfold version in H0. apply fmap_Some in H0 as (row0 & H0 & _).
  cbn in H0. rewrite H0 in Had. rewrite <-(Hfence e He) in H0.
  destruct (bumps_lookup (cl_location c) (cl_pools c) (concurrency_pools (db s)) _ _ H0) as (row' & Hrow' & Hlim & _).
  cbn in Hrow. rewrite Hrow' in Hrow. injection Hrow as <-. rewrite Hlim.
  apply Z.leb_le in Had. pose proof (commit_others_counted e He) as Hoth. cbn zeta in Hoth.
  assert (Hnew' : concurrency_slots (leave_out (revived s ∖ claim_keys c) (claim_write c (db s))) !! claim_key c e.1 = Some (slot_row c j e'.2 old)).
  { apply map_lookup_filter_Some. split; [done|]. cbn. intros [_ Hn]%elem_of_difference. apply Hn, claim_keys_spec. eauto. }
  rewrite used_slots_msum, (msum_delete _ _ _ _ Hnew').
  assert (slot_weight (cl_location c, e.1) (clock s) None (claim_key c e.1) (slot_row c j e'.2 old) ≤ e'.2)%N
    by (unfold slot_weight; destruct (_ && _); cbn; lia).
  lia.
Qed.
End commit.

Lemma pool_inv_step s s' : pool_inv s → pool_step s s' → pool_inv s'.
Proof.
  intros Hinv Hstep. destruct Hstep as [t Ht|c Hwf Hnow Hrows|c snap l1 l2 Hfl Hf Hok|x l1 l2 Hfl| | | | | |].
  - apply no_claim_inv; [done|done|]. split; [|done]. intros p. by apply held_before_incl.
  - split; [apply Hinv|]. cbn. intros x [Hx| ->%list_elem_of_singleton]%elem_of_app; [by apply Hinv|].
    split; [done|]. intros e He. destruct (Hrows e He) as [row Hrow].
    exists (claim_version row), (claim_version row). unfold version. cbn. rewrite Hrow.
    split_and!; [done|done|lia|]. intros _. by apply held_before_incl.
  - split; cbn; [by eapply commit_excluded|]. intros x Hx. by eapply commit_open.
  - split; [apply Hinv|]. cbn. intros y Hy. apply Hinv. rewrite Hfl. set_solver.
  - apply no_claim_inv; [done|done|apply set_pool_limit_no_claim].
  - apply no_claim_inv; [done|done|apply filter_no_claim].
  - apply no_claim_inv; [done|done|apply filter_no_claim].
  - apply no_claim_inv; [done|done|]. apply (filter_no_claim _ _ id).
  - apply no_claim_inv; [done|done|]. split; [|done]. intros p. by apply held_before_incl.
  - apply no_claim_inv; [done|set_solver|apply renew_no_claim].
Qed.

Lemma pool_inv_init s : pool_init s → pool_inv s.
Proof.
  intros (Hslots & Hfl & _). split.
  - intros p st1 st2 r1 r2 _ _ _ _ H1. by rewrite Hslots, lookup_empty in H1.
  - intros x. rewrite Hfl. by intros Hx%not_elem_of_nil.
Qed.

Lemma pool_inv_reachable s : pool_reachable s → pool_inv s.
Proof.
  intros (s0 & Hinit & Hrtc). apply pool_inv_init in Hinit. induction Hrtc; [done|]. eauto using pool_inv_step.
Qed.

(** C1: however claims, renewals, releases, expiry and limit changes interleave, when two steps
    hold live slots of one asset's pool that exclude each other (one of them exclusive, their
    partitions overlapping), one of the two slots was renewed after its lease had expired.
    Claims read snapshots, so this is what bumping [claim_version] buys. *)
Theorem asset_exclusion s p st1 st2 r1 r2 :
  pool_reachable s → is_asset_pool p.2 = true → st1 ≠ st2 →
  concurrency_slots (db s) !! (p, st1) = Some r1 → concurrency_slots (db s) !! (p, st2) = Some r2 →
  live (clock s) r1 = true → live (clock s) r2 = true → row_conflict r1 r2 →
  (p, st1) ∈ revived s ∨ (p, st2) ∈ revived s.
Proof.
  intros [Hex _]%pool_inv_reachable Hp Hne H1 H2 L1 L2 Hc.
  destruct (decide ((p, st1) ∈ revived s)) as [|N1]; [by left|]. destruct (decide ((p, st2) ∈ revived s)) as [|N2]; [by right|].
  by destruct (Hex p st1 st2 r1 r2).
Qed.

(** C17: whenever a claim commits, every counted pool it claims is within its limit, counting
    its own and all the live slots of the tables at that moment but those that were renewed
    after their lease had expired, whatever committed since the snapshot the claim decided on. *)
Theorem claim_within_limit s c snap l1 l2 i e row :
  pool_reachable s →
  inflight s = l1 ++ (c, snap) :: l2 → fence c snap (db s) → claim_ok c snap = true →
  cl_pools c !! i = Some e → is_asset_pool e.1 = false →
  concurrency_pools (claim_write c (db s)) !! (cl_location c, e.1) = Some row →
  (Z.of_N (used_slots (cl_location c, e.1) (clock s) None (leave_out (revived s ∖ claim_keys c) (claim_write c (db s)))) ≤ slot_limit row)%Z.
Proof. intros Hr%pool_inv_reachable Hfl Hf Hok. by eapply commit_within_limit. Qed.

(** ** Examples *)
Definition ex_pools : gmap PoolId PoolRow :=
  <[("cl", "db") := {| slot_limit := 2; lease_duration_secs := 300; claim_version := 0 |}]>
  {[("cl", "__asset__:a") := {| slot_limit := 1; lease_duration_secs := 300; claim_version := 0 |}]}.

Definition ex_pool_store : PoolStore :=
  {| concurrency_pools := ex_pools; concurrency_slots := ∅; pending_steps := ∅ |}.

Definition ex_claim (run : string) (parts : option (list string)) (ex : bool) : Claim :=
  {| cl_location := "cl"; cl_step := (run, "a"); cl_pools := [("db", 1%N); ("__asset__:a", 1%N)];
     cl_asset_pools := [1]; cl_scope := Some {| scope_partitions := parts; scope_exclusive := ex |};
     cl_now := 10; cl_lease_exp := 100 |}.

Definition ex_sys (t : Z) (db : PoolStore) (fl : list (Claim * PoolStore)) : PoolSys :=
  {| clock := t; db := db; inflight := fl; revived := ∅ |}.

Lemma ex_claim_wf run parts ex : claim_wf (ex_claim run parts ex).
Proof.
  intros [|[|i]] e; cbn; [intros [= <-]|intros [= <-]|done]; rewrite list_elem_of_singleton; by split.
Qed.

Lemma ex_step_begin t fl c db0 :
  claim_wf c → (cl_now c ≤ t)%Z →
  (∀ e, e ∈ cl_pools c → is_Some (concurrency_pools db0 !! (cl_location c, e.1))) →
  pool_step (ex_sys t db0 fl) (ex_sys t db0 (fl ++ [(c, db0)])).
Proof. intros Hwf Ht H. by apply (step_begin (ex_sys t db0 fl)). Qed.

Lemma ex_step_commit t c db0 :
  claim_ok c db0 = true → pool_step (ex_sys t db0 [(c, db0)]) (ex_sys t (claim_write c db0) []).
Proof.
  intros H. unfold ex_sys. rewrite <- (empty_difference_L (claim_keys c)) at 2. by apply (step_commit (ex_sys t db0 [(c, db0)]) c db0 [] []).
Qed.

(** A claim that begins and commits alone. *)
Lemma ex_step_claim t c db0 :
  claim_wf c → (cl_now c ≤ t)%Z → Forall (λ e, is_Some (concurrency_pools db0 !! (cl_location c, e.1))) (cl_pools c) →
  claim_ok c db0 = true → rtc pool_step (ex_sys t db0 []) (ex_sys t (claim_write c db0) []).
Proof.
  intros Hwf Ht H Hok. eapply rtc_l; [apply (ex_step_begin t [] c); [done|done|by apply Forall_forall]|].
  by apply rtc_once, ex_step_commit.
Qed.

(** A deletion of [p1]. *)
Definition ex_del : Claim := ex_claim "r1" (Some ["p1"]) true.

Ltac rows_exist := apply (bool_decide_unpack _); vm_compute; exact I.

Lemma ex_one_open : pool_reachable (ex_sys 10 ex_pool_store [(ex_del, ex_pool_store)]).
Proof.
  exists (ex_sys 10 ex_pool_store []). split; [done|]. apply rtc_once, (ex_step_begin 10 [] ex_del); [apply ex_claim_wf|done|].
  apply Forall_forall. rows_exist.
Qed.

Lemma claim_within_limit_witness :
  concurrency_pools (claim_write ex_del ex_pool_store) !! ("cl", "db")
    = Some {| slot_limit := 2; lease_duration_secs := 300; claim_version := 1 |} ∧
  (Z.of_N (used_slots ("cl", "db") 10 None (leave_out (∅ ∖ claim_keys ex_del) (claim_write ex_del ex_pool_store))) ≤ 2)%Z.
Proof.
  split; [by vm_compute|].
  apply (claim_within_limit (ex_sys 10 ex_pool_store [(ex_del, ex_pool_store)]) ex_del ex_pool_store [] [] 0 ("db", 1%N)
           {| slot_limit := 2; lease_duration_secs := 300; claim_version := 1 |});
    [exact ex_one_open|done|done|by vm_compute|done|done|by vm_compute].
Defined.

(** A step holds the whole asset; its lease expires at 100, and another step claims the asset
    at 120; the first one then renews. *)
Definition ex_first : Claim := ex_claim "r1" None true.
Definition ex_second : Claim :=
  {| cl_location := "cl"; cl_step := ("r2", "a"); cl_pools := cl_pools ex_first; cl_asset_pools := [1];
     cl_scope := cl_scope ex_first; cl_now := 120; cl_lease_exp := 300 |}.
Definition ex_both : PoolStore := claim_write ex_second (claim_write ex_first ex_pool_store).
Definition ex_late : PoolSys :=
  {| clock := 150; db := (renew_slot_lease ("r1", "a") 300 150 ex_both).2; inflight := [];
     revived := ∅ ∪ expired_slots ("r1", "a") 150 ex_both |}.

Lemma ex_late_reachable : pool_reachable ex_late.
Proof.
  exists (ex_sys 10 ex_pool_store []). split; [done|].
  etrans; [apply (ex_step_claim 10 ex_first); [apply ex_claim_wf|done|rows_exist|by vm_compute]|].
  eapply rtc_l; [apply (step_clock (ex_sys 10 (claim_write ex_first ex_pool_store) []) 120); cbn; lia|].
  etrans; [apply (ex_step_claim 120 ex_second); [exact (ex_claim_wf "r1" None true)|done|rows_exist|by vm_compute]|].
  eapply rtc_l; [apply (step_clock (ex_sys 120 ex_both []) 150); cbn; lia|].
  apply rtc_once. exact (step_renew (ex_sys 150 ex_both []) ("r1", "a") 300 150).
Qed.

Definition ex_slot (st : StepId) : ConcurrencySlot :=
  default {| slots_consumed := 0; claimed_at := 0; lease_expires_at := 0; last_heartbeat := 0; partitions := None; exclusive := false |}
    (concurrency_slots (db ex_late) !! (("cl", "__asset__:a"), st)).

Lemma ex_conflict : row_conflict (ex_slot ("r1", "a")) (ex_slot ("r2", "a")).
Proof. split; [left; vm_compute; reflexivity|vm_compute; exact I]. Qed.

Lemma asset_exclusion_witness :
  row_conflict (ex_slot ("r1", "a")) (ex_slot ("r2", "a")) ∧ ((("cl", "__asset__:a"), ("r2", "a")) ∉ revived ex_late) ∧
  ((("cl", "__asset__:a"), ("r1", "a")) ∈ revived ex_late ∨ (("cl", "__asset__:a"), ("r2", "a")) ∈ revived ex_late).
Proof.
  split; [exact ex_conflict|]. split; [apply (bool_decide_unpack _); vm_compute; exact I|].
  apply (asset_exclusion ex_late ("cl", "__asset__:a") ("r1", "a") ("r2", "a") (ex_slot ("r1", "a")) (ex_slot ("r2", "a")) ex_late_reachable);
    [done|done|vm_compute; reflexivity|vm_compute; reflexivity|vm_compute; reflexivity|vm_compute; reflexivity|exact ex_conflict].
Defined.

Definition ex_after : PoolStore := claim_write ex_del ex_pool_store.

(** Without the fence both of two whole-asset claims would commit on one snapshot. *)
Example unfenced_claims_conflict :
  let c1 := ex_claim "r1" None true in let c2 := ex_claim "r2" None true in
  claim_ok c1 ex_pool_store = true ∧ claim_ok c2 ex_pool_store = true ∧
  ¬ excluded 10 (claim_write c2 (claim_write c1 ex_pool_store)).
Proof.
  split; [by vm_compute|]. split; [by vm_compute|]. intros Hex.
  eapply (Hex ("cl", "__asset__:a") ("r1", "a") ("r2", "a")); try (by vm_compute); try apply not_elem_of_empty.
  split; [by left|done].
Qed.

(** [renew_slot_lease] does not look at the expiry: a step whose lease has run out, and
    whose row no sweep has deleted, renews it although another step claimed the asset in
    between, and is told that its slots were renewed. Both then hold the whole asset
    exclusively. *)
Theorem expired_renewal_breaks_exclusion :
  (renew_slot_lease ("r1", "a") 300 150 ex_both).1 = 2%N ∧
  excluded 120 ex_both ∧ pool_reachable ex_late ∧ ¬ excluded (clock ex_late) (db ex_late).
Proof.
  split; [by vm_compute|]. split; [|split; [exact ex_late_reachable|]].
  - assert (Hone : map_Forall (λ (k : PoolId * StepId) r, live 120 r = true → k.2 = ("r2", "a")) (concurrency_slots ex_both))
      by (apply (bool_decide_unpack _); by vm_compute).
    intros p st1 st2 r1 r2 _ Hne _ _ H1 H2 L1 L2 _. apply Hne. by rewrite (Hone _ _ H1 L1 : st1 = _), (Hone _ _ H2 L2 : st2 = _).
  - intros Hex. eapply (Hex ("cl", "__asset__:a") ("r1", "a") ("r2", "a")); try (by vm_compute); try apply not_elem_of_empty.
    split; [by left|done].
Qed.
