(* ===== verification/PoolTheorems.v ===== *)
(** * What an attempt to claim returns, and when claiming settles

    The pre-check and the transaction apply one rule, so an undisturbed attempt never ends
    in contention; the retry loop then settles as soon as one attempt is undisturbed. *)

From S2P Require Import Prelude Pools PoolClaims.

Section attempt.
Context (cl : string) (me : StepId) (scope : option AssetScope).

(** Whether a pool is checked at all, and whether it lets the step in. *)
Definition pool_limited (s : PoolStore) (e : string * N) : bool :=
  is_asset_pool e.1 ||
  match concurrency_pools s !! (cl, e.1) with Some row => (0 <=? slot_limit row)%Z | None => false end.

Definition pool_free (now : Z) (s : PoolStore) (e : string * N) : bool :=
  if is_asset_pool e.1 then negb (asset_conflict (cl, e.1) me now scope s)
  else match concurrency_pools s !! (cl, e.1) with
       | Some row => (slot_limit row <? 0)%Z || (Z.of_N (used_slots (cl, e.1) now (Some me) s + e.2) <=? slot_limit row)%Z
       | None => false
       end.

(** Every pool is configured with an [i32] limit and the counts stay within [u32]. *)
Definition pools_ready (pools : list (string * N)) (s : PoolStore) : Prop :=
  ∀ e, e ∈ pools → ∃ row, concurrency_pools s !! (cl, e.1) = Some row ∧ (slot_limit row < 2 ^ 31)%Z ∧
    ∀ now, (used_slots (cl, e.1) now (Some me) s + e.2 < u32_bound)%N.

(** The indices of the asset pools point at them. *)
Definition indices_ok (pre : Precheck) : Prop :=
  (∀ i e, limited_pools pre !! i = Some e → (i ∈ asset_pools pre ↔ is_asset_pool e.1 = true)) ∧
  (∀ i, i ∈ asset_pools pre → i < length (limited_pools pre)).

Lemma indices_ok_snoc pre e b :
  indices_ok pre →
  indices_ok {| blocked := b; limited_pools := limited_pools pre ++ [e];
                asset_pools := if is_asset_pool e.1 then asset_pools pre ++ [length (limited_pools pre)] else asset_pools pre |}.
Proof.
  intros [H1 H2]. split; cbn.
  - intros i e' [Hi|[Hlen Hi]]%lookup_app_Some.
    + assert (i < length (limited_pools pre)) by (by apply lookup_lt_Some in Hi).
      rewrite <-(H1 i e' Hi). destruct (is_asset_pool e.1); [|done]. rewrite elem_of_app, list_elem_of_singleton.
      split; [intros [?|?]; [done|lia]|tauto].
    + assert (i = length (limited_pools pre) ∧ e' = e) as [-> ->].
      { destruct (i - length (limited_pools pre)) as [|k] eqn:Hk; [|by destruct k]. cbn in Hi. split; [lia|congruence]. }
      destruct (is_asset_pool e.1) eqn:Ha; [set_solver|]. split; [intros Hin%H2; lia|done].
  - intros i. rewrite length_app. cbn. destruct (is_asset_pool e.1); [|intros Hin%H2; lia].
    rewrite elem_of_app, list_elem_of_singleton. intros [Hin%H2| ->]; lia.
Qed.

(** The keys that block. *)
Definition blocked_keys (pre : Precheck) : list string := bd_pool_key <$> blocked pre.

Lemma precheck_pool_spec now s acc e pools :
  pools_ready (e :: pools) s → indices_ok acc →
  ∃ pre, precheck_pool cl me now scope s acc e = inr pre ∧ indices_ok pre ∧
    limited_pools pre = limited_pools acc ++ (if pool_limited s e then [e] else []) ∧
    blocked_keys pre = blocked_keys acc ++ (if pool_free now s e then [] else [e.1]).
Proof.
  intros Hready Hacc. destruct (Hready e) as (row & Hrow & Hlim & Hu); [set_solver|]. specialize (Hu now).
  unfold precheck_pool, pool_limited, pool_free, asset_pool_precheck, query_pool_usage, blocked_keys. rewrite Hrow.
  pose proof (indices_ok_snoc acc e) as Hsnoc. destruct (is_asset_pool e.1); cbn.
  - destruct (asset_conflict _ _ _ _ _); eexists; (split; [done|]); (split; [by apply Hsnoc|]); cbn;
      (split; [done|]); by rewrite fmap_app.
  - rewrite (proj2 (N.ltb_lt _ _)) by lia. cbn. destruct (Z.ltb_spec (slot_limit row) 0) as [Hneg|Hpos]; cbn.
    + exists acc. rewrite (proj2 (Z.leb_gt _ _)), !app_nil_r by lia. done.
    + rewrite (proj2 (Z.leb_le _ _)) by lia.
      assert (Hblk : (i32_as_u32 (slot_limit row) <? u32_wrap (used_slots (cl, e.1) now (Some me) s + e.2))%N =
                negb (Z.of_N (used_slots (cl, e.1) now (Some me) s + e.2) <=? slot_limit row)%Z).
      { unfold i32_as_u32, u32_wrap. rewrite Z.mod_small, N.mod_small by lia.
        rewrite <-Z.ltb_antisym. apply Bool.eq_iff_eq_true. rewrite N.ltb_lt, Z.ltb_lt. lia. }
      rewrite Hblk. destruct (Z.leb _ _); eexists; (split; [done|]); (split; [by apply Hsnoc|]); cbn;
        (split; [done|]); by rewrite fmap_app.
Qed.

Lemma precheck_spec now s acc pools :
  pools_ready pools s → indices_ok acc →
  ∃ pre, precheck cl me now scope s acc pools = inr pre ∧ indices_ok pre ∧
    limited_pools pre = limited_pools acc ++ filter (λ e, pool_limited s e = true) pools ∧
    blocked_keys pre = blocked_keys acc ++ (filter (λ e, pool_free now s e = false) pools).*1.
Proof.
  induction pools as [|e pools IH] in acc |- *; intros Hready Hacc; cbn [precheck].
  - exists acc. by rewrite !app_nil_r.
  - destruct (precheck_pool_spec now s acc e pools Hready Hacc) as (pre1 & -> & Hok1 & Hl1 & Hb1).
    destruct (IH pre1) as (pre & -> & Hok & Hl & Hb); [|done|].
    { intros e' He'. apply Hready. set_solver. }
    exists pre. split_and!; [done|done|rewrite Hl, Hl1|rewrite Hb, Hb1]; rewrite <-app_assoc, filter_cons; f_equal.
    + destruct (pool_limited s e); [by rewrite decide_True|by rewrite decide_False].
    + destruct (pool_free now s e); [by rewrite decide_False|by rewrite decide_True].
Qed.

(** The transaction's conditions are those of the pre-check. *)
Lemma claim_ok_of_free now secs s pre pools :
  pools_ready pools s → indices_ok pre →
  limited_pools pre = filter (λ e, pool_limited s e = true) pools →
  (∀ e, e ∈ pools → pool_free now s e = true) →
  claim_ok (make_claim cl me scope now secs pre) s = true.
Proof.
  intros Hready [Hidx _] Hl Hfree. apply forallb_forall. intros b Hb%list_elem_of_In.
  apply elem_of_lookup_imap in Hb as (i & e & -> & Hi). cbn in Hi.
  assert (Hin : e ∈ filter (λ e, pool_limited s e = true) pools) by (rewrite <-Hl; by eapply list_elem_of_lookup_2).
  apply list_elem_of_filter in Hin as [Hlim Hin]. specialize (Hfree e Hin). destruct (Hready e Hin) as (row & Hrow & _).
  unfold pool_admits, pool_free, pool_limited in *. cbn. pose proof (Hidx i e Hi) as Hia. cbn. rewrite Hrow in *.
  destruct (is_asset_pool e.1) eqn:Ha.
  - by rewrite bool_decide_eq_true_2 by tauto.
  - rewrite bool_decide_eq_false_2 by (rewrite Hia; done). cbn in Hlim. apply Z.leb_le in Hlim.
    apply orb_prop in Hfree as [Hneg%Z.ltb_lt|?]; [lia|done].
Qed.

Lemma claim_check_positive c s : cl_pools c ≠ [] → 0 < claim_check c (claim_write c s).
Proof.
  intros Hne. destruct (cl_pools c) as [|e l] eqn:Hp; [done|]. unfold claim_check.
  destruct (claim_write_slots c s (claim_key c e.1)) as [(i & e' & old & Hi & Hk & Hrow)|[Hnot _]].
  - apply elem_of_map_to_list in Hrow.
    assert (Hin : (claim_key c e.1, slot_row c i e'.2 old) ∈ filter (λ kr : (PoolId * StepId) * ConcurrencySlot,
              kr.1.2 = cl_step c ∧ claimed_at kr.2 = cl_now c) (map_to_list (concurrency_slots (claim_write c s))))
      by (by apply list_elem_of_filter).
    destruct (filter _ _); [by apply not_elem_of_nil in Hin|cbn; lia].
  - exfalso. apply (Hnot e); [rewrite Hp; apply list_elem_of_here|done].
Qed.

(** The keys a pending claim reports. *)
Definition reason_keys (r : ClaimBlockReason) : list string :=
  match r with ClaimPoolFull k _ _ => [k] | ClaimPoolsFull bs => bd_pool_key <$> bs end.

Lemma claim_reason_keys b rest : reason_keys (claim_reason b rest) = bd_pool_key <$> b :: rest.
Proof. by destruct rest. Qed.

(** What an attempt does to the slots of its step. *)
Definition slots_taken (now : Z) (secs : N) (pools : list (string * N)) (s s' : PoolStore) : Prop :=
  (∀ e, e ∈ pools → pool_limited s e = true →
     ∃ r, concurrency_slots s' !! ((cl, e.1), me) = Some r ∧ claimed_at r = now ∧ lease_expires_at r = lease_exp now secs ∧
          (e.1, slots_consumed r) ∈ pools) ∧
  (∀ p st, st ≠ me → concurrency_slots s' !! (p, st) = concurrency_slots s !! (p, st)).

Lemma claim_write_taken now secs pre pools s :
  limited_pools pre = filter (λ e, pool_limited s e = true) pools →
  slots_taken now secs pools s (claim_write (make_claim cl me scope now secs pre) s).
Proof.
  intros Hl. split.
  - intros e He Hlim. destruct (claim_write_slots (make_claim cl me scope now secs pre) s ((cl, e.1), me))
      as [(i & e' & old & Hi & Hk & ->)|[Hnot _]].
    + eexists. split; [done|]. injection Hk as ->. split_and!; [done|done|]. cbn.
      assert (Hin : e' ∈ limited_pools pre) by (by eapply list_elem_of_lookup_2).
      rewrite Hl in Hin. apply list_elem_of_filter in Hin as [_ Hin]. by destruct e'.
    + exfalso. apply (Hnot e); [|done]. cbn. rewrite Hl. by apply list_elem_of_filter.
  - intros p st Hst. destruct (claim_write_slots (make_claim cl me scope now secs pre) s (p, st))
      as [(i & e & old & _ & Hk & _)|[_ ->]]; [|done].
    exfalso. apply Hst. by injection Hk.
Qed.

Lemma enqueue_pending_count priority now b r s :
  (0 < pending_count (cl, bd_pool_key b) (enqueue_pending cl me priority now b r s))%N.
Proof.
  unfold pending_count. set (m := pending_steps _). set (row := {| pd_pool := (cl, bd_pool_key b);
    pd_priority := priority; enqueued_at := now; pd_block_reason := claim_reason_display r |}).
  assert (Hin : (me, row) ∈ filter (λ kr : StepId * PendingStep, pd_pool kr.2 = (cl, bd_pool_key b)) (map_to_list m)).
  { apply list_elem_of_filter. split; [done|]. apply elem_of_map_to_list. apply lookup_insert_eq. }
  destruct (filter _ _); [by apply not_elem_of_nil in Hin|cbn; lia].
Qed.

(** A pool without room is one that is checked. *)
Lemma not_free_limited now s pools e :
  pools_ready pools s → e ∈ pools → pool_free now s e = false → pool_limited s e = true.
Proof.
  intros Hready He. destruct (Hready e He) as (row & Hrow & _). unfold pool_free, pool_limited. rewrite Hrow.
  destruct (is_asset_pool e.1); [done|]. cbn. intros [Hn%Z.ltb_ge _]%orb_false_elim. by apply Z.leb_le.
Qed.

(** An attempt nobody interferes with never errs when its pools are configured: it is
    [Claimed], with a slot under a new lease in every pool that is limited and nobody
    else's slot touched, exactly when every pool has room; otherwise it is [Pending], names
    exactly the pools without room, and takes no slot. *)
Theorem try_claim_solo pools priority secs now s :
  pools_ready pools s →
  let '(res, s') := try_claim_concurrency_slots_once cl pools me priority secs scope now id s in
  if forallb (pool_free now s) pools
  then res = inr Claimed ∧ slots_taken now secs pools s s'
  else ∃ pos reason, res = inr (Pending pos reason) ∧ (0 < pos)%N ∧
    reason_keys reason = (filter (λ e, pool_free now s e = false) pools).*1 ∧
    concurrency_slots s' = concurrency_slots s ∧ concurrency_pools s' = concurrency_pools s ∧
    is_Some (pending_steps s' !! me).
Proof.
  intros Hready. destruct (precheck_spec now s no_precheck pools Hready) as (pre & Hpre & Hidx & Hl & Hb).
  { split; cbn; [done|]. by intros i []%not_elem_of_nil. }
  cbn in Hl, Hb. unfold try_claim_concurrency_slots_once. rewrite Hpre.
  destruct (forallb (pool_free now s) pools) eqn:Hall.
  - rewrite forallb_forall in Hall. setoid_rewrite <-list_elem_of_In in Hall.
    destruct (blocked pre) as [|b rest] eqn:Hblk.
    2: { exfalso. assert (Hin : bd_pool_key b ∈ (filter (λ e, pool_free now s e = false) pools).*1)
           by (rewrite <-Hb; unfold blocked_keys; rewrite Hblk; apply list_elem_of_here).
         apply list_elem_of_fmap in Hin as (e & _ & [Hf Hin]%list_elem_of_filter). by rewrite Hall in Hf. }
    destruct (limited_pools pre) as [|e0 l0] eqn:Hlp.
    + split; [done|]. split; [|done]. intros e He Hlim. exfalso. apply (not_elem_of_nil e). rewrite Hl.
      by apply list_elem_of_filter.
    + rewrite <-Hlp in Hl. unfold claim_transaction, id.
      rewrite (claim_ok_of_free now secs s pre pools) by done.
      rewrite (proj2 (Nat.ltb_lt _ _)) by (apply claim_check_positive; cbn; by rewrite Hlp).
      split; [done|by apply claim_write_taken].
  - assert (∃ e, e ∈ pools ∧ pool_free now s e = false) as (e & He & Hf).
    { apply not_true_iff_false in Hall. rewrite forallb_forall in Hall.
      destruct (decide (Exists (λ e, pool_free now s e = false) pools)) as [Hex|Hno]; [by apply Exists_exists|].
      destruct Hall. intros e He%list_elem_of_In. apply not_false_iff_true. intros Hf.
      apply Hno, Exists_exists. eauto. }
    destruct (blocked pre) as [|b rest] eqn:Hblk.
    { exfalso. apply (not_elem_of_nil e.1). unfold blocked_keys in Hb. rewrite Hblk in Hb. cbn in Hb. rewrite Hb.
      apply list_elem_of_fmap_2, list_elem_of_filter. done. }
    destruct (limited_pools pre) as [|e0 l0] eqn:Hlp.
    { exfalso. apply (not_elem_of_nil e). rewrite Hl. apply list_elem_of_filter.
      eauto using not_free_limited. }
    eexists _, _. split; [done|]. split_and!; [apply enqueue_pending_count| |done|done|].
    + rewrite claim_reason_keys, <-Hblk. exact Hb.
    + cbn. by rewrite lookup_insert_eq.
Qed.

(** Whatever others commit within the attempt, the only error is contention, and then the
    attempt wrote nothing. *)
Lemma try_claim_contended pools priority secs now mid s :
  pools_ready pools s →
  let '(res, s') := try_claim_concurrency_slots_once cl pools me priority secs scope now mid s in
  match res with inr _ => True | inl err => err = PoolContended ∧ s' = mid s end.
Proof.
  intros Hready. destruct (precheck_spec now s no_precheck pools Hready) as (pre & Hpre & _ & _ & _).
  { split; cbn; [done|]. by intros i []%not_elem_of_nil. }
  unfold try_claim_concurrency_slots_once. rewrite Hpre.
  destruct (limited_pools pre) as [|e l] eqn:Hlp, (blocked pre); try done.
  unfold claim_transaction. destruct (claim_ok _ (mid s)).
  - rewrite (proj2 (Nat.ltb_lt _ _)); [done|]. apply claim_check_positive. cbn. by rewrite Hlp.
  - by destruct (0 <? _).
Qed.

Lemma try_claim_undisturbed pools priority secs now mid s :
  (∀ s, mid s = s) →
  try_claim_concurrency_slots_once cl pools me priority secs scope now mid s
  = try_claim_concurrency_slots_once cl pools me priority secs scope now id s.
Proof. intros H. unfold try_claim_concurrency_slots_once. by rewrite !H. Qed.
End attempt.

(** ** The retry loop *)
Section retries.
Context {S E T : Type} (cfg : StorageRetryConfig) (should_retry : E → bool) (elapsed : N → Z).
Context (f : N → S → (E + T) * S).

(** The fuel covers every attempt the configuration allows. *)
Lemma retry_loop_total fuel i s :
  (max_retries cfg ≤ N.of_nat fuel + i)%N → is_Some (retry_loop cfg should_retry elapsed f fuel i s).
Proof.
  revert i s. induction fuel as [|fuel IH]; intros i s Hf; cbn [retry_loop];
    destruct (f i s) as [[e|v] s']; [destruct (should_retry e); cbn; [|by eexists]|by eexists|
                                     destruct (should_retry e); cbn; [|by eexists]|by eexists].
  - rewrite (proj2 (N.ltb_lt _ _)) by lia. cbn. eauto.
  - destruct (_ || _); [eauto|]. apply IH. lia.
Qed.

(** If attempt [k] succeeds from any state the earlier ones can leave, the loop succeeds. *)
Lemma retry_loop_settles (I : S → Prop) k fuel i s :
  (∀ j s, I s → match f j s with (inr _, _) => True | (inl e, s') => should_retry e = true ∧ I s' ∧ j ≠ k end) →
  (k ≤ max_retries cfg)%N →
  (∀ j, (j < k)%N → match max_elapsed cfg with Some cap => (elapsed j < cap)%Z | None => True end) →
  I s → (i ≤ k)%N → (k ≤ N.of_nat fuel + i)%N →
  ∃ v s', retry_loop cfg should_retry elapsed f fuel i s = Some (inr v, s').
Proof.
  intros Hf Hk Htime. revert i s. induction fuel as [|fuel IH]; intros i s HI Hi Hfuel; cbn [retry_loop];
    pose proof (Hf i s HI) as Hfi; destruct (f i s) as [[e|v] s']; eauto; destruct Hfi as (-> & HI' & Hne); cbn.
  - lia.
  - rewrite (proj2 (N.ltb_ge _ _)) by lia. cbn.
    assert (Hin : match max_elapsed cfg with Some cap => (cap <=? elapsed i)%Z | None => false end = false).
    { specialize (Htime i). destruct (max_elapsed cfg); [|done]. apply Z.leb_gt, Htime. lia. }
    rewrite Hin. apply IH; [done|lia|lia].
Qed.
End retries.

(** [claim_concurrency_slots] settles: once an attempt within its budget (516 retries, five
    seconds) is not disturbed by another claim, it returns [Claimed] or [Pending], whatever
    others committed before and whatever the earlier attempts lost; it never gives up with
    an error, provided the pools stay configured. *)
Theorem claim_settles cl me scope cfg elapsed sched k pools priority secs s :
  pools ≠ [] → pools_ready cl me pools s →
  (∀ i s, pools_ready cl me pools s →
     pools_ready cl me pools (at_before (sched i) s) ∧ pools_ready cl me pools (at_mid (sched i) s)) →
  (∀ s, at_mid (sched k) s = s) →
  (k ≤ CONTENDED_MAX_RETRIES)%N → (∀ i, (i < k)%N → (elapsed i < CONTENDED_MAX_ELAPSED)%Z) →
  ∃ st s', claim_concurrency_slots cfg elapsed sched cl pools me priority secs scope s = Some (inr st, s').
Proof.
  intros Hne Hready Henv Hk Hmax Htime. destruct pools as [|e pools]; [done|]. unfold claim_concurrency_slots, with_retry_if.
  apply (retry_loop_settles _ _ _ _ (pools_ready cl me (e :: pools)) k); [|cbn; lia|done|done|lia|cbn; lia].
  intros i s0 H0. destruct (Henv i s0 H0) as [H1 _]. destruct (Henv i _ H1) as [_ H2].
  pose proof (try_claim_contended cl me scope (e :: pools) priority secs (at_now (sched i)) (at_mid (sched i)) _ H1) as Hc.
  pose proof (try_claim_solo cl me scope (e :: pools) priority secs (at_now (sched i)) _ H1) as Hs.
  destruct (try_claim_concurrency_slots_once _ _ _ _ _ _ _ (at_mid (sched i)) _) as [[err|st] s'] eqn:Htry; [|done].
  destruct Hc as [-> ->]. split_and!; [done|done|]. intros ->. rewrite <-(try_claim_undisturbed _ _ _ _ _ _ _ _ _ Hk), Htry in Hs.
  destruct (forallb _ _); [by destruct Hs|by destruct Hs as (? & ? & ? & _)].
Qed.

(** ** Where the result of the check is *)
Lemma bind_pair_length {A B} (f g : A → B) l : length (l ≫= λ x, [f x; g x]) = 2 * length l.
Proof. induction l as [|x l IH]; cbn in *; lia. Qed.

Lemma counted_pools_length n (assets : list nat) :
  NoDup assets → (∀ i, i ∈ assets → i < n) →
  length (filter (λ i, i ∉ assets) (seq 0 n)) + length assets = n.
Proof.
  intros Hnd Hlt. assert (Hp : filter (λ i, i ∈ assets) (seq 0 n) ≡ₚ assets).
  { apply NoDup_Permutation; [apply NoDup_filter, NoDup_seq|done|]. intros i.
    rewrite list_elem_of_filter, elem_of_seq. naive_solver lia. }
  rewrite <-Hp, Nat.add_comm, <-length_app. rewrite <-(length_seq n 0) at 3. 
  by rewrite filter_app_complement.
Qed.

(** The index the driver reads is that of the check, for distinct indices of asset pools. *)
Lemma claim_check_statement_index_correct n (assets : list nat) :
  NoDup assets → (∀ i, i ∈ assets → i < n) →
  build_claim_transaction n assets !! claim_check_statement_index n (length assets) = Some SelectClaimed.
Proof.
  intros Hnd Hlt. pose proof (counted_pools_length n assets Hnd Hlt) as Hn.
  unfold build_claim_transaction, claim_check_statement_index.
  rewrite !lookup_app_r; rewrite ?bind_pair_length, ?length_fmap; cbn [length]; try lia.
  match goal with |- _ !! ?k = _ => replace k with 2 by lia end. done.
Qed.

(** ** Pool information *)
Lemma add_group_lookup k n m k' :
  default 0%N (add_group k n m !! k') = ((if decide (k = k') then n else 0) + default 0%N (m !! k'))%N.
Proof.
  unfold add_group. destruct (decide (k = k')) as [->|Hne]; [by rewrite lookup_insert_eq|by rewrite lookup_insert_ne].
Qed.

(** Grouping by key and summing is summing the rows of each key. *)
Lemma claimed_rows_lookup cl now s key :
  default 0%N (claimed_rows cl now s !! key) = used_slots (cl, key) now None s.
Proof.
  unfold claimed_rows, used_slots. rewrite map_fold_foldr.
  induction (map_to_list (concurrency_slots s)) as [|[[[c k] st] r] l IH]; [done|]. cbn [foldr uncurry fst snd other_step].
  rewrite andb_true_r. destruct (live now r); cycle 1; [by rewrite !andb_false_r|]. rewrite !andb_true_r.
  case_bool_decide as Hc; case_bool_decide as Hp; rewrite ?add_group_lookup, ?IH.
  - injection Hp as -> ->. by rewrite decide_True.
  - by rewrite decide_False by congruence.
  - congruence.
  - done.
Qed.

Lemma pending_rows_lookup cl s key :
  default 0%N (pending_rows cl s !! key) = pending_count (cl, key) s.
Proof.
  unfold pending_rows, pending_count.
  induction (map_to_list (pending_steps s)) as [|[st [[c k] ? ? ?]] l IH]; [done|]. cbn [foldr fst snd pd_pool].
  rewrite filter_cons. cbn [snd pd_pool]. case_bool_decide as Hc; rewrite ?add_group_lookup, IH.
  - destruct (decide (k = key)) as [->|Hk].
    + rewrite decide_True by congruence. cbn. lia.
    + rewrite decide_False by congruence. lia.
  - by rewrite decide_False by congruence.
Qed.

(** The page of all pools and the query of one pool agree: [get_all_pool_infos], which sums
    by group, returns for each pool of the location, in key order, what [get_pool_info]
    returns for it. *)
Theorem pool_infos_agree cl now s infos :
  get_all_pool_infos cl now s = inr infos →
  inr <$> infos = (λ pl, get_pool_info (cl, pl_pool_key pl) now s) <$> get_pool_limits cl s.
Proof.
  unfold get_all_pool_infos. destruct (forallb _ _) eqn:Hrange; [|done]. intros [= <-].
  rewrite <-list_fmap_compose. apply list_fmap_ext. intros i pl Hpl%list_elem_of_lookup_2. cbn.
  unfold get_pool_limits in Hpl. rewrite elem_of_sort_by in Hpl.
  apply list_elem_of_fmap in Hpl as ([[c k] row] & -> & [Hc Hrow%elem_of_map_to_list]%list_elem_of_filter).
  cbn in Hc. subst c. cbn. unfold get_pool_info, query_pool_usage. rewrite Hrow.
  rewrite <-claimed_rows_lookup, <-pending_rows_lookup. rewrite (proj2 (N.ltb_lt _ _)); [done|].
  destruct (claimed_rows cl now s !! k) as [n|] eqn:Hn; [|done]. cbn.
  rewrite forallb_forall in Hrange. apply N.ltb_lt. apply (Hrange (k, n)). by apply list_elem_of_In, elem_of_map_to_list.
Qed.

(** ** Examples *)
Definition ex_request : list (string * N) := [("db", 1%N); ("__asset__:a", 1%N)].

Lemma ex_ready : pools_ready "cl" ("r3", "a") ex_request ex_pool_store.
Proof.
  intros e. cbn. intros [->|[->|[]%not_elem_of_nil]%elem_of_cons]%elem_of_cons;
    (eexists; split; [vm_compute; reflexivity|split; [done|intros now; vm_compute; reflexivity]]).
Qed.

Lemma try_claim_solo_witness :
  pools_ready "cl" ("r3", "a") ex_request ex_pool_store ∧
  (try_claim_concurrency_slots_once "cl" ex_request ("r3", "a") 0 300 None 10 id ex_pool_store).1 = inr Claimed.
Proof.
  split; [exact ex_ready|].
  pose proof (try_claim_solo "cl" ("r3", "a") None ex_request 0 300 10 ex_pool_store ex_ready) as H.
  destruct (try_claim_concurrency_slots_once _ _ _ _ _ _ _ _ _) as [res s'].
  destruct (forallb _ _) eqn:Hf; [by destruct H|]. exfalso. revert Hf. by vm_compute.
Defined.

(** With the asset taken by a deletion of the partition the attempt has to wait. *)
Example try_claim_waits :
  (try_claim_concurrency_slots_once "cl" ex_request ("r3", "a") 0 300
     (Some {| scope_partitions := Some ["p1"]; scope_exclusive := false |}) 20 id ex_after).1
  = inr (Pending 1 (ClaimPoolFull "__asset__:a" 1 1)).
Proof. by vm_compute. Qed.

Definition ex_retry_config : StorageRetryConfig :=
  {| max_retries := 10; initial_backoff := 100000000; max_backoff := 10000000000;
     backoff_multiplier := SpecFloat.S754_zero false; max_elapsed := None |}.

Definition ex_sched (i : N) : Attempt :=
  {| at_now := 10; at_before := id;
     at_mid := if (i =? 0)%N then with_pending (λ _, ∅) else id |}.

Lemma claim_settles_witness :
  pools_ready "cl" ("r3", "a") ex_request ex_pool_store ∧
  ∃ st s', claim_concurrency_slots ex_retry_config (λ _, 0%Z) ex_sched "cl" ex_request ("r3", "a") 0 300 None ex_pool_store
           = Some (inr st, s').
Proof.
  split; [exact ex_ready|].
  apply (claim_settles "cl" ("r3", "a") None ex_retry_config (λ _, 0%Z) ex_sched 1); [done|exact ex_ready| |done|done|done].
  intros i s Hs. split; [done|]. cbn. by destruct (i =? 0)%N.
Defined.

Lemma pool_infos_agree_witness :
  ∃ infos, get_all_pool_infos "cl" 20 ex_after = inr infos ∧
    inr <$> infos = (λ pl, get_pool_info ("cl", pl_pool_key pl) 20 ex_after) <$> get_pool_limits "cl" ex_after.
Proof.
  destruct (get_all_pool_infos "cl" 20 ex_after) as [err|infos] eqn:H; [exfalso; revert H; by vm_compute|].
  exists infos. split; [done|]. apply (pool_infos_agree "cl" 20 ex_after infos H).
Defined.
