(* ===== verification/Backfills.v ===== *)
(** * Backfill records and their runs (storage/backfill.rs, surrealdb_backend/run_queue.rs,
      rows.rs and the backfill statements of backend.rs)

    A backfill is settled from the runs linked to it. The state is the tables the
    statements touch, keyed by their unique indices, with partition keys canonical; each
    transaction is one function on it. *)

From S2P Require Import Prelude PartitionKey BackfillGroup RunQueue.

(** ** Rows *)
Inductive BackfillStatus :=
| BfRequested
| BfInProgress
| BfCompletedSuccess
| BfCompletedFailed
| BfCanceled.

#[export] Instance BackfillStatus_eq_dec : EqDecision BackfillStatus.
Proof. solve_decision. Defined.

Definition backfill_status_value (s : BackfillStatus) : string :=
  match s with
  | BfRequested => "Requested"
  | BfInProgress => "InProgress"
  | BfCompletedSuccess => "CompletedSuccess"
  | BfCompletedFailed => "CompletedFailed"
  | BfCanceled => "Canceled"
  end.

Definition backfill_status_of (s : string) : option BackfillStatus :=
  if String.eqb s "Requested" then Some BfRequested
  else if String.eqb s "InProgress" then Some BfInProgress
  else if String.eqb s "CompletedSuccess" then Some BfCompletedSuccess
  else if String.eqb s "CompletedFailed" then Some BfCompletedFailed
  else if String.eqb s "Canceled" then Some BfCanceled
  else None.

Inductive BackfillFailurePolicy := Continue | StopOnFailure.

Record UserRef := {
  subject : string;
  email : option string;
  user_name : option string
}.

Inductive LaunchedBy :=
| ByManual (user : option UserRef)
| BySchedule (name : string)
| BySensor (name : string)
| ByBackfill (backfill_id : string)
| ByCondition.

(** A row of [runs]: the columns these statements read and write. *)
Record BfRun := {
  run_status : RunStatus;
  run_partition_key : option PartitionKey;
  run_end_time : option Z;
  run_launched_by : LaunchedBy
}.

(** A row of [backfills]; the keys, runs and outcomes are in their own tables. *)
Record BackfillRecord := {
  bf_code_location_id : string;
  bf_status : BackfillStatus;
  bf_strategy : BackfillStrategy;
  bf_failure_policy : BackfillFailurePolicy;
  bf_asset_selection : list string;
  bf_job_name : option string;
  bf_max_concurrency : Z;
  bf_tags : list (string * string);
  bf_create_time : Z;
  bf_end_time : option Z;
  bf_error : option string;
  bf_launched_by : LaunchedBy;
  bf_action : option string;
  bf_config : option string
}.

Inductive Outcome := OutCompleted | OutFailed | OutCanceled.

#[export] Instance Outcome_eq_dec : EqDecision Outcome.
Proof. solve_decision. Defined.

Record BackfillStore := {
  runs : gmap string BfRun;
  step_failures : gset (string * PartitionKey);   (* [StepFailure] events with a key *)
  cancel_flags : gset string;                     (* [kv] rows [cancel:<run_id>] *)
  backfills : gmap string BackfillRecord;
  backfill_keys : gmap string (list PartitionKey);
  backfill_runs : gmap (string * string) Z;       (* (backfill_id, run_id): linked_at *)
  backfill_outcomes : gmap (string * PartitionKey) Outcome
}.

Definition set_runs (f : gmap string BfRun → gmap string BfRun) (s : BackfillStore) : BackfillStore :=
  {| runs := f (runs s); step_failures := step_failures s; cancel_flags := cancel_flags s; backfills := backfills s;
     backfill_keys := backfill_keys s; backfill_runs := backfill_runs s; backfill_outcomes := backfill_outcomes s |}.

Definition set_flags (f : gset string → gset string) (s : BackfillStore) : BackfillStore :=
  {| runs := runs s; step_failures := step_failures s; cancel_flags := f (cancel_flags s); backfills := backfills s;
     backfill_keys := backfill_keys s; backfill_runs := backfill_runs s; backfill_outcomes := backfill_outcomes s |}.

Definition set_backfills (f : gmap string BackfillRecord → gmap string BackfillRecord) (s : BackfillStore) : BackfillStore :=
  {| runs := runs s; step_failures := step_failures s; cancel_flags := cancel_flags s; backfills := f (backfills s);
     backfill_keys := backfill_keys s; backfill_runs := backfill_runs s; backfill_outcomes := backfill_outcomes s |}.

Definition set_links (f : gmap (string * string) Z → gmap (string * string) Z) (s : BackfillStore) : BackfillStore :=
  {| runs := runs s; step_failures := step_failures s; cancel_flags := cancel_flags s; backfills := backfills s;
     backfill_keys := backfill_keys s; backfill_runs := f (backfill_runs s); backfill_outcomes := backfill_outcomes s |}.

Definition set_outcomes (f : gmap (string * PartitionKey) Outcome → gmap (string * PartitionKey) Outcome)
    (s : BackfillStore) : BackfillStore :=
  {| runs := runs s; step_failures := step_failures s; cancel_flags := cancel_flags s; backfills := backfills s;
     backfill_keys := backfill_keys s; backfill_runs := backfill_runs s; backfill_outcomes := f (backfill_outcomes s) |}.

Definition run_terminal (st : RunStatus) : bool :=
  match st with Success | Failure | Canceled => true | _ => false end.

(** ** Links and outcomes *)

(** [BackfillRunRow::linked_now] and [LINK_BACKFILL_RUNS]: a link that exists keeps its place. *)
Definition link_one (id : string) (m : gmap (string * string) Z) (e : Z * string) : gmap (string * string) Z :=
  match m !! (id, e.2) with Some _ => m | None => <[(id, e.2) := e.1]> m end.

Definition linked_now (now : Z) (run_ids : list string) : list (Z * string) :=
  imap (λ i r, ((now + Z.of_nat i)%Z, r)) run_ids.

Definition link_runs (id : string) (now : Z) (run_ids : list string) : BackfillStore → BackfillStore :=
  set_links (λ m, foldl (link_one id) m (linked_now now run_ids)).

(** [BackfillOutcomeRow::settled] *)
Definition put_outcome (o : Outcome) (keys : list PartitionKey) (m : gmap PartitionKey Outcome) : gmap PartitionKey Outcome :=
  foldl (λ m k, <[norm k := o]> m) m keys.

Definition settled (completed failed canceled : list PartitionKey) : gmap PartitionKey Outcome :=
  put_outcome OutFailed failed (put_outcome OutCanceled canceled (put_outcome OutCompleted completed ∅)).

(** [RECORD_BACKFILL_OUTCOMES] *)
Definition record_outcomes (id : string) (rows : gmap PartitionKey Outcome) : BackfillStore → BackfillStore :=
  set_outcomes (λ m, kmap (pair id) rows ∪ m).

(** ** Reading a backfill *)
Record BackfillView := {
  v_record : BackfillRecord;
  v_partition_keys : list PartitionKey;
  v_run_ids : list string;
  v_completed : list PartitionKey;
  v_failed : list PartitionKey;
  v_canceled : list PartitionKey
}.

Definition run_ids_of (id : string) (s : BackfillStore) : list string :=
  (λ e : (string * string) * Z, e.1.2) <$>
    sort_by (λ a b : (string * string) * Z, (a.2 <=? b.2)%Z)
      (filter (λ e : (string * string) * Z, e.1.1 = id) (map_to_list (backfill_runs s))).

Definition outcome_keys (id : string) (o : Outcome) (s : BackfillStore) : list PartitionKey :=
  (λ e : (string * PartitionKey) * Outcome, e.1.2) <$>
    filter (λ e : (string * PartitionKey) * Outcome, e.1.1 = id ∧ e.2 = o) (map_to_list (backfill_outcomes s)).

Definition get_backfill (id : string) (s : BackfillStore) : option BackfillView :=
  (λ r, {| v_record := r; v_partition_keys := default [] (backfill_keys s !! id); v_run_ids := run_ids_of id s;
           v_completed := outcome_keys id OutCompleted s; v_failed := outcome_keys id OutFailed s;
           v_canceled := outcome_keys id OutCanceled s |}) <$> backfills s !! id.

(** The rows that exist; their order does not matter to the callers here. *)
Definition get_runs_by_ids (ids : list string) (s : BackfillStore) : list (string * BfRun) :=
  omap (λ r, pair r <$> runs s !! r) ids.

(** ** The keys a finished run settles *)
Record SettledRunKeys := {
  k_completed : list PartitionKey;
  k_failed : list PartitionKey;
  k_canceled : list PartitionKey
}.

Definition no_keys : SettledRunKeys := {| k_completed := []; k_failed := []; k_canceled := [] |}.

Definition settled_of (run_id : string) (run : BfRun) (failures : gset (string * PartitionKey)) : SettledRunKeys :=
  match run_partition_key run with
  | None => no_keys
  | Some pk =>
      match run_status run with
      | Success =>
          {| k_completed := filter (λ m, (run_id, norm m) ∉ failures) (members pk);
             k_failed := filter (λ m, (run_id, norm m) ∈ failures) (members pk); k_canceled := [] |}
      | Failure => {| k_completed := []; k_failed := members pk; k_canceled := [] |}
      | Canceled => {| k_completed := []; k_failed := []; k_canceled := members pk |}
      | _ => no_keys
      end
  end.

(** [record_backfill_run_outcome]: a finished run's keys, unless its backfill is gone. *)
Definition record_backfill_run_outcome (run_id : string) (run : BfRun) (s : BackfillStore) : BackfillStore :=
  match run_launched_by run with
  | ByBackfill id =>
      if negb (bool_decide (is_Some (run_partition_key run))) || negb (run_terminal (run_status run)) then s
      else
        let k := settled_of run_id run
                   (if bool_decide (run_status run = Success) then step_failures s else ∅) in
        match backfills s !! id with
        | None => s
        | Some _ => record_outcomes id (settled (k_completed k) (k_failed k) (k_canceled k)) s
        end
  | _ => s
  end.

(** ** Status writes of a run *)
Definition with_run_status (st : RunStatus) (end_time : option Z) (r : BfRun) : BfRun :=
  {| run_status := st; run_partition_key := run_partition_key r;
     run_end_time := match end_time with Some t => Some t | None => run_end_time r end;
     run_launched_by := run_launched_by r |}.

(** [UPDATE runs ... WHERE run_id = $run_id AND status IN allowed RETURN AFTER], then the outcome. *)
Definition write_run_status (run_id : string) (allowed : RunStatus → bool) (st : RunStatus) (end_time : option Z)
    (s : BackfillStore) : bool * BackfillStore :=
  match runs s !! run_id with
  | Some r =>
      if allowed (run_status r) then
        let r := with_run_status st end_time r in
        (true, record_backfill_run_outcome run_id r (set_runs (<[run_id := r]>) s))
      else (false, s)
  | None => (false, s)
  end.

Definition bf_update_run_status (run_id : string) (st : RunStatus) (end_time : option Z) (s : BackfillStore) : BackfillStore :=
  (write_run_status run_id (λ _, true) st end_time s).2.

Definition fail_run_if_active (run_id : string) (end_time : Z) (s : BackfillStore) : bool * BackfillStore :=
  write_run_status run_id (λ st, negb (run_terminal st)) Failure (Some end_time) s.

Definition cancellable (st : RunStatus) : bool := match st with Queued | NotStarted => true | _ => false end.

(** The result counts the run as canceled whoever canceled it. *)
Definition cancel_queued_run (run_id : string) (now : Z) (s : BackfillStore) : bool * BackfillStore :=
  let s1 := match runs s !! run_id with
            | Some r => if cancellable (run_status r)
                        then set_runs (<[run_id := with_run_status Canceled (Some now) r]>) s else s
            | None => s
            end in
  match runs s1 !! run_id with
  | Some r => if bool_decide (run_status r = Canceled)
              then (true, record_backfill_run_outcome run_id r s1) else (false, s1)
  | None => (false, s1)
  end.

Definition try_start_run (run_id : string) (s : BackfillStore) : option (bool * BackfillStore) :=
  match runs s !! run_id with
  | None => None
  | Some r =>
      if bool_decide (run_status r = Canceled) then Some (false, s)
      else Some (true, set_runs (<[run_id := with_run_status Started None r]>) s)
  end.

Definition request_cancellation (run_id : string) : BackfillStore → BackfillStore := set_flags (λ f, {[run_id]} ∪ f).

Definition is_cancelled (run_id : string) (s : BackfillStore) : bool := bool_decide (run_id ∈ cancel_flags s).

(** ** Status writes of a backfill *)
Definition with_bf_status (st : BackfillStatus) (end_time : option Z) (error : option string) (r : BackfillRecord) : BackfillRecord :=
  {| bf_code_location_id := bf_code_location_id r; bf_status := st; bf_strategy := bf_strategy r;
     bf_failure_policy := bf_failure_policy r; bf_asset_selection := bf_asset_selection r; bf_job_name := bf_job_name r;
     bf_max_concurrency := bf_max_concurrency r; bf_tags := bf_tags r; bf_create_time := bf_create_time r;
     bf_end_time := match end_time with Some t => Some t | None => bf_end_time r end;
     bf_error := match error with Some e => Some e | None => bf_error r end;
     bf_launched_by := bf_launched_by r; bf_action := bf_action r; bf_config := bf_config r |}.

Definition update_backfill_status (id : string) (st : BackfillStatus) (end_time : option Z) : BackfillStore → BackfillStore :=
  set_backfills (alter (with_bf_status st end_time None) id).

Definition fail_backfill (id : string) (error : string) (now : Z) : BackfillStore → BackfillStore :=
  set_backfills (alter (with_bf_status BfCompletedFailed (Some now) (Some error)) id).

Definition update_backfill_progress (id : string) (now : Z) (run_ids : list string)
    (completed failed canceled : list PartitionKey) (s : BackfillStore) : BackfillStore :=
  record_outcomes id (settled completed failed canceled) (link_runs id now run_ids s).

Definition create_backfill (id : string) (now : Z) (v : BackfillView) (s : BackfillStore) : BackfillStore :=
  match backfills s !! id with
  | Some _ => s   (* the unique index: taken as an earlier attempt that committed *)
  | None =>
      let s := {| runs := runs s; step_failures := step_failures s; cancel_flags := cancel_flags s;
                  backfills := <[id := v_record v]> (backfills s);
                  backfill_keys := <[id := v_partition_keys v]> (backfill_keys s);
                  backfill_runs := backfill_runs s; backfill_outcomes := backfill_outcomes s |} in
      update_backfill_progress id now (v_run_ids v) (v_completed v) (v_failed v) (v_canceled v) s
  end.

(** Whether the flip back to [Requested] applied. *)
Definition resume_stalled_backfill (id : string) (s : BackfillStore) : bool * BackfillStore :=
  match backfills s !! id with
  | Some r =>
      if bool_decide (bf_status r = BfInProgress) && bool_decide (run_ids_of id s = [])
      then (true, update_backfill_status id BfRequested None s) else (false, s)
  | None => (false, s)
  end.

(** ** Settling a backfill *)
Record Tally := {
  t_completed : list PartitionKey;
  t_failed : list PartitionKey;
  t_canceled : list PartitionKey;
  any_failed : bool;
  any_canceled : bool
}.

Definition no_tally : Tally :=
  {| t_completed := []; t_failed := []; t_canceled := []; any_failed := false; any_canceled := false |}.

Definition tally_run (failures : gset (string * PartitionKey)) (t : Tally) (e : string * BfRun) : Tally :=
  match run_partition_key e.2 with
  | None =>
      {| t_completed := t_completed t; t_failed := t_failed t; t_canceled := t_canceled t;
         any_failed := any_failed t || bool_decide (run_status e.2 = Failure);
         any_canceled := any_canceled t || bool_decide (run_status e.2 = Canceled) |}
  | Some _ =>
      let k := settled_of e.1 e.2 failures in
      {| t_completed := t_completed t ++ k_completed k;
         t_failed := t_failed t ++ k_failed k;
         t_canceled := t_canceled t ++ k_canceled k;
         any_failed := any_failed t || negb (bool_decide (k_failed k = []));
         any_canceled := any_canceled t || negb (bool_decide (k_canceled k = [])) |}
  end.

Definition key_set (keys : list PartitionKey) : gset PartitionKey := list_to_set (norm <$> (keys ≫= members)).

(** The keys of [keys] settled without a run: not run and not passed in. *)
Definition settled_without_run (ran extra : gset PartitionKey) (keys : list PartitionKey) : list PartitionKey :=
  filter (λ k, (norm k ∉ ran) ∧ (norm k ∉ extra)) (keys ≫= members).

Definition derived_status (t : Tally) : BackfillStatus :=
  if any_failed t then BfCompletedFailed else if any_canceled t then BfCanceled else BfCompletedSuccess.

(** What a backfill settles to, from what the queries return; [None]: not yet. *)
Definition settle_decision (v : BackfillView) (rs : list (string * BfRun)) (failures : gset (string * PartitionKey))
    (extra_canceled : list PartitionKey) : option Tally :=
  if negb (bool_decide (bf_status (v_record v) = BfInProgress)) then None
  else if negb (forallb (λ e : string * BfRun, run_terminal (run_status e.2)) rs) then None
  else if bool_decide (rs = []) && bool_decide (extra_canceled = []) then None
  else
    let ran := key_set (omap (λ e : string * BfRun, run_partition_key e.2) rs) in
    let extra := key_set extra_canceled in
    let failed_wo := settled_without_run ran extra (v_failed v) in
    let canceled_wo := settled_without_run ran extra (v_canceled v) in
    let accounted k := bool_decide (norm k ∈ ran) || bool_decide (norm k ∈ extra)
                       || bool_decide (norm k ∈ norm <$> failed_wo) || bool_decide (norm k ∈ norm <$> canceled_wo) in
    if negb (forallb accounted (v_partition_keys v ≫= members)) then None
    else
      let t := foldl (tally_run failures) no_tally rs in
      Some {| t_completed := t_completed t;
              t_failed := t_failed t ++ failed_wo;
              t_canceled := t_canceled t ++ extra_canceled ++ canceled_wo;
              any_failed := any_failed t || negb (bool_decide (failed_wo = []));
              any_canceled := any_canceled t || negb (bool_decide (extra_canceled = []))
                              || negb (bool_decide (canceled_wo = [])) |}.

(** The transaction that writes it. *)
Definition settle_write (id : string) (t : Tally) (now : Z) (s : BackfillStore) : BackfillStore :=
  update_backfill_status id (derived_status t) (Some now)
    (record_outcomes id (settled (t_completed t) (t_failed t) (t_canceled t))
       (set_outcomes (filter (λ e : (string * PartitionKey) * Outcome, e.1.1 ≠ id)) s)).

(** [inl tt]: no such backfill. *)
Definition try_complete_backfill (id : string) (extra_canceled : list PartitionKey) (now : Z) (s : BackfillStore)
    : (unit + option BackfillStatus) * BackfillStore :=
  match get_backfill id s with
  | None => (inl tt, s)
  | Some v =>
      match settle_decision v (get_runs_by_ids (v_run_ids v) s) (step_failures s) extra_canceled with
      | None => (inr None, s)
      | Some t => (inr (Some (derived_status t)), settle_write id t now s)
      end
  end.

(** The conditional write of [cancel_backfill]. *)
Definition cancel_cas (id : string) (now : Z) : BackfillStore → BackfillStore :=
  set_backfills (alter (λ r, if bool_decide (bf_status r ∈ [BfRequested; BfInProgress])
                             then with_bf_status BfCanceled (Some now) None r else r) id).

Definition cancel_backfill (id : string) (now : Z) (s : BackfillStore) : (unit + BackfillStatus) * BackfillStore :=
  match try_complete_backfill id [] now s with
  | (inl err, s) => (inl err, s)
  | (inr (Some st), s) => (inr st, s)
  | (inr None, s) =>
      let s := cancel_cas id now s in
      match backfills s !! id with
      | Some r => (inr (bf_status r), s)
      | None => (inl tt, s)
      end
  end.

(** ** Submitting runs *)

(** The transaction of [enqueue_backfill_runs]; a taken run id leaves everything as it is. *)
Definition enqueue_write (id : string) (now : Z) (records : list (string * BfRun)) (s : BackfillStore) : BackfillStore :=
  if existsb (λ e : string * BfRun, bool_decide (is_Some (runs s !! e.1))) records then s
  else link_runs id now records.*1 (set_runs (λ m, foldl (λ m (e : string * BfRun), <[e.1 := e.2]> m) m records) s).

(** What others commit between the transaction and the status read behind it is [mid]. *)
Definition enqueue_backfill_runs (id : string) (now : Z) (records : list (string * BfRun))
    (mid : BackfillStore → BackfillStore) (s : BackfillStore) : (unit + bool) * BackfillStore :=
  match records with
  | [] => (inr true, s)
  | _ =>
      let s := mid (enqueue_write id now records s) in
      match backfills s !! id with
      | None => (inl tt, s)
      | Some r =>
          if bool_decide (bf_status r = BfInProgress) then (inr true, s)
          else (inr false, foldl (λ s (e : string * BfRun), (cancel_queued_run e.1 now s).2) s records)
      end
  end.

(** The transaction of [link_backfill_run] and the read behind it. *)
Definition link_write (id : string) (now : Z) (run_id : string) (s : BackfillStore) : BackfillStore :=
  match backfills s !! id with
  | Some r => if bool_decide (bf_status r = BfInProgress) then link_runs id now [run_id] s else s
  | None => s
  end.

Definition link_check (id : string) (run_id : string) (s : BackfillStore) : bool :=
  match backfills s !! id with
  | Some r => bool_decide (bf_status r = BfInProgress) && bool_decide (is_Some (backfill_runs s !! (id, run_id)))
  | None => false
  end.

Definition link_backfill_run (id : string) (now : Z) (run_id : string) (mid : BackfillStore → BackfillStore)
    (s : BackfillStore) : bool * BackfillStore :=
  let s := mid (link_write id now run_id s) in (link_check id run_id s, s).

(** ** Canceling from the repository (python/src/repository/handle.rs) *)

(** [cancel_run] on storage; what the run backend does to a live run is left out. *)
Definition cancel_run (run_id : string) (now : Z) (s : BackfillStore) : BackfillStore :=
  (cancel_queued_run run_id now (request_cancellation run_id s)).2.

(** The children the cascade reaches: the linked ones not finished, those without a row too. *)
Definition cascade_targets (id : string) (s : BackfillStore) : list string :=
  let ids := run_ids_of id s in
  let terminal := (λ e : string * BfRun, e.1) <$>
                    filter (λ e : string * BfRun, run_terminal (run_status e.2) = true) (get_runs_by_ids ids s) in
  filter (λ r, r ∉ terminal) ids.

Definition cancel_backfill_cascade (id : string) (now : Z) (s : BackfillStore) : (unit + BackfillStatus) * BackfillStore :=
  match cancel_backfill id now s with
  | (inr BfCanceled, s) => (inr BfCanceled, foldl (λ s r, cancel_run r now s) s (cascade_targets id s))
  | res => res
  end.
