(* ===== verification/BackfillSettle.v ===== *)
(** * What a backfill settles to

    [try_complete_backfill] gives every requested partition exactly one outcome and derives
    the status from the outcomes. *)

From S2P Require Import Prelude PartitionKey BackfillGroup RunQueue Backfills.

(** ** Outcome rows *)
Lemma put_outcome_lookup o keys m k :
  put_outcome o keys m !! k = if decide (k ∈ norm <$> keys) then Some o else m !! k.
Proof.
  unfold put_outcome. induction keys as [|x keys IH] using rev_ind; [by rewrite decide_False by set_solver|].
  rewrite foldl_snoc. destruct (decide (k = norm x)) as [->|Hne].
  - rewrite lookup_insert_eq, decide_True by set_solver. done.
  - rewrite lookup_insert_ne, IH by done. rewrite fmap_app. cbn.
    destruct (decide (k ∈ norm <$> keys)), (decide (k ∈ (norm <$> keys) ++ [norm x])); set_solver.
Qed.

(** A key in more than one list keeps the last: failed over canceled over completed. *)
Lemma settled_lookup completed failed canceled k :
  settled completed failed canceled !! k =
  if decide (k ∈ norm <$> failed) then Some OutFailed
  else if decide (k ∈ norm <$> canceled) then Some OutCanceled
  else if decide (k ∈ norm <$> completed) then Some OutCompleted else None.
Proof. unfold settled. by rewrite !put_outcome_lookup, lookup_empty. Qed.

Lemma settle_write_outcomes id t now s id' k :
  backfill_outcomes (settle_write id t now s) !! (id', k) =
  if decide (id' = id) then settled (t_completed t) (t_failed t) (t_canceled t) !! k
  else backfill_outcomes s !! (id', k).
Proof.
  cbn. set (rows := settled _ _ _). destruct (decide (id' = id)) as [->|Hne].
  - destruct (rows !! k) as [o|] eqn:Hk.
    + apply lookup_union_Some_l. by rewrite (lookup_kmap (pair id)).
    + apply lookup_union_None_2; [by rewrite (lookup_kmap (pair id))|].
      apply map_lookup_filter_None. right. intros o _ H. by apply H.
  - rewrite lookup_union_r.
    + destruct (backfill_outcomes s !! (id', k)) as [o|] eqn:Hk.
      * by apply map_lookup_filter_Some.
      * apply map_lookup_filter_None. by left.
    + apply lookup_kmap_None; [apply _|]. intros k' [= ? ?]. done.
Qed.

Lemma settle_write_status id t now s :
  bf_status <$> backfills (settle_write id t now s) !! id = (λ _, derived_status t) <$> backfills s !! id.
Proof. cbn. rewrite lookup_alter_eq. by destruct (backfills s !! id). Qed.

(** ** The tally *)
Section tally.
Context (failures : gset (string * PartitionKey)).

Definition keys_of (e : string * BfRun) : SettledRunKeys := settled_of e.1 e.2 failures.

(** A run that makes the backfill failed, or canceled. *)
Definition run_failed (e : string * BfRun) : Prop :=
  k_failed (keys_of e) ≠ [] ∨ (run_partition_key e.2 = None ∧ run_status e.2 = Failure).
Definition run_canceled (e : string * BfRun) : Prop :=
  k_canceled (keys_of e) ≠ [] ∨ (run_partition_key e.2 = None ∧ run_status e.2 = Canceled).

Record tally_ok (rs : list (string * BfRun)) (t : Tally) : Prop := {
  to_completed : t_completed t = rs ≫= k_completed ∘ keys_of;
  to_failed : t_failed t = rs ≫= k_failed ∘ keys_of;
  to_canceled : t_canceled t = rs ≫= k_canceled ∘ keys_of;
  to_any_failed : any_failed t = true ↔ ∃ e, e ∈ rs ∧ run_failed e;
  to_any_canceled : any_canceled t = true ↔ ∃ e, e ∈ rs ∧ run_canceled e
}.

Lemma exists_snoc {A} (P : A → Prop) l x : (∃ y, y ∈ l ++ [x] ∧ P y) ↔ (∃ y, y ∈ l ∧ P y) ∨ P x.
Proof. set_solver. Qed.

Lemma tally_run_ok rs t e : tally_ok rs t → tally_ok (rs ++ [e]) (tally_run failures t e).
Proof.
  intros [H1 H2 H3 H4 H5]. unfold tally_run. destruct (run_partition_key e.2) as [pk|] eqn:Hpk.
  - split; cbn; rewrite ?bind_app, ?H1, ?H2, ?H3; cbn; rewrite ?app_nil_r; [done..| |];
      rewrite exists_snoc, orb_true_iff, negb_true_iff, bool_decide_eq_false.
    + rewrite H4. unfold run_failed, keys_of. rewrite Hpk. naive_solver.
    + rewrite H5. unfold run_canceled, keys_of. rewrite Hpk. naive_solver.
  - assert (Hk : keys_of e = no_keys) by (unfold keys_of, settled_of; by rewrite Hpk).
    split; cbn; rewrite ?bind_app, ?H1, ?H2, ?H3; cbn; rewrite ?Hk; cbn; rewrite ?app_nil_r; [done..| |];
      rewrite exists_snoc, orb_true_iff, bool_decide_eq_true.
    + rewrite H4. unfold run_failed. rewrite Hk, Hpk. naive_solver.
    + rewrite H5. unfold run_canceled. rewrite Hk, Hpk. naive_solver.
Qed.

Lemma tally_fold_ok rs : tally_ok rs (foldl (tally_run failures) no_tally rs).
Proof.
  induction rs as [|e rs IH] using rev_ind; [|rewrite foldl_snoc; by apply tally_run_ok].
  split; cbn; try done; split; [done| |done|]; intros (e & []%not_elem_of_nil & _).
Qed.

(** A finished run settles each of its members. *)
Lemma keys_of_covers e pk m :
  run_terminal (run_status e.2) = true → run_partition_key e.2 = Some pk → m ∈ members pk →
  m ∈ k_completed (keys_of e) ∨ m ∈ k_failed (keys_of e) ∨ m ∈ k_canceled (keys_of e).
Proof.
  intros Ht Hpk Hm. unfold keys_of, settled_of. rewrite Hpk.
  destruct (run_status e.2); try done; cbn; rewrite ?list_elem_of_filter; [|tauto..].
  destruct (decide ((e.1, norm m) ∈ failures)); tauto.
Qed.
End tally.

(** ** The decision *)
Section decision.
Context (v : BackfillView) (rs : list (string * BfRun)) (failures : gset (string * PartitionKey)) (extra : list PartitionKey).

Definition ran_keys : gset PartitionKey := key_set (omap (λ e : string * BfRun, run_partition_key e.2) rs).

(** Keys recorded earlier that no run settles. *)
Definition kept_failed : list PartitionKey := settled_without_run ran_keys (key_set extra) (v_failed v).
Definition kept_canceled : list PartitionKey := settled_without_run ran_keys (key_set extra) (v_canceled v).

Definition key_failed (k : PartitionKey) : Prop :=
  (∃ e, e ∈ rs ∧ k ∈ norm <$> k_failed (keys_of failures e)) ∨ k ∈ norm <$> kept_failed.
Definition key_canceled (k : PartitionKey) : Prop :=
  (∃ e, e ∈ rs ∧ k ∈ norm <$> k_canceled (keys_of failures e)) ∨ k ∈ norm <$> extra ∨ k ∈ norm <$> kept_canceled.
Definition key_completed (k : PartitionKey) : Prop :=
  ∃ e, e ∈ rs ∧ k ∈ norm <$> k_completed (keys_of failures e).

(** A run without a partition that ended so. *)
Definition keyless (st : RunStatus) : Prop :=
  ∃ e, e ∈ rs ∧ run_partition_key e.2 = None ∧ run_status e.2 = st.

Lemma elem_of_norm_bind {A} (f : A → list PartitionKey) l k :
  k ∈ norm <$> (l ≫= f) ↔ ∃ x, x ∈ l ∧ k ∈ norm <$> f x.
Proof. setoid_rewrite list_elem_of_fmap. setoid_rewrite list_elem_of_bind. naive_solver. Qed.

Lemma nonempty_norm (l : list PartitionKey) : l ≠ [] ↔ ∃ k, k ∈ norm <$> l.
Proof. destruct l as [|x l]; [set_solver|]. split; [|done]. intros _. exists (norm x). set_solver. Qed.

Record decision_ok (t : Tally) : Prop := {
  do_status : bf_status (v_record v) = BfInProgress;
  do_terminal : ∀ e, e ∈ rs → run_terminal (run_status e.2) = true;
  do_accounted : ∀ k, k ∈ v_partition_keys v ≫= members →
    norm k ∈ ran_keys ∨ norm k ∈ key_set extra ∨ norm k ∈ norm <$> kept_failed ∨ norm k ∈ norm <$> kept_canceled;
  do_failed : ∀ k, k ∈ norm <$> t_failed t ↔ key_failed k;
  do_canceled : ∀ k, k ∈ norm <$> t_canceled t ↔ key_canceled k;
  do_completed : ∀ k, k ∈ norm <$> t_completed t ↔ key_completed k;
  do_any_failed : any_failed t = true ↔ (∃ k, key_failed k) ∨ keyless Failure;
  do_any_canceled : any_canceled t = true ↔ (∃ k, key_canceled k) ∨ keyless Canceled
}.

Lemma settle_decision_ok t : settle_decision v rs failures extra = Some t → decision_ok t.
Proof.
  unfold settle_decision. fold ran_keys. cbv zeta. fold kept_failed kept_canceled.
  case_bool_decide as Hst; cbn [negb]; [|done]. destruct (forallb _ rs) eqn:Hterm; cbn [negb]; [|done].
  destruct (bool_decide (rs = []) && _); [done|]. destruct (forallb _ (v_partition_keys v ≫= members)) eqn:Hacc; cbn [negb]; [|done].
  intros [= <-]. destruct (tally_fold_ok failures rs) as [H1 H2 H3 H4 H5].
  set (t := foldl _ _ rs) in *. split; cbn.
  - done.
  - rewrite forallb_forall in Hterm. intros e He%list_elem_of_In. auto.
  - rewrite forallb_forall in Hacc. intros k Hk%list_elem_of_In. specialize (Hacc k Hk).
    rewrite !orb_true_iff, !bool_decide_eq_true in Hacc. tauto.
  - intros k. unfold key_failed. rewrite fmap_app, elem_of_app, H2, elem_of_norm_bind. done.
  - intros k. unfold key_canceled. rewrite !fmap_app, !elem_of_app, H3, elem_of_norm_bind. done.
  - intros k. unfold key_completed. by rewrite H1, elem_of_norm_bind.
  - rewrite orb_true_iff, negb_true_iff, bool_decide_eq_false, nonempty_norm, H4.
    unfold key_failed, keyless, run_failed. setoid_rewrite nonempty_norm. naive_solver.
  - rewrite !orb_true_iff, !negb_true_iff, !bool_decide_eq_false, !nonempty_norm, H5.
    unfold key_canceled, keyless, run_canceled. setoid_rewrite nonempty_norm. naive_solver.
Qed.

Lemma settle_decision_total :
  bf_status (v_record v) = BfInProgress → (∀ e, e ∈ rs → run_terminal (run_status e.2) = true) →
  rs ≠ [] ∨ extra ≠ [] →
  (∀ k, k ∈ v_partition_keys v ≫= members →
    norm k ∈ ran_keys ∨ norm k ∈ key_set extra ∨ norm k ∈ norm <$> kept_failed ∨ norm k ∈ norm <$> kept_canceled) →
  is_Some (settle_decision v rs failures extra).
Proof.
  intros Hst Hterm Hne Hacc. unfold settle_decision. fold ran_keys. cbv zeta. fold kept_failed kept_canceled.
  rewrite bool_decide_eq_true_2 by done. cbn [negb].
  assert (forallb (λ e : string * BfRun, run_terminal (run_status e.2)) rs = true) as ->.
  { apply forallb_forall. intros e He%list_elem_of_In. auto. }
  cbn [negb]. assert (bool_decide (rs = []) && bool_decide (extra = []) = false) as ->.
  { apply andb_false_iff. rewrite !bool_decide_eq_false. tauto. }
  match goal with |- context [forallb ?f ?l] => assert (forallb f l = true) as -> end; [|by eexists].
  apply forallb_forall. intros k Hk%list_elem_of_In. rewrite !orb_true_iff, !bool_decide_eq_true.
  specialize (Hacc k Hk). tauto.
Qed.

(** Every requested key is settled, if the keys passed in are single ones. *)
Lemma decision_covers t k :
  decision_ok t → (∀ x, x ∈ extra → norm <$> members x = [norm x]) →
  k ∈ v_partition_keys v ≫= members → key_failed (norm k) ∨ key_canceled (norm k) ∨ key_completed (norm k).
Proof.
  intros Hd Hsingle Hk. destruct (do_accounted _ Hd k Hk) as [Hran|[Hex|[Hf|Hc]]].
  - unfold ran_keys, key_set in Hran. apply elem_of_list_to_set, elem_of_norm_bind in Hran as (pk & Hpk & Hm).
    apply list_elem_of_omap in Hpk as (e & He & Hpk). apply list_elem_of_fmap in Hm as (m & Hm & Hin). rewrite Hm.
    destruct (keys_of_covers failures e pk m (do_terminal _ Hd e He) Hpk Hin) as [H|[H|H]].
    + right; right. exists e. split; [done|by apply list_elem_of_fmap_2].
    + left; left. exists e. split; [done|by apply list_elem_of_fmap_2].
    + right; left; left. exists e. split; [done|by apply list_elem_of_fmap_2].
  - right; left; right; left. unfold key_set in Hex. apply elem_of_list_to_set, elem_of_norm_bind in Hex as (x & Hx & Hm).
    rewrite (Hsingle x Hx) in Hm. apply list_elem_of_singleton in Hm as ->. by apply list_elem_of_fmap_2.
  - left. by right.
  - right; left. by right; right.
Qed.
End decision.

Lemma derived_status_spec t :
  (derived_status t = BfCompletedFailed ↔ any_failed t = true) ∧
  (derived_status t = BfCanceled ↔ any_failed t = false ∧ any_canceled t = true) ∧
  (derived_status t = BfCompletedSuccess ↔ any_failed t = false ∧ any_canceled t = false).
Proof. unfold derived_status. destruct (any_failed t), (any_canceled t); naive_solver. Qed.

(** The outcome rows of a settled backfill. *)
Lemma settle_out_spec v rs failures extra id now s t k :
  decision_ok v rs failures extra t →
  let out := backfill_outcomes (settle_write id t now s) !! (id, k) in
  (out = Some OutFailed ↔ key_failed v rs failures extra k) ∧
  (out = Some OutCanceled ↔ ¬ key_failed v rs failures extra k ∧ key_canceled v rs failures extra k) ∧
  (out = Some OutCompleted ↔ ¬ key_failed v rs failures extra k ∧ ¬ key_canceled v rs failures extra k ∧
     key_completed rs failures k) ∧
  (out = None ↔ ¬ key_failed v rs failures extra k ∧ ¬ key_canceled v rs failures extra k ∧ ¬ key_completed rs failures k).
Proof.
  intros Hd out. unfold out. rewrite settle_write_outcomes, decide_True, settled_lookup by done.
  rewrite <-(do_failed _ _ _ _ _ Hd), <-(do_canceled _ _ _ _ _ Hd), <-(do_completed _ _ _ _ _ Hd).
  repeat case_decide; naive_solver.
Qed.

(** When a backfill settles, all its linked runs have ended, every requested partition has
    exactly one outcome (failed over canceled over completed, from its runs and from what was
    recorded without one), the other backfills keep theirs, and its status is the one the
    outcomes and its runs without a partition give. *)
Theorem settle_correct id extra now s st s' :
  (∀ k, k ∈ extra → norm <$> members k = [norm k]) →
  try_complete_backfill id extra now s = (inr (Some st), s') →
  ∃ v, get_backfill id s = Some v ∧
    let rs := get_runs_by_ids (v_run_ids v) s in
    let out k := backfill_outcomes s' !! (id, k) in
    (∀ e, e ∈ rs → run_terminal (run_status e.2) = true) ∧
    bf_status <$> backfills s' !! id = Some st ∧
    (∀ k, k ∈ v_partition_keys v ≫= members → is_Some (out (norm k))) ∧
    (∀ k, out k = Some OutFailed ↔ key_failed v rs (step_failures s) extra k) ∧
    (∀ k, out k = Some OutCanceled ↔
       ¬ key_failed v rs (step_failures s) extra k ∧ key_canceled v rs (step_failures s) extra k) ∧
    (∀ k, out k = Some OutCompleted ↔
       ¬ key_failed v rs (step_failures s) extra k ∧ ¬ key_canceled v rs (step_failures s) extra k ∧
       key_completed rs (step_failures s) k) ∧
    (∀ id' k, id' ≠ id → backfill_outcomes s' !! (id', k) = backfill_outcomes s !! (id', k)) ∧
    (st = BfCompletedFailed ↔ (∃ k, out k = Some OutFailed) ∨ keyless rs Failure) ∧
    (st = BfCompletedSuccess ↔ (∀ k o, out k = Some o → o = OutCompleted) ∧ ¬ keyless rs Failure ∧ ¬ keyless rs Canceled).
Proof.
  intros Hsingle. unfold try_complete_backfill. destruct (get_backfill id s) as [v|] eqn:Hv; [|done].
  destruct (settle_decision _ _ _ _) as [t|] eqn:Hdec; [|done]. intros [= <- <-]. exists v. split; [done|]. cbv zeta.
  apply settle_decision_ok in Hdec as Hd. set (rs := get_runs_by_ids _ _) in *.
  assert (Hout := λ k, settle_out_spec v rs (step_failures s) extra id now s t k Hd).
  destruct (derived_status_spec t) as (Df & _ & Ds).
  split_and!.
  - apply (do_terminal _ _ _ _ _ Hd).
  - rewrite settle_write_status. unfold get_backfill in Hv. by destruct (backfills s !! id).
  - intros k Hk. destruct (decision_covers _ _ _ _ _ k Hd Hsingle Hk) as [H|[H|H]]; apply not_eq_None_Some;
      intros Hn; destruct (Hout (norm k)) as (_ & _ & _ & Hnone); apply Hnone in Hn; tauto.
  - intros k. apply Hout.
  - intros k. apply Hout.
  - intros k. apply Hout.
  - intros id' k Hne. by rewrite settle_write_outcomes, decide_False.
  - rewrite Df, (do_any_failed _ _ _ _ _ Hd). setoid_rewrite (λ k, proj1 (Hout k)). done.
  - rewrite Ds, <-!not_true_iff_false, (do_any_failed _ _ _ _ _ Hd), (do_any_canceled _ _ _ _ _ Hd). split.
    + intros [Hf Hc]. split_and!; [|tauto..]. intros k [] Hk; [done| |]; destruct (Hout k) as (H1 & H2 & _); naive_solver.
    + intros (Hall & Hf & Hc). split; intros [[k Hk]|?]; try done.
      * specialize (Hall k OutFailed). destruct (Hout k) as (H1 & _). naive_solver.
      * destruct (Hout k) as (H1 & H2 & _).
        destruct (backfill_outcomes (settle_write id t now s) !! (id, k)) as [[]|] eqn:Ho.
        -- destruct (Hout k) as (_ & _ & H3 & _). naive_solver.
        -- specialize (Hall k _ Ho). done.
        -- specialize (Hall k _ Ho). done.
        -- destruct (Hout k) as (_ & _ & _ & H4). tauto.
Qed.
