(* ===== verification/BackfillRaces.v ===== *)
(** * Canceling a backfill while its runs are submitted

    The submitter, the canceler and the coordinator work on the tables at the same time;
    each transaction or query is one step. The coordinator reads the queue in one and writes
    the status of a run it chose in another, which does not look at the status again. *)

From S2P Require Import Prelude PartitionKey BackfillGroup RunQueue Backfills.

(** ** What the statements leave alone *)
Lemma record_outcome_frame r run s :
  runs (record_backfill_run_outcome r run s) = runs s ∧
  backfills (record_backfill_run_outcome r run s) = backfills s ∧
  backfill_runs (record_backfill_run_outcome r run s) = backfill_runs s ∧
  cancel_flags (record_backfill_run_outcome r run s) = cancel_flags s.
Proof.
  unfold record_backfill_run_outcome. destruct (run_launched_by run); try done.
  destruct (_ || _); [done|]. by destruct (backfills s !! backfill_id).
Qed.

(** The status a queued run has after [cancel_queued_run]. *)
Definition canceled_row (now : Z) (run : BfRun) : BfRun :=
  if cancellable (run_status run) then with_run_status Canceled (Some now) run else run.

Lemma cancel_queued_frame r now s :
  backfills (cancel_queued_run r now s).2 = backfills s ∧
  backfill_runs (cancel_queued_run r now s).2 = backfill_runs s ∧
  cancel_flags (cancel_queued_run r now s).2 = cancel_flags s.
Proof.
  unfold cancel_queued_run. cbv zeta.
  assert (Hs1 : ∀ s1, backfills s1 = backfills s ∧ backfill_runs s1 = backfill_runs s ∧ cancel_flags s1 = cancel_flags s →
    let r' := match runs s1 !! r with
              | Some run => if bool_decide (run_status run = Canceled)
                            then (true, record_backfill_run_outcome r run s1) else (false, s1)
              | None => (false, s1) end in
    backfills r'.2 = backfills s ∧ backfill_runs r'.2 = backfill_runs s ∧ cancel_flags r'.2 = cancel_flags s).
  { intros s1 Hf. destruct (runs s1 !! r) as [run|]; [|done]. case_bool_decide; [|done]. cbn.
    destruct (record_outcome_frame r run s1) as (_ & -> & -> & ->). done. }
  apply Hs1. destruct (runs s !! r) as [run|]; [|done]. by destruct (cancellable _).
Qed.

Lemma cancel_queued_runs r now s r' :
  runs (cancel_queued_run r now s).2 !! r' =
  (if decide (r' = r) then canceled_row now else id) <$> runs s !! r'.
Proof.
  unfold cancel_queued_run. cbv zeta. set (s1 := match runs s !! r with Some _ => _ | None => _ end).
  assert (Hs1 : runs s1 !! r' = (if decide (r' = r) then canceled_row now else id) <$> runs s !! r').
  { unfold s1, canceled_row. destruct (runs s !! r) as [run|] eqn:Hr.
    - destruct (cancellable (run_status run)) eqn:Hc; [cbn; destruct (decide (r' = r)) as [->|Hne]|destruct (decide (r' = r)) as [->|Hne]].
      + by rewrite lookup_insert_eq, Hr; cbn; rewrite Hc.
      + rewrite lookup_insert_ne by done. by destruct (runs s !! r').
      + by rewrite Hr; cbn; rewrite Hc.
      + by destruct (runs s !! r').
    - destruct (decide (r' = r)) as [->|Hne]; [by rewrite Hr|by destruct (runs s !! r')]. }
  rewrite <-Hs1. destruct (runs s1 !! r) as [run|]; [|done]. case_bool_decide; [|done]. cbn.
  by destruct (record_outcome_frame r run s1) as (-> & _).
Qed.

Definition status_at (id : string) (s : BackfillStore) : option BackfillStatus := bf_status <$> backfills s !! id.

(** A backfill that is over: neither requested nor in progress. *)
Definition over (id : string) (s : BackfillStore) : Prop :=
  ∃ st, status_at id s = Some st ∧ st ≠ BfRequested ∧ st ≠ BfInProgress.

Lemma settle_write_row id t now s : is_Some (backfills s !! id) → is_Some (backfills (settle_write id t now s) !! id).
Proof. intros H. cbn. rewrite lookup_alter_eq. by apply fmap_is_Some. Qed.

Lemma settle_write_over id t now s : over id s → over id (settle_write id t now s).
Proof.
  intros (st & Hst & H1 & H2). exists (derived_status t). unfold status_at in *. cbn.
  rewrite lookup_alter_eq. destruct (backfills s !! id) as [rec|]; [|done]. cbn.
  unfold derived_status. by destruct (any_failed t), (any_canceled t).
Qed.

Lemma resume_frame id s :
  runs (resume_stalled_backfill id s).2 = runs s ∧ backfill_runs (resume_stalled_backfill id s).2 = backfill_runs s.
Proof. unfold resume_stalled_backfill. destruct (backfills s !! id); [|done]. by destruct (_ && _). Qed.

Lemma resume_row id s : is_Some (backfills s !! id) → is_Some (backfills (resume_stalled_backfill id s).2 !! id).
Proof.
  intros H. unfold resume_stalled_backfill. destruct (backfills s !! id) as [rec|] eqn:E; [|by destruct H].
  destruct (_ && _); cbn; [rewrite lookup_alter_eq|]; by rewrite E.
Qed.

Lemma resume_over id s : over id s → (resume_stalled_backfill id s).2 = s.
Proof.
  intros (st & Hst & H1 & H2). unfold resume_stalled_backfill, status_at in *.
  destruct (backfills s !! id) as [rec|] eqn:Hr; [|done]. cbn in *.
  rewrite bool_decide_eq_false_2 by congruence. done.
Qed.

Lemma cancel_cas_over id now s : is_Some (backfills s !! id) → over id (cancel_cas id now s).
Proof.
  intros [rec Hrec]. unfold over, status_at. cbn. rewrite lookup_alter_eq, Hrec. cbn.
  case_bool_decide as Hin; cbn; [by exists BfCanceled|]. exists (bf_status rec). split; [done|]. set_solver.
Qed.

(** No row, or a row that is not terminal. *)
Definition unfinished (s : BackfillStore) (r : string) : bool :=
  match runs s !! r with Some run => negb (run_terminal (run_status run)) | None => true end.

(** The targets of the cascade, when both queries see the same tables. *)
Lemma cascade_targets_unfinished id s r :
  r ∈ cascade_targets id s ↔ r ∈ run_ids_of id s ∧ unfinished s r = true.
Proof.
  unfold cascade_targets, unfinished, get_runs_by_ids. cbv zeta. rewrite list_elem_of_filter.
  assert (Hin : r ∈ run_ids_of id s →
    (r ∈ (λ e : string * BfRun, e.1) <$> filter (λ e : string * BfRun, run_terminal (run_status e.2) = true)
            (omap (λ r, pair r <$> runs s !! r) (run_ids_of id s)) ↔
     ∃ run, runs s !! r = Some run ∧ run_terminal (run_status run) = true)).
  { intros Hr. rewrite list_elem_of_fmap. setoid_rewrite list_elem_of_filter. setoid_rewrite list_elem_of_omap. split.
    - intros ([r' run] & -> & Ht & r'' & _ & Heq). cbn in *. destruct (runs s !! r'') eqn:H; cbn in Heq; [|done].
      injection Heq as -> ->. eauto.
    - intros (run & Hrun & Ht). exists (r, run). split_and!; [done|done|]. exists r. by rewrite Hrun. }
  destruct (runs s !! r) as [run|] eqn:Hrun.
  - rewrite negb_true_iff. split.
    + intros [Hno Hr]. split; [done|]. apply not_true_iff_false. intros Ht. apply Hno, Hin; eauto.
    + intros [Hr Hf]. split; [|done]. intros (run' & [= <-] & Ht)%Hin; [congruence|done].
  - split; [by intros [_ ?]|]. intros [Hr _]. split; [|done]. by intros (run' & ? & _)%Hin.
Qed.

(** ** Links and rows *)
Lemma links_fold_lookup id l m k :
  is_Some (foldl (link_one id) m l !! k) ↔ is_Some (m !! k) ∨ ∃ e, e ∈ l ∧ k = (id, e.2).
Proof.
  induction l as [|e l IH] using rev_ind; [set_solver|]. rewrite foldl_snoc. unfold link_one at 1.
  setoid_rewrite elem_of_app. setoid_rewrite list_elem_of_singleton.
  destruct (foldl (link_one id) m l !! (id, e.2)) as [z|] eqn:He.
  - rewrite IH. split; [naive_solver|]. intros [?|(e' & [?| ->] & ->)]; [tauto|eauto|].
    apply IH. by rewrite He.
  - destruct (decide (k = (id, e.2))) as [->|Hne].
    + rewrite lookup_insert_eq. split; [|done]. intros _. right. exists e. auto.
    + rewrite lookup_insert_ne by done. rewrite IH. naive_solver.
Qed.

Lemma link_runs_lookup id now ids s r :
  is_Some (backfill_runs (link_runs id now ids s) !! (id, r)) ↔ is_Some (backfill_runs s !! (id, r)) ∨ r ∈ ids.
Proof.
  cbn. rewrite links_fold_lookup. f_equiv. unfold linked_now. split.
  - intros ([z r'] & (i & r'' & Heq & Hi)%elem_of_lookup_imap & [= ->]). cbn in *. injection Heq as _ ->.
    by eapply list_elem_of_lookup_2.
  - intros [i Hi]%list_elem_of_lookup. exists ((now + Z.of_nat i)%Z, r). split; [|done].
    apply elem_of_lookup_imap. eauto.
Qed.

Lemma insert_rows_lookup (m : gmap string BfRun) l :
  NoDup l.*1 →
  let m' := foldl (λ m (e : string * BfRun), <[e.1 := e.2]> m) m l in
  (∀ e, e ∈ l → m' !! e.1 = Some e.2) ∧ (∀ r, r ∉ l.*1 → m' !! r = m !! r).
Proof.
  induction l as [|e l IH] using rev_ind; intros Hnd m'; unfold m'; [set_solver|].
  rewrite fmap_app in Hnd. apply NoDup_app in Hnd as (Hnd & Hd & _). destruct (IH Hnd) as [IH1 IH2]. rewrite foldl_snoc. split.
  - intros e' [He| ->%list_elem_of_singleton]%elem_of_app; [|by rewrite lookup_insert_eq].
    rewrite lookup_insert_ne; [by apply IH1|]. intros Heq. apply (Hd e'.1); [by apply list_elem_of_fmap_2|].
    rewrite <-Heq. apply list_elem_of_here.
  - intros r. rewrite fmap_app. intros [Hr Hne]%not_elem_of_app. cbn in Hne.
    rewrite lookup_insert_ne by set_solver. by apply IH2.
Qed.

Lemma run_ids_of_linked id s r : r ∈ run_ids_of id s ↔ is_Some (backfill_runs s !! (id, r)).
Proof.
  unfold run_ids_of. rewrite list_elem_of_fmap. setoid_rewrite elem_of_sort_by. setoid_rewrite list_elem_of_filter. split.
  - intros ([[i r'] z] & -> & <- & H%elem_of_map_to_list). by eexists.
  - intros [z H]. exists ((id, r), z). split_and!; [done|done|]. by apply elem_of_map_to_list.
Qed.

(** ** Queued submission *)
Section queued.
Context (id : string) (batch : list (string * BfRun)).
Context (Hqueued : ∀ e, e ∈ batch → run_status e.2 = Queued) (Hnodup : NoDup batch.*1).

Inductive SubPc :=
| SubFlipped                     (* the status is written, the runs are not *)
| SubCommitted
| SubSweep (todo : list string)
| SubDone (live : bool).

Inductive CanPc :=
| CanIdle
| CanWritten                     (* the conditional write is through *)
| CanLinks (ids : list string)   (* the status read [Canceled], and these links *)
| CanCascade (todo : list string)
| CanFlagged (r : string) (todo : list string)
| CanDone (canceled : bool).

Record BfSys := {
  store : BackfillStore;
  sub : SubPc;
  can : CanPc;
  settling : option Tally;       (* what the monitor is about to write *)
  taken : gset string            (* runs a tick of the coordinator read queued and chose to launch *)
}.

Definition at_store (s : BackfillStore) (x : BfSys) : BfSys :=
  {| store := s; sub := sub x; can := can x; settling := settling x; taken := taken x |}.
Definition at_sub (s : BackfillStore) (p : SubPc) (x : BfSys) : BfSys :=
  {| store := s; sub := p; can := can x; settling := settling x; taken := taken x |}.
Definition at_can (s : BackfillStore) (p : CanPc) (x : BfSys) : BfSys :=
  {| store := s; sub := sub x; can := p; settling := settling x; taken := taken x |}.

Inductive bf_step (x : BfSys) : BfSys → Prop :=
| sub_commit now :
    sub x = SubFlipped → bf_step x (at_sub (enqueue_write id now batch (store x)) SubCommitted x)
| sub_check rec :
    sub x = SubCommitted → backfills (store x) !! id = Some rec →
    bf_step x (at_sub (store x) (if bool_decide (bf_status rec = BfInProgress) then SubDone true else SubSweep batch.*1) x)
| sub_sweep now r todo :
    sub x = SubSweep (r :: todo) → bf_step x (at_sub (cancel_queued_run r now (store x)).2 (SubSweep todo) x)
| sub_swept :
    sub x = SubSweep [] → bf_step x (at_sub (store x) (SubDone false) x)
| can_write now :
    can x = CanIdle → bf_step x (at_can (cancel_cas id now (store x)) CanWritten x)
| can_read rec :
    can x = CanWritten → backfills (store x) !! id = Some rec →
    bf_step x (at_can (store x) (if bool_decide (bf_status rec = BfCanceled)
                                 then CanLinks (run_ids_of id (store x)) else CanDone false) x)
| can_targets ids :
    can x = CanLinks ids →
    bf_step x (at_can (store x) (CanCascade (filter (λ r, unfinished (store x) r = true) ids)) x)
| can_flag r todo :
    can x = CanCascade (r :: todo) → bf_step x (at_can (request_cancellation r (store x)) (CanFlagged r todo) x)
| can_cancel now r todo :
    can x = CanFlagged r todo → bf_step x (at_can (cancel_queued_run r now (store x)).2 (CanCascade todo) x)
| can_finish :
    can x = CanCascade [] → bf_step x (at_can (store x) (CanDone true) x)
| coord_read r run :
    runs (store x) !! r = Some run → run_status run = Queued →
    bf_step x {| store := store x; sub := sub x; can := can x; settling := settling x; taken := {[r]} ∪ taken x |}
| coord_write r :
    r ∈ taken x → bf_step x (at_store (bf_update_run_status r NotStarted None (store x)) x)
| exec_start r s' ok :
    r ∈ taken x → try_start_run r (store x) = Some (ok, s') → bf_step x (at_store s' x)
| exec_finish r st end_time :
    r ∈ taken x → bf_step x (at_store (bf_update_run_status r st end_time (store x)) x)
| monitor_read v t :
    get_backfill id (store x) = Some v →
    settle_decision v (get_runs_by_ids (v_run_ids v) (store x)) (step_failures (store x)) [] = Some t →
    bf_step x {| store := store x; sub := sub x; can := can x; settling := Some t; taken := taken x |}
| monitor_write t now :
    settling x = Some t →
    bf_step x {| store := settle_write id t now (store x); sub := sub x; can := can x; settling := None; taken := taken x |}
| monitor_resume :
    bf_step x (at_store (resume_stalled_backfill id (store x)).2 x).

(** The backfill is in progress and its runs are not there yet. *)
Definition bf_init (x : BfSys) : Prop :=
  status_at id (store x) = Some BfInProgress ∧ (∀ e, e ∈ batch → runs (store x) !! e.1 = None) ∧
  sub x = SubFlipped ∧ can x = CanIdle ∧ settling x = None ∧ taken x = ∅.

(** ** The invariant *)
Definition over_with (T : gset string) (s : BackfillStore) (r : string) : Prop :=
  r ∈ T ∨ ∃ run, runs s !! r = Some run ∧ run_status run = Canceled.

(** A row of a committed run. *)
Definition committed (T : gset string) (s : BackfillStore) (r : string) : Prop :=
  ∃ run, runs s !! r = Some run ∧ is_Some (backfill_runs s !! (id, r)) ∧
    (r ∉ T → run_status run = Queued ∨ run_status run = Canceled).

Definition sub_ok (x : BfSys) : Prop :=
  let fin r := over_with (taken x) (store x) r in
  match sub x with
  | SubFlipped | SubCommitted => True
  | SubSweep todo => ∀ r, r ∈ batch.*1 → r ∈ todo ∨ fin r
  | SubDone false => ∀ r, r ∈ batch.*1 → fin r
  | SubDone true =>
      match can x with
      | CanIdle | CanWritten | CanDone false => True
      | CanLinks ids => ∀ r, r ∈ batch.*1 → r ∈ ids
      | CanCascade todo => ∀ r, r ∈ batch.*1 → r ∈ todo ∨ fin r
      | CanFlagged r0 todo => ∀ r, r ∈ batch.*1 → r = r0 ∨ r ∈ todo ∨ fin r
      | CanDone true => ∀ r, r ∈ batch.*1 → fin r
      end
  end.

Record bf_inv (x : BfSys) : Prop := {
  bi_row : is_Some (backfills (store x) !! id);
  bi_fresh : sub x = SubFlipped → ∀ e, e ∈ batch → runs (store x) !! e.1 = None;
  bi_committed : sub x ≠ SubFlipped → ∀ r, r ∈ batch.*1 → committed (taken x) (store x) r;
  bi_over : can x ≠ CanIdle → over id (store x);
  bi_sub : sub_ok x
}.

(** How a step moves the rows: a run nobody took keeps its status or is canceled. *)
Record moves (T : gset string) (s : BackfillStore) (T' : gset string) (s' : BackfillStore) : Prop := {
  mv_taken : T ⊆ T';
  mv_rows : ∀ r run, runs s !! r = Some run →
    ∃ run', runs s' !! r = Some run' ∧ (r ∉ T' → run_status run' = run_status run ∨ run_status run' = Canceled);
  mv_links : ∀ k, is_Some (backfill_runs s !! k) → is_Some (backfill_runs s' !! k);
  mv_row : is_Some (backfills s !! id) → is_Some (backfills s' !! id);
  mv_over : over id s → over id s'
}.

Lemma moves_fin T s T' s' r : moves T s T' s' → over_with T s r → over_with T' s' r.
Proof.
  intros Hm [?|(run & Hr & Hc)]; [left; by apply (mv_taken _ _ _ _ Hm)|].
  destruct (decide (r ∈ T')); [by left|]. destruct (mv_rows _ _ _ _ Hm _ _ Hr) as (run' & Hr' & Hs).
  right. exists run'. split; [done|]. destruct Hs; congruence.
Qed.

Lemma moves_committed T s T' s' r : moves T s T' s' → committed T s r → committed T' s' r.
Proof.
  intros Hm (run & Hr & Hl & Hs). destruct (mv_rows _ _ _ _ Hm _ _ Hr) as (run' & Hr' & Hs').
  exists run'. split_and!; [done|by apply (mv_links _ _ _ _ Hm)|]. intros Hn.
  assert (r ∉ T) as Hn' by (intros ?; apply Hn; by apply (mv_taken _ _ _ _ Hm)).
  destruct (Hs Hn'), (Hs' Hn); intuition congruence.
Qed.

(** A step that moves no program counter keeps the invariant. *)
Lemma bf_inv_moves x s' T' pend :
  bf_inv x → moves (taken x) (store x) T' s' →
  (∀ r, runs (store x) !! r = None → runs s' !! r = None) →
  bf_inv {| store := s'; sub := sub x; can := can x; settling := pend; taken := T' |}.
Proof.
  intros [H1 H2 H3 H4 H5] Hm Hnew. split; cbn.
  - by apply (mv_row _ _ _ _ Hm).
  - intros Hs e He. apply Hnew. by apply H2.
  - intros Hs r Hr. eapply moves_committed; eauto.
  - intros Hc. by apply (mv_over _ _ _ _ Hm), H4.
  - unfold sub_ok in *. cbn. pose proof (λ r, moves_fin _ _ _ _ r Hm) as Hf.
    destruct (sub x) as [| |todo|[]]; [done|done|naive_solver| |naive_solver].
    destruct (can x) as [| |ids|todo|r0 todo|[]]; try done; naive_solver.
Qed.

(** Moving a program counter on top. *)
Lemma bf_inv_at_sub x p :
  bf_inv x → (sub x = SubFlipped ↔ p = SubFlipped) → sub_ok (at_sub (store x) p x) → bf_inv (at_sub (store x) p x).
Proof. intros [H1 H2 H3 H4 H5] Hp Hs. split; cbn; try done; naive_solver. Qed.

Lemma bf_inv_at_can x p :
  bf_inv x → (p ≠ CanIdle → over id (store x)) → sub_ok (at_can (store x) p x) → bf_inv (at_can (store x) p x).
Proof. intros [H1 H2 H3 H4 H5] Hp Hs. split; cbn; try done; naive_solver. Qed.

(** ** The statements move rows *)
Lemma cancel_queued_moves T r now s : moves T s T (cancel_queued_run r now s).2.
Proof.
  destruct (cancel_queued_frame r now s) as (Hb & Hl & _). split; [done| | | |].
  - intros r' run Hr. rewrite cancel_queued_runs, Hr. eexists. split; [done|]. intros _.
    destruct (decide (r' = r)); [|by left]. unfold canceled_row. destruct (cancellable _); [by right|by left].
  - intros k. by rewrite Hl.
  - by rewrite Hb.
  - unfold over, status_at. by rewrite Hb.
Qed.

Lemma same_rows_moves T s s' :
  runs s' = runs s → backfill_runs s' = backfill_runs s →
  (is_Some (backfills s !! id) → is_Some (backfills s' !! id)) → (over id s → over id s') → moves T s T s'.
Proof.
  intros Hr Hl Hb Ho. split; [done| | |done|done]; [|by rewrite Hl].
  intros r run. rewrite Hr. intros H. exists run. split; [done|by left].
Qed.

Lemma taken_row_moves T T' s r run' s' :
  runs s' = <[r := run']> (runs s) → backfill_runs s' = backfill_runs s → backfills s' = backfills s →
  T ⊆ T' → r ∈ T' → moves T s T' s'.
Proof.
  intros Hr Hl Hb HT Hin. split; [done| | | |].
  - intros q run Hq. rewrite Hr. destruct (decide (q = r)) as [->|Hne].
    + rewrite lookup_insert_eq. by exists run'.
    + rewrite lookup_insert_ne by done. exists run. split; [done|by left].
  - by rewrite Hl.
  - by rewrite Hb.
  - unfold over, status_at. by rewrite Hb.
Qed.

Lemma write_run_status_moves T r allowed st end_time s :
  r ∈ T → moves T s T (write_run_status r allowed st end_time s).2.
Proof.
  intros Hin. unfold write_run_status. destruct (runs s !! r) as [run|]; [|by apply same_rows_moves].
  destruct (allowed _); [|by apply same_rows_moves]. cbn [snd].
  set (run' := with_run_status _ _ _). destruct (record_outcome_frame r run' (set_runs (<[r := run']>) s)) as (H1 & H2 & H3 & _).
  by apply (taken_row_moves T T s r run').
Qed.

Lemma taken_more_moves T T' s : T ⊆ T' → moves T s T' s.
Proof. intros HT. split; [done| |done|done|done]. intros r run Hr. exists run. split; [done|by left]. Qed.

Lemma update_run_status_new r st end_time s r' : runs s !! r' = None → runs (bf_update_run_status r st end_time s) !! r' = None.
Proof.
  intros Hr'. unfold bf_update_run_status, write_run_status. destruct (runs s !! r) as [run|] eqn:Hrun; [|done]. cbn [snd].
  set (run' := with_run_status _ _ _). destruct (record_outcome_frame r run' (set_runs (<[r := run']>) s)) as (-> & _).
  cbn. rewrite lookup_insert_ne; [done|]. intros ->. congruence.
Qed.

Lemma try_start_moves T r s ok s' : r ∈ T → try_start_run r s = Some (ok, s') → moves T s T s'.
Proof.
  intros Hin. unfold try_start_run. destruct (runs s !! r) as [run|]; [|done]. case_bool_decide; intros [= <- <-].
  - by apply same_rows_moves.
  - by eapply taken_row_moves.
Qed.

Lemma new_rows_only s s' :
  (∀ r, is_Some (runs s' !! r) → is_Some (runs s !! r)) → ∀ r, runs s !! r = None → runs s' !! r = None.
Proof. intros H r Hr. destruct (runs s' !! r) eqn:E; [|done]. destruct (H r); [by eexists|congruence]. Qed.

(** The submission commits: every run of the batch has its row and its link. *)
Lemma enqueue_write_spec now T s :
  (∀ e, e ∈ batch → runs s !! e.1 = None) →
  let s' := enqueue_write id now batch s in
  moves T s T s' ∧ (∀ r, r ∈ batch.*1 → committed T s' r).
Proof.
  intros Hfresh s'. unfold s', enqueue_write.
  assert (Hno : existsb (λ e : string * BfRun, bool_decide (is_Some (runs s !! e.1))) batch = false).
  { apply not_true_iff_false. intros (e & He%list_elem_of_In & Hs)%existsb_exists.
    rewrite (Hfresh e He) in Hs. apply bool_decide_eq_true in Hs as [? Hx]. discriminate Hx. }
  rewrite Hno. destruct (insert_rows_lookup (runs s) batch Hnodup) as [Hin Hout]. split.
  - split; [done| | |done|done].
    + intros r run Hr. exists run. split; [|by left]. cbn. rewrite Hout; [done|].
      intros (e & -> & He)%list_elem_of_fmap. rewrite (Hfresh e He) in Hr. discriminate Hr.
    + intros k Hk. apply links_fold_lookup. by left.
  - intros r (e & -> & He)%list_elem_of_fmap. exists e.2. split_and!.
    + by apply Hin.
    + apply link_runs_lookup. right. by apply list_elem_of_fmap_2.
    + intros _. left. by apply Hqueued.
Qed.

Lemma cancel_fin T r now s : committed T s r → over_with T (cancel_queued_run r now s).2 r.
Proof.
  intros (run & Hr & _ & Hs). destruct (decide (r ∈ T)) as [|Hn]; [by left|]. right.
  rewrite cancel_queued_runs, decide_True, Hr by done. eexists. split; [done|].
  unfold canceled_row. destruct (Hs Hn) as [E|E]; rewrite E; cbn; congruence.
Qed.

Lemma inv_sub_sweep x now r todo :
  bf_inv x → sub x = SubSweep (r :: todo) →
  bf_inv (at_sub (cancel_queued_run r now (store x)).2 (SubSweep todo) x).
Proof.
  intros Hi Hs. pose proof Hi as [Hrow Hfresh Hcom Hover Hsub]. unfold sub_ok in Hsub.
  pose proof (bf_inv_moves x _ _ (settling x) Hi (cancel_queued_moves (taken x) r now (store x))) as Hi'.
  apply (bf_inv_at_sub (at_store _ x)); [apply Hi'|cbn; by rewrite Hs|].
  - intros r' Hr'. by rewrite cancel_queued_runs, Hr'.
  - unfold sub_ok. cbn. rewrite Hs in Hsub. intros r' Hb. destruct (Hsub r' Hb) as [[->|?]%elem_of_cons|Hf]; [|by left|].
    * right. apply cancel_fin, Hcom; [by rewrite Hs|done].
    * right. eapply moves_fin; [apply cancel_queued_moves|done].
Qed.

Lemma inv_can_write x now :
  bf_inv x → can x = CanIdle →
  bf_inv (at_can (cancel_cas id now (store x)) CanWritten x).
Proof.
  intros Hi Hc. pose proof Hi as [Hrow Hfresh Hcom Hover Hsub]. unfold sub_ok in Hsub.
  assert (Hm : moves (taken x) (store x) (taken x) (cancel_cas id now (store x))).
  { apply same_rows_moves; [done|done| |intros _; by apply cancel_cas_over].
    intros _. cbn. rewrite lookup_alter_eq. by apply fmap_is_Some. }
  apply (bf_inv_at_can (at_store _ x)); [by apply (bf_inv_moves x _ _ _ Hi Hm)|intros _; by apply cancel_cas_over|].
  pose proof (bi_sub _ (bf_inv_moves x _ _ (settling x) Hi Hm (λ r Hr, Hr))) as Hsub'. unfold sub_ok in *. cbn in *. rewrite Hc in Hsub'.
  by destruct (sub x) as [| | |[]].
Qed.

Lemma inv_can_targets x ids :
  bf_inv x → can x = CanLinks ids →
  bf_inv (at_can (store x) (CanCascade (filter (λ r, unfinished (store x) r = true) ids)) x).
Proof.
  intros Hi Hc. pose proof Hi as [Hrow Hfresh Hcom Hover Hsub]. unfold sub_ok in Hsub.
  apply bf_inv_at_can; [done|intros _; apply Hover; by rewrite Hc|]. unfold sub_ok. cbn.
  destruct (sub x) as [| | |[]] eqn:Hs; try done. rewrite Hc in Hsub. intros r Hr.
  rewrite list_elem_of_filter. unfold unfinished, over_with.
  destruct (Hcom ltac:(done) r Hr) as (run & Hrun & _ & Hst). rewrite Hrun.
  destruct (decide (r ∈ taken x)) as [|Hn]; [by right; left|]. destruct (Hst Hn) as [E|E]; rewrite E; [left|right; right; eauto].
  split; [done|by apply Hsub].
Qed.

Lemma inv_can_cancel x now r todo :
  bf_inv x → can x = CanFlagged r todo →
  bf_inv (at_can (cancel_queued_run r now (store x)).2 (CanCascade todo) x).
Proof.
  intros Hi Hc. pose proof Hi as [Hrow Hfresh Hcom Hover Hsub]. unfold sub_ok in Hsub.
  pose proof (cancel_queued_moves (taken x) r now (store x)) as Hm.
  apply (bf_inv_at_can (at_store _ x)).
  - apply (bf_inv_moves x _ _ _ Hi Hm). intros r' Hr'. by rewrite cancel_queued_runs, Hr'.
  - intros _. apply (mv_over _ _ _ _ Hm), Hover. by rewrite Hc.
  - pose proof (λ r, moves_fin _ _ _ _ r Hm) as Hf. unfold sub_ok in *. cbn.
    destruct (sub x) as [| |todo'|[]] eqn:Hs; try done; [naive_solver| |naive_solver].
    rewrite Hc in Hsub. intros r' Hr'. destruct (Hsub r' Hr') as [->|[?|?]]; [|by left|by right; apply Hf].
    right. by apply cancel_fin, Hcom.
Qed.

Lemma bf_inv_step x x' : bf_inv x → bf_step x x' → bf_inv x'.
Proof.
  intros Hi Hstep. pose proof Hi as [Hrow Hfresh Hcom Hover Hsub]. unfold sub_ok in Hsub.
  destruct Hstep as [now Hs|rec Hs Hrec|now r todo Hs|Hs|now Hc|rec Hc Hrec|ids Hc|r todo Hc|now r todo Hc|Hc
                    |r run Hr Hq|r Hin|r s' ok Hin Hst|r st t Hin|v t Hv Hd|t now Ht|].
  - destruct (enqueue_write_spec now (taken x) (store x) (Hfresh Hs)) as [Hm Hc].
    split; cbn; [by apply (mv_row _ _ _ _ Hm)|done|done| |done]. intros Hn. by apply (mv_over _ _ _ _ Hm), Hover.
  - apply bf_inv_at_sub; [done|rewrite Hs; by case_bool_decide|]. unfold sub_ok, at_sub. cbn.
    case_bool_decide as Hp; [|by left]. destruct (can x) eqn:Hcx; try done;
      (destruct Hover as (st & Hst & _ & Hne); [done|]; unfold status_at in Hst; rewrite Hrec in Hst; cbn in Hst; congruence).
  - by apply inv_sub_sweep.
  - apply bf_inv_at_sub; [done|by rewrite Hs|]. unfold sub_ok. cbn. rewrite Hs in Hsub. intros r Hr.
    destruct (Hsub r Hr) as [?%not_elem_of_nil|?]; done.
  - by apply inv_can_write.
  - apply bf_inv_at_can; [done|intros _; apply Hover; by rewrite Hc|]. unfold sub_ok. cbn.
    destruct (sub x) as [| | |[]] eqn:Hs; try done. case_bool_decide; [|done]. intros r Hr.
    apply run_ids_of_linked. destruct (Hcom ltac:(done) r Hr) as (run & _ & ? & _). done.
  - by apply inv_can_targets.
  - assert (Hm : moves (taken x) (store x) (taken x) (request_cancellation r (store x))) by by apply same_rows_moves.
    apply (bf_inv_at_can (at_store _ x)); [by apply (bf_inv_moves x _ _ _ Hi Hm)|intros _; apply Hover; by rewrite Hc|].
    unfold sub_ok. cbn. destruct (sub x) as [| | |[]]; try done. rewrite Hc in Hsub. intros r' Hr'.
    destruct (Hsub r' Hr') as [[->|?]%elem_of_cons|?]; auto.
  - by apply inv_can_cancel.
  - apply bf_inv_at_can; [done|intros _; apply Hover; by rewrite Hc|]. unfold sub_ok. cbn.
    destruct (sub x) as [| | |[]] eqn:Hs; try done. rewrite Hc in Hsub. intros r Hr.
    destruct (Hsub r Hr) as [?%not_elem_of_nil|?]; done.
  - apply (bf_inv_moves x); [done|apply taken_more_moves; set_solver|done].
  - apply (bf_inv_moves x); [done|by apply write_run_status_moves|apply update_run_status_new].
  - apply (bf_inv_moves x); [done|by eapply try_start_moves|]. intros r' Hr'. revert Hst. unfold try_start_run.
    destruct (runs (store x) !! r) as [run|] eqn:Hrun; [|done]. case_bool_decide; intros [= <- <-]; [done|].
    cbn. rewrite lookup_insert_ne; [done|]. intros ->. congruence.
  - apply (bf_inv_moves x); [done|by apply write_run_status_moves|apply update_run_status_new].
  - apply (bf_inv_moves x); [done|by apply same_rows_moves|done].
  - apply (bf_inv_moves x); [done|apply same_rows_moves; [done|done|apply settle_write_row|apply settle_write_over]|done].
  - apply (bf_inv_moves x); [done| |].
    + apply same_rows_moves; [by apply resume_frame..|apply resume_row|].
      intros Ho. by rewrite resume_over.
    + by rewrite (proj1 (resume_frame id (store x))).
Qed.

Lemma bf_inv_init x : bf_init x → bf_inv x.
Proof.
  intros (Hst & Hf & Hs & Hc & _). unfold status_at in Hst.
  split; [by destruct (backfills (store x) !! id); [eexists|]|auto|congruence|congruence|unfold sub_ok; by rewrite Hs].
Qed.

Lemma bf_inv_reach x0 x : bf_init x0 → rtc bf_step x0 x → bf_inv x.
Proof. intros Hi%bf_inv_init Hs. revert Hi. induction Hs; [done|]. eauto using bf_inv_step. Qed.
End queued.
