(* ===== verification/BackfillExec.v ===== *)
(** Running a backfill (python/src/repository/backfill.rs) and what it gives. *)

From S2P Require Import Prelude PartitionKey PartitionJson BackfillGroup RunQueue Backfills BackfillSettle BackfillRaces.

(** * Running a backfill (python/src/repository/backfill.rs)

    [execute_backfill_with] runs the groups one after the other in the process;
    [execute_backfill_queued_inner] submits them all to the queue. What the runs do to
    the tables, and what other parties commit in between, are arguments. *)
(** How the attempt to run one group ends. *)
Inductive GroupEvent :=
| LinkError                                       (* the storage failed the link *)
| LaunchError                                     (* the launch failed before the run had a row *)
| Ran (st : RunStatus) (step_failed : list PartitionKey) (success : bool).

(** Why a backfill is not executed. *)
Inductive ExecError := NotFound | NotRequested (st : BackfillStatus) | VerbChanged | SubmitFailed.

Record ExecState := {
  ex_store : BackfillStore;
  ex_cancel : bool;
  ex_stop : bool;
  ex_canceled : list PartitionKey
}.

Definition add_failures (r : string) (keys : list PartitionKey) (s : BackfillStore) : BackfillStore :=
  {| runs := runs s; step_failures := list_to_set (pair r ∘ norm <$> keys) ∪ step_failures s; cancel_flags := cancel_flags s;
     backfills := backfills s; backfill_keys := backfill_keys s; backfill_runs := backfill_runs s;
     backfill_outcomes := backfill_outcomes s |}.

(** A run of the backfill, from its [Started] row to its last status write. *)
Definition run_to_end (id r : string) (pk : PartitionKey) (now : Z) (st : RunStatus) (step_failed : list PartitionKey)
    (s : BackfillStore) : BackfillStore :=
  let row := {| run_status := Started; run_partition_key := Some pk; run_end_time := None;
                run_launched_by := ByBackfill id |} in
  bf_update_run_status r st (Some now) (add_failures r step_failed (set_runs (<[r := row]>) s)).

Section exec.
Context (print : Json → string) (parse : string → option Json).
Context (fresh : nat → string).                                 (* the run ids minted *)
Context (other : nat → BackfillStore → BackfillStore * bool).   (* before group [i]: commits, and whether the flag is raised *)
Context (event : nat → GroupEvent).
Context (jobs_info : gmap string (option string)).              (* the action of a known job *)
Context (id : string) (now : Z).

(** The error, when the job now runs another verb. *)
Definition ensure_job_verb (job_name : string) (expected : option string) : option string :=
  match jobs_info !! job_name with
  | None => None
  | Some action =>
      let current := default "materialize" action in
      let expected := default "materialize" expected in
      if String.eqb current expected then None
      else Some ("job '" +:+ job_name +:+ "' now runs '" +:+ current +:+ "', not '" +:+ expected +:+ "'")
  end.

Definition fail_backfill_if_job_verb_changed (rec : BackfillRecord) (s : BackfillStore) : option BackfillStore :=
  match bf_job_name rec with
  | None => None
  | Some job_name =>
      (λ e, fail_backfill id ("ExecutionError: " +:+ e) now s) <$> ensure_job_verb job_name (bf_action rec)
  end.

Definition skip_group (group : list PartitionKey) (cancel stop : bool) (keys : list PartitionKey) (s : BackfillStore) : ExecState :=
  {| ex_store := s; ex_cancel := cancel; ex_stop := stop; ex_canceled := keys ++ group |}.

(** One turn of the loop over the groups. *)
Definition exec_group (policy : BackfillFailurePolicy) (x : ExecState) (i : nat) (group : list PartitionKey) : ExecState :=
  let (s, flag) := other i (ex_store x) in
  let cancel := ex_cancel x || flag in
  if cancel || ex_stop x then skip_group group cancel (ex_stop x) (ex_canceled x) s
  else
    let failed_launch s := update_backfill_progress id now [] [] group [] s in
    let after s success :=
      {| ex_store := s; ex_cancel := cancel;
         ex_stop := ex_stop x || (negb success && match policy with StopOnFailure => true | Continue => false end);
         ex_canceled := ex_canceled x |} in
    match event i with
    | LinkError =>
        {| ex_store := failed_launch s; ex_cancel := cancel; ex_stop := ex_stop x; ex_canceled := ex_canceled x |}
    | ev =>
        let (live, s) := link_backfill_run id now (fresh i) (λ s, s) s in
        if negb live then skip_group group true (ex_stop x) (ex_canceled x) s
        else
          match ev with
          | Ran st step_failed success =>
              after (run_to_end id (fresh i) (bundle_keys print parse group) now st step_failed s) success
          | _ => after (failed_launch s) false
          end
    end.

Fixpoint exec_groups (policy : BackfillFailurePolicy) (x : ExecState) (i : nat) (groups : list (list PartitionKey)) : ExecState :=
  match groups with
  | [] => x
  | group :: rest => exec_groups policy (exec_group policy x i group) (S i) rest
  end.

Definition execute_backfill_with (s : BackfillStore) : (ExecError + unit) * BackfillStore :=
  match get_backfill id s with
  | None => (inl NotFound, s)
  | Some v =>
      let rec := v_record v in
      if negb (bool_decide (bf_status rec = BfRequested)) then (inl (NotRequested (bf_status rec)), s)
      else match fail_backfill_if_job_verb_changed rec s with
      | Some s => (inl VerbChanged, s)
      | None =>
        let s := update_backfill_status id BfInProgress None s in
        let groups := group_into_runs (bf_strategy rec) (v_partition_keys v) in
        let x := exec_groups (bf_failure_policy rec)
                   {| ex_store := s; ex_cancel := false; ex_stop := false; ex_canceled := [] |} 0 groups in
        let s := (try_complete_backfill id (ex_canceled x) now (ex_store x)).2 in
        (inr tt, if ex_cancel x && negb (bool_decide (ex_canceled x = []))
                 then update_backfill_status id BfCanceled (Some now) s else s)
      end
  end.

(** The queued path: [before] is what others commit between the status read and the flip,
    [mid] between the commit of the batch and the read behind it; [rejected] is the error
    of the checks before the batch. *)
Definition queued_run (group : list PartitionKey) : BfRun :=
  {| run_status := Queued; run_partition_key := Some (bundle_keys print parse group); run_end_time := None;
     run_launched_by := ByBackfill id |}.

Definition submitted (groups : list (list PartitionKey)) : list (string * BfRun) :=
  imap (λ i g, (fresh i, queued_run g)) groups.

Definition execute_backfill_queued_inner (rejected : option string) (before mid : BackfillStore → BackfillStore) (s : BackfillStore)
    : (ExecError + unit) * BackfillStore :=
  match get_backfill id s with
  | None => (inl NotFound, s)
  | Some v =>
      let rec := v_record v in
      if negb (bool_decide (bf_status rec = BfRequested)) then (inl (NotRequested (bf_status rec)), s)
      else match fail_backfill_if_job_verb_changed rec s with
      | Some s => (inl VerbChanged, s)
      | None =>
        let s := update_backfill_status id BfInProgress None (before s) in
        let records := submitted (group_into_runs (bf_strategy rec) (v_partition_keys v)) in
        match rejected with
        | Some e => (inl SubmitFailed, fail_backfill id e now s)
        | None =>
            match enqueue_backfill_runs id now records mid s with
            | (inl _, s) =>
                (inl SubmitFailed,
                 fail_backfill id ("ExecutionError: Failed to enqueue runs: backfill '" +:+ id +:+ "' not found") now s)
            | (inr _, s) => (inr tt, s)
            end
        end
      end
  end.
End exec.

(** * What running a backfill in the process gives

    The fate of a group depends on the events alone; the executor, the outcome rows its
    runs write and the settling behind the loop together give every key the outcome of
    its group. *)
(** ** Concrete keys *)
Lemma members_concrete k : concrete k = true → members k = [norm k].
Proof. intros H. unfold members. by rewrite members_preview_all, concrete_members. Qed.

Lemma concrete_norm k : concrete (norm k) = concrete k.
Proof.
  destruct k as [| dims|]; cbn; try done. apply eq_true_iff_eq. rewrite !forallb_Forall.
  unfold sort_dims. by rewrite sort_by_perm.
Qed.

Lemma key_set_concrete keys k :
  Forall (λ k, concrete k = true) keys → k ∈ key_set keys ↔ k ∈ norm <$> keys.
Proof.
  intros H. unfold key_set. rewrite elem_of_list_to_set, elem_of_norm_bind, list_elem_of_fmap.
  rewrite Forall_forall in H. split.
  - intros (x & Hx & Hk). rewrite members_concrete in Hk by auto. cbn in Hk.
    apply list_elem_of_singleton in Hk. rewrite norm_idemp in Hk. eauto.
  - intros (x & -> & Hx). exists x. split; [done|]. rewrite members_concrete by auto. cbn.
    rewrite norm_idemp. apply list_elem_of_here.
Qed.

Lemma mjoin_disjoint {A} (ls : list (list A)) i j a b x :
  NoDup (mjoin ls) → ls !! i = Some a → ls !! j = Some b → x ∈ a → x ∈ b → i = j.
Proof.
  revert i j. induction ls as [|l ls IH]; intros i j Hnd Hi Hj Ha Hb; [done|].
  cbn in Hnd. apply NoDup_app in Hnd as (_ & Hd & Hnd).
  assert (Hin : ∀ n c, ls !! n = Some c → x ∈ c → x ∈ mjoin ls).
  { intros n c Hn Hc. apply list_elem_of_join. exists c. split; [done|by eapply list_elem_of_lookup_2]. }
  destruct i as [|i], j as [|j]; cbn in *; [done| | |f_equal; by eapply IH].
  - injection Hi as <-. exfalso. by eapply Hd, Hin.
  - injection Hj as <-. exfalso. by eapply Hd, Hin.
Qed.

Lemma elem_of_norm_filter (P : PartitionKey → Prop) `{∀ k, Decision (P k)} (l : list PartitionKey) k :
  k ∈ norm <$> filter (λ m, P (norm m)) l ↔ k ∈ norm <$> l ∧ P k.
Proof. rewrite !list_elem_of_fmap. setoid_rewrite list_elem_of_filter. naive_solver. Qed.

(** ** The fates *)
Inductive Fate :=
| FSkipped
| FNotLaunched
| FRan (st : RunStatus) (step_failed : list PartitionKey).

Section fates.
Context (policy : BackfillFailurePolicy) (event : nat → GroupEvent).

Definition stops (ev : GroupEvent) : bool :=
  match policy, ev with
  | StopOnFailure, LaunchError => true
  | StopOnFailure, Ran _ _ success => negb success
  | _, _ => false
  end.

(** Whether a group before [i] stopped the backfill. *)
Fixpoint stop_at (i : nat) : bool :=
  match i with O => false | S i => stop_at i || stops (event i) end.

Definition group_fate (i : nat) : Fate :=
  if stop_at i then FSkipped
  else match event i with LinkError | LaunchError => FNotLaunched | Ran st failed _ => FRan st failed end.
End fates.

(** The outcome of a key of a group. *)
Definition fate_outcome (f : Fate) (k : PartitionKey) : Outcome :=
  match f with
  | FSkipped => OutCanceled
  | FNotLaunched => OutFailed
  | FRan Success failed => if bool_decide (k ∈ norm <$> failed) then OutFailed else OutCompleted
  | FRan Canceled _ => OutCanceled
  | FRan _ _ => OutFailed
  end.

(** A finished run's row. *)
Definition ended_row (id : string) (pk : PartitionKey) (st : RunStatus) (now : Z) : BfRun :=
  {| run_status := st; run_partition_key := Some pk; run_end_time := Some now; run_launched_by := ByBackfill id |}.

(** The rows a finished run writes are of its members. *)
Lemma settled_of_rows r run pk failures k :
  run_partition_key run = Some pk →
  let K := settled_of r run failures in
  settled (k_completed K) (k_failed K) (k_canceled K) !! k ≠ None → k ∈ norm <$> members pk.
Proof.
  intros Hpk K. rewrite settled_lookup. unfold K, settled_of. rewrite Hpk.
  assert (Hsub : ∀ P `{∀ x, Decision (P x)}, k ∈ norm <$> filter P (members pk) → k ∈ norm <$> members pk).
  { intros P ?. rewrite !list_elem_of_fmap. setoid_rewrite list_elem_of_filter. naive_solver. }
  destruct (run_status run); cbn; try done; repeat case_decide; intros Hne; first [done|by eapply Hsub|set_solver].
Qed.

Lemma run_to_end_spec id r pk now st failed s rec :
  backfills s !! id = Some rec → run_terminal st = true →
  let s' := run_to_end id r pk now st failed s in
  runs s' = <[r := ended_row id pk st now]> (runs s) ∧
  step_failures s' = list_to_set (pair r ∘ norm <$> failed) ∪ step_failures s ∧
  backfills s' = backfills s ∧ backfill_keys s' = backfill_keys s ∧ backfill_runs s' = backfill_runs s ∧
  (∀ k o, backfill_outcomes s' !! (id, k) = Some o → backfill_outcomes s !! (id, k) = Some o ∨ k ∈ norm <$> members pk) ∧
  (∀ k, k ∉ norm <$> members pk → backfill_outcomes s' !! (id, k) = backfill_outcomes s !! (id, k)).
Proof.
  intros Hrec Ht. cbv zeta. unfold run_to_end, bf_update_run_status, write_run_status. cbn [runs add_failures set_runs].
  rewrite lookup_insert_eq. cbn [snd]. fold (ended_row id pk st now).
  unfold record_backfill_run_outcome. cbn -[settled settled_of]. rewrite Ht, Hrec. cbn -[settled settled_of]. rewrite insert_insert_eq.
  set (K := settled_of _ _ _). 
  assert (Hout : ∀ k, settled (k_completed K) (k_failed K) (k_canceled K) !! k ≠ None → k ∈ norm <$> members pk).
  { intros k. by apply settled_of_rows. }
  split_and!; try done.
  - intros k o [Hk|[_ Hk]]%lookup_union_Some_raw; [|by left]. right.
    rewrite (lookup_kmap (pair id)) in Hk. apply Hout. by rewrite Hk.
  - intros k Hk. apply lookup_union_r. rewrite (lookup_kmap (pair id)). apply dec_stable.
    intros Hn. by apply Hk, Hout.
Qed.

(** ** The loop *)
Section loop.
Context (print : Json → string) (parse : string → option Json).
Context (fresh : nat → string) (event : nat → GroupEvent) (policy : BackfillFailurePolicy) (id : string) (now : Z).
Context (rec : BackfillRecord) (keys : list PartitionKey) (groups : list (list PartitionKey)).
Context (Hfresh : ∀ i j, fresh i = fresh j → i = j).
Context (Hended : ∀ i st failed success, event i = Ran st failed success → run_terminal st = true).
Context (Hrec : bf_status rec = BfInProgress).
Context (Hconcrete : ∀ i g, groups !! i = Some g → Forall (λ k, concrete k = true) g ∧ (lenN g <= usize_max)%N).
Context (Hdistinct : NoDup (mjoin (fmap norm <$> groups))).

#[local] Abbreviation fate := (group_fate policy event).
#[local] Abbreviation nobody := (λ _ s, (s, false)).

Definition linked (i : nat) : Prop := stop_at policy event i = false ∧ event i ≠ LinkError.

Definition row_at (i : nat) : option BfRun :=
  match fate i, groups !! i with
  | FRan st _, Some g => Some (ended_row id (bundle_keys print parse g) st now)
  | _, _ => None
  end.

(** After [n] groups. *)
Record exec_inv (n : nat) (x : ExecState) : Prop := {
  ei_rec : backfills (ex_store x) !! id = Some rec;
  ei_keys : default [] (backfill_keys (ex_store x) !! id) = keys;
  ei_cancel : ex_cancel x = false;
  ei_stop : ex_stop x = stop_at policy event n;
  ei_canceled : ∀ k, k ∈ ex_canceled x ↔ ∃ j g, (j < n)%nat ∧ groups !! j = Some g ∧ fate j = FSkipped ∧ k ∈ g;
  ei_links : ∀ r, is_Some (backfill_runs (ex_store x) !! (id, r)) ↔ ∃ j, (j < n)%nat ∧ r = fresh j ∧ linked j;
  ei_runs : ∀ j, runs (ex_store x) !! fresh j = if decide (j < n)%nat then row_at j else None;
  ei_failures : ∀ j k, (fresh j, k) ∈ step_failures (ex_store x) ↔
    (j < n)%nat ∧ ∃ st failed, fate j = FRan st failed ∧ k ∈ norm <$> failed;
  ei_out : ∀ k o, backfill_outcomes (ex_store x) !! (id, k) = Some o →
    ∃ j g, (j < n)%nat ∧ groups !! j = Some g ∧ k ∈ norm <$> g ∧
      (fate j = FNotLaunched ∧ o = OutFailed ∨ ∃ st failed, fate j = FRan st failed);
  ei_lost : ∀ j g k, (j < n)%nat → groups !! j = Some g → fate j = FNotLaunched → k ∈ norm <$> g →
    backfill_outcomes (ex_store x) !! (id, k) = Some OutFailed
}.

Lemma groups_disjoint i j a b k :
  groups !! i = Some a → groups !! j = Some b → k ∈ norm <$> a → k ∈ norm <$> b → i = j.
Proof.
  intros Hi Hj. eapply mjoin_disjoint; [exact Hdistinct|by rewrite list_lookup_fmap, Hi|by rewrite list_lookup_fmap, Hj].
Qed.

Lemma bundle_members i g k :
  groups !! i = Some g → k ∈ norm <$> members (bundle_keys print parse g) ↔ k ∈ norm <$> g.
Proof. intros Hi. destruct (Hconcrete i g Hi) as [H1 H2]. by rewrite (bundle_keys_exact print parse g H1 H2). Qed.

Lemma ei_skip n x g :
  exec_inv n x → groups !! n = Some g → stop_at policy event n = true →
  exec_inv (S n) (exec_group print parse fresh nobody event id now policy x n g).
Proof.
  intros [H1 Hkeys H2 H3 H4 H5 H6 H7 H8 H9] Hg Hstop. unfold exec_group. rewrite H2, H3, Hstop. cbn.
  assert (Hf : fate n = FSkipped) by (unfold group_fate; by rewrite Hstop).
  split; cbn; rewrite ?Hstop; try done.
  - intros k. rewrite elem_of_app, H4. split.
    + intros [(j & g' & ? & ?)|Hk]; [exists j, g'; intuition lia|exists n, g; split_and!; [lia|done..]].
    + intros (j & g' & Hj & Hg' & Hs & Hk). destruct (decide (j = n)) as [->|]; [right; congruence|left].
      exists j, g'. split_and!; [lia|done..].
  - intros r. rewrite H5. split; intros (j & Hj & -> & Hl).
    + exists j. split_and!; [lia|done..].
    + exists j. split_and!; [|done..]. assert (j ≠ n) by (intros ->; destruct Hl; congruence). lia.
  - intros j. rewrite H6. destruct (decide (j = n)) as [->|].
    + rewrite decide_False, decide_True by lia. unfold row_at. by rewrite Hf.
    + by repeat case_decide; try lia.
  - intros j k. rewrite H7. split; intros (Hj & st & fl & Hfa & Hk); (split; [|by eauto]); [lia|].
    assert (j ≠ n) by (intros ->; congruence). lia.
  - intros k o Ho. destruct (H8 k o Ho) as (j & g' & ? & ?). exists j, g'. split; [lia|done].
  - intros j g' k Hj Hg' Hn Hk. apply (H9 j g'); [|done..]. assert (j ≠ n) by (intros ->; congruence). lia.
Qed.

(** What the turn of a group that is not skipped does to the tables. *)
Record turn_ok (n : nat) (g : list PartitionKey) (s s' : BackfillStore) : Prop := {
  tk_rec : backfills s' !! id = backfills s !! id;
  tk_keys : backfill_keys s' !! id = backfill_keys s !! id;
  tk_links : ∀ r, is_Some (backfill_runs s' !! (id, r)) ↔
    is_Some (backfill_runs s !! (id, r)) ∨ (r = fresh n ∧ event n ≠ LinkError);
  tk_row : runs s' !! fresh n = row_at n;
  tk_runs : ∀ r, r ≠ fresh n → runs s' !! r = runs s !! r;
  tk_failures : ∀ r k, (r, k) ∈ step_failures s' ↔
    (r, k) ∈ step_failures s ∨ (r = fresh n ∧ ∃ st failed, fate n = FRan st failed ∧ k ∈ norm <$> failed);
  tk_out : ∀ k, k ∉ norm <$> g → backfill_outcomes s' !! (id, k) = backfill_outcomes s !! (id, k);
  tk_lost : fate n = FNotLaunched → ∀ k, k ∈ norm <$> g → backfill_outcomes s' !! (id, k) = Some OutFailed
}.

Lemma ei_turn n x g s' b :
  b = stop_at policy event (S n) → exec_inv n x → groups !! n = Some g → stop_at policy event n = false → turn_ok n g (ex_store x) s' →
  exec_inv (S n) {| ex_store := s'; ex_cancel := false; ex_stop := b; ex_canceled := ex_canceled x |}.
Proof.
  intros Hb [H1 Hkeys H2 H3 H4 H5 H6 H7 H8 H9] Hg Hstop [T1 Tkeys T2 T3 T4 T5 T6 T7].
  assert (Hf : fate n = FNotLaunched ∨ ∃ st failed, fate n = FRan st failed).
  { unfold group_fate. rewrite Hstop. destruct (event n); eauto. }
  assert (Hns : fate n ≠ FSkipped) by (destruct Hf as [->|(? & ? & ->)]; done).
  assert (Hlt : ∀ j, (j < S n)%nat ↔ (j < n)%nat ∨ j = n) by lia.
  split; cbn [ex_store ex_cancel ex_stop ex_canceled]; try setoid_rewrite Hlt.
  - congruence.
  - by rewrite Tkeys.
  - done.
  - done.
  - intros k. rewrite H4. split; intros (j & g' & Hj & Hg' & Hs & Hk); exists j, g'; (split_and!; [|done..]); [by left|].
    destruct Hj as [|Hj]; [done|congruence].
  - intros r. rewrite T2, H5. split.
    + intros [(j & ? & ? & ?)|[-> ?]]; [eauto 6|]. exists n. split_and!; [by right|done|]. done.
    + intros (j & [Hj| ->] & -> & Hl); [left; eauto|right]. by destruct Hl.
  - intros j. destruct (decide (j = n)) as [->|Hne]; [rewrite T3; by case_decide; [|lia]|].
    rewrite T4, H6; [by repeat case_decide; try lia|]. intros ?%Hfresh. done.
  - intros j k. rewrite T5, H7. split.
    + intros [[? ?]|[->%Hfresh ?]]; auto.
    + intros [[?| ->] ?]; auto.
  - intros k o Ho. destruct (decide (k ∈ norm <$> g)) as [Hk|Hk].
    + exists n, g. split_and!; [by right|done|done|]. destruct Hf as [Hf|?]; [left|by right]. split; [done|].
      rewrite (T7 Hf k Hk) in Ho. congruence.
    + rewrite T6 in Ho by done. destruct (H8 k o Ho) as (j & g' & ? & ?). exists j, g'. split; [by left|done].
  - intros j g' k [Hj| ->] Hg' Hn Hk; [|apply T7; congruence]. rewrite T6; [by eapply H9|].
    intros Hk'. assert (j = n) by by eapply groups_disjoint. lia.
Qed.

Lemma progress_lookup lost s k :
  backfill_outcomes (update_backfill_progress id now [] [] lost [] s) !! (id, k) =
  if decide (k ∈ norm <$> lost) then Some OutFailed else backfill_outcomes s !! (id, k).
Proof.
  unfold update_backfill_progress, record_outcomes. cbn -[settled].
  destruct (settled [] lost [] !! k) as [o|] eqn:Ho; rewrite settled_lookup in Ho; cbn in Ho.
  - transitivity (Some o).
    + apply lookup_union_Some_l. rewrite (lookup_kmap (pair id)), settled_lookup. done.
    + repeat case_decide; set_solver.
  - transitivity (backfill_outcomes s !! (id, k)).
    + apply lookup_union_r. rewrite (lookup_kmap (pair id)), settled_lookup. done.
    + by repeat case_decide.
Qed.

Lemma ei_run n x g :
  exec_inv n x → groups !! n = Some g → stop_at policy event n = false →
  exec_inv (S n) (exec_group print parse fresh nobody event id now policy x n g).
Proof.
  intros Hi Hg Hstop. pose proof Hi as [H1 Hkeys H2 H3 H4 H5 H6 H7 H8 H9].
  unfold exec_group. rewrite H2, H3, Hstop. cbn [orb].
  assert (Hrow : event n = LinkError ∨ event n = LaunchError → row_at n = None).
  { unfold row_at, group_fate. rewrite Hstop. by intros [-> | ->]. }
  assert (Hlast : runs (ex_store x) !! fresh n = None) by (rewrite H6; by case_decide; [lia|]).
  assert (Hlink : link_backfill_run id now (fresh n) (λ s, s) (ex_store x) =
                  (true, link_runs id now [fresh n] (ex_store x))).
  { unfold link_backfill_run.
    assert (link_write id now (fresh n) (ex_store x) = link_runs id now [fresh n] (ex_store x)) as ->.
    { unfold link_write. by rewrite H1, Hrec. }
    f_equal. unfold link_check. change (backfills (link_runs id now [fresh n] (ex_store x))) with (backfills (ex_store x)).
    rewrite H1, Hrec, (bool_decide_eq_true_2 (BfInProgress = BfInProgress)) by done. apply bool_decide_eq_true. rewrite link_runs_lookup.
    right. apply list_elem_of_here. }
  destruct (event n) as [| |st failed success] eqn:Hev.
  - eapply ei_turn; [cbn; rewrite Hstop, Hev; by destruct policy|done|done|done|]. split.
    + done.
    + done.
    + intros r. cbn. rewrite Hev. tauto.
    + cbn. by rewrite Hrow by auto.
    + done.
    + intros r k. unfold group_fate. rewrite Hstop, Hev. cbn. naive_solver.
    + intros k Hk. rewrite progress_lookup. by case_decide.
    + intros _ k Hk. rewrite progress_lookup. by case_decide.
  - rewrite Hlink. cbn [negb].
    eapply ei_turn; [cbn; rewrite Hstop, Hev; by destruct policy|done|done|done|]. split.
    + done.
    + done.
    + intros r. rewrite Hev. transitivity (is_Some (backfill_runs (link_runs id now [fresh n] (ex_store x)) !! (id, r))); [done|].
      rewrite link_runs_lookup, list_elem_of_singleton. naive_solver.
    + cbn. by rewrite Hrow by auto.
    + done.
    + intros r k. unfold group_fate. rewrite Hstop, Hev. cbn. naive_solver.
    + intros k Hk. rewrite progress_lookup. by case_decide.
    + intros _ k Hk. rewrite progress_lookup. by case_decide.
  - rewrite Hlink. cbn [negb].
    destruct (run_to_end_spec id (fresh n) (bundle_keys print parse g) now st failed
                (link_runs id now [fresh n] (ex_store x)) rec H1 (Hended _ _ _ _ Hev)) as (R1 & R2 & R3 & R4 & R5 & R6 & R7).
    eapply ei_turn; [cbn; rewrite Hstop, Hev; destruct policy; cbn; by rewrite ?andb_false_r, ?andb_true_r|done|done|done|]. split.
    + by rewrite R3.
    + by rewrite R4.
    + intros r. rewrite R5, Hev, link_runs_lookup, list_elem_of_singleton. naive_solver.
    + rewrite R1, lookup_insert_eq. unfold row_at, group_fate. by rewrite Hstop, Hev, Hg.
    + intros r Hr. by rewrite R1, lookup_insert_ne.
    + intros r k. rewrite R2, elem_of_union, elem_of_list_to_set, list_elem_of_fmap.
      unfold group_fate. rewrite Hstop, Hev. cbn. setoid_rewrite list_elem_of_fmap. naive_solver.
    + intros k Hk. rewrite R7; [done|]. by rewrite (bundle_members n g k Hg).
    + unfold group_fate. by rewrite Hstop, Hev.
Qed.

Lemma exec_groups_inv rest n x :
  groups = take n groups ++ rest → exec_inv n x →
  exec_inv (n + length rest) (exec_groups print parse fresh nobody event id now policy x n rest).
Proof.
  revert n x. induction rest as [|g rest IH]; intros n x Hs Hi; cbn.
  - by rewrite Nat.add_0_r.
  - assert (Hn : (n < length groups)%nat).
    { apply (f_equal length) in Hs. rewrite length_app, length_take in Hs. cbn in Hs. lia. }
    assert (Hg : groups !! n = Some g).
    { rewrite Hs, lookup_app_r by (rewrite length_take; lia). rewrite length_take. by replace (n - n `min` length groups)%nat with 0%nat by lia. }
    replace (n + S (length rest))%nat with (S n + length rest)%nat by lia. apply IH.
    + rewrite (take_S_r _ _ _ Hg), <-app_assoc. done.
    + destruct (stop_at policy event n) eqn:Hst; [by apply ei_skip|by apply ei_run].
Qed.
(** ** Settling behind the loop *)
Context (Hkeys : keys ≡ₚ mjoin groups) (x : ExecState) (Hx : exec_inv (length groups) x).
Let s := ex_store x.
Let rs := get_runs_by_ids (run_ids_of id s) s.

(** A key whose group gives it outcome [o]. *)
Definition key_fate (o : Outcome) (k : PartitionKey) : Prop :=
  ∃ j g, groups !! j = Some g ∧ k ∈ norm <$> g ∧ fate_outcome (fate j) k = o.

Lemma ended_runs e :
  e ∈ rs ↔ ∃ j g st failed, groups !! j = Some g ∧ fate j = FRan st failed ∧
    e = (fresh j, ended_row id (bundle_keys print parse g) st now).
Proof.
  destruct Hx as [H1 Hk H2 H3 H4 H5 H6 H7 H8 H9]. unfold rs, get_runs_by_ids. rewrite list_elem_of_omap. split.
  - intros (r & Hr%run_ids_of_linked & He). apply H5 in Hr as (j & Hj & -> & _). unfold s in He.
    rewrite H6, decide_True in He by done. unfold row_at in He. destruct (fate j) as [| |st failed] eqn:Hf; try done.
    destruct (groups !! j) as [g|] eqn:Hg; [|done]. injection He as <-. eauto 8.
  - intros (j & g & st & failed & Hg & Hf & ->). apply lookup_lt_Some in Hg as Hj. exists (fresh j). split.
    + apply run_ids_of_linked, H5. exists j. split_and!; [done|done|]. unfold linked, group_fate in *.
      destruct (stop_at policy event j); [done|]. split; [done|]. by intros E; rewrite E in Hf.
    + unfold s. rewrite H6, decide_True by done. unfold row_at. by rewrite Hf, Hg.
Qed.

Lemma ran_spec k :
  k ∈ ran_keys rs ↔ ∃ j g st failed, groups !! j = Some g ∧ fate j = FRan st failed ∧ k ∈ norm <$> g.
Proof.
  unfold ran_keys, key_set. rewrite elem_of_list_to_set, elem_of_norm_bind. setoid_rewrite list_elem_of_omap.
  setoid_rewrite ended_runs. split.
  - intros (pk & (e & (j & g & st & failed & Hg & Hf & ->) & [= <-]) & Hk). rewrite (bundle_members j g) in Hk by done. eauto 8.
  - intros (j & g & st & failed & Hg & Hf & Hk). eexists. split; [eexists; split; [eauto 8|done]|]. by rewrite (bundle_members j g).
Qed.

Lemma canceled_concrete : Forall (λ k, concrete k = true) (ex_canceled x).
Proof.
  apply Forall_forall. intros k (j & g & _ & Hg & _ & Hk)%(ei_canceled _ _ Hx). destruct (Hconcrete j g Hg) as [Hc _].
  rewrite Forall_forall in Hc. auto.
Qed.

Lemma skipped_spec k :
  k ∈ norm <$> ex_canceled x ↔ ∃ j g, groups !! j = Some g ∧ fate j = FSkipped ∧ k ∈ norm <$> g.
Proof.
  rewrite list_elem_of_fmap. setoid_rewrite (ei_canceled _ _ Hx). setoid_rewrite list_elem_of_fmap. split.
  - intros (k' & -> & j & g & _ & ? & ? & ?). eauto 8.
  - intros (j & g & Hg & Hf & k' & -> & Hk). exists k'. split; [done|]. exists j, g.
    split_and!; [by eapply lookup_lt_Some|done..].
Qed.

Lemma outcome_keys_spec o k :
  k ∈ outcome_keys id o s ↔ backfill_outcomes s !! (id, k) = Some o.
Proof.
  unfold outcome_keys. rewrite list_elem_of_fmap. setoid_rewrite list_elem_of_filter. split.
  - intros ([[i k'] o'] & -> & [Hid Ho] & Hin). cbn in *. subst i o'. by apply elem_of_map_to_list in Hin.
  - intros Hk. exists ((id, k), o). split_and!; [done|done|done|]. by apply elem_of_map_to_list.
Qed.
Definition exec_view : BackfillView :=
  {| v_record := rec; v_partition_keys := keys; v_run_ids := run_ids_of id s;
     v_completed := outcome_keys id OutCompleted s; v_failed := outcome_keys id OutFailed s;
     v_canceled := outcome_keys id OutCanceled s |}.

Lemma exec_get : get_backfill id s = Some exec_view.
Proof. unfold get_backfill, s. rewrite (ei_rec _ _ Hx). cbn. by rewrite (ei_keys _ _ Hx). Qed.

Lemma group_key i g k : groups !! i = Some g → k ∈ norm <$> g → members k = [k] ∧ norm k = k.
Proof.
  intros Hg (k' & -> & Hk')%list_elem_of_fmap. destruct (Hconcrete i g Hg) as [Hc _]. rewrite Forall_forall in Hc.
  rewrite members_concrete by (rewrite concrete_norm; auto). by rewrite norm_idemp.
Qed.

Lemma outcome_key k o : backfill_outcomes s !! (id, k) = Some o → members k = [k] ∧ norm k = k.
Proof. intros (j & g & _ & Hg & Hk & _)%(ei_out _ _ Hx). by eapply group_key. Qed.

(** The recorded keys no run settles. *)
Lemma kept_spec o k :
  k ∈ norm <$> settled_without_run (ran_keys rs) (key_set (ex_canceled x)) (outcome_keys id o s) ↔
  o = OutFailed ∧ ∃ j g, groups !! j = Some g ∧ fate j = FNotLaunched ∧ k ∈ norm <$> g.
Proof.
  unfold settled_without_run. rewrite list_elem_of_fmap. setoid_rewrite list_elem_of_filter.
  setoid_rewrite list_elem_of_bind. setoid_rewrite outcome_keys_spec.
  setoid_rewrite (key_set_concrete _ _ canceled_concrete). split.
  - intros (m & -> & [Hran Hskip] & k' & Hm & Ho). destruct (outcome_key _ _ Ho) as [Hme Hno].
    rewrite Hme in Hm. apply list_elem_of_singleton in Hm as ->. rewrite Hno in *.
    destruct (ei_out _ _ Hx _ _ Ho) as (j & g & Hj & Hg & Hk & [[Hf ->]|(st & failed & Hf)]); [eauto 8|].
    exfalso. apply Hran, ran_spec. eauto 8.
  - intros (-> & j & g & Hg & Hf & Hk). destruct (group_key _ _ _ Hg Hk) as [Hme Hno]. exists k. split; [done|]. rewrite Hno. split.
    + rewrite ran_spec, skipped_spec. split.
      * intros (j' & g' & st & failed & Hg' & Hf' & Hk'). assert (j' = j) as -> by by eapply groups_disjoint. congruence.
      * intros (j' & g' & Hg' & Hf' & Hk'). assert (j' = j) as -> by by eapply groups_disjoint. congruence.
    + exists k. rewrite Hme. split; [apply list_elem_of_here|]. eapply (ei_lost _ _ Hx); [by eapply lookup_lt_Some|done..].
Qed.

Lemma in_some_group k : k ∈ norm <$> keys ↔ ∃ j g, groups !! j = Some g ∧ k ∈ norm <$> g.
Proof.
  rewrite Hkeys. rewrite list_elem_of_fmap. setoid_rewrite list_elem_of_join. setoid_rewrite list_elem_of_fmap.
  setoid_rewrite list_elem_of_lookup at 2. naive_solver.
Qed.

Lemma keys_concrete : Forall (λ k, concrete k = true) keys.
Proof.
  apply Forall_forall. intros k Hk. rewrite Hkeys in Hk. apply list_elem_of_join in Hk as (g & Hk & [j Hg]%list_elem_of_lookup).
  destruct (Hconcrete j g Hg) as [Hc _]. rewrite Forall_forall in Hc. auto.
Qed.

Lemma keys_members : norm <$> (keys ≫= members) = norm <$> keys.
Proof.
  pose proof keys_concrete as H. clear Hkeys Hx s rs. induction H as [|k ks Hk _ IH]; [done|]. cbn. rewrite fmap_app.
  rewrite members_concrete by done. cbn. by rewrite norm_idemp, IH.
Qed.
(** What a run of the loop settles. *)
Lemma ended_keys j g st failed k :
  groups !! j = Some g → fate j = FRan st failed →
  let K := keys_of (step_failures s) (fresh j, ended_row id (bundle_keys print parse g) st now) in
  let o := fate_outcome (fate j) k in
  (k ∈ norm <$> k_failed K ↔ k ∈ norm <$> g ∧ o = OutFailed) ∧
  (k ∈ norm <$> k_canceled K ↔ k ∈ norm <$> g ∧ o = OutCanceled) ∧
  (k ∈ norm <$> k_completed K ↔ k ∈ norm <$> g ∧ o = OutCompleted).
Proof.
  intros Hg Hf. cbv zeta. rewrite Hf. unfold keys_of, settled_of. cbn [run_partition_key run_status ended_row fst snd].
  assert (Hst : run_terminal st = true).
  { unfold group_fate in Hf. destruct (stop_at policy event j); [done|]. destruct (event j) eqn:He; simplify_eq. by eapply Hended. }
  pose proof (bundle_members j g) as Hb.
  assert (Hfl : ∀ m, (fresh j, m) ∈ step_failures s ↔ m ∈ norm <$> failed).
  { intros m. unfold s. rewrite (ei_failures _ _ Hx). rewrite Hf. apply lookup_lt_Some in Hg. naive_solver. }
  pose proof (elem_of_norm_filter (λ m, (fresh j, m) ∈ step_failures s) (members (bundle_keys print parse g)) k) as F1.
  pose proof (elem_of_norm_filter (λ m, (fresh j, m) ∉ step_failures s) (members (bundle_keys print parse g)) k) as F2.
  cbn beta in F1, F2. rewrite Hb in F1, F2 by done. rewrite Hfl in F1, F2. specialize (Hb k Hg).
  assert (Hnil : k ∈ norm <$> [] ↔ False) by (cbn; by rewrite elem_of_nil).
  destruct st; try done; cbn [k_failed k_canceled k_completed fate_outcome]; rewrite ?F1, ?F2, ?Hb, ?Hnil.
  - case_bool_decide; (split_and!; split; [naive_solver..]).
  - split_and!; split; naive_solver.
  - split_and!; split; naive_solver.
Qed.

Lemma key_failed_fate k : key_failed exec_view rs (step_failures s) (ex_canceled x) k ↔ key_fate OutFailed k.
Proof.
  unfold key_failed, kept_failed, key_fate. cbn [v_failed exec_view]. rewrite kept_spec. setoid_rewrite ended_runs. split.
  - intros [(e & (j & g & st & failed & Hg & Hf & ->) & Hk)|(_ & j & g & Hg & Hf & Hk)].
    + apply (ended_keys j g st failed) in Hk as [? ?]; eauto 6.
    + exists j, g. by rewrite Hf.
  - intros (j & g & Hg & Hk & Ho). destruct (fate j) as [| |st failed] eqn:Hf; [done|right; eauto 8|left].
    eexists. split; [exists j, g, st, failed; done|]. apply (ended_keys j g st failed); [done|done|]. by rewrite Hf.
Qed.

Lemma key_canceled_fate k : key_canceled exec_view rs (step_failures s) (ex_canceled x) k ↔ key_fate OutCanceled k.
Proof.
  unfold key_canceled, kept_canceled, key_fate. cbn [v_canceled exec_view]. rewrite kept_spec, skipped_spec.
  setoid_rewrite ended_runs. split.
  - intros [(e & (j & g & st & failed & Hg & Hf & ->) & Hk)|[(j & g & Hg & Hf & Hk)|[? _]]]; [| |done].
    + apply (ended_keys j g st failed) in Hk as [? ?]; eauto 6.
    + exists j, g. by rewrite Hf.
  - intros (j & g & Hg & Hk & Ho). destruct (fate j) as [| |st failed] eqn:Hf; [right; left; eauto 8|done|left].
    eexists. split; [exists j, g, st, failed; done|]. apply (ended_keys j g st failed); [done|done|]. by rewrite Hf.
Qed.

Lemma key_completed_fate k : key_completed rs (step_failures s) k ↔ key_fate OutCompleted k.
Proof.
  unfold key_completed, key_fate. setoid_rewrite ended_runs. split.
  - intros (e & (j & g & st & failed & Hg & Hf & ->) & Hk). apply (ended_keys j g st failed) in Hk as [? ?]; eauto 6.
  - intros (j & g & Hg & Hk & Ho). destruct (fate j) as [| |st failed] eqn:Hf; [done|done|].
    eexists. split; [exists j, g, st, failed; done|]. apply (ended_keys j g st failed); [done|done|]. by rewrite Hf.
Qed.

Lemma key_fate_unique o o' k : key_fate o k → key_fate o' k → o = o'.
Proof.
  intros (j & g & Hg & Hk & <-) (j' & g' & Hg' & Hk' & <-). by assert (j = j') as -> by by eapply groups_disjoint.
Qed.

Lemma keyless_none st : ¬ keyless rs st.
Proof. intros (e & (j & g & st' & failed & _ & _ & ->)%ended_runs & ? & _). done. Qed.

(** The settling goes through unless no group got anywhere. *)
Lemma settles_iff :
  (∃ j g, groups !! j = Some g ∧ fate j ≠ FNotLaunched ∧ g ≠ []) →
  is_Some (settle_decision exec_view rs (step_failures s) (ex_canceled x)).
Proof.
  intros (j0 & g0 & Hg0 & Hf0 & Hne). apply settle_decision_total.
  - done.
  - intros e (j & g & st & failed & Hg & Hf & ->)%ended_runs. cbn. unfold group_fate in Hf.
    destruct (stop_at policy event j); [done|]. destruct (event j) eqn:He; simplify_eq. by eapply Hended.
  - destruct (fate j0) as [| |st failed] eqn:Hf; [right|done|left].
    + intros Hn. destruct g0 as [|k g0]; [done|]. eapply (not_elem_of_nil (norm k)). rewrite <-(fmap_nil norm), <-Hn.
      apply skipped_spec. exists j0, (k :: g0). split_and!; [done|done|]. apply list_elem_of_here.
    + intros Hn. eapply not_elem_of_nil. rewrite <-Hn. apply ended_runs. eauto 8.
  - intros k Hk. apply (list_elem_of_fmap_2 norm) in Hk. cbn [v_partition_keys exec_view] in Hk. rewrite keys_members in Hk.
    apply in_some_group in Hk as (j & g & Hg & Hk). unfold kept_failed, kept_canceled. cbn [v_failed v_canceled exec_view].
    rewrite ran_spec, (key_set_concrete _ _ canceled_concrete), skipped_spec, !kept_spec.
    destruct (fate j) as [| |st failed] eqn:Hf; eauto 10.
Qed.

Lemma loop_settles :
  (∃ j g, groups !! j = Some g ∧ fate j ≠ FNotLaunched ∧ g ≠ []) →
  ∃ t, try_complete_backfill id (ex_canceled x) now s = (inr (Some (derived_status t)), settle_write id t now s) ∧
    (∀ o k, backfill_outcomes (settle_write id t now s) !! (id, k) = Some o ↔ key_fate o k) ∧
    (any_failed t = true ↔ ∃ k, key_fate OutFailed k) ∧ (any_canceled t = true ↔ ∃ k, key_fate OutCanceled k).
Proof.
  intros [t Ht]%settles_iff. exists t. unfold try_complete_backfill. rewrite exec_get.
  fold rs. cbn [v_run_ids exec_view]. fold rs. rewrite Ht. apply settle_decision_ok in Ht as Hd. split_and!; [done| | |].
  - intros o k. destruct (settle_out_spec _ _ _ _ id now s t k Hd) as (Sf & Sc & Ss & _). cbv zeta in *.
    rewrite key_failed_fate, ?key_canceled_fate, ?key_completed_fate in *.
    pose proof (λ o o', key_fate_unique o o' k) as Hu.
    destruct o; [rewrite Ss|rewrite Sf|rewrite Sc]; split; [tauto| |tauto|done|tauto|]; intros Hk.
    + split_and!; [| |done]; intros Hk'; by specialize (Hu _ _ Hk Hk').
    + split; [|done]. intros Hk'; by specialize (Hu _ _ Hk Hk').
  - rewrite (do_any_failed _ _ _ _ _ Hd). setoid_rewrite key_failed_fate. pose proof (keyless_none Failure). tauto.
  - rewrite (do_any_canceled _ _ _ _ _ Hd). setoid_rewrite key_canceled_fate. pose proof (keyless_none Canceled). tauto.
Qed.

(** When no group was launched there is nothing to settle from. *)
Lemma loop_stuck :
  (∀ j g, groups !! j = Some g → fate j = FNotLaunched) →
  ex_canceled x = [] ∧ ∀ now', try_complete_backfill id [] now' s = (inr None, s).
Proof.
  intros Hall. assert (Hn : rs = []).
  { apply elem_of_nil_inv. intros e (j & g & st & failed & Hg & Hf & _)%ended_runs. by rewrite (Hall j g Hg) in Hf. }
  split.
  - apply elem_of_nil_inv. intros k (j & g & _ & Hg & Hf & _)%(ei_canceled _ _ Hx). by rewrite (Hall j g Hg) in Hf.
  - intros now'. unfold try_complete_backfill. rewrite exec_get. cbn [v_run_ids exec_view]. fold rs. rewrite Hn.
    unfold settle_decision. by case_bool_decide.
Qed.
End loop.

(** ** The executor *)

(** A requested backfill no one has run yet, of distinct single keys. *)
Record exec_ready (jobs_info : gmap string (option string)) (fresh : nat → string) (id : string) (now : Z)
    (v : BackfillView) (s : BackfillStore) : Prop := {
  er_view : get_backfill id s = Some v;
  er_status : bf_status (v_record v) = BfRequested;
  er_verb : fail_backfill_if_job_verb_changed jobs_info id now (v_record v) s = None;
  er_unlinked : v_run_ids v = [];
  er_unsettled : ∀ k, backfill_outcomes s !! (id, k) = None;
  er_ids : ∀ i j, fresh i = fresh j → i = j;
  er_unused : ∀ i, runs s !! fresh i = None ∧ ∀ k, (fresh i, k) ∉ step_failures s;
  er_concrete : Forall (λ k, concrete k = true) (v_partition_keys v);
  er_distinct : NoDup (norm <$> v_partition_keys v);
  er_length : (lenN (v_partition_keys v) <= usize_max)%N
}.

Section executor.
Context (print : Json → string) (parse : string → option Json).
Context (fresh : nat → string) (event : nat → GroupEvent) (jobs_info : gmap string (option string)) (id : string) (now : Z).
Context (Hended : ∀ i st failed success, event i = Ran st failed success → run_terminal st = true).
Context (v : BackfillView) (s : BackfillStore) (Hready : exec_ready jobs_info fresh id now v s).

#[local] Abbreviation nobody := (λ _ s, (s, false)).
#[local] Abbreviation groups := (group_into_runs (bf_strategy (v_record v)) (v_partition_keys v)).
#[local] Abbreviation policy := (bf_failure_policy (v_record v)).
#[local] Abbreviation run_it := (execute_backfill_with print parse fresh nobody event jobs_info id now).

Definition started : ExecState :=
  {| ex_store := update_backfill_status id BfInProgress None s; ex_cancel := false; ex_stop := false; ex_canceled := [] |}.
Definition looped : ExecState := exec_groups print parse fresh nobody event id now policy started 0 groups.

Lemma groups_concrete i g : groups !! i = Some g → Forall (λ k, concrete k = true) g ∧ (lenN g <= usize_max)%N.
Proof.
  intros Hg. pose proof (group_into_runs_perm (bf_strategy (v_record v)) (v_partition_keys v)) as Hp.
  assert (Hs : g ⊆+ mjoin groups).
  { apply list_elem_of_split_length in Hg as (l1 & l2 & -> & _). rewrite join_app. cbn.
    apply submseteq_inserts_l, submseteq_inserts_r. done. }
  rewrite Hp in Hs. split.
  - apply Forall_forall. intros k Hk. pose proof (er_concrete _ _ _ _ _ _ Hready) as Hc. rewrite Forall_forall in Hc.
    by eapply Hc, elem_of_submseteq.
  - pose proof (er_length _ _ _ _ _ _ Hready). apply submseteq_length in Hs. unfold lenN in *. lia.
Qed.

Lemma groups_distinct : NoDup (mjoin (fmap norm <$> groups)).
Proof.
  assert (∀ l : list (list PartitionKey), mjoin (fmap norm <$> l) = norm <$> mjoin l) as ->.
  { intros l. induction l as [|g l IH]; cbn; [done|]. rewrite fmap_app. by f_equal. }
  rewrite group_into_runs_perm. apply (er_distinct _ _ _ _ _ _ Hready).
Qed.

Definition rec_running : BackfillRecord := with_bf_status BfInProgress None None (v_record v).

Lemma looped_inv :
  exec_inv print parse fresh event policy id now rec_running (v_partition_keys v) groups (length groups) looped.
Proof.
  destruct Hready as [Hv Hst Hverb Hul Hus Hids Hun _ _ _].
  unfold get_backfill in Hv. destruct (backfills s !! id) as [rec|] eqn:Hr; [|done]. cbn in Hv.
  apply (exec_groups_inv _ _ _ _ _ _ _ rec_running _ _ Hids Hended eq_refl groups_concrete groups_distinct groups 0%nat); [done|].
  injection Hv as Hv. split; cbn; try done.
  - rewrite lookup_alter_eq, Hr. cbn. unfold rec_running. by rewrite <-Hv.
  - by rewrite <-Hv.
  - intros k. split; [by intros ?%not_elem_of_nil|]. intros (j & g & ? & _). lia.
  - intros r. rewrite <-Hv in Hul. cbn in Hul. split; [|intros (j & ? & _); lia]. intros Hl%run_ids_of_linked.
    by rewrite Hul in Hl; apply not_elem_of_nil in Hl.
  - intros j. by destruct (Hun j) as [-> _].
  - intros j k. split; [by intros ?%Hun|]. intros [? _]. lia.
  - intros k o. by rewrite Hus.
  - intros j g k ?. lia.
Qed.

(** Without a cancel the executor is the loop and the settling behind it. *)
Lemma executes : run_it s = (inr tt, (try_complete_backfill id (ex_canceled looped) now (ex_store looped)).2).
Proof.
  pose proof (ei_cancel _ _ _ _ _ _ _ _ _ _ _ _ looped_inv) as Hc. destruct Hready as [Hv Hst Hverb _ _ _ _ _ _ _].
  unfold execute_backfill_with. rewrite Hv. rewrite bool_decide_eq_true_2, Hverb by done. cbn [negb].
  fold started. fold looped. by rewrite Hc.
Qed.

Lemma exec_settles :
  (∃ j, (j < length groups)%nat ∧ group_fate policy event j ≠ FNotLaunched) →
  ∃ t, run_it s = (inr tt, settle_write id t now (ex_store looped)) ∧
    (∀ o k, backfill_outcomes (settle_write id t now (ex_store looped)) !! (id, k) = Some o ↔ key_fate event policy groups o k) ∧
    (any_failed t = true ↔ ∃ k, key_fate event policy groups OutFailed k) ∧
    (any_canceled t = true ↔ ∃ k, key_fate event policy groups OutCanceled k).
Proof.
  intros (j & [g Hg]%lookup_lt_is_Some_2 & Hf). rewrite executes.
  edestruct (loop_settles print parse fresh event policy id now) as (t & Ht & Hrest); cycle -1.
  - exists t. rewrite Ht. split; [done|exact Hrest].
  - exact Hended.
  - exact (eq_refl : bf_status rec_running = BfInProgress).
  - apply groups_concrete.
  - apply groups_distinct.
  - symmetry. apply group_into_runs_perm.
  - apply looped_inv.
  - exists j, g. split_and!; [done|done|]. pose proof (group_into_runs_nonempty (bf_strategy (v_record v)) (v_partition_keys v)) as Hne.
    rewrite Forall_forall in Hne. eapply Hne, list_elem_of_lookup_2, Hg.
Qed.

Lemma exec_stuck :
  (∀ j, (j < length groups)%nat → group_fate policy event j = FNotLaunched) →
  run_it s = (inr tt, ex_store looped) ∧
  ∀ now', try_complete_backfill id [] now' (ex_store looped) = (inr None, ex_store looped).
Proof.
  intros Hall. rewrite executes.
  edestruct (loop_stuck print parse fresh event policy id now) as [Hn Hs]; cycle -1.
  - rewrite Hn, Hs. split; [done|]. intros now'. apply Hs.
  - apply looped_inv.
  - intros j g Hg. apply Hall. by eapply lookup_lt_Some.
Qed.

Lemma key_fate_group o k : key_fate event policy groups o k → k ∈ norm <$> v_partition_keys v.
Proof.
  intros (j & g & Hg & Hk & _). eapply (in_some_group _ groups); [apply groups_concrete| |eauto].
  symmetry. apply group_into_runs_perm.
Qed.
End executor.
