(* ===== verification/BackfillTheorems.v ===== *)
(** * Properties of backfills

    The executor against the fate of the groups, the cancel against the submission, and
    executions in which they go wrong. *)

From S2P Require Import Prelude PartitionKey PartitionJson BackfillGroup RunQueue Backfills BackfillSettle BackfillRaces BackfillExec.

(** ** A concrete backfill *)
Definition x_key (k : string) : PartitionKey := Single [k].
Definition x_record (st : BackfillStatus) (policy : BackfillFailurePolicy) : BackfillRecord :=
  {| bf_code_location_id := "loc"; bf_status := st; bf_strategy := MultiRun; bf_failure_policy := policy;
     bf_asset_selection := ["a"]; bf_job_name := None; bf_max_concurrency := 1; bf_tags := []; bf_create_time := 0;
     bf_end_time := None; bf_error := None; bf_launched_by := ByManual None; bf_action := None; bf_config := None |}.
Definition x_keys : list PartitionKey := [x_key "k0"; x_key "k1"; x_key "k2"].
Definition x_store (st : BackfillStatus) (policy : BackfillFailurePolicy) : BackfillStore :=
  {| runs := ∅; step_failures := ∅; cancel_flags := ∅; backfills := {["b" := x_record st policy]};
     backfill_keys := {["b" := x_keys]}; backfill_runs := ∅; backfill_outcomes := ∅ |}.
Definition x_view (st : BackfillStatus) (policy : BackfillFailurePolicy) : BackfillView :=
  {| v_record := x_record st policy; v_partition_keys := x_keys; v_run_ids := []; v_completed := []; v_failed := []; v_canceled := [] |}.

(** Run ids by length. *)
Fixpoint x_id (i : nat) : string := match i with O => "r" | S i => String "r" (x_id i) end.

Lemma x_id_inj i j : x_id i = x_id j → i = j.
Proof.
  revert j. induction i as [|i IH]; intros [|j] Heq; cbn in Heq;
    [done|by destruct j|by destruct i|injection Heq as Heq; f_equal; auto].
Qed.

Lemma x_ready policy : exec_ready ∅ x_id "b" 5 (x_view BfRequested policy) (x_store BfRequested policy).
Proof.
  split; [reflexivity|reflexivity|reflexivity|reflexivity|done|apply x_id_inj|done| | |done].
  - by repeat constructor.
  - cbn. repeat constructor; set_solver.
Qed.

(** The first group succeeds, the second fails. *)
Definition x_event (i : nat) : GroupEvent :=
  match i with O => Ran Success [] true | _ => Ran Failure [] false end.

(** ** The executor *)

(** C6: run in the process without a cancel, a requested backfill of concrete, distinct keys
    of which at least one group got a run or was skipped, and whose runs have ended, settles: every requested key has the outcome of its group
    (failed when the run could not be launched, canceled behind a failure under stop-on-failure,
    the run's own result otherwise, a success less the members whose steps failed), no other key
    has one, and the status follows from the outcomes. *)
Theorem execute_backfill_correct print parse fresh event jobs_info id now v s :
  exec_ready jobs_info fresh id now v s →
  (∀ i st failed success, event i = Ran st failed success → run_terminal st = true) →
  let groups := group_into_runs (bf_strategy (v_record v)) (v_partition_keys v) in
  let fate := group_fate (bf_failure_policy (v_record v)) event in
  (∃ j, (j < length groups)%nat ∧ fate j ≠ FNotLaunched) →
  ∃ s' st,
    execute_backfill_with print parse fresh (λ _ s, (s, false)) event jobs_info id now s = (inr tt, s') ∧
    status_at id s' = Some st ∧
    let out k := backfill_outcomes s' !! (id, k) in
    (∀ j g k, groups !! j = Some g → k ∈ g → out (norm k) = Some (fate_outcome (fate j) (norm k))) ∧
    (∀ k, is_Some (out k) ↔ k ∈ norm <$> v_partition_keys v) ∧
    (st = BfCompletedFailed ↔ ∃ k, out k = Some OutFailed) ∧
    (st = BfCanceled ↔ (¬ ∃ k, out k = Some OutFailed) ∧ ∃ k, out k = Some OutCanceled) ∧
    (st = BfCompletedSuccess ↔ ∀ k o, out k = Some o → o = OutCompleted).
Proof.
  intros Hready Hended groups fate Hprog.
  destruct (exec_settles print parse fresh event jobs_info id now Hended v s Hready Hprog) as (t & Hex & Hout & Hf & Hc).
  pose proof (ei_rec _ _ _ _ _ _ _ _ _ _ _ _ (looped_inv print parse fresh event jobs_info id now Hended v s Hready)) as Hrow.
  set (x := looped _ _ _ _ _ _ _ _) in *. set (s' := settle_write id t now (ex_store x)) in *.
  setoid_rewrite <-Hout in Hf. setoid_rewrite <-Hout in Hc.
  destruct (derived_status_spec t) as (Df & Dc & Ds). rewrite <-!not_true_iff_false, Hf, Hc in *.
  exists s', (derived_status t). cbv zeta. split_and!; [done| | | |done|done|].
  - unfold status_at, s'. by rewrite settle_write_status, Hrow.
  - intros j g k Hg Hk. apply Hout. exists j, g. split_and!; [done|by apply list_elem_of_fmap_2|done].
  - intros k. split.
    + intros [o Ho%Hout]. by eapply key_fate_group.
    + intros Hk. rewrite <-(group_into_runs_perm (bf_strategy (v_record v)) (v_partition_keys v)) in Hk. apply list_elem_of_fmap in Hk as (k' & -> & Hk).
      apply list_elem_of_join in Hk as (g & Hk & [j Hg]%list_elem_of_lookup).
      eexists. apply Hout. exists j, g. split_and!; [done|by apply list_elem_of_fmap_2|done].
  - rewrite Ds. split.
    + intros [Hnf Hnc] k [] Ho; [done|exfalso; apply Hnf; eauto|exfalso; apply Hnc; eauto].
    + intros Hall. by split; intros [k Hk%Hall].
Qed.

Lemma execute_backfill_correct_witness :
  let v := x_view BfRequested StopOnFailure in
  let groups := group_into_runs (bf_strategy (v_record v)) (v_partition_keys v) in
  let fate := group_fate StopOnFailure x_event in
  fate 2%nat = FSkipped ∧
  ∃ s' st,
    execute_backfill_with (λ _, EmptyString) (λ _, None) x_id (λ _ s, (s, false)) x_event ∅ "b" 5 (x_store BfRequested StopOnFailure)
      = (inr tt, s') ∧
    status_at "b" s' = Some st ∧
    let out k := backfill_outcomes s' !! ("b", k) in
    (∀ j g k, groups !! j = Some g → k ∈ g → out (norm k) = Some (fate_outcome (fate j) (norm k))) ∧
    (∀ k, is_Some (out k) ↔ k ∈ norm <$> v_partition_keys v) ∧
    (st = BfCompletedFailed ↔ ∃ k, out k = Some OutFailed) ∧
    (st = BfCanceled ↔ (¬ ∃ k, out k = Some OutFailed) ∧ ∃ k, out k = Some OutCanceled) ∧
    (st = BfCompletedSuccess ↔ ∀ k o, out k = Some o → o = OutCompleted).
Proof.
  split; [reflexivity|].
  apply (execute_backfill_correct (λ _, EmptyString) (λ _, None) x_id x_event ∅ "b" 5 (x_view BfRequested StopOnFailure)
           (x_store BfRequested StopOnFailure) (x_ready StopOnFailure)).
  - intros [|i] st failed success; cbn; intros [= <- _ _]; reflexivity.
  - exists 0%nat. split; [vm_compute; lia|vm_compute; discriminate].
Defined.

(** When no group of a requested backfill can be launched, the execution reports success
    and leaves the backfill in progress, with every key recorded as failed, and neither this nor
    any later settling of it gets it out of there. *)
Theorem unlaunched_backfill_stuck print parse fresh event jobs_info id now v s :
  exec_ready jobs_info fresh id now v s →
  (∀ i, event i = LaunchError) → bf_failure_policy (v_record v) = Continue →
  ∃ s', execute_backfill_with print parse fresh (λ _ s, (s, false)) event jobs_info id now s = (inr tt, s') ∧
    status_at id s' = Some BfInProgress ∧
    (∀ k, k ∈ norm <$> v_partition_keys v → backfill_outcomes s' !! (id, k) = Some OutFailed) ∧
    (∀ now', try_complete_backfill id [] now' s' = (inr None, s')).
Proof.
  intros Hready Hev Hpol.
  assert (Hended : ∀ i st failed success, event i = Ran st failed success → run_terminal st = true).
  { intros i st failed success. by rewrite Hev. }
  assert (Hfate : ∀ j, group_fate (bf_failure_policy (v_record v)) event j = FNotLaunched).
  { intros j. unfold group_fate. rewrite Hev, Hpol.
    assert (stop_at Continue event j = false) as ->; [|done]. induction j as [|j IH]; cbn; [done|]. by rewrite IH. }
  destruct (exec_stuck print parse fresh event jobs_info id now Hended v s Hready) as [Hex Hstuck]; [auto|].
  pose proof (looped_inv print parse fresh event jobs_info id now Hended v s Hready) as Hi.
  eexists. split_and!; [exact Hex| | |exact Hstuck].
  - unfold status_at. by rewrite (ei_rec _ _ _ _ _ _ _ _ _ _ _ _ Hi).
  - intros k Hk. rewrite <-(group_into_runs_perm (bf_strategy (v_record v)) (v_partition_keys v)) in Hk. apply list_elem_of_fmap in Hk as (k' & -> & Hk).
    apply list_elem_of_join in Hk as (g & Hk & [j Hg]%list_elem_of_lookup).
    eapply (ei_lost _ _ _ _ _ _ _ _ _ _ _ _ Hi j); [by eapply lookup_lt_Some|done|done|by apply list_elem_of_fmap_2].
Qed.

Lemma unlaunched_backfill_stuck_witness :
  ∃ s', execute_backfill_with (λ _, EmptyString) (λ _, None) x_id (λ _ s, (s, false)) (λ _, LaunchError) ∅ "b" 5 (x_store BfRequested Continue)
          = (inr tt, s') ∧
    status_at "b" s' = Some BfInProgress ∧
    (∀ k, k ∈ norm <$> v_partition_keys (x_view BfRequested Continue) → backfill_outcomes s' !! ("b", k) = Some OutFailed) ∧
    (∀ now', try_complete_backfill "b" [] now' s' = (inr None, s')).
Proof.
  apply (unlaunched_backfill_stuck (λ _, EmptyString) (λ _, None) x_id (λ _, LaunchError) ∅ "b" 5 (x_view BfRequested Continue)
           (x_store BfRequested Continue) (x_ready Continue)); [intros i; reflexivity|reflexivity].
Defined.

(** One run ended well, one failed, and the third key never ran. *)
Definition x_ended : BackfillStore :=
  let row st k := {| run_status := st; run_partition_key := Some (x_key k); run_end_time := None; run_launched_by := ByBackfill "b" |} in
  {| runs := {["r0" := row Success "k0"; "r1" := row Failure "k1"]}; step_failures := ∅; cancel_flags := ∅;
     backfills := {["b" := x_record BfInProgress StopOnFailure]}; backfill_keys := {["b" := x_keys]};
     backfill_runs := {[("b", "r0") := 0%Z; ("b", "r1") := 1%Z]}; backfill_outcomes := ∅ |}.

Definition x_settled : BackfillStore := (try_complete_backfill "b" [x_key "k2"] 9 x_ended).2.

Lemma x_settles : try_complete_backfill "b" [x_key "k2"] 9 x_ended = (inr (Some BfCompletedFailed), x_settled).
Proof. vm_compute. reflexivity. Qed.

Lemma settle_correct_witness :
  ∃ v, get_backfill "b" x_ended = Some v ∧
    ∀ k, k ∈ v_partition_keys v ≫= members → is_Some (backfill_outcomes x_settled !! ("b", norm k)).
Proof.
  destruct (settle_correct "b" [x_key "k2"] 9 x_ended BfCompletedFailed x_settled) as (v & Hv & _ & _ & Hall & _).
  - intros k Hk. apply list_elem_of_singleton in Hk. subst k. vm_compute. reflexivity.
  - apply x_settles.
  - exists v. split; [exact Hv|exact Hall].
Defined.

(** ** Cancel against submission *)

(** C7: from the moment the backfill is in progress and before its runs are written, let the
    submission, a cancel, the coordinator, the monitor and the executors commit their
    statements in any order: once the submission is through and the cancel, which found the
    status [Canceled], is through, every run of the batch is canceled, unless a tick of the
    coordinator had read it in the queue and chosen it. *)
Theorem cancel_reaches_queue id batch x0 x live r :
  (∀ e, e ∈ batch → run_status e.2 = Queued) → NoDup batch.*1 → bf_init id batch x0 →
  rtc (bf_step id batch) x0 x → sub x = SubDone live → can x = CanDone true → r ∈ batch.*1 →
  r ∈ taken x ∨ ∃ run, runs (store x) !! r = Some run ∧ run_status run = Canceled.
Proof.
  intros Hq Hnd Hi Hsteps Hs Hc Hr.
  destruct (bf_inv_reach id batch Hq Hnd x0 x Hi Hsteps) as [_ _ _ _ Hsub]. unfold sub_ok in Hsub. rewrite Hs, Hc in Hsub. by destruct live; apply Hsub.
Qed.

Definition x_batch : list (string * BfRun) :=
  [("r0", {| run_status := Queued; run_partition_key := Some (x_key "k0"); run_end_time := None; run_launched_by := ByBackfill "b" |})].

Definition x_start : BfSys :=
  {| store := x_store BfInProgress Continue; sub := SubFlipped; can := CanIdle; settling := None; taken := ∅ |}.

Lemma x_batch_queued e : e ∈ x_batch → run_status e.2 = Queued.
Proof. intros ->%list_elem_of_singleton. done. Qed.

Lemma x_start_init : bf_init "b" x_batch x_start.
Proof. split_and!; [reflexivity| |done..]. intros e ->%list_elem_of_singleton. done. Qed.

(** The submission commits, then the cancel runs through. *)
Lemma x_canceled_trace :
  ∃ x, rtc (bf_step "b" x_batch) x_start x ∧ sub x = SubDone true ∧ can x = CanDone true.
Proof.
  eexists. split.
  - eapply rtc_l; [eapply (sub_commit _ _ _ 0); reflexivity|].
    eapply rtc_l; [eapply sub_check; [reflexivity|vm_compute; reflexivity]|].
    eapply rtc_l; [eapply (can_write _ _ _ 1); reflexivity|].
    eapply rtc_l; [eapply can_read; [reflexivity|vm_compute; reflexivity]|].
    eapply rtc_l; [eapply can_targets; vm_compute; reflexivity|].
    eapply rtc_l; [eapply can_flag; vm_compute; reflexivity|].
    eapply rtc_l; [eapply (can_cancel _ _ _ 2); vm_compute; reflexivity|].
    eapply rtc_l; [eapply can_finish; vm_compute; reflexivity|].
    apply rtc_refl.
  - split; vm_compute; reflexivity.
Qed.

Lemma cancel_reaches_queue_witness :
  ∃ x, can x = CanDone true ∧ ("r0" ∈ taken x ∨ ∃ run, runs (store x) !! "r0" = Some run ∧ run_status run = Canceled).
Proof.
  destruct x_canceled_trace as (x & Hx & Hs & Hc). exists x. split; [exact Hc|].
  apply (cancel_reaches_queue "b" x_batch x_start x true "r0" x_batch_queued); [|exact x_start_init|exact Hx|exact Hs|exact Hc|].
  - apply NoDup_singleton.
  - apply list_elem_of_here.
Defined.

(** The batch can commit after the cancel is through and be dequeued before the
    submission looks: the sweep then finds the run started and leaves it, and it runs on with
    its backfill canceled and no cancel flag. *)
Theorem taken_run_outlives_cancel :
  ∃ x, rtc (bf_step "b" x_batch) x_start x ∧ sub x = SubDone false ∧ can x = CanDone true ∧
    status_at "b" (store x) = Some BfCanceled ∧
    run_status <$> runs (store x) !! "r0" = Some Started ∧ is_cancelled "r0" (store x) = false.
Proof.
  eexists. split.
  - eapply rtc_l; [eapply (can_write _ _ _ 1); reflexivity|].
    eapply rtc_l; [eapply can_read; [reflexivity|vm_compute; reflexivity]|].
    eapply rtc_l; [eapply can_targets; vm_compute; reflexivity|].
    eapply rtc_l; [eapply can_finish; vm_compute; reflexivity|].
    eapply rtc_l; [eapply (sub_commit _ _ _ 2); reflexivity|].
    eapply rtc_l; [eapply (coord_read _ _ _ "r0"); [vm_compute; reflexivity|reflexivity]|].
    eapply rtc_l; [eapply (coord_write _ _ _ "r0"); apply elem_of_union_l, elem_of_singleton; reflexivity|].
    eapply rtc_l; [eapply (exec_start _ _ _ "r0"); [apply elem_of_union_l, elem_of_singleton; reflexivity|vm_compute; reflexivity]|].
    eapply rtc_l; [eapply sub_check; [reflexivity|vm_compute; reflexivity]|].
    eapply rtc_l; [eapply (sub_sweep _ _ _ 3); vm_compute; reflexivity|].
    eapply rtc_l; [eapply sub_swept; vm_compute; reflexivity|].
    apply rtc_refl.
  - split_and!; vm_compute; reflexivity.
Qed.

(** A run that the cascade cancels between the coordinator's read of the queue and its write is
    back as not started, and starts, although its cancel went through. *)
Theorem dequeue_revives_canceled_run :
  ∃ x, rtc (bf_step "b" x_batch) x_start x ∧ sub x = SubDone true ∧ can x = CanDone true ∧
    status_at "b" (store x) = Some BfCanceled ∧ run_status <$> runs (store x) !! "r0" = Some Started.
Proof.
  eexists. split.
  - eapply rtc_l; [eapply (sub_commit _ _ _ 0); reflexivity|].
    eapply rtc_l; [eapply sub_check; [reflexivity|vm_compute; reflexivity]|].
    eapply rtc_l; [eapply (coord_read _ _ _ "r0"); [vm_compute; reflexivity|reflexivity]|].
    eapply rtc_l; [eapply (can_write _ _ _ 1); reflexivity|].
    eapply rtc_l; [eapply can_read; [reflexivity|vm_compute; reflexivity]|].
    eapply rtc_l; [eapply can_targets; vm_compute; reflexivity|].
    eapply rtc_l; [eapply can_flag; vm_compute; reflexivity|].
    eapply rtc_l; [eapply (can_cancel _ _ _ 2); vm_compute; reflexivity|].
    eapply rtc_l; [eapply can_finish; vm_compute; reflexivity|].
    eapply rtc_l; [eapply (coord_write _ _ _ "r0"); apply elem_of_union_l, elem_of_singleton; reflexivity|].
    eapply rtc_l; [eapply (exec_start _ _ _ "r0"); [apply elem_of_union_l, elem_of_singleton; reflexivity|vm_compute; reflexivity]|].
    apply rtc_refl.
  - split_and!; vm_compute; reflexivity.
Qed.

(** ** A cancel against the executor's first write *)

(** A cancel that lands between the executor's status read and its flip to [InProgress]
    reports [Canceled] and is lost: the backfill is in progress again and its runs are queued. *)
Theorem cancel_lost_before_flip :
  let s := x_store BfRequested Continue in
  let cancel s := (cancel_backfill_cascade "b" 7 s).2 in
  let r := execute_backfill_queued_inner (λ _, EmptyString) (λ _, None) x_id ∅ "b" 8 None cancel (λ s, s) s in
  (cancel_backfill_cascade "b" 7 s).1 = inr BfCanceled ∧ r.1 = inr tt ∧
  status_at "b" r.2 = Some BfInProgress ∧
  (∀ i, (i < 3)%nat → run_status <$> runs r.2 !! x_id i = Some Queued) ∧ cancel_flags r.2 = ∅.
Proof.
  cbv zeta. split_and!; [vm_compute; reflexivity..| |vm_compute; reflexivity].
  intros [|[|[|i]]] Hi; [vm_compute; reflexivity..|lia].
Qed.

(** A cancel between two groups of an in-process execution leaves the keys of the groups
    behind it without an outcome: the finalizer finds the backfill already canceled. *)
Theorem canceled_groups_unrecorded :
  let other i s := if Nat.eqb i 1 then ((cancel_backfill_cascade "b" 7 s).2, true) else (s, false) in
  let r := execute_backfill_with (λ _, EmptyString) (λ _, None) x_id other (λ _, Ran Success [] true) ∅ "b" 8
             (x_store BfRequested Continue) in
  r.1 = inr tt ∧ status_at "b" r.2 = Some BfCanceled ∧
  backfill_outcomes r.2 !! ("b", x_key "k0") = Some OutCompleted ∧
  backfill_outcomes r.2 !! ("b", x_key "k1") = None ∧ backfill_outcomes r.2 !! ("b", x_key "k2") = None.
Proof. cbv zeta. split_and!; vm_compute; reflexivity. Qed.
