(* ===== verification/OperatorRun.v ===== *)
(** * The run reconciler of the Kubernetes operator (rivers-operator/src/run: reconcile.rs,
      restart.rs, cancel.rs, timeout.rs, progress.rs, cleanup.rs; rivers-crd/src/crd/run.rs)

    A pass of the reconciler reads a copy of a [Run] object and calls the API server and the
    storage. The world holds what these hold for one run; each call may fail, before or after
    it took effect. *)

From S2P Require Import Prelude RunQueue.
From stdpp Require Import pretty.

(** ** The custom resource *)
Inductive RunPhase := PhPending | PhRunning | PhCancelling | PhSucceeded | PhFailed | PhCancelled | PhTimedOut.

#[export] Instance RunPhase_eq_dec : EqDecision RunPhase.
Proof. solve_decision. Defined.

Definition phase_terminal (p : RunPhase) : bool :=
  match p with PhSucceeded | PhFailed | PhCancelled | PhTimedOut => true | _ => false end.

Record RunCondition := {
  cond_type : string;
  cond_status : string;
  cond_last_transition_time : option string;
  cond_reason : option string;
  cond_message : option string
}.

Record RunCrdStatus := {
  crd_phase : option RunPhase;
  crd_run_id : option string;
  crd_executor_pod : option string;
  crd_restarts_without_progress : N;   (* [u32], as are the next and the step counts *)
  crd_total_restarts : N;
  crd_last_progress_at : option string;
  crd_completed_steps : option N;
  crd_total_steps : option N;
  crd_started_at : option string;
  crd_completed_at : option string;
  crd_message : option string;
  crd_conditions : list RunCondition
}.

Definition default_status : RunCrdStatus :=
  {| crd_phase := None; crd_run_id := None; crd_executor_pod := None; crd_restarts_without_progress := 0; crd_total_restarts := 0;
     crd_last_progress_at := None; crd_completed_steps := None; crd_total_steps := None; crd_started_at := None;
     crd_completed_at := None; crd_message := None; crd_conditions := [] |}.

(** What the reconciler reads of [RunSpec]. *)
Record RunSpec := {
  spec_code_location : string;
  spec_run_id : option string;
  spec_timeout_seconds : option Z;
  spec_max_restarts : N;
  spec_cancel_grace_period_seconds : Z
}.

Record RunObj := {
  obj_name : string;
  obj_deleting : bool;                 (* [deletionTimestamp] is set *)
  obj_finalizers : list string;
  obj_annotations : gmap string string;
  obj_spec : RunSpec;
  obj_status : option RunCrdStatus
}.

Definition FINALIZER : string := "rivers.io/run-cleanup".
Definition CANCEL_ANNOTATION : string := "rivers.io/cancel-requested".
Definition CONDITION_EXECUTOR_READY : string := "ExecutorReady".
Definition CONDITION_EXECUTOR_RESTARTED : string := "ExecutorRestarted".
Definition CONDITION_CANCELLING : string := "Cancelling".
Definition MAX_CONDITIONS : nat := 20.

(** ** Storage and the world *)
Inductive RunOutcome :=
| OutcomeSuccess (completed_steps total_steps : N)
| OutcomeFailure (message : string) (completed_steps total_steps : N)
| OutcomeCancelled (completed_steps total_steps : N).

Record World := {
  w_run : option RunObj;               (* the object in the API server *)
  w_pods : gmap string (option string);(* pods with their [status.phase] *)
  w_jobs : gset (string * string);     (* step jobs: run id and name *)
  w_code_locations : gset string;
  w_cancel_flags : gset string;
  w_run_status : gmap string RunStatus;
  w_outcomes : gmap string RunOutcome;
  w_progress : gmap string (N * N)     (* completed and total steps *)
}.

Inductive Fault := NoFault | FailBefore | FailAfter.

Inductive OpError :=
| Unavailable                          (* a call failed *)
| NotFound404
| Panicked.                            (* an [unwrap] of [None] *)

Record Env := { env_world : World; env_faults : list Fault }.

(** A computation with calls that may fail. *)
Definition Op (A : Type) : Type := Env → (OpError + A) * Env.

#[export] Instance op_ret : MRet Op := λ A a e, (inr a, e).
#[export] Instance op_bind : MBind Op := λ A B k m e,
  match m e with (inl err, e') => (inl err, e') | (inr a, e') => k a e' end.

Definition call {A} (f : World → (OpError + A) * World) : Op A := λ e,
  let run r fs := (r.1, {| env_world := r.2; env_faults := fs |}) in
  match env_faults e with
  | [] => run (f (env_world e)) []
  | NoFault :: fs => run (f (env_world e)) fs
  | FailBefore :: fs => (inl Unavailable, {| env_world := env_world e; env_faults := fs |})
  | FailAfter :: fs => (inl Unavailable, {| env_world := (f (env_world e)).2; env_faults := fs |})
  end.

(** [if let Err(e) = ...] and the like: a panic is not caught. *)
Definition attempt {A} (m : Op A) : Op (OpError + A) := λ e,
  match m e with
  | (inl Panicked, e') => (inl Panicked, e')
  | (r, e') => (inr r, e')
  end.

Definition unwrap {A} (o : option A) : Op A := λ e,
  match o with Some a => (inr a, e) | None => (inl Panicked, e) end.

(** ** The calls *)
Definition upd_run (f : option RunObj → option RunObj) (w : World) : World :=
  {| w_run := f (w_run w); w_pods := w_pods w; w_jobs := w_jobs w; w_code_locations := w_code_locations w;
     w_cancel_flags := w_cancel_flags w; w_run_status := w_run_status w; w_outcomes := w_outcomes w; w_progress := w_progress w |}.
Definition upd_pods (f : gmap string (option string) → gmap string (option string)) (w : World) : World :=
  {| w_run := w_run w; w_pods := f (w_pods w); w_jobs := w_jobs w; w_code_locations := w_code_locations w;
     w_cancel_flags := w_cancel_flags w; w_run_status := w_run_status w; w_outcomes := w_outcomes w; w_progress := w_progress w |}.
Definition upd_jobs (f : gset (string * string) → gset (string * string)) (w : World) : World :=
  {| w_run := w_run w; w_pods := w_pods w; w_jobs := f (w_jobs w); w_code_locations := w_code_locations w;
     w_cancel_flags := w_cancel_flags w; w_run_status := w_run_status w; w_outcomes := w_outcomes w; w_progress := w_progress w |}.
Definition upd_flags (f : gset string → gset string) (w : World) : World :=
  {| w_run := w_run w; w_pods := w_pods w; w_jobs := w_jobs w; w_code_locations := w_code_locations w;
     w_cancel_flags := f (w_cancel_flags w); w_run_status := w_run_status w; w_outcomes := w_outcomes w; w_progress := w_progress w |}.
Definition upd_run_status (f : gmap string RunStatus → gmap string RunStatus) (w : World) : World :=
  {| w_run := w_run w; w_pods := w_pods w; w_jobs := w_jobs w; w_code_locations := w_code_locations w;
     w_cancel_flags := w_cancel_flags w; w_run_status := f (w_run_status w); w_outcomes := w_outcomes w; w_progress := w_progress w |}.

Definition opt_or {A} (new old : option A) : option A := match new with Some _ => new | None => old end.

(** A merge patch of the serialized status: fields left out keep their value. *)
Definition merge_status (new old : RunCrdStatus) : RunCrdStatus :=
  {| crd_phase := opt_or (crd_phase new) (crd_phase old);
     crd_run_id := opt_or (crd_run_id new) (crd_run_id old);
     crd_executor_pod := opt_or (crd_executor_pod new) (crd_executor_pod old);
     crd_restarts_without_progress := crd_restarts_without_progress new;
     crd_total_restarts := crd_total_restarts new;
     crd_last_progress_at := opt_or (crd_last_progress_at new) (crd_last_progress_at old);
     crd_completed_steps := opt_or (crd_completed_steps new) (crd_completed_steps old);
     crd_total_steps := opt_or (crd_total_steps new) (crd_total_steps old);
     crd_started_at := opt_or (crd_started_at new) (crd_started_at old);
     crd_completed_at := opt_or (crd_completed_at new) (crd_completed_at old);
     crd_message := opt_or (crd_message new) (crd_message old);
     crd_conditions := match crd_conditions new with [] => crd_conditions old | cs => cs end |}.

Definition with_status (st : RunCrdStatus) (r : RunObj) : RunObj :=
  {| obj_name := obj_name r; obj_deleting := obj_deleting r; obj_finalizers := obj_finalizers r;
     obj_annotations := obj_annotations r; obj_spec := obj_spec r; obj_status := Some st |}.

Definition with_finalizers (fs : list string) (r : RunObj) : RunObj :=
  {| obj_name := obj_name r; obj_deleting := obj_deleting r; obj_finalizers := fs;
     obj_annotations := obj_annotations r; obj_spec := obj_spec r; obj_status := obj_status r |}.

Definition patch_status (st : RunCrdStatus) : Op unit := call (λ w,
  match w_run w with
  | None => (inl NotFound404, w)
  | Some r => (inr tt, upd_run (λ _, Some (with_status (merge_status st (default default_status (obj_status r))) r)) w)
  end).

(** A merge patch of the list of finalizers replaces it; an object being deleted goes with
    its last finalizer. *)
Definition patch_finalizers (fs : list string) : Op unit := call (λ w,
  match w_run w with
  | None => (inl NotFound404, w)
  | Some r =>
      (inr tt, upd_run (λ _, if obj_deleting r && bool_decide (fs = []) then None else Some (with_finalizers fs r)) w)
  end).

(** [false]: the name is taken, and the pod there adopted. *)
Definition create_pod (name : string) : Op bool := call (λ w,
  match w_pods w !! name with
  | Some _ => (inr false, w)
  | None => (inr true, upd_pods (<[name := Some "Pending"]>) w)
  end).

Definition get_pod_opt (name : string) : Op (option (option string)) := call (λ w, (inr (w_pods w !! name), w)).

(** The pod is gone at once; the time its containers get to stop is not modelled. *)
Definition delete_pod_if_exists (name : string) : Op bool := call (λ w,
  (inr (bool_decide (is_Some (w_pods w !! name))), upd_pods (delete name) w)).

Definition delete_jobs (run_id : string) : Op unit := call (λ w,
  (inr tt, upd_jobs (filter (λ j : string * string, j.1 ≠ run_id)) w)).

Definition fetch_cl_spec (run : RunObj) : Op unit := call (λ w,
  (if bool_decide (spec_code_location (obj_spec run) ∈ w_code_locations w) then inr tt else inl NotFound404, w)).

Definition op_request_cancellation (run_id : string) : Op unit := call (λ w, (inr tt, upd_flags (λ f, {[run_id]} ∪ f) w)).
Definition get_run_outcome (run_id : string) : Op (option RunOutcome) := call (λ w, (inr (w_outcomes w !! run_id), w)).
Definition get_run_progress (run_id : string) : Op (N * N) := call (λ w, (inr (default (0, 0)%N (w_progress w !! run_id)), w)).
Definition op_update_run_status (run_id : string) (st : RunStatus) : Op unit := call (λ w,
  (inr tt, upd_run_status (alter (λ _, st) run_id) w)).

(** ** Helpers of the handlers *)
Inductive Action := Requeue (secs : Z) | AwaitChange.

Inductive PodState := PodPending | PodRunning | PodSucceeded | PodFailed | PodUnknown.

#[export] Instance PodState_eq_dec : EqDecision PodState.
Proof. solve_decision. Defined.

Definition pod_phase (phase : option string) : PodState :=
  match phase with
  | Some p =>
      if String.eqb p "Succeeded" then PodSucceeded
      else if String.eqb p "Failed" then PodFailed
      else if String.eqb p "Running" then PodRunning
      else if String.eqb p "Pending" then PodPending
      else PodUnknown
  | None => PodUnknown
  end.

Definition executor_pod_name (run_name : string) : string := run_name +:+ "-executor".

Definition push_condition (c : RunCondition) (cs : list RunCondition) : list RunCondition :=
  let cs := cs ++ [c] in
  if (MAX_CONDITIONS <? length cs)%nat then drop (length cs - MAX_CONDITIONS) cs else cs.

Definition cleanup_step_jobs (run_id : string) : Op unit := _ ← attempt (delete_jobs run_id); mret tt.

Definition storage_status (p : RunPhase) : option RunStatus :=
  match p with
  | PhSucceeded => Some Success
  | PhFailed | PhTimedOut => Some Failure
  | PhCancelled => Some Canceled
  | _ => None
  end.

Definition sync_run_status_to_storage (run_id : string) (phase : RunPhase) : Op unit :=
  match storage_status phase with
  | None => mret tt
  | Some st => _ ← attempt (op_update_run_status run_id st); mret tt
  end.

(** ** Status edits *)
Definition set_phase (p : RunPhase) (s : RunCrdStatus) : RunCrdStatus :=
  {| crd_phase := Some p; crd_run_id := crd_run_id s; crd_executor_pod := crd_executor_pod s;
     crd_restarts_without_progress := crd_restarts_without_progress s; crd_total_restarts := crd_total_restarts s;
     crd_last_progress_at := crd_last_progress_at s; crd_completed_steps := crd_completed_steps s; crd_total_steps := crd_total_steps s;
     crd_started_at := crd_started_at s; crd_completed_at := crd_completed_at s; crd_message := crd_message s;
     crd_conditions := crd_conditions s |}.
Definition set_pod (pod : string) (s : RunCrdStatus) : RunCrdStatus :=
  {| crd_phase := crd_phase s; crd_run_id := crd_run_id s; crd_executor_pod := Some pod;
     crd_restarts_without_progress := crd_restarts_without_progress s; crd_total_restarts := crd_total_restarts s;
     crd_last_progress_at := crd_last_progress_at s; crd_completed_steps := crd_completed_steps s; crd_total_steps := crd_total_steps s;
     crd_started_at := crd_started_at s; crd_completed_at := crd_completed_at s; crd_message := crd_message s;
     crd_conditions := crd_conditions s |}.
Definition set_restarts (without_progress total : N) (s : RunCrdStatus) : RunCrdStatus :=
  {| crd_phase := crd_phase s; crd_run_id := crd_run_id s; crd_executor_pod := crd_executor_pod s;
     crd_restarts_without_progress := without_progress; crd_total_restarts := total;
     crd_last_progress_at := crd_last_progress_at s; crd_completed_steps := crd_completed_steps s; crd_total_steps := crd_total_steps s;
     crd_started_at := crd_started_at s; crd_completed_at := crd_completed_at s; crd_message := crd_message s;
     crd_conditions := crd_conditions s |}.
Definition set_progress_at (t : string) (s : RunCrdStatus) : RunCrdStatus :=
  {| crd_phase := crd_phase s; crd_run_id := crd_run_id s; crd_executor_pod := crd_executor_pod s;
     crd_restarts_without_progress := crd_restarts_without_progress s; crd_total_restarts := crd_total_restarts s;
     crd_last_progress_at := Some t; crd_completed_steps := crd_completed_steps s; crd_total_steps := crd_total_steps s;
     crd_started_at := crd_started_at s; crd_completed_at := crd_completed_at s; crd_message := crd_message s;
     crd_conditions := crd_conditions s |}.
Definition set_steps (p : N * N) (s : RunCrdStatus) : RunCrdStatus :=
  {| crd_phase := crd_phase s; crd_run_id := crd_run_id s; crd_executor_pod := crd_executor_pod s;
     crd_restarts_without_progress := crd_restarts_without_progress s; crd_total_restarts := crd_total_restarts s;
     crd_last_progress_at := crd_last_progress_at s; crd_completed_steps := Some p.1; crd_total_steps := Some p.2;
     crd_started_at := crd_started_at s; crd_completed_at := crd_completed_at s; crd_message := crd_message s;
     crd_conditions := crd_conditions s |}.
Definition set_completed_at (t : string) (s : RunCrdStatus) : RunCrdStatus :=
  {| crd_phase := crd_phase s; crd_run_id := crd_run_id s; crd_executor_pod := crd_executor_pod s;
     crd_restarts_without_progress := crd_restarts_without_progress s; crd_total_restarts := crd_total_restarts s;
     crd_last_progress_at := crd_last_progress_at s; crd_completed_steps := crd_completed_steps s; crd_total_steps := crd_total_steps s;
     crd_started_at := crd_started_at s; crd_completed_at := Some t; crd_message := crd_message s;
     crd_conditions := crd_conditions s |}.
Definition set_message (m : string) (s : RunCrdStatus) : RunCrdStatus :=
  {| crd_phase := crd_phase s; crd_run_id := crd_run_id s; crd_executor_pod := crd_executor_pod s;
     crd_restarts_without_progress := crd_restarts_without_progress s; crd_total_restarts := crd_total_restarts s;
     crd_last_progress_at := crd_last_progress_at s; crd_completed_steps := crd_completed_steps s; crd_total_steps := crd_total_steps s;
     crd_started_at := crd_started_at s; crd_completed_at := crd_completed_at s; crd_message := Some m;
     crd_conditions := crd_conditions s |}.
Definition add_condition (c : RunCondition) (s : RunCrdStatus) : RunCrdStatus :=
  {| crd_phase := crd_phase s; crd_run_id := crd_run_id s; crd_executor_pod := crd_executor_pod s;
     crd_restarts_without_progress := crd_restarts_without_progress s; crd_total_restarts := crd_total_restarts s;
     crd_last_progress_at := crd_last_progress_at s; crd_completed_steps := crd_completed_steps s; crd_total_steps := crd_total_steps s;
     crd_started_at := crd_started_at s; crd_completed_at := crd_completed_at s; crd_message := crd_message s;
     crd_conditions := push_condition c (crd_conditions s) |}.

Definition apply_outcome_to_status (o : RunOutcome) (s : RunCrdStatus) : RunCrdStatus :=
  match o with
  | OutcomeSuccess c t => set_message (pretty c +:+ "/" +:+ pretty t +:+ " steps completed") (set_steps (c, t) (set_phase PhSucceeded s))
  | OutcomeFailure m c t => set_message m (set_steps (c, t) (set_phase PhFailed s))
  | OutcomeCancelled c t => set_message "Run was cancelled" (set_steps (c, t) (set_phase PhCancelled s))
  end.

Definition status_field {A} (f : RunCrdStatus → option A) (run : RunObj) : option A :=
  match obj_status run with Some s => f s | None => None end.

Definition is_cancel_requested (run : RunObj) : bool :=
  match obj_annotations run !! CANCEL_ANNOTATION with Some v => String.eqb v "true" | None => false end.

(** ** The handlers *)
Section handlers.
Context (show_ts : Z → string) (parse_ts : string → option Z).   (* jiff timestamps in nanoseconds *)
Context (fresh_id : string).                                     (* the UUID minted *)
Context (now : Z).                                               (* the clock during the pass *)

Definition elapsed_secs (since : Z) : Z := Z.max 0 (Z.quot (now - since) 1000000000).

Definition make_condition (type_ reason : string) : RunCondition :=
  {| cond_type := type_; cond_status := "True"; cond_last_transition_time := Some (show_ts now);
     cond_reason := Some reason; cond_message := None |}.

Definition reconcile_init (run : RunObj) : Op Action :=
  let run_id := default fresh_id (spec_run_id (obj_spec run)) in
  let status := {| crd_phase := Some PhPending; crd_run_id := Some run_id; crd_executor_pod := None;
                   crd_restarts_without_progress := 0; crd_total_restarts := 0; crd_last_progress_at := None;
                   crd_completed_steps := None; crd_total_steps := None; crd_started_at := Some (show_ts now);
                   crd_completed_at := None; crd_message := None; crd_conditions := [] |} in
  _ ← patch_status status; mret (Requeue 1).

Definition reconcile_pending (run : RunObj) : Op Action :=
  status ← unwrap (obj_status run);
  _ ← unwrap (crd_run_id status);
  let pod_name := executor_pod_name (obj_name run) in
  _ ← fetch_cl_spec run;
  _ ← create_pod pod_name;
  _ ← patch_status (add_condition (make_condition CONDITION_EXECUTOR_READY "PodCreated")
                     (set_pod pod_name (set_phase PhRunning status)));
  mret (Requeue 5).

(** The status is synced when the patched phase is terminal. *)
Definition sync_phase (run_id : string) (s : RunCrdStatus) : Op unit :=
  match crd_phase s with Some p => sync_run_status_to_storage run_id p | None => mret tt end.

(** The counters and step counts after a failure of the executor. *)
Definition count_restart (progress : option (N * N)) (status : RunCrdStatus) : RunCrdStatus :=
  let current_completed := match progress with Some p => p.1 | None => 0%N end in
  let last_known_completed := default 0%N (crd_completed_steps status) in
  let progress_made := (last_known_completed <? current_completed)%N in
  let total := u32_incr (crd_total_restarts status) in
  let s := if progress_made then set_progress_at (show_ts now) (set_restarts 0 total status)
           else set_restarts (u32_incr (crd_restarts_without_progress status)) total status in
  match progress with Some p => set_steps p s | None => s end.

Definition handle_executor_failure (run : RunObj) : Op Action :=
  status ← unwrap (obj_status run);
  run_id ← unwrap (crd_run_id status);
  let max_restarts := spec_max_restarts (obj_spec run) in
  stored ← attempt (get_run_outcome run_id);
  match stored with
  | inr (Some outcome) =>
      let new_status := apply_outcome_to_status outcome (set_completed_at (show_ts now) status) in
      _ ← patch_status new_status;
      _ ← sync_phase run_id new_status;
      mret AwaitChange
  | _ =>
      progress ← attempt (get_run_progress run_id);
      let new_status := count_restart (match progress with inr p => Some p | inl _ => None end) status in
      if (max_restarts <? crd_restarts_without_progress new_status)%N then
        let new_status := set_completed_at (show_ts now) new_status in
        stored ← attempt (get_run_outcome run_id);
        let new_status :=
          match stored with
          | inr (Some outcome) => apply_outcome_to_status outcome new_status
          | _ => set_message ("Executor failed " +:+ pretty (crd_restarts_without_progress new_status)
                              +:+ " time(s) without progress (max: " +:+ pretty max_restarts +:+ ")")
                   (set_phase PhFailed new_status)
          end in
        _ ← patch_status new_status;
        _ ← sync_phase run_id new_status;
        mret AwaitChange
      else
        let pod_name := obj_name run +:+ "-executor-" +:+ pretty (crd_total_restarts new_status) in
        _ ← match crd_executor_pod status with
            | Some old_pod => _ ← attempt (delete_pod_if_exists old_pod); mret tt
            | None => mret tt
            end;
        _ ← fetch_cl_spec run;
        _ ← create_pod pod_name;
        let budget_msg := "Restart " +:+ pretty (crd_restarts_without_progress new_status) +:+ "/" +:+ pretty max_restarts in
        _ ← patch_status (add_condition (make_condition CONDITION_EXECUTOR_RESTARTED budget_msg) (set_pod pod_name new_status));
        mret (Requeue 5)
  end.

(** [update_progress]; its caller discards the result and any error. *)
Definition update_progress (run : RunObj) : Op bool :=
  status ← unwrap (obj_status run);
  run_id ← unwrap (crd_run_id status);
  progress ← attempt (get_run_progress run_id);
  match progress with
  | inl _ => mret false
  | inr p =>
      let old_completed := default 0%N (crd_completed_steps status) in
      if (p.1 =? old_completed)%N && bool_decide (crd_total_steps status = Some p.2) then mret false
      else
        let new_status := set_steps p status in
        let new_status := if (old_completed <? p.1)%N then set_progress_at (show_ts now) new_status else new_status in
        _ ← patch_status new_status;
        mret (old_completed <? p.1)%N
  end.

Definition start_cancelling (run : RunObj) : Op Action :=
  status ← unwrap (obj_status run);
  run_id ← unwrap (crd_run_id status);
  _ ← attempt (op_request_cancellation run_id);
  _ ← attempt (cleanup_step_jobs run_id);
  _ ← patch_status (add_condition (make_condition CONDITION_CANCELLING "CancelRequested") (set_phase PhCancelling status));
  mret (Requeue 5).

(** Step counts from storage, when it answers. *)
Definition with_progress (run_id : string) (s : RunCrdStatus) : Op RunCrdStatus :=
  progress ← attempt (get_run_progress run_id);
  mret (match progress with inr p => set_steps p s | inl _ => s end).

Definition finalize_cancelled (run : RunObj) (message : option string) : Op Action :=
  status ← unwrap (obj_status run);
  run_id ← unwrap (crd_run_id status);
  new_status ← with_progress run_id (set_completed_at (show_ts now) (set_phase PhCancelled status));
  _ ← patch_status (set_message (default "Run was cancelled" message) new_status);
  _ ← sync_run_status_to_storage run_id PhCancelled;
  mret AwaitChange.

Definition cancelling_since (status : RunCrdStatus) : option Z :=
  match list_find (λ c, cond_type c = CONDITION_CANCELLING) (crd_conditions status) with
  | Some (_, c) => match cond_last_transition_time c with Some t => parse_ts t | None => None end
  | None => None
  end.

Definition reconcile_cancelling (run : RunObj) : Op Action :=
  status ← unwrap (obj_status run);
  run_id ← unwrap (crd_run_id status);
  let grace_period := spec_cancel_grace_period_seconds (obj_spec run) in
  let elapsed := match cancelling_since status with Some t => elapsed_secs t | None => 0%Z end in
  pod_exited ← match crd_executor_pod status with
               | None => mret true
               | Some pod_name =>
                   pod ← get_pod_opt pod_name;
                   mret (match pod with
                         | Some phase => bool_decide (pod_phase phase ∈ [PodSucceeded; PodFailed])
                         | None => true
                         end)
               end;
  if (pod_exited : bool) then
    _ ← attempt (cleanup_step_jobs run_id);
    finalize_cancelled run None
  else if (grace_period <=? elapsed)%Z then
    pod_name ← unwrap (crd_executor_pod status);
    _ ← delete_pod_if_exists pod_name;
    _ ← attempt (cleanup_step_jobs run_id);
    finalize_cancelled run (Some ("Cancelled after " +:+ pretty elapsed +:+ "s grace period (pod force-killed)"))
  else mret (Requeue (Z.min 30 (Z.max 5 (Z.max 0 (grace_period - elapsed))))).

Definition is_timed_out (run : RunObj) : bool :=
  match spec_timeout_seconds (obj_spec run) with
  | None => false
  | Some timeout_seconds =>
      match match status_field crd_started_at run with Some t => parse_ts t | None => None end with
      | Some t => (timeout_seconds <=? elapsed_secs t)%Z
      | None => false
      end
  end.

Definition transition_to_timed_out (run : RunObj) : Op Action :=
  status ← unwrap (obj_status run);
  run_id ← unwrap (crd_run_id status);
  let timeout := default 0%Z (spec_timeout_seconds (obj_spec run)) in
  _ ← attempt (op_request_cancellation run_id);
  _ ← match crd_executor_pod status with Some pod_name => delete_pod_if_exists pod_name | None => mret false end;
  _ ← attempt (cleanup_step_jobs run_id);
  new_status ← with_progress run_id
                 (set_message ("Run exceeded " +:+ pretty timeout +:+ "s timeout")
                    (set_completed_at (show_ts now) (set_phase PhTimedOut status)));
  _ ← patch_status new_status;
  _ ← sync_run_status_to_storage run_id PhTimedOut;
  mret AwaitChange.

(** The pod succeeded: the stored outcome decides, and success stands without one. *)
Definition complete_succeeded (run : RunObj) : Op Action :=
  status ← unwrap (obj_status run);
  run_id ← unwrap (crd_run_id status);
  let new_status := set_completed_at (show_ts now) status in
  stored ← attempt (get_run_outcome run_id);
  let '(new_status, executor_wrote_status) :=
    match stored with
    | inr (Some outcome) => (apply_outcome_to_status outcome new_status, true)
    | inr None => (set_message "Pod succeeded (no outcome in storage)" (set_phase PhSucceeded new_status), false)
    | inl _ => (set_message "Pod succeeded (storage read failed)" (set_phase PhSucceeded new_status), false)
    end in
  _ ← patch_status new_status;
  _ ← (if (executor_wrote_status : bool) then mret tt else sync_phase run_id new_status);
  mret AwaitChange.

Definition reconcile_running (run : RunObj) : Op Action :=
  status ← unwrap (obj_status run);
  _ ← unwrap (crd_run_id status);
  if is_cancel_requested run then start_cancelling run
  else if is_timed_out run then transition_to_timed_out run
  else
    let pod_name := default (executor_pod_name (obj_name run)) (crd_executor_pod status) in
    pod ← get_pod_opt pod_name;
    match pod with
    | Some phase =>
        match pod_phase phase with
        | PodSucceeded => complete_succeeded run
        | PodFailed => handle_executor_failure run
        | PodRunning => _ ← attempt (update_progress run); mret (Requeue 10)
        | PodPending | PodUnknown => mret (Requeue 10)
        end
    | None => handle_executor_failure run
    end.

Definition add_finalizer : Op unit := patch_finalizers [FINALIZER].

Definition handle_deletion (run : RunObj) : Op Action :=
  if negb (bool_decide (FINALIZER ∈ obj_finalizers run)) then mret AwaitChange
  else
    let run_id := status_field crd_run_id run in
    let is_terminal := match status_field crd_phase run with Some p => phase_terminal p | None => false end in
    _ ← match run_id with
        | Some run_id =>
            if is_terminal then mret tt
            else
              _ ← attempt (op_request_cancellation run_id);
              sync_run_status_to_storage run_id PhCancelled
        | None => mret tt
        end;
    _ ← match status_field crd_executor_pod run with Some pod_name => delete_pod_if_exists pod_name | None => mret false end;
    _ ← match run_id with Some run_id => _ ← attempt (cleanup_step_jobs run_id); mret tt | None => mret tt end;
    _ ← patch_finalizers (filter (λ f, f ≠ FINALIZER) (obj_finalizers run));
    mret AwaitChange.

Definition reconcile (run : RunObj) : Op Action :=
  if obj_deleting run then handle_deletion run
  else if negb (bool_decide (FINALIZER ∈ obj_finalizers run)) then _ ← add_finalizer; mret (Requeue 1)
  else
    match status_field crd_phase run with
    | None => reconcile_init run
    | Some PhPending => reconcile_pending run
    | Some PhRunning => reconcile_running run
    | Some PhCancelling => reconcile_cancelling run
    | Some _ => mret AwaitChange
    end.
End handlers.

(** What the controller does with an error. *)
Definition error_policy (_ : OpError) : Action := Requeue 30.
