(* ===== verification/OperatorInv.v ===== *)
(** * The invariant of the run reconciler

    A logic for computations whose calls may fail at any point, and with it that a pass keeps
    the invariant of the object and moves its phase along the allowed edges. *)

From S2P Require Import Prelude RunQueue OperatorRun.
From stdpp Require Import pretty.

(** ** Weakest preconditions over all faults *)
Definition wp {A} (m : Op A) (w : World) (Q : OpError + A → World → Prop) : Prop :=
  ∀ fs, let r := m {| env_world := w; env_faults := fs |} in Q r.1 (env_world r.2).

Lemma wp_mono {A} (m : Op A) w (Q Q' : OpError + A → World → Prop) :
  wp m w Q → (∀ r w', Q r w' → Q' r w') → wp m w Q'.
Proof. intros H HQ fs. apply HQ, H. Qed.

Lemma wp_ret {A} (a : A) w (Q : OpError + A → World → Prop) : Q (inr a) w → wp (mret a) w Q.
Proof. intros H fs. exact H. Qed.

Lemma wp_bind {A B} (m : Op A) (k : A → Op B) w (Q : OpError + B → World → Prop) :
  wp m w (λ r w', match r with inl e => Q (inl e) w' | inr a => wp (k a) w' Q end) → wp (m ≫= k) w Q.
Proof.
  intros H fs. specialize (H fs). cbv zeta in *. unfold mbind, op_bind.
  destruct (m _) as [[e|a] [w' fs']]; cbn in *; [done|]. apply (H fs').
Qed.

Lemma wp_call {A} (f : World → (OpError + A) * World) w (Q : OpError + A → World → Prop) :
  Q (f w).1 (f w).2 → Q (inl Unavailable) w → Q (inl Unavailable) (f w).2 → wp (call f) w Q.
Proof. intros H1 H2 H3 [|[] fs]; done. Qed.

Lemma wp_attempt {A} (m : Op A) w (Q : OpError + (OpError + A) → World → Prop) :
  wp m w (λ r w', match r with inl Panicked => Q (inl Panicked) w' | _ => Q (inr r) w' end) → wp (attempt m) w Q.
Proof.
  intros H fs. specialize (H fs). cbv zeta in *. unfold attempt. destruct (m _) as [[[]|a] [w' fs']]; exact H.
Qed.

Lemma wp_unwrap {A} (o : option A) a w (Q : OpError + A → World → Prop) : o = Some a → Q (inr a) w → wp (unwrap o) w Q.
Proof. intros -> H fs. exact H. Qed.

(** Calls that leave the object alone and do not panic. *)
Definition quiet {A} (m : Op A) : Prop := ∀ w, wp m w (λ r w', w_run w' = w_run w ∧ r ≠ inl Panicked).

Lemma quiet_ret {A} (a : A) : quiet (mret a).
Proof. intros w. by apply wp_ret. Qed.

Lemma quiet_bind {A B} (m : Op A) (k : A → Op B) : quiet m → (∀ a, quiet (k a)) → quiet (m ≫= k).
Proof.
  intros Hm Hk w. apply wp_bind. eapply wp_mono; [apply Hm|]. intros [e|a] w' [Hw Hr]; [split; congruence|].
  eapply wp_mono; [apply Hk|]. intros r w'' [Hw' Hr']. split; congruence.
Qed.

Lemma quiet_call {A} (f : World → (OpError + A) * World) :
  (∀ w, w_run (f w).2 = w_run w ∧ (f w).1 ≠ inl Panicked) → quiet (call f).
Proof. intros H w. destruct (H w). by apply wp_call. Qed.

Lemma quiet_attempt {A} (m : Op A) : quiet m → quiet (attempt m).
Proof. intros H w. apply wp_attempt. eapply wp_mono; [apply H|]. intros [[]|a] w' [Hw Hr]; done. Qed.

Lemma quiet_create_pod n : quiet (create_pod n).
Proof. apply quiet_call. intros w. by destruct (w_pods w !! n). Qed.
Lemma quiet_get_pod n : quiet (get_pod_opt n).
Proof. by apply quiet_call. Qed.
Lemma quiet_delete_pod n : quiet (delete_pod_if_exists n).
Proof. by apply quiet_call. Qed.
Lemma quiet_delete_jobs r : quiet (delete_jobs r).
Proof. by apply quiet_call. Qed.
Lemma quiet_fetch r : quiet (fetch_cl_spec r).
Proof. apply quiet_call. intros w. cbn. by case_bool_decide. Qed.
Lemma quiet_request r : quiet (op_request_cancellation r).
Proof. by apply quiet_call. Qed.
Lemma quiet_outcome r : quiet (get_run_outcome r).
Proof. by apply quiet_call. Qed.
Lemma quiet_progress r : quiet (get_run_progress r).
Proof. by apply quiet_call. Qed.
Lemma quiet_update r st : quiet (op_update_run_status r st).
Proof. by apply quiet_call. Qed.

Create HintDb quiet.
#[export] Hint Resolve quiet_ret quiet_bind quiet_attempt quiet_create_pod quiet_get_pod quiet_delete_pod quiet_delete_jobs
  quiet_fetch quiet_request quiet_outcome quiet_progress quiet_update : quiet.

Lemma quiet_cleanup r : quiet (cleanup_step_jobs r).
Proof. unfold cleanup_step_jobs. auto with quiet. Qed.
#[export] Hint Resolve quiet_cleanup : quiet.
Lemma quiet_sync r p : quiet (sync_run_status_to_storage r p).
Proof. unfold sync_run_status_to_storage. destruct (storage_status p); auto with quiet. Qed.
#[export] Hint Resolve quiet_sync : quiet.
Lemma quiet_sync_phase r s : quiet (sync_phase r s).
Proof. unfold sync_phase. destruct (crd_phase s); auto with quiet. Qed.
Lemma quiet_with_progress r s : quiet (with_progress r s).
Proof. unfold with_progress. auto with quiet. Qed.
#[export] Hint Resolve quiet_sync_phase quiet_with_progress : quiet.

(** ** One patch of the object *)

(** What a pass may leave: the object as it was, or with the status [P] allows. *)
Definition patched (run : RunObj) (P : RunCrdStatus → Prop) (w' : World) : Prop :=
  w_run w' = Some run ∨ ∃ st, P st ∧ w_run w' = Some (with_status st run).

Definition pass {A} (run : RunObj) (P : RunCrdStatus → Prop) (m : Op A) : Prop :=
  ∀ w, w_run w = Some run → wp m w (λ r w', r ≠ inl Panicked ∧ patched run P w').

Lemma pass_quiet {A} run P (m : Op A) : quiet m → pass run P m.
Proof. intros H w Hw. eapply wp_mono; [apply H|]. intros r w' [Hw' Hr]. split; [done|]. left. congruence. Qed.

Lemma pass_bind {A B} run P (m : Op A) (k : A → Op B) : quiet m → (∀ a, pass run P (k a)) → pass run P (m ≫= k).
Proof.
  intros Hm Hk w Hw. apply wp_bind. eapply wp_mono; [apply Hm|]. intros [e|a] w' [Hw' Hr].
  - split; [congruence|]. left. congruence.
  - apply Hk. congruence.
Qed.

Lemma pass_unwrap {A B} run P (o : option A) a (k : A → Op B) : o = Some a → pass run P (k a) → pass run P (unwrap o ≫= k).
Proof. intros -> Hk w Hw. apply wp_bind. by eapply wp_unwrap, Hk. Qed.

Lemma pass_patch {B} run (P : RunCrdStatus → Prop) st (k : unit → Op B) :
  P (merge_status st (default default_status (obj_status run))) → (∀ a, quiet (k a)) → pass run P (patch_status st ≫= k).
Proof.
  intros HP Hk w Hw. apply wp_bind. unfold patch_status.
  assert (Hp : patched run P (upd_run (λ _, Some (with_status (merge_status st (default default_status (obj_status run))) run)) w)).
  { right. eauto. }
  apply wp_call; cbn beta; rewrite ?Hw; cbn [fst snd]; [|by split; [|left]|by split].
  eapply wp_mono; [apply Hk|]. intros r w' [Hw' Hr]. split; [done|]. unfold patched in *. by rewrite Hw'.
Qed.

Lemma pass_attempt {A B} run P (m : Op A) (b : B) : pass run P m → pass run P (attempt m ≫= λ _, mret b).
Proof.
  intros H w Hw. apply wp_bind, wp_attempt. eapply wp_mono; [by apply H|].
  intros [[]|a] w' [Hr Hp]; try done; by apply wp_ret.
Qed.

(** ** Patches that only add *)
Definition opt_ext {A} (new old : option A) : Prop := new = None → old = None.

Record extends (new old : RunCrdStatus) : Prop := {
  xt_phase : opt_ext (crd_phase new) (crd_phase old);
  xt_run_id : opt_ext (crd_run_id new) (crd_run_id old);
  xt_pod : opt_ext (crd_executor_pod new) (crd_executor_pod old);
  xt_progress_at : opt_ext (crd_last_progress_at new) (crd_last_progress_at old);
  xt_completed : opt_ext (crd_completed_steps new) (crd_completed_steps old);
  xt_total : opt_ext (crd_total_steps new) (crd_total_steps old);
  xt_started : opt_ext (crd_started_at new) (crd_started_at old);
  xt_completed_at : opt_ext (crd_completed_at new) (crd_completed_at old);
  xt_message : opt_ext (crd_message new) (crd_message old);
  xt_conditions : crd_conditions new = [] → crd_conditions old = []
}.

Lemma opt_or_ext {A} (new old : option A) : opt_ext new old → opt_or new old = new.
Proof. destruct new; [done|]. intros H. by apply H. Qed.

Lemma merge_extends new old : extends new old → merge_status new old = new.
Proof.
  intros []. unfold merge_status. rewrite !opt_or_ext by done.
  destruct new as [? ? ? ? ? ? ? ? ? ? ? [|c cs]]; cbn in *; [|done]. by rewrite xt_conditions0.
Qed.

Lemma push_condition_ne c cs : push_condition c cs ≠ [].
Proof.
  unfold push_condition. destruct (_ <? _)%nat eqn:E; [|by destruct cs].
  intros Hn. apply (f_equal length) in Hn. rewrite length_drop in Hn. apply Nat.ltb_lt in E. cbn [length] in Hn.
  unfold MAX_CONDITIONS in *. lia.
Qed.

Create HintDb extends.
Lemma extends_refl s : extends s s.
Proof. split; unfold opt_ext; auto. Qed.
Lemma extends_phase p s old : extends s old → extends (set_phase p s) old.
Proof. intros []. split; cbn; unfold opt_ext in *; auto; discriminate. Qed.
Lemma extends_pod n s old : extends s old → extends (set_pod n s) old.
Proof. intros []. split; cbn; unfold opt_ext in *; auto; discriminate. Qed.
Lemma extends_restarts a b s old : extends s old → extends (set_restarts a b s) old.
Proof. intros []. split; cbn; unfold opt_ext in *; auto; discriminate. Qed.
Lemma extends_progress_at t s old : extends s old → extends (set_progress_at t s) old.
Proof. intros []. split; cbn; unfold opt_ext in *; auto; discriminate. Qed.
Lemma extends_steps p s old : extends s old → extends (set_steps p s) old.
Proof. intros []. split; cbn; unfold opt_ext in *; auto; discriminate. Qed.
Lemma extends_completed_at t s old : extends s old → extends (set_completed_at t s) old.
Proof. intros []. split; cbn; unfold opt_ext in *; auto; discriminate. Qed.
Lemma extends_message m s old : extends s old → extends (set_message m s) old.
Proof. intros []. split; cbn; unfold opt_ext in *; auto; discriminate. Qed.
Lemma extends_condition c s old : extends s old → extends (add_condition c s) old.
Proof. intros []. split; cbn; unfold opt_ext in *; auto. intros H. by apply push_condition_ne in H. Qed.
#[export] Hint Resolve extends_refl extends_phase extends_pod extends_restarts extends_progress_at extends_steps
  extends_completed_at extends_message extends_condition : extends.

Lemma extends_outcome o s old : extends s old → extends (apply_outcome_to_status o s) old.
Proof. destruct o; cbn; auto with extends. Qed.
Lemma extends_count show_ts now p s old : extends s old → extends (count_restart show_ts now p s) old.
Proof. unfold count_restart. intros H. destruct p; (destruct (_ <? _)%N; auto 6 with extends). Qed.
#[export] Hint Resolve extends_outcome extends_count : extends.

(** ** The invariant of an object *)
Section invariant.
Context (show_ts : Z → string) (parse_ts : string → option Z).
Context (parse_show : ∀ t, parse_ts (show_ts t) = Some t).

Definition restart_pod_name (name : string) (n : N) : string := name +:+ "-executor-" +:+ pretty n.

Definition unsettled (p : option RunPhase) : bool :=
  match p with None | Some PhPending | Some PhRunning => true | _ => false end.

Record status_ok (name : string) (spec : RunSpec) (s : RunCrdStatus) : Prop := {
  so_id : is_Some (crd_phase s) → is_Some (crd_run_id s);
  so_conditions : (length (crd_conditions s) <= MAX_CONDITIONS)%nat;
  so_blank : crd_phase s = None → crd_executor_pod s = None ∧ crd_run_id s = None;
  so_budget : crd_phase s = Some PhPending ∨ crd_phase s = Some PhRunning → (crd_restarts_without_progress s <= spec_max_restarts spec)%N;
  so_pod : (∀ p, crd_phase s = Some p → phase_terminal p = false) → ∀ n, crd_executor_pod s = Some n →
    n = executor_pod_name name ∨ n = restart_pod_name name (crd_total_restarts s);
  so_has_pod : crd_phase s = Some PhRunning ∨ crd_phase s = Some PhCancelling → is_Some (crd_executor_pod s);
  so_uncancelled : unsettled (crd_phase s) = true → ∀ c, c ∈ crd_conditions s → cond_type c ≠ CONDITION_CANCELLING;
  so_cancelling : crd_phase s = Some PhCancelling → is_Some (cancelling_since parse_ts s);
  so_completed : ∀ p, crd_phase s = Some p → phase_terminal p = true → is_Some (crd_completed_at s)
}.

Definition run_ok (run : RunObj) : Prop :=
  ∀ s, obj_status run = Some s → status_ok (obj_name run) (obj_spec run) s.

(** The moves of the phase. *)
Inductive phase_step : option RunPhase → RunPhase → Prop :=
| ps_init : phase_step None PhPending
| ps_create : phase_step (Some PhPending) PhRunning
| ps_running : phase_step (Some PhRunning) PhRunning
| ps_cancelling : phase_step (Some PhRunning) PhCancelling
| ps_cancelled : phase_step (Some PhCancelling) PhCancelled
| ps_end p : phase_terminal p = true → phase_step (Some PhRunning) p.

(** What a pass makes of a status. *)
Record status_step (run : RunObj) (s' : RunCrdStatus) : Prop := {
  ss_ok : status_ok (obj_name run) (obj_spec run) s';
  ss_phase : ∃ p, crd_phase s' = Some p ∧ phase_step (status_field crd_phase run) p;
  ss_id : ∀ i, status_field crd_run_id run = Some i → crd_run_id s' = Some i
}.

Lemma push_condition_length c cs : (length (push_condition c cs) <= MAX_CONDITIONS)%nat.
Proof.
  unfold push_condition. destruct (_ <? _)%nat eqn:E; [rewrite length_drop; apply Nat.ltb_lt in E; lia|].
  by apply Nat.ltb_ge in E.
Qed.

Lemma push_condition_elem c cs x : x ∈ push_condition c cs → x = c ∨ x ∈ cs.
Proof.
  unfold push_condition. destruct (_ <? _)%nat.
  - intros Hx. assert (x ∈ cs ++ [c]) as Hx' by (eapply elem_of_submseteq; [exact Hx|apply sublist_submseteq, sublist_drop]).
    set_solver.
  - set_solver.
Qed.

Lemma push_condition_last c cs : ∃ l, push_condition c cs = l ++ [c] ∧ l ⊆ cs.
Proof.
  unfold push_condition. destruct (_ <? _)%nat eqn:E; [|by exists cs].
  rewrite length_app. cbn [length]. exists (drop (length cs + 1 - MAX_CONDITIONS) cs).
  rewrite drop_app_le by (unfold MAX_CONDITIONS; lia). split; [done|].
  intros x Hx. eapply elem_of_submseteq; [exact Hx|apply sublist_submseteq, sublist_drop].
Qed.

(** Ends. *)
Lemma ok_end name spec s s' p :
  status_ok name spec s → is_Some (crd_run_id s') → crd_conditions s' = crd_conditions s →
  crd_phase s' = Some p → phase_terminal p = true → is_Some (crd_completed_at s') → status_ok name spec s'.
Proof.
  intros [] Hid Hc Hp Ht Hat. split; rewrite ?Hp, ?Hc; try done.
  - intros [[= ->]|[= ->]]; done.
  - intros H. by rewrite (H p eq_refl) in Ht.
  - intros [[= ->]|[= ->]]; done.
  - by destruct p.
  - intros [= ->]. done.
Qed.

(** Running on, with a pod and within the budget. *)
Lemma ok_running name spec s s' :
  status_ok name spec s → unsettled (crd_phase s) = true → is_Some (crd_run_id s') → crd_phase s' = Some PhRunning →
  (length (crd_conditions s') <= MAX_CONDITIONS)%nat →
  (∀ c, c ∈ crd_conditions s' → c ∈ crd_conditions s ∨ cond_type c ≠ CONDITION_CANCELLING) →
  (crd_restarts_without_progress s' <= spec_max_restarts spec)%N →
  (∃ n, crd_executor_pod s' = Some n ∧ (n = executor_pod_name name ∨ n = restart_pod_name name (crd_total_restarts s'))) →
  status_ok name spec s'.
Proof.
  intros [] Hu Hid Hp Hl Hc Hb (n & Hn & Hname). split; rewrite ?Hp; try done.
  - intros _ n'. rewrite Hn. by intros [= <-].
  - intros _ c Hin. destruct (Hc c Hin); auto.
  - by intros p [= <-].
Qed.

Lemma ok_cancelling name spec s now :
  status_ok name spec s → crd_phase s = Some PhRunning →
  status_ok name spec (add_condition (make_condition show_ts now CONDITION_CANCELLING "CancelRequested") (set_phase PhCancelling s)).
Proof.
  intros [] Hp. split; cbn; try done.
  - intros _. apply so_id0. by rewrite Hp.
  - apply push_condition_length.
  - by intros [|].
  - intros _. apply so_pod0. by rewrite Hp; intros ? [= <-].
  - intros _. apply so_has_pod0. by left.
  - intros _. unfold cancelling_since. cbn.
    destruct (push_condition_last (make_condition show_ts now CONDITION_CANCELLING "CancelRequested") (crd_conditions s)) as (l & -> & Hl).
    assert (list_find (λ c, cond_type c = CONDITION_CANCELLING) l = None) as Hn.
    { apply list_find_None, Forall_forall. intros c Hc. apply so_uncancelled0; [by rewrite Hp|]. by apply Hl. }
    rewrite list_find_app_r by done. cbn. rewrite decide_True by done. cbn. by rewrite parse_show.
  - by intros p [= <-].
Qed.

(** ** Every handler is a pass *)
Context (fresh_id : string) (now : Z).

Section handler.
Context (run : RunObj) (s : RunCrdStatus) (Hs : obj_status run = Some s) (Hok : status_ok (obj_name run) (obj_spec run) s).

Lemma field_of {A} (f : RunCrdStatus → option A) : status_field f run = f s.
Proof. unfold status_field. by rewrite Hs. Qed.

(** The patch of an end: nothing but the end fields move. *)
Lemma step_end s' p i :
  crd_phase s = Some PhRunning ∨ (crd_phase s = Some PhCancelling ∧ p = PhCancelled) →
  crd_run_id s = Some i → extends s' s → crd_run_id s' = Some i → crd_conditions s' = crd_conditions s →
  crd_phase s' = Some p → phase_terminal p = true → is_Some (crd_completed_at s') →
  status_step run (merge_status s' (default default_status (obj_status run))).
Proof.
  intros Hph Hi Hx Hi' Hc Hp Ht Hat. rewrite Hs. cbn [default]. rewrite merge_extends by done. split.
  - eapply ok_end; eauto.
  - exists p. split; [done|]. rewrite field_of. destruct Hph as [->|[-> ->]]; by constructor.
  - intros j. rewrite field_of. congruence.
Qed.

Lemma outcome_fields o x :
  crd_run_id (apply_outcome_to_status o x) = crd_run_id x ∧ crd_conditions (apply_outcome_to_status o x) = crd_conditions x ∧
  crd_completed_at (apply_outcome_to_status o x) = crd_completed_at x ∧
  ∃ p, crd_phase (apply_outcome_to_status o x) = Some p ∧ phase_terminal p = true.
Proof. destruct o; cbn; eauto 10. Qed.

Lemma count_fields p x :
  crd_run_id (count_restart show_ts now p x) = crd_run_id x ∧ crd_conditions (count_restart show_ts now p x) = crd_conditions x ∧
  crd_phase (count_restart show_ts now p x) = crd_phase x ∧ crd_executor_pod (count_restart show_ts now p x) = crd_executor_pod x.
Proof. unfold count_restart. destruct p as [p|]; (destruct (_ <? _)%N; done). Qed.

Lemma pass_failure : crd_phase s = Some PhRunning → pass run (status_step run) (handle_executor_failure show_ts now run).
Proof.
  intros Hp. destruct (so_id _ _ _ Hok) as [i Hi]; [by rewrite Hp|]. unfold handle_executor_failure.
  eapply pass_unwrap; [done|]. eapply pass_unwrap; [done|]. apply pass_bind; [auto with quiet|]. intros stored.
  assert (Hout : ∀ o x, extends x s → crd_run_id x = Some i → crd_conditions x = crd_conditions s → is_Some (crd_completed_at x) →
    status_step run (merge_status (apply_outcome_to_status o x) (default default_status (obj_status run)))).
  { intros o x Hx Hxi Hxc Hxa. destruct (outcome_fields o x) as (F1 & F2 & F3 & p & F4 & F5).
    eapply step_end; [by left|done|auto with extends|congruence|congruence|done|done|congruence]. }
  destruct stored as [e|[o|]].
  2: { apply pass_patch; [apply Hout; auto with extends; done|auto with quiet]. }
  all: apply pass_bind; [auto with quiet|]; intros progress.
  all: set (n := count_restart _ _ _ _); destruct (count_fields (match progress with inr p => Some p | inl _ => None end) s) as (F1 & F2 & F3 & F4);
    fold n in F1, F2, F3, F4; assert (Hn : extends n s) by (unfold n; auto with extends).
  all: destruct (_ <? _)%N eqn:Hb.
  1,3: apply pass_bind; [auto with quiet|]; intros stored; apply pass_patch; [|auto with quiet];
    destruct stored as [e'|[o|]]; [|apply Hout; cbn; auto with extends; congruence|];
    (eapply (step_end _ PhFailed); [by left|done|auto with extends|cbn; congruence|done|done|done|done]).
  all: apply pass_bind; [destruct (crd_executor_pod s); auto with quiet|]; intros _;
    apply pass_bind; [auto with quiet|]; intros _; apply pass_bind; [auto with quiet|]; intros _;
    apply pass_patch; [|auto with quiet].
  all: rewrite Hs; cbn [default]; rewrite merge_extends by auto with extends; split;
    [eapply ok_running; [exact Hok|by rewrite Hp|cbn; by rewrite F1, Hi|cbn; congruence|apply push_condition_length| |by apply N.ltb_ge in Hb|]
    |exists PhRunning; rewrite field_of, Hp; split; [cbn; congruence|constructor]|intros j; rewrite field_of; cbn; congruence].
  all: try (eexists; split; [done|by right]).
  all: intros c; cbn; rewrite F2; intros [->|?]%push_condition_elem; [by right|by left].
Qed.

Lemma pass_progress : crd_phase s = Some PhRunning → pass run (status_step run) (update_progress show_ts now run).
Proof.
  intros Hp. destruct (so_id _ _ _ Hok) as [i Hi]; [by rewrite Hp|]. unfold update_progress.
  eapply pass_unwrap; [done|]. eapply pass_unwrap; [done|]. apply pass_bind; [auto with quiet|]. intros [e|p]; [auto using pass_quiet with quiet|].
  destruct (_ && _); [auto using pass_quiet with quiet|]. apply pass_patch; [|auto with quiet].
  match goal with |- status_step _ (merge_status ?x _) => set (n := x) end. assert (Hn : extends n s) by (unfold n; destruct (_ <? _)%N; auto with extends).
  rewrite Hs. cbn [default]. rewrite merge_extends by done.
  assert (F : crd_run_id n = crd_run_id s ∧ crd_phase n = crd_phase s ∧ crd_conditions n = crd_conditions s ∧
    crd_restarts_without_progress n = crd_restarts_without_progress s ∧ crd_executor_pod n = crd_executor_pod s ∧
    crd_total_restarts n = crd_total_restarts s) by (unfold n; by destruct (_ <? _)%N).
  destruct F as (F1 & F2 & F3 & F4 & F5 & F6). destruct (so_has_pod _ _ _ Hok) as [pod Hpod]; [by left|]. split.
  - eapply ok_running; [exact Hok|by rewrite Hp|by rewrite F1, Hi|congruence|rewrite F3; apply Hok|rewrite F3; auto| |].
    + rewrite F4. apply Hok. by right.
    + exists pod. rewrite F5, F6. split; [done|]. apply (so_pod _ _ _ Hok); [|done]. rewrite Hp. by intros ? [= <-].
  - exists PhRunning. rewrite field_of, Hp. split; [congruence|constructor].
  - intros j. rewrite field_of. congruence.
Qed.

Lemma pass_start_cancelling : crd_phase s = Some PhRunning → pass run (status_step run) (start_cancelling show_ts now run).
Proof.
  intros Hp. destruct (so_id _ _ _ Hok) as [i Hi]; [by rewrite Hp|]. unfold start_cancelling.
  eapply pass_unwrap; [done|]. eapply pass_unwrap; [done|]. do 2 (apply pass_bind; [auto with quiet|]; intros _).
  apply pass_patch; [|auto with quiet]. rewrite Hs. cbn [default]. rewrite merge_extends by auto with extends. split.
  - by apply ok_cancelling.
  - exists PhCancelling. rewrite field_of, Hp. split; [done|constructor].
  - intros j. by rewrite field_of.
Qed.

(** A patch of an end behind [with_progress]. *)
Lemma pass_with_progress {B} x i p (f : RunCrdStatus → RunCrdStatus) (k : unit → Op B) :
  crd_phase s = Some PhRunning ∨ (crd_phase s = Some PhCancelling ∧ p = PhCancelled) → crd_run_id s = Some i →
  (∀ q, crd_run_id (f q) = crd_run_id q ∧ crd_conditions (f q) = crd_conditions q ∧ crd_phase (f q) = crd_phase q ∧
        crd_completed_at (f q) = crd_completed_at q ∧ (extends q s → extends (f q) s)) →
  extends x s → crd_run_id x = Some i → crd_conditions x = crd_conditions s → crd_phase x = Some p →
  phase_terminal p = true → is_Some (crd_completed_at x) → (∀ a, quiet (k a)) →
  pass run (status_step run) (with_progress i x ≫= λ n, patch_status (f n) ≫= k).
Proof.
  intros Hph Hi Hf Hx Hxi Hxc Hxp Ht Hxa Hk w Hw. apply wp_bind. unfold with_progress. apply wp_bind.
  eapply wp_mono; [apply quiet_attempt, quiet_progress|]. intros [e|r] w' [Hw' Hr].
  { split; [congruence|]. left. congruence. }
  apply wp_ret. apply pass_patch; [|done|congruence].
  assert (Hn : ∀ n, extends n s → crd_run_id n = Some i → crd_conditions n = crd_conditions s → crd_phase n = Some p →
    is_Some (crd_completed_at n) → status_step run (merge_status (f n) (default default_status (obj_status run)))).
  { intros n ? ? ? ? ?. destruct (Hf n) as (F1 & F2 & F3 & F4 & F5).
    eapply (step_end _ p i); [done|done|auto|congruence|congruence|congruence|done|congruence]. }
  destruct r as [e|pr]; [by apply Hn|]. apply Hn; cbn; auto with extends.
Qed.

Lemma pass_finalize m :
  crd_phase s = Some PhCancelling → pass run (status_step run) (finalize_cancelled show_ts now run m).
Proof.
  intros Hp. destruct (so_id _ _ _ Hok) as [i Hi]; [by rewrite Hp|]. unfold finalize_cancelled.
  eapply pass_unwrap; [done|]. eapply pass_unwrap; [done|].
  eapply (pass_with_progress _ i PhCancelled (set_message _)); auto with extends quiet.
  intros q. cbn. split_and!; auto with extends.
Qed.

Lemma pass_cancelling : crd_phase s = Some PhCancelling → pass run (status_step run) (reconcile_cancelling show_ts parse_ts now run).
Proof.
  intros Hp. destruct (so_id _ _ _ Hok) as [i Hi]; [by rewrite Hp|]. unfold reconcile_cancelling.
  destruct (so_has_pod _ _ _ Hok) as [pod Hpod]; [by right|].
  eapply pass_unwrap; [done|]. eapply pass_unwrap; [done|]. rewrite Hpod. apply pass_bind; [auto with quiet|]. intros [|].
  - apply pass_bind; [auto with quiet|]. intros _. by apply pass_finalize.
  - destruct (_ <=? _)%Z; [|auto using pass_quiet with quiet].
    eapply pass_unwrap; [done|]. do 2 (apply pass_bind; [auto with quiet|]; intros _). by apply pass_finalize.
Qed.

Lemma pass_timed_out : crd_phase s = Some PhRunning → pass run (status_step run) (transition_to_timed_out show_ts now run).
Proof.
  intros Hp. destruct (so_id _ _ _ Hok) as [i Hi]; [by rewrite Hp|]. unfold transition_to_timed_out.
  eapply pass_unwrap; [done|]. eapply pass_unwrap; [done|]. apply pass_bind; [auto with quiet|]. intros _.
  apply pass_bind; [destruct (crd_executor_pod s); auto with quiet|]. intros _. apply pass_bind; [auto with quiet|]. intros _.
  eapply (pass_with_progress _ i PhTimedOut (λ q, q)); auto with extends quiet.
Qed.

Lemma pass_succeeded : crd_phase s = Some PhRunning → pass run (status_step run) (complete_succeeded show_ts now run).
Proof.
  intros Hp. destruct (so_id _ _ _ Hok) as [i Hi]; [by rewrite Hp|]. unfold complete_succeeded.
  eapply pass_unwrap; [done|]. eapply pass_unwrap; [done|]. apply pass_bind; [auto with quiet|]. intros [e|[o|]].
  - apply pass_patch; [|auto with quiet]. eapply (step_end _ PhSucceeded i); auto with extends.
  - apply pass_patch; [|auto with quiet]. destruct (outcome_fields o (set_completed_at (show_ts now) s)) as (F1 & F2 & F3 & p & F4 & F5).
    eapply (step_end _ p i); [by left|done|auto with extends|by rewrite F1|done|done|done|by rewrite F3].
  - apply pass_patch; [|auto with quiet]. eapply (step_end _ PhSucceeded i); auto with extends.
Qed.

Lemma pass_running : crd_phase s = Some PhRunning → pass run (status_step run) (reconcile_running show_ts parse_ts now run).
Proof.
  intros Hp. destruct (so_id _ _ _ Hok) as [i Hi]; [by rewrite Hp|]. unfold reconcile_running.
  eapply pass_unwrap; [done|]. eapply pass_unwrap; [done|].
  destruct (is_cancel_requested run); [by apply pass_start_cancelling|].
  destruct (is_timed_out _ _ _); [by apply pass_timed_out|]. apply pass_bind; [auto with quiet|].
  intros [ph|]; [|by apply pass_failure]. destruct (pod_phase ph); try (auto using pass_quiet with quiet).
  - by apply pass_attempt, pass_progress.
  - by apply pass_succeeded.
  - by apply pass_failure.
Qed.

Lemma pass_pending : crd_phase s = Some PhPending → pass run (status_step run) (reconcile_pending show_ts now run).
Proof.
  intros Hp. destruct (so_id _ _ _ Hok) as [i Hi]; [by rewrite Hp|]. unfold reconcile_pending.
  eapply pass_unwrap; [done|]. eapply pass_unwrap; [done|]. do 2 (apply pass_bind; [auto with quiet|]; intros _).
  apply pass_patch; [|auto with quiet]. rewrite Hs. cbn [default]. rewrite merge_extends by auto with extends. split.
  - eapply ok_running; [exact Hok|by rewrite Hp|cbn; by rewrite Hi|done|apply push_condition_length| | |].
    + intros c [->|?]%push_condition_elem; [by right|by left].
    + apply Hok. by left.
    + eexists. split; [done|by left].
  - exists PhRunning. rewrite field_of, Hp. split; [done|constructor].
  - intros j. by rewrite field_of.
Qed.
End handler.

Lemma ok_init run st i :
  run_ok run → status_field crd_phase run = None →
  st = {| crd_phase := Some PhPending; crd_run_id := Some i; crd_executor_pod := None;
          crd_restarts_without_progress := 0; crd_total_restarts := 0; crd_last_progress_at := None;
          crd_completed_steps := None; crd_total_steps := None; crd_started_at := Some (show_ts now);
          crd_completed_at := None; crd_message := None; crd_conditions := [] |} →
  status_step run (merge_status st (default default_status (obj_status run))).
Proof.
  intros Hok Hp ->.
  assert (Hold : status_ok (obj_name run) (obj_spec run) (default default_status (obj_status run)) ∧
    crd_phase (default default_status (obj_status run)) = None).
  { unfold status_field in Hp. destruct (obj_status run) as [s|] eqn:Hs; [split; [by apply Hok|done]|]. split; [|done].
    split; cbn; intros; try done; unfold MAX_CONDITIONS; first [lia|set_solver]. }
  destruct Hold as [[] Hph]. destruct (so_blank0 Hph) as [Hpod Hid]. split.
  - split; cbn; try done; rewrite ?Hpod; try done.
    + intros _. lia.
    + by intros [|].
    + intros _. apply so_uncancelled0. by rewrite Hph.
    + by intros p [= <-].
  - exists PhPending. rewrite Hp. split; [done|constructor].
  - unfold status_field. destruct (obj_status run) as [s|]; [|done]. cbn in Hid. congruence.
Qed.

(** ** The whole pass *)
Record obj_step (run run' : RunObj) : Prop := {
  os_name : obj_name run' = obj_name run;
  os_spec : obj_spec run' = obj_spec run;
  os_status : obj_status run' = obj_status run ∨ ∃ s', obj_status run' = Some s' ∧ status_step run s'
}.

Lemma obj_step_ok run run' : run_ok run → obj_step run run' → run_ok run'.
Proof.
  intros Hok [Hn Hsp Hst] s. rewrite Hn, Hsp. destruct Hst as [->|(s' & -> & Hst)]; [apply Hok|]. intros [= <-]. apply Hst.
Qed.

Definition pass_ok (run : RunObj) (w' : World) : Prop :=
  match w_run w' with None => obj_deleting run = true | Some run' => obj_step run run' end.

Lemma patched_ok run w' : patched run (status_step run) w' → pass_ok run w'.
Proof.
  unfold pass_ok. intros [->|(st & Hst & ->)]; [split; auto|]. split; [done|done|]. right. eauto.
Qed.

Lemma pass_finalizers run fs w k :
  w_run w = Some run → (∀ a, quiet (k a)) →
  wp (patch_finalizers fs ≫= k) w (λ r w', r ≠ inl (B := Action) Panicked ∧ pass_ok run w').
Proof.
  intros Hw Hk. apply wp_bind.
  assert (Hp : ∀ w', w_run w' = w_run (upd_run (λ _, if obj_deleting run && bool_decide (fs = []) then None else Some (with_finalizers fs run)) w) →
    pass_ok run w').
  { unfold pass_ok. intros w' ->. cbn. destruct (obj_deleting run) eqn:Hd; cbn; [case_bool_decide|]; [done| |]; split; auto. }
  assert (Hq : pass_ok run w) by (unfold pass_ok; rewrite Hw; split; auto).
  apply wp_call; cbn beta; rewrite ?Hw; cbn [fst snd]; [|by split|split; [done|by apply Hp]].
  eapply wp_mono; [apply Hk|]. intros r w' [Hw' Hr]. split; [done|]. by apply Hp.
Qed.

Lemma wp_quiet_bind {A} (m : Op A) (k : A → Op Action) run w :
  w_run w = Some run → quiet m → (∀ a w', w_run w' = Some run → wp (k a) w' (λ r w', r ≠ inl Panicked ∧ pass_ok run w')) →
  wp (m ≫= k) w (λ r w', r ≠ inl Panicked ∧ pass_ok run w').
Proof.
  intros Hw Hm Hk. apply wp_bind. eapply wp_mono; [apply Hm|]. intros [e|a] w' [Hw' Hr]; [|apply Hk; congruence].
  split; [congruence|]. unfold pass_ok. rewrite Hw', Hw. split; auto.
Qed.

Lemma wp_deletion run w :
  w_run w = Some run → wp (handle_deletion run) w (λ r w', r ≠ inl Panicked ∧ pass_ok run w').
Proof.
  intros Hw. unfold handle_deletion. destruct (bool_decide _); cbn [negb].
  - apply wp_quiet_bind; [done| |intros _ w1 H1; apply wp_quiet_bind; [done| |intros _ w2 H2; apply wp_quiet_bind; [done| |
      intros _ w3 H3; by apply pass_finalizers; auto with quiet]]].
    + destruct (status_field crd_run_id run); auto with quiet. destruct (match _ with Some p => _ | None => _ end); auto with quiet.
    + destruct (status_field crd_executor_pod run); auto with quiet.
    + destruct (status_field crd_run_id run); auto with quiet.
  - apply wp_ret. split; [done|]. unfold pass_ok. rewrite Hw. split; auto.
Qed.

Lemma wp_reconcile run w :
  run_ok run → w_run w = Some run →
  wp (reconcile show_ts parse_ts fresh_id now run) w (λ r w', r ≠ inl Panicked ∧ pass_ok run w').
Proof.
  intros Hok Hw. unfold reconcile. destruct (obj_deleting run); [by apply wp_deletion|].
  destruct (bool_decide _); cbn [negb]; [|by apply pass_finalizers; auto with quiet].
  assert (Hpass : ∀ m : Op Action, pass run (status_step run) m → wp m w (λ r w', r ≠ inl Panicked ∧ pass_ok run w')).
  { intros m Hm. eapply wp_mono; [by apply Hm|]. intros r w' [Hr Hp]. split; [done|by apply patched_ok]. }
  destruct (status_field crd_phase run) as [p|] eqn:Hp.
  - unfold status_field in Hp. destruct (obj_status run) as [s|] eqn:Hs; [|done]. pose proof (Hok s Hs) as Hsok.
    destruct p; apply Hpass; try (by eapply pass_pending); try (by eapply pass_running); try (by eapply pass_cancelling);
      auto using pass_quiet with quiet.
  - apply Hpass. unfold reconcile_init. apply pass_patch; [by eapply ok_init|auto with quiet].
Qed.
End invariant.
