(* ===== verification/OperatorTheorems.v ===== *)
(** * Properties of the run reconciler

    The life of a run under passes with arbitrary faults, a restart that is cut short and
    repeated, deletion, the grace period of a cancel, and two executions that go wrong. *)

From S2P Require Import Prelude RunQueue OperatorRun OperatorInv.
From stdpp Require Import pretty.

(** ** A concrete clock text *)
Definition x_show (z : Z) : string :=
  match z with Z0 => "Z" | Zpos p => String "P"%char (pos_text p) | Zneg p => String "N"%char (pos_text p) end.

Definition x_parse (s : string) : option Z :=
  match s with
  | EmptyString => None
  | String c s => if Ascii.eqb c "Z"%char then Some 0%Z
                  else (if Ascii.eqb c "P"%char then Zpos else Zneg) <$> pos_of_text s
  end.

Lemma x_parse_show t : x_parse (x_show t) = Some t.
Proof.
  destruct t as [|p|p]; cbn; [done| |]; by rewrite pos_text_roundtrip.
Qed.

(** ** Passes on any version of the object *)

(** An object with a phase has a run id, which the handlers unwrap. *)
Definition id_ok (run : RunObj) : Prop := is_Some (status_field crd_phase run) → is_Some (status_field crd_run_id run).

Definition stored_ok (w : World) : Prop := ∀ run, w_run w = Some run → id_ok run.

(** A computation that never panics and keeps the stored object so, whichever version of the
    object it was started with. *)
Definition keeps {A} (m : Op A) : Prop := ∀ w, stored_ok w → wp m w (λ r w', r ≠ inl Panicked ∧ stored_ok w').

Lemma keeps_quiet {A} (m : Op A) : quiet m → keeps m.
Proof. intros H w Hw. eapply wp_mono; [apply H|]. intros r w' [E Hr]. split; [done|]. unfold stored_ok. by rewrite E. Qed.

Lemma keeps_bind {A B} (m : Op A) (k : A → Op B) : keeps m → (∀ a, keeps (k a)) → keeps (m ≫= k).
Proof.
  intros Hm Hk w Hw. apply wp_bind. eapply wp_mono; [by apply Hm|]. intros [e|a] w' [Hr Hw']; [split; [congruence|done]|by apply Hk].
Qed.

Lemma keeps_unwrap {A B} (o : option A) a (k : A → Op B) : o = Some a → keeps (k a) → keeps (unwrap o ≫= k).
Proof. intros -> Hk w Hw. apply wp_bind. by eapply wp_unwrap, Hk. Qed.

Lemma keeps_attempt {A} (m : Op A) : keeps m → keeps (attempt m).
Proof. intros H w Hw. apply wp_attempt. eapply wp_mono; [by apply H|]. intros [[]|a] w' [Hr Hp]; done. Qed.

Lemma keeps_patch st : is_Some (crd_run_id st) → keeps (patch_status st).
Proof.
  intros [i Hi] w Hw. unfold patch_status. destruct (w_run w) as [r|] eqn:Hr.
  - assert (H : stored_ok (upd_run (λ _, Some (with_status (merge_status st (default default_status (obj_status r))) r)) w)).
    { intros run [= <-] _. unfold status_field. cbn. by rewrite Hi. }
    apply wp_call; cbn beta; rewrite ?Hr; cbn [fst snd]; by split.
  - apply wp_call; cbn beta; rewrite ?Hr; cbn [fst snd]; by split.
Qed.

Lemma keeps_finalizers fs : keeps (patch_finalizers fs).
Proof.
  intros w Hw. unfold patch_finalizers. destruct (w_run w) as [r|] eqn:Hr.
  - assert (H : stored_ok (upd_run (λ _, if obj_deleting r && bool_decide (fs = []) then None else Some (with_finalizers fs r)) w)).
    { intros run. cbn. destruct (_ && _); [done|]. intros [= <-]. exact (Hw r Hr). }
    apply wp_call; cbn beta; rewrite ?Hr; cbn [fst snd]; by split.
  - apply wp_call; cbn beta; rewrite ?Hr; cbn [fst snd]; by split.
Qed.

Create HintDb keeps.
#[export] Hint Resolve keeps_quiet keeps_bind keeps_attempt keeps_patch keeps_finalizers : keeps.

Section versions.
Context (show_ts : Z → string) (parse_ts : string → option Z) (fresh_id : string) (now : Z).
Context (run : RunObj) (s : RunCrdStatus) (i : string) (Hs : obj_status run = Some s) (Hi : crd_run_id s = Some i).

Ltac unwrapped := eapply keeps_unwrap; [exact Hs|]; eapply keeps_unwrap; [exact Hi|].

Lemma outcome_id o x : crd_run_id (apply_outcome_to_status o x) = crd_run_id x.
Proof. by destruct o. Qed.

Lemma count_id pr x : crd_run_id (count_restart show_ts now pr x) = crd_run_id x.
Proof. unfold count_restart. destruct pr; by destruct (_ <? _)%N. Qed.

Lemma keeps_failure : keeps (handle_executor_failure show_ts now run).
Proof.
  unfold handle_executor_failure. unwrapped. apply keeps_bind; [auto with quiet keeps|]. intros stored.
  destruct stored as [e|[o|]].
  2: { apply keeps_bind; [apply keeps_patch; rewrite outcome_id; cbn; by rewrite Hi|auto with quiet keeps]. }
  all: apply keeps_bind; [auto with quiet keeps|]; intros pr; destruct (_ <? _)%N.
  1,3: apply keeps_bind; [auto with quiet keeps|]; intros stored; apply keeps_bind; [|auto with quiet keeps];
    apply keeps_patch; destruct stored as [e'|[o|]]; rewrite ?outcome_id; cbn; rewrite count_id, Hi; by eexists.
  all: apply keeps_bind; [destruct (crd_executor_pod s); auto with quiet keeps|]; intros _; apply keeps_bind; [auto with quiet keeps|]; intros _;
    apply keeps_bind; [auto with quiet keeps|]; intros _; apply keeps_bind; [|auto with quiet keeps];
    apply keeps_patch; cbn; rewrite count_id, Hi; by eexists.
Qed.

Lemma keeps_with_progress {B} x (f : RunCrdStatus → RunCrdStatus) (k : unit → Op B) :
  crd_run_id x = Some i → (∀ q, crd_run_id (f q) = crd_run_id q) → (∀ a, keeps (k a)) → keeps (with_progress i x ≫= λ n, patch_status (f n) ≫= k).
Proof.
  intros Hx Hf Hk w Hw. apply wp_bind. unfold with_progress. apply wp_bind.
  eapply wp_mono; [apply (keeps_quiet _ (quiet_attempt _ (quiet_progress i))); exact Hw|]. intros [e|pr] w' [Hr Hw'].
  { by split; [congruence|]. }
  apply wp_ret. apply keeps_bind; [|done|done]. apply keeps_patch. rewrite Hf. destruct pr; cbn; by rewrite Hx.
Qed.

Lemma keeps_finalize m : keeps (finalize_cancelled show_ts now run m).
Proof. unfold finalize_cancelled. unwrapped. apply (keeps_with_progress _ (set_message _)); [done|done|auto with quiet keeps]. Qed.

Lemma keeps_cancelling : keeps (reconcile_cancelling show_ts parse_ts now run).
Proof.
  unfold reconcile_cancelling. unwrapped. destruct (crd_executor_pod s) as [pod|].
  - apply keeps_bind; [auto with quiet keeps|]. intros [|].
    + apply keeps_bind; [auto with quiet keeps|]. intros _. apply keeps_finalize.
    + destruct (_ <=? _)%Z; [|auto with quiet keeps]. eapply keeps_unwrap; [done|]. do 2 (apply keeps_bind; [auto with quiet keeps|]; intros _).
      apply keeps_finalize.
  - intros w Hw. apply wp_bind, wp_ret. revert w Hw. change (keeps (_ ← attempt (cleanup_step_jobs i); finalize_cancelled show_ts now run None)).
    apply keeps_bind; [auto with quiet keeps|]. intros _. apply keeps_finalize.
Qed.

Lemma keeps_running : keeps (reconcile_running show_ts parse_ts now run).
Proof.
  unfold reconcile_running. unwrapped. destruct (is_cancel_requested run).
  { unfold start_cancelling. unwrapped. do 2 (apply keeps_bind; [auto with quiet keeps|]; intros _).
    apply keeps_bind; [apply keeps_patch; cbn; by rewrite Hi|auto with quiet keeps]. }
  destruct (is_timed_out _ _ _).
  { unfold transition_to_timed_out. unwrapped. apply keeps_bind; [auto with quiet keeps|]. intros _.
    apply keeps_bind; [destruct (crd_executor_pod s); auto with quiet keeps|]. intros _. apply keeps_bind; [auto with quiet keeps|]. intros _.
    apply (keeps_with_progress _ (λ q, q)); [done|done|auto with quiet keeps]. }
  apply keeps_bind; [auto with quiet keeps|]. intros [ph|]; [|apply keeps_failure]. destruct (pod_phase ph); try (auto with quiet keeps).
  - apply keeps_bind; [apply keeps_attempt|auto with quiet keeps]. unfold update_progress. unwrapped. apply keeps_bind; [auto with quiet keeps|].
    intros [e|pr]; [auto with quiet keeps|]. destruct (_ && _); [auto with quiet keeps|]. apply keeps_bind; [|auto with quiet keeps].
    apply keeps_patch. destruct (_ <? _)%N; cbn; by rewrite Hi.
  - unfold complete_succeeded. unwrapped. apply keeps_bind; [auto with quiet keeps|].
    intros [e|[o|]]; (apply keeps_bind; [apply keeps_patch; rewrite ?outcome_id; cbn; by rewrite Hi|auto with quiet keeps]).
  - apply keeps_failure.
Qed.

Lemma keeps_pending : keeps (reconcile_pending show_ts now run).
Proof.
  unfold reconcile_pending. unwrapped. do 2 (apply keeps_bind; [auto with quiet keeps|]; intros _).
  apply keeps_bind; [apply keeps_patch; cbn; by rewrite Hi|auto with quiet keeps].
Qed.
End versions.

Lemma keeps_reconcile show_ts parse_ts fresh_id now run : id_ok run → keeps (reconcile show_ts parse_ts fresh_id now run).
Proof.
  intros Hid. unfold reconcile. destruct (obj_deleting run).
  { unfold handle_deletion. destruct (bool_decide _); cbn [negb]; [|auto with quiet keeps].
    apply keeps_bind; [destruct (status_field crd_run_id run); [destruct (match _ with Some p => _ | None => _ end)|]; auto with quiet keeps|]. intros _.
    apply keeps_bind; [destruct (status_field crd_executor_pod run); auto with quiet keeps|]. intros _.
    apply keeps_bind; [destruct (status_field crd_run_id run); auto with quiet keeps|]. intros _. auto with quiet keeps. }
  destruct (bool_decide _); cbn [negb]; [|unfold add_finalizer; auto with quiet keeps].
  destruct (status_field crd_phase run) as [p|] eqn:Hp.
  - unfold id_ok, status_field in *. destruct (obj_status run) as [s|] eqn:Hs; [|done]. rewrite Hp in Hid. destruct (Hid ltac:(done)) as [i Hi].
    destruct p; try (auto with quiet keeps); [by eapply keeps_pending|by eapply keeps_running|by eapply keeps_cancelling].
  - unfold reconcile_init. apply keeps_bind; [by apply keeps_patch|auto with quiet keeps].
Qed.

(** ** Lives of a run *)
Section life.
Context (show_ts : Z → string) (parse_ts : string → option Z).

(** The controller hands a pass the object as its watch last saw it, which may be any version
    there was; the patches name no version. *)
Record OpSys := { os_world : World; os_versions : list RunObj; os_stale : bool }.

Definition moved (w : World) (stale : bool) (x : OpSys) : OpSys :=
  {| os_world := w; os_versions := os_versions x ++ option_list (w_run w); os_stale := stale |}.

(** A pass with any faults and at any time, on the object as it is or on an earlier version of
    it, or anything another party does short of editing the status, which is the operator's,
    and of lowering [maxRestarts]. *)
Inductive op_move (x : OpSys) : OpSys → Prop :=
| mv_pass run fresh_id now fs :
    w_run (os_world x) = Some run →
    op_move x (moved (env_world (reconcile show_ts parse_ts fresh_id now run {| env_world := os_world x; env_faults := fs |}).2) (os_stale x) x)
| mv_stale run fresh_id now fs :
    run ∈ os_versions x →
    op_move x (moved (env_world (reconcile show_ts parse_ts fresh_id now run {| env_world := os_world x; env_faults := fs |}).2) true x)
| mv_other w' :
    (∀ run', w_run w' = Some run' → ∃ run, w_run (os_world x) = Some run ∧ obj_name run' = obj_name run ∧
       (spec_max_restarts (obj_spec run) ≤ spec_max_restarts (obj_spec run'))%N ∧ obj_status run' = obj_status run) →
    op_move x (moved w' (os_stale x) x).

(** A new object. *)
Definition op_init (x : OpSys) : Prop :=
  ∃ run, w_run (os_world x) = Some run ∧ obj_status run = None ∧ os_versions x = [run] ∧ os_stale x = false.

Definition versions_ok (x : OpSys) : Prop := Forall id_ok (os_versions x) ∧ stored_ok (os_world x).

Lemma versions_ok_moved x w stale : versions_ok x → stored_ok w → versions_ok (moved w stale x).
Proof.
  intros [H1 _] H2. split; [|done]. cbn. apply Forall_app. split; [done|]. unfold stored_ok in H2.
  destruct (w_run w) as [run|]; cbn; [|done]. apply Forall_singleton. auto.
Qed.

Lemma versions_ok_step x y : versions_ok x → op_move x y → versions_ok y.
Proof.
  intros Hx. pose proof Hx as [H1 H2]. intros [run fresh_id now fs Hw|run fresh_id now fs Hv|w' Hother]; apply versions_ok_moved; try done.
  - apply (keeps_reconcile show_ts parse_ts fresh_id now run (H2 run Hw) _ H2 fs).
  - rewrite Forall_forall in H1. apply (keeps_reconcile show_ts parse_ts fresh_id now run (H1 run Hv) _ H2 fs).
  - intros run' Hw'. destruct (Hother run' Hw') as (run & Hw & _ & _ & Hst). pose proof (H2 run Hw) as Hid. unfold id_ok, status_field in *. by rewrite Hst.
Qed.

Lemma versions_ok_reach x0 x : op_init x0 → rtc op_move x0 x → versions_ok x.
Proof.
  intros (run & Hw & Hst & Hv & _) H. assert (H0 : versions_ok x0).
  { assert (id_ok run) by (unfold id_ok, status_field; rewrite Hst; by intros []). split; [rewrite Hv; by apply Forall_singleton|].
    intros run' Hw'. by replace run' with run by congruence. }
  clear -H H0. induction H as [|x y z Hxy _ IH]; [done|]. apply IH. by eapply versions_ok_step.
Qed.

Lemma stale_back x y : rtc op_move x y → os_stale y = false → os_stale x = false.
Proof. induction 1 as [|x y z Hxy _ IH]; [done|]. intros Hz%IH. destruct Hxy; done. Qed.

Definition phase_next (o o' : option RunPhase) : Prop := ∃ p, o' = Some p ∧ phase_step o p.

(** How an object goes on. *)
Record goes_on (run run' : RunObj) : Prop := {
  go_ok : run_ok parse_ts run';
  go_phase : rtc phase_next (status_field crd_phase run) (status_field crd_phase run');
  go_end : ∀ p, status_field crd_phase run = Some p → phase_terminal p = true → obj_status run' = obj_status run;
  go_id : ∀ i, status_field crd_run_id run = Some i → status_field crd_run_id run' = Some i
}.

Lemma obj_step_goes_on run run' : run_ok parse_ts run → obj_step parse_ts run run' → goes_on run run'.
Proof.
  intros Hok Hst. pose proof (obj_step_ok _ _ _ Hok Hst) as Hok'. destruct Hst as [_ _ [Hst|(s' & Hs' & [_ [p [Hp Hstep]] Hid])]].
  - split; [done| |done|]; unfold status_field; by rewrite Hst.
  - split; [done| | |].
    + apply rtc_once. unfold status_field at 2. rewrite Hs'. by exists p.
    + intros q Hq Ht. rewrite Hq in Hstep. inversion Hstep; by subst.
    + intros i Hi. unfold status_field at 1. rewrite Hs'. auto.
Qed.

Lemma goes_on_refl run : run_ok parse_ts run → goes_on run run.
Proof. intros Hok. by split. Qed.

Lemma goes_on_trans r1 r2 r3 : goes_on r1 r2 → goes_on r2 r3 → goes_on r1 r3.
Proof.
  intros [O1 P1 E1 I1] [O2 P2 E2 I2]. split; [done|by etrans| |auto].
  intros p Hp Ht. pose proof (E1 p Hp Ht) as E. rewrite (E2 p); [done| |done].
  revert Hp. unfold status_field. by rewrite E.
Qed.

Context (parse_show : ∀ t, parse_ts (show_ts t) = Some t).

Lemma op_move_goes_on x y run' :
  op_move x y → os_stale y = false → w_run (os_world y) = Some run' →
  ∃ run, w_run (os_world x) = Some run ∧ (run_ok parse_ts run → goes_on run run').
Proof.
  intros [run fresh_id now fs Hw|run fresh_id now fs Hv|w' Hother] Hstale Hw'; [|done|].
  - exists run. split; [done|]. intros Hok.
    destruct (wp_reconcile show_ts parse_ts parse_show fresh_id now run (os_world x) Hok Hw fs) as [_ Hp]. cbv zeta in Hp.
    unfold pass_ok in Hp. cbn in Hw'. rewrite Hw' in Hp. by apply obj_step_goes_on.
  - destruct (Hother run' Hw') as (run & Hw & Hn & Hsp & Hst). exists run. split; [done|]. intros Hok.
    split; [|unfold status_field; by rewrite Hst|done|unfold status_field; by rewrite Hst].
    intros s. rewrite Hn, Hst. intros Hs. destruct (Hok s Hs) as [? ? ? Hb ? ? ? ? ?]. split; try done. intros H. etrans; [by apply Hb|done].
Qed.

Lemma life_goes_on x y run' :
  rtc op_move x y → os_stale y = false → w_run (os_world y) = Some run' →
  ∃ run, w_run (os_world x) = Some run ∧ (run_ok parse_ts run → goes_on run run').
Proof.
  intros Hs. revert run'. induction Hs as [x|x y z Hm Hs IH]; intros run' Hst Hw'.
  - exists run'. split; [done|]. apply goes_on_refl.
  - destruct (IH run' Hst Hw') as (run1 & Hw1 & Hgo). destruct (op_move_goes_on _ _ _ Hm (stale_back _ _ Hs Hst) Hw1) as (run & Hw & Hgo1).
    exists run. split; [done|]. intros Hok. specialize (Hgo1 Hok). eapply goes_on_trans; [done|]. by apply Hgo, Hgo1.
Qed.
End life.

(** C8: from the creation of a run on, through passes with any faults at any time, on the
    current object or on an earlier version of it, and through anything other parties do short
    of editing the status or lowering [maxRestarts], no pass panics, whichever version it is
    given. As long as every pass acted on the object as it was, the status stays well formed
    (within the restart budget while running, at most 20 conditions, the executor pod of the
    last restart), the phase moves along the edges of the machine, the run id never changes, and
    a status with a terminal phase is final. *)
Theorem run_lifecycle show_ts parse_ts x0 x1 x2 :
  (∀ t, parse_ts (show_ts t) = Some t) → op_init x0 →
  rtc (op_move show_ts parse_ts) x0 x1 → rtc (op_move show_ts parse_ts) x1 x2 →
  (∀ run fresh_id now fs, run ∈ os_versions x2 →
     (reconcile show_ts parse_ts fresh_id now run {| env_world := os_world x2; env_faults := fs |}).1 ≠ inl Panicked) ∧
  (os_stale x2 = false → ∀ run1 run2, w_run (os_world x1) = Some run1 → w_run (os_world x2) = Some run2 →
     run_ok parse_ts run1 ∧ goes_on parse_ts run1 run2).
Proof.
  intros Hps Hinit H01 H12. split.
  - intros run fresh_id now fs Hv. destruct (versions_ok_reach show_ts parse_ts x0 x2 Hinit ltac:(by etrans)) as [H1 H2].
    rewrite Forall_forall in H1. apply (keeps_reconcile show_ts parse_ts fresh_id now run (H1 run Hv) _ H2 fs).
  - intros Hst run1 run2 Hw1 Hw2. destruct Hinit as (run0 & Hw0 & Hnone & _).
    assert (Hok0 : run_ok parse_ts run0) by (intros s; by rewrite Hnone).
    destruct (life_goes_on _ _ Hps _ _ _ H01 (stale_back _ _ _ _ H12 Hst) Hw1) as (r0 & Hr0 & G1). assert (r0 = run0) as -> by congruence. specialize (G1 Hok0).
    destruct (life_goes_on _ _ Hps _ _ _ H12 Hst Hw2) as (r1 & Hr1 & G2). assert (r1 = run1) as -> by congruence.
    pose proof (go_ok _ _ _ G1) as Hok1. split; [done|]. by apply G2.
Qed.

(** ** A concrete run *)
Definition y_spec : RunSpec :=
  {| spec_code_location := "cl"; spec_run_id := Some "r1"; spec_timeout_seconds := None; spec_max_restarts := 1;
     spec_cancel_grace_period_seconds := 300 |}.
Definition y_run (st : option RunCrdStatus) : RunObj :=
  {| obj_name := "run"; obj_deleting := false; obj_finalizers := [FINALIZER]; obj_annotations := ∅; obj_spec := y_spec; obj_status := st |}.
Definition y_world (st : option RunCrdStatus) (pods : gmap string (option string)) (jobs : gset (string * string)) (progress : N) : World :=
  {| w_run := Some (y_run st); w_pods := pods; w_jobs := jobs; w_code_locations := {["cl"]}; w_cancel_flags := ∅;
     w_run_status := {["r1" := Started]}; w_outcomes := ∅; w_progress := {["r1" := (progress, 5%N)]} |}.
Definition y_pass (now : Z) (fs : list Fault) (w : World) : World :=
  match w_run w with
  | Some run => env_world (reconcile x_show x_parse "id" now run {| env_world := w; env_faults := fs |}).2
  | None => w
  end.

Definition y_sys (w : World) : OpSys := {| os_world := w; os_versions := option_list (w_run w); os_stale := false |}.
Definition y_next (now : Z) (fs : list Fault) (x : OpSys) : OpSys := moved (y_pass now fs (os_world x)) (os_stale x) x.

Lemma y_pass_move now fs x run : w_run (os_world x) = Some run → op_move x_show x_parse x (y_next now fs x).
Proof. intros H. unfold y_next, y_pass. rewrite H. by apply mv_pass. Qed.

Lemma run_lifecycle_witness :
  let x0 := y_sys (y_world None ∅ ∅ 0) in
  let x1 := y_next 1 [] x0 in
  let x2 := y_next 2 [] x1 in
  ∃ run1 run2, w_run (os_world x1) = Some run1 ∧ w_run (os_world x2) = Some run2 ∧
    status_field crd_phase run1 = Some PhPending ∧ status_field crd_phase run2 = Some PhRunning ∧
    run_ok x_parse run1 ∧ goes_on x_parse run1 run2.
Proof.
  cbv zeta. eexists _, _. split; [vm_compute; reflexivity|]. split; [vm_compute; reflexivity|]. split; [reflexivity|]. split; [reflexivity|].
  eapply (run_lifecycle x_show x_parse (y_sys (y_world None ∅ ∅ 0)) (y_next 1 [] (y_sys (y_world None ∅ ∅ 0)))
            (y_next 2 [] (y_next 1 [] (y_sys (y_world None ∅ ∅ 0))))).
  - exact x_parse_show.
  - eexists. split; [reflexivity|]. split; [reflexivity|]. split; reflexivity.
  - apply rtc_once. eapply y_pass_move. reflexivity.
  - apply rtc_once. eapply y_pass_move. vm_compute. reflexivity.
  - reflexivity.
  - vm_compute. reflexivity.
  - vm_compute. reflexivity.
Defined.

(** A pass that is handed an object as it was before it had a status starts it over: the
    running run is pending again, under another id, and its pod stays. *)
Definition y_unnamed (st : option RunCrdStatus) : RunObj :=
  {| obj_name := "run"; obj_deleting := false; obj_finalizers := [FINALIZER]; obj_annotations := ∅;
     obj_spec := {| spec_code_location := "cl"; spec_run_id := None; spec_timeout_seconds := None; spec_max_restarts := 1;
                    spec_cancel_grace_period_seconds := 300 |};
     obj_status := st |}.
Definition y_unnamed_sys : OpSys :=
  let x := y_sys (upd_run (λ _, Some (y_unnamed None)) (y_world None ∅ ∅ 0)) in y_next 2 [] (y_next 1 [] x).

Theorem stale_pass_starts_over :
  let seen w := (λ run, (status_field crd_phase run, status_field crd_run_id run, status_field crd_executor_pod run)) <$> w_run w in
  y_unnamed None ∈ os_versions y_unnamed_sys ∧
  seen (os_world y_unnamed_sys) = Some (Some PhRunning, Some "id", Some "run-executor") ∧
  seen (env_world (reconcile x_show x_parse "id2" 9 (y_unnamed None) {| env_world := os_world y_unnamed_sys; env_faults := [] |}).2) =
    Some (Some PhPending, Some "id2", Some "run-executor").
Proof. split_and!; [left|vm_compute; reflexivity..]. Qed.

(** ** Restarts that are cut short *)

(** A pass without faults: its result and the world after it. *)
Definition clean {A} (m : Op A) (w : World) : (OpError + A) * World :=
  let r := m {| env_world := w; env_faults := [] |} in (r.1, env_world r.2).


Section retry.
Context (show_ts : Z → string) (now : Z) (run : RunObj) (s : RunCrdStatus) (i : string) (w : World).
Context (Hw : w_run w = Some run) (Hs : obj_status run = Some s) (Hi : crd_run_id s = Some i) (Hout : w_outcomes w !! i = None).

Definition seen : N * N := default (0, 0)%N (w_progress w !! i).
Definition counted : RunCrdStatus := count_restart show_ts now (Some seen) s.
Definition new_pod : string := obj_name run +:+ "-executor-" +:+ pretty (u32_incr (crd_total_restarts s)).

(** The pods once the restart is through. *)
Definition pods_after (P : gmap string (option string)) : gmap string (option string) :=
  let P := match crd_executor_pod s with Some old => delete old P | None => P end in
  match P !! new_pod with Some _ => P | None => <[new_pod := Some "Pending"]> P end.

(** A world that an interrupted restart leaves. *)
Definition cut_short (w' : World) : Prop :=
  w' = w ∨ ((spec_max_restarts (obj_spec run) <? crd_restarts_without_progress counted)%N = false ∧
            w' = upd_pods (λ _, w_pods w') w ∧ pods_after (w_pods w') = pods_after (w_pods w)).

Lemma u32_incr_ne n : u32_incr n ≠ n.
Proof.
  unfold u32_incr. intros H. pose proof (N.mod_lt (n + 1) (2 ^ 32) ltac:(done)).
  destruct (N.eq_dec (n + 1)%N (2 ^ 32)%N) as [E|E]; [rewrite E, N.Div0.mod_same in H; lia|rewrite N.mod_small in H; lia].
Qed.

Lemma count_total p : crd_total_restarts (count_restart show_ts now p s) = u32_incr (crd_total_restarts s).
Proof. unfold count_restart. destruct p as [p|]; by destruct (_ <? _)%N. Qed.

Lemma count_budget p :
  crd_restarts_without_progress (count_restart show_ts now p s) = 0%N ∨
  crd_restarts_without_progress (count_restart show_ts now p s) = u32_incr (crd_restarts_without_progress s).
Proof. unfold count_restart. destruct p as [p|]; destruct (_ <? _)%N; auto. Qed.

(** Missing the progress makes the budget no larger. *)
Lemma count_blind :
  (spec_max_restarts (obj_spec run) <? crd_restarts_without_progress (count_restart show_ts now None s))%N = false →
  (spec_max_restarts (obj_spec run) <? crd_restarts_without_progress counted)%N = false.
Proof.
  rewrite !N.ltb_ge. assert (crd_restarts_without_progress (count_restart show_ts now None s) = u32_incr (crd_restarts_without_progress s)) as ->.
  { unfold count_restart. destruct (_ <? _)%N eqn:E; [|done]. apply N.ltb_lt in E. lia. }
  unfold counted. destruct (count_budget (Some seen)) as [-> | ->]; lia.
Qed.

Lemma cut_start : cut_short w.
Proof. by left. Qed.

(** A patch that went through changed the object. *)
Lemma patch_changes {B} st w1 (k : unit → Op B) :
  cut_short w1 → crd_total_restarts st = u32_incr (crd_total_restarts s) → (∀ a, quiet (k a)) →
  wp (patch_status st ≫= k) w1 (λ _ w', w_run w' = Some run → cut_short w').
Proof.
  intros Hc Ht Hk. assert (Hw1 : w_run w1 = Some run) by (destruct Hc as [->|(_ & -> & _)]; done).
  assert (Hne : w_run (upd_run (λ _, Some (with_status (merge_status st (default default_status (obj_status run))) run)) w1) ≠ Some run).
  { cbn. intros [= Heq]. apply (f_equal obj_status) in Heq. cbn in Heq. rewrite Hs in Heq. injection Heq as Heq.
    apply (f_equal crd_total_restarts) in Heq. cbn in Heq. rewrite Ht in Heq. by apply u32_incr_ne in Heq. }
  apply wp_bind, wp_call; cbn beta; rewrite ?Hw1; cbn [fst snd]; [|done|done].
  eapply wp_mono; [apply Hk|]. intros r w' [Hw' _] Hr. exfalso. apply Hne. congruence.
Qed.

Lemma cut_pods w1 f :
  cut_short w1 → (spec_max_restarts (obj_spec run) <? crd_restarts_without_progress counted)%N = false →
  (∀ P, pods_after (f P) = pods_after P) → cut_short (upd_pods f w1).
Proof.
  intros Hc Hb Hf. right. split; [done|]. destruct Hc as [->|(_ & H1 & H2)].
  - split; [done|]. cbn. apply Hf.
  - split; [|cbn; rewrite Hf; done]. rewrite H1. done.
Qed.

Lemma pods_after_delete P old : crd_executor_pod s = Some old → pods_after (delete old P) = pods_after P.
Proof. intros H. unfold pods_after. rewrite H. by rewrite delete_delete_eq. Qed.

Lemma pods_after_create P : P !! new_pod = None → pods_after (<[new_pod := Some "Pending"]> P) = pods_after P.
Proof.
  unfold pods_after. destruct (crd_executor_pod s) as [old|]; intros Hn.
  - destruct (decide (old = new_pod)) as [->|Hne].
    + by rewrite delete_insert_eq.
    + rewrite delete_insert_ne by done. rewrite lookup_insert_eq, lookup_delete_ne, Hn by done. done.
  - by rewrite lookup_insert_eq, Hn.
Qed.

(** Steps of the restart keep the world cut short. *)
Lemma cut_quiet {A B} (m : Op A) (k : A → Op B) w1 :
  (∀ w2, wp m w2 (λ _ w', w' = w2)) → cut_short w1 →
  (∀ a, wp (k a) w1 (λ _ w', w_run w' = Some run → cut_short w')) →
  wp (m ≫= k) w1 (λ _ w', w_run w' = Some run → cut_short w').
Proof.
  intros Hm Hc Hk. apply wp_bind. eapply wp_mono; [apply Hm|]. intros [e|a] w' ->; [done|apply Hk].
Qed.

Lemma wp_attempt_any {A} (m : Op A) w1 (P : World → Prop) : wp m w1 (λ _, P) → wp (attempt m) w1 (λ _, P).
Proof. intros H. apply wp_attempt. eapply wp_mono; [apply H|]. by intros [[]|a]. Qed.

(** Past the reads: the restart or the end of the budget. *)
Definition act_on (p : option (N * N)) : Op Action :=
  let new_status := count_restart show_ts now p s in
  let max_restarts := spec_max_restarts (obj_spec run) in
  if (max_restarts <? crd_restarts_without_progress new_status)%N then
    let new_status := set_completed_at (show_ts now) new_status in
    stored ← attempt (get_run_outcome i);
    let new_status :=
      match stored with
      | inr (Some outcome) => apply_outcome_to_status outcome new_status
      | _ => set_message ("Executor failed " +:+ pretty (crd_restarts_without_progress new_status)
                          +:+ " time(s) without progress (max: " +:+ pretty max_restarts +:+ ")")
               (set_phase PhFailed new_status)
      end in
    _ ← patch_status new_status;
    _ ← sync_phase i new_status;
    mret AwaitChange
  else
    let pod_name := obj_name run +:+ "-executor-" +:+ pretty (crd_total_restarts new_status) in
    _ ← match crd_executor_pod s with
        | Some old_pod => _ ← attempt (delete_pod_if_exists old_pod); mret tt
        | None => mret tt
        end;
    _ ← fetch_cl_spec run;
    _ ← create_pod pod_name;
    let budget_msg := "Restart " +:+ pretty (crd_restarts_without_progress new_status) +:+ "/" +:+ pretty max_restarts in
    _ ← patch_status (add_condition (make_condition show_ts now CONDITION_EXECUTOR_RESTARTED budget_msg) (set_pod pod_name new_status));
    mret (Requeue 5).

Lemma outcome_total o x : crd_total_restarts (apply_outcome_to_status o x) = crd_total_restarts x.
Proof. by destruct o. Qed.

Lemma cut_act p : p = Some seen ∨ p = None → wp (act_on p) w (λ _ w', w_run w' = Some run → cut_short w').
Proof.
  intros Hp. unfold act_on. cbv zeta. destruct (_ <? _)%N eqn:Hb.
  - apply cut_quiet; [|apply cut_start|].
    { intros w2. apply wp_attempt_any. by apply wp_call. }
    intros stored. apply patch_changes; [apply cut_start| |auto with quiet].
    destruct stored as [e|[o|]]; [|rewrite outcome_total|]; apply count_total.
  - assert (Hbud : (spec_max_restarts (obj_spec run) <? crd_restarts_without_progress counted)%N = false).
    { destruct Hp as [-> | ->]; [done|by apply count_blind]. }
    apply wp_bind.
    assert (Hdel : wp (match crd_executor_pod s with
                       | Some old_pod => _ ← attempt (delete_pod_if_exists old_pod); mret tt
                       | None => mret tt end) w (λ _ w', cut_short w')).
    { destruct (crd_executor_pod s) as [old|] eqn:Hpod; [|apply wp_ret, cut_start]. apply wp_bind, wp_attempt.
      apply wp_call; cbn [fst snd]; apply wp_ret; [|apply cut_start|]; (apply cut_pods; [apply cut_start|done|]);
        intros P; by apply pods_after_delete. }
    eapply wp_mono; [apply Hdel|]. intros [e|_] w1 Hc1; [done|]. apply cut_quiet; [|done|].
    { intros w2. by apply wp_call. }
    intros _. rewrite count_total. fold new_pod. apply wp_bind.
    assert (Hcre : wp (create_pod new_pod) w1 (λ _ w', cut_short w')).
    { assert (Hq : cut_short (match w_pods w1 !! new_pod with Some _ => (inr false, w1) : (OpError + bool) * World
                             | None => (inr true, upd_pods (<[new_pod := Some "Pending"]>) w1) end).2).
      { destruct (w_pods w1 !! new_pod) eqn:He; [done|]. cbn [snd]. right. split; [done|]. destruct Hc1 as [->|(_ & H1 & H2)].
        - split; [done|]. cbn. by apply pods_after_create.
        - split; [by rewrite H1|]. cbn. by rewrite pods_after_create. }
      by apply wp_call. }
    eapply wp_mono; [apply Hcre|]. intros [e|_] w2 Hc2; [done|]. apply patch_changes; [done| |auto with quiet].
    cbn. apply count_total.
Qed.

Lemma cut_failure :
  wp (handle_executor_failure show_ts now run) w (λ _ w', w_run w' = Some run → cut_short w').
Proof.
  unfold handle_executor_failure. apply wp_bind. eapply wp_unwrap; [done|]. apply wp_bind. eapply wp_unwrap; [done|].
  apply wp_bind, wp_attempt. apply wp_call; cbn [fst snd]; rewrite ?Hout.
  all: apply wp_bind, wp_attempt; apply wp_call; cbn [fst snd].
  all: first [apply (cut_act (Some seen)); by left|apply (cut_act None); by right].
Qed.

(** The restart without faults. *)
Definition restarted : RunCrdStatus :=
  add_condition (make_condition show_ts now CONDITION_EXECUTOR_RESTARTED
                   ("Restart " +:+ pretty (crd_restarts_without_progress counted) +:+ "/" +:+ pretty (spec_max_restarts (obj_spec run))))
    (set_pod new_pod counted).

Lemma clean_restart P :
  (spec_max_restarts (obj_spec run) <? crd_restarts_without_progress counted)%N = false →
  spec_code_location (obj_spec run) ∈ w_code_locations w →
  clean (handle_executor_failure show_ts now run) (upd_pods (λ _, P) w) =
  (inr (Requeue 5), upd_run (λ _, Some (with_status (merge_status restarted s) run)) (upd_pods (λ _, pods_after P) w)).
Proof.
  intros Hb Hcl. unfold clean, handle_executor_failure, mbind, op_bind, mret, op_ret, unwrap. rewrite Hs, Hi.
  unfold attempt, get_run_outcome, call. cbn [env_faults env_world w_outcomes upd_pods fst snd]. rewrite Hout.
  unfold get_run_progress, call. cbn [env_faults env_world w_progress upd_pods fst snd]. fold seen counted. rewrite Hb.
  replace (crd_total_restarts counted) with (u32_incr (crd_total_restarts s)) by (symmetry; apply count_total). fold new_pod restarted.
  assert (Hbr : bool_decide (spec_code_location (obj_spec run) ∈ w_code_locations w) = true) by by apply bool_decide_eq_true.
  unfold delete_pod_if_exists, fetch_cl_spec, create_pod, patch_status, call, pods_after.
  destruct (crd_executor_pod s) as [old|]; cbn [env_faults env_world fst snd upd_pods w_code_locations w_pods w_run];
    rewrite Hbr; cbn [env_faults env_world fst snd upd_pods w_code_locations w_pods w_run].
  - destruct (delete old P !! new_pod); cbn [env_faults env_world fst snd upd_pods w_code_locations w_pods w_run]; rewrite Hw, Hs; done.
  - destruct (P !! new_pod); cbn [env_faults env_world fst snd upd_pods w_code_locations w_pods w_run]; rewrite Hw, Hs; done.
Qed.
End retry.

(** C14: a restart of the executor that is cut short by failed calls, before or after they took
    effect, and leaves the status as it was, is made up by the next one: that pass ends in exactly
    the world an undisturbed restart would have, with one restart counted and one new pod. *)
Theorem restart_retry show_ts now run s i w fs :
  w_run w = Some run → obj_status run = Some s → crd_run_id s = Some i → w_outcomes w !! i = None →
  spec_code_location (obj_spec run) ∈ w_code_locations w →
  let w1 := env_world (handle_executor_failure show_ts now run {| env_world := w; env_faults := fs |}).2 in
  w_run w1 = Some run →
  clean (handle_executor_failure show_ts now run) w1 = clean (handle_executor_failure show_ts now run) w.
Proof.
  intros Hw Hs Hi Hout Hcl w1 Hw1.
  destruct (cut_failure show_ts now run s i w Hw Hs Hi Hout fs Hw1) as [Heq|(Hb & Heq & Hpods)];
    fold w1 in Heq; [by rewrite Heq|]. fold w1 in Hpods.
  rewrite Heq, (clean_restart show_ts now run s i w Hw Hs Hi Hout _ Hb Hcl), Hpods.
  rewrite <-(clean_restart show_ts now run s i w Hw Hs Hi Hout _ Hb Hcl). by destruct w.
Qed.

Definition y_status (ph : RunPhase) (restarts total completed : N) (cs : list RunCondition) : RunCrdStatus :=
  {| crd_phase := Some ph; crd_run_id := Some "r1"; crd_executor_pod := Some "run-executor"; crd_restarts_without_progress := restarts;
     crd_total_restarts := total; crd_last_progress_at := None; crd_completed_steps := Some completed; crd_total_steps := Some 5%N;
     crd_started_at := None; crd_completed_at := None; crd_message := None; crd_conditions := cs |}.

Definition y_crashed : World := y_world (Some (y_status PhRunning 0 0 2 [])) {["run-executor" := Some "Failed"]} ∅ 2.
Definition y_lost_create : list Fault := [NoFault; NoFault; NoFault; NoFault; FailAfter].

Lemma restart_retry_witness :
  let run := y_run (Some (y_status PhRunning 0 0 2 [])) in
  let w1 := env_world (handle_executor_failure x_show 9 run {| env_world := y_crashed; env_faults := y_lost_create |}).2 in
  w_pods w1 = {["run-executor-1" := Some "Pending"]} ∧
  clean (handle_executor_failure x_show 9 run) w1 = clean (handle_executor_failure x_show 9 run) y_crashed.
Proof.
  cbv zeta. split; [vm_compute; reflexivity|].
  apply (restart_retry x_show 9 (y_run (Some (y_status PhRunning 0 0 2 []))) (y_status PhRunning 0 0 2 []) "r1" y_crashed y_lost_create);
    [reflexivity|reflexivity|reflexivity|reflexivity|vm_compute; reflexivity|vm_compute; reflexivity].
Defined.

(** ** Deletion *)

(** Whatever fails, the finalizer only goes when the executor pod is gone; the other
    finalizers stay, and until then the object is as it was. *)
Theorem deletion_waits_for_pod run w fs :
  w_run w = Some run → obj_deleting run = true → FINALIZER ∈ obj_finalizers run →
  let w' := env_world (handle_deletion run {| env_world := w; env_faults := fs |}).2 in
  w_run w' = Some run ∨
  ((∀ n, status_field crd_executor_pod run = Some n → w_pods w' !! n = None) ∧
   w_run w' = let rest := filter (λ f, f ≠ FINALIZER) (obj_finalizers run) in
              if bool_decide (rest = []) then None else Some (with_finalizers rest run)).
Proof.
  intros Hw Hdel Hfin w'. revert fs w'.
  set (Q := λ (_ : OpError + Action) w', w_run w' = Some run ∨
    ((∀ n, status_field crd_executor_pod run = Some n → w_pods w' !! n = None) ∧
     w_run w' = let rest := filter (λ f, f ≠ FINALIZER) (obj_finalizers run) in
                if bool_decide (rest = []) then None else Some (with_finalizers rest run))).
  change (wp (handle_deletion run) w Q). unfold handle_deletion. rewrite bool_decide_eq_true_2 by done. cbn [negb].
  apply wp_bind. eapply (wp_mono _ _ (λ _ w', w_run w' = Some run)).
  { match goal with |- wp ?m _ _ => assert (Hq : quiet m) end.
    { destruct (status_field crd_run_id run); auto with quiet. destruct (match _ with Some p => _ | None => _ end); auto with quiet. }
    eapply wp_mono; [apply Hq|]. intros r w' [Hr _]. congruence. }
  intros [e|_] w1 Hw1; [by left|]. apply wp_bind.
  eapply (wp_mono _ _ (λ r w', w_run w' = Some run ∧
    (r ≠ inl Unavailable → ∀ n, status_field crd_executor_pod run = Some n → w_pods w' !! n = None))).
  { destruct (status_field crd_executor_pod run) as [pod|]; [|by apply wp_ret].
    apply wp_call; cbn [fst snd]; (split; [done|]); try done. intros _ n [= ->]. cbn. apply lookup_delete_eq. }
  intros r w2 [Hw2 Hpod]. destruct r as [e|b]; [by left|]. specialize (Hpod ltac:(done)). apply wp_bind.
  eapply (wp_mono _ _ (λ _ w', w_run w' = Some run ∧ w_pods w' = w_pods w2)).
  { destruct (status_field crd_run_id run) as [i|]; [|by apply wp_ret]. apply wp_bind, wp_attempt. unfold cleanup_step_jobs.
    apply wp_bind, wp_attempt. by apply wp_call; apply wp_ret; apply wp_ret. }
  intros [e|_] w3 [Hw3 Hp3]; [by left|]. apply wp_bind. unfold patch_finalizers.
  assert (HQ : ∀ r, Q r (upd_run (λ _, if obj_deleting run && bool_decide (filter (λ f, f ≠ FINALIZER) (obj_finalizers run) = [])
     then None else Some (with_finalizers (filter (λ f, f ≠ FINALIZER) (obj_finalizers run)) run)) w3)).
  { intros r. right. cbn. rewrite Hp3, Hdel. split; done. }
  apply wp_call; cbn beta; rewrite ?Hw3; cbn [fst snd]; [apply wp_ret, HQ|by left|apply HQ].
Qed.

Definition y_leaving : RunObj :=
  {| obj_name := "run"; obj_deleting := true; obj_finalizers := ["other"; FINALIZER]; obj_annotations := ∅; obj_spec := y_spec;
     obj_status := Some (y_status PhRunning 0 0 2 []) |}.
Definition y_deleted : World :=
  {| w_run := Some y_leaving; w_pods := {["run-executor" := Some "Running"]}; w_jobs := ∅; w_code_locations := ∅; w_cancel_flags := ∅;
     w_run_status := {["r1" := Started]}; w_outcomes := ∅; w_progress := ∅ |}.

Lemma deletion_waits_for_pod_witness :
  let w' := env_world (handle_deletion y_leaving {| env_world := y_deleted; env_faults := [FailBefore] |}).2 in
  w_run w' = Some (with_finalizers ["other"] y_leaving) ∧
  (w_run w' = Some y_leaving ∨
   ((∀ n, status_field crd_executor_pod y_leaving = Some n → w_pods w' !! n = None) ∧
    w_run w' = let rest := filter (λ f, f ≠ FINALIZER) (obj_finalizers y_leaving) in
               if bool_decide (rest = []) then None else Some (with_finalizers rest y_leaving))).
Proof.
  cbv zeta. split; [vm_compute; reflexivity|].
  apply (deletion_waits_for_pod y_leaving y_deleted [FailBefore]); [reflexivity|reflexivity|apply list_elem_of_further, list_elem_of_here].
Defined.

(** ** Cancelling *)
Lemma elapsed_grace now t grace : (0 <= grace)%Z → (grace * 1000000000 <= now - t)%Z → (grace <= elapsed_secs now t)%Z.
Proof. intros H0 H. unfold elapsed_secs. apply Z.max_le_iff. right. apply Z.quot_le_lower_bound; lia. Qed.

Lemma finalize_clean show_ts now run s i w m :
  w_run w = Some run → obj_status run = Some s → crd_run_id s = Some i →
  ∃ st, crd_phase st = Some PhCancelled ∧
    (_ ← attempt (cleanup_step_jobs i); finalize_cancelled show_ts now run m) {| env_world := w; env_faults := [] |} =
    (inr AwaitChange,
     {| env_world := upd_run_status (alter (λ _, Canceled) i)
          (upd_run (λ _, Some (with_status (merge_status st s) run)) (upd_jobs (filter (λ j : string * string, j.1 ≠ i)) w));
        env_faults := [] |}).
Proof.
  intros Hw Hs Hi. eexists (set_message _ (set_steps _ (set_completed_at _ (set_phase PhCancelled s)))). split; [done|].
  unfold finalize_cancelled, cleanup_step_jobs, mbind, op_bind, mret, op_ret, unwrap, attempt, delete_jobs, call. rewrite Hs, Hi.
  cbn [env_faults env_world fst snd]. unfold with_progress, mbind, op_bind, mret, op_ret, attempt, get_run_progress, call.
  cbn [env_faults env_world fst snd]. unfold patch_status, call. cbn [env_faults env_world fst snd upd_jobs w_run]. rewrite Hw, Hs. done.
Qed.

(** C28: once the grace period of a cancelling run is over, a pass without faults ends it: the
    phase is [Cancelled], the executor pod has exited or is deleted, no step job of the run is
    left, and storage has the run as canceled. *)
Theorem cancel_enforced show_ts parse_ts fresh_id now run s i t w :
  w_run w = Some run → obj_deleting run = false → FINALIZER ∈ obj_finalizers run → obj_status run = Some s →
  status_ok parse_ts (obj_name run) (obj_spec run) s → crd_phase s = Some PhCancelling → crd_run_id s = Some i →
  cancelling_since parse_ts s = Some t → (0 <= spec_cancel_grace_period_seconds (obj_spec run))%Z →
  (spec_cancel_grace_period_seconds (obj_spec run) * 1000000000 <= now - t)%Z →
  ∃ w' run', clean (reconcile show_ts parse_ts fresh_id now run) w = (inr AwaitChange, w') ∧
    w_run w' = Some run' ∧ status_field crd_phase run' = Some PhCancelled ∧
    (∀ n ph, crd_executor_pod s = Some n → w_pods w' !! n = Some ph → pod_phase ph = PodSucceeded ∨ pod_phase ph = PodFailed) ∧
    (∀ j, (i, j) ∉ w_jobs w') ∧ w_run_status w' !! i = (λ _, Canceled) <$> w_run_status w !! i.
Proof.
  intros Hw Hdel Hfin Hs Hok Hp Hi Hsince H0 Hgrace. destruct (so_has_pod _ _ _ _ Hok) as [pod Hpod]; [by right|].
  unfold reconcile. rewrite Hdel, bool_decide_eq_true_2 by done. cbn [negb]. unfold status_field at 1. rewrite Hs, Hp.
  unfold clean, reconcile_cancelling, mbind, op_bind, mret, op_ret, unwrap. rewrite Hs, Hi, Hpod, Hsince.
  rewrite (proj2 (Z.leb_le _ _) (elapsed_grace now t _ H0 Hgrace)).
  unfold get_pod_opt, call. cbn [env_faults env_world fst snd].
  assert (Hend : ∀ P m, (∀ ph, P !! pod = Some ph → pod_phase ph = PodSucceeded ∨ pod_phase ph = PodFailed) →
    ∃ w' run', (let r := (_ ← attempt (cleanup_step_jobs i); finalize_cancelled show_ts now run m)
                 {| env_world := upd_pods (λ _, P) w; env_faults := [] |} in (r.1, env_world r.2)) = (inr AwaitChange, w') ∧
      w_run w' = Some run' ∧ status_field crd_phase run' = Some PhCancelled ∧
      (∀ n ph, Some pod = Some n → w_pods w' !! n = Some ph → pod_phase ph = PodSucceeded ∨ pod_phase ph = PodFailed) ∧
      (∀ j, (i, j) ∉ w_jobs w') ∧ w_run_status w' !! i = (λ _, Canceled) <$> w_run_status w !! i).
  { intros P m HP. destruct (finalize_clean show_ts now run s i (upd_pods (λ _, P) w) m Hw Hs Hi) as (st & Hst & ->).
    eexists _, _. split_and!; [done|done| | | |].
    - unfold status_field. cbn. by rewrite Hst.
    - intros n ph [= <-]. apply HP.
    - intros j. cbn. rewrite elem_of_filter. cbn. naive_solver.
    - cbn. apply lookup_alter_eq. }
  assert (Hid : upd_pods (λ _, w_pods w) w = w) by by destruct w.
  destruct (w_pods w !! pod) as [ph|] eqn:Hph; [case_bool_decide as Hexit|].
  - specialize (Hend (w_pods w) None). rewrite Hid in Hend. apply Hend. intros ph'. rewrite Hph. intros [= <-]. set_solver.
  - unfold delete_pod_if_exists, call. cbn [env_faults env_world fst snd].
    apply (Hend (delete pod (w_pods w))). intros ph'. by rewrite lookup_delete_eq.
  - specialize (Hend (w_pods w) None). rewrite Hid in Hend. apply Hend. intros ph'. by rewrite Hph.
Qed.

Definition y_cancelling : RunCrdStatus :=
  y_status PhCancelling 0 0 2 [make_condition x_show 5 CONDITION_CANCELLING "CancelRequested"].

Lemma y_cancelling_ok : status_ok x_parse "run" y_spec y_cancelling.
Proof.
  split; cbn; intros; try done; unfold MAX_CONDITIONS; first [lia|naive_solver|vm_compute; by eexists|idtac].
Qed.

Definition y_hung : World :=
  y_world (Some y_cancelling) {["run-executor" := Some "Running"]} {[("r1", "job"); ("r2", "job")]} 2.

Lemma cancel_enforced_witness :
  ∃ w' run', clean (reconcile x_show x_parse "id" 400000000000 (y_run (Some y_cancelling))) y_hung = (inr AwaitChange, w') ∧
    w_run w' = Some run' ∧ status_field crd_phase run' = Some PhCancelled ∧ w_run_status w' !! "r1" = Some Canceled.
Proof.
  destruct (cancel_enforced x_show x_parse "id" 400000000000 (y_run (Some y_cancelling)) y_cancelling "r1" 5 y_hung)
    as (w' & run' & H1 & H2 & H3 & _ & _ & H4);
    [reflexivity|reflexivity|apply list_elem_of_here|reflexivity|exact y_cancelling_ok|reflexivity|reflexivity|vm_compute; reflexivity|
     vm_compute; discriminate|vm_compute; discriminate|].
  exists w', run'. split; [exact H1|]. split; [exact H2|]. split; [exact H3|]. rewrite H4. reflexivity.
Defined.

(** ** Two executions that go wrong *)

(** A step completed since the last restart resets the restart budget only if no pass
    polled the progress in between: with the poll the same crash fails the run. *)
Theorem polled_progress_spends_budget :
  let w := y_world (Some (y_status PhRunning 1 1 2 [])) {["run-executor" := Some "Running"]} ∅ 3 in
  let crash := upd_pods (<["run-executor" := Some "Failed"]>) in
  let seen w := (λ run, (status_field crd_phase run, crd_restarts_without_progress <$> obj_status run)) <$> w_run w in
  seen (y_pass 20 [] (crash w)) = Some (Some PhRunning, Some 0%N) ∧
  seen (y_pass 20 [] (crash (y_pass 10 [] w))) = Some (Some PhFailed, Some 2%N).
Proof. split; vm_compute; reflexivity. Qed.

(** A cleanup of step jobs that fails as a cancelling run ends is not repeated: the run is
    [Cancelled] and every later pass leaves its jobs running. *)
Theorem failed_cleanup_not_repeated :
  let w := y_world (Some y_cancelling) ∅ {[("r1", "job")]} 2 in
  let w' := y_pass 10 [NoFault; FailBefore] w in
  (λ run, status_field crd_phase run) <$> w_run w' = Some (Some PhCancelled) ∧ ("r1", "job") ∈ w_jobs w' ∧
  ∀ now fs, y_pass now fs w' = w'.
Proof.
  cbv zeta. split_and!; [vm_compute; reflexivity|vm_compute; reflexivity|].
  intros now fs. unfold y_pass at 1.
  destruct (w_run (y_pass 10 [NoFault; FailBefore] (y_world (Some y_cancelling) ∅ {[("r1", "job")]} 2))) as [run|] eqn:Hrun; [|done].
  assert (Hq : reconcile x_show x_parse "id" now run = mret AwaitChange).
  { vm_compute in Hrun. injection Hrun as <-. reflexivity. }
  by rewrite Hq.
Qed.
