(* ===== verification/Retry.v ===== *)
(** * Retry policies and the retry ladder of a step (execution/retry.rs, execution/compute.rs,
      rivers-k8s/src/compute.rs)

    The decision functions, the delay in IEEE doubles, the growth of compute and the metadata of
    retry events. *)

From S2P Require Import Prelude.
From stdpp Require Import pretty.
From Stdlib Require Import SpecFloat.

(** ** Reasons and policies *)
Inductive FailureReason := RError | ROutOfMemory | RTimeout | RInfrastructure | RCancelled.

#[export] Instance FailureReason_eq_dec : EqDecision FailureReason.
Proof. solve_decision. Defined.

Definition reason_as_str (r : FailureReason) : string :=
  match r with
  | RError => "error"
  | ROutOfMemory => "out_of_memory"
  | RTimeout => "timeout"
  | RInfrastructure => "infrastructure"
  | RCancelled => "cancelled"
  end.

Definition reason_parse (s : string) : option FailureReason :=
  if String.eqb s "error" then Some RError
  else if String.eqb s "out_of_memory" then Some ROutOfMemory
  else if String.eqb s "timeout" then Some RTimeout
  else if String.eqb s "infrastructure" then Some RInfrastructure
  else if String.eqb s "cancelled" then Some RCancelled
  else None.

(** [Duration]: whole seconds ([u64]) and nanoseconds below a second. *)
Record Duration := { dur_secs : Z; dur_nanos : Z }.

Definition dur_zero : Duration := {| dur_secs := 0; dur_nanos := 0 |}.

(** The whole duration in nanoseconds. *)
Definition dur_total (d : Duration) : Z := dur_secs d * 1000000000 + dur_nanos d.

Inductive BackoffShape :=
| BConstant (delay : Duration)
| BLinear (step initial : Duration)
| BExponential (initial : Duration) (factor : spec_float)
| BFixed (schedule : list Duration).

Record Backoff := {
  bo_shape : BackoffShape;
  bo_jitter : spec_float;
  bo_max_delay : option Duration
}.

Inductive RetryOn :=
| RetryAll
| RetryTransient
| RetryMatch (exceptions : list string) (reasons : list FailureReason).

Record ComputeEscalation := {
  esc_factor : spec_float;
  esc_max_memory : string;
  esc_cpu_factor : option spec_float;
  esc_max_cpu : option string;
  esc_on : list FailureReason
}.

Record RetryPolicy := {
  rp_max_retries : N;
  rp_backoff : option Backoff;
  rp_retry_on : RetryOn;
  rp_escalate : option ComputeEscalation
}.

Definition matches_retry_on (p : RetryPolicy) (reason : FailureReason) (exc_types : list string) : bool :=
  match rp_retry_on p with
  | RetryAll => true
  | RetryTransient => match reason with ROutOfMemory | RTimeout | RInfrastructure => true | _ => false end
  | RetryMatch exceptions reasons =>
      bool_decide (reason ∈ reasons) || existsb (λ t, bool_decide (t ∈ exceptions)) exc_types
  end.

Definition should_retry (p : RetryPolicy) (reason : FailureReason) (exc_types : list string) (attempt : N) : bool :=
  if bool_decide (reason = RCancelled) || (rp_max_retries p <? attempt)%N then false
  else matches_retry_on p reason exc_types
       || match rp_escalate p with Some e => bool_decide (reason ∈ esc_on e) | None => false end.

(** ** Delays *)
Definition f64_of_Z (z : Z) : spec_float := binary_normalize 53 1024 z 0 false.
Definition f64_add : spec_float → spec_float → spec_float := SFadd 53 1024.
Definition f64_mul : spec_float → spec_float → spec_float := SFmul 53 1024.
Definition f64_sub : spec_float → spec_float → spec_float := SFsub 53 1024.
Definition f64_div : spec_float → spec_float → spec_float := SFdiv 53 1024.

(** The order of two numbers by their exact values; [None] for NaN. *)
Definition f64_compare (x y : spec_float) : option comparison :=
  let signed (s : bool) m := if s then Z.neg m else Z.pos m in
  match x, y with
  | S754_nan, _ | _, S754_nan => None
  | S754_infinity s, S754_infinity s' => Some (if Bool.eqb s s' then Eq else if s then Lt else Gt)
  | S754_infinity s, _ => Some (if s then Lt else Gt)
  | _, S754_infinity s => Some (if s then Gt else Lt)
  | S754_zero _, S754_zero _ => Some Eq
  | S754_zero _, S754_finite s _ _ => Some (if s then Gt else Lt)
  | S754_finite s _ _, S754_zero _ => Some (if s then Lt else Gt)
  | S754_finite s m e, S754_finite s' m' e' =>
      let low := Z.min e e' in
      Some (Z.compare (signed s m * 2 ^ (e - low))%Z (signed s' m' * 2 ^ (e' - low))%Z)
  end.

Definition f64_lt (x y : spec_float) : bool := match f64_compare x y with Some Lt => true | _ => false end.

(** [f64::min]: the other operand when one is NaN. *)
Definition f64_min (x y : spec_float) : spec_float :=
  match f64_compare x y with
  | None => match x with S754_nan => y | _ => x end
  | Some Gt => y
  | _ => x
  end.

Definition f64_clamp (x lo hi : spec_float) : spec_float :=
  let x := if f64_lt x lo then lo else x in
  if f64_lt hi x then hi else x.

Definition is_finite (x : spec_float) : bool := match x with S754_zero _ | S754_finite _ _ _ => true | _ => false end.

Definition as_secs_f64 (d : Duration) : spec_float :=
  f64_add (f64_of_Z (dur_secs d)) (f64_div (f64_of_Z (dur_nanos d)) (f64_of_Z 1000000000)).

(** Nearest integer, ties to even, of [n / d]. *)
Definition round_half_even (n d : Z) : Z :=
  let q := (n / d)%Z in
  match Z.compare (2 * (n - q * d)) d with
  | Lt => q
  | Gt => (q + 1)%Z
  | Eq => if Z.even q then q else (q + 1)%Z
  end.

(** [Duration::from_secs_f64]; [None] where it panics. *)
Definition from_secs_f64 (x : spec_float) : option Duration :=
  match x with
  | S754_zero _ => Some dur_zero
  | S754_finite false m e =>
      let n := if (0 <=? e)%Z then (Z.pos m * 2 ^ e * 1000000000)%Z
               else round_half_even (Z.pos m * 1000000000) (2 ^ (- e)) in
      if (n / 1000000000 <? 2 ^ 64)%Z then Some {| dur_secs := n / 1000000000; dur_nanos := n mod 1000000000 |} else None
  | _ => None
  end.

(** [x as i32] of a [u32]. *)
Definition as_i32 (z : Z) : Z := ((z + 2 ^ 31) mod 2 ^ 32 - 2 ^ 31)%Z.

Section delay.
Context (powi : spec_float → Z → spec_float).   (* [f64::powi], whose precision is unspecified *)

Definition base_secs (shape : BackoffShape) (n : N) : spec_float :=
  match shape with
  | BConstant delay => as_secs_f64 delay
  | BLinear step initial => f64_add (as_secs_f64 initial) (f64_mul (as_secs_f64 step) (f64_of_Z (Z.of_N n)))
  | BExponential initial factor => f64_mul (as_secs_f64 initial) (powi factor (as_i32 (Z.of_N (n - 1))))
  | BFixed schedule =>
      match last schedule with
      | None => S754_zero false
      | Some l => as_secs_f64 (default l (schedule !! N.to_nat (N.min (n - 1) (N.of_nat (length schedule - 1)))))
      end
  end.

Definition one_f64 : spec_float := f64_of_Z 1.
Definition max_wait : spec_float := f64_of_Z 10000000000.

Definition compute_delay (p : RetryPolicy) (attempt : N) (rng01 : spec_float) : option Duration :=
  match rp_backoff p with
  | None => Some dur_zero
  | Some b =>
      let n := N.max attempt 1 in
      let base := base_secs (bo_shape b) n in
      let capped := match bo_max_delay b with Some m => f64_min base (as_secs_f64 m) | None => base end in
      let j := f64_clamp (bo_jitter b) (S754_zero false) one_f64 in
      let r := f64_clamp rng01 (S754_zero false) one_f64 in
      let wait := f64_mul capped (f64_add (f64_sub one_f64 j) (f64_mul (f64_mul (f64_of_Z 2) j) r)) in
      if is_finite wait && f64_lt (S754_zero false) wait then from_secs_f64 (f64_min wait max_wait)
      else Some dur_zero
  end.
End delay.

(** ** Compute and its escalation *)
Record Compute := { c_cpu : option string; c_memory : option string; c_gpu : option string }.

Definition or_default (c d : Compute) : Compute :=
  let or x y := match x with Some _ => x | None => y end in
  {| c_cpu := or (c_cpu c) (c_cpu d); c_memory := or (c_memory c) (c_memory d); c_gpu := or (c_gpu c) (c_gpu d) |}.

Section escalate.
Context (scale_quantity : string → spec_float → option string → option string).   (* kube_quantity *)

Definition escalate_compute (current : Compute) (esc : ComputeEscalation) (reason : FailureReason) : Compute :=
  if negb (bool_decide (reason ∈ esc_on esc)) then current
  else
    let memory := match c_memory current with
                  | Some mem => match scale_quantity mem (esc_factor esc) (Some (esc_max_memory esc)) with
                                | Some scaled => Some scaled | None => c_memory current end
                  | None => None
                  end in
    let cpu := match c_cpu current, esc_cpu_factor esc with
               | Some cpu, Some f => match scale_quantity cpu f (esc_max_cpu esc) with
                                     | Some scaled => Some scaled | None => c_cpu current end
               | _, _ => c_cpu current
               end in
    {| c_cpu := cpu; c_memory := memory; c_gpu := c_gpu current |}.
End escalate.

(** ** Metadata of retry events *)
Definition Meta : Type := list (string * string).

Definition META_ATTEMPT : string := "rivers/attempt".
Definition META_REASON : string := "rivers/failure_reason".
Definition META_EXC_TYPE : string := "rivers/exc_type".
Definition META_NEXT_DELAY_MS : string := "rivers/next_delay_ms".
Definition META_NEXT_COMPUTE : string := "rivers/next_compute".

Definition meta_value (m : Meta) (key : string) : option string :=
  snd <$> List.find (λ e : string * string, String.eqb e.1 key) m.

(** [str::parse::<u32>] *)
Definition digit_of (c : ascii) : option N :=
  let n := N_of_ascii c in if ((48 <=? n) && (n <=? 57))%N then Some (n - 48)%N else None.

Fixpoint parse_digits (acc : N) (s : string) : option N :=
  match s with
  | EmptyString => Some acc
  | String c s =>
      match digit_of c with
      | Some d => let acc := (acc * 10 + d)%N in if (acc <? 2 ^ 32)%N then parse_digits acc s else None
      | None => None
      end
  end.

Definition parse_u32 (s : string) : option N :=
  match s with
  | EmptyString => None
  | String c rest =>
      if Ascii.eqb c "+"%char then match rest with EmptyString => None | _ => parse_digits 0 rest end
      else parse_digits 0 s
  end.

Section metadata.
Context (compute_json : Compute → string) (compute_of_json : string → option Compute).   (* serde_json *)

Definition meta_attempt (m : Meta) : option N :=
  match meta_value m META_ATTEMPT with Some a => parse_u32 a | None => None end.

Definition next_compute_of (m : Meta) : option (N * Compute) :=
  match meta_attempt m with
  | Some attempt =>
      match meta_value m META_NEXT_COMPUTE with Some c => pair attempt <$> compute_of_json c | None => None end
  | None => None
  end.

(** [max_by_key] on the attempt keeps the last of several. *)
Definition later (best : option (N * Compute)) (e : N * Compute) : option (N * Compute) :=
  match best with Some b => if (b.1 <=? e.1)%N then Some e else best | None => Some e end.

Definition recorded_next_compute (metas : list Meta) : option Compute :=
  snd <$> foldl later None (omap next_compute_of metas).

Definition reason_of (m : Meta) : option (N * FailureReason) :=
  (λ attempt, (attempt, default RError (match meta_value m META_REASON with Some r => reason_parse r | None => None end)))
    <$> meta_attempt m.

Definition recorded_ladder (metas : list Meta) : list (N * FailureReason) :=
  sort_by (λ a b : N * FailureReason, (a.1 <=? b.1)%N) (omap reason_of metas).

Definition step_retry_record (attempt : N) (reason : FailureReason) (delay : Duration) (next_compute : option Compute) : Meta :=
  [(META_ATTEMPT, pretty attempt); (META_REASON, reason_as_str reason);
   (META_NEXT_DELAY_MS, pretty (dur_total delay / 1000000)%Z)]
  ++ match next_compute with Some c => [(META_NEXT_COMPUTE, compute_json c)] | None => [] end.
End metadata.
