(* ===== verification/RetryLadder.v ===== *)
(** * The retry ladder of a step on Kubernetes (python/src/executor/kubernetes.rs,
      rivers-k8s/src/classify.rs)

    The monitor of a step: it polls the events and the Job of one attempt until the attempt is
    over, decides on a retry, records it and goes on with a new Job; started again, it resumes
    from the recorded events. *)

From S2P Require Import Prelude Retry.
From Stdlib Require Import SpecFloat.

(** ** Events of a step and pods of a Job *)
Inductive EvKind := EvStepSuccess | EvStepFailure | EvStepRetry | EvOther.

Record Ev := { ev_kind : EvKind; ev_partition : option string; ev_meta : Meta }.

Definition is_success (e : Ev) : bool := match ev_kind e with EvStepSuccess => true | _ => false end.

(** Step-level failures only. *)
Definition is_failure (e : Ev) : bool :=
  match ev_kind e, ev_partition e with EvStepFailure, None => true | _, _ => false end.

Definition is_retry (e : Ev) : bool := match ev_kind e with EvStepRetry => true | _ => false end.

Definition failures_of (evs : list Ev) : list Ev := filter is_failure evs.

Definition is_terminal (e : Ev) : bool := match ev_kind e with EvStepSuccess | EvStepFailure => true | _ => false end.

Definition get_step_terminal_events (evs : list Ev) : list Ev :=
  filter (λ e, is_terminal e) evs.

Record Terminated := { t_reason : option string; t_exit_code : Z }.
Record ContainerStatus := { cs_state : option Terminated; cs_last_state : option Terminated }.

Definition classify_termination (reason : option string) (exit_code : Z) : option FailureReason :=
  if bool_decide (reason = Some "OOMKilled") then Some ROutOfMemory
  else if bool_decide (reason = Some "DeadlineExceeded") then Some RTimeout
  else if (exit_code =? 0)%Z then None
  else if (exit_code =? 137)%Z || (exit_code =? 143)%Z then Some RInfrastructure
  else Some RError.

Definition status_reason (cs : ContainerStatus) : option FailureReason :=
  match match cs_state cs with Some t => Some t | None => cs_last_state cs end with
  | Some t => classify_termination (t_reason t) (t_exit_code t)
  | None => None
  end.

(** [pods] are the container statuses of the Job's pods; [None] when listing them fails. *)
Definition classify_failed_pod (pods : option (list (list ContainerStatus))) : FailureReason :=
  match pods with
  | Some pods => default RInfrastructure (head (omap status_reason (concat pods)))
  | None => RInfrastructure
  end.

(** ** Polling one attempt *)
Inductive StepPollOutcome :=
| PollSuccess
| PollFailed (reason : FailureReason) (exc_types : list string)
| PollCancelled.

Inductive JobGet := JobErr | JobMissing | JobFound (failed : option Z).

(** What the monitor sees in one cycle. *)
Record Obs := {
  o_events : option (list Ev);                    (* the terminal events; [None]: the read failed *)
  o_flag : bool;                                  (* the watcher's flag *)
  o_cancelled : option bool;                      (* the direct read of the cancellation *)
  o_job : JobGet;
  o_pods : option (list (list ContainerStatus))
}.

Definition EVENT_GRACE_CYCLES : N := 2.

Inductive Cycle := Settled (o : StepPollOutcome) | Unsettled (job_failed_cycles : N).

Section poll.
Context (exc_of_json : string → option (list string)).   (* serde_json *)

Definition decode_exc_types (value : string) : list string := default [] (exc_of_json value).

Definition failure_outcome (e : Ev) : StepPollOutcome :=
  PollFailed
    (default RError (match meta_value (ev_meta e) META_REASON with Some r => reason_parse r | None => None end))
    (match meta_value (ev_meta e) META_EXC_TYPE with Some v => decode_exc_types v | None => [] end).

Definition events_outcome (baseline_failures : nat) (events : list Ev) : option StepPollOutcome :=
  if existsb is_success events then Some PollSuccess
  else if (baseline_failures <? length (failures_of events))%nat then failure_outcome <$> last (failures_of events)
  else None.

Definition poll_cycle (baseline_failures : nat) (cycle job_failed_cycles : N) (o : Obs) : Cycle :=
  match match o_events o with Some evs => events_outcome baseline_failures evs | None => None end with
  | Some out => Settled out
  | None =>
      if o_flag o || ((cycle mod 30 =? 0)%N && default false (o_cancelled o)) then Settled PollCancelled
      else if (cycle mod 2 =? 0)%N then
        match o_job o with
        | JobFound failed =>
            if (0 <? default 0 failed)%Z then
              let job_failed_cycles := (job_failed_cycles + 1)%N in
              if (EVENT_GRACE_CYCLES <=? job_failed_cycles)%N then Settled (PollFailed (classify_failed_pod (o_pods o)) [])
              else Unsettled job_failed_cycles
            else Unsettled job_failed_cycles
        | _ => Unsettled job_failed_cycles
        end
      else Unsettled job_failed_cycles
  end.

Fixpoint poll_loop (fuel : nat) (baseline_failures : nat) (cycle job_failed_cycles : N) (obs : N → Obs)
    : option StepPollOutcome :=
  match fuel with
  | O => None
  | S fuel =>
      let cycle := (cycle + 1)%N in
      match poll_cycle baseline_failures cycle job_failed_cycles (obs cycle) with
      | Settled out => Some out
      | Unsettled job_failed_cycles => poll_loop fuel baseline_failures cycle job_failed_cycles obs
      end
  end.

Definition poll_step_attempt (fuel : nat) (baseline_failures : nat) (obs : N → Obs) : option StepPollOutcome :=
  poll_loop fuel baseline_failures 0 0 obs.
End poll.

(** ** The surroundings of the monitor *)

(** How the Job of one attempt goes: its pod runs for some cycles, then its events are there
    and the Job's status is final. *)
Record Fate := {
  f_cycles : N;
  f_events : list Ev;
  f_failed : option Z;
  f_pods : option (list (list ContainerStatus));
  f_flag : bool                                   (* the run is cancelled by then *)
}.

(** What the monitor depends on, by attempt. *)
Record World := {
  w_fate : N → Fate;
  w_create : N → bool;                            (* the Job is created or adopted *)
  w_readable : N → bool;                          (* the events before it are read *)
  w_stored : N → bool;                            (* its retry event is stored *)
  w_delay : N → Duration;                         (* the backoff drawn after it *)
  w_cut : N → bool                                (* the backoff is cut short by a cancellation *)
}.

(** The stored events of the step, and the last attempt whose pod has ended. *)
Record St := { s_events : list Ev; s_ended : N }.

Definition pod_ends (w : World) (a : N) (st : St) : St :=
  if (s_ended st <? a)%N then {| s_events := s_events st ++ f_events (w_fate w a); s_ended := a |} else st.

Definition running_obs (st : St) : Obs :=
  {| o_events := Some (get_step_terminal_events (s_events st)); o_flag := false; o_cancelled := Some false;
     o_job := JobFound None; o_pods := Some [] |}.

Definition final_obs (f : Fate) (st : St) : Obs :=
  {| o_events := Some (get_step_terminal_events (s_events st)); o_flag := f_flag f; o_cancelled := Some (f_flag f);
     o_job := JobFound (f_failed f); o_pods := f_pods f |}.

Definition obs_of (w : World) (a : N) (st : St) (cycle : N) : Obs :=
  if (s_ended st <? a)%N && (cycle <=? f_cycles (w_fate w a))%N then running_obs st
  else final_obs (w_fate w a) (pod_ends w a st).

(** ** The monitor *)
Section ladder.
Context (compute_json : Compute → string) (compute_of_json : string → option Compute).   (* serde_json *)
Context (exc_of_json : string → option (list string)).
Context (scale_quantity : string → spec_float → option string → option string).
Context (policy : option RetryPolicy) (base : Compute) (w : World).

(** The compute a step starts with: its own, the executor's for what it leaves unset. *)
Definition base_compute (worker_cpu worker_memory : string) (own : option Compute) : Compute :=
  let executor_base := {| c_cpu := Some worker_cpu; c_memory := Some worker_memory; c_gpu := None |} in
  match own with Some c => or_default c executor_base | None => executor_base end.

(** Where a fresh monitor of the step starts, given the recorded retries. *)
Definition resume (initial_events : list Ev) : N * Compute :=
  let metas := map ev_meta (filter is_retry initial_events) in
  let recorded := recorded_ladder metas in
  let compute :=
    match recorded_next_compute compute_of_json metas with
    | Some c => c
    | None =>
        foldl (λ c e, match policy with
                      | Some p => match rp_escalate p with
                                  | Some esc => escalate_compute scale_quantity c esc e.2
                                  | None => c
                                  end
                      | None => c
                      end) base recorded
    end in
  ((N.of_nat (length recorded) mod 2 ^ 32 + 1) mod 2 ^ 32, compute)%N.

Definition baseline_failures (events : list Ev) (attempt : N) : nat :=
  Nat.min (length (failures_of events)) (N.to_nat (attempt - 1)).

(** How polling the attempt ends, its Job created when the store was [st]. *)
Definition attempt_outcome (attempt : N) (seen : list Ev) (st : St) : option StepPollOutcome :=
  poll_step_attempt exc_of_json (N.to_nat (f_cycles (w_fate w attempt)) + 4) (baseline_failures seen attempt)
    (obs_of w attempt st).

Inductive Turn := Over (success : bool) | Again (meta : Meta) (compute : Compute).

Definition after_poll (attempt : N) (compute : Compute) (outcome : StepPollOutcome) : Turn :=
  match outcome with
  | PollSuccess => Over true
  | PollCancelled => Over false
  | PollFailed reason exc_types =>
      match policy with
      | None => Over false
      | Some p =>
          if negb (should_retry p reason exc_types attempt) then Over false
          else
            let compute := match rp_escalate p with
                           | Some esc => escalate_compute scale_quantity compute esc reason | None => compute end in
            Again (step_retry_record compute_json attempt reason (w_delay w attempt) (Some compute)) compute
      end
  end.

Definition store_retry (attempt : N) (m : Meta) (st : St) : St :=
  if w_stored w attempt then
    {| s_events := s_events st ++ [{| ev_kind := EvStepRetry; ev_partition := None; ev_meta := m |}]; s_ended := s_ended st |}
  else st.

(** The loop: the result, the attempts whose Jobs it asked for with their compute, and the store
    at the end; [None] when the fuel runs out or polling does not end. *)
Fixpoint run_ladder (fuel : nat) (attempt : N) (compute : Compute) (seen : list Ev) (jobs : list (N * Compute)) (st : St)
    : option (bool * list (N * Compute) * St) :=
  match fuel with
  | O => None
  | S fuel =>
      let jobs := jobs ++ [(attempt, compute)] in
      if negb (w_create w attempt) then Some (false, jobs, st)
      else
        match attempt_outcome attempt seen st with
        | None => None
        | Some outcome =>
            let st := pod_ends w attempt st in
            match after_poll attempt compute outcome with
            | Over b => Some (b, jobs, st)
            | Again m compute =>
                let st := store_retry attempt m st in
                if w_cut w attempt then Some (false, jobs, st)
                else
                  let attempt := u32_incr attempt in
                  let seen := if w_readable w attempt then get_step_terminal_events (s_events st) else [] in
                  run_ladder fuel attempt compute seen jobs st
            end
        end
  end.

(** [readable]: the initial read of the step's events succeeds. *)
Definition run_step_with_retries (fuel : nat) (readable : bool) (st : St) : option (bool * list (N * Compute) * St) :=
  let initial_events := if readable then s_events st else [] in
  let (attempt, compute) := resume initial_events in
  run_ladder fuel attempt compute initial_events [] st.
End ladder.
