(* ===== verification/RetryTheorems.v ===== *)
(** Correctness of retries: the delay is bounded, and a step ladder that is interrupted ends as
    one that is not. *)

From S2P Require Import Prelude Retry RetryLadder.
From stdpp Require Import pretty.
From Stdlib Require Import SpecFloat.

(** * Properties of retries

    Attempt numbers and reasons read back from metadata as written; delays never panic
    and are bounded, though not by the cap of the backoff. *)

(** ** Numbers in metadata *)
Lemma digit_of_pretty x : (x < 10)%N → digit_of (pretty_N_char x) = Some x.
Proof.
  intros H. assert (x = 0 ∨ x = 1 ∨ x = 2 ∨ x = 3 ∨ x = 4 ∨ x = 5 ∨ x = 6 ∨ x = 7 ∨ x = 8 ∨ x = 9)%N as Hx by lia.
  repeat destruct Hx as [->|Hx]; subst; done.
Qed.

Lemma parse_digits_go x s : (x < 2 ^ 32)%N → parse_digits 0 (pretty_N_go x s) = parse_digits x s.
Proof.
  revert s. induction (N.lt_wf_0 x) as [x _ IH]; intros s Hx. destruct (decide (x = 0)%N) as [->|Hne]; [by rewrite pretty_N_go_0|].
  rewrite pretty_N_go_step by lia. assert (Hd : (x / 10 < x)%N) by (apply N.div_lt; lia). rewrite IH by lia.
  cbn [parse_digits]. rewrite digit_of_pretty by (apply N.mod_lt; lia).
  assert (x / 10 * 10 + x mod 10 = x)%N as -> by (rewrite N.mul_comm; symmetry; apply N.div_mod; lia).
  by rewrite (proj2 (N.ltb_lt _ _) Hx).
Qed.

Lemma parse_u32_pretty x : (x < 2 ^ 32)%N → parse_u32 (pretty x) = Some x.
Proof.
  intros Hx. unfold pretty, pretty_N. destruct (decide (x = 0)%N) as [->|Hne]; [done|].
  pose proof (parse_digits_go x EmptyString Hx) as Hp. cbn [parse_digits] in Hp.
  destruct (pretty_N_go x "") as [|c s] eqn:E; cbn in Hp; [congruence|]. unfold parse_u32.
  destruct (Ascii.eqb_spec c "+"%char) as [->|]; [done|exact Hp].
Qed.

Lemma reason_roundtrip r : reason_parse (reason_as_str r) = Some r.
Proof. by destruct r. Qed.

(** ** Delays *)
Lemma round_half_even_le n d k : (0 < d)%Z → (n <= k * d)%Z → (round_half_even n d <= k)%Z.
Proof.
  intros Hd Hn. unfold round_half_even. assert (Hq : (n / d <= k)%Z) by (apply Z.div_le_upper_bound; lia).
  pose proof (Z.div_mod n d ltac:(lia)) as Hdm. pose proof (Z.mod_pos_bound n d Hd) as Hm.
  destruct (decide (n / d = k)%Z) as [Heq|].
  - assert (n - n / d * d <= 0)%Z by (rewrite Heq; lia).
    destruct (Z.compare_spec (2 * (n - n / d * d)) d); lia.
  - destruct (Z.compare _ _); [destruct (Z.even _)| |]; lia.
Qed.

Lemma round_half_even_nonneg n d : (0 < d)%Z → (0 <= n)%Z → (0 <= round_half_even n d)%Z.
Proof.
  intros Hd Hn. unfold round_half_even. assert (0 <= n / d)%Z by (apply Z.div_pos; lia).
  destruct (Z.compare _ _); [destruct (Z.even _)| |]; lia.
Qed.

Lemma max_wait_value : max_wait = S754_finite false 5242880000000000 (-19).
Proof. vm_compute. reflexivity. Qed.

(** A double between zero and [max_wait] is at most 10^19 nanoseconds. *)
Lemma finite_nanos m e :
  f64_compare (S754_finite false m e) max_wait ≠ Some Gt →
  let n := if (0 <=? e)%Z then (Z.pos m * 2 ^ e * 1000000000)%Z else round_half_even (Z.pos m * 1000000000) (2 ^ (- e)) in
  (0 <= n <= 10 ^ 19)%Z.
Proof.
  rewrite max_wait_value. cbn [f64_compare]. intros Hcmp.
  assert (Hle : (Z.pos m * 2 ^ (e - Z.min e (-19)) <= 5242880000000000 * 2 ^ (-19 - Z.min e (-19)))%Z).
  { destruct (Z.compare_spec (Z.pos m * 2 ^ (e - Z.min e (-19))) (5242880000000000 * 2 ^ (-19 - Z.min e (-19)))); try lia.
    by destruct Hcmp; f_equal; apply Z.compare_gt_iff. }
  clear Hcmp. destruct (Z.leb_spec 0 e) as [He|He].
  - rewrite Z.min_r in Hle by lia. replace (e - -19)%Z with (e + 19)%Z in Hle by lia.
    rewrite Z.pow_add_r in Hle by lia. change (2 ^ 19)%Z with 524288%Z in Hle. change (2 ^ (-19 - -19))%Z with 1%Z in Hle.
    pose proof (Z.pow_pos_nonneg 2 e ltac:(lia) He). cbv zeta. change (10 ^ 19)%Z with 10000000000000000000%Z. nia.
  - pose proof (Z.pow_pos_nonneg 2 (- e) ltac:(lia) ltac:(lia)) as Hp.
    split; [apply round_half_even_nonneg; lia|]. apply round_half_even_le; [done|].
    enough (Z.pos m <= 10000000000 * 2 ^ (- e))%Z by (change (10 ^ 19)%Z with (1000000000 * 10000000000)%Z; nia).
    destruct (Z.le_gt_cases (-19) e).
    + rewrite Z.min_r in Hle by lia. change (2 ^ (-19 - -19))%Z with 1%Z in Hle.
      assert (Hs : (2 ^ (e - -19) * 2 ^ (- e) = 524288)%Z) by (rewrite <-Z.pow_add_r by lia; by replace (e - -19 + - e)%Z with 19%Z by lia).
      pose proof (Z.pow_pos_nonneg 2 (e - -19) ltac:(lia) ltac:(lia)). nia.
    + rewrite Z.min_l in Hle by lia. rewrite Z.sub_diag in Hle. change (2 ^ 0)%Z with 1%Z in Hle.
      replace (- e)%Z with (19 + (-19 - e))%Z by lia. rewrite Z.pow_add_r by lia. change (2 ^ 19)%Z with 524288%Z. lia.
Qed.

Lemma from_secs_f64_capped x :
  is_finite x → f64_lt (S754_zero false) x →
  ∃ d, from_secs_f64 (f64_min x max_wait) = Some d ∧ (0 <= dur_nanos d < 10 ^ 9)%Z ∧ (0 <= dur_secs d)%Z ∧ (dur_total d <= 10 ^ 19)%Z.
Proof.
  intros Hfin Hpos. destruct x as [s|s| |[] m e]; try done.
  assert (Hcap : ∃ m' e', f64_min (S754_finite false m e) max_wait = S754_finite false m' e'
                 ∧ f64_compare (S754_finite false m' e') max_wait ≠ Some Gt).
  { unfold f64_min. destruct (f64_compare (S754_finite false m e) max_wait) as [[]|] eqn:Hc.
    - exists m, e. by rewrite Hc.
    - exists m, e. by rewrite Hc.
    - exists 5242880000000000%positive, (-19)%Z. split; [apply max_wait_value|]. by vm_compute.
    - exists m, e. by rewrite Hc. }
  destruct Hcap as (m' & e' & -> & Hc). pose proof (finite_nanos _ _ Hc) as Hn. cbn [from_secs_f64].
  cbv zeta in Hn |- *. set (n := if (0 <=? e')%Z then _ else _) in Hn |- *. clearbody n.
  change (10 ^ 19)%Z with 10000000000000000000%Z in *. change (2 ^ 64)%Z with 18446744073709551616%Z. change (10 ^ 9)%Z with 1000000000%Z.
  pose proof (Z.div_mod n 1000000000 ltac:(lia)). pose proof (Z.mod_pos_bound n 1000000000 ltac:(lia)).
  destruct (Z.ltb_spec (n / 1000000000) 18446744073709551616); [|lia].
  eexists. split; [done|]. unfold dur_total. cbn [dur_secs dur_nanos]. lia.
Qed.

(** Whatever the policy (NaN or infinite factors, jitters outside [0, 1], empty schedules),
    the attempt, the random draw and the library's [powi], computing the delay does not panic:
    it is a well-formed duration of at most 10^10 seconds. *)
Theorem delay_safe powi p attempt rng :
  ∃ d, compute_delay powi p attempt rng = Some d
    ∧ (0 <= dur_nanos d < 10 ^ 9)%Z ∧ (0 <= dur_secs d)%Z ∧ (dur_total d <= 10 ^ 19)%Z.
Proof.
  assert (Hzero : (0 <= dur_nanos dur_zero < 10 ^ 9)%Z ∧ (0 <= dur_secs dur_zero)%Z ∧ (dur_total dur_zero <= 10 ^ 19)%Z)
    by (vm_compute; intuition congruence).
  unfold compute_delay. destruct (rp_backoff p) as [b|]; [|by exists dur_zero]. cbv zeta.
  match goal with |- context [is_finite ?w && f64_lt _ ?w] => set (wait := w) end.
  destruct (is_finite wait) eqn:Hfin; [|by exists dur_zero].
  destruct (f64_lt (S754_zero false) wait) eqn:Hlt; [|by exists dur_zero].
  apply from_secs_f64_capped; [by rewrite Hfin|by rewrite Hlt].
Qed.

(** The cap of a backoff does not bound the wait: the jitter multiplies the capped delay, so
    with a constant delay and a cap of 10 s and full jitter a draw of 3/4 waits 15 s. *)
Theorem jitter_exceeds_cap powi :
  let ten := {| dur_secs := 10; dur_nanos := 0 |} in
  let p := {| rp_max_retries := 1; rp_retry_on := RetryAll; rp_escalate := None;
              rp_backoff := Some {| bo_shape := BConstant ten; bo_jitter := f64_of_Z 1; bo_max_delay := Some ten |} |} in
  compute_delay powi p 1 (f64_div (f64_of_Z 3) (f64_of_Z 4)) = Some {| dur_secs := 15; dur_nanos := 0 |}.
Proof. vm_compute. reflexivity. Qed.

(** * Properties of the retry ladder

    A ladder whose monitor dies and is started again from the recorded events goes on
    where it was; the number of attempts is bounded; one exception, where it does not. *)

(** ** Polling *)
Section poll.
Context (exc_of_json : string → option (list string)).
#[local] Abbreviation poll_loop := (poll_loop exc_of_json).
#[local] Abbreviation poll_cycle := (poll_cycle exc_of_json).

Lemma failures_terminal evs : failures_of (get_step_terminal_events evs) = failures_of evs.
Proof. apply list_filter_filter_l. by intros [[] [] m]. Qed.

Lemma success_terminal evs : existsb is_success (get_step_terminal_events evs) = existsb is_success evs.
Proof.
  unfold get_step_terminal_events. induction evs as [|e evs IH]; [done|].
  rewrite filter_cons. case_decide as H; cbn; rewrite IH; [done|]. by destruct e as [[] p m].
Qed.

(** What an attempt that is over comes to. *)
Definition final_outcome (base : nat) (evs : list Ev) (f : Fate) : option StepPollOutcome :=
  match events_outcome exc_of_json base evs with
  | Some out => Some out
  | None =>
      if f_flag f then Some PollCancelled
      else if (0 <? default 0 (f_failed f))%Z then Some (PollFailed (classify_failed_pod (f_pods f)) [])
      else None
  end.

Lemma events_outcome_terminal b evs :
  events_outcome exc_of_json b (get_step_terminal_events evs) = events_outcome exc_of_json b evs.
Proof. unfold events_outcome. by rewrite failures_terminal, success_terminal. Qed.

(** While the pod runs nothing happens. *)
Lemma poll_running n fuel b cycle st obs :
  (∀ c, (cycle < c <= cycle + N.of_nat n)%N → obs c = running_obs st) →
  events_outcome exc_of_json b (s_events st) = None →
  poll_loop (n + fuel) b cycle 0 obs = poll_loop fuel b (cycle + N.of_nat n) 0 obs.
Proof.
  revert cycle. induction n as [|n IH]; intros cycle Hobs Hev.
  - cbn [Nat.add]. f_equal. lia.
  - cbn [Nat.add RetryLadder.poll_loop]. rewrite (Hobs (cycle + 1)%N) by lia. unfold RetryLadder.poll_cycle at 1.
    cbn [running_obs o_events o_flag o_cancelled o_job default]. rewrite events_outcome_terminal, Hev.
    rewrite andb_false_r. cbn [orb]. destruct (_ =? 0)%N; cbn -[N.add RetryLadder.poll_loop].
    all: rewrite IH; [f_equal; lia| |done]; intros c Hc; apply Hobs; lia.
Qed.

(** An attempt that is over settles within four cycles. *)
Lemma poll_final f st b cycle obs :
  (∀ c, (cycle < c)%N → obs c = final_obs f st) →
  is_Some (final_outcome b (s_events st) f) →
  poll_loop 4 b cycle 0 obs = final_outcome b (s_events st) f.
Proof.
  intros Hobs [out Hout]. unfold final_outcome in *.
  set (ev := events_outcome exc_of_json b (s_events st)) in *.
  assert (Hcyc : ∀ c j, (cycle < c)%N → poll_cycle b c j (obs c) =
    match ev with
    | Some out => Settled out
    | None => if f_flag f then Settled PollCancelled
              else if (c mod 2 =? 0)%N then
                if (2 <=? j + 1)%N then Settled (PollFailed (classify_failed_pod (f_pods f)) []) else Unsettled (j + 1)
              else Unsettled j
    end).
  { intros c j Hc. rewrite Hobs by done. unfold RetryLadder.poll_cycle. cbn [final_obs o_events o_flag o_cancelled o_job o_pods].
    rewrite events_outcome_terminal. fold ev. destruct ev as [out'|]; [done|].
    destruct (f_flag f); [done|]. rewrite andb_false_r. cbn [orb]. destruct (_ =? 0)%N; [|done].
    destruct (0 <? _)%Z; [|done]. done. }
  cbn [RetryLadder.poll_loop]. rewrite Hcyc by lia.
  destruct ev as [out'|]; [done|]. destruct (f_flag f); [done|]. destruct (0 <? _)%Z; [|done].
  assert (Hm : ((cycle + 1) mod 2 = 0 ∧ (cycle + 1 + 1) mod 2 = 1 ∧ (cycle + 1 + 1 + 1) mod 2 = 0 ∧ (cycle + 1 + 1 + 1 + 1) mod 2 = 1 ∨
                (cycle + 1) mod 2 = 1 ∧ (cycle + 1 + 1) mod 2 = 0 ∧ (cycle + 1 + 1 + 1) mod 2 = 1 ∧ (cycle + 1 + 1 + 1 + 1) mod 2 = 0)%N).
  { destruct (N.Even_or_Odd cycle) as [[q ->]|[q ->]]; [right|left];
      split_and!; symmetry; first [apply (N.mod_unique _ _ q); lia|apply (N.mod_unique _ _ (q + 1)); lia|apply (N.mod_unique _ _ (q + 2)); lia]. }
  change (2 <=? 0 + 1)%N with false.
  destruct Hm as [(E1 & E2 & E3 & E4)|(E1 & E2 & E3 & E4)]; rewrite E1; cbv iota; change (1 =? 0)%N with false; change (0 =? 0)%N with true; cbv iota;
    rewrite Hcyc by lia; rewrite E2; change (1 =? 0)%N with false; change (0 =? 0)%N with true; change (2 <=? 0 + 1)%N with false; cbv iota;
    rewrite Hcyc by lia; rewrite E3; [done|].
  change (1 =? 0)%N with false. cbv iota. rewrite Hcyc by lia. by rewrite E4.
Qed.

Lemma poll_more f k b cycle j obs o : poll_loop f b cycle j obs = Some o → poll_loop (f + k) b cycle j obs = Some o.
Proof.
  revert cycle j. induction f as [|f IH]; intros cycle j; [done|]. cbn [Nat.add RetryLadder.poll_loop].
  destruct (poll_cycle _ _ _ _) as [o'|j']; [done|apply IH].
Qed.
End poll.

(** ** The recorded retries *)
Section recorded.
Context (compute_json : Compute → string) (compute_of_json : string → option Compute).
Context (json_roundtrip : ∀ c, compute_of_json (compute_json c) = Some c).

(** The recorded retries after which attempt [a] with compute [c] is due. *)
Inductive climb (base : Compute) : list Meta → N → Compute → Prop :=
| climb_start : climb base [] 1 base
| climb_next ms a c reason d c' :
    climb base ms a c → climb base (ms ++ [step_retry_record compute_json a reason d (Some c')]) (a + 1) c'.

Lemma climb_attempt base ms a c : climb base ms a c → a = (N.of_nat (length ms) + 1)%N.
Proof. induction 1 as [|ms a c reason d c' _ IH]; [done|]. rewrite length_app. cbn [length]. lia. Qed.

(** What a recorded retry reads back as. *)
Lemma record_attempt a reason d c :
  (a < 2 ^ 32)%N →
  reason_of (step_retry_record compute_json a reason d (Some c)) = Some (a, reason) ∧
  next_compute_of compute_of_json (step_retry_record compute_json a reason d (Some c)) = Some (a, c).
Proof.
  intros Ha. unfold reason_of, next_compute_of, meta_attempt.
  change (meta_value _ META_ATTEMPT) with (Some (pretty a)). cbv iota. rewrite parse_u32_pretty by done.
  change (meta_value _ META_REASON) with (Some (reason_as_str reason)).
  change (meta_value _ META_NEXT_COMPUTE) with (Some (compute_json c)). cbv iota. rewrite json_roundtrip. cbn.
  by rewrite reason_roundtrip.
Qed.

Lemma climb_reads base ms a c :
  climb base ms a c → (a < 2 ^ 32)%N →
  length (omap reason_of ms) = length ms ∧
  foldl later None (omap (next_compute_of compute_of_json) ms) =
    match ms with [] => None | _ => Some (N.of_nat (length ms), c) end.
Proof.
  induction 1 as [|ms a c reason d c' Ht IH]; intros Hlt; [done|].
  pose proof (climb_attempt _ _ _ _ Ht) as Ha. destruct IH as [Hlen Hbest]; [lia|].
  destruct (record_attempt a reason d c') as [Hr Hc]; [lia|].
  rewrite !omap_app. cbn [omap list_omap]. rewrite Hr, Hc, !length_app, Hlen, foldl_app. split; [done|].
  cbn [foldl]. rewrite Hbest. cbn [length]. replace (N.of_nat (length ms + 1)) with a by lia.
  destruct ms as [|m0 ms]; [done|]. cbn [later]. rewrite (proj2 (N.leb_le _ _)) by (cbn [fst]; lia). done.
Qed.

Lemma climb_resume scale_quantity policy base evs a c :
  climb base (map ev_meta (filter is_retry evs)) a c → (a < 2 ^ 32)%N →
  resume compute_of_json scale_quantity policy base evs = (a, c).
Proof.
  intros Ht Hlt. destruct (climb_reads _ _ _ _ Ht Hlt) as [Hlen Hbest]. pose proof (climb_attempt _ _ _ _ Ht) as Ha.
  unfold resume, recorded_next_compute, recorded_ladder. rewrite Hbest, length_sort_by, Hlen.
  f_equal.
  - rewrite (N.mod_small (N.of_nat _)), N.mod_small by lia. done.
  - revert Ht. destruct (map ev_meta _) as [|m0 ms] eqn:Hms; [|done]. intros Ht.
    inversion Ht as [|ms0 ? ? ? ? ? ? Happ]; subst; [done|by destruct ms0].
Qed.
End recorded.

(** ** The ladder *)
Definition budget (policy : option RetryPolicy) : N := match policy with Some p => rp_max_retries p | None => 0 end.

(** The Job of the attempt comes to an end of some kind, and writes at most one failure of the
    step and no retries. *)
Record fate_ok (f : Fate) : Prop := {
  fo_over : existsb is_success (f_events f) ∨ failures_of (f_events f) ≠ [] ∨ f_flag f ∨ (0 < default 0 (f_failed f))%Z;
  fo_failures : (length (failures_of (f_events f)) <= 1)%nat;
  fo_retries : filter is_retry (f_events f) = []
}.

(** The store is there whenever the monitor reads or writes it. *)
Record world_ok (w : World) : Prop := {
  wo_fate a : fate_ok (w_fate w a);
  wo_readable a : w_readable w a = true;
  wo_stored a : w_stored w a = true
}.

Section ladder.
Context (compute_json : Compute → string) (compute_of_json : string → option Compute).
Context (exc_of_json : string → option (list string)).
Context (scale_quantity : string → spec_float → option string → option string).
Context (policy : option RetryPolicy) (base : Compute) (w : World).

#[local] Abbreviation resume := (resume compute_of_json scale_quantity policy base).
#[local] Abbreviation attempt_outcome := (attempt_outcome exc_of_json w).
#[local] Abbreviation after_poll := (after_poll compute_json scale_quantity policy w).
#[local] Abbreviation run_ladder := (run_ladder compute_json exc_of_json scale_quantity policy w).

(** A monitor at attempt [a] may be started again: unless the attempt has recorded its failure
    and an earlier one did not. *)
Definition restartable (a : N) (st : St) : Prop :=
  (s_ended st < a)%N ∨ failures_of (f_events (w_fate w a)) = [] ∨ length (failures_of (s_events st)) = N.to_nat a.

(** The pod of the attempt ends, the monitor takes a turn, or it dies and is started again. *)
Inductive ladder_move : N * Compute * list Ev * St → N * Compute * list Ev * St → Prop :=
| lm_end a c seen st :
    (s_ended st < a)%N → w_create w a = true → ladder_move (a, c, seen, st) (a, c, seen, pod_ends w a st)
| lm_turn a c seen st out m c' :
    (a <= s_ended st)%N → attempt_outcome a seen st = Some out → after_poll a c out = Again m c' → w_cut w a = false →
    let st' := store_retry w a m st in
    ladder_move (a, c, seen, st) (u32_incr a, c', get_step_terminal_events (s_events st'), st')
| lm_restart a c seen st :
    restartable a st →
    ladder_move (a, c, seen, st) ((resume (s_events st)).1, (resume (s_events st)).2, s_events st, st).

Definition st_empty : St := {| s_events := []; s_ended := 0 |}.

Context (json_roundtrip : ∀ c, compute_of_json (compute_json c) = Some c).
Context (Hbudget : (budget policy + 1 < 2 ^ 32)%N) (Hw : world_ok w).

(** The monitor that never dies, before each attempt. *)
Inductive canon : N → Compute → St → Prop :=
| canon_start : canon 1 base st_empty
| canon_next a c st out m c' :
    canon a c st → w_create w a = true → attempt_outcome a (s_events st) st = Some out →
    after_poll a c out = Again m c' → w_cut w a = false → canon (u32_incr a) c' (store_retry w a m (pod_ends w a st)).

Lemma after_poll_again a c out m c' :
  after_poll a c out = Again m c' →
  (a <= budget policy)%N ∧ out ≠ PollSuccess ∧ ∃ reason d, m = step_retry_record compute_json a reason d (Some c').
Proof.
  unfold RetryLadder.after_poll, budget. destruct out as [|reason exc|]; try done. destruct policy as [p|]; [|done].
  destruct (should_retry p reason exc a) eqn:Hr; [|done]. cbn. intros [= <- <-].
  unfold should_retry in Hr. destruct (_ || (_ <? _)%N) eqn:Hb; [done|]. apply orb_false_iff in Hb as [_ Hb].
  apply N.ltb_ge in Hb. eauto.
Qed.

(** Once over, the outcome is the final one whatever cycle it ended in. *)
Lemma outcome_running a seen st :
  (s_ended st < a)%N → events_outcome exc_of_json (baseline_failures seen a) (s_events st) = None →
  is_Some (final_outcome exc_of_json (baseline_failures seen a) (s_events (pod_ends w a st)) (w_fate w a)) →
  attempt_outcome a seen st = final_outcome exc_of_json (baseline_failures seen a) (s_events (pod_ends w a st)) (w_fate w a).
Proof.
  intros Hlt Hev Hsome. unfold RetryLadder.attempt_outcome, poll_step_attempt.
  assert (Hob : ∀ c, obs_of w a st c = if (c <=? f_cycles (w_fate w a))%N then running_obs st else final_obs (w_fate w a) (pod_ends w a st)).
  { intros c. unfold obs_of. by rewrite (proj2 (N.ltb_lt _ _) Hlt). }
  rewrite (poll_running _ _ _ _ _ st); [|intros c Hc; rewrite Hob; by rewrite (proj2 (N.leb_le _ _)) by lia|done].
  apply poll_final; [|done]. intros c Hc. rewrite Hob. by rewrite (proj2 (N.leb_gt _ _)) by lia.
Qed.

Lemma outcome_ended a seen st :
  (a <= s_ended st)%N →
  is_Some (final_outcome exc_of_json (baseline_failures seen a) (s_events st) (w_fate w a)) →
  attempt_outcome a seen st = final_outcome exc_of_json (baseline_failures seen a) (s_events st) (w_fate w a).
Proof.
  intros Hge Hsome. unfold RetryLadder.attempt_outcome, poll_step_attempt.
  assert (Hob : ∀ c, obs_of w a st c = final_obs (w_fate w a) st).
  { intros c. unfold obs_of, pod_ends. by rewrite (proj2 (N.ltb_ge _ _) Hge). }
  rewrite (Nat.add_comm _ 4). destruct Hsome as [o Ho]. rewrite Ho. apply poll_more.
  rewrite <-Ho. apply poll_final; [intros c _; apply Hob|by eexists].
Qed.

Lemma failures_app evs evs' : failures_of (evs ++ evs') = failures_of evs ++ failures_of evs'.
Proof. apply filter_app. Qed.

Lemma pod_ends_running a st : (s_ended st < a)%N → pod_ends w a st = {| s_events := s_events st ++ f_events (w_fate w a); s_ended := a |}.
Proof. intros H. unfold pod_ends. by rewrite (proj2 (N.ltb_lt _ _) H). Qed.

Lemma pod_ends_twice a st : pod_ends w a (pod_ends w a st) = pod_ends w a st.
Proof. unfold pod_ends. destruct (s_ended st <? a)%N eqn:E; cbn; [by rewrite N.ltb_irrefl|by rewrite E]. Qed.

Record canon_facts (a : N) (c : Compute) (st : St) : Prop := {
  cf_climb : climb compute_json base (map ev_meta (filter is_retry (s_events st))) a c;
  cf_range : (1 <= a <= budget policy + 1)%N;
  cf_ended : s_ended st = (a - 1)%N;
  cf_success : existsb is_success (s_events st) = false;
  cf_failures : (length (failures_of (s_events st)) <= N.to_nat (a - 1))%nat
}.

Lemma facts_baseline a c st : canon_facts a c st → baseline_failures (s_events st) a = length (failures_of (s_events st)).
Proof. intros []. unfold baseline_failures. lia. Qed.

Lemma facts_outcome a c st :
  canon_facts a c st →
  let n := length (failures_of (s_events st)) in
  let evs := s_events st ++ f_events (w_fate w a) in
  attempt_outcome a (s_events st) st = final_outcome exc_of_json n evs (w_fate w a) ∧
  is_Some (final_outcome exc_of_json n evs (w_fate w a)).
Proof.
  intros Hf n evs. pose proof (facts_baseline _ _ _ Hf) as Hb. destruct Hf as [_ Hrange Hend Hsucc _].
  assert (Hlt : (s_ended st < a)%N) by lia.
  assert (Hsome : is_Some (final_outcome exc_of_json n evs (w_fate w a))).
  { unfold final_outcome, events_outcome. subst evs. rewrite existsb_app, Hsucc, failures_app, length_app. fold n. cbn [orb].
    destruct (existsb is_success (f_events _)) eqn:Hs; [by eexists|].
    destruct (Nat.ltb_spec n (n + length (failures_of (f_events (w_fate w a))))) as [Hn|Hn].
    - destruct (last _) eqn:Hl; [cbn; by eexists|]. apply last_None in Hl. apply app_nil in Hl as [_ Hl]. rewrite Hl in Hn. cbn in Hn. lia.
    - destruct (fo_over _ (wo_fate _ Hw a)) as [H|[H|[H|H]]].
      + by rewrite Hs in H.
      + destruct (failures_of (f_events _)); [done|]. cbn in Hn. lia.
      + destruct (f_flag _); [by eexists|done].
      + destruct (f_flag _); [by eexists|]. rewrite (proj2 (Z.ltb_lt _ _) H). by eexists. }
  split; [|done]. rewrite outcome_running; rewrite ?Hb, ?pod_ends_running by done; [done|done| |done].
  unfold events_outcome. rewrite Hsucc. by rewrite Nat.ltb_irrefl.
Qed.

Lemma canon_ok a c st : canon a c st → canon_facts a c st.
Proof.
  induction 1 as [|a c st out m c' _ IH Hcr Hout Hagain Hcut].
  { split; cbn; [constructor|lia|done|done|done]. }
  destruct (facts_outcome _ _ _ IH) as [Hfin _]. apply after_poll_again in Hagain as (Hle & Hns & reason & d & ->).
  rewrite Hout in Hfin. destruct IH as [Hclimb Hrange Hend Hsucc Hcount].
  rewrite pod_ends_running by lia. unfold store_retry. rewrite (wo_stored _ Hw).
  assert (Hincr : u32_incr a = (a + 1)%N) by (unfold u32_incr; apply N.mod_small; lia). rewrite Hincr.
  pose proof (wo_fate _ Hw a) as [_ Hone Hretry].
  split; cbn [s_events s_ended].
  - rewrite !filter_app, Hretry, app_nil_r, map_app. by eapply climb_next.
  - lia.
  - lia.
  - rewrite !existsb_app, Hsucc. cbn. rewrite orb_false_r.
    unfold final_outcome, events_outcome in Hfin. rewrite existsb_app, Hsucc in Hfin.
    destruct (existsb is_success (f_events _)); [|done]. by injection Hfin as ->.
  - rewrite !failures_app, !length_app. unfold failures_of at 3. rewrite filter_cons_False by (cbn; tauto). cbn. lia.
Qed.

(** ** Restarts *)

(** A monitor somewhere in attempt [a] that the store before the attempt accounts for. *)
Definition in_step (a : N) (c : Compute) (seen : list Ev) (st st0 : St) : Prop :=
  canon a c st0 ∧ attempt_outcome a seen st = attempt_outcome a (s_events st0) st0 ∧
  (st = st0 ∧ baseline_failures seen a = baseline_failures (s_events st0) a ∨ st = pod_ends w a st0 ∧ w_create w a = true).

Lemma baseline_terminal evs a : baseline_failures (get_step_terminal_events evs) a = baseline_failures evs a.
Proof. unfold baseline_failures. by rewrite failures_terminal. Qed.

Lemma outcome_seen a seen seen' st :
  baseline_failures seen a = baseline_failures seen' a → attempt_outcome a seen st = attempt_outcome a seen' st.
Proof. intros H. unfold RetryLadder.attempt_outcome. by rewrite H. Qed.

(** A restarted monitor reads the outcome of the attempt as the first one would. *)
Lemma restart_outcome a c st :
  canon_facts a c st → restartable a (pod_ends w a st) →
  attempt_outcome a (s_events (pod_ends w a st)) (pod_ends w a st) = attempt_outcome a (s_events st) st.
Proof.
  intros Hf Hre. destruct (facts_outcome _ _ _ Hf) as [-> Hsome]. destruct Hf as [_ Hrange Hend Hsucc Hcount].
  pose proof (wo_fate _ Hw a) as [_ Hone _].
  rewrite pod_ends_running in * by lia. unfold restartable in Hre. cbn [s_events s_ended] in Hre.
  rewrite failures_app, length_app in Hre.
  assert (Heq : final_outcome exc_of_json (baseline_failures (s_events st ++ f_events (w_fate w a)) a) (s_events st ++ f_events (w_fate w a)) (w_fate w a)
                = final_outcome exc_of_json (length (failures_of (s_events st))) (s_events st ++ f_events (w_fate w a)) (w_fate w a)).
  { unfold baseline_failures, final_outcome, events_outcome. rewrite !failures_app, !length_app.
    destruct Hre as [Hre|[Hre|Hre]]; [lia| |].
    - rewrite Hre. cbn [length]. by replace (Nat.min _ _) with (length (failures_of (s_events st))) by lia.
    - replace (Nat.min _ _) with (length (failures_of (s_events st))) by lia. done. }
  rewrite <-Heq in Hsome |- *. by apply outcome_ended; [cbn; lia|].
Qed.

Lemma ended_outcome a c seen st :
  canon_facts a c st → baseline_failures seen a = baseline_failures (s_events st) a →
  attempt_outcome a seen (pod_ends w a st) = attempt_outcome a (s_events st) st.
Proof.
  intros Hf Hseen. destruct (facts_outcome _ _ _ Hf) as [-> Hsome]. rewrite (outcome_seen _ _ _ _ Hseen).
  pose proof (facts_baseline _ _ _ Hf) as Hb. destruct Hf as [_ Hrange Hend _ _].
  rewrite pod_ends_running by lia. rewrite outcome_ended; rewrite ?Hb; cbn; [done|lia|done].
Qed.

Lemma in_step_restart a c seen st st0 :
  in_step a c seen st st0 → restartable a st → resume (s_events st) = (a, c) ∧ in_step a c (s_events st) st st0.
Proof.
  intros (Hcan & Hout & Hst) Hre. pose proof (canon_ok _ _ _ Hcan) as Hf. split.
  - apply climb_resume with compute_json; [done| |destruct Hf; lia]. destruct Hf as [Hclimb Hrange Hend _ _].
    destruct Hst as [[-> _]|[-> _]]; [done|]. rewrite pod_ends_running by lia. cbn [s_events].
    by rewrite filter_app, (fo_retries _ (wo_fate _ Hw a)), app_nil_r.
  - destruct Hst as [[-> Hb]|[-> Hcr]].
    + split_and!; [done|done|by left].
    + split_and!; [done|by eapply restart_outcome|by right].
Qed.

Lemma moves_in_step x y :
  rtc ladder_move x y → ∀ a c seen st, x = (a, c, seen, st) → (∃ st0, in_step a c seen st st0) →
  ∀ a' c' seen' st', y = (a', c', seen', st') → ∃ st0, in_step a' c' seen' st' st0.
Proof.
  induction 1 as [x|x y z Hm _ IH]; intros a c seen st -> (st0 & Hin).
  { intros ? ? ? ? [= -> -> -> ->]. eauto. }
  destruct Hin as (Hcan & Hout & Hst). pose proof (canon_ok _ _ _ Hcan) as Hf.
  inversion Hm as [? ? ? ? Hlt Hcr|? ? ? ? out m c1 Hge Hpoll Hagain Hcut st'|? ? ? ? Hre]; subst; (eapply IH; [reflexivity|]).
  - exists st0. destruct Hst as [[-> Hb]|[-> _]].
    + split_and!; [done|by eapply ended_outcome|by right].
    + rewrite pod_ends_twice. split_and!; [done|done|by right].
  - assert (Hst' : st = pod_ends w a st0 ∧ w_create w a = true).
    { destruct Hst as [[-> _]|?]; [|done]. destruct Hf. lia. }
    destruct Hst' as [-> Hcr]. rewrite Hout in Hpoll.
    assert (Hc' : canon (u32_incr a) c1 st') by by eapply canon_next. exists st'.
    split_and!; [done|by apply outcome_seen, baseline_terminal|left; split; [done|apply baseline_terminal]].
  - destruct (in_step_restart a c seen st st0) as [Hres Hin]; [done|done|]. rewrite Hres. eauto.
Qed.

(** ** Running the ladder to its end *)
Lemma run_ladder_more f k a c seen jobs st r :
  run_ladder f a c seen jobs st = Some r → run_ladder (f + k) a c seen jobs st = Some r.
Proof.
  revert a c seen jobs st. induction f as [|f IH]; intros a c seen jobs st; [done|]. cbn [Nat.add RetryLadder.run_ladder].
  destruct (negb _); [done|]. destruct (attempt_outcome a seen st) as [out|]; [|done].
  destruct (after_poll a c out) as [b|m c']; [done|]. destruct (w_cut w a); [done|]. apply IH.
Qed.

Lemma run_ladder_jobs f a c seen pre jobs st :
  run_ladder f a c seen (pre ++ jobs) st = (λ r, (r.1.1, pre ++ r.1.2, r.2)) <$> run_ladder f a c seen jobs st.
Proof.
  revert a c seen jobs st. induction f as [|f IH]; intros a c seen jobs st; [done|]. cbn [RetryLadder.run_ladder].
  destruct (negb _); [by cbn; rewrite app_assoc|]. destruct (attempt_outcome a seen st) as [out|]; [|done].
  destruct (after_poll a c out) as [b|m c']; [by cbn; rewrite app_assoc|].
  destruct (w_cut w a); [by cbn; rewrite app_assoc|]. by rewrite <-app_assoc, IH.
Qed.

Lemma run_ladder_step f a c seen jobs st st0 :
  in_step a c seen st st0 → run_ladder f a c seen jobs st = run_ladder f a c (s_events st0) jobs st0.
Proof.
  intros (Hcan & Hout & Hst). destruct f as [|f]; [done|]. cbn [RetryLadder.run_ladder].
  rewrite Hout. destruct Hst as [[-> _]|[-> Hcr]]; [done|]. by rewrite Hcr, pod_ends_twice.
Qed.

Lemma canon_terminal a c st f jobs :
  canon a c st → run_ladder f a c (get_step_terminal_events (s_events st)) jobs st = run_ladder f a c (s_events st) jobs st.
Proof.
  intros Hcan. apply run_ladder_step. split_and!; [done|apply outcome_seen, baseline_terminal|].
  left. split; [done|apply baseline_terminal].
Qed.

Lemma run_ladder_returns f a c jobs st :
  canon a c st → (budget policy + 2 <= N.of_nat f + a)%N → is_Some (run_ladder f a c (s_events st) jobs st).
Proof.
  revert a c jobs st. induction f as [|f IH]; intros a c jobs st Hcan Hf; pose proof (canon_ok _ _ _ Hcan) as Hok.
  - destruct Hok. lia.
  - cbn [RetryLadder.run_ladder]. destruct (w_create w a) eqn:Hcr; cbn [negb]; [|by eexists].
    destruct (facts_outcome _ _ _ Hok) as [Hout [out Hsome]]. rewrite Hsome in Hout. rewrite Hout.
    destruct (after_poll a c out) as [b|m c'] eqn:Hagain; [by eexists|]. destruct (w_cut w a) eqn:Hcut; [by eexists|].
    rewrite (wo_readable _ Hw), canon_terminal by by eapply canon_next. apply IH; [by eapply canon_next|].
    apply after_poll_again in Hagain as (Hle & _). unfold u32_incr. rewrite N.mod_small by lia. lia.
Qed.

Lemma canon_prefix f a c st :
  canon a c st → ∃ pre, length pre = N.to_nat (a - 1) ∧
    run_ladder (length pre + f) 1 base [] [] st_empty = run_ladder f a c (s_events st) pre st.
Proof.
  intros Hcan. revert f. induction Hcan as [|a c st out m c' Hcan IH Hcr Hout Hagain Hcut]; intros f; [by exists []|].
  destruct (IH (S f)) as (pre & Hlen & Hrun). exists (pre ++ [(a, c)]). pose proof (canon_ok _ _ _ Hcan) as [_ Hrange _ _ _].
  pose proof (after_poll_again _ _ _ _ _ Hagain) as (Hle & _).
  rewrite length_app. cbn [length]. split; [unfold u32_incr; rewrite N.mod_small by lia; lia|].
  replace (length pre + 1 + f)%nat with (length pre + S f)%nat by lia. rewrite Hrun. cbn [RetryLadder.run_ladder].
  by rewrite Hcr, Hout, Hagain, Hcut, (wo_readable _ Hw), canon_terminal by by eapply canon_next.
Qed.
End ladder.


(** A concrete ladder: the first pod runs out of memory and leaves no event, the second raises
    an exception the policy retries, the third succeeds. *)
#[export] Instance Compute_eq_dec : EqDecision Compute.
Proof. solve_decision. Defined.

#[export] Instance Compute_countable : Countable Compute.
Proof.
  apply (inj_countable' (λ c, (c_cpu c, c_memory c, c_gpu c)) (λ t, {| c_cpu := t.1.1; c_memory := t.1.2; c_gpu := t.2 |})).
  by intros [].
Defined.

Definition z_json (c : Compute) : string := pos_text (encode c).
Definition z_of_json (s : string) : option Compute := match pos_of_text s with Some p => decode p | None => None end.

Lemma z_json_roundtrip c : z_of_json (z_json c) = Some c.
Proof. unfold z_of_json, z_json. by rewrite pos_text_roundtrip, decode_encode. Qed.

Definition z_exc (s : string) : option (list string) := Some [s].
Definition z_policy : RetryPolicy :=
  {| rp_max_retries := 2; rp_backoff := None; rp_retry_on := RetryMatch ["ConnectionError"] [];
     rp_escalate := Some {| esc_factor := f64_of_Z 2; esc_max_memory := "4Gi"; esc_cpu_factor := None; esc_max_cpu := None;
                            esc_on := [ROutOfMemory] |} |}.
Definition z_scale (q : string) (_ : spec_float) (_ : option string) : option string :=
  if String.eqb q "1Gi" then Some "2Gi" else Some "4Gi".
Definition z_base : Compute := {| c_cpu := Some "1"; c_memory := Some "1Gi"; c_gpu := None |}.
Definition z_grown : Compute := {| c_cpu := Some "1"; c_memory := Some "2Gi"; c_gpu := None |}.

Definition z_pods (reason : string) (code : Z) : option (list (list ContainerStatus)) :=
  Some [[{| cs_state := Some {| t_reason := Some reason; t_exit_code := code |}; cs_last_state := None |}]].
Definition z_oom : Fate := {| f_cycles := 3; f_events := []; f_failed := Some 1%Z; f_pods := z_pods "OOMKilled" 137; f_flag := false |}.
Definition z_raise : Fate :=
  {| f_cycles := 5; f_failed := Some 1%Z; f_pods := z_pods "Error" 1; f_flag := false;
     f_events := [{| ev_kind := EvStepFailure; ev_partition := None; ev_meta := [(META_REASON, "error"); (META_EXC_TYPE, "ConnectionError")] |}] |}.
Definition z_fine : Fate :=
  {| f_cycles := 2; f_failed := None; f_pods := None; f_flag := false;
     f_events := [{| ev_kind := EvStepSuccess; ev_partition := None; ev_meta := [] |}] |}.

Definition z_world : World :=
  {| w_fate := λ a, if (a =? 1)%N then z_oom else if (a =? 2)%N then z_raise else z_fine;
     w_create := λ _, true; w_readable := λ _, true; w_stored := λ _, true; w_delay := λ _, dur_zero; w_cut := λ _, false |}.

Lemma z_world_ok : world_ok z_world.
Proof.
  split; [|done|done]. intros a. cbn. destruct (a =? 1)%N; [|destruct (a =? 2)%N]; (split; [|vm_compute; lia|done]); cbn.
  - by do 3 right.
  - by right; left.
  - by left.
Qed.

Definition z_meta : Meta := step_retry_record z_json 1 ROutOfMemory dur_zero (Some z_grown).
Definition z_retried : St := {| s_events := [{| ev_kind := EvStepRetry; ev_partition := None; ev_meta := z_meta |}]; s_ended := 1 |}.

#[local] Abbreviation z_move := (ladder_move z_json z_of_json z_exc z_scale (Some z_policy) z_base z_world).

Lemma z_outcome : attempt_outcome z_exc z_world 1 [] (pod_ends z_world 1 st_empty) = Some (PollFailed ROutOfMemory []).
Proof. vm_compute. reflexivity. Qed.

Lemma z_again : after_poll z_json z_scale (Some z_policy) z_world 1 z_base (PollFailed ROutOfMemory []) = Again z_meta z_grown.
Proof. vm_compute. reflexivity. Qed.

Lemma z_resume : resume z_of_json z_scale (Some z_policy) z_base (s_events z_retried) = (2%N, z_grown).
Proof. vm_compute. reflexivity. Qed.

Lemma z_retry_move : rtc z_move (1%N, z_base, [], st_empty) (2%N, z_grown, [], z_retried).
Proof.
  eapply rtc_l; [by apply lm_end|]. eapply rtc_l; [by eapply lm_turn; [|apply z_outcome|apply z_again|]|].
  change (u32_incr 1) with 2%N. change (store_retry z_world 1 z_meta _) with z_retried. apply rtc_refl.
Qed.


(** A monitor that is restarted after an attempt recorded its failure, where an earlier
    attempt was killed without an event, misses the failure: it counts it as one from before the
    attempt and classifies the pod instead, without the exception. A step whose policy retries
    that exception, and succeeds at the third attempt when the monitor lives, then fails. *)
Theorem restart_misses_failure :
  ∃ policy base w a c seen st,
    world_ok w ∧ rtc (ladder_move z_json z_of_json z_exc z_scale policy base w) (1%N, base, [], st_empty) (a, c, seen, st) ∧
    (∃ jobs st', run_ladder z_json z_exc z_scale policy w 2 a c seen [] st = Some (true, jobs, st')) ∧
    (∀ fuel, ∃ jobs st', run_step_with_retries z_json z_of_json z_exc z_scale policy base w (S fuel) true st = Some (false, jobs, st')).
Proof.
  exists (Some z_policy), z_base, z_world, 2%N, z_grown, [], (pod_ends z_world 2 z_retried).
  split; [apply z_world_ok|]. split; [eapply rtc_r; [apply z_retry_move|by apply lm_end]|]. split.
  - eexists _, _. vm_compute. reflexivity.
  - intros fuel. unfold run_step_with_retries.
    assert (resume z_of_json z_scale (Some z_policy) z_base (s_events (pod_ends z_world 2 z_retried)) = (2%N, z_grown)) as ->
      by (vm_compute; reflexivity).
    cbn [run_ladder]. assert (attempt_outcome z_exc z_world 2 (s_events (pod_ends z_world 2 z_retried)) (pod_ends z_world 2 z_retried)
      = Some (PollFailed RError [])) as -> by (vm_compute; reflexivity).
    eexists _, _. reflexivity.
Qed.
