(* ===== verification/JsonText.v ===== *)
(** * JSON text of the config editor (rust/rivers-ui/src/json_text.rs)

    The tokenizer, string and number literals, the parser that keeps a spanned tree past the
    first error, the context of a caret and the conversions of offsets. Text is a list of
    characters; offsets are bytes of its UTF-8 form, and a slice that does not start and end
    between characters panics ([None]). *)

From S2P Require Import Prelude.
From Stdlib Require Import SpecFloat.

(** ** Text *)
Definition Text : Type := list N.

(** ASCII literals as text. *)
Definition lit (s : string) : Text := N_of_ascii <$> String.list_ascii_of_string s.

Definition utf8 (c : N) : list N :=
  if (c <? 128)%N then [c]
  else if (c <? 2048)%N then [192 + c / 64; 128 + c mod 64]%N
  else if (c <? 65536)%N then [224 + c / 4096; 128 + c / 64 mod 64; 128 + c mod 64]%N
  else [240 + c / 262144; 128 + c / 4096 mod 64; 128 + c / 64 mod 64; 128 + c mod 64]%N.

Definition len_utf8 (c : N) : nat := length (utf8 c).
Definition len_utf16 (c : N) : N := if (c <? 65536)%N then 1 else 2.

Definition as_bytes (text : Text) : list N := text ≫= utf8.
Definition text_len (text : Text) : nat := length (as_bytes text).

(** The text before and from a byte offset; [None] inside a character or past the end. *)
Fixpoint split_at (text : Text) (n : nat) : option (Text * Text) :=
  match n with
  | O => Some ([], text)
  | _ =>
      match text with
      | [] => None
      | c :: text =>
          if (len_utf8 c <=? n)%nat then (λ p, (c :: p.1, p.2)) <$> split_at text (n - len_utf8 c) else None
      end
  end.

(** [&text[from..to]] *)
Definition slice (text : Text) (from to : nat) : option Text :=
  if (from <=? to)%nat then p ← split_at text from; fst <$> split_at p.2 (to - from) else None.

(** The text up to the last character boundary at or before the offset. *)
Fixpoint floor_prefix (text : Text) (n : nat) : Text :=
  match text with
  | [] => []
  | c :: text => if (len_utf8 c <=? n)%nat then c :: floor_prefix text (n - len_utf8 c) else []
  end.

(** ** Tokens *)
Record Span := { sp_start : nat; sp_end : nat }.

#[export] Instance Span_eq_dec : EqDecision Span.
Proof. solve_decision. Defined.

Definition span_at_offset (offset : nat) : Span := {| sp_start := offset; sp_end := offset |}.

Inductive TokenKind :=
  KLBrace | KRBrace | KLBracket | KRBracket | KColon | KComma | KKey | KStr | KStrOpen | KNum | KBool | KNull | KSpace | KInvalid.

#[export] Instance TokenKind_eq_dec : EqDecision TokenKind.
Proof. solve_decision. Defined.

Record Token := { tk_kind : TokenKind; tk_span : Span }.

Definition is_space (b : N) : bool := (b =? 32)%N || (b =? 9)%N || (b =? 10)%N || (b =? 13)%N.
Definition is_digit (b : N) : bool := (48 <=? b)%N && (b <=? 57)%N.
Definition is_alpha (b : N) : bool := ((97 <=? b) && (b <=? 122) || ((65 <=? b) && (b <=? 90)))%N.
Definition is_num_byte (b : N) : bool :=
  is_digit b || (b =? 46)%N || (b =? 101)%N || (b =? 69)%N || (b =? 43)%N || (b =? 45)%N.
Definition is_word_byte (b : N) : bool := is_alpha b || is_digit b || (b =? 95)%N.

(** [while i < bytes.len() && p(bytes[i]) { i += 1 }], on the bytes from [i] on. *)
Fixpoint skip_while (p : N → bool) (rest : list N) (i : nat) : nat :=
  match rest with
  | b :: rest => if p b then skip_while p rest (S i) else i
  | [] => i
  end.

(** Where a string body starting at [i] ends, [rest] the bytes from there on. *)
Fixpoint string_end (len : nat) (rest : list N) (i : nat) : nat * bool :=
  match rest with
  | [] => (len, false)
  | b :: rest =>
      if (b =? 34)%N then (i + 1, true)
      else if (b =? 92)%N then match rest with [] => (len, false) | _ :: rest => string_end len rest (i + 2) end
      else if (b =? 10)%N then (i, false)
      else string_end len rest (i + 1)
  end%nat.

(** The kind and end of the token starting at [start], where the byte is [b]. *)
Definition token_at (text : Text) (start : nat) (b : N) : option (TokenKind * nat) :=
  let bytes := as_bytes text in
  let from i := drop i bytes in
  if is_space b then Some (KSpace, skip_while is_space (from start) start)
  else if (b =? 123)%N then Some (KLBrace, start + 1)
  else if (b =? 125)%N then Some (KRBrace, start + 1)
  else if (b =? 91)%N then Some (KLBracket, start + 1)
  else if (b =? 93)%N then Some (KRBracket, start + 1)
  else if (b =? 58)%N then Some (KColon, start + 1)
  else if (b =? 44)%N then Some (KComma, start + 1)
  else if (b =? 34)%N then
    let '(i, closed) := string_end (length bytes) (from (start + 1)) (start + 1) in
    Some (if closed then KStr else KStrOpen, i)
  else if (b =? 45)%N || is_digit b then Some (KNum, skip_while is_num_byte (from (start + 1)) (start + 1))
  else if is_alpha b || (b =? 95)%N then
    let i := skip_while is_word_byte (from start) start in
    word ← slice text start i;
    Some (if bool_decide (word = lit "true") || bool_decide (word = lit "false") then KBool
          else if bool_decide (word = lit "null") then KNull else KInvalid, i)
  else
    p ← split_at text start;
    Some (KInvalid, start + match p.2 with c :: _ => len_utf8 c | [] => 1 end).

Fixpoint token_loop (fuel : nat) (text : Text) (i : nat) : option (list Token) :=
  match as_bytes text !! i with
  | None => Some []
  | Some b =>
      match fuel with
      | O => None
      | S fuel =>
          '(kind, j) ← token_at text i b;
          cons {| tk_kind := kind; tk_span := {| sp_start := i; sp_end := j |} |} <$> token_loop fuel text j
      end
  end.

(** The pass from the end that makes strings before a colon keys; also the kind of the first
    token that is not a space. *)
Fixpoint mark_keys (tokens : list Token) : list Token * option TokenKind :=
  match tokens with
  | [] => ([], None)
  | tok :: tokens =>
      let '(tokens, next) := mark_keys tokens in
      let kind := if bool_decide (tk_kind tok = KStr) && bool_decide (next = Some KColon) then KKey else tk_kind tok in
      ({| tk_kind := kind; tk_span := tk_span tok |} :: tokens, if bool_decide (kind = KSpace) then next else Some kind)
  end.

Definition tokenize (text : Text) : option (list Token) :=
  fst ∘ mark_keys <$> token_loop (text_len text) text 0.

(** ** String and number literals *)
Definition to_digit16 (c : N) : option N :=
  if is_digit c then Some (c - 48)%N
  else if (97 <=? c)%N && (c <=? 102)%N then Some (c - 87)%N
  else if (65 <=? c)%N && (c <=? 70)%N then Some (c - 55)%N
  else None.

Definition hex4 (a b c d : N) : option N :=
  a ← to_digit16 a; b ← to_digit16 b; c ← to_digit16 c; d ← to_digit16 d;
  Some (((a * 16 + b) * 16 + c) * 16 + d)%N.

Definition is_high (n : N) : bool := (55296 <=? n)%N && (n <? 56320)%N.
Definition is_low (n : N) : bool := (56320 <=? n)%N && (n <? 57344)%N.

Definition char_from_u32 (n : N) : option N := if (n <? 1114112)%N && negb (is_high n) && negb (is_low n) then Some n else None.

(** The escapes of one character. *)
Definition simple_escape (c : N) : option N :=
  if (c =? 34)%N then Some 34%N
  else if (c =? 92)%N then Some 92%N
  else if (c =? 47)%N then Some 47%N
  else if (c =? 98)%N then Some 8%N
  else if (c =? 102)%N then Some 12%N
  else if (c =? 110)%N then Some 10%N
  else if (c =? 114)%N then Some 13%N
  else if (c =? 116)%N then Some 9%N
  else None.

Fixpoint unescape (raw : Text) : option Text :=
  match raw with
  | [] => Some []
  | c :: raw =>
      if negb (c =? 92)%N then cons c <$> unescape raw
      else
        match raw with
        | [] => None
        | e :: raw =>
            match simple_escape e with
            | Some out => cons out <$> unescape raw
            | None =>
                if negb (e =? 117)%N then None
                else
                  match raw with
                  | h1 :: h2 :: h3 :: h4 :: raw =>
                      hi ← hex4 h1 h2 h3 h4;
                      if is_high hi then
                        match raw with
                        | s :: u :: l1 :: l2 :: l3 :: l4 :: raw =>
                            if negb (s =? 92)%N || negb (u =? 117)%N then None
                            else
                              lo ← hex4 l1 l2 l3 l4;
                              if negb (is_low lo) then None
                              else
                                out ← char_from_u32 (65536 + N.shiftl (hi - 55296) 10 + (lo - 56320))%N;
                                cons out <$> unescape raw
                        | _ => None
                        end
                      else out ← char_from_u32 hi; cons out <$> unescape raw
                  | _ => None
                  end
            end
        end
  end.

(** The nearest double to [n / d], ties to even: the quotient with two bits and a sticky bit more
    than a double holds, rounded. *)
Definition f64_ratio (n d : Z) : spec_float :=
  let shift := Z.max 0 (Z.log2 d - Z.log2 n + 56)%Z in
  let q := Z.div (Z.shiftl n shift) d in
  let sticky := if (Z.shiftl n shift mod d =? 0)%Z then 0%Z else 1%Z in
  binary_normalize 53 1024 (2 * q + sticky) (- shift - 1) false.

Definition digits_value (ds : list N) : Z := foldl (λ acc d, (acc * 10 + (Z.of_N d - 48))%Z) 0%Z ds.

(** [str::parse::<f64>] of a literal in its parts. *)
Definition f64_of_decimal (neg : bool) (int frac : list N) (exp : Z) : spec_float :=
  let m := digits_value (int ++ frac) in
  let e := (exp - Z.of_nat (length frac))%Z in
  let x := if (m =? 0)%Z then S754_zero false
           else if (0 <=? e)%Z then binary_normalize 53 1024 (m * 10 ^ e) 0 false
           else f64_ratio m (10 ^ (- e)) in
  if neg then SFopp x else x.

(** [value.fract() == 0.0] *)
Definition is_whole (x : spec_float) : bool :=
  match x with
  | S754_zero _ => true
  | S754_finite _ m e => (0 <=? e)%Z || (Z.pos m mod 2 ^ (- e) =? 0)%Z
  | _ => false
  end.

(** The leading digits and what follows. *)
Fixpoint span_digits (b : list N) : list N * list N :=
  match b with
  | c :: b => if is_digit c then (λ p, (c :: p.1, p.2)) (span_digits b) else ([], c :: b)
  | [] => ([], [])
  end.

Definition number (raw : Text) : option (spec_float * bool) :=
  let b := as_bytes raw in
  let '(neg, b) := match b with c :: b' => if (c =? 45)%N then (true, b') else (false, b) | [] => (false, b) end in
  '(int, b) ← match b with
              | c :: b' => if (c =? 48)%N then Some ([c], b')
                           else if is_digit c then Some (span_digits b) else None
              | [] => None
              end;
  '(frac, b) ← match b with
               | c :: b' => if (c =? 46)%N then
                              match span_digits b' with ([], _) => None | p => Some p end
                            else Some ([], b)
               | [] => Some ([], b)
               end;
  '(exp, b) ← match b with
              | c :: b' =>
                  if (c =? 101)%N || (c =? 69)%N then
                    let '(minus, b') := match b' with
                                        | s :: b'' => if (s =? 43)%N then (false, b'') else if (s =? 45)%N then (true, b'') else (false, b')
                                        | [] => (false, b')
                                        end in
                    match span_digits b' with
                    | ([], _) => None
                    | (ds, b') => Some (if minus : bool then (- digits_value ds)%Z else digits_value ds, b')
                    end
                  else Some (0%Z, b)
              | [] => Some (0%Z, b)
              end;
  match b with
  | [] => let value := f64_of_decimal neg int frac exp in Some (value, is_whole value)
  | _ => None
  end.

(** ** Offsets *)
Definition count_newlines (t : Text) : nat := length (filter (λ c, c = 10%N) t).

(** The text after the last newline. *)
Definition last_line (t : Text) : Text :=
  foldl (λ line c, if (c =? 10)%N then [] else line ++ [c]) [] t.

Definition line_col (text : Text) (offset : nat) : nat * nat :=
  let before := floor_prefix text offset in
  (count_newlines before + 1, length (last_line before) + 1)%nat.

Fixpoint take_while (p : N → bool) (t : Text) : Text :=
  match t with c :: t => if p c then c :: take_while p t else [] | [] => [] end.

Definition line_indent (text : Text) (offset : nat) : Text :=
  take_while (λ c, (c =? 32)%N || (c =? 9)%N) (last_line (floor_prefix text offset)).

Definition utf16_len (t : Text) : N := foldr (λ c n, len_utf16 c + n)%N 0%N t.

Definition byte_to_utf16 (text : Text) (byte : nat) : N := utf16_len (floor_prefix text byte) mod 2 ^ 32.

Fixpoint utf16_loop (text : Text) (i : nat) (units unit : N) : nat :=
  match text with
  | [] => i
  | c :: text => if (unit <=? units)%N then i else utf16_loop text (i + len_utf8 c) ((units + len_utf16 c) mod 2 ^ 32) unit
  end.

Definition utf16_to_byte (text : Text) (unit : N) : nat := utf16_loop text 0 0 unit.
