(* ===== verification/JsonParse.v ===== *)
(** * The parser of the config editor and the context of a caret
      (rust/rivers-ui/src/json_text.rs)

    The parser goes on after an error: unclosed containers close at the end of the text, a value
    that is not there is [NMissing], and the first error is kept. *)

From S2P Require Import Prelude JsonText.
From Stdlib Require Import SpecFloat.

(** ** Trees *)
Inductive Node :=
| NObject (span : Span) (entries : list Entry) (closed : bool)
| NArray (span : Span) (items : list Node) (closed : bool)
| NStr (span : Span) (value : Text)
| NNum (span : Span) (value : spec_float) (whole : bool)
| NBool (span : Span) (value : bool)
| NNull (span : Span)
| NMissing (span : Span)
with Entry := MkEntry (key : Text) (key_span : Span) (colon : option Span) (value : Node).

Definition e_key (e : Entry) : Text := let '(MkEntry k _ _ _) := e in k.
Definition e_key_span (e : Entry) : Span := let '(MkEntry _ s _ _) := e in s.
Definition e_colon (e : Entry) : option Span := let '(MkEntry _ _ c _) := e in c.
Definition e_value (e : Entry) : Node := let '(MkEntry _ _ _ v) := e in v.

Definition node_span (n : Node) : Span :=
  match n with
  | NObject s _ _ | NArray s _ _ | NStr s _ | NNum s _ _ | NBool s _ | NNull s | NMissing s => s
  end.

Definition entry_end (e : Entry) : nat := Nat.max (sp_end (node_span (e_value e))) (sp_end (e_key_span e)).

Definition is_container (n : Node) : bool := match n with NObject _ _ _ | NArray _ _ _ => true | _ => false end.
Definition node_closed (n : Node) : bool := match n with NObject _ _ closed | NArray _ _ closed => closed | _ => true end.

Record Issue := { is_span : Span; is_message : Text }.
Record Parsed := { pr_root : option Node; pr_error : option Issue }.

(** The tokens from the position on, and the first error. *)
Record PState := { p_rest : list Token; p_error : option Issue }.

Definition starts_value (k : TokenKind) : bool :=
  match k with KLBrace | KLBracket | KNum | KBool | KNull => true | _ => false end.

Section parser.
Context (text : Text).

Definition eof : Span := span_at_offset (text_len text).
Definition peek (s : PState) : option Token := head (p_rest s).
Definition bump (s : PState) : PState := {| p_rest := tail (p_rest s); p_error := p_error s |}.
Definition here (s : PState) : Span := match peek s with Some t => tk_span t | None => eof end.

Definition fail (span : Span) (message : Text) (s : PState) : PState :=
  match p_error s with
  | None => {| p_rest := p_rest s; p_error := Some {| is_span := span; is_message := message |} |}
  | Some _ => s
  end.

Definition raw (span : Span) : option Text := slice text (sp_start span) (sp_end span).

(** The text between the quotes of the literal [r]. *)
Definition string_body (tok : Token) (r : Text) (s : PState) : option (Text * PState) :=
  if bool_decide (tk_kind tok = KStrOpen) then
    (λ b, (b, fail (tk_span tok) (lit "Unterminated string") s)) <$> slice r 1 (text_len r)
  else (λ b, (b, s)) <$> slice r 1 (text_len r - 1).

Definition parse_string (tok : Token) (s : PState) : option (Text * PState) :=
  r ← raw (tk_span tok);
  '(body, s) ← string_body tok r s;
  match unescape body with
  | Some value => Some (value, s)
  | None => Some (body, fail (tk_span tok) (lit "Invalid escape in string") s)
  end.

Definition is_string (k : TokenKind) : bool := match k with KKey | KStr | KStrOpen => true | _ => false end.

(** The colon after a key. *)
Definition parse_colon (s : PState) : option Span * PState :=
  match peek s with
  | Some c => if bool_decide (tk_kind c = KColon) then (Some (tk_span c), bump s) else (None, fail (here s) (lit "Expected ':'") s)
  | None => (None, fail (here s) (lit "Expected ':'") s)
  end.

(** The comma after an entry or item. *)
Definition parse_comma (s : PState) : option Span * PState :=
  match peek s with
  | Some c => if bool_decide (tk_kind c = KComma) then (Some (tk_span c), bump s) else (None, s)
  | None => (None, s)
  end.

Definition fail_trailing (comma : option Span) (s : PState) : PState :=
  match comma with Some c => fail c (lit "Trailing comma") s | None => s end.

Definition duplicate_message (key : Text) : Text := lit "Duplicate key '" ++ key ++ lit "'".

Fixpoint value (fuel : nat) (s : PState) : option (Node * PState) :=
  match fuel with
  | O => None
  | S fuel =>
      match peek s with
      | None => Some (NMissing eof, fail eof (lit "Expected a value") s)
      | Some tok =>
          match tk_kind tok with
          | KLBrace => object fuel tok [] ∅ true None (bump s)
          | KLBracket => array fuel tok [] true None (bump s)
          | KKey | KStr | KStrOpen => '(v, s) ← parse_string tok (bump s); Some (NStr (tk_span tok) v, s)
          | KNum =>
              r ← raw (tk_span tok);
              let s := bump s in
              match number r with
              | Some (v, whole) => Some (NNum (tk_span tok) v whole, s)
              | None => Some (NMissing (tk_span tok), fail (tk_span tok) (lit "Invalid number") s)
              end
          | KBool => r ← raw (tk_span tok); Some (NBool (tk_span tok) (bool_decide (r = lit "true")), bump s)
          | KNull => Some (NNull (tk_span tok), bump s)
          | KInvalid => Some (NMissing (tk_span tok), fail (tk_span tok) (lit "Unexpected text") (bump s))
          | KRBrace | KRBracket | KColon | KComma | KSpace =>
              Some (NMissing (span_at_offset (sp_start (tk_span tok))), fail (tk_span tok) (lit "Expected a value") s)
          end
      end
  end
with object (fuel : nat) (open : Token) (entries : list Entry) (seen : gset Text) (first : bool) (comma : option Span)
    (s : PState) : option (Node * PState) :=
  match fuel with
  | O => None
  | S fuel =>
      match peek s with
      | None =>
          let message := if first || bool_decide (is_Some comma) then lit "Expected a key" else lit "Expected ',' or '}'" in
          Some (NObject {| sp_start := sp_start (tk_span open); sp_end := text_len text |} entries false, fail eof message s)
      | Some tok =>
          if bool_decide (tk_kind tok = KRBrace) then
            let s := fail_trailing comma s in
            Some (NObject {| sp_start := sp_start (tk_span open); sp_end := sp_end (tk_span tok) |} entries true, bump s)
          else if is_string (tk_kind tok) then
            let s := if negb first && bool_decide (comma = None) then fail (tk_span tok) (lit "Expected ',' or '}'") s else s in
            '(key, s) ← parse_string tok (bump s);
            let s := if bool_decide (key ∈ seen) then fail (tk_span tok) (duplicate_message key) s else s in
            let seen := {[key]} ∪ seen in
            let '(colon, s) := parse_colon s in
            '(v, s) ← (if bool_decide (is_Some colon) || match peek s with Some t => starts_value (tk_kind t) | None => false end
                       then value fuel s
                       else Some (NMissing (span_at_offset (sp_start (here s))), s));
            let entries := entries ++ [MkEntry key (tk_span tok) colon v] in
            let '(comma, s) := parse_comma s in
            object fuel open entries seen false comma s
          else
            let message := if negb first && bool_decide (comma = None) then lit "Expected ',' or '}'" else lit "Expected a key" in
            object fuel open entries seen first comma (bump (fail (tk_span tok) message s))
      end
  end
with array (fuel : nat) (open : Token) (items : list Node) (first : bool) (comma : option Span) (s : PState)
    : option (Node * PState) :=
  match fuel with
  | O => None
  | S fuel =>
      match peek s with
      | None =>
          let message := if first || bool_decide (is_Some comma) then lit "Expected a value" else lit "Expected ',' or ']'" in
          Some (NArray {| sp_start := sp_start (tk_span open); sp_end := text_len text |} items false, fail eof message s)
      | Some tok =>
          match tk_kind tok with
          | KRBracket =>
              let s := fail_trailing comma s in
              Some (NArray {| sp_start := sp_start (tk_span open); sp_end := sp_end (tk_span tok) |} items true, bump s)
          | KColon | KComma | KRBrace =>
              array fuel open items first comma (bump (fail (tk_span tok) (lit "Expected a value") s))
          | _ =>
              let s := if negb first && bool_decide (comma = None) then fail (tk_span tok) (lit "Expected ',' or ']'") s else s in
              '(item, s) ← value fuel s;
              let '(comma, s) := parse_comma s in
              array fuel open (items ++ [item]) false comma s
          end
      end
  end.

(** The tokens that are not spaces. *)
Definition solid (tokens : list Token) : list Token := filter (λ t, tk_kind t ≠ KSpace) tokens.

Definition parse_fuel (tokens : list Token) : nat := 2 * length tokens + 2.

Definition parse : option Parsed :=
  tokens ← solid <$> tokenize text;
  match tokens with
  | [] => Some {| pr_root := None; pr_error := None |}
  | _ =>
      '(root, s) ← value (parse_fuel tokens) {| p_rest := tokens; p_error := None |};
      let s := match peek s with Some tok => fail (tk_span tok) (lit "Unexpected text after the document") s | None => s end in
      Some {| pr_root := Some root; pr_error := p_error s |}
  end.
End parser.

(** ** The context of a caret *)
Inductive PathSeg := PKey (key : Text) | PIndex (index : nat).

Inductive Slot := SKey (prefix : Text) | SValue (prefix : Text) | SNone.

Record Context := {
  cx_path : list PathSeg;
  cx_slot : Slot;
  cx_siblings : list Text;
  cx_replace : Span;
  cx_key_only : bool;
  cx_comma_before : bool;
  cx_comma_after : bool
}.

Definition inside (span : Span) (closed : bool) (caret : nat) : bool :=
  (sp_start span <? caret)%nat && ((caret <? sp_end span)%nat || negb closed).

Definition touches (span : Span) (caret : nat) : bool := (sp_start span <=? caret)%nat && (caret <=? sp_end span)%nat.

(** [trim_end_matches] of a quote *)
Definition trim_quotes (t : Text) : Text := foldr (λ c acc, if (c =? 34)%N && bool_decide (acc = []) then [] else c :: acc) [] t.

Definition max_of (l : list nat) : option nat := foldr (λ x acc, Some (Nat.max x (default x acc))) None l.
Definition min_of (l : list nat) : option nat := foldr (λ x acc, Some (Nat.min x (default x acc))) None l.

Definition push_seg (seg : PathSeg) (cx : Context) : Context :=
  {| cx_path := cx_path cx ++ [seg]; cx_slot := cx_slot cx; cx_siblings := cx_siblings cx; cx_replace := cx_replace cx;
     cx_key_only := cx_key_only cx; cx_comma_before := cx_comma_before cx; cx_comma_after := cx_comma_after cx |}.

Definition set_value (prefix : Text) (replace : Span) (cx : Context) : Context :=
  {| cx_path := cx_path cx; cx_slot := SValue prefix; cx_siblings := cx_siblings cx; cx_replace := replace;
     cx_key_only := cx_key_only cx; cx_comma_before := cx_comma_before cx; cx_comma_after := cx_comma_after cx |}.

Section context.
Context (text : Text) (caret : nat).

(** Whether no comma lies between the end of what is before and the caret, and the caret and the
    start of what is after. *)
Definition no_comma_before (ends : list nat) : option bool :=
  match max_of (filter (λ e, e ≤ caret) ends) with
  | Some e => (λ t, negb (bool_decide (44%N ∈ t))) <$> slice text e caret
  | None => Some false
  end.

Definition no_comma_after (starts : list nat) : option bool :=
  match min_of (filter (λ e, caret ≤ e) starts) with
  | Some e => (λ t, negb (bool_decide (44%N ∈ t))) <$> slice text caret e
  | None => Some false
  end.

(** The loop over the entries of an object, with [loc] for the values. *)
Definition locate_entries (loc : Node → Context → option Context) (entries : list Entry) (cx : Context) :=
  fix go (es : list Entry) : option Context :=
    match es with
    | [] =>
        before ← no_comma_before (entry_end <$> entries);
        after ← no_comma_after (sp_start ∘ e_key_span <$> entries);
        Some {| cx_path := cx_path cx; cx_slot := SKey []; cx_siblings := e_key <$> entries; cx_replace := cx_replace cx;
                cx_key_only := cx_key_only cx; cx_comma_before := before; cx_comma_after := after |}
    | MkEntry key key_span colon v :: es =>
        if (sp_start key_span <? caret)%nat && (caret <=? sp_end key_span)%nat then
          prefix ← slice text (sp_start key_span + 1) caret;
          Some {| cx_path := cx_path cx; cx_slot := SKey (trim_quotes prefix);
                  cx_siblings := e_key <$> filter (λ e, e_key_span e ≠ key_span) entries; cx_replace := key_span;
                  cx_key_only := bool_decide (is_Some colon); cx_comma_before := cx_comma_before cx;
                  cx_comma_after := cx_comma_after cx |}
        else if is_container v && inside (node_span v) (node_closed v) caret then loc v (push_seg (PKey key) cx)
        else if negb (is_container v) && touches (node_span v) caret then
          prefix ← slice text (sp_start (node_span v)) caret;
          Some (set_value prefix (node_span v) (push_seg (PKey key) cx))
        else
          match colon with
          | Some colon =>
              if (sp_end colon <=? caret)%nat && (caret <=? sp_start (node_span v))%nat
              then Some (set_value [] (cx_replace cx) (push_seg (PKey key) cx))
              else go es
          | None => go es
          end
    end.

(** The loop over the items of an array. *)
Definition locate_items (loc : Node → Context → option Context) (items : list Node) (cx : Context) :=
  fix go (index : nat) (rest : list Node) : option Context :=
    match rest with
    | [] =>
        let ends := sp_end ∘ node_span <$> items in
        before ← no_comma_before ends;
        after ← no_comma_after (sp_start ∘ node_span <$> items);
        let cx := set_value [] (cx_replace cx) (push_seg (PIndex (length (filter (λ e, e ≤ caret) ends))) cx) in
        Some {| cx_path := cx_path cx; cx_slot := cx_slot cx; cx_siblings := cx_siblings cx; cx_replace := cx_replace cx;
                cx_key_only := cx_key_only cx; cx_comma_before := before; cx_comma_after := after |}
    | item :: rest =>
        if is_container item && inside (node_span item) (node_closed item) caret then loc item (push_seg (PIndex index) cx)
        else if negb (is_container item) && touches (node_span item) caret then
          prefix ← slice text (sp_start (node_span item)) caret;
          Some (set_value prefix (node_span item) (push_seg (PIndex index) cx))
        else go (S index) rest
    end.

Fixpoint locate (node : Node) (cx : Context) : option Context :=
  match node with
  | NObject span entries closed => if inside span closed caret then locate_entries locate entries cx entries else Some cx
  | NArray span items closed => if inside span closed caret then locate_items locate items cx O items else Some cx
  | _ => Some cx
  end.
End context.

Definition context_at (text : Text) (parsed : Parsed) (caret : nat) : option Context :=
  let caret := Nat.min caret (text_len text) in
  let cx := {| cx_path := []; cx_slot := SNone; cx_siblings := []; cx_replace := span_at_offset caret;
               cx_key_only := false; cx_comma_before := false; cx_comma_after := false |} in
  match pr_root parsed with Some root => locate text caret root cx | None => Some cx end.

(** The key span and value span at a path. *)
Fixpoint span_at_loop (node : Node) (key_span : option Span) (path : list PathSeg) : option (option Span * Span) :=
  match path with
  | [] => Some (key_span, node_span node)
  | PKey key :: path =>
      match node with
      | NObject _ entries _ =>
          e ← List.find (λ e, bool_decide (e_key e = key)) entries;
          span_at_loop (e_value e) (Some (e_key_span e)) path
      | _ => None
      end
  | PIndex index :: path =>
      match node with NArray _ items _ => item ← items !! index; span_at_loop item None path | _ => None end
  end.

Definition span_at (root : Node) (path : list PathSeg) : option (option Span * Span) := span_at_loop root None path.
