(* ===== verification/JsonTokens.v ===== *)
(** * Tokens of the config editor cover the text

    Slices between characters do not panic, and the tokens are a segmentation of the text into
    non-empty pieces of the shape their kind says. *)

From S2P Require Import Prelude JsonText.

(** ** Bytes and characters *)
Lemma utf8_ascii c : (c < 128)%N → utf8 c = [c].
Proof. intros H. unfold utf8. by rewrite (proj2 (N.ltb_lt _ _) H). Qed.

Lemma utf8_high c : (128 <= c)%N → Forall (λ b, (128 <= b)%N) (utf8 c).
Proof.
  intros H. unfold utf8. rewrite (proj2 (N.ltb_ge _ _) H).
  destruct (c <? 2048)%N; [|destruct (c <? 65536)%N]; rewrite !Forall_cons, Forall_nil; split_and?;
    try done; (etrans; [|apply N.le_add_r]); done.
Qed.

Lemma utf8_cons c : ∃ b bs, utf8 c = b :: bs ∧ ((b < 128)%N → c = b ∧ bs = []).
Proof.
  destruct (decide (c < 128)%N) as [H|H].
  - rewrite utf8_ascii by done. eauto.
  - pose proof (utf8_high c ltac:(lia)) as Hf. destruct (utf8 c) as [|b bs] eqn:E.
    + unfold utf8 in E. repeat case_match; done.
    + exists b, bs. split; [done|]. intros. inversion Hf. lia.
Qed.

Lemma len_utf8_pos c : (1 <= len_utf8 c)%nat.
Proof. unfold len_utf8. destruct (utf8_cons c) as (b & bs & -> & _). cbn. lia. Qed.

Lemma as_bytes_cons c t : as_bytes (c :: t) = utf8 c ++ as_bytes t.
Proof. done. Qed.

Lemma as_bytes_app t t' : as_bytes (t ++ t') = as_bytes t ++ as_bytes t'.
Proof. apply bind_app. Qed.

Lemma text_len_nil : text_len [] = 0%nat.
Proof. done. Qed.

Lemma text_len_cons c t : text_len (c :: t) = (len_utf8 c + text_len t)%nat.
Proof. unfold text_len, len_utf8. by rewrite as_bytes_cons, length_app. Qed.

Lemma text_len_app t t' : text_len (t ++ t') = (text_len t + text_len t')%nat.
Proof. unfold text_len. by rewrite as_bytes_app, length_app. Qed.

Lemma text_len_pos t : t ≠ [] → (1 <= text_len t)%nat.
Proof. destruct t as [|c t]; [done|]. intros _. rewrite text_len_cons. pose proof (len_utf8_pos c). lia. Qed.

Lemma text_len_ascii c : (c < 128)%N → text_len [c] = 1%nat.
Proof. intros. rewrite text_len_cons. unfold len_utf8. by rewrite utf8_ascii. Qed.

Lemma split_at_app t t' : split_at (t ++ t') (text_len t) = Some (t, t').
Proof.
  induction t as [|c t IH]; [by destruct t'|]. cbn [app]. rewrite text_len_cons. pose proof (len_utf8_pos c) as Hp.
  cbn [split_at]. destruct (len_utf8 c + text_len t)%nat as [|n] eqn:E; [lia|]. cbn [split_at]. rewrite <-E.
  rewrite (proj2 (Nat.leb_le _ _)) by lia. replace (_ + _ - _)%nat with (text_len t) by lia. by rewrite IH.
Qed.

Lemma slice_app a b c : slice (a ++ b ++ c) (text_len a) (text_len a + text_len b) = Some b.
Proof.
  unfold slice. rewrite (proj2 (Nat.leb_le _ _)) by lia. rewrite split_at_app. cbn.
  replace (_ + _ - _)%nat with (text_len b) by lia. by rewrite split_at_app.
Qed.

Lemma drop_as_bytes t t' : drop (text_len t) (as_bytes (t ++ t')) = as_bytes t'.
Proof. rewrite as_bytes_app. by apply drop_app_length'. Qed.

Lemma lookup_as_bytes t t' : as_bytes (t ++ t') !! text_len t = head (as_bytes t').
Proof. rewrite as_bytes_app, lookup_app_r by done. unfold text_len. rewrite Nat.sub_diag. by destruct (as_bytes t'). Qed.

(** ** Scanning *)
Lemma skip_while_spec (p : N → bool) t i :
  (∀ b, p b → (b < 128)%N) →
  ∃ mid t', t = mid ++ t' ∧ skip_while p (as_bytes t) i = (i + text_len mid)%nat ∧ Forall p mid ∧ (∀ c, head t' = Some c → p c = false).
Proof.
  intros Hp. revert i. induction t as [|c t IH]; intros i.
  { exists [], []. rewrite text_len_nil, Nat.add_0_r. done. }
  destruct (utf8_cons c) as (b & bs & Hc & Hb). rewrite as_bytes_cons, Hc. cbn [app skip_while].
  destruct (p b) eqn:Hpb.
  - destruct Hb as [-> ->]; [by apply Hp; rewrite Hpb|]. cbn [app]. destruct (IH (S i)) as (mid & t' & -> & -> & Hall & Hend).
    exists (b :: mid), t'. split_and!; [done| |by constructor; [rewrite Hpb|]|done].
    rewrite text_len_cons. unfold len_utf8. rewrite Hc. cbn. lia.
  - exists [], (c :: t). rewrite text_len_nil, Nat.add_0_r. split_and!; [done|done|done|]. intros ? [= <-].
    destruct (decide (b < 128)%N) as [Hlt|]; [by destruct (Hb Hlt) as [-> _]|]. destruct (p c) eqn:Hpc; [|done].
    pose proof (Hp c ltac:(by rewrite Hpc)) as Hlt. rewrite utf8_ascii in Hc by done. injection Hc as -> _. congruence.
Qed.

(** A string body ends between characters, after the quote that closes it. *)
Lemma string_end_spec len rest i cont t :
  rest = cont ++ as_bytes t → Forall (λ b, (128 <= b)%N) cont → (i + length rest = len)%nat →
  ∃ mid t', t = mid ++ t' ∧ (string_end len rest i).1 = (i + length cont + text_len mid)%nat ∧
    ((string_end len rest i).2 = true → ∃ body, mid = body ++ [34%N]).
Proof.
  revert rest i cont t. enough (Hn : ∀ n rest i cont t, (length rest <= n)%nat → rest = cont ++ as_bytes t →
    Forall (λ b, (128 <= b)%N) cont → (i + length rest = len)%nat →
    ∃ mid t', t = mid ++ t' ∧ (string_end len rest i).1 = (i + length cont + text_len mid)%nat ∧
      ((string_end len rest i).2 = true → ∃ body, mid = body ++ [34%N])) by eauto.
  induction n as [|n IH]; intros rest i cont t Hle -> Hcont Hlen.
  { destruct cont; cbn in Hle; [|lia]. destruct t as [|c t]; [exists [], []; cbn in *; split_and!; [done|lia|done]|].
    pose proof (text_len_pos (c :: t) ltac:(done)). unfold text_len in *. cbn [app] in *. lia. }
  destruct cont as [|b cont].
  - destruct t as [|c t]; [exists [], []; cbn in *; split_and!; [done|lia|done]|].
    destruct (utf8_cons c) as (b & bs & Hc & Hb). cbn [app] in *. rewrite as_bytes_cons, Hc in *. cbn [app string_end].
    pose proof (utf8_high c) as Hhigh.
    rewrite Hc in Hhigh. cbn [app length] in Hle, Hlen. rewrite length_app in Hle, Hlen.
    assert (Hl : text_len [c] = S (length bs)) by (rewrite text_len_cons; unfold len_utf8; rewrite Hc; cbn; lia).
    destruct (N.eqb_spec b 34) as [->|Hq].
    { destruct Hb as [-> ->]; [lia|]. exists [34%N], t. split_and!; [done|cbn; lia|by exists []]. }
    destruct (N.eqb_spec b 92) as [->|Hs].
    { destruct Hb as [-> ->]; [lia|]. cbn [app length] in *. destruct t as [|c2 t].
      { exists [92%N], []. cbn in *. split_and!; [done|lia|done]. }
      destruct (utf8_cons c2) as (b2 & bs2 & Hc2 & Hb2). rewrite as_bytes_cons, Hc2 in *. cbn [app].
      assert (Hl2 : text_len [c2] = S (length bs2)) by (rewrite text_len_cons; unfold len_utf8; rewrite Hc2; cbn; lia).
      destruct (IH (bs2 ++ as_bytes t) (i + 2)%nat bs2 t) as (mid & t' & -> & He & Hcl); [cbn in *; lia|done| |cbn in *; lia|].
      { destruct (decide (c2 < 128)%N) as [Hlt|Hge]; [by rewrite utf8_ascii in Hc2 by done; injection Hc2 as _ <-|].
        pose proof (utf8_high c2 ltac:(lia)) as Hf. rewrite Hc2 in Hf. by inversion Hf. }
      exists (92%N :: c2 :: mid), t'. split_and!; [done| |].
      - rewrite He. rewrite !text_len_cons. unfold len_utf8. rewrite Hc, Hc2. cbn. lia.
      - intros Hc'. destruct (Hcl Hc') as [body ->]. by exists (92%N :: c2 :: body). }
    destruct (N.eqb_spec b 10) as [->|Hnl].
    { destruct Hb as [-> ->]; [lia|]. exists [], (10%N :: t). split_and!; [done|cbn; lia|done]. }
    destruct (IH (bs ++ as_bytes t) (i + 1)%nat bs t) as (mid & t' & -> & He & Hcl); [rewrite length_app; lia|done| |rewrite length_app; lia|].
    { destruct (decide (b < 128)%N) as [Hlt|Hge]; [by destruct (Hb Hlt) as [_ ->]|].
      destruct (decide (c < 128)%N) as [Hlt|Hge']; [rewrite utf8_ascii in Hc by done; by injection Hc as _ <-|].
      pose proof (Hhigh ltac:(lia)) as Hf. by inversion Hf. }
    exists (c :: mid), t'. split_and!; [done| |].
    + rewrite He. rewrite text_len_cons. unfold len_utf8. rewrite Hc. cbn. lia.
    + intros Hc'. destruct (Hcl Hc') as [body ->]. by exists (c :: body).
  - apply Forall_cons in Hcont as [Hb Hcont]. cbn [app string_end length] in *.
    rewrite (proj2 (N.eqb_neq b 34)), (proj2 (N.eqb_neq b 92)), (proj2 (N.eqb_neq b 10)) by lia.
    destruct (IH (cont ++ as_bytes t) (i + 1)%nat cont t) as (mid & t' & -> & He & Hcl); [lia|done|done|lia|].
    exists mid, t'. rewrite He. split_and!; [done|lia|done].
Qed.

(** ** Pieces *)

(** The text of a token of each kind. *)
Definition lexeme (k : TokenKind) (t : Text) : Prop :=
  match k with
  | KLBrace => t = [123%N]
  | KRBrace => t = [125%N]
  | KLBracket => t = [91%N]
  | KRBracket => t = [93%N]
  | KColon => t = [58%N]
  | KComma => t = [44%N]
  | KKey | KStr => ∃ body, t = 34%N :: body ++ [34%N]
  | KStrOpen => ∃ body, t = 34%N :: body
  | KNum => ∃ c ds, t = c :: ds ∧ (c = 45%N ∨ is_digit c) ∧ Forall is_num_byte ds
  | KBool => t = lit "true" ∨ t = lit "false"
  | KNull => t = lit "null"
  | KSpace => Forall is_space t
  | KInvalid => True
  end.

Definition piece_ok (p : TokenKind * Text) : Prop := p.2 ≠ [] ∧ lexeme p.1 p.2.

(** The tokens of consecutive pieces of text. *)
Fixpoint place (i : nat) (pieces : list (TokenKind * Text)) : list Token :=
  match pieces with
  | [] => []
  | (k, t) :: pieces =>
      {| tk_kind := k; tk_span := {| sp_start := i; sp_end := i + text_len t |} |} :: place (i + text_len t) pieces
  end.

Lemma is_digit_ascii b : is_digit b → (b < 128)%N.
Proof. unfold is_digit. rewrite andb_True, !Is_true_true, !N.leb_le. lia. Qed.

Lemma is_alpha_ascii b : is_alpha b → (b < 128)%N.
Proof. unfold is_alpha. rewrite orb_True, !andb_True, !Is_true_true, !N.leb_le. lia. Qed.

Lemma is_space_ascii b : is_space b → (b < 128)%N.
Proof. unfold is_space. rewrite !orb_True, !Is_true_true, !N.eqb_eq. lia. Qed.

Lemma is_num_byte_ascii b : is_num_byte b → (b < 128)%N.
Proof. unfold is_num_byte. rewrite !orb_True. intros [[[[[H|H]|H]|H]|H]|H]; [by apply is_digit_ascii|apply Is_true_true, N.eqb_eq in H; lia..]. Qed.

Lemma is_word_byte_ascii b : is_word_byte b → (b < 128)%N.
Proof.
  unfold is_word_byte. rewrite !orb_True. intros [[H|H]|H]; [by apply is_alpha_ascii|by apply is_digit_ascii|].
  apply Is_true_true, N.eqb_eq in H. lia.
Qed.

Lemma token_at_spec pre c t b bs :
  utf8 c = b :: bs →
  ∃ k mid t', c :: t = mid ++ t' ∧ piece_ok (k, mid) ∧ k ≠ KKey ∧
    token_at (pre ++ c :: t) (text_len pre) b = Some (k, text_len pre + text_len mid)%nat.
Proof.
  intros Hc. assert (Hb : (b < 128)%N → c = b ∧ bs = []).
  { destruct (utf8_cons c) as (b' & bs' & Hc' & Hb'). rewrite Hc in Hc'. by injection Hc' as <- <-. }
  assert (Hone : ∀ k, (b < 128)%N → lexeme k [b] → k ≠ KKey →
    ∃ k' mid t', c :: t = mid ++ t' ∧ piece_ok (k', mid) ∧ k' ≠ KKey ∧
      Some (k, (text_len pre + 1)%nat) = Some (k', text_len pre + text_len mid)%nat).
  { intros k Hlt Hl Hk. destruct (Hb Hlt) as [-> _]. exists k, [b], t. by rewrite text_len_ascii. }
  assert (Hnext : ∀ p : N → bool, (b < 128)%N → (∀ b, p b → (b < 128)%N) →
    ∃ mid t', c :: t = b :: mid ++ t' ∧ Forall p mid ∧
      skip_while p (drop (text_len pre + 1) (as_bytes (pre ++ c :: t))) (text_len pre + 1) = (text_len pre + text_len (b :: mid))%nat).
  { intros p Hlt Hp. destruct (Hb Hlt) as [-> ->]. replace (pre ++ b :: t) with ((pre ++ [b]) ++ t) by by rewrite <-app_assoc.
    rewrite <-(text_len_ascii b Hlt), <-text_len_app, drop_as_bytes.
    destruct (skip_while_spec p t (text_len (pre ++ [b])) Hp) as (mid & t' & -> & -> & Hall & _).
    exists mid, t'. split_and!; [done|done|]. rewrite text_len_app, !text_len_cons, text_len_nil. lia. }
  unfold token_at. rewrite drop_as_bytes.
  destruct (is_space b) eqn:Hsp.
  { destruct (skip_while_spec is_space (c :: t) (text_len pre) is_space_ascii) as (mid & t' & Ht & -> & Hall & Hend).
    exists KSpace, mid, t'. split_and!; [done|split; [|done]|done|done]. cbn. intros ->. cbn in Ht. subst t'.
    destruct Hb as [-> _]; [by apply is_space_ascii; rewrite Hsp|]. by specialize (Hend _ eq_refl); congruence. }
  destruct (N.eqb_spec b 123) as [->|_]; [by apply Hone|].
  destruct (N.eqb_spec b 125) as [->|_]; [by apply Hone|].
  destruct (N.eqb_spec b 91) as [->|_]; [by apply Hone|].
  destruct (N.eqb_spec b 93) as [->|_]; [by apply Hone|].
  destruct (N.eqb_spec b 58) as [->|_]; [by apply Hone|].
  destruct (N.eqb_spec b 44) as [->|_]; [by apply Hone|].
  destruct (N.eqb_spec b 34) as [->|_].
  { destruct Hb as [-> ->]; [done|]. replace (pre ++ 34%N :: t) with ((pre ++ [34%N]) ++ t) by by rewrite <-app_assoc.
    replace (text_len pre + 1)%nat with (text_len (pre ++ [34%N])) by (by rewrite text_len_app). rewrite drop_as_bytes.
    destruct (string_end_spec (length (as_bytes ((pre ++ [34%N]) ++ t))) (as_bytes t) (text_len (pre ++ [34%N])) [] t)
      as (mid & t' & -> & He & Hcl); [done|done|by rewrite as_bytes_app, length_app|].
    destruct (string_end _ _ _) as [i closed]. cbn [fst snd length] in *. subst i.
    exists (if closed then KStr else KStrOpen), (34%N :: mid), t'.
    split_and!; [done|split; [done|]|by destruct closed|].
    - destruct closed; [|by exists mid]. destruct (Hcl eq_refl) as [body ->]. by exists body.
    - do 2 f_equal. rewrite text_len_app, !text_len_cons, text_len_nil. cbn. lia. }
  destruct ((b =? 45)%N || is_digit b) eqn:Hnum.
  { assert (Hlt : (b < 128)%N).
    { apply orb_true_iff in Hnum as [->%N.eqb_eq|H]; [done|]. by apply is_digit_ascii; rewrite H. }
    destruct (Hnext is_num_byte Hlt is_num_byte_ascii) as (mid & t' & Ht & Hall & ->).
    exists KNum, (b :: mid), t'. split_and!; [done|split; [done|]|done|done]. exists b, mid. split_and!; [done| |done].
    apply orb_true_iff in Hnum as [->%N.eqb_eq|H]; [by left|by right; rewrite H]. }
  destruct (is_alpha b || (b =? 95)%N) eqn:Hw.
  { destruct (skip_while_spec is_word_byte (c :: t) (text_len pre) is_word_byte_ascii) as (mid & t' & Ht & -> & Hall & Hend).
    rewrite Ht, slice_app. cbn [mbind option_bind].
    match goal with |- context [Some (?k', (_ + text_len mid)%nat)] => set (k := k') end. exists k, mid, t'. split_and!; [done| |by subst k; repeat case_match|done]. split.
    - cbn. intros ->. cbn in Ht. subst t'. assert (Hlt : (b < 128)%N).
      { apply orb_true_iff in Hw as [H| ->%N.eqb_eq]; [by apply is_alpha_ascii; rewrite H|done]. }
      destruct Hb as [-> _]; [done|]. specialize (Hend _ eq_refl). unfold is_word_byte in Hend.
      apply orb_true_iff in Hw as [H|H]; rewrite H in Hend; by rewrite ?orb_true_r in Hend.
    - subst k. cbn [fst snd]. repeat case_bool_decide; cbn; auto. }
  rewrite split_at_app. cbn [mbind option_bind snd]. exists KInvalid, [c], t. split_and!; [done|done|done|].
  by rewrite text_len_cons, text_len_nil, Nat.add_0_r.
Qed.

Lemma token_loop_spec fuel pre t :
  (text_len t <= fuel)%nat →
  ∃ pieces, token_loop fuel (pre ++ t) (text_len pre) = Some (place (text_len pre) pieces) ∧
    t = concat (snd <$> pieces) ∧ Forall piece_ok pieces ∧ Forall (λ p, p.1 ≠ KKey) pieces.
Proof.
  revert pre t. induction fuel as [|fuel IH]; intros pre t Hle; (destruct t as [|c t]; [|destruct (utf8_cons c) as (b & bs & Hc & _)]).
  1,3: exists []; split_and!; [|done..]; cbn; rewrite lookup_as_bytes; done.
  - pose proof (text_len_pos (c :: t) ltac:(done)). lia.
  - cbn [token_loop]. rewrite lookup_as_bytes, as_bytes_cons, Hc. cbn [head app].
    destruct (token_at_spec pre c t b bs Hc) as (k & mid & t' & Ht & Hok & Hk & ->). cbn [mbind option_bind].
    rewrite Ht, app_assoc, <-text_len_app. destruct (IH (pre ++ mid) t') as (pieces & -> & Htxt & Hall & Hkeys).
    { rewrite Ht, text_len_app in Hle. pose proof (text_len_pos mid (proj1 Hok)). lia. }
    exists ((k, mid) :: pieces). cbn. rewrite <-Htxt. split_and!; [|done|by constructor|by constructor].
    by rewrite !text_len_app.
Qed.

(** The kind of the first piece that is not space. *)
Fixpoint next_kind (pieces : list (TokenKind * Text)) : option TokenKind :=
  match pieces with [] => None | (k, _) :: pieces => if bool_decide (k = KSpace) then next_kind pieces else Some k end.

(** Strings are keys exactly when a colon follows. *)
Fixpoint keys_marked (pieces : list (TokenKind * Text)) : Prop :=
  match pieces with
  | [] => True
  | (k, _) :: pieces => (k = KKey → next_kind pieces = Some KColon) ∧ (k = KStr → next_kind pieces ≠ Some KColon) ∧ keys_marked pieces
  end.

Lemma mark_keys_place i pieces :
  Forall piece_ok pieces → Forall (λ p, p.1 ≠ KKey) pieces →
  ∃ pieces', mark_keys (place i pieces) = (place i pieces', next_kind pieces') ∧ snd <$> pieces' = snd <$> pieces ∧
    Forall piece_ok pieces' ∧ keys_marked pieces'.
Proof.
  revert i. induction pieces as [|[k t] pieces IH]; intros i Hok Hkeys; [by exists []|].
  apply Forall_cons in Hok as [Hk Hok]. apply Forall_cons in Hkeys as [Hkey Hkeys].
  destruct (IH (i + text_len t)%nat Hok Hkeys) as (pieces' & Hm & Htxt & Hok' & Hmarked).
  cbn [place mark_keys]. rewrite Hm. cbn [tk_kind tk_span].
  set (k' := if bool_decide (k = KStr) && bool_decide (next_kind pieces' = Some KColon) then KKey else k).
  exists ((k', t) :: pieces'). cbn [place next_kind fmap list_fmap snd]. rewrite Htxt. split_and!; [done|done| |].
  - constructor; [|done]. subst k'. repeat case_bool_decide; cbn [andb]; [|done..]. by subst k.
  - cbn [keys_marked]. split_and!; [| |done]; subst k'; repeat case_bool_decide; cbn [andb]; intros; by subst.
Qed.

Lemma tokenize_pieces text :
  ∃ pieces, tokenize text = Some (place 0 pieces) ∧ text = concat (snd <$> pieces) ∧ Forall piece_ok pieces ∧ keys_marked pieces.
Proof.
  destruct (token_loop_spec (text_len text) [] text) as (pieces & Hl & Htxt & Hok & Hkeys); [done|].
  destruct (mark_keys_place 0 pieces Hok Hkeys) as (pieces' & Hm & Hsnd & Hok' & Hmarked).
  exists pieces'. unfold tokenize. change (text_len []) with 0%nat in Hl. cbn [app] in Hl. rewrite Hl. cbn. by rewrite Hm, Hsnd.
Qed.

(** Tokenizing any text succeeds without a slice inside a character, and every byte is in
    exactly one token: the tokens are the consecutive pieces of a segmentation of the text, none
    empty, each with the text its kind says; a closed string is a key exactly when a colon follows
    it. *)
Theorem tokens_cover text :
  ∃ pieces, tokenize text = Some (place 0 pieces) ∧ text = concat (snd <$> pieces) ∧ Forall piece_ok pieces ∧ keys_marked pieces.
Proof. apply tokenize_pieces. Qed.

(** ** Escapes *)

(** The ways JSON spells a character in a string. *)
Inductive spelled : N → Text → Prop :=
| spelled_plain c : c ≠ 92%N → spelled c [c]
| spelled_simple c e : simple_escape e = Some c → spelled c [92; e]%N
| spelled_unit c h1 h2 h3 h4 :
    hex4 h1 h2 h3 h4 = Some c → is_high c = false → is_low c = false → spelled c [92; 117; h1; h2; h3; h4]%N
| spelled_pair hi lo h1 h2 h3 h4 l1 l2 l3 l4 :
    hex4 h1 h2 h3 h4 = Some hi → is_high hi = true → hex4 l1 l2 l3 l4 = Some lo → is_low lo = true →
    spelled (65536 + (hi - 55296) * 1024 + (lo - 56320)) [92; 117; h1; h2; h3; h4; 92; 117; l1; l2; l3; l4]%N.

Lemma to_digit16_range c d : to_digit16 c = Some d → (d < 16)%N.
Proof.
  unfold to_digit16, is_digit. repeat case_match; intros [= <-];
    repeat match goal with H : (_ && _) = true |- _ => apply andb_true_iff in H as [?%N.leb_le ?%N.leb_le] end; lia.
Qed.

Lemma hex4_range a b c d n : hex4 a b c d = Some n → (n < 65536)%N.
Proof.
  unfold hex4. destruct (to_digit16 a) eqn:Ha, (to_digit16 b) eqn:Hb, (to_digit16 c) eqn:Hc, (to_digit16 d) eqn:Hd; try done.
  cbn. intros [= <-]. apply to_digit16_range in Ha, Hb, Hc, Hd. lia.
Qed.

Lemma unescape_spelled c t raw : spelled c t → unescape (t ++ raw) = cons c <$> unescape raw.
Proof.
  destruct 1 as [c Hc|c e He|c h1 h2 h3 h4 Hx Hh Hl|hi lo h1 h2 h3 h4 l1 l2 l3 l4 Hhi Hh Hlo Hl].
  - cbn. by rewrite (proj2 (N.eqb_neq _ _) Hc).
  - cbn. by rewrite He.
  - cbn. rewrite Hx. cbn. rewrite Hh. unfold char_from_u32. rewrite Hh, Hl. pose proof (hex4_range _ _ _ _ _ Hx).
    rewrite (proj2 (N.ltb_lt _ _)) by lia. done.
  - cbn -[N.shiftl]. rewrite Hhi. cbn -[N.shiftl]. rewrite Hh, Hlo. cbn -[N.shiftl]. rewrite Hl. cbn -[N.shiftl].
    rewrite N.shiftl_mul_pow2. change (2 ^ 10)%N with 1024%N.
    unfold is_high, is_low in *. apply andb_true_iff in Hh as [?%N.leb_le ?%N.ltb_lt]. apply andb_true_iff in Hl as [?%N.leb_le ?%N.ltb_lt].
    unfold char_from_u32, is_high, is_low.
    rewrite (proj2 (N.ltb_lt _ _)) by lia. rewrite (proj2 (N.ltb_ge _ 56320)) by lia. rewrite (proj2 (N.ltb_ge _ 57344)) by lia.
    by rewrite !andb_false_r.
Qed.

(** What an escape reads as is a spelling. *)
Lemma unescape_first c raw s :
  unescape (c :: raw) = Some s →
  ∃ c' t raw' s', c :: raw = t ++ raw' ∧ spelled c' t ∧ unescape raw' = Some s' ∧ s = c' :: s' ∧ length raw' < length (c :: raw).
Proof.
  intros H. cbn [unescape] in H. destruct (N.eqb_spec c 92) as [->|Hc]; cbn [negb] in H.
  2: { destruct (unescape raw) as [s'|] eqn:E; [|done]. injection H as <-. exists c, [c], raw, s'. split_and!; [done|by constructor|done|done|cbn; lia]. }
  destruct raw as [|e raw]; [done|]. destruct (simple_escape e) as [out|] eqn:He.
  { destruct (unescape raw) as [s'|] eqn:E; [|done]. injection H as <-. exists out, [92; e]%N, raw, s'. split_and!; [done|by constructor|done|done|cbn; lia]. }
  destruct (N.eqb_spec e 117) as [->|]; [|done]. cbn [negb] in H.
  destruct raw as [|h1 [|h2 [|h3 [|h4 raw]]]]; try done.
  destruct (hex4 h1 h2 h3 h4) as [hi|] eqn:Hhi; [|done]. cbn [mbind option_bind] in H. destruct (is_high hi) eqn:Hh.
  - destruct raw as [|b [|u [|l1 [|l2 [|l3 [|l4 raw]]]]]]; try done.
    destruct (N.eqb_spec b 92) as [->|]; [|done]. destruct (N.eqb_spec u 117) as [->|]; [|done]. cbn [negb orb] in H.
    destruct (hex4 l1 l2 l3 l4) as [lo|] eqn:Hlo; [|done]. cbn [mbind option_bind] in H. destruct (is_low lo) eqn:Hl; [|done]. cbn [negb] in H.
    unfold char_from_u32 in H. destruct (_ && _); [|done]. cbn [mbind option_bind] in H.
    destruct (unescape raw) as [s'|] eqn:E; [|done]. injection H as <-.
    eexists _, [92; 117; h1; h2; h3; h4; 92; 117; l1; l2; l3; l4]%N, raw, s'. split_and!; [done|by econstructor|done| |cbn; lia].
    rewrite N.shiftl_mul_pow2. done.
  - unfold char_from_u32 in H. destruct (_ && _) eqn:Hok; [|done]. cbn [mbind option_bind] in H.
    apply andb_true_iff in Hok as [_ Hl%negb_true_iff]. destruct (unescape raw) as [s'|] eqn:E; [|done]. injection H as <-.
    exists hi, [92; 117; h1; h2; h3; h4]%N, raw, s'. split_and!; [done|by econstructor|done|done|cbn; lia].
Qed.

(** Unescaping a string body succeeds exactly on the bodies JSON spells, with the characters
    they spell: one by one, as simple escapes, as escapes of four hex digits, and as pairs of
    escaped surrogates; a surrogate without its partner is none. *)
Theorem unescape_exact raw s : unescape raw = Some s ↔ ∃ pieces, raw = concat pieces ∧ Forall2 spelled s pieces.
Proof.
  split.
  - enough (Hn : ∀ n raw s, (length raw <= n)%nat → unescape raw = Some s → ∃ pieces, raw = concat pieces ∧ Forall2 spelled s pieces) by eauto.
    clear raw s. induction n as [|n IH]; intros [|c raw] s Hn H; try (injection H as <-; by exists []); [cbn in Hn; lia|].
    destruct (unescape_first _ _ _ H) as (c' & t & raw' & s' & Heq & Ht & Hs' & -> & Hlen).
    destruct (IH raw' s') as (pieces & -> & Hall); [lia|done|]. rewrite Heq. exists (t :: pieces). split; [done|by constructor].
  - intros (pieces & -> & Hall). induction Hall as [|c t s pieces Ht _ IH]; [done|]. cbn [concat]. rewrite (unescape_spelled _ _ _ Ht), IH. done.
Qed.
