(* ===== verification/JsonTree.v ===== *)
(** * The parser of the config editor always returns a well-nested tree *)

From S2P Require Import Prelude JsonText JsonParse JsonTokens.

(** ** Well-nested trees *)

(** An offset between characters. *)
Definition boundary (text : Text) (i : nat) : Prop := ∃ a b, text = a ++ b ∧ i = text_len a.

Definition sp_ok (text : Text) (sp : Span) : Prop := boundary text (sp_start sp) ∧ boundary text (sp_end sp).

(** The node lies in [lo, hi], its spans between characters, the parts of a container in order and
    inside it. *)
Inductive nested (text : Text) : nat → nat → Node → Prop :=
| nested_leaf lo hi n :
    is_container n = false → sp_ok text (node_span n) → lo ≤ sp_start (node_span n) →
    sp_start (node_span n) ≤ sp_end (node_span n) → sp_end (node_span n) ≤ hi → nested text lo hi n
| nested_object lo hi sp es closed :
    sp_ok text sp → lo ≤ sp_start sp → sp_end sp ≤ hi →
    entries_in text (sp_start sp + 1) (if closed : bool then sp_end sp - 1 else sp_end sp) es → nested text lo hi (NObject sp es closed)
| nested_array lo hi sp ns closed :
    sp_ok text sp → lo ≤ sp_start sp → sp_end sp ≤ hi →
    items_in text (sp_start sp + 1) (if closed : bool then sp_end sp - 1 else sp_end sp) ns → nested text lo hi (NArray sp ns closed)
with entries_in (text : Text) : nat → nat → list Entry → Prop :=
| entries_nil lo hi : lo ≤ hi → entries_in text lo hi []
| entries_snoc lo hi mid es k ks colon v :
    entries_in text lo (sp_start ks) es → sp_ok text ks → boundary text (sp_start ks + 1) → sp_start ks < sp_end ks →
    match colon with Some c => sp_end ks ≤ sp_start c ∧ sp_start c < sp_end c ∧ mid = sp_end c | None => mid = sp_end ks end →
    nested text mid hi v → entries_in text lo hi (es ++ [MkEntry k ks colon v])
with items_in (text : Text) : nat → nat → list Node → Prop :=
| items_nil lo hi : lo ≤ hi → items_in text lo hi []
| items_snoc lo hi mid ns n : items_in text lo mid ns → nested text mid hi n → items_in text lo hi (ns ++ [n]).

Scheme nested_mind := Minimality for nested Sort Prop
  with entries_in_mind := Minimality for entries_in Sort Prop
  with items_in_mind := Minimality for items_in Sort Prop.
Combined Scheme nested_mutind from nested_mind, entries_in_mind, items_in_mind.

Lemma nested_mono text lo hi hi' n : nested text lo hi n → hi ≤ hi' → nested text lo hi' n.
Proof. destruct 1; intros; econstructor; eauto; lia. Qed.

Lemma entries_mono text lo hi hi' es : entries_in text lo hi es → hi ≤ hi' → entries_in text lo hi' es.
Proof. destruct 1; intros; econstructor; eauto using nested_mono; lia. Qed.

Lemma items_mono text lo hi hi' ns : items_in text lo hi ns → hi ≤ hi' → items_in text lo hi' ns.
Proof. destruct 1; intros; econstructor; eauto using nested_mono; lia. Qed.

Lemma nested_lower text lo lo' hi n : nested text lo hi n → lo' ≤ lo → nested text lo' hi n.
Proof. destruct 1; intros; econstructor; eauto; lia. Qed.

Lemma nested_span text lo hi n : nested text lo hi n → lo ≤ sp_start (node_span n) ∧ sp_end (node_span n) ≤ hi.
Proof. by destruct 1. Qed.

Create HintDb spans.

(** ** Tokens in the text *)
Section parser.
Context (text : Text).

Definition tok_ok (t : Token) : Prop :=
  ∃ a mid c, text = a ++ mid ++ c ∧ sp_start (tk_span t) = text_len a ∧ sp_end (tk_span t) = text_len a + text_len mid ∧
    piece_ok (tk_kind t, mid).

Fixpoint toks_from (lo : nat) (rest : list Token) : Prop :=
  match rest with
  | [] => lo ≤ text_len text
  | t :: rest => lo ≤ sp_start (tk_span t) ∧ tok_ok t ∧ tk_kind t ≠ KSpace ∧ toks_from (sp_end (tk_span t)) rest
  end.

(** Where the next token starts. *)
Definition frontier (rest : list Token) : nat := match rest with [] => text_len text | t :: _ => sp_start (tk_span t) end.

Lemma toks_from_frontier lo rest : toks_from lo rest → lo ≤ frontier rest.
Proof. destruct rest; cbn; [done|tauto]. Qed.

Lemma toks_from_raise lo lo' rest : toks_from lo rest → lo' ≤ frontier rest → toks_from lo' rest.
Proof. destruct rest; cbn; [done|]. intuition. Qed.

Lemma tok_ok_span t : tok_ok t → sp_start (tk_span t) < sp_end (tk_span t).
Proof. intros (a & mid & c & _ & -> & -> & Hne & _). pose proof (text_len_pos mid Hne). lia. Qed.

Lemma tok_sp_ok t : tok_ok t → sp_ok text (tk_span t).
Proof.
  intros (a & mid & c & Ht & Hs & He & _). split; [by exists a, (mid ++ c)|]. exists (a ++ mid), c. by rewrite <-app_assoc, text_len_app.
Qed.

(** The opening quote is one character. *)
Lemma tok_quote t : tok_ok t → is_string (tk_kind t) → boundary text (sp_start (tk_span t) + 1).
Proof.
  intros (a & mid & c & Ht & Hs & _ & _ & Hlex) Hk. cbn [fst snd] in Hlex.
  assert (Hmid : ∃ m, mid = 34%N :: m) by (destruct (tk_kind t); try done; destruct Hlex as [body ->]; eauto). destruct Hmid as [m ->].
  exists (a ++ [34%N]), (m ++ c). rewrite Hs, text_len_app, <-app_assoc. done.
Qed.

Lemma boundary_end : boundary text (text_len text).
Proof. exists text, []. by rewrite app_nil_r. Qed.

Lemma frontier_boundary lo rest : toks_from lo rest → boundary text (frontier rest).
Proof. destruct rest; cbn; [intros _; apply boundary_end|]. intros (_ & Hok & _). apply (tok_sp_ok _ Hok). Qed.

#[local] Hint Resolve tok_sp_ok boundary_end frontier_boundary : spans.

Lemma tok_ok_raw t : tok_ok t → ∃ mid, raw text (tk_span t) = Some mid ∧ piece_ok (tk_kind t, mid).
Proof. intros (a & mid & c & Ht & Hs & He & Hok). exists mid. unfold raw. by rewrite Ht, Hs, He, slice_app. Qed.

Lemma place_tokens a pieces b :
  text = a ++ concat (snd <$> pieces) ++ b → Forall piece_ok pieces →
  toks_from (text_len a) (solid (place (text_len a) pieces)).
Proof.
  revert a. induction pieces as [|[k t] pieces IH]; intros a Htxt Hok.
  { cbn. rewrite Htxt, text_len_app. lia. }
  apply Forall_cons in Hok as [Hk Hok]. cbn in Htxt. rewrite <-app_assoc in Htxt.
  assert (Hrest : toks_from (text_len (a ++ t)) (solid (place (text_len (a ++ t)) pieces))).
  { apply IH; [|done]. by rewrite <-app_assoc. }
  rewrite text_len_app in Hrest. cbn [place]. unfold solid. rewrite filter_cons. cbn [tk_kind]. case_decide as Hsp.
  - cbn [toks_from tk_span sp_start sp_end tk_kind]. split_and!; [done| |done|done]. by exists a, t, (concat (snd <$> pieces) ++ b).
  - eapply toks_from_raise; [exact Hrest|]. pose proof (toks_from_frontier _ _ Hrest) as Hf. unfold solid in Hf. lia.
Qed.

(** ** Steps of the parser *)
Lemma fail_rest sp m s : p_rest (fail sp m s) = p_rest s.
Proof. unfold fail. by destruct (p_error s). Qed.

Lemma fail_trailing_rest c s : p_rest (fail_trailing c s) = p_rest s.
Proof. destruct c; [apply fail_rest|done]. Qed.

(** The body of a literal, and the error a string without its closing quote is. *)
Lemma string_body_spec tok mid s :
  lexeme (tk_kind tok) mid → is_string (tk_kind tok) →
  ∃ body, string_body tok mid s = Some (body, if bool_decide (tk_kind tok = KStrOpen) then fail (tk_span tok) (lit "Unterminated string") s else s).
Proof.
  intros Hlex Hk. unfold string_body. assert (Hq : ∀ b c, slice (34%N :: b ++ c) 1 (1 + text_len b) = Some b).
  { intros b c. exact (slice_app [34%N] b c). }
  destruct (tk_kind tok); try done; cbn [lexeme] in Hlex; destruct Hlex as [body ->]; exists body;
    rewrite text_len_cons; change (len_utf8 34) with 1%nat.
  3: { pose proof (Hq body []) as Hb. rewrite app_nil_r in Hb. by rewrite Hb. }
  all: rewrite text_len_app; change (text_len [34%N]) with 1%nat;
    replace (1 + (text_len body + 1) - 1) with (1 + text_len body) by lia; by rewrite Hq.
Qed.

Lemma parse_string_total tok s :
  tok_ok tok → is_string (tk_kind tok) → ∃ v s', parse_string text tok s = Some (v, s') ∧ p_rest s' = p_rest s.
Proof.
  intros (mid & Hraw & Hne & Hlex)%tok_ok_raw Hk. unfold parse_string. rewrite Hraw. cbn [mbind option_bind].
  destruct (string_body_spec tok mid s Hlex Hk) as [body ->]. cbn [mbind option_bind].
  destruct (unescape body) as [v|]; eexists _, _; (split; [done|]); rewrite ?fail_rest; case_bool_decide; by rewrite ?fail_rest.
Qed.

Lemma parse_colon_spec s lo :
  toks_from lo (p_rest s) →
  let '(colon, s') := parse_colon text s in
  length (p_rest s') ≤ length (p_rest s) ∧
  match colon with
  | Some c => lo ≤ sp_start c ∧ sp_start c < sp_end c ∧ toks_from (sp_end c) (p_rest s')
  | None => p_rest s' = p_rest s
  end.
Proof.
  intros Ht. unfold parse_colon, peek. destruct (p_rest s) as [|t rest] eqn:E; cbn [head].
  - by rewrite fail_rest, E.
  - case_bool_decide.
    + unfold bump. cbn [p_rest]. rewrite E. cbn in Ht |- *. destruct Ht as (? & Hok & _ & ?). pose proof (tok_ok_span _ Hok). by repeat split; try lia.
    + by rewrite fail_rest, E.
Qed.

Lemma parse_comma_spec s lo :
  toks_from lo (p_rest s) →
  let '(comma, s') := parse_comma s in length (p_rest s') ≤ length (p_rest s) ∧ toks_from lo (p_rest s').
Proof.
  intros Ht. unfold parse_comma, peek. destruct (p_rest s) as [|t rest] eqn:E; cbn [head]; [by rewrite E|].
  case_bool_decide; [|by rewrite E]. unfold bump. cbn [p_rest]. rewrite E. cbn in Ht |- *. split; [lia|].
  destruct Ht as (? & Hok & _ & Ht). pose proof (tok_ok_span _ Hok). pose proof (toks_from_frontier _ _ Ht).
  eapply toks_from_raise; [exact Ht|lia].
Qed.

(** ** The parser returns *)
Definition starts_node (k : TokenKind) : bool :=
  match k with KRBrace | KRBracket | KColon | KComma | KSpace => false | _ => true end.

Definition value_ok (fuel : nat) : Prop := ∀ lo s,
  toks_from lo (p_rest s) → 2 * length (p_rest s) + 1 ≤ fuel →
  ∃ n s', value text fuel s = Some (n, s') ∧ nested text lo (frontier (p_rest s')) n ∧ toks_from lo (p_rest s') ∧
    length (p_rest s') ≤ length (p_rest s) ∧
    (∀ t, head (p_rest s) = Some t → starts_node (tk_kind t) → length (p_rest s') < length (p_rest s)).

Definition object_ok (fuel : nat) : Prop := ∀ lo open es seen first comma s,
  sp_start (tk_span open) < lo → boundary text (sp_start (tk_span open)) → toks_from lo (p_rest s) → entries_in text (sp_start (tk_span open) + 1) (frontier (p_rest s)) es →
  2 * length (p_rest s) + 2 ≤ fuel →
  ∃ n s', object text fuel open es seen first comma s = Some (n, s') ∧ nested text (sp_start (tk_span open)) (frontier (p_rest s')) n ∧
    toks_from lo (p_rest s') ∧ length (p_rest s') ≤ length (p_rest s).

Definition array_ok (fuel : nat) : Prop := ∀ lo open ns first comma s,
  sp_start (tk_span open) < lo → boundary text (sp_start (tk_span open)) → toks_from lo (p_rest s) → items_in text (sp_start (tk_span open) + 1) (frontier (p_rest s)) ns →
  2 * length (p_rest s) + 2 ≤ fuel →
  ∃ n s', array text fuel open ns first comma s = Some (n, s') ∧ nested text (sp_start (tk_span open)) (frontier (p_rest s')) n ∧
    toks_from lo (p_rest s') ∧ length (p_rest s') ≤ length (p_rest s).

(** Dropping a token keeps the rest in order. *)
Lemma toks_from_tail lo t rest : toks_from lo (t :: rest) → toks_from lo rest ∧ sp_end (tk_span t) ≤ frontier rest ∧ sp_start (tk_span t) < sp_end (tk_span t) ∧ lo ≤ sp_start (tk_span t).
Proof.
  cbn. intros (Hlo & Hok & _ & Ht). pose proof (tok_ok_span _ Hok). pose proof (toks_from_frontier _ _ Ht).
  split; [|lia]. eapply toks_from_raise; [exact Ht|lia].
Qed.

Lemma value_step fuel : object_ok fuel → array_ok fuel → value_ok (S fuel).
Proof.
  intros Hobj Harr lo s Ht Hf. cbn [value]. unfold peek. destruct (p_rest s) as [|t rest] eqn:E; cbn [head].
  { eexists _, _. split; [done|]. rewrite fail_rest, E. split_and!; [|done|done|done].
    cbn in Ht. constructor; cbn; [done|split; apply boundary_end|lia..]. }
  destruct (toks_from_tail _ _ _ Ht) as (Ht' & Hend & Hspan & Hlo). pose proof Ht as (_ & Hok & Hsp & Hafter). fold toks_from in Hafter.
  cbn [length] in Hf.
  assert (Hleaf : ∀ n s', is_container n = false → node_span n = tk_span t → p_rest s' = rest →
    nested text lo (frontier (p_rest s')) n ∧ toks_from lo (p_rest s') ∧ length (p_rest s') ≤ length (t :: rest) ∧
    (∀ t0, Some t = Some t0 → starts_node (tk_kind t0) → length (p_rest s') < length (t :: rest))).
  { intros n s' Hc Hn ->. split_and!; [|done|cbn; lia|cbn; lia]. constructor; rewrite ?Hn; [done|by apply tok_sp_ok|lia..]. }
  assert (Hstay : tk_kind t ≠ KSpace → ∀ m, starts_node (tk_kind t) = false →
    ∃ n s', Some (NMissing (span_at_offset (sp_start (tk_span t))), fail (tk_span t) m s) = Some (n, s') ∧
      nested text lo (frontier (p_rest s')) n ∧ toks_from lo (p_rest s') ∧ length (p_rest s') ≤ length (t :: rest) ∧
    (∀ t0, Some t = Some t0 → starts_node (tk_kind t0) → length (p_rest s') < length (t :: rest))).
  { intros _ m Hst. eexists _, _. split; [done|]. rewrite fail_rest, E. split_and!; [|done|done|].
    - constructor; cbn; [done|split; apply (tok_sp_ok _ Hok)|lia..].
    - intros ? [= <-]. by rewrite Hst. }
  assert (Hstr : is_string (tk_kind t) → ∃ n s', (parse_string text t (bump s) ≫= λ '(v, s0), Some (NStr (tk_span t) v, s0)) = Some (n, s') ∧
      nested text lo (frontier (p_rest s')) n ∧ toks_from lo (p_rest s') ∧ length (p_rest s') ≤ length (t :: rest) ∧
    (∀ t0, Some t = Some t0 → starts_node (tk_kind t0) → length (p_rest s') < length (t :: rest))).
  { intros Hk. destruct (parse_string_total t (bump s) Hok Hk) as (v & s' & -> & Hr). eexists _, _. split; [done|].
    apply Hleaf; [done|done|]. rewrite Hr. unfold bump. cbn. by rewrite E. }
  assert (Hbump : p_rest (bump s) = rest) by (unfold bump; cbn; by rewrite E).
  destruct (tk_kind t) eqn:Hkind; try (by apply Hstay); try (by apply Hstr); try done.
  - destruct (Hobj (sp_end (tk_span t)) t [] ∅ true None (bump s)) as (n & s' & -> & Hn & Hr & Hlen); rewrite ?Hbump; [lia|apply (tok_sp_ok _ Hok)|done|constructor; lia|lia|].
    exists n, s'. rewrite Hbump in Hlen. split_and!; [done|by eapply nested_lower|eapply toks_from_raise; [done|]|cbn; lia|cbn; lia].
    pose proof (toks_from_frontier _ _ Hr). lia.
  - destruct (Harr (sp_end (tk_span t)) t [] true None (bump s)) as (n & s' & -> & Hn & Hr & Hlen); rewrite ?Hbump; [lia|apply (tok_sp_ok _ Hok)|done|constructor; lia|lia|].
    exists n, s'. rewrite Hbump in Hlen. split_and!; [done|by eapply nested_lower|eapply toks_from_raise; [done|]|cbn; lia|cbn; lia].
    pose proof (toks_from_frontier _ _ Hr). lia.
  - destruct (tok_ok_raw _ Hok) as (mid & -> & _). cbn [mbind option_bind]. destruct (number mid) as [[v whole]|]; eexists _, _; (split; [done|]); apply Hleaf; rewrite ?fail_rest; done.
  - destruct (tok_ok_raw _ Hok) as (mid & -> & _). cbn [mbind option_bind]. eexists _, _; (split; [done|]); by apply Hleaf.
  - eexists _, _; (split; [done|]); by apply Hleaf.
  - eexists _, _; (split; [done|]); apply Hleaf; rewrite ?fail_rest; done.
Qed.

Lemma bump_rest s t rest : p_rest s = t :: rest → p_rest (bump s) = rest.
Proof. intros E. unfold bump. cbn. by rewrite E. Qed.

(** The value after a key, with or without a colon. *)
Lemma entry_value fuel lo colon s :
  value_ok fuel → toks_from lo (p_rest s) → 2 * length (p_rest s) + 1 ≤ fuel →
  ∃ n s', (if bool_decide (is_Some (colon : option Span)) || match peek s with Some t => starts_value (tk_kind t) | None => false end
           then value text fuel s else Some (NMissing (span_at_offset (sp_start (here text s))), s)) = Some (n, s') ∧
    nested text lo (frontier (p_rest s')) n ∧ toks_from lo (p_rest s') ∧ length (p_rest s') ≤ length (p_rest s).
Proof.
  intros Hv Ht Hf. destruct (_ || _).
  - destruct (Hv lo s Ht Hf) as (n & s' & -> & Hn & Hr & Hlen & _). by exists n, s'.
  - eexists _, _. split; [done|]. split_and!; [|done|done]. pose proof (toks_from_frontier _ _ Ht) as Hfr.
    assert (Hh : sp_start (here text s) = frontier (p_rest s)) by (unfold here, peek; by destruct (p_rest s)).
    constructor; cbn; rewrite ?Hh; [done|split; cbn; rewrite ?Hh; eauto with spans|lia..].
Qed.

Lemma object_step fuel : value_ok fuel → object_ok fuel → object_ok (S fuel).
Proof.
  intros Hval Hobj lo open es seen first comma s Hopen Hob Ht Hes Hf. cbn [object]. unfold peek at 1.
  destruct (p_rest s) as [|t rest] eqn:E; cbn [head].
  { eexists _, _. split; [done|]. rewrite fail_rest, E. split_and!; [|done|done]. constructor; [split; [done|apply boundary_end]|done..]. }
  destruct (toks_from_tail _ _ _ Ht) as (Ht' & Hend & Hspan & Hlo). pose proof Ht as (_ & Hok & _ & Hafter). fold toks_from in Hafter.
  cbn [length frontier] in *. case_bool_decide as Hclose.
  { eexists _, _. split; [done|]. rewrite (bump_rest _ t rest) by by rewrite fail_trailing_rest.
    split_and!; [|done|lia]. constructor; cbn; [split; [done|apply (tok_sp_ok _ Hok)]|lia|done|]. eapply entries_mono; [done|lia]. }
  destruct (is_string (tk_kind t)) eqn:Hk.
  - set (s0 := if negb first && _ then _ else s). assert (Es0 : p_rest s0 = t :: rest) by (subst s0; destruct (negb first && _); by rewrite ?fail_rest).
    destruct (parse_string_total t (bump s0) Hok ltac:(by rewrite Hk)) as (key & s1 & -> & Es1). rewrite (bump_rest _ _ _ Es0) in Es1.
    cbn [mbind option_bind]. set (s2 := if bool_decide (key ∈ seen) then _ else s1).
    assert (Es2 : p_rest s2 = rest) by (subst s2; case_bool_decide; by rewrite ?fail_rest).
    assert (Ht2 : toks_from (sp_end (tk_span t)) (p_rest s2)) by by rewrite Es2.
    pose proof (parse_colon_spec s2 _ Ht2) as Hcolon. destruct (parse_colon text s2) as [colon s3].
    destruct Hcolon as [Hlen3 Hcolon]. rewrite Es2 in Hlen3.
    set (mid := match colon with Some c => sp_end c | None => sp_end (tk_span t) end).
    assert (Ht3 : toks_from mid (p_rest s3)).
    { subst mid. destruct colon; [tauto|]. by rewrite Hcolon. }
    destruct (entry_value fuel mid colon s3 Hval Ht3 ltac:(lia)) as (v & s4 & -> & Hv & Ht4 & Hlen4). cbn [mbind option_bind].
    assert (Hmid : lo ≤ mid) by (subst mid; destruct colon; lia).
    assert (Ht4' : toks_from lo (p_rest s4)).
    { eapply toks_from_raise; [exact Ht4|]. pose proof (toks_from_frontier _ _ Ht4). lia. }
    pose proof (toks_from_frontier _ _ Ht4) as Hfr4.
    pose proof (parse_comma_spec s4 _ Ht4') as Hcomma. pose proof (parse_comma_spec s4 (frontier (p_rest s4))) as Hcomma'.
    destruct (parse_comma s4) as [comma' s5]. destruct Hcomma as [Hlen5 Ht5].
    destruct Hcomma' as [_ Ht5']; [eapply toks_from_raise; [exact Ht4|done]|]. pose proof (toks_from_frontier _ _ Ht5') as Hfr5.
    destruct (Hobj lo open (es ++ [MkEntry key (tk_span t) colon v]) ({[key]} ∪ seen) false comma' s5)
      as (n & s' & -> & Hn & Hr & Hlen); [done|done|done| |lia|].
    { eapply entries_snoc with (mid := mid); [done|by apply tok_sp_ok|by apply tok_quote; rewrite ?Hk|done| |eapply nested_mono; [done|lia]]. subst mid. destruct colon; [lia|done]. }
    exists n, s'. split_and!; [done|done|done|lia].
  - set (s0 := fail _ _ s). assert (Es0 : p_rest (bump s0) = rest) by (eapply bump_rest; subst s0; by rewrite fail_rest).
    destruct (Hobj lo open es seen first comma (bump s0)) as (n & s' & -> & Hn & Hr & Hlen); rewrite ?Es0; [done|done|done|eapply entries_mono; [done|lia]|lia|].
    exists n, s'. rewrite Es0 in Hlen. split_and!; [done|done|done|lia].
Qed.

Lemma array_step fuel : value_ok fuel → array_ok fuel → array_ok (S fuel).
Proof.
  intros Hval Harr lo open ns first comma s Hopen Hob Ht Hns Hf. cbn [array]. unfold peek at 1.
  destruct (p_rest s) as [|t rest] eqn:E; cbn [head].
  { eexists _, _. split; [done|]. rewrite fail_rest, E. split_and!; [|done|done]. constructor; [split; [done|apply boundary_end]|done..]. }
  destruct (toks_from_tail _ _ _ Ht) as (Ht' & Hend & Hspan & Hlo). pose proof Ht as (_ & Hok & Hsp & _).
  cbn [length frontier] in *.
  assert (Hskip : ∀ m, ∃ n s', array text fuel open ns first comma (bump (fail (tk_span t) m s)) = Some (n, s') ∧
    nested text (sp_start (tk_span open)) (frontier (p_rest s')) n ∧ toks_from lo (p_rest s') ∧ length (p_rest s') ≤ S (length rest)).
  { intros m. set (s0 := fail _ _ s). assert (Es0 : p_rest (bump s0) = rest) by (eapply bump_rest; subst s0; by rewrite fail_rest).
    destruct (Harr lo open ns first comma (bump s0)) as (n & s' & -> & Hn & Hr & Hlen); rewrite ?Es0; [done|done|done|eapply items_mono; [done|lia]|lia|].
    exists n, s'. rewrite Es0 in Hlen. split_and!; [done|done|done|lia]. }
  assert (Hitem : starts_node (tk_kind t) → ∃ n s',
    (let s0 := if negb first && bool_decide (comma = None) then fail (tk_span t) (lit "Expected ',' or ']'") s else s in
     '(item, s1) ← value text fuel s0; let '(comma', s2) := parse_comma s1 in array text fuel open (ns ++ [item]) false comma' s2) = Some (n, s') ∧
    nested text (sp_start (tk_span open)) (frontier (p_rest s')) n ∧ toks_from lo (p_rest s') ∧ length (p_rest s') ≤ S (length rest)).
  { intros Hst. cbv zeta. set (s0 := if negb first && _ then _ else s).
    assert (Es0 : p_rest s0 = t :: rest) by (subst s0; destruct (negb first && _); by rewrite ?fail_rest).
    assert (Ht0 : toks_from (sp_start (tk_span t)) (p_rest s0)) by (rewrite Es0; eapply toks_from_raise; [exact Ht|done]).
    destruct (Hval _ s0 Ht0) as (v & s1 & -> & Hv & Ht1 & Hlen1 & Hlt1); [rewrite Es0; cbn; lia|].
    rewrite Es0 in Hlt1, Hlen1. specialize (Hlt1 t eq_refl Hst). cbn [length] in *. cbn [mbind option_bind].
    pose proof (toks_from_frontier _ _ Ht1) as Hfr1.
    assert (Htf : toks_from (frontier (p_rest s1)) (p_rest s1)) by (eapply toks_from_raise; [exact Ht1|done]).
    pose proof (parse_comma_spec s1 _ Htf) as Hcomma. destruct (parse_comma s1) as [comma' s2].
    destruct Hcomma as [Hlen2 Ht2]. pose proof (toks_from_frontier _ _ Ht2) as Hfr2.
    destruct (Harr lo open (ns ++ [v]) false comma' s2) as (n & s' & -> & Hn & Hr & Hlen); [done|done| | |lia|].
    { eapply toks_from_raise; [exact Ht2|lia]. }
    { eapply items_snoc; [exact Hns|]. eapply nested_mono; [done|lia]. }
    exists n, s'. split_and!; [done|done|done|lia]. }
  destruct (tk_kind t) eqn:Hkind; try (by apply Hskip); try (by apply Hitem); try done.
  eexists _, _. split; [done|]. rewrite (bump_rest _ t rest) by by rewrite fail_trailing_rest.
  split_and!; [|done|lia]. constructor; cbn; [split; [done|apply (tok_sp_ok _ Hok)]|lia|done|]. eapply items_mono; [done|lia].
Qed.

Lemma parser_ok fuel : value_ok fuel ∧ object_ok fuel ∧ array_ok fuel.
Proof.
  induction fuel as [|fuel (Hv & Ho & Ha)]; [split_and!; intros ? **; lia|].
  split_and!; [by apply value_step|by apply object_step|by apply array_step].
Qed.
End parser.

Lemma parse_nested text :
  ∃ p, parse text = Some p ∧
    match pr_root p with
    | None => Forall is_space text ∧ pr_error p = None
    | Some root => nested text 0 (text_len text) root
    end.
Proof.
  destruct (tokenize_pieces text) as (pieces & Htok & Htxt & Hok & _). unfold parse. rewrite Htok. cbn [mbind option_bind fmap option_fmap option_map].
  pose proof (place_tokens text [] pieces [] ltac:(by rewrite app_nil_r) Hok) as Hfrom. change (text_len []) with 0 in Hfrom.
  destruct (solid (place 0 pieces)) as [|t rest] eqn:E.
  - eexists. split; [done|]. cbn. split; [|done]. rewrite Htxt. clear Htxt Htok Hfrom. revert E. generalize 0.
    induction pieces as [|[k t] pieces IH]; intros i E; [done|]. apply Forall_cons in Hok as [[_ Hk] Hok]. cbn [place] in E. unfold solid in E.
    rewrite filter_cons in E. case_decide as Hsp; [done|]. cbn [tk_kind] in Hsp. subst k.
    cbn. apply Forall_app. split; [done|]. by eapply IH.
  - destruct (parser_ok text (parse_fuel (t :: rest))) as (Hv & _ & _).
    destruct (Hv 0 {| p_rest := t :: rest; p_error := None |}) as (n & s' & -> & Hn & Ht & _ & _); [done|cbn; unfold parse_fuel; cbn; lia|].
    cbn [mbind option_bind]. eexists. split; [done|]. cbn [pr_root]. eapply nested_mono; [done|].
    destruct (p_rest s') as [|t' rest']; cbn; [done|]. cbn in Ht. destruct Ht as (_ & (a & mid & c & -> & -> & _) & _).
    rewrite text_len_app. lia.
Qed.

(** Parsing any text returns, without a slice inside a character: blank text has no tree and
    no error; other text has a tree inside the text, however broken, in which the parts of every
    container are in order, do not overlap and lie between its brackets. *)
Theorem parse_total text :
  ∃ p, parse text = Some p ∧
    match pr_root p with
    | None => Forall is_space text ∧ pr_error p = None
    | Some root => nested text 0 (text_len text) root
    end.
Proof. apply parse_nested. Qed.
