(* ===== verification/JsonGrammar.v ===== *)
(** * The parser of the config editor accepts exactly JSON

    A grammar over the tokens of a text; the parser reports no error exactly on blank text and on
    what the grammar derives, and returns the derived tree. *)

From S2P Require Import Prelude JsonText JsonParse JsonTokens JsonTree.

Section grammar.
Context (text : Text).

(** A closed string literal and its value, from the text between its quotes. *)
Definition literal (t : Token) (v : Text) : Prop :=
  (tk_kind t = KKey ∨ tk_kind t = KStr) ∧
  ∃ r body, raw text (tk_span t) = Some r ∧ slice r 1 (text_len r - 1) = Some body ∧ unescape body = Some v.

Definition between (open close : Token) : Span := {| sp_start := sp_start (tk_span open); sp_end := sp_end (tk_span close) |}.

Inductive json : list Token → Node → Prop :=
| json_str t v : literal t v → json [t] (NStr (tk_span t) v)
| json_num t r v whole : tk_kind t = KNum → raw text (tk_span t) = Some r → number r = Some (v, whole) → json [t] (NNum (tk_span t) v whole)
| json_bool t r : tk_kind t = KBool → raw text (tk_span t) = Some r → json [t] (NBool (tk_span t) (bool_decide (r = lit "true")))
| json_null t : tk_kind t = KNull → json [t] (NNull (tk_span t))
| json_object_empty open close :
    tk_kind open = KLBrace → tk_kind close = KRBrace → json [open; close] (NObject (between open close) [] true)
| json_object open close ts es :
    tk_kind open = KLBrace → tk_kind close = KRBrace → members ts es → NoDup (e_key <$> es) →
    json (open :: ts ++ [close]) (NObject (between open close) es true)
| json_array_empty open close :
    tk_kind open = KLBracket → tk_kind close = KRBracket → json [open; close] (NArray (between open close) [] true)
| json_array open close ts ns :
    tk_kind open = KLBracket → tk_kind close = KRBracket → elements ts ns →
    json (open :: ts ++ [close]) (NArray (between open close) ns true)
with members : list Token → list Entry → Prop :=
| members_last k c ts key v :
    literal k key → tk_kind c = KColon → json ts v → members (k :: c :: ts) [MkEntry key (tk_span k) (Some (tk_span c)) v]
| members_more k c ts key v comma ts' es :
    literal k key → tk_kind c = KColon → json ts v → tk_kind comma = KComma → members ts' es →
    members (k :: c :: ts ++ comma :: ts') (MkEntry key (tk_span k) (Some (tk_span c)) v :: es)
with elements : list Token → list Node → Prop :=
| elements_last ts n : json ts n → elements ts [n]
| elements_more ts n comma ts' ns : json ts n → tk_kind comma = KComma → elements ts' ns → elements (ts ++ comma :: ts') (n :: ns).

Scheme json_mind := Minimality for json Sort Prop
  with members_mind := Minimality for members Sort Prop
  with elements_mind := Minimality for elements Sort Prop.
Combined Scheme json_mutind from json_mind, members_mind, elements_mind.

(** ** No error means the grammar derives it *)
Lemma fail_error sp m s : p_error (fail sp m s) ≠ None.
Proof. unfold fail. destruct (p_error s) eqn:E; cbn; [by rewrite E|done]. Qed.

Lemma fail_trailing_error c s : p_error (fail_trailing c s) = None → c = None ∧ p_error s = None.
Proof. destruct c; cbn; [|done]. intros H. by apply fail_error in H. Qed.

Lemma parse_string_sound t s v s' :
  is_string (tk_kind t) → parse_string text t s = Some (v, s') → p_error s' = None → s' = s ∧ literal t v.
Proof.
  intros Hk Hp He. unfold parse_string in Hp. destruct (raw text (tk_span t)) as [r|] eqn:Hraw; [|done]. cbn [mbind option_bind] in Hp.
  unfold string_body in Hp. case_bool_decide as Hopen.
  { destruct (slice r 1 _) as [b|]; [|done]. cbn in Hp. destruct (unescape b); injection Hp as <- <-; by apply fail_error in He. }
  destruct (slice r 1 _) as [b|] eqn:Hs; [|done]. cbn in Hp. destruct (unescape b) as [v'|] eqn:Hu; injection Hp as <- <-; [|by apply fail_error in He].
  split; [done|]. split; [destruct (tk_kind t); try done; auto|]. by exists r, b.
Qed.

Lemma parse_colon_sound s colon s' :
  parse_colon text s = (colon, s') → p_error s' = None →
  ∃ c, colon = Some (tk_span c) ∧ tk_kind c = KColon ∧ p_rest s = c :: p_rest s' ∧ p_error s = None.
Proof.
  unfold parse_colon, peek. destruct (p_rest s) as [|t rest] eqn:E; cbn [head].
  - intros [= <- <-] H. by apply fail_error in H.
  - case_bool_decide; intros [= <- <-] H'; [|by apply fail_error in H']. exists t. unfold bump. cbn in *. by rewrite E.
Qed.

Lemma parse_comma_sound s comma s' :
  parse_comma s = (comma, s') →
  p_error s' = p_error s ∧
  (comma = None ∧ s' = s ∨ ∃ c, comma = Some (tk_span c) ∧ tk_kind c = KComma ∧ p_rest s = c :: p_rest s').
Proof.
  unfold parse_comma, peek. destruct (p_rest s) as [|t rest] eqn:E; cbn [head]; [intros [= <- <-]; auto|].
  case_bool_decide; intros [= <- <-]; [|auto]. split; [done|]. right. exists t. unfold bump. cbn. by rewrite E.
Qed.

(** What may follow in a container: [first] before the first part, [comma] the comma just read. *)
Definition tail_ok {A} (parts : list Token → list A → Prop) (first : bool) (comma : option Span) (ts : list Token) (l : list A) : Prop :=
  match comma with
  | Some _ => parts ts l
  | None => ts = [] ∧ l = [] ∨ first = true ∧ parts ts l
  end.

Definition value_sound (fuel : nat) : Prop := ∀ s n s',
  value text fuel s = Some (n, s') → p_error s' = None →
  p_error s = None ∧ ∃ ts, p_rest s = ts ++ p_rest s' ∧ json ts n.

Definition object_sound (fuel : nat) : Prop := ∀ open es seen first comma s n s',
  object text fuel open es seen first comma s = Some (n, s') → p_error s' = None →
  p_error s = None ∧ ∃ ts close es', p_rest s = ts ++ close :: p_rest s' ∧ tk_kind close = KRBrace ∧
    n = NObject (between open close) (es ++ es') true ∧ tail_ok members first comma ts es' ∧
    NoDup (e_key <$> es') ∧ (∀ k, k ∈ e_key <$> es' → k ∉ seen).

Definition array_sound (fuel : nat) : Prop := ∀ open ns first comma s n s',
  array text fuel open ns first comma s = Some (n, s') → p_error s' = None →
  p_error s = None ∧ ∃ ts close ns', p_rest s = ts ++ close :: p_rest s' ∧ tk_kind close = KRBracket ∧
    n = NArray (between open close) (ns ++ ns') true ∧ tail_ok elements first comma ts ns'.

Lemma value_sound_step fuel : object_sound fuel → array_sound fuel → value_sound (S fuel).
Proof.
  intros Hobj Harr s n s' Hv He. cbn [value] in Hv. unfold peek in Hv.
  destruct (p_rest s) as [|t rest] eqn:E; cbn [head] in Hv; [injection Hv as <- <-; by apply fail_error in He|].
  assert (Hb : p_rest (bump s) = rest) by by eapply bump_rest.
  assert (Hstr : is_string (tk_kind t) → (parse_string text t (bump s) ≫= λ '(v, s0), Some (NStr (tk_span t) v, s0)) = Some (n, s') →
    p_error s = None ∧ ∃ ts, t :: rest = ts ++ p_rest s' ∧ json ts n).
  { intros Hk Hp. destruct (parse_string text t (bump s)) as [[v s1]|] eqn:Hps; [|done]. injection Hp as <- <-.
    destruct (parse_string_sound _ _ _ _ Hk Hps He) as [-> Hl]. split; [done|]. exists [t]. rewrite Hb. split; [done|by constructor]. }
  destruct (tk_kind t) eqn:Hk; try (by apply Hstr); try (injection Hv as <- <-; by apply fail_error in He).
  - edestruct Hobj as (He' & ts & close & es' & Hr & Hc & -> & Htail & Hnd & _); [exact Hv|done|]. split; [done|].
    exists (t :: ts ++ [close]). rewrite Hb in Hr. rewrite Hr. cbn [app]. rewrite <-app_assoc. split; [done|].
    cbn in Htail. destruct Htail as [[-> ->]|[_ Hm]]; by constructor.
  - edestruct Harr as (He' & ts & close & ns' & Hr & Hc & -> & Htail); [exact Hv|done|]. split; [done|].
    exists (t :: ts ++ [close]). rewrite Hb in Hr. rewrite Hr. cbn [app]. rewrite <-app_assoc. split; [done|].
    cbn in Htail. destruct Htail as [[-> ->]|[_ Hm]]; by constructor.
  - destruct (raw text (tk_span t)) as [r|] eqn:Hr; [|done]. cbn [mbind option_bind] in Hv.
    destruct (number r) as [[v whole]|] eqn:Hn; injection Hv as <- <-; [|by apply fail_error in He].
    split; [done|]. exists [t]. rewrite Hb. split; [done|by econstructor].
  - destruct (raw text (tk_span t)) as [r|] eqn:Hr; [|done]. cbn [mbind option_bind] in Hv. injection Hv as <- <-.
    split; [done|]. exists [t]. rewrite Hb. split; [done|by econstructor].
  - injection Hv as <- <-. split; [done|]. exists [t]. rewrite Hb. split; [done|by constructor].
Qed.

Lemma object_sound_step fuel : value_sound fuel → object_sound fuel → object_sound (S fuel).
Proof.
  intros Hval Hobj open es seen first comma s n s' Ho He. cbn [object] in Ho. unfold peek at 1 in Ho.
  destruct (p_rest s) as [|t rest] eqn:E; cbn [head] in Ho; [injection Ho as <- <-; by apply fail_error in He|].
  case_bool_decide as Hclose.
  { injection Ho as <- <-. unfold bump in He. cbn in He. apply fail_trailing_error in He as [-> He]. split; [done|].
    exists [], t, []. rewrite app_nil_r. unfold bump. cbn [p_rest fail_trailing]. rewrite E. cbn.
    split_and!; [done|done|done|by left|constructor|]. by intros k Hk%not_elem_of_nil. }
  destruct (is_string (tk_kind t)) eqn:Hk.
  - set (s0 := if negb first && _ then _ else s) in Ho.
    destruct (parse_string text t (bump s0)) as [[key s1]|] eqn:Hps; [|done]. cbn [mbind option_bind] in Ho.
    set (s2 := if bool_decide (key ∈ seen) then _ else s1) in Ho.
    destruct (parse_colon text s2) as [colon s3] eqn:Hcol.
    match type of Ho with (?x ≫= _) = _ => destruct x as [[v s4]|] eqn:Hv; [|done] end. cbn [mbind option_bind] in Ho.
    destruct (parse_comma s4) as [comma' s5] eqn:Hcom. destruct (parse_comma_sound _ _ _ Hcom) as [He45 Hcomma].
    destruct (Hobj _ _ _ _ _ _ _ _ Ho He) as (He5 & ts & close & es' & Hr5 & Hclosek & -> & Htail & Hnd & Hseen).
    rewrite He45 in He5.
    assert (He3 : p_error s3 = None ∧ (colon ≠ None → ∃ tv, p_rest s3 = tv ++ p_rest s4 ∧ json tv v)).
    { destruct (_ || _) eqn:Hor; [|by injection Hv as <- <-; split; [done|]; intros Hc; destruct colon; [done|]].
      destruct (Hval _ _ _ Hv He5) as [? ?]. done. }
    destruct He3 as [He3 Htv].
    destruct (parse_colon_sound _ _ _ Hcol He3) as (c & -> & Hck & Hr2 & He2). destruct Htv as (tv & Hr3 & Hjson); [done|].
    assert (Hs2 : s2 = s1 ∧ key ∉ seen) by (subst s2; case_bool_decide; [by apply fail_error in He2|done]). destruct Hs2 as [Hs2 Hkey]. rewrite Hs2 in *.
    destruct (parse_string_sound _ _ _ _ ltac:(by rewrite Hk) Hps He2) as [-> Hlit].
    assert (Hs0 : s0 = s ∧ (first = true ∨ comma ≠ None)).
    { subst s0. destruct first; cbn [negb andb] in *; [auto|]. case_bool_decide; [by apply fail_error in He2|auto]. }
    destruct Hs0 as [Hs0 Hfirst]. rewrite Hs0 in *. split; [done|]. unfold bump in Hr2. cbn in Hr2. rewrite E in Hr2. cbn in Hr2.
    assert (Hmem : ∃ ts0 es0, rest = c :: tv ++ ts0 ++ close :: p_rest s' ∧ members (t :: c :: tv ++ ts0) (MkEntry key (tk_span t) (Some (tk_span c)) v :: es0) ∧ es0 = es').
    { destruct Hcomma as [[-> ->]|(cm & -> & Hcm & Hr4)].
      - destruct Htail as [[-> ->]|[? _]]; [|done]. exists [], []. split_and!; [|rewrite app_nil_r; by constructor|done].
        by rewrite Hr2, Hr3, Hr5.
      - exists (cm :: ts), es'. split_and!; [|by constructor|done]. by rewrite Hr2, Hr3, Hr4, Hr5. }
    destruct Hmem as (ts0 & es0 & -> & Hmem & ->).
    exists (t :: c :: tv ++ ts0), close, (MkEntry key (tk_span t) (Some (tk_span c)) v :: es'). rewrite <-app_assoc. cbn [app].
    split_and!; [by rewrite app_assoc|done|done| | |].
    + destruct comma; [done|]. right. split; [|done]. by destruct Hfirst.
    + cbn. constructor; [|done]. intros Hin. apply (Hseen _ Hin). set_solver.
    + cbn. intros k [->|Hin]%elem_of_cons; [done|]. specialize (Hseen _ Hin). set_solver.
  - destruct (Hobj _ _ _ _ _ _ _ _ Ho He) as (He' & _). unfold bump in He'. cbn in He'. by apply fail_error in He'.
Qed.

Lemma array_sound_step fuel : value_sound fuel → array_sound fuel → array_sound (S fuel).
Proof.
  intros Hval Harr open ns first comma s n s' Ha He. cbn [array] in Ha. unfold peek at 1 in Ha.
  destruct (p_rest s) as [|t rest] eqn:E; cbn [head] in Ha; [injection Ha as <- <-; by apply fail_error in He|].
  assert (Hskip : ∀ m, array text fuel open ns first comma (bump (fail (tk_span t) m s)) ≠ Some (n, s')).
  { intros m Ha'. destruct (Harr _ _ _ _ _ _ _ Ha' He) as (He' & _). unfold bump in He'. cbn in He'. by apply fail_error in He'. }
  assert (Hitem : (let s0 := if negb first && bool_decide (comma = None) then fail (tk_span t) (lit "Expected ',' or ']'") s else s in
     '(item, s1) ← value text fuel s0; let '(comma', s2) := parse_comma s1 in array text fuel open (ns ++ [item]) false comma' s2) = Some (n, s') →
    p_error s = None ∧ ∃ ts close ns', t :: rest = ts ++ close :: p_rest s' ∧ tk_kind close = KRBracket ∧
      n = NArray (between open close) (ns ++ ns') true ∧ tail_ok elements first comma ts ns').
  { cbv zeta. set (s0 := if negb first && _ then _ else s). destruct (value text fuel s0) as [[v s1]|] eqn:Hv; [|done]. cbn [mbind option_bind].
    destruct (parse_comma s1) as [comma' s2] eqn:Hcom. intros Ha'. destruct (parse_comma_sound _ _ _ Hcom) as [He12 Hcomma].
    destruct (Harr _ _ _ _ _ _ _ Ha' He) as (He2 & ts & close & ns' & Hr2 & Hclosek & -> & Htail). rewrite He12 in He2.
    destruct (Hval _ _ _ Hv He2) as (He0 & tv & Hr0 & Hjson).
    assert (Hs0 : s0 = s ∧ (first = true ∨ comma ≠ None)).
    { subst s0. destruct first; cbn [negb andb] in *; [auto|]. case_bool_decide; [by apply fail_error in He0|auto]. }
    destruct Hs0 as [Hs0 Hfirst]. rewrite Hs0, E in *. split; [done|].
    assert (Hel : ∃ ts0, t :: rest = (tv ++ ts0) ++ close :: p_rest s' ∧ elements (tv ++ ts0) (v :: ns')).
    { destruct Hcomma as [[-> ->]|(cm & -> & Hcm & Hr1)].
      - destruct Htail as [[-> ->]|[? _]]; [|done]. exists []. rewrite app_nil_r. split; [by rewrite Hr0, Hr2|by constructor].
      - exists (cm :: ts). split; [by rewrite Hr0, Hr1, Hr2, <-app_assoc|by constructor]. }
    destruct Hel as (ts0 & Hr & Hel). exists (tv ++ ts0), close, (v :: ns'). split_and!; [done|done|by rewrite <-app_assoc|].
    destruct comma; [done|]. right. split; [|done]. by destruct Hfirst. }
  destruct (tk_kind t) eqn:Hk; try (by apply Hitem in Ha); try (by apply Hskip in Ha).
  injection Ha as <- <-. unfold bump in He. cbn in He. apply fail_trailing_error in He as [-> He]. split; [done|].
  exists [], t, []. rewrite app_nil_r. unfold bump. cbn [p_rest fail_trailing]. rewrite E. cbn. split_and!; [done|done|done|by left].
Qed.

Lemma parser_sound fuel : value_sound fuel ∧ object_sound fuel ∧ array_sound fuel.
Proof.
  induction fuel as [|fuel (Hv & Ho & Ha)]; [done|].
  split_and!; [by apply value_sound_step|by apply object_sound_step|by apply array_sound_step].
Qed.

(** ** What the grammar derives is parsed without error *)
#[local] Abbreviation at_rest r := {| p_rest := r; p_error := None |}.

Lemma parse_string_complete t v s : literal t v → is_string (tk_kind t) ∧ parse_string text t s = Some (v, s).
Proof.
  intros [Hk (r & body & Hr & Hs & Hu)]. split; [by destruct Hk as [-> | ->]|]. unfold parse_string. rewrite Hr. cbn [mbind option_bind].
  unfold string_body. rewrite bool_decide_false by (by destruct Hk as [-> | ->]). rewrite Hs. cbn. by rewrite Hu.
Qed.

Lemma object_close fuel open es seen first close rest :
  tk_kind close = KRBrace →
  object text (S fuel) open es seen first None (at_rest (close :: rest)) = Some (NObject (between open close) es true, at_rest rest).
Proof. intros Hk. cbn [object peek head p_rest]. by rewrite bool_decide_true. Qed.

Lemma array_close fuel open ns first close rest :
  tk_kind close = KRBracket →
  array text (S fuel) open ns first None (at_rest (close :: rest)) = Some (NArray (between open close) ns true, at_rest rest).
Proof. intros Hk. cbn [array peek head p_rest]. by rewrite Hk. Qed.

(** One entry of an object, up to its comma. *)
Lemma object_entry fuel open es seen first comma k c ts key v rest :
  literal k key → tk_kind c = KColon → value text fuel (at_rest (ts ++ rest)) = Some (v, at_rest rest) →
  first = true ∨ comma ≠ None → key ∉ seen →
  object text (S fuel) open es seen first comma (at_rest (k :: c :: ts ++ rest)) =
    let '(comma', s) := parse_comma (at_rest rest) in
    object text fuel open (es ++ [MkEntry key (tk_span k) (Some (tk_span c)) v]) ({[key]} ∪ seen) false comma' s.
Proof.
  intros Hlit Hc Hv Hfirst Hkey. cbn [object peek head p_rest].
  rewrite bool_decide_false by (by destruct Hlit as [[-> | ->] _]).
  destruct (parse_string_complete k key (at_rest (c :: ts ++ rest)) Hlit) as [Hs Hp]. rewrite Is_true_true in Hs. rewrite Hs.
  replace (negb first && bool_decide (comma = None)) with false by (destruct Hfirst as [-> |]; [done|rewrite bool_decide_false by done; by rewrite andb_false_r]).
  change (bump (at_rest (k :: c :: ts ++ rest))) with (at_rest (c :: ts ++ rest)). rewrite Hp. cbn [mbind option_bind].
  rewrite (bool_decide_false (key ∈ seen)) by done. unfold parse_colon. cbn [peek head p_rest]. rewrite bool_decide_true by done.
  change (bump (at_rest (c :: ts ++ rest))) with (at_rest (ts ++ rest)). rewrite bool_decide_true by by eexists.
  cbn [orb]. by rewrite Hv.
Qed.

(** One item of an array, up to its comma. *)
Lemma array_item fuel open ns first comma ts n rest :
  json ts n → value text fuel (at_rest (ts ++ rest)) = Some (n, at_rest rest) → first = true ∨ comma ≠ None →
  array text (S fuel) open ns first comma (at_rest (ts ++ rest)) =
    let '(comma', s) := parse_comma (at_rest rest) in array text fuel open (ns ++ [n]) false comma' s.
Proof.
  intros Hj Hv Hfirst. assert (Hhead : ∃ t ts', ts = t :: ts' ∧ starts_node (tk_kind t)).
  { destruct Hj as [t v [[H|H] _]|t r v w H|t r H|t H|open' close H|open' close ts es H|open' close H|open' close ts es H]; eexists _, _; (split; [done|]); by rewrite H. }
  destruct Hhead as (t & ts' & -> & Hst). cbn [array peek head p_rest app] in *.
  assert (Hno : negb first && bool_decide (comma = None) = false) by (destruct Hfirst as [-> |]; [done|rewrite bool_decide_false by done; by rewrite andb_false_r]).
  destruct (tk_kind t); try done; rewrite Hno, Hv; done.
Qed.

Lemma parser_complete :
  (∀ ts n, json ts n → ∀ fuel rest, 2 * length ts + 1 ≤ fuel → value text fuel (at_rest (ts ++ rest)) = Some (n, at_rest rest)) ∧
  (∀ ts es', members ts es' → ∀ fuel open es seen first comma close rest,
    first = true ∨ comma ≠ None → tk_kind close = KRBrace → NoDup (e_key <$> es') → (∀ k, k ∈ e_key <$> es' → k ∉ seen) →
    2 * length ts + 4 ≤ fuel →
    object text fuel open es seen first comma (at_rest (ts ++ close :: rest)) = Some (NObject (between open close) (es ++ es') true, at_rest rest)) ∧
  (∀ ts ns', elements ts ns' → ∀ fuel open ns first comma close rest,
    first = true ∨ comma ≠ None → tk_kind close = KRBracket → 2 * length ts + 4 ≤ fuel →
    array text fuel open ns first comma (at_rest (ts ++ close :: rest)) = Some (NArray (between open close) (ns ++ ns') true, at_rest rest)).
Proof.
  apply json_mutind.
  - intros t v Hlit fuel rest Hf. destruct fuel as [|fuel]; [lia|]. cbn [value peek head p_rest app].
    destruct (parse_string_complete t v (at_rest rest) Hlit) as [_ Hp].
    destruct Hlit as [[-> | ->] _]; change (bump _) with (at_rest rest); by rewrite Hp.
  - intros t r v w Hk Hr Hn fuel rest Hf. destruct fuel as [|fuel]; [lia|]. cbn [value peek head p_rest app]. rewrite Hk, Hr. cbn. by rewrite Hn.
  - intros t r Hk Hr fuel rest Hf. destruct fuel as [|fuel]; [lia|]. cbn [value peek head p_rest app]. by rewrite Hk, Hr.
  - intros t Hk fuel rest Hf. destruct fuel as [|fuel]; [lia|]. cbn [value peek head p_rest app]. by rewrite Hk.
  - intros open close Ho Hc fuel rest Hf. destruct fuel as [|[|fuel]]; [cbn in Hf; lia..|]. cbn [value peek head p_rest app].
    rewrite Ho. by apply object_close.
  - intros open close ts es Ho Hc _ IH Hnd fuel rest Hf. destruct fuel as [|fuel]; [lia|]. cbn [length] in Hf. rewrite length_app in Hf. cbn [length] in Hf.
    cbn [value peek head p_rest app]. rewrite Ho. rewrite <-app_assoc. change (bump _) with (at_rest (ts ++ [close] ++ rest)).
    apply IH; [by left|done|done|set_solver|lia].
  - intros open close Ho Hc fuel rest Hf. destruct fuel as [|[|fuel]]; [cbn in Hf; lia..|]. cbn [value peek head p_rest app].
    rewrite Ho. by apply array_close.
  - intros open close ts ns Ho Hc _ IH fuel rest Hf. destruct fuel as [|fuel]; [lia|]. cbn [length] in Hf. rewrite length_app in Hf. cbn [length] in Hf.
    cbn [value peek head p_rest app]. rewrite Ho. rewrite <-app_assoc. change (bump _) with (at_rest (ts ++ [close] ++ rest)).
    apply IH; [by left|done|lia].
  - intros k c ts key v Hlit Hc Hj IH fuel open es seen first comma close rest Hfirst Hclose Hnd Hseen Hf.
    destruct fuel as [|[|fuel]]; [lia|lia|]. cbn [length] in Hf. cbn [app]. erewrite object_entry; [|done|done|apply IH; lia|done|apply Hseen; set_solver].
    unfold parse_comma. cbn [peek head p_rest]. rewrite bool_decide_false by (by rewrite Hclose). by apply object_close.
  - intros k c ts key v cm ts' es' Hlit Hc Hj IH Hcm Hm IHm fuel open es seen first comma close rest Hfirst Hclose Hnd Hseen Hf.
    destruct fuel as [|fuel]; [lia|]. cbn [length] in Hf. rewrite length_app in Hf. cbn [length] in Hf. cbn [app]. rewrite <-app_assoc. cbn [app].
    erewrite object_entry; [|done|done|apply IH; lia|done|apply Hseen; set_solver].
    unfold parse_comma. cbn [peek head p_rest]. rewrite bool_decide_true by done.
    change (bump _) with (at_rest (ts' ++ close :: rest)). cbn in Hnd. apply NoDup_cons in Hnd as [Hnk Hnd].
    rewrite (IHm fuel open _ _ false (Some (tk_span cm)) close rest); [by rewrite <-app_assoc|by right|done|done| |lia].
    intros k' Hk'. apply not_elem_of_union. split; [|apply Hseen; set_solver]. intros ->%elem_of_singleton. done.
  - intros ts n Hj IH fuel open ns first comma close rest Hfirst Hclose Hf.
    destruct fuel as [|[|fuel]]; [lia|lia|]. erewrite array_item; [|done|apply IH; lia|done].
    unfold parse_comma. cbn [peek head p_rest]. rewrite bool_decide_false by (by rewrite Hclose). by apply array_close.
  - intros ts n cm ts' ns' Hj IH Hcm Hm IHm fuel open ns first comma close rest Hfirst Hclose Hf.
    destruct fuel as [|fuel]; [lia|]. rewrite length_app in Hf. cbn [length] in Hf. rewrite <-app_assoc.
    erewrite array_item; [|done|apply IH; lia|done].
    unfold parse_comma. cbn [peek head p_rest app]. rewrite bool_decide_true by done.
    change (bump _) with (at_rest (ts' ++ close :: rest)).
    rewrite (IHm fuel open _ false (Some (tk_span cm)) close rest); [by rewrite <-app_assoc|by right|done|lia].
Qed.
End grammar.

Lemma parse_derivation text tokens n :
  tokenize text = Some tokens →
  json text (solid tokens) n ↔ parse text = Some {| pr_root := Some n; pr_error := None |}.
Proof.
  intros Htok. unfold parse. rewrite Htok. cbn [mbind option_bind fmap option_fmap option_map]. split.
  - intros Hj. assert (Hne : solid tokens ≠ []) by (by inversion Hj).
    pose proof (proj1 (parser_complete text) _ _ Hj (parse_fuel (solid tokens)) []) as Hv. rewrite app_nil_r in Hv.
    destruct (solid tokens) as [|t ts] eqn:E; [done|]. rewrite Hv by (unfold parse_fuel; lia). done.
  - destruct (solid tokens) as [|t ts] eqn:E; [done|].
    destruct (value text (parse_fuel (t :: ts)) _) as [[root s]|] eqn:Hv; [|done]. cbn [mbind option_bind]. intros [= -> He].
    unfold peek in He. destruct (p_rest s) as [|t' rest'] eqn:Er; cbn [head] in He; [|by apply fail_error in He].
    destruct (proj1 (parser_sound text _) _ _ _ Hv He) as (_ & ts' & Hr & Hj). rewrite Er, app_nil_r in Hr. cbn in Hr. by rewrite Hr.
Qed.

(** Blank text is one token of spaces, or none. *)
Lemma blank_solid text : Forall is_space text → ∃ tokens, tokenize text = Some tokens ∧ solid tokens = [].
Proof.
  intros Hsp. destruct text as [|c t]; [by exists []|].
  pose proof Hsp as [Hc _]%Forall_cons. pose proof (utf8_ascii c (is_space_ascii c Hc)) as Hu. rewrite Is_true_true in Hc.
  pose proof (text_len_pos (c :: t) ltac:(done)) as Hpos. unfold tokenize. destruct (text_len (c :: t)) as [|fuel] eqn:Hlen; [lia|].
  destruct (skip_while_spec is_space (c :: t) 0 is_space_ascii) as (mid & t' & Ht & Hskip & Hall & Hend).
  assert (t' = []) as ->.
  { destruct t' as [|d t']; [done|]. specialize (Hend d eq_refl). rewrite Ht, Forall_app in Hsp. destruct Hsp as [_ [Hd _]%Forall_cons].
    rewrite Hend in Hd. done. }
  rewrite app_nil_r in Ht. cbn [Nat.add] in Hskip. pose proof (lookup_as_bytes (c :: t) []) as Hl. rewrite app_nil_r in Hl. cbn [as_bytes head] in Hl.
  cbn [token_loop]. rewrite as_bytes_cons, Hu. cbn [app lookup list_lookup]. unfold token_at. rewrite Hc, drop_0, Hskip, <-Ht.
  cbn [mbind option_bind]. destruct fuel as [|fuel]; cbn [token_loop]; rewrite Hl; by eexists.
Qed.

(** C29: the parser takes every text. It reports no error exactly on blank text, for which it
    returns no tree, and on the documents of the JSON grammar over the tokens of the text, with
    distinct keys in each object and valid literals; of these it returns exactly the tree of the
    derivation of all tokens but the spaces. *)
Theorem parse_exact text :
  ∃ tokens res, tokenize text = Some tokens ∧ parse text = Some res ∧
    (pr_root res = None ↔ Forall is_space text) ∧
    (∀ n, json text (solid tokens) n ↔ pr_root res = Some n ∧ pr_error res = None) ∧
    (pr_error res = None ↔ Forall is_space text ∨ ∃ n, json text (solid tokens) n).
Proof.
  destruct (tokenize_pieces text) as (pieces & Htok & _). destruct (parse_nested text) as (res & Hp & Hres).
  assert (Hd : ∀ n, json text (solid (place 0 pieces)) n ↔ pr_root res = Some n ∧ pr_error res = None).
  { intros n. rewrite (parse_derivation text _ n Htok), Hp. destruct res as [root e]; cbn. split; [by intros [= -> ->]|by intros [-> ->]]. }
  assert (Hb : Forall is_space text → res = {| pr_root := None; pr_error := None |}).
  { intros (tokens & Ht & Hs)%blank_solid. unfold parse in Hp. rewrite Ht in Hp. cbn in Hp. rewrite Hs in Hp. congruence. }
  exists (place 0 pieces), res. split_and!; [done|done| |done|].
  - split; [|by intros ->%Hb]. intros E. rewrite E in Hres. apply Hres.
  - split; [|intros [->%Hb|(n & [_ ?]%Hd)]; done]. intros He. destruct (pr_root res) as [n|] eqn:E; [right; exists n; by apply Hd|left; apply Hres].
Qed.

(** A document. *)
Definition jd_text : Text := lit "[true, null]".
Definition jd_root : Node :=
  NArray {| sp_start := 0; sp_end := 12 |} [NBool {| sp_start := 1; sp_end := 5 |} true; NNull {| sp_start := 7; sp_end := 11 |}] true.

Lemma jd_parse : parse jd_text = Some {| pr_root := Some jd_root; pr_error := None |}.
Proof. vm_compute. reflexivity. Qed.

Example broken_document_reported : (pr_error <$> parse (lit "[true,")) ≠ Some None.
Proof. vm_compute. discriminate. Qed.
