(* ===== verification/JsonEditor.v ===== *)
(** * The caret of the config editor: contexts, paths and offsets *)

From S2P Require Import Prelude JsonText JsonParse JsonTokens JsonTree JsonGrammar.

(** ** Slices between characters *)
Lemma text_prefix a b a' b' : a ++ b = a' ++ b' → text_len a ≤ text_len a' → ∃ m, a' = a ++ m.
Proof.
  revert a'. induction a as [|c a IH]; intros a' Heq Hle; [by exists a'|].
  destruct a' as [|c' a']; [rewrite text_len_cons, text_len_nil in Hle; pose proof (len_utf8_pos c); lia|].
  injection Heq as -> Heq. rewrite !text_len_cons in Hle. destruct (IH a' Heq) as [m ->]; [lia|]. by exists m.
Qed.

Lemma slice_boundary text i j : boundary text i → boundary text j → i ≤ j → ∃ t, slice text i j = Some t.
Proof.
  intros (a & b & -> & ->) (a' & b' & Heq & ->) Hle. destruct (text_prefix _ _ _ _ Heq Hle) as [m ->].
  rewrite <-app_assoc in Heq. apply app_inv_head in Heq as ->. exists m. rewrite text_len_app. apply slice_app.
Qed.

(** ** Contexts *)

(** All objects in the tree have distinct keys. *)
Inductive distinct : Node → Prop :=
| distinct_leaf n : is_container n = false → distinct n
| distinct_object sp es closed : NoDup (e_key <$> es) → Forall (λ e, distinct (e_value e)) es → distinct (NObject sp es closed)
| distinct_array sp ns closed : Forall distinct ns → distinct (NArray sp ns closed).

Lemma json_distinct text :
  (∀ ts n, json text ts n → distinct n) ∧ (∀ ts es, members text ts es → Forall (λ e, distinct (e_value e)) es) ∧
  (∀ ts ns, elements text ts ns → Forall distinct ns).
Proof.
  apply json_mutind; intros; first
    [by apply distinct_leaf|by apply distinct_object|by apply distinct_array|by apply Forall_singleton|by apply Forall_cons
    |apply distinct_object; by constructor].
Qed.

Lemma find_key es e : NoDup (e_key <$> es) → e ∈ es → List.find (λ e', bool_decide (e_key e' = e_key e)) es = Some e.
Proof.
  induction es as [|e' es IH]; intros Hnd Hin; [by apply not_elem_of_nil in Hin|].
  apply NoDup_cons in Hnd as [Hnot Hnd]. cbn [List.find]. apply elem_of_cons in Hin as [->|Hin]; [by rewrite bool_decide_true|].
  rewrite bool_decide_false; [by apply IH|]. intros Heq. apply Hnot. rewrite Heq. by apply list_elem_of_fmap_2.
Qed.

Section locate.
Context (text : Text) (caret : nat) (Hcaret : boundary text caret).

(** The caret is at the text a completion replaces, and a value it is in is found by its path. *)
Definition found (n : Node) (cx cx' : Context) : Prop :=
  (touches (cx_replace cx) caret → touches (cx_replace cx') caret) ∧
  (distinct n → cx_slot cx = SNone → ∀ prefix, cx_slot cx' = SValue prefix → prefix ≠ [] →
   ∃ path, cx_path cx' = cx_path cx ++ path ∧ ∀ ks, ∃ ks', span_at_loop n ks path = Some (ks', cx_replace cx')).

Definition locates (n : Node) : Prop := ∀ cx, ∃ cx', locate text caret n cx = Some cx' ∧ found n cx cx'.

Definition entry_good (e : Entry) : Prop :=
  sp_ok text (e_key_span e) ∧ boundary text (sp_start (e_key_span e) + 1) ∧ sp_ok text (node_span (e_value e)) ∧ locates (e_value e).

Definition item_good (n : Node) : Prop := sp_ok text (node_span n) ∧ locates n.

Lemma max_of_in l m : max_of l = Some m → m ∈ l.
Proof.
  revert m. induction l as [|x l IH]; intros m; [done|]. change (max_of (x :: l)) with (Some (Nat.max x (default x (max_of l)))). intros [= <-].
  destruct (max_of l) as [y|]; cbn [from_option id]; [|rewrite Nat.max_id; set_solver].
  specialize (IH y eq_refl). destruct (Nat.max_spec x y) as [[_ ->]|[_ ->]]; set_solver.
Qed.

Lemma min_of_in l m : min_of l = Some m → m ∈ l.
Proof.
  revert m. induction l as [|x l IH]; intros m; [done|]. change (min_of (x :: l)) with (Some (Nat.min x (default x (min_of l)))). intros [= <-].
  destruct (min_of l) as [y|]; cbn [from_option id]; [|rewrite Nat.min_id; set_solver].
  specialize (IH y eq_refl). destruct (Nat.min_spec x y) as [[_ ->]|[_ ->]]; set_solver.
Qed.

Lemma no_comma_before_total l : Forall (boundary text) l → ∃ b, no_comma_before text caret l = Some b.
Proof.
  intros Hl. unfold no_comma_before. destruct (max_of _) as [e|] eqn:Hm; [|eauto].
  apply max_of_in, list_elem_of_filter in Hm as [Hle Hin]. rewrite Forall_forall in Hl.
  destruct (slice_boundary text e caret (Hl _ Hin) Hcaret Hle) as [t ->]. by eexists.
Qed.

Lemma no_comma_after_total l : Forall (boundary text) l → ∃ b, no_comma_after text caret l = Some b.
Proof.
  intros Hl. unfold no_comma_after. destruct (min_of _) as [e|] eqn:Hm; [|eauto].
  apply min_of_in, list_elem_of_filter in Hm as [Hle Hin]. rewrite Forall_forall in Hl.
  destruct (slice_boundary text caret e Hcaret (Hl _ Hin) Hle) as [t ->]. by eexists.
Qed.

Lemma locates_leaf n : is_container n = false → locates n.
Proof. intros Hn cx. exists cx. split; [by destruct n|]. split; [done|]. intros _ Hs prefix Hs'. congruence. Qed.

Lemma locates_object sp es closed : Forall entry_good es → locates (NObject sp es closed).
Proof.
  intros Hgood cx. cbn [locate]. destruct (inside sp closed caret); [|exists cx; split; [done|]; split; [done|]; intros _ Hs prefix Hs'; congruence].
  enough (Hgo : ∀ rest, (∀ e, e ∈ rest → e ∈ es) → ∃ cx', locate_entries text caret (locate text caret) es cx rest = Some cx' ∧ found (NObject sp es closed) cx cx') by by apply Hgo.
  induction rest as [|[key ks colon v] rest IH]; intros Hsub; cbn [locate_entries].
  - rewrite Forall_forall in Hgood.
    destruct (no_comma_before_total (entry_end <$> es)) as [b ->].
    { apply Forall_fmap, Forall_forall. intros e He. destruct (Hgood e He) as ([_ ?] & _ & [_ ?] & _). unfold compose, entry_end.
      destruct (Nat.max_spec (sp_end (node_span (e_value e))) (sp_end (e_key_span e))) as [[_ ->]|[_ ->]]; done. }
    destruct (no_comma_after_total (sp_start ∘ e_key_span <$> es)) as [a ->].
    { apply Forall_fmap, Forall_forall. intros e He. by destruct (Hgood e He) as ([? _] & _). }
    cbn. eexists. split; [done|]. split; [done|]. done.
  - rewrite Forall_forall in Hgood. assert (Hin : MkEntry key ks colon v ∈ es) by (apply Hsub; set_solver).
    destruct (Hgood _ Hin) as (Hks & Hq & Hv & Hloc). cbn [e_key_span e_value] in *.
    assert (IH' := IH ltac:(set_solver)). clear IH.
    destruct ((sp_start ks <? caret)%nat && (caret <=? sp_end ks)%nat) eqn:Hkey.
    { apply andb_true_iff in Hkey as [Hlt%Nat.ltb_lt Hle%Nat.leb_le].
      destruct (slice_boundary text (sp_start ks + 1) caret Hq Hcaret ltac:(lia)) as [t ->]. cbn. eexists. split; [done|]. split; [|done].
      intros _. unfold touches. cbn. apply Is_true_true, andb_true_iff. split; apply Nat.leb_le; lia. }
    destruct (is_container v && inside (node_span v) (node_closed v) caret).
    { destruct (Hloc (push_seg (PKey key) cx)) as (cx' & -> & Htouch & Hpath). exists cx'. split; [done|]. split; [done|].
      intros Hd Hs prefix Hslot Hne. inversion Hd as [? Hc|? ? ? Hnd Hall|]; subst; [done|]. rewrite Forall_forall in Hall.
      destruct (Hpath (Hall _ Hin) Hs prefix Hslot Hne) as (path & Hp & Hspan). cbn [push_seg cx_path] in Hp.
      exists (PKey key :: path). rewrite Hp, <-app_assoc. split; [done|]. intros ks0. cbn [span_at_loop].
      pose proof (find_key es _ Hnd Hin) as Hf. cbn [e_key] in Hf. rewrite Hf. cbn. apply Hspan. }
    destruct (negb (is_container v) && touches (node_span v) caret) eqn:Hval.
    { apply andb_true_iff in Hval as [_ Htv]. pose proof Htv as [Hle%Nat.leb_le _]%andb_true_iff.
      destruct (slice_boundary text (sp_start (node_span v)) caret (proj1 Hv) Hcaret Hle) as [t ->]. cbn [mbind option_bind]. eexists. split; [done|].
      split; [by intros _; cbn; rewrite Htv|]. intros Hd _ prefix _ _. inversion Hd as [? Hc|? ? ? Hnd Hall|]; subst; [done|].
      exists [PKey key]. split; [done|]. intros ks0. cbn [span_at_loop].
      pose proof (find_key es _ Hnd Hin) as Hf. cbn [e_key] in Hf. rewrite Hf. cbn. by eexists. }
    destruct colon as [colon|]; [|done]. destruct ((sp_end colon <=? caret)%nat && (caret <=? sp_start (node_span v))%nat); [|exact IH']. eexists. split; [done|]. split; [done|].
    intros _ _ prefix [= <-]. done.
Qed.

Lemma locates_array sp ns closed : Forall item_good ns → locates (NArray sp ns closed).
Proof.
  intros Hgood cx. cbn [locate]. destruct (inside sp closed caret); [|exists cx; split; [done|]; split; [done|]; intros _ Hs prefix Hs'; congruence].
  rewrite Forall_forall in Hgood.
  enough (Hgo : ∀ rest pre, ns = pre ++ rest → ∃ cx', locate_items text caret (locate text caret) ns cx (length pre) rest = Some cx' ∧ found (NArray sp ns closed) cx cx')
    by by apply (Hgo ns []).
  induction rest as [|v rest IH]; intros pre Hns; cbn [locate_items].
  - destruct (no_comma_before_total (sp_end ∘ node_span <$> ns)) as [b ->].
    { apply Forall_fmap, Forall_forall. intros e He. by destruct (Hgood e He) as ([_ ?] & _). }
    destruct (no_comma_after_total (sp_start ∘ node_span <$> ns)) as [a ->].
    { apply Forall_fmap, Forall_forall. intros e He. by destruct (Hgood e He) as ([? _] & _). }
    cbn. eexists. split; [done|]. split; [done|]. intros _ _ prefix [= <-]. done.
  - assert (Hat : ns !! length pre = Some v) by (rewrite Hns; by apply list_lookup_middle).
    assert (Hin : v ∈ ns) by by eapply list_elem_of_lookup_2. destruct (Hgood _ Hin) as (Hv & Hloc).
    destruct (is_container v && inside (node_span v) (node_closed v) caret).
    { destruct (Hloc (push_seg (PIndex (length pre)) cx)) as (cx' & -> & Htouch & Hpath). exists cx'. split; [done|]. split; [done|].
      intros Hd Hs prefix Hslot Hne. inversion Hd as [? Hc| |? ? ? Hall]; subst; [done|]. rewrite Forall_forall in Hall.
      destruct (Hpath (Hall _ Hin) Hs prefix Hslot Hne) as (path & Hp & Hspan). cbn [push_seg cx_path] in Hp.
      exists (PIndex (length pre) :: path). rewrite Hp, <-app_assoc. split; [done|]. intros ks0. cbn [span_at_loop]. rewrite Hat. cbn. apply Hspan. }
    destruct (negb (is_container v) && touches (node_span v) caret) eqn:Hval.
    { apply andb_true_iff in Hval as [_ Htv]. pose proof Htv as [Hle%Nat.leb_le _]%andb_true_iff.
      destruct (slice_boundary text (sp_start (node_span v)) caret (proj1 Hv) Hcaret Hle) as [t ->]. cbn [mbind option_bind]. eexists. split; [done|].
      split; [by intros _; cbn; rewrite Htv|]. intros _ _ prefix _ _.
      exists [PIndex (length pre)]. split; [done|]. intros ks0. cbn [span_at_loop]. rewrite Hat. cbn. by eexists. }
    destruct (IH (pre ++ [v])) as (cx' & Hcx & Hf); [by rewrite <-app_assoc|].
    rewrite length_app, Nat.add_1_r in Hcx. by exists cx'.
Qed.

Lemma nested_good :
  (∀ lo hi n, nested text lo hi n → item_good n) ∧ (∀ lo hi es, entries_in text lo hi es → Forall entry_good es) ∧
  (∀ lo hi ns, items_in text lo hi ns → Forall item_good ns).
Proof.
  apply nested_mutind; intros.
  - split; [done|by apply locates_leaf].
  - split; [done|by apply locates_object].
  - split; [done|by apply locates_array].
  - constructor.
  - apply Forall_app. split; [done|]. apply Forall_singleton. match goal with H : item_good _ |- _ => by destruct H end.
  - constructor.
  - apply Forall_app. split; [done|]. by apply Forall_singleton.
Qed.
End locate.

(** At any caret between characters of any text, broken or not, computing the completion
    context returns without a slice inside a character; the text it replaces touches the caret;
    and when the text has no error, the path of a value the caret is in leads back to the very
    span that is replaced. *)
Theorem context_found text p caret :
  parse text = Some p → boundary text caret →
  ∃ cx, context_at text p caret = Some cx ∧ touches (cx_replace cx) caret ∧
    (pr_error p = None → ∀ prefix, cx_slot cx = SValue prefix → prefix ≠ [] →
     ∃ root ks, pr_root p = Some root ∧ span_at root (cx_path cx) = Some (ks, cx_replace cx)).
Proof.
  intros Hp Hcaret. destruct (parse_nested text) as (p' & Hp' & Hroot). rewrite Hp in Hp'. injection Hp' as <-.
  assert (Hmin : Nat.min caret (text_len text) = caret).
  { destruct Hcaret as (a & b & -> & ->). rewrite text_len_app. lia. }
  unfold context_at. rewrite Hmin. destruct (pr_root p) as [root|] eqn:Er.
  - set (cx := {| cx_path := [] |}). destruct (proj1 (nested_good text caret Hcaret) _ _ _ Hroot) as [_ Hloc].
    destruct (Hloc cx) as (cx' & -> & Htouch & Hpath). exists cx'. split; [done|].
    split; [apply Htouch; unfold touches; cbn; by rewrite Nat.leb_refl|].
    intros He prefix Hslot Hne. assert (Hd : distinct root).
    { destruct (tokenize_pieces text) as (pieces & Htok & _). apply (proj1 (json_distinct text) (solid (place 0 pieces))).
      apply (parse_derivation text _ root Htok). rewrite Hp. destruct p as [r e]. cbn in *. by rewrite Er, He. }
    destruct (Hpath Hd eq_refl prefix Hslot Hne) as (path & Hpp & Hspan). destruct (Hspan None) as [ks Hks].
    exists root, ks. split; [done|]. cbn in Hpp. by rewrite Hpp.
  - eexists. split; [done|]. split; [unfold touches; cbn; by rewrite Nat.leb_refl|]. done.
Qed.

Lemma jd_boundary : boundary jd_text 3.
Proof. by exists (lit "[tr"), (lit "ue, null]"). Qed.

Lemma context_found_witness :
  ∃ cx, context_at jd_text {| pr_root := Some jd_root; pr_error := None |} 3 = Some cx ∧ touches (cx_replace cx) 3.
Proof.
  destruct (context_found jd_text {| pr_root := Some jd_root; pr_error := None |} 3 jd_parse jd_boundary) as (cx & H1 & H2 & _).
  exists cx. split; [exact H1|exact H2].
Defined.

(** ** Offsets *)
Lemma utf16_len_app a b : utf16_len (a ++ b) = (utf16_len a + utf16_len b)%N.
Proof. induction a as [|c a IH]; [done|]. cbn. fold (utf16_len (a ++ b)) (utf16_len a). rewrite IH. lia. Qed.

Lemma len_utf16_range c : (1 <= len_utf16 c <= 2)%N.
Proof. unfold len_utf16. destruct (_ <? _)%N; lia. Qed.

Lemma floor_prefix_app a b : floor_prefix (a ++ b) (text_len a) = a.
Proof.
  induction a as [|c a IH].
  - destruct b as [|c b]; [done|]. cbn. pose proof (len_utf8_pos c). by rewrite (proj2 (Nat.leb_gt _ _)) by lia.
  - rewrite text_len_cons. cbn [app floor_prefix]. rewrite (proj2 (Nat.leb_le _ _)) by lia.
    replace (_ + _ - _) with (text_len a) by lia. by rewrite IH.
Qed.

(** The search stops at the first character that starts at or after the offset. *)
Lemma utf16_loop_spec t i units unit :
  (units + utf16_len t < 2 ^ 32)%N → (units <= unit + 1)%N → (unit <= units + utf16_len t)%N →
  ∃ a b, t = a ++ b ∧ utf16_loop t i units unit = i + text_len a ∧ (unit <= units + utf16_len a <= unit + 1)%N ∧
    (∀ a' b', t = a' ++ b' → unit = (units + utf16_len a')%N → a' = a).
Proof.
  revert i units. induction t as [|c t IH]; intros i units Hlt Hu Hle.
  - exists [], []. cbn in *. split_and!; [done|lia|lia|lia|]. by intros [].
  - cbn [utf16_loop]. pose proof (len_utf16_range c) as Hc. cbn in Hlt, Hle. fold (utf16_len t) in Hlt, Hle.
    destruct (N.leb_spec unit units) as [Hge|Hgt].
    + exists [], (c :: t). rewrite text_len_nil. cbn. split_and!; [done|lia|lia|lia|].
      intros [|c' a'] b' Heq Hunit; [done|]. cbn in Hunit. fold (utf16_len a') in Hunit. injection Heq as -> ->. lia.
    + rewrite N.mod_small by lia. destruct (IH (i + len_utf8 c) (units + len_utf16 c)%N) as (a & b & -> & -> & Hr & Huniq); [lia|lia|lia|].
      exists (c :: a), b. rewrite text_len_cons. cbn. fold (utf16_len a). split_and!; [done|lia|lia|lia|].
      intros [|c' a'] b' Heq Hunit; [cbn in Hunit; lia|]. injection Heq as -> Heq. f_equal. apply (Huniq a' b' Heq). cbn in Hunit. fold (utf16_len a') in Hunit. lia.
Qed.

Lemma byte_to_utf16_app a b : (utf16_len (a ++ b) < 2 ^ 32)%N → byte_to_utf16 (a ++ b) (text_len a) = utf16_len a.
Proof. intros H. unfold byte_to_utf16. rewrite floor_prefix_app. rewrite utf16_len_app in H. apply N.mod_small. lia. Qed.

(** For texts of fewer than 2^32 UTF-16 units the offsets of the editor and the textarea
    convert back and forth: an offset between characters comes back as it was, and an offset of
    the textarea leads to an offset between characters, of the same units or, inside a surrogate
    pair, one more. *)
Theorem offsets_roundtrip text :
  (utf16_len text < 2 ^ 32)%N →
  (∀ byte, boundary text byte → utf16_to_byte text (byte_to_utf16 text byte) = byte) ∧
  (∀ unit, (unit <= utf16_len text)%N →
   boundary text (utf16_to_byte text unit) ∧ (unit <= byte_to_utf16 text (utf16_to_byte text unit) <= unit + 1)%N).
Proof.
  intros Hlt. unfold utf16_to_byte. split.
  - intros byte (a & b & -> & ->). rewrite byte_to_utf16_app by done. rewrite utf16_len_app in *.
    destruct (utf16_loop_spec (a ++ b) 0 0 (utf16_len a)) as (a' & b' & Heq & -> & _ & Huniq); rewrite ?utf16_len_app; [lia|lia|lia|].
    by rewrite <-(Huniq a b eq_refl eq_refl).
  - intros unit Hu. destruct (utf16_loop_spec text 0 0 unit) as (a & b & -> & -> & Hr & _); [lia|lia|lia|].
    cbn [Nat.add]. split; [by exists a, b|]. rewrite byte_to_utf16_app by done. lia.
Qed.

Lemma offsets_roundtrip_witness : utf16_to_byte jd_text (byte_to_utf16 jd_text 3) = 3.
Proof. apply (offsets_roundtrip jd_text); [vm_compute; reflexivity|exact jd_boundary]. Defined.
