(* ===== verification/ConfigSchema.v ===== *)
(** * Config schemas (rust/rivers-ui/src/config_schema.rs, components/config_editor.rs)

    What the launch dialog knows of a JSON schema: references and where they lead, the classes
    placed in a launch document, the secrets whose defaults are dropped, the template the
    editor opens with, a run's values laid over it, and the payload it sends. A [serde_json]
    map iterates in the order of its keys; it is the list of its fields in that order. Numbers
    ([serde_json::Number], always finite) and the reading of a class's text are parameters. The
    document, the template and the payload are values here: the code prints each to a text and
    reads it again, and [check_config] sends a payload only when its validation, which is not
    modelled, finds no issue. *)

From S2P Require Import Prelude JsonText JsonParse.

(** ** Values *)
Inductive Value (Num : Type) :=
| VNull
| VBool (b : bool)
| VNumber (n : Num)
| VString (s : Text)
| VArray (l : list (Value Num))
| VObject (m : list (Text * Value Num)).
Arguments VNull {Num}.
Arguments VBool {Num}.
Arguments VNumber {Num}.
Arguments VString {Num}.
Arguments VArray {Num}.
Arguments VObject {Num}.

(** The order of keys. *)
Fixpoint text_ltb (a b : Text) : bool :=
  match a, b with
  | _, [] => false
  | [], _ :: _ => true
  | x :: a, y :: b => if (x =? y)%N then text_ltb a b else (x <? y)%N
  end.

Definition Fields (Num : Type) : Type := list (Text * Value Num).

Section values.
Context {Num : Type} (num_eqb : Num → Num → bool).

#[local] Abbreviation V := (Value Num).

Fixpoint field (key : Text) (m : Fields Num) : option V :=
  match m with [] => None | (k, v) :: m => if bool_decide (k = key) then Some v else field key m end.

(** [Value::get] of a key *)
Definition get (key : Text) (v : V) : option V := match v with VObject m => field key m | _ => None end.

Definition as_str (v : V) : option Text := match v with VString s => Some s | _ => None end.
Definition as_array (v : V) : option (list V) := match v with VArray l => Some l | _ => None end.
Definition as_object (v : V) : option (Fields Num) := match v with VObject m => Some m | _ => None end.
Definition is_object (v : V) : bool := match v with VObject _ => true | _ => false end.

(** [Map::insert] *)
Fixpoint insert_field (key : Text) (v : V) (m : Fields Num) : Fields Num :=
  match m with
  | [] => [(key, v)]
  | (k, x) :: m' => if bool_decide (k = key) then (key, v) :: m' else if text_ltb key k then (key, v) :: m else (k, x) :: insert_field key v m'
  end.

(** [PartialEq] *)
Fixpoint value_eqb (a b : V) : bool :=
  match a, b with
  | VNull, VNull => true
  | VBool x, VBool y => Bool.eqb x y
  | VNumber x, VNumber y => num_eqb x y
  | VString x, VString y => bool_decide (x = y)
  | VArray x, VArray y =>
      (fix go x y := match x, y with [], [] => true | v :: x, w :: y => value_eqb v w && go x y | _, _ => false end) x y
  | VObject x, VObject y =>
      (fix go x y := match x, y with [], [] => true | (k, v) :: x, (l, w) :: y => bool_decide (k = l) && value_eqb v w && go x y | _, _ => false end) x y
  | _, _ => false
  end.

(** ** Pointers *)
Definition SLASH : N := 47.
Definition TILDE : N := 126.

(** [str::replace] of a pair of characters *)
Fixpoint replace_pair (a b c : N) (t : Text) : Text :=
  match t with
  | x :: ((y :: t') as r) => if (x =? a)%N && (y =? b)%N then c :: replace_pair a b c t' else x :: replace_pair a b c r
  | _ => t
  end.

Definition unescape_token (t : Text) : Text := replace_pair TILDE 48 TILDE (replace_pair TILDE 49 SLASH t).

Fixpoint split_tokens (t : Text) : list Text :=
  match t with
  | [] => [[]]
  | c :: t => if (c =? SLASH)%N then [] :: split_tokens t else match split_tokens t with seg :: segs => (c :: seg) :: segs | [] => [[c]] end
  end.

(** An index has no sign and no leading zero. *)
Fixpoint index_digits (acc : N) (t : Text) : option N :=
  match t with
  | [] => Some acc
  | c :: t => if (48 <=? c)%N && (c <=? 57)%N then let v := (acc * 10 + (c - 48))%N in if (v <=? usize_max)%N then index_digits v t else None else None
  end.

Definition parse_index (t : Text) : option nat :=
  match t with
  | [] => None
  | c :: r => if (c =? 48)%N && negb (bool_decide (r = [])) then None else N.to_nat <$> index_digits 0 t
  end.

Definition follow_token (token : Text) (v : V) : option V :=
  match v with
  | VObject m => field token m
  | VArray l => i ← parse_index token; l !! i
  | _ => None
  end.

Fixpoint follow (tokens : list Text) (v : V) : option V :=
  match tokens with [] => Some v | token :: tokens => v ← follow_token token v; follow tokens v end.

(** [Value::pointer] *)
Definition pointer (p : Text) (v : V) : option V :=
  match p with
  | [] => Some v
  | c :: rest => if (c =? SLASH)%N then follow (unescape_token <$> split_tokens rest) v else None
  end.

(** ** References *)
Definition HASH : N := 35.

Definition strip_hash (r : Text) : option Text := match r with c :: p => if (c =? HASH)%N then Some p else None | [] => None end.

Definition reference (node : V) : option Text := get (lit "$ref") node ≫= as_str.

Definition referred (root : V) (r : Text) : option V := p ← strip_hash r; pointer p root.

Fixpoint resolve_steps (n : nat) (root node : V) : V :=
  match n with
  | O => node
  | S n => match reference node ≫= referred root with Some t => resolve_steps n root t | None => node end
  end.

(** [Schema::resolve] *)
Definition resolve (root node : V) : V := resolve_steps 8 root node.

Definition UNIONS : list Text := [lit "anyOf"; lit "oneOf"; lit "allOf"].

Definition branches (root node : V) : list V :=
  let node := resolve root node in
  node :: (UNIONS ≫= λ key, match get key node ≫= as_array with Some l => resolve root <$> l | None => [] end).

Definition find_map {A B} (f : A → option B) (l : list A) : option B := head (omap f l).

Definition schema_step (root node : V) (seg : PathSeg) : option V :=
  let bs := branches root node in
  match seg with
  | PKey key =>
      match find_map (λ b, get (lit "properties") b ≫= get key) bs with
      | Some n => Some n
      | None => find_map (λ b, a ← get (lit "additionalProperties") b; if is_object a then Some a else None) bs
      end
  | PIndex index =>
      match find_map (λ b, l ← get (lit "prefixItems") b ≫= as_array; l !! index) bs with
      | Some n => Some n
      | None => find_map (λ b, i ← get (lit "items") b; if is_object i then Some i else None) bs
      end
  end.

Fixpoint schema_at_from (root node : V) (path : list PathSeg) : option V :=
  match path with [] => Some node | seg :: path => n ← schema_step root node seg; schema_at_from root n path end.

Definition schema_at (root : V) (path : list PathSeg) : option V := schema_at_from root root path.

Definition default_of (root node : V) : option V :=
  match get (lit "default") node with Some d => Some d | None => get (lit "default") (resolve root node) end.

(** [is_container] *)
Definition container (node : V) : bool :=
  bool_decide (get (lit "$ref") node = None) && match get (lit "properties") node with Some p => is_object p | None => false end.

(** ** Secrets *)
Definition secret_mark (node : V) : bool :=
  match get (lit "writeOnly") node with Some (VBool true) => true | _ => false end ||
  match get (lit "format") node ≫= as_str with Some f => bool_decide (f = lit "password") | None => false end.

(** [any] over the fields but a [default], and over items, until one is found. *)
Section any.
Context (go : V → list Text → bool * list Text).

Fixpoint any_field (m : Fields Num) (seen : list Text) : bool * list Text :=
  match m with
  | [] => (false, seen)
  | (key, child) :: m =>
      if bool_decide (key = lit "default") then any_field m seen
      else let '(found, seen) := go child seen in if found then (true, seen) else any_field m seen
  end.

Fixpoint any_item (items : list V) (seen : list Text) : bool * list Text :=
  match items with
  | [] => (false, seen)
  | item :: items => let '(found, seen) := go item seen in if found then (true, seen) else any_item items seen
  end.
End any.

(** [walk], with the references seen so far. The jumps are the references it may still enter. *)
Fixpoint walk_secret (root : V) (jumps : nat) : V → list Text → bool * list Text :=
  fix go node seen :=
    match node with
    | VObject m =>
        if secret_mark node then (true, seen)
        else
          let '(found, seen) :=
            match reference node with
            | Some r =>
                if bool_decide (r ∈ seen) then (false, seen)
                else
                  match referred root r, jumps with
                  | Some t, S jumps => walk_secret root jumps t (seen ++ [r])
                  | _, _ => (false, seen ++ [r])
                  end
            | None => (false, seen)
            end in
          if found : bool then (true, seen) else any_field go m seen
    | VArray items => any_item go items seen
    | _ => (false, seen)
    end.

(** The references in a value. *)
Fixpoint references (node : V) : list Text :=
  match node with
  | VObject m => option_list (reference node) ++ flat_map (λ '(_, c), references c) m
  | VArray items => flat_map references items
  | _ => []
  end.

Definition holds_secret (root node : V) : bool :=
  (walk_secret root (S (length (references node ++ references root))) node []).1.

Section drop_fields.
Context (go : V → V) (secret : bool).

Fixpoint drop_fields (m : Fields Num) : Fields Num :=
  match m with
  | [] => []
  | (key, child) :: m =>
      if bool_decide (key = lit "default") then (if secret then drop_fields m else (key, child) :: drop_fields m) else (key, go child) :: drop_fields m
  end.
End drop_fields.

(** [drop_secret_defaults], below [root] *)
Fixpoint drop_defaults (root node : V) : V :=
  match node with
  | VObject m => VObject (drop_fields (drop_defaults root) (holds_secret root node) m)
  | VArray items => VArray (List.map (drop_defaults root) items)
  | v => v
  end.

Definition drop_secret_defaults (schema : V) : V := drop_defaults schema schema.

(** ** Classes in a document *)
Definition DEFS : Text := lit "#/$defs/".

Fixpoint strip_text (p t : Text) : option Text :=
  match p, t with [], _ => Some t | x :: p, y :: t => if (x =? y)%N then strip_text p t else None | _ :: _, [] => None end.

(** What [rebase_refs] makes of a reference. *)
Definition rebased (base r : Text) : Text := match strip_text DEFS r with Some rest => lit "#" ++ base ++ lit "/$defs/" ++ rest | None => r end.

Definition rebase_field (base : Text) (go : V → V) (f : Text * V) : Text * V :=
  let '(key, child) := f in
  (key, match child with VString r => VString (if bool_decide (key = lit "$ref") then rebased base r else r) | _ => go child end).

Fixpoint rebase_refs (base : Text) (v : V) : V :=
  match v with
  | VObject m => VObject (List.map (rebase_field base (rebase_refs base)) m)
  | VArray items => VArray (List.map (rebase_refs base) items)
  | v => v
  end.

Definition escape_token (t : Text) : Text :=
  t ≫= λ c, if (c =? TILDE)%N then [TILDE; 48%N] else if (c =? SLASH)%N then [TILDE; 49%N] else [c].

Definition base_of (path : list Text) : Text := path ≫= λ seg, SLASH :: escape_token seg.

(** [inline], of the value its text parses to *)
Definition inline (parsed : option V) (path : list Text) : option V :=
  value ← parsed; if is_object value then Some (rebase_refs (base_of path) (drop_secret_defaults value)) else None.

(** ** Template and payload *)
Section template_fields.
Context (go : V → option V).

Fixpoint template_fields (ps : Fields Num) : Fields Num :=
  match ps with
  | [] => []
  | (name, prop) :: ps => match go prop with Some t => (name, t) :: template_fields ps | None => template_fields ps end
  end.

Definition template_section (ps : Fields Num) : option V :=
  let children := template_fields ps in
  let has_fields := negb (bool_decide (ps = [])) && negb (existsb (container ∘ snd) ps) in
  if has_fields || negb (bool_decide (children = [])) then Some (VObject children) else None.

(** Of the field [properties]. *)
Fixpoint template_properties (m : Fields Num) : option V :=
  match m with
  | [] => None
  | (key, v) :: m => if bool_decide (key = lit "properties") then match v with VObject ps => template_section ps | _ => None end else template_properties m
  end.
End template_fields.

Fixpoint template_of (root node : V) : option V :=
  match (if holds_secret root node then None else default_of root node) with
  | Some d => Some d
  | None => if negb (container node) then None else match node with VObject m => template_properties (template_of root) m | _ => None end
  end.

Definition template (root : V) : V := default (VObject []) (template_of root root).

Definition equals_default (root prop child : V) : bool := match default_of root prop with Some d => value_eqb d child | None => false end.

Section compact_fields.
Context (root : V) (go : V → V → option V) (props : option (Fields Num)).

Fixpoint compact_fields (m : Fields Num) : Fields Num :=
  match m with
  | [] => []
  | (key, child) :: m =>
      match match props ≫= field key with
            | Some prop => if equals_default root prop child then None else go prop child
            | None => Some child
            end with
      | Some kept => (key, kept) :: compact_fields m
      | None => compact_fields m
      end
  end.
End compact_fields.

Fixpoint compact_at (root node value : V) : option V :=
  match value with
  | VObject m =>
      let out := compact_fields root (λ prop child, compact_at root prop child) (get (lit "properties") node ≫= as_object) m in
      if bool_decide (out = []) && container node then None else Some (VObject out)
  | other => Some other
  end.

Definition compact (root value : V) : option V := compact_at root root value.

Section overlay_fields.
Context (go : V → V → V).

Fixpoint overlay_fields (t b : Fields Num) : Fields Num :=
  match t with
  | [] => b
  | (key, value) :: t => overlay_fields t (insert_field key (match field key b with Some slot => go value slot | None => value end) b)
  end.
End overlay_fields.

(** [overlay] *)
Fixpoint overlay (base top : V) : V :=
  match top with
  | VObject t =>
      match base with
      | VObject b =>
          VObject (overlay_fields (λ value slot, overlay slot value) t b)
      | _ => top
      end
  | _ => top
  end.
End values.

(** ** The launch document (components/config_editor.rs) *)
Record AssetActionInfo := { ac_name : Text; ac_config_schema : option Text }.

(** What a launch reads of a definition; the metadata as its map iterates. *)
Record AssetDefinitionInfo := {
  ai_asset_type : Text; ai_config_schema : option Text; ai_actions : list AssetActionInfo; ai_metadata : list (Text * Text)
}.

Record ResourceInfo := { ri_key : Text; ri_config_schema : Text }.

Definition config_schema_of (def : AssetDefinitionInfo) (verb : option Text) : option Text :=
  match verb with
  | Some verb => a ← head (filter (λ a, ac_name a = verb) (ai_actions def)); ac_config_schema a
  | None => ai_config_schema def
  end.

Section launch.
(** Reading a schema's text, and the number 1. *)
Context {Num : Type} (parse : Text → option (Value Num)) (one : Num).

#[local] Abbreviation V := (Value Num).

(** A [Map] of these fields, as [insert] and [collect] build it. *)
Definition map_of (fields : list (Text * V)) : Fields Num := foldl (λ m f, insert_field f.1 f.2 m) [] fields.

Definition json_object (fields : list (Text * V)) : V := VObject (map_of fields).

Definition text_value (s : string) : V := VString (lit s).

Definition section_schema (description : string) (properties : Fields Num) : V :=
  json_object [(lit "type", text_value "object"); (lit "description", text_value description); (lit "properties", VObject properties);
               (lit "additionalProperties", VBool false)].

Definition metadata_schema (metadata : list (Text * Text)) : V :=
  json_object [(lit "type", text_value "object");
    (lit "description", text_value "metadata for this run: keys added to or replacing the asset's own");
    (lit "properties", json_object ((λ f, (f.1, json_object [(lit "type", text_value "string"); (lit "default", VString f.2)])) <$> metadata));
    (lit "additionalProperties", json_object [(lit "type", text_value "string")])].

(** The sections of one key, at its place in the document. *)
Definition asset_sections (verb : option Text) (key : Text) (def : AssetDefinitionInfo) : Fields Num :=
  let config :=
    match config_schema_of def verb with
    | Some class =>
        option_list ((λ c, (lit "config", c)) <$> inline (parse class) [lit "properties"; lit "assets"; lit "properties"; key; lit "properties"; lit "config"])
    | None => []
    end in
  let metadata := if bool_decide (ai_asset_type def = lit "task") then [] else [(lit "metadata", metadata_schema (ai_metadata def))] in
  map_of (config ++ metadata).

Definition asset_entry (definitions : gmap Text AssetDefinitionInfo) (verb : option Text) (key : Text) : option (Text * V) :=
  def ← definitions !! key;
  let sections := asset_sections verb key def in
  if bool_decide (sections = []) then None
  else Some (key, section_schema (if bool_decide (ai_asset_type def = lit "task") then "task" else "asset") sections).

Definition resource_entry (resource : ResourceInfo) : option (Text * V) :=
  (λ schema, (ri_key resource, schema)) <$> inline (parse (ri_config_schema resource)) [lit "properties"; lit "resources"; lit "properties"; ri_key resource].

Definition worker_count (description : string) : V :=
  json_object [(lit "type", text_value "integer"); (lit "minimum", VNumber one); (lit "description", text_value description);
               (lit "x-requires", json_object [(lit "executor", text_value "parallel")])].

Definition execution_schema : V :=
  section_schema "the run's executor; an asset's rivers/executor metadata still wins for its step"
    (map_of [(lit "executor", json_object [(lit "type", text_value "string"); (lit "enum", VArray [text_value "in_process"; text_value "parallel"])]);
             (lit "max_workers", worker_count "worker processes"); (lit "max_async_concurrent", worker_count "async steps in flight per worker")]).

Definition launch_schema (keys : list Text) (definitions : gmap Text AssetDefinitionInfo) (resources : list ResourceInfo) (verb : option Text) : V :=
  let assets := map_of (omap (asset_entry definitions verb) keys) in
  let sections :=
    [(lit "assets", section_schema "per-asset overrides for this run" assets)] ++
    (if bool_decide (resources = []) then []
     else [(lit "resources", section_schema "resources rebuilt for this run with these values" (map_of (omap resource_entry resources)))]) ++
    [(lit "execution", execution_schema)] in
  json_object [(lit "type", text_value "object"); (lit "properties", VObject (map_of sections)); (lit "additionalProperties", VBool false)].

(** [config_template_over], of the values its texts parse to *)
Definition config_template_over (schema : V) (document : option V) : V :=
  match document with Some d => overlay (template schema) d | None => template schema end.
End launch.
