(* ===== verification/ConfigSecrets.v ===== *)
(** * The secrets of a config schema

    What the search for a secret and the removal of masked defaults do: the search finds a
    mark exactly when one lies below a node, through references too, with the jumps it is
    given, and no default is left beside a secret. Neither enters a key named default. *)

From S2P Require Import Prelude JsonText JsonParse ConfigSchema.

(** ** Induction over values *)
Section value_induction.
Context {Num : Type} (P : Value Num → Prop).
Context (Hnull : P VNull) (Hbool : ∀ b, P (VBool b)) (Hnum : ∀ n, P (VNumber n)) (Hstr : ∀ s, P (VString s)).
Context (Harr : ∀ l, Forall P l → P (VArray l)) (Hobj : ∀ m, Forall (λ f, P f.2) m → P (VObject m)).

Fixpoint value_induction (v : Value Num) : P v :=
  match v with
  | VNull => Hnull
  | VBool b => Hbool b
  | VNumber n => Hnum n
  | VString s => Hstr s
  | VArray l => Harr l ((fix go l : Forall P l := match l with [] => List.Forall_nil _ | v :: l => List.Forall_cons _ v l (value_induction v) (go l) end) l)
  | VObject m =>
      Hobj m ((fix go m : Forall (λ f, P f.2) m := match m with [] => List.Forall_nil _ | (k, v) :: m => List.Forall_cons _ (k, v) m (value_induction v) (go m) end) m)
  end.
End value_induction.

Section secrets.
Context {Num : Type}.

#[local] Abbreviation V := (Value Num).

(** ** What a schema node leads to *)

(** A part of a schema, but for a [default], which is a value. *)
Inductive part : V → V → Prop :=
| part_field m key c : (key, c) ∈ m → key ≠ lit "default" → part (VObject m) c
| part_item l c : c ∈ l → part (VArray l) c.

Definition leads (root v w : V) : Prop := part v w ∨ ∃ r, reference v = Some r ∧ referred root r = Some w.

(** A mark below the node, through references too. *)
Definition secret_below (root node : V) : Prop := ∃ w, rtc (leads root) node w ∧ secret_mark w = true.

Lemma field_elem key (m : Fields Num) v : field key m = Some v → (key, v) ∈ m.
Proof.
  induction m as [|[k x] m IH]; [done|]. cbn [field]. case_bool_decide as Hk; [intros [= ->]; subst; left|]. intros H. right. auto.
Qed.

Lemma reference_object (v : V) r : reference v = Some r → ∃ m, v = VObject m.
Proof. destruct v; try done. eauto. Qed.

Lemma mark_object (v : V) : secret_mark v = true → ∃ m, v = VObject m.
Proof. destruct v; try done. eauto. Qed.

(** ** The search *)
Section search.
Context (root : Value Num) (U : list Text).

Definition within (v : V) : Prop := ∀ w r, rtc part v w → reference w = Some r → r ∈ U.
Context (HU : ∀ r t, referred root r = Some t → within t).

(** No mark below but through the references seen. *)
Definition clear (seen : list Text) (v : V) : Prop := ∀ w, rtc part v w → secret_mark w = false ∧ ∀ r, reference w = Some r → r ∈ seen.

Definition cleared (old seen : list Text) : Prop := ∀ r t, r ∈ seen → r ∉ old → referred root r = Some t → clear seen t.

Record seen_ok (jumps : nat) (seen : list Text) : Prop := { so_nodup : NoDup seen; so_within : seen ⊆ U; so_enough : length U < jumps + length seen }.

(** What a search finds, of a node or of a list of them. *)
Record found (below : V → Prop) (seen : list Text) (res : bool * list Text) : Prop := {
  fo_grows : seen ⊆ res.2;
  fo_nodup : NoDup res.2;
  fo_within : res.2 ⊆ U;
  fo_true : res.1 = true → ∃ v, below v ∧ secret_below root v;
  fo_false : res.1 = false → (∀ v, below v → clear res.2 v) ∧ cleared seen res.2
}.

Lemma clear_more seen seen' v : seen ⊆ seen' → clear seen v → clear seen' v.
Proof. intros H Hc w Hw. destruct (Hc w Hw) as [? Hr]. split; [done|]. intros r E. by apply H, Hr. Qed.

Lemma cleared_trans a b c : a ⊆ b → b ⊆ c → cleared a b → cleared b c → cleared a c.
Proof.
  intros Hab Hbc H1 H2 r t Hr Ha Ht. destruct (decide (r ∈ b)) as [Hb|Hb]; [|by eapply H2]. eapply clear_more; [exact Hbc|]. by eapply H1.
Qed.

Lemma seen_ok_grows jumps seen res below : seen_ok jumps seen → found below seen res → seen_ok jumps res.2.
Proof.
  intros [H1 H2 H3] [F1 F2 F3 _ _]. split; [done|done|]. assert (length seen ≤ length res.2); [|lia].
  apply submseteq_length, NoDup_submseteq; [done|]. intros x Hx. by apply F1.
Qed.

(** One after the other. *)
Lemma found_then below1 below2 seen res1 res2 : found below1 seen res1 → (res1.1 = false → found below2 res1.2 res2) →
  found (λ v, below1 v ∨ below2 v) seen (if res1.1 then (true, res1.2) else res2).
Proof.
  intros [A1 A2 A3 A4 A5] H. destruct (res1.1) eqn:E.
  - split; cbn; [done|done|done|intros _; destruct (A4 eq_refl) as (v & ? & ?); eauto|done].
  - destruct (H eq_refl) as [B1 B2 B3 B4 B5]. destruct (A5 eq_refl) as [C1 C2].
    split; [set_solver|done|done|intros Ht; destruct (B4 Ht) as (v & ? & ?); eauto|].
    intros Hf. destruct (B5 Hf) as [D1 D2]. split; [|by eapply cleared_trans].
    intros v [Hv|Hv]; [eapply clear_more; [exact B1|auto]|auto].
Qed.

Lemma found_none seen jumps : seen_ok jumps seen → found (λ _, False) seen (false, seen).
Proof. intros [? ? _]. split; [done|done|done|done|]. intros _. split; [done|]. by intros r t ? ?. Qed.

Lemma found_impl (P Q : V → Prop) seen res : (∀ v, P v ↔ Q v) → found P seen res → found Q seen res.
Proof.
  intros H [A B C D E]. split; [done|done|done| |]; [intros Ht; destruct (D Ht) as (v & ? & ?); exists v; by rewrite <- H|].
  intros Hf. destruct (E Hf) as [E1 E2]. split; [|done]. intros v Hv. apply E1. by apply H.
Qed.


Lemma below_part v c : part v c → secret_below root c → secret_below root v.
Proof. intros Hp (w & Hw & Hm). exists w. split; [|done]. eapply rtc_l; [by left|done]. Qed.

Lemma below_reference v r t : reference v = Some r → referred root r = Some t → secret_below root t → secret_below root v.
Proof. intros Hr Ht (w & Hw & Hm). exists w. split; [|done]. eapply rtc_l; [right; eauto|done]. Qed.

Lemma within_part v c : within v → part v c → within c.
Proof. intros H Hp w r Hw. apply H. by eapply rtc_l. Qed.

(** A node is clear when it has no mark itself, its reference is seen and its parts are clear. *)
Lemma clear_node seen v : secret_mark v = false → (∀ r, reference v = Some r → r ∈ seen) → (∀ c, part v c → clear seen c) → clear seen v.
Proof. intros Hm Hr Hp w Hw. inversion Hw as [|? y ? Hy Hyw]; subst; [done|]. by apply (Hp y). Qed.

Lemma found_leaf v seen jumps : seen_ok jumps seen → secret_mark v = false → reference v = None → (∀ c, ¬ part v c) → found (λ x, x = v) seen (false, seen).
Proof.
  intros [? ? _] Hm Hr Hp. split; [done|done|done|done|]. intros _. split; [|by intros r t ? ?].
  intros ? ->. apply clear_node; [done|congruence|]. by intros c ?%Hp.
Qed.

Definition searches (jumps : nat) (go : V → list Text → bool * list Text) (v : V) : Prop :=
  ∀ seen, within v → seen_ok jumps seen → found (λ x, x = v) seen (go v seen).

Lemma any_item_found jumps go l seen : Forall (searches jumps go) l → (∀ c, c ∈ l → within c) → seen_ok jumps seen → found (λ v, v ∈ l) seen (any_item go l seen).
Proof.
  intros H. revert seen. induction H as [|c l Hc _ IH]; intros seen Hw Hs; cbn [any_item].
  - eapply found_impl; [|by eapply found_none]. intros v. split; [done|]. by intros ?%elem_of_nil.
  - pose proof (Hc seen (Hw c ltac:(left)) Hs) as Hf. destruct (go c seen) as [b seen'] eqn:E.
    eapply found_impl; [|apply (found_then _ (λ v, v ∈ l) _ (b, seen') _ Hf)].
    + intros v. by rewrite elem_of_cons.
    + cbn. intros _. apply IH; [intros c' ?; apply Hw; by right|]. exact (seen_ok_grows _ _ _ _ Hs Hf).
Qed.

Lemma any_field_found jumps go m seen : Forall (λ f, searches jumps go f.2) m → (∀ c, part (VObject m) c → within c) → seen_ok jumps seen →
  found (λ v, part (VObject m) v) seen (any_field go m seen).
Proof.
  intros H. revert seen. induction H as [|[key c] m Hc _ IH]; intros seen Hw Hs; cbn [any_field].
  - eapply found_impl; [|by eapply found_none]. intros v. split; [done|]. inversion 1 as [? ? ? Hin|]; subst. by apply elem_of_nil in Hin.
  - assert (Hparts : ∀ v, part (VObject ((key, c) :: m)) v ↔ (key ≠ lit "default" ∧ v = c) ∨ part (VObject m) v).
    { intros v. split.
      - inversion 1 as [? k ? Hin Hk|]; subst. apply elem_of_cons in Hin as [[= -> ->]|Hin]; [by left|right; by econstructor].
      - intros [[Hk ->]|Hv]; [econstructor; [left|done]|]. inversion Hv as [? k ? Hin Hk|]; subst. econstructor; [right; exact Hin|done]. }
    assert (Hw' : ∀ v, part (VObject m) v → within v) by (intros v Hv; apply Hw, Hparts; by right).
    case_bool_decide as Hk.
    { eapply found_impl; [|by apply IH]. intros v. rewrite Hparts. split; [by right|intros [[? _]|?]; done]. }
    pose proof (Hc seen (Hw c ltac:(apply Hparts; by left)) Hs) as Hf. cbn [snd] in Hf. destruct (go c seen) as [b seen'] eqn:E.
    eapply found_impl; [|apply (found_then _ (part (VObject m)) _ (b, seen') _ Hf)].
    + intros v. rewrite Hparts. cbn. split; (intros [?|?]; [left|by right]); tauto.
    + cbn. intros _. apply IH; [done|]. exact (seen_ok_grows _ _ _ _ Hs Hf).
Qed.

(** What a node is found to be from what its reference and its fields are. *)
Lemma found_object (m : Fields Num) seen res : secret_mark (VObject m) = false →
  found (λ v, (∃ r, reference (VObject m) = Some r ∧ (r ∉ seen) ∧ referred root r = Some v) ∨ part (VObject m) v) seen res →
  (∀ r, reference (VObject m) = Some r → r ∈ res.2) → found (λ v, v = VObject m) seen res.
Proof.
  intros Hm [A B C D E] Hr. split; [done|done|done| |].
  - intros Ht. destruct (D Ht) as (v & [(r & H1 & _ & H2)|Hp] & Hs); eexists; (split; [reflexivity|]); eauto using below_reference, below_part.
  - intros Hf. destruct (E Hf) as [E1 E2]. split; [|done]. intros ? ->. apply clear_node; [done|done|]. intros c Hc. apply E1. by right.
Qed.

(** Following the reference of a node, when it is not seen yet. *)
Lemma reference_found jumps (m : Fields Num) seen : seen_ok jumps seen → (∀ r, reference (VObject m) = Some r → r ∈ U) →
  (∀ j t, jumps = S j → searches j (walk_secret root j) t) →
  let res := match reference (VObject m) with
    | Some r => if bool_decide (r ∈ seen) then (false, seen) else
        match referred root r, jumps with Some t, S jumps => walk_secret root jumps t (seen ++ [r]) | _, _ => (false, seen ++ [r]) end
    | None => (false, seen) end in
  found (λ v, ∃ r, reference (VObject m) = Some r ∧ (r ∉ seen) ∧ referred root r = Some v) seen res ∧ ∀ r, reference (VObject m) = Some r → r ∈ res.2.
Proof.
  intros Hs HrU IH. destruct (reference (VObject m)) as [r|]; cbv zeta.
  2: { split; [|done]. eapply found_impl; [|by eapply found_none]. intros v. split; [done|]. by intros (? & ? & _). }
  destruct Hs as [S1 S2 S3]. pose proof (HrU r eq_refl) as Hr. case_bool_decide as Hin.
  { split; [|by intros ? [= <-]]. eapply found_impl; [|by eapply (found_none _ jumps)]. intros v. split; [done|]. by intros (? & [= <-] & ? & _). }
  assert (Hnd : NoDup (seen ++ [r])).
  { apply NoDup_app. split_and!; [done|by intros x Hx ->%list_elem_of_singleton|apply NoDup_singleton]. }
  assert (Hsub : seen ++ [r] ⊆ U) by (intros x [?| ->%list_elem_of_singleton]%elem_of_app; auto).
  assert (Hgrow : seen ⊆ seen ++ [r]) by (intros x ?; apply elem_of_app; by left).
  assert (Hmem : ∀ x, x ∈ seen ++ [r] → (x ∉ seen) → x = r) by (intros x [?| ->%list_elem_of_singleton]%elem_of_app ?; done).
  destruct (referred root r) as [t|] eqn:Ht.
  2: { split; [|intros ? [= <-]; cbn; apply elem_of_app; right; left]. split; [done|done|done|done|]. intros _. split; [intros v (? & [= <-] & _ & ?); congruence|].
       intros x y Hx Hy. rewrite (Hmem x Hx Hy). congruence. }
  destruct jumps as [|jumps].
  { exfalso. pose proof (submseteq_length _ _ (NoDup_submseteq _ _ S1 S2)). lia. }
  destruct (IH jumps t eq_refl (seen ++ [r])) as [A B C D E].
  { by eapply HU. }
  { split; [done|done|]. rewrite length_app. cbn. lia. }
  split; [|intros ? [= <-]; apply A, elem_of_app; right; left]. split; [set_solver|done|done| |].
  - intros Hb. destruct (D Hb) as (v & -> & Hv). exists t. split; [|done]. by exists r.
  - intros Hb. destruct (E Hb) as [E1 E2]. split; [intros v (? & [= <-] & _ & ?); apply E1; congruence|].
    intros x y Hx Hy Hxy. destruct (decide (x ∈ seen ++ [r])) as [Hx'|Hx']; [|by eapply E2]. rewrite (Hmem x Hx' Hy) in Hxy. apply E1. congruence.
Qed.

Lemma walk_found jumps : ∀ node, searches jumps (walk_secret root jumps) node.
Proof.
  induction jumps as [jumps IHj] using lt_wf_ind. intros node. induction node as [|b|n|s|l IH|m IH] using value_induction; intros seen Hw Hs.
  1-4: destruct jumps; (eapply found_leaf; [exact Hs|done|done|inversion 1]).
  - replace (walk_secret root jumps (VArray l) seen) with (any_item (walk_secret root jumps) l seen) by (by destruct jumps).
    pose proof (any_item_found jumps _ l seen IH ltac:(intros c Hc; eapply within_part; [done|by constructor]) Hs) as [A B C D E].
    split; [done|done|done| |].
    + intros Ht. destruct (D Ht) as (v & Hv & ?). eexists. split; [reflexivity|]. eapply below_part; [by constructor|done].
    + intros Hf. destruct (E Hf) as [E1 E2]. split; [|done]. intros ? ->. apply clear_node; [done|done|]. inversion 1; subst. auto.
  - destruct (secret_mark (VObject m)) eqn:Hm.
    { replace (walk_secret root jumps (VObject m) seen) with (true, seen) by (destruct jumps; cbn [walk_secret]; by rewrite Hm).
      destruct Hs as [? ? _]. split; [done|done|done| |done]. intros _. exists (VObject m). split; [done|]. exists (VObject m). by split; [apply rtc_refl|]. }
    set (res1 := match reference (VObject m) with
      | Some r => if bool_decide (r ∈ seen) then (false, seen) else
          match referred root r, jumps with Some t, S jumps => walk_secret root jumps t (seen ++ [r]) | _, _ => (false, seen ++ [r]) end
      | None => (false, seen) end).
    assert (Hres : walk_secret root jumps (VObject m) seen = if res1.1 then (true, res1.2) else any_field (walk_secret root jumps) m res1.2).
    { unfold res1. destruct jumps; cbn [walk_secret]; rewrite Hm; by repeat case_match. }
    assert (H1 : found (λ v, ∃ r, reference (VObject m) = Some r ∧ (r ∉ seen) ∧ referred root r = Some v) seen res1 ∧
      ∀ r, reference (VObject m) = Some r → r ∈ res1.2).
    { apply reference_found; [exact Hs|by intros r Hr; apply (Hw (VObject m) r (rtc_refl _ _))|]. intros j t ->. apply (IHj j). lia. }
    destruct H1 as [H1 H2]. rewrite Hres. apply found_object; [done| |].
    + apply (found_then _ _ _ res1 _ H1). intros _. apply (any_field_found jumps); [done|intros c Hc; by eapply within_part|]. exact (seen_ok_grows _ _ _ _ Hs H1).
    + intros r Hr. specialize (H2 r Hr). destruct (res1.1); [done|].
      destruct (any_field_found jumps _ m res1.2 IH ltac:(intros c Hc; by eapply within_part) (seen_ok_grows _ _ _ _ Hs H1)) as [A _ _ _ _]. by apply A.
Qed.
End search.

Lemma closed_not_below root seen (v : V) : (∀ r t, r ∈ seen → referred root r = Some t → clear seen t) → clear seen v → ¬ secret_below root v.
Proof.
  intros Hs Hv (w & Hw & Hm). assert (Hc : clear seen w).
  { clear Hm. induction Hw as [|x y z [Hp|(r & Hr & Ht)] _ IH]; [done|..]; apply IH.
    - intros u Hu. apply Hv. by eapply rtc_l.
    - eapply Hs; [|done]. by apply (Hv x (rtc_refl _ _)). }
  destruct (Hc w (rtc_refl _ _)) as [? _]. congruence.
Qed.

Lemma references_field key (c : V) m : (key, c) ∈ m → references c ⊆ references (VObject m).
Proof.
  intros Hin r Hr. cbn [references]. apply elem_of_app. right. apply list_elem_of_In, in_flat_map. exists (key, c). split; by apply list_elem_of_In.
Qed.

Lemma references_item (c : V) l : c ∈ l → references c ⊆ references (VArray l).
Proof. intros Hin r Hr. cbn [references]. apply list_elem_of_In, in_flat_map. exists c. split; by apply list_elem_of_In. Qed.

Lemma references_part (v w : V) r : rtc part v w → reference w = Some r → r ∈ references v.
Proof.
  intros H Hr. induction H as [x|x y z Hxy _ IH].
  - destruct (reference_object x r Hr) as [m ->]. cbn [references]. rewrite Hr. left.
  - specialize (IH Hr). destruct Hxy as [m key c Hin _|l c Hin]; [by eapply references_field|by eapply references_item].
Qed.

Lemma references_follow tokens (v t : V) : follow tokens v = Some t → references t ⊆ references v.
Proof.
  revert v. induction tokens as [|token tokens IH]; intros v; cbn [follow]; [by intros [= ->]|].
  destruct (follow_token token v) as [c|] eqn:E; [|done]. cbn [mbind option_bind]. intros Ht r Hr. specialize (IH c Ht r Hr).
  destruct v; try done; cbn [follow_token] in E.
  - destruct (parse_index token) as [i|]; [|done]. cbn [mbind option_bind] in E. eapply references_item; [by eapply list_elem_of_lookup_2|done].
  - eapply references_field; [by eapply field_elem|done].
Qed.

Lemma references_referred root r (t : V) : referred root r = Some t → references t ⊆ references root.
Proof.
  unfold referred. destruct (strip_hash r) as [p|]; [|done]. cbn [mbind option_bind]. unfold pointer. destruct p as [|c rest]; [by intros [= ->]|].
  destruct (c =? SLASH)%N; [|done]. apply references_follow.
Qed.

(** The search decides whether there is a secret below. *)
Lemma holds_secret_spec root node : holds_secret root node = true ↔ secret_below root node.
Proof.
  unfold holds_secret. set (U := references node ++ references root).
  assert (HU : ∀ r t, referred root r = Some t → within U t).
  { intros r t Ht w r' Hw Hr. apply elem_of_app. right. eapply references_referred; [done|]. by eapply references_part. }
  assert (Hn : within U node) by (intros w r Hw Hr; apply elem_of_app; left; by eapply references_part).
  destruct (walk_found root U HU (S (length U)) node [] Hn) as [A B C D E].
  { split; [apply NoDup_nil_2|by intros x ?%elem_of_nil|cbn; lia]. }
  split.
  - intros Ht. by destruct (D Ht) as (v & -> & ?).
  - intros Hb. destruct (walk_secret root (S (length U)) node []) as [[] seen] eqn:Ew; [done|]. exfalso. destruct (E eq_refl) as [E1 E2].
    eapply (closed_not_below root seen node); [|by apply E1|done]. intros r t Hr Ht. eapply E2; [done|by intros ?%elem_of_nil|done].
Qed.

(** ** Dropping the defaults of secrets *)

(** A value of a schema, or of a [default] in it, before and after. *)
Definition trimmed (root v v' : V) : Prop := v' = drop_defaults root v ∨ v' = v.

Lemma drop_fields_elem go secret (m : Fields Num) key c' : (key, c') ∈ drop_fields go secret m →
  ∃ c, (key, c) ∈ m ∧ if bool_decide (key = lit "default") then c' = c ∧ secret = false else c' = go c.
Proof.
  induction m as [|[k c] m IH]; [by intros ?%elem_of_nil|]. cbn [drop_fields].
  assert (Hrest : (key, c') ∈ drop_fields go secret m → ∃ x, (key, x) ∈ (k, c) :: m ∧ if bool_decide (key = lit "default") then c' = x ∧ secret = false else c' = go x).
  { intros (x & ? & ?)%IH. exists x. split; [by right|done]. }
  destruct (bool_decide (k = lit "default")) eqn:Hk; [destruct secret; [done|]|]; (intros [[= -> ->]|?]%elem_of_cons; [|auto]); exists c; (split; [left|]); by rewrite Hk.
Qed.

Lemma drop_fields_field go secret (m : Fields Num) key c' : field key (drop_fields go secret m) = Some c' →
  ∃ c, field key m = Some c ∧ if bool_decide (key = lit "default") then c' = c ∧ secret = false else c' = go c.
Proof.
  induction m as [|[k c] m IH]; [done|]. cbn [drop_fields field].
  destruct (bool_decide (k = key)) eqn:Ek.
  - apply bool_decide_eq_true in Ek as ->. destruct (bool_decide (key = lit "default")) eqn:Hk.
    + destruct secret; [|cbn [field]; rewrite bool_decide_true by done; intros [= <-]; eauto].
      intros H. exfalso. apply field_elem, drop_fields_elem in H as (x & _ & Hx). rewrite Hk in Hx. by destruct Hx.
    + cbn [field]. rewrite bool_decide_true by done. intros [= <-]. eauto.
  - destruct (bool_decide (k = lit "default")); [destruct secret; [exact IH|]|]; cbn [field]; rewrite Ek; exact IH.
Qed.

Lemma trimmed_get root v v' key c' : trimmed root v v' → get key v' = Some c' → ∃ c, get key v = Some c ∧ trimmed root c c'.
Proof.
  intros [->| ->] H; [|exists c'; split; [done|by right]]. destruct v; try done. cbn [drop_defaults get] in *.
  apply drop_fields_field in H as (c & ? & Hc). exists c. split; [done|]. case_bool_decide; [right|left]; by destruct Hc.
Qed.

Lemma trimmed_leaf root v v' : trimmed root v v' → match v' with VArray _ | VObject _ => True | _ => v = v' end.
Proof. intros [->| ->]; [destruct v; done|by destruct v]. Qed.

Lemma trimmed_reference root v v' r : trimmed root v v' → reference v' = Some r → reference v = Some r.
Proof.
  intros Ht. unfold reference. destruct (get (lit "$ref") v') as [c'|] eqn:E; [|done]. destruct (trimmed_get _ _ _ _ _ Ht E) as (c & -> & Hc).
  cbn [mbind option_bind]. destruct c'; try done. by rewrite (trimmed_leaf _ _ _ Hc).
Qed.

Lemma trimmed_mark root v v' : trimmed root v v' → secret_mark v' = true → secret_mark v = true.
Proof.
  intros Ht. unfold secret_mark. rewrite !orb_true_iff. intros [H|H]; [left|right].
  - destruct (get (lit "writeOnly") v') as [c'|] eqn:E; [|done]. destruct (trimmed_get _ _ _ _ _ Ht E) as (c & -> & Hc).
    destruct c'; try done. by rewrite (trimmed_leaf _ _ _ Hc).
  - destruct (get (lit "format") v') as [c'|] eqn:E; [|done]. destruct (trimmed_get _ _ _ _ _ Ht E) as (c & -> & Hc).
    destruct c'; try done. by rewrite (trimmed_leaf _ _ _ Hc).
Qed.

Lemma trimmed_part root v v' c' : trimmed root v v' → part v' c' → ∃ c, part v c ∧ trimmed root c c'.
Proof.
  intros [->| ->] H; [|exists c'; split; [done|by right]]. destruct v as [| | | |l|m]; cbn [drop_defaults] in H; inversion H as [? key ? Hin Hk|? ? Hin]; subst.
  - apply list_elem_of_In, in_map_iff in Hin as (c & <- & Hin). exists c. split; [constructor; by apply list_elem_of_In|by left].
  - apply drop_fields_elem in Hin as (c & Hin & Hc). rewrite bool_decide_false in Hc by done. subst c'. exists c. split; [by econstructor|by left].
Qed.

Lemma trimmed_follow root tokens v v' t' : trimmed root v v' → follow tokens v' = Some t' → ∃ t, follow tokens v = Some t ∧ trimmed root t t'.
Proof.
  revert v v'. induction tokens as [|token tokens IH]; intros v v' Ht; cbn [follow]; [intros [= <-]; eauto|].
  destruct (follow_token token v') as [c'|] eqn:E; [|done]. cbn [mbind option_bind]. intros Hf.
  assert (Hc : ∃ c, follow_token token v = Some c ∧ trimmed root c c').
  { destruct Ht as [->| ->]; [|exists c'; split; [done|by right]]. destruct v as [| | | |l|m]; try done; cbn [drop_defaults follow_token] in *.
    - destruct (parse_index token) as [i|]; [|done]. cbn [mbind option_bind] in *. change (List.map (drop_defaults root) l) with (drop_defaults root <$> l) in E.
      rewrite list_lookup_fmap in E. destruct (l !! i) as [c|]; [|done]. injection E as <-. exists c. split; [done|by left].
    - apply (trimmed_get root (VObject m) (drop_defaults root (VObject m))); [by left|done]. }
  destruct Hc as (c & -> & Hc). cbn [mbind option_bind]. by eapply IH.
Qed.

Lemma trimmed_below root v v' : trimmed root v v' → secret_below (drop_defaults root root) v' → secret_below root v.
Proof.
  intros Ht (w' & Hw & Hm). assert (H : ∃ w, rtc (leads root) v w ∧ trimmed root w w').
  { clear Hm. revert v Ht. induction Hw as [x|x y z Hxy _ IH]; intros v Ht; [exists v; split; [apply rtc_refl|done]|].
    assert (Hy : ∃ c, leads root v c ∧ trimmed root c y).
    { destruct Hxy as [Hp|(r & Hr & Hrt)].
      - destruct (trimmed_part root v x y Ht Hp) as (c & ? & ?). exists c. split; [by left|done].
      - revert Hrt. unfold referred. destruct (strip_hash r) as [p|] eqn:Ep; [|done]. cbn [mbind option_bind]. unfold pointer.
        assert (Hroot : trimmed root root (drop_defaults root root)) by by left.
        assert (Href : reference v = Some r) by by eapply trimmed_reference. destruct p as [|c p].
        + intros [= <-]. exists root. split; [|done]. right. exists r. split; [done|]. unfold referred. by rewrite Ep.
        + destruct (c =? SLASH)%N eqn:Ec; [|done]. intros Hf. destruct (trimmed_follow root _ _ _ _ Hroot Hf) as (t & Hft & ?). exists t. split; [|done].
          right. exists r. split; [done|]. unfold referred. rewrite Ep. cbn [mbind option_bind]. unfold pointer. by rewrite Ec. }
    destruct Hy as (c & Hc & Hcy). destruct (IH c Hcy) as (w & ? & ?). exists w. split; [by eapply rtc_l|done]. }
  destruct H as (w & ? & Hw'). exists w. split; [done|]. by eapply trimmed_mark.
Qed.

(** Parts of the trimmed schema are trimmed parts. *)
Lemma parts_dropped root v n' : rtc part (drop_defaults root v) n' → ∃ n, rtc part v n ∧ n' = drop_defaults root n.
Proof.
  intros H. remember (drop_defaults root v) as v' eqn:E. revert v E. induction H as [x|x y z Hxy _ IH]; intros v ->; [exists v; split; [apply rtc_refl|done]|].
  assert (Hy : ∃ c, part v c ∧ y = drop_defaults root c).
  { destruct v as [| | | |l|m]; cbn [drop_defaults] in Hxy; inversion Hxy as [? key ? Hin Hk|? ? Hin]; subst.
    - apply list_elem_of_In, in_map_iff in Hin as (c & <- & Hin). exists c. split; [constructor; by apply list_elem_of_In|done].
    - apply drop_fields_elem in Hin as (c & Hin & Hc). rewrite bool_decide_false in Hc by done. exists c. split; [by econstructor|done]. }
  destruct Hy as (c & Hc & ->). destruct (IH c eq_refl) as (n & ? & ->). exists n. split; [by eapply rtc_l|done].
Qed.

Lemma dropped_default schema n d : rtc part (drop_secret_defaults schema) n → get (lit "default") n = Some d → ¬ secret_below (drop_secret_defaults schema) n.
Proof.
  intros (n0 & _ & ->)%parts_dropped Hd Hs. apply (trimmed_below schema n0) in Hs; [|by left]. apply holds_secret_spec in Hs.
  destruct n0; try done. cbn [drop_defaults get] in Hd. apply drop_fields_field in Hd as (c & _ & Hc). rewrite bool_decide_true in Hc by done. destruct Hc. congruence.
Qed.

(** The tokens a reference follows. *)
Definition reference_tokens (r : Text) : list Text := match strip_hash r with Some (c :: rest) => unescape_token <$> split_tokens rest | _ => [] end.

(** The references of the schema are to its own definitions, and none leads into a [default]. *)
Definition own_references (schema : V) : Prop :=
  ∀ r, r ∈ references schema → is_Some (strip_text DEFS r) ∧ lit "default" ∉ reference_tokens r.

Lemma follow_parts tokens (v t : V) : follow tokens v = Some t → lit "default" ∉ tokens → rtc part v t.
Proof.
  revert v. induction tokens as [|token tokens IH]; intros v; cbn [follow]; [intros [= ->] _; apply rtc_refl|].
  destruct (follow_token token v) as [c|] eqn:E; [|done]. cbn [mbind option_bind]. intros Ht [Hd Hn]%not_elem_of_cons.
  eapply rtc_l; [|by apply IH]. destruct v; try done; cbn [follow_token] in E.
  - destruct (parse_index token) as [i|]; [|done]. constructor. by eapply list_elem_of_lookup_2.
  - econstructor; [by eapply field_elem|done].
Qed.

Lemma referred_parts root r (t : V) : referred root r = Some t → lit "default" ∉ reference_tokens r → rtc part root t.
Proof.
  unfold referred, reference_tokens. destruct (strip_hash r) as [[|c rest]|]; [intros [= ->]; by intros; apply rtc_refl| |done].
  cbn [mbind option_bind pointer]. destruct (c =? SLASH)%N; [|done]. apply follow_parts.
Qed.

Lemma dropped_reference schema n r : rtc part (drop_secret_defaults schema) n → reference n = Some r → r ∈ references schema.
Proof.
  intros (n0 & Hn & ->)%parts_dropped Hr. eapply references_part; [exact Hn|]. eapply (trimmed_reference schema n0); [by left|done].
Qed.

Lemma referred_dropped schema n r t : own_references schema → rtc part (drop_secret_defaults schema) n → reference n = Some r →
  referred (drop_secret_defaults schema) r = Some t → rtc part (drop_secret_defaults schema) t.
Proof. intros Hp Hn Hr Ht. eapply referred_parts; [exact Ht|]. by eapply Hp, dropped_reference. Qed.
End secrets.
