(* ===== verification/ConfigTheorems.v ===== *)
(** * Launch documents

    References keep their meaning when a class is placed in a document; an untouched template
    sends nothing, and a rerun sends what its run sent. *)

From S2P Require Import Prelude JsonText JsonParse ConfigSchema ConfigSecrets.

(** ** Maps *)
Section maps.
Context {Num : Type}.

#[local] Abbreviation V := (Value Num).

Lemma text_ltb_irrefl a : text_ltb a a = false.
Proof. induction a as [|x a IH]; [done|]. cbn. by rewrite N.eqb_refl. Qed.

Lemma text_ltb_trans a b c : text_ltb a b = true → text_ltb b c = true → text_ltb a c = true.
Proof.
  revert b c. induction a as [|x a IH]; intros [|y b] [|z c]; cbn; try done.
  destruct (N.eqb_spec x y) as [->|Hxy], (N.eqb_spec y z) as [->|Hyz]; cbn.
  - apply IH.
  - done.
  - intros H _. destruct (N.eqb_spec x z); [done|]. done.
  - rewrite !N.ltb_lt. intros H1 H2. destruct (N.eqb_spec x z); [lia|]. apply N.ltb_lt. lia.
Qed.

Lemma text_ltb_total a b : text_ltb a b = false → a = b ∨ text_ltb b a = true.
Proof.
  revert b. induction a as [|x a IH]; intros [|y b]; cbn; [by left|done|by right|].
  rewrite (N.eqb_sym y x). destruct (N.eqb_spec x y) as [->|Hxy]; [intros [->|?]%IH; [by left|by right]|].
  rewrite N.ltb_ge. intros H. right. apply N.ltb_lt. lia.
Qed.

Definition sorted_fields (m : Fields Num) : Prop := StronglySorted (λ a b, text_ltb a b = true) m.*1.

(** Every object lists its fields in the order of their keys. *)
Fixpoint maps_ok (v : V) : Prop :=
  match v with
  | VObject m => sorted_fields m ∧ foldr (λ f P, maps_ok f.2 ∧ P) True m
  | VArray l => foldr (λ v P, maps_ok v ∧ P) True l
  | _ => True
  end.

Lemma maps_ok_field (m : Fields Num) key v : maps_ok (VObject m) → (key, v) ∈ m → maps_ok v.
Proof.
  intros [_ H]. induction m as [|[k x] m IH]; [by intros ?%elem_of_nil|]. destruct H as [Hx Hm]. intros [[= -> ->]|?]%elem_of_cons; auto.
Qed.

Lemma field_None key (m : Fields Num) : field key m = None ↔ key ∉ m.*1.
Proof.
  induction m as [|[k v] m IH]; cbn; [split; [by intros _ ?%elem_of_nil|done]|]. rewrite elem_of_cons. case_bool_decide as Hk; [split; [done|intros []; by left]|].
  rewrite IH. split; [intros H [->|?]; auto|auto].
Qed.

Lemma sorted_cons k v (m : Fields Num) : sorted_fields ((k, v) :: m) → sorted_fields m ∧ ∀ key x, field key m = Some x → text_ltb k key = true.
Proof.
  intros H. inversion H as [|? ? Hs Hf]; subst. split; [done|]. intros key x Hx%field_elem. rewrite Forall_forall in Hf. apply Hf.
  apply list_elem_of_fmap. by exists (key, x).
Qed.

Lemma sorted_head k v (m : Fields Num) : sorted_fields ((k, v) :: m) → field k m = None.
Proof. intros [_ H]%sorted_cons. destruct (field k m) as [x|] eqn:E; [|done]. specialize (H k x E). by rewrite text_ltb_irrefl in H. Qed.

(** Sorted maps with the same fields are the same. *)
Lemma sorted_ext (m1 m2 : Fields Num) : sorted_fields m1 → sorted_fields m2 → (∀ key, field key m1 = field key m2) → m1 = m2.
Proof.
  revert m2. induction m1 as [|[k1 v1] m1 IH]; intros [|[k2 v2] m2] S1 S2 H; [done|..].
  - specialize (H k2). cbn in H. by rewrite bool_decide_true in H.
  - specialize (H k1). cbn in H. by rewrite bool_decide_true in H.
  - destruct (sorted_cons _ _ _ S1) as [T1 L1], (sorted_cons _ _ _ S2) as [T2 L2].
    assert (Hk : k1 = k2).
    { pose proof (H k1) as H1. pose proof (H k2) as H2. cbn in H1, H2. rewrite (bool_decide_true (k1 = k1)) in H1 by done. rewrite (bool_decide_true (k2 = k2)) in H2 by done.
      case_bool_decide as E1; [done|]. case_bool_decide as E2; [done|]. pose proof (text_ltb_trans _ _ _ (L2 _ _ (eq_sym H1)) (L1 _ _ H2)) as Hc.
      by rewrite text_ltb_irrefl in Hc. }
    subst k2. pose proof (H k1) as H1. cbn in H1. rewrite !bool_decide_true in H1 by done. injection H1 as ->. f_equal. apply IH; [done|done|].
    intros key. specialize (H key). cbn in H. case_bool_decide as Ek; [|done]. subst key. by rewrite (sorted_head _ _ _ S1), (sorted_head _ _ _ S2).
Qed.

Lemma field_insert key k (v : V) m : field key (insert_field k v m) = if bool_decide (k = key) then Some v else field key m.
Proof.
  induction m as [|[l x] m IH]; cbn [insert_field field]; [done|].
  destruct (bool_decide (l = k)) eqn:E1.
  - apply bool_decide_eq_true in E1 as ->. cbn [field]. by case_bool_decide.
  - destruct (text_ltb k l) eqn:E2; cbn [field]; [done|]. rewrite IH. destruct (bool_decide (k = key)) eqn:E3; [|done].
    apply bool_decide_eq_true in E3 as ->. by rewrite E1.
Qed.

Lemma insert_elem k (v : V) m x : x ∈ (insert_field k v m).*1 → x = k ∨ x ∈ m.*1.
Proof.
  induction m as [|[l y] m IH]; cbn [insert_field]; [intros ->%list_elem_of_singleton; by left|].
  case_bool_decide; [|destruct (text_ltb k l)]; cbn; rewrite !elem_of_cons; [tauto|tauto|]. intros [?|[?|?]%IH]; auto.
Qed.

Lemma insert_sorted k (v : V) m : sorted_fields m → sorted_fields (insert_field k v m).
Proof.
  unfold sorted_fields. induction m as [|[l x] m IH]; cbn; [by repeat constructor|]. intros H. inversion H as [|? ? Hs Hf]; subst.
  case_bool_decide as E1; [subst; by constructor|]. destruct (text_ltb k l) eqn:E2; cbn.
  - constructor; [done|]. constructor; [done|]. eapply Forall_impl; [exact Hf|]. intros y Hy. by eapply text_ltb_trans.
  - constructor; [auto|]. apply Forall_forall. intros y [->|Hy]%insert_elem; [|by eapply Forall_forall in Hf].
    destruct (text_ltb_total _ _ E2); [congruence|done].
Qed.

(** ** Laying one map over another *)
Lemma overlay_fields_sorted go (t b : Fields Num) : sorted_fields b → sorted_fields (overlay_fields go t b).
Proof. revert b. induction t as [|[k v] t IH]; intros b Hb; cbn; [done|]. by apply IH, insert_sorted. Qed.

Lemma overlay_fields_field go (t b : Fields Num) key : sorted_fields t →
  field key (overlay_fields go t b) =
  match field key t with Some v => Some (match field key b with Some slot => go v slot | None => v end) | None => field key b end.
Proof.
  revert b. induction t as [|[k v] t IH]; intros b Ht; cbn [overlay_fields field]; [done|]. destruct (sorted_cons _ _ _ Ht) as [Ht' _].
  rewrite IH by done. rewrite field_insert. case_bool_decide as E; [|done]. subst k. by rewrite (sorted_head _ _ _ Ht).
Qed.
End maps.

(** ** Template and payload *)
Section payload.
Context {Num : Type} (num_eqb : Num → Num → bool) (num_refl : ∀ n, num_eqb n n = true).

#[local] Abbreviation V := (Value Num).

Lemma value_eqb_refl (v : V) : value_eqb num_eqb v v = true.
Proof.
  induction v as [|b|n|s|l IH|m IH] using value_induction; cbn; [done|by destruct b|done|by apply bool_decide_eq_true|..].
  - induction IH as [|v l Hv _ IH]; [done|]. by rewrite Hv.
  - induction IH as [|[k v] m Hv _ IH]; [done|]. cbn in Hv. by rewrite bool_decide_true, Hv.
Qed.

Section document.
Context (root : V).

(** What a field keeps of its value. *)
Definition kept (props : option (Fields Num)) (key : Text) (child : V) : option V :=
  match props ≫= field key with
  | Some prop => if equals_default num_eqb root prop child then None else compact_at num_eqb root prop child
  | None => Some child
  end.

Lemma compact_fields_cons props key child (m : Fields Num) :
  compact_fields num_eqb root (compact_at num_eqb root) props ((key, child) :: m) =
  match kept props key child with Some k => (key, k) :: compact_fields num_eqb root (compact_at num_eqb root) props m
  | None => compact_fields num_eqb root (compact_at num_eqb root) props m end.
Proof. done. Qed.

Lemma compact_fields_elem props (m : Fields Num) x : x ∈ (compact_fields num_eqb root (compact_at num_eqb root) props m).*1 → x ∈ m.*1.
Proof.
  induction m as [|[k v] m IH]; [done|]. rewrite compact_fields_cons. destruct (kept props k v); cbn; rewrite ?elem_of_cons; [intros [?|?]; auto|auto].
Qed.

Lemma compact_fields_sorted props (m : Fields Num) : sorted_fields m → sorted_fields (compact_fields num_eqb root (compact_at num_eqb root) props m).
Proof.
  unfold sorted_fields. induction m as [|[k v] m IH]; [done|]. intros H. inversion H as [|? ? Hs Hf]; subst. rewrite compact_fields_cons.
  destruct (kept props k v); [|auto]. cbn. constructor; [auto|]. apply Forall_forall. intros y Hy%compact_fields_elem. by eapply Forall_forall in Hf.
Qed.

Lemma compact_fields_field props (m : Fields Num) key : sorted_fields m →
  field key (compact_fields num_eqb root (compact_at num_eqb root) props m) = field key m ≫= kept props key.
Proof.
  induction m as [|[k v] m IH]; [done|]. intros Hs. destruct (sorted_cons _ _ _ Hs) as [Hs' _]. specialize (IH Hs'). rewrite compact_fields_cons. cbn [field].
  destruct (bool_decide (k = key)) eqn:Ek.
  - apply bool_decide_eq_true in Ek as ->. cbn [mbind option_bind]. destruct (kept props key v) as [x|]; [cbn; by rewrite bool_decide_true|].
    rewrite IH. by rewrite (sorted_head _ _ _ Hs).
  - rewrite <- IH. destruct (kept props k v); [cbn; by rewrite Ek|done].
Qed.

Lemma compact_object node (m : Fields Num) :
  compact_at num_eqb root node (VObject m) =
  let out := compact_fields num_eqb root (compact_at num_eqb root) (get (lit "properties") node ≫= as_object) m in
  if bool_decide (out = []) && container node then None else Some (VObject out).
Proof. done. Qed.

Lemma template_properties_eq (go : V → option V) m :
  template_properties go m = match field (lit "properties") m with Some (VObject ps) => template_section go ps | _ => None end.
Proof. induction m as [|[k v] m IH]; [done|]. cbn [template_properties field]. by case_bool_decide. Qed.

Lemma template_fields_elem (go : V → option V) ps name t : (name, t) ∈ template_fields go ps → ∃ prop, (name, prop) ∈ ps ∧ go prop = Some t.
Proof.
  induction ps as [|[n p] ps IH]; [by intros ?%elem_of_nil|]. cbn [template_fields]. destruct (go p) as [x|] eqn:E.
  - intros [[= -> ->]|(q & ? & ?)%IH]%elem_of_cons; [exists p; split; [left|done]|exists q; split; [by right|done]].
  - intros (q & ? & ?)%IH. exists q. split; [by right|done].
Qed.

Lemma template_fields_keys (go : V → option V) ps x : x ∈ (template_fields go ps).*1 → x ∈ ps.*1.
Proof. intros ([k t] & -> & (p & Hp & _)%template_fields_elem)%list_elem_of_fmap. apply list_elem_of_fmap. by exists (k, p). Qed.

Lemma template_fields_sorted (go : V → option V) ps : sorted_fields ps → sorted_fields (template_fields go ps).
Proof.
  unfold sorted_fields. induction ps as [|[k v] ps IH]; [done|]. intros H. inversion H as [|? ? Hs Hf]; subst. cbn [template_fields].
  destruct (go v); [|auto]. cbn. constructor; [auto|]. apply Forall_forall. intros y Hy%template_fields_keys. by eapply Forall_forall in Hf.
Qed.

Lemma template_fields_field (go : V → option V) ps key : sorted_fields ps → field key (template_fields go ps) = field key ps ≫= go.
Proof.
  induction ps as [|[k v] ps IH]; [done|]. intros Hs. destruct (sorted_cons _ _ _ Hs) as [Hs' _]. specialize (IH Hs'). cbn [template_fields field].
  destruct (bool_decide (k = key)) eqn:Ek.
  - apply bool_decide_eq_true in Ek as ->. cbn [mbind option_bind]. destruct (go v); [cbn; by rewrite bool_decide_true|].
    rewrite IH. by rewrite (sorted_head _ _ _ Hs).
  - rewrite <- IH. destruct (go v); [cbn; by rewrite Ek|done].
Qed.

(** A template is a default, or a section of templates. *)
Inductive templated (node : V) : V → Prop :=
| tp_default d : holds_secret root node = false → default_of root node = Some d → templated node d
| tp_section ps : container node = true → get (lit "properties") node = Some (VObject ps) → templated node (VObject (template_fields (template_of root) ps)).

Lemma template_templated node t : template_of root node = Some t → templated node t.
Proof.
  intros H. assert (Hm : match (if holds_secret root node then None else default_of root node) with
    | Some d => Some d | None => if negb (container node) then None else match node with VObject m => template_properties (template_of root) m | _ => None end end = Some t)
    by (by destruct node). revert Hm. clear H. destruct (holds_secret root node) eqn:Hs; [|destruct (default_of root node) as [d|] eqn:Hd; [intros [= <-]; by constructor|]].
  all: destruct (container node) eqn:Hc; cbn [negb]; [|done]; destruct node as [| | | | |m]; try done; rewrite template_properties_eq;
    destruct (field (lit "properties") m) as [[| | | | |ps]|] eqn:Ep; try done; unfold template_section; cbv zeta; destruct (_ || _); [|done];
    intros [= <-]; by apply tp_section.
Qed.

Lemma properties_ok (node : V) ps : maps_ok node → get (lit "properties") node = Some (VObject ps) → maps_ok (VObject ps).
Proof. destruct node as [| | | | |m]; try done. cbn [get]. intros Hok H%field_elem. by eapply maps_ok_field. Qed.

(** A template is equal to the default, or nothing of it is left. *)
Definition untouched (node : V) : Prop := ∀ t, maps_ok node → template_of root node = Some t →
  equals_default num_eqb root node t = true ∨ (container node = true ∧ compact_at num_eqb root node t = None).

Lemma template_untouched node : untouched node ∧ match node with VObject m => Forall (λ f, untouched f.2) m | _ => True end.
Proof.
  induction node as [|b|n|s|l IH|m IH] using value_induction.
  1-5: split; [|done]; intros t _ Ht%template_templated; destruct Ht as [d _ Hd|ps Hc _]; [left; unfold equals_default; rewrite Hd; apply value_eqb_refl|done].
  split; [|eapply Forall_impl; [exact IH|]; by intros f [? _]].
  intros t Hok Ht%template_templated. destruct Ht as [d _ Hd|ps Hc Hps]; [left; unfold equals_default; rewrite Hd; apply value_eqb_refl|]. right. split; [done|].
  rewrite compact_object. cbv zeta. rewrite Hps, Hc, andb_true_r. cbn [mbind option_bind as_object].
  pose proof (properties_ok _ _ Hok Hps) as Hpok. pose proof Hpok as [Hsort _].
  assert (Hf : Forall (λ f, untouched f.2) ps).
  { cbn [get] in Hps. apply field_elem in Hps. rewrite Forall_forall in IH. destruct (IH _ Hps) as [_ H]. exact H. }
  rewrite bool_decide_true; [done|]. apply sorted_ext; [by apply compact_fields_sorted, template_fields_sorted|constructor|].
  intros key. rewrite compact_fields_field by (by apply template_fields_sorted). rewrite template_fields_field by done.
  destruct (field key ps) as [prop|] eqn:Ek; [|done]. cbn [mbind option_bind]. destruct (template_of root prop) as [t|] eqn:Et; [|done]. cbn [mbind option_bind].
  unfold kept. cbn [mbind option_bind]. rewrite Ek. rewrite Forall_forall in Hf. apply field_elem in Ek as Hin.
  pose proof (Hf _ Hin t (maps_ok_field _ _ _ Hpok Hin) Et) as H. cbn [snd] in H. destruct H as [->|[_ Hn]]; [done|]. by destruct (equals_default num_eqb root prop t).
Qed.
(** ** A rerun *)

(** No object of the document lies where the default is an object, which [overlay] would
    merge with it. *)
Fixpoint no_merge (v node : V) : Prop :=
  match v with
  | VObject m =>
      foldr (λ f P, match (get (lit "properties") node ≫= as_object) ≫= field f.1 with
        | Some prop => (is_object f.2 = true → match default_of root prop with Some d => is_object d = false | None => True end) ∧ no_merge f.2 prop
        | None => True end ∧ P) True m
  | _ => True
  end.

Lemma no_merge_field (m : Fields Num) node key c prop : no_merge (VObject m) node → (key, c) ∈ m →
  (get (lit "properties") node ≫= as_object) ≫= field key = Some prop →
  (is_object c = true → match default_of root prop with Some d => is_object d = false | None => True end) ∧ no_merge c prop.
Proof.
  intros H Hin Hp. cbn [no_merge] in H. induction m as [|[k x] m IH]; [by apply elem_of_nil in Hin|]. destruct H as [H1 H2].
  apply elem_of_cons in Hin as [[= <- <-]|Hin]; [|auto]. cbn [fst snd] in H1. by rewrite Hp in H1.
Qed.

Lemma overlay_not_object (slot v : V) : is_object slot && is_object v = false → overlay slot v = v.
Proof. by destruct slot, v. Qed.

Lemma equals_default_object prop (m1 m2 : Fields Num) : match default_of root prop with Some d => is_object d = false | None => True end →
  equals_default num_eqb root prop (VObject m1) = equals_default num_eqb root prop (VObject m2).
Proof. unfold equals_default. destruct (default_of root prop) as [[]|]; done. Qed.

(** What the template adds to a document is not sent. *)
Lemma overlay_compact (v : V) : ∀ node ps, maps_ok v → maps_ok node → container node = true → get (lit "properties") node = Some (VObject ps) →
  is_object v = true → no_merge v node →
  compact_at num_eqb root node (overlay (VObject (template_fields (template_of root) ps)) v) = compact_at num_eqb root node v.
Proof.
  induction v as [|b|n|s|l IH|m IH] using value_induction; intros node ps Hv Hn Hc Hps Ho Hm; try done. clear Ho.
  cbn [overlay]. rewrite !compact_object. cbv zeta. rewrite Hps. cbn [mbind option_bind as_object].
  pose proof (properties_ok _ _ Hn Hps) as Hpok. pose proof Hpok as [Hsort _]. pose proof Hv as [Hmsort _].
  assert (Hb : sorted_fields (template_fields (template_of root) ps)) by by apply template_fields_sorted.
  assert (E : compact_fields num_eqb root (compact_at num_eqb root) (Some ps) (overlay_fields (λ value slot, overlay slot value) m (template_fields (template_of root) ps)) =
    compact_fields num_eqb root (compact_at num_eqb root) (Some ps) m); [|by rewrite E].
  apply sorted_ext; [by apply compact_fields_sorted, overlay_fields_sorted|by apply compact_fields_sorted|]. intros key.
  rewrite !compact_fields_field by (try apply overlay_fields_sorted; done). rewrite overlay_fields_field by done. rewrite template_fields_field by done.
  destruct (field key m) as [c|] eqn:Em; cbn [mbind option_bind].
  - apply field_elem in Em as Hin. destruct (field key ps) as [prop|] eqn:Ep; [|done]. cbn [mbind option_bind].
    destruct (template_of root prop) as [slot|] eqn:Et; [|done].
    destruct (is_object slot && is_object c) eqn:Ho; [|by rewrite overlay_not_object]. apply andb_true_iff in Ho as [Hslot Hobj].
    destruct (no_merge_field m node key c prop Hm Hin) as [Hd Hm']; [rewrite Hps; cbn; done|]. specialize (Hd Hobj).
    unfold kept. cbn [mbind option_bind]. rewrite Ep. destruct c as [| | | | |mc]; try done.
    destruct (template_templated prop slot Et) as [d _ Hdef|ps' Hc' Hps']; [rewrite Hdef in Hd; congruence|].
    pose proof (field_elem _ _ _ Ep) as Hinp. rewrite Forall_forall in IH.
    pose proof (IH _ Hin prop ps' (maps_ok_field _ _ _ Hv Hin) (maps_ok_field _ _ _ Hpok Hinp) Hc' Hps' eq_refl Hm') as Hi. cbn [snd] in Hi. rewrite Hi.
    change (overlay (VObject (template_fields (template_of root) ps')) (VObject mc)) with
      (VObject (overlay_fields (λ value slot, overlay slot value) mc (template_fields (template_of root) ps'))).
    by rewrite (equals_default_object prop _ mc Hd).
  - destruct (field key ps) as [prop|] eqn:Ep; [|done]. cbn [mbind option_bind]. destruct (template_of root prop) as [slot|] eqn:Et; [|done]. cbn [mbind option_bind].
    unfold kept. cbn [mbind option_bind]. rewrite Ep. pose proof (field_elem _ _ _ Ep) as Hinp.
    destruct (proj1 (template_untouched prop) slot (maps_ok_field _ _ _ Hpok Hinp) Et) as [->|[_ Hnone]]; [done|]. by destruct (equals_default num_eqb root prop slot).
Qed.

Lemma compact_not_object node (c k : V) : compact_at num_eqb root node c = Some k → is_object k = false → c = k.
Proof.
  destruct c as [| | | | |m]; try (by intros [= <-]). rewrite compact_object. cbv zeta. destruct (_ && _); [done|]. by intros [= <-].
Qed.

(** What was sent is sent again. *)
Lemma compact_again (v : V) : ∀ node p, maps_ok v → compact_at num_eqb root node v = Some p → no_merge p node → compact_at num_eqb root node p = Some p.
Proof.
  induction v as [|b|n|s|l IH|m IH] using value_induction; intros node p Hv; try (by intros [= <-]). rewrite compact_object. cbv zeta.
  set (props := get (lit "properties") node ≫= as_object). set (out := compact_fields num_eqb root (compact_at num_eqb root) props m).
  destruct (bool_decide (out = []) && container node) eqn:Eo; [done|]. intros [= <-] Hm. rewrite compact_object. cbv zeta. fold props.
  pose proof Hv as [Hs _]. assert (Hos : sorted_fields out) by by apply compact_fields_sorted.
  assert (E : compact_fields num_eqb root (compact_at num_eqb root) props out = out); [|by rewrite E, Eo].
  apply sorted_ext; [by apply compact_fields_sorted|done|]. intros key. rewrite compact_fields_field by done.
  destruct (field key out) as [k|] eqn:Ek; [|done]. cbn [mbind option_bind]. apply field_elem in Ek as Hink. revert Ek. unfold out. rewrite compact_fields_field by done.
  destruct (field key m) as [c|] eqn:Ec; [|done]. cbn [mbind option_bind]. apply field_elem in Ec as Hin. unfold kept.
  destruct (props ≫= field key) as [prop|] eqn:Ep; [|done]. destruct (equals_default num_eqb root prop c) eqn:Ed; [done|]. intros Hk.
  destruct (no_merge_field out node key k prop Hm Hink Ep) as [Hd Hm']. rewrite Forall_forall in IH.
  pose proof (IH _ Hin prop k (maps_ok_field _ _ _ Hv Hin) Hk Hm') as Hi. rewrite Hi.
  assert (Hdk : equals_default num_eqb root prop k = false); [|by rewrite Hdk].
  destruct (is_object k) eqn:Ho; [|by rewrite <- (compact_not_object _ _ _ Hk Ho)].
  specialize (Hd eq_refl). unfold equals_default. destruct k; try done. by destruct (default_of root prop) as [[]|].
Qed.
End document.

(** A document with fields and no default of its own. *)
Lemma template_sends_nothing (root : V) :
  maps_ok root → container root = true → default_of root root = None → compact num_eqb root (template root) = None.
Proof.
  intros Hok Hc Hd. unfold compact, template. destruct (template_of root root) as [t|] eqn:Et.
  - cbn [default]. destruct (proj1 (template_untouched root root) t Hok Et) as [H|[_ H]]; [|done]. unfold equals_default in H. by rewrite Hd in H.
  - cbn [default]. rewrite compact_object. cbn. by rewrite Hc.
Qed.

(** The payload of a document laid over the template is the payload of the document. *)
Lemma overlay_adds_nothing (root p : V) :
  maps_ok root → container root = true → default_of root root = None → maps_ok p → no_merge root p root →
  compact num_eqb root (overlay (template root) p) = compact num_eqb root p.
Proof.
  intros Hok Hc Hd Hp Hm. unfold compact in *. destruct (is_object p) eqn:Ho; [|by rewrite overlay_not_object by (by rewrite Ho, andb_false_r)].
  assert (Hps : ∃ ps, get (lit "properties") root = Some (VObject ps)).
  { unfold container in Hc. apply andb_true_iff in Hc as [_ Hc]. destruct (get (lit "properties") root) as [[| | | | |ps]|]; try done. eauto. }
  destruct Hps as [ps Hps]. assert (Ht : template root = VObject (template_fields (template_of root) ps)).
  { unfold template. destruct root as [| | | | |m]; try done. cbn [template_of]. rewrite Hd, Hc. cbn [negb get] in *.
    replace (if holds_secret (VObject m) (VObject m) then None else None) with (@None V) by (by destruct (holds_secret _ _)).
    rewrite template_properties_eq, Hps. unfold template_section. cbv zeta. destruct (_ || _) eqn:E; [done|]. apply orb_false_iff in E as [_ E].
    apply negb_false_iff, bool_decide_eq_true in E. by rewrite E. }
  by rewrite Ht, (overlay_compact root p root ps).
Qed.
End payload.

(** ** References of a class in a document *)
Section inlined.
Context {Num : Type}.

#[local] Abbreviation V := (Value Num).

Lemma replace_other a b c x t : x ≠ a → replace_pair a b c (x :: t) = x :: replace_pair a b c t.
Proof. intros H. destruct t as [|y t]; [done|]. cbn [replace_pair]. by rewrite (proj2 (N.eqb_neq x a) H). Qed.

Lemma unescape_escape t : unescape_token (escape_token t) = t.
Proof.
  assert (H1 : replace_pair TILDE 49 SLASH (escape_token t) = t ≫= λ c, if (c =? TILDE)%N then [TILDE; 48%N] else [c]).
  { induction t as [|c t IH]; [done|]. unfold escape_token in *. cbn [mbind list_bind]. destruct (N.eqb_spec c TILDE) as [->|Ht]; cbn [app].
    - change (replace_pair TILDE 49 SLASH (TILDE :: 48%N :: (t ≫= λ c, if (c =? TILDE)%N then [TILDE; 48%N] else if (c =? SLASH)%N then [TILDE; 49%N] else [c])))
        with (TILDE :: replace_pair TILDE 49 SLASH (48%N :: (t ≫= λ c, if (c =? TILDE)%N then [TILDE; 48%N] else if (c =? SLASH)%N then [TILDE; 49%N] else [c]))).
      rewrite replace_other by done. by rewrite IH.
    - destruct (N.eqb_spec c SLASH) as [->|Hs]; cbn [app]; [cbn [replace_pair]; by rewrite IH|]. rewrite replace_other by done. by rewrite IH. }
  unfold unescape_token. rewrite H1. clear H1. induction t as [|c t IH]; [done|]. cbn [mbind list_bind]. destruct (N.eqb_spec c TILDE) as [->|Ht]; cbn [app].
  - cbn [replace_pair]. by rewrite IH.
  - rewrite replace_other by done. by rewrite IH.
Qed.

Lemma escape_no_slash t : SLASH ∉ escape_token t.
Proof.
  unfold escape_token. intros (c & Hc & _)%list_elem_of_bind. revert Hc. destruct (N.eqb_spec c TILDE) as [->|]; [|destruct (N.eqb_spec c SLASH) as [->|Hs]].
  - rewrite elem_of_cons, list_elem_of_singleton. by intros [?|?].
  - rewrite elem_of_cons, list_elem_of_singleton. by intros [?|?].
  - rewrite list_elem_of_singleton. congruence.
Qed.

Lemma split_tokens_app a b : SLASH ∉ a → split_tokens (a ++ SLASH :: b) = a :: split_tokens b.
Proof.
  induction a as [|c a IH]; [done|]. intros [Hc Ha]%not_elem_of_cons. cbn [app split_tokens]. rewrite (proj2 (N.eqb_neq c SLASH)) by congruence. by rewrite (IH Ha).
Qed.

(** A pointer below a path. *)
Lemma pointer_below path q (v : V) : pointer (base_of path ++ SLASH :: q) v = follow path v ≫= pointer (SLASH :: q).
Proof.
  revert v. induction path as [|seg path IH]; intros v; [done|]. unfold base_of. cbn [mbind list_bind app follow]. fold (base_of path).
  assert (Hq : ∃ q', base_of path ++ SLASH :: q = SLASH :: q') by (unfold base_of; destruct path; cbn; eauto). destruct Hq as [q' Hq'].
  rewrite <- (assoc_L (++)). rewrite Hq'. unfold pointer at 1. rewrite N.eqb_refl. rewrite split_tokens_app by apply escape_no_slash.
  cbn [fmap list_fmap follow]. rewrite unescape_escape. destruct (follow_token seg v) as [c|]; [|done]. cbn [mbind option_bind].
  rewrite <- IH, Hq'. unfold pointer. by rewrite N.eqb_refl.
Qed.

Lemma field_rebase base go key (m : Fields Num) c : field key m = Some c →
  field key (List.map (rebase_field base go) m) = Some (rebase_field base go (key, c)).2.
Proof.
  induction m as [|[k v] m IH]; [done|]. cbn [field List.map]. unfold rebase_field at 1. cbn [field]. case_bool_decide as E; [intros [= ->]; by subst|exact IH].
Qed.

Lemma follow_rebase base tokens (v t : V) : follow tokens v = Some t → as_str t = None → follow tokens (rebase_refs base v) = Some (rebase_refs base t).
Proof.
  intros H Ht. revert v H. induction tokens as [|token tokens IH]; intros v; cbn [follow]; [by intros [= ->]|].
  destruct (follow_token token v) as [c|] eqn:E; [|done]. cbn [mbind option_bind]. intros Hf.
  assert (Hs : as_str c = None).
  { destruct c as [| | |s| |]; try done. destruct tokens; [injection Hf as <-; by cbn in Ht|done]. }
  assert (Hc : follow_token token (rebase_refs base v) = Some (rebase_refs base c)).
  { destruct v as [| | | |l|m]; try done; cbn [rebase_refs follow_token] in *.
    - destruct (parse_index token) as [i|]; [|done]. cbn [mbind option_bind] in *. change (List.map (rebase_refs base) l) with (rebase_refs base <$> l).
      by rewrite list_lookup_fmap, E.
    - rewrite (field_rebase _ _ _ _ _ E). unfold rebase_field. cbn [snd]. by destruct c. }
  rewrite Hc. cbn [mbind option_bind]. by apply IH.
Qed.

Lemma strip_text_eq p t rest : strip_text p t = Some rest → t = p ++ rest.
Proof.
  revert t. induction p as [|x p IH]; intros t; [by intros [= ->]|]. destruct t as [|y t]; [done|]. cbn [strip_text].
  destruct (N.eqb_spec x y) as [->|]; [|done]. intros ->%IH. done.
Qed.

(** C40: wherever a class schema is placed in a document, under keys with any characters, each
    of its references to its own definitions leads, in the document, to what it led to in the
    class, placed the same way. *)
Theorem inlined_reference_resolves (doc schema c : V) path r rest t :
  inline (Some schema) path = Some c → follow path doc = Some c → strip_text DEFS r = Some rest →
  referred (drop_secret_defaults schema) r = Some t → as_str t = None →
  referred doc (rebased (base_of path) r) = Some (rebase_refs (base_of path) t).
Proof.
  unfold inline. cbn [mbind option_bind]. destruct (is_object schema); [|done]. intros [= <-] Hdoc Hr Ht Hs.
  unfold rebased. rewrite Hr. pose proof (strip_text_eq _ _ _ Hr) as ->. change (lit "#") with [HASH]. unfold referred in *. cbn [app strip_hash]. rewrite N.eqb_refl.
  cbn [mbind option_bind]. change (lit "/$defs/" ++ rest) with (SLASH :: (lit "$defs/" ++ rest)). rewrite pointer_below, Hdoc. cbn [mbind option_bind].
  change (DEFS ++ rest) with (HASH :: SLASH :: (lit "$defs/" ++ rest)) in Ht. cbn [strip_hash] in Ht. rewrite N.eqb_refl in Ht. cbn [mbind option_bind pointer] in Ht.
  rewrite N.eqb_refl in Ht. cbn [pointer]. rewrite N.eqb_refl. by apply follow_rebase.
Qed.

(** ** A class as it is placed *)
Section placed.
Context (doc schema : V) (path : list Text).
Context (Hdoc : follow path doc = Some (rebase_refs (base_of path) (drop_secret_defaults schema))) (Hrefs : own_references schema).

#[local] Abbreviation base := (base_of path).
#[local] Abbreviation dropped := (drop_secret_defaults schema).

(** A part of the class before and after: but for strings, its references are moved. *)
Definition moved (n n' : V) : Prop := n' = rebase_refs base n ∨ is_Some (as_str n) ∧ is_Some (as_str n').

Definition moved_child (key : Text) (c : V) : V := (rebase_field base (rebase_refs base) (key, c)).2.

Lemma moved_child_ok key c : moved c (moved_child key c).
Proof. destruct c; [by left..|right; cbn; eauto|by left|by left]. Qed.

Lemma field_moved key (m : Fields Num) : field key (List.map (rebase_field base (rebase_refs base)) m) = moved_child key <$> field key m.
Proof. induction m as [|[k c] m IH]; [done|]. cbn [List.map field]. unfold rebase_field at 1. cbn [field]. case_bool_decide as E; [by subst|exact IH]. Qed.

Lemma get_moved key n n' : moved n n' → get key n' = moved_child key <$> get key n.
Proof. intros [->|[[s Hs] [s' Hs']]]; [destruct n; try done; apply field_moved|]. destruct n, n'; done. Qed.

Lemma reference_moved n n' : moved n n' → reference n' = rebased base <$> reference n.
Proof. intros H. unfold reference. rewrite (get_moved _ _ _ H). by destruct (get (lit "$ref") n) as [[]|]. Qed.

Lemma mark_moved n n' : moved n n' → secret_mark n' = secret_mark n.
Proof.
  intros H. unfold secret_mark. rewrite !(get_moved _ _ _ H). f_equal; [by destruct (get (lit "writeOnly") n) as [[]|]|].
  by destruct (get (lit "format") n) as [[]|].
Qed.

Lemma follow_moved tokens n n' : moved n n' → option_Forall2 moved (follow tokens n) (follow tokens n').
Proof.
  revert n n'. induction tokens as [|token tokens IH]; intros n n' H; [by constructor|]. cbn [follow].
  assert (Ht : option_Forall2 moved (follow_token token n) (follow_token token n')).
  { destruct H as [->|[[s Hs] [s' Hs']]]; [|destruct n, n'; try done; constructor].
    destruct n as [| | | |l|m]; try constructor; cbn [rebase_refs follow_token].
    - destruct (parse_index token) as [i|]; [|constructor]. cbn [mbind option_bind]. change (List.map (rebase_refs base) l) with (rebase_refs base <$> l).
      rewrite list_lookup_fmap. destruct (l !! i); constructor. by left.
    - rewrite field_moved. destruct (field token m); constructor. apply moved_child_ok. }
  destruct Ht as [c c' Hc|]; [|constructor]. by apply IH.
Qed.

Lemma part_moved n n' c' : moved n n' → part n' c' → ∃ c, part n c ∧ moved c c'.
Proof.
  intros [->|[[s Hs] [s' Hs']]] Hp; [|destruct n'; try done; inversion Hp].
  destruct n as [| | | |l|m]; cbn [rebase_refs] in Hp; inversion Hp as [? key ? Hin Hk|? ? Hin]; subst; apply list_elem_of_In, in_map_iff in Hin.
  - destruct Hin as (c & <- & Hin%list_elem_of_In). exists c. split; [by constructor|by left].
  - destruct Hin as ([k c] & E & Hin%list_elem_of_In). unfold rebase_field in E. injection E as <- <-. exists c. split; [by econstructor|apply (moved_child_ok k c)].
Qed.

(** References lead to the moved targets. *)
Lemma referred_moved n r : rtc part dropped n → reference n = Some r → option_Forall2 moved (referred dropped r) (referred doc (rebased base r)).
Proof.
  intros Hn Hr. destruct (Hrefs r (dropped_reference _ _ _ Hn Hr)) as [[rest Hs] _]. unfold rebased. rewrite Hs. pose proof (strip_text_eq _ _ _ Hs) as ->.
  change (lit "#") with [HASH]. unfold referred. cbn [app strip_hash]. rewrite N.eqb_refl. cbn [mbind option_bind].
  change (lit "/$defs/" ++ rest) with (SLASH :: (lit "$defs/" ++ rest)). rewrite pointer_below, Hdoc. cbn [mbind option_bind].
  change (DEFS ++ rest) with (HASH :: SLASH :: (lit "$defs/" ++ rest)). cbn [strip_hash]. rewrite N.eqb_refl. cbn [mbind option_bind pointer]. rewrite N.eqb_refl.
  apply follow_moved. by left.
Qed.

Lemma leads_moved n n' c' : rtc part dropped n → moved n n' → leads doc n' c' → ∃ c, leads dropped n c ∧ rtc part dropped c ∧ moved c c'.
Proof.
  intros Hn Hm [(c & Hc & ?)%(part_moved _ _ _ Hm)|(r' & Hr & Ht)]; [exists c; split_and!; [by left|by eapply rtc_r|done]|].
  rewrite (reference_moved _ _ Hm) in Hr. destruct (reference n) as [r|] eqn:E; [|done]. injection Hr as <-.
  pose proof (referred_moved n r Hn E) as H. rewrite Ht in H. inversion H as [c ? Hc Ec|]; subst. exists c.
  split_and!; [right; eauto|by eapply referred_dropped|done].
Qed.

Lemma below_moved n n' : rtc part dropped n → moved n n' → secret_below doc n' → secret_below dropped n.
Proof.
  intros Hn Hm (w' & Hw & Hmark). revert n Hn Hm. induction Hw as [x|x y z Hxy _ IH]; intros n Hn Hm.
  - exists n. split; [apply rtc_refl|]. by rewrite <- (mark_moved _ _ Hm).
  - destruct (leads_moved n x y Hn Hm Hxy) as (c & Hc & Hpc & Hmc). destruct (IH Hmark c Hpc Hmc) as (w & ? & ?). exists w. split; [by eapply rtc_l|done].
Qed.

Lemma resolve_moved n n' : rtc part dropped n → moved n n' → rtc part dropped (resolve dropped n) ∧ moved (resolve dropped n) (resolve doc n').
Proof.
  unfold resolve. generalize 8. intros k. revert n n'. induction k as [|k IH]; intros n n' Hn Hm; cbn [resolve_steps]; [done|].
  rewrite (reference_moved _ _ Hm). destruct (reference n) as [r|] eqn:Er; [|done]. cbn [mbind option_bind fmap option_fmap option_map].
  pose proof (referred_moved n r Hn Er) as H. destruct (referred dropped r) as [t|] eqn:Et; inversion H; subst; [|done].
  apply IH; [by eapply referred_dropped|done].
Qed.

Lemma parts_moved n' : rtc part (rebase_refs base dropped) n' → ∃ n, rtc part dropped n ∧ moved n n'.
Proof.
  intros H. assert (Hgo : ∀ x y, rtc part x y → ∀ n, rtc part dropped n → moved n x → ∃ m, rtc part dropped m ∧ moved m y).
  { clear. intros x y H. induction H as [x|x y z Hxy _ IH]; intros n Hn Hm; [eauto|]. destruct (part_moved _ _ _ Hm Hxy) as (c & Hc & Hmc).
    eapply IH; [by eapply rtc_r|done]. }
  apply (Hgo _ _ H dropped); [apply rtc_refl|by left].
Qed.

Lemma moved_default n n' d : rtc part dropped n → moved n n' → get (lit "default") n' = Some d → ¬ secret_below doc n'.
Proof.
  intros Hn Hm. rewrite (get_moved _ _ _ Hm). destruct (get (lit "default") n) as [d0|] eqn:E; [|done]. intros _ Hs.
  by eapply dropped_default; [exact Hn|exact E|eapply below_moved].
Qed.
End placed.

(** C39: in a class schema as it is placed in a document, whose references lead to its own
    definitions, take any node, the whole class or one below without entering a key named default:
    a default that is offered there, the node's own or that of the model its references name, is
    one of a node with no secret below, through any chain of references and again but for keys named
    default. So the mask that pydantic writes for a secret is not offered as a value there. *)
Theorem no_mask_offered (doc schema c node d : V) path :
  inline (Some schema) path = Some c → follow path doc = Some c → own_references schema → rtc part c node →
  default_of doc node = Some d →
  ∃ at_, (at_ = node ∨ at_ = resolve doc node) ∧ get (lit "default") at_ = Some d ∧ ¬ secret_below doc at_.
Proof.
  unfold inline. cbn [mbind option_bind]. destruct (is_object schema); [|done]. intros [= <-] Hdoc Hrefs (n & Hn & Hm)%parts_moved.
  unfold default_of. destruct (get (lit "default") node) as [x|] eqn:E.
  - intros [= ->]. exists node. split_and!; [by left|done|]. by eapply moved_default.
  - intros Hd. destruct (resolve_moved doc schema path Hdoc Hrefs n node Hn Hm). eexists. split_and!; [by right|done|]. by eapply moved_default.
Qed.
End inlined.

(** ** The launch document *)
Section launched.
Context {Num : Type} (parse : Text → option (Value Num)) (one : Num).
Context (parse_ok : ∀ text v, parse text = Some v → maps_ok v).

#[local] Abbreviation V := (Value Num).

Lemma maps_ok_object (m : Fields Num) : sorted_fields m → (∀ key v, (key, v) ∈ m → maps_ok v) → maps_ok (VObject m).
Proof.
  intros Hs H. split; [done|]. clear Hs. induction m as [|[k v] m IH]; [done|]. cbn. split; [apply (H k v); left|]. apply IH. intros key x Hx. apply (H key x). by right.
Qed.

Lemma insert_field_elem key (v : V) m k x : (k, x) ∈ insert_field key v m → (k, x) = (key, v) ∨ (k, x) ∈ m.
Proof.
  induction m as [|[l y] m IH]; cbn [insert_field]; [intros ->%list_elem_of_singleton; by left|].
  case_bool_decide; [|destruct (text_ltb key l)]; rewrite !elem_of_cons; [tauto|tauto|]. intros [?|[?|?]%IH]; auto.
Qed.

Lemma map_of_ok (fields : list (Text * V)) : (∀ key v, (key, v) ∈ fields → maps_ok v) → maps_ok (VObject (map_of fields)).
Proof.
  intros H. unfold map_of. assert (Hgo : ∀ m, maps_ok (VObject m) → maps_ok (VObject (foldl (λ m f, insert_field f.1 f.2 m) m fields))).
  { induction fields as [|[k v] fields IH]; intros m Hm; [done|]. cbn [foldl fst snd]. apply IH; [intros key x Hx; apply (H key x); by right|].
    apply maps_ok_object; [apply insert_sorted, Hm|]. intros key x [[= -> ->]|Hin]%insert_field_elem; [apply (H k v); left|by eapply maps_ok_field]. }
  apply Hgo. split; [constructor|done].
Qed.

Lemma json_object_ok (fields : list (Text * V)) : Forall (λ f, maps_ok f.2) fields → maps_ok (json_object fields).
Proof. intros H. apply map_of_ok. intros key v Hin. rewrite Forall_forall in H. apply (H _ Hin). Qed.

Lemma drop_fields_keys go secret (m : Fields Num) x : x ∈ (drop_fields go secret m).*1 → x ∈ m.*1.
Proof. intros ([k c] & -> & (y & Hy & _)%drop_fields_elem)%list_elem_of_fmap. apply list_elem_of_fmap. by exists (k, y). Qed.

Lemma drop_fields_sorted go secret (m : Fields Num) : sorted_fields m → sorted_fields (drop_fields go secret m).
Proof.
  unfold sorted_fields. induction m as [|[k v] m IH]; [done|]. intros H. inversion H as [|? ? Hs Hf]; subst. cbn [drop_fields].
  assert (Hall : Forall (λ b, text_ltb k b = true) (drop_fields go secret m).*1).
  { apply Forall_forall. intros y Hy%drop_fields_keys. by eapply Forall_forall in Hf. }
  case_bool_decide; [destruct secret; [auto|]|]; cbn; constructor; auto.
Qed.

Lemma maps_ok_array (l : list V) : maps_ok (VArray l) ↔ Forall maps_ok l.
Proof. induction l as [|v l IH]; cbn; [split; constructor|]. rewrite Forall_cons. by rewrite <- IH. Qed.

Lemma drop_defaults_ok root (v : V) : maps_ok v → maps_ok (drop_defaults root v).
Proof.
  induction v as [|b|n|s|l IH|m IH] using value_induction; intros Hv; try done; cbn [drop_defaults].
  - rewrite maps_ok_array in *. apply Forall_forall. intros x (c & <- & Hin%list_elem_of_In)%list_elem_of_In%in_map_iff. rewrite Forall_forall in IH, Hv. auto.
  - apply maps_ok_object; [apply drop_fields_sorted, Hv|]. intros key c' (c & Hin & Hc)%drop_fields_elem. rewrite Forall_forall in IH.
    pose proof (maps_ok_field _ _ _ Hv Hin) as Hok. case_bool_decide; [destruct Hc; by subst|]. subst. by apply (IH _ Hin).
Qed.

Lemma rebase_refs_ok base (v : V) : maps_ok v → maps_ok (rebase_refs base v).
Proof.
  induction v as [|b|n|s|l IH|m IH] using value_induction; intros Hv; try done; cbn [rebase_refs].
  - rewrite maps_ok_array in *. apply Forall_forall. intros x (c & <- & Hin%list_elem_of_In)%list_elem_of_In%in_map_iff. rewrite Forall_forall in IH, Hv. auto.
  - apply maps_ok_object.
    + destruct Hv as [Hs _]. unfold sorted_fields in *. replace (List.map (rebase_field base (rebase_refs base)) m).*1 with m.*1; [done|].
      clear. induction m as [|[k v] m IH]; [done|]. cbn. by rewrite IH.
    + intros key c' ([k c] & E & Hin%list_elem_of_In)%list_elem_of_In%in_map_iff. rewrite Forall_forall in IH. pose proof (maps_ok_field _ _ _ Hv Hin) as Hok.
      unfold rebase_field in E. injection E as -> <-. destruct c; try done; by apply (IH _ Hin).
Qed.

Lemma inline_ok text path c : inline (parse text) path = Some c → maps_ok c.
Proof.
  unfold inline. destruct (parse text) as [v|] eqn:E; [|done]. cbn [mbind option_bind]. destruct (is_object v); [|done]. intros [= <-].
  by apply rebase_refs_ok, drop_defaults_ok, (parse_ok text).
Qed.

#[local] Ltac fields_ok := apply json_object_ok; repeat (apply List.Forall_cons; [cbn [snd]; try done|]); try apply List.Forall_nil.

Lemma section_schema_ok description (m : Fields Num) : maps_ok (VObject m) → maps_ok (section_schema description m).
Proof. intros H. by fields_ok. Qed.

Lemma metadata_schema_ok metadata : maps_ok (metadata_schema (Num := Num) metadata).
Proof.
  fields_ok; [|by fields_ok]. apply json_object_ok, Forall_fmap, Forall_true. intros f. by fields_ok.
Qed.

Lemma asset_sections_ok verb key def : maps_ok (VObject (asset_sections parse verb key def)).
Proof.
  apply map_of_ok. intros k v [Hin|Hin]%elem_of_app.
  - destruct (config_schema_of def verb) as [class|]; [|by apply elem_of_nil in Hin]. destruct (inline _ _) as [c|] eqn:E; [|by apply elem_of_nil in Hin].
    apply list_elem_of_singleton in Hin. injection Hin as -> ->. by eapply inline_ok.
  - case_bool_decide; [by apply elem_of_nil in Hin|]. apply list_elem_of_singleton in Hin. injection Hin as -> ->. apply metadata_schema_ok.
Qed.

Lemma worker_count_ok description : maps_ok (worker_count one description).
Proof. fields_ok. by fields_ok. Qed.

Lemma execution_schema_ok : maps_ok (execution_schema one).
Proof. apply section_schema_ok. fields_ok; [|apply worker_count_ok..]. by fields_ok. Qed.

Lemma launch_schema_ok keys definitions resources verb : maps_ok (launch_schema parse one keys definitions resources verb).
Proof.
  fields_ok. apply map_of_ok. intros k v [Hin|[Hin|Hin]%elem_of_app]%elem_of_app.
  - apply list_elem_of_singleton in Hin. injection Hin as -> ->. apply section_schema_ok, map_of_ok. intros k v Hin. apply list_elem_of_omap in Hin as (key & _ & E).
    unfold asset_entry in E. destruct (definitions !! key) as [def|]; [|done]. cbn [mbind option_bind] in E. case_bool_decide; [done|]. injection E as <- <-.
    apply section_schema_ok, asset_sections_ok.
  - case_bool_decide; [by apply elem_of_nil in Hin|]. apply list_elem_of_singleton in Hin. injection Hin as -> ->. apply section_schema_ok, map_of_ok.
    intros k v Hin. apply list_elem_of_omap in Hin as (resource & _ & E). unfold resource_entry in E. destruct (inline _ _) as [c|] eqn:Ei; [|done].
    injection E as <- <-. by eapply inline_ok.
  - apply list_elem_of_singleton in Hin. injection Hin as -> ->. apply execution_schema_ok.
Qed.

Lemma launch_schema_root keys definitions resources verb :
  let doc := launch_schema parse one keys definitions resources verb in container doc = true ∧ default_of doc doc = None.
Proof. done. Qed.

(** C37: the launch dialog opened on any selection of assets, resources and a verb, and sent
    untouched, sends nothing: whatever the classes' schemas have as sections, defaults,
    secrets and references, and whatever metadata the assets have. *)
Theorem untouched_launch_sends_nothing (num_eqb : Num → Num → bool) keys definitions resources verb :
  (∀ n, num_eqb n n = true) →
  let doc := launch_schema parse one keys definitions resources verb in compact num_eqb doc (config_template_over doc None) = None.
Proof.
  intros Hn. destruct (launch_schema_root keys definitions resources verb) as [Hc Hd]. cbv zeta. apply template_sends_nothing; [done|apply launch_schema_ok|done|done].
Qed.

(** C38: the rerun dialog opened on any config document of a run, whoever wrote it and whatever the
    definitions were then, and left untouched, has the payload the document has alone under the
    definitions of today: the template around it adds nothing, and what the payload drops of it is
    what [compact] drops, values that equal a default of today and sections without others. So a
    document that the dialog sent under these definitions is sent again as it is. Both hold
    unless the document has an object for a field whose default is an object, which the template
    would be merged with. The payload is that of the values: the texts and the validation that
    withholds a payload are not part of it. *)
Theorem rerun_sends_same (num_eqb : Num → Num → bool) keys definitions resources verb p :
  (∀ n, num_eqb n n = true) → maps_ok p →
  let doc := launch_schema parse one keys definitions resources verb in
  no_merge doc p doc →
  compact num_eqb doc (config_template_over doc (Some p)) = compact num_eqb doc p ∧
  ∀ v, maps_ok v → compact num_eqb doc v = Some p → compact num_eqb doc (config_template_over doc (Some p)) = Some p.
Proof.
  intros Hn Hp. destruct (launch_schema_root keys definitions resources verb) as [Hc Hd]. cbv zeta. intros Hm. cbn [config_template_over].
  rewrite (overlay_adds_nothing num_eqb Hn) by (done || apply launch_schema_ok). split; [done|].
  intros v Hv Hs. by apply (compact_again num_eqb _ v).
Qed.
End launched.

(** ** A class with a secret *)
Module LaunchExample.
#[local] Abbreviation V := (Value Z).
Definition str (s : string) : V := VString (lit s).
Definition mask : V := str "**********".

(** A nested model with a secret, a plain field with a default, and the model's masked default. *)
Definition model : V :=
  json_object [(lit "type", str "object"); (lit "properties", json_object [(lit "token", json_object [(lit "type", str "string"); (lit "writeOnly", VBool true)])])].
Definition class : V :=
  json_object [(lit "type", str "object"); (lit "$defs", json_object [(lit "Auth", model)]);
    (lit "properties", json_object [(lit "auth", json_object [(lit "$ref", str "#/$defs/Auth"); (lit "default", json_object [(lit "token", mask)])]);
                                    (lit "retries", json_object [(lit "type", str "integer"); (lit "default", VNumber 3%Z)])])].
Definition read_class (t : Text) : option V := if bool_decide (t = lit "class") then Some class else None.

#[local] Ltac objects_ok := repeat (apply json_object_ok; repeat (apply List.Forall_cons; [cbn [snd]; try done|]); try apply List.Forall_nil).

Lemma read_class_ok text v : read_class text = Some v → maps_ok v.
Proof. unfold read_class. case_bool_decide; [|done]. intros [= <-]. by objects_ok. Qed.

Definition orders : AssetDefinitionInfo :=
  {| ai_asset_type := lit "asset"; ai_config_schema := Some (lit "class"); ai_actions := []; ai_metadata := [(lit "team", lit "data")] |}.
Definition doc : V := launch_schema read_class 1%Z [lit "a/b"] {[ lit "a/b" := orders ]} [] None.

Lemma untouched_launch_sends_nothing_witness : compact Z.eqb doc (config_template_over doc None) = None.
Proof. apply (untouched_launch_sends_nothing read_class 1%Z read_class_ok Z.eqb [lit "a/b"] {[ lit "a/b" := orders ]} [] None Z.eqb_refl). Defined.

(** The user set one field, and left the rest. *)
Definition at_config (fields : list (Text * V)) : V := json_object [(lit "assets", json_object [(lit "a/b", json_object [(lit "config", json_object fields)])])].
Definition typed : V := at_config [(lit "retries", VNumber 5%Z); (lit "auth", json_object [(lit "token", str "s")])].

Lemma typed_ok : maps_ok typed.
Proof. by objects_ok. Qed.

Lemma typed_sent : compact Z.eqb doc typed = Some typed.
Proof. vm_compute. reflexivity. Qed.

(** A run launched elsewhere spelled out a default too, which its rerun leaves to the class. *)
Definition spelled_out : V := at_config [(lit "retries", VNumber 3%Z); (lit "auth", json_object [(lit "token", str "s")])].

Lemma spelled_out_ok : maps_ok spelled_out.
Proof. by objects_ok. Qed.

Lemma spelled_out_compact : compact Z.eqb doc spelled_out = Some (at_config [(lit "auth", json_object [(lit "token", str "s")])]).
Proof. vm_compute. reflexivity. Qed.

Lemma rerun_sends_same_witness :
  compact Z.eqb doc (config_template_over doc (Some typed)) = Some typed ∧
  compact Z.eqb doc (config_template_over doc (Some spelled_out)) = Some (at_config [(lit "auth", json_object [(lit "token", str "s")])]).
Proof.
  split.
  - apply (rerun_sends_same read_class 1%Z read_class_ok Z.eqb [lit "a/b"] {[ lit "a/b" := orders ]} [] None typed Z.eqb_refl typed_ok) with (v := typed);
      [vm_compute; tauto|exact typed_ok|exact typed_sent].
  - rewrite <- spelled_out_compact.
    apply (rerun_sends_same read_class 1%Z read_class_ok Z.eqb [lit "a/b"] {[ lit "a/b" := orders ]} [] None spelled_out Z.eqb_refl spelled_out_ok).
    vm_compute. tauto.
Defined.

(** In the document the reference to the model is below the asset's key, which has a slash. *)
Definition place : list Text := [lit "properties"; lit "assets"; lit "properties"; lit "a/b"; lit "properties"; lit "config"].
Definition placed : V := default VNull (inline (Some class) place).

Lemma inlined_reference_resolves_witness :
  referred doc (rebased (base_of place) (lit "#/$defs/Auth")) = Some (rebase_refs (base_of place) model).
Proof. apply (inlined_reference_resolves doc class placed place (lit "#/$defs/Auth") (lit "Auth")); vm_compute; reflexivity. Defined.

(** The model's default is gone, the plain one is offered. *)
Definition retries : V := json_object [(lit "type", str "integer"); (lit "default", VNumber 3%Z)].

Lemma class_own : own_references class.
Proof.
  intros r Hr. assert (E : references class = [lit "#/$defs/Auth"]) by (vm_compute; reflexivity). rewrite E in Hr. apply list_elem_of_singleton in Hr as ->.
  split; [by eexists|]. apply (bool_decide_unpack _). vm_compute. exact I.
Qed.

Lemma retries_part : rtc part placed retries.
Proof.
  apply (follow_parts [lit "properties"; lit "retries"]); [vm_compute; reflexivity|]. rewrite !not_elem_of_cons. split_and!; [done|done|by intros ?%elem_of_nil].
Qed.

Lemma no_mask_offered_witness :
  get (lit "default") (default VNull (pointer (lit "/properties/auth") placed)) = None ∧
  ∃ at_, (at_ = retries ∨ at_ = resolve doc retries) ∧ get (lit "default") at_ = Some (VNumber 3%Z) ∧ ¬ secret_below doc at_.
Proof.
  split; [vm_compute; reflexivity|]. apply (no_mask_offered doc class placed retries (VNumber 3%Z) place); [vm_compute; reflexivity|vm_compute; reflexivity|exact class_own|exact retries_part|].
  vm_compute. reflexivity.
Defined.

(** A field named default is taken for the keyword: it is removed when another field is a
    secret, and when it is the secret, its mask stays. *)
Definition named (fields : list (Text * V)) : V := json_object [(lit "type", str "object"); (lit "properties", json_object fields)].
Definition token : V := json_object [(lit "type", str "string"); (lit "writeOnly", VBool true); (lit "default", mask)].

Example field_named_default_removed :
  pointer (lit "/properties/default") (drop_secret_defaults (named [(lit "default", json_object [(lit "type", str "string")]); (lit "token", token)])) = None.
Proof. vm_compute. reflexivity. Qed.

Example field_named_default_masked :
  let schema := drop_secret_defaults (named [(lit "default", token); (lit "other", json_object [(lit "type", str "string")])]) in
  pointer (lit "/properties/default") schema ≫= default_of schema = Some mask.
Proof. vm_compute. reflexivity. Qed.

(** The keys of an object default come back in a rerun that had replaced them. *)
Definition labelled : V := named [(lit "labels", json_object [(lit "type", str "object"); (lit "default", json_object [(lit "x", VNumber 1%Z)])])].
Definition sent : V := json_object [(lit "labels", json_object [(lit "y", VNumber 2%Z)])].

Example rerun_restores_removed_keys :
  compact Z.eqb labelled sent = Some sent ∧
  compact Z.eqb labelled (config_template_over labelled (Some sent)) =
    Some (json_object [(lit "labels", json_object [(lit "x", VNumber 1%Z); (lit "y", VNumber 2%Z)])]).
Proof. split; vm_compute; reflexivity. Qed.
End LaunchExample.
