(* ===== verification/CacheStore.v ===== *)
(** * The storage the condition cache reads
      (rust/rivers-core/src/storage/surrealdb_backend/per_code_location.rs, backend.rs)

    The tables of one code location, and the statements the cache issues against them. A
    fetch runs one statement after the other while others write: the [i]-th statement sees
    the [i]-th snapshot of a script, or fails. A method that is asked about no keys issues
    no statement. Partition keys are canonical; rows that a statement orders alike come in
    the order of the table. *)

From S2P Require Import Prelude PartitionKey BackfillGroup RunQueue Backfills ConditionNode Selection CondState CondCache.

(** ** Tables *)
Inductive StoreEvKind := SEStepStart | SEStepSuccess | SEStepFailure | SEMaterialization | SEObservation | SEOther.

#[export] Instance StoreEvKind_eq_dec : EqDecision StoreEvKind.
Proof. solve_decision. Defined.

Record StoreEv := { sv_kind : StoreEvKind; sv_asset : option string; sv_run : string; sv_pk : option PartitionKey; sv_ts : Z }.

Record PartitionRow := { ptr_asset : string; ptr_key : PartitionKey; ptr_ts : option Z; ptr_run : option string }.

Record BackfillInfo := {
  bfi_id : string;
  bfi_status : BackfillStatus;
  bfi_action : option string;
  bfi_assets : list string;
  bfi_keys : list PartitionKey
}.

Record CacheStore := {
  cs_runs : list RunRecord;
  cs_assets : list (AssetRecord * option Z);               (* with [last_deletion_timestamp] *)
  cs_events : list StoreEv;
  cs_partitions : list PartitionRow;
  cs_partition_deletions : list (string * PartitionKey * Z);
  cs_backfills : list BackfillInfo;                        (* newest first *)
  cs_topology : option (list (string * string))
}.

(** ** Statements one after the other *)
Definition Fetching (A : Type) : Type := nat → option (A * nat).

#[export] Instance fetching_ret : MRet Fetching := λ A a i, Some (a, i).
#[export] Instance fetching_bind : MBind Fetching := λ A B k m i, match m i with Some (a, j) => k a j | None => None end.

(** ** Statements on runs *)
Definition by_start (a b : RunRecord) : bool := (rr_start_time a <=? rr_start_time b)%Z.

Definition by_start_id (a b : RunRecord) : bool :=
  (rr_start_time a <? rr_start_time b)%Z ||
  ((rr_start_time a =? rr_start_time b)%Z && String.leb (rr_run_id a) (rr_run_id b)).

Definition status_is (status : option RunStatus) (r : RunRecord) : bool :=
  match status with Some st => bool_decide (rr_status r = st) | None => true end.

Definition runs_since (since : Z) (status : option RunStatus) (s : CacheStore) : list RunRecord :=
  sort_by by_start (filter (λ r, (since < rr_start_time r)%Z ∧ status_is status r = true) (cs_runs s)).

(** [ORDER BY start_time DESC LIMIT 1] *)
Definition newest_run (s : CacheStore) : option RunRecord :=
  foldl (λ best r, match best with
                   | Some b => if (rr_start_time b <? rr_start_time r)%Z then Some r else best
                   | None => Some r
                   end) None (cs_runs s).

Definition runs_by_ids (ids : gset string) (s : CacheStore) : list RunRecord :=
  sort_by by_start_id (filter (λ r, rr_run_id r ∈ ids) (cs_runs s)).

(** ** Statements on assets and events *)
Definition deletion_timestamps (s : CacheStore) : gmap string Z :=
  foldl (λ m a, match a.2 with Some ts => <[asset_key a.1 := ts]> m | None => m end) ∅ (cs_assets s).

Definition is_step_outcome (e : StoreEv) : bool :=
  match sv_kind e with SEStepSuccess | SEStepFailure => true | _ => false end.

(** [StepOutcome]: asset, run, whether the step succeeded *)
Definition outcomes_of (assets runs : gset string) (s : CacheStore) : list (string * string * bool) :=
  omap (λ e, match sv_asset e with
             | Some a => if is_step_outcome e && bool_decide (sv_run e ∈ runs) && bool_decide (a ∈ assets)
                         then Some (a, sv_run e, bool_decide (sv_kind e = SEStepSuccess)) else None
             | None => None
             end) (cs_events s).

Definition built_by (assets runs : gset string) (s : CacheStore) : gmap string (gset string) :=
  foldl (λ m e, match sv_asset e with
                | Some a => if bool_decide (sv_kind e = SEMaterialization) && bool_decide (sv_run e ∈ runs) && bool_decide (a ∈ assets)
                            then add_override a (sv_run e) m else m
                | None => m
                end) ∅ (cs_events s).

Definition observations_since (since : Z) (s : CacheStore) : list StoreEv :=
  sort_by (λ a b, (sv_ts b <=? sv_ts a)%Z) (filter (λ e, sv_kind e = SEObservation ∧ (since < sv_ts e)%Z) (cs_events s)).

Definition latest_observation (s : CacheStore) : option Z :=
  foldl (λ best e, match sv_kind e with
                   | SEObservation => Some (match best with Some b => Z.max b (sv_ts e) | None => sv_ts e end)
                   | _ => best
                   end) None (cs_events s).

(** ** Statements on partitions *)
Definition timestamps_of (asset : string) (s : CacheStore) : list (PartitionKey * Z) :=
  omap (λ r, if bool_decide (ptr_asset r = asset) then pair (ptr_key r) <$> ptr_ts r else None) (cs_partitions s).

Definition rows_for_keys (asset : string) (keys : KeySet) (s : CacheStore) : list (PartitionKey * Z * option string) :=
  omap (λ r, if bool_decide (ptr_asset r = asset) && bool_decide (ptr_key r ∈ keys)
             then (λ ts, (ptr_key r, ts, ptr_run r)) <$> ptr_ts r else None) (cs_partitions s).

Definition not_action (r : RunRecord) : bool := negb (run_is_action r).

Definition in_progress_of (asset : string) (s : CacheStore) : KeySet :=
  let running : gset string :=
    list_to_set (rr_run_id <$> filter (λ r, rr_status r = Started ∧ not_action r = true ∧ asset ∈ rr_node_names r) (cs_runs s)) in
  list_to_set (omap (λ e, if bool_decide (sv_kind e = SEStepStart) && bool_decide (sv_asset e = Some asset) && bool_decide (sv_run e ∈ running)
                          then sv_pk e else None) (cs_events s)).

(** [entry(member).and_modify(max).or_insert] *)
Definition bump_key (ts : Z) (m : gmap PartitionKey Z) (k : PartitionKey) : gmap PartitionKey Z :=
  <[k := match m !! k with Some t => Z.max t ts | None => ts end]> m.

Definition canonical_members (pk : PartitionKey) : list PartitionKey := norm <$> members pk.

(** The runs on the asset that are actions or failed. *)
Definition failure_scan (asset : string) (s : CacheStore) : list RunRecord :=
  filter (λ r, asset ∈ rr_node_names r ∧ (run_is_action r || bool_decide (rr_status r = Failure)) = true) (cs_runs s).

(** The newest failed step of each key, but for the steps of [action_runs]. *)
Definition step_failures (asset : string) (action_runs : gset string) (s : CacheStore) : gmap PartitionKey Z :=
  foldl (λ m e, match sv_pk e with
                | Some pk =>
                    if bool_decide (sv_kind e = SEStepFailure) && bool_decide (sv_asset e = Some asset) && bool_decide (sv_run e ∉ action_runs)
                    then foldl (bump_key (sv_ts e)) m (canonical_members pk) else m
                | None => m
                end) ∅ (cs_events s).

(** The runs that materialized each key, by their own events. *)
Definition built_keys (asset : string) (runs : gset string) (s : CacheStore) : gmap PartitionKey (gset string) :=
  foldl (λ m e, match sv_pk e with
                | Some pk =>
                    if bool_decide (sv_kind e = SEMaterialization) && bool_decide (sv_asset e = Some asset) && bool_decide (sv_run e ∈ runs)
                    then foldl (λ m k, <[k := {[sv_run e]} ∪ default ∅ (m !! k)]> m) m (canonical_members pk) else m
                | None => m
                end) ∅ (cs_events s).

Definition has_built (built : gmap PartitionKey (gset string)) (run : string) (k : PartitionKey) : bool :=
  match built !! k with Some runs => bool_decide (run ∈ runs) | None => false end.

Definition keyed_failure (r : RunRecord) : bool :=
  bool_decide (rr_status r = Failure) && not_action r && bool_decide (is_Some (rr_partition_key r)).

(** The loop over the scan: a failed run fails its keys, but for those it materialized. *)
Definition run_failures (built : gmap PartitionKey (gset string)) (scan : list RunRecord) (m : gmap PartitionKey Z) : gmap PartitionKey Z :=
  foldl (λ m r, if bool_decide (rr_status r = Failure) && not_action r then
                  match rr_partition_key r with
                  | Some pk => foldl (λ m k, if has_built built (rr_run_id r) k then m else bump_key (run_ts r) m k) m (canonical_members pk)
                  | None => m
                  end
                else m) m scan.

(** The tombstones of the asset's keys, and of the asset. *)
Definition key_deletions (asset : string) (s : CacheStore) : gmap PartitionKey Z * option Z :=
  (foldl (λ m d, if bool_decide (d.1.1 = asset) then foldl (bump_key d.2) m (canonical_members d.1.2) else m) ∅ (cs_partition_deletions s),
   deletion_timestamps s !! asset).

(** [Option::max] *)
Definition max_ts (a b : option Z) : option Z :=
  match a, b with Some x, Some y => Some (Z.max x y) | Some x, None => Some x | None, _ => b end.

Definition older (t : option Z) (ts : Z) : bool := match t with Some t => (t <? ts)%Z | None => true end.

(** ** The methods *)
Section storage.
Context (script : nat → option CacheStore).

(** The next statement, on the next snapshot. *)
Definition query {A} (f : CacheStore → A) : Fetching A := λ i, (λ s, (f s, S i)) <$> script i.

Definition get_runs_since (since : Z) (status : option RunStatus) : Fetching (list RunRecord) := query (runs_since since status).

(** [get_runs(1, None)] *)
Definition get_newest_run : Fetching (option RunRecord) := query newest_run.

Definition get_runs_by_ids (ids : gset string) : Fetching (list RunRecord) :=
  if bool_decide (ids = ∅) then mret [] else query (runs_by_ids ids).

Definition get_asset_records : Fetching (list AssetRecord) := query (λ s, (cs_assets s).*1).

Definition get_asset_records_by_keys (keys : gset string) : Fetching (list AssetRecord) :=
  if bool_decide (keys = ∅) then mret [] else query (λ s, filter (λ r, asset_key r ∈ keys) (cs_assets s).*1).

Definition get_asset_deletion_timestamps : Fetching (gmap string Z) := query deletion_timestamps.

Definition step_outcomes (assets runs : gset string) : Fetching (list (string * string * bool)) :=
  if bool_decide (assets = ∅) || bool_decide (runs = ∅) then mret [] else query (outcomes_of assets runs).

Definition materialized_by_runs (assets runs : gset string) : Fetching (gmap string (gset string)) :=
  if bool_decide (assets = ∅) || bool_decide (runs = ∅) then mret ∅ else query (built_by assets runs).

Definition get_observations_since (since : Z) : Fetching (list StoreEv) := query (observations_since since).

Definition get_latest_observation_ts : Fetching (option Z) := query latest_observation.

Definition get_graph_topology : Fetching (option (list (string * string))) := query cs_topology.

Definition get_partition_timestamps (asset : string) : Fetching (list (PartitionKey * Z)) := query (timestamps_of asset).

Definition get_partition_timestamps_since (asset : string) (since : Z) : Fetching (list (PartitionKey * Z)) :=
  query (λ s, filter (λ e, (since < e.2)%Z) (timestamps_of asset s)).

Definition get_partition_timestamps_for_keys (asset : string) (keys : KeySet) : Fetching (list (PartitionKey * Z * option string)) :=
  if bool_decide (keys = ∅) then mret [] else query (rows_for_keys asset keys).

Definition get_in_progress_partitions (asset : string) : Fetching KeySet := query (in_progress_of asset).

Definition get_failed_partitions (asset : string) (materialized : gmap PartitionKey Z) : Fetching (gmap PartitionKey Z) :=
  scan ← query (failure_scan asset);
  let action_runs : gset string := list_to_set (rr_run_id <$> filter (λ r, run_is_action r = true) scan) in
  latest ← query (step_failures asset action_runs);
  let keyed : gset string := list_to_set (rr_run_id <$> filter (λ r, keyed_failure r = true) scan) in
  built ← (if bool_decide (keyed = ∅) then mret ∅ else query (built_keys asset keyed));
  let latest := run_failures built scan latest in
  '(deletions, asset_deletion) ← query (key_deletions asset);
  mret (filter (λ e, older (materialized !! e.1) e.2 && older (max_ts (deletions !! e.1) asset_deletion) e.2 = true) latest).

(** [get_backfills(None, Some(status))]; the rows come with the keys that [load_backfill_progress] reads for them. *)
Definition get_backfills (status : BackfillStatus) : Fetching (list BackfillInfo) :=
  query (λ s, filter (λ b, bfi_status b = status) (cs_backfills s)).
End storage.
