(* ===== verification/CacheFetch.v ===== *)
(** * Fetching a refresh (rust/rivers-core/src/condition/cache/refresh.rs)

    The plan phase of a refresh: every statement it issues, in order, and the delta it
    gathers from their answers. The parts of the delta under construction are the fields
    of [Fetch], together with the locals that pass from one part of the function to the
    next. A [HashMap] or [HashSet] that is iterated is iterated in the order of
    [map_to_list] or [elements]. *)

From S2P Require Import Prelude Worklist PartitionKey BackfillGroup RunQueue Backfills ConditionNode Selection CondState CondCache Pools CacheStore.

#[export] Instance AssetRecord_eq_dec : EqDecision AssetRecord.
Proof. solve_decision. Defined.

#[export] Instance BackfillState_eq_dec : EqDecision BackfillState.
Proof. solve_decision. Defined.

(** [saturating_sub(1)] on an [i64] *)
Definition saturating_pred (z : Z) : Z := Z.max (- 2 ^ 63) (z - 1).

(** ** The delta under construction *)
Record Fetch := {
  f_effects : RefreshDelta;                       (* the fields a completed run contributes to *)
  f_records : list AssetRecord;
  f_changes : list InProgressChange;
  f_track : list (string * LiveActionRun);
  f_untrack : list string;
  f_invalidated : list string;                    (* [invalidated_keys] *)
  f_swept : gset string;                          (* [swept_terminal] *)
  f_action_done : gset string                     (* [action_completed_assets] *)
}.

Definition empty_delta : RefreshDelta :=
  {| changed := false; clear_tick_accumulators := true; record_updates := []; in_progress_changes := [];
     failed_adds := ∅; failed_removes := ∅; deletion_supersessions := []; materialized_overrides := ∅;
     last_run_updates := []; tick_tag_updates := []; delta_partition_status := ∅; action_partition_checks := ∅;
     delta_backfill := None; new_last_seen_run_ts := None; new_last_observation_ts := None;
     track_action_runs := []; untrack_action_runs := []; confirmed_pending := []; evicted_pending := [];
     applied_runs := []; backfill_ended_assets := [] |}.

Definition with_effects (d : RefreshDelta) (f : Fetch) : Fetch :=
  {| f_effects := d; f_records := f_records f; f_changes := f_changes f; f_track := f_track f; f_untrack := f_untrack f;
     f_invalidated := f_invalidated f; f_swept := f_swept f; f_action_done := f_action_done f |}.

Definition add_records (l : list AssetRecord) (f : Fetch) : Fetch :=
  {| f_effects := f_effects f; f_records := f_records f ++ l; f_changes := f_changes f; f_track := f_track f; f_untrack := f_untrack f;
     f_invalidated := f_invalidated f; f_swept := f_swept f; f_action_done := f_action_done f |}.

Definition add_changes (l : list InProgressChange) (f : Fetch) : Fetch :=
  {| f_effects := f_effects f; f_records := f_records f; f_changes := f_changes f ++ l; f_track := f_track f; f_untrack := f_untrack f;
     f_invalidated := f_invalidated f; f_swept := f_swept f; f_action_done := f_action_done f |}.

Definition watch (id : string) (r : LiveActionRun) (f : Fetch) : Fetch :=
  {| f_effects := f_effects f; f_records := f_records f; f_changes := f_changes f; f_track := f_track f ++ [(id, r)]; f_untrack := f_untrack f;
     f_invalidated := f_invalidated f; f_swept := f_swept f; f_action_done := f_action_done f |}.

Definition unwatch (id : string) (f : Fetch) : Fetch :=
  {| f_effects := f_effects f; f_records := f_records f; f_changes := f_changes f; f_track := f_track f; f_untrack := f_untrack f ++ [id];
     f_invalidated := f_invalidated f; f_swept := f_swept f; f_action_done := f_action_done f |}.

Definition invalidate (l : list string) (f : Fetch) : Fetch :=
  {| f_effects := f_effects f; f_records := f_records f; f_changes := f_changes f; f_track := f_track f; f_untrack := f_untrack f;
     f_invalidated := f_invalidated f ++ l; f_swept := f_swept f; f_action_done := f_action_done f |}.

Definition mark_swept (id : string) (f : Fetch) : Fetch :=
  {| f_effects := f_effects f; f_records := f_records f; f_changes := f_changes f; f_track := f_track f; f_untrack := f_untrack f;
     f_invalidated := f_invalidated f; f_swept := {[id]} ∪ f_swept f; f_action_done := f_action_done f |}.

Definition mark_action_done (l : list string) (f : Fetch) : Fetch :=
  {| f_effects := f_effects f; f_records := f_records f; f_changes := f_changes f; f_track := f_track f; f_untrack := f_untrack f;
     f_invalidated := f_invalidated f; f_swept := f_swept f; f_action_done := list_to_set l ∪ f_action_done f |}.

(** [RefreshDelta::clear_run] *)
Definition clear_run (run : RunRecord) (f : Fetch) : Fetch :=
  add_changes ((λ a, ClearRun a (rr_run_id run)) <$> rr_node_names run) f.

(** [delta.applied_runs.push] *)
Definition push_applied (run : RunRecord) (f : Fetch) : Fetch :=
  let d := f_effects f in
  with_effects (with_run_effects d (applied_runs d ++ [(rr_run_id run, rr_start_time run)]) (failed_adds d) (failed_removes d)
    (materialized_overrides d) (last_run_updates d) (tick_tag_updates d) (action_partition_checks d)) f.

(** [delta.materialized_overrides.entry(key).or_default().extend(runs)] *)
Definition extend_overrides (key : string) (runs : gset string) (f : Fetch) : Fetch :=
  let d := f_effects f in
  let m := materialized_overrides d in
  with_effects (with_run_effects d (applied_runs d) (failed_adds d) (failed_removes d)
    (<[key := default ∅ (m !! key) ∪ runs]> m) (last_run_updates d) (tick_tag_updates d) (action_partition_checks d)) f.

Definition queue_checks (m : gmap string KeySet) (f : Fetch) : Fetch :=
  let d := f_effects f in
  with_effects (with_run_effects d (applied_runs d) (failed_adds d) (failed_removes d)
    (materialized_overrides d) (last_run_updates d) (tick_tag_updates d) m) f.

(** ** Downstream *)
Definition downs (down : gmap string (list string)) (k : string) : list string := default [] (down !! k).

(** Fuel: one iteration for each key of the start and each key that a dependent list names. *)
Definition expand_downstream (c : AssetConditionCache) (touched : gset string) : option (gset string) :=
  let down := cc_downstream_deps c in
  push_loop id (downs down) (size touched + length (concat (map_to_list down).*2)) touched (elements touched).

Section fetch.
Context (script : nat → option CacheStore) (c : AssetConditionCache).

Definition is_applied (id : string) : bool := bool_decide (is_Some (cc_applied_run_ids c !! id)).

Definition tracked (asset id : string) : bool :=
  match cc_in_progress c !! asset with Some runs => bool_decide (is_Some (runs !! id)) | None => false end.

Definition fetch_records_with_downstream (keys : list string) : Fetching (list AssetRecord) :=
  match expand_downstream c (list_to_set keys) with
  | Some all_keys => get_asset_records_by_keys script all_keys
  | None => λ _, None
  end.

(** ** The runs in progress *)
Definition record_moved (record : AssetRecord) : bool :=
  match cc_records c !! asset_key record with
  | Some old => negb (bool_decide (last_timestamp old = last_timestamp record))
  | None => true
  end.

(** The runs an asset is tracked against. *)
Definition tracked_of (asset : string) : gset string := dom (default ∅ (cc_in_progress c !! asset)).

(** The outcomes of tracked runs, by asset: the runs that succeeded. *)
Definition note_outcome (m : gmap string (gset string)) (o : string * string * bool) : gmap string (gset string) :=
  let '(asset, id, succeeded) := o in
  if tracked asset id then <[asset := (if succeeded then {[id]} else ∅) ∪ default ∅ (m !! asset)]> m else m.

(** An unmoved asset with an outcome is complete: the loop over [unmoved]. *)
Definition settle_unmoved (succeeded_runs : gmap string (gset string)) (acc : list string * gset string * Fetch) (key : string)
    : list string * gset string * Fetch :=
  let '(completed_keys, completed_run_ids, f) := acc in
  match succeeded_runs !! key with
  | None => acc
  | Some succeeded =>
      (completed_keys ++ [key], completed_run_ids ∪ tracked_of key,
       if bool_decide (succeeded = ∅) then f else extend_overrides key succeeded f)
  end.

Definition probe_unmoved (unmoved : list string) (acc : list string * gset string * Fetch) : Fetching (list string * gset string * Fetch) :=
  match unmoved with
  | [] => mret acc
  | _ =>
      outcomes ← step_outcomes script (list_to_set unmoved) (⋃ (tracked_of <$> unmoved));
      mret (foldl (settle_unmoved (foldl note_outcome ∅ outcomes)) acc unmoved)
  end.

(** The effects of a run, into the delta. *)
Definition apply_effects (run : RunRecord) (f : Fetch) : bool * Fetch :=
  let '(ok, d) := apply_run_effects_to_delta c run (f_effects f) in (ok, with_effects d f).

(** One run of the tracked lookup; with the runs whose effects were applied. *)
Definition sweep_tracked (new_terminal completed_run_ids : gset string) (acc : gset string * Fetch) (run : RunRecord) : gset string * Fetch :=
  let '(swept_applied, f) := acc in
  let id := rr_run_id run in
  if negb (run_status_is_terminal (rr_status run)) then acc
  else
    let f := clear_run run (push_applied run (mark_swept id f)) in
    if negb (bool_decide (id ∈ new_terminal)) && negb (bool_decide (id ∈ completed_run_ids)) && negb (is_applied id) then
      let '(ok, f) := apply_effects run (invalidate (rr_node_names run) f) in
      (if ok then {[id]} ∪ swept_applied else swept_applied, f)
    else (swept_applied, f).

(** The tracked runs whose row is gone, but for those dispatched and not confirmed. *)
Definition clear_vanished (tracked_runs : list RunRecord) (f : Fetch) : Fetch :=
  let found : gset string := list_to_set (rr_run_id <$> tracked_runs) in
  foldl (λ f e, foldl (λ f id, if bool_decide (id ∈ found) || bool_decide (is_Some (cc_pending_runs c !! id)) then f
                               else invalidate [e.1] (add_changes [ClearRun e.1 id] f)) f (map_to_list e.2).*1)
        f (map_to_list (cc_in_progress c)).

(** The effects of the runs that completed an asset. *)
Definition apply_completed (f : Fetch) (run : RunRecord) : Fetch :=
  if is_applied (rr_run_id run) then f
  else invalidate (rr_node_names run) (apply_effects run f).2.

Definition clearable : gset string := ⋃ ((λ e, dom e.2) <$> map_to_list (cc_in_progress c)).

Definition sweep_in_progress (new_terminal : gset string) (f : Fetch) : Fetching Fetch :=
  if bool_decide (cc_in_progress c = ∅) then mret f else
  fresh ← get_asset_records_by_keys script (dom (cc_in_progress c));
  let moved := filter (λ r, record_moved r = true) fresh in
  let unmoved := asset_key <$> filter (λ r, record_moved r = false ∧ is_Some (cc_in_progress c !! asset_key r)) fresh in
  '(completed_keys, completed_run_ids, f) ←
    probe_unmoved unmoved (asset_key <$> moved, list_to_set (omap last_run_id moved), add_records moved f);
  let f := invalidate completed_keys f in
  '(swept_applied, f) ←
    (if bool_decide (clearable = ∅) then mret (∅, f)
     else
       tracked_runs ← get_runs_by_ids script clearable;
       let '(swept_applied, f) := foldl (sweep_tracked new_terminal completed_run_ids) (∅, f) tracked_runs in
       mret (swept_applied, if (length tracked_runs <? size clearable)%nat then clear_vanished tracked_runs f else f));
  let late : gset string := filter (λ id, (id ∉ new_terminal) ∧ (id ∉ swept_applied)) completed_run_ids in
  if bool_decide (late = ∅) then mret f
  else
    completed_runs ← get_runs_by_ids script late;
    mret (foldl apply_completed f completed_runs).

(** ** The watched action runs *)
Definition sweep_watched (new_terminal : gset string) (f : Fetch) (run : RunRecord) : Fetch :=
  let id := rr_run_id run in
  if negb (run_status_is_terminal (rr_status run)) then f
  else
    let f := push_applied run (unwatch id (mark_swept id f)) in
    if negb (bool_decide (id ∈ new_terminal)) && negb (is_applied id)
    then mark_action_done (rr_node_names run) (apply_effects run (invalidate (rr_node_names run) f)).2
    else f.

(** [queue_action_partition_checks] for the names and the key of a watched run. *)
Definition check_watched (live : LiveActionRun) (m : gmap string KeySet) : gmap string KeySet :=
  match lar_partition_key live with
  | None => m
  | Some pk => foldl (λ m asset, if is_partitioned c asset
                                 then <[asset := default ∅ (m !! asset) ∪ list_to_set (norm <$> members pk)]> m
                                 else m) m (lar_node_names live)
  end.

Definition unwatch_vanished (watched : list RunRecord) (f : Fetch) : Fetch :=
  let found : gset string := list_to_set (rr_run_id <$> watched) in
  foldl (λ f e, if bool_decide (e.1 ∈ found) then f
                else
                  let f := mark_action_done (lar_node_names e.2) (invalidate (lar_node_names e.2) (unwatch e.1 f)) in
                  queue_checks (check_watched e.2 (action_partition_checks (f_effects f))) f)
        f (map_to_list (cc_live_action_runs c)).

Definition sweep_live_actions (new_terminal : gset string) (f : Fetch) : Fetching Fetch :=
  let ids : gset string := dom (cc_live_action_runs c) in
  if bool_decide (cc_live_action_runs c = ∅) then mret f
  else
    watched ← get_runs_by_ids script ids;
    let f := foldl (sweep_watched new_terminal) f watched in
    mret (if (length watched <? size ids)%nat then unwatch_vanished watched f else f).

(** ** The runs above the cursor *)
Definition known_in_flight (r : RunRecord) : bool :=
  negb (bool_decide (rr_node_names r = [])) && forallb (λ a, tracked a (rr_run_id r)) (rr_node_names r).

Definition has_new_work (swept : gset string) (new_runs : list RunRecord) : bool :=
  existsb (λ r, if run_status_is_terminal (rr_status r)
                then negb (is_applied (rr_run_id r)) && negb (bool_decide (rr_run_id r ∈ swept))
                else negb (run_is_action r) && negb (known_in_flight r)) new_runs.

Definition new_run_step (f : Fetch) (run : RunRecord) : Fetch :=
  let id := rr_run_id run in
  let done f := if run_is_action run then mark_action_done (rr_node_names run) f else f in
  match rr_status run with
  | Started | NotStarted | Queued =>
      if bool_decide (id ∈ f_swept f) then f
      else if negb (run_is_action run)
      then add_changes ((λ a, Push a id (rr_partition_key run)) <$> rr_node_names run) f
      else watch id {| lar_node_names := rr_node_names run; lar_partition_key := rr_partition_key run |} f
  | Success | Failure =>
      let f := clear_run run f in
      if is_applied id then f else done (apply_effects run f).2
  | Canceled =>
      let f := clear_run run f in
      if run_is_action run && negb (is_applied id) then done (apply_effects run f).2
      else push_applied run f
  end.

Definition new_cursor (new_runs : list RunRecord) : option Z :=
  match rr_start_time <$> new_runs with
  | [] => None
  | t :: ts => Some (saturating_pred (foldl Z.max t ts))
  end.

(** ** Failures and deletions *)
Definition confirm_failures (d : RefreshDelta) : Fetching (gmap string FailedRun) :=
  if bool_decide (failed_adds d = ∅) then mret (failed_adds d)
  else
    built ← materialized_by_runs script (dom (failed_adds d)) (list_to_set ((λ e, fr_run_id e.2) <$> map_to_list (failed_adds d)));
    mret (map_imap (λ asset fr,
            Some {| fr_ts := fr_ts fr; fr_run_id := fr_run_id fr;
                    fr_materialized := match built !! asset with Some runs => bool_decide (fr_run_id fr ∈ runs) | None => false end |})
          (failed_adds d)).

(** [failed_removes], [deletion_supersessions] and [partition_reloads] after one asset of a completed action *)
Definition note_deletion (deletion_ts : gmap string Z) (acc : gmap string Z * list (string * Z) * gset string) (asset : string)
    : gmap string Z * list (string * Z) * gset string :=
  let '(removes, supersessions, reloads) := acc in
  match deletion_ts !! asset with
  | None => acc
  | Some del =>
      let fresh := match cc_asset_deletion_ts c !! asset with Some seen => (seen <? del)%Z | None => true end in
      (bump_max asset del removes, supersessions ++ [(asset, del)],
       if fresh && is_partitioned c asset then {[asset]} ∪ reloads else reloads)
  end.

Definition note_deletions (action_done : gset string) (removes : gmap string Z) : Fetching (gmap string Z * list (string * Z) * gset string) :=
  if bool_decide (action_done = ∅) then mret (removes, [], ∅)
  else
    deletion_ts ← get_asset_deletion_timestamps script;
    mret (foldl (note_deletion deletion_ts) (removes, [], ∅) (elements action_done)).

(** ** Partition status *)
Definition run_checks (d : RefreshDelta) : gmap string KeySet :=
  foldl (λ m u, let overridden := match materialized_overrides d !! lru_asset u with
                                  | Some runs => bool_decide (lru_run_id u ∈ runs) | None => false end in
                match lru_slot u with
                | Some pk => if overridden then m else <[lru_asset u := {[pk]} ∪ default ∅ (m !! lru_asset u)]> m
                | None => m
                end) ∅ (last_run_updates d).

(** The newest timestamp known. *)
Definition newest_ts (ts : gmap PartitionKey Z) : option Z :=
  map_fold (λ _ t m, Some (match m with Some x => Z.max x t | None => t end)) None ts.

Definition timestamp_cursor (current : PartitionStatusEntry) (reload : bool) : Z :=
  if reload then (-1)%Z else match newest_ts (pse_timestamps current) with Some m => i64_wrap (m - 1) | None => (-1)%Z end.

Definition fetch_partition_patch (asset : string) (current : PartitionStatusEntry) (touched checked : KeySet) (reload : bool)
    : Fetching PartitionStatusPatch :=
  fresh ← get_partition_timestamps_since script asset (timestamp_cursor current reload);
  in_progress ← get_in_progress_partitions script asset;
  failed ← get_failed_partitions script asset (pse_timestamps current);
  let reread := touched ∪ checked in
  rows ← get_partition_timestamps_for_keys script asset reread;
  let row_runs : gmap PartitionKey (option string) := foldl (λ m e, <[e.1.1 := e.2]> m) ∅ rows in
  let deleted : KeySet := filter (λ pk, row_runs !! pk = None) touched in
  let live : KeySet := list_to_set fresh.*1 in
  mret {| fresh_timestamps := fresh; patch_in_progress := in_progress; patch_failed := failed;
          patch_deleted := if reload then deleted ∪ (dom (pse_timestamps current) ∖ live) else deleted;
          patch_last_runs := set_to_map (λ pk, (pk, mjoin (row_runs !! pk))) reread |}.

Fixpoint fetch_patches (assets : list string) (action_checks checks : gmap string KeySet) (reloads : gset string)
    : Fetching (gmap string PartitionStatusPatch) :=
  match assets with
  | [] => mret ∅
  | asset :: assets =>
      match cc_partition_status c !! asset with
      | None => fetch_patches assets action_checks checks reloads
      | Some current =>
          patch ← fetch_partition_patch asset current (default ∅ (action_checks !! asset)) (default ∅ (checks !! asset))
                    (bool_decide (asset ∈ reloads));
          out ← fetch_patches assets action_checks checks reloads;
          mret (<[asset := patch]> out)
      end
  end.

Definition fetch_partition_status_for_invalidated (invalidated : list string) (action_checks checks : gmap string KeySet)
    (reloads : gset string) : Fetching (gmap string PartitionStatusPatch) :=
  fetch_patches (elements (list_to_set invalidated : gset string)) action_checks checks reloads.

(** The records and the partition status of the invalidated assets. *)
Definition fetch_invalidated (invalidated : list string) (d : RefreshDelta) (reloads : gset string)
    : Fetching (list AssetRecord * gmap string PartitionStatusPatch) :=
  match invalidated with
  | [] => mret ([], ∅)
  | _ =>
      records ← fetch_records_with_downstream invalidated;
      patches ← fetch_partition_status_for_invalidated invalidated (action_partition_checks d) (run_checks d) reloads;
      mret (records, patches)
  end.
End fetch.
