(* ===== verification/CacheRefresh.v ===== *)
(** * Refreshing the condition cache (rust/rivers-core/src/condition/cache/mod.rs, refresh.rs)

    The whole of a refresh: the plan phase put together, the initial load, and [refresh],
    which chooses between them. A plan phase that fails leaves the cache as it was; an
    initial load that fails leaves what it had loaded. *)

From S2P Require Import Prelude Worklist PartitionKey BackfillGroup RunQueue Backfills ConditionNode Selection CondState CondCache Pools CacheStore CacheFetch.

(** ** Active backfills *)
Definition add_backfill (state : BackfillState) (bf : BackfillInfo) : BackfillState :=
  match bfi_action bf with
  | Some _ => state
  | None =>
      {| backfill_assets := foldl (λ m asset, push_entry asset (bfi_id bf) m) (backfill_assets state) (bfi_assets bf);
         backfill_partition_keys := <[bfi_id bf := bfi_keys bf]> (backfill_partition_keys state) |}
  end.

Definition load_active_backfills (script : nat → option CacheStore) : Fetching BackfillState :=
  requested ← get_backfills script BfRequested;
  in_progress ← get_backfills script BfInProgress;
  mret (foldl add_backfill {| backfill_assets := ∅; backfill_partition_keys := ∅ |} (requested ++ in_progress)).

Section refresh.
Context (script : nat → option CacheStore).

(** ** Observations *)
Definition observed_keys (observations : list StoreEv) : list string :=
  foldl (λ l e, match sv_asset e with
                | Some key => if bool_decide (key ∈ l) then l else l ++ [key]
                | None => l
                end) [] observations.

(** What the observations add to the delta. *)
Record Observed := {
  ob_changed : bool;
  ob_clears : list InProgressChange;
  ob_records : list AssetRecord;
  ob_cursor : option Z
}.

Definition record_unchanged (c : AssetConditionCache) (record : AssetRecord) : bool :=
  bool_decide (cc_records c !! asset_key record = Some record).

Definition fetch_refresh_observations_delta (c : AssetConditionCache) : Fetching Observed :=
  observations ← get_observations_since script (cc_last_observation_ts c);
  match observations with
  | [] => mret {| ob_changed := false; ob_clears := []; ob_records := []; ob_cursor := None |}
  | _ =>
      let keys := observed_keys observations in
      let max_ts := foldl (λ m e, if (m <? sv_ts e)%Z then sv_ts e else m) (cc_last_observation_ts c) observations in
      records ← match keys with [] => mret [] | _ => fetch_records_with_downstream script c keys end;
      let moved := filter (λ r, record_unchanged c r = false) records in
      mret {| ob_changed := negb (bool_decide (moved = []));
              ob_clears := (λ r, AssetClear (asset_key r)) <$> filter (λ r, asset_key r ∈ keys) moved;
              ob_records := moved;
              ob_cursor := Some (saturating_pred max_ts) |}
  end.

(** ** The plan phase *)
Definition terminal_ids (runs : list RunRecord) : gset string :=
  list_to_set (rr_run_id <$> filter (λ r, run_status_is_terminal (rr_status r) = true) runs).

Definition start_fetch (c : AssetConditionCache) (new_runs : list RunRecord) : Fetch :=
  {| f_effects := empty_delta; f_records := []; f_changes := []; f_track := []; f_untrack := [];
     f_invalidated :=
       filter (λ r, run_status_is_terminal (rr_status r) = true ∧ is_applied c (rr_run_id r) = false) new_runs ≫= rr_node_names;
     f_swept := ∅; f_action_done := ∅ |}.

(** The sweeps and the loop over the new runs; with whether there was new work. *)
Definition fetch_runs (c : AssetConditionCache) (new_runs : list RunRecord) : Fetching (Fetch * bool) :=
  let new_terminal := terminal_ids new_runs in
  f ← sweep_in_progress script c new_terminal (start_fetch c new_runs);
  f ← sweep_live_actions script c new_terminal f;
  mret (foldl (new_run_step c) f new_runs, has_new_work c (f_swept f) new_runs).

Definition evictable (c : AssetConditionCache) (now : Z) (confirmed : list string) : list (string * list string) :=
  (λ e, (e.1, pending_asset_keys e.2)) <$>
    filter (λ e, (e.1 ∉ confirmed) ∧ (cc_pending_grace_nanos c < i64_wrap (now - first_seen_ts e.2))%Z)
      (map_to_list (cc_pending_runs c)).

Definition fetch_refresh_delta (c : AssetConditionCache) (now : Z) : Fetching RefreshDelta :=
  new_runs ← get_runs_since script (cc_last_seen_run_ts c) None;
  '(f, new_work) ← fetch_runs c new_runs;
  let d := f_effects f in
  failures ← confirm_failures script d;
  '(removes, supersessions, reloads) ← note_deletions script c (f_action_done f) (failed_removes d);
  '(downstream, patches) ← fetch_invalidated script c (f_invalidated f) d reloads;
  new_backfill ← load_active_backfills script;
  let backfill_moved := negb (bool_decide (new_backfill = cc_backfill c)) in
  observed ← fetch_refresh_observations_delta c;
  let confirmed := rr_run_id <$> new_runs in
  let evicted := evictable c now confirmed in
  mret {| changed := new_work || negb (bool_decide (f_invalidated f = [])) || backfill_moved || ob_changed observed || negb (bool_decide (evicted = []));
          clear_tick_accumulators := true;
          record_updates := f_records f ++ downstream ++ ob_records observed;
          in_progress_changes := f_changes f ++ ob_clears observed;
          failed_adds := failures;
          failed_removes := removes;
          deletion_supersessions := supersessions;
          materialized_overrides := materialized_overrides d;
          last_run_updates := last_run_updates d;
          tick_tag_updates := tick_tag_updates d;
          delta_partition_status := patches;
          action_partition_checks := action_partition_checks d;
          delta_backfill := if backfill_moved then Some new_backfill else None;
          new_last_seen_run_ts := new_cursor new_runs;
          new_last_observation_ts := ob_cursor observed;
          track_action_runs := f_track f;
          untrack_action_runs := f_untrack f;
          confirmed_pending := confirmed;
          evicted_pending := evicted;
          applied_runs := applied_runs d;
          backfill_ended_assets :=
            if backfill_moved
            then filter (λ a, backfill_assets new_backfill !! a = None) (map_to_list (backfill_assets (cc_backfill c))).*1
            else [] |}.
End refresh.

(** ** What the initial load writes *)
Definition set_cursor (ts : Z) (applied : gmap string Z) (c : AssetConditionCache) : AssetConditionCache :=
  {| cc_records := cc_records c; cc_edges := cc_edges c; cc_upstream_deps := cc_upstream_deps c;
     cc_downstream_deps := cc_downstream_deps c; cc_in_progress := cc_in_progress c; cc_live_action_runs := cc_live_action_runs c;
     cc_floors := cc_floors c; cc_asset_deletion_ts := cc_asset_deletion_ts c; cc_last_seen_run_ts := ts;
     cc_last_observation_ts := cc_last_observation_ts c; cc_initialized := cc_initialized c;
     cc_partition_status := cc_partition_status c; cc_backfill := cc_backfill c; cc_last_runs := cc_last_runs c;
     cc_tick_tags := cc_tick_tags c; cc_partitioned := cc_partitioned c; cc_needs_tick_tags := cc_needs_tick_tags c;
     cc_code_location_id := cc_code_location_id c; cc_pending_runs := cc_pending_runs c;
     cc_pending_grace_nanos := cc_pending_grace_nanos c; cc_applied_run_ids := applied |}.

Definition set_records (records : gmap string AssetRecord) (c : AssetConditionCache) : AssetConditionCache :=
  {| cc_records := records; cc_edges := cc_edges c; cc_upstream_deps := cc_upstream_deps c;
     cc_downstream_deps := cc_downstream_deps c; cc_in_progress := cc_in_progress c; cc_live_action_runs := cc_live_action_runs c;
     cc_floors := cc_floors c; cc_asset_deletion_ts := cc_asset_deletion_ts c; cc_last_seen_run_ts := cc_last_seen_run_ts c;
     cc_last_observation_ts := cc_last_observation_ts c; cc_initialized := cc_initialized c;
     cc_partition_status := cc_partition_status c; cc_backfill := cc_backfill c; cc_last_runs := cc_last_runs c;
     cc_tick_tags := cc_tick_tags c; cc_partitioned := cc_partitioned c; cc_needs_tick_tags := cc_needs_tick_tags c;
     cc_code_location_id := cc_code_location_id c; cc_pending_runs := cc_pending_runs c;
     cc_pending_grace_nanos := cc_pending_grace_nanos c; cc_applied_run_ids := cc_applied_run_ids c |}.

Definition set_observation_cursor (ts : Z) (c : AssetConditionCache) : AssetConditionCache :=
  {| cc_records := cc_records c; cc_edges := cc_edges c; cc_upstream_deps := cc_upstream_deps c;
     cc_downstream_deps := cc_downstream_deps c; cc_in_progress := cc_in_progress c; cc_live_action_runs := cc_live_action_runs c;
     cc_floors := cc_floors c; cc_asset_deletion_ts := cc_asset_deletion_ts c; cc_last_seen_run_ts := cc_last_seen_run_ts c;
     cc_last_observation_ts := ts; cc_initialized := cc_initialized c; cc_partition_status := cc_partition_status c;
     cc_backfill := cc_backfill c; cc_last_runs := cc_last_runs c; cc_tick_tags := cc_tick_tags c;
     cc_partitioned := cc_partitioned c; cc_needs_tick_tags := cc_needs_tick_tags c; cc_code_location_id := cc_code_location_id c;
     cc_pending_runs := cc_pending_runs c; cc_pending_grace_nanos := cc_pending_grace_nanos c;
     cc_applied_run_ids := cc_applied_run_ids c |}.

Definition set_edges (edges : list (string * string)) (c : AssetConditionCache) : AssetConditionCache :=
  {| cc_records := cc_records c; cc_edges := edges; cc_upstream_deps := cc_upstream_deps c;
     cc_downstream_deps := cc_downstream_deps c; cc_in_progress := cc_in_progress c; cc_live_action_runs := cc_live_action_runs c;
     cc_floors := cc_floors c; cc_asset_deletion_ts := cc_asset_deletion_ts c; cc_last_seen_run_ts := cc_last_seen_run_ts c;
     cc_last_observation_ts := cc_last_observation_ts c; cc_initialized := cc_initialized c;
     cc_partition_status := cc_partition_status c; cc_backfill := cc_backfill c; cc_last_runs := cc_last_runs c;
     cc_tick_tags := cc_tick_tags c; cc_partitioned := cc_partitioned c; cc_needs_tick_tags := cc_needs_tick_tags c;
     cc_code_location_id := cc_code_location_id c; cc_pending_runs := cc_pending_runs c;
     cc_pending_grace_nanos := cc_pending_grace_nanos c; cc_applied_run_ids := cc_applied_run_ids c |}.

Definition set_adjacency (up down : gmap string (list string)) (c : AssetConditionCache) : AssetConditionCache :=
  {| cc_records := cc_records c; cc_edges := cc_edges c; cc_upstream_deps := up; cc_downstream_deps := down;
     cc_in_progress := cc_in_progress c; cc_live_action_runs := cc_live_action_runs c; cc_floors := cc_floors c;
     cc_asset_deletion_ts := cc_asset_deletion_ts c; cc_last_seen_run_ts := cc_last_seen_run_ts c;
     cc_last_observation_ts := cc_last_observation_ts c; cc_initialized := cc_initialized c;
     cc_partition_status := cc_partition_status c; cc_backfill := cc_backfill c; cc_last_runs := cc_last_runs c;
     cc_tick_tags := cc_tick_tags c; cc_partitioned := cc_partitioned c; cc_needs_tick_tags := cc_needs_tick_tags c;
     cc_code_location_id := cc_code_location_id c; cc_pending_runs := cc_pending_runs c;
     cc_pending_grace_nanos := cc_pending_grace_nanos c; cc_applied_run_ids := cc_applied_run_ids c |}.

Definition set_live (ip : InProgressMap) (live : gmap string LiveActionRun) (c : AssetConditionCache) : AssetConditionCache :=
  {| cc_records := cc_records c; cc_edges := cc_edges c; cc_upstream_deps := cc_upstream_deps c;
     cc_downstream_deps := cc_downstream_deps c; cc_in_progress := ip; cc_live_action_runs := live; cc_floors := cc_floors c;
     cc_asset_deletion_ts := cc_asset_deletion_ts c; cc_last_seen_run_ts := cc_last_seen_run_ts c;
     cc_last_observation_ts := cc_last_observation_ts c; cc_initialized := cc_initialized c;
     cc_partition_status := cc_partition_status c; cc_backfill := cc_backfill c; cc_last_runs := cc_last_runs c;
     cc_tick_tags := cc_tick_tags c; cc_partitioned := cc_partitioned c; cc_needs_tick_tags := cc_needs_tick_tags c;
     cc_code_location_id := cc_code_location_id c; cc_pending_runs := cc_pending_runs c;
     cc_pending_grace_nanos := cc_pending_grace_nanos c; cc_applied_run_ids := cc_applied_run_ids c |}.

Definition set_floors (floors : Floors) (deletions : gmap string Z) (c : AssetConditionCache) : AssetConditionCache :=
  {| cc_records := cc_records c; cc_edges := cc_edges c; cc_upstream_deps := cc_upstream_deps c;
     cc_downstream_deps := cc_downstream_deps c; cc_in_progress := cc_in_progress c; cc_live_action_runs := cc_live_action_runs c;
     cc_floors := floors; cc_asset_deletion_ts := deletions; cc_last_seen_run_ts := cc_last_seen_run_ts c;
     cc_last_observation_ts := cc_last_observation_ts c; cc_initialized := cc_initialized c;
     cc_partition_status := cc_partition_status c; cc_backfill := cc_backfill c; cc_last_runs := cc_last_runs c;
     cc_tick_tags := cc_tick_tags c; cc_partitioned := cc_partitioned c; cc_needs_tick_tags := cc_needs_tick_tags c;
     cc_code_location_id := cc_code_location_id c; cc_pending_runs := cc_pending_runs c;
     cc_pending_grace_nanos := cc_pending_grace_nanos c; cc_applied_run_ids := cc_applied_run_ids c |}.

Definition set_last_runs (m : LastRuns) (c : AssetConditionCache) : AssetConditionCache :=
  {| cc_records := cc_records c; cc_edges := cc_edges c; cc_upstream_deps := cc_upstream_deps c;
     cc_downstream_deps := cc_downstream_deps c; cc_in_progress := cc_in_progress c; cc_live_action_runs := cc_live_action_runs c;
     cc_floors := cc_floors c; cc_asset_deletion_ts := cc_asset_deletion_ts c; cc_last_seen_run_ts := cc_last_seen_run_ts c;
     cc_last_observation_ts := cc_last_observation_ts c; cc_initialized := cc_initialized c;
     cc_partition_status := cc_partition_status c; cc_backfill := cc_backfill c; cc_last_runs := m;
     cc_tick_tags := cc_tick_tags c; cc_partitioned := cc_partitioned c; cc_needs_tick_tags := cc_needs_tick_tags c;
     cc_code_location_id := cc_code_location_id c; cc_pending_runs := cc_pending_runs c;
     cc_pending_grace_nanos := cc_pending_grace_nanos c; cc_applied_run_ids := cc_applied_run_ids c |}.

Definition set_backfill (b : BackfillState) (c : AssetConditionCache) : AssetConditionCache :=
  {| cc_records := cc_records c; cc_edges := cc_edges c; cc_upstream_deps := cc_upstream_deps c;
     cc_downstream_deps := cc_downstream_deps c; cc_in_progress := cc_in_progress c; cc_live_action_runs := cc_live_action_runs c;
     cc_floors := cc_floors c; cc_asset_deletion_ts := cc_asset_deletion_ts c; cc_last_seen_run_ts := cc_last_seen_run_ts c;
     cc_last_observation_ts := cc_last_observation_ts c; cc_initialized := cc_initialized c;
     cc_partition_status := cc_partition_status c; cc_backfill := b; cc_last_runs := cc_last_runs c;
     cc_tick_tags := cc_tick_tags c; cc_partitioned := cc_partitioned c; cc_needs_tick_tags := cc_needs_tick_tags c;
     cc_code_location_id := cc_code_location_id c; cc_pending_runs := cc_pending_runs c;
     cc_pending_grace_nanos := cc_pending_grace_nanos c; cc_applied_run_ids := cc_applied_run_ids c |}.

Definition set_partition_status (m : gmap string PartitionStatusEntry) (c : AssetConditionCache) : AssetConditionCache :=
  {| cc_records := cc_records c; cc_edges := cc_edges c; cc_upstream_deps := cc_upstream_deps c;
     cc_downstream_deps := cc_downstream_deps c; cc_in_progress := cc_in_progress c; cc_live_action_runs := cc_live_action_runs c;
     cc_floors := cc_floors c; cc_asset_deletion_ts := cc_asset_deletion_ts c; cc_last_seen_run_ts := cc_last_seen_run_ts c;
     cc_last_observation_ts := cc_last_observation_ts c; cc_initialized := cc_initialized c; cc_partition_status := m;
     cc_backfill := cc_backfill c; cc_last_runs := cc_last_runs c; cc_tick_tags := cc_tick_tags c;
     cc_partitioned := cc_partitioned c; cc_needs_tick_tags := cc_needs_tick_tags c; cc_code_location_id := cc_code_location_id c;
     cc_pending_runs := cc_pending_runs c; cc_pending_grace_nanos := cc_pending_grace_nanos c;
     cc_applied_run_ids := cc_applied_run_ids c |}.

Definition set_initialized (c : AssetConditionCache) : AssetConditionCache :=
  {| cc_records := cc_records c; cc_edges := cc_edges c; cc_upstream_deps := cc_upstream_deps c;
     cc_downstream_deps := cc_downstream_deps c; cc_in_progress := cc_in_progress c; cc_live_action_runs := cc_live_action_runs c;
     cc_floors := cc_floors c; cc_asset_deletion_ts := cc_asset_deletion_ts c; cc_last_seen_run_ts := cc_last_seen_run_ts c;
     cc_last_observation_ts := cc_last_observation_ts c; cc_initialized := true; cc_partition_status := cc_partition_status c;
     cc_backfill := cc_backfill c; cc_last_runs := cc_last_runs c; cc_tick_tags := cc_tick_tags c;
     cc_partitioned := cc_partitioned c; cc_needs_tick_tags := cc_needs_tick_tags c; cc_code_location_id := cc_code_location_id c;
     cc_pending_runs := cc_pending_runs c; cc_pending_grace_nanos := cc_pending_grace_nanos c;
     cc_applied_run_ids := cc_applied_run_ids c |}.

(** ** Loads: the cache survives a failed statement *)
Definition Load (A : Type) : Type := AssetConditionCache → nat → AssetConditionCache * option (A * nat).

#[export] Instance load_ret : MRet Load := λ A a c i, (c, Some (a, i)).
#[export] Instance load_bind : MBind Load := λ A B k m c i,
  match m c i with (c, Some (a, j)) => k a c j | (c, None) => (c, None) end.

Definition read {A} (m : Fetching A) : Load A := λ c i, (c, m i).
Definition cached {A} (f : AssetConditionCache → A) : Load A := λ c i, (c, Some (f c, i)).
Definition update (f : AssetConditionCache → AssetConditionCache) : Load unit := λ c i, (f c, Some (tt, i)).

Fixpoint load_each {A} (f : A → Load unit) (l : list A) : Load unit :=
  match l with
  | [] => mret tt
  | x :: l => f x ;; load_each f l
  end.

(** A run of one of the live statuses: watched or tracked. *)
Definition load_live_run (c : AssetConditionCache) (run : RunRecord) : AssetConditionCache :=
  if run_is_action run
  then set_live (cc_in_progress c)
         (<[rr_run_id run := {| lar_node_names := rr_node_names run; lar_partition_key := rr_partition_key run |}]> (cc_live_action_runs c)) c
  else set_live (foldl (λ m asset, track_in_progress_run asset (rr_run_id run) (rr_partition_key run) m) (cc_in_progress c) (rr_node_names run))
         (cc_live_action_runs c) c.

(** ** Failure floors *)
Definition at_least (t : option Z) (ts : Z) : bool := match t with Some t => (ts <=? t)%Z | None => false end.

(** [(asset, run, run_ts)] of a failed run, where neither the record nor a deletion supersedes it *)
Definition floors_of (c : AssetConditionCache) (deletion_ts : gmap string Z) (run : RunRecord) : list (string * string * Z) :=
  if run_is_action run then []
  else
    (λ asset, (asset, rr_run_id run, run_ts run)) <$>
      filter (λ asset,
        let record := cc_records c !! asset in
        bool_decide (is_Some (rr_partition_key run)) && is_partitioned c asset
        || bool_decide (record ≫= last_run_id = Some (rr_run_id run))
        || at_least (record ≫= last_timestamp) (run_ts run)
        || at_least (deletion_ts !! asset) (run_ts run) = false) (rr_node_names run).

Definition not_built (built : gmap string (gset string)) (e : string * string * Z) : bool :=
  match built !! e.1.1 with Some runs => negb (bool_decide (e.1.2 ∈ runs)) | None => true end.

Definition raise_floor (f : Floors) (e : string * string * Z) : Floors :=
  ({[e.1.1]} ∪ f.1, bump_max e.1.1 e.2 f.2).

(** The two [retain]s: floors outranked by a materialization or a deletion go. *)
Definition retain_floors (records : gmap string AssetRecord) (deletion_ts : gmap string Z) (f : Floors) : Floors :=
  let ts := filter (λ e, older (records !! e.1 ≫= last_timestamp) e.2 && older (deletion_ts !! e.1) e.2 = true) f.2 in
  (filter (λ a, is_Some (ts !! a)) f.1, ts).

(** ** Last runs *)
(** The later of two rows of one id wins in [runs_by_id]. *)
Definition by_id (runs : list RunRecord) : gmap string RunRecord :=
  foldl (λ m r, <[rr_run_id r := r]> m) ∅ runs.

Definition load_last_run (c : AssetConditionCache) (runs_by_id : gmap string RunRecord) (m : LastRuns) (record : AssetRecord) : LastRuns :=
  match last_run_id record ≫= (runs_by_id !!.) with
  | None => m
  | Some run =>
      let names := if run_is_action run
                   then verb_run_names (cc_records c) (asset_key record) (rr_run_id run) (rr_node_names run)
                   else rr_node_names run in
      foldl (λ m slot, update_last_run_maps (asset_key record) slot (run_ts run) (rr_tags run) names m)
        m (run_partition_slots (is_partitioned c (asset_key record)) run)
  end.

Section load.
Context (script : nat → option CacheStore).

Definition load_partition_entry (asset : string) : Load unit :=
  timestamps ← read (get_partition_timestamps script asset);
  let ts : gmap PartitionKey Z := foldl (λ m e, <[e.1 := e.2]> m) ∅ timestamps in
  in_progress ← read (get_in_progress_partitions script asset);
  failed ← read (get_failed_partitions script asset ts);
  update (λ c, set_partition_status
    (<[asset := {| pse_in_progress := in_progress; pse_failed := dom failed; pse_failed_timestamps := failed; pse_timestamps := ts |}]>
       (cc_partition_status c)) c).

Definition load_partition_status_inner : Load unit :=
  assets ← cached cc_partitioned;
  load_each load_partition_entry (elements assets).

(** The cursor, and the terminal runs that tie with the newest. *)
Definition load_cursor : Load unit :=
  recent ← read (get_newest_run script);
  match recent with
  | None => mret tt
  | Some newest =>
      let ts := saturating_pred (rr_start_time newest) in
      update (λ c, set_cursor ts (cc_applied_run_ids c) c) ;;
      ties ← read (get_runs_since script ts None);
      update (λ c, set_cursor ts
        (foldl (λ m r, if run_status_is_terminal (rr_status r) then <[rr_run_id r := rr_start_time r]> m else m) (cc_applied_run_ids c) ties) c)
  end.

Definition load_live_runs (status : RunStatus) : Load unit :=
  live_runs ← read (get_runs_since script 0 (Some status));
  update (λ c, foldl load_live_run c live_runs).

Definition load_floors : Load unit :=
  failed_runs ← read (get_runs_since script 0 (Some Failure));
  deletion_ts ← read (get_asset_deletion_timestamps script);
  floors ← cached (λ c, failed_runs ≫= floors_of c deletion_ts);
  floors ←
    (match floors with
     | [] => mret []
     | _ =>
         built ← read (materialized_by_runs script (list_to_set floors.*1.*1) (list_to_set floors.*1.*2));
         mret (filter (λ e, not_built built e = true) floors)
     end : Load _);
  update (λ c, set_floors (retain_floors (cc_records c) deletion_ts (foldl raise_floor (cc_floors c) floors)) deletion_ts c).

Definition load_last_runs : Load unit :=
  records ← cached (λ c, (map_to_list (cc_records c)).*2);
  match omap last_run_id records with
  | [] => mret tt
  | ids =>
      last_runs ← read (get_runs_by_ids script (list_to_set ids));
      update (λ c, set_last_runs (foldl (load_last_run c (by_id last_runs)) (cc_last_runs c) records) c)
  end.

Definition initial_load : Load unit :=
  load_cursor ;;
  latest ← read (get_latest_observation_ts script);
  update (set_observation_cursor (match latest with Some ts => i64_wrap (ts - 1) | None => (-1)%Z end)) ;;
  records ← read (get_asset_records script);
  update (set_records (foldl (λ m r, <[asset_key r := r]> m) ∅ records)) ;;
  topology ← read (get_graph_topology script);
  match topology with Some edges => update (set_edges edges) | None => mret tt end ;;
  update (λ c, let '(up, down) := build_adjacency (cc_edges c) in set_adjacency up down c) ;;
  load_each load_live_runs [Started; NotStarted; Queued] ;;
  load_floors ;;
  load_last_runs ;;
  backfill ← read (load_active_backfills script);
  update (set_backfill backfill) ;;
  load_partition_status_inner ;;
  update set_initialized.

Definition refresh (now : Z) : Load bool := λ c i,
  if negb (cc_initialized c) then (initial_load ;; mret true) c i
  else
    match fetch_refresh_delta script c now i with
    | None => (c, None)
    | Some (d, j) => let '(moved, c') := apply_refresh_delta d c in (c', Some (moved, j))
    end.
End load.
