(* ===== verification/CacheTracking.v ===== *)
(** Lemmas on a cache refresh: the tracked runs, the changes a plan phase queues, and that a
    refresh returns. *)

From S2P Require Import Prelude PartitionKey BackfillGroup Worklist RunQueue ConditionNode Selection CondState CondCache Pools Backfills CacheStore CacheFetch CacheRefresh.

(** * What a refresh does to the tracked runs

    The rules for fetches, and the changes to the in-progress map that a plan phase
    gathers: which clears and pushes it can queue, and which it must. *)

(** ** Postconditions of fetches *)
Definition post {A} (m : Fetching A) (Q : A → Prop) : Prop := ∀ i a j, m i = Some (a, j) → Q a.

Lemma post_ret {A} (a : A) (Q : A → Prop) : Q a → post (mret a) Q.
Proof. by intros HQ i b j [= <- <-]. Qed.

Lemma post_bind {A B} (m : Fetching A) (k : A → Fetching B) (P : A → Prop) (Q : B → Prop) :
  post m P → (∀ a, P a → post (k a) Q) → post (m ≫= k) Q.
Proof.
  intros Hm Hk i b j. unfold mbind, fetching_bind. destruct (m i) as [[a l]|] eqn:E; [|done].
  apply Hk. by eapply Hm.
Qed.

Lemma post_weaken {A} (m : Fetching A) (P Q : A → Prop) : post m P → (∀ a, P a → Q a) → post m Q.
Proof. intros Hm HPQ i a j E. by eapply HPQ, Hm. Qed.

Lemma post_any {A} (m : Fetching A) : post m (λ _, True).
Proof. done. Qed.

Section rules.
Context (script : nat → option CacheStore).

Lemma post_query {A} (f : CacheStore → A) (Q : A → Prop) :
  (∀ i s, script i = Some s → Q (f s)) → post (query script f) Q.
Proof.
  intros HQ i a j. unfold query. destruct (script i) as [s|] eqn:E; [|done]. intros [= <- <-]. by eapply HQ.
Qed.

(** A run some statement may return. *)
Definition seen (run : RunRecord) : Prop := ∃ i s, script i = Some s ∧ run ∈ cs_runs s.

Lemma post_runs_by_ids ids (Q : list RunRecord → Prop) :
  (ids = ∅ → Q []) → (∀ i s, script i = Some s → Q (runs_by_ids ids s)) → post (get_runs_by_ids script ids) Q.
Proof.
  intros H0 H1. unfold get_runs_by_ids. case_bool_decide as E; [by apply post_ret, H0|]. by apply post_query.
Qed.

Lemma elem_of_runs_by_ids ids s run : run ∈ runs_by_ids ids s ↔ run ∈ cs_runs s ∧ rr_run_id run ∈ ids.
Proof. unfold runs_by_ids. rewrite elem_of_sort_by, list_elem_of_filter. tauto. Qed.

Lemma elem_of_runs_since since status s run :
  run ∈ runs_since since status s ↔ run ∈ cs_runs s ∧ (since < rr_start_time run)%Z ∧ status_is status run = true.
Proof. unfold runs_since. rewrite elem_of_sort_by, list_elem_of_filter. tauto. Qed.

Lemma by_ids_seen ids : post (get_runs_by_ids script ids) (Forall seen).
Proof.
  apply post_runs_by_ids; [constructor|]. intros i s Hs. apply Forall_forall.
  intros run [Hr _]%elem_of_runs_by_ids. by exists i, s.
Qed.
End rules.

(** ** The in-progress map *)
Definition tracks (m : InProgressMap) (a r : string) : Prop := is_Some (m !! a ≫= (.!! r)).

Lemma tracks_track a r pk m a' r' : tracks (track_in_progress_run a r pk m) a' r' ↔ (a = a' ∧ r = r') ∨ tracks m a' r'.
Proof.
  unfold tracks, track_in_progress_run. destruct (decide (a = a')) as [->|Ha].
  - rewrite lookup_insert_eq. cbn. rewrite lookup_insert_is_Some'. destruct (m !! a'); cbn; [tauto|].
    rewrite lookup_empty. split; [|by intros [[_ ?]|[? [=]]]; auto]. intros [?|[? [=]]]; auto.
  - rewrite lookup_insert_ne by done. tauto.
Qed.

Lemma tracks_untrack a r m a' r' : tracks (untrack_in_progress_run a r m) a' r' ↔ ¬ (a = a' ∧ r = r') ∧ tracks m a' r'.
Proof.
  unfold tracks, untrack_in_progress_run. destruct (m !! a) as [runs|] eqn:E; cbv zeta.
  - destruct (decide (a = a')) as [->|Ha].
    + rewrite E. cbn. assert (Hd : is_Some (delete r runs !! r') ↔ ¬ (a' = a' ∧ r = r') ∧ is_Some (runs !! r')).
      { rewrite lookup_delete_is_Some. naive_solver. }
      rewrite <- Hd. case_bool_decide as E0.
      * rewrite lookup_delete_eq, E0, lookup_empty. done.
      * by rewrite lookup_insert_eq.
    + case_bool_decide; [rewrite lookup_delete_ne by done|rewrite lookup_insert_ne by done]; tauto.
  - split; [|tauto]. intros H. split; [|done]. intros [-> ->]. rewrite E in H. by destruct H.
Qed.

Lemma tracks_delete a m a' r' : tracks (delete a m) a' r' ↔ a ≠ a' ∧ tracks m a' r'.
Proof.
  unfold tracks. destruct (decide (a = a')) as [->|Ha].
  - rewrite lookup_delete_eq. split; [by intros [? ?]|tauto].
  - rewrite lookup_delete_ne by done. tauto.
Qed.

Lemma tracks_clear_mark a m a' r' : tracks (clear_predispatch_mark a m) a' r' ↔ tracks m a' r'.
Proof.
  unfold clear_predispatch_mark. destruct (m !! a) as [runs|] eqn:E; [|done]. case_bool_decide as E0; [|done].
  rewrite tracks_delete. split; [tauto|]. intros H. split; [|done]. intros ->. unfold tracks in H.
  rewrite E, E0 in H. cbn in H. rewrite lookup_empty in H. by destruct H.
Qed.

(** What one change does to whether [r] is tracked for [a]. *)
Definition clears (a r : string) (ch : InProgressChange) : Prop :=
  match ch with ClearRun a' r' => a' = a ∧ r' = r | AssetClear a' => a' = a | Push _ _ _ => False end.

Definition pushes (a r : string) (ch : InProgressChange) : Prop :=
  match ch with Push a' r' _ => a' = a ∧ r' = r | _ => False end.

Lemma tracks_change a r m ch :
  tracks (apply_in_progress_change m ch) a r ↔ pushes a r ch ∨ (¬ clears a r ch ∧ tracks m a r).
Proof.
  destruct ch as [a' r' pk|a' r'|a']; cbn; rewrite ?tracks_track, ?tracks_untrack, ?tracks_delete; naive_solver.
Qed.

Lemma changes_untracked a r l m :
  Forall (λ ch, ¬ pushes a r ch) l → ¬ tracks m a r ∨ Exists (clears a r) l →
  ¬ tracks (foldl apply_in_progress_change m l) a r.
Proof.
  revert m. induction l as [|ch l IH]; intros m Hp H; cbn [foldl].
  - destruct H as [?|H%Exists_nil]; done.
  - apply Forall_cons in Hp as [Hc Hp]. apply IH; [done|]. rewrite tracks_change.
    rewrite Exists_cons in H. tauto.
Qed.

Lemma changes_tracked a r l m :
  Forall (λ ch, ¬ clears a r ch) l → tracks m a r ∨ Exists (pushes a r) l →
  tracks (foldl apply_in_progress_change m l) a r.
Proof.
  revert m. induction l as [|ch l IH]; intros m Hp H; cbn [foldl].
  - destruct H as [?|H%Exists_nil]; done.
  - apply Forall_cons in Hp as [Hc Hp]. apply IH; [done|]. rewrite tracks_change.
    rewrite Exists_cons in H. tauto.
Qed.

(** ** The in-progress map after a delta *)
Lemma marks_tracks l m a r : tracks (foldl (λ m asset, clear_predispatch_mark asset m) m l) a r ↔ tracks m a r.
Proof. revert m. induction l as [|x l IH]; intros m; cbn [foldl]; [done|]. by rewrite IH, tracks_clear_mark. Qed.

Lemma untracks_tracks id l m a r :
  tracks (foldl (λ ip asset, untrack_in_progress_run asset id ip) m l) a r → tracks m a r.
Proof. revert m. induction l as [|x l IH]; intros m; cbn [foldl]; [done|]. intros H%IH%tracks_untrack. tauto. Qed.

Lemma untracks_other id l m a r :
  id ≠ r → tracks m a r → tracks (foldl (λ ip asset, untrack_in_progress_run asset id ip) m l) a r.
Proof.
  intros Hne. revert m. induction l as [|x l IH]; intros m; cbn [foldl]; [done|].
  intros H. apply IH, tracks_untrack. split; [tauto|done].
Qed.

Lemma evict_tracks l acc a r : tracks (foldl evict_phantom acc l).1 a r → tracks acc.1 a r.
Proof.
  revert acc. induction l as [|x l IH]; intros [ip pend]; cbn [foldl evict_phantom]; [done|].
  intros H%IH. by apply untracks_tracks in H.
Qed.

Lemma evict_other l acc a r : r ∉ l.*1 → tracks acc.1 a r → tracks (foldl evict_phantom acc l).1 a r.
Proof.
  revert acc. induction l as [|x l IH]; intros [ip pend]; cbn [foldl evict_phantom fmap list_fmap]; [done|].
  rewrite not_elem_of_cons. intros [Hx Hl] H. apply IH; [done|]. cbn. by apply untracks_other.
Qed.

(** The in-progress map of the next cache, from the changes of the delta. *)
Lemma delta_in_progress d c :
  cc_in_progress (apply_refresh_delta d c).2 =
  (foldl evict_phantom
     (foldl (λ m asset, clear_predispatch_mark asset m)
        (foldl apply_in_progress_change (cc_in_progress c) (in_progress_changes d)) (backfill_ended_assets d),
      foldl (λ m run_id, delete run_id m) (cc_pending_runs c) (confirmed_pending d)) (evicted_pending d)).1.
Proof.
  unfold apply_refresh_delta. cbv zeta. destruct (foldl apply_deletion _ _) as [lr dels].
  destruct (foldl evict_phantom _ _) as [ip pend]. done.
Qed.

Lemma delta_untracks d c a r :
  Forall (λ ch, ¬ pushes a r ch) (in_progress_changes d) →
  ¬ tracks (cc_in_progress c) a r ∨ Exists (clears a r) (in_progress_changes d) →
  ¬ tracks (cc_in_progress (apply_refresh_delta d c).2) a r.
Proof.
  intros H1 H2. rewrite delta_in_progress. intros H%evict_tracks. cbn in H. rewrite marks_tracks in H.
  by eapply changes_untracked in H.
Qed.

Lemma delta_tracks d c a r :
  Forall (λ ch, ¬ clears a r ch) (in_progress_changes d) →
  tracks (cc_in_progress c) a r ∨ Exists (pushes a r) (in_progress_changes d) →
  r ∉ (evicted_pending d).*1 →
  tracks (cc_in_progress (apply_refresh_delta d c).2) a r.
Proof.
  intros H1 H2 H3. rewrite delta_in_progress. apply evict_other; [done|]. cbn. rewrite marks_tracks.
  by apply changes_tracked.
Qed.

(** * The changes a plan phase queues

    Every change to the in-progress map comes from a run some statement returned: a
    clear from a terminal run or a vanished one, a push from a live one. A tracked run
    whose row is terminal is cleared, and a live run above the cursor is pushed. *)

Definition terminal (run : RunRecord) : Prop := run_status_is_terminal (rr_status run) = true.

#[export] Instance terminal_dec run : Decision (terminal run).
Proof. unfold terminal. apply _. Defined.

Lemma apply_effects_frame c run f :
  f_changes (apply_effects c run f).2 = f_changes f ∧ f_swept (apply_effects c run f).2 = f_swept f.
Proof. unfold apply_effects. by destruct (apply_run_effects_to_delta _ _ _). Qed.

(** Changes are only appended. *)
Definition grows (f f' : Fetch) : Prop := ∀ ch, ch ∈ f_changes f → ch ∈ f_changes f'.

#[export] Instance grows_preorder : PreOrder grows.
Proof. split; [by intros ? ?|]. intros f g h H1 H2 ch H. by apply H2, H1. Qed.

Lemma foldl_grows {X} (step : Fetch → X → Fetch) l f : (∀ f x, grows f (step f x)) → grows f (foldl step f l).
Proof. intros H. apply (foldl_keeps (grows f)); [|done]. intros g x Hg. by etrans. Qed.

Section sweeps.
Context (script : nat → option CacheStore) (c : AssetConditionCache).
Context (P : InProgressChange → Prop) (Sw : string → Prop).
Hypothesis terminal_ok : ∀ run, seen script run → terminal run →
  (∀ a, a ∈ rr_node_names run → P (ClearRun a (rr_run_id run))) ∧ Sw (rr_run_id run).
Hypothesis vanished_ok : ∀ a id i s, tracks (cc_in_progress c) a id → script i = Some s →
  (∀ run, run ∈ cs_runs s → rr_run_id run ≠ id) → P (ClearRun a id).
Hypothesis live_ok : ∀ run, seen script run → ¬ terminal run → ∀ a, a ∈ rr_node_names run → P (Push a (rr_run_id run) (rr_partition_key run)).

Definition allowed (f : Fetch) : Prop := Forall P (f_changes f) ∧ ∀ id, id ∈ f_swept f → Sw id.

Lemma allowed_frame f f' : f_changes f' = f_changes f → f_swept f' = f_swept f → allowed f → allowed f'.
Proof. unfold allowed. by intros -> ->. Qed.

Lemma clear_run_ok run f : seen script run → terminal run → allowed f → allowed (clear_run run f).
Proof.
  intros Hs Ht [H1 H2]. split; [|done]. cbn. apply Forall_app. split; [done|]. apply Forall_fmap, Forall_forall.
  intros a Ha. by apply terminal_ok.
Qed.

Lemma mark_swept_ok run f : seen script run → terminal run → allowed f → allowed (mark_swept (rr_run_id run) f).
Proof.
  intros Hs Ht [H1 H2]. split; [done|]. cbn. intros id [->%elem_of_singleton|?]%elem_of_union; [|by apply H2].
  by apply terminal_ok.
Qed.

Lemma effects_ok run f : allowed f → allowed (apply_effects c run f).2.
Proof. destruct (apply_effects_frame c run f) as [E1 E2]. by apply allowed_frame. Qed.

Lemma sweep_tracked_frame nt cr acc run :
  let f := clear_run run (push_applied run (mark_swept (rr_run_id run) acc.2)) in
  let f' := (sweep_tracked c nt cr acc run).2 in
  if run_status_is_terminal (rr_status run) then f_changes f' = f_changes f ∧ f_swept f' = f_swept f else f' = acc.2.
Proof.
  destruct acc as [sa f]. cbv zeta. unfold sweep_tracked. cbn [snd].
  destruct (run_status_is_terminal _); cbn [negb]; [|done].
  destruct (_ && _ && _); [|done].
  set (g := invalidate _ _). destruct (apply_effects_frame c run g) as [E1 E2].
  destruct (apply_effects c run g) as [ok h]. cbn [snd] in *. by rewrite E1, E2.
Qed.

Lemma sweep_tracked_ok nt cr runs acc :
  Forall (seen script) runs → allowed acc.2 → allowed (foldl (sweep_tracked c nt cr) acc runs).2.
Proof.
  revert acc. induction runs as [|run runs IH]; intros acc; cbn [foldl]; [done|].
  rewrite Forall_cons. intros [Hs Hl] Ha. apply IH; [done|].
  pose proof (sweep_tracked_frame nt cr acc run) as Hf. cbv zeta in Hf.
  destruct (run_status_is_terminal (rr_status run)) eqn:Et; [|by rewrite Hf].
  destruct Hf as [E1 E2]. eapply allowed_frame; [done..|]. apply clear_run_ok; [done..|].
  eapply (allowed_frame (mark_swept (rr_run_id run) acc.2)); [done..|]. by apply mark_swept_ok.
Qed.

Lemma sweep_tracked_grows nt cr runs acc : grows acc.2 (foldl (sweep_tracked c nt cr) acc runs).2.
Proof.
  revert acc. induction runs as [|run runs IH]; intros acc; cbn [foldl]; [done|].
  etrans; [|apply IH]. pose proof (sweep_tracked_frame nt cr acc run) as Hf. cbv zeta in Hf.
  destruct (run_status_is_terminal _); [|by rewrite Hf]. destruct Hf as [E1 _]. unfold grows. rewrite E1. cbn.
  intros ch H. apply elem_of_app. by left.
Qed.

(** A terminal run of the lookup is cleared for its assets. *)
Lemma sweep_tracked_clears nt cr runs acc run a :
  run ∈ runs → terminal run → a ∈ rr_node_names run →
  ClearRun a (rr_run_id run) ∈ f_changes (foldl (sweep_tracked c nt cr) acc runs).2.
Proof.
  revert acc. induction runs as [|x runs IH]; intros acc; [by intros ?%elem_of_nil|]. cbn [foldl].
  intros [->|Hr]%elem_of_cons Ht Ha; [|by apply IH].
  apply sweep_tracked_grows. pose proof (sweep_tracked_frame nt cr acc x) as Hf. cbv zeta in Hf.
  unfold terminal in Ht. rewrite Ht in Hf. destruct Hf as [-> _]. cbn. apply elem_of_app. right.
  by apply (list_elem_of_fmap_2 (λ a, ClearRun a (rr_run_id x))).
Qed.

Lemma tracks_elem a runs id : (a, runs) ∈ map_to_list (cc_in_progress c) → id ∈ (map_to_list runs).*1 → tracks (cc_in_progress c) a id.
Proof.
  intros Ha%elem_of_map_to_list ([id' pk] & -> & Hid%elem_of_map_to_list)%list_elem_of_fmap.
  unfold tracks. rewrite Ha. by exists pk.
Qed.

(** The clears of vanished runs. *)
Definition vanished_step (found : gset string) (a : string) (f : Fetch) (id : string) : Fetch :=
  if bool_decide (id ∈ found) || bool_decide (is_Some (cc_pending_runs c !! id)) then f
  else invalidate [a] (add_changes [ClearRun a id] f).

Lemma vanished_inner_ok found a ids f :
  (∀ id, id ∈ ids → id ∉ found → P (ClearRun a id)) → allowed f → allowed (foldl (vanished_step found a) f ids).
Proof.
  revert f. induction ids as [|id ids IH]; intros f Hp Ha; cbn [foldl]; [done|]. apply IH.
  - intros x Hx. apply Hp. by right.
  - unfold vanished_step. case_bool_decide as E; [done|]. cbn [orb]. case_bool_decide; [done|].
    destruct Ha as [H1 H2]. split; [|done]. cbn. apply Forall_app. split; [done|]. constructor; [|done].
    apply Hp; [by left|done].
Qed.

Lemma clear_vanished_ok ids i s f :
  script i = Some s → (∀ a id, tracks (cc_in_progress c) a id → id ∈ ids) →
  allowed f → allowed (clear_vanished c (runs_by_ids ids s) f).
Proof.
  intros Hs Hids. unfold clear_vanished. cbv zeta.
  set (found := list_to_set _). intros Ha.
  change (allowed (foldl (λ f e, foldl (vanished_step found e.1) f (map_to_list e.2).*1) f (map_to_list (cc_in_progress c)))).
  assert (Hl : ∀ e, e ∈ map_to_list (cc_in_progress c) → ∀ id, id ∈ (map_to_list e.2).*1 → tracks (cc_in_progress c) e.1 id).
  { intros [a runs] He id. by apply tracks_elem. }
  revert f Ha Hl. generalize (map_to_list (cc_in_progress c)) as l.
  induction l as [|e l IH]; intros f Ha Hl; cbn [foldl]; [done|]. apply IH.
  - apply vanished_inner_ok; [|done]. intros id Hid Hf. pose proof (Hl e ltac:(by left) id Hid) as Htr.
    eapply vanished_ok; [done..|]. intros run Hr <-. apply Hf. unfold found. apply elem_of_list_to_set, list_elem_of_fmap.
    exists run. split; [done|]. apply elem_of_runs_by_ids. split; [done|]. by eapply Hids.
  - intros e' He'. apply Hl. by right.
Qed.

Lemma clear_vanished_grows runs f : grows f (clear_vanished c runs f).
Proof.
  unfold clear_vanished. cbv zeta. apply foldl_grows. intros g e. apply foldl_grows. intros h id.
  destruct (_ || _); [done|]. intros ch Hch. cbn. apply elem_of_app. by left.
Qed.

Lemma tracks_clearable a id : tracks (cc_in_progress c) a id → id ∈ clearable c.
Proof.
  unfold tracks, clearable. destruct (cc_in_progress c !! a) as [runs|] eqn:E; [|by intros [? ?]]. cbn.
  intros Hid. apply elem_of_union_list. exists (dom runs). split; [|by apply elem_of_dom].
  apply list_elem_of_fmap. exists (a, runs). split; [done|]. by apply elem_of_map_to_list.
Qed.

Lemma apply_completed_frame f run :
  f_changes (apply_completed c f run) = f_changes f ∧ f_swept (apply_completed c f run) = f_swept f.
Proof.
  unfold apply_completed. destruct (is_applied _ _); [done|]. cbn. apply apply_effects_frame.
Qed.

Lemma settle_unmoved_frame sr unmoved acc :
  let acc' := foldl (settle_unmoved c sr) acc unmoved in
  f_changes acc'.2 = f_changes acc.2 ∧ f_swept acc'.2 = f_swept acc.2.
Proof.
  cbv zeta. revert acc. induction unmoved as [|key l IH]; intros [[ck cr] f]; cbn [foldl]; [done|].
  destruct (IH (settle_unmoved c sr (ck, cr, f) key)) as [-> ->]. unfold settle_unmoved.
  destruct (sr !! key); [|done]. cbn. by case_bool_decide.
Qed.

(** A run whose row is terminal and covers [a], in every snapshot. *)
Definition settled (r a : string) : Prop := ∀ i s, script i = Some s →
  ∃ run, run ∈ cs_runs s ∧ rr_run_id run = r ∧ terminal run ∧ a ∈ rr_node_names run.

Definition cleared_in (f : Fetch) : Prop := ∀ a r, tracks (cc_in_progress c) a r → settled r a → ClearRun a r ∈ f_changes f.

Lemma lookup_tracked_ok nt cr f : allowed f →
  post (tracked_runs ← get_runs_by_ids script (clearable c);
        let '(swept_applied, f) := foldl (sweep_tracked c nt cr) (∅, f) tracked_runs in
        mret (swept_applied, if (length tracked_runs <? size (clearable c))%nat then clear_vanished c tracked_runs f else f))
    (λ r, allowed r.2 ∧ grows f r.2 ∧ (clearable c ≠ ∅ → cleared_in r.2)).
Proof.
  intros Ha.
  assert (Hgo : ∀ runs, Forall (seen script) runs →
    (∀ g, allowed g → allowed (clear_vanished c runs g)) →
    (clearable c ≠ ∅ → ∃ i s, script i = Some s ∧ runs = runs_by_ids (clearable c) s) →
    post (let '(swept_applied, f) := foldl (sweep_tracked c nt cr) (∅, f) runs in
          mret (swept_applied, if (length runs <? size (clearable c))%nat then clear_vanished c runs f else f))
      (λ r, allowed r.2 ∧ grows f r.2 ∧ (clearable c ≠ ∅ → cleared_in r.2))).
  { intros runs Hseen Hvan Hruns.
    pose proof (sweep_tracked_ok nt cr runs (∅, f) Hseen Ha) as H1.
    pose proof (sweep_tracked_grows nt cr runs (∅, f)) as H2.
    pose proof (sweep_tracked_clears nt cr runs (∅, f)) as H3.
    destruct (foldl _ _ runs) as [sa g]. cbn [snd] in *. apply post_ret. cbn [snd].
    assert (Hg : grows g (if (length runs <? size (clearable c))%nat then clear_vanished c runs g else g)).
    { destruct (_ <? _)%nat; [apply clear_vanished_grows|done]. }
    split_and!; [destruct (_ <? _)%nat; [by apply Hvan|done]|by etrans|].
    intros Hne a r Htr Hset. apply Hg. destruct (Hruns Hne) as (i & s & Hs & ->).
    destruct (Hset i s Hs) as (run & Hr & <- & Ht & Hin). apply H3; [|done..]. apply elem_of_runs_by_ids.
    split; [done|]. by eapply tracks_clearable. }
  eapply post_bind; [|intros runs Hruns; apply Hruns].
  apply post_runs_by_ids.
  - intros Hc. apply Hgo; [constructor| |done]. intros g Hg. unfold clear_vanished. cbv zeta.
    assert (Hl : ∀ e, e ∈ map_to_list (cc_in_progress c) → (map_to_list e.2).*1 = []).
    { intros [a rs] He. destruct ((map_to_list (a, rs).2).*1) as [|id ids] eqn:E; [done|].
      pose proof (tracks_elem a rs id He) as Ht. cbn in E. rewrite E in Ht. specialize (Ht ltac:(left)).
      apply tracks_clearable in Ht. by rewrite Hc in Ht. }
    revert g Hg Hl. generalize (map_to_list (cc_in_progress c)) as l. induction l as [|e l IH]; intros g Hg Hl; cbn [foldl]; [done|].
    rewrite (Hl e) by left. apply IH; [done|]. intros e' He'. apply Hl. by right.
  - intros i s Hs. apply Hgo.
    + apply Forall_forall. intros run [Hr _]%elem_of_runs_by_ids. by exists i, s.
    + intros g. apply clear_vanished_ok with i; [done|]. apply tracks_clearable.
    + intros _. by exists i, s.
Qed.

Lemma apply_completed_all f runs :
  f_changes (foldl (apply_completed c) f runs) = f_changes f ∧ f_swept (foldl (apply_completed c) f runs) = f_swept f.
Proof.
  revert f. induction runs as [|run runs IH]; intros f; cbn [foldl]; [done|].
  destruct (IH (apply_completed c f run)) as [-> ->]. apply apply_completed_frame.
Qed.

Lemma sweep_in_progress_ok nt f : allowed f →
  post (sweep_in_progress script c nt f) (λ f', allowed f' ∧ grows f f' ∧ cleared_in f').
Proof.
  intros Ha. unfold sweep_in_progress. case_bool_decide as E0.
  { apply post_ret. split_and!; [done..|]. intros a r Htr. unfold tracks in Htr. rewrite E0, lookup_empty in Htr. by destruct Htr. }
  eapply post_bind; [apply post_any|]. intros fresh _. cbv zeta.
  set (moved := filter _ fresh). set (unmoved := asset_key <$> _).
  eapply (post_bind _ _ (λ r, f_changes r.2 = f_changes f ∧ f_swept r.2 = f_swept f)).
  { unfold probe_unmoved. destruct unmoved as [|u us]; [by apply post_ret|].
    eapply post_bind; [apply post_any|]. intros outcomes _. apply post_ret. by apply settle_unmoved_frame. }
  intros [[ck cr] g] [E1 E2]. cbn [snd] in E1, E2.
  assert (Hg : allowed (invalidate ck g)) by (by eapply allowed_frame).
  eapply (post_bind _ _ (λ r, allowed r.2 ∧ grows f r.2 ∧ cleared_in r.2)).
  - case_bool_decide as Ec.
    + apply post_ret. split_and!; [done|intros ch; cbn; by rewrite E1|]. intros a r Htr%tracks_clearable. by rewrite Ec in Htr.
    + eapply post_weaken; [by apply lookup_tracked_ok|]. intros r (H1 & H2 & H3). split_and!; [done| |by apply H3].
      etrans; [|done]. intros ch. cbn. by rewrite E1.
  - intros [sa h] (H1 & H2 & H3). cbn [snd] in *. case_bool_decide; [by apply post_ret|].
    eapply post_bind; [apply post_any|]. intros runs _. apply post_ret.
    destruct (apply_completed_all h runs) as [E3 E4]. split_and!.
    + by eapply allowed_frame.
    + etrans; [done|]. intros ch. by rewrite E3.
    + intros a r Htr Hset. rewrite E3. by apply H3.
Qed.

(** ** The watched actions *)
Lemma sweep_watched_frame nt f run :
  f_changes (sweep_watched c nt f run) = f_changes f ∧
  f_swept (sweep_watched c nt f run) = if run_status_is_terminal (rr_status run) then {[rr_run_id run]} ∪ f_swept f else f_swept f.
Proof.
  unfold sweep_watched. destruct (run_status_is_terminal _); cbn [negb]; [|done]. destruct (_ && _); [|done].
  cbn. match goal with |- context [apply_effects c run ?g] => destruct (apply_effects_frame c run g) as [-> ->] end. done.
Qed.

Lemma sweep_watched_ok nt runs f :
  Forall (seen script) runs → allowed f →
  allowed (foldl (sweep_watched c nt) f runs) ∧ f_changes (foldl (sweep_watched c nt) f runs) = f_changes f.
Proof.
  revert f. induction runs as [|run runs IH]; intros f; cbn [foldl]; [done|].
  rewrite Forall_cons. intros [Hs Hl] Ha. destruct (sweep_watched_frame nt f run) as [E1 E2].
  rewrite <- E1. apply IH; [done|]. destruct (run_status_is_terminal (rr_status run)) eqn:Et.
  - eapply (allowed_frame (mark_swept (rr_run_id run) f)); [done..|]. by apply mark_swept_ok.
  - by eapply allowed_frame.
Qed.

Lemma unwatch_vanished_frame watched f :
  f_changes (unwatch_vanished c watched f) = f_changes f ∧ f_swept (unwatch_vanished c watched f) = f_swept f.
Proof.
  unfold unwatch_vanished. cbv zeta. set (step := λ _ _, _).
  apply (foldl_keeps (λ g, f_changes g = f_changes f ∧ f_swept g = f_swept f)); [|done].
  intros g e. unfold step. by case_bool_decide.
Qed.

Lemma sweep_live_actions_ok nt f : allowed f →
  post (sweep_live_actions script c nt f) (λ f', allowed f' ∧ f_changes f' = f_changes f).
Proof.
  intros Ha. unfold sweep_live_actions. cbv zeta. case_bool_decide; [by apply post_ret|].
  eapply post_bind; [apply by_ids_seen|]. intros runs Hs. apply post_ret.
  destruct (sweep_watched_ok nt runs f Hs Ha) as [H1 H2]. destruct (_ <? _)%nat; [|done].
  destruct (unwatch_vanished_frame runs (foldl (sweep_watched c nt) f runs)) as [E1 E2].
  split; [by eapply allowed_frame|congruence].
Qed.

(** ** The new runs *)
Lemma new_run_step_frame f run :
  f_changes (new_run_step c f run) =
    f_changes f ++
    (if run_status_is_terminal (rr_status run) then (λ a, ClearRun a (rr_run_id run)) <$> rr_node_names run
     else if bool_decide (rr_run_id run ∈ f_swept f) || run_is_action run then []
     else (λ a, Push a (rr_run_id run) (rr_partition_key run)) <$> rr_node_names run) ∧
  f_swept (new_run_step c f run) = f_swept f.
Proof.
  unfold new_run_step. cbv zeta. pose proof (apply_effects_frame c run (clear_run run f)) as [E1 E2].
  destruct (rr_status run); cbn [run_status_is_terminal].
  1-3: case_bool_decide; cbn [orb]; [by rewrite app_nil_r|]; by destruct (run_is_action run); cbn; rewrite ?app_nil_r.
  all: destruct (is_applied c (rr_run_id run)), (run_is_action run); cbn [andb negb mark_action_done push_applied f_changes f_swept with_effects]; by rewrite ?E1, ?E2.
Qed.

Lemma new_runs_ok runs f :
  Forall (seen script) runs → allowed f →
  allowed (foldl (new_run_step c) f runs) ∧ grows f (foldl (new_run_step c) f runs) ∧
  f_swept (foldl (new_run_step c) f runs) = f_swept f.
Proof.
  revert f. induction runs as [|run runs IH]; intros f; cbn [foldl]; [done|].
  rewrite Forall_cons. intros [Hs Hl] [Ha1 Ha2]. destruct (new_run_step_frame f run) as [E1 E2].
  destruct (IH (new_run_step c f run) Hl) as (H1 & H2 & H3).
  - split; [|by rewrite E2]. rewrite E1. apply Forall_app. split; [done|].
    destruct (run_status_is_terminal _) eqn:Et.
    + apply Forall_fmap, Forall_forall. intros a Hin. by apply terminal_ok.
    + destruct (_ || _); [done|]. apply Forall_fmap, Forall_forall. intros a Hin. apply live_ok; [done| |done].
      unfold terminal. by rewrite Et.
  - split_and!; [done| |congruence]. etrans; [|done]. intros ch. rewrite E1, elem_of_app. by left.
Qed.

(** A live materialize run that no sweep saw terminal is pushed. *)
Lemma new_runs_pushes runs f run a :
  run ∈ runs → ¬ terminal run → run_is_action run = false → rr_run_id run ∉ f_swept f → a ∈ rr_node_names run →
  Push a (rr_run_id run) (rr_partition_key run) ∈ f_changes (foldl (new_run_step c) f runs).
Proof.
  revert f. induction runs as [|x runs IH]; intros f; [by intros ?%elem_of_nil|]. cbn [foldl].
  destruct (new_run_step_frame f x) as [E1 E2].
  intros [->|Hr]%elem_of_cons Ht Hac Hsw Hin; [|by apply IH; rewrite ?E2].
  assert (Hg : grows (new_run_step c f x) (foldl (new_run_step c) (new_run_step c f x) runs)).
  { apply foldl_grows. intros g y. destruct (new_run_step_frame g y) as [E _]. intros ch. rewrite E, elem_of_app. by left. }
  apply Hg. rewrite E1, elem_of_app. right. unfold terminal in Ht. rewrite (not_true_is_false _ Ht), Hac, bool_decide_false by done.
  by apply (list_elem_of_fmap_2 (λ a, Push a (rr_run_id x) (rr_partition_key x))).
Qed.
End sweeps.

(** * A refresh returns

    The walk over the dependents ends, on the set of assets downstream of its start, and
    a refresh whose statements all answer returns. *)

(** ** The walk *)
Section walk.
Context (succ : string → list string) (U : gset string) (succ_U : ∀ v w, w ∈ succ v → w ∈ U).

Lemma visit_all ws (result : gset string) stack :
  Forall (.∈ U) ws →
  let '(result', stack') := foldl (visit id) (result, stack) ws in
  (∀ k, k ∈ result' ↔ k ∈ result ∨ k ∈ ws) ∧ (∀ k, k ∈ stack' ↔ k ∈ stack ∨ (k ∈ ws ∧ k ∉ result)) ∧
  length stack' + size (U ∖ result') = length stack + size (U ∖ result).
Proof.
  revert result stack. induction ws as [|w ws IH]; intros result stack Hws; cbn [foldl].
  - split_and!; [| |done]; intros k; rewrite elem_of_nil; tauto.
  - apply Forall_cons in Hws as [Hw Hws]. unfold visit at 2. unfold id at 1 2. case_bool_decide as E.
    + specialize (IH result stack Hws). destruct (foldl _ _ ws) as [r' s']. destruct IH as (I1 & I2 & I3).
      split_and!; [| |done]; intros k; rewrite ?I1, ?I2, elem_of_cons; naive_solver.
    + specialize (IH ({[w]} ∪ result) (w :: stack) Hws). destruct (foldl _ _ ws) as [r' s']. destruct IH as (I1 & I2 & I3).
      split_and!.
      * intros k. rewrite I1, elem_of_cons, elem_of_union, elem_of_singleton. tauto.
      * intros k. rewrite I2, !elem_of_cons, elem_of_union, elem_of_singleton.
        destruct (decide (k = w)) as [->|]; tauto.
      * rewrite I3. cbn [length]. assert (Hs : size (U ∖ result) = S (size (U ∖ ({[w]} ∪ result)))).
        { replace (U ∖ result) with ({[w]} ∪ (U ∖ ({[w]} ∪ result))).
          - rewrite size_union by (intros x; rewrite elem_of_singleton, elem_of_difference, elem_of_union, elem_of_singleton; tauto).
            by rewrite size_singleton.
          - apply set_eq. intros x. rewrite elem_of_union, elem_of_singleton, !elem_of_difference, elem_of_union, elem_of_singleton.
            destruct (decide (x = w)) as [->|]; tauto. }
        lia.
Qed.

Definition downstream_of (start : gset string) (k : string) : Prop := ∃ t, t ∈ start ∧ rtc (λ v w, w ∈ succ v) t k.

Lemma closed_downstream (start result : gset string) k :
  (∀ k, k ∈ start → k ∈ result) → (∀ v w, v ∈ result → w ∈ succ v → w ∈ result) → downstream_of start k → k ∈ result.
Proof.
  intros Hst Hcl (t & Ht%Hst & Hk). induction Hk as [|x y z Hy _ IH]; [done|]. by eapply IH, Hcl.
Qed.

Lemma push_loop_from (start : gset string) fuel result stack :
  (∀ k, k ∈ result → downstream_of start k) → (∀ k, k ∈ start → k ∈ result) →
  (∀ k, k ∈ stack → k ∈ result) →
  (∀ v w, v ∈ result → w ∈ succ v → w ∈ result ∨ v ∈ stack) →
  length stack + size (U ∖ result) ≤ fuel →
  ∃ R, push_loop id succ fuel result stack = Some R ∧ ∀ k, k ∈ R ↔ downstream_of start k.
Proof.
  revert result stack. induction fuel as [|fuel IH]; intros result [|v stack] Hr Hst Hsk Hcl Hf; cbn [length] in *; try lia.
  1,2: (exists result; split; [done|]; intros k; split; [apply Hr|]; apply closed_downstream; [done|];
        intros x y Hx Hy; by destruct (Hcl x y Hx Hy) as [?|?%elem_of_nil]).
  cbn [push_loop]. pose proof (visit_all (succ v) result stack) as Hv.
  destruct (foldl (visit id) (result, stack) (succ v)) as [r' s'].
  destruct Hv as (I1 & I2 & I3); [by apply Forall_forall, succ_U|]. apply IH.
  - intros k [?|Hk]%I1; [by apply Hr|]. destruct (Hr v) as (t & Ht & Hp); [by apply Hsk; left|].
    exists t. split; [done|]. by eapply rtc_r.
  - intros k Hk. apply I1. left. by apply Hst.
  - intros k [?|[? _]]%I2; apply I1; [left; apply Hsk; by right|by right].
  - intros x y [Hx|Hx]%I1 Hy.
    + destruct (Hcl x y Hx Hy) as [?|[->|?]%elem_of_cons]; [left; apply I1; by left|left; apply I1; by right|right; apply I2; by left].
    + destruct (decide (x ∈ result)) as [Hxr|Hxr]; [|right; apply I2; by right].
      destruct (Hcl x y Hxr Hy) as [?|[->|?]%elem_of_cons]; [left; apply I1; by left|left; apply I1; by right|right; apply I2; by left].
  - lia.
Qed.
End walk.

Lemma downs_elem down v w : w ∈ downs down v → w ∈ concat (map_to_list down).*2.
Proof.
  unfold downs. destruct (down !! v) as [l|] eqn:E; [|by intros ?%elem_of_nil]. cbn. intros Hw.
  apply list_elem_of_In, in_concat. exists l. rewrite <- !list_elem_of_In. split; [|done].
  apply list_elem_of_fmap. exists (v, l). split; [done|]. by apply elem_of_map_to_list.
Qed.

(** The walk returns the assets downstream of the touched ones, themselves among them. *)
Lemma expand_downstream_exact c touched :
  ∃ R, expand_downstream c touched = Some R ∧ ∀ k, k ∈ R ↔ downstream_of (downs (cc_downstream_deps c)) touched k.
Proof.
  unfold expand_downstream. cbv zeta. set (l := concat _).
  apply (push_loop_from (downs (cc_downstream_deps c)) (list_to_set l)).
  - intros v w. rewrite elem_of_list_to_set. apply downs_elem.
  - intros k Hk. exists k. by split; [|apply rtc_refl].
  - done.
  - intros k. by rewrite elem_of_elements.
  - intros v w Hv _. right. by apply elem_of_elements.
  - assert (size (list_to_set l ∖ touched) ≤ length l).
    { etrans; [apply (subseteq_size _ (list_to_set l : gset string)); set_solver|].
      clearbody l. induction l as [|x l IH]; [done|]. cbn [list_to_set length].
      rewrite size_union_alt, size_singleton.
      enough (size (list_to_set l ∖ {[x]} : gset string) ≤ size (list_to_set l : gset string)) by lia.
      apply subseteq_size. set_solver. }
    change (length (elements touched)) with (size touched). lia.
Qed.

(** ** Statements that answer *)
Definition returns {A} (m : Fetching A) : Prop := ∀ i, is_Some (m i).

Lemma returns_ret {A} (a : A) : returns (mret a).
Proof. intros i. by exists (a, i). Qed.

Lemma returns_bind {A B} (m : Fetching A) (k : A → Fetching B) : returns m → (∀ a, returns (k a)) → returns (m ≫= k).
Proof. intros Hm Hk i. unfold mbind, fetching_bind. destruct (Hm i) as [[a j] ->]. apply Hk. Qed.

(** A load runs through: the cache it ends on comes with a result. *)
Definition loads {A} (m : Load A) : Prop := ∀ c i, is_Some (m c i).2.

Lemma loads_ret {A} (a : A) : loads (mret a).
Proof. intros c i. by exists (a, i). Qed.

Lemma loads_bind {A B} (m : Load A) (k : A → Load B) : loads m → (∀ a, loads (k a)) → loads (m ≫= k).
Proof.
  intros Hm Hk c i. unfold mbind, load_bind. specialize (Hm c i). destruct (m c i) as [c' [[a j]|]]; [apply Hk|].
  by destruct Hm.
Qed.

Lemma loads_read {A} (m : Fetching A) : returns m → loads (read m).
Proof. intros Hm c i. apply Hm. Qed.

Lemma loads_cached {A} (f : AssetConditionCache → A) : loads (cached f).
Proof. intros c i. by exists (f c, i). Qed.

Lemma loads_update f : loads (update f).
Proof. intros c i. by exists (tt, i). Qed.

Lemma loads_each {A} (f : A → Load unit) l : (∀ x, loads (f x)) → loads (load_each f l).
Proof. intros Hf. induction l as [|x l IH]; cbn; [apply loads_ret|]. by apply loads_bind. Qed.

Create HintDb fetching.
#[export] Hint Resolve returns_ret loads_ret loads_cached loads_update : fetching.
#[export] Hint Resolve loads_read loads_each : fetching.

(** Walks through a fetch or a load: a statement, a branch or a bind at a time. *)
Ltac answers :=
  repeat first
    [ progress cbv zeta
    | solve [eauto with fetching]
    | apply returns_bind | apply loads_bind
    | match goal with
      | |- ∀ _, _ => intros ?
      | |- returns (if ?b then _ else _) => destruct b
      | |- returns (match ?x with _ => _ end) => destruct x
      | |- loads (if ?b then _ else _) => destruct b
      | |- loads (match ?x with _ => _ end) => destruct x
      end ].

Section total.
Context (script : nat → option CacheStore) (answered : ∀ i, is_Some (script i)).

Lemma returns_query {A} (f : CacheStore → A) : returns (query script f).
Proof. intros i. unfold query. destruct (answered i) as [s ->]. by eexists. Qed.
#[local] Hint Resolve returns_query : fetching.

Lemma returns_runs_by_ids ids : returns (get_runs_by_ids script ids).
Proof. unfold get_runs_by_ids. answers. Qed.

Lemma returns_records_by_keys keys : returns (get_asset_records_by_keys script keys).
Proof. unfold get_asset_records_by_keys. answers. Qed.

Lemma returns_step_outcomes a r : returns (step_outcomes script a r).
Proof. unfold step_outcomes. answers. Qed.

Lemma returns_materialized a r : returns (materialized_by_runs script a r).
Proof. unfold materialized_by_runs. answers. Qed.

Lemma returns_for_keys a k : returns (get_partition_timestamps_for_keys script a k).
Proof. unfold get_partition_timestamps_for_keys. answers. Qed.

Lemma returns_failed_partitions a m : returns (get_failed_partitions script a m).
Proof. unfold get_failed_partitions. answers. Qed.

Lemma returns_backfills : returns (load_active_backfills script).
Proof. unfold load_active_backfills, get_backfills. answers. Qed.
#[local] Hint Resolve returns_runs_by_ids returns_records_by_keys returns_step_outcomes returns_materialized returns_for_keys
  returns_failed_partitions returns_backfills : fetching.

Lemma returns_downstream c keys : returns (fetch_records_with_downstream script c keys).
Proof.
  unfold fetch_records_with_downstream. destruct (expand_downstream_exact c (list_to_set keys)) as (R & -> & _). answers.
Qed.
#[local] Hint Resolve returns_downstream : fetching.

Lemma returns_sweep c nt f : returns (sweep_in_progress script c nt f).
Proof. unfold sweep_in_progress, probe_unmoved. answers. Qed.

Lemma returns_actions c nt f : returns (sweep_live_actions script c nt f).
Proof. unfold sweep_live_actions. answers. Qed.

Lemma returns_patch a cur t k b : returns (fetch_partition_patch script a cur t k b).
Proof. unfold fetch_partition_patch, get_partition_timestamps_since, get_in_progress_partitions. answers. Qed.
#[local] Hint Resolve returns_sweep returns_actions returns_patch : fetching.

Lemma returns_patches c assets ac ch rl : returns (fetch_patches script c assets ac ch rl).
Proof. induction assets as [|a assets IH]; cbn [fetch_patches]; answers. Qed.
#[local] Hint Resolve returns_patches : fetching.

Lemma returns_invalidated c inv d rl : returns (fetch_invalidated script c inv d rl).
Proof. unfold fetch_invalidated, fetch_partition_status_for_invalidated. answers. Qed.

Lemma returns_observations c : returns (fetch_refresh_observations_delta script c).
Proof. unfold fetch_refresh_observations_delta, get_observations_since. answers. Qed.

Lemma returns_runs c new_runs : returns (fetch_runs script c new_runs).
Proof. unfold fetch_runs. answers. Qed.
#[local] Hint Resolve returns_invalidated returns_observations returns_runs : fetching.

Lemma returns_delta c now : returns (fetch_refresh_delta script c now).
Proof.
  unfold fetch_refresh_delta, get_runs_since, confirm_failures, note_deletions, get_asset_deletion_timestamps. answers.
Qed.

Lemma loads_partition_entry a : loads (load_partition_entry script a).
Proof. unfold load_partition_entry, get_partition_timestamps, get_in_progress_partitions. answers. Qed.

Lemma loads_live_runs st : loads (load_live_runs script st).
Proof. unfold load_live_runs, get_runs_since. answers. Qed.
#[local] Hint Resolve loads_partition_entry loads_live_runs : fetching.

Lemma loads_initial : loads (initial_load script).
Proof.
  unfold initial_load, load_cursor, load_floors, load_last_runs, load_partition_status_inner, get_newest_run, get_runs_since,
    get_latest_observation_ts, get_asset_records, get_graph_topology, get_asset_deletion_timestamps. answers.
Qed.
End total.
