(* ===== verification/CacheRefreshTheorems.v ===== *)
(** * A refresh keeps track of the runs in flight

    Whatever else is written while it runs: a refresh stops tracking a run that has
    finished, and does not lose a live one; it fails only when a statement does, and then
    leaves the cache as it was. The initial load finds the runs that keep one status while
    it runs, and can lose one that moves between its statements. *)

From S2P Require Import Prelude Worklist PartitionKey BackfillGroup RunQueue Backfills ConditionNode Selection CondState CondCache Pools CacheStore CacheFetch CacheRefresh CacheTracking.

Section delta.
Context (script : nat → option CacheStore) (c : AssetConditionCache).

(** An observation above the cursor that names the asset. *)
Definition observed (a : string) : Prop := ∃ i s e, script i = Some s ∧ e ∈ cs_events s ∧
  sv_kind e = SEObservation ∧ (cc_last_observation_ts c < sv_ts e)%Z ∧ sv_asset e = Some a.

Lemma observed_keys_elem l a : a ∈ observed_keys l → ∃ e, e ∈ l ∧ sv_asset e = Some a.
Proof.
  unfold observed_keys. set (step := λ _ _, _).
  assert (H : ∀ l acc, a ∈ foldl step acc l → a ∈ acc ∨ ∃ e, e ∈ l ∧ sv_asset e = Some a).
  { clear l. induction l as [|e l IH]; intros acc; cbn [foldl]; [by left|].
    intros [Ha|(e' & He' & E)]%IH; [|by right; exists e'; split; [right|]]. unfold step in Ha.
    destruct (sv_asset e) as [k|] eqn:E; [|by left]. case_bool_decide; [by left|].
    apply elem_of_app in Ha as [?| ->%list_elem_of_singleton]; [by left|]. right. exists e. by split; [left|]. }
  intros [Ha%elem_of_nil|?]%H; done.
Qed.

Lemma observation_clears :
  post (fetch_refresh_observations_delta script c) (λ o, Forall (λ ch, ∃ a, ch = AssetClear a ∧ observed a) (ob_clears o)).
Proof.
  unfold fetch_refresh_observations_delta.
  eapply (post_bind _ _ (λ l, ∀ a, (∃ e, e ∈ l ∧ sv_asset e = Some a) → observed a)).
  { apply post_query. intros i s Hs a (e & He & Ea). unfold observations_since in He.
    apply elem_of_sort_by, list_elem_of_filter in He as [[Hk Ht] He]. by exists i, s, e. }
  intros [|e l] Hl; [by apply post_ret; constructor|]. cbv zeta. eapply post_bind; [apply post_any|]. intros records _.
  apply post_ret. cbn [ob_clears]. apply Forall_fmap, Forall_forall.
  intros r [Hr _]%list_elem_of_filter. exists (asset_key r). split; [done|]. by apply Hl, observed_keys_elem.
Qed.

Section changes.
Context (P : InProgressChange → Prop) (Sw : string → Prop).
Hypothesis terminal_ok : ∀ run, seen script run → terminal run →
  (∀ a, a ∈ rr_node_names run → P (ClearRun a (rr_run_id run))) ∧ Sw (rr_run_id run).
Hypothesis vanished_ok : ∀ a id i s, tracks (cc_in_progress c) a id → script i = Some s →
  (∀ run, run ∈ cs_runs s → rr_run_id run ≠ id) → P (ClearRun a id).
Hypothesis live_ok : ∀ run, seen script run → ¬ terminal run → ∀ a, a ∈ rr_node_names run → P (Push a (rr_run_id run) (rr_partition_key run)).
Hypothesis observed_ok : ∀ a, observed a → P (AssetClear a).

(** What the delta of a fetch holds, where [s] is the snapshot the new runs came from. *)
Record delta_ok (now : Z) (s : CacheStore) (d : RefreshDelta) : Prop := {
  dk_allowed : Forall P (in_progress_changes d);
  dk_clears a r : tracks (cc_in_progress c) a r → settled script r a → ClearRun a r ∈ in_progress_changes d;
  dk_pushes run a : run ∈ cs_runs s → (cc_last_seen_run_ts c < rr_start_time run)%Z → ¬ terminal run →
    run_is_action run = false → ¬ Sw (rr_run_id run) → a ∈ rr_node_names run →
    Push a (rr_run_id run) (rr_partition_key run) ∈ in_progress_changes d;
  dk_evicted : evicted_pending d = evictable c now (rr_run_id <$> runs_since (cc_last_seen_run_ts c) None s);
  dk_cursor : new_last_seen_run_ts d = new_cursor (runs_since (cc_last_seen_run_ts c) None s)
}.

Lemma fetch_runs_ok i s : script i = Some s →
  post (fetch_runs script c (runs_since (cc_last_seen_run_ts c) None s))
    (λ r, Forall P (f_changes r.1) ∧ cleared_in script c r.1 ∧
          ∀ run a, run ∈ cs_runs s → (cc_last_seen_run_ts c < rr_start_time run)%Z → ¬ terminal run →
            run_is_action run = false → ¬ Sw (rr_run_id run) → a ∈ rr_node_names run →
            Push a (rr_run_id run) (rr_partition_key run) ∈ f_changes r.1).
Proof.
  intros Hs. unfold fetch_runs. cbv zeta. set (new_runs := runs_since _ _ _).
  assert (Hseen : Forall (seen script) new_runs).
  { apply Forall_forall. intros run [Hr _]%elem_of_runs_since. by exists i, s. }
  eapply post_bind; [apply (sweep_in_progress_ok script c P Sw terminal_ok vanished_ok); by split; [constructor|intros ? ?]|].
  intros f (Ha & _ & Hc).
  eapply post_bind; [by apply (sweep_live_actions_ok script c P Sw terminal_ok)|]. intros g [Hg Eg].
  apply post_ret. cbn [fst]. destruct (new_runs_ok script c P Sw terminal_ok live_ok new_runs g Hseen Hg) as ([H1 _] & H2 & _).
  split_and!; [done| |].
  - intros a r Htr Hset. apply H2. rewrite Eg. by apply Hc.
  - intros run a Hr Hst Ht Hac Hsw Hin. apply new_runs_pushes; [|done..| |done].
    + by apply elem_of_runs_since.
    + intros Hx. by apply Hsw, Hg.
Qed.

Lemma fetch_delta_ok now : post (fetch_refresh_delta script c now) (λ d, ∃ i s, script i = Some s ∧ delta_ok now s d).
Proof.
  unfold fetch_refresh_delta.
  eapply (post_bind _ _ (λ l, ∃ i s, script i = Some s ∧ l = runs_since (cc_last_seen_run_ts c) None s)).
  { apply post_query. intros i s Hs. by exists i, s. }
  intros new_runs (i & s & Hs & ->).
  eapply post_bind; [by eapply fetch_runs_ok|]. intros [f work] (H1 & H2 & H3). cbn [fst] in *. cbv zeta.
  eapply post_bind; [apply post_any|]. intros failures _.
  eapply post_bind; [apply post_any|]. intros [[removes sup] reloads] _.
  eapply post_bind; [apply post_any|]. intros [down patches] _.
  eapply post_bind; [apply post_any|]. intros backfill _.
  eapply post_bind; [apply observation_clears|]. intros o Ho. apply post_ret. exists i, s. split; [done|].
  split; cbn [in_progress_changes evicted_pending new_last_seen_run_ts].
  - apply Forall_app. split; [done|]. eapply Forall_impl; [exact Ho|]. intros ch (a & -> & Ha). by apply observed_ok.
  - intros a r Htr Hset. apply elem_of_app. left. by apply H2.
  - intros run a Hr Hst Ht Hac Hsw Hin. apply elem_of_app. left. by apply H3.
  - done.
  - done.
Qed.
End changes.
End delta.

(** ** Refreshes *)
Lemma refresh_delta script now c i b c' j :
  cc_initialized c = true → refresh script now c i = (c', Some (b, j)) →
  ∃ d, fetch_refresh_delta script c now i = Some (d, j) ∧ (b, c') = apply_refresh_delta d c.
Proof.
  intros Hi. unfold refresh. rewrite Hi. cbn [negb]. destruct (fetch_refresh_delta _ _ _ _) as [[d j']|]; [|done].
  destruct (apply_refresh_delta d c) as [b' c''] eqn:E. intros [= -> -> ->]. by exists d.
Qed.

Lemma finished_untracked script now c i b c' j r a :
  cc_initialized c = true →
  settled script r a →
  (∀ run, seen script run → rr_run_id run = r → terminal run) →
  refresh script now c i = (c', Some (b, j)) →
  ¬ tracks (cc_in_progress c') a r.
Proof.
  intros Hi Hset Hun Hr. destruct (refresh_delta _ _ _ _ _ _ _ Hi Hr) as (d & Hd & Ed).
  destruct (fetch_delta_ok script c (λ ch, ¬ pushes a r ch) (λ _, True)) with now i d j as (k & s & Hs & Hk); [..|done|].
  - intros run _ _. by split; [intros ? _ ?|].
  - intros a' id k s _ _ _ Hp. exact Hp.
  - intros run Hrun Ht a' _ [-> E]. by apply Ht, Hun.
  - by intros ? _ ?.
  - replace c' with (apply_refresh_delta d c).2 by (by rewrite <- Ed). apply delta_untracks.
    + apply (dk_allowed _ _ _ _ _ _ _ Hk).
    + destruct (decide (is_Some (cc_in_progress c !! a ≫= (.!! r)))) as [Ht|Ht]; [|by left].
      right. apply Exists_exists. exists (ClearRun a r). split; [|done]. by apply (dk_clears _ _ _ _ _ _ _ Hk).
Qed.

Lemma evictable_ids c now confirmed r :
  r ∈ (evictable c now confirmed).*1 → is_Some (cc_pending_runs c !! r) ∧ r ∉ confirmed.
Proof.
  unfold evictable. intros ([id keys] & -> & H)%list_elem_of_fmap. cbn [fst].
  apply list_elem_of_fmap in H as ([id' p] & [= -> ->] & H). apply list_elem_of_filter in H as [[Hn _] H%elem_of_map_to_list].
  split; [by exists p|done].
Qed.

Lemma live_tracked script now c i b c' j r a st :
  cc_initialized c = true →
  (∀ i s, script i = Some s → ∃ run, run ∈ cs_runs s ∧ rr_run_id run = r) →
  (∀ run, seen script run → rr_run_id run = r →
     ¬ terminal run ∧ run_is_action run = false ∧ a ∈ rr_node_names run ∧ rr_start_time run = st) →
  ¬ observed script c a →
  (tracks (cc_in_progress c) a r ∧ cc_pending_runs c !! r = None) ∨ (cc_last_seen_run_ts c < st)%Z →
  refresh script now c i = (c', Some (b, j)) →
  tracks (cc_in_progress c') a r.
Proof.
  intros Hi Hex Hlive Hobs Htr Hr. destruct (refresh_delta _ _ _ _ _ _ _ Hi Hr) as (d & Hd & Ed).
  destruct (fetch_delta_ok script c (λ ch, ¬ clears a r ch) (λ id, id ≠ r)) with now i d j as (k & s & Hs & Hk); [..|done|].
  - intros run Hrun Ht. split; [intros a' _ [-> E]|intros E]; by apply (Hlive run).
  - intros a' id k s _ Hs Hno [-> ->]. destruct (Hex k s Hs) as (run & Hin & E). by apply (Hno run).
  - by intros run _ _ a' _ ?.
  - by intros a' Ha' ->.
  - replace c' with (apply_refresh_delta d c).2 by (by rewrite <- Ed).
    destruct (Hex k s Hs) as (run & Hin & E).
    destruct (Hlive run) as (Ht & Hac & Ha & Hst); [by exists k, s|done|].
    assert (Hpush : (cc_last_seen_run_ts c < st)%Z → Push a r (rr_partition_key run) ∈ in_progress_changes d).
    { intros Hlt. rewrite <- E. eapply (dk_pushes _ _ _ _ _ _ _ Hk run a); [done|lia|done|done| |done]. by intros []. }
    apply delta_tracks; [apply (dk_allowed _ _ _ _ _ _ _ Hk)| |].
    + destruct Htr as [[Htr _]|Hlt]; [by left|right]. apply Exists_exists. eexists. split; [by apply Hpush|done].
    + rewrite (dk_evicted _ _ _ _ _ _ _ Hk). intros [Hp Hc]%evictable_ids. destruct Htr as [[_ Hn]|Hlt].
      * rewrite Hn in Hp. by destruct Hp.
      * apply Hc, list_elem_of_fmap. exists run. split; [done|]. apply elem_of_runs_since. by rewrite Hst.
Qed.

(** ** Loads *)
Definition triple {A} (P : AssetConditionCache → Prop) (m : Load A) (Q : AssetConditionCache → Prop) : Prop :=
  ∀ c i c' a j, P c → m c i = (c', Some (a, j)) → Q c'.

Lemma triple_ret {A} (a : A) P : triple P (mret a) P.
Proof. by intros c i c' b j HP [= <- <- <-]. Qed.

Lemma triple_bind {A B} (m : Load A) (k : A → Load B) P Q R :
  triple P m Q → (∀ a, triple Q (k a) R) → triple P (m ≫= k) R.
Proof.
  intros Hm Hk c i c' b j HP. unfold mbind, load_bind. destruct (m c i) as [c1 [[a l]|]] eqn:E; [|done].
  intros E'. eapply Hk; [|done]. by eapply Hm.
Qed.

Lemma triple_read {A} (m : Fetching A) P : triple P (read m) P.
Proof. by intros c i c' a j HP [= <- _]. Qed.

Lemma triple_cached {A} (f : AssetConditionCache → A) P : triple P (cached f) P.
Proof. by intros c i c' a j HP [= <- _ _]. Qed.

Lemma triple_update f (P Q : AssetConditionCache → Prop) : (∀ c, P c → Q (f c)) → triple P (update f) Q.
Proof. intros H c i c' a j HP [= <- _ _]. by apply H. Qed.

Lemma triple_each {A} (f : A → Load unit) l P : (∀ x, triple P (f x) P) → triple P (load_each f l) P.
Proof. intros H. induction l as [|x l IH]; cbn; [apply triple_ret|]. by eapply triple_bind. Qed.

#[local] Hint Resolve triple_ret triple_read triple_cached triple_update triple_each : fetching.

(** Walks through a load that keeps [P]. *)
Ltac keeping P :=
  repeat first
    [ progress cbv zeta
    | solve [eauto with fetching]
    | apply triple_update; intros ? ?; assumption
    | apply triple_each
    | eapply (triple_bind _ _ P P P)
    | match goal with
      | |- ∀ _, _ => intros ?
      | |- triple _ (match ?x with _ => _ end) _ => destruct x
      end ].

Section load_tracking.
Context (script : nat → option CacheStore) (a r : string).

Definition tracking (c : AssetConditionCache) : Prop := tracks (cc_in_progress c) a r.

Lemma load_names_tracks names id pk m :
  tracks (foldl (λ m asset, track_in_progress_run asset id pk m) m names) a r ↔ (a ∈ names ∧ id = r) ∨ tracks m a r.
Proof.
  revert m. induction names as [|n names IH]; intros m; cbn [foldl]; [rewrite elem_of_nil; tauto|].
  rewrite IH, tracks_track, elem_of_cons. naive_solver.
Qed.

Lemma load_live_run_tracks c run :
  tracking (load_live_run c run) ↔ (run_is_action run = false ∧ rr_run_id run = r ∧ a ∈ rr_node_names run) ∨ tracking c.
Proof.
  unfold tracking, load_live_run. destruct (run_is_action run); cbn [set_live cc_in_progress]; [naive_solver|].
  rewrite load_names_tracks. naive_solver.
Qed.

Lemma load_live_all c runs :
  tracking c ∨ Exists (λ run, run_is_action run = false ∧ rr_run_id run = r ∧ a ∈ rr_node_names run) runs →
  tracking (foldl load_live_run c runs).
Proof.
  revert c. induction runs as [|run runs IH]; intros c; cbn [foldl].
  - by intros [?|?%Exists_nil].
  - rewrite Exists_cons. intros H. apply IH. rewrite load_live_run_tracks. tauto.
Qed.

Lemma live_keeps st : triple tracking (load_live_runs script st) tracking.
Proof. unfold load_live_runs. keeping tracking. apply triple_update. intros c Hc. apply load_live_all. by left. Qed.

Lemma live_finds st :
  (∀ i s, script i = Some s → ∃ run, run ∈ cs_runs s ∧ rr_run_id run = r ∧ rr_status run = st ∧
     run_is_action run = false ∧ a ∈ rr_node_names run ∧ (0 < rr_start_time run)%Z) →
  triple (λ _, True) (load_live_runs script st) tracking.
Proof.
  intros Hst c i c' u j _. unfold load_live_runs, mbind, load_bind, read, get_runs_since, query, update.
  destruct (script i) as [s|] eqn:Es; [|done]. cbn. intros [= <- _ _]. apply load_live_all. right.
  destruct (Hst i s Es) as (run & Hr & <- & Hs & Hac & Hin & H0). apply Exists_exists. exists run. split; [|done].
  apply elem_of_runs_since. split_and!; [done..|]. cbn. by apply bool_decide_true.
Qed.
End load_tracking.

Lemma initial_load_initializes script : triple (λ _, True) (initial_load script) (λ c, cc_initialized c = true).
Proof. unfold initial_load. do 14 (eapply (triple_bind _ _ _ (λ _, True)); [done|intros ?]). by apply triple_update. Qed.

Lemma load_tracks script c i c' u j a r st :
  (∀ i s, script i = Some s → ∃ run, run ∈ cs_runs s ∧ rr_run_id run = r ∧ rr_status run = st ∧
     run_is_action run = false ∧ a ∈ rr_node_names run ∧ (0 < rr_start_time run)%Z) →
  run_status_is_terminal st = false →
  initial_load script c i = (c', Some (u, j)) →
  tracks (cc_in_progress c') a r ∧ cc_initialized c' = true.
Proof.
  intros Hst Hlive H. split.
  - change (tracking a r c'). revert c i c' u j H.
    enough (Ht : triple (λ _, True) (initial_load script) (tracking a r)) by (intros; by eapply Ht).
    unfold initial_load.
    do 8 (eapply (triple_bind _ _ _ (λ _, True)); [done|intros ?]).
    eapply (triple_bind _ _ _ (tracking a r)).
    + cbn [load_each]. pose proof (live_keeps script a r) as Hk. pose proof (live_finds script a r st Hst) as Hf.
      destruct st; try done;
        repeat first [ apply triple_ret
                     | eapply (triple_bind _ _ _ (tracking a r)); [first [apply Hk|apply Hf]|intros _]
                     | eapply (triple_bind _ _ _ (λ _, True)); [done|intros _] ].
    + intros _. unfold load_floors, load_last_runs, load_partition_status_inner, load_partition_entry. keeping (tracking a r).
  - by eapply (initial_load_initializes script).
Qed.

Lemma apply_keeps_initialized d c : cc_initialized (apply_refresh_delta d c).2 = cc_initialized c.
Proof.
  unfold apply_refresh_delta. cbv zeta. destruct (foldl apply_deletion _ _) as [lr dels].
  by destruct (foldl evict_phantom _ _) as [ip pend].
Qed.

Lemma refresh_returns script now c i :
  (∀ i, is_Some (script i)) → ∃ c' b j, refresh script now c i = (c', Some (b, j)) ∧ cc_initialized c' = true.
Proof.
  intros Hans. unfold refresh. destruct (cc_initialized c) eqn:Hi; cbn [negb].
  - destruct (returns_delta script Hans c now i) as [[d j] ->].
    destruct (apply_refresh_delta d c) as [b c'] eqn:E. exists c', b, j. split; [done|].
    pose proof (apply_keeps_initialized d c) as Hk. by rewrite E, Hi in Hk.
  - unfold mbind, load_bind. destruct (loads_initial script Hans c i) as [[u j] E].
    destruct (initial_load script c i) as [c' o] eqn:El. cbn [snd] in E. subst o. exists c', true, j. split; [done|].
    by eapply (initial_load_initializes script).
Qed.

(** C30: A refresh always ends: when every statement answers, it returns, on a cache that is
    initialized, whatever the graph of dependents looks like; and a steady-state refresh of
    which a statement fails leaves the cache exactly as it was. *)
Theorem refresh_total_atomic script now c i :
  ((∀ i, is_Some (script i)) → ∃ c' b j, refresh script now c i = (c', Some (b, j)) ∧ cc_initialized c' = true) ∧
  (cc_initialized c = true → (refresh script now c i).2 = None → (refresh script now c i).1 = c).
Proof.
  split; [apply refresh_returns|]. intros Hi. unfold refresh. rewrite Hi. cbn [negb].
  destruct (fetch_refresh_delta _ _ _ _) as [[d j]|]; [|done]. by destruct (apply_refresh_delta d c).
Qed.

(** C3: No run wedges the in-progress guard of a loaded cache: if a run is in every snapshot the
    statements of a refresh see, covers the asset and is finished in each, then after the refresh
    it is not tracked for the asset, however it was tracked before, whatever else the snapshots
    hold. *)
Theorem finished_run_untracked script now c i b c' j r a :
  cc_initialized c = true →
  settled script r a →
  (∀ run, seen script run → rr_run_id run = r → terminal run) →
  refresh script now c i = (c', Some (b, j)) →
  ¬ tracks (cc_in_progress c') a r.
Proof. apply finished_untracked. Qed.

(** C2: A loaded cache loses no live run: a materialize run of an asset that is live, with one
    start time, in every snapshot a refresh sees is tracked for the asset afterwards, if it was
    tracked before and its dispatch is not pending confirmation, or if it started after the
    cursor, and no new observation names the asset. *)
Theorem live_run_tracked script now c i b c' j r a st :
  cc_initialized c = true →
  (∀ i s, script i = Some s → ∃ run, run ∈ cs_runs s ∧ rr_run_id run = r) →
  (∀ run, seen script run → rr_run_id run = r →
     ¬ terminal run ∧ run_is_action run = false ∧ a ∈ rr_node_names run ∧ rr_start_time run = st) →
  ¬ observed script c a →
  (tracks (cc_in_progress c) a r ∧ cc_pending_runs c !! r = None) ∨ (cc_last_seen_run_ts c < st)%Z →
  refresh script now c i = (c', Some (b, j)) →
  tracks (cc_in_progress c') a r.
Proof. apply live_tracked. Qed.

(** ** Examples *)
Definition x_run (id : string) (status : RunStatus) (start : Z) (names : list string) : RunRecord :=
  {| rr_run_id := id; rr_code_location_id := "default"; rr_job_name := None; rr_status := status; rr_start_time := start;
     rr_end_time := None; rr_tags := []; rr_node_names := names; rr_priority := 0; rr_partition_key := None;
     rr_block_reason := None; rr_action := None; rr_config := None |}.

Definition x_cache_store (runs : list RunRecord) : CacheStore :=
  {| cs_runs := runs; cs_assets := []; cs_events := []; cs_partitions := []; cs_partition_deletions := []; cs_backfills := [];
     cs_topology := Some [("b", "a")] |}.

Definition x_new_cache : AssetConditionCache :=
  {| cc_records := ∅; cc_edges := []; cc_upstream_deps := ∅; cc_downstream_deps := ∅; cc_in_progress := ∅; cc_live_action_runs := ∅;
     cc_floors := (∅, ∅); cc_asset_deletion_ts := ∅; cc_last_seen_run_ts := 0; cc_last_observation_ts := 0; cc_initialized := false;
     cc_partition_status := ∅; cc_backfill := {| backfill_assets := ∅; backfill_partition_keys := ∅ |};
     cc_last_runs := {| lr_tags := ∅; lr_names := ∅; lr_entry_ts := ∅ |}; cc_tick_tags := ∅; cc_partitioned := ∅;
     cc_needs_tick_tags := false; cc_code_location_id := "default"; cc_pending_runs := ∅; cc_pending_grace_nanos := 1000;
     cc_applied_run_ids := ∅ |}.

(** The run [r] on [a], started at 100, and a newer one that has succeeded. *)
Definition x_runs (status : RunStatus) : CacheStore := x_cache_store [x_run "r" status 100 ["a"]; x_run "n" Success 200 ["z"]].

(** [r] is queued until the statement on queued runs, and dequeued before that one. *)
Definition x_moving (i : nat) : option CacheStore := Some (x_runs (if (i <? 7)%nat then Queued else NotStarted)).

Definition x_steady (status : RunStatus) (i : nat) : option CacheStore := Some (x_runs status).

(** The cache after the load, and after a refresh of each of the later stores. *)
Definition x_loaded (script : nat → option CacheStore) : AssetConditionCache := (refresh script 300 x_new_cache 0).1.
Definition x_refreshed (status : RunStatus) (c : AssetConditionCache) : AssetConditionCache := (refresh (x_steady status) 300 c 0).1.

(** The initial load finds every materialize run that keeps one live status while it
    reads, for each asset the run covers, from whatever an earlier load left in the cache. *)
Theorem load_finds_steady_run script c i c' u j a r st :
  (∀ i s, script i = Some s → ∃ run, run ∈ cs_runs s ∧ rr_run_id run = r ∧ rr_status run = st ∧
     run_is_action run = false ∧ a ∈ rr_node_names run ∧ (0 < rr_start_time run)%Z) →
  run_status_is_terminal st = false →
  initial_load script c i = (c', Some (u, j)) →
  tracks (cc_in_progress c') a r ∧ cc_initialized c' = true.
Proof. apply load_tracks. Qed.

(** The initial load reads the live statuses from the last to the first (Started, then
    NotStarted, then Queued), so a run that is dequeued while it reads is in none of the
    three answers, although it is live in every snapshot; below the cursor it is not found
    later either: it is not tracked while it runs, and its failure leaves no trace. *)
Theorem load_misses_dequeued_run :
  (∀ i s, x_moving i = Some s → ∃ run, run ∈ cs_runs s ∧ rr_run_id run = "r" ∧ ¬ terminal run) ∧
  let loaded := x_loaded x_moving in
  cc_initialized loaded = true ∧ tracked loaded "a" "r" = false ∧
  tracked (x_refreshed Started loaded) "a" "r" = false ∧
  (refresh (x_steady Failure) 300 (x_refreshed Started loaded) 0).2 = Some (false, 4) ∧
  cc_floors (x_refreshed Failure (x_refreshed Started loaded)) = (∅, ∅).
Proof.
  split.
  - intros i s [= <-]. eexists. split; [left|]. split; [done|]. by destruct (i <? 7)%nat.
  - split_and!; vm_compute; reflexivity.
Qed.

Definition x_tracking : AssetConditionCache := x_loaded (x_steady Started).

Lemma x_tracking_facts :
  cc_initialized x_tracking = true ∧ tracked x_tracking "a" "r" = true ∧ cc_pending_runs x_tracking = ∅ ∧
  (refresh (x_steady Failure) 300 x_tracking 0).2 = Some (true, 8) ∧ (refresh (x_steady Started) 300 x_tracking 0).2 = Some (false, 6) ∧
  (initial_load (x_steady Started) x_new_cache 0).2 = Some (tt, 12).
Proof. split_and!; vm_compute; reflexivity. Qed.

Lemma pair_eta {A B} (x : A * B) b : x.2 = b → x = (x.1, b).
Proof. by destruct x; intros <-. Qed.

Lemma x_seen status run : seen (x_steady status) run → rr_run_id run = "r" → run = x_run "r" status 100 ["a"].
Proof.
  intros (i & s & [= <-] & Hr) Hid. cbn in Hr. apply elem_of_cons in Hr as [->|Hr]; [done|].
  apply list_elem_of_singleton in Hr as ->. by exfalso; vm_compute in Hid.
Qed.

Lemma x_present status i s : x_steady status i = Some s → x_run "r" status 100 ["a"] ∈ cs_runs s.
Proof. intros [= <-]. left. Qed.

Lemma tracked_tracks c a r : tracked c a r = true → tracks (cc_in_progress c) a r.
Proof. unfold tracked, tracks. destruct (_ !! a); [|done]. by intros H%bool_decide_eq_true. Qed.

Lemma x_observed status c : ¬ observed (x_steady status) c "a".
Proof. intros (i & s & e & [= <-] & He & _). by apply elem_of_nil in He. Qed.

Lemma refresh_total_atomic_witness :
  ∃ c' b j, refresh (x_steady Queued) 300 x_new_cache 0 = (c', Some (b, j)) ∧ cc_initialized c' = true.
Proof. apply (refresh_total_atomic (x_steady Queued) 300 x_new_cache 0). intros i. by eexists. Defined.

Lemma finished_run_untracked_witness : ¬ tracks (cc_in_progress (x_refreshed Failure x_tracking)) "a" "r".
Proof.
  destruct x_tracking_facts as (H1 & _ & _ & H4 & _ & _).
  apply (finished_run_untracked (x_steady Failure) 300 x_tracking 0 true _ 8 "r" "a" H1); [| |exact (pair_eta _ _ H4)].
  - intros i s Hs. exists (x_run "r" Failure 100 ["a"]). split_and!; [by eapply x_present|done|done|left].
  - intros run Hr Hid. by rewrite (x_seen Failure run Hr Hid).
Defined.

Lemma live_run_tracked_witness : tracks (cc_in_progress (x_refreshed Started x_tracking)) "a" "r".
Proof.
  destruct x_tracking_facts as (H1 & H2 & H3 & _ & H5 & _).
  apply (live_run_tracked (x_steady Started) 300 x_tracking 0 false _ 6 "r" "a" 100 H1); [| |apply x_observed| |exact (pair_eta _ _ H5)].
  - intros i s Hs. eexists. by split; [eapply x_present|].
  - intros run Hr Hid. rewrite (x_seen Started run Hr Hid). split_and!; [done|done|left|done].
  - left. split; [by apply tracked_tracks|]. by rewrite H3.
Defined.

Lemma load_finds_steady_run_witness :
  tracks (cc_in_progress (initial_load (x_steady Started) x_new_cache 0).1) "a" "r" ∧
  cc_initialized (initial_load (x_steady Started) x_new_cache 0).1 = true.
Proof.
  destruct x_tracking_facts as (_ & _ & _ & _ & _ & H6).
  apply (load_finds_steady_run (x_steady Started) x_new_cache 0 _ tt 12 "a" "r" Started); [|done|exact (pair_eta _ _ H6)].
  intros i s Hs. exists (x_run "r" Started 100 ["a"]). split_and!; [by eapply x_present|done|done|done|left|done].
Defined.
