(* ===== verification/CacheFailed.v ===== *)
(** * Which partitions have failed

    [get_failed_partitions] against what it means: a partition has failed when its newest
    failure is newer than its materialization and than every deletion that covers it. *)

From S2P Require Import Prelude PartitionKey BackfillGroup RunQueue Backfills ConditionNode Selection CondState CondCache CacheStore.

(** ** Maps that hold the newest of the times a relation gives *)
Record newest_of {K} `{Countable K} (T : K → Z → Prop) (m : gmap K Z) : Prop := {
  no_in k ts : m !! k = Some ts → T k ts;
  no_max k t : T k t → ∃ ts, m !! k = Some ts ∧ (t <= ts)%Z
}.

Section newest.
Context {K : Type} `{Countable K}.
Implicit Types (T C : K → Z → Prop) (m : gmap K Z).

Lemma newest_of_iff T m k ts : newest_of T m → m !! k = Some ts ↔ T k ts ∧ ∀ t, T k t → (t <= ts)%Z.
Proof.
  intros [H1 H2]. split.
  - intros E. split; [by apply H1|]. intros t Ht. destruct (H2 k t Ht) as (ts' & E' & ?). congruence.
  - intros [HT Hmax]. destruct (H2 k ts HT) as (ts' & E' & ?). rewrite E'. f_equal. pose proof (Hmax ts' (H1 k ts' E')). lia.
Qed.

Lemma newest_of_ext T T' m : (∀ k t, T k t ↔ T' k t) → newest_of T m → newest_of T' m.
Proof. intros HT [H1 H2]. split; [intros k ts E; by apply HT, H1|]. intros k t Ht%HT. by apply H2. Qed.

Lemma newest_of_empty : newest_of (λ _ _, False) (∅ : gmap K Z).
Proof. split; [intros k ts; by rewrite lookup_empty|done]. Qed.

Lemma newest_of_fold {X} (step : gmap K Z → X → gmap K Z) (C : X → K → Z → Prop) l :
  (∀ x T m, x ∈ l → newest_of T m → newest_of (λ k t, T k t ∨ C x k t) (step m x)) →
  ∀ T m, newest_of T m → newest_of (λ k t, T k t ∨ ∃ x, x ∈ l ∧ C x k t) (foldl step m l).
Proof.
  induction l as [|x l IH]; intros Hstep T m Hm; cbn [foldl].
  - eapply newest_of_ext; [|done]. intros k t. split; [by left|]. intros [?|(x & Hx%elem_of_nil & _)]; done.
  - eapply newest_of_ext; [|apply IH; [|apply Hstep; [left|done]]].
    + intros k t. cbn. setoid_rewrite elem_of_cons. naive_solver.
    + intros y T' m' Hy. apply Hstep. by right.
Qed.

Lemma older_iff T m k ts : newest_of T m → older (m !! k) ts = true ↔ ∀ t, T k t → (t < ts)%Z.
Proof.
  intros [H1 H2]. unfold older. destruct (m !! k) as [t|] eqn:E.
  - rewrite Z.ltb_lt. split; [|intros Ha; by apply Ha, H1]. intros Hlt t' Ht'. destruct (H2 k t' Ht') as (? & ? & ?).
    simplify_eq. lia.
  - split; [|done]. intros _ t Ht. destruct (H2 k t Ht) as (? & ? & _). congruence.
Qed.
End newest.

Lemma bump_newest ts T (m : gmap PartitionKey Z) key :
  newest_of T m → newest_of (λ k t, T k t ∨ (k = key ∧ t = ts)) (bump_key ts m key).
Proof.
  intros [H1 H2]. unfold bump_key. split.
  - intros k t. destruct (decide (key = k)) as [->|Hne].
    + rewrite lookup_insert_eq. destruct (m !! k) as [t0|] eqn:E; intros [= <-]; [|by right].
      destruct (Z.max_spec t0 ts) as [[_ ->]|[_ ->]]; [by right|left; by apply H1].
    + rewrite lookup_insert_ne by done. left. by apply H1.
  - intros k t. destruct (decide (key = k)) as [->|Hne].
    + rewrite lookup_insert_eq. intros [(t0 & E & Hle)%H2|[_ ->]].
      * rewrite E. eexists. split; [done|]. lia.
      * eexists. split; [done|]. destruct (m !! k); lia.
    + rewrite lookup_insert_ne by done. intros [?%H2|[-> _]]; done.
Qed.

Lemma bump_all_newest ts T (m : gmap PartitionKey Z) keys :
  newest_of T m → newest_of (λ k t, T k t ∨ (k ∈ keys ∧ t = ts)) (foldl (bump_key ts) m keys).
Proof.
  intros Hm. eapply newest_of_ext; [|apply (newest_of_fold (bump_key ts) (λ x k t, k = x ∧ t = ts)); [|done]].
  - intros k t. cbn. naive_solver.
  - intros x T' m' _. apply bump_newest.
Qed.

Lemma older_max a b ts : older (max_ts a b) ts = older a ts && older b ts.
Proof. destruct a, b; cbn; rewrite ?andb_true_r; try done. destruct (Z.ltb_spec z ts), (Z.ltb_spec z0 ts), (Z.ltb_spec (Z.max z z0) ts); cbn; lia. Qed.

(** ** What a failure and a deletion are *)
Section spec.
Context (asset : string) (s : CacheStore).

(** A run on the asset is an action. *)
Definition by_action (run_id : string) : Prop :=
  ∃ r, r ∈ cs_runs s ∧ asset ∈ rr_node_names r ∧ run_is_action r = true ∧ rr_run_id r = run_id.

Definition covers (pk : PartitionKey) (k : PartitionKey) : Prop := k ∈ canonical_members pk.

(** The run materialized the partition, by its own events. *)
Definition built (run_id : string) (k : PartitionKey) : Prop :=
  ∃ e pk, e ∈ cs_events s ∧ sv_kind e = SEMaterialization ∧ sv_asset e = Some asset ∧ sv_run e = run_id ∧ sv_pk e = Some pk ∧ covers pk k.

(** A step on the partition failed, or a run over it did without building it; an action's failures do not count. *)
Definition failed_at (k : PartitionKey) (ts : Z) : Prop :=
  (∃ e pk, e ∈ cs_events s ∧ sv_kind e = SEStepFailure ∧ sv_asset e = Some asset ∧ sv_pk e = Some pk ∧ covers pk k ∧
           sv_ts e = ts ∧ ¬ by_action (sv_run e)) ∨
  (∃ r pk, r ∈ cs_runs s ∧ asset ∈ rr_node_names r ∧ rr_status r = Failure ∧ run_is_action r = false ∧
           rr_partition_key r = Some pk ∧ covers pk k ∧ run_ts r = ts ∧ ¬ built (rr_run_id r) k).

(** A deletion of the partition, or of the whole asset. *)
Definition deleted_at (k : PartitionKey) (ts : Z) : Prop :=
  (∃ pk, (asset, pk, ts) ∈ cs_partition_deletions s ∧ covers pk k) ∨ deletion_timestamps s !! asset = Some ts.

Lemma scan_elem r : r ∈ failure_scan asset s ↔
  r ∈ cs_runs s ∧ asset ∈ rr_node_names r ∧ (run_is_action r = true ∨ rr_status r = Failure).
Proof.
  unfold failure_scan. rewrite list_elem_of_filter, orb_true_iff, bool_decide_eq_true. tauto.
Qed.

Definition action_ids : gset string := list_to_set (rr_run_id <$> filter (λ r, run_is_action r = true) (failure_scan asset s)).

Lemma action_ids_elem id : id ∈ action_ids ↔ by_action id.
Proof.
  unfold action_ids, by_action. rewrite elem_of_list_to_set, list_elem_of_fmap. setoid_rewrite list_elem_of_filter.
  setoid_rewrite scan_elem. naive_solver.
Qed.

Definition keyed_ids : gset string := list_to_set (rr_run_id <$> filter (λ r, keyed_failure r = true) (failure_scan asset s)).

Lemma keyed_failure_iff r : keyed_failure r = true ↔ rr_status r = Failure ∧ run_is_action r = false ∧ is_Some (rr_partition_key r).
Proof.
  unfold keyed_failure, not_action. rewrite !andb_true_iff, !bool_decide_eq_true, negb_true_iff. tauto.
Qed.

(** The steps *)
Lemma step_failures_newest :
  newest_of (λ k t, ∃ e pk, e ∈ cs_events s ∧ sv_kind e = SEStepFailure ∧ sv_asset e = Some asset ∧ sv_pk e = Some pk ∧ covers pk k ∧
                           sv_ts e = t ∧ ¬ by_action (sv_run e))
    (step_failures asset action_ids s).
Proof.
  unfold step_failures. match goal with |- newest_of _ (foldl ?f _ _) => set (step := f) end.
  eapply newest_of_ext; [|apply (newest_of_fold step (λ e k t, ∃ pk, sv_kind e = SEStepFailure ∧ sv_asset e = Some asset ∧
      sv_pk e = Some pk ∧ covers pk k ∧ sv_ts e = t ∧ ¬ by_action (sv_run e))); [|apply newest_of_empty]].
  - intros k t. naive_solver.
  - intros e T m _ Hm. unfold step. destruct (sv_pk e) as [pk|]; [|eapply newest_of_ext; [|done]; naive_solver].
    destruct (bool_decide _ && _ && _) eqn:E.
    + rewrite !andb_true_iff, !bool_decide_eq_true, action_ids_elem in E.
      eapply newest_of_ext; [|by apply bump_all_newest]. intros k t. unfold covers. naive_solver.
    + eapply newest_of_ext; [|done]. intros k t. split; [by left|]. intros [?|(pk' & ? & ? & ? & ? & ? & ?)]; [done|].
      rewrite !andb_false_iff, !bool_decide_eq_false, action_ids_elem in E. naive_solver.
Qed.

Lemma built_all (run_id : string) (keys : list PartitionKey) (m : gmap PartitionKey (gset string)) (rk : string) (k : PartitionKey) :
  (match foldl (λ m k, <[k := {[run_id]} ∪ default ∅ (m !! k)]> m) m keys !! k with Some runs => rk ∈ runs | None => False end)
  ↔ (match m !! k with Some runs => rk ∈ (runs : gset string) | None => False end) ∨ (rk = run_id ∧ k ∈ keys).
Proof.
  revert m. induction keys as [|x keys IH]; intros m; cbn [foldl]; [rewrite elem_of_nil; tauto|].
  rewrite IH, elem_of_cons. destruct (decide (x = k)) as [->|Hne].
  - rewrite lookup_insert_eq, elem_of_union, elem_of_singleton. destruct (m !! k); cbn; rewrite ?elem_of_empty; naive_solver.
  - rewrite lookup_insert_ne by done. naive_solver.
Qed.

Lemma has_built_iff runs run_id k : run_id ∈ runs → has_built (built_keys asset runs s) run_id k = true ↔ built run_id k.
Proof.
  intros Hin. unfold has_built, built_keys, built.
  match goal with |- context [foldl ?f ∅ (cs_events s)] => set (step := f) end.
  assert (Hgo : ∀ l m,
    (match foldl step m l !! k with Some rs => run_id ∈ (rs : gset string) | None => False end) ↔
    (match m !! k with Some rs => run_id ∈ (rs : gset string) | None => False end) ∨
    ∃ e pk, e ∈ l ∧ sv_kind e = SEMaterialization ∧ sv_asset e = Some asset ∧ sv_run e = run_id ∧ sv_pk e = Some pk ∧ covers pk k).
  { induction l as [|e l IH]; intros m; cbn [foldl].
    - setoid_rewrite elem_of_nil. naive_solver.
    - rewrite IH. setoid_rewrite elem_of_cons. unfold step at 1. destruct (sv_pk e) as [pk|] eqn:Epk; [|naive_solver].
      destruct (bool_decide _ && _ && _) eqn:E.
      + rewrite !andb_true_iff, !bool_decide_eq_true in E. rewrite built_all. unfold covers. naive_solver.
      + rewrite !andb_false_iff, !bool_decide_eq_false in E. naive_solver. }
  specialize (Hgo (cs_events s) ∅). rewrite lookup_empty in Hgo. destruct (foldl step ∅ (cs_events s) !! k) as [rs|].
  - rewrite bool_decide_eq_true. tauto.
  - split; [done|]. intros Hb. exfalso. apply Hgo. by right.
Qed.

(** The runs *)
Lemma run_failures_newest bk m T :
  (∀ r k, r ∈ cs_runs s → asset ∈ rr_node_names r → keyed_failure r = true → has_built bk (rr_run_id r) k = true ↔ built (rr_run_id r) k) →
  newest_of T m →
  newest_of (λ k t, T k t ∨ ∃ r pk, r ∈ cs_runs s ∧ asset ∈ rr_node_names r ∧ rr_status r = Failure ∧ run_is_action r = false ∧
                    rr_partition_key r = Some pk ∧ covers pk k ∧ run_ts r = t ∧ ¬ built (rr_run_id r) k)
    (run_failures bk (failure_scan asset s) m).
Proof.
  intros Hb Hm. unfold run_failures. match goal with |- newest_of _ (foldl ?f _ _) => set (step := f) end.
  eapply newest_of_ext; [|apply (newest_of_fold step (λ r k t, ∃ pk, rr_status r = Failure ∧ run_is_action r = false ∧
      rr_partition_key r = Some pk ∧ covers pk k ∧ run_ts r = t ∧ ¬ built (rr_run_id r) k)); [|exact Hm]].
  { intros k t. cbn. setoid_rewrite scan_elem. naive_solver. }
  intros r T' m' [Hr [Hin _]]%scan_elem Hm'. unfold step, not_action.
  destruct (bool_decide (rr_status r = Failure) && negb (run_is_action r)) eqn:E.
  2: { eapply newest_of_ext; [|done]. intros k t. split; [by left|]. intros [?|(pk & ? & ? & _)]; [done|].
       rewrite andb_false_iff, bool_decide_eq_false, negb_false_iff in E. destruct E; congruence. }
  rewrite andb_true_iff, bool_decide_eq_true, negb_true_iff in E. destruct E as [Ef Ea].
  destruct (rr_partition_key r) as [pk|] eqn:Epk; [|eapply newest_of_ext; [|done]; naive_solver].
  assert (Hk : keyed_failure r = true) by (apply keyed_failure_iff; by rewrite Epk).
  eapply newest_of_ext; [|apply (newest_of_fold (λ m k, if has_built bk (rr_run_id r) k then m else bump_key (run_ts r) m k)
      (λ x k t, k = x ∧ t = run_ts r ∧ ¬ built (rr_run_id r) x)); [|exact Hm']].
  - intros k t. unfold covers. naive_solver.
  - intros x T'' m'' _ Hm''. specialize (Hb r x Hr Hin Hk). destruct (has_built bk (rr_run_id r) x).
    + eapply newest_of_ext; [|done]. naive_solver.
    + eapply newest_of_ext; [|by apply bump_newest]. naive_solver.
Qed.

Lemma key_deletions_newest :
  newest_of (λ k t, ∃ pk, (asset, pk, t) ∈ cs_partition_deletions s ∧ covers pk k) (key_deletions asset s).1.
Proof.
  unfold key_deletions. cbn [fst]. match goal with |- newest_of _ (foldl ?f _ _) => set (step := f) end.
  eapply newest_of_ext; [|apply (newest_of_fold step (λ d k t, d.1.1 = asset ∧ covers d.1.2 k ∧ t = d.2)); [|apply newest_of_empty]].
  - intros k t. split; [intros [[]|([[a pk] t'] & Hd & [= ->] & Hc & [= ->])]; by exists pk|].
    intros (pk & Hd & Hc). right. by exists (asset, pk, t).
  - intros [[a pk] ts] T m _ Hm. unfold step. cbn [fst snd]. case_bool_decide as E.
    + eapply newest_of_ext; [|by apply bump_all_newest]. unfold covers. naive_solver.
    + eapply newest_of_ext; [|done]. naive_solver.
Qed.
End spec.

(** On a store that does not move meanwhile, the failed partitions of an asset are
    exactly those whose newest failure is newer than their materialization and than every
    deletion of them or of the asset, each with that failure's time; a failed action is no
    failure, and neither is a failed run on a partition it materialized. *)
Theorem failed_partitions_exact s asset materialized i :
  ∃ m j, get_failed_partitions (λ _, Some s) asset materialized i = Some (m, j) ∧
    ∀ k ts, m !! k = Some ts ↔
      failed_at asset s k ts ∧ (∀ t, failed_at asset s k t → (t <= ts)%Z) ∧
      (∀ mat, materialized !! k = Some mat → (mat < ts)%Z) ∧
      (∀ del, deleted_at asset s k del → (del < ts)%Z).
Proof.
  set (bk := if bool_decide (keyed_ids asset s = ∅) then ∅ else built_keys asset (keyed_ids asset s) s).
  set (latest := run_failures bk (failure_scan asset s) (step_failures asset (action_ids asset s) s)).
  set (dels := key_deletions asset s).
  assert (Hn : newest_of (failed_at asset s) latest).
  { unfold latest. eapply newest_of_ext; [|apply run_failures_newest; [|apply step_failures_newest]]; [done|].
    intros r k Hr Hin Hk. assert (Hid : rr_run_id r ∈ keyed_ids asset s).
    { unfold keyed_ids. apply elem_of_list_to_set, list_elem_of_fmap. exists r. split; [done|]. apply list_elem_of_filter.
      split; [done|]. apply scan_elem. split_and!; [done..|]. right. by apply keyed_failure_iff in Hk as []. }
    unfold bk. case_bool_decide as E; [by rewrite E in Hid|]. by apply has_built_iff. }
  exists (filter (λ e, older (materialized !! e.1) e.2 && older (max_ts (dels.1 !! e.1) dels.2) e.2 = true) latest).
  exists (if bool_decide (keyed_ids asset s = ∅) then 3 + i else 4 + i). split.
  { unfold get_failed_partitions, mbind, fetching_bind, query. cbn [fmap option_fmap option_map].
    fold (action_ids asset s) (keyed_ids asset s). unfold latest, bk.
    case_bool_decide; cbn [mret fetching_ret fmap option_fmap option_map]; reflexivity. }
  intros k ts. rewrite map_lookup_filter_Some, (newest_of_iff _ _ k ts Hn). cbn [fst snd].
  pose proof (key_deletions_newest asset s) as Hkd. fold dels in Hkd.
  rewrite older_max, !andb_true_iff, (older_iff _ _ k ts Hkd).
  assert (Hm : older (materialized !! k) ts = true ↔ ∀ mat, materialized !! k = Some mat → (mat < ts)%Z).
  { unfold older. destruct (materialized !! k); rewrite ?Z.ltb_lt; naive_solver. }
  assert (Hd : older dels.2 ts = true ↔ ∀ del, deletion_timestamps s !! asset = Some del → (del < ts)%Z).
  { unfold dels, key_deletions, older. cbn [snd]. destruct (deletion_timestamps s !! asset); rewrite ?Z.ltb_lt; naive_solver. }
  rewrite Hm, Hd. unfold deleted_at. naive_solver.
Qed.
