(* ===== verification/GitRefs.v ===== *)
(** Git refs and urls (rust/rivers-operator/src/codelocation/git/): what a remote advertises,
    how a ref is picked from it, and the rules of urls, ssh targets and quoting. *)

From S2P Require Import Prelude.

(** * Git refs (rust/rivers-operator/src/codelocation/git/mod.rs, rust/rivers-crd/src/crd/code_location.rs)

    Reading a ref advertisement as it arrives and answering a ref selector from it.
    Strings and byte slices are lists of bytes; the texts of errors are left out, but
    for the ref that was not found. The decoder of pkt-lines (gix_packetline) is a
    parameter. *)
(** ** Bytes *)
Abbreviation Bytes := (list ascii).

(** A literal as bytes. *)
Definition asc (s : string) : Bytes := String.list_ascii_of_string s.

Definition code (c : ascii) : N := N_of_ascii c.

Definition between (lo hi : N) (c : ascii) : bool := (lo <=? code c)%N && (code c <=? hi)%N.

(** The rules of [std::str::from_utf8]. *)
Fixpoint utf8_from (fuel : nat) (s : Bytes) : bool :=
  match fuel with
  | O => true
  | S fuel =>
      let cont := between 128 191 in
      match s with
      | [] => true
      | c :: s1 =>
          if between 0 127 c then utf8_from fuel s1
          else if between 194 223 c then
            match s1 with c1 :: s2 => cont c1 && utf8_from fuel s2 | _ => false end
          else if between 224 239 c then
            match s1 with
            | c1 :: c2 :: s3 =>
                (if (code c =? 224)%N then between 160 191 c1 else if (code c =? 237)%N then between 128 159 c1 else cont c1)
                && cont c2 && utf8_from fuel s3
            | _ => false
            end
          else if between 240 244 c then
            match s1 with
            | c1 :: c2 :: c3 :: s4 =>
                (if (code c =? 240)%N then between 144 191 c1 else if (code c =? 244)%N then between 128 143 c1 else cont c1)
                && cont c2 && cont c3 && utf8_from fuel s4
            | _ => false
            end
          else false
      end
  end.

Definition from_utf8 (s : Bytes) : bool := utf8_from (length s) s.

(** [split_once] at a byte *)
Fixpoint split_once (sep : ascii) (s : Bytes) : option (Bytes * Bytes) :=
  match s with
  | [] => None
  | c :: s => if bool_decide (c = sep) then Some ([], s) else (λ p, (c :: p.1, p.2)) <$> split_once sep s
  end.

Fixpoint strip_prefix (p s : Bytes) : option Bytes :=
  match p, s with
  | [], _ => Some s
  | x :: p, y :: s => if bool_decide (x = y) then strip_prefix p s else None
  | _ :: _, [] => None
  end.

Definition starts_with (s p : Bytes) : bool := bool_decide (is_Some (strip_prefix p s)).

Definition strip_suffix (p s : Bytes) : option Bytes := reverse <$> strip_prefix (reverse p) (reverse s).

Definition NUL : ascii := "000"%char.
Definition NL : ascii := "010"%char.
Definition SP : ascii := " "%char.

Fixpoint before_nul (s : Bytes) : Bytes :=
  match s with
  | [] => []
  | c :: s => if bool_decide (c = NUL) then [] else c :: before_nul s
  end.

(** ** Selectors *)
Record GitRef := { gr_branch : option Bytes; gr_tag : option Bytes; gr_commit : option Bytes }.

Definition is_sha_byte (c : ascii) : bool := between 48 57 c || between 97 102 c.

Definition is_commit_sha (s : Bytes) : bool := (length s =? 40)%nat && forallb is_sha_byte s.

(** The two messages of [validate_commit] are one error. *)
Definition validate_commit (commit : Bytes) : bool := is_commit_sha commit.

(** [filter(|s| !s.is_empty())] on an optional field *)
Definition non_empty (s : option Bytes) : option Bytes :=
  match s with Some [] => None | _ => s end.

Definition set_fields (r : GitRef) : nat := length (omap non_empty [gr_branch r; gr_tag r; gr_commit r]).

Definition validate_ref (r : GitRef) : bool :=
  (set_fields r =? 1)%nat && match non_empty (gr_commit r) with Some commit => validate_commit commit | None => true end.

(** ** Errors *)
Inductive GitError :=
| RefNotFound (name : Bytes)
| InvalidRef
| InvalidUrl
| AuthFailed
| HostKeyRejected
| KnownHostsUnavailable
| Unreachable
| RateLimited (retry_after : option Z)
| Malformed.

#[export] Instance GitError_eq_dec : EqDecision GitError.
Proof. solve_decision. Defined.

Definition is_transient (e : GitError) : bool :=
  match e with Unreachable | RateLimited _ => true | _ => false end.

(** ** Advertisements *)
Record AdvertisedRef := { adv_oid : Bytes; adv_name : Bytes }.

#[export] Instance AdvertisedRef_eq_dec : EqDecision AdvertisedRef.
Proof. solve_decision. Defined.

(** [find] by name *)
Fixpoint oid_for (refs : list AdvertisedRef) (name : Bytes) : option Bytes :=
  match refs with
  | [] => None
  | r :: refs => if bool_decide (adv_name r = name) then Some (adv_oid r) else oid_for refs name
  end.

Record ResolvedRef := { res_commit : Bytes; res_ref_name : option Bytes; res_fetched_at : option Z }.

#[export] Instance ResolvedRef_eq_dec : EqDecision ResolvedRef.
Proof. solve_decision. Defined.

Definition ZERO_OID : Bytes := asc "0000000000000000000000000000000000000000".
Definition HTTP_SERVICE_PREAMBLE : Bytes := asc "# service=".
Definition UPLOAD_PACK_SERVICE : Bytes := asc "git-upload-pack".

(** [Ok(None)] for the placeholder of an empty repository *)
Definition parse_ref_line (line : Bytes) : GitError + option (Bytes * Bytes) :=
  let line := before_nul line in
  if negb (from_utf8 line) then inl Malformed
  else
    match split_once SP line with
    | None => inl Malformed
    | Some (oid, name) =>
        if negb (is_commit_sha oid) then inl Malformed
        else if bool_decide (name = []) then inl Malformed
        else if bool_decide (oid = ZERO_OID) && bool_decide (name = asc "capabilities^{}") then inr None
        else inr (Some (oid, name))
    end.

(** The ref a selector names, and the names that answer it, best first *)
Definition advertised_names (wanted : GitRef) : option (Bytes * list Bytes) :=
  match non_empty (gr_commit wanted) with
  | Some _ => None
  | None =>
      match non_empty (gr_branch wanted) with
      | Some branch => let name := asc "refs/heads/" ++ branch in Some (name, [name])
      | None =>
          tag ← non_empty (gr_tag wanted);
          let name := asc "refs/tags/" ++ tag in Some (name, [name ++ asc "^{}"; name])
      end
  end.

Definition commit_for_ref (refs : list AdvertisedRef) (wanted : GitRef) : GitError + ResolvedRef :=
  match non_empty (gr_commit wanted) with
  | Some commit => inr {| res_commit := commit; res_ref_name := None; res_fetched_at := None |}
  | None =>
      match advertised_names wanted with
      | None => inl Malformed
      | Some (name, answers) =>
          match head (omap (oid_for refs) answers) with
          | Some commit => inr {| res_commit := commit; res_ref_name := Some name; res_fetched_at := None |}
          | None => inl (RefNotFound name)
          end
      end
  end.

(** ** Reading an advertisement *)
Inductive PacketLine := PData (raw : Bytes) | PFlush | PDelimiter | PResponseEnd.

Inductive Stream := SComplete (line : PacketLine) (bytes_consumed : nat) | SIncomplete.

Record RefMatcher := {
  rm_wanted : list Bytes;
  rm_found : list AdvertisedRef;
  rm_partial : Bytes;
  rm_first_line : bool;
  rm_in_preamble : bool;
  rm_complete : bool
}.

Definition matcher_new (wanted : GitRef) : RefMatcher :=
  {| rm_wanted := match advertised_names wanted with Some (_, names) => names | None => [] end;
     rm_found := []; rm_partial := []; rm_first_line := true; rm_in_preamble := false; rm_complete := false |}.

Definition with_flags (first preamble complete : bool) (m : RefMatcher) : RefMatcher :=
  {| rm_wanted := rm_wanted m; rm_found := rm_found m; rm_partial := rm_partial m;
     rm_first_line := first; rm_in_preamble := preamble; rm_complete := complete |}.

Definition with_partial (p : Bytes) (m : RefMatcher) : RefMatcher :=
  {| rm_wanted := rm_wanted m; rm_found := rm_found m; rm_partial := p;
     rm_first_line := rm_first_line m; rm_in_preamble := rm_in_preamble m; rm_complete := rm_complete m |}.

(** The end of [read_line]: a line that names a wanted ref for the first time is kept. *)
Definition keep_ref (line : Bytes) (m : RefMatcher) : GitError + RefMatcher :=
  match parse_ref_line line with
  | inl e => inl e
  | inr (Some (oid, name)) =>
      if bool_decide (name ∈ rm_wanted m) && negb (bool_decide (name ∈ adv_name <$> rm_found m))
      then inr {| rm_wanted := rm_wanted m; rm_found := rm_found m ++ [{| adv_oid := oid; adv_name := name |}]; rm_partial := rm_partial m;
                  rm_first_line := rm_first_line m; rm_in_preamble := rm_in_preamble m; rm_complete := rm_complete m |}
      else inr m
  | inr None => inr m
  end.

Definition read_line (line : PacketLine) (m : RefMatcher) : GitError + RefMatcher :=
  match line with
  | PFlush => if rm_in_preamble m then inr (with_flags (rm_first_line m) false (rm_complete m) m)
              else inr (with_flags (rm_first_line m) (rm_in_preamble m) true m)
  | PDelimiter | PResponseEnd => inl Malformed
  | PData raw =>
      let line := default raw (strip_suffix [NL] raw) in
      if rm_first_line m then
        let m := with_flags false (rm_in_preamble m) (rm_complete m) m in
        match strip_prefix HTTP_SERVICE_PREAMBLE line with
        | Some service =>
            if bool_decide (service = UPLOAD_PACK_SERVICE) then inr (with_flags true true (rm_complete m) m) else inl Malformed
        | None => if starts_with line (asc "version ") then inl Malformed else keep_ref line m
        end
      else keep_ref line m
  end.

Section feed.
(** [gix_packetline::decode::streaming]; [None] for its error *)
Context (streaming : Bytes → option Stream).

(** The loop of [feed], on what is pending; with what is left unread. *)
Fixpoint feed_loop (fuel : nat) (m : RefMatcher) (pending : Bytes) : option (GitError + RefMatcher * Bytes) :=
  if rm_complete m then Some (inr (m, pending))
  else
    match fuel with
    | O => None
    | S fuel =>
        match streaming pending with
        | None => Some (inl Malformed)
        | Some SIncomplete => Some (inr (m, pending))
        | Some (SComplete line n) =>
            match read_line line m with
            | inl e => Some (inl e)
            | inr m => feed_loop fuel m (drop n pending)
            end
        end
    end.

(** Fuel: every iteration but the last consumes a byte. *)
Definition feed (m : RefMatcher) (bytes : Bytes) : option (GitError + RefMatcher) :=
  if rm_complete m then Some (inr m)
  else
    let pending := rm_partial m ++ bytes in
    match feed_loop (S (length pending)) (with_partial [] m) pending with
    | None => None
    | Some (inl e) => Some (inl e)
    | Some (inr (m, rest)) => Some (inr (if rm_complete m then m else with_partial rest m))
    end.

(** The reads of a transport: each chunk is fed until an error. *)
Fixpoint feed_all (m : RefMatcher) (chunks : list Bytes) : option (GitError + RefMatcher) :=
  match chunks with
  | [] => Some (inr m)
  | chunk :: chunks =>
      match feed m chunk with
      | Some (inr m) => feed_all m chunks
      | r => r
      end
  end.
End feed.

Definition matcher_finish (m : RefMatcher) : GitError + list AdvertisedRef :=
  if rm_complete m then inr (rm_found m) else inl Malformed.

(** ** The two transports *)
Section transports.
Context (streaming : Bytes → option Stream).

(** The loop of http.rs over the chunks of a response body; a chunk that does not arrive is
    [None]. *)
Fixpoint http_read (cap read : nat) (m : RefMatcher) (chunks : list (option Bytes)) : option (GitError + list AdvertisedRef) :=
  match chunks with
  | [] => Some (matcher_finish m)
  | None :: _ => Some (inl Unreachable)
  | Some chunk :: chunks =>
      let read := read + length chunk in
      if (cap <? read)%nat then Some (inl Malformed)
      else
        match feed streaming m chunk with
        | None => None
        | Some (inl e) => Some (inl e)
        | Some (inr m) => if rm_complete m then Some (matcher_finish m) else http_read cap read m chunks
        end
  end.

(** What the channel to upload-pack delivers (ssh.rs). *)
Inductive ChannelMsg := MData (data : Bytes) | MStderr (data : Bytes) | MExitStatus (status : N) | MOther.

Record Output := {
  out_refs : RefMatcher;
  out_stderr : Bytes;
  out_stderr_cut : bool;
  out_exit_status : option N;
  out_advertised : bool
}.

Definition MAX_STDERR_BYTES : nat := 4096.

Definition keep_stderr (data : Bytes) (o : Output) : Output :=
  let stderr := out_stderr o ++ data in
  let excess := length stderr - MAX_STDERR_BYTES in
  {| out_refs := out_refs o; out_stderr := drop excess stderr;
     out_stderr_cut := if (0 <? excess)%nat then true else out_stderr_cut o;
     out_exit_status := out_exit_status o; out_advertised := out_advertised o |}.

Definition with_refs (m : RefMatcher) (advertised : bool) (o : Output) : Output :=
  {| out_refs := m; out_stderr := out_stderr o; out_stderr_cut := out_stderr_cut o;
     out_exit_status := out_exit_status o; out_advertised := advertised |}.

Definition with_exit (status : N) (o : Output) : Output :=
  {| out_refs := out_refs o; out_stderr := out_stderr o; out_stderr_cut := out_stderr_cut o;
     out_exit_status := Some status; out_advertised := out_advertised o |}.

(** [Output::read]: until the advertisement is complete or the channel closes. *)
Fixpoint output_read (cap read : nat) (o : Output) (msgs : list ChannelMsg) : option (GitError + Output) :=
  match msgs with
  | [] => Some (inr o)
  | MData data :: msgs =>
      let read := read + length data in
      if (cap <? read)%nat then Some (inl Malformed)
      else
        match feed streaming (out_refs o) data with
        | None => None
        | Some (inl e) => Some (inl e)
        | Some (inr m) =>
            let o := with_refs m (rm_complete m) o in
            if rm_complete m then Some (inr o) else output_read cap read o msgs
        end
  | MStderr data :: msgs => output_read cap read (keep_stderr data o) msgs
  | MExitStatus status :: msgs => output_read cap read (with_exit status o) msgs
  | MOther :: msgs => output_read cap read o msgs
  end.

(** The name of the ref that was not found is the repository's path here. *)
Definition into_advertisement (repo_path : Bytes) (o : Output) : GitError + list AdvertisedRef :=
  if out_advertised o then matcher_finish (out_refs o)
  else
    match out_exit_status o with
    | Some 0%N => matcher_finish (out_refs o)
    | None => inl Unreachable
    | Some _ => inl (RefNotFound repo_path)
    end.

Definition ssh_read (cap : nat) (repo_path : Bytes) (m : RefMatcher) (msgs : list ChannelMsg) : option (GitError + list AdvertisedRef) :=
  let o := {| out_refs := m; out_stderr := []; out_stderr_cut := false; out_exit_status := None; out_advertised := false |} in
  match output_read cap 0 o msgs with
  | None => None
  | Some (inl e) => Some (inl e)
  | Some (inr o) => Some (into_advertisement repo_path o)
  end.
End transports.

(** * Git urls (rust/rivers-operator/src/codelocation/git/mod.rs, git/ssh.rs)

    The rules a git url must keep, git's own percent-decoding, the ssh target of a url
    and the quoting of its path for the remote shell. Parsing a url (the url crate) is a
    parameter. *)
(** What the url crate reads from a url: [host] is the address without brackets when it is
    IPv6, [host_str] the text of the host. *)
Record Url := {
  u_scheme : Bytes;
  u_username : Bytes;
  u_password : option Bytes;
  u_host_str : option Bytes;
  u_host : option Bytes;
  u_port : option N;
  u_path : Bytes
}.

Inductive Transport := THttp | TSsh.

#[export] Instance Transport_eq_dec : EqDecision Transport.
Proof. solve_decision. Defined.

(** ** Bytes of a url *)
Definition contains (s : Bytes) (c : ascii) : bool := bool_decide (c ∈ s).

(** [split_once] at a text *)
Fixpoint split_once_at (sep s : Bytes) : option (Bytes * Bytes) :=
  match strip_prefix sep s with
  | Some rest => Some ([], rest)
  | None => match s with [] => None | c :: s => (λ p, (c :: p.1, p.2)) <$> split_once_at sep s end
  end.

(** [split_at(find('/').unwrap_or(len))] *)
Fixpoint split_at_slash (s : Bytes) : Bytes * Bytes :=
  match s with
  | [] => ([], [])
  | c :: s' => if bool_decide (c = "/"%char) then ([], s) else let p := split_at_slash s' in (c :: p.1, p.2)
  end.

(** [to_digit(16)] *)
Definition to_digit (c : ascii) : option N :=
  if between 48 57 c then Some (code c - 48)%N
  else if between 97 102 c then Some (code c - 87)%N
  else if between 65 70 c then Some (code c - 55)%N else None.

(** The byte of an escape, unless it is NUL. *)
Definition escape_byte (hi lo : ascii) : option ascii :=
  h ← to_digit hi; l ← to_digit lo;
  let byte := N.lor (N.shiftl h 4) l in
  if (byte =? 0)%N then None else Some (ascii_of_N byte).

Fixpoint git_url_decode (text : Bytes) : Bytes :=
  match text with
  | [] => []
  | c :: tail =>
      match tail with
      | hi :: lo :: after =>
          if bool_decide (c = "%"%char) then
            match escape_byte hi lo with
            | Some byte => byte :: git_url_decode after
            | None => c :: git_url_decode tail
            end
          else c :: git_url_decode tail
      | _ => c :: git_url_decode tail
      end
  end.

(** The replacement of each quote. *)
Definition quote_byte (c : ascii) : Bytes := if bool_decide (c = "'"%char) then ["'"; "\"; "'"; "'"]%char else [c].

Definition shell_quote_single (s : Bytes) : Bytes := ["'"%char] ++ (s ≫= quote_byte) ++ ["'"%char].

Definition upload_pack_path (text : Bytes) : GitError + Bytes :=
  let path := git_url_decode text in
  if negb (from_utf8 path) then inl InvalidUrl
  else inr match strip_prefix (asc "/~") path with Some home => "~"%char :: home | None => path end.

Record SshTarget := { st_user : Bytes; st_host : Bytes; st_port : N; st_repo_path : Bytes }.

Section urls.
(** [url::Url::parse] *)
Context (url_parse : Bytes → option Url).

Definition parse_url (raw : Bytes) : GitError + Url :=
  match url_parse raw with Some url => inr url | None => inl InvalidUrl end.

Definition parse_ssh_url (raw : Bytes) : GitError + SshTarget :=
  match parse_url raw with
  | inl e => inl e
  | inr url =>
      if negb (bool_decide (u_scheme url = asc "ssh")) then inl InvalidUrl
      else
        let after_scheme := match split_once_at (asc "://") raw with Some (_, rest) => rest | None => [] end in
        let '(authority, path_text) := split_at_slash after_scheme in
        if contains authority "?"%char || contains authority "#"%char then inl InvalidUrl
        else if contains (git_url_decode authority) "/"%char then inl InvalidUrl
        else
          match u_host url with
          | None => inl InvalidUrl
          | Some host =>
              if contains host "%"%char then inl InvalidUrl
              else if bool_decide (u_path url = []) || bool_decide (u_path url = asc "/") then inl InvalidUrl
              else if bool_decide (u_username url = []) then inl AuthFailed
              else
                let user := git_url_decode (u_username url) in
                if negb (from_utf8 user) then inl InvalidUrl
                else
                  match upload_pack_path path_text with
                  | inl e => inl e
                  | inr path => inr {| st_user := user; st_host := host; st_port := default 22%N (u_port url); st_repo_path := path |}
                  end
          end
  end.

(** [Transport::of_url] *)
Definition transport_of (url : Url) : GitError + Transport :=
  if bool_decide (u_scheme url = asc "http") || bool_decide (u_scheme url = asc "https") then inr THttp
  else if bool_decide (u_scheme url = asc "ssh") then inr TSsh
  else inl InvalidUrl.

Definition check_url (raw : Bytes) (allow_insecure : bool) : GitError + Transport :=
  match parse_url raw with
  | inl e => inl e
  | inr url =>
      match transport_of url with
      | inl e => inl e
      | inr transport =>
          if bool_decide (is_Some (u_password url)) then inl InvalidUrl
          else
            match transport with
            | THttp =>
                if contains raw "\"%char then inl InvalidUrl
                else if bool_decide (u_scheme url = asc "http") && negb allow_insecure then inl InvalidUrl
                else inr transport
            | TSsh => match parse_ssh_url raw with inl e => inl e | inr _ => inr transport end
            end
      end
  end.

(** The decimal text of a port. *)
Definition port_text (p : N) : Bytes := asc (pretty.pretty p).

Definition host_of (raw : Bytes) : option Bytes :=
  url ← url_parse raw;
  host ← u_host_str url;
  Some (match u_port url with Some port => host ++ asc ":" ++ port_text port | None => host end).
End urls.

(** ** What the remote shell reads

    One word of a POSIX shell's command line, of the quoting this code writes: text in single
    quotes is itself, a backslash outside them quotes the next character; any other unquoted
    character is refused. *)
Fixpoint sh_word (quoted : bool) (s : Bytes) : option Bytes :=
  match s with
  | [] => if quoted then None else Some []
  | c :: s =>
      if quoted then
        if bool_decide (c = "'"%char) then sh_word false s else cons c <$> sh_word true s
      else if bool_decide (c = "'"%char) then sh_word true s
      else if bool_decide (c = "\"%char) then match s with c' :: s => cons c' <$> sh_word false s | [] => None end
      else None
  end.

Lemma quoted_reads s rest :
  sh_word true ((s ≫= quote_byte) ++ "'"%char :: rest) = (λ w, s ++ w) <$> sh_word false rest.
Proof.
  induction s as [|c s IH]; cbn [mbind list_bind app].
  - cbn. by destruct (sh_word false rest).
  - unfold quote_byte at 1. case_bool_decide as Hc.
    + subst c. cbn. fold (s ≫= quote_byte). rewrite IH. by destruct (sh_word false rest).
    + cbn [app sh_word]. rewrite bool_decide_false by done. fold (s ≫= quote_byte). rewrite IH. by destruct (sh_word false rest).
Qed.

(** The shell reads back the path that was quoted, whatever it holds. *)
Lemma shell_quote_exact s : sh_word false (shell_quote_single s) = Some s.
Proof.
  unfold shell_quote_single. cbn [app sh_word]. rewrite bool_decide_true by done. rewrite quoted_reads. cbn. by rewrite app_nil_r.
Qed.

(** ** Decoding undoes encoding *)
Definition hex_upper (n : N) : ascii := ascii_of_N (if (n <? 10)%N then 48 + n else 55 + n).

(** Percent-encoding of the bytes [keep] does not keep. *)
Definition percent_encode (keep : ascii → bool) (s : Bytes) : Bytes :=
  s ≫= λ c, if keep c then [c] else ["%"%char; hex_upper (code c / 16); hex_upper (code c mod 16)].

Lemma escape_roundtrip c : c ≠ NUL → escape_byte (hex_upper (code c / 16)) (hex_upper (code c mod 16)) = Some c.
Proof. intros Hc. destruct c as [[] [] [] [] [] [] [] []]; try (vm_compute; reflexivity). by destruct Hc. Qed.

Lemma decode_cons c t : c ≠ "%"%char → git_url_decode (c :: t) = c :: git_url_decode t.
Proof. intros Hc. destruct t as [|hi [|lo t]]; [done..|]. cbn [git_url_decode]. by rewrite bool_decide_false. Qed.

Lemma url_decode_encode keep s :
  keep "%"%char = false → NUL ∉ s → git_url_decode (percent_encode keep s) = s.
Proof.
  intros Hk. induction s as [|c s IH]; [done|]. rewrite not_elem_of_cons. intros [Hc Hs]. unfold percent_encode. cbn [mbind list_bind].
  fold (percent_encode keep s). destruct (keep c) eqn:E.
  - cbn [app]. rewrite decode_cons by (intros ->; congruence). by rewrite IH.
  - cbn [app]. change (git_url_decode ("%"%char :: ?x :: ?y :: ?z)) with
      (match escape_byte x y with Some byte => byte :: git_url_decode z | None => "%"%char :: git_url_decode (x :: y :: z) end).
    rewrite escape_roundtrip by done. by rewrite IH.
Qed.
