(* ===== verification/GitRefsTheorems.v ===== *)
(** * Reading refs is independent of how they arrive

    However a transport cuts an advertisement into reads, the refs read are those of the
    whole; and from a well-formed advertisement a selector gets the commit it names. *)

From S2P Require Import Prelude GitRefs.

(** ** What a decoder of pkt-lines promises *)
Class PktDecoder (streaming : Bytes → option Stream) : Prop := {
  pd_empty : streaming [] = Some SIncomplete;
  pd_consumed p line n : streaming p = Some (SComplete line n) → (0 < n ≤ length p)%nat;
  pd_complete p line n x : streaming p = Some (SComplete line n) → streaming (p ++ x) = Some (SComplete line n);
  pd_error p x : streaming p = None → streaming (p ++ x) = None
}.

Section chunking.
Context (streaming : Bytes → option Stream) `{!PktDecoder streaming}.

#[local] Abbreviation loop := (feed_loop streaming).

Lemma loop_total fuel m p : (length p < fuel)%nat → is_Some (loop fuel m p).
Proof.
  revert m p. induction fuel as [|fuel IH]; intros m p Hf; [lia|]. cbn [feed_loop]. destruct (rm_complete m); [done|].
  destruct (streaming p) as [[line n|]|] eqn:E; [|done|done]. destruct (read_line line m); [done|].
  apply IH. rewrite length_drop. pose proof (pd_consumed _ _ _ E). lia.
Qed.

Lemma loop_mono f1 f2 m p r : (f1 ≤ f2)%nat → loop f1 m p = Some r → loop f2 m p = Some r.
Proof.
  revert f2 m p. induction f1 as [|f1 IH]; intros f2 m p Hle.
  - destruct f2; cbn [feed_loop]; by destruct (rm_complete m).
  - destruct f2 as [|f2]; [lia|]. cbn [feed_loop]. destruct (rm_complete m); [done|].
    destruct (streaming p) as [[line n|]|]; [|done|done]. destruct (read_line line m); [done|]. apply IH. lia.
Qed.

(** The loop with the fuel it is given. *)
Definition scan (m : RefMatcher) (p : Bytes) : option (GitError + RefMatcher * Bytes) := loop (S (length p)) m p.

Lemma scan_of fuel m p r : loop fuel m p = Some r → scan m p = Some r.
Proof.
  intros H. destruct (loop_total (S (length p)) m p) as [r' Hr']; [lia|]. unfold scan. rewrite Hr'.
  destruct (Nat.le_ge_cases fuel (S (length p))) as [Hle|Hle]; [by rewrite <- Hr', (loop_mono _ _ _ _ _ Hle H)|].
  by rewrite (loop_mono _ _ _ _ _ Hle Hr') in H.
Qed.

Lemma scan_app_loop fuel m p x r : loop fuel m p = Some r →
  scan m (p ++ x) =
  match r with
  | inl e => Some (inl e)
  | inr (m', rest) => if rm_complete m' then Some (inr (m', rest ++ x)) else scan m' (rest ++ x)
  end.
Proof.
  revert m p. induction fuel as [|fuel IH]; intros m p; cbn [feed_loop]; destruct (rm_complete m) eqn:Ec.
  1,3: (intros [= <-]; rewrite Ec; unfold scan; cbn [feed_loop]; by rewrite Ec).
  { done. }
  destruct (streaming p) as [[line n|]|] eqn:E.
  - destruct (pd_consumed _ _ _ E) as [H0 Hn]. destruct (read_line line m) as [e|m'] eqn:El.
    + intros [= <-]. apply (scan_of 1). cbn [feed_loop]. by rewrite Ec, (pd_complete _ _ _ _ E), El.
    + intros H. specialize (IH _ _ H). rewrite <- IH. rewrite <- drop_app_le by lia.
      destruct (loop_total (S (length (drop n (p ++ x)))) m' (drop n (p ++ x))) as [r' Hr']; [lia|].
      unfold scan at 2. rewrite Hr'. apply (scan_of (S (S (length (drop n (p ++ x)))))). cbn [feed_loop] in *.
      by rewrite Ec, (pd_complete _ _ _ _ E), El.
  - intros [= <-]. by rewrite Ec.
  - intros [= <-]. apply (scan_of 1). cbn [feed_loop]. by rewrite Ec, (pd_error _ _ E).
Qed.

Lemma scan_app m p x : scan m (p ++ x) =
  match scan m p with
  | None => None
  | Some (inl e) => Some (inl e)
  | Some (inr (m', rest)) => if rm_complete m' then Some (inr (m', rest ++ x)) else scan m' (rest ++ x)
  end.
Proof. destruct (loop_total (S (length p)) m p) as [r Hr]; [lia|]. rewrite (scan_app_loop _ _ _ x _ Hr). unfold scan at 2. by rewrite Hr. Qed.

(** What is left of an unfinished read is the start of one pkt-line. *)
Lemma loop_settled fuel m p m' rest : loop fuel m p = Some (inr (m', rest)) → rm_complete m' = false → scan m' rest = Some (inr (m', rest)).
Proof.
  revert m p. induction fuel as [|fuel IH]; intros m p; cbn [feed_loop]; destruct (rm_complete m) eqn:Ec; try done.
  1,2: intros [= -> ->]; congruence.
  destruct (streaming p) as [[line n|]|] eqn:E; [|intros [= -> ->] _|done].
  - destruct (read_line line m); [done|]. apply IH.
  - apply (scan_of 1). cbn [feed_loop]. by rewrite Ec, E.
Qed.

(** ** Matchers between reads *)
Definition settled_matcher (m : RefMatcher) : Prop :=
  rm_complete m = false ∧ scan (with_partial [] m) (rm_partial m) = Some (inr (with_partial [] m, rm_partial m)).

(** What a whole advertisement gives. *)
Definition whole (m : RefMatcher) (p : Bytes) : option (GitError + list AdvertisedRef) :=
  match scan (with_partial [] m) (rm_partial m ++ p) with
  | None => None
  | Some (inl e) => Some (inl e)
  | Some (inr (m', _)) => Some (matcher_finish m')
  end.

Lemma read_line_partial line m m' : read_line line m = inr m' → rm_partial m' = rm_partial m.
Proof.
  assert (Hk : ∀ l m m', keep_ref l m = inr m' → rm_partial m' = rm_partial m).
  { intros l n n'. unfold keep_ref. destruct (parse_ref_line l) as [|[[oid name]|]]; [done| |by intros [= <-]].
    destruct (_ && _); by intros [= <-]. }
  destruct line as [raw| | |]; cbn [read_line]; [|by destruct (rm_in_preamble m); intros [= <-]|done|done].
  destruct (rm_first_line m); [|apply Hk]. destruct (strip_prefix _ _).
  - case_bool_decide; [by intros [= <-]|done].
  - destruct (starts_with _ _); [done|]. by intros ->%Hk.
Qed.

Lemma loop_partial fuel m p m' rest : loop fuel m p = Some (inr (m', rest)) → rm_partial m' = rm_partial m.
Proof.
  revert m p. induction fuel as [|fuel IH]; intros m p; cbn [feed_loop]; destruct (rm_complete m); try done; [by intros [= <- _]..|].
  destruct (streaming p) as [[line n|]|]; [|by intros [= <- _]|done].
  destruct (read_line line m) as [|m1] eqn:E; [done|]. intros ->%IH. by eapply read_line_partial.
Qed.

Lemma with_partial_id m : rm_partial m = [] → with_partial [] m = m.
Proof. destruct m; cbn. by intros ->. Qed.

Lemma feed_scan m x : rm_complete m = false →
  feed streaming m x =
  match scan (with_partial [] m) (rm_partial m ++ x) with
  | None => None
  | Some (inl e) => Some (inl e)
  | Some (inr (m', rest)) => Some (inr (if rm_complete m' then m' else with_partial rest m'))
  end.
Proof. intros Hc. unfold feed. by rewrite Hc. Qed.

Lemma whole_app m x y : whole m (x ++ y) =
  match scan (with_partial [] m) (rm_partial m ++ x) with
  | None => None
  | Some (inl e) => Some (inl e)
  | Some (inr (m', rest)) => if rm_complete m' then Some (matcher_finish m') else whole (with_partial rest m') y
  end.
Proof.
  unfold whole. rewrite (assoc_L (++)), scan_app.
  destruct (scan (with_partial [] m) (rm_partial m ++ x)) as [[e|[m' rest]]|] eqn:E; [done| |done].
  destruct (rm_complete m') eqn:Ec; [done|]. cbn [rm_partial with_partial].
  apply loop_partial in E. cbn in E. by rewrite (with_partial_id m' E) || (rewrite <- (with_partial_id m' E) at 1).
Qed.

Lemma settled_next m x m' rest : scan (with_partial [] m) (rm_partial m ++ x) = Some (inr (m', rest)) →
  rm_complete m' = false → settled_matcher (with_partial rest m').
Proof.
  intros E Hc. split; [done|]. cbn [rm_partial with_partial]. pose proof (loop_partial _ _ _ _ _ E) as Hp. cbn in Hp.
  change (with_partial [] (with_partial rest m')) with (with_partial [] m'). rewrite (with_partial_id _ Hp).
  by eapply loop_settled.
Qed.

Lemma whole_nil m : settled_matcher m → whole m [] = Some (matcher_finish m).
Proof. intros [Hc Hs]. unfold whole. rewrite app_nil_r, Hs. unfold matcher_finish. by cbn [rm_complete with_partial]; rewrite Hc. Qed.

(** ** Over HTTP and over SSH *)
Lemma http_whole cap read m chunks :
  settled_matcher m → (read + length (concat chunks) ≤ cap)%nat →
  http_read streaming cap read m (Some <$> chunks) = whole m (concat chunks).
Proof.
  revert read m. induction chunks as [|x chunks IH]; intros read m Hm Hcap; cbn [fmap list_fmap http_read concat] in *.
  - by rewrite whole_nil.
  - rewrite length_app in Hcap. rewrite (proj2 (Nat.ltb_ge _ _)) by lia. rewrite feed_scan by apply Hm.
    rewrite whole_app. destruct (scan _ _) as [[e|[m' rest]]|] eqn:E; [done| |done].
    destruct (rm_complete m') eqn:Ec; [by rewrite Ec|]. cbn [rm_complete with_partial]. rewrite Ec.
    apply IH; [by eapply settled_next|lia].
Qed.

(** The bytes on the data stream of a channel. *)
Definition channel_data (msgs : list ChannelMsg) : Bytes := msgs ≫= λ msg, match msg with MData d => d | _ => [] end.

Lemma output_whole cap read o msgs refs path :
  settled_matcher (out_refs o) → out_advertised o = false → (read + length (channel_data msgs) ≤ cap)%nat →
  (match output_read streaming cap read o msgs with
   | Some (inr o) => into_advertisement path o = inr refs
   | _ => False
   end) ↔ whole (out_refs o) (channel_data msgs) = Some (inr refs).
Proof.
  revert read o. induction msgs as [|msg msgs IH]; intros read o Hm Ha Hcap.
  { cbn. rewrite whole_nil by done. unfold into_advertisement, matcher_finish. rewrite Ha.
    destruct Hm as [-> _]. by destruct (out_exit_status o) as [[|]|]. }
  unfold channel_data in Hcap. cbn in Hcap. fold (channel_data msgs) in Hcap.
  destruct msg as [data|data|status|]; cbn [output_read].
  2: apply (IH read (keep_stderr data o)); [done..|exact Hcap].
  2: apply (IH read (with_exit status o)); [done..|exact Hcap].
  2: apply (IH read o); [done..|exact Hcap].
  change (channel_data (MData data :: msgs)) with (data ++ channel_data msgs). rewrite length_app in Hcap.
  rewrite (proj2 (Nat.ltb_ge _ _)) by lia. rewrite feed_scan by apply Hm. rewrite whole_app.
  destruct (scan _ _) as [[e|[m' rest]]|] eqn:E; [by split|..|by split].
  destruct (rm_complete m') eqn:Ec.
  - rewrite Ec. unfold into_advertisement. cbn. by split; congruence.
  - cbn [rm_complete with_partial]. rewrite Ec. apply (IH (read + length data) (with_refs (with_partial rest m') false o)); [by eapply settled_next|done|lia].
Qed.

Lemma new_settled w : settled_matcher (matcher_new w).
Proof. split; [done|]. apply (scan_of 1). cbn. by rewrite pd_empty. Qed.
End chunking.

(** ** Well-formed advertisements *)
Class PktEncoder (streaming : Bytes → option Stream) (pkt : Bytes → Bytes) (flush : Bytes) : Prop := {
  pe_data d x : (0 < N.of_nat (length d) <= 65516)%N → streaming (pkt d ++ x) = Some (SComplete (PData d) (length (pkt d)));
  pe_flush x : streaming (flush ++ x) = Some (SComplete PFlush (length flush))
}.

Record ref_ok (r : AdvertisedRef) : Prop := {
  ro_oid : is_commit_sha (adv_oid r) = true;
  ro_name : adv_name r ≠ [] ∧ (NUL ∉ adv_name r);
  ro_utf8 : from_utf8 (adv_oid r ++ SP :: adv_name r) = true;
  ro_real : adv_name r ≠ asc "capabilities^{}"
}.

(** The line of a ref, with what follows the NUL on the first one. *)
Definition ref_line (caps : Bytes) (r : AdvertisedRef) : Bytes := adv_oid r ++ SP :: adv_name r ++ caps ++ [NL].

Definition ref_lines (caps : Bytes) (refs : list AdvertisedRef) : list Bytes :=
  match refs with [] => [] | r :: refs => ref_line caps r :: (ref_line [] <$> refs) end.

Definition preamble_line : Bytes := HTTP_SERVICE_PREAMBLE ++ UPLOAD_PACK_SERVICE ++ [NL].

Definition advertise (pkt : Bytes → Bytes) (flush : Bytes) (http : bool) (caps : Bytes) (refs : list AdvertisedRef) : Bytes :=
  (if http then pkt preamble_line ++ flush else []) ++ concat (pkt <$> ref_lines caps refs) ++ flush.

Lemma sha_bytes oid : is_commit_sha oid = true → length oid = 40 ∧ Forall (λ c, is_sha_byte c = true) oid.
Proof.
  unfold is_commit_sha. rewrite andb_true_iff, Nat.eqb_eq, forallb_forall. intros [? H]. split; [done|].
  apply Forall_forall. intros c Hc%list_elem_of_In. by apply H.
Qed.

Lemma sha_byte_not c : is_sha_byte c = true → c ≠ SP ∧ c ≠ NUL ∧ c ≠ "#"%char ∧ c ≠ "v"%char.
Proof. intros H. split_and!; intros ->; by vm_compute in H. Qed.

Lemma before_nul_app s x : NUL ∉ s → before_nul (s ++ x) = s ++ before_nul x.
Proof.
  induction s as [|c s IH]; [done|]. rewrite not_elem_of_cons. intros [Hc Hs]. cbn. rewrite bool_decide_false by done.
  by rewrite IH.
Qed.

Lemma split_once_byte_app sep x y : sep ∉ x → split_once sep (x ++ sep :: y) = Some (x, y).
Proof.
  induction x as [|c x IH]; cbn.
  - by rewrite bool_decide_true.
  - rewrite not_elem_of_cons. intros [Hc Hx]. rewrite bool_decide_false by done. by rewrite IH.
Qed.

Lemma strip_prefix_app p s : strip_prefix p (p ++ s) = Some s.
Proof. induction p as [|c p IH]; cbn; [done|]. by rewrite bool_decide_true. Qed.

Lemma strip_nl s : strip_suffix [NL] (s ++ [NL]) = Some s.
Proof. unfold strip_suffix. rewrite reverse_app, !reverse_singleton, strip_prefix_app. cbn. by rewrite reverse_involutive. Qed.

Definition caps_ok (caps : Bytes) : Prop := caps = [] ∨ ∃ x, caps = NUL :: x.

Lemma parse_line_ok caps r : ref_ok r → caps_ok caps →
  parse_ref_line (adv_oid r ++ SP :: adv_name r ++ caps) = inr (Some (adv_oid r, adv_name r)).
Proof.
  intros [Ho [Hn Hz] Hu Hr] Hc. destruct (sha_bytes _ Ho) as [_ Hb].
  assert (Hno : (NUL ∉ adv_oid r) ∧ (SP ∉ adv_oid r)).
  { rewrite Forall_forall in Hb. split; intros H%Hb; by apply sha_byte_not in H as (? & ? & _). }
  unfold parse_ref_line. cbv zeta. replace (before_nul _) with (adv_oid r ++ SP :: adv_name r).
  - rewrite Hu. cbn [negb]. rewrite split_once_byte_app by apply Hno. rewrite Ho. cbn [negb].
    rewrite bool_decide_false by done. rewrite (bool_decide_false (adv_name r = _)) by done. by rewrite andb_false_r.
  - rewrite before_nul_app by apply Hno. f_equal. cbn. f_equal. rewrite before_nul_app by done.
    destruct Hc as [->|[x ->]]; cbn; by rewrite app_nil_r.
Qed.

(** ** Reading one *)
Definition keep_found (wanted : list Bytes) (found : list AdvertisedRef) (r : AdvertisedRef) : list AdvertisedRef :=
  if bool_decide (adv_name r ∈ wanted) && negb (bool_decide (adv_name r ∈ adv_name <$> found)) then found ++ [r] else found.

Definition with_found (found : list AdvertisedRef) (first : bool) (m : RefMatcher) : RefMatcher :=
  {| rm_wanted := rm_wanted m; rm_found := found; rm_partial := rm_partial m;
     rm_first_line := first; rm_in_preamble := rm_in_preamble m; rm_complete := rm_complete m |}.

Lemma keep_ref_ok caps r m : ref_ok r → caps_ok caps →
  keep_ref (adv_oid r ++ SP :: adv_name r ++ caps) m = inr (with_found (keep_found (rm_wanted m) (rm_found m) r) (rm_first_line m) m).
Proof.
  intros Hr Hc. unfold keep_ref. rewrite (parse_line_ok caps r Hr Hc). unfold keep_found. destruct r as [oid name]. cbn [adv_oid adv_name].
  destruct (_ && _); [done|]. by destruct m.
Qed.

Lemma ref_first caps r : ref_ok r → ∃ c s, adv_oid r ++ SP :: adv_name r ++ caps = c :: s ∧ is_sha_byte c = true.
Proof.
  intros [Ho _ _ _]. destruct (sha_bytes _ Ho) as [Hl Hb]. destruct (adv_oid r) as [|c oid]; [done|].
  apply Forall_cons in Hb as [Hc _]. by eexists _, _.
Qed.

Lemma read_ref_ok caps r m : ref_ok r → caps_ok caps →
  read_line (PData (ref_line caps r)) m = inr (with_found (keep_found (rm_wanted m) (rm_found m) r) false m).
Proof.
  intros Hr Hc. cbn [read_line]. unfold ref_line.
  replace (adv_oid r ++ SP :: adv_name r ++ caps ++ [NL]) with ((adv_oid r ++ SP :: adv_name r ++ caps) ++ [NL])
    by (rewrite <- (assoc_L (++)); cbn; by rewrite <- (assoc_L (++))).
  rewrite strip_nl. cbn [from_option id]. pose proof (keep_ref_ok caps r) as Hk.
  destruct (ref_first caps r Hr) as (c & s & E & Hs). destruct (sha_byte_not c Hs) as (_ & _ & H1 & H2).
  destruct (rm_first_line m) eqn:Ef.
  - cbv zeta. rewrite E. assert (Ep : strip_prefix HTTP_SERVICE_PREAMBLE (c :: s) = None).
    { cbn. by rewrite bool_decide_false by congruence. }
    assert (Ev : starts_with (c :: s) (asc "version ") = false).
    { unfold starts_with. cbn. rewrite (bool_decide_false ("v"%char = c)) by congruence. apply bool_decide_false. by intros []. }
    rewrite Ep, Ev, <- E, Hk by done. done.
  - rewrite Hk, Ef by done. done.
Qed.

Section exact.
Context (streaming : Bytes → option Stream) (pkt : Bytes → Bytes) (flush : Bytes).
Context `{!PktDecoder streaming} `{!PktEncoder streaming pkt flush}.

Lemma scan_line line n m m' p :
  rm_complete m = false → streaming p = Some (SComplete line n) → read_line line m = inr m' → scan streaming m p = scan streaming m' (drop n p).
Proof.
  intros Hc Hs Hl. destruct (loop_total streaming (S (length (drop n p))) m' (drop n p)) as [r Hr]; [lia|].
  unfold scan at 2. rewrite Hr. apply (scan_of streaming (S (S (length (drop n p))))). cbn [feed_loop] in *. by rewrite Hc, Hs, Hl.
Qed.

Definition short (d : Bytes) : Prop := (0 < N.of_nat (length d) <= 65516)%N.

Lemma scan_refs caps refs m x :
  rm_complete m = false → caps_ok caps → Forall ref_ok refs → Forall short (ref_lines caps refs) →
  ∃ first, scan streaming m (concat (pkt <$> ref_lines caps refs) ++ x) =
           scan streaming (with_found (foldl (keep_found (rm_wanted m)) (rm_found m) refs) first m) x.
Proof.
  assert (Hgo : ∀ refs m, rm_complete m = false → Forall ref_ok refs → Forall short (ref_line [] <$> refs) →
    ∃ first, scan streaming m (concat (pkt <$> (ref_line [] <$> refs)) ++ x) =
             scan streaming (with_found (foldl (keep_found (rm_wanted m)) (rm_found m) refs) first m) x).
  { clear refs m caps. induction refs as [|r refs IH]; intros m Hc Hr Hs.
    - exists (rm_first_line m). by destruct m.
    - apply Forall_cons in Hr as [Hr Hrs]. cbn [fmap list_fmap] in Hs. apply Forall_cons in Hs as [Hs Hss].
      cbn [fmap list_fmap concat foldl]. rewrite <- (assoc_L (++)).
      rewrite (scan_line (PData (ref_line [] r)) (length (pkt (ref_line [] r))) m _ _ Hc (pe_data _ _ Hs) (read_ref_ok [] r m Hr ltac:(by left))).
      rewrite drop_app_length. apply (IH (with_found (keep_found (rm_wanted m) (rm_found m) r) false m)); done. }
  intros Hc Hcaps. destruct refs as [|r refs]; cbn [ref_lines].
  { intros _ _. exists (rm_first_line m). by destruct m. }
  rewrite !Forall_cons. intros [Hr Hrs] [Hs Hss]. cbn [fmap list_fmap concat foldl]. rewrite <- (assoc_L (++)).
  rewrite (scan_line (PData (ref_line caps r)) (length (pkt (ref_line caps r))) m _ _ Hc (pe_data _ _ Hs) (read_ref_ok caps r m Hr Hcaps)).
  rewrite drop_app_length. apply (Hgo refs (with_found (keep_found (rm_wanted m) (rm_found m) r) false m)); done.
Qed.

Lemma scan_advertise w http caps refs x :
  caps_ok caps → Forall ref_ok refs → Forall short (ref_lines caps refs) →
  ∃ m rest, scan streaming (matcher_new w) (advertise pkt flush http caps refs ++ x) = Some (inr (m, rest)) ∧
            rm_complete m = true ∧ rm_found m = foldl (keep_found (rm_wanted (matcher_new w))) [] refs.
Proof.
  intros Hcaps Hrefs Hshort. unfold advertise. set (m0 := matcher_new w).
  assert (Hend : ∀ m, rm_complete m = false → rm_in_preamble m = false → rm_wanted m = rm_wanted m0 → rm_found m = [] →
    ∃ m' rest, scan streaming m ((concat (pkt <$> ref_lines caps refs) ++ flush) ++ x) = Some (inr (m', rest)) ∧
      rm_complete m' = true ∧ rm_found m' = foldl (keep_found (rm_wanted m0)) [] refs).
  { intros m Hc Hp Hw Hf. rewrite <- (assoc_L (++)). destruct (scan_refs caps refs m (flush ++ x) Hc Hcaps Hrefs Hshort) as [first ->].
    rewrite Hw, Hf. set (m1 := with_found _ _ m).
    erewrite (scan_line PFlush (length flush) m1); [|done|apply pe_flush|cbn; by rewrite Hp].
    eexists _, _. split; [apply (scan_of streaming 0); reflexivity|]. done. }
  destruct http; [|by apply (Hend m0)]. rewrite <- !(assoc_L (++)).
  erewrite (scan_line (PData preamble_line) (length (pkt preamble_line)) m0); [|done|by apply pe_data|vm_compute; reflexivity].
  rewrite drop_app_length. erewrite (scan_line PFlush (length flush)); [|done|apply pe_flush|reflexivity].
  rewrite drop_app_length. rewrite (assoc_L (++)). by apply Hend.
Qed.

(** What is kept answers every wanted name as the whole advertisement does. *)
Lemma keep_found_answers wanted refs found n : n ∈ wanted →
  oid_for (foldl (keep_found wanted) found refs) n = match oid_for found n with Some o => Some o | None => oid_for refs n end.
Proof.
  intros Hn. assert (Happ : ∀ f g, oid_for (f ++ g) n = match oid_for f n with Some o => Some o | None => oid_for g n end).
  { induction f as [|r f IH]; intros g; cbn; [done|]. by case_bool_decide. }
  assert (Hin : ∀ f, n ∈ adv_name <$> f → is_Some (oid_for f n)).
  { induction f as [|r f IH]; cbn; [by intros ?%elem_of_nil|]. case_bool_decide as E; [by eauto|].
    intros [->|H]%elem_of_cons; [done|by apply IH]. }
  revert found. induction refs as [|r refs IH]; intros found; cbn [foldl oid_for]; [by destruct (oid_for found n)|].
  rewrite IH. unfold keep_found. destruct (bool_decide (adv_name r ∈ wanted) && _) eqn:E.
  - rewrite Happ. cbn [oid_for]. destruct (oid_for found n); [done|]. by destruct (bool_decide (adv_name r = n)).
  - destruct (oid_for found n) eqn:Ef; [done|]. destruct (decide (adv_name r = n)) as [En|En]; [|by rewrite bool_decide_false]. exfalso. subst n.
    rewrite bool_decide_true in E by done. cbn in E. apply negb_false_iff, bool_decide_eq_true in E.
    apply Hin in E. rewrite Ef in E. by destruct E.
Qed.

Lemma keep_found_bound wanted refs found :
  NoDup (adv_name <$> found) → (∀ n, n ∈ adv_name <$> found → n ∈ wanted) →
  length (foldl (keep_found wanted) found refs) ≤ length wanted.
Proof.
  revert found. induction refs as [|r refs IH]; intros found Hn Hw; cbn [foldl].
  - rewrite <- (length_fmap adv_name). by apply submseteq_length, NoDup_submseteq.
  - apply IH; unfold keep_found; destruct (_ && _) eqn:E; try done; rewrite fmap_app; cbn.
    + apply andb_true_iff in E as [_ E%negb_true_iff%bool_decide_eq_false]. apply NoDup_app. split_and!; [done| |apply NoDup_singleton].
      by intros n Hin ->%list_elem_of_singleton.
    + intros n [Hin| ->%list_elem_of_singleton]%elem_of_app; [by apply Hw|]. by apply andb_true_iff in E as [?%bool_decide_eq_true _].
Qed.

Lemma commit_for_ref_ext refs refs' w :
  (∀ n, n ∈ rm_wanted (matcher_new w) → oid_for refs n = oid_for refs' n) → commit_for_ref refs w = commit_for_ref refs' w.
Proof.
  intros H. unfold commit_for_ref, matcher_new in *. cbn [rm_wanted] in H. destruct (non_empty (gr_commit w)); [done|].
  destruct (advertised_names w) as [[name answers]|]; [|done].
  assert (E : omap (oid_for refs) answers = omap (oid_for refs') answers); [|by rewrite E].
  clear name. induction answers as [|n l IH]; cbn; [done|]. rewrite H by left. rewrite IH; [done|]. intros n' Hn'. apply H. by right.
Qed.
End exact.

Lemma ssh_whole streaming `{!PktDecoder streaming} cap path w msgs refs :
  (length (channel_data msgs) ≤ cap)%nat →
  ssh_read streaming cap path (matcher_new w) msgs = Some (inr refs) ↔ whole streaming (matcher_new w) (channel_data msgs) = Some (inr refs).
Proof.
  intros Hcap. unfold ssh_read. set (o := {| out_refs := _ |}).
  change (whole streaming (matcher_new w)) with (whole streaming (out_refs o)).
  rewrite <- (output_whole streaming cap 0 o msgs refs path); [|apply (new_settled streaming)|done|done].
  destruct (output_read streaming cap 0 o msgs) as [[e|o']|]; [done| |done]. by split; [intros [= ->]|intros ->].
Qed.

Lemma wanted_bound w : length (rm_wanted (matcher_new w)) ≤ 2.
Proof.
  unfold matcher_new, advertised_names. cbn [rm_wanted]. destruct (non_empty (gr_commit w)); cbn; [lia|].
  destruct (non_empty (gr_branch w)); cbn; [lia|]. destruct (non_empty (gr_tag w)); cbn; lia.
Qed.

(** C33: The refs read do not depend on how an advertisement is cut into reads, nor on the
    transport: within the size limit, HTTP chunks that make up the same bytes give the same
    refs or the same error, and a channel that delivers those bytes succeeds exactly when
    they do, with the same refs, whatever it writes to stderr and however it exits. *)
Theorem transports_agree streaming cap path w chunks chunks' msgs :
  PktDecoder streaming →
  concat chunks = concat chunks' → concat chunks = channel_data msgs → (length (concat chunks) ≤ cap)%nat →
  is_Some (http_read streaming cap 0 (matcher_new w) (Some <$> chunks)) ∧
  http_read streaming cap 0 (matcher_new w) (Some <$> chunks) = http_read streaming cap 0 (matcher_new w) (Some <$> chunks') ∧
  ∀ refs, ssh_read streaming cap path (matcher_new w) msgs = Some (inr refs) ↔
          http_read streaming cap 0 (matcher_new w) (Some <$> chunks) = Some (inr refs).
Proof.
  intros HD E1 E2 Hcap. pose proof (new_settled streaming w) as Hs.
  rewrite !http_whole by (done || rewrite <- ?E1; lia). rewrite <- E1. split_and!; [|done|].
  - unfold whole. destruct (loop_total streaming (S (length (rm_partial (matcher_new w) ++ concat chunks))) (with_partial [] (matcher_new w))
      (rm_partial (matcher_new w) ++ concat chunks)) as [[e|[m rest]] Hr]; [lia|..]; unfold scan; rewrite Hr; by eexists.
  - intros refs. rewrite E2 in Hcap |- *. by apply ssh_whole.
Qed.

(** From a well-formed advertisement, with or without the HTTP preamble, with any
    capabilities, followed by anything and cut into any reads, both transports read a list of
    at most two refs that answers the selector exactly as the whole advertisement does: the
    branch, the peeled commit of a tag before the tag itself, or that the ref is not there. *)
Theorem advertisement_answers streaming pkt flush cap path w http caps refs rest chunks msgs :
  PktDecoder streaming → PktEncoder streaming pkt flush →
  caps_ok caps → Forall ref_ok refs → Forall short (ref_lines caps refs) →
  concat chunks = advertise pkt flush http caps refs ++ rest → channel_data msgs = concat chunks → (length (concat chunks) ≤ cap)%nat →
  ∃ found, http_read streaming cap 0 (matcher_new w) (Some <$> chunks) = Some (inr found) ∧
           ssh_read streaming cap path (matcher_new w) msgs = Some (inr found) ∧
           commit_for_ref found w = commit_for_ref refs w ∧ (length found ≤ 2)%nat.
Proof.
  intros HD HE Hcaps Hrefs Hshort Ec Em Hcap.
  destruct (scan_advertise streaming pkt flush w http caps refs rest Hcaps Hrefs Hshort) as (m & r & Hs & Hc & Hf).
  assert (Hw : whole streaming (matcher_new w) (concat chunks) = Some (inr (rm_found m))).
  { unfold whole. rewrite Ec. change (with_partial [] (matcher_new w)) with (matcher_new w). cbn [rm_partial matcher_new app].
    rewrite Hs. unfold matcher_finish. by rewrite Hc. }
  exists (rm_found m). split_and!.
  - by rewrite (http_whole streaming _ _ _ _ (new_settled streaming w)).
  - apply (ssh_whole streaming); rewrite ?Em; done.
  - apply commit_for_ref_ext. intros n Hn. rewrite Hf, keep_found_answers by done. done.
  - rewrite Hf. etrans; [|apply (wanted_bound w)]. apply keep_found_bound; [constructor|]. intros n Hn. by apply elem_of_nil in Hn.
Qed.

(** ** A decoder of pkt-lines *)
Definition hex_digit (c : ascii) : option N :=
  if between 48 57 c then Some (code c - 48)%N
  else if between 97 102 c then Some (code c - 87)%N
  else if between 65 70 c then Some (code c - 55)%N else None.

Definition digit_hex (n : N) : ascii := ascii_of_N (if (n <? 10)%N then 48 + n else 87 + n).

Definition pkt_decode (s : Bytes) : option Stream :=
  match s with
  | c1 :: c2 :: c3 :: c4 :: rest =>
      d1 ← hex_digit c1; d2 ← hex_digit c2; d3 ← hex_digit c3; d4 ← hex_digit c4;
      let n := (d1 * 4096 + d2 * 256 + d3 * 16 + d4)%N in
      if (n =? 0)%N then Some (SComplete PFlush 4)
      else if (n =? 1)%N then Some (SComplete PDelimiter 4)
      else if (n =? 2)%N then Some (SComplete PResponseEnd 4)
      else if (n <=? 4)%N || (65520 <? n)%N then None
      else if (n - 4 <=? N.of_nat (length rest))%N
      then Some (SComplete (PData (take (N.to_nat (n - 4)) rest)) (4 + N.to_nat (n - 4)))
      else Some SIncomplete
  | _ => Some SIncomplete
  end.

Definition pkt_encode (d : Bytes) : Bytes :=
  let n := (4 + N.of_nat (length d))%N in
  digit_hex (n / 4096) :: digit_hex (n / 256 mod 16) :: digit_hex (n / 16 mod 16) :: digit_hex (n mod 16) :: d.

#[export] Instance pkt_decoder : PktDecoder pkt_decode.
Proof.
  split.
  - done.
  - intros p line n. unfold pkt_decode. destruct p as [|c1 [|c2 [|c3 [|c4 rest]]]]; try done.
    destruct (hex_digit c1) as [d1|], (hex_digit c2) as [d2|], (hex_digit c3) as [d3|], (hex_digit c4) as [d4|]; try done.
    cbn [mbind option_bind]. cbv zeta. generalize (d1 * 4096 + d2 * 256 + d3 * 16 + d4)%N as k. intros k. cbn [length].
    repeat (destruct (_ =? _)%N; [intros [= <- <-]; lia|]). destruct (_ || _); [done|].
    destruct (N.leb_spec (k - 4) (N.of_nat (length rest))); [|done]. intros [= <- <-]. lia.
  - intros p line n x. unfold pkt_decode. destruct p as [|c1 [|c2 [|c3 [|c4 rest]]]]; try done. cbn [app].
    destruct (hex_digit c1) as [d1|], (hex_digit c2) as [d2|], (hex_digit c3) as [d3|], (hex_digit c4) as [d4|]; try done.
    cbn [mbind option_bind]. cbv zeta. generalize (d1 * 4096 + d2 * 256 + d3 * 16 + d4)%N as k. intros k.
    repeat (destruct (_ =? _)%N; [done|]). destruct (_ || _); [done|].
    destruct (N.leb_spec (k - 4) (N.of_nat (length rest))) as [Hle|]; [|done]. intros [= <- <-].
    rewrite (proj2 (N.leb_le _ _)) by (rewrite length_app; lia). rewrite take_app_le by lia. done.
  - intros p x. unfold pkt_decode. destruct p as [|c1 [|c2 [|c3 [|c4 rest]]]]; try done. cbn [app].
    destruct (hex_digit c1) as [d1|], (hex_digit c2) as [d2|], (hex_digit c3) as [d3|], (hex_digit c4) as [d4|]; try done.
    cbn [mbind option_bind]. cbv zeta. generalize (d1 * 4096 + d2 * 256 + d3 * 16 + d4)%N as k. intros k.
    repeat (destruct (_ =? _)%N; [done|]). destruct (_ || _); [done|]. by destruct (_ <=? _)%N.
Qed.

Lemma hex_roundtrip n : (n < 16)%N → hex_digit (digit_hex n) = Some n.
Proof.
  intros Hn. assert (H : forallb (λ n, bool_decide (hex_digit (digit_hex n) = Some n)) [0;1;2;3;4;5;6;7;8;9;10;11;12;13;14;15]%N = true) by (vm_compute; reflexivity).
  rewrite forallb_forall in H. specialize (H n). apply bool_decide_eq_true in H; [done|].
  repeat (destruct (N.eq_dec n 15) as [->|]; [by cbn; tauto|]).
  assert (n ∈ [0;1;2;3;4;5;6;7;8;9;10;11;12;13;14;15]%N) as Hin; [|by apply list_elem_of_In in Hin].
  rewrite !elem_of_cons, elem_of_nil. lia.
Qed.

Lemma hex_value n : (n = n / 4096 * 4096 + n / 256 mod 16 * 256 + n / 16 mod 16 * 16 + n mod 16)%N.
Proof.
  pose proof (N.div_mod n 16) as H1. pose proof (N.div_mod (n / 16) 16) as H2. pose proof (N.div_mod (n / 16 / 16) 16) as H3.
  rewrite !N.Div0.div_div in *. change (16 * 16)%N with 256%N in *. change (256 * 16)%N with 4096%N in *. lia.
Qed.

#[export] Instance pkt_encoder : PktEncoder pkt_decode pkt_encode (asc "0000").
Proof.
  split; [|done]. intros d x Hd. unfold pkt_encode. cbv zeta. set (n := (4 + N.of_nat (length d))%N).
  assert (Hn : (4 <= n <= 65520)%N) by lia. cbn [app pkt_decode].
  rewrite !hex_roundtrip by (try apply N.mod_lt; lia || (apply N.Div0.div_lt_upper_bound; lia)).
  cbn [mbind option_bind]. cbv zeta.
  replace (n / 4096 * 4096 + n / 256 mod 16 * 256 + n / 16 mod 16 * 16 + n mod 16)%N with n.
  - rewrite !(proj2 (N.eqb_neq n _)) by lia. rewrite (proj2 (N.leb_gt n 4)) by lia. rewrite (proj2 (N.ltb_ge 65520 n)) by lia.
    cbn [orb]. rewrite (proj2 (N.leb_le _ _)) by (rewrite length_app; lia).
    replace (N.to_nat (n - 4)) with (length d) by lia. by rewrite take_app_length.
  - apply hex_value.
Qed.

(** ** Example *)
Definition x_oid (c : ascii) : Bytes := replicate 40 c.
Definition x_refs : list AdvertisedRef :=
  [ {| adv_oid := x_oid "a"; adv_name := asc "HEAD" |};
    {| adv_oid := x_oid "a"; adv_name := asc "refs/heads/main" |};
    {| adv_oid := x_oid "b"; adv_name := asc "refs/tags/v1" |};
    {| adv_oid := x_oid "c"; adv_name := asc "refs/tags/v1^{}" |} ].
Definition x_caps : Bytes := NUL :: asc "multi_ack agent=git/2".
Definition x_tag : GitRef := {| gr_branch := None; gr_tag := Some (asc "v1"); gr_commit := None |}.
Definition x_bytes : Bytes := advertise pkt_encode (asc "0000") true x_caps x_refs.

Lemma x_refs_ok : Forall ref_ok x_refs.
Proof.
  repeat apply Forall_cons_2; [..|apply Forall_nil_2]; split; try (vm_compute; reflexivity); try split; try done.
  all: intros H; by (apply (bool_decide_pack _) in H; vm_compute in H).
Qed.

Lemma x_lines_short : Forall short (ref_lines x_caps x_refs).
Proof. repeat apply Forall_cons_2; [..|apply Forall_nil_2]; unfold short; vm_compute; split; done. Qed.

(** Read in pieces of 7 and of 60 bytes, the tag is its peeled commit. *)
Definition x_chunks : list Bytes := [take 7 x_bytes; take 60 (drop 7 x_bytes); drop 67 x_bytes].
Definition x_msgs : list ChannelMsg := [MStderr (asc "hi"); MData (take 7 x_bytes); MOther; MData (drop 7 x_bytes); MExitStatus 1].

Lemma x_chunks_bytes : concat x_chunks = x_bytes ++ [] ∧ channel_data x_msgs = concat x_chunks ∧ length (concat x_chunks) ≤ 1000.
Proof. split_and!; [vm_compute; reflexivity..|]. apply Nat.leb_le. vm_compute. reflexivity. Qed.

Lemma advertisement_answers_witness :
  ∃ found, http_read pkt_decode 1000 0 (matcher_new x_tag) (Some <$> x_chunks) = Some (inr found) ∧
           ssh_read pkt_decode 1000 (asc "/r") (matcher_new x_tag) x_msgs = Some (inr found) ∧
           commit_for_ref found x_tag = commit_for_ref x_refs x_tag ∧ (length found ≤ 2)%nat.
Proof.
  destruct x_chunks_bytes as (H1 & H2 & H3).
  apply (advertisement_answers pkt_decode pkt_encode (asc "0000") 1000 (asc "/r") x_tag true x_caps x_refs [] x_chunks x_msgs
           pkt_decoder pkt_encoder); [|exact x_refs_ok|exact x_lines_short|exact H1|exact H2|exact H3].
  right. by eexists.
Defined.

Lemma transports_agree_witness :
  is_Some (http_read pkt_decode 1000 0 (matcher_new x_tag) (Some <$> x_chunks)) ∧
  http_read pkt_decode 1000 0 (matcher_new x_tag) (Some <$> x_chunks) = http_read pkt_decode 1000 0 (matcher_new x_tag) (Some <$> [concat x_chunks; []]) ∧
  ∀ refs, ssh_read pkt_decode 1000 (asc "/r") (matcher_new x_tag) x_msgs = Some (inr refs) ↔
          http_read pkt_decode 1000 0 (matcher_new x_tag) (Some <$> x_chunks) = Some (inr refs).
Proof.
  destruct x_chunks_bytes as (H1 & H2 & H3).
  apply (transports_agree pkt_decode 1000 (asc "/r") x_tag x_chunks [concat x_chunks; []] x_msgs pkt_decoder); [|by rewrite H2|exact H3].
  vm_compute. reflexivity.
Defined.
