(* ===== verification/GitResolver.v ===== *)
(** * The ref resolver (rust/rivers-operator/src/codelocation/git/mod.rs, registry.rs)

    Resolves of many code locations over one cache: its answers, one fetch at a time for a
    key, the backoff of failing refs and the pauses of hosts. Instants and durations are
    nanoseconds; what a fetch returns, the hash of the credentials, the test of a tag and the
    url parser are parameters. A resolve is a task that waits only for the lock of the cache,
    the end of another's fetch or its own fetch, so its steps are those between waits. *)

From S2P Require Import Prelude GitRefs.

Inductive GitCredentials :=
| CAnonymous
| CBasic (username password : Bytes)
| CSsh (private_key_openssh known_hosts : Bytes).

Record GitResolveRequest := {
  rq_url : Bytes;
  rq_ref : GitRef;
  rq_credentials : GitCredentials;
  rq_cache_ttl : Z
}.

Record GitFailure := { gf_error : GitError; gf_retry_after : option Z }.

(** [Result<ResolvedRef, GitFailure>] *)
Definition Outcome : Type := GitFailure + ResolvedRef.

(** [GitFailure::from] *)
Definition failure_from (e : GitError) : GitFailure := {| gf_error := e; gf_retry_after := None |}.

Definition secs (n : Z) : Z := n * 1000000000.
Definition MAX_BACKOFF : Z := secs 300.
Definition MAX_RETRY_AFTER : Z := secs 3600.
Definition MAX_IDLE : Z := secs (24 * 3600).

Definition exponential_backoff (consecutive_errors : N) (cap : Z) : Z :=
  let shift := N.min (consecutive_errors - 1) 12 in
  Z.min (secs 60 * Z.of_N (2 ^ shift)) cap.

(** [saturating_add(1)] on a [u32] *)
Definition u32_saturating_incr (n : N) : N := N.min (n + 1) (2 ^ 32 - 1).

(** [saturating_duration_since] *)
Definition elapsed (now t : Z) : Z := Z.max 0 (now - t).

(** ** The cache *)
Record RefKey := { rk_url : Bytes; rk_ref : Bytes; rk_credentials : N }.

#[export] Instance RefKey_eq_dec : EqDecision RefKey.
Proof. solve_decision. Defined.

#[export] Instance RefKey_countable : Countable RefKey.
Proof.
  apply (inj_countable' (λ k, (rk_url k, rk_ref k, rk_credentials k)) (λ p, {| rk_url := p.1.1; rk_ref := p.1.2; rk_credentials := p.2 |})).
  by intros [].
Defined.

Inductive CacheEntry :=
| Resolved (resolved : ResolvedRef) (resolved_at : Z) (immutable : bool)
| Failing (error : GitError) (consecutive_errors : N) (next_attempt_after : Z).

Record CachedRef := { cr_entry : CacheEntry; cr_last_used : Z }.

Record HostPause := { hp_until : Z; hp_error : GitError }.

(** A fetch under way is known by the number of its channel. *)
Record Cache := {
  ch_refs : gmap RefKey CachedRef;
  ch_paused_hosts : gmap Bytes HostPause;
  ch_fetching : gmap RefKey nat
}.

Definition with_ref (key : RefKey) (r : CachedRef) (c : Cache) : Cache :=
  {| ch_refs := <[key := r]> (ch_refs c); ch_paused_hosts := ch_paused_hosts c; ch_fetching := ch_fetching c |}.

Definition with_fetching (f : gmap RefKey nat) (c : Cache) : Cache :=
  {| ch_refs := ch_refs c; ch_paused_hosts := ch_paused_hosts c; ch_fetching := f |}.

Definition with_pause (host : Bytes) (p : HostPause) (c : Cache) : Cache :=
  {| ch_refs := ch_refs c; ch_paused_hosts := <[host := p]> (ch_paused_hosts c); ch_fetching := ch_fetching c |}.

(** The answer of the ref's own entry. *)
Definition entry_answer (e : CacheEntry) (ttl now : Z) : option Outcome :=
  match e with
  | Resolved resolved resolved_at immutable => if immutable || (elapsed now resolved_at <? ttl)%Z then Some (inr resolved) else None
  | Failing error _ next => if (now <? next)%Z then Some (inl {| gf_error := error; gf_retry_after := Some (next - now)%Z |}) else None
  end.

Definition pause_answer (host : option Bytes) (now : Z) (c : Cache) : option Outcome :=
  h ← host; pause ← ch_paused_hosts c !! h;
  if (now <? hp_until pause)%Z then Some (inl {| gf_error := hp_error pause; gf_retry_after := Some (hp_until pause - now)%Z |}) else None.

Definition cache_answer (key : RefKey) (host : option Bytes) (ttl now : Z) (c : Cache) : option Outcome * Cache :=
  match ch_refs c !! key with
  | Some cached =>
      match entry_answer (cr_entry cached) ttl now with
      | Some o => (Some o, with_ref key {| cr_entry := cr_entry cached; cr_last_used := now |} c)
      | None => (pause_answer host now c, c)
      end
  | None => (pause_answer host now c, c)
  end.

Definition cache_insert (key : RefKey) (entry : CacheEntry) (now : Z) (c : Cache) : Cache :=
  {| ch_refs := <[key := {| cr_entry := entry; cr_last_used := now |}]>
       (filter (λ e, (elapsed now (cr_last_used e.2) < MAX_IDLE)%Z) (ch_refs c));
     ch_paused_hosts := filter (λ e, (now < hp_until e.2)%Z) (ch_paused_hosts c);
     ch_fetching := ch_fetching c |}.

Definition ref_cache_key (r : GitRef) : GitError + Bytes :=
  match non_empty (gr_branch r) with
  | Some branch => inr (asc "branch:" ++ branch)
  | None => match non_empty (gr_tag r) with Some tag => inr (asc "tag:" ++ tag) | None => inl Malformed end
  end.

(** ** Resolves *)
Inductive Flight := FOpen | FClosed | FSent (o : Outcome).

(** Where a resolve stands: before the lock, waiting for a fetch, fetching, ended, or dropped. *)
Inductive Task :=
| TAsk (req : GitResolveRequest) (now : Z)
| TWait (req : GitResolveRequest) (now : Z) (flight : nat)
| TFetch (req : GitResolveRequest) (now : Z) (flight : nat)
| TDone (req : GitResolveRequest) (now : Z) (o : Outcome)
| TGone.

(** With [rs_log]: the fetches that succeeded, each with the request it was made for and when
    its resolve began. *)
Record Resolver := {
  rs_cache : Cache;
  rs_flights : gmap nat Flight;
  rs_tasks : gmap nat Task;
  rs_log : list (GitResolveRequest * Z * ResolvedRef)
}.

Section resolver.
Context (url_parse : Bytes → option Url) (fingerprint : GitCredentials → N) (looks_immutable : Bytes → bool) (allow_insecure : bool).

Definition ref_key (req : GitResolveRequest) : GitError + RefKey :=
  match ref_cache_key (rq_ref req) with
  | inl e => inl e
  | inr r => inr {| rk_url := rq_url req; rk_ref := r; rk_credentials := fingerprint (rq_credentials req) |}
  end.

(** [resolve_at] up to the loop: an answer that needs no cache, or none. *)
Definition resolve_start (req : GitResolveRequest) : option Outcome :=
  match check_url url_parse (rq_url req) allow_insecure with
  | inl e => Some (inl (failure_from e))
  | inr _ =>
      if negb (validate_ref (rq_ref req)) then Some (inl (failure_from InvalidRef))
      else
        match non_empty (gr_commit (rq_ref req)) with
        | Some commit => Some (inr {| res_commit := commit; res_ref_name := None; res_fetched_at := None |})
        | None => match ref_key req with inl e => Some (inl (failure_from e)) | inr _ => None end
        end
  end.

(** One turn of the loop under the lock. *)
Definition resolve_ask (t : nat) (req : GitResolveRequest) (now : Z) (key : RefKey) (w : Resolver) : Resolver :=
  let '(answer, cache) := cache_answer key (host_of url_parse (rq_url req)) (rq_cache_ttl req) now (rs_cache w) in
  match answer with
  | Some o => {| rs_cache := cache; rs_flights := rs_flights w; rs_tasks := <[t := TDone req now o]> (rs_tasks w); rs_log := rs_log w |}
  | None =>
      match ch_fetching cache !! key ≫= (λ f, rs_flights w !! f ≫= λ st, match st with FOpen => Some f | _ => None end) with
      | Some f => {| rs_cache := cache; rs_flights := rs_flights w; rs_tasks := <[t := TWait req now f]> (rs_tasks w); rs_log := rs_log w |}
      | None =>
          let f := fresh (dom (rs_flights w)) in
          {| rs_cache := with_fetching (<[key := f]> (ch_fetching cache)) cache; rs_flights := <[f := FOpen]> (rs_flights w);
             rs_tasks := <[t := TFetch req now f]> (rs_tasks w); rs_log := rs_log w |}
      end
  end.

Definition is_immutable (req : GitResolveRequest) : bool :=
  match gr_tag (rq_ref req) with Some tag => looks_immutable tag | None => false end.

Definition errors_so_far (key : RefKey) (c : Cache) : N :=
  match cr_entry <$> ch_refs c !! key with Some (Failing _ n _) => u32_saturating_incr n | _ => 1%N end.

(** How long a failing ref waits. *)
Definition backoff (error : GitError) (consecutive_errors : N) : Z :=
  let wait := exponential_backoff consecutive_errors MAX_BACKOFF in
  match error with
  | RateLimited retry_after => Z.max wait (Z.min (default 0%Z retry_after) MAX_RETRY_AFTER)
  | _ => wait
  end.

(** A rate limit pauses the host, unless it is paused for longer. *)
Definition pause_host (error : GitError) (host : option Bytes) (until : Z) (c : Cache) : Cache :=
  match error, host with
  | RateLimited _, Some h =>
      if match ch_paused_hosts c !! h with Some p => (hp_until p <? until)%Z | None => true end
      then with_pause h {| hp_until := until; hp_error := error |} c else c
  | _, _ => c
  end.

(** The end of [resolve_at], under the lock again, with what the fetch returned. *)
Definition settle (req : GitResolveRequest) (now : Z) (key : RefKey) (fetch : GitError + ResolvedRef) (c : Cache) : Outcome * Cache :=
  let c := with_fetching (delete key (ch_fetching c)) c in
  match fetch with
  | inr resolved => (inr resolved, cache_insert key (Resolved resolved now (is_immutable req)) now c)
  | inl error =>
      if is_transient error then
        let n := errors_so_far key c in
        let wait := backoff error n in
        let c := pause_host error (host_of url_parse (rq_url req)) (now + wait) c in
        (inl {| gf_error := error; gf_retry_after := Some wait |}, cache_insert key (Failing error n (now + wait)) now c)
      else
        (inl (failure_from error),
         {| ch_refs := delete key (ch_refs c); ch_paused_hosts := ch_paused_hosts c; ch_fetching := ch_fetching c |})
  end.

Definition resolve_end (t : nat) (req : GitResolveRequest) (now : Z) (f : nat) (key : RefKey) (fetch : GitError + ResolvedRef) (w : Resolver) : Resolver :=
  let '(o, cache) := settle req now key fetch (rs_cache w) in
  {| rs_cache := cache; rs_flights := <[f := FSent o]> (rs_flights w); rs_tasks := <[t := TDone req now o]> (rs_tasks w);
     rs_log := match fetch with inr r => rs_log w ++ [(req, now, r)] | inl _ => rs_log w end |}.

Definition with_task (t : nat) (task : Task) (w : Resolver) : Resolver :=
  {| rs_cache := rs_cache w; rs_flights := rs_flights w; rs_tasks := <[t := task]> (rs_tasks w); rs_log := rs_log w |}.

(** A dropped future takes the sender of its fetch with it. *)
Definition close_flight (f : nat) (w : Resolver) : Resolver :=
  {| rs_cache := rs_cache w; rs_flights := <[f := FClosed]> (rs_flights w); rs_tasks := rs_tasks w; rs_log := rs_log w |}.

Inductive resolver_step (w : Resolver) : Resolver → Prop :=
| step_arrive t req now : rs_tasks w !! t = None →
    resolver_step w (with_task t (match resolve_start req with Some o => TDone req now o | None => TAsk req now end) w)
| step_ask t req now key : rs_tasks w !! t = Some (TAsk req now) → ref_key req = inr key →
    resolver_step w (resolve_ask t req now key w)
| step_wake t req now f o : rs_tasks w !! t = Some (TWait req now f) → rs_flights w !! f = Some (FSent o) →
    resolver_step w (with_task t (TDone req now o) w)
| step_retry t req now f : rs_tasks w !! t = Some (TWait req now f) → rs_flights w !! f = Some FClosed →
    resolver_step w (with_task t (TAsk req now) w)
| step_fetched t req now f key fetch : rs_tasks w !! t = Some (TFetch req now f) → ref_key req = inr key →
    resolver_step w (resolve_end t req now f key fetch w)
| step_drop_fetch t req now f : rs_tasks w !! t = Some (TFetch req now f) →
    resolver_step w (close_flight f (with_task t TGone w))
| step_drop t req now : (rs_tasks w !! t = Some (TAsk req now) ∨ ∃ f, rs_tasks w !! t = Some (TWait req now f)) →
    resolver_step w (with_task t TGone w).

Definition resolver_init : Resolver :=
  {| rs_cache := {| ch_refs := ∅; ch_paused_hosts := ∅; ch_fetching := ∅ |}; rs_flights := ∅; rs_tasks := ∅; rs_log := [] |}.
End resolver.
