(* ===== verification/GitResolverTheorems.v ===== *)
(** * One fetch at a time, and honest answers

    However resolves arrive, wait, end and are dropped: a ref is fetched by one resolve at a
    time, those that wait for it are woken, and a commit is only ever handed to requests for
    the url, ref and credentials it was fetched with. *)

From S2P Require Import Prelude GitRefs GitResolver.

Section resolver.
Context (url_parse : Bytes → option Url) (fingerprint : GitCredentials → N) (looks_immutable : Bytes → bool) (allow_insecure : bool).

(** The pattern of immutable tags does not match the empty one. *)
Hypothesis immutable_empty : looks_immutable [] = false.

#[local] Abbreviation step := (resolver_step url_parse fingerprint looks_immutable allow_insecure).
#[local] Abbreviation key_of := (ref_key fingerprint).

Definition fetching_by (w : Resolver) (t : nat) (req : GitResolveRequest) (f : nat) : Prop :=
  ∃ now, rs_tasks w !! t = Some (TFetch req now f).

Definition waiting_by (w : Resolver) (t : nat) (req : GitResolveRequest) (f : nat) : Prop :=
  ∃ now, rs_tasks w !! t = Some (TWait req now f).

(** A resolve that has not ended. *)
Definition asks (w : Resolver) (t : nat) (req : GitResolveRequest) : Prop :=
  (∃ now, rs_tasks w !! t = Some (TAsk req now)) ∨ (∃ f, waiting_by w t req f) ∨ (∃ f, fetching_by w t req f).

Definition logged (w : Resolver) (key : RefKey) (at_ : Z) (r : ResolvedRef) : Prop :=
  ∃ req, (req, at_, r) ∈ rs_log w ∧ key_of req = inr key.

Definition fetched (w : Resolver) (key : RefKey) (r : ResolvedRef) : Prop := ∃ at_, logged w key at_ r.

(** A tag the cache keeps for good. *)
Definition immutable_key (key : RefKey) : Prop := ∃ tag, tag ≠ [] ∧ rk_ref key = asc "tag:" ++ tag ∧ looks_immutable tag = true.

(** A request that has passed the checks before the loop, and pins no commit. *)
Definition startable (req : GitResolveRequest) : Prop :=
  validate_ref (rq_ref req) = true ∧ non_empty (gr_commit (rq_ref req)) = None ∧ ∃ key, key_of req = inr key.

Record resolver_ok (w : Resolver) : Prop := {
  ro_key t req : asks w t req → startable req;
  ro_fetch t req f key : fetching_by w t req f → key_of req = inr key → rs_flights w !! f = Some FOpen ∧ ch_fetching (rs_cache w) !! key = Some f;
  ro_owner t1 t2 r1 r2 f : fetching_by w t1 r1 f → fetching_by w t2 r2 f → t1 = t2;
  ro_open f : rs_flights w !! f = Some FOpen → ∃ t req, fetching_by w t req f;
  ro_known key f : ch_fetching (rs_cache w) !! key = Some f → is_Some (rs_flights w !! f);
  ro_inj k1 k2 f : ch_fetching (rs_cache w) !! k1 = Some f → ch_fetching (rs_cache w) !! k2 = Some f → k1 = k2;
  ro_wait t req f key : waiting_by w t req f → key_of req = inr key →
    (rs_flights w !! f = Some FOpen ∧ ch_fetching (rs_cache w) !! key = Some f) ∨ rs_flights w !! f = Some FClosed ∨
    (∃ o, rs_flights w !! f = Some (FSent o) ∧ ∀ r, o = inr r → fetched w key r);
  ro_entry key r at_ imm used : ch_refs (rs_cache w) !! key = Some {| cr_entry := Resolved r at_ imm; cr_last_used := used |} →
    logged w key at_ r ∧ (imm = true → immutable_key key)
}.

(** A fetching task holds an open flight. *)
Lemma ro_key_flight w :
  (∀ t req f key, fetching_by w t req f → key_of req = inr key → rs_flights w !! f = Some FOpen ∧ ch_fetching (rs_cache w) !! key = Some f) →
  (∀ t req, asks w t req → startable req) →
  ∀ t req f, fetching_by w t req f → rs_flights w !! f = Some FOpen ∧ ∃ key, key_of req = inr key ∧ ch_fetching (rs_cache w) !! key = Some f.
Proof.
  intros H2 H1 t req f Hf. destruct (H1 t req) as (_ & _ & key & Hk); [right; right; by exists f|].
  destruct (H2 _ _ _ _ Hf Hk). split; [done|]. by exists key.
Qed.

(** ** The cache's own operations *)
Lemma answer_keeps key host ttl now c o c' :
  cache_answer key host ttl now c = (o, c') → ch_fetching c' = ch_fetching c ∧
  ∀ k, cr_entry <$> ch_refs c' !! k = cr_entry <$> ch_refs c !! k.
Proof.
  unfold cache_answer. destruct (ch_refs c !! key) as [cached|] eqn:E; [|by intros [= _ <-]].
  destruct (entry_answer _ _ _); [|by intros [= _ <-]]. intros [= _ <-]. split; [done|]. intros k. cbn.
  destruct (decide (key = k)) as [->|]; [by rewrite lookup_insert_eq, E|by rewrite lookup_insert_ne].
Qed.

Lemma answer_ok key host ttl now c r c' :
  cache_answer key host ttl now c = (Some (inr r), c') →
  ∃ at_ imm used, ch_refs c !! key = Some {| cr_entry := Resolved r at_ imm; cr_last_used := used |} ∧ (imm = true ∨ (elapsed now at_ < ttl)%Z).
Proof.
  assert (Hp : pause_answer host now c = Some (inr r) → False).
  { unfold pause_answer. destruct host as [h|]; [|done]. cbn. destruct (ch_paused_hosts c !! h); [|done]. cbn. by destruct (_ <? _)%Z. }
  unfold cache_answer. destruct (ch_refs c !! key) as [[e used]|]; [|by intros [= ?%Hp]]. cbn [cr_entry].
  destruct (entry_answer e ttl now) as [o|] eqn:E; [|by intros [= ?%Hp]]. intros [= -> _].
  destruct e as [r' at_ imm|]; cbn in E; [|by destruct (_ <? _)%Z].
  destruct (imm || _) eqn:Ei; [|done]. injection E as ->. exists at_, imm, used. split; [done|].
  apply orb_true_iff in Ei as [?|?%Z.ltb_lt]; auto.
Qed.

Lemma insert_lookup key entry now c k v : ch_refs (cache_insert key entry now c) !! k = Some v →
  (k = key ∧ cr_entry v = entry) ∨ (k ≠ key ∧ ch_refs c !! k = Some v).
Proof.
  cbn. destruct (decide (key = k)) as [->|Hne]; [rewrite lookup_insert_eq; intros [= <-]; by left|].
  rewrite lookup_insert_ne by done. rewrite map_lookup_filter_Some. intros [? _]. by right.
Qed.

Lemma pause_host_keeps e host until c : ch_refs (pause_host e host until c) = ch_refs c ∧ ch_fetching (pause_host e host until c) = ch_fetching c.
Proof. unfold pause_host. destruct e, host; try done. by destruct (match ch_paused_hosts c !! _ with Some _ => _ | None => _ end). Qed.

Lemma immutable_of req key : startable req → key_of req = inr key → is_immutable looks_immutable req = true → immutable_key key.
Proof.
  intros (Hv & Hc & _) Hk Hi. unfold validate_ref, set_fields in Hv. apply andb_true_iff in Hv as [Hv%Nat.eqb_eq _].
  unfold ref_key, ref_cache_key in Hk. unfold is_immutable in Hi. destruct (gr_tag (rq_ref req)) as [[|x tag]|]; [congruence| |done].
  cbn [omap list_omap] in Hv. rewrite Hc in Hv. destruct (non_empty (gr_branch (rq_ref req))); cbn in Hv; [done|].
  cbn in Hk. injection Hk as <-. by exists (x :: tag).
Qed.

Lemma settle_spec req now key fetch c o c' :
  settle url_parse looks_immutable req now key fetch c = (o, c') →
  ch_fetching c' = delete key (ch_fetching c) ∧ (∀ r, o = inr r ↔ fetch = inr r) ∧
  ∀ k v, ch_refs c' !! k = Some v → (k ≠ key ∧ ch_refs c !! k = Some v) ∨
    (k = key ∧ ∀ r at_ imm, cr_entry v = Resolved r at_ imm → fetch = inr r ∧ at_ = now ∧ imm = is_immutable looks_immutable req).
Proof.
  unfold settle. cbv zeta. destruct fetch as [e|r].
  - destruct (is_transient e).
    + intros [= <- <-]. set (c1 := with_fetching _ c). set (until := (now + _)%Z).
      destruct (pause_host_keeps e (host_of url_parse (rq_url req)) until c1) as [E1 E2].
      split_and!; [cbn; by rewrite E2|done|]. intros k v [[-> Hv]|[Hne Hv]]%insert_lookup; [right; split; [done|]; by rewrite Hv|].
      rewrite E1 in Hv. by left.
    + intros [= <- <-]. split_and!; [done|done|]. intros k v. cbn. rewrite lookup_delete_Some. intros [? ?]. by left.
  - intros [= <- <-]. split_and!; [done|by intros r'; split; intros [= ->]|].
    intros k v [[-> Hv]|[Hne Hv]]%insert_lookup; [right; split; [done|]|by left]. rewrite Hv. by intros r' at_ imm [= -> -> ->].
Qed.

(** ** Steps keep the invariant *)
Lemma resolve_start_none req : resolve_start url_parse fingerprint allow_insecure req = None → startable req.
Proof.
  unfold resolve_start. destruct (check_url _ _ _); [done|]. destruct (validate_ref (rq_ref req)) eqn:Ev; [|done]. cbn [negb].
  destruct (non_empty (gr_commit _)) eqn:Ec; [done|]. destruct (key_of req) as [|key] eqn:Ek; [done|]. intros _. split_and!; eauto.
Qed.

(** What a task that is neither waiting nor fetching asks for. *)
Definition plain (task : Task) : Prop :=
  match task with TAsk req _ => startable req | TDone _ _ _ | TGone => True | _ => False end.

Lemma with_task_ok t task w :
  plain task → (∀ req f, ¬ fetching_by w t req f) → resolver_ok w → resolver_ok (with_task t task w).
Proof.
  intros Hp Hnf [H1 H2 H3 H4 H5 Hinj H6 H7].
  assert (Hf : ∀ t' req f, fetching_by (with_task t task w) t' req f ↔ fetching_by w t' req f).
  { intros t' req f. unfold fetching_by. cbn. destruct (decide (t = t')) as [<-|]; [|by setoid_rewrite lookup_insert_ne].
    rewrite lookup_insert_eq. split; [intros [? [= ->]]; done|]. by intros H%Hnf. }
  assert (Hw : ∀ t' req f, waiting_by (with_task t task w) t' req f → waiting_by w t' req f).
  { intros t' req f [now H]. cbn in H. destruct (decide (t = t')) as [<-|]; [|rewrite lookup_insert_ne in H by done; by exists now].
    rewrite lookup_insert_eq in H. by injection H as ->. }
  split.
  - intros t' req [[now H]|[[f H]|[f H]]]; [|apply (H1 t'); right; left; by eauto|apply (H1 t'); right; right; exists f; by apply Hf].
    cbn in H. destruct (decide (t = t')) as [<-|]; [rewrite lookup_insert_eq in H; by injection H as ->|].
    rewrite lookup_insert_ne in H by done. apply (H1 t'). left. by exists now.
  - intros t' req f key Hx%Hf. by apply (H2 t').
  - intros t1 t2 r1 r2 f Hx%Hf Hy%Hf. by eapply H3.
  - intros f (t' & req & Hx)%H4. exists t', req. by apply Hf.
  - exact H5.
  - exact Hinj.
  - intros t' req f key Hx%Hw. by apply (H6 t').
  - exact H7.
Qed.

(** The invariant reads the cache only through the fetches under way and the entries. *)
Lemma with_cache_ok c w :
  ch_fetching c = ch_fetching (rs_cache w) → (∀ k, cr_entry <$> ch_refs c !! k = cr_entry <$> ch_refs (rs_cache w) !! k) → resolver_ok w →
  resolver_ok {| rs_cache := c; rs_flights := rs_flights w; rs_tasks := rs_tasks w; rs_log := rs_log w |}.
Proof.
  intros Ef Ee [H1 H2 H3 H4 H5 Hinj H6 H7]. split; cbn; rewrite ?Ef; try done.
  intros key r at_ imm used H. specialize (Ee key). rewrite H in Ee. cbn in Ee.
  destruct (ch_refs (rs_cache w) !! key) as [[e used']|] eqn:E; [|done]. cbn in Ee. injection Ee as <-. by apply (H7 _ _ _ _ used').
Qed.

Lemma ask_not_fetching w t req now : rs_tasks w !! t = Some (TAsk req now) → ∀ r f, ¬ fetching_by w t r f.
Proof. intros H r f [? H']. congruence. Qed.

Lemma fresh_flight w : rs_flights w !! fresh (dom (rs_flights w)) = None.
Proof. apply not_elem_of_dom, is_fresh. Qed.

Lemma wait_ok t req now f key w :
  startable req → key_of req = inr key → (∀ r f, ¬ fetching_by w t r f) →
  rs_flights w !! f = Some FOpen → ch_fetching (rs_cache w) !! key = Some f →
  resolver_ok w → resolver_ok (with_task t (TWait req now f) w).
Proof.
  intros Hs Hk Hnf Hfl Hfe [H1 H2 H3 H4 H5 Hinj H6 H7].
  assert (Hf : ∀ t' req' f', fetching_by (with_task t (TWait req now f) w) t' req' f' ↔ fetching_by w t' req' f').
  { intros t' req' f'. unfold fetching_by. cbn. destruct (decide (t = t')) as [<-|]; [|by setoid_rewrite lookup_insert_ne].
    rewrite lookup_insert_eq. split; [by intros [? [= ]]|]. by intros H%Hnf. }
  assert (Hw : ∀ t' req' f', waiting_by (with_task t (TWait req now f) w) t' req' f' → (req' = req ∧ f' = f) ∨ waiting_by w t' req' f').
  { intros t' req' f' [now' H]. cbn in H. destruct (decide (t = t')) as [<-|]; [rewrite lookup_insert_eq in H; injection H as -> -> ->; by left|].
    rewrite lookup_insert_ne in H by done. right. by exists now'. }
  split.
  - intros t' req' [[now' H]|[[f' [[-> ->]|H]%Hw]|[f' H%Hf]]]; [|done|apply (H1 t'); right; left; by eauto|apply (H1 t'); right; right; by eauto].
    cbn in H. destruct (decide (t = t')) as [<-|]; [by rewrite lookup_insert_eq in H|].
    rewrite lookup_insert_ne in H by done. apply (H1 t'). left. by exists now'.
  - intros t' req' f' key' Hx%Hf. by apply (H2 t').
  - intros t1 t2 r1 r2 f' Hx%Hf Hy%Hf. by eapply H3.
  - intros f' (t' & req' & Hx)%H4. exists t', req'. by apply Hf.
  - exact H5.
  - exact Hinj.
  - intros t' req' f' key' [[-> ->]|Hx]%Hw Hk'; [|by apply (H6 t' req')]. rewrite Hk in Hk'. injection Hk' as <-. by left.
  - exact H7.
Qed.

Lemma start_ok t req now key w :
  rs_tasks w !! t = Some (TAsk req now) → key_of req = inr key →
  (∀ f, ch_fetching (rs_cache w) !! key = Some f → rs_flights w !! f ≠ Some FOpen) →
  resolver_ok w →
  let f := fresh (dom (rs_flights w)) in
  resolver_ok {| rs_cache := with_fetching (<[key := f]> (ch_fetching (rs_cache w))) (rs_cache w); rs_flights := <[f := FOpen]> (rs_flights w);
                 rs_tasks := <[t := TFetch req now f]> (rs_tasks w); rs_log := rs_log w |}.
Proof.
  intros Ht Hk Hno [H1 H2 H3 H4 H5 Hinj H6 H7]. cbv zeta. pose proof (fresh_flight w) as Hfr. set (f := fresh _) in *.
  set (w' := {| rs_cache := _ |}).
  assert (Hne : ∀ f', is_Some (rs_flights w !! f') → f' ≠ f) by (intros f' [? E] ->; congruence).
  assert (Hf : ∀ t' req' f', fetching_by w' t' req' f' → (t' = t ∧ req' = req ∧ f' = f) ∨ (t' ≠ t ∧ fetching_by w t' req' f')).
  { intros t' req' f' [now' H]. cbn in H. destruct (decide (t = t')) as [<-|]; [rewrite lookup_insert_eq in H; injection H as -> -> ->; by left|].
    rewrite lookup_insert_ne in H by done. right. split; [done|]. by exists now'. }
  assert (Hf2 : ∀ t' req' f', fetching_by w t' req' f' → fetching_by w' t' req' f').
  { intros t' req' f' [now' H]. exists now'. cbn. rewrite lookup_insert_ne; [done|]. intros ->. congruence. }
  assert (Hw : ∀ t' req' f', waiting_by w' t' req' f' → waiting_by w t' req' f').
  { intros t' req' f' [now' H]. cbn in H. destruct (decide (t = t')) as [<-|]; [by rewrite lookup_insert_eq in H|].
    rewrite lookup_insert_ne in H by done. by exists now'. }
  split.
  - intros t' req' [[now' H]|[[f' H%Hw]|[f' [(-> & -> & ->)|[_ H]]%Hf]]].
    + cbn in H. destruct (decide (t = t')) as [<-|]; [by rewrite lookup_insert_eq in H|]. rewrite lookup_insert_ne in H by done.
      apply (H1 t'). left. by exists now'.
    + apply (H1 t'). right. left. by exists f'.
    + apply (H1 t). left. by exists now.
    + apply (H1 t'). right. right. by exists f'.
  - intros t' req' f' key' [(-> & -> & ->)|[_ H]]%Hf Hk'.
    + rewrite Hk in Hk'. injection Hk' as <-. cbn. by rewrite !lookup_insert_eq.
    + destruct (H2 _ _ _ _ H Hk') as [Ho Hfe]. cbn. rewrite lookup_insert_ne by (symmetry; by apply Hne; rewrite Ho).
      split; [done|]. rewrite lookup_insert_ne; [done|]. intros ->. by apply (Hno f').
  - intros t1 t2 r1 r2 f' [(-> & -> & ->)|[Hn1 Hx]]%Hf [(-> & _ & E)|[Hn2 Hy]]%Hf; [done| | |by eapply H3].
    + destruct (ro_key_flight w H2 H1 _ _ _ Hy) as [E _]. by destruct (Hne f); rewrite ?E.
    + subst f'. destruct (ro_key_flight w H2 H1 _ _ _ Hx) as [E' _]. by destruct (Hne f); rewrite ?E'.
  - intros f'. cbn. destruct (decide (f = f')) as [<-|]; [intros _; exists t, req, now; cbn; by rewrite lookup_insert_eq|].
    rewrite lookup_insert_ne by done. intros (t' & req' & Hx)%H4. exists t', req'. by apply Hf2.
  - intros k f'. cbn. intros H. destruct (decide (f = f')) as [<-|]; [by rewrite lookup_insert_eq|]. rewrite lookup_insert_ne by done.
    destruct (decide (key = k)) as [<-|]; [by rewrite lookup_insert_eq in H; injection H|]. rewrite lookup_insert_ne in H by done. by apply (H5 k).
  - intros k1 k2 f'. cbn. rewrite !lookup_insert_Some. intros [[<- <-]|[N1 E1]] [[<- E]|[N2 E2]]; [done| | |by eapply Hinj].
    + destruct (Hne f); [by apply (H5 k2)|done].
    + subst f'. destruct (Hne f); [by apply (H5 k1)|done].
  - intros t' req' f' key' Hx%Hw Hk'. destruct (H6 _ _ _ _ Hx Hk') as [[Ho Hfe]|[Hc|(o & Hs & Hr)]].
    + left. cbn. rewrite lookup_insert_ne by (symmetry; by apply Hne; rewrite Ho). split; [done|].
      rewrite lookup_insert_ne; [done|]. intros ->. by apply (Hno f').
    + right. left. cbn. rewrite lookup_insert_ne; [done|]. symmetry. by apply Hne; rewrite Hc.
    + right. right. exists o. cbn. rewrite lookup_insert_ne; [done|]. symmetry. by apply Hne; rewrite Hs.
  - exact H7.
Qed.

(** The resolve that fetches leaves its flight, for what becomes of it. *)
Lemma leave_frame w t req now f w' task :
  resolver_ok w → rs_tasks w !! t = Some (TFetch req now f) → plain task → rs_tasks w' = <[t := task]> (rs_tasks w) →
  (∀ t' req', asks w' t' req' → startable req') ∧
  (∀ t' req' f', fetching_by w' t' req' f' ↔ t' ≠ t ∧ fetching_by w t' req' f') ∧
  (∀ t' req' f', fetching_by w t' req' f' → t' ≠ t → f' ≠ f) ∧
  (∀ t' req' f', waiting_by w' t' req' f' → waiting_by w t' req' f').
Proof.
  intros [H1 H2 H3 H4 H5 Hinj H6 H7] Ht Hp Et.
  assert (Hf : ∀ t' req' f', fetching_by w' t' req' f' ↔ t' ≠ t ∧ fetching_by w t' req' f').
  { intros t' req' f'. unfold fetching_by. rewrite Et. destruct (decide (t = t')) as [<-|].
    - rewrite lookup_insert_eq. split; [intros [? [= ->]]; done|by intros []].
    - setoid_rewrite lookup_insert_ne; [|done]. naive_solver. }
  assert (Hw : ∀ t' req' f', waiting_by w' t' req' f' → waiting_by w t' req' f').
  { intros t' req' f' [now' H]. rewrite Et in H. destruct (decide (t = t')) as [<-|]; [rewrite lookup_insert_eq in H; by injection H as ->|].
    rewrite lookup_insert_ne in H by done. by exists now'. }
  split_and!; [|done| |done].
  - intros t' req' [[now' H]|[[f' H%Hw]|[f' [_ H]%Hf]]].
    + rewrite Et in H. destruct (decide (t = t')) as [<-|]; [rewrite lookup_insert_eq in H; by injection H as ->|].
      rewrite lookup_insert_ne in H by done. apply (H1 t'). left. by exists now'.
    + apply (H1 t'). right. left. by exists f'.
    + apply (H1 t'). right. right. by exists f'.
  - intros t' req' f' Hx Hne ->. apply Hne. eapply H3; [done|]. by exists now.
Qed.

Lemma drop_fetch_ok t req now f w :
  rs_tasks w !! t = Some (TFetch req now f) → resolver_ok w → resolver_ok (close_flight f (with_task t TGone w)).
Proof.
  intros Ht Hok. destruct (leave_frame w t req now f (close_flight f (with_task t TGone w)) TGone Hok Ht I eq_refl) as (F1 & F2 & F3 & F4).
  destruct Hok as [H1 H2 H3 H4 H5 Hinj H6 H7]. split.
  - exact F1.
  - intros t' req' f' key [Hn Hx]%F2 Hk. destruct (H2 _ _ _ _ Hx Hk). cbn. rewrite lookup_insert_ne; [done|]. by apply not_eq_sym, (F3 t' req').
  - intros t1 t2 r1 r2 f' [_ Hx]%F2 [_ Hy]%F2. by eapply H3.
  - intros f'. cbn. rewrite lookup_insert_Some. intros [[_ [=]]|[Hne (t' & req' & Hx)%H4]]. exists t', req'. apply F2. split; [|done].
    intros ->. apply Hne. destruct Hx as [? Hx]. congruence.
  - intros k f' Hk. cbn. destruct (decide (f = f')) as [<-|]; [by rewrite lookup_insert_eq|]. rewrite lookup_insert_ne by done. by apply (H5 k).
  - exact Hinj.
  - intros t' req' f' key Hx%F4 Hk. cbn. destruct (decide (f = f')) as [<-|]; [right; left; by rewrite lookup_insert_eq|].
    rewrite lookup_insert_ne by done. by apply (H6 t' req').
  - exact H7.
Qed.

Lemma end_ok t req now f key fetch w :
  rs_tasks w !! t = Some (TFetch req now f) → key_of req = inr key → resolver_ok w →
  resolver_ok (resolve_end url_parse looks_immutable t req now f key fetch w).
Proof.
  intros Ht Hk Hok. unfold resolve_end. destruct (settle _ _ _ _ _ _ _) as [o c'] eqn:Es. set (w' := {| rs_cache := c' |}).
  destruct (settle_spec _ _ _ _ _ _ _ Es) as (Ef & Eo & Ee).
  destruct (leave_frame w t req now f w' (TDone req now o) Hok Ht I eq_refl) as (F1 & F2 & F3 & F4).
  assert (Hst : startable req) by (apply (ro_key w Hok t); right; right; exists f; by exists now).
  destruct Hok as [H1 H2 H3 H4 H5 Hinj H6 H7]. destruct (H2 t req f key) as [Hopen Hfe]; [by exists now|done|].
  assert (Hlog : ∀ x, x ∈ rs_log w → x ∈ rs_log w') by (intros x Hx; cbn; destruct fetch; [done|apply elem_of_app; by left]).
  assert (Hlg : ∀ k at_ x, logged w k at_ x → logged w' k at_ x) by (intros k at_ x (q & Hq & Hkq); exists q; split; [by apply Hlog|done]).
  assert (Hmine : ∀ x, fetch = inr x → logged w' key now x) by (intros x ->; exists req; split; [cbn; apply elem_of_app; right; left|done]).
  assert (Hnk : ∀ k f', ch_fetching (rs_cache w) !! k = Some f' → f' ≠ f → k ≠ key) by (intros k f' E Hne ->; congruence).
  split.
  - exact F1.
  - intros t' req' f' key' [Hn Hx]%F2 Hk'. destruct (H2 _ _ _ _ Hx Hk') as [E1 E2]. pose proof (F3 _ _ _ Hx Hn) as Hne. cbn.
    rewrite lookup_insert_ne by done. split; [done|]. rewrite Ef, lookup_delete_ne; [done|]. by apply not_eq_sym, (Hnk _ f').
  - intros t1 t2 r1 r2 f' [_ Hx]%F2 [_ Hy]%F2. by eapply H3.
  - intros f'. cbn. rewrite lookup_insert_Some. intros [[_ [=]]|[Hne (t' & req' & Hx)%H4]]. exists t', req'. apply F2. split; [|done].
    intros ->. apply Hne. destruct Hx as [? Hx]. congruence.
  - intros k f'. cbn. rewrite Ef, lookup_delete_Some. intros [Hne E]. destruct (decide (f = f')) as [<-|]; [by rewrite lookup_insert_eq|].
    rewrite lookup_insert_ne by done. by apply (H5 k).
  - intros k1 k2 f'. cbn. rewrite Ef, !lookup_delete_Some. intros [_ E1] [_ E2]. by eapply Hinj.
  - intros t' req' f' key' Hx%F4 Hk'. destruct (H6 _ _ _ _ Hx Hk') as [[E1 E2]|[E|(o' & E & Hr)]]; cbn.
    + destruct (decide (f = f')) as [<-|Hne].
      * right. right. exists o. rewrite lookup_insert_eq. split; [done|]. intros r Hr%Eo. assert (key' = key) as -> by (by eapply Hinj).
        exists now. by apply Hmine.
      * left. rewrite lookup_insert_ne by done. split; [done|]. rewrite Ef, lookup_delete_ne; [done|]. apply not_eq_sym. by eapply Hnk; [|done].
    + right. left. rewrite lookup_insert_ne; [done|]. intros ->. congruence.
    + right. right. exists o'. rewrite lookup_insert_ne by (intros ->; congruence). split; [done|]. intros r [at_ Hl]%Hr. exists at_. by apply Hlg.
  - intros k r at_ imm used H. cbn in H. destruct (Ee _ _ H) as [[Hne Hv]|[-> Hv]].
    + destruct (H7 _ _ _ _ _ Hv) as [Hl Hi]. split; [by apply Hlg|done].
    + destruct (Hv r at_ imm eq_refl) as (Hr & -> & ->). split; [by apply Hmine|].
      by apply immutable_of.
Qed.

Lemma step_ok w w' : step w w' → resolver_ok w → resolver_ok w'.
Proof.
  intros Hs Hok. destruct Hs as [t req now Ht|t req now key Ht Hk|t req now f o Ht Hf|t req now f Ht Hf|t req now f key fetch Ht Hk|t req now f Ht|t req now Ht].
  - apply with_task_ok; [|by intros r f [? E]; congruence|done].
    destruct (resolve_start _ _ _ req) eqn:E; [done|]. by apply resolve_start_none.
  - pose proof (ask_not_fetching w t req now Ht) as Hnf.
    assert (Hst : startable req) by (apply (ro_key w Hok t); left; by exists now).
    unfold resolve_ask. destruct (cache_answer _ _ _ _ _) as [o c] eqn:Ea. destruct (answer_keeps _ _ _ _ _ _ _ Ea) as [Ef Ee].
    pose proof (with_cache_ok c w Ef Ee Hok) as Hok'. set (w1 := {| rs_cache := c |}) in Hok'.
    destruct o as [o|]; [by apply (with_task_ok t (TDone req now o) w1)|].
    destruct (ch_fetching c !! key ≫= _) as [f|] eqn:E.
    + destruct (ch_fetching c !! key) as [f'|] eqn:E1; [|done]. cbn in E. destruct (rs_flights w !! f') as [[]|] eqn:E2; try done.
      injection E as ->. by apply (wait_ok t req now f key w1).
    + apply (start_ok t req now key w1); [done|done| |done]. intros f E1 E2. cbn in E1, E2. by rewrite E1 in E; cbn in E; rewrite E2 in E.
  - apply with_task_ok; [done|by intros r f' [? E]; congruence|done].
  - apply with_task_ok; [|by intros r f' [? E]; congruence|done]. apply (ro_key w Hok t). right. left. exists f. by exists now.
  - by apply end_ok.
  - by eapply drop_fetch_ok.
  - apply with_task_ok; [done| |done]. intros r f' [? E]. destruct Ht as [?|[? ?]]; congruence.
Qed.

Lemma init_ok : resolver_ok resolver_init.
Proof.
  split; cbn.
  - intros t req [[? H]|[[? [? H]]|[? [? H]]]]; cbn in H; by rewrite lookup_empty in H.
  - intros t req f key [? H]. cbn in H; by rewrite lookup_empty in H.
  - intros t1 t2 r1 r2 f [? H]. cbn in H; by rewrite lookup_empty in H.
  - intros f H. cbn in H; by rewrite lookup_empty in H.
  - intros key f H. cbn in H; by rewrite lookup_empty in H.
  - intros k1 k2 f H. cbn in H; by rewrite lookup_empty in H.
  - intros t req f key [? H]. cbn in H; by rewrite lookup_empty in H.
  - intros key r at_ imm used H. cbn in H; by rewrite lookup_empty in H.
Qed.

Lemma reachable_ok w : rtc step resolver_init w → resolver_ok w.
Proof.
  intros H. assert (Hgo : ∀ w0, rtc step w0 w → resolver_ok w0 → resolver_ok w); [|by apply (Hgo resolver_init), init_ok].
  clear H. intros w0 H. induction H as [|x y z Hxy _ IH]; [done|]. intros Hx. by eapply IH, step_ok.
Qed.

(** ** Backoff *)
Lemma backoff_bounds e n : (secs 60 <= backoff e n <= MAX_RETRY_AFTER)%Z.
Proof.
  assert (Hb : (secs 60 <= exponential_backoff n MAX_BACKOFF <= secs 300)%Z).
  { unfold exponential_backoff, MAX_BACKOFF. cbv zeta. set (k := N.min _ _). assert (H1 : (1 <= 2 ^ k)%N) by (pose proof (N.pow_nonzero 2 k); lia).
    unfold secs. nia. }
  unfold backoff, MAX_RETRY_AFTER in *. cbv zeta. unfold secs in *. destruct e; lia.
Qed.

(** The instants of the resolves that have not ended. *)
Definition in_window (lo hi : Z) (w : Resolver) : Prop := ∀ t req now,
  (rs_tasks w !! t = Some (TAsk req now) ∨ (∃ f, rs_tasks w !! t = Some (TWait req now f)) ∨ (∃ f, rs_tasks w !! t = Some (TFetch req now f))) →
  (lo <= now < hi)%Z.

Record backing_off (key : RefKey) (e : GitError) (n : N) (lo next : Z) (w : Resolver) : Prop := {
  bo_entry : ∃ used, ch_refs (rs_cache w) !! key = Some {| cr_entry := Failing e n next; cr_last_used := used |} ∧ (lo <= used)%Z;
  bo_quiet t req f : fetching_by w t req f → key_of req ≠ inr key
}.

Lemma task_quiet key w t task :
  (∀ t req f, fetching_by w t req f → key_of req ≠ inr key) → (∀ req now f, task = TFetch req now f → key_of req ≠ inr key) →
  ∀ t' req f, (∃ now, <[t := task]> (rs_tasks w) !! t' = Some (TFetch req now f)) → key_of req ≠ inr key.
Proof.
  intros H Ht t' req f [now E]. apply lookup_insert_Some in E as [[_ E]|[_ E]]; [by eapply Ht|]. eapply H. by exists now.
Qed.

Lemma settle_other req now key' fetch c o c' key v :
  settle url_parse looks_immutable req now key' fetch c = (o, c') → key ≠ key' →
  ch_refs c !! key = Some v → (elapsed now (cr_last_used v) < MAX_IDLE)%Z → ch_refs c' !! key = Some v.
Proof.
  unfold settle. cbv zeta. intros H Hne Hv Hi.
  assert (Hins : ∀ e c1, ch_refs c1 = ch_refs c → ch_refs (cache_insert key' e now c1) !! key = Some v).
  { intros e c1 E. cbn. rewrite lookup_insert_ne by done. rewrite E. by apply map_lookup_filter_Some. }
  destruct fetch as [e|r]; [destruct (is_transient e)|]; injection H as <- <-.
  - apply Hins. by rewrite (proj1 (pause_host_keeps _ _ _ _)).
  - cbn. by rewrite lookup_delete_ne.
  - by apply Hins.
Qed.

Lemma backing_off_step key e n lo next w w' :
  (next - MAX_IDLE <= lo)%Z → in_window lo next w → step w w' → backing_off key e n lo next w → backing_off key e n lo next w'.
Proof.
  intros Hlo Hwin Hs [(used & He & Hu) Hq].
  destruct Hs as [t req now Ht|t req now key' Ht Hk|t req now f o Ht Hf|t req now f Ht Hf|t req now f key' fetch Ht Hk|t req now f Ht|t req now Ht].
  - split; [by exists used|]. apply (task_quiet key w t); [done|]. intros r i f. by destruct (resolve_start _ _ _ req).
  - unfold resolve_ask. destruct (cache_answer _ _ _ _ _) as [o c] eqn:Ea. pose proof (Hwin t req now ltac:(by left)) as Hnow.
    destruct (decide (key' = key)) as [->|Hne].
    + unfold cache_answer in Ea. rewrite He in Ea. cbn [cr_entry entry_answer] in Ea. rewrite (proj2 (Z.ltb_lt _ _)) in Ea by lia.
      injection Ea as <- <-. split; [cbn; exists now; rewrite lookup_insert_eq; split; [done|lia]|]. by apply (task_quiet key w t).
    + assert (Hc : ch_refs c !! key = Some {| cr_entry := Failing e n next; cr_last_used := used |}).
      { revert Ea. unfold cache_answer. destruct (ch_refs (rs_cache w) !! key'); [|by intros [= _ <-]].
        destruct (entry_answer _ _ _); intros [= _ <-]; [|done]. cbn. by rewrite lookup_insert_ne. }
      destruct o as [o|]; [split; [by exists used|]; by apply (task_quiet key w t)|].
      destruct (ch_fetching c !! key' ≫= _) as [f|]; (split; [by exists used|]); apply (task_quiet key w t); try done.
      intros r i f [= <- <- <-]. congruence.
  - split; [by exists used|]. by apply (task_quiet key w t).
  - split; [by exists used|]. by apply (task_quiet key w t).
  - assert (Hne : key ≠ key') by (intros ->; apply (Hq t req f); [by exists now|done]).
    pose proof (Hwin t req now ltac:(right; right; by exists f)) as Hnow.
    unfold resolve_end. destruct (settle _ _ _ _ _ _ _) as [o c'] eqn:Es. split; [|by apply (task_quiet key w t)].
    exists used. cbn. split; [|done]. eapply settle_other; [done..|]. unfold elapsed. cbn. unfold MAX_IDLE in *. unfold secs in *. lia.
  - split; [by exists used|]. by apply (task_quiet key w t).
  - split; [by exists used|]. by apply (task_quiet key w t).
Qed.

(** A step while every resolve under way began in the window. *)
Definition window_step (lo hi : Z) (w w' : Resolver) : Prop := in_window lo hi w ∧ step w w'.

(** ** Theorems *)
Lemma flight_unique w : rtc step resolver_init w → ∀ t1 t2 r1 r2 f1 f2 key,
  fetching_by w t1 r1 f1 → fetching_by w t2 r2 f2 → key_of r1 = inr key → key_of r2 = inr key → t1 = t2.
Proof.
  intros Hok%reachable_ok t1 t2 r1 r2 f1 f2 key H1 H2 K1 K2. destruct Hok as [_ O2 O3 _ _ _ _ _].
  destruct (O2 _ _ _ _ H1 K1) as [_ E1], (O2 _ _ _ _ H2 K2) as [_ E2]. assert (f1 = f2) as -> by congruence. by eapply O3.
Qed.

(** A resolve has got further, and not by being dropped. *)
Definition moved (t : nat) (w w' : Resolver) : Prop := rs_tasks w' !! t ≠ rs_tasks w !! t ∧ rs_tasks w' !! t ≠ Some TGone.

Lemma asks_progress w t req : rtc step resolver_init w → asks w t req →
  (∃ w', step w w' ∧ moved t w w') ∨
  ∃ f t' req' key, waiting_by w t req f ∧ fetching_by w t' req' f ∧ key_of req = inr key ∧ key_of req' = inr key.
Proof.
  intros Hok%reachable_ok Ha. destruct (ro_key w Hok t req Ha) as (_ & _ & key & Hk).
  destruct Ha as [[now Ht]|[[f [now Ht]]|[f [now Ht]]]].
  - left. exists (resolve_ask url_parse t req now key w). split; [by eapply step_ask|]. unfold moved. rewrite Ht. unfold resolve_ask.
    destruct (cache_answer _ _ _ _ _) as [[o|] c]; [cbn; by rewrite lookup_insert_eq|]. destruct (_ ≫= _); cbn; by rewrite lookup_insert_eq.
  - destruct (ro_wait w Hok t req f key) as [[Ho Hfe]|[Hc|(o & Hs & _)]]; [by exists now|done|..].
    + right. destruct (ro_open w Hok f Ho) as (t' & req' & Hf). destruct (ro_key w Hok t' req') as (_ & _ & key' & Hk'); [right; right; by exists f|].
      destruct (ro_fetch w Hok _ _ _ _ Hf Hk') as [_ Hfe']. assert (key' = key) as -> by (by eapply (ro_inj w Hok)).
      exists f, t', req', key. split_and!; [by exists now|done..].
    + left. exists (with_task t (TAsk req now) w). split; [by eapply step_retry|]. unfold moved. cbn. by rewrite lookup_insert_eq, Ht.
    + left. exists (with_task t (TDone req now o) w). split; [by eapply step_wake|]. unfold moved. cbn. by rewrite lookup_insert_eq, Ht.
  - left. exists (resolve_end url_parse looks_immutable t req now f key (inl Malformed) w). split; [by eapply step_fetched|].
    unfold moved, resolve_end. destruct (settle _ _ _ _ _ _ _). cbn. by rewrite lookup_insert_eq, Ht.
Qed.

(** Requests of one ref: the same branch, or no branch and the same tag. *)
Definition same_ref (r0 r : GitRef) : Prop :=
  non_empty (gr_branch r0) = non_empty (gr_branch r) ∧ (non_empty (gr_branch r) = None → non_empty (gr_tag r0) = non_empty (gr_tag r)).

Lemma ref_cache_key_inj r0 r k : ref_cache_key r0 = inr k → ref_cache_key r = inr k → same_ref r0 r.
Proof.
  unfold ref_cache_key, same_ref. destruct (non_empty (gr_branch r0)) as [b0|], (non_empty (gr_branch r)) as [b|].
  - intros [= <-] [= E]. by rewrite E.
  - destruct (non_empty (gr_tag r)); [|done]. intros [= <-] [=].
  - destruct (non_empty (gr_tag r0)); [|done]. intros [= <-] [=].
  - destruct (non_empty (gr_tag r0)) as [t0|], (non_empty (gr_tag r)) as [t|]; try done. intros [= <-] [= E]. by rewrite E.
Qed.

(** What a request may be answered with: its pinned commit, or a commit fetched for its url and
    ref with credentials of the same hash, for a tag that looks immutable, young enough, or of
    the fetch it took part in. *)
Definition honest (w w' : Resolver) (t : nat) (req : GitResolveRequest) (now : Z) (r : ResolvedRef) : Prop :=
  (∃ commit, non_empty (gr_commit (rq_ref req)) = Some commit ∧ r = {| res_commit := commit; res_ref_name := None; res_fetched_at := None |}) ∨
  ∃ req0 at_, (req0, at_, r) ∈ rs_log w' ∧
    rq_url req0 = rq_url req ∧ same_ref (rq_ref req0) (rq_ref req) ∧ fingerprint (rq_credentials req0) = fingerprint (rq_credentials req) ∧
    ((∃ tag, non_empty (gr_tag (rq_ref req)) = Some tag ∧ looks_immutable tag = true) ∨
     (elapsed now at_ < rq_cache_ttl req)%Z ∨ ∃ f, waiting_by w t req f ∨ fetching_by w t req f).

Lemma logged_honest w w' t req now r key at_ :
  logged w' key at_ r → key_of req = inr key →
  immutable_key key ∨ (elapsed now at_ < rq_cache_ttl req)%Z ∨ (∃ f, waiting_by w t req f ∨ fetching_by w t req f) → honest w w' t req now r.
Proof.
  intros (req0 & Hl & Hk0) Hk Hor. right. exists req0, at_. unfold ref_key in *.
  destruct (ref_cache_key (rq_ref req0)) as [|k0] eqn:E0; [done|]. destruct (ref_cache_key (rq_ref req)) as [|k] eqn:E; [done|].
  injection Hk0 as <-. injection Hk as Eu Ek Ec. subst k. split_and!; [done|done|by eapply ref_cache_key_inj|done|].
  destruct Hor as [(tag & Hne & Ht & Hl')|?]; [left|by right]. cbn in Ht. subst k0. unfold ref_cache_key in E.
  destruct (non_empty (gr_branch (rq_ref req))); [done|]. destruct (non_empty (gr_tag (rq_ref req))) as [tag'|]; [|done]. injection E as <-. by exists tag'.
Qed.

Lemma start_honest req r :
  resolve_start url_parse fingerprint allow_insecure req = Some (inr r) →
  ∃ commit, non_empty (gr_commit (rq_ref req)) = Some commit ∧ r = {| res_commit := commit; res_ref_name := None; res_fetched_at := None |}.
Proof.
  unfold resolve_start. destruct (check_url _ _ _); [done|]. destruct (negb _); [done|].
  destruct (non_empty _) as [commit|]; [|by destruct (key_of req)]. intros [= <-]. by exists commit.
Qed.

(** The task a step changed. *)
Lemma insert_changed t t' (task task' : Task) (m : gmap nat Task) :
  <[t := task]> m !! t' = Some task' → m !! t' ≠ <[t := task]> m !! t' → t = t' ∧ task = task'.
Proof.
  destruct (decide (t = t')) as [<-|Hne]; [rewrite lookup_insert_eq; by intros [= ->]|]. by rewrite lookup_insert_ne.
Qed.

Lemma ask_honest t req now key w w' t' req' now' r :
  resolver_ok w → key_of req = inr key → w' = resolve_ask url_parse t req now key w →
  rs_tasks w' !! t' = Some (TDone req' now' (inr r)) → rs_tasks w !! t' ≠ rs_tasks w' !! t' → honest w w' t' req' now' r.
Proof.
  intros Hok Hk ->. unfold resolve_ask. destruct (cache_answer _ _ _ _ _) as [[o|] c] eqn:Ea.
  - cbn. intros H1 H2. destruct (insert_changed _ _ _ _ _ H1 H2) as [<- [= <- <- ->]].
    destruct (answer_ok _ _ _ _ _ _ _ Ea) as (at_ & imm & used & He & Hor). destruct (ro_entry w Hok _ _ _ _ _ He) as [Hl Hi].
    eapply logged_honest; [exact Hl|done|]. destruct Hor; auto.
  - destruct (_ ≫= _); cbn; intros H1 H2; by destruct (insert_changed _ _ _ _ _ H1 H2) as [_ [=]].
Qed.

Lemma step_honest w w' t req now r :
  resolver_ok w → step w w' → rs_tasks w' !! t = Some (TDone req now (inr r)) → rs_tasks w !! t ≠ rs_tasks w' !! t → honest w w' t req now r.
Proof.
  intros Hok Hs. destruct Hs as [t' req' now' Ht|t' req' now' key Ht Hk|t' req' now' f o Ht Hf|t' req' now' f Ht Hf|t' req' now' f key fetch Ht Hk|t' req' now' f Ht|t' req' now' Ht].
  - cbn. intros H1 H2. destruct (insert_changed _ _ _ _ _ H1 H2) as [<- E]. left.
    destruct (resolve_start _ _ _ req') eqn:Es; [injection E as -> -> ->|done]. by apply start_honest.
  - by eapply ask_honest.
  - cbn. intros H1 H2. destruct (insert_changed _ _ _ _ _ H1 H2) as [<- [= -> -> ->]].
    destruct (ro_key w Hok t' req) as (_ & _ & key & Hk); [right; left; exists f; by exists now|].
    destruct (ro_wait w Hok t' req f key) as [[E _]|[E|(o & E & Hr)]]; [by exists now|done|congruence..|].
    rewrite Hf in E. injection E as <-. destruct (Hr r eq_refl) as [at_ Hl]. eapply logged_honest; [exact Hl|done|].
    right. right. exists f. left. by exists now.
  - cbn. intros H1 H2. by destruct (insert_changed _ _ _ _ _ H1 H2) as [_ [=]].
  - unfold resolve_end. destruct (settle _ _ _ _ _ _ _) as [o c'] eqn:Es. cbn. intros H1 H2.
    destruct (insert_changed _ _ _ _ _ H1 H2) as [<- [= -> -> ->]]. destruct (settle_spec _ _ _ _ _ _ _ Es) as (_ & Eo & _).
    rewrite (proj1 (Eo r) eq_refl). eapply (logged_honest _ _ _ _ _ _ key now); [exists req; split; [apply elem_of_app; right; left|done]|done|].
    right. right. exists f. right. by exists now.
  - cbn. intros H1 H2. by destruct (insert_changed _ _ _ _ _ H1 H2) as [_ [=]].
  - cbn. intros H1 H2. by destruct (insert_changed _ _ _ _ _ H1 H2) as [_ [=]].
Qed.

Lemma backing_off_rtc key e n lo next w w' :
  (next - MAX_IDLE <= lo)%Z → rtc (window_step lo next) w w' → backing_off key e n lo next w → backing_off key e n lo next w'.
Proof.
  intros Hlo H. induction H as [|x y z [Hin Hs] _ IH]; [done|]. intros Hx. by eapply IH, backing_off_step.
Qed.

Lemma transient_end w t req now f key e :
  rtc step resolver_init w → rs_tasks w !! t = Some (TFetch req now f) → key_of req = inr key → is_transient e = true →
  ∃ n, rs_tasks (resolve_end url_parse looks_immutable t req now f key (inl e) w) !! t =
         Some (TDone req now (inl {| gf_error := e; gf_retry_after := Some (backoff e n) |})) ∧
  ∀ lo, (lo <= now)%Z → backing_off key e n lo (now + backoff e n) (resolve_end url_parse looks_immutable t req now f key (inl e) w).
Proof.
  intros Hr Ht Hk He. unfold resolve_end, settle. cbv zeta. rewrite He.
  match goal with |- context [backoff e ?n] => set (k := n) end. exists k. cbn. split; [by rewrite lookup_insert_eq|].
  intros lo Hlo. split; cbn.
  - exists now. by rewrite lookup_insert_eq.
  - intros t' req' f' [now' E] Hk'. cbn in E. apply lookup_insert_Some in E as [[_ [=]]|[Hne E]].
    apply Hne. by eapply (flight_unique w Hr t t' req req' f f' key); [by exists now|by exists now'|..].
Qed.

(** C11: However resolves interleave, fail and are dropped, a url, ref and credentials are
    fetched by one resolve at a time; and no resolve is stranded: one that has not ended can
    get further at once, or waits for a fetch of its own url, ref and credentials that a live
    resolve is making. *)
Theorem single_flight w : rtc step resolver_init w →
  (∀ t1 t2 r1 r2 f1 f2 key, fetching_by w t1 r1 f1 → fetching_by w t2 r2 f2 → key_of r1 = inr key → key_of r2 = inr key → t1 = t2) ∧
  (∀ t req, asks w t req → (∃ w', step w w' ∧ moved t w w') ∨
     ∃ f t' req' key, waiting_by w t req f ∧ fetching_by w t' req' f ∧ key_of req = inr key ∧ key_of req' = inr key).
Proof. intros Hr. split; [by apply flight_unique|]. intros t req. by apply asks_progress. Qed.

(** C12: The commit a resolve ends with is the one its request pins, or one that was fetched
    for its url and its branch or tag, with credentials that have the same hash, and then by
    the fetch the resolve made or waited for, by one whose resolve began within the time to
    live of its request, or for a tag that looks immutable. *)
Theorem honest_answers w w' t req now r :
  rtc step resolver_init w → step w w' → rs_tasks w' !! t = Some (TDone req now (inr r)) → rs_tasks w !! t ≠ rs_tasks w' !! t →
  honest w w' t req now r.
Proof. intros Hok%reachable_ok. by apply step_honest. Qed.

(** C32: A fetch that fails for a passing reason answers with a wait of a minute to an hour,
    and until it is over no resolve fetches that ref again, whatever else the cache is used
    for (instants being those at which resolves begin, and the oldest of the resolves under
    way not a day older than the end of the wait). *)
Theorem backoff_holds w t req now f key e :
  rtc step resolver_init w → rs_tasks w !! t = Some (TFetch req now f) → key_of req = inr key → is_transient e = true →
  let w0 := resolve_end url_parse looks_immutable t req now f key (inl e) w in
  ∃ wait, rs_tasks w0 !! t = Some (TDone req now (inl {| gf_error := e; gf_retry_after := Some wait |})) ∧
    (secs 60 <= wait <= secs 3600)%Z ∧
    ∀ lo w', (now + wait - MAX_IDLE <= lo <= now)%Z → rtc (window_step lo (now + wait)) w0 w' →
      ∀ t' req' f', fetching_by w' t' req' f' → key_of req' ≠ inr key.
Proof.
  intros Hr Ht Hk He. destruct (transient_end w t req now f key e Hr Ht Hk He) as (n & Ed & Hb).
  exists (backoff e n). split_and!; [done|apply backoff_bounds..|].
  intros lo w' [Hlo Hnow] Hw t' req' f'. by eapply bo_quiet, (backing_off_rtc key e n lo), Hb.
Qed.
End resolver.

(** ** Two resolves of one branch *)
Module GitResolverExample.
Definition remote : Url :=
  {| u_scheme := asc "https"; u_username := []; u_password := None; u_host_str := Some (asc "git.example"); u_host := Some (asc "git.example");
     u_port := None; u_path := asc "/assets" |}.

Definition parse (raw : Bytes) : option Url := if bool_decide (raw = asc "https://git.example/assets") then Some remote else None.
Definition hash (_ : GitCredentials) : N := 7.
Definition is_release (tag : Bytes) : bool := starts_with tag (asc "v").

Definition main : GitResolveRequest :=
  {| rq_url := asc "https://git.example/assets"; rq_ref := {| gr_branch := Some (asc "main"); gr_tag := None; gr_commit := None |};
     rq_credentials := CAnonymous; rq_cache_ttl := secs 30 |}.
Definition main_key : RefKey := {| rk_url := asc "https://git.example/assets"; rk_ref := asc "branch:main"; rk_credentials := 7 |}.
Definition head : ResolvedRef :=
  {| res_commit := asc "0123456789012345678901234567890123456789"; res_ref_name := Some (asc "refs/heads/main"); res_fetched_at := Some 5%Z |}.

#[local] Abbreviation stepE := (resolver_step parse hash is_release false).

(** The first resolve fetches, the second waits for it. *)
Definition arrived : Resolver := with_task 0 (TAsk main 1) resolver_init.
Definition started : Resolver := resolve_ask parse 0 main 1 main_key arrived.
Definition joined : Resolver := resolve_ask parse 1 main 2 main_key (with_task 1 (TAsk main 2) started).
Definition ended : Resolver := resolve_end parse is_release 0 main 1 0 main_key (inr head) joined.

Lemma start_asks : resolve_start parse hash false main = None.
Proof. vm_compute. reflexivity. Qed.

Lemma started_reachable : rtc stepE resolver_init started.
Proof.
  eapply rtc_l; [|apply rtc_once, (step_ask _ _ _ _ arrived 0 main 1 main_key); vm_compute; reflexivity].
  pose proof (step_arrive parse hash is_release false resolver_init 0 main 1 eq_refl) as H. by rewrite start_asks in H.
Qed.

Lemma joined_reachable : rtc stepE resolver_init joined.
Proof.
  transitivity started; [apply started_reachable|].
  eapply rtc_l; [|apply rtc_once, (step_ask _ _ _ _ (with_task 1 (TAsk main 2) started) 1 main 2 main_key); vm_compute; reflexivity].
  pose proof (step_arrive parse hash is_release false started 1 main 2 ltac:(vm_compute; reflexivity)) as H. by rewrite start_asks in H.
Qed.

Lemma joined_tasks : rs_tasks joined !! 0 = Some (TFetch main 1 0) ∧ rs_tasks joined !! 1 = Some (TWait main 2 0).
Proof. split; vm_compute; reflexivity. Qed.

Lemma ended_reachable : rtc stepE resolver_init ended.
Proof.
  eapply rtc_r; [apply joined_reachable|]. apply (step_fetched _ _ _ _ joined 0 main 1 0 main_key (inr head)); [apply joined_tasks|vm_compute; reflexivity].
Qed.

Lemma ended_wakes : rs_tasks ended !! 1 = Some (TWait main 2 0) ∧ rs_flights ended !! 0 = Some (FSent (inr head)).
Proof. split; vm_compute; reflexivity. Qed.

Lemma release_empty : is_release [] = false.
Proof. vm_compute. reflexivity. Qed.

Lemma main_keyed : ref_key hash main = inr main_key.
Proof. vm_compute. reflexivity. Qed.

(** Of the two, one fetches; the other waits for it. *)
Lemma single_flight_witness :
  (∀ t f, fetching_by joined t main f → t = 0) ∧
  ((∃ w', stepE joined w' ∧ moved 1 joined w') ∨
   ∃ f t' req' key, waiting_by joined 1 main f ∧ fetching_by joined t' req' f ∧ ref_key hash main = inr key ∧ ref_key hash req' = inr key).
Proof.
  destruct (single_flight parse hash is_release false release_empty joined joined_reachable) as [H1 H2]. split.
  - intros t f Hf. eapply H1; [exact Hf|exists 1%Z; apply joined_tasks|apply main_keyed|apply main_keyed].
  - apply H2. right. left. exists 0, 2%Z. apply joined_tasks.
Defined.

(** The one that waited is told the commit the other fetched. *)
Lemma honest_answers_witness :
  honest hash is_release ended (with_task 1 (TDone main 2 (inr head)) ended) 1 main 2 head.
Proof.
  apply (honest_answers parse hash is_release false release_empty ended).
  - apply ended_reachable.
  - apply (step_wake parse hash is_release false ended 1 main 2 0 (inr head)); apply ended_wakes.
  - vm_compute. reflexivity.
  - vm_compute. discriminate.
Defined.

(** A rate limit without a time is a minute's wait. *)
Lemma backoff_holds_witness :
  ∃ wait, (secs 60 <= wait <= secs 3600)%Z ∧
    ∀ lo w', (1 + wait - MAX_IDLE <= lo <= 1)%Z →
      rtc (window_step parse hash is_release false lo (1 + wait)) (resolve_end parse is_release 0 main 1 0 main_key (inl (RateLimited None)) joined) w' →
      ∀ t' req' f', fetching_by w' t' req' f' → ref_key hash req' ≠ inr main_key.
Proof.
  destruct (backoff_holds parse hash is_release false release_empty joined 0 main 1 0 main_key (RateLimited None)) as (wait & _ & H1 & H2).
  - apply joined_reachable.
  - apply joined_tasks.
  - apply main_keyed.
  - reflexivity.
  - exists wait. split; [exact H1|exact H2].
Defined.
End GitResolverExample.
