(* ===== verification/Quantity.v ===== *)
(** Quantities more than zero (rust/rivers-crd/src/quantity.rs), and the regular expressions
    of bytes their schema pattern is written in. *)

From S2P Require Import Prelude GitRefs.

(** * Regular expressions

    The patterns the code writes as regular expressions of bytes: what they match, a
    matcher by derivatives, and how classes, options and repetitions are taken apart. *)

Inductive re :=
| RVoid
| REps
| RByte (p : ascii → bool)
| RCat (a b : re)
| RAlt (a b : re)
| RStar (a : re).

Definition ROpt (a : re) : re := RAlt REps a.
Definition RPlus (a : re) : re := RCat a (RStar a).
Definition RLit (c : ascii) : re := RByte (λ x, bool_decide (x = c)).
Definition ROneOf (s : string) : re := RByte (λ x, bool_decide (x ∈ asc s)).

Inductive matches : re → Bytes → Prop :=
| m_eps : matches REps []
| m_byte p c : p c = true → matches (RByte p) [c]
| m_cat a b s t : matches a s → matches b t → matches (RCat a b) (s ++ t)
| m_alt_l a b s : matches a s → matches (RAlt a b) s
| m_alt_r a b s : matches b s → matches (RAlt a b) s
| m_star_nil a : matches (RStar a) []
| m_star_app a s t : matches a s → matches (RStar a) t → matches (RStar a) (s ++ t).

(** ** The matcher *)
Fixpoint nullable (r : re) : bool :=
  match r with
  | RVoid | RByte _ => false
  | REps | RStar _ => true
  | RCat a b => nullable a && nullable b
  | RAlt a b => nullable a || nullable b
  end.

Fixpoint deriv (c : ascii) (r : re) : re :=
  match r with
  | RVoid | REps => RVoid
  | RByte p => if p c then REps else RVoid
  | RCat a b => let d := RCat (deriv c a) b in if nullable a then RAlt d (deriv c b) else d
  | RAlt a b => RAlt (deriv c a) (deriv c b)
  | RStar a => RCat (deriv c a) (RStar a)
  end.

Fixpoint re_match (r : re) (s : Bytes) : bool :=
  match s with [] => nullable r | c :: s => re_match (deriv c r) s end.

(** ** Taking a match apart *)
Lemma matches_cat a b s : matches (RCat a b) s ↔ ∃ s1 s2, s = s1 ++ s2 ∧ matches a s1 ∧ matches b s2.
Proof. split; [inversion 1; subst; eauto|]. intros (s1 & s2 & -> & ? & ?). by constructor. Qed.

Lemma matches_alt a b s : matches (RAlt a b) s ↔ matches a s ∨ matches b s.
Proof. split; [inversion 1; subst; auto|]. intros [?|?]; [by apply m_alt_l|by apply m_alt_r]. Qed.

Lemma matches_eps s : matches REps s ↔ s = [].
Proof. split; [by inversion 1|]. intros ->. constructor. Qed.

Lemma matches_byte p s : matches (RByte p) s ↔ ∃ c, s = [c] ∧ p c = true.
Proof. split; [inversion 1; subst; eauto|]. intros (c & -> & ?). by constructor. Qed.

Lemma matches_opt a s : matches (ROpt a) s ↔ s = [] ∨ matches a s.
Proof. unfold ROpt. by rewrite matches_alt, matches_eps. Qed.

Lemma matches_lit c s : matches (RLit c) s ↔ s = [c].
Proof.
  unfold RLit. rewrite matches_byte. split; [intros (x & -> & ->%bool_decide_eq_true); done|]. intros ->. exists c. by rewrite bool_decide_true.
Qed.

Lemma matches_one_of t s : matches (ROneOf t) s ↔ ∃ c, s = [c] ∧ c ∈ asc t.
Proof. unfold ROneOf. rewrite matches_byte. by setoid_rewrite bool_decide_eq_true. Qed.

Lemma star_bytes p s : matches (RStar (RByte p)) s ↔ Forall (λ c, p c = true) s.
Proof.
  split.
  - intros H. remember (RStar (RByte p)) as r eqn:E. induction H as [| | | | |a|a s t H _ _ IH]; try done. injection E as ->.
    apply matches_byte in H as (c & -> & Hc). constructor; [done|]. by apply IH.
  - induction 1 as [|c s Hc _ IH]; [constructor|]. change (c :: s) with ([c] ++ s). by repeat constructor.
Qed.

Lemma plus_bytes p s : matches (RPlus (RByte p)) s ↔ s ≠ [] ∧ Forall (λ c, p c = true) s.
Proof.
  unfold RPlus. rewrite matches_cat. setoid_rewrite matches_byte. setoid_rewrite star_bytes. split.
  - intros (s1 & s2 & -> & (c & -> & Hc) & Hs). split; [done|]. by constructor.
  - intros [Hne Hs]. destruct Hs as [|c s Hc Hs]; [done|]. exists [c], s. eauto.
Qed.

(** ** The matcher is right *)
Lemma nullable_matches r : nullable r = true ↔ matches r [].
Proof.
  induction r as [| |p|a IHa b IHb|a IHa b IHb|a _]; cbn [nullable].
  - split; [done|]. by inversion 1.
  - split; [intros _; constructor|done].
  - split; [done|]. by rewrite matches_byte; intros (? & [=] & _).
  - rewrite andb_true_iff, IHa, IHb, matches_cat. split; [intros []; by exists [], []|]. intros (s1 & s2 & E & ?). symmetry in E. by apply app_eq_nil in E as [-> ->].
  - by rewrite orb_true_iff, IHa, IHb, matches_alt.
  - split; [intros _; constructor|done].
Qed.

Lemma star_cons a c s : matches (RStar a) (c :: s) ↔ ∃ s1 s2, s = s1 ++ s2 ∧ matches a (c :: s1) ∧ matches (RStar a) s2.
Proof.
  split.
  - intros H. remember (RStar a) as r eqn:E. remember (c :: s) as t eqn:Et. revert s Et.
    induction H as [| | | | |b|b s1 s2 H1 _ H2 IH]; try done. injection E as ->. intros s Et.
    destruct s1 as [|x s1]; [by apply IH|]. injection Et as -> <-. by exists s1, s2.
  - intros (s1 & s2 & -> & H1 & H2). change (c :: s1 ++ s2) with ((c :: s1) ++ s2). by constructor.
Qed.

Lemma deriv_matches c r s : matches (deriv c r) s ↔ matches r (c :: s).
Proof.
  revert s. induction r as [| |p|a IHa b IHb|a IHa b IHb|a IHa]; intros s; cbn [deriv].
  - split; inversion 1.
  - split; inversion 1.
  - rewrite matches_byte. destruct (p c) eqn:E.
    + rewrite matches_eps. split; [intros ->; eauto|]. by intros (x & [= _ ->] & _).
    + split; [inversion 1|]. intros (x & [= <- _] & Hx). congruence.
  - assert (H1 : matches (RCat (deriv c a) b) s ↔ ∃ s1 s2, s = s1 ++ s2 ∧ matches a (c :: s1) ∧ matches b s2)
      by (rewrite matches_cat; by setoid_rewrite IHa).
    assert (H2 : matches (RCat a b) (c :: s) ↔ (∃ s1 s2, s = s1 ++ s2 ∧ matches a (c :: s1) ∧ matches b s2) ∨ (matches a [] ∧ matches b (c :: s))).
    { rewrite matches_cat. split.
      - intros ([|x s1] & s2 & E & ? & ?); cbn in E; [subst; by right|]. injection E as <- ->. left. eauto.
      - intros [(s1 & s2 & -> & ? & ?)|[? ?]]; [by exists (c :: s1), s2|by exists [], (c :: s)]. }
    cbv zeta. destruct (nullable a) eqn:E; rewrite ?matches_alt, H1, H2, ?IHb, <- nullable_matches, E; naive_solver.
  - by rewrite !matches_alt, IHa, IHb.
  - rewrite matches_cat, star_cons. by setoid_rewrite IHa.
Qed.

Lemma re_match_spec r s : re_match r s = true ↔ matches r s.
Proof. revert r. induction s as [|c s IH]; intros r; cbn [re_match]; [apply nullable_matches|]. by rewrite IH, deriv_matches. Qed.

(** * Quantities more than zero (rust/rivers-crd/src/quantity.rs)

    The hand-written test of a Kubernetes quantity and the schema pattern beside it. The
    two agree, but for exponents that do not fit 64 bits, which only the pattern takes. *)

(** ** [str::parse::<i64>] *)
Definition i64_min : Z := (- 2 ^ 63)%Z.
Definition i64_max : Z := (2 ^ 63 - 1)%Z.
Definition checked (z : Z) : option Z := if (i64_min <=? z)%Z && (z <=? i64_max)%Z then Some z else None.

Definition is_digit : ascii → bool := between 48 57.
Definition digit (c : ascii) : Z := Z.of_N (code c) - 48.

(** The digits of a number, each taken in with a checked multiplication and a checked addition
    or subtraction. *)
Fixpoint parse_digits (negative : bool) (acc : Z) (s : Bytes) : option Z :=
  match s with
  | [] => Some acc
  | c :: s =>
      if is_digit c then
        m ← checked (acc * 10);
        r ← checked (if negative then m - digit c else m + digit c)%Z;
        parse_digits negative r s
      else None
  end.

Definition parse_i64 (s : Bytes) : option Z :=
  match s with
  | [] => None
  | c :: s' =>
      if bool_decide (c = "+"%char) then if bool_decide (s' = []) then None else parse_digits false 0 s'
      else if bool_decide (c = "-"%char) then if bool_decide (s' = []) then None else parse_digits true 0 s'
      else parse_digits false 0 s
  end.

(** ** [is_positive] *)
Definition SUFFIXES : list Bytes :=
  asc <$> ["n"; "u"; "m"; "k"; "M"; "G"; "T"; "P"; "E"; "Ki"; "Mi"; "Gi"; "Ti"; "Pi"; "Ei"]%string.

(** [take_while(u8::is_ascii_digit).count()] *)
Fixpoint count_digits (s : Bytes) : nat :=
  match s with [] => 0 | c :: s => if is_digit c then S (count_digits s) else 0 end.

Definition digits_after (rest : Bytes) (start : nat) : nat := start + count_digits (drop start rest).

Definition is_positive (s : Bytes) : bool :=
  let '(negative, rest) :=
    match s with
    | c :: tl => if bool_decide (c = "-"%char) then (true, tl) else if bool_decide (c = "+"%char) then (false, tl) else (false, s)
    | [] => (false, s)
    end in
  let whole := digits_after rest 0 in
  let end_ := if starts_with (drop whole rest) (asc ".") then digits_after rest (whole + 1) else whole in
  let more_than_zero := existsb (between 49 57) (take end_ rest) in
  let suffix := drop end_ rest in
  let exponent :=
    (1 <? length suffix)%nat && match suffix with c :: tl => bool_decide (c ∈ asc "eE") && bool_decide (is_Some (parse_i64 tl)) | [] => false end in
  negb negative && more_than_zero && (bool_decide (suffix = []) || bool_decide (suffix ∈ SUFFIXES) || exponent).

(** ** [POSITIVE_PATTERN] *)
Definition DIGIT : re := RByte is_digit.
Definition NONZERO : re := RByte (between 49 57).

(** [[0-9]*[1-9][0-9]*] *)
Definition SOME_NONZERO : re := RCat (RStar DIGIT) (RCat NONZERO (RStar DIGIT)).

Definition MANTISSA : re :=
  RAlt (RCat SOME_NONZERO (ROpt (RCat (RLit "."%char) (RStar DIGIT))))
       (RCat (RStar DIGIT) (RCat (RLit "."%char) SOME_NONZERO)).

(** [[+-]?[0-9]+] *)
Definition EXPONENT : re := RCat (ROpt (ROneOf "+-")) (RPlus DIGIT).

Definition SUFFIX : re :=
  RAlt (ROneOf "numkMGTPE") (RAlt (RCat (ROneOf "KMGTPE") (RLit "i"%char)) (RCat (ROneOf "eE") EXPONENT)).

Definition POSITIVE_PATTERN : re := RCat (ROpt (RLit "+"%char)) (RCat MANTISSA (ROpt SUFFIX)).

(** ** What the texts mean *)
Definition digits_value (s : Bytes) : Z := foldl (λ a c, a * 10 + digit c)%Z 0%Z s.

Definition exponent_value (s : Bytes) : Z :=
  match s with
  | c :: s' => if bool_decide (c = "+"%char) then digits_value s' else if bool_decide (c = "-"%char) then - digits_value s' else digits_value s
  | [] => 0
  end.

(** Every exponent the text ends in fits 64 bits. *)
Definition exponent_fits (s : Bytes) : Prop :=
  ∀ m e x, s = m ++ e :: x → e ∈ asc "eE" → matches EXPONENT x → (i64_min <= exponent_value x <= i64_max)%Z.

#[local] Abbreviation digits := (Forall (λ c, is_digit c = true)).

(** ** Checked parsing is parsing in range *)
Lemma checked_Some z r : checked z = Some r ↔ r = z ∧ (i64_min <= z <= i64_max)%Z.
Proof. unfold checked. destruct ((_ <=? _)%Z && _) eqn:E; [apply andb_true_iff in E as [?%Z.leb_le ?%Z.leb_le]|]; [naive_solver|].
  split; [done|]. intros [_ H]. rewrite andb_false_iff, !Z.leb_gt in E. lia. Qed.

Lemma digit_bounds c : is_digit c = true → (0 <= digit c <= 9)%Z.
Proof. unfold is_digit, between, digit. rewrite andb_true_iff, !N.leb_le. lia. Qed.

(** What follows an accumulated value. *)
Definition value_from (a : Z) (s : Bytes) : Z := foldl (λ a c, a * 10 + digit c)%Z a s.

Lemma value_from_ge a s : digits s → (0 <= a)%Z → (a <= value_from a s)%Z.
Proof.
  intros H. revert a. induction H as [|c s Hc _ IH]; intros a Ha; [cbn; lia|]. apply digit_bounds in Hc. unfold value_from. cbn [foldl].
  fold (value_from (a * 10 + digit c) s). specialize (IH (a * 10 + digit c)%Z). lia.
Qed.

Lemma parse_digits_digits neg a s r : parse_digits neg a s = Some r → digits s.
Proof.
  revert a. induction s as [|c s IH]; intros a; [constructor|]. cbn [parse_digits]. destruct (is_digit c) eqn:E; [|done].
  intros (m & _ & (r' & _ & H)%bind_Some)%bind_Some. constructor; [done|]. by eapply IH.
Qed.

Lemma parse_digits_spec (neg : bool) a s : digits s → (0 <= a)%Z → (i64_min <= (if neg then - a else a) <= i64_max)%Z →
  parse_digits neg (if neg then - a else a)%Z s = checked (if neg then - value_from a s else value_from a s)%Z.
Proof.
  intros H. revert a. induction H as [|c s Hc Hs IH]; intros a Ha Hr.
  - cbn. symmetry. by apply checked_Some.
  - pose proof (digit_bounds _ Hc) as Hd. cbn [parse_digits]. rewrite Hc.
    assert (Hv : value_from a (c :: s) = value_from (a * 10 + digit c) s) by done.
    pose proof (value_from_ge (a * 10 + digit c) s Hs ltac:(lia)) as Hge. rewrite Hv.
    set (v := value_from _ s) in *.
    assert (Hsm : ∀ z, (if neg then - v <= z <= 0 else 0 <= z <= v)%Z → checked z = None → checked (if neg then - v else v)%Z = None).
    { intros z Hz Hn. destruct (checked (if neg then _ else _)) as [w|] eqn:E; [|done]. apply checked_Some in E as [_ E].
      assert (checked z = Some z); [|congruence]. apply checked_Some. split; [done|]. unfold i64_min, i64_max in *. destruct neg; lia. }
    destruct (checked ((if neg then - a else a) * 10)) as [m|] eqn:Em; cbn [mbind option_bind]; [|symmetry; eapply Hsm; [|done]; destruct neg; lia].
    apply checked_Some in Em as [-> Hm].
    destruct (checked (if neg then _ else _)) as [r|] eqn:Er at 1; cbn [mbind option_bind]; [|symmetry; eapply Hsm; [|exact Er]; destruct neg; lia].
    apply checked_Some in Er as [-> Hr']. unfold v. rewrite <- (IH (a * 10 + digit c)%Z); [|lia|destruct neg; lia]. f_equal. destruct neg; lia.
Qed.

(** ** Exponents *)
Lemma matches_exponent x : matches EXPONENT x ↔ ∃ sign ds, x = sign ++ ds ∧ (sign = [] ∨ sign = ["+"%char] ∨ sign = ["-"%char]) ∧ ds ≠ [] ∧ digits ds.
Proof.
  unfold EXPONENT, DIGIT. rewrite matches_cat. setoid_rewrite matches_opt. setoid_rewrite plus_bytes. setoid_rewrite matches_one_of. split.
  - intros (s & ds & -> & Hs & ? & ?). exists s, ds. split_and!; [done| |done..]. destruct Hs as [->|(c & -> & Hc)]; [by left|right].
    cbn in Hc. rewrite !elem_of_cons, elem_of_nil in Hc. destruct Hc as [->|[->|[]]]; auto.
  - intros (s & ds & -> & Hs & ? & ?). exists s, ds. split_and!; [done| |done..].
    destruct Hs as [->|[->| ->]]; [by left|right; eexists; split; [done|]; cbn; set_solver..].
Qed.

Lemma sign_not_digit c : is_digit c = true → c ≠ "+"%char ∧ c ≠ "-"%char ∧ c ≠ "."%char ∧ c ∉ asc "eE".
Proof. intros H. split_and!; try by intros ->. cbn. rewrite !not_elem_of_cons. split_and!; [by intros ->..|by apply not_elem_of_nil]. Qed.

Lemma parse_i64_spec x : is_Some (parse_i64 x) ↔ matches EXPONENT x ∧ (i64_min <= exponent_value x <= i64_max)%Z.
Proof.
  rewrite matches_exponent. unfold parse_i64, exponent_value. destruct x as [|c x].
  { split; [by intros [? [=]]|]. intros [(s & ds & E & _ & Hne & _) _]. symmetry in E. apply app_eq_nil in E as [_ ->]. done. }
  assert (Hpd : ∀ (neg : bool) s, is_Some (parse_digits neg 0 s) ↔ digits s ∧ (i64_min <= (if neg then - digits_value s else digits_value s) <= i64_max)%Z).
  { intros neg s. assert (Hd : digits s → parse_digits neg 0 s = checked (if neg then - digits_value s else digits_value s)%Z).
    { intros Hs. change (digits_value s) with (value_from 0 s). rewrite <- (parse_digits_spec neg 0 s Hs); [by destruct neg|lia|unfold i64_min, i64_max; destruct neg; lia]. }
    split.
    - intros [r Hr]. pose proof (parse_digits_digits _ _ _ _ Hr) as Hs. split; [done|]. rewrite Hd in Hr by done. by apply checked_Some in Hr as [_ ?].
    - intros [Hs Hr]. rewrite Hd by done. eexists. by apply checked_Some. }
  case_bool_decide as Hp; [|case_bool_decide as Hm].
  - subst c. split.
    + case_bool_decide as Hx; [by intros [? [=]]|]. intros [Hs Hr]%Hpd. split; [exists ["+"%char], x; eauto 10|done].
    + intros [(s & ds & E & Hs & Hne & Hds) Hr]. assert (x = ds) as ->.
      { destruct Hs as [->|[->| ->]]; [|by injection E|done]. cbn in E. subst ds. apply Forall_cons in Hds as [H _]. by apply sign_not_digit in H as []. }
      rewrite bool_decide_false by done. by apply Hpd.
  - subst c. split.
    + case_bool_decide as Hx; [by intros [? [=]]|]. intros [Hs Hr]%Hpd. split; [exists ["-"%char], x; eauto 10|done].
    + intros [(s & ds & E & Hs & Hne & Hds) Hr]. assert (x = ds) as ->.
      { destruct Hs as [->|[->| ->]]; [|done|by injection E]. cbn in E. subst ds. apply Forall_cons in Hds as [H _]. by apply sign_not_digit in H as (_ & []). }
      rewrite bool_decide_false by done. by apply Hpd.
  - rewrite Hpd. split.
    + intros [Hs Hr]. split; [|done]. exists [], (c :: x). eauto 10.
    + intros [(s & ds & E & Hs & Hne & Hds) Hr]. split; [|done]. destruct Hs as [->|[->| ->]]; [by cbn in E; subst|by injection E..].
Qed.

(** ** Reading digits and a suffix *)
Lemma count_digits_app ds s : digits ds → (∀ c t, s = c :: t → is_digit c = false) → count_digits (ds ++ s) = length ds.
Proof.
  intros H Hs. induction H as [|c ds Hc _ IH]; cbn.
  - destruct s as [|c s]; [done|]. cbn. by rewrite (Hs c s).
  - by rewrite Hc, IH.
Qed.

Lemma count_digits_split s : ∃ ds t, s = ds ++ t ∧ digits ds ∧ count_digits s = length ds ∧ ∀ c t', t = c :: t' → is_digit c = false.
Proof.
  induction s as [|c s IH]; [by exists [], []|]. cbn. destruct (is_digit c) eqn:E.
  - destruct IH as (ds & t & -> & Hd & -> & Ht). exists (c :: ds), t. split_and!; [done|by constructor|done|done].
  - exists [], (c :: s). split_and!; [done|constructor|done|]. by intros ? ? [= -> _].
Qed.

Lemma starts_with_dot s : starts_with s (asc ".") = true ↔ ∃ t, s = "."%char :: t.
Proof.
  unfold starts_with. rewrite bool_decide_eq_true. cbn. destruct s as [|c s]; [split; [by intros [? [=]]|by intros [? [=]]]|].
  case_bool_decide as E; [subst c|]; split; [eauto|eauto|by intros [? [=]]|intros [? [= E' _]]; congruence].
Qed.

(** The text of a mantissa: its digits, and those after a dot if there is one. *)
Definition mantissa (w : Bytes) (f : option Bytes) : Bytes := w ++ match f with Some f => "."%char :: f | None => [] end.

(** Where a suffix may begin. *)
Definition ends_mantissa (f : option Bytes) (t : Bytes) : Prop :=
  ∀ c t', t = c :: t' → is_digit c = false ∧ (f = None → c ≠ "."%char).

(** What [is_positive] splits a text without sign into. *)
Definition end_of (rest : Bytes) : nat :=
  let whole := digits_after rest 0 in if starts_with (drop whole rest) (asc ".") then digits_after rest (whole + 1) else whole.

Lemma end_of_mantissa w f t : digits w → digits (default [] f) → ends_mantissa f t → end_of (mantissa w f ++ t) = length (mantissa w f).
Proof.
  intros Hw Hf Ht. unfold end_of, digits_after, mantissa. cbv zeta. rewrite drop_0, <- app_assoc, Nat.add_0_l.
  rewrite count_digits_app; [|done|]; last first.
  { destruct f as [f|]; cbn; [by intros c t' [= <- _]|]. intros c t' E. by apply (Ht c t'). }
  rewrite drop_app_length. destruct f as [f|].
  - cbn [app]. rewrite (proj2 (starts_with_dot _)) by eauto. rewrite drop_app_ge by lia.
    replace (length w + 1 - length w) with 1 by lia. change (drop 1 ("."%char :: f ++ t)) with (f ++ t). rewrite count_digits_app; [|done|intros c t' E; by apply (Ht c t')].
    rewrite length_app. cbn. lia.
  - cbn [app]. destruct (starts_with t _) eqn:E; [|by rewrite app_nil_r]. apply starts_with_dot in E as [t' ->]. by destruct (Ht _ _ eq_refl) as [_ []].
Qed.

Lemma end_of_split rest : ∃ w f t, rest = mantissa w f ++ t ∧ digits w ∧ digits (default [] f) ∧ ends_mantissa f t.
Proof.
  destruct (count_digits_split rest) as (w & t & -> & Hw & _ & Ht). destruct t as [|c t].
  { exists w, None, []. unfold mantissa. split_and!; [by rewrite !app_nil_r|done|constructor|]. by intros ? ?. }
  destruct (decide (c = "."%char)) as [->|Hc].
  - destruct (count_digits_split t) as (f & t' & -> & Hf & _ & Ht'). exists w, (Some f), t'. unfold mantissa. rewrite <- app_assoc.
    split_and!; [done|done|done|]. intros c t'' E. split; [by eapply Ht'|done].
  - exists w, None, (c :: t). unfold mantissa. rewrite app_nil_r. split_and!; [done|done|constructor|]. intros c' t' [= <- <-]. split; [by eapply Ht|done].
Qed.

Definition nonzero_in (s : Bytes) : Prop := Exists (λ c, between 49 57 c = true) s.

Lemma matches_some_nonzero s : matches SOME_NONZERO s ↔ digits s ∧ nonzero_in s.
Proof.
  unfold SOME_NONZERO, DIGIT, NONZERO, nonzero_in. rewrite matches_cat. setoid_rewrite matches_cat. setoid_rewrite matches_byte. setoid_rewrite star_bytes. split.
  - intros (a & s' & -> & Ha & b & d & -> & (c & -> & Hc) & Hd). split.
    + apply Forall_app. split; [done|]. constructor; [|done]. revert Hc. unfold is_digit, between. rewrite !andb_true_iff, !N.leb_le. lia.
    + apply Exists_app. right. by left.
  - intros [Hs Hn]. apply Exists_exists in Hn as (c & (a & d & ->)%list_elem_of_split & Hc). apply Forall_app in Hs as [Ha [_ Hd]%Forall_cons].
    exists a, (c :: d). split_and!; [done|done|]. exists [c], d. eauto.
Qed.

Lemma matches_mantissa s : matches MANTISSA s ↔ ∃ w f, s = mantissa w f ∧ digits w ∧ digits (default [] f) ∧ nonzero_in (w ++ default [] f).
Proof.
  unfold MANTISSA. rewrite matches_alt, !matches_cat. setoid_rewrite matches_some_nonzero. setoid_rewrite matches_opt. setoid_rewrite matches_cat.
  setoid_rewrite matches_lit. setoid_rewrite matches_some_nonzero. unfold DIGIT. setoid_rewrite star_bytes. unfold nonzero_in, mantissa. split.
  - intros [(w & d & -> & [Hw Hn] & [->|(? & f & -> & -> & Hf)])|(w & d & -> & Hw & ? & f & -> & -> & Hf & Hn)].
    + exists w, None. split_and!; [done|done|constructor|]. cbn. by rewrite app_nil_r.
    + exists w, (Some f). split_and!; [done|done|done|]. apply Exists_app. by left.
    + exists w, (Some f). split_and!; [done|done|done|]. apply Exists_app. by right.
  - intros (w & [f|] & -> & Hw & Hf & Hn); cbn in *.
    + apply Exists_app in Hn as [Hn|Hn]; [left|right]; exists w, ("."%char :: f).
      * split_and!; [done|done|done|]. right. by exists ["."%char], f.
      * split_and!; [done|done|]. by exists ["."%char], f.
    + left. exists w, []. rewrite app_nil_r in Hn. eauto 10.
Qed.

Lemma matches_suffix t : matches SUFFIX t ↔ t ∈ SUFFIXES ∨ ∃ e x, t = e :: x ∧ e ∈ asc "eE" ∧ matches EXPONENT x.
Proof.
  unfold SUFFIX. rewrite !matches_alt, !matches_cat, matches_one_of. setoid_rewrite matches_one_of. setoid_rewrite matches_lit. split.
  - intros [(c & -> & Hc)|[(? & ? & -> & (c & -> & Hc) & ->)|(? & x & -> & (e & -> & He) & Hx)]]; [left|left|right; by exists e, x];
      cbn in Hc; rewrite !elem_of_cons, elem_of_nil in Hc; unfold SUFFIXES; cbn [fmap list_fmap]; rewrite !elem_of_cons; naive_solver.
  - intros [Ht|(e & x & -> & He & Hx)]; [|right; right; exists [e], x; eauto].
    unfold SUFFIXES in Ht. cbn [fmap list_fmap] in Ht. rewrite !elem_of_cons, elem_of_nil in Ht.
    assert (H1 : ∀ c, t = [c] → c ∈ asc "numkMGTPE" → ∃ c, t = [c] ∧ c ∈ asc "numkMGTPE") by eauto.
    assert (H2 : ∀ c, t = [c; "i"%char] → c ∈ asc "KMGTPE" → ∃ s1 s2, t = s1 ++ s2 ∧ (∃ c, s1 = [c] ∧ c ∈ asc "KMGTPE") ∧ s2 = ["i"%char])
      by (intros c -> ?; exists [c], ["i"%char]; eauto).
    destruct_or! Ht; try done; try (left; eapply H1; [exact Ht|cbn; set_solver]); right; left; (eapply H2; [exact Ht|cbn; set_solver]).
Qed.

(** ** The test and the pattern *)
Definition suffix_ok (t : Bytes) : bool :=
  bool_decide (t = []) || bool_decide (t ∈ SUFFIXES) ||
  ((1 <? length t)%nat && match t with c :: tl => bool_decide (c ∈ asc "eE") && bool_decide (is_Some (parse_i64 tl)) | [] => false end).

Definition positive_body (rest : Bytes) : bool := existsb (between 49 57) (take (end_of rest) rest) && suffix_ok (drop (end_of rest) rest).

Lemma is_positive_body s :
  is_positive s = match s with c :: tl => if bool_decide (c = "-"%char) then false else positive_body (if bool_decide (c = "+"%char) then tl else s) | [] => positive_body [] end.
Proof.
  unfold is_positive, positive_body, suffix_ok, end_of. destruct s as [|c s]; [done|]. case_bool_decide; [done|]. by case_bool_decide.
Qed.

Lemma suffix_ok_spec t : suffix_ok t = true ↔
  t = [] ∨ matches SUFFIX t ∧ ∀ e x, t = e :: x → e ∈ asc "eE" → matches EXPONENT x → (i64_min <= exponent_value x <= i64_max)%Z.
Proof.
  unfold suffix_ok. rewrite !orb_true_iff, !bool_decide_eq_true, matches_suffix, andb_true_iff, Nat.ltb_lt. split.
  - intros [[->|Ht]|[Hl Hx]]; [by left| |].
    + right. split; [by left|]. intros e x -> He Hm%matches_exponent. exfalso. destruct Hm as (sg & ds & -> & Hsg & Hne & Hds).
      unfold SUFFIXES in Ht. cbn [fmap list_fmap] in Ht. rewrite !elem_of_cons, elem_of_nil in Ht.
      destruct Hds as [|d ds Hd _]; [done|]. destruct_or! Ht; try done; cbn in Ht; injection Ht as -> Ht; destruct Hsg as [->|[->| ->]]; try done; by injection Ht as ->.
    + destruct t as [|e x]; [done|]. apply andb_true_iff in Hx as [He%bool_decide_eq_true Hx%bool_decide_eq_true].
      apply parse_i64_spec in Hx as [Hm Hr]. right. split; [right; eauto|]. by intros e' x' [= <- <-] _ _.
  - intros [->|[[Ht|(e & x & -> & He & Hm)] Hr]]; [by left; left|by left; right|]. right. split.
    + apply matches_exponent in Hm as (sg & ds & -> & _ & Hne & _). cbn. rewrite length_app. destruct ds; [done|]. cbn. lia.
    + apply andb_true_iff. rewrite !bool_decide_eq_true, parse_i64_spec. eauto.
Qed.

Lemma suffix_ends t f : t = [] ∨ matches SUFFIX t → ends_mantissa f t.
Proof.
  intros [->|H]; [by intros ? ?|]. intros c t' ->. apply matches_suffix in H as [H|(e & x & [= -> ->] & He & _)].
  - unfold SUFFIXES in H. cbn [fmap list_fmap] in H. rewrite !elem_of_cons, elem_of_nil in H. destruct_or! H; try done; by injection H as -> _.
  - cbn in He. rewrite !elem_of_cons, elem_of_nil in He. by destruct_or! He; subst.
Qed.

Lemma mantissa_nonzero w f : existsb (between 49 57) (mantissa w f) = true ↔ nonzero_in (w ++ default [] f).
Proof.
  unfold mantissa, nonzero_in. rewrite existsb_Exists, !Exists_app. destruct f as [f|]; cbn.
  - rewrite Exists_cons. split; [intros [?|[?|?]]; auto; done|]. intros [?|?]; auto.
  - done.
Qed.

Lemma mantissa_no_mark w f c : digits w → digits (default [] f) → c ∈ mantissa w f → is_digit c = true ∨ c = "."%char.
Proof.
  intros Hw Hf. unfold mantissa. rewrite elem_of_app. intros [H|H]; [left; by eapply Forall_forall in Hw|].
  destruct f as [f|]; [|by apply elem_of_nil in H]. apply elem_of_cons in H as [->|H]; [by right|left]. by eapply Forall_forall in Hf.
Qed.

(** Only the suffix can hold an exponent. *)
Lemma exponent_fits_suffix p t : (∀ c, c ∈ p → c ∉ asc "eE") → matches SUFFIX t →
  exponent_fits (p ++ t) ↔ ∀ e x, t = e :: x → e ∈ asc "eE" → matches EXPONENT x → (i64_min <= exponent_value x <= i64_max)%Z.
Proof.
  intros Hp Ht. unfold exponent_fits. split; [intros H e x -> He Hx; by eapply H|].
  intros H m e x E He Hx. apply app_eq_inv in E as [(k & -> & E)|(k & -> & E)].
  - destruct k as [|y k]; [by eapply H|]. injection E as <- ->. destruct (Hp e); [|done]. set_solver.
  - destruct k as [|y k]; [by eapply H|]. exfalso. subst t. apply matches_suffix in Ht as [Ht|(e' & x' & [= -> <-] & _ & Hx')].
    + unfold SUFFIXES in Ht. cbn [fmap list_fmap] in Ht. rewrite !elem_of_cons, elem_of_nil in Ht.
      destruct_or! Ht; try done; cbn in Ht; injection Ht as _ Ht; destruct k as [|? [|? k]]; try done; cbn in Ht;
        injection Ht as ? ?; subst; cbn in He; rewrite !elem_of_cons, elem_of_nil in He; by destruct_or! He.
    + apply matches_exponent in Hx' as (sg & ds & E & Hsg & _ & Hds). assert (Hin : e ∈ sg ++ ds) by (rewrite <- E; set_solver).
      apply elem_of_app in Hin as [Hin|Hin].
      * destruct Hsg as [->|[->| ->]]; [by apply elem_of_nil in Hin|..]; apply list_elem_of_singleton in Hin as ->; cbn in He;
          rewrite !elem_of_cons, elem_of_nil in He; by destruct_or! He.
      * eapply Forall_forall in Hds; [|exact Hin]. by apply sign_not_digit in Hds as (_ & _ & _ & []).
Qed.

Lemma positive_body_pattern p rest : (∀ c, c ∈ p → c ∉ asc "eE") →
  positive_body rest = true ↔ matches (RCat MANTISSA (ROpt SUFFIX)) rest ∧ exponent_fits (p ++ rest).
Proof.
  intros Hp. destruct (end_of_split rest) as (w & f & t & -> & Hw & Hf & Ht). unfold positive_body.
  rewrite (end_of_mantissa w f t Hw Hf Ht), take_app_length, drop_app_length, andb_true_iff, mantissa_nonzero, suffix_ok_spec.
  assert (Hp' : ∀ c, c ∈ p ++ mantissa w f → c ∉ asc "eE").
  { intros c [H|H]%elem_of_app; [by apply Hp|]. apply mantissa_no_mark in H as [H| ->]; [by apply sign_not_digit in H as (_ & _ & _ & ?)| |done|done].
    cbn. by rewrite !elem_of_cons, elem_of_nil; intros H; destruct_or! H. }
  rewrite matches_cat, app_assoc. setoid_rewrite matches_opt. split.
  - intros [Hn Hs]. split.
    + exists (mantissa w f), t. split_and!; [done|apply matches_mantissa; eauto 10|]. destruct Hs as [->|[Hs _]]; auto.
    + destruct Hs as [->|[Hs Hr]]; [|by apply exponent_fits_suffix]. rewrite app_nil_r. intros m e x E He _. destruct (Hp' e); [|done]. rewrite E. set_solver.
  - intros [(s1 & t' & E & Hm & Hs) Hfit]. apply matches_mantissa in Hm as (w' & f' & -> & Hw' & Hf' & Hn).
    pose proof (end_of_mantissa w f t Hw Hf Ht) as E1. rewrite E, (end_of_mantissa w' f' t' Hw' Hf' (suffix_ends _ _ Hs)) in E1.
    apply app_inj_1 in E as [Em ->]; [|done]. split; [by rewrite <- mantissa_nonzero, Em, mantissa_nonzero|].
    destruct Hs as [->|Hs]; [by left|]. right. split; [done|]. by eapply exponent_fits_suffix.
Qed.

(** C34: The operator's test of a quantity more than zero is the pattern of the resource's
    schema, on every text, but that it refuses an exponent that does not fit 64 bits. *)
Theorem is_positive_pattern s : is_positive s = true ↔ re_match POSITIVE_PATTERN s = true ∧ exponent_fits s.
Proof.
  rewrite re_match_spec, is_positive_body. unfold POSITIVE_PATTERN. rewrite matches_cat. setoid_rewrite matches_opt. setoid_rewrite matches_lit.
  assert (Hnil : ∀ c : ascii, c ∈ [] → c ∉ asc "eE") by (intros c H; by apply elem_of_nil in H).
  assert (Hplus : ∀ c : ascii, c ∈ ["+"%char] → c ∉ asc "eE").
  { intros c ->%list_elem_of_singleton. cbn. by rewrite !elem_of_cons, elem_of_nil; intros H; destruct_or! H. }
  assert (Hhd : ∀ c t, matches (RCat MANTISSA (ROpt SUFFIX)) (c :: t) → c ≠ "-"%char ∧ c ≠ "+"%char).
  { intros c t (s1 & s2 & E & (w & f & -> & Hw & Hf & Hn)%matches_mantissa & _)%matches_cat. unfold mantissa in E.
    destruct Hw as [|x w Hx _]; [|injection E as -> _; by apply sign_not_digit in Hx as (? & ? & _)].
    destruct f as [f|]; [by injection E as -> _|]. by apply Exists_nil in Hn. }
  destruct s as [|c s].
  { rewrite (positive_body_pattern [] [] Hnil). split; [intros [H ?]; split; [by exists [], []; eauto|done]|].
    intros [(s1 & s2 & E & _ & H) ?]. symmetry in E. apply app_eq_nil in E as [_ ->]. done. }
  case_bool_decide as Hm; [|case_bool_decide as Hc].
  - subst c. split; [done|]. intros [(s1 & s2 & E & [->| ->] & H) _]; [|by injection E]. cbn in E. subst s2. by destruct (Hhd _ _ H) as [].
  - subst c. rewrite (positive_body_pattern ["+"%char] s Hplus). split; [intros [H ?]; split; [exists ["+"%char], s; eauto|done]|].
    intros [(s1 & s2 & E & [->| ->] & H) ?]; [cbn in E; subst s2; by destruct (Hhd _ _ H) as [_ []]|]. injection E as ->. done.
  - rewrite (positive_body_pattern [] (c :: s) Hnil). split; [intros [H ?]; split; [by exists [], (c :: s); eauto|done]|].
    intros [(s1 & s2 & E & [->| ->] & H) ?]; [cbn in E; by subst s2|by injection E].
Qed.

Example positive_texts :
  (is_positive <$> (asc <$> ["10Gi"; "1e+9"; ".5"; "5."; "+1"; "0.0Gi"; "-1"; "1e3Ki"; "1e9223372036854775807"; "1e9223372036854775808"]%string)) =
  [true; true; true; true; true; false; false; false; true; false].
Proof. vm_compute. reflexivity. Qed.
