(* ===== verification/Admission.v ===== *)
(** * Admission of runs and code locations (rust/rivers-operator/src/webhook/admission.rs)

    What the webhook decides on a create or an update of a [Run] or a [CodeLocation], the
    fields it stamps, and the rules of git urls and paths. A rejection is known by its cause;
    of the two resources, the fields the webhook reads or writes are kept. The url parser, the
    pattern of image references ([ImageRef]'s [FromStr]), the version of a parsed uuid and the
    API server's answer to a [GET] are parameters. *)

From S2P Require Import Prelude GitRefs Quantity.

(** ** Text *)
Definition bytes (l : list N) : Bytes := ascii_of_N <$> l.

(** The UTF-8 of the characters Unicode calls white space. *)
Definition WHITE_SPACE : list Bytes :=
  bytes <$> ([[9]; [10]; [11]; [12]; [13]; [32]; [194; 133]; [194; 160]; [225; 154; 128]] ++
    ((λ n, [226; 128; n]) <$> [128; 129; 130; 131; 132; 133; 134; 135; 136; 137; 138; 168; 169; 175]) ++
    [[226; 129; 159]; [227; 128; 128]])%N.

Fixpoint strip_any (ps : list Bytes) (s : Bytes) : option Bytes :=
  match ps with [] => None | p :: ps => match strip_prefix p s with Some t => Some t | None => strip_any ps s end end.

Fixpoint strip_all (fuel : nat) (ps : list Bytes) (s : Bytes) : Bytes :=
  match fuel with O => s | S fuel => match strip_any ps s with Some t => strip_all fuel ps t | None => s end end.

(** [str::trim] *)
Definition trim (s : Bytes) : Bytes :=
  let t := strip_all (length s) WHITE_SPACE s in
  reverse (strip_all (length t) (reverse <$> WHITE_SPACE) (reverse t)).

(** [split('/')] *)
Fixpoint split_slash (s : Bytes) : list Bytes :=
  match s with
  | [] => [[]]
  | c :: s =>
      if bool_decide (c = "/"%char) then [] :: split_slash s
      else match split_slash s with seg :: segs => (c :: seg) :: segs | [] => [[c]] end
  end.

Definition to_lower (c : ascii) : ascii := if between 65 90 c then ascii_of_N (code c + 32) else c.

Definition eq_ignore_ascii_case (a b : Bytes) : bool := bool_decide (to_lower <$> a = to_lower <$> b).

Definition is_hexdigit (c : ascii) : bool := between 48 57 c || between 97 102 c || between 65 70 c.

Definition is_digest_reference (reference : Bytes) : bool :=
  match split_once_at (asc "@sha256:") reference with
  | None => false
  | Some (_, digest) => (length digest =? 64)%nat && forallb is_hexdigit digest
  end.

(** ** Resources *)
Inductive DependencyMode := Auto | UvSync | Requirements | NoneMode.

#[export] Instance DependencyMode_eq_dec : EqDecision DependencyMode.
Proof. solve_decision. Defined.

Record Dependencies := {
  dp_mode : DependencyMode; dp_files : list Bytes; dp_extras : list Bytes; dp_groups : list Bytes; dp_timeout_seconds : option N
}.

#[export] Instance Dependencies_eq_dec : EqDecision Dependencies.
Proof. solve_decision. Defined.

Record GitCoordinates := {
  gc_url : Bytes; gc_commit : Bytes; gc_ref : option Bytes; gc_path : option Bytes; gc_secret_name : option Bytes
}.

#[export] Instance GitCoordinates_eq_dec : EqDecision GitCoordinates.
Proof. solve_decision. Defined.

Record RunSource := { so_git : GitCoordinates; so_dependencies : Dependencies; so_runtime_image : Bytes }.

#[export] Instance RunSource_eq_dec : EqDecision RunSource.
Proof. solve_decision. Defined.

Record CodeLocationRef := { lr_name : Bytes; lr_identity : Bytes }.

#[export] Instance CodeLocationRef_eq_dec : EqDecision CodeLocationRef.
Proof. solve_decision. Defined.

Record RunSpec := { sp_code_location_ref : CodeLocationRef; sp_image : Bytes; sp_module : Bytes; sp_source : option RunSource }.

#[export] Instance GitRef_eq_dec : EqDecision GitRef.
Proof. solve_decision. Defined.

Record GitSource := {
  gs_url : Bytes; gs_ref : GitRef; gs_path : option Bytes; gs_secret_ref : option Bytes; gs_poll_interval : option Bytes;
  gs_dependencies : Dependencies; gs_workspace_size : option Bytes
}.

#[export] Instance GitSource_eq_dec : EqDecision GitSource.
Proof. solve_decision. Defined.

Record CodeLocationSpec := {
  cs_identity : Bytes; cs_image : option Bytes; cs_git : option GitSource; cs_tag : option Bytes; cs_digest : option Bytes;
  cs_module : Bytes; cs_replicas : Z
}.

Inductive CodeLocationPhase := Pending | Deploying | Ready | Failed.

#[export] Instance CodeLocationPhase_eq_dec : EqDecision CodeLocationPhase.
Proof. solve_decision. Defined.

Record CodeLocationCondition := {
  cn_type : Bytes; cn_status : Bytes; cn_last_transition_time : option Bytes; cn_reason : option Bytes; cn_message : option Bytes
}.

#[export] Instance CodeLocationCondition_eq_dec : EqDecision CodeLocationCondition.
Proof. solve_decision. Defined.

Record CodeLocationStatus := {
  ct_phase : option CodeLocationPhase; ct_observed_generation : option Z; ct_resolved_image : option Bytes; ct_grpc_endpoint : option Bytes;
  ct_last_reconciled : option Bytes; ct_ready_replicas : option Z; ct_message : option Bytes; ct_conditions : list CodeLocationCondition;
  ct_source : option Bytes; ct_resolved_commit : option Bytes; ct_resolved_ref : option Bytes; ct_last_fetched_at : option Bytes;
  ct_run_source : option RunSource
}.

#[export] Instance CodeLocationStatus_eq_dec : EqDecision CodeLocationStatus.
Proof. solve_decision. Defined.

Record CodeLocation := { cl_generation : option Z; cl_deleting : bool; cl_spec : CodeLocationSpec; cl_status : option CodeLocationStatus }.

Record ImageRef := { im_repository : Bytes; im_tag : option Bytes; im_digest : option Bytes }.

Definition wanted_image (spec : CodeLocationSpec) (runtime_default : ImageRef) : ImageRef :=
  let digest := non_empty (cs_digest spec) in
  match cs_image spec with
  | Some image => {| im_repository := image; im_tag := cs_tag spec; im_digest := digest |}
  | None =>
      if bool_decide (digest = None) && bool_decide (cs_tag spec = None) then runtime_default
      else {| im_repository := im_repository runtime_default; im_tag := cs_tag spec; im_digest := digest |}
  end.

(** ** Requests *)
Inductive Operation := Create | Update | Delete | Connect.

Record AdmissionRequest (A : Type) := { ar_operation : Operation; ar_namespace : option Bytes; ar_object : option A; ar_old_object : option A }.
Arguments ar_operation {A}.
Arguments ar_namespace {A}.
Arguments ar_object {A}.
Arguments ar_old_object {A}.

Record GitConfig := { gcf_allow_insecure : bool; gcf_allowed_hosts : list Bytes }.

Record AdmissionDeps := {
  ad_directory : gmap (Bytes * Bytes) CodeLocation;
  ad_code_locations : option (Bytes → unit + option CodeLocation);
  ad_runtime_image : ImageRef;
  ad_git : GitConfig
}.

Inductive Rejection :=
| UnexpectedOperation | MissingObject | MissingOldObject | NameRequired | MissingNamespace
| NotADigest | SourceIsStamped | CodeLocationNotFound | LookupFailed | NotReady | NoTree | NoImage
| BadCommit | EmptyUrl | UrlUnparsed | SshUserMissing | UrlRefused (e : GitError) | NoHost | HostNotAllowed
| PathAbsolute | PathEscapes | PathSegment
| RuntimeNotADigest | NotGitSourced | UrlMismatch | SecretMismatch | RepositoryMismatch
| ImageImmutable | ModuleImmutable | RefImmutable | SourceImmutable
| NoSource | BadRef | BadSize | BadReplicas | BadIdentity | IdentityImmutable.

(** [Result<(), String>] *)
Definition Verdict : Type := Rejection + unit.

Declare Scope verdict_scope.
Delimit Scope verdict_scope with verdict.
(** [?] on a verdict, then what follows *)
Notation "v ?; k" := (match v with inl e => inl e | inr _ => k end) (at level 100, k at level 200, right associativity) : verdict_scope.

Definition unless (b : bool) (e : Rejection) : Verdict := if b then inr tt else inl e.

Definition on_some {A} (o : option A) (f : A → Verdict) : Verdict := match o with Some a => f a | None => inr tt end.

Inductive RunOutcome :=
| RunMutated (image module identity : Bytes) (source : option RunSource)
| RunAcceptedAsIs
| RunUpdateAllowed
| RunRejected (r : Rejection).

Inductive CodeLocationOutcome :=
| IdentityStamped (uuid : Bytes)
| ClAcceptedAsIs
| ClUpdateAllowed
| ClRejected (r : Rejection).

(** A git url and the Secret whose credentials go to it. *)
Record GitRemote := { rm_url : Bytes; rm_secret : option Bytes }.

#[export] Instance GitRemote_eq_dec : EqDecision GitRemote.
Proof. solve_decision. Defined.

Definition host_allowed (host : Bytes) (allowed : list Bytes) : bool :=
  bool_decide (allowed = []) || existsb (λ a, eq_ignore_ascii_case a host) allowed.

Definition validate_replicas (replicas : Z) : Verdict := unless ((0 <=? replicas)%Z && (replicas <=? 1)%Z) BadReplicas.

Definition validate_git_path (path : Bytes) : Verdict :=
  if starts_with path (asc "/") then inl PathAbsolute
  else if bool_decide (path = []) then inr tt
  else
    let segments := split_slash (default path (strip_suffix (asc "/") path)) in
    if bool_decide (asc ".." ∈ segments) then inl PathEscapes
    else if existsb (λ s, bool_decide (s = []) || bool_decide (s = asc ".")) segments then inl PathSegment
    else inr tt.

Definition lookup_code_location_with_fallback (deps : AdmissionDeps) (namespace name : Bytes) : unit + option CodeLocation :=
  match cl ← ad_directory deps !! (namespace, name); if bool_decide (is_Some (cl_status cl)) then Some cl else None with
  | Some cl => inr (Some cl)
  | None => match ad_code_locations deps with None => inr None | Some get_opt => get_opt name end
  end.

(** The remotes a code location names, its own first. *)
Definition remotes_of (cl : CodeLocation) : list GitRemote :=
  let own := match cs_git (cl_spec cl) with Some git => [{| rm_url := gs_url git; rm_secret := gs_secret_ref git |}] | None => [] end in
  match cl_status cl ≫= ct_run_source with
  | Some serving =>
      let remote := {| rm_url := gc_url (so_git serving); rm_secret := gc_secret_name (so_git serving) |} in
      if bool_decide (remote ∈ own) then own else own ++ [remote]
  | None => own
  end.

Definition check_git_remote (source : GitCoordinates) (cl : CodeLocation) : Verdict :=
  let remotes := remotes_of cl in
  if bool_decide (remotes = []) then inl NotGitSourced
  else
    let same_url := filter (λ r, rm_url r = gc_url source) remotes in
    if bool_decide (same_url = []) then inl UrlMismatch
    else unless (existsb (λ r, bool_decide (rm_secret r = gc_secret_name source)) same_url) SecretMismatch.

Section admission.
(** [Url::parse], [ImageRef::from_str] and the version of [Uuid::parse_str] *)
Context (url_parse : Bytes → option Url) (image_parse : Bytes → option ImageRef) (uuid_version : Bytes → option N).

Definition is_uuid_v4 (s : Bytes) : bool := match uuid_version s with Some v => (v =? 4)%N | None => false end.

Definition validate_git_url (raw : Bytes) (git_config : GitConfig) : Verdict :=
  match url_parse raw with
  | None => inl UrlUnparsed
  | Some url =>
      match check_url url_parse raw (gcf_allow_insecure git_config) with
      | inl AuthFailed =>
          if bool_decide (u_scheme url = asc "ssh") && bool_decide (u_username url = []) then inl SshUserMissing else inl (UrlRefused AuthFailed)
      | inl e => inl (UrlRefused e)
      | inr _ =>
          match u_host_str url with
          | None => inl NoHost
          | Some host => unless (host_allowed host (gcf_allowed_hosts git_config)) HostNotAllowed
          end
      end
  end.

Definition validate_git_source (cl : CodeLocation) (git_config : GitConfig) : Verdict :=
  (unless (negb (bool_decide (cs_image (cl_spec cl) = None) && bool_decide (cs_git (cl_spec cl) = None))) NoSource ?;
   on_some (cs_git (cl_spec cl)) (λ git,
     unless (validate_ref (gs_ref git)) BadRef ?;
     validate_git_url (gs_url git) git_config ?;
     on_some (gs_path git) validate_git_path ?;
     on_some (gs_workspace_size git) (λ size, unless (is_positive size) BadSize)))%verdict.

(** The repositories a self-stamped runtime image may come from. *)
Definition repositories_of (deps : AdmissionDeps) (cl : CodeLocation) : list Bytes :=
  let resolved := match (cl_status cl ≫= ct_resolved_image) ≫= image_parse with Some image => [im_repository image] | None => [] end in
  let wanted := im_repository (wanted_image (cl_spec cl) (ad_runtime_image deps)) in
  if bool_decide (wanted ∈ resolved) then resolved else resolved ++ [wanted].

Definition check_self_stamped_source (source : RunSource) (namespace name : Bytes) (deps : AdmissionDeps) : Verdict :=
  let git := so_git source in
  (unless (validate_commit (gc_commit git)) BadCommit ?;
   unless (negb (bool_decide (gc_url git = []))) EmptyUrl ?;
   validate_git_url (gc_url git) (ad_git deps) ?;
   on_some (gc_path git) validate_git_path ?;
   match image_parse (so_runtime_image source) with
   | Some {| im_repository := repository; im_digest := Some _ |} =>
       match lookup_code_location_with_fallback deps namespace name with
       | inl _ => inl LookupFailed
       | inr None => inl CodeLocationNotFound
       | inr (Some cl) =>
           check_git_remote git cl ?;
           unless (bool_decide (repository ∈ repositories_of deps cl)) RepositoryMismatch
       end
   | _ => inl RuntimeNotADigest
   end)%verdict.

(** The path on which the webhook writes image, module, identity and source. *)
Definition stamp_from (deps : AdmissionDeps) (ref_ns ref_name : Bytes) : RunOutcome :=
  match lookup_code_location_with_fallback deps ref_ns ref_name with
  | inl _ => RunRejected LookupFailed
  | inr None => RunRejected CodeLocationNotFound
  | inr (Some cl) =>
      match cl_status cl with
      | Some {| ct_phase := Some Ready; ct_resolved_image := resolved_image; ct_run_source := source |} =>
          if bool_decide (source = None) && bool_decide (is_Some (cs_git (cl_spec cl))) then RunRejected NoTree
          else
            let image := match source with Some source => so_runtime_image source | None => default [] resolved_image end in
            if bool_decide (image = []) then RunRejected NoImage
            else RunMutated image (cs_module (cl_spec cl)) (cs_identity (cl_spec cl)) source
      | _ => RunRejected NotReady
      end
  end.

Definition mutate_run_on_create (req : AdmissionRequest RunSpec) (deps : AdmissionDeps) : RunOutcome :=
  match ar_object req with
  | None => RunRejected MissingObject
  | Some run =>
      let ref_name := trim (lr_name (sp_code_location_ref run)) in
      if bool_decide (ref_name = []) then RunRejected NameRequired
      else
        match ar_namespace req with
        | None => RunRejected MissingNamespace
        | Some ref_ns =>
            if negb (bool_decide (sp_image run = [])) then
              if negb (is_digest_reference (sp_image run)) then RunRejected NotADigest
              else
                match sp_source run with
                | Some source =>
                    match check_self_stamped_source source ref_ns ref_name deps with
                    | inl message => RunRejected message
                    | inr _ => RunAcceptedAsIs
                    end
                | None => RunAcceptedAsIs
                end
            else if bool_decide (is_Some (sp_source run)) then RunRejected SourceIsStamped
            else stamp_from deps ref_ns ref_name
        end
  end.

Definition check_run_update (req : AdmissionRequest RunSpec) : RunOutcome :=
  match ar_object req, ar_old_object req with
  | Some new, Some old =>
      if negb (bool_decide (sp_image new = sp_image old)) then RunRejected ImageImmutable
      else if negb (bool_decide (sp_module new = sp_module old)) then RunRejected ModuleImmutable
      else if negb (bool_decide (sp_code_location_ref new = sp_code_location_ref old)) then RunRejected RefImmutable
      else if negb (bool_decide (sp_source new = sp_source old)) then RunRejected SourceImmutable
      else RunUpdateAllowed
  | _, _ => RunRejected MissingOldObject
  end.

Definition mutate_run (req : AdmissionRequest RunSpec) (deps : AdmissionDeps) : RunOutcome :=
  match ar_operation req with
  | Create => mutate_run_on_create req deps
  | Update => check_run_update req
  | _ => RunRejected UnexpectedOperation
  end.

(** [Uuid::new_v4] draws [stamp]. *)
Definition mutate_codelocation_on_create (stamp : Bytes) (req : AdmissionRequest CodeLocation) (git : GitConfig) : CodeLocationOutcome :=
  match ar_object req with
  | None => ClRejected MissingObject
  | Some cl =>
      match (validate_git_source cl git ?; validate_replicas (cs_replicas (cl_spec cl)))%verdict with
      | inl message => ClRejected message
      | inr _ =>
          let identity := trim (cs_identity (cl_spec cl)) in
          if bool_decide (identity = []) then IdentityStamped stamp
          else if negb (is_uuid_v4 identity) then ClRejected BadIdentity
          else ClAcceptedAsIs
      end
  end.

Definition check_codelocation_update (req : AdmissionRequest CodeLocation) (git : GitConfig) : CodeLocationOutcome :=
  match ar_object req, ar_old_object req with
  | Some new, Some old =>
      let ns := cl_spec new in let os := cl_spec old in
      if negb (bool_decide (cs_identity ns = cs_identity os)) then ClRejected IdentityImmutable
      else
        let source_changed := negb (bool_decide (cs_git ns = cs_git os)) || negb (bool_decide (cs_image ns = cs_image os)) in
        let deleting := cl_deleting new in
        match (if source_changed && negb deleting then validate_git_source new git else inr tt) with
        | inl message => ClRejected message
        | inr _ =>
            match (if negb (bool_decide (cs_replicas ns = cs_replicas os)) && negb deleting then validate_replicas (cs_replicas ns) else inr tt) with
            | inl message => ClRejected message
            | inr _ => ClUpdateAllowed
            end
        end
  | _, _ => ClRejected MissingOldObject
  end.

Definition mutate_codelocation (stamp : Bytes) (req : AdmissionRequest CodeLocation) (git : GitConfig) : CodeLocationOutcome :=
  match ar_operation req with
  | Create => mutate_codelocation_on_create stamp req git
  | Update => check_codelocation_update req git
  | _ => ClRejected UnexpectedOperation
  end.
End admission.

(** ** What the API server stores

    The patch of an answer, as the fields it sets. *)
Inductive RunPatch :=
| SetImage (image : Bytes)
| SetModule (module : Bytes)
| SetIdentity (identity : Bytes)
| SetSource (source : RunSource).

Definition run_patch (image module identity : Bytes) (source : option RunSource) : list RunPatch :=
  [SetImage image; SetModule module; SetIdentity identity] ++ match source with Some source => [SetSource source] | None => [] end.

Definition apply_run_patch (r : RunSpec) (op : RunPatch) : RunSpec :=
  match op with
  | SetImage image => {| sp_code_location_ref := sp_code_location_ref r; sp_image := image; sp_module := sp_module r; sp_source := sp_source r |}
  | SetModule module => {| sp_code_location_ref := sp_code_location_ref r; sp_image := sp_image r; sp_module := module; sp_source := sp_source r |}
  | SetIdentity identity =>
      {| sp_code_location_ref := {| lr_name := lr_name (sp_code_location_ref r); lr_identity := identity |};
         sp_image := sp_image r; sp_module := sp_module r; sp_source := sp_source r |}
  | SetSource source => {| sp_code_location_ref := sp_code_location_ref r; sp_image := sp_image r; sp_module := sp_module r; sp_source := Some source |}
  end.

(** [run_response_for]: the run an answer lets through, patched. *)
Definition run_response (outcome : RunOutcome) (r : RunSpec) : option RunSpec :=
  match outcome with
  | RunMutated image module identity source => Some (foldl apply_run_patch r (run_patch image module identity source))
  | RunAcceptedAsIs | RunUpdateAllowed => Some r
  | RunRejected _ => None
  end.

Definition with_identity (identity : Bytes) (cl : CodeLocation) : CodeLocation :=
  let s := cl_spec cl in
  {| cl_generation := cl_generation cl; cl_deleting := cl_deleting cl;
     cl_spec := {| cs_identity := identity; cs_image := cs_image s; cs_git := cs_git s; cs_tag := cs_tag s; cs_digest := cs_digest s;
                   cs_module := cs_module s; cs_replicas := cs_replicas s |};
     cl_status := cl_status cl |}.

(** [codelocation_response_for] *)
Definition codelocation_response (outcome : CodeLocationOutcome) (cl : CodeLocation) : option CodeLocation :=
  match outcome with
  | IdentityStamped uuid => Some (with_identity uuid cl)
  | ClAcceptedAsIs | ClUpdateAllowed => Some cl
  | ClRejected _ => None
  end.
