(* ===== verification/AdmissionTheorems.v ===== *)
(** * What the webhook lets through

    Every stored run that carries a git source was given a url and Secret its code location
    names, a live code location keeps the rules of its source, and a path of the checkout has
    one spelling. *)

From S2P Require Import Prelude GitRefs Quantity Admission.

Section admission.
Context (url_parse : Bytes → option Url) (image_parse : Bytes → option ImageRef) (uuid_version : Bytes → option N).

#[local] Abbreviation decide_run := (mutate_run url_parse image_parse).
#[local] Abbreviation decide_cl := (mutate_codelocation url_parse uuid_version).

(** ** Runs *)

(** A run as it is stored after an update the webhook allowed, whatever it then knew. *)
Definition run_updated (old new : RunSpec) : Prop :=
  ∃ req deps, ar_operation req = Update ∧ ar_object req = Some new ∧ ar_old_object req = Some old ∧
    run_response (decide_run req deps) new = Some new.

(** A source the webhook took from the code location. *)
Definition stamped (cl : CodeLocation) (r : RunSpec) (s : RunSource) : Prop :=
  (cl_status cl ≫= ct_run_source) = Some s ∧ (cl_status cl ≫= ct_phase) = Some Ready ∧
  sp_image r = so_runtime_image s ∧ sp_module r = cs_module (cl_spec cl) ∧ lr_identity (sp_code_location_ref r) = cs_identity (cl_spec cl).

(** A source the run came with. *)
Definition self_stamped (deps : AdmissionDeps) (cl : CodeLocation) (r : RunSpec) (s : RunSource) : Prop :=
  is_digest_reference (sp_image r) = true ∧ is_commit_sha (gc_commit (so_git s)) = true ∧
  validate_git_url url_parse (gc_url (so_git s)) (ad_git deps) = inr tt ∧
  on_some (gc_path (so_git s)) validate_git_path = inr tt ∧
  ∃ img, image_parse (so_runtime_image s) = Some img ∧ is_Some (im_digest img) ∧ im_repository img ∈ repositories_of image_parse deps cl.

Definition remote_of (s : RunSource) : GitRemote := {| rm_url := gc_url (so_git s); rm_secret := gc_secret_name (so_git s) |}.

Lemma update_keeps old new : run_updated old new → new = old.
Proof.
  intros (req & deps & Hop & Hn & Ho & Hr). unfold mutate_run in Hr. rewrite Hop in Hr. unfold check_run_update in Hr. rewrite Hn, Ho in Hr.
  repeat (case_bool_decide; [|done]; cbn [negb] in Hr). destruct old, new; cbn in *; congruence.
Qed.

Lemma updates_keep old new : rtc run_updated old new → new = old.
Proof. induction 1 as [|x y z ->%update_keeps _ IH]; [done|]. by apply IH. Qed.

Lemma git_remote_ok source cl : check_git_remote source cl = inr tt → {| rm_url := gc_url source; rm_secret := gc_secret_name source |} ∈ remotes_of cl.
Proof.
  unfold check_git_remote, unless. case_bool_decide; [done|]. case_bool_decide; [done|]. destruct (existsb _ _) eqn:E; [|done]. intros _.
  apply existsb_Exists, Exists_exists in E as ([url secret] & [Hu Hin]%list_elem_of_filter & Es%bool_decide_eq_true). cbn in Hu, Es. by subst url secret.
Qed.

Lemma serving_remote cl s : (cl_status cl ≫= ct_run_source) = Some s → remote_of s ∈ remotes_of cl.
Proof. unfold remotes_of. intros ->. cbn. case_bool_decide; [done|]. apply elem_of_app. right. by left. Qed.

(** Taking a chain of verdicts apart. *)
Lemma unless_ok b e : unless b e = inr tt → b = true.
Proof. by destruct b. Qed.

Lemma verdict_ok (v k : Verdict) : (v ?; k)%verdict = inr tt → v = inr tt ∧ k = inr tt.
Proof. by destruct v as [|[]]. Qed.

Lemma self_stamped_ok s ns name deps :
  check_self_stamped_source url_parse image_parse s ns name deps = inr tt →
  ∃ cl, lookup_code_location_with_fallback deps ns name = inr (Some cl) ∧ remote_of s ∈ remotes_of cl ∧
    ∀ r, is_digest_reference (sp_image r) = true → self_stamped deps cl r s.
Proof.
  unfold check_self_stamped_source. cbv zeta.
  intros [H1%unless_ok [_ [H2 [H3 H]%verdict_ok]%verdict_ok]%verdict_ok]%verdict_ok.
  destruct (image_parse (so_runtime_image s)) as [[repo tag [d|]]|] eqn:Ei; [|done..].
  destruct (lookup_code_location_with_fallback deps ns name) as [|[cl|]]; [done| |done].
  apply verdict_ok in H as [H4%git_remote_ok H5%unless_ok%bool_decide_eq_true]. exists cl. split_and!; [done|done|].
  intros r Hr. split_and!; [done..|]. eexists. split_and!; [exact Ei|by eexists|done].
Qed.

Lemma stamp_ok deps ns name image module identity source :
  stamp_from deps ns name = RunMutated image module identity source → image ≠ [] ∧
  ∃ cl, lookup_code_location_with_fallback deps ns name = inr (Some cl) ∧ module = cs_module (cl_spec cl) ∧ identity = cs_identity (cl_spec cl) ∧
    (cl_status cl ≫= ct_run_source) = source ∧ (cl_status cl ≫= ct_phase) = Some Ready ∧ ∀ s, source = Some s → image = so_runtime_image s.
Proof.
  unfold stamp_from. destruct (lookup_code_location_with_fallback deps ns name) as [|[cl|]]; [done| |done].
  destruct (cl_status cl) as [[[[]|] ? resolved ? ? ? ? ? ? ? ? ? src]|] eqn:Es; [done..| |done|done|done].
  destruct (bool_decide (src = None) && _); [done|]. cbv zeta. case_bool_decide as Hi; [done|]. intros [= <- <- <- <-].
  split; [done|]. exists cl. rewrite Es. split_and!; [done..|]. by intros s ->.
Qed.

Lemma stored_run req deps run r0 :
  ar_operation req = Create → ar_object req = Some run → run_response (decide_run req deps) run = Some r0 →
  sp_image r0 ≠ [] ∧ lr_name (sp_code_location_ref r0) = lr_name (sp_code_location_ref run) ∧
  ∀ s, sp_source r0 = Some s →
    ∃ ns cl, ar_namespace req = Some ns ∧ lookup_code_location_with_fallback deps ns (trim (lr_name (sp_code_location_ref run))) = inr (Some cl) ∧
      remote_of s ∈ remotes_of cl ∧ (stamped cl r0 s ∨ r0 = run ∧ self_stamped deps cl r0 s).
Proof.
  intros Hop Ho. unfold mutate_run, mutate_run_on_create. rewrite Hop, Ho. cbv zeta. case_bool_decide; [done|].
  destruct (ar_namespace req) as [ns|]; [|done]. case_bool_decide as Hi; cbn [negb].
  - case_bool_decide as Hs; [done|]. destruct (stamp_from _ _ _) as [image module identity source| | |] eqn:E.
    4: done.
    2-3: revert E; unfold stamp_from; repeat case_match; congruence.
    destruct (stamp_ok _ _ _ _ _ _ _ E) as (Hne & cl & Hl & -> & -> & Hsrc & Hrdy & Himg). intros [= <-].
    destruct source as [s'|]; cbn; (split_and!; [done|done|]).
    + intros s [= <-]. exists ns, cl. split_and!; [done|done|by apply serving_remote|]. left. split_and!; [done|done|by apply Himg|done|done].
    + intros s E'. destruct Hs. rewrite E'. by eexists.
  - destruct (is_digest_reference (sp_image run)) eqn:Ed; [|done]. cbn [negb]. destruct (sp_source run) as [s|] eqn:Es.
    + destruct (check_self_stamped_source _ _ _ _ _ _) as [|[]] eqn:Ec; [done|]. intros [= <-]. split_and!; [done|done|].
      rewrite Es. intros s' [= <-]. destruct (self_stamped_ok _ _ _ _ Ec) as (cl & Hl & Hr & Hst). exists ns, cl. eauto 10.
    + intros [= <-]. split_and!; [done|done|]. by rewrite Es.
Qed.

(** ** Code locations *)

(** The rules of a source, as the webhook checks them. *)
Definition rules (git : GitConfig) (cl : CodeLocation) : Prop :=
  validate_git_source url_parse cl git = inr tt ∧ (0 <= cs_replicas (cl_spec cl) <= 1)%Z.

(** How a stored code location changes: by an update the webhook allows under one of the
    operator's configurations over time, which cannot take a deletion back, or by a write of its
    status. *)
Inductive cl_step (gits : GitConfig → Prop) (old : CodeLocation) : CodeLocation → Prop :=
| cl_update git req stamp new :
    gits git → ar_operation req = Update → ar_object req = Some new → ar_old_object req = Some old →
    codelocation_response (decide_cl stamp req git) new = Some new → (cl_deleting old = true → cl_deleting new = true) → cl_step gits old new
| cl_status_write status : cl_step gits old {| cl_generation := cl_generation old; cl_deleting := cl_deleting old; cl_spec := cl_spec old; cl_status := status |}.

Lemma rules_congr git old new :
  cs_git (cl_spec new) = cs_git (cl_spec old) → cs_image (cl_spec new) = cs_image (cl_spec old) →
  validate_git_source url_parse new git = validate_git_source url_parse old git.
Proof. unfold validate_git_source. by intros -> ->. Qed.

Lemma replicas_ok n : validate_replicas n = inr tt ↔ (0 <= n <= 1)%Z.
Proof. unfold validate_replicas, unless. destruct (_ && _) eqn:E; [apply andb_true_iff in E as [?%Z.leb_le ?%Z.leb_le]; split; [lia|done]|].
  apply andb_false_iff in E. rewrite !Z.leb_gt in E. split; [done|lia]. Qed.

(** The rules of some configuration of the operator. *)
Definition rules_of (gits : GitConfig → Prop) (cl : CodeLocation) : Prop := ∃ git, gits git ∧ rules git cl.

Lemma update_rules (gits : GitConfig → Prop) git req stamp old new :
  gits git → ar_operation req = Update → ar_object req = Some new → ar_old_object req = Some old →
  codelocation_response (decide_cl stamp req git) new = Some new →
  cs_identity (cl_spec new) = cs_identity (cl_spec old) ∧ (cl_deleting new = false → rules_of gits old → rules_of gits new).
Proof.
  intros Hg Hop Hn Ho. unfold mutate_codelocation. rewrite Hop. unfold check_codelocation_update. rewrite Hn, Ho. cbv zeta.
  case_bool_decide as Hid; [|done]. cbn [negb]. destruct (if _ && _ then validate_git_source _ _ _ else _) as [|[]] eqn:E1; [done|].
  destruct (if _ && _ then validate_replicas _ else _) as [|[]] eqn:E2; [done|]. intros _. split; [done|].
  intros Hd (git0 & Hg0 & R1 & R2). rewrite Hd, andb_true_r in E1, E2.
  assert (R : (0 <= cs_replicas (cl_spec new) <= 1)%Z) by (case_bool_decide as E; [by rewrite E|by apply replicas_ok]).
  destruct (_ || _) eqn:E; [by exists git|]. apply orb_false_iff in E as [E3%negb_false_iff%bool_decide_eq_true E4%negb_false_iff%bool_decide_eq_true].
  exists git0. split; [done|]. split; [|done]. by rewrite (rules_congr git0 old new).
Qed.

Lemma step_keeps gits old new : cl_step gits old new →
  cs_identity (cl_spec new) = cs_identity (cl_spec old) ∧ ((cl_deleting old = false → rules_of gits old) → cl_deleting new = false → rules_of gits new).
Proof.
  intros [git req stamp new' Hg Hop Hn Ho Hr Hd|status]; [|done]. destruct (update_rules gits git req stamp old new' Hg Hop Hn Ho Hr) as [Hid Hru].
  split; [done|]. intros H Hl. apply Hru; [done|]. apply H. destruct (cl_deleting old); [|done]. by rewrite Hd in Hl.
Qed.

Lemma steps_keep gits old new : rtc (cl_step gits) old new →
  cs_identity (cl_spec new) = cs_identity (cl_spec old) ∧ ((cl_deleting old = false → rules_of gits old) → cl_deleting new = false → rules_of gits new).
Proof. induction 1 as [|x y z [E1 H1]%step_keeps _ [E2 H2]]; [done|]. split; [congruence|auto]. Qed.

Lemma created_rules git req stamp cl cl0 :
  ar_operation req = Create → ar_object req = Some cl → codelocation_response (decide_cl stamp req git) cl = Some cl0 →
  rules git cl0 ∧ (trim (cs_identity (cl_spec cl)) = [] ∧ cs_identity (cl_spec cl0) = stamp ∨
    cs_identity (cl_spec cl0) = cs_identity (cl_spec cl) ∧ is_uuid_v4 uuid_version (trim (cs_identity (cl_spec cl))) = true).
Proof.
  intros Hop Ho. unfold mutate_codelocation. rewrite Hop. unfold mutate_codelocation_on_create. rewrite Ho.
  destruct (_ ?; _)%verdict as [|[]] eqn:E; [done|]. apply verdict_ok in E as [E1 E2%replicas_ok]. cbv zeta. case_bool_decide as Hid.
  - intros [= <-]. split; [|by left]. split; [by rewrite (rules_congr git cl)|done].
  - destruct (is_uuid_v4 _ _) eqn:Eu; [|done]. intros [= <-]. split; [by split|]. by right.
Qed.

(** C9: A stored run that carries a git source, however it was created and updated, names a
    url and a Secret that its code location named together when it was created. Either the
    webhook stamped it with the tree, image, module and identity of a ready code location, or
    the run came with a full commit, a url and path the rules allow, and a digest of an image
    from the code location's own repositories. No update changes any of this. *)
Theorem run_source_confined req deps run r0 r :
  ar_operation req = Create → ar_object req = Some run → run_response (decide_run req deps) run = Some r0 → rtc run_updated r0 r →
  sp_image r ≠ [] ∧
  ∀ s, sp_source r = Some s →
    ∃ ns cl, ar_namespace req = Some ns ∧ lookup_code_location_with_fallback deps ns (trim (lr_name (sp_code_location_ref r))) = inr (Some cl) ∧
      remote_of s ∈ remotes_of cl ∧ (stamped cl r s ∨ r = run ∧ self_stamped deps cl r s).
Proof.
  intros Hop Ho Hr ->%updates_keep. destruct (stored_run req deps run r0 Hop Ho Hr) as (Hi & -> & Hs). by split.
Qed.

(** C31: However it is updated, and however the operator's git configuration changes meanwhile, a
    code location keeps the identity it was created with: the one the webhook stamped when it came
    without, else its own, which reads as a version 4 uuid but for white space around it. And until
    it is deleted its replicas are 0 or 1, and its source, path and workspace size keep the rules of
    one of the configurations the webhook ran with. *)
Theorem codelocation_keeps_rules (gits : GitConfig → Prop) git req stamp cl cl0 cl1 :
  gits git → ar_operation req = Create → ar_object req = Some cl → codelocation_response (decide_cl stamp req git) cl = Some cl0 →
  rtc (cl_step gits) cl0 cl1 →
  (trim (cs_identity (cl_spec cl)) = [] ∧ cs_identity (cl_spec cl1) = stamp ∨
    cs_identity (cl_spec cl1) = cs_identity (cl_spec cl) ∧ is_uuid_v4 uuid_version (trim (cs_identity (cl_spec cl))) = true) ∧
  (cl_deleting cl1 = false → rules_of gits cl1).
Proof.
  intros Hg Hop Ho Hr Hs. destruct (created_rules git req stamp cl cl0 Hop Ho Hr) as [Hru Hid]. destruct (steps_keep gits cl0 cl1 Hs) as [E Hk].
  split; [by rewrite E|]. apply Hk. intros _. by exists git.
Qed.
End admission.

(** ** A code location and a run of it *)
Module AdmissionExample.
Definition remote_url : Bytes := asc "https://git.example/assets".
Definition parse (raw : Bytes) : option Url :=
  if bool_decide (raw = remote_url) then
    Some {| u_scheme := asc "https"; u_username := []; u_password := None; u_host_str := Some (asc "git.example"); u_host := Some (asc "git.example");
            u_port := None; u_path := asc "/assets" |}
  else None.

(** Of the references, those with a digest. *)
Definition image (s : Bytes) : option ImageRef :=
  (λ p, {| im_repository := p.1; im_tag := None; im_digest := Some p.2 |}) <$> split_once "@"%char s.

Definition version (s : Bytes) : option N := if bool_decide (s = asc "9f3c1ab0-0000-4000-8000-000000000000") then Some 4%N else None.

Definition zeros (n : nat) : Bytes := replicate n "0"%char.
Definition pinned : Bytes := asc "ghcr.io/acme/runtime@sha256:" ++ zeros 64.
Definition config : GitConfig := {| gcf_allow_insecure := false; gcf_allowed_hosts := [asc "GIT.example"] |}.
Definition deps0 : Dependencies := {| dp_mode := Auto; dp_files := []; dp_extras := []; dp_groups := []; dp_timeout_seconds := None |}.

Definition spec : CodeLocationSpec :=
  {| cs_identity := []; cs_image := Some (asc "ghcr.io/acme/runtime");
     cs_git := Some {| gs_url := remote_url; gs_ref := {| gr_branch := Some (asc "main"); gr_tag := None; gr_commit := None |};
                       gs_path := Some (asc "services/analytics/"); gs_secret_ref := Some (asc "deploy-key"); gs_poll_interval := None;
                       gs_dependencies := deps0; gs_workspace_size := Some (asc "10Gi") |};
     cs_tag := None; cs_digest := None; cs_module := asc "analytics"; cs_replicas := 1 |}.
Definition fresh_cl : CodeLocation := {| cl_generation := Some 1%Z; cl_deleting := false; cl_spec := spec; cl_status := None |}.
Definition stamp : Bytes := asc "9f3c1ab0-0000-4000-8000-000000000000".
Definition create_cl : AdmissionRequest CodeLocation :=
  {| ar_operation := Create; ar_namespace := Some (asc "team"); ar_object := Some fresh_cl; ar_old_object := None |}.

Definition tree : RunSource :=
  {| so_git := {| gc_url := remote_url; gc_commit := zeros 40; gc_ref := Some (asc "refs/heads/main"); gc_path := Some (asc "services/analytics/");
                  gc_secret_name := Some (asc "deploy-key") |};
     so_dependencies := deps0; so_runtime_image := pinned |}.
Definition serving : CodeLocation :=
  {| cl_generation := Some 1%Z; cl_deleting := false; cl_spec := cl_spec (with_identity stamp fresh_cl);
     cl_status := Some {| ct_phase := Some Ready; ct_observed_generation := Some 1%Z; ct_resolved_image := Some pinned; ct_grpc_endpoint := None;
                          ct_last_reconciled := None; ct_ready_replicas := Some 1%Z; ct_message := None; ct_conditions := []; ct_source := None;
                          ct_resolved_commit := None; ct_resolved_ref := None; ct_last_fetched_at := None; ct_run_source := Some tree |} |}.
Definition known : AdmissionDeps :=
  {| ad_directory := {[ (asc "team", asc "assets") := serving ]}; ad_code_locations := None;
     ad_runtime_image := {| im_repository := asc "ghcr.io/rivers/runtime"; im_tag := None; im_digest := None |}; ad_git := config |}.

(** A run of the code location as a user applies it, and as a pod of it launches one. *)
Definition asked : RunSpec :=
  {| sp_code_location_ref := {| lr_name := asc " assets"; lr_identity := [] |}; sp_image := []; sp_module := []; sp_source := None |}.
Definition launched : RunSpec :=
  {| sp_code_location_ref := {| lr_name := asc "assets"; lr_identity := [] |}; sp_image := pinned; sp_module := asc "analytics"; sp_source := Some tree |}.
Definition create (r : RunSpec) : AdmissionRequest RunSpec :=
  {| ar_operation := Create; ar_namespace := Some (asc "team"); ar_object := Some r; ar_old_object := None |}.

Definition stored : RunSpec :=
  {| sp_code_location_ref := {| lr_name := asc " assets"; lr_identity := stamp |}; sp_image := pinned; sp_module := asc "analytics"; sp_source := Some tree |}.

Lemma asked_stored : run_response (mutate_run parse image (create asked) known) asked = Some stored.
Proof. vm_compute. reflexivity. Qed.

Lemma launched_stored : run_response (mutate_run parse image (create launched) known) launched = Some launched.
Proof. vm_compute. reflexivity. Qed.

(** The runs above carry the remote of their code location. *)
Lemma run_source_confined_witness :
  (∃ ns cl, ar_namespace (create asked) = Some ns ∧ lookup_code_location_with_fallback known ns (trim (asc " assets")) = inr (Some cl) ∧
     remote_of tree ∈ remotes_of cl ∧ (stamped cl stored tree ∨ stored = asked ∧ self_stamped parse image known cl stored tree)) ∧
  (∃ ns cl, ar_namespace (create launched) = Some ns ∧ lookup_code_location_with_fallback known ns (trim (asc "assets")) = inr (Some cl) ∧
     remote_of tree ∈ remotes_of cl ∧ (stamped cl launched tree ∨ launched = launched ∧ self_stamped parse image known cl launched tree)).
Proof.
  split.
  - apply (run_source_confined parse image (create asked) known asked stored stored eq_refl eq_refl asked_stored (rtc_refl _ _)). reflexivity.
  - apply (run_source_confined parse image (create launched) known launched launched launched eq_refl eq_refl launched_stored (rtc_refl _ _)). reflexivity.
Defined.

Lemma cl_stored : codelocation_response (mutate_codelocation parse version stamp create_cl config) fresh_cl = Some (with_identity stamp fresh_cl).
Proof. vm_compute. reflexivity. Qed.

(** The configuration before and after a second host is allowed. *)
Definition wider : GitConfig := {| gcf_allow_insecure := false; gcf_allowed_hosts := [asc "GIT.example"; asc "mirror.example"] |}.
Definition configs (g : GitConfig) : Prop := g = config ∨ g = wider.

(** Moved to another branch under the later configuration. *)
Definition moved : CodeLocation :=
  {| cl_generation := Some 2%Z; cl_deleting := false;
     cl_spec := {| cs_identity := stamp; cs_image := cs_image spec;
                   cs_git := (λ g, {| gs_url := gs_url g; gs_ref := {| gr_branch := Some (asc "next"); gr_tag := None; gr_commit := None |};
                                      gs_path := gs_path g; gs_secret_ref := gs_secret_ref g; gs_poll_interval := gs_poll_interval g;
                                      gs_dependencies := gs_dependencies g; gs_workspace_size := gs_workspace_size g |}) <$> cs_git spec;
                   cs_tag := cs_tag spec; cs_digest := cs_digest spec; cs_module := cs_module spec; cs_replicas := cs_replicas spec |};
     cl_status := cl_status serving |}.
Definition move_cl : AdmissionRequest CodeLocation :=
  {| ar_operation := Update; ar_namespace := Some (asc "team"); ar_object := Some moved; ar_old_object := Some serving |}.

Lemma moved_stored : codelocation_response (mutate_codelocation parse version [] move_cl wider) moved = Some moved.
Proof. vm_compute. reflexivity. Qed.

(** The code location once it serves, and after it is moved. *)
Lemma codelocation_keeps_rules_witness : cs_identity (cl_spec moved) = stamp ∧ rules_of parse configs moved.
Proof.
  destruct (codelocation_keeps_rules parse version configs config create_cl stamp fresh_cl (with_identity stamp fresh_cl) moved
    (or_introl eq_refl) eq_refl eq_refl cl_stored) as [[[_ H]|[_ H]] Hr].
  - apply (rtc_l _ _ serving); [apply (cl_status_write parse version configs (with_identity stamp fresh_cl))|].
    apply rtc_once. apply (cl_update parse version configs serving wider move_cl [] moved (or_intror eq_refl) eq_refl eq_refl eq_refl moved_stored). discriminate.
  - split; [exact H|]. apply Hr. reflexivity.
  - vm_compute in H. discriminate.
Defined.
End AdmissionExample.
