(* ===== verification/WorkspaceKey.v ===== *)
(** * Workspace trees (rust/rivers-crd/src/crd/run.rs, rust/rivers-operator/src/webhook/admission.rs)

    The name of the tree of a run on the workspace volume, and the directory its path leads
    to. SHA-256 and the JSON of the settings are parameters. Paths the webhook accepts stay in
    the checkout and differ as texts exactly when they differ as directories; the name of an
    accepted source is one plain component of a path. *)

From S2P Require Import Prelude GitRefs Quantity Admission AdmissionTheorems.

(** ** Names *)

(** [chars().take(n)]: a character is a byte and the continuations that follow it. *)
Fixpoint take_chars (n : nat) (s : Bytes) : Bytes :=
  match s with
  | [] => []
  | c :: s => if between 128 191 c then c :: take_chars n s else match n with O => [] | S n => c :: take_chars n s end
  end.

Definition is_alphanumeric (c : ascii) : bool := between 48 57 c || between 65 90 c || between 97 122 c.

(** [format!("{:0>8}")] *)
Definition pad8 (s : Bytes) : Bytes := replicate (8 - length s) "0"%char ++ s.

Definition digest8 (image : Bytes) : Bytes :=
  match split_once_at (asc "@sha256:") image with
  | Some (_, hex) => take_chars 8 hex
  | None => pad8 (reverse (take 8 (filter (λ c, is_alphanumeric c = true) (reverse image))))
  end.

Fixpoint drop_slashes (s : Bytes) : Bytes :=
  match s with c :: s' => if bool_decide (c = "/"%char) then drop_slashes s' else s | [] => [] end.

(** [trim_matches('/')] *)
Definition trim_slashes (s : Bytes) : Bytes := reverse (drop_slashes (reverse (drop_slashes s))).

Definition mode_str (m : DependencyMode) : Bytes :=
  match m with Auto => asc "auto" | UvSync => asc "uvSync" | Requirements => asc "requirements" | NoneMode => asc "none" end.

Definition hex_digit (n : N) : ascii := ascii_of_N (if (n <? 10)%N then 48 + n else 87 + n).

(** [format!("{b:02x}")] *)
Definition hex_byte (b : ascii) : Bytes := [hex_digit (code b / 16); hex_digit (code b mod 16)].

(** The tuple that is hashed: the sets of extras and groups as sets. *)
Definition Settings : Type := Bytes * Bytes * list Bytes * gset Bytes * gset Bytes.

Definition settings (s : RunSource) : Settings :=
  let deps := so_dependencies s in
  (trim_slashes (default [] (gc_path (so_git s))), mode_str (dp_mode deps), dp_files deps, list_to_set (dp_extras deps), list_to_set (dp_groups deps)).

Section keys.
(** [serde_json::to_vec] and [Sha256::digest] *)
Context (to_vec : Settings → Bytes) (sha256 : Bytes → Bytes).

Definition settings_hash (s : RunSource) : Bytes := take 4 (sha256 (to_vec (settings s))) ≫= hex_byte.

Definition workspace_key (s : RunSource) : Bytes :=
  take_chars 12 (gc_commit (so_git s)) ++ asc "-" ++ digest8 (so_runtime_image s) ++ asc "-" ++ settings_hash s.
End keys.

(** ** Directories

    Where a relative path leads from the root of a checkout: the names below it, or nowhere
    when it climbs out. *)
Fixpoint walk_path (dir : list Bytes) (segments : list Bytes) : option (list Bytes) :=
  match segments with
  | [] => Some dir
  | s :: segments =>
      if bool_decide (s = []) || bool_decide (s = asc ".") then walk_path dir segments
      else if bool_decide (s = asc "..") then match dir with [] => None | _ :: dir => walk_path dir segments end
      else walk_path (s :: dir) segments
  end.

Definition directory_of (path : Bytes) : option (list Bytes) := reverse <$> walk_path [] (split_slash path).

(** A segment that is a name. *)
Definition plain_segment (s : Bytes) : Prop := s ≠ [] ∧ s ≠ asc "." ∧ s ≠ asc "..".

Lemma walk_plain dir segs : Forall plain_segment segs → walk_path dir segs = Some (reverse segs ++ dir).
Proof.
  intros H. revert dir. induction H as [|s segs (H1 & H2 & H3) _ IH]; intros dir; [done|]. cbn [walk_path].
  rewrite !bool_decide_false by done. cbn [orb]. rewrite IH, reverse_cons, <- app_assoc. done.
Qed.

Lemma walk_app dir a b : walk_path dir (a ++ b) = walk_path dir a ≫= λ d, walk_path d b.
Proof.
  revert dir. induction a as [|s a IH]; intros dir; [done|]. cbn [app walk_path]. destruct (_ || _); [apply IH|]. case_bool_decide; [|apply IH].
  destruct dir; [done|apply IH].
Qed.

Lemma split_slash_cons s : ∃ seg segs, split_slash s = seg :: segs.
Proof. destruct s as [|c s]; [by exists [], []|]. cbn. case_bool_decide; [eauto|]. destruct (split_slash s); eauto. Qed.

Lemma split_slash_snoc s : split_slash (s ++ asc "/") = split_slash s ++ [[]].
Proof.
  induction s as [|c s IH]; [done|]. cbn [app split_slash]. case_bool_decide; [by rewrite IH|]. rewrite IH.
  destruct (split_slash_cons s) as (seg & segs & ->). done.
Qed.

Lemma split_slash_inj s t : split_slash s = split_slash t → s = t.
Proof.
  revert t. induction s as [|c s IH]; intros [|d t]; cbn; [done|..].
  - case_bool_decide; [|by destruct (split_slash t)]. destruct (split_slash_cons t) as (? & ? & ->). done.
  - case_bool_decide; [|by destruct (split_slash s)]. destruct (split_slash_cons s) as (? & ? & ->). done.
  - destruct (split_slash_cons s) as (a & a' & Es), (split_slash_cons t) as (b & b' & Et).
    case_bool_decide; case_bool_decide; rewrite ?Es, ?Et; intros H'; simplify_eq; f_equal; apply IH; congruence.
Qed.

(** ** Accepted paths *)
Lemma strip_prefix_Some p s t : strip_prefix p s = Some t → s = p ++ t.
Proof. revert s. induction p as [|x p IH]; intros [|y s]; cbn; [congruence..|done|]. case_bool_decide as E; [subst y|done]. intros ->%IH. done. Qed.

Lemma strip_suffix_Some p s t : strip_suffix p s = Some t → s = t ++ p.
Proof.
  unfold strip_suffix. intros (u & E%strip_prefix_Some & ->)%fmap_Some. apply (f_equal reverse) in E.
  by rewrite reverse_involutive, reverse_app, reverse_involutive in E.
Qed.

Lemma accepted_path p : validate_git_path p = inr tt →
  p = [] ∨ ∃ q, (p = q ∨ p = q ++ asc "/") ∧ Forall plain_segment (split_slash q).
Proof.
  unfold validate_git_path. destruct (starts_with p _); [done|]. case_bool_decide; [by left|]. cbv zeta. case_bool_decide as Hd; [done|].
  destruct (existsb _ _) eqn:E; [done|]. intros _. right. exists (default p (strip_suffix (asc "/") p)). split.
  - destruct (strip_suffix (asc "/") p) as [q|] eqn:Es; [right|by left]. by apply strip_suffix_Some in Es.
  - apply Forall_forall. intros s Hs. assert (Hb : ¬ (bool_decide (s = []) || bool_decide (s = asc ".")) = true).
    { intros Hb. apply Bool.not_true_iff_false in E. apply E. apply existsb_Exists, Exists_exists. eauto. }
    rewrite orb_true_iff, !bool_decide_eq_true in Hb. split_and!; [tauto|tauto|]. by intros ->.
Qed.

Lemma drop_slashes_plain s : (∀ t, s ≠ "/"%char :: t) → drop_slashes s = s.
Proof. destruct s as [|c s]; [done|]. intros H. cbn. rewrite bool_decide_false; [done|]. intros ->. by apply (H s). Qed.

Lemma plain_ends q : Forall plain_segment (split_slash q) → (∀ t, q ≠ "/"%char :: t) ∧ (∀ t, q ≠ t ++ asc "/") ∧ q ≠ [].
Proof.
  intros H. split_and!.
  - intros t ->. cbn in H. by apply Forall_cons in H as [[] _].
  - intros t ->. rewrite split_slash_snoc, Forall_app, Forall_singleton in H. by destruct H as [_ []].
  - intros ->. by apply Forall_cons in H as [[] _].
Qed.

Lemma trim_plain q : Forall plain_segment (split_slash q) → trim_slashes q = q ∧ trim_slashes (q ++ asc "/") = q.
Proof.
  intros (H1 & H2 & H3)%plain_ends. assert (Hr : drop_slashes (reverse q) = reverse q).
  { apply drop_slashes_plain. intros t E. apply (f_equal reverse) in E. rewrite reverse_involutive, reverse_cons in E. by apply (H2 (reverse t)). }
  unfold trim_slashes. split.
  - by rewrite (drop_slashes_plain q), Hr, reverse_involutive.
  - rewrite (drop_slashes_plain (q ++ _)).
    + rewrite reverse_app. change (reverse (asc "/") ++ reverse q) with ("/"%char :: reverse q). cbn [drop_slashes].
      rewrite bool_decide_true by done. by rewrite Hr, reverse_involutive.
    + intros t. destruct q as [|c q]; [done|]. intros [= ->]. by apply (H1 q).
Qed.

Lemma accepted_directory p : validate_git_path p = inr tt →
  ∃ d, directory_of p = Some d ∧ (p = [] ∧ d = [] ∧ trim_slashes p = [] ∨ d = split_slash (trim_slashes p) ∧ Forall plain_segment d).
Proof.
  intros [->|(q & Hq & Hp)]%accepted_path; [exists []; split; [done|by left]|]. destruct (trim_plain q Hp) as [T1 T2].
  exists (split_slash q). split; [|right; split; [destruct Hq as [->| ->]; by rewrite ?T1, ?T2|done]]. unfold directory_of.
  destruct Hq as [->| ->]; [|rewrite split_slash_snoc, walk_app]; rewrite walk_plain by done; cbn; by rewrite app_nil_r, reverse_involutive.
Qed.

Lemma same_directory p q : validate_git_path p = inr tt → validate_git_path q = inr tt →
  ∃ dp dq, directory_of p = Some dp ∧ directory_of q = Some dq ∧ (dp = dq ↔ trim_slashes p = trim_slashes q).
Proof.
  intros (dp & Ep & Hp)%accepted_directory (dq & Eq & Hq)%accepted_directory. exists dp, dq. split_and!; [done|done|].
  assert (Hne : ∀ s, Forall plain_segment (split_slash s) → split_slash s ≠ [] ∧ s ≠ []).
  { intros s Hs. split; [|by apply plain_ends]. destruct (split_slash_cons s) as (? & ? & ->). done. }
  destruct Hp as [(_ & -> & ->)|[-> Fp]], Hq as [(_ & -> & ->)|[-> Fq]].
  - done.
  - destruct (Hne _ Fq) as [N1 N2]. split; intros E; by rewrite <- E in *.
  - destruct (Hne _ Fp) as [N1 N2]. split; intros E; by rewrite E in *.
  - split; [apply split_slash_inj|]. by intros ->.
Qed.

(** ** The name of an accepted source *)
Lemma ascii_between_false lo hi c : (code c < lo)%N → between lo hi c = false.
Proof. intros H. unfold between. by rewrite (proj2 (N.leb_gt _ _)). Qed.

Lemma sha_byte_low c : is_sha_byte c = true → (code c < 128)%N.
Proof. unfold is_sha_byte, between. rewrite orb_true_iff, !andb_true_iff, !N.leb_le. lia. Qed.

Lemma take_chars_sha n s : Forall (λ c, is_sha_byte c = true) s → take_chars n s = take n s.
Proof.
  intros H. revert n. induction H as [|c s Hc _ IH]; intros n; [by destruct n|]. cbn [take_chars].
  rewrite ascii_between_false by (by apply sha_byte_low). destruct n; [done|]. cbn. by rewrite IH.
Qed.

Lemma split_at_mark pre rest : "@"%char ∉ pre → split_once_at (asc "@sha256:") (pre ++ asc "@sha256:" ++ rest) = Some (pre, rest).
Proof.
  induction pre as [|c pre IH]; [intros _; done|]. rewrite not_elem_of_cons. intros [Hc Hp]. cbn [app split_once_at].
  change (strip_prefix (asc "@sha256:") (c :: ?x)) with (if bool_decide ("@"%char = c) then strip_prefix (asc "sha256:") x else None).
  rewrite bool_decide_false by done. by rewrite IH.
Qed.

Lemma hex_digit_sha n : (n < 16)%N → is_sha_byte (hex_digit n) = true.
Proof.
  intros H. unfold hex_digit, is_sha_byte, between, code. destruct (n <? 10)%N eqn:E; [apply N.ltb_lt in E|apply N.ltb_ge in E];
    rewrite N_ascii_embedding by lia; rewrite orb_true_iff, !andb_true_iff, !N.leb_le; lia.
Qed.

Lemma code_bound c : (code c < 256)%N.
Proof. by destruct c as [[] [] [] [] [] [] [] []]. Qed.

Lemma hex_byte_sha b : Forall (λ c, is_sha_byte c = true) (hex_byte b).
Proof.
  pose proof (code_bound b). repeat constructor; apply hex_digit_sha; [apply N.Div0.div_lt_upper_bound; lia|apply N.mod_lt; lia].
Qed.

Section names.
Context (url_parse : Bytes → option Url) (image_parse : Bytes → option ImageRef) (to_vec : Settings → Bytes) (sha256 : Bytes → Bytes).

(** A digest of the pattern of images is 64 lowercase hex after the only [@]. *)
Hypothesis image_digest : ∀ s img, image_parse s = Some img → is_Some (im_digest img) →
  ∃ pre hex, s = pre ++ asc "@sha256:" ++ hex ∧ ("@"%char ∉ pre) ∧ length hex = 64 ∧ Forall (λ c, is_sha_byte c = true) hex.

(** SHA-256 is 32 bytes long. *)
Hypothesis sha256_length : ∀ s, length (sha256 s) = 32.

Lemma digest8_pinned s img : image_parse s = Some img → is_Some (im_digest img) → length (digest8 s) = 8 ∧ Forall (λ c, is_sha_byte c = true) (digest8 s).
Proof.
  intros H1 H2. destruct (image_digest s img H1 H2) as (pre & hex & -> & Hp & Hl & Hh). unfold digest8. rewrite split_at_mark by done.
  rewrite take_chars_sha by done. split; [rewrite length_take; lia|by apply Forall_take].
Qed.

Lemma settings_hash_hex s : length (settings_hash to_vec sha256 s) = 8 ∧ Forall (λ c, is_sha_byte c = true) (settings_hash to_vec sha256 s).
Proof.
  unfold settings_hash. set (d := sha256 _). assert (Hd : length (take 4 d) = 4) by (rewrite length_take; unfold d; rewrite sha256_length; done).
  split.
  - destruct (take 4 d) as [|a [|b [|c [|e [|]]]]]; done.
  - apply Forall_bind, Forall_forall. intros b _. apply hex_byte_sha.
Qed.

Lemma accepted_source req deps run s :
  ar_operation req = Create → ar_object req = Some run → sp_source run = Some s → mutate_run url_parse image_parse req deps = RunAcceptedAsIs →
  is_commit_sha (gc_commit (so_git s)) = true ∧ ∃ img, image_parse (so_runtime_image s) = Some img ∧ is_Some (im_digest img).
Proof.
  intros Hop Ho Hs. unfold mutate_run, mutate_run_on_create. rewrite Hop, Ho. cbv zeta. case_bool_decide; [done|].
  destruct (ar_namespace req) as [ns|]; [|done]. case_bool_decide; cbn [negb].
  - rewrite Hs. rewrite bool_decide_true by (by eexists). done.
  - destruct (is_digest_reference _) eqn:Ed; [|done]. cbn [negb]. rewrite Hs. destruct (check_self_stamped_source _ _ _ _ _ _) as [|[]] eqn:E; [done|].
    intros _. destruct (self_stamped_ok _ _ _ _ _ _ E) as (cl & _ & _ & H2). destruct (H2 run Ed) as (_ & Hc & _ & _ & img & Hi & Hd & _). eauto.
Qed.

(** The tree of a run that came with its own source is named by twelve, eight and eight
    lowercase hex digits with dashes between them: one component of a path on the workspace
    volume, whatever the commit, image, path and dependencies that were sent. *)
Theorem workspace_key_component req deps run s :
  ar_operation req = Create → ar_object req = Some run → sp_source run = Some s → mutate_run url_parse image_parse req deps = RunAcceptedAsIs →
  ∃ a b c, workspace_key to_vec sha256 s = a ++ asc "-" ++ b ++ asc "-" ++ c ∧ length a = 12 ∧ length b = 8 ∧ length c = 8 ∧
    Forall (λ x, is_sha_byte x = true) (a ++ b ++ c).
Proof.
  intros Hop Ho Hs Hm. destruct (accepted_source req deps run s Hop Ho Hs Hm) as (Hc & img & Hi & Hd).
  unfold is_commit_sha in Hc. apply andb_true_iff in Hc as [Hl%Nat.eqb_eq Hh%forallb_Forall].
  destruct (digest8_pinned _ _ Hi Hd) as [L1 F1], (settings_hash_hex s) as [L2 F2].
  exists (take 12 (gc_commit (so_git s))), (digest8 (so_runtime_image s)), (settings_hash to_vec sha256 s). split_and!.
  - unfold workspace_key. by rewrite take_chars_sha.
  - rewrite length_take. lia.
  - done.
  - done.
  - rewrite !Forall_app. split_and!; [by apply Forall_take|done|done].
Qed.
End names.

(** A path the webhook accepts leads to a directory inside the checkout, and the trees of
    two accepted paths are set apart by their path exactly when the two are different
    directories: one directory has one tree, and no two share one. *)
Theorem one_tree_per_directory p q : validate_git_path p = inr tt → validate_git_path q = inr tt →
  ∃ dp dq, directory_of p = Some dp ∧ directory_of q = Some dq ∧ (dp = dq ↔ trim_slashes p = trim_slashes q).
Proof. apply same_directory. Qed.

Module WorkspaceExample.
Lemma one_tree_per_directory_witness :
  directory_of (asc "services/analytics/") = Some [asc "services"; asc "analytics"] ∧
  ∃ dp dq, directory_of (asc "services/analytics/") = Some dp ∧ directory_of (asc "services/analytics") = Some dq ∧
    (dp = dq ↔ trim_slashes (asc "services/analytics/") = trim_slashes (asc "services/analytics")).
Proof. split; [vm_compute; reflexivity|]. apply (one_tree_per_directory (asc "services/analytics/") (asc "services/analytics")); vm_compute; reflexivity. Defined.

(** The references with a digest as the pattern reads it. *)
Definition image (s : Bytes) : option ImageRef :=
  match split_once "@"%char s with
  | Some (repo, d) =>
      match strip_prefix (asc "sha256:") d with
      | Some hex => if (length hex =? 64)%nat && forallb is_sha_byte hex then Some {| im_repository := repo; im_tag := None; im_digest := Some d |} else None
      | None => None
      end
  | None => None
  end.

Lemma split_once_spec c s a b : split_once c s = Some (a, b) → s = a ++ c :: b ∧ c ∉ a.
Proof.
  revert a. induction s as [|x s IH]; intros a; [done|]. cbn. case_bool_decide as E; [intros [= <- <-]; subst x; split; [done|apply not_elem_of_nil]|].
  intros ([a' b'] & H & [= -> ->])%fmap_Some. cbn. destruct (IH _ H) as [-> Hn]. split; [done|]. apply not_elem_of_cons. done.
Qed.

Lemma image_digest_ok s img : image s = Some img → is_Some (im_digest img) →
  ∃ pre hex, s = pre ++ asc "@sha256:" ++ hex ∧ ("@"%char ∉ pre) ∧ length hex = 64 ∧ Forall (λ c, is_sha_byte c = true) hex.
Proof.
  unfold image. destruct (split_once "@"%char s) as [[repo d]|] eqn:E; [|done]. destruct (split_once_spec _ _ _ _ E) as [-> Hn].
  destruct (strip_prefix _ d) as [hex|] eqn:Es; [|done]. apply strip_prefix_Some in Es as ->.
  destruct (_ && _) eqn:Eh; [|done]. apply andb_true_iff in Eh as [Hl%Nat.eqb_eq Hh%forallb_Forall]. intros _ _. by exists repo, hex.
Qed.

Definition digest (_ : Bytes) : Bytes := replicate 32 "a"%char.

Lemma digest_length s : length (digest s) = 32.
Proof. reflexivity. Qed.

Lemma launched_accepted :
  mutate_run AdmissionExample.parse image (AdmissionExample.create AdmissionExample.launched) AdmissionExample.known = RunAcceptedAsIs.
Proof. vm_compute. reflexivity. Qed.

Lemma workspace_key_component_witness :
  ∃ a b c, workspace_key (λ _, []) digest AdmissionExample.tree = a ++ asc "-" ++ b ++ asc "-" ++ c ∧ length a = 12 ∧ length b = 8 ∧ length c = 8 ∧
    Forall (λ x, is_sha_byte x = true) (a ++ b ++ c).
Proof.
  apply (workspace_key_component AdmissionExample.parse image (λ _, []) digest image_digest_ok digest_length
    (AdmissionExample.create AdmissionExample.launched) AdmissionExample.known AdmissionExample.launched AdmissionExample.tree
    eq_refl eq_refl eq_refl launched_accepted).
Defined.
End WorkspaceExample.
