(* ===== verification/Registry.v ===== *)
(** * Digests of images (rust/rivers-operator/src/codelocation/registry.rs)

    What a manifest request answers, the cache of digests that all code locations share, and
    resolves that interleave between its locks, with the log of the requests that were sent and
    their responses. Times are nanoseconds; jiff's dates, the texts of statuses, the rule of header
    values, base64 and the pattern of immutable tags are parameters. The Accept headers, which are
    the same for every request, are left out. *)

From S2P Require Import Prelude GitRefs GitResolver Quantity Admission.

(** ** Numbers *)

(** [str::parse::<u64>] *)
Fixpoint parse_u64_digits (acc : Z) (s : Bytes) : option Z :=
  match s with
  | [] => Some acc
  | c :: s => if is_digit c then let v := (acc * 10 + digit c)%Z in if (v <? 2 ^ 64)%Z then parse_u64_digits v s else None else None
  end.

Definition parse_u64 (s : Bytes) : option Z :=
  match s with
  | [] => None
  | c :: rest => if bool_decide (c = "+"%char) then (if bool_decide (rest = []) then None else parse_u64_digits 0 rest) else parse_u64_digits 0 s
  end.

(** ** Requests and answers *)
Inductive RegistryAuth := Anonymous | Basic (username password : Bytes) | Bearer (token : Bytes).

Inductive RegistryError :=
| RegNotFound
| RegAuthFailed
| RegRateLimited (retry_after : Z)
| RegTransient (text : Bytes)
| RegMalformed (text : Bytes).

Inductive Resolution := Cached (digest : Bytes) | Resolved (digest : Bytes) | Unchanged (digest : Bytes) | Immutable (digest : Bytes).

Definition resolution_digest (r : Resolution) : Bytes := match r with Cached d | Resolved d | Unchanged d | Immutable d => d end.

Record ResolveRequest := { rr_image : Bytes; rr_tag : Bytes; rr_auth : RegistryAuth; rr_immutable_hint : bool; rr_cache_ttl : Z }.

(** Registry, repository and tag. *)
Definition CacheKey : Type := Bytes * Bytes * Bytes.

Definition contains (c : ascii) (s : Bytes) : bool := bool_decide (c ∈ s).

Definition parse_image_ref (image : Bytes) : RegistryError + Bytes * Bytes :=
  if bool_decide (image = []) then inl (RegMalformed (asc "empty image"))
  else
    inr match split_once "/"%char image with
        | Some (head, rest) =>
            if contains "."%char head || contains ":"%char head || bool_decide (head = asc "localhost") then (head, rest)
            else (asc "registry-1.docker.io", image)
        | None => (asc "registry-1.docker.io", asc "library/" ++ image)
        end.

(** ** Bearer challenges *)
Record BearerChallenge := { bc_realm : Bytes; bc_service : option Bytes; bc_scope : option Bytes }.

Fixpoint split_on (sep : ascii) (s : Bytes) : list Bytes :=
  match s with
  | [] => [[]]
  | c :: s => if bool_decide (c = sep) then [] :: split_on sep s else match split_on sep s with seg :: segs => (c :: seg) :: segs | [] => [[c]] end
  end.

Definition QUOTE : ascii := ascii_of_N 34.

Definition unquote (s : Bytes) : Bytes :=
  let s := trim s in
  match strip_prefix [QUOTE] s ≫= strip_suffix [QUOTE] with Some t => t | None => s end.

Definition challenge_part (acc : option Bytes * option Bytes * option Bytes) (part : Bytes) : option Bytes * option Bytes * option Bytes :=
  let '(realm, service, scope) := acc in
  let part := trim part in
  match strip_prefix (asc "realm=") part, strip_prefix (asc "service=") part, strip_prefix (asc "scope=") part with
  | Some v, _, _ => (Some (unquote v), service, scope)
  | None, Some v, _ => (realm, Some (unquote v), scope)
  | None, None, Some v => (realm, service, Some (unquote v))
  | None, None, None => acc
  end.

Definition parse_challenge (header : Bytes) : option BearerChallenge :=
  rest ← match strip_prefix (asc "Bearer ") header with Some r => Some r | None => strip_prefix (asc "bearer ") header end;
  let '(realm, service, scope) := foldl challenge_part (None, None, None) (split_on ","%char rest) in
  realm ← realm; Some {| bc_realm := realm; bc_service := service; bc_scope := scope |}.

(** ** A manifest request *)
Inductive HeadOutcome := Fresh (digest : Bytes) (etag : option Bytes) | NotModified.

(** A response, with the headers that are read when they are text. *)
Record Response := {
  rp_status : Z; rp_digest : option Bytes; rp_etag : option Bytes; rp_retry_after : option Bytes; rp_www_authenticate : option Bytes
}.

(** A token service's response: the fields of its body, or why it is not one. *)
Record TokenResponse := { tr_status : Z; tr_body : Bytes + option Bytes * option Bytes }.

(** What the requests of one resolve are answered, with the error's text when they are not. *)
Record HeadAnswers := { ha_first : Bytes + Response; ha_token : Bytes + TokenResponse; ha_retry : Bytes + Response }.

(** A HEAD request for a manifest. *)
Record ManifestRequest := { mq_url : Bytes; mq_authorization : option Bytes; mq_if_none_match : option Bytes }.

(** The token request a challenge asks for. *)
Record TokenRequest := { tq_realm : Bytes; tq_service : option Bytes; tq_scope : option Bytes; tq_basic : option (Bytes * Bytes) }.

Definition token_request (challenge : BearerChallenge) (auth : RegistryAuth) : TokenRequest :=
  {| tq_realm := bc_realm challenge; tq_service := bc_service challenge; tq_scope := bc_scope challenge;
     tq_basic := match auth with Basic username password => Some (username, password) | _ => None end |}.

(** What one resolve sent: its manifest requests with their responses, and its token request. *)
Record HeadTrace := { ht_exchanges : list (ManifestRequest * (Bytes + Response)); ht_token : option TokenRequest }.

Definition success_status (status : Z) : bool := (200 <=? status)%Z && (status <=? 299)%Z.

(** ** The cache *)
Record DigestEntry := {
  de_digest : Bytes; de_etag : option Bytes; de_resolved_at : Z; de_immutable : bool; de_next_attempt_after : option Z; de_consecutive_errors : N
}.

Record CacheState := { cst_entries : gmap CacheKey DigestEntry; cst_rate_limited : gmap Bytes Z }.

Definition max_backoff : Z := secs 3600.

(** [Instant + Duration]: none is its panic, when the seconds leave an [i64]. *)
Definition instant_add (now d : Z) : option Z := if (now + d <? secs (2 ^ 63))%Z then Some (now + d)%Z else None.

Section registry.
Context (parse_rfc2822 : Bytes → option Z) (status_text : Z → Bytes) (header_ok : Bytes → bool) (header_error : Bytes) (looks_immutable : Bytes → bool).
Context (allow_insecure : bool) (base64 : Bytes → Bytes).

(** [clock] is the wall clock. *)
Definition parse_retry_after (header : option Bytes) (clock : Z) : option Z :=
  raw ← header;
  let raw := trim raw in
  wait ← match parse_u64 raw with
         | Some n => Some (secs n)
         | None => at_ ← parse_rfc2822 raw; if (at_ - clock <? 0)%Z then None else Some (at_ - clock)%Z
         end;
  if (wait =? 0)%Z then None else Some wait.

Definition interpret_response (response : Response) (clock : Z) : RegistryError + HeadOutcome :=
  let status := rp_status response in
  if (status =? 304)%Z then inr NotModified
  else if (status =? 404)%Z then inl RegNotFound
  else if (status =? 401)%Z || (status =? 403)%Z then inl RegAuthFailed
  else if (status =? 429)%Z then inl (RegRateLimited (default (secs 60) (parse_retry_after (rp_retry_after response) clock)))
  else if negb (success_status status) then inl (RegTransient (asc "status " ++ status_text status))
  else
    match rp_digest response with
    | None => inl (RegMalformed (asc "missing Docker-Content-Digest header"))
    | Some digest => inr (Fresh digest (rp_etag response))
    end.

Definition fetch_bearer_token (answer : Bytes + TokenResponse) : RegistryError + Bytes :=
  match answer with
  | inl e => inl (RegTransient (asc "token exchange: " ++ e))
  | inr response =>
      let status := tr_status response in
      if (status =? 401)%Z || (status =? 403)%Z then inl RegAuthFailed
      else if negb (success_status status) then inl (RegTransient (asc "token exchange returned " ++ status_text status))
      else
        match tr_body response with
        | inl e => inl (RegMalformed (asc "token body: " ++ e))
        | inr (Some token, _) | inr (None, Some token) => inr token
        | inr (None, None) => inl (RegMalformed (asc "token body missing token field"))
        end
  end.

Definition scheme : Bytes := if allow_insecure then asc "http" else asc "https".

Definition manifest_url (registry repository tag : Bytes) : Bytes :=
  scheme ++ asc "://" ++ registry ++ asc "/v2/" ++ repository ++ asc "/manifests/" ++ tag.

(** [HeaderValue::from_str] *)
Definition header_value (v : Bytes) : option Bytes := if header_ok v then Some v else None.

(** The Authorization header. *)
Definition apply_auth (auth : RegistryAuth) : option Bytes :=
  match auth with
  | Anonymous => None
  | Basic username password => header_value (asc "Basic " ++ base64 (username ++ asc ":" ++ password))
  | Bearer token => header_value (asc "Bearer " ++ token)
  end.

(** The outcome, and what was sent. *)
Definition head_manifest (registry repository tag : Bytes) (auth : RegistryAuth) (previous_etag : option Bytes) (answers : HeadAnswers) (clock : Z)
    : (RegistryError + HeadOutcome) * HeadTrace :=
  let request := {| mq_url := manifest_url registry repository tag; mq_authorization := apply_auth auth; mq_if_none_match := previous_etag ≫= header_value |} in
  let sent := (request, ha_first answers) in
  let only outcome := (outcome, {| ht_exchanges := [sent]; ht_token := None |}) in
  match ha_first answers with
  | inl e => only (inl (RegTransient (asc "http: " ++ e)))
  | inr response =>
      if (rp_status response =? 401)%Z then
        match rp_www_authenticate response ≫= parse_challenge with
        | None => only (inl RegAuthFailed)
        | Some challenge =>
            let token_only e := (inl e, {| ht_exchanges := [sent]; ht_token := Some (token_request challenge auth) |}) in
            match fetch_bearer_token (ha_token answers) with
            | inl e => token_only e
            | inr token =>
                match header_value (asc "Bearer " ++ token) with
                | None => token_only (RegMalformed (asc "bearer header: " ++ header_error))
                | Some bearer =>
                    let retry := {| mq_url := mq_url request; mq_authorization := Some bearer; mq_if_none_match := mq_if_none_match request |} in
                    (match ha_retry answers with
                     | inl e => inl (RegTransient (asc "http: " ++ e))
                     | inr retried => interpret_response retried clock
                     end, {| ht_exchanges := [sent; (retry, ha_retry answers)]; ht_token := Some (token_request challenge auth) |})
                end
            end
        end
      else only (interpret_response response clock)
  end.

Definition cache_lookup (st : CacheState) (key : CacheKey) (req : ResolveRequest) (now : Z) : option Resolution :=
  entry ← cst_entries st !! key;
  if de_immutable entry then Some (Immutable (de_digest entry))
  else if match de_next_attempt_after entry with Some deadline => (now <? deadline)%Z | None => false end then Some (Cached (de_digest entry))
  else if (now - de_resolved_at entry <? rr_cache_ttl req)%Z then Some (Cached (de_digest entry))
  else None.

Definition registry_pause (st : CacheState) (registry : Bytes) (now : Z) : option Z :=
  deadline ← cst_rate_limited st !! registry; if (now <? deadline)%Z then Some (deadline - now)%Z else None.

Definition previous_etag (st : CacheState) (key : CacheKey) : option Bytes := cst_entries st !! key ≫= de_etag.

Definition with_entry (key : CacheKey) (e : DigestEntry) (st : CacheState) : CacheState :=
  {| cst_entries := <[key := e]> (cst_entries st); cst_rate_limited := cst_rate_limited st |}.

Definition without_entry (key : CacheKey) (st : CacheState) : CacheState :=
  {| cst_entries := delete key (cst_entries st); cst_rate_limited := cst_rate_limited st |}.

(** The entry after an attempt at [now] that failed and is not repeated before [deadline]. *)
Definition put_off (deadline : Z) (errors : N) (e : DigestEntry) : DigestEntry :=
  {| de_digest := de_digest e; de_etag := de_etag e; de_resolved_at := de_resolved_at e; de_immutable := de_immutable e;
     de_next_attempt_after := Some deadline; de_consecutive_errors := errors |}.

Definition record_outcome (st : CacheState) (key : CacheKey) (req : ResolveRequest) (outcome : RegistryError + HeadOutcome) (now : Z)
    : option ((RegistryError + Resolution) * CacheState) :=
  match outcome with
  | inr (Fresh digest etag) =>
      Some (inr (Resolved digest),
            with_entry key {| de_digest := digest; de_etag := etag; de_resolved_at := now; de_immutable := rr_immutable_hint req || looks_immutable (rr_tag req);
                              de_next_attempt_after := None; de_consecutive_errors := 0 |} st)
  | inr NotModified =>
      match cst_entries st !! key with
      | None => Some (inl (RegMalformed (asc "304 Not Modified without cached digest")), st)
      | Some e =>
          Some (inr (Unchanged (de_digest e)),
                with_entry key {| de_digest := de_digest e; de_etag := de_etag e; de_resolved_at := now; de_immutable := de_immutable e;
                                  de_next_attempt_after := None; de_consecutive_errors := 0 |} st)
      end
  | inl (RegRateLimited retry_after as err) =>
      deadline ← instant_add now retry_after;
      let st := {| cst_entries := cst_entries st; cst_rate_limited := <[key.1.1 := deadline]> (cst_rate_limited st) |} in
      Some (inl err, match cst_entries st !! key with Some e => with_entry key (put_off deadline (de_consecutive_errors e) e) st | None => st end)
  | inl ((RegNotFound | RegAuthFailed) as err) => Some (inl err, without_entry key st)
  | inl ((RegTransient _ | RegMalformed _) as err) =>
      match cst_entries st !! key with
      | None => Some (inl err, st)
      | Some e =>
          let errors := u32_saturating_incr (de_consecutive_errors e) in
          deadline ← instant_add now (exponential_backoff errors max_backoff);
          Some (inl err, with_entry key (put_off deadline errors e) st)
      end
  end.

(** ** Resolves between the locks *)
Definition cache_key (req : ResolveRequest) : RegistryError + CacheKey :=
  match parse_image_ref (rr_image req) with inl e => inl e | inr (registry, repository) => inr (registry, repository, rr_tag req) end.

(** A resolve looks in the cache, then at the pause, then reads the etag, then asks; it is kept
    with the time it read the etag. *)
Inductive ResolveTask :=
| RLookup (req : ResolveRequest)
| RPause (req : ResolveRequest) (key : CacheKey)
| REtag (req : ResolveRequest) (key : CacheKey)
| RAsk (req : ResolveRequest) (key : CacheKey) (etag : option Bytes) (since : Z)
| RDone (req : ResolveRequest) (at_ : Z) (answer : RegistryError + Resolution)
| RGone.

(** One resolve's requests and responses, from the time it read the etag to the time its outcome
    was recorded. *)
Record Attempt := {
  at_exchanges : list (ManifestRequest * (Bytes + Response)); at_sent : Z; at_time : Z; at_outcome : RegistryError + HeadOutcome
}.

Record Registry := {
  rg_state : CacheState; rg_now : Z; rg_tasks : gmap nat ResolveTask; rg_asked : list ResolveRequest; rg_log : list Attempt
}.

Definition set_task (t : nat) (task : ResolveTask) (w : Registry) : Registry :=
  {| rg_state := rg_state w; rg_now := rg_now w; rg_tasks := <[t := task]> (rg_tasks w); rg_asked := rg_asked w; rg_log := rg_log w |}.

Inductive registry_step (w : Registry) : Registry → Prop :=
| rs_tick now : (rg_now w <= now)%Z →
    registry_step w {| rg_state := rg_state w; rg_now := now; rg_tasks := rg_tasks w; rg_asked := rg_asked w; rg_log := rg_log w |}
| rs_start t req : rg_tasks w !! t = None →
    registry_step w {| rg_state := rg_state w; rg_now := rg_now w;
      rg_tasks := <[t := match cache_key req with inl e => RDone req (rg_now w) (inl e) | inr _ => RLookup req end]> (rg_tasks w);
      rg_asked := rg_asked w ++ [req]; rg_log := rg_log w |}
| rs_lookup t req key : rg_tasks w !! t = Some (RLookup req) → cache_key req = inr key →
    registry_step w (set_task t match cache_lookup (rg_state w) key req (rg_now w) with Some r => RDone req (rg_now w) (inr r) | None => RPause req key end w)
| rs_pause t req key : rg_tasks w !! t = Some (RPause req key) →
    registry_step w (set_task t match registry_pause (rg_state w) key.1.1 (rg_now w) with
                                | Some wait => RDone req (rg_now w) (inl (RegRateLimited wait)) | None => REtag req key end w)
| rs_etag t req key : rg_tasks w !! t = Some (REtag req key) → registry_step w (set_task t (RAsk req key (previous_etag (rg_state w) key) (rg_now w)) w)
| rs_record t req key etag since answers clock outcome trace answer st :
    rg_tasks w !! t = Some (RAsk req key etag since) →
    head_manifest key.1.1 key.1.2 key.2 (rr_auth req) etag answers clock = (outcome, trace) →
    record_outcome (rg_state w) key req outcome (rg_now w) = Some (answer, st) →
    registry_step w {| rg_state := st; rg_now := rg_now w; rg_tasks := <[t := RDone req (rg_now w) answer]> (rg_tasks w); rg_asked := rg_asked w;
      rg_log := rg_log w ++ [{| at_exchanges := ht_exchanges trace; at_sent := since; at_time := rg_now w; at_outcome := outcome |}] |}
| rs_drop t task : rg_tasks w !! t = Some task → registry_step w (set_task t RGone w).

Definition registry_init : Registry :=
  {| rg_state := {| cst_entries := ∅; cst_rate_limited := ∅ |}; rg_now := 0; rg_tasks := ∅; rg_asked := []; rg_log := [] |}.

(** ** What an answer rests on *)

(** Some request for the key said its tag does not move, or the tag looks like it. *)
Definition held_immutable (w : Registry) (key : CacheKey) : Prop :=
  looks_immutable key.2 = true ∨ ∃ req, req ∈ rg_asked w ∧ cache_key req = inr key ∧ rr_immutable_hint req = true.

Definition url_of (key : CacheKey) : Bytes := manifest_url key.1.1 key.1.2 key.2.

(** An attempt on the url of the key, one of its requests and the answer to it. *)
Definition exchanged (w : Registry) (key : CacheKey) (a : Attempt) (rq : ManifestRequest) (answer : Bytes + Response) : Prop :=
  a ∈ rg_log w ∧ (rq, answer) ∈ at_exchanges a ∧ mq_url rq = url_of key.

(** A successful response for the url carried the digest and the etag. *)
Definition served (w : Registry) (key : CacheKey) (digest : Bytes) (etag : option Bytes) (t : Z) : Prop :=
  ∃ a rq rp, exchanged w key a rq (inr rp) ∧ at_time a = t ∧ success_status (rp_status rp) = true ∧ rp_digest rp = Some digest ∧ rp_etag rp = etag.

(** A 304 answered a request for the url that carried the etag served with the digest, as far as
    it is a header, or the digest was served since that request's etag was read. *)
Definition unmodified (w : Registry) (key : CacheKey) (digest : Bytes) (t : Z) : Prop :=
  ∃ a rq rp etag t0, exchanged w key a rq (inr rp) ∧ at_time a = t ∧ rp_status rp = 304%Z ∧ served w key digest etag t0 ∧
    (mq_if_none_match rq = etag ≫= header_value ∨ (at_sent a <= t0)%Z).

Definition confirmed (w : Registry) (key : CacheKey) (digest : Bytes) (t : Z) : Prop :=
  (∃ etag, served w key digest etag t) ∨ unmodified w key digest t.

(** How long an error puts the next attempt off. *)
Definition waits (err : RegistryError) (wait : Z) : Prop :=
  match err with
  | RegRateLimited retry_after => wait = retry_after
  | RegTransient _ | RegMalformed _ => ∃ errors, wait = exponential_backoff errors max_backoff
  | RegNotFound | RegAuthFailed => False
  end.

(** An attempt on the url failed, and is not repeated before the deadline. *)
Definition failed_until (w : Registry) (key : CacheKey) (deadline : Z) : Prop :=
  ∃ a rq answer err wait, exchanged w key a rq answer ∧ at_outcome a = inl err ∧ waits err wait ∧ deadline = (at_time a + wait)%Z.

(** A digest that was served for the key. An answer from the cache was confirmed within the
    request's time to live, or an attempt to confirm it failed and its wait is not over. *)
Definition rests (w : Registry) (key : CacheKey) (ttl t : Z) (r : Resolution) : Prop :=
  (∃ etag t0, served w key (resolution_digest r) etag t0) ∧
  match r with
  | Resolved d => ∃ etag, served w key d etag t
  | Unchanged d => unmodified w key d t
  | Cached d => (∃ t0, confirmed w key d t0 ∧ (t < t0 + ttl)%Z) ∨ ∃ deadline, failed_until w key deadline ∧ (t < deadline)%Z
  | Immutable _ => held_immutable w key
  end.

Record entry_ok (w : Registry) (key : CacheKey) (e : DigestEntry) : Prop := {
  eo_served : ∃ t0, served w key (de_digest e) (de_etag e) t0;
  eo_confirmed : confirmed w key (de_digest e) (de_resolved_at e);
  eo_put_off deadline : de_next_attempt_after e = Some deadline → failed_until w key deadline;
  eo_immutable : de_immutable e = true → held_immutable w key
}.

Definition resolve_task_ok (w : Registry) (task : ResolveTask) : Prop :=
  match task with
  | RLookup req => req ∈ rg_asked w
  | RPause req key | REtag req key | RAsk req key _ _ => req ∈ rg_asked w ∧ cache_key req = inr key
  | RDone req t (inr r) => ∃ key, cache_key req = inr key ∧ rests w key (rr_cache_ttl req) t r
  | RDone _ _ (inl _) | RGone => True
  end.

(** The entry still has the etag a request carries, or was served since. *)
Definition ask_ok (w : Registry) (task : ResolveTask) : Prop :=
  match task with
  | RAsk _ key etag since =>
      (since <= rg_now w)%Z ∧
      ∀ e, cst_entries (rg_state w) !! key = Some e → de_etag e = etag ∨ ∃ t0, (since <= t0)%Z ∧ served w key (de_digest e) (de_etag e) t0
  | _ => True
  end.

Record registry_ok (w : Registry) : Prop := {
  rk_entries key e : cst_entries (rg_state w) !! key = Some e → entry_ok w key e;
  rk_tasks t task : rg_tasks w !! t = Some task → resolve_task_ok w task;
  rk_asks t task : rg_tasks w !! t = Some task → ask_ok w task
}.

Definition extends (w w' : Registry) : Prop :=
  (∀ x, x ∈ rg_log w → x ∈ rg_log w') ∧ (∀ req, req ∈ rg_asked w → req ∈ rg_asked w').

Lemma held_extends w w' key : extends w w' → held_immutable w key → held_immutable w' key.
Proof. intros [_ H] [?|(req & ? & ?)]; [by left|right; exists req]. split; auto. Qed.

Lemma exchanged_extends w w' key a rq x : extends w w' → exchanged w key a rq x → exchanged w' key a rq x.
Proof. intros [H _] (? & ? & ?). split_and!; auto. Qed.

Lemma served_extends w w' key d etag t : extends w w' → served w key d etag t → served w' key d etag t.
Proof. intros He (a & rq & rp & ? & ?). exists a, rq, rp. eauto using exchanged_extends. Qed.

Lemma unmodified_extends w w' key d t : extends w w' → unmodified w key d t → unmodified w' key d t.
Proof. intros He (a & rq & rp & etag & t0 & ? & ? & ? & ? & ?). exists a, rq, rp, etag, t0. split_and!; eauto using exchanged_extends, served_extends. Qed.

Lemma confirmed_extends w w' key d t : extends w w' → confirmed w key d t → confirmed w' key d t.
Proof. intros He [[etag ?]|?]; [left; eauto using served_extends|right; eauto using unmodified_extends]. Qed.

Lemma failed_extends w w' key dl : extends w w' → failed_until w key dl → failed_until w' key dl.
Proof. intros He (a & rq & x & err & wait & ? & ?). exists a, rq, x, err, wait. eauto using exchanged_extends. Qed.

Lemma rests_extends w w' key ttl t r : extends w w' → rests w key ttl t r → rests w' key ttl t r.
Proof.
  intros He [(etag & t0 & H0) H]. split; [eauto using served_extends|].
  destruct r; [|destruct H; eauto using served_extends|by eapply unmodified_extends|by eapply held_extends].
  destruct H as [(t1 & ? & ?)|(dl & ? & ?)]; [left; eauto using confirmed_extends|right; eauto using failed_extends].
Qed.

Lemma entry_extends w w' key e : extends w w' → entry_ok w key e → entry_ok w' key e.
Proof.
  intros He [(t0 & H0) H1 H2 H3].
  split; [eauto using served_extends|eauto using confirmed_extends|eauto using failed_extends|eauto using held_extends].
Qed.

Lemma task_extends w w' task : extends w w' → resolve_task_ok w task → resolve_task_ok w' task.
Proof.
  intros He. pose proof He as [Hl Ha]. destruct task as [req|req key|req key|req key etag since|req t [e|r]|]; cbn [resolve_task_ok]; try (by auto);
    [by intros [? ?]; auto..|]. intros (key & ? & ?). exists key. eauto using rests_extends.
Qed.

Lemma extends_log w w' xs : rg_log w' = rg_log w ++ xs → (∀ req, req ∈ rg_asked w → req ∈ rg_asked w') → extends w w'.
Proof. intros E H. split; [|done]. intros x Hx. rewrite E. apply elem_of_app. by left. Qed.

(** Time and served entries keep what a request in flight relies on. *)
Lemma ask_extends w w' task :
  extends w w' → (rg_now w <= rg_now w')%Z →
  (∀ k e', cst_entries (rg_state w') !! k = Some e' →
    (∃ e, cst_entries (rg_state w) !! k = Some e ∧ de_digest e' = de_digest e ∧ de_etag e' = de_etag e) ∨
    served w' k (de_digest e') (de_etag e') (rg_now w)) →
  ask_ok w task → ask_ok w' task.
Proof.
  intros He Hn Hst. destruct task as [| | |req key etag since| |]; cbn [ask_ok]; try done. intros [Hs H]. split; [lia|].
  intros e' [(e & He' & -> & ->)|Hsv]%Hst; [|right; eauto]. destruct (H e He') as [?|(t0 & ? & ?)]; [by left|right; eauto using served_extends].
Qed.

(** A step that leaves the cache leaves what it rests on. *)
Lemma task_step w w' t task : registry_ok w → extends w w' → rg_state w' = rg_state w → rg_now w' = rg_now w → rg_tasks w' = <[t := task]> (rg_tasks w) →
  resolve_task_ok w' task → ask_ok w' task → registry_ok w'.
Proof.
  intros [H1 H2 H3] He Es En Et Ht Ha. split.
  - rewrite Es. eauto using entry_extends.
  - intros t' task'. rewrite Et. intros [[<- <-]|[_ ?]]%lookup_insert_Some; eauto using task_extends.
  - intros t' task'. rewrite Et. intros [[<- <-]|[_ ?]]%lookup_insert_Some; [done|]. apply (ask_extends w); [done|lia| |by eapply H3].
    rewrite Es. eauto.
Qed.

Lemma lookup_rests w key req r : registry_ok w → cache_lookup (rg_state w) key req (rg_now w) = Some r → rests w key (rr_cache_ttl req) (rg_now w) r.
Proof.
  intros [H _ _]. unfold cache_lookup. destruct (cst_entries (rg_state w) !! key) as [e|] eqn:E; [|done]. cbn [mbind option_bind].
  destruct (H key e E) as [[t1 H0] H1 H2 H3]. destruct (de_immutable e); [intros [= <-]; split; eauto|].
  destruct (de_next_attempt_after e) as [dl|]; [destruct (Z.ltb_spec (rg_now w) dl) as [Hd|_]|].
  - intros [= <-]. split; [eauto|]. right. eauto.
  - destruct (Z.ltb_spec (rg_now w - de_resolved_at e) (rr_cache_ttl req)); [|done]. intros [= <-]. split; [eauto|]. left. eexists. split; [done|lia].
  - destruct (Z.ltb_spec (rg_now w - de_resolved_at e) (rr_cache_ttl req)); [|done]. intros [= <-]. split; [eauto|]. left. eexists. split; [done|lia].
Qed.

(** What an outcome was read from. *)
Lemma interpret_Fresh rp clock d etag :
  interpret_response rp clock = inr (Fresh d etag) → success_status (rp_status rp) = true ∧ rp_digest rp = Some d ∧ rp_etag rp = etag.
Proof. unfold interpret_response. cbv zeta. repeat (case_match; try done). intros [= <- <-]. split_and!; [by apply negb_false_iff|done|done]. Qed.

Lemma interpret_NotModified rp clock : interpret_response rp clock = inr NotModified → rp_status rp = 304%Z.
Proof. unfold interpret_response. cbv zeta. destruct (Z.eqb_spec (rp_status rp) 304); [done|]. by repeat (case_match; try done). Qed.

Definition read_from (etag : option Bytes) (outcome : RegistryError + HeadOutcome) (rq : ManifestRequest) (answer : Bytes + Response) : Prop :=
  mq_if_none_match rq = etag ≫= header_value ∧
  match outcome with
  | inr (Fresh d etag') => ∃ rp, answer = inr rp ∧ success_status (rp_status rp) = true ∧ rp_digest rp = Some d ∧ rp_etag rp = etag'
  | inr NotModified => ∃ rp, answer = inr rp ∧ rp_status rp = 304%Z
  | inl _ => True
  end.

Lemma interpret_read etag rq rp clock :
  mq_if_none_match rq = etag ≫= header_value → read_from etag (interpret_response rp clock) rq (inr rp).
Proof.
  intros Hq. split; [done|]. destruct (interpret_response rp clock) as [e|[d et|]] eqn:E; [done| |].
  - exists rp. split; [done|by eapply interpret_Fresh].
  - exists rp. split; [done|by eapply interpret_NotModified].
Qed.

Lemma head_read key auth etag answers clock o trace :
  head_manifest key.1.1 key.1.2 key.2 auth etag answers clock = (o, trace) →
  ∃ rq x, (rq, x) ∈ ht_exchanges trace ∧ mq_url rq = url_of key ∧ read_from etag o rq x.
Proof.
  unfold head_manifest. cbv zeta. set (rq := {| mq_url := _ |}).
  assert (Hrd : ∀ e x, read_from etag (inl e) rq x) by done.
  destruct (ha_first answers) as [e|rp] eqn:Ef; [intros [= <- <-]; eexists rq, _; split_and!; [apply list_elem_of_here|done|done]|].
  destruct (_ =? 401)%Z; [|intros [= <- <-]; eexists rq, _; split_and!; [apply list_elem_of_here|done|by apply interpret_read]].
  destruct (_ ≫= parse_challenge) as [ch|]; [|intros [= <- <-]; eexists rq, _; split_and!; [apply list_elem_of_here|done|done]].
  destruct (fetch_bearer_token _) as [e|token]; [intros [= <- <-]; eexists rq, _; split_and!; [apply list_elem_of_here|done|done]|].
  destruct (header_value (_ ++ token)) as [b|]; [|intros [= <- <-]; eexists rq, _; split_and!; [apply list_elem_of_here|done|done]].
  intros [= <- <-]. eexists _, _. split_and!; [apply list_elem_of_further, list_elem_of_here|done|].
  destruct (ha_retry answers); [done|by apply interpret_read].
Qed.

(** Recording an outcome changes the digest or etag of no entry but the one it was served for. *)
Lemma record_entries st key req o now answer st' :
  record_outcome st key req o now = Some (answer, st') →
  ∀ k e', cst_entries st' !! k = Some e' →
    (∃ e, cst_entries st !! k = Some e ∧ de_digest e' = de_digest e ∧ de_etag e' = de_etag e) ∨
    k = key ∧ o = inr (Fresh (de_digest e') (de_etag e')).
Proof.
  intros Hr k e'.
  assert (Hput : ∀ e0 e1 st0, cst_entries st0 = cst_entries st → cst_entries st !! key = Some e0 → de_digest e1 = de_digest e0 → de_etag e1 = de_etag e0 →
    cst_entries (with_entry key e1 st0) !! k = Some e' → ∃ e, cst_entries st !! k = Some e ∧ de_digest e' = de_digest e ∧ de_etag e' = de_etag e).
  { intros e0 e1 st0 E0 Ee Ed Et. cbn. rewrite E0. intros [[<- <-]|[_ ?]]%lookup_insert_Some; eauto. }
  destruct o as [err|[d etag|]]; cbn [record_outcome] in Hr.
  - destruct err as [| |wait|txt|txt].
    1-2: injection Hr as <- <-; cbn; intros [_ ?]%lookup_delete_Some; eauto.
    + destruct (instant_add _ _) as [dl|]; [|done]. cbn [mbind option_bind cst_entries] in Hr. injection Hr as <- <-.
      destruct (cst_entries st !! key) as [e|] eqn:Ee; [|cbn; eauto]. intros Hk; left; refine (Hput e _ _ _ _ _ _ Hk); done.
    + destruct (cst_entries st !! key) as [e|] eqn:Ee; [|injection Hr as <- <-; eauto].
      destruct (instant_add _ _) as [dl|]; [|done]. injection Hr as <- <-. intros Hk; left; refine (Hput e _ _ _ _ _ _ Hk); done.
    + destruct (cst_entries st !! key) as [e|] eqn:Ee; [|injection Hr as <- <-; eauto].
      destruct (instant_add _ _) as [dl|]; [|done]. injection Hr as <- <-. intros Hk; left; refine (Hput e _ _ _ _ _ _ Hk); done.
  - injection Hr as <- <-. cbn. intros [[<- <-]|[_ ?]]%lookup_insert_Some; eauto.
  - destruct (cst_entries st !! key) as [e|] eqn:Ee; injection Hr as <- <-; [|eauto]. intros Hk; left; refine (Hput e _ _ _ _ _ _ Hk); done.
Qed.

(** Recording an outcome keeps every entry and answers from what was exchanged. *)
Lemma record_ok w w' key req a rq x etag answer st :
  registry_ok w → extends w w' → exchanged w' key a rq x → read_from etag (at_outcome a) rq x → at_time a = rg_now w →
  ask_ok w (RAsk req key etag (at_sent a)) → cache_key req = inr key → req ∈ rg_asked w' →
  record_outcome (rg_state w) key req (at_outcome a) (rg_now w) = Some (answer, st) →
  (∀ k e, cst_entries st !! k = Some e → entry_ok w' k e) ∧ ∀ r, answer = inr r → rests w' key (rr_cache_ttl req) (rg_now w) r.
Proof.
  intros [H _ _] He Hex [Hq Hread] Hnow [_ Hask] Hkey Hin.
  assert (Hold : ∀ k e, cst_entries (rg_state w) !! k = Some e → entry_ok w' k e) by eauto using entry_extends.
  assert (Hput : ∀ st0 e0, cst_entries st0 = cst_entries (rg_state w) → entry_ok w' key e0 → ∀ k e, cst_entries (with_entry key e0 st0) !! k = Some e → entry_ok w' k e).
  { intros st0 e0 E0 He0 k e. cbn. rewrite E0. intros [[<- <-]|[_ ?]]%lookup_insert_Some; eauto. }
  assert (Hoff : ∀ e err wait dl errors, cst_entries (rg_state w) !! key = Some e → at_outcome a = inl err → waits err wait → dl = (rg_now w + wait)%Z →
    entry_ok w' key (put_off dl errors e)).
  { intros e err wait dl errors Ee Ho Hw ->. destruct (Hold key e Ee) as [A B _ D]. split; cbn; [done|done| |done]. intros ? [= <-].
    exists a, rq, x, err, wait. by rewrite Hnow. }
  assert (Hadd : ∀ d dl, instant_add (rg_now w) d = Some dl → dl = (rg_now w + d)%Z) by (intros d dl; unfold instant_add; destruct (_ <? _)%Z; [by intros [= <-]|done]).
  assert (Htag : rr_tag req = key.2) by (revert Hkey; unfold cache_key; destruct (parse_image_ref _) as [|[]]; [done|]; by intros [= <-]).
  unfold record_outcome. destruct (at_outcome a) as [err|[digest et|]] eqn:Eo.
  - destruct err as [| |wait|txt|txt].
    1-2: intros [= <- <-]; split; [|done]; intros k e; cbn; intros [_ ?]%lookup_delete_Some; eauto.
    + destruct (instant_add _ wait) as [dl|] eqn:Ed; [|done]. cbn [mbind option_bind cst_entries]. intros [= <- <-]. split; [|done].
      destruct (cst_entries (rg_state w) !! key) as [e|] eqn:Ee; [|exact Hold]. apply Hput; [done|]. by eapply Hoff; eauto.
    + destruct (cst_entries (rg_state w) !! key) as [e|] eqn:Ee; [|intros [= <- <-]; split; [done|done]].
      destruct (instant_add _ _) as [dl|] eqn:Ed; [|done]. cbn [mbind option_bind]. intros [= <- <-]. split; [|done]. apply Hput; [done|].
      eapply Hoff; eauto. by eexists.
    + destruct (cst_entries (rg_state w) !! key) as [e|] eqn:Ee; [|intros [= <- <-]; split; [done|done]].
      destruct (instant_add _ _) as [dl|] eqn:Ed; [|done]. cbn [mbind option_bind]. intros [= <- <-]. split; [|done]. apply Hput; [done|].
      eapply Hoff; eauto. by eexists.
  - destruct Hread as (rp & -> & Hrp). intros [= <- <-].
    assert (Hsv : served w' key digest et (rg_now w)) by (destruct Hrp as (? & ? & ?); exists a, rq, rp; split; [exact Hex|by split_and!]). split.
    + apply Hput; [done|]. split; cbn; [eauto|left; eauto|done|]. rewrite Htag. intros [Hh|Hh]%orb_true_iff; [right; eauto|by left].
    + intros r [= <-]. split; eauto.
  - destruct Hread as (rp & -> & Hrp). destruct (cst_entries (rg_state w) !! key) as [e|] eqn:Ee; [|by intros [= <- <-]]. intros [= <- <-].
    destruct (Hold key e Ee) as [[t0 A] B C D].
    assert (Hun : unmodified w' key (de_digest e) (rg_now w)).
    { destruct (Hask e eq_refl) as [<-|(t1 & Ht1 & Hs1)]; [exists a, rq, rp, (de_etag e), t0|exists a, rq, rp, (de_etag e), t1]; split_and!; eauto using served_extends. }
    split; [|intros r [= <-]; split; eauto]. apply Hput; [done|]. split; cbn; [eauto|by right|done|done].
Qed.

Lemma registry_step_ok w w' : registry_step w w' → registry_ok w → registry_ok w'.
Proof.
  intros Hs Hok. destruct Hs as [now Hn|t req Ht|t req key Ht Hk|t req key Ht|t req key Ht|t req key etag since answers clock o trace answer st Ht Hh Hr|t task Ht].
  - destruct Hok as [H1 H2 H3]. split; cbn; [intros key e He; apply (entry_extends w); [by split|by apply H1]| |].
    + intros t task Ht. apply (task_extends w); [by split|by eapply H2].
    + intros t task Ht. apply (ask_extends w); [by split|done|eauto|by eapply H3].
  - eapply task_step; [exact Hok| |done|done|done| |]; [split; cbn; auto; intros r Hin; apply elem_of_app; by left| |by destruct (cache_key req)].
    destruct (cache_key req); [done|]. cbn. apply elem_of_app. right. apply list_elem_of_here.
  - eapply task_step; [exact Hok|by split|done|done|done| |by destruct (cache_lookup _ _ _ _)]. pose proof (rk_tasks w Hok t _ Ht) as Hin. cbn in Hin.
    destruct (cache_lookup _ _ _ _) as [r|] eqn:E; cbn [resolve_task_ok]; [|done]. exists key. split; [done|]. apply (rests_extends w); [by split|]. by apply lookup_rests.
  - eapply task_step; [exact Hok|by split|done|done|done| |by destruct (registry_pause _ _ _)]. destruct (registry_pause _ _ _); [done|]. exact (rk_tasks w Hok t _ Ht).
  - eapply task_step; [exact Hok|by split|done|done|done|exact (rk_tasks w Hok t _ Ht)|]. split; [done|]. intros e He. left. cbn in He.
    unfold previous_etag. by rewrite He.
  - destruct (rk_tasks w Hok t _ Ht) as [Hin Hk]. pose proof (rk_asks w Hok t _ Ht) as Hask. set (w' := {| rg_state := st |}).
    assert (He : extends w w') by (eapply extends_log; [done|auto]).
    destruct (head_read _ _ _ _ _ _ _ Hh) as (rq & x & Hx & Hurl & Hrd).
    set (a := {| at_exchanges := ht_exchanges trace; at_sent := since; at_time := rg_now w; at_outcome := o |}).
    assert (Hex : exchanged w' key a rq x) by (split_and!; [apply elem_of_app; right; apply list_elem_of_here|done|done]).
    destruct (record_ok w w' key req a rq x etag answer st Hok He Hex Hrd eq_refl Hask Hk Hin Hr) as [He' Ha]. split; [exact He'| |].
    + intros t' task'. cbn. intros [[<- <-]|[_ Hold]]%lookup_insert_Some; [|eapply task_extends; [exact He|]; by eapply rk_tasks].
      destruct answer as [|r]; cbn; [done|]. exists key. split; [done|]. by apply Ha.
    + intros t' task'. cbn [rg_tasks w']. intros [[<- <-]|[_ Hold]]%lookup_insert_Some; [done|].
      apply (ask_extends w); [exact He|done| |by eapply rk_asks]. intros k e' [?|[-> ->]]%(record_entries _ _ _ _ _ _ _ Hr); [by left|right].
      destruct Hrd as (_ & rp & -> & ? & ? & ?). exists a, rq, rp. by split_and!.
  - eapply task_step; [exact Hok|by split|done|done|done|done|done].
Qed.

(** C36: however resolves of many code locations interleave, an answer carries a digest that a
    successful response to a manifest request for exactly its registry, repository and tag carried:
    the resolve's own when it is new. An answer of no change rests on a 304 to a request for that
    url which carried the etag served with the digest, if that makes a header, or the digest was
    served since that etag was read. An answer from the cache was confirmed so within the request's
    time to live, or an attempt on the url failed and its wait is not over. And a tag is taken not to
    move only when it looks like a version or a request for it said so. *)
Theorem registry_answers_served w t req at_ r :
  rtc registry_step registry_init w → rg_tasks w !! t = Some (RDone req at_ (inr r)) →
  ∃ key, cache_key req = inr key ∧ rests w key (rr_cache_ttl req) at_ r.
Proof.
  intros Hw Ht. assert (Hok : registry_ok w).
  { assert (Hgo : ∀ w0, rtc registry_step w0 w → registry_ok w0 → registry_ok w).
    { intros w0 H. induction H as [|x y z Hxy _ IH]; [done|]. intros Hx. by eapply IH, registry_step_ok. }
    apply (Hgo registry_init Hw). split; cbn; [intros k e He|intros t' task He..]; by rewrite lookup_empty in He. }
  exact (rk_tasks w Hok t _ Ht).
Qed.
End registry.

(** ** Two code locations on one tag *)
Module RegistryExample.
Definition key : CacheKey := (asc "ghcr.io", asc "acme/runtime", asc "stable").
Definition request (hint : bool) : ResolveRequest :=
  {| rr_image := asc "ghcr.io/acme/runtime"; rr_tag := asc "stable"; rr_auth := Anonymous; rr_immutable_hint := hint; rr_cache_ttl := secs 300 |}.
Definition digest : Bytes := asc "sha256:0f".
Definition tag1 : Bytes := asc "W/1".
Definition response (status : Z) (retry_after : option Bytes) : Response :=
  {| rp_status := status; rp_digest := Some digest; rp_etag := Some tag1; rp_retry_after := retry_after; rp_www_authenticate := None |}.
Definition answers (r : Response) : HeadAnswers := {| ha_first := inr r; ha_token := inl []; ha_retry := inl [] |}.

Definition head := head_manifest (λ _, None) (λ _, []) (λ _, true) [] false (λ b, b).
Definition record := record_outcome (λ _, false).
Definition step := registry_step (λ _, None) (λ _, []) (λ _, true) [] (λ _, false) false (λ b, b).

Definition entry (at_ : Z) : DigestEntry :=
  {| de_digest := digest; de_etag := Some tag1; de_resolved_at := at_; de_immutable := false; de_next_attempt_after := None; de_consecutive_errors := 0 |}.
Definition sent (etag : option Bytes) : ManifestRequest :=
  {| mq_url := asc "https://ghcr.io/v2/acme/runtime/manifests/stable"; mq_authorization := None; mq_if_none_match := etag |}.
Definition first_attempt : Attempt :=
  {| at_exchanges := [(sent None, inr (response 200 None))]; at_sent := 0; at_time := 0; at_outcome := inr (Fresh digest (Some tag1)) |}.
Definition second_attempt : Attempt :=
  {| at_exchanges := [(sent (Some tag1), inr (response 304 None))]; at_sent := secs 86400; at_time := secs 86400; at_outcome := inr NotModified |}.

Definition resolved : Registry :=
  {| rg_state := {| cst_entries := {[ key := entry 0 ]}; cst_rate_limited := ∅ |}; rg_now := 0;
     rg_tasks := <[0 := RDone (request false) 0 (inr (Resolved digest))]> (<[0 := RAsk (request false) key None 0]> (<[0 := REtag (request false) key]>
       (<[0 := RPause (request false) key]> (<[0 := RLookup (request false)]> ∅))));
     rg_asked := [request false]; rg_log := [first_attempt] |}.
(** A day later another code location asks, and the tag has not moved. *)
Definition asking : Registry :=
  {| rg_state := rg_state resolved; rg_now := secs 86400;
     rg_tasks := <[1 := RAsk (request false) key (Some tag1) (secs 86400)]>
       (<[1 := REtag (request false) key]> (<[1 := RPause (request false) key]> (<[1 := RLookup (request false)]> (rg_tasks resolved))));
     rg_asked := [request false; request false]; rg_log := [first_attempt] |}.
Definition shared : Registry :=
  {| rg_state := with_entry key (entry (secs 86400)) (rg_state resolved); rg_now := secs 86400;
     rg_tasks := <[1 := RDone (request false) (secs 86400) (inr (Unchanged digest))]> (rg_tasks asking);
     rg_asked := rg_asked asking; rg_log := [first_attempt; second_attempt] |}.

Lemma resolved_reached : rtc step registry_init resolved.
Proof.
  eapply rtc_l; [apply (rs_start _ _ _ _ _ _ _ _ 0 (request false)); reflexivity|].
  eapply rtc_l; [apply (rs_lookup _ _ _ _ _ _ _ _ 0 (request false) key); reflexivity|].
  eapply rtc_l; [apply (rs_pause _ _ _ _ _ _ _ _ 0 (request false) key); reflexivity|].
  eapply rtc_l; [apply (rs_etag _ _ _ _ _ _ _ _ 0 (request false) key); reflexivity|].
  eapply rtc_l; [eapply (rs_record _ _ _ _ _ _ _ _ 0 (request false) key None 0 (answers (response 200 None)) 0); reflexivity|].
  apply rtc_refl.
Qed.

Lemma asking_reached : rtc step resolved asking.
Proof.
  eapply rtc_l; [apply (rs_tick _ _ _ _ _ _ _ _ (secs 86400)); done|].
  eapply rtc_l; [apply (rs_start _ _ _ _ _ _ _ _ 1 (request false)); reflexivity|].
  eapply rtc_l; [apply (rs_lookup _ _ _ _ _ _ _ _ 1 (request false) key); reflexivity|].
  eapply rtc_l; [apply (rs_pause _ _ _ _ _ _ _ _ 1 (request false) key); reflexivity|].
  eapply rtc_l; [apply (rs_etag _ _ _ _ _ _ _ _ 1 (request false) key); reflexivity|].
  apply rtc_refl.
Qed.

Lemma asking_answered : step asking shared.
Proof.
  refine (rs_record _ _ _ _ _ _ _ _ 1 (request false) key (Some tag1) (secs 86400) (answers (response 304 None)) 0 (inr NotModified)
    {| ht_exchanges := at_exchanges second_attempt; ht_token := None |} (inr (Unchanged digest)) (rg_state shared) _ _ _); vm_compute; reflexivity.
Qed.

Lemma shared_reached : rtc step registry_init shared.
Proof. transitivity resolved; [exact resolved_reached|]. transitivity asking; [exact asking_reached|]. apply rtc_once, asking_answered. Qed.

(** The second answer rests on a 304 for the etag of the first. *)
Lemma registry_answers_served_witness :
  ∃ k, cache_key (request false) = inr k ∧ rests (λ _, true) (λ _, false) false shared k (secs 300) (secs 86400) (Unchanged digest).
Proof.
  apply (registry_answers_served (λ _, None) (λ _, []) (λ _, true) [] (λ _, false) false (λ b, b) shared 1 (request false) (secs 86400) (Unchanged digest) shared_reached).
  reflexivity.
Defined.

(** A wait that no [Instant] can hold ends the task in a panic. *)
Example endless_wait_panics :
  record (rg_state resolved) key (request false)
    (head key.1.1 key.1.2 key.2 Anonymous None (answers (response 429 (Some (asc "9223372036854775808")))) 0).1 0 = None.
Proof. vm_compute. reflexivity. Qed.

(** One code location's hint holds for another, whose answer is never asked for again. *)
Example hint_is_shared :
  (λ r, cache_lookup r.2 key (request false) (secs 1000000000)) <$> record (rg_state registry_init) key (request true) (inr (Fresh digest None)) 0 =
  Some (Some (Immutable digest)).
Proof. vm_compute. reflexivity. Qed.

(** A scope of two actions is cut at its comma, and keeps its opening quote. *)
Example scope_of_two_actions :
  parse_challenge (asc "Bearer realm=" ++ [QUOTE] ++ asc "https://auth" ++ [QUOTE] ++ asc ",scope=" ++ [QUOTE] ++ asc "repository:a:pull,push" ++ [QUOTE]) =
  Some {| bc_realm := asc "https://auth"; bc_service := None; bc_scope := Some (QUOTE :: asc "repository:a:pull") |}.
Proof. vm_compute. reflexivity. Qed.
End RegistryExample.
