(* ===== verification/LocationStatus.v ===== *)
(** * The controller of code locations (rust/rivers-operator/src/codelocation/reconcile/)

    What a pass over a code location reads from its Deployment, the status it publishes in
    git and in image mode, as leader or follower, and the tree it applies. The answers of the
    registry, the git resolver and the API server are inputs of a pass. Timestamps are
    nanoseconds, their text (jiff) is a parameter, and so is the text of a git error. *)

From S2P Require Import Prelude GitRefs GitResolver Quantity Admission WorkspaceKey Registry.

(** ** Names *)
Definition CONDITION_IMAGE_RESOLVED : Bytes := asc "ImageResolved".
Definition CONDITION_SOURCE_RESOLVED : Bytes := asc "SourceResolved".
Definition CONDITION_DEPLOYMENT_AVAILABLE : Bytes := asc "DeploymentAvailable".
Definition CONDITION_WORKSPACE_KEPT : Bytes := asc "WorkspaceKept".

Definition MAIN_CONTAINER : Bytes := asc "code-location".
Definition SYNC_CONTAINER : Bytes := asc "workspace".

Definition deployment_name (name : Bytes) : Bytes := name.
Definition service_name (name : Bytes) : Bytes := name ++ asc "-grpc".
Definition workspace_pvc_name (name : Bytes) : Bytes := name ++ asc "-workspace".
Definition keep_config_map_name (name : Bytes) : Bytes := name ++ asc "-workspace-keep".

Definition TERMINAL_RETRY : Z := secs 300.
Definition FOLLOWER_WAIT : Z := secs 30.
Definition DEPLOYMENT_ROLLOUT_POLL : Z := secs 10.
Definition WORKSPACE_RECHECK : Z := secs 60.

(** ** Rollouts (rollout.rs) *)

(** The last run of a container that ended. *)
Record Terminated := { tm_exit_code : Z; tm_reason : option Bytes; tm_message : option Bytes; tm_finished_at : option Z }.

(** What the main container of a pod template runs: its image, and the source in its
    environment. *)
Record PodTemplate := { pt_image : option Bytes; pt_source : option RunSource }.

#[export] Instance PodTemplate_eq_dec : EqDecision PodTemplate.
Proof. solve_decision. Defined.

(** A container with the run in its state and the one in its last state, if they ended. *)
Record ContainerStatus := { cr_name : Bytes; cr_ended : option Terminated; cr_last_ended : option Terminated }.

Record PodStatus := { pu_init_container_statuses : option (list ContainerStatus); pu_container_statuses : option (list ContainerStatus) }.

Record Pod := { pd_name : option Bytes; pd_spec : option PodTemplate; pd_status : option PodStatus }.

Class Template (T : Type) := {
  template_eq_dec :: EqDecision T;
  of_pod : PodTemplate → option T;
  describe : T → option T → Bytes
}.

(** [str::get(..n)], the whole text when it is shorter or the end cuts a character *)
Definition get_prefix (n : nat) (s : Bytes) : Bytes :=
  if (n <=? length s)%nat && match drop n s with c :: _ => negb (between 128 191 c) | [] => true end then take n s else s.

Definition source_display (source : RunSource) : Bytes :=
  let short := get_prefix 7 (gc_commit (so_git source)) in
  match gc_ref (so_git source) with
  | Some r =>
      let name := match strip_prefix (asc "refs/heads/") r with Some n => n | None => default r (strip_prefix (asc "refs/tags/") r) end in
      name ++ asc "@" ++ short
  | None => short ++ asc " (pinned)"
  end.

#[export] Instance source_template : Template RunSource := {
  template_eq_dec := RunSource_eq_dec;
  of_pod := pt_source;
  describe := λ source other,
    let display := source_display source in
    match other with
    | Some o => if bool_decide (so_runtime_image o = so_runtime_image source) then display else display ++ asc " on " ++ so_runtime_image source
    | None => display
    end
}.

#[export] Instance image_template : Template Bytes := {
  template_eq_dec := _;
  of_pod := pt_image;
  describe := λ image _, image
}.

Record DeploymentStatus := {
  ds_observed_generation : option Z; ds_replicas : option Z; ds_updated_replicas : option Z; ds_ready_replicas : option Z;
  ds_available_replicas : option Z; ds_conditions : list (option Bytes * option Bytes * option Bytes)
}.

Record Deployment := { dm_generation : option Z; dm_replicas : option Z; dm_template : option PodTemplate; dm_status : option DeploymentStatus }.

Definition generation_observed (d : Deployment) : bool :=
  match dm_status d ≫= ds_observed_generation, dm_generation d with Some seen, Some current => (current <=? seen)%Z | _, _ => false end.

Definition no_old_pods (d : Deployment) : bool :=
  match dm_status d with
  | Some status => generation_observed d && (default 0 (ds_replicas status) =? default 0 (ds_updated_replicas status))%Z
  | None => false
  end.

Definition rollout_complete (d : Deployment) : bool :=
  match dm_status d with
  | None => false
  | Some status =>
      let desired := default 1%Z (dm_replicas d) in
      let all count := (desired <=? default 0 count)%Z in
      (0 <? desired)%Z && no_old_pods d && all (ds_updated_replicas status) && all (ds_ready_replicas status) && all (ds_available_replicas status)
  end.

Definition has_progress_deadline_exceeded (status : DeploymentStatus) : bool :=
  bool_decide ((Some (asc "Progressing"), Some (asc "False"), Some (asc "ProgressDeadlineExceeded")) ∈ ds_conditions status).

Record Rollout (T : Type) := {
  rl_template : option T; rl_complete : bool; rl_ready_replicas : option Z; rl_deadline_exceeded : bool;
  rl_build_failure : option Terminated; rl_load_failure : option Terminated
}.
Arguments rl_template {T}.
Arguments rl_complete {T}.
Arguments rl_ready_replicas {T}.
Arguments rl_deadline_exceeded {T}.
Arguments rl_build_failure {T}.
Arguments rl_load_failure {T}.

(** The order of the keys [(finished_at, pod name)]. *)
Definition option_leb {A} (leb : A → A → bool) (a b : option A) : bool :=
  match a, b with None, _ => true | Some _, None => false | Some a, Some b => leb a b end.

Fixpoint bytes_leb (a b : Bytes) : bool :=
  match a, b with
  | [], _ => true
  | _, [] => false
  | x :: a, y :: b => if bool_decide (x = y) then bytes_leb a b else (code x <? code y)%N
  end.

Definition failure_leb (a b : Terminated * option Bytes) : bool :=
  if bool_decide (tm_finished_at a.1 = tm_finished_at b.1) then option_leb bytes_leb a.2 b.2
  else option_leb Z.leb (tm_finished_at a.1) (tm_finished_at b.1).

Definition find_named (name : Bytes) (cs : list ContainerStatus) : option ContainerStatus := head (filter (λ c, cr_name c = name) cs).

Section rollouts.
Context {T : Type} `{Template T}.

Definition deployment_rollout (deployment : option Deployment) : Rollout T :=
  match deployment with
  | Some {| dm_template := template; dm_status := Some status |} as d =>
      {| rl_template := template ≫= of_pod;
         rl_complete := match d with Some d => rollout_complete d | None => false end;
         rl_ready_replicas := Some (default 0%Z (ds_ready_replicas status));
         rl_deadline_exceeded := match d with Some d => generation_observed d | None => false end && has_progress_deadline_exceeded status;
         rl_build_failure := None; rl_load_failure := None |}
  | _ => {| rl_template := None; rl_complete := false; rl_ready_replicas := None; rl_deadline_exceeded := false; rl_build_failure := None; rl_load_failure := None |}
  end.

(** The last run of the container a pod has, when it failed, with the pod's name. *)
Definition failure_of (template : T) (container : PodStatus → option ContainerStatus) (pod : Pod) : option (Terminated * option Bytes) :=
  if bool_decide (pd_spec pod ≫= of_pod = Some template) then
    status ← pd_status pod; c ← container status;
    last_run ← match cr_ended c with Some ended => Some ended | None => cr_last_ended c end;
    if (tm_exit_code last_run =? 0)%Z then None else Some (last_run, pd_name pod)
  else None.

(** [max_by_key] takes the last of the greatest. *)
Definition newest_failure (pods : list Pod) (template : T) (container : PodStatus → option ContainerStatus) : option Terminated :=
  fst <$> foldl (λ best f, match best with Some b => if failure_leb b f then Some f else best | None => Some f end) None
            (omap (failure_of template container) pods).

Definition newest_build_failure (pods : list Pod) (template : T) : option Terminated :=
  newest_failure pods template (λ status, cs ← pu_init_container_statuses status; find_named SYNC_CONTAINER cs).

Definition newest_load_failure (pods : list Pod) (template : T) : option Terminated :=
  newest_failure pods template (λ status, cs ← pu_container_statuses status; find_named MAIN_CONTAINER cs).

(** [pods] is none when they could not be listed. *)
Definition observe_deployment (deployment : option Deployment) (pods : option (list Pod)) : Rollout T :=
  let r := deployment_rollout deployment in
  match rl_template r, pods with
  | Some template, Some pods =>
      if rl_complete r then r
      else {| rl_template := rl_template r; rl_complete := rl_complete r; rl_ready_replicas := rl_ready_replicas r;
              rl_deadline_exceeded := rl_deadline_exceeded r; rl_build_failure := newest_build_failure pods template;
              rl_load_failure := newest_load_failure pods template |}
  | _, _ => r
  end.

Definition rollout_message (target serving : option T) (stuck : bool) : option Bytes :=
  t ← target;
  if bool_decide (Some t = serving) then None
  else
    let rollout := if stuck then asc "rollout of " ++ describe t serving ++ asc " exceeded its progress deadline"
                   else asc "rolling out " ++ describe t serving in
    Some match serving with Some s => rollout ++ asc "; runs use " ++ describe s (Some t) | None => rollout end.

Definition failure_message (what_failed : Bytes) (failed : Terminated) : Bytes :=
  let code := asc (pretty.pretty (tm_exit_code failed)) in
  let cause := match tm_reason failed with Some reason => reason ++ asc ", exit code " ++ code | None => asc "exit code " ++ code end in
  let summary := what_failed ++ asc " (" ++ cause ++ asc ")" in
  match trim <$> tm_message failed with
  | Some said => if bool_decide (said = []) then summary else summary ++ asc ": " ++ said
  | None => summary
  end.

Definition build_failure_message (target : T) (failed : Terminated) : Bytes :=
  failure_message (asc "workspace build of " ++ describe target None ++ asc " failed") failed.

Definition load_failure_message (target : T) (failed : Terminated) : Bytes :=
  failure_message (asc "code location " ++ describe target None ++ asc " failed to load") failed.

(** ** What a pass publishes of a rollout (status.rs) *)
Record RolloutStatus := {
  rt_serving : option T; rt_ready : bool; rt_failed : bool; rt_phase : CodeLocationPhase; rt_reason : Bytes; rt_message : option Bytes;
  rt_pod_failure : option Bytes
}.

Definition serving_template (r : Rollout T) (prior_serving : option T) : option T :=
  match rl_template r with Some template => if rl_complete r then Some template else prior_serving | None => prior_serving end.

Definition pod_failure_of (r : Rollout T) : option Bytes :=
  target ← rl_template r;
  match rl_build_failure r with Some f => Some (build_failure_message target f) | None => load_failure_message target <$> rl_load_failure r end.

Definition rollout_status (replicas : Z) (r : Rollout T) (prior_serving : option T) (apply_failure : option Bytes) : RolloutStatus :=
  let serving := serving_template r prior_serving in
  let ready := bool_decide (is_Some serving) && (0 <? replicas)%Z && match rl_ready_replicas r with Some n => (replicas <=? n)%Z | None => false end in
  let failed := bool_decide (is_Some apply_failure) && bool_decide (serving = None) in
  let pod_failure := pod_failure_of r in
  let '(reason, message) :=
    match apply_failure with
    | Some failure =>
        (asc "ApplyFailed", Some match serving with Some s => failure ++ asc "; runs use " ++ describe s None | None => failure end)
    | None =>
        if bool_decide (rl_ready_replicas r = None) then (asc "NoDeploymentStatus", None)
        else if ready && rl_complete r then (asc "MinimumReplicasAvailable", None)
        else
          (if rl_deadline_exceeded r then asc "ProgressDeadlineExceeded" else asc "RollingOut",
           match rollout_message (rl_template r) serving (rl_deadline_exceeded r), pod_failure with
           | Some rollout, Some failure => Some (rollout ++ asc "; " ++ failure)
           | Some rollout, None => Some rollout
           | None, failure => failure
           end)
    end in
  {| rt_serving := serving; rt_ready := ready; rt_failed := failed;
     rt_phase := if ready then Ready else if failed then Failed else Deploying;
     rt_reason := reason; rt_message := message; rt_pod_failure := pod_failure |}.
End rollouts.
Arguments RolloutStatus : clear implicits.

(** ** Statuses *)
Inductive ImageError := NotFound | ImageAuthFailed | ImageRateLimited (d : Z) | Transient (msg : Bytes).

Definition image_error_of (e : RegistryError) : ImageError :=
  match e with
  | RegNotFound => NotFound
  | RegAuthFailed => ImageAuthFailed
  | RegRateLimited retry_after => ImageRateLimited retry_after
  | RegTransient msg | RegMalformed msg => Transient msg
  end.

Definition image_error_reason (e : ImageError) : Bytes :=
  match e with
  | NotFound => asc "TagNotFound"
  | ImageAuthFailed => asc "AuthenticationFailed"
  | ImageRateLimited _ => asc "RateLimited"
  | Transient _ => asc "RegistryError"
  end.

Definition image_error_message (e : ImageError) : Bytes :=
  match e with
  | NotFound => asc "tag not found in registry"
  | ImageAuthFailed => asc "registry authentication failed"
  | ImageRateLimited d => asc "registry rate-limited; retrying in " ++ asc (pretty.pretty (d / 1000000000)%Z) ++ asc "s"
  | Transient msg => msg
  end.

Definition image_error_retry_after (e : ImageError) : Z :=
  match e with ImageRateLimited d => d | NotFound | ImageAuthFailed => TERMINAL_RETRY | Transient _ => secs 60 end.

Definition image_error_transient (e : ImageError) : bool := match e with Transient _ | ImageRateLimited _ => true | _ => false end.

Definition git_error_reason_retry (e : GitError) : Bytes * Z :=
  match e with
  | RefNotFound _ => (asc "RefNotFound", TERMINAL_RETRY)
  | InvalidRef => (asc "InvalidRef", TERMINAL_RETRY)
  | InvalidUrl => (asc "InvalidUrl", TERMINAL_RETRY)
  | AuthFailed => (asc "GitAuthFailed", TERMINAL_RETRY)
  | HostKeyRejected | KnownHostsUnavailable => (asc "GitHostKeyRejected", TERMINAL_RETRY)
  | Unreachable => (asc "GitUnreachable", secs 60)
  | RateLimited _ => (asc "GitRateLimited", secs 60)
  | Malformed => (asc "GitMalformedResponse", TERMINAL_RETRY)
  end.

Definition is_git_status (s : CodeLocationStatus) : bool :=
  bool_decide (is_Some (ct_run_source s)) || bool_decide (is_Some (ct_resolved_commit s)) || bool_decide (is_Some (ct_resolved_ref s)) ||
  bool_decide (is_Some (ct_last_fetched_at s)) || existsb (λ c, bool_decide (cn_type c = CONDITION_SOURCE_RESOLVED)) (ct_conditions s).

Inductive GitResolution :=
| ImageResolved (image image_reason : Bytes) (source : GitFailure + ResolvedRef)
| ImageFailed (e : ImageError).

Record GitStatusUpdate := { gu_resolution : option GitResolution; gu_rollout : Rollout RunSource; gu_apply_failure : option Bytes; gu_endpoint : Bytes }.

Record ImagePass := { ip_image : Bytes; ip_image_reason : Bytes; ip_workspace_kept : option (Bytes * Bytes) }.

Record ImageStatusUpdate := { iu_leader : option ImagePass; iu_rollout : Rollout Bytes; iu_endpoint : Bytes }.

Inductive Unresolved := UAwaitingLeader | UImage (e : ImageError) | USource (f : GitFailure).

Definition default_location_status : CodeLocationStatus :=
  {| ct_phase := None; ct_observed_generation := None; ct_resolved_image := None; ct_grpc_endpoint := None; ct_last_reconciled := None;
     ct_ready_replicas := None; ct_message := None; ct_conditions := []; ct_source := None; ct_resolved_commit := None; ct_resolved_ref := None;
     ct_last_fetched_at := None; ct_run_source := None |}.

Definition kept_conditions (prior : option CodeLocationStatus) (kinds : list Bytes) : list CodeLocationCondition :=
  match prior with Some s => filter (λ c, cn_type c ∈ kinds) (ct_conditions s) | None => [] end.

Definition find_condition (prior : option CodeLocationStatus) (kind : Bytes) : option CodeLocationCondition :=
  match prior with Some s => head (filter (λ c, cn_type c = kind) (ct_conditions s)) | None => None end.

(** [push_condition], as the condition it appends *)
Definition new_condition (prior : option CodeLocationStatus) (kind status reason : Bytes) (message : option Bytes) (now : Bytes) : CodeLocationCondition :=
  let prior_transition :=
    match find_condition prior kind with
    | Some c => if bool_decide (cn_status c = status) then cn_last_transition_time c else None
    | None => None
    end in
  {| cn_type := kind; cn_status := status; cn_last_transition_time := Some (default now prior_transition); cn_reason := Some reason; cn_message := message |}.

Definition next_status (cl : CodeLocation) (phase : CodeLocationPhase) (at_ : Bytes) : CodeLocationStatus :=
  let s := default default_location_status (cl_status cl) in
  {| ct_phase := Some phase; ct_observed_generation := cl_generation cl; ct_resolved_image := ct_resolved_image s; ct_grpc_endpoint := None;
     ct_last_reconciled := Some at_; ct_ready_replicas := None; ct_message := None; ct_conditions := []; ct_source := ct_source s;
     ct_resolved_commit := ct_resolved_commit s; ct_resolved_ref := ct_resolved_ref s; ct_last_fetched_at := ct_last_fetched_at s;
     ct_run_source := ct_run_source s |}.

Definition with_conditions (conditions : list CodeLocationCondition) (message : option Bytes) (s : CodeLocationStatus) : CodeLocationStatus :=
  {| ct_phase := ct_phase s; ct_observed_generation := ct_observed_generation s; ct_resolved_image := ct_resolved_image s;
     ct_grpc_endpoint := ct_grpc_endpoint s; ct_last_reconciled := ct_last_reconciled s; ct_ready_replicas := ct_ready_replicas s;
     ct_message := message; ct_conditions := conditions; ct_source := ct_source s; ct_resolved_commit := ct_resolved_commit s;
     ct_resolved_ref := ct_resolved_ref s; ct_last_fetched_at := ct_last_fetched_at s; ct_run_source := ct_run_source s |}.

Definition with_reconciled (at_ : option Bytes) (s : CodeLocationStatus) : CodeLocationStatus :=
  {| ct_phase := ct_phase s; ct_observed_generation := ct_observed_generation s; ct_resolved_image := ct_resolved_image s;
     ct_grpc_endpoint := ct_grpc_endpoint s; ct_last_reconciled := at_; ct_ready_replicas := ct_ready_replicas s;
     ct_message := ct_message s; ct_conditions := ct_conditions s; ct_source := ct_source s; ct_resolved_commit := ct_resolved_commit s;
     ct_resolved_ref := ct_resolved_ref s; ct_last_fetched_at := ct_last_fetched_at s; ct_run_source := ct_run_source s |}.

(** [patch_status]: what is written, if anything *)
Definition patch_location_status (cl : CodeLocation) (status : CodeLocationStatus) : option CodeLocationStatus :=
  match cl_status cl with
  | Some prior => if bool_decide (status = with_reconciled (ct_last_reconciled status) prior) then None else Some status
  | None => Some status
  end.

(** ** Intervals (config.rs) *)

Definition checked_mul_u64 (n m : Z) : option Z := if (n * m <? 2 ^ 64)%Z then Some (n * m)%Z else None.

(** [humantime_lite::parse], in seconds *)
Definition humantime_parse (s : Bytes) : option Z :=
  let s := trim s in
  match strip_suffix (asc "s") s with
  | Some num => parse_u64 num
  | None =>
      match strip_suffix (asc "m") s with
      | Some num => parse_u64 num ≫= λ n, checked_mul_u64 n 60
      | None =>
          match strip_suffix (asc "h") s with
          | Some num => parse_u64 num ≫= λ n, checked_mul_u64 n 3600
          | None => parse_u64 s
          end
      end
  end.

Definition DEFAULT_REFRESH : Z := secs 300.
Definition MIN_REFRESH : Z := secs 60.

Definition parse_refresh_interval (spec_value : option Bytes) : Z :=
  match spec_value with
  | None => DEFAULT_REFRESH
  | Some raw =>
      let trimmed := trim raw in
      if bool_decide (trimmed = asc "0") then secs (3600 * 24)
      else
        match humantime_parse trimmed with
        | Some d => if (MIN_REFRESH <=? secs d)%Z then secs d else MIN_REFRESH
        | None => DEFAULT_REFRESH
        end
  end.

(** ** Jitter (mod.rs) *)

(** [fastrand::u64], an xorshift of the seed it reads: the draw from [0..=last]. *)
Definition xorshift (seed : Z) : Z :=
  let x := Z.lxor seed (Z.shiftl seed 13 mod 2 ^ 64) in
  let x := Z.lxor x (Z.shiftr x 7) in
  Z.lxor x (Z.shiftl x 17 mod 2 ^ 64).

Definition draw (seed last : Z) : Z := xorshift seed mod Z.max (Z.min (last + 1) (2 ^ 64 - 1)) 1.

(** The interval plus up to a quarter of it, in whole milliseconds. *)
Definition jitter (seed interval : Z) : Z :=
  let quarter := (interval / 1000000 / 4)%Z in
  if (quarter =? 0)%Z then interval else (interval + draw seed (quarter mod 2 ^ 64) * 1000000)%Z.

(** ** The workspace (workspace.rs) *)
Record RunObject := { ru_namespace : option Bytes; ru_name : Bytes; ru_spec : RunSpec; ru_terminal : bool }.

Definition is_run_of (namespace cl_name : Bytes) (run : RunObject) : bool :=
  bool_decide (ru_namespace run = Some namespace) && bool_decide (lr_name (sp_code_location_ref (ru_spec run)) = cl_name).

(** The set [workspace_keep_csv] lists. *)
Definition workspace_keep (key_of : RunSource → Bytes) (target_key : Bytes) (serving_key : option Bytes) (namespace cl_name : Bytes)
    (runs : list RunObject) : gset Bytes :=
  foldl (λ keys run,
    if negb (is_run_of namespace cl_name run) then keys
    else if ru_terminal run then keys
    else match sp_source (ru_spec run) with Some source => {[key_of source]} ∪ keys | None => keys end)
    ({[target_key]} ∪ match serving_key with Some k => {[k]} | None => ∅ end) runs.

Inductive KubeError := ApiStatus (code : Z) (reason message : Bytes) | OtherError.

(** [ApplyError] is the error that ends the pass. *)
Inductive Applied := AppliedAll | WaitingForPvc | Refused (message : Bytes) (retry : Z) | ApplyError.

Definition refused (action : Bytes) (error : KubeError) : Applied :=
  match error with
  | OtherError => ApplyError
  | ApiStatus code reason message =>
      let answer := if bool_decide (message = []) then asc (pretty.pretty code) ++ asc " " ++ reason else message in
      let retry := if (500 <=? code)%Z || (code =? 409)%Z || (code =? 429)%Z then secs 60 else TERMINAL_RETRY in
      Refused (action ++ asc " failed: " ++ answer) retry
  end.

(** What the API server answers for the objects of a git code location: the claim (found or
    created, and not being deleted), the keep ConfigMap, the Deployment and the Service. *)
Record ApplyAnswers := { aa_pvc : KubeError + bool; aa_keep : option KubeError; aa_deployment : option KubeError; aa_service : option KubeError }.

(** What was done, whether the Deployment was asked for, and the keep-set that was. [runs] is
    none until the store has synced. *)
Definition apply_git_workspace (key_of : RunSource → Bytes) (shared_enabled : bool) (namespace name : Bytes) (serving : option RunSource)
    (source : RunSource) (runs : option (list RunObject)) (answers : ApplyAnswers) : Applied * bool * option (gset Bytes) :=
  let keep :=
    if shared_enabled then (λ runs, workspace_keep key_of (key_of source) (key_of <$> serving) namespace name runs) <$> runs else None in
  let objects :=
    match aa_deployment answers, aa_service answers with
    | Some e, _ => refused (asc "applying Deployment '" ++ deployment_name name ++ asc "'") e
    | None, Some e => refused (asc "applying Service '" ++ service_name name ++ asc "'") e
    | None, None => AppliedAll
    end in
  if shared_enabled then
    match aa_pvc answers with
    | inr false => (WaitingForPvc, false, None)
    | inl e => (refused (asc "creating PersistentVolumeClaim '" ++ workspace_pvc_name name ++ asc "'") e, false, None)
    | inr true =>
        match keep, aa_keep answers with
        | Some _, Some e => (refused (asc "applying ConfigMap '" ++ keep_config_map_name name ++ asc "'") e, false, keep)
        | _, _ => (objects, true, keep)
        end
    end
  else (objects, true, None).

Fixpoint join (sep : Bytes) (l : list Bytes) : Bytes :=
  match l with [] => [] | [x] => x | x :: l => x ++ sep ++ join sep l end.

Definition brief_list (names : list Bytes) : Bytes :=
  let shown := join (asc ", ") (take 5 names) in
  match (length names - 5)%nat with O => shown | more => shown ++ asc " and " ++ asc (pretty.pretty (Z.of_nat more)) ++ asc " more" end.

Definition git_workspace_kept (cl : CodeLocation) (runs : option (list RunObject)) (namespace name : Bytes) (deployment : option Deployment)
    : option (Bytes * Bytes) :=
  let stays := asc "PVC '" ++ workspace_pvc_name name ++ asc "' of the git source stays" in
  let git_serves := match cl_status cl with Some s => bool_decide (is_Some (ct_run_source s)) | None => false end in
  if git_serves || negb match deployment with Some d => no_old_pods d | None => false end
  then Some (asc "RollingOut", stays ++ asc " until every code-location pod runs the image")
  else
    match runs with
    | None => Some (asc "RunsNotListed", stays ++ asc " until the operator has listed the runs")
    | Some runs =>
        let names := ru_name <$> filter (λ r, is_run_of namespace name r = true ∧ is_Some (sp_source (ru_spec r))) runs in
        if bool_decide (names = []) then None
        else Some (asc "RunsUseWorkspace", stays ++ asc " while the pods of these runs mount it: " ++ brief_list (sort_by bytes_leb names))
    end.

(** The claim or the keep ConfigMap as it is read: its owners, and whether it is being deleted. *)
Record LeftObject := { lo_owners : list Bytes; lo_deleting : bool }.

Definition owned_by (object : LeftObject) (uid : Bytes) : bool := bool_decide (uid ∈ lo_owners object).

(** The answer of a delete with [delete_exactly]: an object that is gone is deleted. *)
Definition deleted (answer : option KubeError) : bool :=
  match answer with None => true | Some (ApiStatus code _ _) => (code =? 404)%Z | Some OtherError => false end.

(** What the API server answers for what an earlier git source left. *)
Record LeftAnswers := { la_objects : KubeError + option LeftObject * option LeftObject; la_delete_keep : option KubeError; la_delete_pvc : option KubeError }.

(** Why the workspace stays, or none on an error of the API server; and whether the claim was
    asked to be deleted. *)
Definition remove_git_workspace (cl : CodeLocation) (uid : option Bytes) (runs : option (list RunObject)) (namespace name : Bytes)
    (deployment : option Deployment) (answers : LeftAnswers) : option (option (Bytes * Bytes)) * bool :=
  match uid with
  | None => (Some None, false)
  | Some owner =>
      let may_be_left :=
        match cl_status cl with
        | Some s => is_git_status s || existsb (λ c, bool_decide (cn_type c = CONDITION_WORKSPACE_KEPT)) (ct_conditions s)
        | None => false
        end in
      if negb may_be_left then (Some None, false)
      else
        match la_objects answers with
        | inl _ => (None, false)
        | inr (pvc, keep) =>
            let pvc := p ← pvc; if owned_by p owner && negb (lo_deleting p) then Some p else None in
            match pvc, git_workspace_kept cl runs namespace name deployment with
            | Some _, Some kept => (Some (Some kept), false)
            | _, _ =>
                let keep := k ← keep; if owned_by k owner then Some k else None in
                if bool_decide (is_Some keep) && negb (deleted (la_delete_keep answers)) then (None, false)
                else if bool_decide (is_Some pvc) then (if deleted (la_delete_pvc answers) then Some None else None, true)
                else (Some None, false)
            end
        end
  end.

Section statuses.
(** The text of a timestamp, its parser, a timestamp later by a wait and rounded to the second
    (none when out of range), and the text of an error. *)
Context (ts_text : Z → Bytes) (ts_parse : Bytes → option Z) (ts_later : Z → Z → option Z) (error_text : GitError → Bytes).

Definition source_failure (failure : GitFailure) (now : Z) : Bytes * Bytes :=
  let '(reason, _) := git_error_reason_retry (gf_error failure) in
  (reason,
   match gf_error failure, gf_retry_after failure with
   | RateLimited _, Some wait => error_text (gf_error failure) ++ asc "; the operator asks again at " ++ ts_text (default now (ts_later now wait))
   | _, _ => error_text (gf_error failure)
   end).

Definition later_fetch (prior : option CodeLocationStatus) (at_ : Z) : Bytes :=
  match prior ≫= ct_last_fetched_at with
  | Some known => match ts_parse known with Some k => if (at_ <=? k)%Z then known else ts_text at_ | None => ts_text at_ end
  | None => ts_text at_
  end.

(** The conditions of this pass's resolution, before that of the Deployment. *)
Definition resolution_conditions (prior : option CodeLocationStatus) (resolution : option GitResolution) (at_ : Z) : list CodeLocationCondition :=
  let now := ts_text at_ in
  match resolution with
  | Some (ImageResolved image image_reason source) =>
      let '(source_status, source_reason, source_message) :=
        match source with
        | inr resolved =>
            (asc "True", match res_ref_name resolved with None => asc "CommitPinned" | Some _ => asc "CommitResolved" end, res_commit resolved)
        | inl failure => let '(reason, message) := source_failure failure at_ in (asc "False", reason, message)
        end in
      [new_condition prior CONDITION_IMAGE_RESOLVED (asc "True") image_reason (Some image) now;
       new_condition prior CONDITION_SOURCE_RESOLVED source_status source_reason (Some source_message) now]
  | Some (ImageFailed err) =>
      new_condition prior CONDITION_IMAGE_RESOLVED (asc "False") (image_error_reason err) (Some (image_error_message err)) now ::
      kept_conditions prior [CONDITION_SOURCE_RESOLVED]
  | None => kept_conditions prior [CONDITION_IMAGE_RESOLVED; CONDITION_SOURCE_RESOLVED]
  end.

(** The message of the first resolution that failed. *)
Definition resolution_error (conditions : list CodeLocationCondition) : option Bytes :=
  c ← head (filter (λ c, cn_status c = asc "False" ∧ (cn_type c = CONDITION_IMAGE_RESOLVED ∨ cn_type c = CONDITION_SOURCE_RESOLVED)) conditions);
  cn_message c.

Definition or_else {A} (o p : option A) : option A := match o with Some a => Some a | None => p end.

Definition git_status (cl : CodeLocation) (update : GitStatusUpdate) (at_ : Z) : CodeLocationStatus :=
  let now := ts_text at_ in
  let prior := cl_status cl in
  let rollout := rollout_status (cs_replicas (cl_spec cl)) (gu_rollout update) (prior ≫= ct_run_source) (gu_apply_failure update) in
  let serving := rt_serving rollout in
  let next := next_status cl (rt_phase rollout) now in
  let conditions :=
    resolution_conditions prior (gu_resolution update) at_ ++
    [new_condition prior CONDITION_DEPLOYMENT_AVAILABLE (if rt_ready rollout then asc "True" else asc "False") (rt_reason rollout) (rt_message rollout) now] in
  {| ct_phase := ct_phase next; ct_observed_generation := ct_observed_generation next;
     ct_resolved_image := so_runtime_image <$> serving;
     ct_grpc_endpoint := if rt_failed rollout then None else Some (gu_endpoint update);
     ct_last_reconciled := ct_last_reconciled next;
     ct_ready_replicas := if rt_failed rollout then None else rl_ready_replicas (gu_rollout update);
     ct_message := or_else (resolution_error conditions) (or_else (gu_apply_failure update) (rt_pod_failure rollout));
     ct_conditions := conditions;
     ct_source := source_display <$> serving;
     ct_resolved_commit := (gc_commit ∘ so_git) <$> serving;
     ct_resolved_ref := serving ≫= λ t, gc_ref (so_git t);
     ct_last_fetched_at :=
       match gu_resolution update with
       | Some (ImageResolved _ _ (inr resolved)) => later_fetch prior <$> res_fetched_at resolved
       | _ => ct_last_fetched_at next
       end;
     ct_run_source := serving |}.

Definition image_status (cl : CodeLocation) (update : ImageStatusUpdate) (at_ : Z) : CodeLocationStatus :=
  let now := ts_text at_ in
  let prior := cl_status cl in
  let prior_serving := s ← prior; if is_git_status s then None else ct_resolved_image s in
  let rollout := rollout_status (cs_replicas (cl_spec cl)) (iu_rollout update) prior_serving None in
  {| ct_phase := Some (rt_phase rollout); ct_observed_generation := cl_generation cl; ct_resolved_image := rt_serving rollout;
     ct_grpc_endpoint := Some (iu_endpoint update); ct_last_reconciled := Some now; ct_ready_replicas := rl_ready_replicas (iu_rollout update);
     ct_message := rt_pod_failure rollout;
     ct_conditions :=
       match iu_leader update with
       | Some pass => [new_condition prior CONDITION_IMAGE_RESOLVED (asc "True") (ip_image_reason pass) (Some (ip_image pass)) now]
       | None => kept_conditions prior [CONDITION_IMAGE_RESOLVED]
       end ++
       [new_condition prior CONDITION_DEPLOYMENT_AVAILABLE (if rt_ready rollout then asc "True" else asc "False") (rt_reason rollout) (rt_message rollout) now] ++
       match iu_leader update with
       | Some {| ip_workspace_kept := Some (reason, message) |} => [new_condition prior CONDITION_WORKSPACE_KEPT (asc "True") reason (Some message) now]
       | Some _ => []
       | None => kept_conditions prior [CONDITION_WORKSPACE_KEPT]
       end;
     ct_source := rt_serving rollout; ct_resolved_commit := None; ct_resolved_ref := None; ct_last_fetched_at := None; ct_run_source := None |}.

Definition unresolved_status (cl : CodeLocation) (why : Unresolved) (at_ : Z) : CodeLocationStatus :=
  let '(phase, message, (kind, status, reason, condition_message)) :=
    match why with
    | UAwaitingLeader =>
        (Pending, asc "awaiting leader replica",
         (CONDITION_IMAGE_RESOLVED, asc "Unknown", asc "AwaitingLeader", asc "follower replica — leader will resolve digest"))
    | UImage err =>
        (Failed, image_error_message err, (CONDITION_IMAGE_RESOLVED, asc "False", image_error_reason err, image_error_message err))
    | USource failure =>
        let '(reason, message) := source_failure failure at_ in
        (Failed, message, (CONDITION_SOURCE_RESOLVED, asc "False", reason, message))
    end in
  let now := ts_text at_ in
  let prior := cl_status cl in
  with_conditions
    (new_condition prior kind status reason (Some condition_message) now ::
     (if bool_decide (is_Some (cs_git (cl_spec cl))) then [] else kept_conditions prior [CONDITION_WORKSPACE_KEPT]))
    (Some message) (next_status cl phase now).

(** ** A pass (mod.rs, image.rs, workspace.rs) *)
Inductive ImageOutcome :=
| IResolved (resolved_image reason : Bytes) (refresh_after : Z) (immutable : bool)
| IAwaitingLeader
| IError (e : ImageError).

(** What a pass reads: whether it leads, asked at the start and before the registry is; the
    registry client's answer for the wanted image; the git resolver's with the Secret's credentials; the API server's for the objects applied and
    for those an earlier git source left; the runs, none until their store has synced; the
    Deployment read afterwards and its pods, each none on an error; the seed of the jitter and
    the clock. *)
Record PassInput := {
  pi_leader : bool;
  pi_still_leader : bool;
  pi_registry : RegistryError + Resolution;
  pi_refresh_interval : option Bytes;
  pi_source : GitFailure + ResolvedRef;
  pi_apply : ApplyAnswers;
  pi_left : LeftAnswers;
  pi_runs : option (list RunObject);
  pi_deployment : option Deployment;
  pi_pods : option (list Pod);
  pi_endpoint : Bytes;
  pi_seed : Z;
  pi_now : Z
}.

Inductive Action := Requeue (after : Z) | AwaitChange | Error.

(** The status a pass publishes, the pod template it asks the API server for, the keep-set it
    publishes, whether it asks for the claim's deletion, and when it is to run again. *)
Record PassResult := {
  ps_status : option CodeLocationStatus; ps_template : option PodTemplate; ps_keep : option (gset Bytes); ps_delete : bool; ps_action : Action
}.

Section pass.
(** The operator's settings, and the metadata of the code location. *)
Context (runtime_image : ImageRef) (shared_enabled : bool) (looks_immutable : Bytes → bool) (key_of : RunSource → Bytes).
Context (namespace name : Bytes) (uid : option Bytes).

Definition resolve_image (cl : CodeLocation) (i : PassInput) : ImageOutcome :=
  if bool_decide (cs_image (cl_spec cl) = None) && bool_decide (cs_git (cl_spec cl) = None)
  then IError (Transient (asc "spec.image is unset on an image-mode CodeLocation"))
  else
    let image := wanted_image (cl_spec cl) runtime_image in
    match im_digest image with
    | Some digest => IResolved (im_repository image ++ asc "@" ++ digest) (asc "DigestPinned") (secs 3600) true
    | None =>
        if negb (pi_still_leader i) then IAwaitingLeader
        else
          match pi_registry i with
          | inr res =>
              IResolved (im_repository image ++ asc "@" ++ resolution_digest res) (asc "DigestResolved") (parse_refresh_interval (pi_refresh_interval i))
                match res with Immutable _ => true | _ => false end
          | inl e => IError (image_error_of e)
          end
    end.

(** The tree [apply_git_workspace] builds and serves. *)
Definition source_of (git : GitSource) (resolved : ResolvedRef) (resolved_image : Bytes) : RunSource :=
  {| so_git := {| gc_url := gs_url git; gc_commit := res_commit resolved; gc_ref := res_ref_name resolved; gc_path := gs_path git;
                  gc_secret_name := gs_secret_ref git |};
     so_dependencies := gs_dependencies git; so_runtime_image := resolved_image |}.

Definition git_requeue (seed : Z) (git_ref : GitRef) (poll image_refresh : Z) (image_immutable : bool) : Action :=
  let ref_poll :=
    match non_empty (gr_commit git_ref) with
    | Some _ => None
    | None => if match gr_tag git_ref with Some tag => looks_immutable tag | None => false end then Some (secs 3600) else Some poll
    end in
  match ref_poll, (if image_immutable then None else Some image_refresh) with
  | Some a, Some b => Requeue (jitter seed (Z.min a b))
  | Some a, None | None, Some a => Requeue (jitter seed a)
  | None, None => AwaitChange
  end.

(** [patch_git_status], with the rollout it observes. *)
Definition publish_git (cl : CodeLocation) (i : PassInput) (resolution : option GitResolution) (apply_failure : option Bytes) : CodeLocationStatus :=
  git_status cl {| gu_resolution := resolution; gu_rollout := observe_deployment (pi_deployment i) (pi_pods i);
                   gu_apply_failure := apply_failure; gu_endpoint := pi_endpoint i |} (pi_now i).

Definition publish_image (cl : CodeLocation) (i : PassInput) (leader : option ImagePass) : CodeLocationStatus :=
  image_status cl {| iu_leader := leader; iu_rollout := observe_deployment (pi_deployment i) (pi_pods i); iu_endpoint := pi_endpoint i |} (pi_now i).

Definition location_settled (i : PassInput) (s : CodeLocationStatus) : bool :=
  match pi_deployment i with Some d => rollout_complete d | None => false end && bool_decide (ct_phase s = Some Ready).

Definition publish (s : option CodeLocationStatus) (action : Action) : PassResult :=
  {| ps_status := s; ps_template := None; ps_keep := None; ps_delete := false; ps_action := action |}.

Definition has_condition (s : CodeLocationStatus) (P : CodeLocationCondition → bool) : bool := existsb P (ct_conditions s).

(** The follower's half of [reconcile_git]. *)
Definition follow_git (cl : CodeLocation) (i : PassInput) : PassResult :=
  let prior := cl_status cl in
  let leaders_alone :=
    match prior with
    | Some s => bool_decide (ct_phase s = Some Failed) ||
                has_condition s (λ c, bool_decide (cn_type c = CONDITION_DEPLOYMENT_AVAILABLE) && bool_decide (cn_reason c = Some (asc "ApplyFailed")))
    | None => false
    end in
  let published :=
    match prior with
    | Some s => bool_decide (is_Some (ct_run_source s)) || has_condition s (λ c, bool_decide (cn_type c = CONDITION_SOURCE_RESOLVED))
    | None => false
    end in
  if leaders_alone then publish None (Requeue FOLLOWER_WAIT)
  else if published then publish (Some (publish_git cl i None None)) (Requeue FOLLOWER_WAIT)
  else publish (Some (unresolved_status cl UAwaitingLeader (pi_now i))) (Requeue FOLLOWER_WAIT).

Definition reconcile_git (cl : CodeLocation) (git : GitSource) (i : PassInput) : PassResult :=
  if negb (pi_leader i) then follow_git cl i
  else
    let serving := match cl_status cl with Some s => bool_decide (is_Some (ct_run_source s)) | None => false end in
    match resolve_image cl i with
    | IAwaitingLeader => publish (Some (unresolved_status cl UAwaitingLeader (pi_now i))) (Requeue FOLLOWER_WAIT)
    | IError err =>
        publish (Some (if image_error_transient err && serving then publish_git cl i (Some (ImageFailed err)) None
                       else unresolved_status cl (UImage err) (pi_now i)))
          (Requeue (image_error_retry_after err))
    | IResolved resolved_image image_reason refresh_after immutable =>
        match pi_source i with
        | inl failure =>
            publish (Some (if is_transient (gf_error failure) && serving
                           then publish_git cl i (Some (ImageResolved resolved_image image_reason (inl failure))) None
                           else unresolved_status cl (USource failure) (pi_now i)))
              (Requeue (default (git_error_reason_retry (gf_error failure)).2 (gf_retry_after failure)))
        | inr resolved =>
            let source := source_of git resolved resolved_image in
            let '(applied, asked, keep) :=
              apply_git_workspace key_of shared_enabled namespace name (cl_status cl ≫= ct_run_source) source (pi_runs i) (pi_apply i) in
            let resolution := Some (ImageResolved resolved_image image_reason (inr resolved)) in
            let '(status, action) :=
              match applied with
              | ApplyError => (None, Error)
              | WaitingForPvc => (None, Requeue DEPLOYMENT_ROLLOUT_POLL)
              | Refused message retry => (Some (publish_git cl i resolution (Some message)), Requeue retry)
              | AppliedAll =>
                  let s := publish_git cl i resolution None in
                  (Some s, if location_settled i s then git_requeue (pi_seed i) (gs_ref git) (parse_refresh_interval (gs_poll_interval git)) refresh_after immutable
                           else Requeue DEPLOYMENT_ROLLOUT_POLL)
              end in
            {| ps_status := status; ps_template := if asked then Some {| pt_image := Some resolved_image; pt_source := Some source |} else None;
               ps_keep := keep; ps_delete := false; ps_action := action |}
        end
    end.

Definition follow_image (cl : CodeLocation) (i : PassInput) : PassResult :=
  let prior := cl_status cl in
  let resolved :=
    match prior with
    | Some s => has_condition s (λ c, bool_decide (cn_type c = CONDITION_IMAGE_RESOLVED) && bool_decide (cn_status c = asc "True"))
    | None => false
    end in
  if match prior with Some s => is_git_status s | None => false end then publish None (Requeue FOLLOWER_WAIT)
  else if resolved then publish (Some (publish_image cl i None)) (Requeue FOLLOWER_WAIT)
  else if match prior with Some s => bool_decide (ct_phase s = Some Failed) | None => false end then publish None (Requeue FOLLOWER_WAIT)
  else publish (Some (unresolved_status cl UAwaitingLeader (pi_now i))) (Requeue FOLLOWER_WAIT).

Definition reconcile_location (cl : CodeLocation) (i : PassInput) : PassResult :=
  match cs_git (cl_spec cl) with
  | Some git => reconcile_git cl git i
  | None =>
      if negb (pi_leader i) then follow_image cl i
      else
        match resolve_image cl i with
        | IAwaitingLeader => publish (Some (unresolved_status cl UAwaitingLeader (pi_now i))) (Requeue FOLLOWER_WAIT)
        | IError err => publish (Some (unresolved_status cl (UImage err) (pi_now i))) (Requeue (image_error_retry_after err))
        | IResolved resolved_image image_reason refresh_after immutable =>
            let template := Some {| pt_image := Some resolved_image; pt_source := None |} in
            let error delete := {| ps_status := None; ps_template := template; ps_keep := None; ps_delete := delete; ps_action := Error |} in
            match aa_deployment (pi_apply i), aa_service (pi_apply i) with
            | None, None =>
                match remove_git_workspace cl uid (pi_runs i) namespace name (pi_deployment i) (pi_left i) with
                | (Some kept, delete) =>
                    let s := publish_image cl i (Some {| ip_image := resolved_image; ip_image_reason := image_reason; ip_workspace_kept := kept |}) in
                    {| ps_status := Some s; ps_template := template; ps_keep := None; ps_delete := delete;
                       ps_action :=
                         if negb (location_settled i s) then Requeue DEPLOYMENT_ROLLOUT_POLL
                         else if bool_decide (is_Some kept) then Requeue WORKSPACE_RECHECK
                         else if immutable then AwaitChange else Requeue (jitter (pi_seed i) refresh_after) |}
                | (None, delete) => error delete
                end
            | _, _ => error false
            end
        end
  end.
End pass.
End statuses.
