(* ===== verification/LocationWorld.v ===== *)
(** * Runs get what the pods ran

    The life of a code location: passes of several replicas from versions however stale, edits,
    writes that are lost, and the Deployments the passes read. Whatever their order, a run is
    stamped only with an image and a tree that a pass saw rolled out to every pod. *)

From S2P Require Import Prelude GitRefs GitResolver Admission AdmissionTheorems WorkspaceKey Registry LocationStatus.

Section location.
Context (ts_text : Z → Bytes) (ts_parse : Bytes → option Z) (ts_later : Z → Z → option Z) (error_text : GitError → Bytes).
Context (runtime_image : ImageRef) (shared_enabled : bool) (looks_immutable : Bytes → bool) (key_of : RunSource → Bytes).
Context (namespace name : Bytes) (uid : option Bytes).

#[local] Abbreviation pass :=
  (reconcile_location ts_text ts_parse ts_later error_text runtime_image shared_enabled looks_immutable key_of namespace name uid).
#[local] Abbreviation git_status' := (git_status ts_text ts_parse ts_later error_text).
#[local] Abbreviation image_status' := (image_status ts_text).
#[local] Abbreviation unresolved_status' := (unresolved_status ts_text ts_later error_text).

(** ** The world of a code location *)

(** The versions of the resource there have been, the pod templates leaders asked for, and the
    Deployments passes have read. *)
Record World := { wo_seen : list CodeLocation; wo_applied : list PodTemplate; wo_read : list Deployment }.

Definition set_status (s : CodeLocationStatus) (cl : CodeLocation) : CodeLocation :=
  {| cl_generation := cl_generation cl; cl_deleting := cl_deleting cl; cl_spec := cl_spec cl; cl_status := Some s |}.

(** A pass works from any version, however stale; what it writes lands on any other, or is
    lost. A Deployment runs a template some leader asked for. *)
Inductive world_step (w : World) : World → Prop :=
| ws_edit cl new : cl ∈ wo_seen w → cl_status new = cl_status cl →
    world_step w {| wo_seen := wo_seen w ++ [new]; wo_applied := wo_applied w; wo_read := wo_read w |}
| ws_pass cl i onto : cl ∈ wo_seen w → onto ∈ wo_seen w →
    (∀ d t, pi_deployment i = Some d → dm_template d = Some t → t ∈ wo_applied w ++ option_list (ps_template (pass cl i))) →
    world_step w
      {| wo_seen := wo_seen w ++ ((λ s, set_status s onto) <$> option_list (ps_status (pass cl i) ≫= patch_location_status cl));
         wo_applied := wo_applied w ++ option_list (ps_template (pass cl i)); wo_read := wo_read w ++ option_list (pi_deployment i) |}
| ws_lost cl i : cl ∈ wo_seen w →
    world_step w {| wo_seen := wo_seen w; wo_applied := wo_applied w ++ option_list (ps_template (pass cl i)); wo_read := wo_read w |}.

Definition world_init (cl : CodeLocation) : World := {| wo_seen := [cl]; wo_applied := []; wo_read := [] |}.

(** A template a pass saw on every pod. *)
Definition rolled (w : World) (t : PodTemplate) : Prop := ∃ d, d ∈ wo_read w ∧ dm_template d = Some t ∧ rollout_complete d = true.

Definition status_ok (w : World) (s : CodeLocationStatus) : Prop :=
  (∀ src, ct_run_source s = Some src → ∃ t, rolled w t ∧ pt_source t = Some src) ∧
  (∀ image, ct_resolved_image s = Some image → ∃ t, rolled w t ∧ pt_image t = Some image).

(** A template with a tree is of a git spec the code location had, on the tree's image. *)
Definition template_ok (w : World) (t : PodTemplate) : Prop := ∀ src, pt_source t = Some src →
  pt_image t = Some (so_runtime_image src) ∧
  ∃ cl git resolved, cl ∈ wo_seen w ∧ cs_git (cl_spec cl) = Some git ∧ src = source_of git resolved (so_runtime_image src).

Record world_ok (w : World) : Prop := {
  wk_status cl s : cl ∈ wo_seen w → cl_status cl = Some s → status_ok w s;
  wk_template t : t ∈ wo_applied w → template_ok w t;
  wk_read d t : d ∈ wo_read w → dm_template d = Some t → t ∈ wo_applied w
}.

Definition grows (w w' : World) : Prop :=
  (∀ cl, cl ∈ wo_seen w → cl ∈ wo_seen w') ∧ (∀ t, t ∈ wo_applied w → t ∈ wo_applied w') ∧ (∀ d, d ∈ wo_read w → d ∈ wo_read w').

Lemma rolled_grows w w' t : grows w w' → rolled w t → rolled w' t.
Proof. intros (_ & _ & H) (d & Hd & ?). exists d. eauto. Qed.

Lemma status_ok_grows w w' s : grows w w' → status_ok w s → status_ok w' s.
Proof. intros Hg [H1 H2]. split; [intros src (t & ? & ?)%H1|intros image (t & ? & ?)%H2]; exists t; eauto using rolled_grows. Qed.

Lemma template_ok_grows w w' t : grows w w' → template_ok w t → template_ok w' t.
Proof. intros (Hs & _) H src E. destruct (H src E) as (? & cl & git & res & ? & ?). split; [done|]. exists cl, git, res. eauto. Qed.

(** ** What a pass publishes *)
Lemma observe_complete {T} `{Template T} dep pods r :
  observe_deployment (T := T) dep pods = r →
  ∀ x, rl_template r = Some x → rl_complete r = true → ∃ d t, dep = Some d ∧ dm_template d = Some t ∧ of_pod t = Some x ∧ rollout_complete d = true.
Proof.
  intros <- x. unfold observe_deployment, deployment_rollout. destruct dep as [d|]; [|done].
  destruct d as [g n [t|] [st|]] eqn:Ed; try done; cbn -[rollout_complete generation_observed].
  destruct (of_pod t) as [y|] eqn:E; [|done]. rewrite <- Ed. destruct (rollout_complete d) eqn:Ec; [|by destruct pods].
  destruct pods; cbn; intros [= ->] _; exists d, t; by subst d.
Qed.

Lemma rollout_status_serving {T} `{Template T} n (r : Rollout T) prior af : rt_serving (rollout_status n r prior af) = serving_template r prior.
Proof. unfold rollout_status. cbv zeta. by destruct (match af with Some _ => _ | None => _ end). Qed.

Lemma serving_spec {T} `{Template T} (r : Rollout T) prior x :
  serving_template r prior = Some x → (rl_template r = Some x ∧ rl_complete r = true) ∨ prior = Some x.
Proof. unfold serving_template. destruct (rl_template r); [|by right]. destruct (rl_complete r); [left|by right]. by simplify_eq. Qed.

(** The status a pass publishes is one of three kinds. *)
Inductive published_by (cl : CodeLocation) (i : PassInput) : CodeLocationStatus → Prop :=
| pb_git resolution failure : published_by cl i (publish_git ts_text ts_parse ts_later error_text cl i resolution failure)
| pb_image leader : published_by cl i (publish_image ts_text cl i leader)
| pb_unresolved why : published_by cl i (unresolved_status' cl why (pi_now i)).

Lemma pass_publishes cl i s : ps_status (pass cl i) = Some s → published_by cl i s.
Proof.
  unfold reconcile_location, reconcile_git, follow_git, follow_image, publish. cbv zeta.
  repeat case_match; cbn [ps_status]; intros; simplify_eq; first [apply pb_git|apply pb_image|apply pb_unresolved].
Qed.

Lemma pass_template cl i t : ps_template (pass cl i) = Some t → ∀ src, pt_source t = Some src →
  pt_image t = Some (so_runtime_image src) ∧ ∃ git resolved, cs_git (cl_spec cl) = Some git ∧ src = source_of git resolved (so_runtime_image src).
Proof.
  unfold reconcile_location, reconcile_git, follow_git, follow_image, publish. cbv zeta.
  repeat case_match; cbn [ps_template]; intros; simplify_eq/=; (split; [done|]); eauto.
Qed.

Lemma published_ok w cl i s :
  (∀ st, cl_status cl = Some st → status_ok w st) → (∀ d, pi_deployment i = Some d → d ∈ wo_read w) →
  (∀ t, rolled w t → template_ok w t) → published_by cl i s → status_ok w s.
Proof.
  intros Hst Hrd Htp H.
  assert (Hroll : ∀ d t, pi_deployment i = Some d → dm_template d = Some t → rollout_complete d = true → rolled w t).
  { intros d t E1 E2 E3. exists d. auto. }
  destruct H as [resolution failure|leader|why].
  - assert (Hsrc : ∀ src, ct_run_source (publish_git ts_text ts_parse ts_later error_text cl i resolution failure) = Some src →
      ∃ t, rolled w t ∧ pt_source t = Some src).
    { intros src. unfold publish_git, git_status. cbn [ct_run_source]. rewrite rollout_status_serving. cbn [gu_rollout].
      intros [[E1 E2]|E]%serving_spec.
      - destruct (observe_complete _ _ _ eq_refl src E1 E2) as (d & t & Ed & Et & Ep & Ec). exists t. eauto.
      - destruct (cl_status cl) as [st|]; [|done]. by apply (Hst st eq_refl). }
    split; [exact Hsrc|]. intros image. unfold publish_git, git_status. cbn [ct_resolved_image].
    intros (src & Es & ->)%fmap_Some. destruct (Hsrc src) as (t & Ht & Ep); [done|]. exists t. split; [done|]. by apply (Htp t Ht).
  - split; [done|]. intros image. unfold publish_image, image_status. cbn [ct_resolved_image]. rewrite rollout_status_serving. cbn [iu_rollout].
    intros [[E1 E2]|E]%serving_spec.
    + destruct (observe_complete _ _ _ eq_refl image E1 E2) as (d & t & Ed & Et & Ep & Ec). exists t. eauto.
    + destruct (cl_status cl) as [st|]; [|done]. cbn in E. destruct (is_git_status st); [done|]. by apply (Hst st eq_refl).
  - assert (Hn : ∀ phase at_, ct_run_source (next_status cl phase at_) = ct_run_source (default default_location_status (cl_status cl)) ∧
      ct_resolved_image (next_status cl phase at_) = ct_resolved_image (default default_location_status (cl_status cl))) by done.
    assert (Hd : status_ok w (default default_location_status (cl_status cl))) by (destruct (cl_status cl); [by apply Hst|split; done]).
    unfold unresolved_status. destruct (match why with UAwaitingLeader => _ | UImage _ => _ | USource _ => _ end) as [[phase message] [[[? ?] ?] ?]].
    split; [apply Hd|apply Hd].
Qed.

Lemma step_world_ok w w' : world_step w w' → world_ok w → world_ok w'.
Proof.
  intros Hs [H1 H2 H3]. destruct Hs as [cl new Hcl Hnew|cl i onto Hcl Hon Hdep|cl i Hcl].
  - set (w' := {| wo_seen := _ |}). assert (Hg : grows w w') by (split_and!; cbn; auto; intros; apply elem_of_app; auto).
    split; cbn; [|eauto using template_ok_grows|done].
    intros cl' s [Hin| ->%list_elem_of_singleton]%elem_of_app Es; eapply status_ok_grows; eauto. rewrite Hnew in Es. eauto.
  - set (w' := {| wo_seen := _ |}).
    assert (Hg : grows w w') by (split_and!; cbn; intros; apply elem_of_app; auto).
    assert (Happ : ∀ t, t ∈ wo_applied w' → template_ok w' t).
    { intros t [Ht|Ht]%elem_of_app; [by eapply template_ok_grows, H2|].
      destruct (ps_template (pass cl i)) as [t'|] eqn:Et; [|by apply elem_of_nil in Ht]. apply list_elem_of_singleton in Ht as ->.
      intros src Esrc. destruct (pass_template cl i t' Et src Esrc) as (? & git & res & ? & ?). split; [done|]. exists cl, git, res.
      split_and!; [by apply Hg|done|done]. }
    assert (Hread : ∀ d t, d ∈ wo_read w' → dm_template d = Some t → t ∈ wo_applied w').
    { intros d t [Hd|Hd]%elem_of_app Ht; [apply Hg; by eapply H3|].
      destruct (pi_deployment i) as [d'|] eqn:Ed; [|by apply elem_of_nil in Hd]. apply list_elem_of_singleton in Hd as ->. by eapply Hdep. }
    split; [|exact Happ|exact Hread].
    intros cl' s [Hin|Hin]%elem_of_app Es; [eapply status_ok_grows; eauto|].
    apply list_elem_of_fmap in Hin as (s' & -> & Hin). cbn in Es. injection Es as ->.
    destruct (ps_status (pass cl i)) as [s'|] eqn:Ep; [|by apply elem_of_nil in Hin]. cbn in Hin.
    assert (s' = s) as ->.
    { unfold patch_location_status in Hin. destruct (cl_status cl); [case_bool_decide; [by apply elem_of_nil in Hin|]|]; by apply list_elem_of_singleton in Hin. }
    apply (published_ok w' cl i s).
    + intros st Hst. eapply status_ok_grows; eauto.
    + intros d Ed. cbn. rewrite Ed. apply elem_of_app. right. by left.
    + intros t (d & Hd & Ht & _). eapply Happ, Hread; eauto.
    + by apply pass_publishes.
  - set (w' := {| wo_seen := _ |}).
    assert (Hg : grows w w') by (split_and!; cbn; auto; intros; apply elem_of_app; auto).
    split; cbn.
    + intros cl' s Hin Es. eapply status_ok_grows; eauto.
    + intros t [Ht|Ht]%elem_of_app; [by eapply template_ok_grows, H2|].
      destruct (ps_template (pass cl i)) as [t'|] eqn:Et; [|by apply elem_of_nil in Ht]. apply list_elem_of_singleton in Ht as ->.
      intros src Esrc. destruct (pass_template cl i t' Et src Esrc) as (? & git & res & ? & ?). split; [done|]. by exists cl, git, res.
    + intros d t Hd Ht. apply elem_of_app. left. by eapply H3.
Qed.

Lemma reachable_world_ok cl w : cl_status cl = None → rtc world_step (world_init cl) w → world_ok w.
Proof.
  intros Hcl H. assert (Hgo : ∀ w0, rtc world_step w0 w → world_ok w0 → world_ok w).
  { clear H. intros w0 H. induction H as [|x y z Hxy _ IH]; [done|]. intros Hx. by eapply IH, step_world_ok. }
  apply (Hgo (world_init cl)); [done|]. split; cbn.
  - intros cl' s ->%list_elem_of_singleton. congruence.
  - intros t Ht. by apply elem_of_nil in Ht.
  - intros d t Hd. by apply elem_of_nil in Hd.
Qed.

(** ** What runs get *)
Lemma mutated_by_stamp url_parse image_parse req deps image module identity source :
  mutate_run url_parse image_parse req deps = RunMutated image module identity source →
  ∃ run ns cl s, ar_object req = Some run ∧ ar_namespace req = Some ns ∧
    lookup_code_location_with_fallback deps ns (trim (lr_name (sp_code_location_ref run))) = inr (Some cl) ∧
    cl_status cl = Some s ∧ ct_run_source s = source ∧ match source with Some src => image = so_runtime_image src | None => ct_resolved_image s = Some image end.
Proof.
  unfold mutate_run, mutate_run_on_create. destruct (ar_operation req); [|by unfold check_run_update; repeat case_match|done..].
  destruct (ar_object req) as [run|]; [|done]. cbv zeta. case_bool_decide; [done|]. destruct (ar_namespace req) as [ns|]; [|done].
  destruct (negb (bool_decide (sp_image run = []))); [by repeat case_match|]. case_bool_decide; [done|].
  unfold stamp_from. destruct (lookup_code_location_with_fallback _ _ _) as [|[cl|]] eqn:El; [done| |done].
  destruct (cl_status cl) as [s|] eqn:Es; [|done]. destruct s as [[[]|] ? resolved ? ? ? ? ? ? ? ? ? src] eqn:E; try done.
  destruct (bool_decide (src = None) && _); [done|]. cbv zeta. case_bool_decide as Hi; [done|]. intros [= <- _ _ <-].
  exists run, ns, cl, s. subst s. split_and!; try done. destruct src; [done|]. by destruct resolved.
Qed.

(** C10: however passes of several replicas, edits and lost writes interleave, a run that the
    webhook stamps gets the image, and in git mode the tree, of a pod template that a leader
    asked for and a pass saw rolled out to every pod; the tree is of a git source the code
    location had, on that image. *)
Theorem runs_get_rolled_out_code cl0 w url_parse image_parse req deps image module identity source :
  cl_status cl0 = None → rtc world_step (world_init cl0) w →
  (∀ run ns cl, ar_object req = Some run → ar_namespace req = Some ns →
    lookup_code_location_with_fallback deps ns (trim (lr_name (sp_code_location_ref run))) = inr (Some cl) → cl ∈ wo_seen w) →
  mutate_run url_parse image_parse req deps = RunMutated image module identity source →
  ∃ t, rolled w t ∧ t ∈ wo_applied w ∧ pt_image t = Some image ∧
    ∀ src, source = Some src → pt_source t = Some src ∧
      ∃ cl git resolved, cl ∈ wo_seen w ∧ cs_git (cl_spec cl) = Some git ∧ src = source_of git resolved image.
Proof.
  intros H0 Hw Hseen (run & ns & cl & s & Hrun & Hns & Hl & Hs & Hsrc & Himg)%mutated_by_stamp.
  destruct (reachable_world_ok cl0 w H0 Hw) as [W1 W2 W3]. destruct (W1 cl s (Hseen _ _ _ Hrun Hns Hl) Hs) as [S1 S2].
  assert (Ha : ∀ t, rolled w t → t ∈ wo_applied w) by (intros t (d & ? & ? & _); eauto).
  destruct source as [src|].
  - destruct (S1 src Hsrc) as (t & Ht & Ep). destruct (W2 t (Ha t Ht) src Ep) as (Ei & Hex). exists t. subst image.
    split_and!; [done|by apply Ha|done|]. by intros src' [= <-].
  - destruct (S2 image Himg) as (t & Ht & Ei). exists t. split_and!; [done|by apply Ha|done|done].
Qed.
End location.

(** ** A code location that is rolled out *)
Module LocationExample.
Import AdmissionExample.

(** Times in unary, a minus sign first when negative. *)
Definition text (z : Z) : Bytes := if (z <? 0)%Z then "-"%char :: replicate (Z.to_nat (- z)) "0"%char else replicate (Z.to_nat z) "0"%char.
Definition read (s : Bytes) : option Z :=
  match s with c :: r => Some (if bool_decide (c = "-"%char) then - Z.of_nat (length r) else Z.of_nat (length s))%Z | [] => Some 0%Z end.

Lemma read_text z : read (text z) = Some z.
Proof.
  unfold text. destruct (z <? 0)%Z eqn:E; [|destruct (Z.to_nat z) as [|n] eqn:En].
  - unfold read. rewrite bool_decide_true by done. rewrite length_replicate. f_equal. lia.
  - cbn. f_equal. lia.
  - change (replicate (S n) "0"%char) with ("0"%char :: replicate n "0"%char). unfold read. rewrite bool_decide_false by done.
    cbn [length]. rewrite length_replicate. f_equal. lia.
Qed.

Definition later_time (now wait : Z) : option Z := Some (now + wait / secs 1)%Z.
Definition error (e : GitError) : Bytes := asc "git failed".
Definition runtime : ImageRef := {| im_repository := asc "ghcr.io/rivers/runtime"; im_tag := None; im_digest := None |}.
Definition key (s : RunSource) : Bytes := gc_commit (so_git s).

Definition pass := reconcile_location text read later_time error runtime true (λ _, false) key (asc "team") (asc "assets") (Some (asc "u1")).
Definition step := world_step text read later_time error runtime true (λ _, false) key (asc "team") (asc "assets") (Some (asc "u1")).

Definition pod_template : PodTemplate := {| pt_image := Some pinned; pt_source := Some tree |}.
Definition running (ready : Z) : Deployment :=
  {| dm_generation := Some 1%Z; dm_replicas := Some 1%Z; dm_template := Some pod_template;
     dm_status := Some {| ds_observed_generation := Some 1%Z; ds_replicas := Some 1%Z; ds_updated_replicas := Some 1%Z; ds_ready_replicas := Some ready;
                          ds_available_replicas := Some ready; ds_conditions := [] |} |}.

(** The run of [stored] under its code location's name, not yet started. *)
Definition queued : RunObject := {| ru_namespace := Some (asc "team"); ru_name := asc "r1"; ru_spec := launched; ru_terminal := false |}.

Definition input (now ready : Z) : PassInput :=
  {| pi_leader := true; pi_still_leader := true; pi_registry := inr (Resolved (asc "sha256:" ++ zeros 64)); pi_refresh_interval := None;
     pi_source := inr {| res_commit := zeros 40; res_ref_name := Some (asc "refs/heads/main"); res_fetched_at := Some now |};
     pi_apply := {| aa_pvc := inr true; aa_keep := None; aa_deployment := None; aa_service := None |};
     pi_left := {| la_objects := inr (None, None); la_delete_keep := None; la_delete_pvc := None |}; pi_runs := Some [queued];
     pi_deployment := Some (running ready); pi_pods := Some []; pi_endpoint := asc "assets-grpc.team.svc.cluster.local:3001"; pi_seed := 88172645463325252; pi_now := now |}.

Definition cl0 : CodeLocation := with_identity stamp fresh_cl.
Definition status_at (now ready : Z) (cl : CodeLocation) : CodeLocationStatus := default default_location_status (ps_status (pass cl (input now ready))).

(** The first pass finds the pods starting, the second finds them ready. *)
Definition starting : CodeLocation := set_status (status_at 3 0 cl0) cl0.
Definition rolled_out : CodeLocation := set_status (status_at 9 1 starting) starting.

Lemma first_pass : (ps_status (pass cl0 (input 3 0)) ≫= patch_location_status cl0) = Some (status_at 3 0 cl0) ∧ ps_template (pass cl0 (input 3 0)) = Some pod_template.
Proof. split; vm_compute; reflexivity. Qed.

Lemma second_pass :
  (ps_status (pass starting (input 9 1)) ≫= patch_location_status starting) = Some (status_at 9 1 starting) ∧ ps_template (pass starting (input 9 1)) = Some pod_template.
Proof. split; vm_compute; reflexivity. Qed.

Definition w1 : World := {| wo_seen := [cl0; starting]; wo_applied := [pod_template]; wo_read := [running 0] |}.
Definition w2 : World := {| wo_seen := [cl0; starting; rolled_out]; wo_applied := [pod_template; pod_template]; wo_read := [running 0; running 1] |}.

Lemma pass_step w cl now ready s : cl ∈ wo_seen w → (ps_status (pass cl (input now ready)) ≫= patch_location_status cl) = Some s ∧
  ps_template (pass cl (input now ready)) = Some pod_template →
  step w {| wo_seen := wo_seen w ++ [set_status s cl]; wo_applied := wo_applied w ++ [pod_template]; wo_read := wo_read w ++ [running ready] |}.
Proof.
  intros Hin [Hs Ht]. pose proof (ws_pass text read later_time error runtime true (λ _, false) key (asc "team") (asc "assets") (Some (asc "u1"))
    w cl (input now ready) cl Hin Hin) as H. fold pass in H. rewrite Hs, Ht in H. apply H.
  intros d t [= <-] [= <-]. apply elem_of_app. right. apply list_elem_of_here.
Qed.

Lemma reached : rtc step (world_init cl0) w2.
Proof.
  eapply rtc_l; [apply (pass_step (world_init cl0) cl0 3 0 _ ltac:(apply list_elem_of_here) first_pass)|].
  eapply rtc_l; [apply (pass_step w1 starting 9 1 _ ltac:(right; left) second_pass)|]. apply rtc_refl.
Qed.

(** A user's run of it. *)
Definition deps : AdmissionDeps :=
  {| ad_directory := {[ (asc "team", asc "assets") := rolled_out ]}; ad_code_locations := None; ad_runtime_image := runtime; ad_git := config |}.

Lemma run_stamped : mutate_run parse image (create asked) deps = RunMutated pinned (asc "analytics") stamp (Some tree).
Proof. vm_compute. reflexivity. Qed.

Lemma looked_up : lookup_code_location_with_fallback deps (asc "team") (trim (asc " assets")) = inr (Some rolled_out).
Proof. vm_compute. reflexivity. Qed.

(** The run gets the tree the second pass saw on the pod. *)
Lemma runs_get_rolled_out_code_witness :
  ∃ t, rolled w2 t ∧ t ∈ wo_applied w2 ∧ pt_image t = Some pinned ∧
    ∀ src, Some tree = Some src → pt_source t = Some src ∧
      ∃ cl git resolved, cl ∈ wo_seen w2 ∧ cs_git (cl_spec cl) = Some git ∧ src = source_of git resolved pinned.
Proof.
  apply (runs_get_rolled_out_code text read later_time error runtime true (λ _, false) key (asc "team") (asc "assets") (Some (asc "u1"))
    cl0 w2 parse image (create asked) deps pinned (asc "analytics") stamp (Some tree) eq_refl reached); [|exact run_stamped].
  intros run ns cl [= <-] [= <-] H. pose proof (eq_trans (eq_sym looked_up) H) as [= <-]. right. right. left.
Defined.
End LocationExample.
