(* ===== verification/LocationTheorems.v ===== *)
(** * Passes that find nothing new, and trees in use

    A pass that gets the answers the one before it got writes nothing, whichever replica makes
    it; and no pass lets go of a tree that a pod mounts. *)

From S2P Require Import Prelude GitRefs GitResolver Admission AdmissionTheorems WorkspaceKey Registry LocationStatus LocationWorld.

Section location.
Context (ts_text : Z → Bytes) (ts_parse : Bytes → option Z) (ts_later : Z → Z → option Z) (error_text : GitError → Bytes).
Context (runtime_image : ImageRef) (shared_enabled : bool) (looks_immutable : Bytes → bool) (key_of : RunSource → Bytes).
Context (namespace name : Bytes) (uid : option Bytes).

#[local] Abbreviation pass :=
  (reconcile_location ts_text ts_parse ts_later error_text runtime_image shared_enabled looks_immutable key_of namespace name uid).
#[local] Abbreviation git_status' := (git_status ts_text ts_parse ts_later error_text).
#[local] Abbreviation image_status' := (image_status ts_text).
#[local] Abbreviation unresolved_status' := (unresolved_status ts_text ts_later error_text).

(** ** A pass that finds nothing new *)

(** Conditions by their kinds. *)
Definition of_kinds (kinds : list Bytes) (cs : list CodeLocationCondition) : Prop := Forall (λ c, cn_type c ∈ kinds) cs.

Lemma of_kinds_kept prior kinds : of_kinds kinds (kept_conditions prior kinds).
Proof. destruct prior as [s|]; [|constructor]. apply Forall_forall. intros c [H _]%list_elem_of_filter. done. Qed.

Lemma filter_kinds kinds cs : of_kinds kinds cs → filter (λ c, cn_type c ∈ kinds) cs = cs.
Proof. intros H. apply filter_id. by apply Forall_forall. Qed.

Lemma filter_nothing (P : CodeLocationCondition → Prop) `{∀ c, Decision (P c)} cs : Forall (λ c, ¬ P c) cs → filter P cs = [].
Proof. induction 1 as [|c cs Hc _ IH]; [done|]. by rewrite filter_cons_False. Qed.

(** A condition found as it was pushed is pushed again unchanged. *)
Lemma new_condition_again prior s kind status reason message now now' :
  find_condition (Some s) kind = Some (new_condition prior kind status reason message now) →
  new_condition (Some s) kind status reason message now' = new_condition prior kind status reason message now.
Proof. intros E. unfold new_condition at 1. rewrite E. cbn [cn_status cn_last_transition_time new_condition]. by rewrite bool_decide_true. Qed.

Lemma find_condition_app s a b kind : ct_conditions s = a ++ b →
  find_condition (Some s) kind = head (filter (λ c, cn_type c = kind) a ++ filter (λ c, cn_type c = kind) b).
Proof. intros E. unfold find_condition. by rewrite E, filter_app. Qed.

Lemma find_pushed s a prior kind status reason message now b :
  ct_conditions s = a ++ new_condition prior kind status reason message now :: b → Forall (λ c, cn_type c ≠ kind) a →
  find_condition (Some s) kind = Some (new_condition prior kind status reason message now).
Proof.
  intros E H. rewrite (find_condition_app s _ _ kind E). rewrite filter_nothing by done. cbn [app]. by rewrite filter_cons_True.
Qed.

Lemma kept_middle s a b c kinds :
  ct_conditions s = a ++ b ++ c → of_kinds kinds b → Forall (λ c, cn_type c ∉ kinds) a → Forall (λ c, cn_type c ∉ kinds) c →
  kept_conditions (Some s) kinds = b.
Proof.
  intros E Hb Ha Hc. unfold kept_conditions. rewrite E, !filter_app, (filter_kinds kinds b Hb). rewrite !filter_nothing by done. by rewrite app_nil_r.
Qed.

Lemma of_kinds_ne kinds cs kind : of_kinds kinds cs → kind ∉ kinds → Forall (λ c, cn_type c ≠ kind) cs.
Proof. intros H Hk. eapply Forall_impl; [exact H|]. intros c Hc E. cbn in Hc, E. by subst kind. Qed.

Lemma of_kinds_disjoint kinds (kinds' : list Bytes) cs : of_kinds kinds cs → (∀ k, k ∈ kinds → k ∉ kinds') → Forall (λ c, cn_type c ∉ kinds') cs.
Proof. intros H Hk. eapply Forall_impl; [exact H|]. intros c Hc. by apply Hk. Qed.

Lemma serving_again {T} `{Template T} (r : Rollout T) p : serving_template r (serving_template r p) = serving_template r p.
Proof. unfold serving_template. destruct (rl_template r); [|done]. by destruct (rl_complete r). Qed.

Lemma rollout_again {T} `{Template T} n (r : Rollout T) p af : rollout_status n r (serving_template r p) af = rollout_status n r p af.
Proof. unfold rollout_status. by rewrite serving_again. Qed.

#[local] Abbreviation resolutions := (resolution_conditions ts_text ts_later error_text).

Lemma resolution_kinds prior r at_ : of_kinds [CONDITION_IMAGE_RESOLVED; CONDITION_SOURCE_RESOLVED] (resolutions prior r at_).
Proof.
  assert (H1 : CONDITION_IMAGE_RESOLVED ∈ [CONDITION_IMAGE_RESOLVED; CONDITION_SOURCE_RESOLVED]) by left.
  assert (H2 : CONDITION_SOURCE_RESOLVED ∈ [CONDITION_IMAGE_RESOLVED; CONDITION_SOURCE_RESOLVED]) by (right; left).
  unfold resolution_conditions. destruct r as [[image reason src|e]|]; [| |apply of_kinds_kept].
  - destruct (match src with inl _ => _ | inr _ => _ end) as [[? ?] ?]. by repeat constructor.
  - constructor; [done|]. eapply Forall_impl; [apply of_kinds_kept|]. intros c ->%list_elem_of_singleton. done.
Qed.

(** A resolution whose text does not name a time. *)
Definition steady (failure : GitFailure) : Prop := (∀ r, gf_error failure ≠ RateLimited r) ∨ gf_retry_after failure = None.

Lemma steady_failure f t1 t2 : steady f → source_failure ts_text ts_later error_text f t1 = source_failure ts_text ts_later error_text f t2.
Proof. intros H. unfold source_failure. destruct (git_error_reason_retry _). destruct f as [[] []]; try done. by destruct H as [H|[=]]; destruct (H retry_after). Qed.

Definition steady_resolution (r : option GitResolution) : Prop :=
  ∀ image reason f, r = Some (ImageResolved image reason (inl f)) → steady f.

Lemma kinds_facts :
  (CONDITION_DEPLOYMENT_AVAILABLE ∉ [CONDITION_IMAGE_RESOLVED; CONDITION_SOURCE_RESOLVED]) ∧
  (CONDITION_IMAGE_RESOLVED ≠ CONDITION_SOURCE_RESOLVED) ∧ (CONDITION_DEPLOYMENT_AVAILABLE ∉ [CONDITION_IMAGE_RESOLVED]) ∧
  (CONDITION_DEPLOYMENT_AVAILABLE ∉ [CONDITION_WORKSPACE_KEPT]) ∧ (CONDITION_WORKSPACE_KEPT ∉ [CONDITION_IMAGE_RESOLVED]) ∧
  (CONDITION_IMAGE_RESOLVED ∉ [CONDITION_WORKSPACE_KEPT]) ∧ (CONDITION_SOURCE_RESOLVED ∉ [CONDITION_WORKSPACE_KEPT]) ∧
  (CONDITION_DEPLOYMENT_AVAILABLE ∉ [CONDITION_SOURCE_RESOLVED]) ∧ (CONDITION_IMAGE_RESOLVED ∉ [CONDITION_SOURCE_RESOLVED]).
Proof. split_and!; apply (bool_decide_unpack _); vm_compute; exact I. Qed.

(** The conditions of a resolution are pushed again unchanged, or kept. *)
Lemma resolutions_again prior r t1 t2 dep s :
  ct_conditions s = resolutions prior r t1 ++ [dep] → cn_type dep = CONDITION_DEPLOYMENT_AVAILABLE → steady_resolution r →
  resolutions (Some s) r t2 = resolutions prior r t1 ∧ resolutions (Some s) None t2 = resolutions prior r t1.
Proof.
  intros E Ed Hs. destruct kinds_facts as (K1 & K2 & _ & _ & _ & _ & _ & K8 & K9).
  assert (Hk : resolutions (Some s) None t2 = resolutions prior r t1).
  { unfold resolution_conditions at 1. apply (kept_middle s [] _ [dep]); [done|apply resolution_kinds|constructor|].
    apply Forall_singleton. by rewrite Ed. }
  split; [|done]. destruct r as [[image reason src|e]|]; [| |done].
  - unfold resolution_conditions in *. destruct src as [f|res].
    + specialize (Hs image reason f eq_refl). rewrite <- (steady_failure f t1 t2 Hs). destruct (source_failure _ _ _ f t1) as [rs msg].
      f_equal; [|f_equal]; [eapply new_condition_again, (find_pushed s []); [exact E|constructor]|].
      eapply new_condition_again, (find_pushed s [_]); [exact E|by repeat constructor].
    + f_equal; [|f_equal]; [eapply new_condition_again, (find_pushed s []); [exact E|constructor]|].
      eapply new_condition_again, (find_pushed s [_]); [exact E|by repeat constructor].
  - unfold resolution_conditions in *. f_equal; [eapply new_condition_again, (find_pushed s []); [exact E|constructor]|].
    apply (kept_middle s [new_condition prior CONDITION_IMAGE_RESOLVED (asc "False") (image_error_reason e) (Some (image_error_message e)) (ts_text t1)] _ [dep]);
      [exact E|apply of_kinds_kept|by repeat constructor|]. apply Forall_singleton. by rewrite Ed.
Qed.

Lemma later_fetch_again prior s at_ :
  (∀ z, ts_parse (ts_text z) = Some z) → ct_last_fetched_at s = Some (later_fetch ts_text ts_parse prior at_) →
  later_fetch ts_text ts_parse (Some s) at_ = later_fetch ts_text ts_parse prior at_.
Proof.
  intros Hrt E. unfold later_fetch at 1. cbn [mbind option_bind]. rewrite E. unfold later_fetch.
  destruct (prior ≫= ct_last_fetched_at) as [known|]; [|by rewrite Hrt, Z.leb_refl].
  destruct (ts_parse known) as [k|] eqn:Ek; [|by rewrite Hrt, Z.leb_refl].
  destruct (at_ <=? k)%Z eqn:El; [by rewrite Ek, El|by rewrite Hrt, Z.leb_refl].
Qed.

(** The next pass, by a leader that finds the same or by a follower. *)
Definition followed (u u' : GitStatusUpdate) : Prop :=
  gu_rollout u' = gu_rollout u ∧ gu_endpoint u' = gu_endpoint u ∧ gu_apply_failure u' = gu_apply_failure u ∧
  (gu_resolution u' = gu_resolution u ∨ gu_resolution u' = None).

Lemma git_status_again cl u u' t1 t2 :
  (∀ z, ts_parse (ts_text z) = Some z) → steady_resolution (gu_resolution u) → followed u u' →
  git_status' (set_status (git_status' cl u t1) cl) u' t2 = with_reconciled (Some (ts_text t2)) (git_status' cl u t1).
Proof.
  intros Hrt Hs (Hr & He & Ha & Hres). destruct kinds_facts as (K1 & _).
  set (s := git_status' cl u t1).
  set (ro := rollout_status (cs_replicas (cl_spec cl)) (gu_rollout u) (cl_status cl ≫= ct_run_source) (gu_apply_failure u)).
  set (dep := new_condition (cl_status cl) CONDITION_DEPLOYMENT_AVAILABLE (if rt_ready ro then asc "True" else asc "False") (rt_reason ro) (rt_message ro) (ts_text t1)).
  assert (Ec : ct_conditions s = resolutions (cl_status cl) (gu_resolution u) t1 ++ [dep]) by done.
  assert (Ero : rollout_status (cs_replicas (cl_spec cl)) (gu_rollout u) (ct_run_source s) (gu_apply_failure u) = ro).
  { unfold ro. rewrite <- (rollout_again _ _ (cl_status cl ≫= ct_run_source)). f_equal. unfold s, git_status. cbn [ct_run_source]. apply rollout_status_serving. }
  destruct (resolutions_again (cl_status cl) (gu_resolution u) t1 t2 dep s Ec eq_refl Hs) as [R1 R2].
  assert (Eres : resolutions (Some s) (gu_resolution u') t2 = resolutions (cl_status cl) (gu_resolution u) t1) by (destruct Hres as [->| ->]; done).
  assert (Edep : new_condition (Some s) CONDITION_DEPLOYMENT_AVAILABLE (if rt_ready ro then asc "True" else asc "False") (rt_reason ro) (rt_message ro) (ts_text t2) = dep).
  { unfold dep. eapply new_condition_again, find_pushed; [exact Ec|]. eapply of_kinds_ne; [apply resolution_kinds|done]. }
  unfold git_status at 1. cbv zeta. cbn [cl_status set_status cl_spec cl_generation mbind option_bind next_status default ct_phase ct_observed_generation ct_last_reconciled ct_last_fetched_at].
  rewrite Hr, He, Ha, Ero, Eres, Edep. unfold with_reconciled. f_equal.
  destruct Hres as [->| ->]; [|done]. destruct (gu_resolution u) as [[image reason [f|res]|e]|] eqn:Eu; try done.
  unfold s at 2, git_status. cbn [ct_last_fetched_at]. rewrite Eu. destruct (res_fetched_at res) as [at_|] eqn:Ef; [|done]. cbn. f_equal.
  apply later_fetch_again; [done|]. unfold s, git_status. cbn [ct_last_fetched_at]. by rewrite Eu, Ef.
Qed.

(** In image mode. *)
Definition image_part (prior : option CodeLocationStatus) (leader : option ImagePass) (now : Bytes) : list CodeLocationCondition :=
  match leader with
  | Some p => [new_condition prior CONDITION_IMAGE_RESOLVED (asc "True") (ip_image_reason p) (Some (ip_image p)) now]
  | None => kept_conditions prior [CONDITION_IMAGE_RESOLVED]
  end.

Definition kept_part (prior : option CodeLocationStatus) (leader : option ImagePass) (now : Bytes) : list CodeLocationCondition :=
  match leader with
  | Some {| ip_workspace_kept := Some (reason, message) |} => [new_condition prior CONDITION_WORKSPACE_KEPT (asc "True") reason (Some message) now]
  | Some _ => []
  | None => kept_conditions prior [CONDITION_WORKSPACE_KEPT]
  end.

Lemma image_part_kinds prior leader now : of_kinds [CONDITION_IMAGE_RESOLVED] (image_part prior leader now).
Proof. destruct leader; [|apply of_kinds_kept]. constructor; [|constructor]. apply list_elem_of_here. Qed.

Lemma kept_part_kinds prior leader now : of_kinds [CONDITION_WORKSPACE_KEPT] (kept_part prior leader now).
Proof.
  destruct leader as [[? ? [[]|]]|]; [| |apply of_kinds_kept]; [|constructor]. constructor; [|constructor]. apply list_elem_of_here.
Qed.

Lemma image_parts_again prior s leader leader' now now' dep :
  ct_conditions s = image_part prior leader now ++ [dep] ++ kept_part prior leader now → cn_type dep = CONDITION_DEPLOYMENT_AVAILABLE →
  leader' = leader ∨ leader' = None →
  image_part (Some s) leader' now' = image_part prior leader now ∧ kept_part (Some s) leader' now' = kept_part prior leader now.
Proof.
  intros E Ed Hl. destruct kinds_facts as (_ & _ & K3 & K4 & K5 & K6 & _).
  assert (HI : Forall (λ c, cn_type c ∉ [CONDITION_WORKSPACE_KEPT]) (image_part prior leader now)).
  { eapply of_kinds_disjoint; [apply image_part_kinds|]. by intros k ->%list_elem_of_singleton. }
  assert (HK : Forall (λ c, cn_type c ∉ [CONDITION_IMAGE_RESOLVED]) (kept_part prior leader now)).
  { eapply of_kinds_disjoint; [apply kept_part_kinds|]. by intros k ->%list_elem_of_singleton. }
  assert (H1 : kept_conditions (Some s) [CONDITION_IMAGE_RESOLVED] = image_part prior leader now).
  { apply (kept_middle s [] _ _ _ E); [apply image_part_kinds|constructor|]. apply Forall_app. split; [apply Forall_singleton; by rewrite Ed|done]. }
  assert (H2 : kept_conditions (Some s) [CONDITION_WORKSPACE_KEPT] = kept_part prior leader now).
  { apply (kept_middle s (image_part prior leader now ++ [dep]) _ []); [by rewrite E, app_nil_r, (assoc_L (++))|apply kept_part_kinds| |constructor].
    apply Forall_app. split; [done|]. apply Forall_singleton. by rewrite Ed. }
  destruct Hl as [->| ->]; [|done]. destruct leader as [[image reason kept]|]; [|done]. split.
  - cbn [image_part ip_image_reason ip_image]. f_equal. eapply new_condition_again, (find_pushed s []); [exact E|constructor].
  - destruct kept as [[r m]|]; [|done]. cbn [kept_part]. f_equal.
    eapply new_condition_again, (find_pushed s (image_part prior (Some {| ip_image := image; ip_image_reason := reason; ip_workspace_kept := Some (r, m) |}) now ++ [dep]));
      [by rewrite E, <- (assoc_L (++))|].
    apply Forall_app. split; [|apply Forall_singleton; rewrite Ed; intros Ek; apply K4; rewrite Ek; apply list_elem_of_here].
    eapply of_kinds_ne; [apply image_part_kinds|done].
Qed.

Lemma is_git_status_false s :
  ct_run_source s = None → ct_resolved_commit s = None → ct_resolved_ref s = None → ct_last_fetched_at s = None →
  Forall (λ c, cn_type c ≠ CONDITION_SOURCE_RESOLVED) (ct_conditions s) → is_git_status s = false.
Proof.
  intros H1 H2 H3 H4 Hc. unfold is_git_status. rewrite H1, H2, H3, H4. cbn. induction Hc as [|c cs Hc _ IH]; [done|]. cbn.
  by rewrite bool_decide_false.
Qed.

Lemma image_status_conditions cl u t : ∃ dep, cn_type dep = CONDITION_DEPLOYMENT_AVAILABLE ∧
  ct_conditions (image_status' cl u t) = image_part (cl_status cl) (iu_leader u) (ts_text t) ++ [dep] ++ kept_part (cl_status cl) (iu_leader u) (ts_text t).
Proof. eexists. split; [|reflexivity]. reflexivity. Qed.

Lemma image_status_not_git cl u t : is_git_status (image_status' cl u t) = false.
Proof.
  destruct kinds_facts as (_ & K2 & _ & _ & _ & _ & K7 & K8 & _). apply is_git_status_false; [done..|].
  destruct (image_status_conditions cl u t) as (dep & Ed & ->). apply Forall_app. split; [|apply Forall_app; split].
  - eapply of_kinds_ne; [apply image_part_kinds|]. intros Hin%list_elem_of_singleton. by apply K2.
  - apply Forall_singleton. rewrite Ed. intros Ek. apply K8. rewrite Ek. apply list_elem_of_here.
  - eapply of_kinds_ne; [apply kept_part_kinds|done].
Qed.

Lemma image_status_again cl u u' t1 t2 :
  iu_rollout u' = iu_rollout u → iu_endpoint u' = iu_endpoint u → iu_leader u' = iu_leader u ∨ iu_leader u' = None →
  image_status' (set_status (image_status' cl u t1) cl) u' t2 = with_reconciled (Some (ts_text t2)) (image_status' cl u t1).
Proof.
  intros Hr He Hl. pose proof (image_status_not_git cl u t1) as Hg. destruct kinds_facts as (_ & _ & K3 & _).
  set (s := image_status' cl u t1) in *.
  set (p := s ← cl_status cl; if is_git_status s then None else ct_resolved_image s).
  set (ro := rollout_status (cs_replicas (cl_spec cl)) (iu_rollout u) p None).
  set (dep := new_condition (cl_status cl) CONDITION_DEPLOYMENT_AVAILABLE (if rt_ready ro then asc "True" else asc "False") (rt_reason ro) (rt_message ro) (ts_text t1)).
  assert (Ec : ct_conditions s = image_part (cl_status cl) (iu_leader u) (ts_text t1) ++ [dep] ++ kept_part (cl_status cl) (iu_leader u) (ts_text t1)) by done.
  assert (Ero : rollout_status (cs_replicas (cl_spec cl)) (iu_rollout u) (ct_resolved_image s) None = ro).
  { unfold ro. rewrite <- (rollout_again _ _ p). f_equal. unfold s, image_status. cbn [ct_resolved_image]. apply rollout_status_serving. }
  destruct (image_parts_again (cl_status cl) s (iu_leader u) (iu_leader u') (ts_text t1) (ts_text t2) dep Ec eq_refl Hl) as [E1 E2].
  assert (Edep : new_condition (Some s) CONDITION_DEPLOYMENT_AVAILABLE (if rt_ready ro then asc "True" else asc "False") (rt_reason ro) (rt_message ro) (ts_text t2) = dep).
  { unfold dep. eapply new_condition_again, find_pushed; [exact Ec|]. eapply of_kinds_ne; [apply image_part_kinds|done]. }
  unfold image_status at 1. cbv zeta. cbn [cl_status set_status cl_spec cl_generation mbind option_bind]. fold s. rewrite Hg, Hr, He, Ero.
  fold (image_part (Some s) (iu_leader u') (ts_text t2)). fold (kept_part (Some s) (iu_leader u') (ts_text t2)).
  rewrite E1, E2, Edep. reflexivity.
Qed.

(** A pass that resolved nothing. *)
Definition unresolved_kind (why : Unresolved) : Bytes := match why with USource _ => CONDITION_SOURCE_RESOLVED | _ => CONDITION_IMAGE_RESOLVED end.

Definition steady_why (why : Unresolved) : Prop := ∀ f, why = USource f → steady f.

(** What [unresolved_status] says of its reason: phase, message, and the condition's status,
    reason and message. *)
Definition unresolved_text (why : Unresolved) (at_ : Z) : CodeLocationPhase * Bytes * (Bytes * Bytes * Bytes) :=
  match why with
  | UAwaitingLeader => (Pending, asc "awaiting leader replica", (asc "Unknown", asc "AwaitingLeader", asc "follower replica — leader will resolve digest"))
  | UImage err => (Failed, image_error_message err, (asc "False", image_error_reason err, image_error_message err))
  | USource failure => let '(reason, message) := source_failure ts_text ts_later error_text failure at_ in (Failed, message, (asc "False", reason, message))
  end.

Lemma unresolved_text_steady why t1 t2 : steady_why why → unresolved_text why t1 = unresolved_text why t2.
Proof. destruct why as [| |f]; [done..|]. intros H. unfold unresolved_text. by rewrite (steady_failure f t1 t2 (H f eq_refl)). Qed.

Lemma unresolved_status_eq cl why at_ :
  unresolved_status' cl why at_ =
  let '(phase, message, (status, reason, text)) := unresolved_text why at_ in
  with_conditions
    (new_condition (cl_status cl) (unresolved_kind why) status reason (Some text) (ts_text at_) ::
     (if bool_decide (is_Some (cs_git (cl_spec cl))) then [] else kept_conditions (cl_status cl) [CONDITION_WORKSPACE_KEPT]))
    (Some message) (next_status cl phase (ts_text at_)).
Proof. unfold unresolved_status, unresolved_text, unresolved_kind. destruct why as [| |f]; [done..|]. by destruct (source_failure _ _ _ f at_). Qed.

Lemma unresolved_again cl why t1 t2 : steady_why why →
  unresolved_status' (set_status (unresolved_status' cl why t1) cl) why t2 = with_reconciled (Some (ts_text t2)) (unresolved_status' cl why t1).
Proof.
  intros Hs. destruct kinds_facts as (_ & _ & _ & _ & _ & K6 & K7 & _).
  rewrite (unresolved_status_eq (set_status _ _)), (unresolved_status_eq cl). rewrite (unresolved_text_steady why t2 t1 Hs).
  destruct (unresolved_text why t1) as [[phase message] [[status reason] text]].
  set (s := with_conditions (new_condition (cl_status cl) (unresolved_kind why) _ _ _ _ :: _) _ (next_status cl _ _)). cbn [cl_status set_status cl_spec].
  assert (Hc : new_condition (Some s) (unresolved_kind why) status reason (Some text) (ts_text t2) =
    new_condition (cl_status cl) (unresolved_kind why) status reason (Some text) (ts_text t1)).
  { eapply new_condition_again, (find_pushed s []); [reflexivity|constructor]. }
  rewrite Hc. unfold with_reconciled, with_conditions. cbn [ct_phase ct_observed_generation ct_resolved_image ct_grpc_endpoint
    ct_last_reconciled ct_ready_replicas ct_message ct_conditions ct_source ct_resolved_commit ct_resolved_ref ct_last_fetched_at ct_run_source].
  f_equal. case_bool_decide as Hg; [done|]. unfold s at 2. cbn [ct_conditions with_conditions]. f_equal.
  apply (kept_middle s [new_condition (cl_status cl) (unresolved_kind why) status reason (Some text) (ts_text t1)] _ []); [|apply of_kinds_kept| |constructor].
  - by rewrite app_nil_r.
  - apply Forall_singleton. cbn [cn_type new_condition]. by destruct why.
Qed.

(** ** The next pass *)

(** It gets the same answers at another time, by the same replica or by a follower. *)
Definition again (leader : bool) (seed now : Z) (i : PassInput) : PassInput :=
  {| pi_leader := leader && pi_leader i; pi_still_leader := leader && pi_still_leader i; pi_registry := pi_registry i;
     pi_refresh_interval := pi_refresh_interval i; pi_source := pi_source i; pi_apply := pi_apply i; pi_left := pi_left i; pi_runs := pi_runs i;
     pi_deployment := pi_deployment i; pi_pods := pi_pods i; pi_endpoint := pi_endpoint i; pi_seed := seed; pi_now := now |}.

(** Nothing is published, or only a later [lastReconciled]. *)
Definition quiet (s : CodeLocationStatus) (now : Z) (o : option CodeLocationStatus) : Prop :=
  o = None ∨ o = Some (with_reconciled (Some (ts_text now)) s).

Lemma quiet_writes_nothing cl s now o : quiet s now o → (o ≫= patch_location_status (set_status s cl)) = None.
Proof. intros [->| ->]; [done|]. cbn [mbind option_bind patch_location_status cl_status set_status]. by rewrite bool_decide_true. Qed.

#[local] Abbreviation publish_git' := (publish_git ts_text ts_parse ts_later error_text).
#[local] Abbreviation follow_git' := (follow_git ts_text ts_parse ts_later error_text).

Section roundtrip.
Context (Hrt : ∀ z, ts_parse (ts_text z) = Some z).

Lemma publish_git_again cl i l seed now r r' f : steady_resolution r → r' = r ∨ r' = None →
  publish_git' (set_status (publish_git' cl i r f) cl) (again l seed now i) r' f = with_reconciled (Some (ts_text now)) (publish_git' cl i r f).
Proof. intros Hs Hr. unfold publish_git at 1. by apply git_status_again. Qed.

Lemma publish_image_again cl i l seed now p p' : p' = p ∨ p' = None →
  publish_image ts_text (set_status (publish_image ts_text cl i p) cl) (again l seed now i) p' =
  with_reconciled (Some (ts_text now)) (publish_image ts_text cl i p).
Proof. intros Hp. unfold publish_image at 1. by apply image_status_again. Qed.

Lemma rollout_unrefused {T} `{Template T} n (r : Rollout T) p :
  rt_phase (rollout_status n r p None) ≠ Failed ∧ rt_reason (rollout_status n r p None) ≠ asc "ApplyFailed".
Proof.
  unfold rollout_status. cbv zeta. rewrite (bool_decide_false (is_Some (@None Bytes))) by (by intros [? [=]]). cbn [andb]. split.
  - repeat case_match; cbn [rt_phase]; congruence.
  - repeat case_match; cbn [rt_reason]; simplify_eq; intros E; vm_compute in E; discriminate.
Qed.

Lemma rollout_refused {T} `{Template T} n (r : Rollout T) p m : rt_reason (rollout_status n r p (Some m)) = asc "ApplyFailed".
Proof. done. Qed.

Lemma git_conditions cl i r f : ∃ dep ro, ro = rollout_status (cs_replicas (cl_spec cl)) (observe_deployment (pi_deployment i) (pi_pods i)) (cl_status cl ≫= ct_run_source) f ∧
  ct_conditions (publish_git' cl i r f) = resolutions (cl_status cl) r (pi_now i) ++ [dep] ∧ ct_phase (publish_git' cl i r f) = Some (rt_phase ro) ∧
  cn_type dep = CONDITION_DEPLOYMENT_AVAILABLE ∧ cn_reason dep = Some (rt_reason ro).
Proof. eexists _, _. split; [reflexivity|]. split; [reflexivity|]. done. Qed.

Definition refusal (c : CodeLocationCondition) : bool :=
  bool_decide (cn_type c = CONDITION_DEPLOYMENT_AVAILABLE) && bool_decide (cn_reason c = Some (asc "ApplyFailed")).

Lemma resolutions_no_refusal prior r t : existsb refusal (resolutions prior r t) = false.
Proof.
  destruct kinds_facts as (K1 & _). pose proof (of_kinds_ne _ _ _ (resolution_kinds prior r t) K1) as H.
  induction H as [|c cs Hc _ IH]; [done|]. cbn. unfold refusal at 1. by rewrite bool_decide_false.
Qed.

Lemma serving_stays cl i r f : is_Some (cl_status cl ≫= ct_run_source) → is_Some (ct_run_source (publish_git' cl i r f)).
Proof.
  intros H. unfold publish_git, git_status. cbn [ct_run_source]. rewrite rollout_status_serving. unfold serving_template.
  destruct (rl_template _); [|done]. by destruct (rl_complete _).
Qed.

(** A follower publishes what the leader published, or leaves it. *)
Lemma follow_failed cl i s : ct_phase s = Some Failed → ps_status (follow_git' (set_status s cl) i) = None.
Proof. intros H. unfold follow_git. cbn [cl_status set_status]. by rewrite bool_decide_true. Qed.

Lemma follow_refused cl i i' r m : ps_status (follow_git' (set_status (publish_git' cl i r (Some m)) cl) i') = None.
Proof.
  destruct (git_conditions cl i r (Some m)) as (dep & ro & -> & Ec & _ & Ed & Er). unfold follow_git. cbn [cl_status set_status].
  unfold has_condition. fold refusal. rewrite Ec, existsb_app. cbn [existsb]. unfold refusal at 2. rewrite Ed, Er, rollout_refused.
  rewrite (bool_decide_true (CONDITION_DEPLOYMENT_AVAILABLE = _)), (bool_decide_true (Some (asc "ApplyFailed") = _)) by done. by rewrite !orb_true_r.
Qed.

Lemma follow_published cl i l seed now r : steady_resolution r →
  is_Some (cl_status cl ≫= ct_run_source) ∨ existsb (λ c, bool_decide (cn_type c = CONDITION_SOURCE_RESOLVED)) (resolutions (cl_status cl) r (pi_now i)) = true →
  quiet (publish_git' cl i r None) now (ps_status (follow_git' (set_status (publish_git' cl i r None) cl) (again l seed now i))).
Proof.
  intros Hs Hp. right. destruct (git_conditions cl i r None) as (dep & ro & -> & Ec & Eph & Ed & Er).
  destruct (rollout_unrefused (cs_replicas (cl_spec cl)) (observe_deployment (pi_deployment i) (pi_pods i)) (cl_status cl ≫= ct_run_source)) as [U1 U2].
  unfold follow_git. cbn [cl_status set_status]. unfold has_condition. fold refusal. rewrite Ec, !existsb_app, resolutions_no_refusal.
  cbn [existsb]. unfold refusal. rewrite Er, Eph. rewrite (bool_decide_false (Some _ = Some Failed)) by congruence.
  rewrite (bool_decide_false (Some _ = Some (asc "ApplyFailed"))) by congruence. rewrite andb_false_r. cbn [orb].
  assert (Hb : bool_decide (is_Some (ct_run_source (publish_git' cl i r None))) ||
    (existsb (λ c, bool_decide (cn_type c = CONDITION_SOURCE_RESOLVED)) (resolutions (cl_status cl) r (pi_now i)) ||
     (bool_decide (cn_type dep = CONDITION_SOURCE_RESOLVED) || false)) = true).
  { destruct Hp as [Hp|Hp]; [rewrite bool_decide_true by (by apply serving_stays); done|by rewrite Hp, orb_true_r]. }
  rewrite Hb. cbn [ps_status publish]. f_equal. apply publish_git_again; [done|by right].
Qed.

(** ** Git mode, by leader and follower *)
#[local] Abbreviation git_pass :=
  (reconcile_git ts_text ts_parse ts_later error_text runtime_image shared_enabled looks_immutable key_of namespace name).

(** What a leader's pass has to publish: what was not resolved, or a resolution with a refusal. *)
Definition outcome (serving : bool) (cl : CodeLocation) (git : GitSource) (i : PassInput) : option (Unresolved + option GitResolution * option Bytes) :=
  match resolve_image runtime_image cl i with
  | IAwaitingLeader => Some (inl UAwaitingLeader)
  | IError e => Some (if image_error_transient e && serving then inr (Some (ImageFailed e), None) else inl (UImage e))
  | IResolved image reason _ _ =>
      match pi_source i with
      | inl f => Some (if is_transient (gf_error f) && serving then inr (Some (ImageResolved image reason (inl f)), None) else inl (USource f))
      | inr res =>
          match (apply_git_workspace key_of shared_enabled namespace name None (source_of git res image) (pi_runs i) (pi_apply i)).1.1 with
          | ApplyError | WaitingForPvc => None
          | Refused m _ => Some (inr (Some (ImageResolved image reason (inr res)), Some m))
          | AppliedAll => Some (inr (Some (ImageResolved image reason (inr res)), None))
          end
      end
  end.

Definition outcome_status (cl : CodeLocation) (i : PassInput) (o : Unresolved + option GitResolution * option Bytes) : CodeLocationStatus :=
  match o with inl why => unresolved_status' cl why (pi_now i) | inr (r, f) => publish_git' cl i r f end.

Definition is_serving (cl : CodeLocation) : bool := match cl_status cl with Some s => bool_decide (is_Some (ct_run_source s)) | None => false end.

Lemma is_serving_spec cl : is_serving cl = true ↔ is_Some (cl_status cl ≫= ct_run_source).
Proof. unfold is_serving. destruct (cl_status cl) as [s|]; cbn; [by rewrite bool_decide_eq_true|]. split; [done|by intros [? [=]]]. Qed.

Lemma apply_any_serving serving source runs answers :
  (apply_git_workspace key_of shared_enabled namespace name serving source runs answers).1.1 =
  (apply_git_workspace key_of shared_enabled namespace name None source runs answers).1.1.
Proof. unfold apply_git_workspace. destruct shared_enabled; [|done]. destruct (aa_pvc answers) as [|[]]; [done| |done]. by destruct runs, (aa_keep answers). Qed.

Lemma leader_status cl git i : pi_leader i = true → ps_status (git_pass cl git i) = outcome_status cl i <$> outcome (is_serving cl) cl git i.
Proof.
  intros Hl. unfold reconcile_git, outcome. rewrite Hl. cbn [negb]. fold (is_serving cl).
  destruct (resolve_image runtime_image cl i) as [image reason refresh immutable| |e]; [|done|by destruct (_ && _)].
  destruct (pi_source i) as [f|res]; [by destruct (_ && _)|].
  rewrite <- (apply_any_serving (cl_status cl ≫= ct_run_source)).
  destruct (apply_git_workspace _ _ _ _ _ _ _ _) as [[[] asked] keep]; done.
Qed.

(** The outcome does not depend on what was published of it. *)
Lemma outcome_again cl git i o seed now s : outcome (is_serving cl) cl git i = Some o → s = outcome_status cl i o →
  outcome (is_serving (set_status s cl)) (set_status s cl) git (again true seed now i) = Some o.
Proof.
  intros E ->. set (s := outcome_status cl i o).
  assert (Hs : ∀ why, o = inl why → is_serving (set_status s cl) = is_serving cl).
  { intros why ->. unfold s. cbn [outcome_status]. rewrite unresolved_status_eq. destruct (unresolved_text _ _) as [[? ?] [[? ?] ?]].
    unfold is_serving. cbn. by destruct (cl_status cl). }
  assert (Ht : ∀ p, o = inr p → is_serving cl = true → is_serving (set_status s cl) = true).
  { intros [r f] -> Hv%is_serving_spec. apply is_serving_spec. by apply (serving_stays cl i r f). }
  revert E. unfold outcome. change (resolve_image runtime_image (set_status s cl) (again true seed now i)) with (resolve_image runtime_image cl i).
  cbn [pi_source again pi_runs pi_apply].
  destruct (resolve_image runtime_image cl i) as [image reason refresh immutable| |e]; [|done|].
  - destruct (pi_source i) as [f|res]; [|done]. destruct (is_transient (gf_error f)); cbn [andb]; [|done].
    destruct (is_serving cl) eqn:Hv; intros [= <-]; [by rewrite (Ht _ eq_refl eq_refl)|by rewrite (Hs _ eq_refl)].
  - destruct (image_error_transient e); cbn [andb]; [|done].
    destruct (is_serving cl) eqn:Hv; intros [= <-]; [by rewrite (Ht _ eq_refl eq_refl)|by rewrite (Hs _ eq_refl)].
Qed.

Definition steady_outcome (o : Unresolved + option GitResolution * option Bytes) : Prop :=
  match o with inl why => steady_why why | inr (r, _) => steady_resolution r end.

Lemma outcome_steady serving cl git i o : (∀ f, pi_source i = inl f → steady f) → outcome serving cl git i = Some o → steady_outcome o.
Proof.
  intros Hs. unfold outcome. repeat case_match; intros [= <-]; cbn; unfold steady_why, steady_resolution; intros; simplify_eq; auto.
Qed.

(** A resolution that was published without a refusal shows to a follower. *)
Lemma outcome_shows cl git i r : outcome (is_serving cl) cl git i = Some (inr (r, None)) →
  is_Some (cl_status cl ≫= ct_run_source) ∨ existsb (λ c, bool_decide (cn_type c = CONDITION_SOURCE_RESOLVED)) (resolutions (cl_status cl) r (pi_now i)) = true.
Proof.
  assert (Hsrc : ∀ image reason src, existsb (λ c, bool_decide (cn_type c = CONDITION_SOURCE_RESOLVED))
    (resolutions (cl_status cl) (Some (ImageResolved image reason src)) (pi_now i)) = true).
  { intros. unfold resolution_conditions. destruct (match src with inl _ => _ | inr _ => _ end) as [[? ?] ?]. cbn [existsb cn_type new_condition].
    rewrite (bool_decide_true (CONDITION_SOURCE_RESOLVED = _)) by done. by rewrite orb_true_r. }
  unfold outcome. destruct (resolve_image runtime_image cl i) as [image reason ? ?| |e]; [|done|].
  - destruct (pi_source i) as [f|res]; [|case_match; intros [= <-]; by right]. destruct (_ && _); intros [= <-]. by right.
  - destruct (image_error_transient e && is_serving cl) eqn:Ea; intros [= <-]. left. apply is_serving_spec. by apply andb_true_iff in Ea as [_ ?].
Qed.

Lemma kept_shows s kinds (P : CodeLocationCondition → bool) : (∀ c, P c = true → cn_type c ∈ kinds) →
  existsb P (ct_conditions s) = true → existsb P (kept_conditions (Some s) kinds) = true.
Proof.
  intros Hk (c & Hin & Hc)%existsb_exists. apply existsb_exists. exists c. split; [|done]. apply list_elem_of_In, list_elem_of_filter.
  split; [by apply Hk|by apply list_elem_of_In].
Qed.

Lemma follow_unresolved cl i l seed now : is_Some (cs_git (cl_spec cl)) → is_serving cl = false →
  quiet (unresolved_status' cl UAwaitingLeader (pi_now i)) now
    (ps_status (follow_git' (set_status (unresolved_status' cl UAwaitingLeader (pi_now i)) cl) (again l seed now i))).
Proof.
  intros Hg Hv. right. destruct kinds_facts as (K1 & K2 & _). set (s := unresolved_status' cl UAwaitingLeader (pi_now i)).
  assert (Ec : ct_conditions s = [new_condition (cl_status cl) CONDITION_IMAGE_RESOLVED (asc "Unknown") (asc "AwaitingLeader")
    (Some (asc "follower replica — leader will resolve digest")) (ts_text (pi_now i))]).
  { unfold s. rewrite unresolved_status_eq. cbn [unresolved_text with_conditions ct_conditions unresolved_kind]. by rewrite bool_decide_true. }
  assert (Es : bool_decide (is_Some (ct_run_source s)) = false).
  { rewrite <- Hv. unfold s. rewrite unresolved_status_eq. unfold is_serving. cbn. by destruct (cl_status cl). }
  unfold follow_git. cbn [cl_status set_status]. unfold has_condition. rewrite Ec, Es. cbn [existsb cn_type new_condition].
  rewrite (bool_decide_false (CONDITION_IMAGE_RESOLVED = CONDITION_DEPLOYMENT_AVAILABLE)) by (intros E; apply K1; rewrite <- E; apply list_elem_of_here).
  rewrite (bool_decide_false (CONDITION_IMAGE_RESOLVED = CONDITION_SOURCE_RESOLVED)) by done.
  rewrite (bool_decide_false (ct_phase s = Some Failed)) by done. cbn [andb orb ps_status publish]. f_equal. by apply unresolved_again.
Qed.

Lemma follow_again cl i l seed now s : is_Some (cs_git (cl_spec cl)) →
  ps_status (follow_git' cl i) = Some s → quiet s now (ps_status (follow_git' (set_status s cl) (again l seed now i))).
Proof.
  intros Hg. unfold follow_git at 1. cbv zeta. destruct (match cl_status cl with Some _ => _ | None => _ end) eqn:E1; [done|].
  destruct (match cl_status cl with Some s => _ || has_condition s (λ c, bool_decide (cn_type c = CONDITION_SOURCE_RESOLVED)) | None => _ end) eqn:E2;
    cbn [ps_status publish]; intros [= <-].
  - apply follow_published; [by intros ???|]. destruct (cl_status cl) as [st|]; [|done]. apply orb_true_iff in E2 as [E2|E2].
    + left. by apply bool_decide_eq_true in E2.
    + right. unfold resolution_conditions. apply kept_shows; [|done]. intros c ->%bool_decide_eq_true. right. left.
  - apply follow_unresolved; [done|]. unfold is_serving. destruct (cl_status cl); [|done]. by apply orb_false_iff in E2 as [? _].
Qed.

Lemma git_quiet cl git i l seed now s :
  cs_git (cl_spec cl) = Some git → (pi_leader i = true → pi_still_leader i = true) → (∀ f, pi_source i = inl f → steady f) →
  ps_status (git_pass cl git i) = Some s → quiet s now (ps_status (git_pass (set_status s cl) git (again l seed now i))).
Proof.
  intros Hg Hst Hs. destruct (pi_leader i) eqn:Hl.
  2: { unfold reconcile_git. cbn [pi_leader again]. rewrite Hl, andb_false_r. cbn [negb]. intros H. by apply follow_again. }
  rewrite leader_status by done. intros (o & Eo & ->)%fmap_Some. pose proof (outcome_steady _ _ _ _ _ Hs Eo) as Ho. destruct l.
  - right. rewrite leader_status by done. rewrite (outcome_again cl git i o seed now _ Eo eq_refl). cbn [fmap option_fmap option_map]. f_equal.
    destruct o as [why|[r f]]; cbn [outcome_status pi_now again]; [by apply unresolved_again|]. apply publish_git_again; [done|by left].
  - unfold reconcile_git. cbn [pi_leader again andb negb]. destruct o as [why|[r [m|]]]; cbn [outcome_status].
    + left. apply follow_failed. destruct why as [| |f].
      * exfalso. revert Eo. unfold outcome. assert (Hr : resolve_image runtime_image cl i ≠ IAwaitingLeader).
        { unfold resolve_image. rewrite Hst by done. cbn [negb]. repeat case_match; done. }
        repeat case_match; congruence.
      * done.
      * rewrite unresolved_status_eq. unfold unresolved_text. by destruct (source_failure _ _ _ f _).
    + left. apply follow_refused.
    + apply follow_published; [done|]. by eapply outcome_shows.
Qed.

(** ** Image mode *)
#[local] Abbreviation follow_image' := (follow_image ts_text ts_later error_text).

Lemma follow_image_failed cl i s : ct_phase s = Some Failed →
  Forall (λ c, cn_type c = CONDITION_IMAGE_RESOLVED → cn_status c ≠ asc "True") (ct_conditions s) → ps_status (follow_image' (set_status s cl) i) = None.
Proof.
  intros Hp Hc. unfold follow_image. cbn [cl_status set_status]. destruct (is_git_status s); [done|].
  assert (Hf : has_condition s (λ c, bool_decide (cn_type c = CONDITION_IMAGE_RESOLVED) && bool_decide (cn_status c = asc "True")) = false).
  { unfold has_condition. induction Hc as [|c cs Hc _ IH]; [done|]. cbn [existsb]. rewrite IH, orb_false_r. apply andb_false_iff.
    destruct (decide (cn_type c = CONDITION_IMAGE_RESOLVED)) as [E|E]; [right|left]; apply bool_decide_eq_false; auto. }
  rewrite Hf. by rewrite bool_decide_true.
Qed.

Lemma follow_image_published cl i l seed now p :
  existsb (λ c, bool_decide (cn_type c = CONDITION_IMAGE_RESOLVED) && bool_decide (cn_status c = asc "True")) (image_part (cl_status cl) p (ts_text (pi_now i))) = true →
  quiet (publish_image ts_text cl i p) now (ps_status (follow_image' (set_status (publish_image ts_text cl i p) cl) (again l seed now i))).
Proof.
  intros Hp. right. unfold follow_image. cbn [cl_status set_status].
  assert (Hg : is_git_status (publish_image ts_text cl i p) = false) by apply image_status_not_git. rewrite Hg.
  destruct (image_status_conditions cl {| iu_leader := p; iu_rollout := observe_deployment (pi_deployment i) (pi_pods i); iu_endpoint := pi_endpoint i |} (pi_now i)) as (dep & _ & Ec).
  fold (publish_image ts_text cl i p) in Ec. unfold has_condition. rewrite Ec, existsb_app. cbn [iu_leader]. rewrite Hp. cbn [orb ps_status publish]. f_equal.
  apply publish_image_again. by right.
Qed.

Lemma unresolved_conditions cl why t : cs_git (cl_spec cl) = None → ∃ c, cn_type c = unresolved_kind why ∧ cn_status c = (unresolved_text why t).2.1.1 ∧
  ct_conditions (unresolved_status' cl why t) = c :: kept_conditions (cl_status cl) [CONDITION_WORKSPACE_KEPT].
Proof.
  intros Hg. rewrite unresolved_status_eq. destruct (unresolved_text why t) as [[? ?] [[status reason] text]]. rewrite Hg.
  rewrite (bool_decide_false (is_Some None)) by (by intros [? [=]]).
  exists (new_condition (cl_status cl) (unresolved_kind why) status reason (Some text) (ts_text t)). done.
Qed.

(** No condition of an unresolved image says that it is resolved. *)
Lemma unresolved_no_image cl why t : cs_git (cl_spec cl) = None → (unresolved_text why t).2.1.1 ≠ asc "True" →
  Forall (λ c, cn_type c = CONDITION_IMAGE_RESOLVED → cn_status c ≠ asc "True") (ct_conditions (unresolved_status' cl why t)).
Proof.
  intros Hg Ht. destruct kinds_facts as (_ & _ & _ & _ & _ & K6 & _). destruct (unresolved_conditions cl why t Hg) as (c & _ & Hs & ->).
  constructor; [by rewrite Hs|]. eapply Forall_impl; [apply (of_kinds_ne _ _ CONDITION_IMAGE_RESOLVED (of_kinds_kept _ _) K6)|]. by intros c' H1 H2.
Qed.

Lemma follow_image_unresolved cl i l seed now : cs_git (cl_spec cl) = None → match cl_status cl with Some s => is_git_status s | None => false end = false →
  quiet (unresolved_status' cl UAwaitingLeader (pi_now i)) now
    (ps_status (follow_image' (set_status (unresolved_status' cl UAwaitingLeader (pi_now i)) cl) (again l seed now i))).
Proof.
  intros Hg Hn. destruct kinds_facts as (_ & K2 & _ & _ & _ & _ & K7 & _).
  pose proof (unresolved_no_image cl UAwaitingLeader (pi_now i) Hg ltac:(done)) as Hc. set (s := unresolved_status' cl UAwaitingLeader (pi_now i)) in *.
  assert (Hs : is_git_status s = false).
  { assert (Hp : ∀ st, cl_status cl = Some st → ct_run_source st = None ∧ ct_resolved_commit st = None ∧ ct_resolved_ref st = None ∧ ct_last_fetched_at st = None).
    { intros st Est. rewrite Est in Hn. unfold is_git_status in Hn. repeat (apply orb_false_iff in Hn as [Hn ?]).
      repeat match goal with H : bool_decide (is_Some _) = false |- _ => apply bool_decide_eq_false in H; rewrite <- eq_None_not_Some in H end. done. }
    destruct (unresolved_conditions cl UAwaitingLeader (pi_now i) Hg) as (c & Hk & _ & Ec).
    apply is_git_status_false; [unfold s; rewrite unresolved_status_eq; cbn; destruct (cl_status cl); [by apply Hp|done]..|].
    unfold s. rewrite Ec. constructor; [by rewrite Hk|]. exact (of_kinds_ne _ _ _ (of_kinds_kept _ _) K7). }
  right. unfold follow_image. cbn [cl_status set_status]. rewrite Hs.
  assert (Hf : has_condition s (λ c, bool_decide (cn_type c = CONDITION_IMAGE_RESOLVED) && bool_decide (cn_status c = asc "True")) = false).
  { unfold has_condition. clear -Hc. induction Hc as [|c cs Hc _ IH]; [done|]. cbn [existsb]. rewrite IH, orb_false_r. apply andb_false_iff.
    destruct (decide (cn_type c = CONDITION_IMAGE_RESOLVED)) as [E|E]; [right|left]; apply bool_decide_eq_false; auto. }
  rewrite Hf, (bool_decide_false (ct_phase s = Some Failed)) by done. cbn [ps_status publish]. f_equal. by apply unresolved_again.
Qed.

Lemma follow_image_again cl i l seed now s : cs_git (cl_spec cl) = None →
  ps_status (follow_image' cl i) = Some s → quiet s now (ps_status (follow_image' (set_status s cl) (again l seed now i))).
Proof.
  intros Hg. unfold follow_image at 1. cbv zeta. destruct (match cl_status cl with Some s => is_git_status s | None => false end) eqn:En; [done|].
  destruct (match cl_status cl with Some s => has_condition s _ | None => false end) eqn:Er;
    [|destruct (match cl_status cl with Some s => bool_decide (ct_phase s = Some Failed) | None => false end); [done|]]; cbn [ps_status publish]; intros [= <-].
  - apply follow_image_published. destruct (cl_status cl) as [st|]; [|done]. apply kept_shows; [|done]. intros c [->%bool_decide_eq_true _]%andb_true_iff. left.
  - by apply follow_image_unresolved.
Qed.

(** The workspace stays, or is gone, as it was. *)
Lemma kept_again cl i p image reason kept delete : (cl_status cl ≫= ct_run_source) = None → p = {| ip_image := image; ip_image_reason := reason; ip_workspace_kept := kept |} →
  remove_git_workspace cl uid (pi_runs i) namespace name (pi_deployment i) (pi_left i) = (Some kept, delete) →
  (remove_git_workspace (set_status (publish_image ts_text cl i (Some p)) cl) uid (pi_runs i) namespace name (pi_deployment i) (pi_left i)).1 = Some kept.
Proof.
  intros Hr -> E. destruct kinds_facts as (_ & _ & _ & K4 & _ & K6 & _). set (s := publish_image ts_text cl i _).
  assert (Hk : git_workspace_kept (set_status s cl) (pi_runs i) namespace name (pi_deployment i) = git_workspace_kept cl (pi_runs i) namespace name (pi_deployment i)).
  { unfold git_workspace_kept. cbn [cl_status set_status]. rewrite (bool_decide_false (is_Some (ct_run_source s))) by (by intros [? [=]]).
    destruct (cl_status cl) as [st|]; [|done]. cbn in Hr. by rewrite Hr, (bool_decide_false (is_Some None)) by (by intros [? [=]]). }
  assert (Hg : is_git_status s = false) by apply image_status_not_git.
  destruct (image_status_conditions cl {| iu_leader := Some {| ip_image := image; ip_image_reason := reason; ip_workspace_kept := kept |};
    iu_rollout := observe_deployment (pi_deployment i) (pi_pods i); iu_endpoint := pi_endpoint i |} (pi_now i)) as (dep & Ed & Ec).
  change (image_status' _ _ _) with s in Ec. revert E. unfold remove_git_workspace. destruct uid as [owner|]; [|by intros [= <- _]].
  cbn [cl_status set_status]. rewrite Hg, Ec, Hk, !existsb_app. cbn [existsb iu_leader image_part cn_type new_condition]. rewrite Ed.
  rewrite (bool_decide_false (CONDITION_IMAGE_RESOLVED = _)) by (intros Ek; apply K6; rewrite <- Ek; apply list_elem_of_here).
  rewrite (bool_decide_false (CONDITION_DEPLOYMENT_AVAILABLE = _)) by (intros Ek; apply K4; rewrite <- Ek; apply list_elem_of_here).
  destruct kept as [[r m]|]; cbn [kept_part existsb cn_type new_condition orb negb]; [|done].
  rewrite (bool_decide_true (CONDITION_WORKSPACE_KEPT = _)) by done. cbn [orb negb].
  destruct (match cl_status cl with Some _ => _ | None => false end); cbn [negb]; [|done].
  intros ->. done.
Qed.

Lemma image_quiet cl i l seed now s :
  cs_git (cl_spec cl) = None → (pi_leader i = true → pi_still_leader i = true) → (cl_status cl ≫= ct_run_source) = None →
  ps_status (pass cl i) = Some s → quiet s now (ps_status (pass (set_status s cl) (again l seed now i))).
Proof.
  intros Hg Hst Hr. unfold reconcile_location. cbn [cl_spec set_status]. rewrite Hg. cbn [pi_leader again]. destruct (pi_leader i) eqn:Hl.
  2: { rewrite andb_false_r. cbn [negb]. by apply follow_image_again. }
  rewrite andb_true_r. cbn [negb]. change (resolve_image runtime_image (set_status s cl)) with (resolve_image runtime_image cl).
  destruct (resolve_image runtime_image cl i) as [image reason refresh immutable| |e] eqn:Ei.
  - destruct (aa_deployment (pi_apply i)) as [|] eqn:E1; [done|]. destruct (aa_service (pi_apply i)) as [|] eqn:E2; [done|].
    destruct (remove_git_workspace cl _ _ _ _ _ _) as [[kept|] delete] eqn:Ek; [|done]. cbn [ps_status]. intros [= <-].
    destruct l; cbn [negb].
    + change (resolve_image runtime_image cl (again true seed now i)) with (resolve_image runtime_image cl i). rewrite Ei.
      cbn [pi_apply again pi_runs pi_deployment pi_left]. rewrite E1, E2.
      pose proof (kept_again cl i _ image reason kept delete Hr eq_refl Ek) as Hk.
      destruct (remove_git_workspace (set_status _ _) _ _ _ _ _ _) as [o d]. cbn in Hk. subst o. cbn [ps_status]. right. f_equal.
      apply publish_image_again. by left.
    + apply follow_image_published. cbn [image_part existsb cn_type cn_status new_condition]. by rewrite !bool_decide_true.
  - exfalso. revert Ei. unfold resolve_image. rewrite Hst by done. cbn [negb]. repeat case_match; congruence.
  - cbn [ps_status publish]. intros [= <-]. destruct l; cbn [negb].
    + change (resolve_image runtime_image cl (again true seed now i)) with (resolve_image runtime_image cl i). rewrite Ei. cbn [ps_status publish]. right. f_equal.
      by apply unresolved_again.
    + left. apply follow_image_failed; [done|]. by apply unresolved_no_image.
Qed.
End roundtrip.

(** ** When the next pass runs *)
Lemma refresh_at_least v : (MIN_REFRESH <= parse_refresh_interval v)%Z.
Proof.
  unfold parse_refresh_interval. destruct v as [raw|]; [|by vm_compute]. case_bool_decide; [by vm_compute|].
  destruct (humantime_parse (trim raw)) as [d|]; [|by vm_compute]. destruct (Z.leb_spec MIN_REFRESH (secs d)); [done|reflexivity].
Qed.

Lemma jitter_bounds seed d : (0 <= d)%Z → (d <= jitter seed d <= d + d / 4)%Z.
Proof.
  intros Hd. unfold jitter. set (q := (d / 1000000 / 4)%Z). assert (Hq : (0 <= q)%Z) by (unfold q; by do 2 (apply Z.div_pos; [|lia])).
  pose proof (Z.div_pos d 4 Hd ltac:(lia)) as Hp. destruct (q =? 0)%Z eqn:E; [lia|]. unfold draw. set (span := Z.max _ 1).
  pose proof (Z.mod_le q (2 ^ 64) Hq ltac:(lia)) as Hm.
  pose proof (Z.mod_pos_bound (xorshift seed) span ltac:(lia)) as Hx. assert (Hs : (span <= q + 1)%Z) by lia.
  assert (H4 : (q * 1000000 <= d / 4)%Z) by (unfold q; Z.to_euclidean_division_equations; lia). nia.
Qed.

(** ** The workspace *)

(** A run whose tree must stay. *)
Definition uses (run : RunObject) (k : Bytes) : Prop :=
  is_run_of namespace name run = true ∧ ru_terminal run = false ∧ ∃ source, sp_source (ru_spec run) = Some source ∧ k = key_of source.

Lemma keep_spec target serving runs k :
  k ∈ workspace_keep key_of target serving namespace name runs ↔ k = target ∨ serving = Some k ∨ ∃ run, run ∈ runs ∧ uses run k.
Proof.
  unfold workspace_keep. set (f := λ (keys : gset Bytes) (run : RunObject), _).
  assert (Hf : ∀ K run, k ∈ f K run ↔ k ∈ K ∨ uses run k).
  { intros K run. unfold f, uses. destruct (is_run_of namespace name run); cbn [negb]; [|by split; [left|intros [?|[? _]]]].
    destruct (ru_terminal run); [by split; [left|intros [?|(_ & ? & _)]]|]. destruct (sp_source (ru_spec run)) as [src|].
    - rewrite elem_of_union, elem_of_singleton. split; [intros [->|?]; [right; eauto|by left]|]. by intros [?|(_ & _ & ? & [= <-] & ->)]; [right|left].
    - split; [by left|]. by intros [?|(_ & _ & ? & [=] & _)]. }
  assert (H : ∀ K, k ∈ foldl f K runs ↔ k ∈ K ∨ ∃ run, run ∈ runs ∧ uses run k).
  { induction runs as [|r rs IH]; intros K; cbn [foldl].
    - split; [by left|]. intros [?|(? & Hin & _)]; [done|by apply elem_of_nil in Hin].
    - rewrite IH, Hf. split.
      + intros [[?|?]|(run & ? & ?)]; [by left|right; exists r; split; [left|done]|right; exists run; split; [by right|done]].
      + intros [?|(run & [->|?]%elem_of_cons & ?)]; [by left; left|by left; right|right; eauto]. }
  rewrite H, elem_of_union, elem_of_singleton. clear. destruct serving as [x|]; [rewrite elem_of_singleton|rewrite elem_of_empty]; split.
  - intros [[?| ->]|?]; auto.
  - intros [?|[[= ->]|?]]; auto.
  - intros [[?|[]]|?]; auto.
  - intros [?|[[=]|?]]; auto.
Qed.

Lemma delete_spec cl i : ps_delete (pass cl i) = true →
  pi_leader i = true ∧ cs_git (cl_spec cl) = None ∧ (cl_status cl ≫= ct_run_source) = None ∧
  (∃ d, pi_deployment i = Some d ∧ no_old_pods d = true) ∧
  ∃ runs, pi_runs i = Some runs ∧ ∀ run, run ∈ runs → is_run_of namespace name run = true → sp_source (ru_spec run) = None.
Proof.
  unfold reconcile_location. destruct (cs_git (cl_spec cl)) as [git|].
  { unfold reconcile_git, follow_git, publish. cbv zeta. repeat case_match; done. }
  destruct (pi_leader i); cbn [negb]; [|by unfold follow_image, publish; cbv zeta; repeat case_match].
  destruct (resolve_image runtime_image cl i); [|done..].
  destruct (aa_deployment (pi_apply i)); [done|]. destruct (aa_service (pi_apply i)); [done|].
  assert (Hk : (remove_git_workspace cl uid (pi_runs i) namespace name (pi_deployment i) (pi_left i)).2 = true →
    git_workspace_kept cl (pi_runs i) namespace name (pi_deployment i) = None).
  { unfold remove_git_workspace. destruct uid; [|done]. destruct (negb _); [done|]. destruct (la_objects _) as [|[pvc keep]]; [done|].
    destruct (p ← pvc; _) as [p|]; [|by repeat case_match]. by destruct (git_workspace_kept _ _ _ _ _). }
  intros Hd. assert (H : git_workspace_kept cl (pi_runs i) namespace name (pi_deployment i) = None).
  { apply Hk. revert Hd. destruct (remove_git_workspace _ _ _ _ _ _ _) as [[kept|] delete]; cbn [ps_delete]; done. }
  clear Hk Hd. revert H. unfold git_workspace_kept. destruct (_ || negb _) eqn:E1; [done|]. apply orb_false_iff in E1 as [E1 E2].
  destruct (pi_runs i) as [runs|]; [|done]. case_bool_decide as En; [|done]. intros _. split_and!; [done|done| | |].
  - destruct (cl_status cl) as [st|]; [|done]. cbn. apply bool_decide_eq_false in E1. by apply eq_None_not_Some.
  - destruct (pi_deployment i) as [d|]; [|done]. exists d. by apply negb_false_iff in E2.
  - exists runs. split; [done|]. intros run Hin Hr. apply eq_None_not_Some. intros Hs. apply fmap_nil_inv in En.
    assert (Hf : run ∈ filter (λ r, is_run_of namespace name r = true ∧ is_Some (sp_source (ru_spec r))) runs) by by apply list_elem_of_filter.
    rewrite En in Hf. by apply elem_of_nil in Hf.
Qed.

Lemma apply_keep serving source runs answers applied asked keep :
  apply_git_workspace key_of shared_enabled namespace name serving source runs answers = (applied, asked, Some keep) →
  ∃ rs, runs = Some rs ∧ keep = workspace_keep key_of (key_of source) (key_of <$> serving) namespace name rs.
Proof.
  unfold apply_git_workspace. cbv zeta. destruct shared_enabled; [|done]. destruct (aa_pvc answers) as [|[]]; [done| |done].
  destruct runs as [rs|]; [|by destruct (aa_keep answers)]. exists rs. split; [done|]. by destruct (aa_keep answers); simplify_eq/=.
Qed.

Lemma keep_of_pass cl i keep : ps_keep (pass cl i) = Some keep →
  ∃ target runs, pi_runs i = Some runs ∧ keep = workspace_keep key_of (key_of target) (key_of <$> (cl_status cl ≫= ct_run_source)) namespace name runs ∧
    ∀ t, ps_template (pass cl i) = Some t → pt_source t = Some target.
Proof.
  unfold reconcile_location. destruct (cs_git (cl_spec cl)) as [git|].
  2: { unfold follow_image, publish. cbv zeta. repeat case_match; done. }
  unfold reconcile_git, follow_git, publish. cbv zeta. destruct (negb _); [by repeat case_match|].
  destruct (resolve_image _ _ _) as [image reason refresh immutable| |]; [|done..]. destruct (pi_source i) as [|res]; [done|].
  destruct (apply_git_workspace _ _ _ _ _ _ _ _) as [[applied asked] k] eqn:Ea.
  destruct (match applied with AppliedAll => _ | WaitingForPvc => _ | Refused _ _ => _ | ApplyError => _ end) as [status action].
  cbn [ps_keep ps_template]. intros ->. destruct (apply_keep _ _ _ _ _ _ _ Ea) as (runs & Hr & ->).
  exists (source_of git res image), runs. split_and!; [done|done|]. intros t. destruct asked; by intros [= <-].
Qed.


(** The trees that pods mount or will mount. *)
Definition in_use (cl : CodeLocation) (i : PassInput) (source : RunSource) : Prop :=
  (cl_status cl ≫= ct_run_source) = Some source ∨ (∃ t, ps_template (pass cl i) = Some t ∧ pt_source t = Some source) ∨
  ∃ runs run, pi_runs i = Some runs ∧ run ∈ runs ∧ is_run_of namespace name run = true ∧ ru_terminal run = false ∧ sp_source (ru_spec run) = Some source.

(** C35: the tree the status has runs get, the tree a pass rolls out, and the tree of every run
    that has not ended among those the pass lists under exactly the name of the code location,
    stay: the pass does not delete the claim, and has the tree in every keep-set it publishes. *)
Theorem trees_in_use_stay cl i source : in_use cl i source →
  ps_delete (pass cl i) = false ∧ ∀ keep, ps_keep (pass cl i) = Some keep → key_of source ∈ keep.
Proof.
  intros Hu. split.
  - apply not_true_is_false. intros (_ & Hg & Hs & _ & runs & Hr & Hn)%delete_spec.
    destruct Hu as [Hu|[(t & Ht & Hp)|(runs' & run & Hr' & Hin & Hof & _ & Hsrc)]]; [congruence| |].
    + destruct (pass_template _ _ _ _ _ _ _ _ _ _ _ cl i t Ht source Hp) as (_ & git & _ & Hg' & _). congruence.
    + rewrite Hr in Hr'. injection Hr' as <-. by rewrite (Hn run Hin Hof) in Hsrc.
  - intros keep Hk. destruct (keep_of_pass cl i keep Hk) as (target & runs & Hr & -> & Ht). apply keep_spec.
    destruct Hu as [->|[(t & Et & Hp)|(runs' & run & Hr' & Hin & Hof & Hterm & Hsrc)]]; [by right; left| |].
    + left. specialize (Ht t Et). congruence.
    + right. right. rewrite Hr in Hr'. injection Hr' as <-. exists run. split; [done|]. split_and!; eauto.
Qed.
End location.

(** ** The code location of [LocationExample] *)
Module LocationSteady.
Import AdmissionExample LocationExample.

Lemma second_status : ps_status (pass starting (input 9 1)) = Some (status_at 9 1 starting).
Proof. vm_compute. reflexivity. Qed.


(** The queued run's tree. *)
Lemma trees_in_use_stay_witness :
  ps_delete (pass starting (input 9 1)) = false ∧ ∀ keep, ps_keep (pass starting (input 9 1)) = Some keep → key tree ∈ keep.
Proof.
  apply (trees_in_use_stay text read later_time error runtime true (λ _, false) key (asc "team") (asc "assets") (Some (asc "u1")) starting (input 9 1) tree).
  right. right. exists [queued], queued. split_and!; [reflexivity|apply list_elem_of_here|reflexivity..].
Defined.
End LocationSteady.
